(* ===== verification/_CoqProject ===== *)
-Q . S2P
Prelude.v
BigInt.v
BigIntLimbs.v
BigIntSpec.v
BigIntText.v
BigIntTheorems.v
JsString.v
JsStringTheorems.v
Token.v
Lexer.v
LexerSpec.v
LexerReads.v
LexerNext.v
LexerTokens.v
LexerWords.v
LexerTheorems.v
Ast.v
Opcode.v
Verify.v
VerifySpec.v
VerifyTheorems.v
Machine.v
Vm.v
VmSafety.v
VmTheorems.v
VmSlots.v
Compiler.v
CompileClass.v
CompileExpr.v
CompileStmt.v
CompileUnit.v
CompileSpec.v
CompileGrow.v
CompilePrims.v
CompileTactics.v
CompileScopes.v
CompileClassSpec.v
CompileExprSpec.v
CompileOperatorSpec.v
CompileHoistSpec.v
CompileBlockSpec.v
CompileLoopSpec.v
CompileStmtSpec.v
CompileFinishSpec.v
CompileBuildSpec.v
CompileUnitSpec.v
CompileTheorems.v
Shape.v
ObjectCell.v
ShapeTheorems.v
ObjectCellTheorems.v
Timers.v
TimersTheorems.v
Jobs.v
Deadlines.v
JobsTheorems.v
Regex.v
RegexMatch.v
RegexSafety.v
RegexSpec.v
RegexRuns.v
RegexCorrect.v
RegexStrings.v
RegexTheorems.v
RegexParse.v
RegexNew.v
RegexParseSafety.v
RegexNewTheorems.v
Heap.v
Collect.v
CollectSpec.v
CollectMark.v
CollectVisit.v
CollectEphemeron.v
CollectPhase.v
CollectSweep.v
CollectDone.v
CollectIdle.v
CollectTyped.v
CollectTheorems.v
