(* ===== verification/Prelude.v ===== *)
(** * Verification of the napi-vm engine core

    napi-vm is an ECMAScript engine in Rust.  A source text is parsed, compiled
    to register bytecode, verified, and run by a virtual machine that calls back
    into an interpreter for everything that has guest-visible semantics of its
    own (operators, property access, calls, scopes).  Values are strings of
    UTF-16 units, big integers, and objects whose properties live in slot vectors
    with hidden layouts.  This library models that core, in
    [crates/napi-vm-core/src], and proves what makes it correct.

    ** Files

    - [Prelude]: outcomes of a Rust computation ([Ok], [Err], [Panic]), machine
      integers as [Z] with the wrap-around written out, characters and text, and
      the lemmas on bits that the other files share.
    - [BigInt] ([bigint.rs]): sign and 32-bit limbs, every operation of the
      source as a function, errors as values.  [BigIntLimbs], [BigIntSpec],
      [BigIntText] relate limbs to integers; [BigIntTheorems] states the results.
    - [JsString] ([js_string.rs]): unit vectors with a lazily filled rendering.
      [JsStringTheorems] states the results.
    - [Token] and [Lexer] ([lexer.rs], [span.rs]): tokens and spans, and the lexer as
      a state transformer: space and comments, literals, templates and their
      interpolations, the goal that tells a division from a regular expression.
      [LexerSpec] says what a computation does to the cursor and what may be
      skipped, [LexerReads] and [LexerNext] go through the readers, [LexerTokens]
      through whole texts and their UTF-16 units,
      [LexerWords] reads texts of one token; [LexerTheorems] states the results.
    - [Ast] ([parser/ast.rs], with small parts of [parser/validate.rs],
      [interpreter/mod.rs] and [interpreter/annex.rs]): the syntax tree and the
      walks over it that the compiler uses (bound names, references, captures,
      directives, Annex B functions), and the size of a tree.
    - [Opcode] ([bytecode/opcode.rs], [constants.rs], [function.rs],
      [module.rs]): instructions, constant pools, templates, compiled functions.
    - [Verify] ([bytecode/verify.rs]): the verifier, check by check, with the
      error of each.  [VerifySpec] defines well-formed code without it;
      [VerifyTheorems] states the results.
    - [Machine]: what the virtual machine works on, and the interface
      [Interpreter] of the methods it calls; the state-and-error monad of the
      machine.  [Vm] ([bytecode/vm.rs]): frames and the activation pool, one
      function per section of the instruction set, handler landing, the dispatch
      loop, and the templates of spreads, objects and classes.  [VmSafety],
      [VmTheorems] and [VmSlots] state the results for every [Interpreter].
    - The compiler ([bytecode/compiler.rs]).  [Compiler]: its state and its
      primitive operations in a state-and-decline monad.  [CompileClass],
      [CompileExpr], [CompileStmt]: classes, expressions, patterns and statements,
      each over the recursive functions it calls.  [CompileUnit]: deferred
      functions, finished functions, programs.  [CompileSpec] is the invariant of
      the state and the weakest precondition of a computation; [CompileGrow] says
      what later states keep, [CompilePrims] and [CompileScopes] specify the
      primitives, [CompileTactics] runs a computation by the specifications in the
      hint database [compile].  [CompileClassSpec], [CompileExprSpec],
      [CompileOperatorSpec], [CompileHoistSpec],
      [CompileBlockSpec], [CompileLoopSpec] and [CompileStmtSpec] go through the
      forms of the language; [CompileFinishSpec], [CompileBuildSpec] and
      [CompileUnitSpec] end a unit; [CompileTheorems] states the results.
    - [Shape] ([shape.rs]): the tree of layouts as a store of nodes, and the
      property caches.  [ObjectCell] (the slot storage and attribute table of
      [value.rs]): lookups and maintained writes.  [ShapeTheorems] and
      [ObjectCellTheorems] state the results.
    - [Timers] (the timer queue of [interpreter/jobs.rs]) and [Jobs] (the job
      queues, intervals, waiters and promise settlement of the same file, with
      the clocks of [interpreter/scheduler.rs]).  [TimersTheorems] relates the
      two representations of the timer queue to a sorted list, [Deadlines] the
      floating-point deadlines to their bits, and [JobsTheorems] states the
      results over every reachable queue.
    - [Regex] ([regex/mod.rs], [regex/parse.rs], [regex/unicode.rs]): the syntax
      tree, the index of string alternatives and the class tests.  [RegexMatch]:
      the backtracking matcher with its cells, budgets and continuations, up to
      [find_at].  [RegexSafety] bounds what the matcher reads; [RegexSpec] says
      what a pattern matches as a list of results in order, [RegexRuns] and
      [RegexCorrect] that the matcher finds their first; [RegexStrings] treats the
      string alternatives and [RegexTheorems] states the results.  [RegexParse]
      is the parser of patterns, [RegexNew] the construction of a regular
      expression; [RegexParseSafety] and [RegexNewTheorems] state their results.
    - [Heap] (the data of [heap.rs], [value.rs], [value/weak.rs] and
      [interpreter/env.rs] the collector walks): cells in a store with their
      references and borrow states, the registry, reference counting.  [Collect]
      ([heap.rs]): the marker, ephemerons, pruning, the sweep, [collect].
      [CollectSpec] says what is reachable without the marker; [CollectMark],
      [CollectVisit], [CollectEphemeron] and [CollectPhase] relate the two for
      values, cells, weak maps and the whole phase; [CollectSweep]
      and [CollectDone] follow the references through releases, pruning and the
      sweep; [CollectIdle] and [CollectTyped] are about borrows and typing;
      [CollectTheorems] states the results.

    ** How the code is modelled

    A function of the source is a definition of the same name.  A [usize] index
    is a [nat], an integer of fixed width a [Z] reduced where the source wraps.
    An indexing expression that would panic yields [Panic]; a [Result] error
    yields [Err].  Shared cells are addresses in an explicit store where a claim
    depends on sharing (the layout tree, bindings of arguments objects, the cells
    of the collector), and opaque identities elsewhere (heap objects and
    environments of the machine).  Tables the source takes from generated files
    or another crate (Unicode properties and case folding, identifier characters,
    the syntax validator of patterns) are arguments: the classes [UnicodeTables]
    and [PropertyTables] and function parameters.  The text of a number as a
    property key ([format.rs]) is an argument of the compiler; a slice of the
    source text, the address of a declaration and the site of a template are
    numbers of the tree.  The compiler's recursion over a hash map never depends
    on its order.  The interpreter
    below the machine is a type class with one operation per method the machine
    calls: the theorems quantify over all its instances, so they hold for every
    behaviour of those methods, failures included.

    ** What is proved

    - The verifier accepts exactly the well-formed functions, returns on every
      input without an indexing panic of its own, and reports the first defect.
    - Verified code cannot panic the machine: every register, slot, constant,
      template and cache index of every instruction is in range, the instruction
      pointer stays in the code, and frames stay well formed, for any number of
      turns of the dispatch loop.
    - Every text is read as tokens, without a panic: they cover it in order with
      nothing but white space and comments between them, their spans are ranges of
      its units, in order and apart (the mark of an open template repeats one), and
      a token with a single spelling covers just that.  A string literal
      is the string between its quotes; a word is an identifier unless reserved.
      Five defects are shown by examples (columns after exponents and failed regular
      expressions, an arrow comment in an interpolation, binding names with
      comments, raw text of escapes).
    - The compiler ends on every program, with verified code or with a decline
      that its subset explains; so whatever it compiles runs without a panic.
      Every statement keeps its invariant and its stacks, the enclosing scopes with
      all their names included.  Two defects are shown
      by examples: a [finally] body copied to an exit is compiled with the loops
      and with the scopes of the exit.
    - Abrupt completions land where the language says and cut the stacks to the
      recorded depths; the tail-call test is sound; local slots follow the
      dead-zone and constant rules and constants are immutable; the pool of
      recycled activations is invisible.
    - Property writes refine writes to an association list and indexed reads
      agree with the linear scan when keys are distinct, whatever is cached, until
      the raw slots escape; layouts of at most 128 keys are canonical; the
      layout tree keeps its invariant, identifiers included; a property cache
      answers for the last layout only and gives up after the documented number
      of layouts.
    - The timer queue refines a sorted list; scheduling ends and never gives a
      live identifier away; timers fire in order of deadline and scheduling, and
      only when due; cancellation is exact; deadlines are ordered by their bits
      for every delay; a promise settles once and queues its reactions in order.
    - A property key determines its string, unpaired surrogates included; the
      rendering cache of a string is never stale; decoding and encoding are
      inverse; searching, trimming and case mapping meet their specifications.
    - A search for a regular expression ends without a panic on every input, and
      what it finds is the first match, in the order of alternatives, of the
      leftmost start that has one; the parser ends on every text, and what it
      builds can be searched for.
    - A collection of a managed heap (no module caches a deferred namespace, which
      the tracer does not follow) marks exactly what is reachable, keeps it, prunes
      the weak containers to it, queues each callback once and frees what no
      reference leads to.  It returns when nothing is borrowed and every published
      date has its property cell, and it keeps every heap typed.
    - Every big-integer operator is the operation on integers, with the size cap
      and the errors of the source; radix and word forms convert back, and so does
      the decimal form, except that parsing refuses the texts of the largest
      numbers within the cap.

    ** Bounds and fuel

    Loops over data recurse on the data.  The dispatch loop takes the number of
    turns as fuel; its theorems hold for every fuel, since guest code may run
    forever.  The big-integer loops that are not structural (division, powers,
    radix conversion) take the bit or limb count of their argument as fuel, and
    their theorems show the result is exact, hence that the fuel suffices.
    Layout identifiers are 32-bit and the source lets them wrap; the theorems on
    layouts hold while the counter does not (the predicate [room]).  The compiler
    recurses through cleanups it copies, so it takes fuel: three steps for each
    part of the program, which is shown to be enough for every program, nested
    functions and copied cleanups included.  Its 16-bit and 32-bit counters are
    checked where they are raised, as in the source.  A loop of the lexer takes
    a turn for each character and one more, the loop over tokens three for each
    character, the nesting of templates the length of the text: all are shown to be
    enough.  Its 32-bit counters are checked for overflow, which the theorems exclude
    for texts of fewer than 2^31 characters.  The search
    for a timer identifier takes one turn more than there are identifiers in use,
    and is shown to succeed within them while fewer than 2^53-1 are.

    ** What is not modelled

    The parser (of what it guarantees, the compiler only
    needs that a template has one chunk more than it has holes), the tree-walking
    evaluator and the built-in library (they appear as the interface of the
    machine), what compiled code means in terms of the source language, event-loop turns and
    execution budgets, generators, module loading, the language service, the
    native-addon and plugin hosts, and the conversions between big integers and
    floating point.  The reference count that decides whether a large layout is
    extended in place is an argument; the case tables of characters are an
    argument of case mapping; the texts of verifier errors and the disassembler
    are left out.  In the collector, the stack of a suspended coroutine is the
    references it holds, a cell has only the fields that are read or cleared, and
    a borrow of the heap by a destructor during the sweep does not occur. *)
From stdpp Require Import prelude list strings gmap.
From Stdlib Require Import ZArith Lia.
Import ListNotations.
Local Open Scope Z_scope.

Create HintDb rust.

(** ** Outcome of a Rust computation *)

Inductive outcome (E A : Type) : Type :=
| Ok (a : A)
| Err (e : E)
| Panic.
Arguments Ok {E A} a.
Arguments Err {E A} e.
Arguments Panic {E A}.

Definition obind {E A B} (m : outcome E A) (k : A -> outcome E B) : outcome E B :=
  match m with
  | Ok a => k a
  | Err e => Err e
  | Panic => Panic
  end.

Definition index_or_panic {E A} (l : list A) (i : nat) : outcome E A :=
  match l !! i with Some a => Ok a | None => Panic end.

Declare Scope rust_scope.
Delimit Scope rust_scope with rust.
Notation "'let*' x ':=' m 'in' k" := (obind m (fun x => k))
  (at level 10, x name, m at level 100, k at level 200) : rust_scope.
Notation "m ';*' k" := (obind m (fun _ => k))
  (at level 100, right associativity) : rust_scope.

(** ** Machine integers *)

Definition wrap (w x : Z) : Z := x mod 2 ^ w.
Abbreviation u8 := (wrap 8).
Abbreviation u16 := (wrap 16).
Abbreviation u32 := (wrap 32).
Abbreviation u64 := (wrap 64).
Definition uint (w x : Z) : Prop := 0 <= x < 2 ^ w.

Lemma wrap_id w x : uint w x -> wrap w x = x.
Proof. apply Z.mod_small. Qed.

Lemma wrap_range w x : 0 <= w -> uint w (wrap w x).
Proof. intros H. apply Z.mod_pos_bound. by apply Z.pow_pos_nonneg. Qed.

(** ** Characters and text *)

(** A Rust [char] is its code point, a [str] the list of its characters. *)
Definition chars (s : string) : list Z :=
  map (fun c => Z.of_N (Ascii.N_of_ascii c)) (String.list_ascii_of_string s).

(** [str::strip_prefix] *)
Fixpoint strip_prefix (p l : list Z) : option (list Z) :=
  match p, l with
  | [], _ => Some l
  | x :: p', y :: l' => if x =? y then strip_prefix p' l' else None
  | _ :: _, [] => None
  end.

Definition in_range (lo hi x : Z) : bool := (lo <=? x) && (x <=? hi).

(** A character of a literal, and membership in the characters of a literal. *)
Definition chr (a : Ascii.ascii) : Z := Z.of_nat (Ascii.nat_of_ascii a).
Arguments chr a%_char_scope.

Definition among (s : string) (c : Z) : bool := existsb (Z.eqb c) (chars s).

(** [char::is_ascii_digit], [is_ascii_alphabetic], [is_ascii_alphanumeric] *)
Definition is_ascii_digit (c : Z) : bool := in_range 48 57 c.
Definition is_ascii_alphabetic (c : Z) : bool := in_range 65 90 c || in_range 97 122 c.
Definition is_ascii_alphanumeric (c : Z) : bool := is_ascii_digit c || is_ascii_alphabetic c.

(** [char::is_whitespace]: the Unicode White_Space property. *)
Definition is_whitespace (c : Z) : bool :=
  in_range 9 13 c || (c =? 32) || (c =? 133) || (c =? 160) || (c =? 5760)
  || in_range 8192 8202 c || (c =? 8232) || (c =? 8233) || (c =? 8239)
  || (c =? 8287) || (c =? 12288).

Fixpoint skip_while (p : Z -> bool) (l : list Z) : list Z :=
  match l with
  | x :: l' => if p x then skip_while p l' else l
  | [] => []
  end.

(** [str::trim] *)
Definition trim (l : list Z) : list Z :=
  rev (skip_while is_whitespace (rev (skip_while is_whitespace l))).

(** [char::to_digit] and [char::from_digit], for a radix of at most 36. *)
Definition to_digit (radix c : Z) : option Z :=
  let d :=
    if in_range 48 57 c then c - 48
    else if in_range 97 122 c then c - 97 + 10
    else if in_range 65 90 c then c - 65 + 10
    else radix in
  if d <? radix then Some d else None.

Definition from_digit (radix d : Z) : option Z :=
  if d <? radix then Some (if d <? 10 then 48 + d else 97 + d - 10) else None.

(** Digits of [n] in [radix], most significant first, at least one of them. *)
Fixpoint show_digits (radix : Z) (fuel : nat) (n : Z) (acc : list Z) : list Z :=
  match fuel with
  | O => acc
  | S fuel =>
      let acc := (if n mod radix <? 10 then 48 + n mod radix else 87 + n mod radix) :: acc in
      if n / radix =? 0 then acc else show_digits radix fuel (n / radix) acc
  end.

(** [to_string] of an unsigned integer of at most 64 bits (twenty digits). *)
Definition show_uint (n : Z) : list Z := show_digits 10 20 n [].

(** [{:0n}] pads on the left with the fill character. *)
Definition pad_left (n : nat) (fill : Z) (l : list Z) : list Z :=
  replicate (n - length l) fill ++ l.

(** ** Lists *)

Lemma rev_reverse {A} (l : list A) : rev l = reverse l.
Proof. apply rev_alt. Qed.

(** ** Bits *)

Lemma wrap_land w x : 0 <= w -> wrap w x = Z.land x (Z.ones w).
Proof. intros. by rewrite Z.land_ones. Qed.

Lemma uint_wrap w x : 0 <= w -> uint w x <-> wrap w x = x.
Proof. intros H. split; [apply wrap_id|]. intros <-. by apply wrap_range. Qed.

Lemma uint_lor w x y : 0 <= w -> uint w x -> uint w y -> uint w (Z.lor x y).
Proof.
  intros Hw. rewrite !uint_wrap by done. rewrite !wrap_land by done.
  intros Hx Hy. by rewrite Z.land_lor_distr_l, Hx, Hy.
Qed.

Lemma uint_land w x y : 0 <= w -> uint w x -> uint w (Z.land x y).
Proof.
  intros Hw. rewrite !uint_wrap by done. rewrite !wrap_land by done. intros Hx.
  by rewrite (Z.land_comm x), <- Z.land_assoc, Hx.
Qed.

Lemma uint_lxor w x y : 0 <= w -> uint w x -> uint w y -> uint w (Z.lxor x y).
Proof.
  intros Hw. rewrite !uint_wrap by done. rewrite !wrap_land by done. intros Hx Hy.
  rewrite <- Hx at 2. rewrite <- Hy at 2. apply Z.bits_inj'. intros n Hn.
  rewrite !Z.land_spec, !Z.lxor_spec, !Z.land_spec.
  by destruct (Z.testbit x n), (Z.testbit y n), (Z.testbit (Z.ones w) n).
Qed.

Lemma uint_testbit_high w x n : uint w x -> 0 <= w <= n -> Z.testbit x n = false.
Proof. intros H Hn. rewrite <- (wrap_id w x H). apply Z.mod_pow2_bits_high. lia. Qed.

Lemma testbit_wrap w x n : 0 <= n < w -> Z.testbit (wrap w x) n = Z.testbit x n.
Proof. intros. apply Z.mod_pow2_bits_low. lia. Qed.

Lemma lor_disjoint_add x y : Z.land x y = 0 -> Z.lor x y = x + y.
Proof. intros H. by rewrite (Z.add_nocarry_lxor _ _ H), Z.lxor_lor. Qed.

(** A shifted value and a value below the shift do not overlap. *)
Lemma lor_shiftl_add x c k : 0 <= k -> uint k c -> Z.lor (Z.shiftl x k) c = x * 2 ^ k + c.
Proof.
  intros Hk Hc. rewrite lor_disjoint_add; [by rewrite Z.shiftl_mul_pow2|].
  apply Z.bits_inj'. intros n Hn. rewrite Z.land_spec, Z.bits_0.
  destruct (Z.lt_ge_cases n k).
  - by rewrite Z.shiftl_spec_low.
  - rewrite (uint_testbit_high k c) by (done || lia). apply andb_false_r.
Qed.

Lemma lor_pow2_add x n : 0 <= n -> Z.testbit x n = false -> Z.lor x (2 ^ n) = x + 2 ^ n.
Proof.
  intros Hn Hb. apply lor_disjoint_add. apply Z.bits_inj'. intros m Hm.
  rewrite Z.land_spec, Z.bits_0, Z.pow2_bits_eqb by done.
  destruct (Z.eqb_spec n m) as [<-|]; [by rewrite Hb|apply andb_false_r].
Qed.

Lemma land_1_testbit x : Z.land x 1 = Z.b2z (Z.testbit x 0).
Proof. change 1 with (Z.ones 1). rewrite Z.land_ones by lia. by rewrite Z.bit0_mod. Qed.

Lemma b2z_range b : 0 <= Z.b2z b <= 1.
Proof. destruct b; simpl; lia. Qed.
