(* ===== verification/BigInt.v ===== *)
(** Arbitrary-precision integers of [crates/napi-vm-core/src/bigint.rs]. *)
From stdpp Require Import prelude list strings.
From Stdlib Require Import ZArith Lia.
From S2P Require Import Prelude.
Import ListNotations.
Local Open Scope Z_scope.
Local Open Scope rust_scope.

Module BigInt.

(** ** Data *)

Definition MAX_LIMBS : nat := 4096.

Record BigInt : Type := mkBig { negative : bool; limbs : list Z }.

Abbreviation BigResult A := (outcome string A).

Definition overflow : string := "RangeError: BigInt is too large".

Definition zero : BigInt := mkBig false [].

Definition is_zero (b : BigInt) : bool :=
  match limbs b with [] => true | _ => false end.

(** [while limbs.last() == Some(&0) { limbs.pop(); }] *)
Fixpoint pop_zeros_rev (r : list Z) : list Z :=
  match r with
  | x :: r' => if x =? 0 then pop_zeros_rev r' else r
  | [] => []
  end.

Definition pop_zeros (l : list Z) : list Z := rev (pop_zeros_rev (rev l)).

Definition normalized (neg : bool) (l : list Z) : BigInt :=
  let l := pop_zeros l in
  mkBig (neg && negb (match l with [] => true | _ => false end)) l.

Definition from_i64 (value : Z) : BigInt :=
  let neg := value <? 0 in
  let magnitude := Z.abs value in
  normalized neg [u32 magnitude; u32 (Z.shiftr magnitude 32)].

(** ** Magnitude helpers *)

Fixpoint cmp_zip (a b : list Z) : comparison :=
  match a, b with
  | x :: a', y :: b' => if negb (x =? y) then Z.compare x y else cmp_zip a' b'
  | _, _ => Eq
  end.

Definition cmp_magnitude (a b : list Z) : comparison :=
  if negb (length a =? length b)%nat then Nat.compare (length a) (length b)
  else cmp_zip (rev a) (rev b).

(** [*a.get(index).unwrap_or(&0)] *)
Definition limb_at (a : list Z) (index : nat) : Z := default 0 (a !! index).

Fixpoint add_loop (a b : list Z) (count index : nat) (carry : Z) : list Z * Z :=
  match count with
  | O => ([], carry)
  | S count =>
      let sum := u64 (carry + limb_at a index + limb_at b index) in
      let '(out, c) := add_loop a b count (S index) (Z.shiftr sum 32) in
      (u32 sum :: out, c)
  end.

Definition add_magnitude (a b : list Z) : BigResult (list Z) :=
  let '(out, carry) := add_loop a b (Nat.max (length a) (length b)) 0 0 in
  let out := if 0 <? carry then out ++ [u32 carry] else out in
  if (MAX_LIMBS <? length out)%nat then Err overflow else Ok out.

Fixpoint sub_loop (a b : list Z) (index : nat) (borrow : Z) : list Z :=
  match a with
  | [] => []
  | limb :: a' =>
      let diff := limb - limb_at b index - borrow in
      if diff <? 0
      then u32 (diff + Z.shiftl 1 32) :: sub_loop a' b (S index) 1
      else u32 diff :: sub_loop a' b (S index) 0
  end.

Definition sub_magnitude (a b : list Z) : list Z := sub_loop a b 0 0.

(** The inner [for (j, y) in b.iter().enumerate()] loop of the product: [slot]
    is [i + j]. *)
Fixpoint mul_inner (x : Z) (b : list Z) (slot : nat) (out : list Z) (carry : Z)
  : BigResult (list Z * Z) :=
  match b with
  | [] => Ok (out, carry)
  | y :: b' =>
      let* o := index_or_panic out slot in
      let total := u64 (o + x * y + carry) in
      mul_inner x b' (S slot) (<[slot := u32 total]> out) (Z.shiftr total 32)
  end.

(** [while carry > 0 { out[slot] ...; slot += 1 }]: indexing past the end
    panics, so [length out] iterations are always enough. *)
Fixpoint mul_propagate (fuel slot : nat) (out : list Z) (carry : Z)
  : BigResult (list Z) :=
  if 0 <? carry then
    match fuel with
    | O => Panic
    | S fuel =>
        let* o := index_or_panic out slot in
        let total := u64 (o + carry) in
        mul_propagate fuel (S slot) (<[slot := u32 total]> out) (Z.shiftr total 32)
    end
  else Ok out.

Fixpoint mul_outer (a : list Z) (i : nat) (b out : list Z) : BigResult (list Z) :=
  match a with
  | [] => Ok out
  | x :: a' =>
      let* r := mul_inner x b i out 0 in
      let* out := mul_propagate (S (length (fst r))) (i + length b) (fst r) (snd r) in
      mul_outer a' (S i) b out
  end.

Definition mul_magnitude (a b : list Z) : BigResult (list Z) :=
  match a, b with
  | [], _ | _, [] => Ok []
  | _, _ =>
      if (MAX_LIMBS <? length a + length b)%nat then Err overflow
      else mul_outer a 0 b (replicate (length a + length b) 0)
  end.

(** [for limb in remainder.iter_mut()]: shift left by one, carrying in. *)
Fixpoint shift_in (r : list Z) (carry : Z) : list Z * Z :=
  match r with
  | [] => ([], carry)
  | limb :: r' =>
      let shifted := Z.lor (u64 (Z.shiftl limb 1)) carry in
      let '(out, c) := shift_in r' (u32 (Z.shiftr shifted 32)) in
      (u32 shifted :: out, c)
  end.

Definition bit_of (l : list Z) (bit : nat) : BigResult Z :=
  let* limb := index_or_panic l (bit / 32) in
  Ok (Z.land (Z.shiftr limb (Z.of_nat (bit mod 32))) 1).

(** [for bit in (0..bits).rev()]: [n] bits are still to be processed. *)
Fixpoint divmod_loop (a b : list Z) (n : nat) (quotient remainder : list Z)
  : BigResult (list Z * list Z) :=
  match n with
  | O => Ok (quotient, remainder)
  | S bit =>
      let* carry := bit_of a bit in
      let '(r, c) := shift_in remainder carry in
      let r := if 0 <? c then r ++ [c] else r in
      let r := pop_zeros r in
      match cmp_magnitude r b with
      | Lt => divmod_loop a b bit quotient r
      | _ =>
          let r := pop_zeros (sub_magnitude r b) in
          let* q := index_or_panic quotient (bit / 32) in
          let q := Z.lor q (u32 (Z.shiftl 1 (Z.of_nat (bit mod 32)))) in
          divmod_loop a b bit (<[(bit / 32)%nat := q]> quotient) r
      end
  end.

Definition divmod_magnitude (a b : list Z) : BigResult (list Z * list Z) :=
  match cmp_magnitude a b with
  | Lt => Ok ([], a)
  | _ => divmod_loop a b (length a * 32) (replicate (length a) 0) []
  end.

(** ** Operators *)

Definition add (a b : BigInt) : BigResult BigInt :=
  if Bool.eqb (negative a) (negative b) then
    let* m := add_magnitude (limbs a) (limbs b) in
    Ok (normalized (negative a) m)
  else
    match cmp_magnitude (limbs a) (limbs b) with
    | Eq => Ok zero
    | Gt => Ok (normalized (negative a) (sub_magnitude (limbs a) (limbs b)))
    | Lt => Ok (normalized (negative b) (sub_magnitude (limbs b) (limbs a)))
    end.

Definition negate (a : BigInt) : BigInt := normalized (negb (negative a)) (limbs a).

Definition sub (a b : BigInt) : BigResult BigInt := add a (negate b).

Definition mul (a b : BigInt) : BigResult BigInt :=
  let* m := mul_magnitude (limbs a) (limbs b) in
  Ok (normalized (xorb (negative a) (negative b)) m).

Definition division_by_zero : string := "RangeError: Division by zero".

Definition div (a b : BigInt) : BigResult BigInt :=
  if is_zero b then Err division_by_zero
  else
    let* qr := divmod_magnitude (limbs a) (limbs b) in
    Ok (normalized (xorb (negative a) (negative b)) (fst qr)).

Definition rem (a b : BigInt) : BigResult BigInt :=
  if is_zero b then Err division_by_zero
  else
    let* qr := divmod_magnitude (limbs a) (limbs b) in
    Ok (normalized (negative a) (snd qr)).

(** [u32::leading_zeros] *)
Definition leading_zeros (x : Z) : Z := if x =? 0 then 32 else 31 - Z.log2 x.

Definition bit_length (a : BigInt) : nat :=
  match last (limbs a) with
  | None => 0
  | Some top => (length (limbs a) - 1) * 32 + (32 - Z.to_nat (leading_zeros top))
  end.

(** [for bit in 0..bits]: [n] iterations remain and the current index is [bit]. *)
Fixpoint pow_loop (exponent : list Z) (bits n bit : nat) (result base : BigInt)
  : BigResult BigInt :=
  match n with
  | O => Ok result
  | S n =>
      let* e := bit_of exponent bit in
      let* result := (if e =? 1 then mul result base else Ok result) in
      let* base := (if (bit + 1 <? bits)%nat then mul base base else Ok base) in
      pow_loop exponent bits n (S bit) result base
  end.

Definition negative_exponent : string := "RangeError: Exponent must be non-negative".

Definition pow (a exponent : BigInt) : BigResult BigInt :=
  if negative exponent then Err negative_exponent
  else
    let bits := bit_length exponent in
    pow_loop (limbs exponent) bits bits 0 (from_i64 1) a.

Definition compare (a b : BigInt) : comparison :=
  match negative a, negative b with
  | false, true => Gt
  | true, false => Lt
  | false, false => cmp_magnitude (limbs a) (limbs b)
  | true, true => cmp_magnitude (limbs b) (limbs a)
  end.

Definition small_shift (amount : BigInt) : BigResult nat :=
  if (1 <? length (limbs amount))%nat then Err overflow
  else
    let bits := limb_at (limbs amount) 0 in
    if Z.of_nat MAX_LIMBS * 32 <? bits then Err overflow
    else Ok (Z.to_nat bits).

Fixpoint shl_loop (l : list Z) (offset carry : Z) : list Z * Z :=
  match l with
  | [] => ([], carry)
  | limb :: l' =>
      let c := if offset =? 0 then 0 else Z.shiftr limb (32 - offset) in
      let '(out, c') := shl_loop l' offset c in
      (Z.lor (u32 (Z.shiftl limb offset)) carry :: out, c')
  end.

(** The body of [shl] once the sign of the amount has been tested. *)
Definition shl_nonneg (a amount : BigInt) : BigResult BigInt :=
  let* bits := small_shift amount in
  let offset := Z.of_nat (bits mod 32) in
  let '(out, carry) := shl_loop (limbs a) offset 0 in
  let l := replicate (bits / 32) 0 ++ out in
  let l := if 0 <? carry then l ++ [carry] else l in
  if (MAX_LIMBS <? length l)%nat then Err overflow
  else Ok (normalized (negative a) l).

(** The limbs from [drop] on, each with the low bits of its successor. *)
Fixpoint shr_loop (l : list Z) (offset : Z) : list Z :=
  match l with
  | [] => []
  | limb :: l' =>
      let low := Z.shiftr limb offset in
      let high :=
        if offset =? 0 then 0
        else match l' with next :: _ => u32 (Z.shiftl next (32 - offset)) | [] => 0 end in
      Z.lor low high :: shr_loop l' offset
  end.

(** The body of [shr] once the sign of the amount has been tested; the amount is
    then nonnegative, so the call back to [shl] stays in its own body. *)
Definition shr_nonneg (a amount : BigInt) : BigResult BigInt :=
  let* bits := small_shift amount in
  let dropped := (bits / 32)%nat in
  if (length (limbs a) <=? dropped)%nat then
    Ok (if negative a then from_i64 (-1) else zero)
  else
    let shifted :=
      normalized (negative a)
        (shr_loop (drop dropped (limbs a)) (Z.of_nat (bits mod 32))) in
    if negative a then
      let* restored := shl_nonneg shifted amount in
      match compare restored a with
      | Eq => Ok shifted
      | _ => sub shifted (from_i64 1)
      end
    else Ok shifted.

Definition shl (a amount : BigInt) : BigResult BigInt :=
  if negative amount then shr_nonneg a (negate amount) else shl_nonneg a amount.

Definition shr (a amount : BigInt) : BigResult BigInt :=
  if negative amount then shl_nonneg a (negate amount) else shr_nonneg a amount.

(** [!limb] on [u32]. *)
Definition not32 (x : Z) : Z := u32 (Z.lnot x).

(** Adding the carry limb by limb, stopping at the first zero carry. *)
Fixpoint add_carry (l : list Z) (carry : Z) : list Z :=
  match l with
  | [] => []
  | limb :: l' =>
      let sum := u64 (limb + carry) in
      let c := Z.shiftr sum 32 in
      u32 sum :: (if c =? 0 then l' else add_carry l' c)
  end.

Definition twos_complement (a : BigInt) (width : nat) : list Z :=
  let l := resize width 0 (limbs a) in
  if negb (negative a) then l else add_carry (map not32 l) 1.

Definition from_twos_complement (l : list Z) : BigInt :=
  let neg := match last l with Some limb => Z.shiftr limb 31 =? 1 | None => false end in
  if negb neg then normalized false l
  else normalized true (add_carry (map not32 l) 1).

Definition bitwise (op : Z -> Z -> Z) (a b : BigInt) : BigResult BigInt :=
  let width := (Nat.max (length (limbs a)) (length (limbs b)) + 1)%nat in
  Ok (from_twos_complement (zip_with op (twos_complement a width) (twos_complement b width))).

Definition bitand : BigInt -> BigInt -> BigResult BigInt := bitwise Z.land.
Definition bitor : BigInt -> BigInt -> BigResult BigInt := bitwise Z.lor.
Definition bitxor : BigInt -> BigInt -> BigResult BigInt := bitwise Z.lxor.
Definition bitnot (a : BigInt) : BigResult BigInt := sub (negate a) (from_i64 1).

Definition mask_limb (bits index : nat) (limb : Z) : Z :=
  let low := (index * 32)%nat in
  if (bits <=? low)%nat then 0
  else if (bits <? low + 32)%nat then Z.land limb (u32 (Z.shiftl 1 (Z.of_nat (bits - low))) - 1)
  else limb.

Definition extend_limb (bits index : nat) (limb : Z) : Z :=
  let low := (index * 32)%nat in
  if (bits <=? low)%nat then 2 ^ 32 - 1
  else if (bits <? low + 32)%nat
       then Z.lor limb (not32 (u32 (Z.shiftl 1 (Z.of_nat (bits - low))) - 1))
  else limb.

Definition as_n_bit (a : BigInt) (bits : nat) (signed : bool) : BigResult BigInt :=
  if (bits =? 0)%nat then Ok zero
  else if (signed && (bit_length a <? bits)%nat)
          || (negb signed && negb (negative a) && (bit_length a <=? bits)%nat)
  then Ok a
  else if (MAX_LIMBS * 32 <? bits)%nat then Err overflow
  else
    let width := ((bits + 31) / 32 + 1)%nat in
    let l := imap (mask_limb bits) (twos_complement a width) in
    let* top := bit_of l (bits - 1) in
    if signed && (top =? 1)
    then Ok (from_twos_complement (imap (extend_limb bits) l))
    else Ok (normalized false l).

(** ** Conversions *)

(** [chunks(2)] of the limbs, each pair one 64-bit word. *)
Fixpoint pair_words (l : list Z) : list Z :=
  match l with
  | [] => []
  | [low] => [Z.lor (u64 (Z.shiftl 0 32)) low]
  | low :: high :: l' => Z.lor (u64 (Z.shiftl high 32)) low :: pair_words l'
  end.

Definition to_words (a : BigInt) : bool * list Z := (negative a, pair_words (limbs a)).

Definition from_words (neg : bool) (words : list Z) : BigInt :=
  normalized neg (flat_map (fun word => [u32 word; u32 (Z.shiftr word 32)]) words).

Definition syntax_error : string := "SyntaxError: Cannot convert to a BigInt".

Definition strip_either (p q : string) (l : list Z) : option (list Z) :=
  match strip_prefix (chars p) l with
  | Some r => Some r
  | None => strip_prefix (chars q) l
  end.

Fixpoint parse_digits (radix : Z) (digits : list Z) (value : BigInt) : BigResult BigInt :=
  match digits with
  | [] => Ok value
  | c :: digits =>
      if c =? 95 then parse_digits radix digits value
      else
        match to_digit radix c with
        | None => Err syntax_error
        | Some digit =>
            let* value := mul value (from_i64 radix) in
            let* value := add value (from_i64 digit) in
            parse_digits radix digits value
        end
  end.

Definition parse (text : list Z) : BigResult BigInt :=
  let text := trim text in
  match text with
  | [] => Ok zero
  | _ =>
      let '(neg, rest) :=
        match strip_prefix (chars "-") text with
        | Some rest => (true, rest)
        | None => (false, default text (strip_prefix (chars "+") text))
        end in
      let '(radix, digits) :=
        match strip_either "0x" "0X" rest with
        | Some d => (16, d)
        | None =>
            match strip_either "0o" "0O" rest with
            | Some d => (8, d)
            | None =>
                match strip_either "0b" "0B" rest with
                | Some d => (2, d)
                | None => (10, rest)
                end
            end
        end in
      match digits with
      | [] => Err syntax_error
      | _ =>
          let* value := parse_digits radix digits zero in
          Ok (mkBig (neg && negb (is_zero value)) (limbs value))
      end
  end.

(** One pass of [for limb in limbs.iter_mut().rev()]: the limbs are given most
    significant first, the quotient limbs come back in that order. *)
Fixpoint div_pass (d : Z) (l : list Z) (remainder : Z) : list Z * Z :=
  match l with
  | [] => ([], remainder)
  | limb :: l' =>
      let current := Z.lor (u64 (Z.shiftl remainder 32)) limb in
      let '(out, r) := div_pass d l' (current mod d) in
      (u32 (current / d) :: out, r)
  end.

(** [while !limbs.is_empty()]: the remainders of repeated division by [d], least
    significant first.  Each pass at least halves the value, so one iteration per
    bit is enough; running out of fuel is reported as a panic. *)
Fixpoint div_chunks (d : Z) (fuel : nat) (l : list Z) : BigResult (list Z) :=
  match l with
  | [] => Ok []
  | _ =>
      match fuel with
      | O => Panic
      | S fuel =>
          let '(q, r) := div_pass d (rev l) 0 in
          let* rest := div_chunks d fuel (pop_zeros (rev q)) in
          Ok (u32 r :: rest)
      end
  end.

Definition div_fuel (l : list Z) : nat := S (length l * 32).

(** The chunks are popped from the most significant end: the first with
    [to_string], the others with [{:09}]. *)
Definition to_decimal (a : BigInt) : BigResult (list Z) :=
  if is_zero a then Ok (chars "0")
  else
    let* chunks := div_chunks 1000000000 (div_fuel (limbs a)) (limbs a) in
    let sign := if negative a then chars "-" else [] in
    match rev chunks with
    | [] => Ok (sign ++ show_uint 0)
    | top :: others => Ok (sign ++ show_uint top ++ flat_map (pad_left 9 48 ∘ show_uint) others)
    end.

Fixpoint from_digits (radix : Z) (digits : list Z) : BigResult (list Z) :=
  match digits with
  | [] => Ok []
  | d :: digits =>
      match from_digit radix d with
      | None => Panic
      | Some c => let* rest := from_digits radix digits in Ok (c :: rest)
      end
  end.

Definition to_radix (a : BigInt) (radix : Z) : BigResult (list Z) :=
  if radix =? 10 then to_decimal a
  else if is_zero a then Ok (chars "0")
  else
    let* remainders := div_chunks radix (div_fuel (limbs a)) (limbs a) in
    let* digits := from_digits radix remainders in
    Ok (rev (digits ++ (if negative a then chars "-" else []))).

End BigInt.
