(* ===== verification/BigIntLimbs.v ===== *)
(** Limb-level facts about the magnitude helpers. *)
From stdpp Require Import prelude list strings.
From Stdlib Require Import ZArith Lia.
From S2P Require Import Prelude BigInt.
Import ListNotations BigInt.
Local Open Scope Z_scope.

(** The base of the limbs, and the value of a limb list. *)
Abbreviation B := (2 ^ 32).

Fixpoint value (l : list Z) : Z :=
  match l with [] => 0 | x :: l' => x + B * value l' end.

Definition limbs_ok (l : list Z) : Prop := Forall (uint 32) l.

(** No most significant zero limb. *)
Definition trimmed (l : list Z) : Prop := last l <> Some 0.

Definition Bn (n : nat) : Z := B ^ Z.of_nat n.

Lemma Bn_0 : Bn 0 = 1. Proof. done. Qed.
Lemma Bn_S n : Bn (S n) = B * Bn n.
Proof. unfold Bn. rewrite Nat2Z.inj_succ, Z.pow_succ_r; lia. Qed.
Lemma Bn_add n m : Bn (n + m) = Bn n * Bn m.
Proof. unfold Bn. rewrite Nat2Z.inj_add, Z.pow_add_r; lia. Qed.
Lemma Bn_pos n : 0 < Bn n.
Proof. apply Z.pow_pos_nonneg; lia. Qed.
Lemma Bn_pow2 n : Bn n = 2 ^ (32 * Z.of_nat n).
Proof. unfold Bn. rewrite <- Z.pow_mul_r; lia. Qed.
Lemma Bn_le n m : (n <= m)%nat -> Bn n <= Bn m.
Proof. intros. apply Z.pow_le_mono_r; lia. Qed.

Lemma limbs_ok_cons x l : limbs_ok (x :: l) <-> uint 32 x /\ limbs_ok l.
Proof. apply Forall_cons. Qed.
Lemma limbs_ok_app l k : limbs_ok (l ++ k) <-> limbs_ok l /\ limbs_ok k.
Proof. apply Forall_app. Qed.
Lemma limbs_ok_nil : limbs_ok []. Proof. constructor. Qed.
Lemma limbs_ok_zeros n : limbs_ok (replicate n 0).
Proof. apply Forall_replicate. unfold uint; lia. Qed.
Lemma limbs_ok_insert l i x : limbs_ok l -> uint 32 x -> limbs_ok (<[i := x]> l).
Proof. intros. by apply Forall_insert. Qed.
Lemma limbs_ok_rev l : limbs_ok (rev l) <-> limbs_ok l.
Proof. unfold limbs_ok. by rewrite rev_reverse, Forall_reverse. Qed.
Lemma limbs_ok_lookup l i x : limbs_ok l -> l !! i = Some x -> uint 32 x.
Proof. intros H. by apply Forall_lookup_1. Qed.
Lemma u32_ok x : uint 32 (u32 x). Proof. apply wrap_range; lia. Qed.
Lemma limbs_ok_drop n l : limbs_ok l -> limbs_ok (drop n l).
Proof. apply Forall_drop. Qed.
Lemma limbs_ok_take n l : limbs_ok l -> limbs_ok (take n l).
Proof. apply Forall_take. Qed.
#[export] Hint Resolve limbs_ok_nil limbs_ok_zeros limbs_ok_insert u32_ok
  limbs_ok_drop limbs_ok_take : rust.

Lemma value_app l k : value (l ++ k) = value l + Bn (length l) * value k.
Proof.
  induction l as [|x l IH]; [cbn [length app value]; rewrite Bn_0; lia|].
  change ((x :: l) ++ k) with (x :: (l ++ k)). cbn [value length].
  rewrite IH, Bn_S. ring.
Qed.

Lemma value_zeros n : value (replicate n 0) = 0.
Proof. induction n as [|n IH]; [done|]. cbn [replicate value]. rewrite IH. lia. Qed.

Lemma value_bound l : limbs_ok l -> 0 <= value l < Bn (length l).
Proof.
  induction l as [|x l IH]; [cbn [length value]; rewrite Bn_0; lia|].
  intros [Hx Hl]%limbs_ok_cons. specialize (IH Hl). unfold uint in Hx.
  cbn [value length]. rewrite Bn_S. lia.
Qed.

Lemma value_nonneg l : limbs_ok l -> 0 <= value l.
Proof. intros H%value_bound. lia. Qed.

Lemma value_insert l i o x :
  l !! i = Some o -> value (<[i := x]> l) = value l + (x - o) * Bn i.
Proof.
  revert i. induction l as [|y l IH]; intros [|i] H; simplify_eq/=.
  - unfold Bn. simpl. lia.
  - change (<[S i := x]> (y :: l)) with (y :: <[i := x]> l). cbn [value].
    rewrite (IH _ H), Bn_S. ring.
Qed.

Lemma value_take_drop n l : value l = value (take n l) + Bn (length (take n l)) * value (drop n l).
Proof. rewrite <- value_app. by rewrite take_drop. Qed.

(** ** Trailing zeros *)

Lemma pop_zeros_rev_split r :
  exists k, r = replicate k 0 ++ pop_zeros_rev r /\ head (pop_zeros_rev r) <> Some 0.
Proof.
  induction r as [|x r IH]; [by exists 0%nat|]. cbn [pop_zeros_rev].
  destruct (Z.eqb_spec x 0) as [->|Hx].
  - destruct IH as (k & Hk & Hh). exists (S k). split; [|done]. simpl. by rewrite <- Hk.
  - exists 0%nat. split; [done|]. simpl. congruence.
Qed.

Lemma pop_zeros_split l :
  exists k, l = pop_zeros l ++ replicate k 0 /\ trimmed (pop_zeros l).
Proof.
  unfold pop_zeros. destruct (pop_zeros_rev_split (rev l)) as (k & Hk & Hh).
  exists k. split.
  - rewrite <- (rev_involutive l) at 1. rewrite Hk at 1. rewrite rev_app_distr. f_equal.
    rewrite rev_reverse. apply reverse_replicate.
  - unfold trimmed. rewrite rev_reverse, last_reverse. done.
Qed.

Lemma value_pop_zeros l : value (pop_zeros l) = value l.
Proof.
  destruct (pop_zeros_split l) as (k & Hk & _). rewrite Hk at 2.
  rewrite value_app, value_zeros. lia.
Qed.

Lemma limbs_ok_pop_zeros l : limbs_ok l -> limbs_ok (pop_zeros l).
Proof.
  intros H. destruct (pop_zeros_split l) as (k & Hk & _). rewrite Hk in H.
  by apply limbs_ok_app in H as [? _].
Qed.

Lemma trimmed_pop_zeros l : trimmed (pop_zeros l).
Proof. by destruct (pop_zeros_split l) as (k & _ & H). Qed.

Lemma length_pop_zeros l : (length (pop_zeros l) <= length l)%nat.
Proof.
  destruct (pop_zeros_split l) as (k & Hk & _). rewrite Hk at 2. rewrite length_app. lia.
Qed.
#[export] Hint Resolve limbs_ok_pop_zeros trimmed_pop_zeros : rust.

Lemma trimmed_nil : trimmed []. Proof. done. Qed.
#[export] Hint Resolve trimmed_nil : rust.

Lemma trimmed_cons x l : trimmed (x :: l) -> l <> [] -> trimmed l.
Proof. unfold trimmed. destruct l; [done|]. by rewrite last_cons_cons. Qed.

Lemma trimmed_tail x l : trimmed (x :: l) -> trimmed l.
Proof. intros H. destruct l; [done|]. by apply trimmed_cons in H. Qed.

(** A trimmed list is as long as its value needs. *)
Lemma value_lower l : limbs_ok l -> trimmed l -> l <> [] -> Bn (length l - 1) <= value l.
Proof.
  induction l as [|x l IH]; [done|]. intros [Hx Hl]%limbs_ok_cons Ht _.
  unfold uint in Hx. cbn [value length]. rewrite Nat.sub_succ, Nat.sub_0_r.
  destruct l as [|y l].
  - unfold trimmed in Ht. simpl in Ht. cbn [length value]. rewrite Bn_0. assert (x <> 0) by congruence. lia.
  - specialize (IH Hl (trimmed_tail _ _ Ht) ltac:(done)).
    cbn [length] in *. rewrite Nat.sub_succ, Nat.sub_0_r in IH. rewrite Bn_S. lia.
Qed.

Lemma value_zero_nil l : limbs_ok l -> trimmed l -> value l = 0 <-> l = [].
Proof.
  intros Ho Ht. split; [|by intros ->]. intros Hv. destruct l as [|x l]; [done|exfalso].
  pose proof (value_lower _ Ho Ht ltac:(done)). pose proof (Bn_pos (length (x :: l) - 1)). lia.
Qed.

Lemma value_inj l k :
  length l = length k -> limbs_ok l -> limbs_ok k -> value l = value k -> l = k.
Proof.
  revert k. induction l as [|x l IH]; intros [|y k] Hlen; try done.
  intros [Hx Hl]%limbs_ok_cons [Hy Hk]%limbs_ok_cons Hv. cbn [value] in Hv.
  unfold uint in *. injection Hlen as Hlen. assert (x = y) by lia. f_equal; [done|].
  apply IH; auto. lia.
Qed.

Lemma value_length_lt l k :
  limbs_ok l -> limbs_ok k -> trimmed k -> (length l < length k)%nat -> value l < value k.
Proof.
  intros Hl Hk Ht Hlt. pose proof (value_bound l Hl).
  assert (k <> []) by (destruct k; simpl in *; [lia|done]).
  pose proof (value_lower k Hk Ht ltac:(done)).
  pose proof (Bn_le (length l) (length k - 1) ltac:(lia)). lia.
Qed.

Lemma value_trimmed_inj l k :
  limbs_ok l -> limbs_ok k -> trimmed l -> trimmed k -> value l = value k -> l = k.
Proof.
  intros Hl Hk Htl Htk Hv. apply value_inj; auto.
  destruct (lt_eq_lt_dec (length l) (length k)) as [[H|H]|H]; [|done|].
  - pose proof (value_length_lt _ _ Hl Hk Htk H). lia.
  - pose proof (value_length_lt _ _ Hk Hl Htl H). lia.
Qed.

(** ** Comparison *)

Lemma cmp_zip_snoc l k x y :
  length l = length k ->
  cmp_zip (l ++ [x]) (k ++ [y]) = match cmp_zip l k with Eq => Z.compare x y | c => c end.
Proof.
  revert k. induction l as [|a l IH]; intros [|b k] Hlen; try done; simpl.
  - destruct (Z.eqb_spec x y) as [->|]; simpl; [by rewrite Z.compare_refl|]. by destruct (x ?= y).
  - destruct (Z.eqb_spec a b) as [->|Hab]; simpl; [by apply IH; injection Hlen|].
    destruct (Z.compare_spec a b); [lia|done..].
Qed.

Lemma cmp_zip_rev l k :
  length l = length k -> limbs_ok l -> limbs_ok k ->
  cmp_zip (rev l) (rev k) = Z.compare (value l) (value k).
Proof.
  revert k. induction l as [|x l IH]; intros [|y k] Hlen; try done.
  intros [Hx Hl]%limbs_ok_cons [Hy Hk]%limbs_ok_cons. injection Hlen as Hlen.
  cbn [rev value]. rewrite cmp_zip_snoc by (by rewrite !length_rev).
  rewrite (IH k Hlen Hl Hk). unfold uint in *.
  destruct (Z.compare_spec (value l) (value k)) as [->| |]; symmetry.
  - destruct (Z.compare_spec x y);
      [apply Z.compare_eq_iff|apply Z.compare_lt_iff|apply Z.compare_gt_iff]; lia.
  - apply Z.compare_lt_iff. lia.
  - apply Z.compare_gt_iff. lia.
Qed.

Lemma cmp_magnitude_spec l k :
  limbs_ok l -> limbs_ok k -> trimmed l -> trimmed k ->
  cmp_magnitude l k = Z.compare (value l) (value k).
Proof.
  intros Hl Hk Htl Htk. unfold cmp_magnitude.
  destruct (Nat.eqb_spec (length l) (length k)) as [Heq|Hne]; simpl; [by apply cmp_zip_rev|].
  destruct (Nat.compare_spec (length l) (length k)) as [?|Hlt|Hgt]; [lia| |]; symmetry.
  - apply Z.compare_lt_iff. by apply value_length_lt.
  - apply Z.compare_gt_iff. by apply value_length_lt.
Qed.

(** ** Addition *)

Lemma u32_shift_split x : 0 <= x -> u32 x + B * Z.shiftr x 32 = x.
Proof. intros. unfold wrap. rewrite Z.shiftr_div_pow2 by lia. pose proof (Z.div_mod x B). lia. Qed.

Lemma limb_at_ok a i : limbs_ok a -> uint 32 (limb_at a i).
Proof.
  intros H. unfold limb_at. destruct (a !! i) eqn:E; simpl; [by eapply limbs_ok_lookup|].
  unfold uint; lia.
Qed.

Lemma limb_at_S a i : limb_at a (S i) = limb_at (tail a) i.
Proof. destruct a; [by destruct i|done]. Qed.

Lemma value_limb_tail a : value a = limb_at a 0 + B * value (tail a).
Proof. by destruct a. Qed.

Lemma limbs_ok_tail a : limbs_ok a -> limbs_ok (tail a).
Proof. destruct a; [done|]. by intros [_ ?]%limbs_ok_cons. Qed.

Lemma add_loop_shift a b n i c : add_loop a b n (S i) c = add_loop (tail a) (tail b) n i c.
Proof.
  revert i c. induction n as [|n IH]; intros i c; [done|]. cbn [add_loop].
  by rewrite !limb_at_S, IH.
Qed.

Lemma add_loop_spec n a b c :
  limbs_ok a -> limbs_ok b -> 0 <= c <= 1 ->
  (length a <= n)%nat -> (length b <= n)%nat ->
  let r := add_loop a b n 0 c in
  limbs_ok (fst r) /\ length (fst r) = n /\ 0 <= snd r <= 1 /\
  value (fst r) + Bn n * snd r = value a + value b + c.
Proof.
  revert a b c. induction n as [|n IH]; intros a b c Ha Hb Hc Hla Hlb.
  - destruct a, b; simpl in Hla, Hlb; try lia. cbn [add_loop fst snd value length].
    rewrite Bn_0. split_and!; auto with rust; lia.
  - pose proof (limb_at_ok a 0 Ha) as H1. pose proof (limb_at_ok b 0 Hb) as H2.
    unfold uint in H1, H2. cbn [add_loop]. rewrite add_loop_shift.
    rewrite (wrap_id 64) by (unfold uint; lia).
    set (sum := c + limb_at a 0 + limb_at b 0).
    pose proof (u32_shift_split sum ltac:(lia)) as Hs. pose proof (u32_ok sum) as Hu.
    specialize (IH (tail a) (tail b) (Z.shiftr sum 32) (limbs_ok_tail _ Ha) (limbs_ok_tail _ Hb)).
    unfold uint in Hu.
    destruct (add_loop (tail a) (tail b) n 0 (Z.shiftr sum 32)) as [out c'].
    cbn [fst snd] in *. destruct IH as (Ho & Hlen & Hc' & Hv);
      [lia|destruct a; simpl in *; lia|destruct b; simpl in *; lia|].
    split; [by apply limbs_ok_cons; split; [apply u32_ok|]|].
    split; [simpl; by rewrite Hlen|]. split; [done|].
    rewrite (value_limb_tail a), (value_limb_tail b). cbn [value]. rewrite Bn_S. lia.
Qed.

Lemma add_magnitude_spec a b :
  limbs_ok a -> limbs_ok b ->
  match add_magnitude a b with
  | Ok m => limbs_ok m /\ value m = value a + value b /\ (length m <= MAX_LIMBS)%nat
  | Err e => e = overflow /\
      ((MAX_LIMBS < length a)%nat \/ (MAX_LIMBS < length b)%nat \/ Bn MAX_LIMBS <= value a + value b)
  | Panic => False
  end.
Proof.
  intros Ha Hb. unfold add_magnitude.
  pose proof (add_loop_spec (Nat.max (length a) (length b)) a b 0 Ha Hb
                ltac:(lia) ltac:(lia) ltac:(lia)) as H.
  destruct (add_loop a b _ 0 0) as [out c]. cbn [fst snd] in H.
  destruct H as (Ho & Hlen & Hc & Hv).
  destruct (Z.ltb_spec 0 c) as [Hpos|Hz].
  - assert (c = 1) as -> by lia.
    destruct (Nat.ltb_spec MAX_LIMBS (length (out ++ [u32 1]))) as [Hov|Hin];
      rewrite length_app in *; cbn [length] in *.
    + split; [done|]. destruct (decide (MAX_LIMBS < Nat.max (length a) (length b))%nat); [lia|].
      right; right. assert (Nat.max (length a) (length b) = MAX_LIMBS) as E by lia.
      rewrite E in Hv. pose proof (value_nonneg _ Ho). lia.
    + rewrite value_app. rewrite limbs_ok_app, limbs_ok_cons. change (u32 1) with 1.
      cbn [value]. rewrite Hlen. split_and!; auto with rust; unfold uint; lia.
  - assert (c = 0) as -> by lia.
    destruct (Nat.ltb_spec MAX_LIMBS (length out)) as [Hov|Hin]; [split; [done|]; lia|].
    split_and!; auto; try lia.
Qed.

(** ** Subtraction *)

Lemma sub_loop_shift a b i c : sub_loop a b (S i) c = sub_loop a (tail b) i c.
Proof.
  revert i c. induction a as [|x a IH]; intros i c; [done|]. cbn [sub_loop].
  rewrite !limb_at_S, !IH. done.
Qed.

Lemma sub_loop_spec a b c :
  limbs_ok a -> limbs_ok b -> 0 <= c <= 1 -> value b + c <= value a ->
  limbs_ok (sub_loop a b 0 c) /\ length (sub_loop a b 0 c) = length a /\
  value (sub_loop a b 0 c) = value a - value b - c.
Proof.
  revert b c. induction a as [|x a IH]; intros b c Ha Hb Hc Hle.
  - pose proof (value_nonneg _ Hb). cbn [sub_loop value] in *. split_and!; auto with rust; lia.
  - apply limbs_ok_cons in Ha as [Hx Ha]. pose proof (limb_at_ok b 0 Hb) as Hy.
    rewrite (value_limb_tail b) in *. cbn [sub_loop value] in *. unfold uint in *.
    rewrite !sub_loop_shift.
    pose proof (limbs_ok_tail _ Hb) as Htl. change (Z.shiftl 1 32) with B.
    destruct (Z.ltb_spec (x - limb_at b 0 - c) 0) as [Hneg|Hpos].
    + specialize (IH (tail b) 1 Ha Htl ltac:(lia) ltac:(lia)) as (Ho & Hl & Hv).
      rewrite wrap_id by (unfold uint; lia). cbn [value length]. rewrite Hl, Hv.
      split_and!; [apply limbs_ok_cons; split; [unfold uint; lia|done]|done|lia].
    + specialize (IH (tail b) 0 Ha Htl ltac:(lia) ltac:(lia)) as (Ho & Hl & Hv).
      rewrite wrap_id by (unfold uint; lia). cbn [value length]. rewrite Hl, Hv.
      split_and!; [apply limbs_ok_cons; split; [unfold uint; lia|done]|done|lia].
Qed.

Lemma sub_magnitude_spec a b :
  limbs_ok a -> limbs_ok b -> value b <= value a ->
  limbs_ok (sub_magnitude a b) /\ value (sub_magnitude a b) = value a - value b.
Proof.
  intros Ha Hb Hle. destruct (sub_loop_spec a b 0 Ha Hb ltac:(lia) ltac:(lia)) as (? & _ & ?).
  split; [done|]. unfold sub_magnitude. lia.
Qed.

(** ** Multiplication *)

Lemma u64_product x y o c :
  uint 32 x -> uint 32 y -> uint 32 o -> uint 32 c -> uint 64 (o + x * y + c).
Proof. unfold uint. intros. nia. Qed.

Lemma shiftr32_range x : uint 64 x -> uint 32 (Z.shiftr x 32).
Proof.
  unfold uint. intros. rewrite Z.shiftr_div_pow2 by lia.
  split; [apply Z.div_pos; lia|apply Z.div_lt_upper_bound; lia].
Qed.

Lemma mul_inner_spec x b slot out c :
  uint 32 x -> limbs_ok b -> limbs_ok out -> uint 32 c -> (slot + length b <= length out)%nat ->
  exists out' c', mul_inner x b slot out c = Ok (out', c') /\
    limbs_ok out' /\ length out' = length out /\ uint 32 c' /\
    value out' + Bn (slot + length b) * c' = value out + Bn slot * (x * value b + c).
Proof.
  revert slot out c. induction b as [|y b IH]; intros slot out c Hx Hb Ho Hc Hlen.
  - exists out, c. cbn [mul_inner length value]. rewrite Nat.add_0_r. split_and!; auto; lia.
  - apply limbs_ok_cons in Hb as [Hy Hb]. cbn [length] in Hlen.
    destruct (lookup_lt_is_Some_2 out slot ltac:(lia)) as [o Hso].
    pose proof (limbs_ok_lookup _ _ _ Ho Hso) as Hoo.
    cbn [mul_inner]. unfold index_or_panic. rewrite Hso. cbn [obind].
    pose proof (u64_product x y o c Hx Hy Hoo Hc) as H64.
    rewrite (wrap_id 64) by done. set (total := o + x * y + c) in *.
    pose proof (u32_shift_split total ltac:(unfold uint in H64; lia)) as Hs.
    destruct (IH (S slot) (<[slot := u32 total]> out) (Z.shiftr total 32)) as
      (out' & c' & Heq & Ho' & Hl' & Hc' & Hv); auto with rust.
    { by apply shiftr32_range. } { rewrite length_insert. lia. }
    exists out', c'. split; [done|]. split; [done|]. rewrite length_insert in Hl'.
    split; [done|]. split; [done|]. rewrite (value_insert _ _ o) in Hv by done.
    replace (slot + length (y :: b))%nat with (S slot + length b)%nat by (simpl; lia).
    rewrite Hv, Bn_S. cbn [value]. unfold total in *. nia.
Qed.

Lemma mul_propagate_spec fuel slot out c :
  limbs_ok out -> uint 32 c -> value out + Bn slot * c < Bn (length out) ->
  (length out < fuel + slot)%nat ->
  exists out', mul_propagate fuel slot out c = Ok out' /\ limbs_ok out' /\
    length out' = length out /\ value out' = value out + Bn slot * c.
Proof.
  revert slot out c. induction fuel as [|fuel IH]; intros slot out c Ho Hc Hv Hf;
    cbn [mul_propagate]; destruct (Z.ltb_spec 0 c) as [Hpos|Hz].
  - exfalso. pose proof (value_nonneg _ Ho). pose proof (Bn_le (length out) slot ltac:(lia)).
    pose proof (Bn_pos slot). nia.
  - exists out. unfold uint in Hc. assert (c = 0) as -> by lia. split_and!; auto; try lia.
  - pose proof (value_nonneg _ Ho). pose proof (Bn_pos slot).
    assert (slot < length out)%nat as Hlt.
    { destruct (decide (slot < length out)%nat); [done|].
      pose proof (Bn_le (length out) slot ltac:(lia)). nia. }
    destruct (lookup_lt_is_Some_2 out slot Hlt) as [o Hso].
    pose proof (limbs_ok_lookup _ _ _ Ho Hso) as Hoo. unfold uint in Hoo, Hc.
    unfold index_or_panic. rewrite Hso. cbn [obind].
    rewrite (wrap_id 64) by (unfold uint; lia). set (total := o + c).
    pose proof (u32_shift_split total ltac:(lia)) as Hs.
    pose proof (value_insert out slot o (u32 total) Hso) as Hins.
    destruct (IH (S slot) (<[slot := u32 total]> out) (Z.shiftr total 32)) as
      (out' & Heq & Ho' & Hl' & Hv'); auto with rust.
    { apply shiftr32_range. unfold uint. lia. }
    { rewrite length_insert, Hins, Bn_S. unfold total in *. nia. }
    { rewrite length_insert. lia. }
    exists out'. rewrite length_insert in Hl'. split_and!; auto.
    rewrite Hv', Hins, Bn_S. unfold total in *. nia.
  - exists out. unfold uint in Hc. assert (c = 0) as -> by lia. split_and!; auto; try lia.
Qed.

Lemma mul_outer_spec a i b out v :
  limbs_ok a -> limbs_ok b -> limbs_ok out -> length out = (i + length a + length b)%nat ->
  0 <= v < Bn i -> value out = v * value b ->
  exists out', mul_outer a i b out = Ok out' /\ limbs_ok out' /\
    length out' = length out /\ value out' = (v + Bn i * value a) * value b.
Proof.
  revert i out v. induction a as [|x a IH]; intros i out v Ha Hb Ho Hlen Hv Hval.
  - exists out. cbn [mul_outer value]. split_and!; auto. lia.
  - apply limbs_ok_cons in Ha as [Hx Ha]. cbn [length] in Hlen.
    destruct (mul_inner_spec x b i out 0) as (o1 & c1 & E1 & Ho1 & Hl1 & Hc1 & Hv1);
      [done|done|done|unfold uint; lia|lia|].
    pose proof (value_bound b Hb) as Hbb. pose proof (value_bound a Ha) as Hab.
    unfold uint in Hx. pose proof (Bn_pos i). pose proof (Bn_pos (length b)).
    assert (0 <= v + Bn i * x < Bn (S i)) as Hvi by (rewrite Bn_S; nia).
    destruct (mul_propagate_spec (S (length o1)) (i + length b) o1 c1) as
      (o2 & E2 & Ho2 & Hl2 & Hv2); [done|done| |lia|].
    { rewrite Hv1, Hl1, Hlen.
      pose proof (Bn_le (S i + length b) (i + S (length a) + length b) ltac:(lia)).
      rewrite (Bn_add (S i)) in *. nia. }
    destruct (IH (S i) o2 (v + Bn i * x)) as (o3 & E3 & Ho3 & Hl3 & Hv3); auto;
      [lia|rewrite Hv2, Hv1, Hval; ring|].
    exists o3. cbn [mul_outer]. rewrite E1. cbn [obind fst snd]. rewrite E2. cbn [obind].
    rewrite E3. split_and!; auto; [lia|]. rewrite Hv3. cbn [value]. rewrite Bn_S. ring.
Qed.

Lemma mul_magnitude_spec a b :
  limbs_ok a -> limbs_ok b ->
  match mul_magnitude a b with
  | Ok m => limbs_ok m /\ value m = value a * value b /\
            (length m <= length a + length b)%nat /\
            (a = [] \/ b = [] \/ (length a + length b <= MAX_LIMBS)%nat)
  | Err e => e = overflow /\ a <> [] /\ b <> [] /\ (MAX_LIMBS < length a + length b)%nat
  | Panic => False
  end.
Proof.
  intros Ha Hb. unfold mul_magnitude.
  destruct a as [|x a]; [split_and!; auto with rust; simpl; lia|].
  destruct b as [|y b]; [split_and!; auto with rust; cbn [value length]; lia|].
  destruct (Nat.ltb_spec MAX_LIMBS (length (x :: a) + length (y :: b))) as [Hov|Hin]; [done|].
  destruct (mul_outer_spec (x :: a) 0 (y :: b) (replicate (length (x :: a) + length (y :: b)) 0) 0)
    as (out & -> & Ho & Hl & Hv); auto with rust.
  - by rewrite length_replicate.
  - rewrite Bn_0. lia.
  - by rewrite value_zeros.
  - rewrite length_replicate in Hl. split_and!; auto; [|lia].
    rewrite Hv, Bn_0. ring.
Qed.

(** ** Bits of a limb list *)

Lemma limb_value a i x :
  limbs_ok a -> a !! i = Some x -> x = (value a / Bn i) mod B.
Proof.
  intros Ha Hx. rewrite <- (take_drop_middle a i x Hx) in Ha |- *.
  apply limbs_ok_app in Ha as [Ht [Hxo Hd]%limbs_ok_cons].
  rewrite value_app. cbn [value]. pose proof (lookup_lt_Some _ _ _ Hx).
  pose proof (value_bound _ Ht) as Hb. rewrite length_take_le in * by lia.
  pose proof (Bn_pos i). rewrite (Z.mul_comm (Bn i)), Z.div_add, Z.div_small by lia.
  rewrite Z.add_0_l, (Z.mul_comm B), Z.mod_add by lia. by rewrite Z.mod_small.
Qed.

Lemma limb_testbit a i x s :
  limbs_ok a -> a !! i = Some x -> 0 <= s < 32 ->
  Z.testbit x s = Z.testbit (value a) (32 * Z.of_nat i + s).
Proof.
  intros Ha Hx Hs. rewrite (limb_value a i x Ha Hx), Z.mod_pow2_bits_low by lia.
  rewrite Bn_pow2, Z.div_pow2_bits by lia. f_equal. lia.
Qed.

Lemma nat_split32 n : Z.of_nat n = 32 * Z.of_nat (n / 32) + Z.of_nat (n mod 32).
Proof. pose proof (Nat.div_mod_eq n 32). lia. Qed.

Lemma bit_of_spec a bit :
  limbs_ok a -> (bit < length a * 32)%nat ->
  bit_of a bit = Ok (Z.b2z (Z.testbit (value a) (Z.of_nat bit))).
Proof.
  intros Ha Hb. unfold bit_of, index_or_panic.
  assert (bit / 32 < length a)%nat as Hi by (apply Nat.Div0.div_lt_upper_bound; lia).
  destruct (lookup_lt_is_Some_2 a _ Hi) as [x Hx]. rewrite Hx. cbn [obind].
  rewrite land_1_testbit, Z.shiftr_spec by lia. rewrite Z.add_0_l.
  pose proof (Nat.mod_upper_bound bit 32).
  rewrite (limb_testbit a _ x _ Ha Hx) by lia. by rewrite <- nat_split32.
Qed.

(** ** Division *)

Lemma shift_in_spec r c :
  limbs_ok r -> 0 <= c <= 1 ->
  let o := shift_in r c in
  limbs_ok (fst o) /\ length (fst o) = length r /\ 0 <= snd o <= 1 /\
  value (fst o) + Bn (length r) * snd o = 2 * value r + c.
Proof.
  revert c. induction r as [|x r IH]; intros c Hr Hc.
  - cbn [shift_in fst snd length value]. rewrite Bn_0. split_and!; auto with rust; lia.
  - apply limbs_ok_cons in Hr as [Hx Hr]. unfold uint in Hx. cbn [shift_in].
    rewrite (wrap_id 64) by (unfold uint; rewrite Z.shiftl_mul_pow2; lia).
    rewrite lor_shiftl_add by (unfold uint; lia). set (s := x * 2 ^ 1 + c).
    pose proof (u32_shift_split s ltac:(lia)) as Hs. pose proof (u32_ok s) as Hu. unfold uint in Hu.
    rewrite (wrap_id 32 (Z.shiftr s 32)) by (unfold uint; lia).
    specialize (IH (Z.shiftr s 32) Hr ltac:(lia)).
    destruct (shift_in r (Z.shiftr s 32)) as [out c']. cbn [fst snd] in *.
    destruct IH as (Ho & Hl & Hc' & Hv). cbn [length value]. rewrite Bn_S.
    split_and!; [by apply limbs_ok_cons; auto with rust|by rewrite Hl|lia..].
Qed.

(** The remainder after one bit has been shifted in. *)
Lemma shift_in_push r c :
  limbs_ok r -> 0 <= c <= 1 ->
  let '(o, c') := shift_in r c in
  let o := pop_zeros (if 0 <? c' then o ++ [c'] else o) in
  limbs_ok o /\ trimmed o /\ value o = 2 * value r + c.
Proof.
  intros Hr Hc. pose proof (shift_in_spec r c Hr Hc) as H.
  destruct (shift_in r c) as [o c']. cbn [fst snd] in H. destruct H as (Ho & Hl & Hc' & Hv).
  cbv zeta. rewrite value_pop_zeros. destruct (Z.ltb_spec 0 c').
  - split_and!; auto with rust.
    + apply limbs_ok_pop_zeros, limbs_ok_app. split; [done|].
      apply limbs_ok_cons. split; auto with rust. unfold uint; lia.
    + rewrite value_app, Hl. cbn [value]. lia.
  - assert (c' = 0) as -> by lia. split_and!; auto with rust. lia.
Qed.

Lemma div_pow2_step A n :
  0 <= A -> A / 2 ^ Z.of_nat n = 2 * (A / 2 ^ Z.of_nat (S n)) + Z.b2z (Z.testbit A (Z.of_nat n)).
Proof.
  intros HA. rewrite Z.testbit_spec' by lia.
  rewrite Nat2Z.inj_succ, Z.pow_succ_r, (Z.mul_comm 2 (2 ^ _)), <- Z.div_div by lia.
  apply Z.div_mod. lia.
Qed.

Lemma quotient_set_bit q n qh :
  limbs_ok q -> (n < length q * 32)%nat -> value q = qh * 2 ^ Z.of_nat (S n) ->
  exists o, q !! (n / 32)%nat = Some o /\
    let x := Z.lor o (u32 (Z.shiftl 1 (Z.of_nat (n mod 32)))) in
    uint 32 x /\ value (<[(n / 32)%nat := x]> q) = (2 * qh + 1) * 2 ^ Z.of_nat n.
Proof.
  intros Hq Hn Hv.
  assert (n / 32 < length q)%nat as Hi by (apply Nat.Div0.div_lt_upper_bound; lia).
  destruct (lookup_lt_is_Some_2 q _ Hi) as [o Ho]. exists o. split; [done|].
  pose proof (Nat.mod_upper_bound n 32 ltac:(lia)) as Hm.
  assert (0 <= Z.of_nat (n mod 32) < 32) as Hs by lia.
  assert (uint 32 (2 ^ Z.of_nat (n mod 32))) as Hp
    by (unfold uint; split; [lia|apply Z.pow_lt_mono_r; lia]).
  assert (Z.testbit o (Z.of_nat (n mod 32)) = false) as Hbit.
  { rewrite (limb_testbit q _ o _ Hq Ho Hs), <- nat_split32, Hv.
    apply Z.mul_pow2_bits_low. lia. }
  rewrite Z.shiftl_1_l, (wrap_id 32) by done. cbv zeta. rewrite (value_insert _ _ o) by done.
  split; [apply uint_lor; [lia|by eapply limbs_ok_lookup|done]|].
  rewrite lor_pow2_add by (done || lia).
  rewrite Hv, Bn_pow2. replace (o + 2 ^ Z.of_nat (n mod 32) - o) with (2 ^ Z.of_nat (n mod 32)) by lia.
  rewrite <- Z.pow_add_r, (Z.add_comm (Z.of_nat (n mod 32))), <- nat_split32 by lia.
  rewrite Nat2Z.inj_succ, Z.pow_succ_r by lia. ring.
Qed.

Lemma divmod_loop_spec a b n q r qh :
  limbs_ok a -> limbs_ok b -> trimmed b -> limbs_ok q -> length q = length a ->
  limbs_ok r -> trimmed r -> (n <= length a * 32)%nat ->
  value q = qh * 2 ^ Z.of_nat n -> 0 <= value r < value b ->
  value a / 2 ^ Z.of_nat n = qh * value b + value r ->
  exists q' r', divmod_loop a b n q r = Ok (q', r') /\
    limbs_ok q' /\ limbs_ok r' /\ trimmed r' /\
    value a = value q' * value b + value r' /\ value r' < value b.
Proof.
  revert q r qh. induction n as [|n IH]; intros q r qh Ha Hb Htb Hq Hlq Hr Htr Hn Hvq Hrb Hinv.
  - exists q, r. rewrite Z.pow_0_r, Z.div_1_r in Hinv. rewrite Z.pow_0_r in Hvq.
    split_and!; auto; [rewrite Hvq; lia|lia].
  - cbn [divmod_loop]. rewrite bit_of_spec by (done || lia). cbn [obind].
    pose proof (b2z_range (Z.testbit (value a) (Z.of_nat n))) as Hbit.
    pose proof (shift_in_push r _ Hr Hbit) as Hsh.
    pose proof (div_pow2_step (value a) n (value_nonneg _ Ha)) as Hstep.
    destruct (shift_in r _) as [o c']. cbv zeta in Hsh.
    set (r1 := pop_zeros _) in *. destruct Hsh as (Ho & Hto & Hvo).
    rewrite cmp_magnitude_spec by done.
    destruct (Z.compare_spec (value r1) (value b)) as [Heq|Hlt|Hgt].
    2:{ apply (IH _ _ (2 * qh)); auto; try lia.
        rewrite Hvq, Nat2Z.inj_succ, Z.pow_succ_r by lia. ring. }
    all: destruct (quotient_set_bit q n qh Hq ltac:(lia) Hvq) as (x & Hx & Hux & Hvx);
      unfold index_or_panic; rewrite Hx; cbn [obind];
      destruct (sub_magnitude_spec r1 b Ho Hb ltac:(lia)) as [Hso Hsv];
      apply (IH _ _ (2 * qh + 1)); auto with rust; rewrite ?length_insert, ?value_pop_zeros; lia.
Qed.

Lemma divmod_magnitude_spec a b :
  limbs_ok a -> limbs_ok b -> trimmed a -> trimmed b -> b <> [] ->
  exists q r, divmod_magnitude a b = Ok (q, r) /\ limbs_ok q /\ limbs_ok r /\
    value q = value a / value b /\ value r = value a mod value b.
Proof.
  intros Ha Hb Hta Htb Hne. pose proof (value_nonneg _ Ha). pose proof (value_nonneg _ Hb).
  assert (value b <> 0) by (by rewrite value_zero_nil).
  unfold divmod_magnitude. rewrite cmp_magnitude_spec by done.
  destruct (Z.compare_spec (value a) (value b)) as [Heq|Hlt|Hgt].
  2:{ exists [], a. cbn [value]. rewrite Z.div_small, Z.mod_small by lia. auto with rust. }
  all: destruct (divmod_loop_spec a b (length a * 32) (replicate (length a) 0) [] 0) as
    (q & r & E & Hq & Hr & _ & Hv & Hlt'); auto with rust;
    [by rewrite length_replicate|by rewrite value_zeros|cbn; lia| |].
  1,3: cbn [value]; rewrite Z.div_small; [lia|]; pose proof (value_bound a Ha) as Hbd;
       rewrite Bn_pow2 in Hbd; by replace (Z.of_nat (length a * 32)) with (32 * Z.of_nat (length a)) by lia.
  all: pose proof (value_nonneg _ Hr); exists q, r; split_and!; auto;
    [apply (Z.div_unique _ _ _ (value r))|apply (Z.mod_unique _ _ (value q))]; lia.
Qed.
