(* ===== verification/BigIntSpec.v ===== *)
(** The operators of the big integers against the integers. *)
From stdpp Require Import prelude list strings.
From Stdlib Require Import ZArith Lia.
From S2P Require Import Prelude BigInt BigIntLimbs.
Import ListNotations BigInt.
Local Open Scope Z_scope.

(** ** Representation invariant and abstraction *)

Record wf (a : BigInt) : Prop := mkWf {
  wf_limbs : limbs_ok (limbs a);
  wf_trimmed : trimmed (limbs a);
  wf_sign : negative a = true -> limbs a <> []
}.

(** The invariant is decidable. *)
Definition wfb (a : BigInt) : bool :=
  forallb (fun x => (0 <=? x) && (x <? 2 ^ 32)) (limbs a)
  && match last (limbs a) with Some x => negb (x =? 0) | None => negb (negative a) end.

Lemma wfb_wf a : wfb a = true -> wf a.
Proof.
  unfold wfb. intros [Hf Hl]%andb_true_iff. split.
  - apply Forall_forall. intros x Hx. rewrite forallb_forall in Hf.
    specialize (Hf x (proj1 (list_elem_of_In _ _) Hx)). unfold uint. lia.
  - unfold trimmed. destruct (last (limbs a)); [|done]. intros ?; simplify_eq.
  - intros Hn Hnil. by rewrite Hnil, Hn in Hl.
Qed.

Definition mag (a : BigInt) : Z := value (limbs a).
Definition to_Z (a : BigInt) : Z := if negative a then - mag a else mag a.
#[export] Hint Resolve wf_limbs wf_trimmed : rust.

(** Magnitudes of at most [MAX_LIMBS] limbs lie below this bound. *)
Definition limit : Z := Bn MAX_LIMBS.

Lemma mag_nonneg a : wf a -> 0 <= mag a.
Proof. intros H. apply value_nonneg. auto with rust. Qed.

Lemma mag_abs a : wf a -> mag a = Z.abs (to_Z a).
Proof. intros H%mag_nonneg. unfold to_Z. destruct (negative a); lia. Qed.

Lemma mag_zero a : wf a -> mag a = 0 <-> limbs a = [].
Proof. intros H. apply value_zero_nil; auto with rust. Qed.

Lemma nil_to_Z a : limbs a = [] -> to_Z a = 0.
Proof. unfold to_Z, mag. intros ->. by destruct (negative a). Qed.

Lemma to_Z_neg a : wf a -> negative a = true <-> to_Z a < 0.
Proof.
  intros H. pose proof (mag_nonneg a H). unfold to_Z. split.
  - intros E. rewrite E. pose proof (wf_sign a H E) as Hne.
    assert (mag a <> 0) by (by rewrite mag_zero). lia.
  - destruct (negative a); [done|lia].
Qed.

Lemma is_zero_spec a : wf a -> is_zero a = true <-> to_Z a = 0.
Proof.
  intros H. pose proof (mag_zero a H) as Hz. pose proof (mag_nonneg a H).
  unfold is_zero, to_Z. destruct (limbs a) eqn:E; split; try done.
  - intros _. destruct (negative a); [rewrite (proj2 Hz)|rewrite (proj2 Hz)]; done.
  - intros Ht. assert (mag a = 0) as Hm by (destruct (negative a); lia). by apply Hz in Hm.
Qed.

Lemma wf_inj a b : wf a -> wf b -> to_Z a = to_Z b -> a = b.
Proof.
  intros Ha Hb Heq. pose proof (to_Z_neg a Ha) as Hna. pose proof (to_Z_neg b Hb) as Hnb.
  pose proof (mag_abs a Ha) as Hma. pose proof (mag_abs b Hb) as Hmb.
  rewrite Heq in *. assert (limbs a = limbs b) as Hl.
  { apply value_trimmed_inj; auto with rust. unfold mag in *. congruence. }
  destruct a as [na la], b as [nb lb]; simpl in *. subst. f_equal.
  destruct na, nb; tauto || (symmetry; tauto).
Qed.

Lemma normalized_spec n l :
  limbs_ok l ->
  wf (normalized n l) /\ to_Z (normalized n l) = (if n then - value l else value l) /\
  (length (limbs (normalized n l)) <= length l)%nat.
Proof.
  intros Hl. unfold normalized.
  assert (mag (mkBig (n && negb match pop_zeros l with [] => true | _ => false end) (pop_zeros l))
          = value l) as Hm by (unfold mag; simpl; apply value_pop_zeros).
  split_and!; [split; simpl; auto with rust| |simpl; apply length_pop_zeros].
  - destruct (pop_zeros l); [by rewrite andb_false_r|done].
  - unfold to_Z. rewrite Hm. simpl. pose proof (value_pop_zeros l) as Hp.
    destruct n; [|done]. destruct (pop_zeros l); [cbn [value] in Hp; simpl; lia|done].
Qed.

Lemma wf_zero : wf zero.
Proof. split; simpl; auto with rust. Qed.
#[export] Hint Resolve wf_zero : rust.

(** A well-formed number below the limit has at most [MAX_LIMBS] limbs. *)
Lemma length_of_value l n :
  limbs_ok l -> trimmed l -> value l < Bn n -> (length l <= n)%nat.
Proof.
  intros Hl Ht Hv. destruct (decide (l = [])) as [->|Hne]; [simpl; lia|].
  pose proof (value_lower l Hl Ht Hne).
  destruct (decide (length l <= n)%nat); [done|].
  pose proof (Bn_le n (length l - 1) ltac:(lia)). lia.
Qed.

Lemma value_of_length l n :
  limbs_ok l -> trimmed l -> (n < length l)%nat -> Bn n <= value l.
Proof.
  intros Hl Ht Hlen. destruct (Z.lt_ge_cases (value l) (Bn n)); [|done].
  pose proof (length_of_value l n Hl Ht ltac:(done)). lia.
Qed.

(** ** Sign and small integers *)

Lemma negate_spec a : wf a -> wf (negate a) /\ to_Z (negate a) = - to_Z a.
Proof.
  intros H. destruct (normalized_spec (negb (negative a)) (limbs a) ltac:(auto with rust))
    as (? & Hz & _). split; [done|]. unfold negate. rewrite Hz. unfold to_Z, mag.
  destruct (negative a); simpl; lia.
Qed.

Lemma from_i64_spec x :
  - 2 ^ 63 <= x < 2 ^ 63 -> wf (from_i64 x) /\ to_Z (from_i64 x) = x.
Proof.
  intros Hx. unfold from_i64.
  assert (uint 64 (Z.abs x)) as Hu by (unfold uint; lia).
  pose proof (shiftr32_range _ Hu) as Hh.
  pose proof (u32_shift_split (Z.abs x) ltac:(lia)) as Hs. rewrite (wrap_id 32 (Z.shiftr _ _)) by done.
  destruct (normalized_spec (x <? 0) [u32 (Z.abs x); Z.shiftr (Z.abs x) 32]) as (? & Hz & _).
  { apply limbs_ok_cons; split; [apply u32_ok|]. by apply limbs_ok_cons; auto with rust. }
  split; [done|]. rewrite Hz. cbn [value]. destruct (Z.ltb_spec x 0); lia.
Qed.

(** ** Addition, subtraction, comparison *)

(** The number has a representation within the cap. *)
Definition capped (z : Z) : Prop := Z.abs z < limit.

Lemma value_limit l : limbs_ok l -> (length l <= MAX_LIMBS)%nat -> value l < limit.
Proof.
  intros Hl Hn. pose proof (value_bound l Hl). pose proof (Bn_le _ _ Hn). unfold limit. lia.
Qed.

Lemma add_spec a b :
  wf a -> wf b ->
  match add a b with
  | Ok c => wf c /\ to_Z c = to_Z a + to_Z b /\
            (capped (to_Z a) -> capped (to_Z b) -> capped (to_Z a + to_Z b))
  | Err e => e = overflow /\ limit <= Z.abs (to_Z a + to_Z b)
  | Panic => False
  end.
Proof.
  intros Ha Hb. pose proof (mag_nonneg a Ha). pose proof (mag_nonneg b Hb).
  unfold add. destruct (Bool.eqb_spec (negative a) (negative b)) as [Hs|Hs].
  - pose proof (add_magnitude_spec (limbs a) (limbs b) ltac:(auto with rust) ltac:(auto with rust)) as Hm.
    destruct (add_magnitude (limbs a) (limbs b)) as [m|e|]; [|destruct Hm as [-> Hm]|done]; cbn [obind].
    + destruct Hm as (Ho & Hv & Hlen). destruct (normalized_spec (negative a) m Ho) as (? & Hz & _).
      pose proof (value_limit m Ho Hlen). split; [done|]. rewrite Hz, Hv. unfold capped, to_Z, mag in *.
      rewrite Hs. destruct (negative b); lia.
    + split; [done|]. assert (limit <= mag a + mag b) as Hl; unfold limit, mag in *.
      { destruct Hm as [Hm|[Hm|Hm]]; [| |lia];
          apply value_of_length in Hm; auto with rust; lia. }
      unfold to_Z, mag. rewrite Hs. destruct (negative b); lia.
  - assert (capped (to_Z a) -> capped (to_Z b) -> capped (to_Z a + to_Z b)) as Hcap.
    { unfold capped, to_Z. destruct (negative a), (negative b); simpl in *; try done; lia. }
    rewrite cmp_magnitude_spec by auto with rust.
    unfold to_Z, mag in *.
    destruct (Z.compare_spec (value (limbs a)) (value (limbs b))) as [Heq|Hlt|Hgt].
    + split; [auto with rust|]. split; [|exact Hcap]. cbn. destruct (negative a), (negative b); simpl in *; try done; lia.
    + destruct (sub_magnitude_spec (limbs b) (limbs a)) as [Ho Hv]; auto with rust; [lia|].
      destruct (normalized_spec (negative b) _ Ho) as (? & Hz & _). split; [done|]. split; [|exact Hcap].
      change (to_Z (normalized (negative b) (sub_magnitude (limbs b) (limbs a)))
              = (if negative a then - value (limbs a) else value (limbs a))
                + (if negative b then - value (limbs b) else value (limbs b))).
      rewrite Hz, Hv. destruct (negative a), (negative b); simpl in *; try done; lia.
    + destruct (sub_magnitude_spec (limbs a) (limbs b)) as [Ho Hv]; auto with rust; [lia|].
      destruct (normalized_spec (negative a) _ Ho) as (? & Hz & _). split; [done|]. split; [|exact Hcap].
      change (to_Z (normalized (negative a) (sub_magnitude (limbs a) (limbs b)))
              = (if negative a then - value (limbs a) else value (limbs a))
                + (if negative b then - value (limbs b) else value (limbs b))).
      rewrite Hz, Hv. destruct (negative a), (negative b); simpl in *; try done; lia.
Qed.

Lemma sub_spec a b :
  wf a -> wf b ->
  match sub a b with
  | Ok c => wf c /\ to_Z c = to_Z a - to_Z b /\
            (capped (to_Z a) -> capped (to_Z b) -> capped (to_Z a - to_Z b))
  | Err e => e = overflow /\ limit <= Z.abs (to_Z a - to_Z b)
  | Panic => False
  end.
Proof.
  intros Ha Hb. destruct (negate_spec b Hb) as [Hn Hz]. unfold sub.
  pose proof (add_spec a (negate b) Ha Hn) as H. rewrite Hz in H.
  replace (to_Z a - to_Z b) with (to_Z a + - to_Z b) by lia.
  unfold capped in *. by rewrite Z.abs_opp in H.
Qed.

Lemma compare_spec a b : wf a -> wf b -> compare a b = Z.compare (to_Z a) (to_Z b).
Proof.
  intros Ha Hb. pose proof (mag_nonneg a Ha). pose proof (mag_nonneg b Hb).
  pose proof (to_Z_neg a Ha) as Hna. pose proof (to_Z_neg b Hb) as Hnb.
  unfold compare. destruct (negative a) eqn:Ea, (negative b) eqn:Eb; symmetry.
  - rewrite cmp_magnitude_spec by auto with rust. unfold to_Z, mag in *. rewrite Ea, Eb.
    apply Z.compare_opp.
  - apply Z.compare_lt_iff. assert (~ to_Z b < 0) by (rewrite <- Hnb; done). apply proj1 in Hna. lia.
  - apply Z.compare_gt_iff. assert (~ to_Z a < 0) by (rewrite <- Hna; done). apply proj1 in Hnb. lia.
  - rewrite cmp_magnitude_spec by auto with rust. unfold to_Z, mag in *. by rewrite Ea, Eb.
Qed.

(** ** Multiplication and division *)

Lemma mul_spec a b :
  wf a -> wf b ->
  match mul a b with
  | Ok c => wf c /\ to_Z c = to_Z a * to_Z b /\
            (length (limbs c) <= length (limbs a) + length (limbs b))%nat /\
            (to_Z a = 0 \/ to_Z b = 0 \/ (length (limbs a) + length (limbs b) <= MAX_LIMBS)%nat)
  | Err e => e = overflow /\ to_Z a <> 0 /\ to_Z b <> 0 /\
             (MAX_LIMBS < length (limbs a) + length (limbs b))%nat
  | Panic => False
  end.
Proof.
  intros Ha Hb. unfold mul.
  pose proof (mul_magnitude_spec (limbs a) (limbs b) ltac:(auto with rust) ltac:(auto with rust)) as H.
  destruct (mul_magnitude (limbs a) (limbs b)) as [m|e|]; [| |done]; cbn [obind].
  - destruct H as (Ho & Hv & Hl & Hc).
    destruct (normalized_spec (xorb (negative a) (negative b)) m Ho) as (? & Hz & ?).
    split_and!; [done| |lia|].
    2:{ destruct Hc as [Hc|[Hc|Hc]]; [left|right; left|by right; right]; by apply nil_to_Z. }
    rewrite Hz, Hv. unfold to_Z, mag.
    destruct (negative a), (negative b); simpl; lia.
  - destruct H as (-> & Hna & Hnb & Hl). split_and!; auto.
    + intros E%is_zero_spec; [|done]. unfold is_zero in E. by destruct (limbs a).
    + intros E%is_zero_spec; [|done]. unfold is_zero in E. by destruct (limbs b).
Qed.

(** Sign-magnitude division truncates towards zero. *)
Lemma quot_sign a b n m :
  0 <= n -> 0 < m ->
  (if xorb a b then - (n / m) else n / m) =
  Z.quot (if a then - n else n) (if b then - m else m).
Proof.
  intros Hn Hm. rewrite <- (Z.quot_div_nonneg n m) by lia.
  destruct a, b; simpl; rewrite ?Z.quot_opp_opp, ?Z.quot_opp_l, ?Z.quot_opp_r; lia.
Qed.

Lemma rem_sign (a b : bool) n m :
  0 <= n -> 0 < m ->
  (if a then - (n mod m) else n mod m) =
  Z.rem (if a then - n else n) (if b then - m else m).
Proof.
  intros Hn Hm. rewrite <- (Z.rem_mod_nonneg n m) by lia.
  destruct a, b; rewrite ?Z.rem_opp_opp, ?Z.rem_opp_l, ?Z.rem_opp_r; lia.
Qed.

Lemma divmod_exists a b :
  wf a -> wf b -> is_zero b = false ->
  0 < mag b /\ exists q r, divmod_magnitude (limbs a) (limbs b) = Ok (q, r) /\
    limbs_ok q /\ limbs_ok r /\ value q = mag a / mag b /\ value r = mag a mod mag b.
Proof.
  intros Ha Hb Hz. assert (limbs b <> []) as Hne.
  { unfold is_zero in Hz. by destruct (limbs b). }
  split.
  - pose proof (mag_nonneg b Hb). assert (mag b <> 0) by (by rewrite mag_zero). lia.
  - apply divmod_magnitude_spec; auto with rust.
Qed.

Lemma div_spec a b :
  wf a -> wf b ->
  if is_zero b then div a b = Err division_by_zero
  else exists c, div a b = Ok c /\ wf c /\ to_Z c = Z.quot (to_Z a) (to_Z b).
Proof.
  intros Ha Hb. unfold div. destruct (is_zero b) eqn:Hz; [done|].
  destruct (divmod_exists a b Ha Hb Hz) as (Hp & q & r & -> & Hq & Hr & Hvq & Hvr). cbn [obind fst].
  destruct (normalized_spec (xorb (negative a) (negative b)) q Hq) as (Hw & Hn & _).
  eexists. split_and!; [done|done|]. rewrite Hn, Hvq.
  apply quot_sign; [by apply mag_nonneg|done].
Qed.

Lemma rem_spec a b :
  wf a -> wf b ->
  if is_zero b then rem a b = Err division_by_zero
  else exists c, rem a b = Ok c /\ wf c /\ to_Z c = Z.rem (to_Z a) (to_Z b).
Proof.
  intros Ha Hb. unfold rem. destruct (is_zero b) eqn:Hz; [done|].
  destruct (divmod_exists a b Ha Hb Hz) as (Hp & q & r & -> & Hq & Hr & Hvq & Hvr). cbn [obind snd].
  destruct (normalized_spec (negative a) r Hr) as (Hw & Hn & _).
  eexists. split_and!; [done|done|]. rewrite Hn, Hvr.
  apply rem_sign; [by apply mag_nonneg|done].
Qed.

(** ** Bit length and powers *)

Lemma leading_zeros_range x : uint 32 x -> 0 < x -> 0 <= leading_zeros x <= 31.
Proof.
  unfold uint, leading_zeros. intros Hx Hp. destruct (Z.eqb_spec x 0); [lia|].
  pose proof (Z.log2_nonneg x). pose proof (proj1 (Z.log2_lt_pow2 x 32 Hp) ltac:(lia)). lia.
Qed.

Lemma trimmed_last_pos l top : limbs_ok l -> trimmed l -> last l = Some top -> uint 32 top /\ 0 < top.
Proof.
  intros Hl Ht Hlast. assert (uint 32 top) as Hu.
  { rewrite last_lookup in Hlast. by eapply limbs_ok_lookup. }
  split; [done|]. unfold trimmed in Ht. unfold uint in Hu.
  assert (top <> 0) by congruence. lia.
Qed.

(** The bit length delimits the magnitude between two powers of two. *)
Lemma bit_length_spec a :
  wf a ->
  mag a < 2 ^ Z.of_nat (bit_length a) /\
  (limbs a <> [] -> 2 ^ (Z.of_nat (bit_length a) - 1) <= mag a /\ (0 < bit_length a)%nat) /\
  (bit_length a <= length (limbs a) * 32)%nat.
Proof.
  intros Ha. unfold bit_length, mag. destruct (last (limbs a)) as [top|] eqn:Hlast.
  2:{ apply last_None in Hlast. rewrite Hlast. cbn. split_and!; [done|done|lia]. }
  destruct (trimmed_last_pos _ top (wf_limbs a Ha) (wf_trimmed a Ha) Hlast) as [Hu Hp].
  pose proof (leading_zeros_range top Hu Hp) as Hlz.
  pose proof (wf_limbs a Ha) as Hok.
  apply last_Some in Hlast as [l Hl]. rewrite Hl in *. apply limbs_ok_app in Hok as [Hok _].
  rewrite length_app, value_app. cbn [length value].
  pose proof (value_bound l Hok) as Hb. rewrite Nat.add_sub. rewrite Z.mul_0_r, Z.add_0_r.
  unfold leading_zeros in *. destruct (Z.eqb_spec top 0); [lia|].
  destruct (Z.log2_spec top Hp) as [Hlo Hhi].
  replace (Z.of_nat (length l * 32 + (32 - Z.to_nat (31 - Z.log2 top))))
    with (32 * Z.of_nat (length l) + Z.succ (Z.log2 top)) by lia.
  pose proof (Z.log2_nonneg top). pose proof (Bn_pos (length l)).
  split_and!; [|intros _; split|lia].
  - rewrite Z.pow_add_r, <- Bn_pow2 by lia. nia.
  - replace (32 * Z.of_nat (length l) + Z.succ (Z.log2 top) - 1)
      with (32 * Z.of_nat (length l) + Z.log2 top) by lia.
    rewrite Z.pow_add_r, <- Bn_pow2 by lia. nia.
  - lia.
Qed.

Lemma length_pow a b n :
  wf a -> wf b -> 1 <= n -> to_Z b = to_Z a ^ n ->
  Z.of_nat (length (limbs b)) <= n * Z.of_nat (length (limbs a)).
Proof.
  intros Ha Hb Hn Hv. set (k := Z.to_nat n).
  enough (length (limbs b) <= k * length (limbs a))%nat by lia.
  apply length_of_value; auto with rust.
  fold (mag b). rewrite (mag_abs b Hb), Hv, Z.abs_pow, <- (mag_abs a Ha).
  pose proof (value_bound (limbs a) (wf_limbs a Ha)) as Hab. unfold mag.
  unfold Bn. rewrite Nat2Z.inj_mul, Z.mul_comm, Z.pow_mul_r by lia.
  replace (Z.of_nat k) with n by lia. apply Z.pow_lt_mono_l; [lia|done].
Qed.

Lemma length_one b : wf b -> to_Z b = 1 -> length (limbs b) = 1%nat.
Proof.
  intros Hb H1. pose proof (mag_abs b Hb) as Hm. rewrite H1 in Hm.
  assert (length (limbs b) <= 1)%nat.
  { apply length_of_value; auto with rust. fold (mag b). rewrite Hm. done. }
  destruct (limbs b) eqn:E; simpl in *; [|lia]. apply mag_zero in E; [lia|done].
Qed.

Lemma mod_pow2_step E n :
  0 <= E -> E mod 2 ^ Z.of_nat (S n) =
  E mod 2 ^ Z.of_nat n + 2 ^ Z.of_nat n * Z.b2z (Z.testbit E (Z.of_nat n)).
Proof.
  intros HE. rewrite Z.testbit_spec' by lia.
  rewrite Nat2Z.inj_succ, Z.pow_succ_r, (Z.mul_comm 2) by lia. apply Z.rem_mul_r; lia.
Qed.

Section PowLoop.
Context (a : BigInt) (ex : list Z) (bits : nat).
Let E := value ex.
Let L := Z.of_nat (length (limbs a)).
Hypothesis Ha : wf a.
Hypothesis Hex : limbs_ok ex.
Hypothesis Hbits : (bits <= length ex * 32)%nat.
Hypothesis Hlow : (0 < bits)%nat -> 2 ^ (Z.of_nat bits - 1) <= E.
Hypothesis Hhigh : E < 2 ^ Z.of_nat bits.

Lemma pow_loop_spec n bit result base :
  (bit + n)%nat = bits -> wf result -> wf base ->
  to_Z result = to_Z a ^ (E mod 2 ^ Z.of_nat bit) ->
  ((0 < n)%nat -> to_Z base = to_Z a ^ (2 ^ Z.of_nat bit)) ->
  match pow_loop ex bits n bit result base with
  | Ok c => wf c /\ to_Z c = to_Z a ^ E
  | Err e => e = overflow /\ Z.of_nat MAX_LIMBS <= E * L
  | Panic => False
  end.
Proof using All.
  pose proof (value_nonneg ex Hex) as HE. fold E in HE.
  revert bit result base. induction n as [|n IH]; intros bit result base Hb Hr Hbase Hvr Hvb.
  - cbn [pow_loop]. split; [done|]. rewrite Hvr, Z.mod_small; [done|].
    rewrite Nat.add_0_r in Hb. by rewrite Hb.
  - specialize (Hvb ltac:(lia)). cbn [pow_loop]. rewrite bit_of_spec by (done || lia). cbn [obind].
    fold E. pose proof (mod_pow2_step E bit HE) as Hstep.
    pose proof (Z.mod_pos_bound E (2 ^ Z.of_nat bit) ltac:(lia)) as Hmod.
    pose proof (length_pow a base (2 ^ Z.of_nat bit) Ha Hbase ltac:(lia) Hvb) as Hlb. fold L in Hlb.
    assert (match (if Z.b2z (Z.testbit E (Z.of_nat bit)) =? 1 then mul result base else Ok result) with
            | Ok c => wf c /\ to_Z c = to_Z a ^ (E mod 2 ^ Z.of_nat (S bit))
            | Err e => e = overflow /\ Z.of_nat MAX_LIMBS <= E * L
            | Panic => False end) as Hres.
    { rewrite Hstep. destruct (Z.testbit E (Z.of_nat bit)) eqn:Hbit; cbn [Z.b2z Z.eqb Pos.eqb] in *.
      2:{ split; [done|]. by rewrite Z.mul_0_r, Z.add_0_r. }
      pose proof (mul_spec result base Hr Hbase) as Hm.
      destruct (mul result base) as [c|e|]; [| |done].
      - destruct Hm as (? & Hv & _). split; [done|].
        rewrite Hv, Hvr, Hvb, Z.mul_1_r, Z.pow_add_r; lia.
      - destruct Hm as (-> & _ & _ & Hlen). split; [done|].
        pose proof (Z.mod_le E (2 ^ Z.of_nat (S bit)) HE ltac:(lia)).
        destruct (decide (E mod 2 ^ Z.of_nat bit = 0)) as [Hz|Hnz].
        + rewrite Hz, Z.pow_0_r in Hvr. rewrite (length_one result Hr Hvr) in Hlen. nia.
        + pose proof (length_pow a result (E mod 2 ^ Z.of_nat bit) Ha Hr ltac:(lia) Hvr) as Hlr. fold L in Hlr. nia. }
    destruct (if Z.b2z _ =? 1 then _ else _) as [res|e|]; [|done|done]. cbn [obind].
    destruct Hres as [Hwr Hvr'].
    destruct (Nat.ltb_spec (bit + 1) bits) as [Hlt|Hge].
    + pose proof (mul_spec base base Hbase Hbase) as Hm.
      destruct (mul base base) as [c|e|]; [| |done]; cbn [obind].
      * destruct Hm as (Hwc & Hvc & _). apply IH; [lia|done|done|done|]. intros _.
        rewrite Hvc, Hvb, <- Z.pow_add_r by lia. f_equal.
        rewrite Nat2Z.inj_succ, Z.pow_succ_r; lia.
      * destruct Hm as (-> & _ & _ & Hlen). split; [done|].
        specialize (Hlow ltac:(lia)).
        pose proof (Z.pow_le_mono_r 2 (Z.of_nat bit + 1) (Z.of_nat bits - 1) ltac:(lia) ltac:(lia)) as Hp.
        rewrite Z.pow_add_r in Hp by lia. nia.
    + cbn [obind]. apply IH; [lia|done|done|done|lia].
Qed.
End PowLoop.

Lemma pow_spec a e :
  wf a -> wf e ->
  match pow a e with
  | Ok c => 0 <= to_Z e /\ wf c /\ to_Z c = to_Z a ^ to_Z e
  | Err m => (to_Z e < 0 /\ m = negative_exponent) \/
             (m = overflow /\ Z.of_nat MAX_LIMBS <= to_Z e * Z.of_nat (length (limbs a)))
  | Panic => False
  end.
Proof.
  intros Ha He. unfold pow. pose proof (to_Z_neg e He) as Hn.
  destruct (negative e) eqn:En; [left; split; [by apply Hn|done]|].
  assert (to_Z e = mag e) as Ez by (unfold to_Z; by rewrite En).
  pose proof (mag_nonneg e He) as Hnn.
  destruct (bit_length_spec e He) as (Hhi & Hlo & Hlen).
  destruct (from_i64_spec 1 ltac:(lia)) as [Hw1 Hz1].
  pose proof (pow_loop_spec a (limbs e) (bit_length e) Ha ltac:(auto with rust) Hlen) as H.
  specialize (H ltac:(intros Hb; apply Hlo; intros Hnil; unfold bit_length in Hb;
                        rewrite Hnil in Hb; simpl in Hb; lia) Hhi
                (bit_length e) 0%nat (from_i64 1) a eq_refl Hw1 Ha).
  rewrite Z.pow_0_r, Z.mod_1_r, Z.pow_0_r, Z.pow_1_r in H. specialize (H Hz1 (fun _ => eq_refl)).
  rewrite Ez. destruct (pow_loop _ _ _ _ _ _); [|by right|done]. by split.
Qed.

(** ** Shifts *)

Lemma pow2_split k : 0 <= k <= 32 -> 2 ^ (32 - k) * 2 ^ k = B.
Proof. intros. rewrite <- Z.pow_add_r by lia. f_equal. lia. Qed.

Lemma u32_shiftl x k :
  0 <= k <= 32 -> 0 <= x -> u32 (Z.shiftl x k) = Z.shiftl (x mod 2 ^ (32 - k)) k.
Proof.
  intros Hk Hx. unfold wrap. rewrite !Z.shiftl_mul_pow2 by lia.
  rewrite <- (pow2_split k Hk). rewrite Z.mul_mod_distr_r; lia.
Qed.

Lemma shl_loop_spec l k c :
  limbs_ok l -> 0 <= k < 32 -> uint k c ->
  let r := shl_loop l k c in
  limbs_ok (fst r) /\ length (fst r) = length l /\ uint k (snd r) /\
  value (fst r) + Bn (length l) * snd r = value l * 2 ^ k + c.
Proof.
  revert c. induction l as [|x l IH]; intros c Hl Hk Hc.
  - cbn [shl_loop fst snd length value]. rewrite Bn_0. split_and!; auto with rust. lia.
  - apply limbs_ok_cons in Hl as [Hx Hl]. cbn [shl_loop]. unfold uint in Hx.
    assert ((if k =? 0 then 0 else Z.shiftr x (32 - k)) = x / 2 ^ (32 - k)) as ->.
    { destruct (Z.eqb_spec k 0) as [->|]; [|by rewrite Z.shiftr_div_pow2 by lia].
      rewrite Z.div_small; [done|]. by rewrite Z.sub_0_r. }
    pose proof (pow2_split k ltac:(lia)) as Hp. set (P := 2 ^ (32 - k)) in *.
    assert (0 < P) by (unfold P; lia). assert (0 < 2 ^ k) by lia.
    pose proof (Z.div_mod x P ltac:(lia)) as Hd. pose proof (Z.mod_pos_bound x P ltac:(lia)) as Hm.
    assert (uint k (x / P)) as Hcu.
    { unfold uint. split; [apply Z.div_pos; lia|apply Z.div_lt_upper_bound; lia]. }
    specialize (IH (x / P) Hl Hk Hcu). destruct (shl_loop l k (x / P)) as [out c'].
    cbn [fst snd] in *. destruct IH as (Ho & Hlen & Hc' & Hv).
    rewrite u32_shiftl by lia. fold P. rewrite lor_shiftl_add by (done || lia).
    cbn [length value]. rewrite Bn_S. unfold uint in Hc.
    split_and!; [|by rewrite Hlen|done|nia].
    apply limbs_ok_cons. split; [unfold uint; nia|done].
Qed.

Lemma nonneg_to_Z a : negative a = false -> to_Z a = mag a.
Proof. unfold to_Z. by intros ->. Qed.

Lemma small_shift_spec amount :
  wf amount -> negative amount = false ->
  match small_shift amount with
  | Ok bits => Z.of_nat bits = to_Z amount /\ (bits / 32 <= MAX_LIMBS)%nat
  | Err e => e = overflow /\ Z.of_nat MAX_LIMBS * 32 < to_Z amount
  | Panic => False
  end.
Proof.
  intros Hw Hn. rewrite (nonneg_to_Z _ Hn). unfold small_shift, mag.
  pose proof (limb_at_ok _ 0 (wf_limbs _ Hw)) as Hu. unfold uint in Hu.
  destruct (Nat.ltb_spec 1 (length (limbs amount))) as [Hl|Hl].
  - split; [done|]. pose proof (value_of_length _ 1 (wf_limbs _ Hw) (wf_trimmed _ Hw) Hl) as Hv.
    rewrite Bn_S, Bn_0 in Hv. unfold MAX_LIMBS. lia.
  - assert (value (limbs amount) = limb_at (limbs amount) 0) as ->.
    { destruct (limbs amount) as [|x [|y l]]; simpl in *; [done|unfold limb_at; simpl; lia|lia]. }
    destruct (Z.ltb_spec (Z.of_nat MAX_LIMBS * 32) (limb_at (limbs amount) 0)); [done|].
    split; [lia|]. apply Nat.Div0.div_le_upper_bound. lia.
Qed.

Lemma to_Z_mul a b k : wf b -> negative b = negative a \/ mag b = 0 ->
  mag b = mag a * k -> to_Z b = to_Z a * k.
Proof. intros Hw Hs Hm. unfold to_Z. destruct Hs as [->|Hz]; [destruct (negative a)|destruct (negative a), (negative b)]; lia. Qed.

Lemma limbs_ok_snoc l c : limbs_ok l -> uint 32 c -> limbs_ok (l ++ [c]).
Proof. intros. apply limbs_ok_app. split; [done|]. apply limbs_ok_cons. auto with rust. Qed.

Lemma uint_weaken v w x : 0 <= v <= w -> uint v x -> uint w x.
Proof. unfold uint. intros Hvw Hx. pose proof (Z.pow_le_mono_r 2 v w ltac:(lia) ltac:(lia)). lia. Qed.

Lemma pow2_bits n : 2 ^ Z.of_nat n = Bn (n / 32) * 2 ^ Z.of_nat (n mod 32).
Proof. rewrite Bn_pow2, <- Z.pow_add_r by lia. by rewrite <- nat_split32. Qed.

Lemma shl_nonneg_spec a amount :
  wf a -> wf amount -> negative amount = false ->
  match shl_nonneg a amount with
  | Ok c => wf c /\ to_Z c = Z.shiftl (to_Z a) (to_Z amount)
  | Err e => e = overflow /\
      (Z.of_nat MAX_LIMBS * 32 < to_Z amount \/ limit <= Z.abs (Z.shiftl (to_Z a) (to_Z amount)))
  | Panic => False
  end.
Proof.
  intros Ha Hm Hn. unfold shl_nonneg. pose proof (small_shift_spec amount Hm Hn) as Hs.
  destruct (small_shift amount) as [bits|e|]; [|destruct Hs as [-> Hs]; cbn [obind]; auto|done]. cbn [obind].
  destruct Hs as [Hs Hmax]. rewrite <- Hs. rewrite Z.shiftl_mul_pow2 by lia.
  pose proof (Nat.mod_upper_bound bits 32 ltac:(lia)).
  pose proof (shl_loop_spec (limbs a) (Z.of_nat (bits mod 32)) 0 (wf_limbs a Ha) ltac:(lia)
                ltac:(unfold uint; lia)) as Hl.
  destruct (shl_loop _ _ 0) as [out c]. cbn [fst snd] in Hl. destruct Hl as (Ho & Hlen & Hc & Hv).
  set (l := if 0 <? c then _ else _).
  assert (limbs_ok l /\ value l = mag a * 2 ^ Z.of_nat bits) as [Hlo Hlv].
  { unfold l, mag. rewrite pow2_bits.
    assert (uint 32 c) by (eapply uint_weaken; [|done]; lia). unfold uint in Hc.
    destruct (Z.ltb_spec 0 c).
    - rewrite !value_app, !length_app, !length_replicate, value_zeros, Bn_add, Hlen. cbn [value].
      split; [|nia]. apply limbs_ok_snoc; [|done]. apply limbs_ok_app; auto with rust.
    - rewrite value_app, length_replicate, value_zeros. assert (c = 0) as -> by lia.
      split; [apply limbs_ok_app; auto with rust|nia]. }
  destruct (normalized_spec (negative a) l Hlo) as (Hw & Hz & _).
  assert (to_Z (normalized (negative a) l) = to_Z a * 2 ^ Z.of_nat bits) as Hz'.
  { rewrite Hz, Hlv. unfold to_Z. destruct (negative a); lia. }
  destruct (Nat.ltb_spec MAX_LIMBS (length l)) as [Hov|Hin]; [|done].
  split; [done|]. rewrite Z.abs_mul, <- (mag_abs a Ha), (Z.abs_eq (2 ^ _)) by lia. rewrite <- Hlv.
  right. unfold limit.
  destruct (decide (limbs a = [])) as [Hnil|Hne].
  { rewrite Hnil in *. cbn [value length] in Hv, Hlen. destruct out; [|done].
    rewrite Bn_0 in Hv. cbn [value] in Hv. assert (c = 0) as -> by lia.
    subst l. rewrite Z.ltb_irrefl in Hov. rewrite app_nil_r, length_replicate in Hov. lia. }
  pose proof (value_nonneg _ Hlo). pose proof (Bn_pos (bits / 32)).
  subst l. destruct (Z.ltb_spec 0 c).
  - rewrite !length_app, length_replicate, Hlen in Hov. cbn [length] in Hov.
    rewrite value_app, length_app, length_replicate, Hlen. cbn [value].
    pose proof (Bn_le MAX_LIMBS (bits / 32 + length (limbs a)) ltac:(lia)).
    pose proof (value_nonneg (replicate (bits / 32) 0 ++ out) ltac:(apply limbs_ok_app; auto with rust)).
    pose proof (Bn_pos (bits / 32 + length (limbs a))) as Hpos.
    pose proof (Z.mul_le_mono_nonneg_l 1 c _ (Z.lt_le_incl _ _ Hpos) ltac:(lia)). lia.
  - rewrite length_app, length_replicate, Hlen in Hov. rewrite Hlv, pow2_bits.
    pose proof (value_lower _ (wf_limbs a Ha) (wf_trimmed a Ha) Hne) as Hlow. fold (mag a) in Hlow.
    assert (length (limbs a) <> 0)%nat by (by destruct (limbs a)).
    pose proof (Bn_le MAX_LIMBS (bits / 32 + (length (limbs a) - 1)) ltac:(lia)) as Hb.
    rewrite Bn_add in Hb. pose proof (Bn_pos (length (limbs a) - 1)).
    pose proof (Z.pow_pos_nonneg 2 (Z.of_nat (bits mod 32)) ltac:(lia) ltac:(lia)).
    transitivity (mag a * Bn (bits / 32)); [nia|]. rewrite Z.mul_assoc. nia.
Qed.

Lemma shr_loop_spec l k :
  limbs_ok l -> 0 <= k < 32 ->
  limbs_ok (shr_loop l k) /\ value (shr_loop l k) = value l / 2 ^ k.
Proof.
  intros Hl Hk. pose proof (pow2_split k ltac:(lia)) as Hp. set (P := 2 ^ (32 - k)) in *.
  pose proof (Z.pow_pos_nonneg 2 k ltac:(lia) ltac:(lia)) as Hk2.
  assert (0 < P) by (apply Z.pow_pos_nonneg; lia).
  induction l as [|x l IH]; [split; [auto with rust|done]|].
  apply limbs_ok_cons in Hl as [Hx Hl]. destruct (IH Hl) as [Ho Hv]. cbn [shr_loop value].
  set (high := if k =? 0 then 0 else _).
  assert (high = Z.shiftl (value l mod 2 ^ k) (32 - k)) as ->.
  { unfold high. destruct (Z.eqb_spec k 0) as [->|]; [by rewrite Z.mod_1_r|].
    destruct l as [|y l]; [cbn [value]; by rewrite Z.mod_0_l, Z.shiftl_0_l by lia|].
    apply limbs_ok_cons in Hl as [Hy _]. unfold uint in Hy.
    rewrite u32_shiftl by lia. replace (32 - (32 - k)) with k by lia. f_equal. cbn [value].
    replace (y + B * value l) with (y + (P * value l) * 2 ^ k) by (rewrite <- Hp; ring).
    by rewrite Z.mod_add by lia. }
  unfold uint in Hx. rewrite Z.shiftr_div_pow2 by lia.
  assert (uint (32 - k) (x / 2 ^ k)) as Hlow.
  { unfold uint. fold P. split; [apply Z.div_pos; lia|apply Z.div_lt_upper_bound; lia]. }
  rewrite Z.lor_comm, lor_shiftl_add by (done || lia). fold P.
  pose proof (Z.mod_pos_bound (value l) (2 ^ k) Hk2) as Hm.
  pose proof (Z.div_mod (value l) (2 ^ k) ltac:(lia)) as Hd.
  split.
  - apply limbs_ok_cons. split; [|done]. unfold uint in *. fold P in Hlow. nia.
  - rewrite Hv. replace (x + B * value l) with (x + (P * value l) * 2 ^ k) by (rewrite <- Hp; ring).
    rewrite Z.div_add by lia. rewrite <- Hp. nia.
Qed.

Lemma value_drop l n : limbs_ok l -> value (drop n l) = value l / Bn n.
Proof.
  intros Hl. destruct (decide (n <= length l)%nat) as [Hn|Hn].
  - rewrite (value_take_drop n l). pose proof (value_bound (take n l) ltac:(auto with rust)) as Hb.
    rewrite length_take_le in * by lia. pose proof (Bn_pos n).
    by rewrite (Z.mul_comm (Bn n)), Z.div_add, Z.div_small by lia.
  - rewrite drop_ge by lia. pose proof (value_bound l Hl). pose proof (Bn_le (length l) n ltac:(lia)).
    rewrite Z.div_small; [done|lia].
Qed.

(** Flooring division of a negative number by a power of two. *)
Lemma div_opp_floor m d :
  0 < d -> (- m) / d = if m / d * d =? m then - (m / d) else - (m / d) - 1.
Proof.
  intros Hd. pose proof (Z.div_mod m d ltac:(lia)) as Hm. pose proof (Z.mod_pos_bound m d Hd).
  destruct (Z.eqb_spec (m / d * d) m) as [E|E].
  - symmetry. apply (Z.div_unique _ _ _ 0); nia.
  - symmetry. apply (Z.div_unique _ _ _ (d - m mod d)); [left; nia|nia].
Qed.

Lemma shr_nonneg_spec a amount :
  wf a -> wf amount -> negative amount = false ->
  match shr_nonneg a amount with
  | Ok c => wf c /\ to_Z c = Z.shiftr (to_Z a) (to_Z amount)
  | Err e => e = overflow /\ (Z.of_nat MAX_LIMBS * 32 < to_Z amount \/ limit <= Z.abs (to_Z a))
  | Panic => False
  end.
Proof.
  intros Ha Hm Hn. unfold shr_nonneg. pose proof (small_shift_spec amount Hm Hn) as Hs.
  destruct (small_shift amount) as [bits|e|]; [|destruct Hs as [-> Hs]; cbn [obind]; auto|done].
  cbn [obind]. destruct Hs as [Hs _]. rewrite <- Hs, Z.shiftr_div_pow2 by lia.
  pose proof (mag_nonneg a Ha) as Hma. pose proof (Nat.mod_upper_bound bits 32 ltac:(lia)).
  set (D := 2 ^ Z.of_nat bits). assert (0 < D) as HD by (apply Z.pow_pos_nonneg; lia).
  destruct (Nat.leb_spec (length (limbs a)) (bits / 32)) as [Hle|Hgt].
  - assert (mag a < D) as Hlt.
    { unfold mag, D. rewrite pow2_bits. pose proof (value_bound _ (wf_limbs a Ha)).
      pose proof (Bn_le _ _ Hle).
      pose proof (Z.pow_pos_nonneg 2 (Z.of_nat (bits mod 32)) ltac:(lia) ltac:(lia)). nia. }
    pose proof (to_Z_neg a Ha) as Hneg. unfold to_Z at 2. destruct (negative a) eqn:En.
    + destruct (from_i64_spec (-1) ltac:(lia)) as [Hw ->]. split; [done|].
      apply (Z.div_unique _ _ _ (D - mag a)); [|lia]. left.
      assert (to_Z a < 0) as Hz by tauto. unfold to_Z in Hz. rewrite En in Hz. lia.
    + split; [auto with rust|]. by rewrite Z.div_small by lia.
  - destruct (shr_loop_spec (drop (bits / 32) (limbs a)) (Z.of_nat (bits mod 32))) as [Ho Hv];
      [auto with rust|lia|].
    rewrite value_drop, Z.div_div, <- pow2_bits in Hv
      by (auto with rust || (pose proof (Bn_pos (bits / 32)); lia) || apply Z.pow_pos_nonneg; lia).
    fold (mag a) D in Hv.
    destruct (normalized_spec (negative a) _ Ho) as (Hw & Hz & _). rewrite Hv in Hz.
    set (sh := normalized _ _) in *. unfold to_Z at 2 3.
    destruct (negative a) eqn:En; [|done].
    assert (0 <= mag a / D) as Hdp by (apply Z.div_pos; lia).
    pose proof (shl_nonneg_spec sh amount Hw Hm Hn) as Hsh.
    rewrite <- Hs, Z.shiftl_mul_pow2 in Hsh by lia. fold D in Hsh. rewrite Hz in Hsh.
    pose proof (Z.div_mod (mag a) D ltac:(lia)) as Hdm. pose proof (Z.mod_pos_bound (mag a) D HD).
    destruct (shl_nonneg sh amount) as [c|e|]; [| |done]; cbn [obind].
    + destruct Hsh as [Hwc Hzc]. rewrite compare_spec by done. rewrite Hzc.
      unfold to_Z at 1. rewrite En, div_opp_floor by done.
      destruct (Z.eqb_spec (mag a / D * D) (mag a)) as [E|E].
      * replace (- (mag a / D) * D) with (- mag a) by lia. rewrite Z.compare_refl. by split.
      * destruct (Z.compare_spec (- (mag a / D) * D) (- mag a)) as [E'|E'|E']; [lia| |];
          (pose proof (sub_spec sh (from_i64 1) Hw (proj1 (from_i64_spec 1 ltac:(lia)))) as Hsub;
           rewrite (proj2 (from_i64_spec 1 ltac:(lia))), Hz in Hsub;
           destruct (sub sh (from_i64 1)); [by destruct Hsub as (? & ? & _)| |done]; destruct Hsub as [-> Hsub];
           split; [done|]; right; nia).
    + destruct Hsh as [-> [Hsh|Hsh]]; split; auto. right. nia.
Qed.

(** ** Two's complement *)

Lemma map_not32_spec l :
  limbs_ok l -> limbs_ok (map not32 l) /\ length (map not32 l) = length l /\
  value (map not32 l) = Bn (length l) - 1 - value l.
Proof.
  induction l as [|x l IH]; [intros; cbn; rewrite Bn_0; auto with rust|].
  intros [Hx Hl]%limbs_ok_cons. destruct (IH Hl) as (Ho & Hlen & Hv).
  cbn [map length value]. rewrite Hlen, Hv, Bn_S. unfold not32, uint in *.
  change (Z.lnot x) with (Z.pred (- x)). unfold wrap.
  rewrite <- (Z.mod_unique (Z.pred (- x)) B (-1) (B - 1 - x)) by lia.
  split_and!; [|done|lia]. apply limbs_ok_cons. split; [unfold uint; lia|done].
Qed.

Lemma add_carry_spec l :
  limbs_ok l -> limbs_ok (add_carry l 1) /\ length (add_carry l 1) = length l /\
  value (add_carry l 1) = (value l + 1) mod Bn (length l).
Proof.
  induction l as [|x l IH]; [intros; cbn; rewrite Bn_0, Z.mod_1_r; auto with rust|].
  intros [Hx Hl]%limbs_ok_cons. destruct (IH Hl) as (Ho & Hlen & Hv).
  pose proof (value_bound l Hl) as Hb. unfold uint in Hx. cbn [add_carry].
  rewrite (wrap_id 64) by (unfold uint; lia).
  pose proof (u32_shift_split (x + 1) ltac:(lia)) as Hs. pose proof (u32_ok (x + 1)) as Hu.
  unfold uint in Hu. cbn [length value]. rewrite Bn_S.
  destruct (Z.eqb_spec (Z.shiftr (x + 1) 32) 0) as [Hz|Hnz].
  - rewrite Z.mod_small by lia. cbn [length value].
    split_and!; [by apply limbs_ok_cons; auto with rust|done|lia].
  - assert (Z.shiftr (x + 1) 32 = 1) as -> by lia. assert (u32 (x + 1) = 0) as Hu0 by lia.
    cbn [length value]. rewrite Hlen, Hv.
    split_and!; [by apply limbs_ok_cons; auto with rust|done|].
    rewrite Hu0. replace (x + B * value l + 1) with (B * (value l + 1)) by lia.
    pose proof (Bn_pos (length l)). rewrite Z.mul_mod_distr_l; lia.
Qed.

(** Complementing and adding one negates modulo the width. *)
Lemma complement_spec l :
  limbs_ok l -> limbs_ok (add_carry (map not32 l) 1) /\
  length (add_carry (map not32 l) 1) = length l /\
  value (add_carry (map not32 l) 1) = (- value l) mod Bn (length l).
Proof.
  intros Hl. destruct (map_not32_spec l Hl) as (Ho & Hlen & Hv).
  destruct (add_carry_spec _ Ho) as (Ho' & Hlen' & Hv'). rewrite Hlen in *.
  split_and!; [done|done|]. rewrite Hv', Hv. pose proof (Bn_pos (length l)).
  replace (Bn (length l) - 1 - value l + 1) with (- value l + 1 * Bn (length l)) by lia.
  apply Z.mod_add. lia.
Qed.

Lemma resize_spec w l :
  limbs_ok l -> limbs_ok (resize w 0 l) /\ length (resize w 0 l) = w /\
  value (resize w 0 l) = value l mod Bn w.
Proof.
  intros Hl. split_and!; [apply Forall_resize; [unfold uint; lia|done]|apply length_resize|].
  pose proof (value_bound l Hl) as Hb. destruct (decide (length l <= w)%nat) as [Hw|Hw].
  - rewrite resize_ge by done. rewrite value_app, value_zeros, Z.mod_small; [lia|].
    pose proof (Bn_le _ _ Hw). lia.
  - rewrite resize_le by lia. rewrite (value_take_drop w l). rewrite length_take_le by lia.
    pose proof (value_bound (take w l) ltac:(auto with rust)) as Ht. rewrite length_take_le in Ht by lia.
    pose proof (Bn_pos w). rewrite (Z.mul_comm (Bn w)), Z.mod_add by lia. by rewrite Z.mod_small.
Qed.

Lemma twos_complement_spec a w :
  wf a -> limbs_ok (twos_complement a w) /\ length (twos_complement a w) = w /\
  value (twos_complement a w) = to_Z a mod Bn w.
Proof.
  intros Ha. destruct (resize_spec w (limbs a) (wf_limbs a Ha)) as (Ho & Hl & Hv).
  unfold twos_complement, to_Z. destruct (negative a); simpl; [|done].
  destruct (complement_spec _ Ho) as (Ho' & Hl' & Hv'). rewrite Hl in *.
  split_and!; [done|done|]. rewrite Hv', Hv. pose proof (Bn_pos w).
  rewrite <- !Z.sub_0_l. apply Zminus_mod_idemp_r.
Qed.

(** The signed reading of a residue modulo [2 ^ w]. *)
Definition signed (w x : Z) : Z :=
  let r := x mod 2 ^ w in if 2 ^ (w - 1) <=? r then r - 2 ^ w else r.

Lemma signed_small w x : 0 < w -> - 2 ^ (w - 1) <= x < 2 ^ (w - 1) -> signed w x = x.
Proof.
  intros Hw Hx. unfold signed.
  assert (2 ^ w = 2 * 2 ^ (w - 1)) as Hp by (rewrite <- Z.pow_succ_r by lia; f_equal; lia).
  destruct (Z.lt_ge_cases x 0).
  - rewrite <- (Z.mod_unique x (2 ^ w) (-1) (x + 2 ^ w)) by lia.
    destruct (Z.leb_spec (2 ^ (w - 1)) (x + 2 ^ w)); lia.
  - rewrite Z.mod_small by lia. destruct (Z.leb_spec (2 ^ (w - 1)) x); lia.
Qed.

Lemma from_twos_complement_spec l :
  limbs_ok l -> l <> [] ->
  wf (from_twos_complement l) /\
  to_Z (from_twos_complement l) = signed (32 * Z.of_nat (length l)) (value l).
Proof.
  intros Hl Hne. pose proof (value_bound l Hl) as Hb.
  unfold from_twos_complement, signed. rewrite <- Bn_pow2, Z.mod_small by done.
  destruct (last l) as [top|] eqn:Hlast; [|by apply last_None in Hlast].
  apply last_Some in Hlast as [k ->]. pose proof Hl as [Hk [Ht _]%limbs_ok_cons]%limbs_ok_app.
  assert (2 ^ (32 * Z.of_nat (length (k ++ [top])) - 1) = Bn (length k) * 2 ^ 31) as ->.
  { rewrite length_app, Bn_pow2, <- Z.pow_add_r by (simpl; lia). f_equal. simpl. lia. }
  pose proof (value_bound k Hk) as Hkb. unfold uint in Ht.
  rewrite value_app. cbn [value]. rewrite Z.mul_0_r, Z.add_0_r.
  rewrite Z.shiftr_div_pow2 by lia. pose proof (Z.div_mod top (2 ^ 31) ltac:(lia)) as Hd.
  pose proof (Z.mod_pos_bound top (2 ^ 31) ltac:(lia)) as Hm. pose proof (Bn_pos (length k)).
  destruct (Z.eqb_spec (top / 2 ^ 31) 1) as [E|E]; cbn [negb].
  - destruct (complement_spec _ Hl) as (Ho & Hlen & Hv).
    destruct (normalized_spec true _ Ho) as (Hw & Hz & _). split; [done|]. rewrite Hz, Hv.
    rewrite value_app. cbn [value].
    destruct (Z.leb_spec (Bn (length k) * 2 ^ 31) (value k + Bn (length k) * top)); [|nia].
    rewrite length_app, Bn_add. cbn [length]. rewrite Bn_S, Bn_0.
    rewrite Z.mod_opp_l_nz; [rewrite Z.mod_small|..]; [| |lia|]; rewrite ?Z.mod_small; nia.
  - destruct (normalized_spec false _ Hl) as (Hw & Hz & _). split; [done|]. rewrite Hz, value_app.
    cbn [value]. destruct (Z.leb_spec (Bn (length k) * 2 ^ 31) (value k + Bn (length k) * top)); nia.
Qed.

(** ** Bitwise operators *)

Section Bitwise.
Context (op : Z -> Z -> Z) (f : bool -> bool -> bool).
Hypothesis op_spec : forall x y n, Z.testbit (op x y) n = f (Z.testbit x n) (Z.testbit y n).
Hypothesis f_false : f false false = false.
Hypothesis op_range : forall x y, uint 32 x -> uint 32 y -> uint 32 (op x y).
Hypothesis op_sign : forall x y, -1 <= x <= 0 -> -1 <= y <= 0 -> -1 <= op x y <= 0.

Lemma testbit_limb x v n :
  uint 32 x -> 0 <= n ->
  Z.testbit (x + B * v) n = if n <? 32 then Z.testbit x n else Z.testbit v (n - 32).
Proof using.
  intros Hx Hn. replace (x + B * v) with (v * 2 ^ 32 + x) by lia.
  rewrite <- lor_shiftl_add, Z.lor_spec, Z.shiftl_spec by (done || lia).
  destruct (Z.ltb_spec n 32).
  - by rewrite Z.testbit_neg_r by lia.
  - rewrite (uint_testbit_high 32 x n) by (done || lia). apply orb_false_r.
Qed.

Lemma op_limb x y v w :
  uint 32 x -> uint 32 y -> op (x + B * v) (y + B * w) = op x y + B * op v w.
Proof using All.
  intros Hx Hy. apply Z.bits_inj'. intros n Hn.
  rewrite op_spec, !testbit_limb by auto. destruct (n <? 32); by rewrite op_spec.
Qed.

Lemma op_zero : op 0 0 = 0.
Proof using All. apply Z.bits_inj'. intros n _. by rewrite op_spec, Z.bits_0. Qed.

Lemma zip_with_spec l k :
  limbs_ok l -> limbs_ok k -> length l = length k ->
  limbs_ok (zip_with op l k) /\ length (zip_with op l k) = length l /\
  value (zip_with op l k) = op (value l) (value k).
Proof using All.
  revert k. induction l as [|x l IH]; intros [|y k] Hl Hk Hlen; try done.
  - cbn. rewrite op_zero. auto with rust.
  - apply limbs_ok_cons in Hl as [Hx Hl]. apply limbs_ok_cons in Hk as [Hy Hk].
    destruct (IH k Hl Hk ltac:(by injection Hlen)) as (Ho & Hn & Hv).
    cbn [zip_with length value]. rewrite op_limb, Hv, Hn by done.
    split_and!; [|done|done]. apply limbs_ok_cons. auto.
Qed.

Lemma op_mod x y n : 0 <= n -> op (x mod 2 ^ n) (y mod 2 ^ n) = op x y mod 2 ^ n.
Proof using All.
  intros Hn. apply Z.bits_inj'. intros i Hi. rewrite op_spec.
  destruct (Z.lt_ge_cases i n).
  - by rewrite !Z.mod_pow2_bits_low, op_spec by lia.
  - by rewrite !Z.mod_pow2_bits_high by lia.
Qed.

Lemma shiftr_sign x k : 0 <= k -> - 2 ^ k <= x < 2 ^ k <-> -1 <= Z.shiftr x k <= 0.
Proof using.
  intros Hk. rewrite Z.shiftr_div_pow2 by done.
  pose proof (Z.pow_pos_nonneg 2 k ltac:(lia) Hk) as Hp.
  pose proof (Z.div_mod x (2 ^ k) ltac:(lia)). pose proof (Z.mod_pos_bound x (2 ^ k) Hp). nia.
Qed.

Lemma op_bound x y k :
  0 <= k -> - 2 ^ k <= x < 2 ^ k -> - 2 ^ k <= y < 2 ^ k -> - 2 ^ k <= op x y < 2 ^ k.
Proof using All.
  intros Hk. rewrite !shiftr_sign by done. intros Hx Hy.
  assert (Z.shiftr (op x y) k = op (Z.shiftr x k) (Z.shiftr y k)) as ->; [|by apply op_sign].
  apply Z.bits_inj'. intros n Hn. by rewrite op_spec, !Z.shiftr_spec, op_spec by lia.
Qed.

Lemma to_Z_bound a w :
  wf a -> (length (limbs a) <= w)%nat -> - 2 ^ (32 * Z.of_nat w) <= to_Z a < 2 ^ (32 * Z.of_nat w).
Proof using.
  intros Ha Hw. rewrite <- Bn_pow2. pose proof (value_bound _ (wf_limbs a Ha)).
  pose proof (Bn_le _ _ Hw). unfold to_Z, mag. destruct (negative a); lia.
Qed.

Lemma bitwise_spec a b :
  wf a -> wf b -> exists c, bitwise op a b = Ok c /\ wf c /\ to_Z c = op (to_Z a) (to_Z b).
Proof using All.
  intros Ha Hb. unfold bitwise. set (m := Nat.max (length (limbs a)) (length (limbs b))).
  destruct (twos_complement_spec a (m + 1) Ha) as (Hoa & Hla & Hva).
  destruct (twos_complement_spec b (m + 1) Hb) as (Hob & Hlb & Hvb).
  destruct (zip_with_spec _ _ Hoa Hob ltac:(congruence)) as (Ho & Hl & Hv).
  destruct (from_twos_complement_spec _ Ho) as [Hw Hz].
  { intros E. rewrite E in Hl. simpl in Hl. lia. }
  eexists. split_and!; [done|done|]. rewrite Hz, Hl, Hla, Hv, Hva, Hvb.
  rewrite Bn_pow2, op_mod by lia. unfold signed at 1. rewrite Z.mod_mod by lia.
  fold (signed (32 * Z.of_nat (m + 1)) (op (to_Z a) (to_Z b))). apply signed_small; [lia|].
  pose proof (op_bound _ _ (32 * Z.of_nat m) ltac:(lia)
    (to_Z_bound a m Ha ltac:(lia)) (to_Z_bound b m Hb ltac:(lia))) as Hbd.
  pose proof (Z.pow_le_mono_r 2 (32 * Z.of_nat m) (32 * Z.of_nat (m + 1) - 1) ltac:(lia) ltac:(lia)).
  lia.
Qed.
End Bitwise.

Lemma sign_cases x : -1 <= x <= 0 -> x = -1 \/ x = 0.
Proof. lia. Qed.

Ltac op_sign_tac :=
  let H := fresh in let H' := fresh in
  intros ? ? [H|H]%sign_cases [H'|H']%sign_cases; rewrite H, H'; vm_compute; split; discriminate.

Lemma bitand_spec a b :
  wf a -> wf b -> exists c, bitand a b = Ok c /\ wf c /\ to_Z c = Z.land (to_Z a) (to_Z b).
Proof.
  apply (bitwise_spec Z.land andb); [apply Z.land_spec|done| |op_sign_tac].
  intros. apply uint_land; [lia|done].
Qed.

Lemma bitor_spec a b :
  wf a -> wf b -> exists c, bitor a b = Ok c /\ wf c /\ to_Z c = Z.lor (to_Z a) (to_Z b).
Proof.
  apply (bitwise_spec Z.lor orb); [apply Z.lor_spec|done| |op_sign_tac].
  intros. apply uint_lor; [lia|done..].
Qed.

Lemma bitxor_spec a b :
  wf a -> wf b -> exists c, bitxor a b = Ok c /\ wf c /\ to_Z c = Z.lxor (to_Z a) (to_Z b).
Proof.
  apply (bitwise_spec Z.lxor xorb); [apply Z.lxor_spec|done| |op_sign_tac].
  intros. apply uint_lxor; [lia|done..].
Qed.

(** ** Wrapping to a number of bits *)

Lemma imap_S {A C} (f g : nat -> A -> C) x l :
  (forall i y, f (S i) y = g i y) -> imap f (x :: l) = f 0%nat x :: imap g l.
Proof. intros H. rewrite imap_cons. f_equal. apply imap_ext. intros. apply H. Qed.

Lemma mask_limb_S b i x : mask_limb b (S i) x = mask_limb (b - 32) i x.
Proof.
  unfold mask_limb. replace (b - S i * 32)%nat with (b - 32 - i * 32)%nat by lia.
  destruct (Nat.leb_spec b (S i * 32)), (Nat.leb_spec (b - 32) (i * 32)); try lia; try done.
  destruct (Nat.ltb_spec b (S i * 32 + 32)), (Nat.ltb_spec (b - 32) (i * 32 + 32)); lia || done.
Qed.

Lemma extend_limb_S b i x : extend_limb b (S i) x = extend_limb (b - 32) i x.
Proof.
  unfold extend_limb. replace (b - S i * 32)%nat with (b - 32 - i * 32)%nat by lia.
  destruct (Nat.leb_spec b (S i * 32)), (Nat.leb_spec (b - 32) (i * 32)); try lia; try done.
  destruct (Nat.ltb_spec b (S i * 32 + 32)), (Nat.ltb_spec (b - 32) (i * 32 + 32)); lia || done.
Qed.

(** [(1u32 << b) - 1] for [b < 32] *)
Lemma low_mask b : (b < 32)%nat -> u32 (Z.shiftl 1 (Z.of_nat b)) - 1 = 2 ^ Z.of_nat b - 1.
Proof.
  intros Hb. rewrite Z.shiftl_1_l, wrap_id; [done|].
  unfold uint. split; [lia|apply Z.pow_lt_mono_r; lia].
Qed.

Lemma mask_limb_0 b x : uint 32 x -> mask_limb b 0 x = x mod 2 ^ Z.of_nat b.
Proof.
  intros Hx. unfold mask_limb. rewrite Nat.mul_0_l, Nat.add_0_l, Nat.sub_0_r.
  destruct (Nat.leb_spec b 0); [assert (b = 0%nat) as -> by lia; by rewrite Z.mod_1_r|].
  destruct (Nat.ltb_spec b 32).
  - rewrite low_mask by done. replace (2 ^ Z.of_nat b - 1) with (Z.ones (Z.of_nat b)).
    { apply Z.land_ones. lia. } rewrite Z.ones_equiv. lia.
  - unfold uint in Hx. rewrite Z.mod_small; [done|].
    pose proof (Z.pow_le_mono_r 2 32 (Z.of_nat b) ltac:(lia) ltac:(lia)). lia.
Qed.

Lemma mask_spec b l :
  limbs_ok l ->
  limbs_ok (imap (mask_limb b) l) /\ length (imap (mask_limb b) l) = length l /\
  value (imap (mask_limb b) l) = value l mod 2 ^ Z.of_nat b.
Proof.
  revert b. induction l as [|x l IH]; intros b Hl.
  - cbn. auto with rust.
  - apply limbs_ok_cons in Hl as [Hx Hl]. destruct (IH (b - 32)%nat Hl) as (Ho & Hn & Hv).
    rewrite (imap_S _ (mask_limb (b - 32))) by apply mask_limb_S.
    cbn [length value]. rewrite Hn, Hv, mask_limb_0 by done.
    pose proof (Z.pow_pos_nonneg 2 (Z.of_nat b) ltac:(lia) ltac:(lia)) as Hp.
    pose proof (Z.mod_pos_bound x _ Hp) as Hm. unfold uint in Hx.
    pose proof (Z.mod_le x (2 ^ Z.of_nat b) ltac:(lia) Hp).
    split_and!; [apply limbs_ok_cons; split; [unfold uint; lia|done]|done|].
    destruct (decide (b <= 32)%nat) as [Hb|Hb].
    + replace (b - 32)%nat with 0%nat by lia. rewrite Z.pow_0_r, Z.mod_1_r, Z.mul_0_r, Z.add_0_r.
      rewrite <- (pow2_split (Z.of_nat b)) by lia.
      replace (x + 2 ^ (32 - Z.of_nat b) * 2 ^ Z.of_nat b * value l)
        with (x + (2 ^ (32 - Z.of_nat b) * value l) * 2 ^ Z.of_nat b) by ring.
      by rewrite Z.mod_add by lia.
    + assert (2 ^ Z.of_nat b = B * 2 ^ Z.of_nat (b - 32)) as Hsp
        by (rewrite <- Z.pow_add_r by lia; f_equal; lia).
      rewrite Hsp in *. pose proof (Z.pow_pos_nonneg 2 (Z.of_nat (b - 32)) ltac:(lia) ltac:(lia)).
      rewrite (Z.mod_small x (B * _)), Z.rem_mul_r, (Z.mul_comm B (value l)) by lia.
      by rewrite Z.mod_add, Z.div_add, (Z.mod_small x B), (Z.div_small x) by lia.
Qed.

Lemma extend_limb_0 b x :
  uint 32 x -> x < 2 ^ Z.of_nat b ->
  extend_limb b 0 x = if (b <? 32)%nat then x + (B - 2 ^ Z.of_nat b) else x.
Proof.
  intros Hx Hlt. unfold extend_limb. rewrite Nat.mul_0_l, Nat.add_0_l, Nat.sub_0_r.
  destruct (Nat.leb_spec b 0).
  { assert (b = 0%nat) as -> by lia. simpl. unfold uint in Hx. simpl in *. lia. }
  destruct (Nat.ltb_spec b 32); [|done]. rewrite low_mask by done.
  pose proof (Z.pow_pos_nonneg 2 (Z.of_nat b) ltac:(lia) ltac:(lia)) as Hp.
  pose proof (Z.pow_le_mono_r 2 (Z.of_nat b) 32 ltac:(lia) ltac:(lia)) as Hp'.
  assert (not32 (2 ^ Z.of_nat b - 1) = Z.shiftl (2 ^ (32 - Z.of_nat b) - 1) (Z.of_nat b)) as ->.
  { unfold not32. change (Z.lnot (2 ^ Z.of_nat b - 1)) with (Z.pred (- (2 ^ Z.of_nat b - 1))).
    rewrite Z.shiftl_mul_pow2, Z.mul_sub_distr_r, pow2_split by lia. unfold wrap.
    symmetry. apply (Z.mod_unique _ _ (-1)); lia. }
  rewrite Z.lor_comm, lor_shiftl_add, Z.mul_sub_distr_r, pow2_split by (unfold uint in *; lia). lia.
Qed.

Lemma extend_spec b l :
  limbs_ok l -> (b <= length l * 32)%nat -> value l < 2 ^ Z.of_nat b ->
  limbs_ok (imap (extend_limb b) l) /\ length (imap (extend_limb b) l) = length l /\
  value (imap (extend_limb b) l) = value l + (Bn (length l) - 2 ^ Z.of_nat b).
Proof.
  revert b. induction l as [|x l IH]; intros b Hl Hb Hlt.
  - assert (b = 0%nat) as -> by (simpl in Hb; lia). cbn. auto with rust.
  - apply limbs_ok_cons in Hl as [Hx Hl]. cbn [value length] in *.
    pose proof (value_nonneg l Hl) as Hnn. pose proof Hx as Hx'. unfold uint in Hx'.
    rewrite (imap_S _ (extend_limb (b - 32))) by apply extend_limb_S.
    rewrite extend_limb_0 by (done || lia). cbn [length value]. rewrite Bn_S.
    pose proof (Z.pow_pos_nonneg 2 (Z.of_nat b) ltac:(lia) ltac:(lia)) as Hp.
    destruct (Nat.ltb_spec b 32).
    + pose proof (Z.pow_lt_mono_r 2 (Z.of_nat b) 32 ltac:(lia) ltac:(lia) ltac:(lia)).
      destruct (IH (b - 32)%nat Hl ltac:(lia)) as (Ho & Hn & Hv).
      { replace (b - 32)%nat with 0%nat by lia. rewrite Z.pow_0_r. lia. }
      rewrite Hn, Hv. replace (b - 32)%nat with 0%nat in * by lia. rewrite Z.pow_0_r.
      split_and!; [apply limbs_ok_cons; split; [unfold uint; lia|done]|done|lia].
    + assert (2 ^ Z.of_nat b = B * 2 ^ Z.of_nat (b - 32)) as Hsp
        by (rewrite <- Z.pow_add_r by lia; f_equal; lia).
      destruct (IH (b - 32)%nat Hl ltac:(lia) ltac:(lia)) as (Ho & Hn & Hv).
      rewrite Hn, Hv. split_and!; [by apply limbs_ok_cons|done|lia].
Qed.

Lemma testbit_top r n : 0 < n -> uint n r -> Z.testbit r (n - 1) = (2 ^ (n - 1) <=? r).
Proof.
  intros Hn Hr. unfold uint in Hr.
  assert (2 ^ n = 2 * 2 ^ (n - 1)) as Hp by (rewrite <- Z.pow_succ_r by lia; f_equal; lia).
  destruct (Z.leb_spec (2 ^ (n - 1)) r).
  - apply Z.testbit_true; [lia|].
    rewrite <- (Z.div_unique r (2 ^ (n - 1)) 1 (r - 2 ^ (n - 1))) by lia. done.
  - apply Z.testbit_false; [lia|]. by rewrite Z.div_small by lia.
Qed.

(** What [asIntN] and [asUintN] return. *)
Definition wrapped (bits : nat) (sgn : bool) (x : Z) : Z :=
  if sgn && negb (bits =? 0)%nat then signed (Z.of_nat bits) x else x mod 2 ^ Z.of_nat bits.

Lemma as_n_bit_small a bits sgn :
  wf a -> (0 < bits)%nat ->
  ((sgn && (bit_length a <? bits)%nat)
   || (negb sgn && negb (negative a) && (bit_length a <=? bits)%nat)) = true ->
  wrapped bits sgn (to_Z a) = to_Z a.
Proof.
  intros Ha Hb Hc. destruct (bit_length_spec a Ha) as (Hhi & _ & _).
  pose proof (mag_nonneg a Ha). unfold wrapped. rewrite (proj2 (Nat.eqb_neq bits 0)) by lia.
  destruct sgn; simpl in *.
  - rewrite orb_false_r in Hc. apply Nat.ltb_lt in Hc. apply signed_small; [lia|].
    pose proof (Z.pow_le_mono_r 2 (Z.of_nat (bit_length a)) (Z.of_nat bits - 1) ltac:(lia) ltac:(lia)).
    unfold to_Z. destruct (negative a); lia.
  - apply andb_true_iff in Hc as [Hn Hc]. apply negb_true_iff in Hn. apply Nat.leb_le in Hc.
    rewrite (nonneg_to_Z a Hn). apply Z.mod_small.
    pose proof (Z.pow_le_mono_r 2 (Z.of_nat (bit_length a)) (Z.of_nat bits) ltac:(lia) ltac:(lia)). lia.
Qed.

Lemma as_n_bit_large a bits sgn :
  wf a ->
  ((sgn && (bit_length a <? bits)%nat)
   || (negb sgn && negb (negative a) && (bit_length a <=? bits)%nat)) = false ->
  (MAX_LIMBS * 32 < bits)%nat ->
  (sgn = false /\ to_Z a < 0) \/ limit <= Z.abs (to_Z a).
Proof.
  intros Ha Hc Hb. destruct (bit_length_spec a Ha) as (_ & Hlo & _).
  pose proof (to_Z_neg a Ha) as Hneg.
  assert ((sgn = false /\ negative a = true) \/ (bits <= bit_length a)%nat) as [[-> Hn]|Hl].
  { destruct sgn, (negative a); simpl in Hc; rewrite ?orb_false_r in Hc; auto;
      right; (apply Nat.ltb_ge in Hc || apply Nat.leb_gt in Hc); lia. }
  - left. split; [done|]. by apply Hneg.
  - right. rewrite <- (mag_abs a Ha). destruct Hlo as [Hlo _].
    { intros E. unfold bit_length in Hl. rewrite E in Hl. simpl in Hl. lia. }
    unfold limit. rewrite Bn_pow2.
    pose proof (Z.pow_le_mono_r 2 (32 * Z.of_nat MAX_LIMBS) (Z.of_nat (bit_length a) - 1)
                  ltac:(lia) ltac:(lia)). lia.
Qed.

Lemma as_n_bit_spec a bits sgn :
  wf a ->
  match as_n_bit a bits sgn with
  | Ok c => wf c /\ to_Z c = wrapped bits sgn (to_Z a)
  | Err e => e = overflow /\ (MAX_LIMBS * 32 < bits)%nat /\
             ((sgn = false /\ to_Z a < 0) \/ limit <= Z.abs (to_Z a))
  | Panic => False
  end.
Proof.
  intros Ha. unfold as_n_bit. destruct (Nat.eqb_spec bits 0) as [->|Hnz].
  { split; [auto with rust|]. unfold wrapped. rewrite andb_false_r. by rewrite Z.mod_1_r. }
  destruct (_ || _) eqn:Hc; [split; [done|]; by rewrite as_n_bit_small by (done || lia)|].
  destruct (Nat.ltb_spec (MAX_LIMBS * 32) bits) as [Hov|_].
  { split_and!; [done|done|]. by apply (as_n_bit_large a bits). }
  clear Hc. set (w := ((bits + 31) / 32 + 1)%nat).
  assert (bits < w * 32)%nat as Hw.
  { unfold w. pose proof (Nat.div_mod_eq (bits + 31) 32). pose proof (Nat.mod_upper_bound (bits + 31) 32).
    lia. }
  destruct (twos_complement_spec a w Ha) as (Ho & Hl & Hv).
  destruct (mask_spec bits _ Ho) as (Hmo & Hml & Hmv). set (l := imap _ _) in *. rewrite Hl in Hml.
  pose proof (Z.pow_pos_nonneg 2 (Z.of_nat bits) ltac:(lia) ltac:(lia)) as Hp.
  assert (value l = to_Z a mod 2 ^ Z.of_nat bits) as Hlv.
  { rewrite Hmv, Hv, Bn_pow2. apply Z.mod_mod_divide.
    exists (2 ^ (32 * Z.of_nat w - Z.of_nat bits)). rewrite <- Z.pow_add_r by lia. f_equal. lia. }
  pose proof (Z.mod_pos_bound (to_Z a) _ Hp) as Hr. rewrite <- Hlv in Hr.
  rewrite bit_of_spec by (done || lia). cbn [obind].
  rewrite Nat2Z.inj_sub by lia. rewrite testbit_top by (done || lia).
  unfold wrapped. rewrite (proj2 (Nat.eqb_neq bits 0)) by lia. unfold signed. rewrite <- Hlv.
  destruct sgn; cbn [andb negb].
  2:{ destruct (normalized_spec false l Hmo) as (? & Hz & _). by rewrite Hz. }
  destruct (Z.leb_spec (2 ^ (Z.of_nat bits - 1)) (value l)) as [Ht|Ht]; cbn [Z.b2z Z.eqb Pos.eqb].
  2:{ destruct (normalized_spec false l Hmo) as (? & Hz & _). by rewrite Hz. }
  destruct (extend_spec bits l Hmo ltac:(lia) ltac:(lia)) as (Heo & Hel & Hev).
  destruct (from_twos_complement_spec _ Heo) as [Hwf Hz].
  { intros E. rewrite E, Hml in Hel. simpl in Hel. lia. }
  split; [done|]. rewrite Hz, Hel, Hml, Hev, Hml, Bn_pow2.
  replace (value l + (2 ^ (32 * Z.of_nat w) - 2 ^ Z.of_nat bits))
    with (value l - 2 ^ Z.of_nat bits + 1 * 2 ^ (32 * Z.of_nat w)) by lia.
  unfold signed at 1. rewrite Z.mod_add by lia. apply (signed_small (32 * Z.of_nat w)); [lia|].
  pose proof (Z.pow_le_mono_r 2 (Z.of_nat bits) (32 * Z.of_nat w - 1) ltac:(lia) ltac:(lia)). lia.
Qed.
