(* ===== verification/BigIntText.v ===== *)
(** Words, decimal and radix text of the big integers, and back. *)
From stdpp Require Import prelude list strings.
From Stdlib Require Import ZArith Lia.
From S2P Require Import Prelude BigInt BigIntLimbs BigIntSpec.
Import ListNotations BigInt.
Local Open Scope Z_scope.

(** ** 64-bit words *)

Fixpoint words_value (ws : list Z) : Z :=
  match ws with [] => 0 | w :: ws' => w + 2 ^ 64 * words_value ws' end.

Abbreviation split_words ws := (flat_map (fun word => [u32 word; u32 (Z.shiftr word 32)]) ws).

Lemma word_of_pair low high :
  uint 32 low -> uint 32 high ->
  let w := Z.lor (u64 (Z.shiftl high 32)) low in
  uint 64 w /\ w = low + B * high /\ u32 w = low /\ u32 (Z.shiftr w 32) = high.
Proof.
  intros Hl Hh. cbv zeta. rewrite (wrap_id 64 (Z.shiftl high 32)).
  2:{ unfold uint in *. rewrite Z.shiftl_mul_pow2; lia. }
  rewrite lor_shiftl_add by (done || lia). unfold uint, wrap in *.
  rewrite Z.shiftr_div_pow2 by lia. rewrite Z.add_comm, Z.mod_add, Z.div_add by lia.
  rewrite (Z.mod_small low), (Z.div_small low), Z.add_0_l, Z.mod_small by lia. lia.
Qed.

Lemma pair_ind (P : list Z -> Prop) :
  P [] -> (forall x, P [x]) -> (forall x y l, P l -> P (x :: y :: l)) -> forall l, P l.
Proof.
  intros H0 H1 H2. fix IH 1. intros [|x [|y l]]; [done|apply H1|apply H2, IH].
Qed.

Lemma pair_words_spec l :
  limbs_ok l ->
  Forall (uint 64) (pair_words l) /\ words_value (pair_words l) = value l /\
  exists k, split_words (pair_words l) = l ++ replicate k 0.
Proof.
  induction l as [|x|x y l IH] using pair_ind; intros Hl.
  - split_and!; [constructor|done|]. by exists 0%nat.
  - apply limbs_ok_cons in Hl as [Hx _]. cbn [pair_words flat_map].
    destruct (word_of_pair x 0 Hx ltac:(unfold uint; lia)) as (Hu & Hw & Hlo & Hhi).
    rewrite Hlo, Hhi. split_and!; [by apply Forall_singleton|rewrite Hw; cbn; lia|]. by exists 1%nat.
  - apply limbs_ok_cons in Hl as [Hx [Hy Hl]%limbs_ok_cons]. destruct (IH Hl) as (Hf & Hv & k & Hk).
    cbn [pair_words flat_map]. destruct (word_of_pair x y Hx Hy) as (Hu & Hw & Hlo & Hhi).
    rewrite Hlo, Hhi, Hk. split_and!; [by constructor| |by exists k].
    rewrite Hw. cbn [words_value value]. rewrite Hv. lia.
Qed.

Lemma split_words_spec ws :
  Forall (uint 64) ws -> limbs_ok (split_words ws) /\ value (split_words ws) = words_value ws.
Proof.
  induction 1 as [|w ws Hw Hws [IHo IHv]]; [split; [auto with rust|done]|].
  cbn [flat_map app]. pose proof (u32_shift_split w ltac:(unfold uint in Hw; lia)) as Hs.
  rewrite (wrap_id 32 (Z.shiftr w 32)) by (by apply shiftr32_range).
  split; [apply limbs_ok_cons; split; [apply u32_ok|]; apply limbs_ok_cons; split;
          [by apply shiftr32_range|done]|].
  cbn [value words_value]. rewrite IHv. lia.
Qed.

Lemma from_words_spec neg ws :
  Forall (uint 64) ws ->
  wf (from_words neg ws) /\ to_Z (from_words neg ws) = (if neg then - words_value ws else words_value ws).
Proof.
  intros Hws. destruct (split_words_spec ws Hws) as [Ho Hv].
  destruct (normalized_spec neg _ Ho) as (Hw & Hz & _). split; [done|].
  unfold from_words. rewrite Hz, Hv. done.
Qed.

Lemma words_round_trip a :
  wf a -> let '(neg, ws) := to_words a in Forall (uint 64) ws /\ from_words neg ws = a.
Proof.
  intros Ha. cbn. destruct (pair_words_spec (limbs a) (wf_limbs a Ha)) as (Hf & Hv & _).
  split; [done|]. destruct (from_words_spec (negative a) _ Hf) as [Hw Hz].
  apply wf_inj; [done|done|]. by rewrite Hz, Hv.
Qed.

(** ** Repeated division *)

Fixpoint chunks_value (d : Z) (cs : list Z) : Z :=
  match cs with [] => 0 | c :: cs' => c + d * chunks_value d cs' end.

Lemma div_pass_spec d l r :
  1 < d <= B -> limbs_ok l -> 0 <= r < d ->
  let o := div_pass d l r in
  limbs_ok (fst o) /\ length (fst o) = length l /\ 0 <= snd o < d /\
  value (rev (fst o)) * d + snd o = r * Bn (length l) + value (rev l).
Proof.
  intros Hd. revert r. induction l as [|x l IH]; intros r Hl Hr.
  - cbn [div_pass fst snd length rev value]. rewrite Bn_0. split_and!; auto with rust; lia.
  - apply limbs_ok_cons in Hl as [Hx Hl]. unfold uint in Hx. cbn [div_pass].
    rewrite (wrap_id 64) by (unfold uint; rewrite Z.shiftl_mul_pow2; nia).
    rewrite lor_shiftl_add by (unfold uint; lia). set (cur := r * 2 ^ 32 + x).
    pose proof (Z.div_mod cur d ltac:(lia)) as Hdm. pose proof (Z.mod_pos_bound cur d ltac:(lia)) as Hm.
    assert (0 <= cur / d < B) as Hq.
    { split; [apply Z.div_pos; lia|apply Z.div_lt_upper_bound; nia]. }
    rewrite (wrap_id 32) by done. specialize (IH (cur mod d) Hl Hm).
    destruct (div_pass d l (cur mod d)) as [out r']. cbn [fst snd] in *.
    destruct IH as (Ho & Hlen & Hr' & Hv). cbn [length rev]. rewrite !value_app, !length_rev, Hlen, Bn_S.
    cbn [value]. split_and!; [by apply limbs_ok_cons|done|lia|lia|]. unfold cur in *. nia.
Qed.

Lemma div_chunks_spec d fuel l :
  1 < d <= B -> limbs_ok l -> trimmed l -> value l < 2 ^ Z.of_nat fuel ->
  exists cs, div_chunks d fuel l = Ok cs /\ Forall (fun c => 0 <= c < d) cs /\
    chunks_value d cs = value l /\ (cs = [] <-> l = []).
Proof.
  intros Hd. revert l. induction fuel as [|fuel IH]; intros l Hl Ht Hv.
  - assert (value l = 0) as Hz by (pose proof (value_nonneg l Hl); simpl in Hv; lia).
    apply value_zero_nil in Hz; [|done|done]. subst. exists []. split_and!; auto. 
  - destruct l as [|x l']; [by exists []|]. cbn [div_chunks]. set (l := x :: l') in *.
    destruct (div_pass_spec d (rev l) 0 Hd ltac:(by apply limbs_ok_rev) ltac:(lia)) as (Ho & _ & Hr & Hval).
    destruct (div_pass d (rev l) 0) as [q r]. cbn [fst snd] in *. rewrite rev_involutive, Z.mul_0_l, Z.add_0_l in Hval.
    pose proof (limbs_ok_pop_zeros (rev q) ltac:(by apply limbs_ok_rev)) as Hpo.
    pose proof (value_nonneg _ Hpo) as Hnn. rewrite value_pop_zeros in Hnn.
    destruct (IH (pop_zeros (rev q)) Hpo (trimmed_pop_zeros _)) as (cs & -> & Hcs & Hcv & _).
    { rewrite value_pop_zeros. rewrite Nat2Z.inj_succ, Z.pow_succ_r in Hv by lia. nia. }
    exists (r :: cs). cbn [obind]. rewrite wrap_id by (unfold uint; lia).
    split_and!; [done|by constructor| |done]. cbn [chunks_value]. rewrite Hcv, value_pop_zeros. lia.
Qed.

Lemma div_chunks_big d a :
  1 < d <= B -> wf a ->
  exists cs, div_chunks d (div_fuel (limbs a)) (limbs a) = Ok cs /\
    Forall (fun c => 0 <= c < d) cs /\ chunks_value d cs = mag a /\ (cs = [] <-> limbs a = []).
Proof.
  intros Hd Ha. apply div_chunks_spec; auto with rust.
  pose proof (value_bound _ (wf_limbs a Ha)) as Hb. rewrite Bn_pow2 in Hb. unfold div_fuel.
  pose proof (Z.pow_le_mono_r 2 (32 * Z.of_nat (length (limbs a))) (Z.of_nat (S (length (limbs a) * 32)))
    ltac:(lia) ltac:(lia)). lia.
Qed.

(** ** Digit strings *)

Definition digit_step (radix acc c : Z) : Z := acc * radix + default 0 (to_digit radix c).
Definition dval (radix : Z) (l : list Z) (acc : Z) : Z := fold_left (digit_step radix) l acc.
Definition digit_char (radix c : Z) : Prop := is_Some (to_digit radix c).

Lemma dval_app radix l k acc : dval radix (l ++ k) acc = dval radix k (dval radix l acc).
Proof. apply fold_left_app. Qed.

Lemma to_digit_range radix c d : 0 <= radix -> to_digit radix c = Some d -> 0 <= d < radix.
Proof.
  unfold to_digit, in_range. intros Hr.
  destruct ((48 <=? c) && (c <=? 57)) eqn:E1; [|destruct ((97 <=? c) && (c <=? 122)) eqn:E2;
    [|destruct ((65 <=? c) && (c <=? 90)) eqn:E3]];
  match goal with |- context [?a <? radix] => destruct (Z.ltb_spec a radix) end;
  intros; simplify_eq; lia.
Qed.

Lemma from_to_digit radix d c :
  0 <= d -> radix <= 36 -> from_digit radix d = Some c -> to_digit radix c = Some d /\ c <> 95.
Proof.
  unfold from_digit, to_digit, in_range. intros Hd Hr.
  destruct (Z.ltb_spec d radix); [|done]. destruct (Z.ltb_spec d 10); intros; simplify_eq.
  - replace ((48 <=? 48 + d) && (48 + d <=? 57)) with true by lia.
    replace (48 + d - 48) with d by lia. destruct (Z.ltb_spec d radix); [split; [done|lia]|lia].
  - replace ((48 <=? 97 + d - 10) && (97 + d - 10 <=? 57)) with false by lia.
    replace ((97 <=? 97 + d - 10) && (97 + d - 10 <=? 122)) with true by lia.
    replace (97 + d - 10 - 97 + 10) with d by lia. destruct (Z.ltb_spec d radix); [split; [done|lia]|lia].
Qed.

Lemma dec_digit d : 0 <= d < 10 -> to_digit 10 (48 + d) = Some d.
Proof.
  intros Hd. apply (from_to_digit 10 d); [lia|lia|]. unfold from_digit.
  destruct (Z.ltb_spec d 10); [done|lia].
Qed.

Lemma dval_mono radix l acc : 1 <= radix -> 0 <= acc -> acc <= dval radix l acc.
Proof.
  intros Hr. revert acc. induction l as [|c l IH]; intros acc Ha; [cbn; lia|].
  change (dval radix (c :: l) acc) with (dval radix l (digit_step radix acc c)).
  assert (acc <= digit_step radix acc c) as Hs.
  { unfold digit_step. destruct (to_digit radix c) as [d|] eqn:E; simpl; [|nia].
    apply to_digit_range in E; [nia|lia]. }
  specialize (IH (digit_step radix acc c) ltac:(lia)). lia.
Qed.

(** The values below this bound are those a digit of the radix can end: each
    product by the radix, a single limb, is then within the cap. *)
Definition room (radix : Z) : Z := radix * Bn (MAX_LIMBS - 1).

Lemma length_small r : 0 < r < B -> length (limbs (from_i64 r)) = 1%nat.
Proof.
  intros Hr. destruct (from_i64_spec r ltac:(lia)) as [Hw Hz].
  assert (mag (from_i64 r) = r) as Hm by (rewrite (mag_abs _ Hw), Hz; lia).
  assert (length (limbs (from_i64 r)) <= 1)%nat.
  { apply length_of_value; auto with rust. fold (mag (from_i64 r)). rewrite Hm, Bn_S, Bn_0. lia. }
  unfold mag in Hm. destruct (limbs (from_i64 r)); [cbn in Hm; lia|simpl in *; lia].
Qed.

(** One digit: the product is within the cap exactly when there is room for it. *)
Lemma mul_radix radix v :
  2 <= radix <= 36 -> wf v -> 0 <= to_Z v ->
  match mul v (from_i64 radix) with
  | Ok p => wf p /\ to_Z p = to_Z v * radix /\ to_Z v < Bn (MAX_LIMBS - 1)
  | Err e => e = overflow /\ Bn (MAX_LIMBS - 1) <= to_Z v
  | Panic => False
  end.
Proof.
  intros Hr Hv Hnn. destruct (from_i64_spec radix ltac:(lia)) as [Hwr Hzr].
  pose proof (mul_spec v (from_i64 radix) Hv Hwr) as Hm.
  rewrite Hzr, length_small in Hm by lia.
  assert (mag v = to_Z v) as Hmag by (rewrite (mag_abs v Hv); lia). unfold mag in Hmag.
  destruct (mul v (from_i64 radix)) as [p|e|]; [| |done].
  - destruct Hm as (? & ? & _ & Hc). split_and!; [done|done|].
    destruct Hc as [Hc|[Hc|Hc]]; [pose proof (Bn_pos (MAX_LIMBS - 1)); lia|lia|].
    pose proof (value_bound _ (wf_limbs v Hv)).
    pose proof (Bn_le (length (limbs v)) (MAX_LIMBS - 1) ltac:(lia)). lia.
  - destruct Hm as (-> & _ & _ & Hc). split; [done|]. rewrite <- Hmag.
    apply value_of_length; auto with rust. unfold MAX_LIMBS in *. lia.
Qed.

(** Parsing a digit string accumulates its value, and fails exactly when the last
    digits leave no room. *)
Lemma parse_digits_spec radix l v :
  2 <= radix <= 36 -> Forall (fun c => digit_char radix c /\ c <> 95) l ->
  wf v -> 0 <= to_Z v < room radix ->
  match parse_digits radix l v with
  | Ok c => wf c /\ to_Z c = dval radix l (to_Z v) /\ dval radix l (to_Z v) < room radix
  | Err e => e = overflow /\ room radix <= dval radix l (to_Z v)
  | Panic => False
  end.
Proof.
  intros Hr Hl. revert v. induction Hl as [|c l [[d Hd] Hc] Hl IH]; intros v Hv Hbd.
  { cbn. split_and!; [done|done|lia]. }
  change (dval radix (c :: l) (to_Z v)) with (dval radix l (digit_step radix (to_Z v) c)).
  pose proof (to_digit_range radix c d ltac:(lia) Hd) as Hdr.
  unfold digit_step. rewrite Hd. cbn [default from_option id].
  pose proof (dval_mono radix l (to_Z v * radix + d) ltac:(lia) ltac:(nia)) as Hmono.
  destruct (from_i64_spec d ltac:(lia)) as [Hwd Hzd].
  cbn [parse_digits]. rewrite (proj2 (Z.eqb_neq c 95) Hc), Hd.
  pose proof (mul_radix radix v Hr Hv ltac:(lia)) as Hm. unfold room in *.
  destruct (mul v (from_i64 radix)) as [p|e|]; [| |done]; cbn [obind].
  2:{ destruct Hm as [-> Hm]. split; [done|]. nia. }
  destruct Hm as (Hwp & Hzp & Hlt). pose proof (add_spec p (from_i64 d) Hwp Hwd) as Ha.
  rewrite Hzd, Hzp in Ha. destruct (add p (from_i64 d)) as [s|e|]; [| |done]; cbn [obind].
  - destruct Ha as (Hws & Hzs & _). rewrite <- Hzs. apply IH; [done|nia].
  - destruct Ha as [_ Hlim]. exfalso. unfold limit in Hlim.
    assert (Bn MAX_LIMBS = B * Bn (MAX_LIMBS - 1)) as Eb by (rewrite <- Bn_S; done). nia.
Qed.

(** ** Decimal printing *)

Definition dec_char (c : Z) : Prop := 48 <= c <= 57.

Lemma dec_char_digit c : dec_char c -> digit_char 10 c /\ c <> 95.
Proof.
  unfold dec_char, digit_char. intros H. replace c with (48 + (c - 48)) by lia.
  split; [rewrite dec_digit by lia; by eexists|lia].
Qed.

Lemma digit_step_dec acc d : 0 <= d < 10 -> digit_step 10 acc (48 + d) = acc * 10 + d.
Proof. intros Hd. unfold digit_step. by rewrite dec_digit. Qed.

Lemma show_digits_spec fuel n acc :
  0 <= n < 10 ^ Z.of_nat fuel -> (0 < fuel)%nat ->
  exists ds, show_digits 10 fuel n acc = ds ++ acc /\ Forall dec_char ds /\ ds <> [] /\
    (forall k, (0 < k)%nat -> n < 10 ^ Z.of_nat k -> (length ds <= k)%nat) /\
    forall a, dval 10 ds a = a * 10 ^ Z.of_nat (length ds) + n.
Proof.
  revert n acc. induction fuel as [|fuel IH]; intros n acc Hn Hf; [lia|]. cbn [show_digits].
  pose proof (Z.div_mod n 10 ltac:(lia)) as Hd. pose proof (Z.mod_pos_bound n 10 ltac:(lia)) as Hm.
  replace (n mod 10 <? 10) with true by lia.
  destruct (Z.eqb_spec (n / 10) 0) as [Hz|Hz].
  - exists [48 + n mod 10]. split_and!; [done|apply Forall_singleton; unfold dec_char; lia|done|simpl; lia|].
    intros a. cbn [dval fold_left length]. rewrite digit_step_dec by lia.
    change (10 ^ Z.of_nat 1) with 10. lia.
  - rewrite Nat2Z.inj_succ, Z.pow_succ_r in Hn by lia.
    destruct fuel as [|fuel]; [simpl in Hn; lia|].
    destruct (IH (n / 10) ((48 + n mod 10) :: acc) ltac:(lia) ltac:(lia)) as (ds & -> & Hds & Hne & Hk & Hv).
    exists (ds ++ [48 + n mod 10]).
    split_and!; [by rewrite <- app_assoc|apply Forall_app; split; [done|apply Forall_singleton; unfold dec_char; lia]
      |by destruct ds| |].
    + intros k Hk0 Hlt. rewrite length_app. cbn [length]. destruct k as [|[|k]]; [lia|simpl in Hlt; lia|].
      specialize (Hk (S k) ltac:(lia)). rewrite (Nat2Z.inj_succ (S k)), Z.pow_succ_r in Hlt by lia. lia.
    + intros a. rewrite dval_app, Hv. cbn [dval fold_left]. rewrite digit_step_dec, length_app by lia.
      cbn [length]. rewrite Nat2Z.inj_add, Z.pow_add_r by lia. change (10 ^ Z.of_nat 1) with 10. lia.
Qed.

Lemma show_uint_spec n :
  0 <= n < B ->
  Forall dec_char (show_uint n) /\ show_uint n <> [] /\
  (forall k, (0 < k)%nat -> n < 10 ^ Z.of_nat k -> (length (show_uint n) <= k)%nat) /\
  forall a, dval 10 (show_uint n) a = a * 10 ^ Z.of_nat (length (show_uint n)) + n.
Proof.
  intros Hn. destruct (show_digits_spec 20 n []) as (ds & E & H); [simpl; lia|lia|].
  unfold show_uint. rewrite E, app_nil_r. done.
Qed.

Lemma dval_zeros n acc : dval 10 (replicate n 48) acc = acc * 10 ^ Z.of_nat n.
Proof.
  revert acc. induction n as [|n IH]; intros acc; [cbn; lia|].
  cbn [replicate]. change (dval 10 (48 :: replicate n 48) acc) with (dval 10 (replicate n 48) (digit_step 10 acc (48 + 0))).
  rewrite IH, digit_step_dec, Nat2Z.inj_succ, Z.pow_succ_r by lia. lia.
Qed.

Lemma padded_spec c :
  0 <= c < 1000000000 ->
  Forall dec_char (pad_left 9 48 (show_uint c)) /\
  forall a, dval 10 (pad_left 9 48 (show_uint c)) a = a * 1000000000 + c.
Proof.
  intros Hc. destruct (show_uint_spec c ltac:(lia)) as (Hf & _ & Hlen & Hv).
  specialize (Hlen 9%nat ltac:(lia) ltac:(simpl; lia)). unfold pad_left. split.
  - apply Forall_app. split; [|done]. apply Forall_replicate. unfold dec_char; lia.
  - intros a. rewrite dval_app, dval_zeros, Hv, <- Z.mul_assoc, <- Z.pow_add_r by lia.
    by replace (Z.of_nat (9 - length (show_uint c)) + Z.of_nat (length (show_uint c))) with 9 by lia.
Qed.

Lemma padded_list cs :
  Forall (fun c => 0 <= c < 1000000000) cs ->
  Forall dec_char (flat_map (pad_left 9 48 ∘ show_uint) cs) /\
  forall a, dval 10 (flat_map (pad_left 9 48 ∘ show_uint) cs) a =
            fold_left (fun acc c => acc * 1000000000 + c) cs a.
Proof.
  induction 1 as [|c cs Hc Hcs [IHf IHv]]; [done|].
  destruct (padded_spec c Hc) as [Hf Hv]. cbn [flat_map]. unfold compose at 1 3. split.
  - by apply Forall_app.
  - intros a. rewrite dval_app, Hv, IHv. done.
Qed.

Lemma chunks_value_rev d cs :
  chunks_value d cs = fold_left (fun acc c => acc * d + c) (rev cs) 0.
Proof.
  induction cs as [|c cs IH]; [done|]. cbn [chunks_value rev]. rewrite fold_left_app, <- IH.
  cbn [fold_left]. lia.
Qed.

Definition sign_text (a : BigInt) : list Z := if negative a then chars "-" else [].

(** The decimal text is the sign and digits whose value is the magnitude. *)
Lemma to_decimal_spec a :
  wf a -> exists ds, to_decimal a = Ok (sign_text a ++ ds) /\ Forall dec_char ds /\ ds <> [] /\
    dval 10 ds 0 = mag a.
Proof.
  intros Ha. unfold to_decimal, sign_text. destruct (is_zero a) eqn:Hz.
  - unfold is_zero in Hz. destruct (limbs a) eqn:El; [|done].
    assert (negative a = false) as ->.
    { destruct (negative a) eqn:En; [|done]. by destruct (wf_sign a Ha En). }
    exists [48]. split_and!; [done|apply Forall_singleton; unfold dec_char; lia|done|].
    unfold mag. by rewrite El.
  - destruct (div_chunks_big 1000000000 a ltac:(lia) Ha) as (cs & -> & Hcs & Hv & Hnil). cbn [obind].
    rewrite chunks_value_rev in Hv. apply Forall_rev in Hcs. 
    destruct (rev cs) as [|top others] eqn:Er.
    { exfalso. assert (cs = []) as Hn by (by rewrite <- (rev_involutive cs), Er). apply Hnil in Hn. 
      unfold is_zero in Hz. by rewrite Hn in Hz. }
    apply Forall_cons in Hcs as [Ht Ho]. destruct (show_uint_spec top ltac:(lia)) as (Hf & Hne & _ & Hsv).
    destruct (padded_list others Ho) as [Hpf Hpv].
    exists (show_uint top ++ flat_map (pad_left 9 48 ∘ show_uint) others).
    split_and!; [done|by apply Forall_app|by destruct (show_uint top)|].
    rewrite dval_app, Hpv, Hsv. rewrite <- Hv. cbn [fold_left]. f_equal.
Qed.

(** ** Parsing back *)

Lemma dec_char_not_space c : dec_char c -> is_whitespace c = false.
Proof. unfold dec_char, is_whitespace, in_range. intros. lia. Qed.

Lemma skip_while_stop p x l : p x = false -> skip_while p (x :: l) = x :: l.
Proof. intros H. cbn. by rewrite H. Qed.

(** Text whose first and last characters are not spaces is left alone. *)
Lemma trim_id l :
  (forall x, head l = Some x -> is_whitespace x = false) ->
  (forall x, last l = Some x -> is_whitespace x = false) -> trim l = l.
Proof.
  intros Hh Hl. unfold trim. destruct l as [|x l]; [done|].
  rewrite skip_while_stop by (by apply Hh). destruct (rev (x :: l)) as [|y r] eqn:E.
  { apply (f_equal (@rev Z)) in E. by rewrite rev_involutive in E. }
  rewrite skip_while_stop.
  - by rewrite <- E, rev_involutive.
  - apply Hl. by rewrite <- head_reverse, <- rev_reverse, E.
Qed.

Lemma strip_prefix_head p l x y :
  head p = Some x -> head l = Some y -> x <> y -> strip_prefix p l = None.
Proof.
  destruct p as [|x' p], l as [|y' l]; intros; simplify_eq/=. by rewrite (proj2 (Z.eqb_neq _ _)).
Qed.

Lemma strip_either_dec p q l :
  Forall dec_char l ->
  (exists x, chars p = [48; x] /\ ~ dec_char x) -> (exists x, chars q = [48; x] /\ ~ dec_char x) ->
  strip_either p q l = None.
Proof.
  intros Hl (x & Hp & Hx) (y & Hq & Hy). unfold strip_either. rewrite Hp, Hq.
  assert (forall z, ~ dec_char z -> strip_prefix [48; z] l = None) as H; [|by rewrite !H].
  intros z Hz. destruct Hl as [|c l _ Hl]; [done|]. cbn [strip_prefix]. destruct (48 =? c); [|done].
  destruct Hl as [|c' l Hc' _]; [done|]. destruct (Z.eqb_spec z c'); [by subst|done].
Qed.

(** A number of as many digits as its decimal text is parsed when there is room. *)
Definition reread (a : BigInt) : BigResult BigInt :=
  if mag a <? room 10 then Ok a else Err overflow.

Lemma parse_decimal a ds :
  wf a -> Forall dec_char ds -> ds <> [] -> dval 10 ds 0 = mag a ->
  parse (sign_text a ++ ds) = reread a.
Proof.
  intros Ha Hds Hne Hv. unfold parse. destruct ds as [|c ds]; [done|].
  pose proof (Forall_inv Hds) as Hc.
  assert (trim (sign_text a ++ c :: ds) = sign_text a ++ c :: ds) as ->.
  { apply trim_id.
    - intros x. unfold sign_text. destruct (negative a); cbn; intros; simplify_eq; [done|].
      by apply dec_char_not_space.
    - intros x. rewrite last_app. destruct (last (c :: ds)) as [y|] eqn:E; [|by apply last_None in E].
      intros ?; simplify_eq. apply dec_char_not_space. rewrite Forall_forall in Hds. apply Hds.
      rewrite last_lookup in E. by eapply list_elem_of_lookup_2. }
  assert ((match strip_prefix (chars "-") (sign_text a ++ c :: ds) with
           | Some rest => (true, rest)
           | None => (false, default (sign_text a ++ c :: ds) (strip_prefix (chars "+") (sign_text a ++ c :: ds)))
           end) = (negative a, c :: ds)) as ->.
  { unfold sign_text, dec_char in *. destruct (negative a); [done|]. cbn [app].
    rewrite (strip_prefix_head (chars "-") (c :: ds) 45 c), (strip_prefix_head (chars "+") (c :: ds) 43 c)
      by (done || lia). done. }
  assert (forall A (x y : A), match sign_text a ++ c :: ds with [] => x | _ :: _ => y end = y) as ->
    by (intros; unfold sign_text; by destruct (negative a)).
  rewrite !strip_either_dec by (done || (eexists; split; [reflexivity|by intros [_ []]])).
  assert (0 <= to_Z zero < room 10) as H0.
  { change (to_Z zero) with 0. unfold room. pose proof (Bn_pos (MAX_LIMBS - 1)). lia. }
  pose proof (parse_digits_spec 10 (c :: ds) zero ltac:(lia)) as Hp.
  change (to_Z zero) with 0 in Hp. rewrite Hv in Hp. unfold reread.
  specialize (Hp ltac:(eapply Forall_impl; [exact Hds|apply dec_char_digit]) wf_zero H0).
  destruct (parse_digits 10 (c :: ds) zero) as [v|e|]; [| |done]; cbn [obind].
  2:{ destruct Hp as [-> Hp]. by rewrite (proj2 (Z.ltb_ge _ _)). }
  destruct Hp as (Hw & Hz & Hlt). rewrite (proj2 (Z.ltb_lt _ _) Hlt). f_equal.
  pose proof (mag_nonneg a Ha). assert (mag v = mag a) as Hm by (rewrite (mag_abs v Hw); lia).
  assert (limbs v = limbs a) as Hl by (apply value_trimmed_inj; auto with rust).
  destruct a as [n l]; simpl in *. subst l. f_equal.
  unfold is_zero. destruct n; [|done]. pose proof (wf_sign _ Ha eq_refl) as Hn. simpl in Hn.
  by destruct (limbs v).
Qed.

Lemma decimal_round_trip a :
  wf a -> exists text, to_decimal a = Ok text /\ parse text = reread a.
Proof.
  intros Ha. destruct (to_decimal_spec a Ha) as (ds & -> & Hf & Hne & Hv).
  eexists. split; [done|]. by apply parse_decimal.
Qed.

(** ** Other radices *)

Lemma from_digits_spec radix ds :
  2 <= radix <= 36 -> Forall (fun d => 0 <= d < radix) ds ->
  exists cs, from_digits radix ds = Ok cs /\
    Forall2 (fun d c => to_digit radix c = Some d /\ c <> 95) ds cs.
Proof.
  intros Hr. induction 1 as [|d ds Hd Hds (cs & E & IH)]; [by exists []|].
  cbn [from_digits]. destruct (from_digit radix d) as [c|] eqn:Ec.
  - rewrite E. exists (c :: cs). split; [done|]. constructor; [|done].
    by apply (from_to_digit radix d c); [lia|lia|].
  - exfalso. unfold from_digit in Ec. destruct (Z.ltb_spec d radix); [done|lia].
Qed.

Lemma dval_rev_chunks radix ds cs :
  Forall2 (fun d c => to_digit radix c = Some d /\ c <> 95) ds cs ->
  dval radix (rev cs) 0 = chunks_value radix ds.
Proof.
  induction 1 as [|d c ds cs [Hd _] _ IH]; [done|].
  cbn [rev chunks_value]. rewrite dval_app, IH. cbn [dval fold_left]. unfold digit_step.
  rewrite Hd. cbn. lia.
Qed.

Lemma to_radix_spec a radix :
  wf a -> 2 <= radix <= 36 ->
  exists ds, to_radix a radix = Ok (sign_text a ++ ds) /\ ds <> [] /\
    Forall (fun c => digit_char radix c /\ c <> 95) ds /\ dval radix ds 0 = mag a.
Proof.
  intros Ha Hr. unfold to_radix. destruct (Z.eqb_spec radix 10) as [->|Hne].
  { destruct (to_decimal_spec a Ha) as (ds & -> & Hf & Hn & Hv). exists ds. split_and!; auto.
    eapply Forall_impl; [done|]. apply dec_char_digit. }
  unfold sign_text. destruct (is_zero a) eqn:Hz.
  { unfold is_zero in Hz. destruct (limbs a) eqn:El; [|done].
    assert (negative a = false) as ->.
    { destruct (negative a) eqn:En; [|done]. by destruct (wf_sign a Ha En). }
    assert (to_digit radix 48 = Some 0) as H0.
    { unfold to_digit. change (in_range 48 57 48) with true. cbv iota. change (48 - 48) with 0.
      destruct (Z.ltb_spec 0 radix); [done|lia]. }
    exists [48]. split_and!; [done|done|apply Forall_singleton; split; [by eexists|lia]|].
    cbn. unfold digit_step. rewrite H0. unfold mag. by rewrite El. }
  destruct (div_chunks_big radix a ltac:(lia) Ha) as (ds & -> & Hds & Hv & Hnil). cbn [obind].
  destruct (from_digits_spec radix ds Hr Hds) as (cs & -> & Hcs). cbn [obind].
  exists (rev cs). split_and!.
  - rewrite rev_app_distr. by destruct (negative a).
  - intros E. apply (f_equal (@rev Z)) in E. rewrite rev_involutive in E. subst cs.
    inversion Hcs; subst. unfold is_zero in Hz. by rewrite (proj1 Hnil eq_refl) in Hz.
  - apply Forall_rev. clear -Hcs. induction Hcs as [|d c ds cs [Hd Hc] _ IH]; constructor; [|done].
    split; [by eexists|done].
  - by rewrite (dval_rev_chunks radix ds).
Qed.

(** Text never makes the parser panic. *)
Lemma parse_digits_no_panic radix l v :
  2 <= radix <= 36 -> wf v -> parse_digits radix l v <> Panic.
Proof.
  intros Hr. revert v. induction l as [|c l IH]; intros v Hv; [done|]. cbn [parse_digits].
  destruct (c =? 95); [by apply IH|]. destruct (to_digit radix c) as [d|] eqn:Hd; [|done].
  pose proof (to_digit_range radix c d ltac:(lia) Hd) as Hdr.
  destruct (from_i64_spec radix ltac:(lia)) as [Hwr _].
  destruct (from_i64_spec d ltac:(lia)) as [Hwd _].
  pose proof (mul_spec v (from_i64 radix) Hv Hwr) as Hm.
  destruct (mul v (from_i64 radix)) as [p|e|]; [|done|done]. destruct Hm as [Hp _].
  cbn [obind]. pose proof (add_spec p (from_i64 d) Hp Hwd) as Ha.
  destruct (add p (from_i64 d)) as [s|e|]; [|done|done]. destruct Ha. by apply IH.
Qed.

Lemma parse_no_panic text : parse text <> Panic.
Proof.
  unfold parse. destruct (trim text); [done|]. match goal with |- (let '(_, _) := ?p in _) <> _ => destruct p as [neg rest] end.
  assert (forall radix digits, 2 <= radix <= 36 ->
    (match digits with
     | [] => Err syntax_error
     | _ => obind (parse_digits radix digits zero) (fun value =>
              Ok (mkBig (neg && negb (is_zero value)) (limbs value)))
     end) <> Panic) as H.
  { intros radix [|c digits] Hr; [done|].
    pose proof (parse_digits_no_panic radix (c :: digits) zero Hr wf_zero) as Hp.
    by destruct (parse_digits radix (c :: digits) zero). }
  destruct (strip_either "0x" "0X" rest); [apply H; lia|].
  destruct (strip_either "0o" "0O" rest); [apply H; lia|].
  destruct (strip_either "0b" "0B" rest); apply H; lia.
Qed.
