(* ===== verification/BigIntTheorems.v ===== *)
(** Correctness of the big integers: every operator of
    [crates/napi-vm-core/src/bigint.rs] computes the integer operation the
    language defines, errors exactly as the size cap says, and never panics. *)
From stdpp Require Import prelude list strings.
From Stdlib Require Import ZArith Lia.
From S2P Require Import Prelude BigInt BigIntLimbs BigIntSpec BigIntText.
Import ListNotations BigInt.
Local Open Scope Z_scope.

(** A two-limb positive number and a one-limb negative one, for the witnesses. *)
Definition big_sample : BigInt := mkBig false [7; 1].
Definition neg_sample : BigInt := mkBig true [5].
Definition small_sample : BigInt := mkBig false [3].

Lemma big_sample_wf : wf big_sample. Proof. by apply wfb_wf. Qed.
Lemma neg_sample_wf : wf neg_sample. Proof. by apply wfb_wf. Qed.
Lemma small_sample_wf : wf small_sample. Proof. by apply wfb_wf. Qed.

(** C37. on well-formed operands [add] and [sub] never panic; the result is well
    formed and denotes the exact sum or difference, and the only error is the size
    cap, reported only for a result that needs more than [MAX_LIMBS] limbs; on
    operands within the cap it is reported for every such result. *)
Theorem add_sub_correct (a b : BigInt) (Ha : wf a) (Hb : wf b) :
  match add a b with
  | Ok c => wf c /\ to_Z c = to_Z a + to_Z b /\
            (capped (to_Z a) -> capped (to_Z b) -> capped (to_Z a + to_Z b))
  | Err e => e = overflow /\ limit <= Z.abs (to_Z a + to_Z b)
  | Panic => False
  end /\
  match sub a b with
  | Ok c => wf c /\ to_Z c = to_Z a - to_Z b /\
            (capped (to_Z a) -> capped (to_Z b) -> capped (to_Z a - to_Z b))
  | Err e => e = overflow /\ limit <= Z.abs (to_Z a - to_Z b)
  | Panic => False
  end.
Proof. split; [by apply add_spec|by apply sub_spec]. Qed.

Lemma add_sub_correct_witness :
  exists c, add big_sample neg_sample = Ok c /\ to_Z c = 2 ^ 32 + 2.
Proof.
  destruct (add_sub_correct big_sample neg_sample big_sample_wf neg_sample_wf) as [H _].
  exists (mkBig false [2; 1]). split; [reflexivity|exact (proj1 (proj2 H))].
Defined.

(** C38. [mul] never panics: the in-place carry propagation stays inside the
    product's limbs; the result is the exact product, and the only error is the
    cap on the sum of the operand lengths, reported exactly when two nonzero
    operands exceed it. *)
Theorem mul_correct (a b : BigInt) (Ha : wf a) (Hb : wf b) :
  match mul a b with
  | Ok c => wf c /\ to_Z c = to_Z a * to_Z b /\
            (to_Z a = 0 \/ to_Z b = 0 \/ (length (limbs a) + length (limbs b) <= MAX_LIMBS)%nat)
  | Err e => e = overflow /\ to_Z a <> 0 /\ to_Z b <> 0 /\
             (MAX_LIMBS < length (limbs a) + length (limbs b))%nat
  | Panic => False
  end.
Proof. pose proof (mul_spec a b Ha Hb). destruct (mul a b); naive_solver. Qed.

Lemma mul_correct_witness :
  exists c, mul big_sample neg_sample = Ok c /\ to_Z c = (2 ^ 32 + 7) * (-5).
Proof.
  pose proof (mul_correct big_sample neg_sample big_sample_wf neg_sample_wf) as H.
  exists (mkBig true [35; 5]). split; [reflexivity|exact (proj1 (proj2 H))].
Defined.

(** C39. [div] and [rem] fail only on a zero divisor and otherwise return the
    quotient truncated towards zero and the remainder with the dividend's sign,
    which together recompose the dividend. *)
Theorem div_rem_correct (a b : BigInt) (Ha : wf a) (Hb : wf b) :
  if is_zero b then div a b = Err division_by_zero /\ rem a b = Err division_by_zero
  else exists q r, div a b = Ok q /\ rem a b = Ok r /\ wf q /\ wf r /\
    to_Z q = Z.quot (to_Z a) (to_Z b) /\ to_Z r = Z.rem (to_Z a) (to_Z b) /\
    to_Z a = to_Z b * to_Z q + to_Z r.
Proof.
  pose proof (div_spec a b Ha Hb) as Hd. pose proof (rem_spec a b Ha Hb) as Hr.
  destruct (is_zero b) eqn:Hz; [done|]. destruct Hd as (q & ? & ? & Hq), Hr as (r & ? & ? & Hr).
  exists q, r. rewrite Hq, Hr. split_and!; auto. apply Z.quot_rem.
  intros E%is_zero_spec; [congruence|done].
Qed.

Lemma div_rem_correct_witness :
  exists q r, div big_sample neg_sample = Ok q /\ rem big_sample neg_sample = Ok r /\
    2 ^ 32 + 7 = -5 * to_Z q + to_Z r.
Proof.
  destruct (div_rem_correct big_sample neg_sample big_sample_wf neg_sample_wf)
    as (q & r & Hq & Hr & _ & _ & _ & _ & Heq).
  exists q, r. exact (conj Hq (conj Hr Heq)).
Defined.

(** [pow] rejects exactly the negative exponents with its own message; on the
    others square-and-multiply returns the exact power, and it can hit the size cap
    only when the exponent times the base's length reaches [MAX_LIMBS]. *)
Theorem pow_correct (a e : BigInt) (Ha : wf a) (He : wf e) :
  match pow a e with
  | Ok c => 0 <= to_Z e /\ wf c /\ to_Z c = to_Z a ^ to_Z e
  | Err m => (to_Z e < 0 /\ m = negative_exponent) \/
             (m = overflow /\ Z.of_nat MAX_LIMBS <= to_Z e * Z.of_nat (length (limbs a)))
  | Panic => False
  end.
Proof. by apply pow_spec. Qed.

Lemma pow_correct_witness :
  exists c, pow neg_sample small_sample = Ok c /\ to_Z c = (-5) ^ 3.
Proof.
  pose proof (pow_correct neg_sample small_sample neg_sample_wf small_sample_wf) as H.
  exists (mkBig true [125]). split; [reflexivity|exact (proj2 (proj2 H))].
Defined.

(** [shl] and [shr] shift by the signed amount, towards negative infinity on
    the right, and their only error is the cap: an amount over [MAX_LIMBS * 32]
    bits, an operand over the cap, or a result over it. *)
Theorem shifts_correct (a n : BigInt) (Ha : wf a) (Hn : wf n) :
  match shl a n with
  | Ok c => wf c /\ to_Z c = Z.shiftl (to_Z a) (to_Z n)
  | Err e => e = overflow /\
      (Z.of_nat MAX_LIMBS * 32 < Z.abs (to_Z n) \/ limit <= Z.abs (to_Z a) \/
       limit <= Z.abs (Z.shiftl (to_Z a) (to_Z n)))
  | Panic => False
  end /\
  match shr a n with
  | Ok c => wf c /\ to_Z c = Z.shiftr (to_Z a) (to_Z n)
  | Err e => e = overflow /\
      (Z.of_nat MAX_LIMBS * 32 < Z.abs (to_Z n) \/ limit <= Z.abs (to_Z a) \/
       limit <= Z.abs (Z.shiftr (to_Z a) (to_Z n)))
  | Panic => False
  end.
Proof.
  unfold shl, shr. destruct (negate_spec n Hn) as [Hw Hz]. pose proof (to_Z_neg n Hn) as Hs.
  destruct (negative n) eqn:En.
  - assert (to_Z n < 0) as Hneg by tauto.
    assert (negative (negate n) = false) as Hnn.
    { destruct (negative (negate n)) eqn:E; [|done]. apply to_Z_neg in E; [lia|done]. }
    pose proof (shl_nonneg_spec a _ Ha Hw Hnn) as Hl. pose proof (shr_nonneg_spec a _ Ha Hw Hnn) as Hr.
    rewrite Hz in *. rewrite Z.shiftl_opp_r in Hl. rewrite Z.shiftr_opp_r in Hr.
    split; [destruct (shr_nonneg a (negate n))|destruct (shl_nonneg a (negate n))]; naive_solver lia.
  - assert (0 <= to_Z n) by (rewrite (nonneg_to_Z n En); by apply mag_nonneg).
    pose proof (shl_nonneg_spec a n Ha Hn En) as Hl. pose proof (shr_nonneg_spec a n Ha Hn En) as Hr.
    split; [destruct (shl_nonneg a n)|destruct (shr_nonneg a n)]; naive_solver lia.
Qed.

Lemma shifts_correct_witness :
  exists c, shr neg_sample (mkBig false [1]) = Ok c /\ to_Z c = -3.
Proof.
  destruct (shifts_correct neg_sample (mkBig false [1]) neg_sample_wf ltac:(by apply wfb_wf)) as [_ H].
  exists (mkBig true [3]). split; [reflexivity|exact (proj2 H)].
Defined.

(** the bitwise operators work limb-wise on two's-complement forms and still
    compute the operation on the infinite two's-complement integers; they never
    fail, except [bitnot] at the size cap. *)
Theorem bitwise_correct (a b : BigInt) (Ha : wf a) (Hb : wf b) :
  (exists c, bitand a b = Ok c /\ wf c /\ to_Z c = Z.land (to_Z a) (to_Z b)) /\
  (exists c, bitor a b = Ok c /\ wf c /\ to_Z c = Z.lor (to_Z a) (to_Z b)) /\
  (exists c, bitxor a b = Ok c /\ wf c /\ to_Z c = Z.lxor (to_Z a) (to_Z b)) /\
  match bitnot a with
  | Ok c => wf c /\ to_Z c = Z.lnot (to_Z a)
  | Err e => e = overflow /\ limit <= Z.abs (Z.lnot (to_Z a))
  | Panic => False
  end.
Proof.
  split_and!; [by apply bitand_spec|by apply bitor_spec|by apply bitxor_spec|].
  destruct (negate_spec a Ha) as [Hw Hz]. destruct (from_i64_spec 1 ltac:(lia)) as [Hw1 Hz1].
  unfold bitnot. pose proof (sub_spec _ _ Hw Hw1) as H. rewrite Hz, Hz1 in H.
  replace (Z.lnot (to_Z a)) with (- to_Z a - 1) by (unfold Z.lnot; lia).
  destruct (sub _ _); naive_solver.
Qed.

Lemma bitwise_correct_witness :
  exists c, bitand neg_sample big_sample = Ok c /\ to_Z c = Z.land (-5) (2 ^ 32 + 7).
Proof.
  destruct (bitwise_correct neg_sample big_sample neg_sample_wf big_sample_wf) as ((c & Hc & _ & Hz) & _).
  exists c. exact (conj Hc Hz).
Defined.

(** [as_n_bit] returns the residue modulo [2 ^ bits], read as signed on
    request; it refuses only widths over the cap, for an unsigned wrap of a
    negative number or an operand itself over the cap. *)
Theorem as_n_bit_correct (a : BigInt) (bits : nat) (sgn : bool) (Ha : wf a) :
  match as_n_bit a bits sgn with
  | Ok c => wf c /\ to_Z c = wrapped bits sgn (to_Z a)
  | Err e => e = overflow /\ (MAX_LIMBS * 32 < bits)%nat /\
             ((sgn = false /\ to_Z a < 0) \/ limit <= Z.abs (to_Z a))
  | Panic => False
  end.
Proof. by apply as_n_bit_spec. Qed.

Lemma as_n_bit_correct_witness :
  exists c, as_n_bit neg_sample 40 false = Ok c /\ to_Z c = wrapped 40 false (-5).
Proof.
  pose proof (as_n_bit_correct neg_sample 40 false neg_sample_wf) as H.
  exists (mkBig false [4294967291; 255]). split; [reflexivity|exact (proj2 H)].
Defined.

(** [compare] is the order of the integers, and equality of the represented
    integers is equality of the representations, so the derived [==] is exact. *)
Theorem compare_correct (a b : BigInt) (Ha : wf a) (Hb : wf b) :
  compare a b = Z.compare (to_Z a) (to_Z b) /\ (compare a b = Eq <-> a = b).
Proof.
  rewrite compare_spec by done. split; [done|]. rewrite Z.compare_eq_iff.
  split; [by apply wf_inj|by intros ->].
Qed.

Lemma compare_correct_witness : compare neg_sample big_sample = Lt.
Proof.
  rewrite (proj1 (compare_correct neg_sample big_sample neg_sample_wf big_sample_wf)). reflexivity.
Defined.

(** C40. [to_decimal] terminates on every well-formed number, and parsing its text
    gives back the very same value when it is below ten times [2 ^ (32 * 4095)],
    as every number of fewer than [MAX_LIMBS] limbs is; from there on the last
    product by ten exceeds the cap and the text is refused. *)
Theorem parse_to_decimal (a : BigInt) (Ha : wf a) :
  exists text, to_decimal a = Ok text /\
    parse text = if Z.abs (to_Z a) <? 10 * Bn (MAX_LIMBS - 1) then Ok a else Err overflow.
Proof.
  destruct (decimal_round_trip a Ha) as (text & Ht & Hp). exists text. split; [done|].
  rewrite Hp. unfold reread. by rewrite (mag_abs a Ha).
Qed.

Lemma parse_to_decimal_witness :
  exists text, to_decimal neg_sample = Ok text /\ parse text = Ok neg_sample.
Proof.
  destruct (parse_to_decimal neg_sample neg_sample_wf) as (text & Ht & Hp).
  exists text. split; [exact Ht|]. rewrite Hp. by vm_compute.
Defined.

(** [to_radix] terminates for every radix of [toString] and prints the sign
    and the digits of the magnitude in that radix; the 64-bit words handed to
    N-API rebuild the same value. *)
Theorem to_radix_and_words_correct (a : BigInt) (radix : Z) (Ha : wf a) (Hr : 2 <= radix <= 36) :
  (exists ds, to_radix a radix = Ok (sign_text a ++ ds) /\ ds <> [] /\
     Forall (digit_char radix) ds /\ dval radix ds 0 = Z.abs (to_Z a)) /\
  (let '(neg, ws) := to_words a in Forall (uint 64) ws /\ from_words neg ws = a).
Proof.
  split; [|by apply words_round_trip].
  destruct (to_radix_spec a radix Ha Hr) as (ds & ? & ? & Hf & ?). exists ds.
  rewrite <- mag_abs by done. split_and!; auto. eapply Forall_impl; [done|]. naive_solver.
Qed.

Lemma to_radix_and_words_correct_witness :
  exists ds, to_radix neg_sample 16 = Ok (sign_text neg_sample ++ ds) /\ dval 16 ds 0 = 5.
Proof.
  destruct (to_radix_and_words_correct neg_sample 16 neg_sample_wf ltac:(lia))
    as [(ds & H1 & _ & _ & H2) _].
  exists ds. exact (conj H1 H2).
Defined.

(** A right shift by an amount over the cap is refused although its result is
    zero: the check that bounds the allocation of a left shift also applies here. *)
Lemma shr_large_amount_refused : shr small_sample (mkBig false [0; 1]) = Err overflow.
Proof. reflexivity. Qed.

(** The number [1n << 131071n], of [MAX_LIMBS] limbs, is allowed, but its own text
    is not. *)
Definition full_size : BigInt :=
  match shl (from_i64 1) (from_i64 131071) with Ok c => c | _ => zero end.

Lemma full_size_text_refused :
  shl (from_i64 1) (from_i64 131071) = Ok full_size /\
  exists text, to_decimal full_size = Ok text /\ parse text = Err overflow.
Proof.
  split; [by vm_compute|].
  destruct (decimal_round_trip full_size) as (text & Ht & Hp); [apply wfb_wf; by vm_compute|].
  exists text. split; [done|]. rewrite Hp. unfold reread.
  replace (mag full_size <? room 10) with false by (by vm_compute). done.
Qed.
