(* ===== verification/JsString.v ===== *)
(** ECMAScript strings: the model of [js_string.rs].

    A [JsString] is a vector of UTF-16 code units with a lazily filled UTF-8
    rendering beside it.  The [Arc] that shares the vector is copy-on-write
    ([Arc::make_mut]), so a value of the model is the pair of the units and the
    cached rendering.  [char::decode_utf16], [char::encode_utf16] and
    [u16::from_str_radix] are written out from the standard library.  The case
    mapping tables of [char] are an argument of [map_case]. *)
From stdpp Require Import prelude list strings.
From Stdlib Require Import ZArith Lia.
From S2P Require Import Prelude.
Local Open Scope Z_scope.
Local Open Scope rust_scope.

Module JsString.

(** ** UTF-16 in the standard library *)

Definition is_high (u : Z) : bool := in_range 0xD800 0xDBFF u.
Definition is_low (u : Z) : bool := in_range 0xDC00 0xDFFF u.
Definition is_surrogate (u : Z) : bool := in_range 0xD800 0xDFFF u.

(** A scalar value, the contents of a Rust [char]. *)
Definition is_char (c : Z) : bool := in_range 0 0x10FFFF c && negb (is_surrogate c).

Definition pair_char (hi lo : Z) : Z :=
  Z.lor (Z.shiftl (Z.land hi 0x3FF) 10) (Z.land lo 0x3FF) + 0x10000.

(** [char::decode_utf16]: [inr u] is the error of the unpaired surrogate [u]. *)
Fixpoint decode_utf16 (us : list Z) : list (Z + Z) :=
  match us with
  | [] => []
  | u :: rest =>
      if negb (is_surrogate u) then inl u :: decode_utf16 rest
      else if 0xDC00 <=? u then inr u :: decode_utf16 rest
      else match rest with
           | [] => [inr u]
           | u2 :: rest' =>
               if is_low u2 then inl (pair_char u u2) :: decode_utf16 rest'
               else inr u :: decode_utf16 rest
           end
  end.

(** [char::encode_utf16] *)
Definition encode_char (c : Z) : list Z :=
  if c <? 0x10000 then [c]
  else [Z.lor 0xD800 (Z.shiftr (c - 0x10000) 10);
        Z.lor 0xDC00 (Z.land (c - 0x10000) 0x3FF)].

(** [str::encode_utf16] *)
Definition encode_utf16 (s : list Z) : list Z := concat (map encode_char s).

(** [String::from_utf16_lossy] *)
Definition from_utf16_lossy (us : list Z) : list Z :=
  map (fun r => match r with inl c => c | inr _ => 0xFFFD end) (decode_utf16 us).

(** [String::from_utf16] *)
Fixpoint all_chars (rs : list (Z + Z)) : option (list Z) :=
  match rs with
  | [] => Some []
  | inl c :: rs => cs ← all_chars rs; Some (c :: cs)
  | inr _ :: _ => None
  end.
Definition from_utf16 (us : list Z) : option (list Z) := all_chars (decode_utf16 us).

(** [u16::from_str_radix]: an optional plus sign, then at least one digit. *)
Fixpoint radix_digits (radix : Z) (s : list Z) (acc : Z) : option Z :=
  match s with
  | [] => Some acc
  | c :: s =>
      d ← to_digit radix c;
      if acc * radix + d <? 2 ^ 16 then radix_digits radix s (acc * radix + d) else None
  end.
Definition u16_from_str_radix (s : list Z) (radix : Z) : option Z :=
  match s with
  | [] => None
  | [43] | [45] => None
  | 43 :: s => radix_digits radix s 0
  | _ => radix_digits radix s 0
  end.

(** ** The type *)

Record JsString := mkJs { units : list Z; utf8 : option (list Z) }.

Definition from_units (us : list Z) : JsString := mkJs us None.

(** [impl From<String>] *)
Definition from_string (value : list Z) : JsString := mkJs (encode_utf16 value) (Some value).

Definition default : JsString := from_string [].

Definition truncate (s : JsString) (len : nat) : JsString := mkJs (take len (units s)) None.

Definition len (s : JsString) : nat := length (units s).

Definition is_empty (s : JsString) : bool :=
  match units s with [] => true | _ => false end.

(** [as_str] fills the cache through a shared reference. *)
Definition as_str (s : JsString) : list Z * JsString :=
  match utf8 s with
  | Some text => (text, s)
  | None => let text := from_utf16_lossy (units s) in (text, mkJs (units s) (Some text))
  end.

Definition to_utf8 (s : JsString) : option (list Z) := from_utf16 (units s).

Definition slice (s : JsString) (start end_ : nat) : outcome unit JsString :=
  if (start <=? end_)%nat && (end_ <=? len s)%nat
  then Ok (from_units (take (end_ - start) (drop start (units s))))
  else Panic.

Definition concat_js (s other : JsString) : JsString := from_units (units s ++ units other).

Definition push_str (s text : JsString) : JsString := mkJs (units s ++ units text) None.

Definition push (s : JsString) (ch : Z) : JsString := mkJs (units s ++ encode_char ch) None.

Definition repeat (s : JsString) (count : nat) : JsString :=
  from_units (concat (replicate count (units s))).

(** [windows(n).position(|w| w == needle)] *)
Fixpoint window_position (needle hay : list Z) (i : nat) : option nat :=
  if (length hay <? length needle)%nat then None
  else if bool_decide (take (length needle) hay = needle) then Some i
  else match hay with
       | [] => None
       | _ :: hay => window_position needle hay (S i)
       end.

Definition find_from (s needle : JsString) (start : nat) : option nat :=
  if (len s <? start)%nat then None
  else if is_empty needle then Some start
  else (fun i => (start + i)%nat) <$> window_position (units needle) (drop start (units s)) 0.

Definition whitespace (u : Z) : bool :=
  in_range 0x0009 0x000D u || (u =? 0x0020) || (u =? 0x00A0) || (u =? 0x1680)
  || in_range 0x2000 0x200A u || (u =? 0x2028) || (u =? 0x2029) || (u =? 0x202F)
  || (u =? 0x205F) || (u =? 0x3000) || (u =? 0xFEFF).

(** The two [while] loops of [trim_units]; the fuel is the distance [b - a]. *)
Fixpoint trim_a (fuel : nat) (us : list Z) (a b : nat) : outcome unit nat :=
  match fuel with
  | O => Ok a
  | S fuel =>
      if (a <? b)%nat then
        let* u := index_or_panic us a in
        if whitespace u then trim_a fuel us (S a) b else Ok a
      else Ok a
  end.
Fixpoint trim_b (fuel : nat) (us : list Z) (a b : nat) : outcome unit nat :=
  match fuel with
  | O => Ok b
  | S fuel =>
      if (a <? b)%nat then
        let* u := index_or_panic us (b - 1) in
        if whitespace u then trim_b fuel us a (b - 1) else Ok b
      else Ok b
  end.
Definition trim_units (s : JsString) (start end_ : bool) : outcome unit JsString :=
  let* a := (if start then trim_a (len s) (units s) 0 (len s) else Ok 0%nat) in
  let* b := (if end_ then trim_b (len s - a) (units s) a (len s) else Ok (len s)) in
  slice s a b.

(** [char::to_uppercase] and [char::to_lowercase] are Unicode tables. *)
Definition map_case (to_uppercase to_lowercase : Z -> list Z) (s : JsString) (upper : bool)
  : JsString :=
  from_units (concat (map
    (fun ch => match ch with
               | inr u => [u]
               | inl ch => encode_utf16 (if upper then to_uppercase ch else to_lowercase ch)
               end) (decode_utf16 (units s)))).

Definition code_point_at (s : JsString) (index : nat) : option Z :=
  hi ← units s !! index;
  match (if is_high hi then units s !! S index else None) with
  | Some lo => if is_low lo
               then Some (0x10000 + Z.shiftl (hi - 0xD800) 10 + (lo - 0xDC00))
               else Some hi
  | None => Some hi
  end.

(** One call of the iterator's closure: the slice it yields and its next
    offset. *)
Definition code_points_next (s : JsString) (offset : nat)
  : option (outcome unit JsString * nat) :=
  first ← units s !! offset;
  let start := offset in
  let offset := S offset in
  let offset :=
    if is_high first && match units s !! offset with Some u => is_low u | None => false end
    then S offset else offset in
  Some (slice s start offset, offset).
Fixpoint code_points_loop (fuel : nat) (s : JsString) (offset : nat)
  : list (outcome unit JsString) :=
  match fuel with
  | O => []
  | S fuel =>
      match code_points_next s offset with
      | None => []
      | Some (item, offset) => item :: code_points_loop fuel s offset
      end
  end.
Definition code_points (s : JsString) : list (outcome unit JsString) :=
  code_points_loop (S (len s)) s 0.

(** ** Property keys *)

Definition marker : Z := 0xFDD0.

(** [{:04X}] *)
Definition hex_upper (d : Z) : Z := if d <? 10 then 48 + d else 55 + d.
Definition format_04X (u : Z) : list Z :=
  [hex_upper (u / 4096 mod 16); hex_upper (u / 256 mod 16); hex_upper (u / 16 mod 16);
   hex_upper (u mod 16)].

Definition key_item (r : Z + Z) : list Z :=
  match r with
  | inl ch => if ch =? marker then [marker; marker] else [ch]
  | inr u => marker :: 115 :: format_04X u
  end.
Definition to_key (s : JsString) : list Z :=
  concat (map key_item (decode_utf16 (units s))).

Inductive Cow := Borrowed (text : list Z) | Owned (text : list Z).
Definition cow_text (c : Cow) : list Z := match c with Borrowed t | Owned t => t end.

Fixpoint to_key_cow_loop (fuel : nat) (s : JsString) (index : nat) : Cow :=
  match fuel with
  | O => Borrowed (as_str s).1
  | S fuel =>
      match units s !! index with
      | None => Borrowed (as_str s).1
      | Some u =>
          if u =? 0xFDD0 then Owned (to_key s)
          else if is_high u
                  && match units s !! S index with Some u2 => is_low u2 | None => false end
          then to_key_cow_loop fuel s (index + 2)
          else if is_surrogate u then Owned (to_key s)
          else to_key_cow_loop fuel s (index + 1)
      end
  end.
Definition to_key_cow (s : JsString) : Cow := to_key_cow_loop (S (len s)) s 0.

(** [from_key]: every turn of the loop consumes a character, so the length of
    the key is enough fuel. *)
Fixpoint from_key_loop (fuel : nat) (chars : list Z) (us : list Z) : list Z :=
  match fuel with
  | O => us
  | S fuel =>
      match chars with
      | [] => us
      | ch :: chars =>
          if ch =? marker then
            match chars with
            | [] => from_key_loop fuel [] (us ++ [0xFDD0])
            | c2 :: chars =>
                if c2 =? marker then from_key_loop fuel chars (us ++ [0xFDD0])
                else if c2 =? 115 then
                  let hex := take 4 chars in
                  match u16_from_str_radix hex 16 with
                  | Some unit => from_key_loop fuel (drop 4 chars) (us ++ [unit])
                  | None =>
                      from_key_loop fuel (drop 4 chars)
                        (us ++ encode_utf16 [marker; 115] ++ encode_utf16 hex)
                  end
                else from_key_loop fuel chars (us ++ [0xFDD0] ++ encode_char c2)
            end
          else from_key_loop fuel chars (us ++ encode_char ch)
      end
  end.
Definition from_key (key : list Z) : JsString :=
  from_units (from_key_loop (length key) key []).

(** ** Comparison *)

Definition eq (s other : JsString) : bool := bool_decide (units s = units other).
Definition eq_str (s : JsString) (other : list Z) : bool :=
  bool_decide (units s = encode_utf16 other).

(** [Ord] of a slice of [u16] is lexicographic. *)
Fixpoint cmp_units (a b : list Z) : comparison :=
  match a, b with
  | [], [] => Eq
  | [], _ :: _ => Lt
  | _ :: _, [] => Gt
  | x :: a, y :: b => match x ?= y with Eq => cmp_units a b | c => c end
  end.
Definition cmp (s other : JsString) : comparison := cmp_units (units s) (units other).

(** [impl Add<&str>] *)
Definition add_str (s : JsString) (other : list Z) : JsString :=
  concat_js s (from_string other).

(** ** Serialization: text when it is well formed, the units otherwise *)

Inductive Representation := Text (text : list Z) | Units (us : list Z).

Definition serialize (s : JsString) : Representation :=
  match to_utf8 s with
  | Some text => Text text
  | None => Units (units s)
  end.
Definition deserialize (r : Representation) : JsString :=
  match r with
  | Text text => from_string text
  | Units us => from_units us
  end.

End JsString.
