(* ===== verification/JsStringTheorems.v ===== *)
(** The theorems of [JsString]: the rendering cache stays coherent, UTF-16
    decoding and encoding are inverse to each other, a property key determines
    its string, and the searching and slicing operations meet their
    specifications. *)
From stdpp Require Import prelude list strings.
From Stdlib Require Import ZArith Lia.
From S2P Require Import Prelude JsString.
Import JsString.
Local Open Scope Z_scope.

(** ** Well-formedness *)

Definition units_ok (us : list Z) : Prop := Forall (uint 16) us.
Lemma units_ok_cons u us : units_ok (u :: us) <-> uint 16 u /\ units_ok us.
Proof. apply Forall_cons. Qed.
Definition text_ok (t : list Z) : Prop := Forall (fun c => is_char c = true) t.

(** The cached rendering, when there is one, is the rendering of the units. *)
Definition coherent (s : JsString) : Prop :=
  match utf8 s with
  | None => True
  | Some t => t = from_utf16_lossy (units s)
  end.

Ltac ranges :=
  unfold is_char, is_high, is_low, is_surrogate, whitespace, in_range in *;
  repeat match goal with
         | H : context [?a <=? ?b] |- _ => destruct (Z.leb_spec a b); simpl in H
         | |- context [?a <=? ?b] => destruct (Z.leb_spec a b); simpl
         | H : context [?a =? ?b] |- _ => destruct (Z.eqb_spec a b); simpl in H
         | |- context [?a =? ?b] => destruct (Z.eqb_spec a b); simpl
         end;
  try discriminate; try lia; auto.

(** ** Decoding *)

(** The three forms of a decoded item: a unit that is a character, a surrogate
    that is not followed by its half, and a pair. *)
Definition lone (u : Z) (rest : list Z) : Prop :=
  is_surrogate u = true /\
  (is_high u = true -> match rest with [] => True | lo :: _ => is_low lo = false end).

Lemma decode_unit u rest :
  is_surrogate u = false -> decode_utf16 (u :: rest) = inl u :: decode_utf16 rest.
Proof. intros H. simpl. by rewrite H. Qed.

Lemma decode_lone u rest :
  lone u rest -> decode_utf16 (u :: rest) = inr u :: decode_utf16 rest.
Proof.
  intros [Hs Hl]. simpl. rewrite Hs. simpl.
  destruct (Z.leb_spec 0xDC00 u) as [|Hu]; [done|].
  destruct rest as [|lo rest]; [done|]. rewrite Hl; [done|]. ranges.
Qed.

Lemma decode_pair hi lo rest :
  is_high hi = true -> is_low lo = true ->
  decode_utf16 (hi :: lo :: rest) = inl (pair_char hi lo) :: decode_utf16 rest.
Proof.
  intros Hh Hl. simpl. replace (is_surrogate hi) with true by ranges. simpl.
  destruct (Z.leb_spec 0xDC00 hi); [ranges|]. by rewrite Hl.
Qed.

Lemma utf16_ind (P : list Z -> Prop) :
  P [] ->
  (forall u rest, is_surrogate u = false -> P rest -> P (u :: rest)) ->
  (forall u rest, lone u rest -> P rest -> P (u :: rest)) ->
  (forall hi lo rest, is_high hi = true -> is_low lo = true -> P rest -> P (hi :: lo :: rest)) ->
  forall us, P us.
Proof.
  intros H0 H1 H2 H3.
  assert (forall n us, (length us <= n)%nat -> P us) as H; [|by intros us; eapply H].
  induction n as [|n IH]; intros [|u rest] Hn; simpl in Hn; try done; try lia.
  destruct (is_surrogate u) eqn:Hs; [|apply H1; [done|apply IH; lia]].
  destruct (is_high u) eqn:Hh; [|apply H2; [by split; [|rewrite Hh]|apply IH; lia]].
  destruct rest as [|lo rest]; [apply H2; [by split|done]|].
  destruct (is_low lo) eqn:Hl; [apply H3; try done; apply IH; simpl in *; lia|].
  apply H2; [by split|apply IH; simpl in *; lia].
Qed.

(** ** Surrogate pairs *)

Lemma pair_char_val hi lo :
  is_high hi = true -> is_low lo = true ->
  pair_char hi lo = (hi - 0xD800) * 1024 + (lo - 0xDC00) + 0x10000.
Proof.
  intros Hh Hl. unfold pair_char. change 0x3FF with (Z.ones 10).
  rewrite !Z.land_ones by lia. rewrite lor_shiftl_add; [|lia|apply Z.mod_pos_bound; lia].
  change (2 ^ 10) with 1024.
  replace (hi mod 1024) with (hi - 0xD800); [replace (lo mod 1024) with (lo - 0xDC00); [lia|]|].
  - apply Z.mod_unique with 55; ranges.
  - apply Z.mod_unique with 54; ranges.
Qed.

Lemma pair_char_range hi lo :
  is_high hi = true -> is_low lo = true -> 0x10000 <= pair_char hi lo <= 0x10FFFF.
Proof. intros Hh Hl. rewrite pair_char_val by done. ranges. Qed.

Lemma encode_char_high c :
  0x10000 <= c <= 0x10FFFF ->
  encode_char c = [0xD800 + (c - 0x10000) / 1024; 0xDC00 + (c - 0x10000) mod 1024].
Proof.
  intros Hc. unfold encode_char. destruct (Z.ltb_spec c 0x10000); [lia|].
  rewrite Z.shiftr_div_pow2 by lia. change 0x3FF with (Z.ones 10).
  rewrite Z.land_ones by lia. change (2 ^ 10) with 1024.
  assert (0 <= (c - 0x10000) / 1024 < 2 ^ 10)
    by (split; [apply Z.div_pos|apply Z.div_lt_upper_bound]; lia).
  pose proof (Z.mod_pos_bound (c - 0x10000) 1024).
  f_equal; [|f_equal].
  - change 0xD800 with (Z.shiftl 54 10) at 1. rewrite lor_shiftl_add; [lia|lia|done].
  - change 0xDC00 with (Z.shiftl 55 10) at 1. rewrite lor_shiftl_add; [lia|lia|].
    unfold uint. lia.
Qed.

Lemma encode_pair_char hi lo :
  is_high hi = true -> is_low lo = true -> encode_char (pair_char hi lo) = [hi; lo].
Proof.
  intros Hh Hl. pose proof (pair_char_range hi lo Hh Hl).
  rewrite encode_char_high by done. rewrite pair_char_val by done.
  replace (_ - 0x10000) with ((hi - 0xD800) * 1024 + (lo - 0xDC00)) by lia.
  rewrite Z.div_add_l by lia.
  rewrite (Z.add_comm ((hi - 0xD800) * 1024)), Z.mod_add by lia.
  rewrite (Z.div_small (lo - 0xDC00)) by ranges. rewrite Z.mod_small by ranges.
  f_equal; [|f_equal]; lia.
Qed.

Lemma encode_char_unit u : u < 0x10000 -> encode_char u = [u].
Proof. intros H. unfold encode_char. by destruct (Z.ltb_spec u 0x10000); [|lia]. Qed.

Definition reencode (r : Z + Z) : list Z :=
  match r with inl c => encode_char c | inr u => [u] end.

Lemma reencode_decode us : units_ok us -> concat (map reencode (decode_utf16 us)) = us.
Proof.
  induction us using utf16_ind; intros Hok.
  - done.
  - rewrite decode_unit by done. apply units_ok_cons in Hok as [Hu Hr]. cbn [map concat reencode].
    rewrite encode_char_unit by apply Hu. by rewrite IHus.
  - rewrite decode_lone by done. apply units_ok_cons in Hok as [Hu Hr]. simpl. by rewrite IHus.
  - rewrite decode_pair by done. rewrite !units_ok_cons in Hok. destruct Hok as (?&?&?).
    cbn [map concat reencode]. rewrite encode_pair_char by done. by rewrite IHus.
Qed.

Lemma decode_encode_char c rest :
  is_char c = true -> decode_utf16 (encode_char c ++ rest) = inl c :: decode_utf16 rest.
Proof.
  intros Hc. destruct (Z.lt_ge_cases c 0x10000).
  - rewrite encode_char_unit by done. apply decode_unit. ranges.
  - assert (c <= 0x10FFFF) by ranges. rewrite encode_char_high by lia. simpl app.
    assert (0 <= (c - 0x10000) / 1024 < 1024)
      by (split; [apply Z.div_pos|apply Z.div_lt_upper_bound]; lia).
    pose proof (Z.mod_pos_bound (c - 0x10000) 1024).
    assert (is_high (0xD800 + (c - 0x10000) / 1024) = true) as Hh by ranges.
    assert (is_low (0xDC00 + (c - 0x10000) mod 1024) = true) as Hl by ranges.
    rewrite decode_pair by done. rewrite pair_char_val by done. f_equal. f_equal.
    pose proof (Z.div_mod (c - 0x10000) 1024). lia.
Qed.

Lemma decode_encode t : text_ok t -> decode_utf16 (encode_utf16 t) = map inl t.
Proof.
  induction 1 as [|c t Hc Ht IH]; [done|]. unfold encode_utf16 in *. cbn [map concat].
  by rewrite decode_encode_char, IH.
Qed.

Lemma encode_char_ok c : is_char c = true -> units_ok (encode_char c).
Proof.
  intros Hc. destruct (Z.lt_ge_cases c 0x10000).
  - rewrite encode_char_unit by done. repeat constructor; ranges.
  - assert (c <= 0x10FFFF) by ranges. rewrite encode_char_high by lia.
    assert (0 <= (c - 0x10000) / 1024 < 1024)
      by (split; [apply Z.div_pos|apply Z.div_lt_upper_bound]; lia).
    pose proof (Z.mod_pos_bound (c - 0x10000) 1024).
    repeat constructor; lia.
Qed.

Lemma encode_units_ok t : text_ok t -> units_ok (encode_utf16 t).
Proof.
  induction 1 as [|c t Hc Ht IH]; [constructor|]. apply Forall_app.
  split; [by apply encode_char_ok|done].
Qed.

Lemma lossy_encode t : text_ok t -> from_utf16_lossy (encode_utf16 t) = t.
Proof.
  intros H. unfold from_utf16_lossy. rewrite decode_encode by done.
  rewrite map_map. apply map_id.
Qed.

Lemma all_chars_inl t : all_chars (map inl t) = Some t.
Proof. induction t as [|c t IH]; [done|]. simpl. by rewrite IH. Qed.

Lemma all_chars_Some rs t : all_chars rs = Some t -> rs = map inl t.
Proof.
  revert t. induction rs as [|[c|u] rs IH]; intros t H; simplify_eq/=; [done|].
  destruct (all_chars rs); simplify_eq/=. by rewrite (IH l).
Qed.

Lemma decode_chars us c : units_ok us -> inl c ∈ decode_utf16 us -> is_char c = true.
Proof.
  induction us using utf16_ind; intros Hok.
  - intros H. by apply elem_of_nil in H.
  - rewrite decode_unit by done. apply units_ok_cons in Hok as [Hu Hr].
    intros [[= ->]|]%elem_of_cons; [|auto]. destruct Hu. ranges.
  - rewrite decode_lone by done. apply units_ok_cons in Hok as [Hu Hr].
    intros [|]%elem_of_cons; [done|auto].
  - rewrite decode_pair by done. rewrite !units_ok_cons in Hok. destruct Hok as (?&?&?).
    intros [[= ->]|]%elem_of_cons; [|auto]. pose proof (pair_char_range hi lo). 
    destruct H2 as [??]; [done..|]. generalize dependent (pair_char hi lo). intros p ??. ranges.
Qed.

(** ** Sequences of decoded items *)

Definition item_ok (r : Z + Z) : Prop :=
  match r with
  | inl c => is_char c = true
  | inr u => uint 16 u /\ is_surrogate u = true
  end.

(** Decoding never leaves the halves of a pair beside each other. *)
Fixpoint canonical (rs : list (Z + Z)) : Prop :=
  match rs with
  | inr hi :: rs =>
      match rs with
      | inr lo :: _ => is_high hi && is_low lo = false
      | _ => True
      end /\ canonical rs
  | inl _ :: rs => canonical rs
  | [] => True
  end.

Lemma decode_items_ok us : units_ok us -> Forall item_ok (decode_utf16 us).
Proof.
  induction us using utf16_ind; intros Hok; [constructor|..].
  - rewrite decode_unit by done. apply units_ok_cons in Hok as [[??] ?].
    constructor; [simpl; ranges|auto].
  - rewrite decode_lone by done. apply units_ok_cons in Hok as [??].
    constructor; [by destruct H|auto].
  - rewrite decode_pair by done. rewrite !units_ok_cons in Hok. destruct Hok as (?&?&?).
    constructor; [|auto]. cbn. pose proof (pair_char_range hi lo H H0) as Hp.
    revert Hp. generalize (pair_char hi lo). intros p Hp. ranges.
Qed.

Lemma decode_canonical us : canonical (decode_utf16 us).
Proof.
  induction us as [|u rest H IHus|u rest H IHus|hi lo rest H H0 IHus] using utf16_ind; [done|..].
  - by rewrite decode_unit.
  - rewrite decode_lone by done. split; [|done]. destruct rest as [|lo rest]; [done|].
    destruct (is_surrogate lo) eqn:Hs; [|by rewrite decode_unit].
    destruct H as [_ Hl]. destruct (is_high u) eqn:Hu; [|by destruct (decode_utf16 _) as [|[]]].
    specialize (Hl eq_refl). simpl in Hl. simpl. rewrite Hs. simpl.
    destruct (Z.leb_spec 0xDC00 lo); [ranges|].
    destruct rest as [|l2 rest]; [by rewrite Hl|]. destruct (is_low l2); [done|by rewrite Hl].
  - by rewrite decode_pair.
Qed.

Lemma encode_char_head c : is_char c = true ->
  exists u us, encode_char c = u :: us /\ is_low u = false.
Proof.
  intros Hc. destruct (Z.lt_ge_cases c 0x10000).
  - rewrite encode_char_unit by done. eexists _, _. split; [done|]. ranges.
  - rewrite encode_char_high by ranges. eexists _, _. split; [done|].
    assert (0 <= (c - 0x10000) / 1024 < 1024)
      by (split; [apply Z.div_pos|apply Z.div_lt_upper_bound]; ranges). ranges.
Qed.

Lemma decode_reencode rs :
  Forall item_ok rs -> canonical rs -> decode_utf16 (concat (map reencode rs)) = rs.
Proof.
  induction 1 as [|r rs Hr Hrs IH]; intros Hc; [done|]. destruct r as [c|u]; cbn [map concat].
  - simpl reencode. rewrite decode_encode_char by done. by rewrite IH.
  - simpl reencode. destruct Hc as [Hu Hc]. destruct Hr as [Hr Hs]. simpl app.
    rewrite decode_lone; [by rewrite IH|]. split; [done|]. intros Hh.
    destruct rs as [|[c|lo] rs]; [done|..]; cbn [map concat].
    + apply Forall_cons in Hrs as [Hc' _].
      destruct (encode_char_head c Hc') as (v & us & E & Hv). simpl reencode. by rewrite E.
    + simpl. rewrite Hh in Hu. done.
Qed.

Lemma reencode_inl t : concat (map reencode (map inl t)) = encode_utf16 t.
Proof. by rewrite map_map. Qed.

Lemma reencode_units_ok rs : Forall item_ok rs -> units_ok (concat (map reencode rs)).
Proof.
  induction 1 as [|[c|u] rs Hr Hrs IH]; [constructor|..]; cbn [map concat];
    (apply Forall_app; split; [|done]); simpl.
  - by apply encode_char_ok.
  - repeat constructor; apply Hr.
Qed.

(** ** Property keys *)

Lemma to_digit_hex_upper d : 0 <= d < 16 -> to_digit 16 (hex_upper d) = Some d.
Proof.
  intros H. assert (d ∈ seqZ 0 16) as Hin by (apply elem_of_seqZ; lia).
  revert d Hin H. vm_compute seqZ. intros d Hin _.
  repeat (apply elem_of_cons in Hin as [->|Hin]; [reflexivity|]). by apply elem_of_nil in Hin.
Qed.

Lemma parse_format_04X u : uint 16 u -> u16_from_str_radix (format_04X u) 16 = Some u.
Proof.
  intros [Hl Hh]. change (2 ^ 16) with 65536 in Hh. unfold format_04X.
  set (a := u / 4096 mod 16). set (b := u / 256 mod 16). set (c := u / 16 mod 16).
  set (d := u mod 16).
  assert (0 <= a < 16 /\ 0 <= b < 16 /\ 0 <= c < 16 /\ 0 <= d < 16) as (Ha & Hb & Hc & Hd)
    by (split_and!; apply Z.mod_pos_bound; lia).
  assert (((a * 16 + b) * 16 + c) * 16 + d = u) as Hu.
  { subst a b c d. pose proof (Z.div_mod u 16). pose proof (Z.div_mod (u / 16) 16).
    pose proof (Z.div_mod (u / 256) 16).
    rewrite (Z.mod_small (u / 4096)) by (split; [apply Z.div_pos|apply Z.div_lt_upper_bound]; lia).
    replace (u / 256) with (u / 16 / 16) in * by (rewrite Z.div_div; [done|lia..]).
    replace (u / 4096) with (u / 16 / 16 / 16) in * by (rewrite !Z.div_div; [done|lia..]).
    lia. }
  assert (forall x l, 0 <= x ->
     u16_from_str_radix (hex_upper x :: l) 16 = radix_digits 16 (hex_upper x :: l) 0) as Hr.
  { intros x l Hx. assert (48 <= hex_upper x) as Hge
      by (unfold hex_upper; destruct (Z.ltb_spec x 10); lia).
    generalize dependent (hex_upper x). intros h Hge. unfold u16_from_str_radix.
    destruct h as [|h|h]; try done. do 6 (destruct h as [h|h|]; try done; try lia). }
  clearbody a b c d. rewrite Hr by lia. cbn [radix_digits].
  rewrite !to_digit_hex_upper by lia. cbn [mbind option_bind].
  repeat (case Z.ltb_spec; [intros _|lia]). f_equal. lia.
Qed.

Lemma from_key_item r rest us fuel :
  item_ok r ->
  from_key_loop (S fuel) (key_item r ++ rest) us = from_key_loop fuel rest (us ++ reencode r).
Proof.
  intros Hr. destruct r as [c|u].
  - unfold key_item. destruct (Z.eqb_spec c marker) as [->|Hm]; [done|].
    cbn -[encode_char marker]. by destruct (Z.eqb_spec c marker).
  - destruct Hr as [Hu _]. pose proof (parse_format_04X u Hu) as Hp.
    unfold key_item. cbn [from_key_loop app]. rewrite Z.eqb_refl.
    change (115 =? marker) with false. change (115 =? 115) with true. cbv iota.
    change (take 4 (format_04X u ++ rest)) with (format_04X u). rewrite Hp. done.
Qed.

Lemma from_key_items rs : forall us fuel,
  Forall item_ok rs -> (length rs <= fuel)%nat ->
  from_key_loop fuel (concat (map key_item rs)) us = us ++ concat (map reencode rs).
Proof.
  induction rs as [|r rs IH]; intros us fuel Hok Hf; cbn [map concat].
  - rewrite app_nil_r. by destruct fuel.
  - apply Forall_cons in Hok as [Hr Hok]. simpl in Hf. destruct fuel as [|fuel]; [lia|].
    rewrite from_key_item by done. rewrite IH by (done || lia). by rewrite app_assoc.
Qed.

Lemma key_items_length rs : (length rs <= length (concat (map key_item rs)))%nat.
Proof.
  induction rs as [|r rs IH]; [done|]. cbn [map concat]. rewrite length_app. simpl.
  assert (1 <= length (key_item r))%nat; [|lia].
  destruct r as [c|u]; simpl; [destruct (c =? marker); simpl; lia|lia].
Qed.

Lemma from_key_to_key s : units_ok (units s) -> units (from_key (to_key s)) = units s.
Proof.
  intros Hok. unfold from_key, to_key. cbn [units from_units].
  rewrite from_key_items; [|by apply decode_items_ok|apply key_items_length].
  by apply reencode_decode.
Qed.

(** ** The borrowed form of a key *)

Definition plain_item (r : Z + Z) : bool :=
  match r with inl c => negb (c =? marker) | inr _ => false end.
Definition plain (us : list Z) : bool := forallb plain_item (decode_utf16 us).

Lemma drop_cons_lookup {A} (l : list A) i x rest :
  drop i l = x :: rest -> l !! i = Some x /\ drop (S i) l = rest.
Proof.
  intros H. assert (l !! i = Some x) as Hl.
  { rewrite <- (Nat.add_0_r i), <- lookup_drop. by rewrite H. }
  split; [done|]. apply drop_S in Hl. rewrite H in Hl. by inversion Hl.
Qed.

Lemma drop_nil_lookup {A} (l : list A) i : drop i l = [] -> l !! i = None.
Proof. intros H. rewrite <- (Nat.add_0_r i), <- lookup_drop. by rewrite H. Qed.

Lemma to_key_cow_loop_spec s rest : forall i fuel,
  drop i (units s) = rest -> (length rest < fuel)%nat ->
  to_key_cow_loop fuel s i = if plain rest then Borrowed (as_str s).1 else Owned (to_key s).
Proof.
  induction rest as [|u rest H IHrest|u rest H IHrest|hi lo rest H H0 IHrest] using utf16_ind;
    intros i fuel Hd Hf; (destruct fuel as [|fuel]; [simpl in Hf; lia|]);
    cbn [to_key_cow_loop].
  - by rewrite (drop_nil_lookup _ _ Hd).
  - apply drop_cons_lookup in Hd as [-> Hd]. unfold plain. rewrite decode_unit by done. simpl.
    change 64976 with marker. destruct (Z.eqb_spec u marker) as [->|Hm]; [done|].
    replace (is_high u) with false by ranges. rewrite H. cbn [andb]. simpl in Hf.
    apply IHrest; [|lia]. by rewrite Nat.add_1_r.
  - apply drop_cons_lookup in Hd as [-> Hd]. unfold plain. rewrite decode_lone by done. simpl.
    change 64976 with marker. destruct (Z.eqb_spec u marker) as [->|Hm]; [done|].
    destruct H as [Hs Hl]. rewrite Hs. destruct (is_high u); [|done]. specialize (Hl eq_refl).
    destruct rest as [|lo rest]; [by rewrite (drop_nil_lookup _ _ Hd)|].
    apply drop_cons_lookup in Hd as [-> _]. by rewrite Hl.
  - apply drop_cons_lookup in Hd as [-> Hd]. apply drop_cons_lookup in Hd as [-> Hd].
    unfold plain. rewrite decode_pair by done. cbn [forallb plain_item].
    pose proof (pair_char_range hi lo H H0).
    destruct (Z.eqb_spec (pair_char hi lo) marker) as [E|]; [unfold marker in E; lia|].
    destruct (Z.eqb_spec hi 64976); [ranges|]. rewrite H, H0. cbn [andb negb].
    simpl in Hf. apply IHrest; [|lia]. by replace (i + 2)%nat with (S (S i)) by lia.
Qed.

Lemma plain_key us : plain us = true ->
  concat (map key_item (decode_utf16 us)) = from_utf16_lossy us.
Proof.
  unfold plain, from_utf16_lossy. induction (decode_utf16 us) as [|[c|u] rs IH]; [done|..|done].
  simpl. destruct (Z.eqb_spec c marker); [done|]. intros H. simpl. by rewrite IH.
Qed.

Lemma plain_iff us :
  plain us = true <-> (exists t, from_utf16 us = Some t /\ marker ∉ t).
Proof.
  unfold plain, from_utf16. induction (decode_utf16 us) as [|[c|u] rs IH].
  - split; [|done]. intros _. exists []. split; [done|]. apply not_elem_of_nil.
  - cbn [forallb plain_item all_chars]. rewrite andb_true_iff, IH. split.
    + intros [Hc (t & -> & Ht)]. exists (c :: t). split; [done|].
      apply not_elem_of_cons. split; [|done]. intros <-. by rewrite Z.eqb_refl in Hc.
    + intros (t & Ht & Hm). destruct (all_chars rs) as [t'|]; [|done].
      cbn in Ht. simplify_eq. apply not_elem_of_cons in Hm as [Hc Hm].
      split; [by destruct (Z.eqb_spec c marker)|eauto].
  - split; [done|]. by intros (t & ? & _).
Qed.

(** ** Iteration by code points *)

Lemma slice_Ok s a b :
  (a <= b <= len s)%nat -> slice s a b = Ok (from_units (take (b - a) (drop a (units s)))).
Proof.
  intros [H1 H2]. unfold slice. apply Nat.leb_le in H1, H2. by rewrite H1, H2.
Qed.

Lemma drop_app_len {A} (l pre rest : list A) :
  l = pre ++ rest -> drop (length pre) l = rest.
Proof. intros ->. apply drop_app_length. Qed.

Lemma code_points_loop_spec s rest : forall i fuel,
  units_ok rest -> drop i (units s) = rest -> (i + length rest = len s)%nat ->
  (length rest < fuel)%nat ->
  code_points_loop fuel s i = map (fun r => Ok (from_units (reencode r))) (decode_utf16 rest).
Proof.
  induction rest as [|u rest H IH|u rest H IH|hi lo rest H H0 IH] using utf16_ind;
    intros i fuel Hok Hd Hi Hf; (destruct fuel as [|fuel]; [simpl in Hf; lia|]);
    cbn [code_points_loop]; unfold code_points_next.
  - by rewrite (drop_nil_lookup _ _ Hd).
  - apply units_ok_cons in Hok as [[_ Hu] Hok]. simpl in Hf, Hi.
    pose proof (drop_cons_lookup _ _ _ _ Hd) as [-> Hd']. cbn [mbind option_bind].
    replace (is_high u) with false by ranges. cbn [andb].
    rewrite slice_Ok by lia. rewrite Hd, Nat.sub_succ_l, Nat.sub_diag by lia.
    rewrite decode_unit by done. cbn [map reencode]. rewrite encode_char_unit by done.
    simpl take. by rewrite (IH (S i) fuel) by (done || lia).
  - apply units_ok_cons in Hok as [[_ Hu] Hok]. simpl in Hf, Hi.
    pose proof (drop_cons_lookup _ _ _ _ Hd) as [-> Hd']. cbn [mbind option_bind].
    rewrite decode_lone by done. cbn [map reencode].
    replace (is_high u && _) with false.
    2:{ destruct H as [_ Hl]. destruct (is_high u); [|done]. specialize (Hl eq_refl).
        destruct rest as [|lo rest]; [by rewrite (drop_nil_lookup _ _ Hd')|].
        by apply drop_cons_lookup in Hd' as [-> _]. }
    rewrite slice_Ok by lia. rewrite Hd, Nat.sub_succ_l, Nat.sub_diag by lia. simpl take.
    by rewrite (IH (S i) fuel) by (done || lia).
  - rewrite !units_ok_cons in Hok. destruct Hok as (? & ? & Hok). simpl in Hf, Hi.
    pose proof (drop_cons_lookup _ _ _ _ Hd) as [-> Hd']. cbn [mbind option_bind].
    pose proof (drop_cons_lookup _ _ _ _ Hd') as [-> Hd'']. rewrite H, H0. cbn [andb].
    rewrite slice_Ok by lia. rewrite Hd. replace (S (S i) - i)%nat with 2%nat by lia.
    rewrite decode_pair by done. cbn [map reencode]. rewrite encode_pair_char by done.
    simpl take. by rewrite (IH (S (S i)) fuel) by (done || lia).
Qed.

Lemma code_point_at_spec s i :
  code_point_at s i =
  match decode_utf16 (drop i (units s)) with
  | inl c :: _ => Some c
  | inr u :: _ => Some u
  | [] => None
  end.
Proof.
  unfold code_point_at. destruct (drop i (units s)) as [|u rest] eqn:Hd.
  { by rewrite (drop_nil_lookup _ _ Hd). }
  apply drop_cons_lookup in Hd as [-> Hd]. cbn [mbind option_bind].
  destruct (is_surrogate u) eqn:Hs.
  2:{ rewrite decode_unit by done. by replace (is_high u) with false by ranges. }
  destruct (is_high u) eqn:Hh.
  2:{ rewrite decode_lone; [done|]. split; [done|]. by rewrite Hh. }
  destruct rest as [|lo rest].
  { rewrite (drop_nil_lookup _ _ Hd). by rewrite decode_lone. }
  apply drop_cons_lookup in Hd as [-> Hd]. destruct (is_low lo) eqn:Hl.
  - rewrite decode_pair by done. rewrite pair_char_val by done.
    rewrite Z.shiftl_mul_pow2 by lia. f_equal. lia.
  - by rewrite decode_lone.
Qed.

(** ** Searching *)

(** [needle] occurs in [hay] at [j]. *)
Definition occurs (hay needle : list Z) (j : nat) : Prop :=
  (j + length needle <= length hay)%nat /\ take (length needle) (drop j hay) = needle.

Lemma window_position_spec needle hay : forall i,
  match window_position needle hay i with
  | Some k => exists j, k = (i + j)%nat /\ occurs hay needle j /\
                        forall j', (j' < j)%nat -> ~ occurs hay needle j'
  | None => forall j, ~ occurs hay needle j
  end.
Proof.
  induction hay as [|x hay IH]; intros i; cbn [window_position];
    (case Nat.ltb_spec; intros Hlen; [by intros j [? _]; lia|]); case_bool_decide as Ht.
  1,3: exists 0%nat; split_and!; [lia|by split; [lia|]|lia].
  - intros j [H1 H2]. simpl in Hlen. apply Ht. rewrite drop_nil in H2. done.
  - specialize (IH (S i)). destruct (window_position needle hay (S i)) as [k|].
    + destruct IH as (j & -> & Ho & Hmin). exists (S j). split_and!; [lia|..].
      * destruct Ho. split; simpl; [lia|done].
      * intros [|j'] Hj [H1 H2]; [done|]. apply (Hmin j'); [lia|]. split; simpl in *; [lia|done].
    + intros [|j] [H1 H2]; [done|]. apply (IH j). split; simpl in *; [lia|done].
Qed.

Lemma occurs_drop hay needle a j :
  (a <= length hay)%nat -> occurs (drop a hay) needle j <-> occurs hay needle (a + j).
Proof.
  intros Ha. unfold occurs. rewrite length_drop, drop_drop.
  split; intros [H1 H2]; (split; [lia|done]).
Qed.

(** ** Trimming *)

Lemma trim_a_spec us b : forall fuel a,
  (a <= b <= length us)%nat -> (b - a <= fuel)%nat ->
  exists k, trim_a fuel us a b = Ok k /\ (a <= k <= b)%nat /\
    (forall i u, (a <= i < k)%nat -> us !! i = Some u -> whitespace u = true) /\
    (k = b \/ exists u, us !! k = Some u /\ whitespace u = false).
Proof.
  induction fuel as [|fuel IH]; intros a Hab Hf; cbn [trim_a].
  { exists a. split_and!; try done; try (intros; lia). }
  case Nat.ltb_spec; intros Hlt.
  2:{ exists a. split_and!; try done; try (intros; lia). }
  destruct (lookup_lt_is_Some_2 us a) as [u Hu]; [lia|]. unfold index_or_panic. rewrite Hu.
  cbn [obind]. destruct (whitespace u) eqn:Hw.
  - destruct (IH (S a)) as (k & -> & Hk & Hall & Hend); [lia..|]. exists k.
    split_and!; try done; [lia..|]. intros i v Hi Hv.
    destruct (decide (i = a)) as [->|]; [congruence|]. apply (Hall i); [lia|done].
  - exists a. split_and!; try done; [intros; lia..|]. right. eauto.
Qed.

Lemma trim_b_spec us a : forall fuel b,
  (a <= b <= length us)%nat -> (b - a <= fuel)%nat ->
  exists k, trim_b fuel us a b = Ok k /\ (a <= k <= b)%nat /\
    (forall i u, (k <= i < b)%nat -> us !! i = Some u -> whitespace u = true) /\
    (k = a \/ exists u, us !! (k - 1)%nat = Some u /\ whitespace u = false).
Proof.
  induction fuel as [|fuel IH]; intros b Hab Hf; cbn [trim_b].
  { exists b. split_and!; try done; try (intros; lia). }
  case Nat.ltb_spec; intros Hlt.
  2:{ exists b. split_and!; try done; try (intros; lia). }
  destruct (lookup_lt_is_Some_2 us (b - 1)) as [u Hu]; [lia|]. unfold index_or_panic.
  rewrite Hu. cbn [obind]. destruct (whitespace u) eqn:Hw.
  - destruct (IH (b - 1)%nat) as (k & -> & Hk & Hall & Hend); [lia..|]. exists k.
    split_and!; try done; [lia..|]. intros i v Hi Hv.
    destruct (decide (i = b - 1)%nat) as [->|]; [congruence|]. apply (Hall i); [lia|done].
  - exists b. split_and!; try done; [intros; lia..|]. right. eauto.
Qed.

Lemma trim_all (f : Z -> bool) (us : list Z) (a b : nat) :
  (forall i u, (a <= i < b)%nat -> us !! i = Some u -> f u = true) ->
  Forall (fun u => f u = true) (take (b - a) (drop a us)).
Proof.
  intros H. apply Forall_lookup. intros i u Hi.
  apply lookup_take_Some in Hi as [Hi Hlt]. rewrite lookup_drop in Hi.
  apply (H (a + i)%nat); [lia|done].
Qed.

Lemma split3 {A} (us : list A) (a b : nat) :
  (a <= b <= length us)%nat ->
  us = take a us ++ take (b - a) (drop a us) ++ drop b us.
Proof.
  intros H. replace (drop b us) with (drop (b - a) (drop a us)).
  2:{ rewrite drop_drop. f_equal. lia. }
  by rewrite !take_drop.
Qed.

(** ** Strings the operations build *)

(** Tables that map a character to at least one character. *)
Definition case_table (f : Z -> list Z) : Prop :=
  forall c, is_char c = true -> text_ok (f c) /\ f c <> [].

Inductive built : JsString -> Prop :=
| built_units us : units_ok us -> built (from_units us)
| built_string t : text_ok t -> built (from_string t)
| built_truncate s n : built s -> built (truncate s n)
| built_as_str s : built s -> built (as_str s).2
| built_slice s a b r : built s -> slice s a b = Ok r -> built r
| built_concat s t : built s -> built t -> built (concat_js s t)
| built_push_str s t : built s -> built t -> built (push_str s t)
| built_push s c : built s -> is_char c = true -> built (push s c)
| built_repeat s n : built s -> built (repeat s n)
| built_trim s x y r : built s -> trim_units s x y = Ok r -> built r
| built_map_case up low s b : built s -> case_table up -> case_table low ->
    built (map_case up low s b)
| built_from_key t : text_ok t -> built (from_key t).

Lemma units_ok_slice s a b r :
  units_ok (units s) -> slice s a b = Ok r -> units_ok (units r) /\ utf8 r = None.
Proof.
  unfold slice. intros Hok H. destruct (_ && _); [|done]. simplify_eq. split; [|done].
  by apply Forall_take, Forall_drop.
Qed.

Definition map_item (up low : Z -> list Z) (b : bool) (r : Z + Z) : list (Z + Z) :=
  match r with
  | inl c => map inl (if b then up c else low c)
  | inr u => [inr u]
  end.

Lemma map_case_items up low s b :
  units (map_case up low s b) =
  concat (map reencode (concat (map (map_item up low b) (decode_utf16 (units s))))).
Proof.
  unfold map_case. cbn [units from_units].
  induction (decode_utf16 (units s)) as [|[c|u] rs IH]; [done|..]; cbn [map concat].
  - rewrite map_app, concat_app. simpl. by rewrite reencode_inl, IH.
  - rewrite map_app, concat_app. simpl. by rewrite IH.
Qed.

Lemma map_items_ok up low b rs :
  case_table up -> case_table low -> Forall item_ok rs ->
  Forall item_ok (concat (map (map_item up low b) rs)).
Proof.
  intros Hu Hl. induction 1 as [|[c|u] rs Hr Hrs IH]; [constructor|..]; cbn [map concat].
  - apply Forall_app. split; [|done]. apply Forall_map.
    destruct b; [apply (Hu c Hr)|apply (Hl c Hr)].
  - constructor; [done|apply IH].
Qed.

Lemma canonical_inl t rs : canonical (map inl t ++ rs) <-> canonical rs.
Proof. induction t as [|c t IH]; done. Qed.

Lemma map_items_canonical up low b rs :
  case_table up -> case_table low -> Forall item_ok rs -> canonical rs ->
  canonical (concat (map (map_item up low b) rs)).
Proof.
  intros Hu Hl. induction 1 as [|[c|u] rs Hr Hrs IH]; intros Hc; [done|..];
    cbn [map concat map_item].
  - apply canonical_inl. auto.
  - destruct Hc as [H1 H2]. simpl. split; [|auto].
    destruct rs as [|[c|v] rs]; [done|..|done]. cbn [map concat map_item].
    apply Forall_cons in Hrs as [Hc _].
    assert ((if b then up c else low c) <> []) by (destruct b; [apply (Hu c Hc)|apply (Hl c Hc)]).
    by destruct (if b then up c else low c).
Qed.

Lemma to_digit_bound r c d : 0 <= r -> to_digit r c = Some d -> 0 <= d < r.
Proof.
  unfold to_digit. intros Hr H. case_match; simplify_eq. ranges.
Qed.

Lemma radix_digits_bound s acc x :
  uint 16 acc -> radix_digits 16 s acc = Some x -> uint 16 x.
Proof.
  revert acc. induction s as [|c s IH]; intros acc Ha H; simplify_eq/=; [done|].
  destruct (to_digit 16 c) as [d|] eqn:Hd; [|done]. apply to_digit_bound in Hd; [|lia].
  cbn in H. case_match eqn:Hb; [|done]. apply (IH _) in H; [done|].
  apply Z.ltb_lt in Hb. unfold uint in *. lia.
Qed.

Lemma u16_from_str_radix_bound s x : u16_from_str_radix s 16 = Some x -> uint 16 x.
Proof.
  unfold u16_from_str_radix. intros H.
  repeat (case_match; try done); by apply radix_digits_bound in H.
Qed.

Lemma from_key_loop_ok fuel : forall t us,
  text_ok t -> units_ok us -> units_ok (from_key_loop fuel t us).
Proof.
  assert (units_ok [0xFDD0]) by (repeat constructor; done).
  induction fuel as [|fuel IH]; intros t us Ht Hus; [done|]. cbn [from_key_loop].
  destruct Ht as [|c t Hc Ht]; [done|].
  case_match; [|apply IH; [done|by apply Forall_app; split; [|apply encode_char_ok]]].
  destruct Ht as [|c2 t Hc2 Ht]; [apply IH; [constructor|by apply Forall_app]|].
  case_match; [apply IH; [done|by apply Forall_app]|].
  case_match.
  - case_match eqn:Hx.
    + apply IH; [by apply Forall_drop|]. apply Forall_app. split; [done|].
      apply u16_from_str_radix_bound in Hx. by repeat constructor; apply Hx.
    + apply IH; [by apply Forall_drop|]. apply Forall_app. split; [done|].
      apply Forall_app. split; [repeat constructor; done|].
      apply encode_units_ok. by apply Forall_take.
  - apply IH; [done|]. apply Forall_app. split; [done|]. by apply Forall_app; split; [|apply encode_char_ok].
Qed.

Lemma built_invariant s : built s -> units_ok (units s) /\ coherent s.
Proof.
  induction 1 as [us H|t H|s n H [IH1 IH2]|s H [IH1 IH2]|s a b r H [IH1 IH2] Hs
    |s t H1 [IH1 _] H2 [IH2 _]|s t H1 [IH1 _] H2 [IH2 _]|s c H [IH1 IH2] Hc|s n H [IH1 IH2]
    |s x y r H [IH1 IH2] Hs|up low s b H [IH1 IH2] Hu Hl|t H].
  - by split.
  - split; [by apply encode_units_ok|]. unfold coherent. simpl. by rewrite lossy_encode.
  - split; [by apply Forall_take|done].
  - unfold as_str. destruct (utf8 s) eqn:E; by split.
  - destruct (units_ok_slice s a b r) as [? E]; [done..|]. split; [done|].
    unfold coherent. by rewrite E.
  - split; [by apply Forall_app|done].
  - split; [by apply Forall_app|done].
  - split; [|done]. apply Forall_app. split; [done|].
    by apply encode_char_ok.
  - split; [|done]. simpl. apply Forall_concat. by apply Forall_replicate.
  - unfold trim_units in Hs. destruct (if x then _ else _) as [a| |]; [|done..].
    cbn [obind] in Hs. destruct (if y then _ else _) as [b| |]; [|done..]. cbn [obind] in Hs.
    destruct (units_ok_slice s a b r) as [? E]; [done..|]. split; [done|].
    unfold coherent. by rewrite E.
  - split; [|done]. rewrite map_case_items. apply reencode_units_ok.
    apply map_items_ok; [done..|]. by apply decode_items_ok.
  - split; [|done]. apply from_key_loop_ok; [done|constructor].
Qed.

(** ** Theorems *)

(** C36. A property key loses nothing: decoding the key of a string, in either
    its owned or its borrowed form, gives the string back, so two strings have
    the same key only when they have the same code units, whatever unpaired
    surrogates or escape markers they hold. *)
Theorem key_roundtrip s t :
  built s -> built t ->
  units (from_key (to_key s)) = units s /\
  units (from_key (cow_text (to_key_cow s))) = units s /\
  (to_key s = to_key t -> units s = units t).
Proof.
  intros [Hs Hc]%built_invariant [Ht _]%built_invariant.
  assert (cow_text (to_key_cow s) = to_key s) as Hcow.
  { unfold to_key_cow. rewrite (to_key_cow_loop_spec s (units s)) by (done || unfold len; lia).
    destruct (plain (units s)) eqn:Hp; [|done]. unfold to_key. rewrite plain_key by done.
    unfold as_str, coherent in *. destruct (utf8 s); done. }
  split_and!; [by apply from_key_to_key|rewrite Hcow; by apply from_key_to_key|].
  intros E. rewrite <- (from_key_to_key s Hs), <- (from_key_to_key t Ht). by rewrite E.
Qed.

Lemma key_roundtrip_witness :
  let s := from_units [0x61; 0xD800; 0xFDD0; 0xD83D; 0xDE00; 0xDC00] in
  let t := from_string [0xFDD0; 115; 68; 56; 48; 48] in
  units (from_key (to_key s)) = units s /\
  units (from_key (cow_text (to_key_cow s))) = units s /\
  (to_key s = to_key t -> units s = units t).
Proof.
  intros s t. apply key_roundtrip; [apply built_units|apply built_string];
    repeat constructor; done.
Defined.

(** The borrowed key is the owned key, and the borrowing branch is taken
    exactly for well-formed strings without the escape marker: the text of
    such a string is its own key. *)
Theorem to_key_cow_correct s :
  built s ->
  cow_text (to_key_cow s) = to_key s /\
  ((exists t, to_key_cow s = Borrowed t) <->
   (exists t, to_utf8 s = Some t /\ marker ∉ t)).
Proof.
  intros [Hs Hc]%built_invariant. unfold to_key_cow, to_utf8. rewrite <- plain_iff.
  rewrite (to_key_cow_loop_spec s (units s)) by (done || unfold len; lia).
  destruct (plain (units s)) eqn:Hp; split; try done.
  - unfold to_key. rewrite plain_key by done.
    unfold as_str, coherent in *. destruct (utf8 s); done.
  - split; [done|]. intros _. eauto.
  - split; [|done]. by intros [t ?].
Qed.

Lemma to_key_cow_correct_witness :
  let s := from_string [0x1F600; 0x61] in
  cow_text (to_key_cow s) = to_key s /\
  ((exists t, to_key_cow s = Borrowed t) <-> (exists t, to_utf8 s = Some t /\ marker ∉ t)).
Proof. intros s. apply to_key_cow_correct, built_string. repeat constructor; done. Defined.

(** The rendering cache is coherent: whatever sequence of operations built
    a string, every unit of it is a 16-bit value and [as_str] returns the lossy
    UTF-8 rendering of its current units, from the cache or computed, without
    changing the units. *)
Theorem utf8_cache_coherent s :
  built s ->
  units_ok (units s) /\ (as_str s).1 = from_utf16_lossy (units s) /\
  units (as_str s).2 = units s /\ as_str (as_str s).2 = as_str s.
Proof.
  intros [Hs Hc]%built_invariant. unfold coherent in Hc. unfold as_str.
  destruct (utf8 s) eqn:E; simpl; [rewrite E|]; by split_and!.
Qed.

Lemma utf8_cache_coherent_witness :
  let s := push (truncate (as_str (from_string [0x61; 0x1F600])).2 2) 0x62 in
  units_ok (units s) /\ (as_str s).1 = from_utf16_lossy (units s) /\
  units (as_str s).2 = units s /\ as_str (as_str s).2 = as_str s.
Proof.
  intros s. apply utf8_cache_coherent. apply built_push; [|done].
  apply built_truncate, built_as_str, built_string. repeat constructor; done.
Defined.

(** Text and code units convert without loss: text encodes to units that
    decode, strictly or lossily, to the same text, [to_utf8] succeeds exactly on
    the encodings of text and then returns that text, and the serialized form of
    any string reads back as the same units. *)
Theorem utf16_roundtrip s t :
  built s -> text_ok t ->
  to_utf8 (from_string t) = Some t /\ (as_str (from_units (encode_utf16 t))).1 = t /\
  (to_utf8 s = Some t <-> eq_str s t = true) /\
  units (deserialize (serialize s)) = units s.
Proof.
  intros [Hs _]%built_invariant Ht.
  assert (forall r, to_utf8 s = Some r -> encode_utf16 r = units s) as Hback.
  { intros r E%all_chars_Some. rewrite <- (reencode_decode (units s) Hs), E.
    symmetry. apply reencode_inl. }
  split_and!.
  - unfold to_utf8, from_utf16. simpl units. rewrite decode_encode by done. apply all_chars_inl.
  - by apply lossy_encode.
  - unfold eq_str. rewrite bool_decide_eq_true. split; [by intros ->%Hback|].
    intros E. unfold to_utf8, from_utf16. rewrite E, decode_encode by done. apply all_chars_inl.
  - unfold serialize. destruct (to_utf8 s) eqn:E; [|done]. simpl. by apply Hback.
Qed.

Lemma utf16_roundtrip_witness :
  let s := from_units [0xD83D; 0xDE00; 0xDC00] in
  let t := [0x1F600; 0xFFFF] in
  to_utf8 (from_string t) = Some t /\ (as_str (from_units (encode_utf16 t))).1 = t /\
  (to_utf8 s = Some t <-> eq_str s t = true) /\
  units (deserialize (serialize s)) = units s.
Proof.
  intros s t. apply utf16_roundtrip; [apply built_units|]; repeat constructor; done.
Defined.

(** Iteration by code points is decoding: no slice of the iterator panics,
    the slices are the encodings of the decoded items in order, so they
    concatenate to the whole string, and [code_point_at] reads the value of the
    item that starts at an index. *)
Theorem code_points_correct s i :
  built s ->
  code_points s = map (fun r => Ok (from_units (reencode r))) (decode_utf16 (units s)) /\
  concat (map reencode (decode_utf16 (units s))) = units s /\
  code_point_at s i =
    match decode_utf16 (drop i (units s)) with
    | inl c :: _ => Some c
    | inr u :: _ => Some u
    | [] => None
    end.
Proof.
  intros [Hs _]%built_invariant. split_and!.
  - by apply (code_points_loop_spec s (units s)); [..|unfold len; lia].
  - by apply reencode_decode.
  - apply code_point_at_spec.
Qed.

Lemma code_points_correct_witness :
  let s := from_units [0xD83D; 0xDE00; 0xDC00; 0x61] in
  code_points s = map (fun r => Ok (from_units (reencode r))) (decode_utf16 (units s)) /\
  concat (map reencode (decode_utf16 (units s))) = units s /\
  code_point_at s 1 =
    match decode_utf16 (drop 1 (units s)) with
    | inl c :: _ => Some c
    | inr u :: _ => Some u
    | [] => None
    end.
Proof. intros s. apply code_points_correct, built_units. repeat constructor; done. Defined.

(** [find_from] returns the least position not before [start] at which
    the needle occurs, and [None] exactly when there is no such position. *)
Theorem find_from_correct s needle start :
  match find_from s needle start with
  | Some k => (start <= k)%nat /\ occurs (units s) (units needle) k /\
              forall j, (start <= j < k)%nat -> ~ occurs (units s) (units needle) j
  | None => forall j, (start <= j)%nat -> ~ occurs (units s) (units needle) j
  end.
Proof.
  unfold find_from, is_empty, len. case Nat.ltb_spec; intros Hlt.
  { intros j Hj [? _]. lia. }
  destruct (units needle) as [|x n] eqn:E.
  { split_and!; [lia| |intros; lia]. split; simpl; [lia|done]. }
  rewrite <- E. pose proof (window_position_spec (units needle) (drop start (units s)) 0) as H.
  destruct (window_position _ _ _) as [k|]; cbn [fmap option_fmap option_map].
  - destruct H as (j & -> & Ho & Hmin). apply occurs_drop in Ho; [|done].
    split_and!; [lia|done|]. intros j' Hj' Ho'. apply (Hmin (j' - start)%nat); [lia|].
    apply occurs_drop; [done|]. by replace (start + (j' - start))%nat with j' by lia.
  - intros j Hj Ho. apply (H (j - start)%nat). apply occurs_drop; [done|].
    by replace (start + (j - start))%nat with j by lia.
Qed.

(** [trim_units] never indexes out of range: it removes a prefix and a
    suffix of white space, each only when it is asked to, and what is left
    neither starts nor ends with white space on a trimmed side. *)
Theorem trim_units_correct s start end_ :
  exists pre suf r,
    trim_units s start end_ = Ok r /\ units s = pre ++ units r ++ suf /\
    Forall (fun u => whitespace u = true) (pre ++ suf) /\
    (start = false -> pre = []) /\ (end_ = false -> suf = []) /\
    (start = true -> forall u rest, units r = u :: rest -> whitespace u = false) /\
    (end_ = true -> forall u rest, units r = rest ++ [u] -> whitespace u = false).
Proof.
  unfold trim_units, len. set (us := units s).
  assert (exists a, (if start then trim_a (length us) us 0 (length us) else Ok 0%nat) = Ok a /\
    (0 <= a <= length us)%nat /\
    (forall i u, (0 <= i < a)%nat -> us !! i = Some u -> whitespace u = true) /\
    (start = false -> a = 0%nat) /\
    (start = true -> a = length us \/ exists u, us !! a = Some u /\ whitespace u = false))
    as (a & -> & Ha & Hpre & Hs0 & Hs1).
  { destruct start.
    - destruct (trim_a_spec us (length us) (length us) 0) as (k & -> & ? & ? & ?); [lia..|].
      exists k. naive_solver lia.
    - exists 0%nat. naive_solver lia. }
  cbn [obind].
  assert (exists b, (if end_ then trim_b (length us - a) us a (length us) else Ok (length us))
                    = Ok b /\
    (a <= b <= length us)%nat /\
    (forall i u, (b <= i < length us)%nat -> us !! i = Some u -> whitespace u = true) /\
    (end_ = false -> b = length us) /\
    (end_ = true -> b = a \/ exists u, us !! (b - 1)%nat = Some u /\ whitespace u = false))
    as (b & -> & Hb & Hsuf & He0 & He1).
  { destruct end_.
    - destruct (trim_b_spec us a (length us - a) (length us)) as (k & -> & ? & ? & ?); [lia..|].
      exists k. naive_solver lia.
    - exists (length us). naive_solver lia. }
  cbn [obind]. exists (take a us), (drop b us), (from_units (take (b - a) (drop a us))).
  split_and!.
  - by apply slice_Ok.
  - by apply split3.
  - apply Forall_app. split.
    + rewrite <- (drop_0 us), <- (Nat.sub_0_r a). by apply trim_all.
    + rewrite <- (firstn_all (drop b us)), length_drop. by apply trim_all.
  - intros E. by rewrite (Hs0 E).
  - intros E. rewrite (He0 E). apply drop_all.
  - intros E u rest Hr. cbn [units from_units] in Hr.
    assert (take (b - a) (drop a us) !! 0%nat = Some u) as Hl by by rewrite Hr.
    apply lookup_take_Some in Hl as [Hl Hlt]. rewrite lookup_drop, Nat.add_0_r in Hl.
    destruct (Hs1 E) as [->|(v & Hv & Hw)]; [lia|congruence].
  - intros E u rest Hr. cbn [units from_units] in Hr.
    assert (length rest = b - a - 1)%nat as Hlen.
    { apply (f_equal length) in Hr. rewrite length_take, length_drop, length_app in Hr.
      simpl in Hr. lia. }
    assert (take (b - a) (drop a us) !! length rest = Some u) as Hl
      by (rewrite Hr; by apply list_lookup_middle).
    apply lookup_take_Some in Hl as [Hl Hlt]. rewrite lookup_drop in Hl.
    destruct (He1 E) as [->|(v & Hv & Hw)]; [lia|].
    replace (a + length rest)%nat with (b - 1)%nat in Hl by lia. congruence.
Qed.

(** Case mapping works on characters and leaves the rest alone: the
    decoding of the mapped string is the decoding of the string with every
    character replaced by its table entry and every unpaired surrogate kept;
    no replacement joins two surrogates into a new pair. *)
Theorem map_case_correct up low s b :
  built s -> case_table up -> case_table low ->
  decode_utf16 (units (map_case up low s b)) =
  concat (map (map_item up low b) (decode_utf16 (units s))).
Proof.
  intros [Hs _]%built_invariant Hu Hl. rewrite map_case_items. apply decode_reencode.
  - apply map_items_ok; [done..|]. by apply decode_items_ok.
  - apply map_items_canonical; [done..| |apply decode_canonical]. by apply decode_items_ok.
Qed.

(** The ASCII part of the upper-case table, and the sharp s that maps to two
    letters. *)
Definition ascii_upper (c : Z) : list Z :=
  if in_range 97 122 c then [c - 32] else if c =? 0xDF then [83; 83] else [c].

Lemma map_case_correct_witness :
  let s := from_units [0xD83D; 0x61; 0xDE00; 0xDF] in
  decode_utf16 (units (map_case ascii_upper (fun c => [c]) s true)) =
  concat (map (map_item ascii_upper (fun c => [c]) true) (decode_utf16 (units s))).
Proof.
  intros s. apply map_case_correct; [apply built_units; repeat constructor; done|..].
  - intros c Hc. unfold ascii_upper. destruct (in_range 97 122 c) eqn:E.
    + split; [|done]. apply Forall_singleton. ranges.
    + destruct (c =? 223); (split; [|done]); [|by apply Forall_singleton].
      apply Forall_cons; split; [done|by apply Forall_singleton].
  - intros c Hc. split; [|done]. by apply Forall_singleton.
Defined.
