(* ===== verification/Token.v ===== *)
(** Tokens and source locations: the data of [lexer.rs] and [span.rs].

    A keyword of the source's [Token] keeps its name; [Token::String] is
    [TString].  A floating-point literal is a [spec_float], a [String] the list of
    its characters. *)
From stdpp Require Import prelude list strings.
From Stdlib Require Import ZArith Lia SpecFloat.
From S2P Require Import Prelude JsString.
Local Open Scope Z_scope.

Module Token.

Abbreviation Text := (list Z) (only parsing).
Abbreviation JsString := JsString.JsString (only parsing).

(** ** Tokens *)

Record TemplateChunk := {
  invalid_escape : bool;
  cooked : JsString;
  raw : JsString;
}.

Inductive Token :=
| Number (value : spec_float)
| LegacyNumber (value : spec_float)
| BigInt (digits : Text)
| Unknown (c : Z)
| TString (value : JsString)
| EscapedString (value : JsString)
| LegacyString (value : JsString)
| Identifier (name : Text)
| EscapedIdentifier (name : Text)
| Plus | Minus | Star | Slash
| Regex (pattern : JsString) (flags : Text)
| Percent | PlusPlus | MinusMinus
| Equal | PlusEqual | MinusEqual | StarEqual | SlashEqual
| EqualEqual | NotEqual | EqualEqualEqual | NotEqualEqual
| Less | Greater | LessEqual | GreaterEqual
| And | Or | Not
| LParen | RParen | LBrace | RBrace | LBracket | RBracket
| Semicolon | Comma | Dot | Colon | Question | Arrow | DotDotDot
| KwVar | KwLet | KwConst | KwFunction | KwReturn | KwIf | KwElse | KwFor | KwWhile | KwWith
| KwDo | KwSwitch | KwCase | KwDefault | KwBreak | KwContinue | KwClass | KwExtends | KwNew
| KwThis | KwSuper | KwImport | KwExport | KwFrom | KwAs | KwAsync | KwAwait | KwYield | KwTry
| KwCatch | KwFinally | KwThrow | KwTypeof | KwInstanceof | KwIn | KwOf | KwTrue | KwFalse
| KwNull | KwUndefined | KwDelete | KwVoid | KwDebugger | KwEnum | KwStatic | KwGet | KwSet
| KwConstructor
| BitAnd | BitOr | BitXor | Tilde
| Hash
| PrivateIdentifier (name : Text)
| Shl | Shr | UShr | StarStar | QuestionQuestion
| AndEqual | OrEqual | NullishEqual
| QuestionDot
| PercentEqual | AmpEqual | PipeEqual | CaretEqual | ShlEqual | ShrEqual | UShrEqual
| StarStarEqual
| Backtick
| TemplateQuasi (chunk : TemplateChunk)
| DollarLBrace
| EOF.

(** The words with a token of their own. *)
Definition keywords : list (Text * Token) :=
  [(chars "var", KwVar); (chars "let", KwLet); (chars "const", KwConst);
   (chars "function", KwFunction); (chars "return", KwReturn); (chars "if", KwIf);
   (chars "else", KwElse); (chars "for", KwFor); (chars "while", KwWhile);
   (chars "with", KwWith); (chars "do", KwDo); (chars "switch", KwSwitch);
   (chars "case", KwCase); (chars "default", KwDefault); (chars "break", KwBreak);
   (chars "continue", KwContinue); (chars "class", KwClass); (chars "extends", KwExtends);
   (chars "new", KwNew); (chars "this", KwThis); (chars "super", KwSuper);
   (chars "import", KwImport); (chars "export", KwExport); (chars "from", KwFrom);
   (chars "as", KwAs); (chars "async", KwAsync); (chars "await", KwAwait);
   (chars "yield", KwYield); (chars "try", KwTry); (chars "catch", KwCatch);
   (chars "finally", KwFinally); (chars "throw", KwThrow); (chars "typeof", KwTypeof);
   (chars "instanceof", KwInstanceof); (chars "in", KwIn); (chars "of", KwOf);
   (chars "true", KwTrue); (chars "false", KwFalse); (chars "null", KwNull);
   (chars "undefined", KwUndefined); (chars "delete", KwDelete); (chars "void", KwVoid);
   (chars "debugger", KwDebugger); (chars "enum", KwEnum); (chars "static", KwStatic);
   (chars "get", KwGet); (chars "set", KwSet); (chars "constructor", KwConstructor)].

(** [Token::identifier_name] *)
Definition identifier_name (t : Token) : option Text :=
  match t with
  | Identifier name | EscapedIdentifier name => Some name
  | KwVar => Some (chars "var")
  | KwLet => Some (chars "let")
  | KwConst => Some (chars "const")
  | KwFunction => Some (chars "function")
  | KwReturn => Some (chars "return")
  | KwIf => Some (chars "if")
  | KwElse => Some (chars "else")
  | KwFor => Some (chars "for")
  | KwWhile => Some (chars "while")
  | KwWith => Some (chars "with")
  | KwDo => Some (chars "do")
  | KwSwitch => Some (chars "switch")
  | KwCase => Some (chars "case")
  | KwDefault => Some (chars "default")
  | KwBreak => Some (chars "break")
  | KwContinue => Some (chars "continue")
  | KwClass => Some (chars "class")
  | KwExtends => Some (chars "extends")
  | KwNew => Some (chars "new")
  | KwThis => Some (chars "this")
  | KwSuper => Some (chars "super")
  | KwImport => Some (chars "import")
  | KwExport => Some (chars "export")
  | KwFrom => Some (chars "from")
  | KwAs => Some (chars "as")
  | KwAsync => Some (chars "async")
  | KwAwait => Some (chars "await")
  | KwYield => Some (chars "yield")
  | KwTry => Some (chars "try")
  | KwCatch => Some (chars "catch")
  | KwFinally => Some (chars "finally")
  | KwThrow => Some (chars "throw")
  | KwTypeof => Some (chars "typeof")
  | KwInstanceof => Some (chars "instanceof")
  | KwIn => Some (chars "in")
  | KwOf => Some (chars "of")
  | KwTrue => Some (chars "true")
  | KwFalse => Some (chars "false")
  | KwNull => Some (chars "null")
  | KwUndefined => Some (chars "undefined")
  | KwDelete => Some (chars "delete")
  | KwVoid => Some (chars "void")
  | KwDebugger => Some (chars "debugger")
  | KwEnum => Some (chars "enum")
  | KwStatic => Some (chars "static")
  | KwGet => Some (chars "get")
  | KwSet => Some (chars "set")
  | KwConstructor => Some (chars "constructor")
  | _ => None
  end.

(** [identifier_name().is_some()] *)
Definition is_name (t : Token) : bool :=
  match identifier_name t with Some _ => true | None => false end.

(** ** Spans *)

Record Span := {
  span_line : nat;
  span_col : nat;
  end_line : nat;
  source_range : option (nat * nat);
}.

Definition span_new (line col : nat) : Span :=
  {| span_line := line; span_col := col; end_line := line; source_range := None |}.

Definition span_unknown : Span :=
  {| span_line := 0; span_col := 0; end_line := 0; source_range := None |}.

Definition is_unknown (s : Span) : bool := (span_line s =? 0)%nat.

Definition with_source_range (s : Span) (start end_ : nat) : Span :=
  {| span_line := span_line s; span_col := span_col s; end_line := end_line s;
     source_range := Some (start, end_) |}.

Abbreviation SpannedToken := (Token * Span)%type (only parsing).

End Token.
