(* ===== verification/Lexer.v ===== *)
(** The lexer: [lexer.rs].

    The fields of the source's [Lexer] are three records: [Source] holds those
    that a constructor sets for good, [LexicalGoal] those that tell a division from a
    regular expression (the last tokens, the open delimiters, functions and class
    bodies), [Lexer] the cursor and the queues.  A [Vec] used as a stack is the
    list from its top.  A computation is a state transformer whose outcome is
    [Panic] where the source would index out of range, unwrap nothing or leave the
    range of an [i32]; a loop takes fuel and ends in [Err LexFuel] without it.
    The tables of identifier characters are another crate's and an argument. *)
From stdpp Require Import prelude list strings.
From Stdlib Require Import ZArith Lia SpecFloat Ascii.
From S2P Require Import Prelude JsString Token.
Import Token.
Local Open Scope Z_scope.
Local Open Scope rust_scope.

Module Lexer.

(** ** Decimal text as a floating-point number *)

Definition f64_add : spec_float -> spec_float -> spec_float := SFadd 53 1024.
Definition f64_mul : spec_float -> spec_float -> spec_float := SFmul 53 1024.
Definition f64_from (n : Z) : spec_float := binary_normalize 53 1024 n 0 false.

(** The double nearest to [m / d], for a positive [d]: the quotient with at least
    two bits more than a significand holds, its last bit set when it is inexact. *)
Definition f64_ratio (m d : Z) : spec_float :=
  let k := Z.max 0 (Z.log2 d - Z.log2 m + 56) in
  let q := Z.shiftl m k / d in
  let sticky := if Z.shiftl m k mod d =? 0 then 0 else 1 in
  binary_normalize 53 1024 (2 * q + sticky) (- k - 1) false.

Fixpoint decimal (l : list Z) (acc : Z) : Z :=
  match l with
  | [] => acc
  | c :: l => decimal l (10 * acc + (c - 48))
  end.

Fixpoint take_while (p : Z -> bool) (l : list Z) : list Z :=
  match l with
  | c :: l => if p c then c :: take_while p l else []
  | [] => []
  end.

(** The digits [whole.fraction], scaled by a power of ten. *)
Definition f64_decimal (whole fraction : list Z) (exponent : Z) : spec_float :=
  let m := decimal (whole ++ fraction) 0 in
  let e := exponent - Z.of_nat (length fraction) in
  if 0 <=? e then f64_from (m * 10 ^ e) else f64_ratio m (10 ^ (- e)).

(** [str::parse::<f64>] for a text without a sign that names no special value. *)
Definition parse_f64 (text : list Z) : option spec_float :=
  let whole := take_while is_ascii_digit text in
  let rest := drop (length whole) text in
  let fraction :=
    match rest with
    | 46 :: rest => take_while is_ascii_digit rest
    | _ => []
    end in
  let rest :=
    match rest with
    | 46 :: rest => drop (length fraction) rest
    | _ => rest
    end in
  match whole ++ fraction with
  | [] => None
  | _ =>
      match rest with
      | [] => Some (f64_decimal whole fraction 0)
      | e :: rest =>
          if negb ((e =? chr "e") || (e =? chr "E")) then None
          else
            let negative := match rest with 45 :: _ => true | _ => false end in
            let digits := match rest with 43 :: rest | 45 :: rest => rest | _ => rest end in
            if match digits with [] => true | _ => false end then None
            else if negb (forallb is_ascii_digit digits) then None
            else
              let n := decimal digits 0 in
              Some (f64_decimal whole fraction (if negative then - n else n))
      end
  end.

(** ** State *)

Record LexicalCallable := {
  callable_depth : nat;
  body_depth : option nat;
  expression : bool;
  is_async : bool;
  is_generator : bool;
  arrow : bool;
  field : bool;
}.

Record LexicalMember := {
  member_depth : nat;
  head : bool;
  async_names : nat;
  generator : bool;
  class : bool;
}.

Record Source := {
  src : list Z;
  source_offsets : list nat;
  encoded_source : bool;
  module_goal : bool;
}.

Record LexicalGoal := {
  previous : option Token;
  before_previous : option Token;
  async_statement_start : bool;
  async_line_break : bool;
  last_token_end_line : nat;
  current_line_break : bool;
  delimiters : list (Token * bool);
  closed_statement : bool;
  conditional_depths : list nat;
  statement_colon : bool;
  callables : list LexicalCallable;
  members : list LexicalMember;
  async_arrow_depth : option nat;
  pending_class : option (nat * bool);
  function_body : option bool;
}.

Record Lexer := {
  pos : nat;
  line : nat;
  col : nat;
  pending : list Token;
  lexical_errors : list SpannedToken;
  pending_spans : list Span;
  line_has_token : bool;
  goal : LexicalGoal;
}.

(** *** Constructors *)

Definition len_utf16 (c : Z) : nat := length (JsString.encode_char c).

(** The offset of each character, and of the end. *)
Fixpoint offsets (widths : list nat) (offset : nat) : list nat :=
  match widths with
  | [] => [offset]
  | w :: widths => offset :: offsets widths (offset + w)
  end.

Definition new (s : Text) : Source :=
  {| src := s;
     source_offsets := offsets (map len_utf16 s) 0;
     encoded_source := false;
     module_goal := false |}.

Definition with_module_goal (L : Source) (module : bool) : Source :=
  {| src := src L; source_offsets := source_offsets L; encoded_source := encoded_source L;
     module_goal := module |}.

(** How many characters of the key a decoded scalar takes, and how many units. *)
Definition encoded_width (scalar : Z + Z) : nat * nat :=
  match scalar with
  | inl c => if c =? JsString.marker then (2, 1)%nat else (1%nat, len_utf16 c)
  | inr _ => (6, 1)%nat
  end.

Fixpoint encoded_offsets (scalars : list (Z + Z)) (offset : nat) : list nat :=
  match scalars with
  | [] => [offset]
  | scalar :: scalars =>
      let (encoded, units) := encoded_width scalar in
      replicate encoded offset ++ encoded_offsets scalars (offset + units)
  end.

Definition from_js_string (source : JsString) : Source :=
  let lexer := new (JsString.to_key source) in
  {| src := src lexer;
     source_offsets := encoded_offsets (JsString.decode_utf16 (JsString.units source)) 0;
     encoded_source := true;
     module_goal := module_goal lexer |}.

Definition start_goal : LexicalGoal :=
  {| previous := None; before_previous := None; async_statement_start := false;
     async_line_break := false; last_token_end_line := 1; current_line_break := false;
     delimiters := []; closed_statement := false; conditional_depths := [];
     statement_colon := false; callables := []; members := []; async_arrow_depth := None;
     pending_class := None; function_body := None |}.

Definition start : Lexer :=
  {| pos := 0; line := 1; col := 1; pending := []; lexical_errors := []; pending_spans := [];
     line_has_token := false; goal := start_goal |}.

(** *** Assignments to a field *)

Definition set_previous (x : option Token) (g : LexicalGoal) : LexicalGoal :=
  {| previous := x; before_previous := before_previous g;
     async_statement_start := async_statement_start g;
     async_line_break := async_line_break g; last_token_end_line := last_token_end_line g;
     current_line_break := current_line_break g; delimiters := delimiters g;
     closed_statement := closed_statement g; conditional_depths := conditional_depths g;
     statement_colon := statement_colon g; callables := callables g; members := members g;
     async_arrow_depth := async_arrow_depth g; pending_class := pending_class g;
     function_body := function_body g |}.
Definition set_before_previous (x : option Token) (g : LexicalGoal) : LexicalGoal :=
  {| previous := previous g; before_previous := x;
     async_statement_start := async_statement_start g;
     async_line_break := async_line_break g; last_token_end_line := last_token_end_line g;
     current_line_break := current_line_break g; delimiters := delimiters g;
     closed_statement := closed_statement g; conditional_depths := conditional_depths g;
     statement_colon := statement_colon g; callables := callables g; members := members g;
     async_arrow_depth := async_arrow_depth g; pending_class := pending_class g;
     function_body := function_body g |}.
Definition set_async_statement_start (x : bool) (g : LexicalGoal) : LexicalGoal :=
  {| previous := previous g; before_previous := before_previous g;
     async_statement_start := x; async_line_break := async_line_break g;
     last_token_end_line := last_token_end_line g;
     current_line_break := current_line_break g; delimiters := delimiters g;
     closed_statement := closed_statement g; conditional_depths := conditional_depths g;
     statement_colon := statement_colon g; callables := callables g; members := members g;
     async_arrow_depth := async_arrow_depth g; pending_class := pending_class g;
     function_body := function_body g |}.
Definition set_async_line_break (x : bool) (g : LexicalGoal) : LexicalGoal :=
  {| previous := previous g; before_previous := before_previous g;
     async_statement_start := async_statement_start g; async_line_break := x;
     last_token_end_line := last_token_end_line g;
     current_line_break := current_line_break g; delimiters := delimiters g;
     closed_statement := closed_statement g; conditional_depths := conditional_depths g;
     statement_colon := statement_colon g; callables := callables g; members := members g;
     async_arrow_depth := async_arrow_depth g; pending_class := pending_class g;
     function_body := function_body g |}.
Definition set_last_token_end_line (x : nat) (g : LexicalGoal) : LexicalGoal :=
  {| previous := previous g; before_previous := before_previous g;
     async_statement_start := async_statement_start g;
     async_line_break := async_line_break g; last_token_end_line := x;
     current_line_break := current_line_break g; delimiters := delimiters g;
     closed_statement := closed_statement g; conditional_depths := conditional_depths g;
     statement_colon := statement_colon g; callables := callables g; members := members g;
     async_arrow_depth := async_arrow_depth g; pending_class := pending_class g;
     function_body := function_body g |}.
Definition set_current_line_break (x : bool) (g : LexicalGoal) : LexicalGoal :=
  {| previous := previous g; before_previous := before_previous g;
     async_statement_start := async_statement_start g;
     async_line_break := async_line_break g; last_token_end_line := last_token_end_line g;
     current_line_break := x; delimiters := delimiters g;
     closed_statement := closed_statement g; conditional_depths := conditional_depths g;
     statement_colon := statement_colon g; callables := callables g; members := members g;
     async_arrow_depth := async_arrow_depth g; pending_class := pending_class g;
     function_body := function_body g |}.
Definition set_delimiters (x : list (Token * bool)) (g : LexicalGoal) : LexicalGoal :=
  {| previous := previous g; before_previous := before_previous g;
     async_statement_start := async_statement_start g;
     async_line_break := async_line_break g; last_token_end_line := last_token_end_line g;
     current_line_break := current_line_break g; delimiters := x;
     closed_statement := closed_statement g; conditional_depths := conditional_depths g;
     statement_colon := statement_colon g; callables := callables g; members := members g;
     async_arrow_depth := async_arrow_depth g; pending_class := pending_class g;
     function_body := function_body g |}.
Definition set_closed_statement (x : bool) (g : LexicalGoal) : LexicalGoal :=
  {| previous := previous g; before_previous := before_previous g;
     async_statement_start := async_statement_start g;
     async_line_break := async_line_break g; last_token_end_line := last_token_end_line g;
     current_line_break := current_line_break g; delimiters := delimiters g;
     closed_statement := x; conditional_depths := conditional_depths g;
     statement_colon := statement_colon g; callables := callables g; members := members g;
     async_arrow_depth := async_arrow_depth g; pending_class := pending_class g;
     function_body := function_body g |}.
Definition set_conditional_depths (x : list nat) (g : LexicalGoal) : LexicalGoal :=
  {| previous := previous g; before_previous := before_previous g;
     async_statement_start := async_statement_start g;
     async_line_break := async_line_break g; last_token_end_line := last_token_end_line g;
     current_line_break := current_line_break g; delimiters := delimiters g;
     closed_statement := closed_statement g; conditional_depths := x;
     statement_colon := statement_colon g; callables := callables g; members := members g;
     async_arrow_depth := async_arrow_depth g; pending_class := pending_class g;
     function_body := function_body g |}.
Definition set_statement_colon (x : bool) (g : LexicalGoal) : LexicalGoal :=
  {| previous := previous g; before_previous := before_previous g;
     async_statement_start := async_statement_start g;
     async_line_break := async_line_break g; last_token_end_line := last_token_end_line g;
     current_line_break := current_line_break g; delimiters := delimiters g;
     closed_statement := closed_statement g; conditional_depths := conditional_depths g;
     statement_colon := x; callables := callables g; members := members g;
     async_arrow_depth := async_arrow_depth g; pending_class := pending_class g;
     function_body := function_body g |}.
Definition set_callables (x : list LexicalCallable) (g : LexicalGoal) : LexicalGoal :=
  {| previous := previous g; before_previous := before_previous g;
     async_statement_start := async_statement_start g;
     async_line_break := async_line_break g; last_token_end_line := last_token_end_line g;
     current_line_break := current_line_break g; delimiters := delimiters g;
     closed_statement := closed_statement g; conditional_depths := conditional_depths g;
     statement_colon := statement_colon g; callables := x; members := members g;
     async_arrow_depth := async_arrow_depth g; pending_class := pending_class g;
     function_body := function_body g |}.
Definition set_members (x : list LexicalMember) (g : LexicalGoal) : LexicalGoal :=
  {| previous := previous g; before_previous := before_previous g;
     async_statement_start := async_statement_start g;
     async_line_break := async_line_break g; last_token_end_line := last_token_end_line g;
     current_line_break := current_line_break g; delimiters := delimiters g;
     closed_statement := closed_statement g; conditional_depths := conditional_depths g;
     statement_colon := statement_colon g; callables := callables g; members := x;
     async_arrow_depth := async_arrow_depth g; pending_class := pending_class g;
     function_body := function_body g |}.
Definition set_async_arrow_depth (x : option nat) (g : LexicalGoal) : LexicalGoal :=
  {| previous := previous g; before_previous := before_previous g;
     async_statement_start := async_statement_start g;
     async_line_break := async_line_break g; last_token_end_line := last_token_end_line g;
     current_line_break := current_line_break g; delimiters := delimiters g;
     closed_statement := closed_statement g; conditional_depths := conditional_depths g;
     statement_colon := statement_colon g; callables := callables g; members := members g;
     async_arrow_depth := x; pending_class := pending_class g;
     function_body := function_body g |}.
Definition set_pending_class (x : option (nat * bool)) (g : LexicalGoal) : LexicalGoal :=
  {| previous := previous g; before_previous := before_previous g;
     async_statement_start := async_statement_start g;
     async_line_break := async_line_break g; last_token_end_line := last_token_end_line g;
     current_line_break := current_line_break g; delimiters := delimiters g;
     closed_statement := closed_statement g; conditional_depths := conditional_depths g;
     statement_colon := statement_colon g; callables := callables g; members := members g;
     async_arrow_depth := async_arrow_depth g; pending_class := x;
     function_body := function_body g |}.
Definition set_function_body (x : option bool) (g : LexicalGoal) : LexicalGoal :=
  {| previous := previous g; before_previous := before_previous g;
     async_statement_start := async_statement_start g;
     async_line_break := async_line_break g; last_token_end_line := last_token_end_line g;
     current_line_break := current_line_break g; delimiters := delimiters g;
     closed_statement := closed_statement g; conditional_depths := conditional_depths g;
     statement_colon := statement_colon g; callables := callables g; members := members g;
     async_arrow_depth := async_arrow_depth g; pending_class := pending_class g;
     function_body := x |}.
Definition set_pos (x : nat) (s : Lexer) : Lexer :=
  {| pos := x; line := line s; col := col s; pending := pending s;
     lexical_errors := lexical_errors s; pending_spans := pending_spans s;
     line_has_token := line_has_token s; goal := goal s |}.
Definition set_line (x : nat) (s : Lexer) : Lexer :=
  {| pos := pos s; line := x; col := col s; pending := pending s;
     lexical_errors := lexical_errors s; pending_spans := pending_spans s;
     line_has_token := line_has_token s; goal := goal s |}.
Definition set_col (x : nat) (s : Lexer) : Lexer :=
  {| pos := pos s; line := line s; col := x; pending := pending s;
     lexical_errors := lexical_errors s; pending_spans := pending_spans s;
     line_has_token := line_has_token s; goal := goal s |}.
Definition set_pending (x : list Token) (s : Lexer) : Lexer :=
  {| pos := pos s; line := line s; col := col s; pending := x;
     lexical_errors := lexical_errors s; pending_spans := pending_spans s;
     line_has_token := line_has_token s; goal := goal s |}.
Definition set_lexical_errors (x : list SpannedToken) (s : Lexer) : Lexer :=
  {| pos := pos s; line := line s; col := col s; pending := pending s; lexical_errors := x;
     pending_spans := pending_spans s; line_has_token := line_has_token s; goal := goal s |}.
Definition set_pending_spans (x : list Span) (s : Lexer) : Lexer :=
  {| pos := pos s; line := line s; col := col s; pending := pending s;
     lexical_errors := lexical_errors s; pending_spans := x;
     line_has_token := line_has_token s; goal := goal s |}.
Definition set_line_has_token (x : bool) (s : Lexer) : Lexer :=
  {| pos := pos s; line := line s; col := col s; pending := pending s;
     lexical_errors := lexical_errors s; pending_spans := pending_spans s;
     line_has_token := x; goal := goal s |}.
Definition set_goal (x : LexicalGoal) (s : Lexer) : Lexer :=
  {| pos := pos s; line := line s; col := col s; pending := pending s;
     lexical_errors := lexical_errors s; pending_spans := pending_spans s;
     line_has_token := line_has_token s; goal := x |}.

(** ** The lexical goal: what a slash begins *)

Inductive LexError := LexFuel.

Fixpoint pop_while {A} (p : A -> bool) (l : list A) : list A :=
  match l with
  | x :: l' => if p x then pop_while p l' else l
  | [] => []
  end.

Definition last_is {A} (p : A -> bool) (l : list A) : bool :=
  match l with x :: _ => p x | [] => false end.

Definition update_last {A} (f : A -> A) (l : list A) : list A :=
  match l with x :: l => f x :: l | [] => [] end.

Definition matches (p : Token -> bool) (t : option Token) : bool :=
  match t with Some t => p t | None => false end.

Definition depth (g : LexicalGoal) : nat := length (delimiters g).

Definition is_dot (t : Token) : bool := match t with Dot | QuestionDot => true | _ => false end.
Definition is_kw_async (t : Token) : bool := match t with KwAsync => true | _ => false end.
Definition is_arrow (t : Token) : bool := match t with Arrow => true | _ => false end.

Definition no_body (c : LexicalCallable) : bool :=
  match body_depth c with None => true | Some _ => false end.

Definition statement_start (g : LexicalGoal) : bool :=
  match previous g with
  | None => true
  | Some (Semicolon | LBrace | KwElse | KwExport | KwDefault) => true
  | Some (RBrace | RParen) => closed_statement g
  | Some _ => false
  end.

(** A new line in a class body after a field without a semicolon. *)
Definition field_boundary (g : LexicalGoal) (token : Token) : bool :=
  last_is (fun m => class m && (member_depth m =? depth g)%nat && negb (head m)) (members g)
  && current_line_break g
  && (is_name token && negb match token with KwIn | KwInstanceof => true | _ => false end
      || match token with
         | PrivateIdentifier _ | TString _ | EscapedString _ | Number _ | BigInt _ => true
         | _ => false
         end)
  && matches (fun token =>
       is_name token
       || match token with
          | Number _ | BigInt _ | TString _ | EscapedString _
          | RParen | RBracket | RBrace | Backtick => true
          | _ => false
          end) (previous g).

(** The member that follows starts afresh. *)
Definition new_head (m : LexicalMember) : LexicalMember :=
  {| member_depth := member_depth m; head := true; async_names := 0; generator := false;
     class := class m |}.
Definition set_head (x : bool) (m : LexicalMember) : LexicalMember :=
  {| member_depth := member_depth m; head := x; async_names := async_names m;
     generator := generator m; class := class m |}.
Definition set_async_names (x : nat) (m : LexicalMember) : LexicalMember :=
  {| member_depth := member_depth m; head := head m; async_names := x;
     generator := generator m; class := class m |}.
Definition set_generator (x : bool) (m : LexicalMember) : LexicalMember :=
  {| member_depth := member_depth m; head := head m; async_names := async_names m;
     generator := x; class := class m |}.

Definition set_is_generator (x : bool) (c : LexicalCallable) : LexicalCallable :=
  {| callable_depth := callable_depth c; body_depth := body_depth c;
     expression := expression c; is_async := is_async c; is_generator := x;
     arrow := arrow c; field := field c |}.
Definition set_body_depth (x : option nat) (c : LexicalCallable) : LexicalCallable :=
  {| callable_depth := callable_depth c; body_depth := x;
     expression := expression c; is_async := is_async c; is_generator := is_generator c;
     arrow := arrow c; field := field c |}.

Definition push_callable (c : LexicalCallable) (g : LexicalGoal) : LexicalGoal :=
  set_callables (c :: callables g) g.

(** Concise arrow bodies and field initializers that end at this depth. *)
Definition pop_initializers (g : LexicalGoal) : LexicalGoal :=
  set_callables
    (pop_while (fun c => (field c || arrow c) && no_body c && (callable_depth c =? depth g)%nat)
       (callables g)) g.

Definition finish_concise_arrows (g : LexicalGoal) : LexicalGoal :=
  set_callables
    (pop_while (fun c => arrow c && no_body c && (depth g <? callable_depth c)%nat)
       (callables g)) g.

Definition observe_boundary (g : LexicalGoal) (token : Token) : LexicalGoal :=
  if field_boundary g token then
    let g := pop_initializers g in set_members (update_last new_head (members g)) g
  else g.

Definition observe_separator (g : LexicalGoal) (token : Token) : LexicalGoal :=
  match token with
  | Comma | Semicolon =>
      let g := pop_initializers g in
      if bool_decide (async_arrow_depth g = Some (depth g)) then set_async_arrow_depth None g
      else g
  | _ => g
  end.

Definition observe_member (g : LexicalGoal) (token : Token) : LexicalGoal :=
  if last_is (fun m => (member_depth m =? depth g)%nat) (members g) then
    set_members
      (update_last (fun m =>
         match token with
         | Comma | Semicolon => new_head m
         | Colon | Equal => set_head false m
         | KwAsync => if head m then set_async_names (S (async_names m)) m else m
         | Star => if head m then set_generator true m else m
         | _ => m
         end) (members g)) g
  else g.

Definition observe_colon (g : LexicalGoal) : LexicalGoal :=
  match conditional_depths g with
  | d :: ds =>
      if (d =? depth g)%nat then set_statement_colon false (set_conditional_depths ds g)
      else set_statement_colon
             (negb (last_is (fun m => (member_depth m =? depth g)%nat) (members g))) g
  | [] => set_statement_colon
            (negb (last_is (fun m => (member_depth m =? depth g)%nat) (members g))) g
  end.

Definition observe_function (g : LexicalGoal) (statement_start : bool) : LexicalGoal :=
  let after_async := matches is_kw_async (previous g) in
  let statement :=
    statement_start || async_line_break g || after_async && async_statement_start g in
  set_async_arrow_depth None
    (push_callable
       {| callable_depth := depth g; body_depth := None; expression := negb statement;
          is_async := after_async && negb (async_line_break g); is_generator := false;
          arrow := false; field := false |} g).

Definition observe_arrow (g : LexicalGoal) : LexicalGoal :=
  let is_async := bool_decide (async_arrow_depth g = Some (depth g)) in
  push_callable
    {| callable_depth := depth g; body_depth := None; expression := true;
       is_async := is_async; is_generator := false; arrow := true; field := false |}
    (set_async_arrow_depth None g).

Definition observe_lparen (g : LexicalGoal) (member_head : bool)
  : outcome LexError LexicalGoal :=
  let method :=
    member_head
    && matches (fun token =>
         is_name token
         || match token with
            | TString _ | EscapedString _ | Number _ | BigInt _ | PrivateIdentifier _
            | RBracket => true
            | _ => false
            end) (previous g) in
  let* g := (if method then
               let* member := index_or_panic (members g) 0 in
               let g :=
                 push_callable
                   {| callable_depth := depth g; body_depth := None; expression := true;
                      is_async := (0 <? async_names member)%nat
                                  && (negb (matches is_kw_async (previous g))
                                      || (1 <? async_names member)%nat);
                      is_generator := generator member; arrow := false; field := false |} g in
               let* _ := index_or_panic (members g) 0 in
               Ok (set_members (update_last (set_head false) (members g)) g)
             else Ok g) in
  let control :=
    negb (matches is_dot (before_previous g))
    && matches (fun token =>
         match token with
         | KwIf | KwWhile | KwFor | KwWith | KwSwitch | KwCatch => true
         | _ => false
         end) (previous g) in
  Ok (set_delimiters ((LParen, control) :: delimiters g) g).

Definition observe_rparen (g : LexicalGoal) : LexicalGoal :=
  let g :=
    match delimiters g with
    | (LParen, control) :: ds => set_closed_statement control (set_delimiters ds g)
    | _ :: ds => set_delimiters ds g
    | [] => g
    end in
  let g :=
    match callables g with
    | c :: cs =>
        if negb (arrow c) && negb (field c) && no_body c && (callable_depth c =? depth g)%nat
        then set_callables (set_body_depth (Some (depth g + 1)%nat) c :: cs)
               (set_function_body (Some (expression c)) g)
        else g
    | [] => g
    end in
  finish_concise_arrows g.

Definition observe_lbrace (g : LexicalGoal) (statement_start member_head : bool)
  : LexicalGoal :=
  let after_arrow := matches is_arrow (previous g) in
  let callable_body :=
    match function_body g with Some _ => true | None => after_arrow end in
  let class_body :=
    match pending_class g with Some (d, _) => (d =? depth g)%nat | None => false end in
  let g :=
    if after_arrow then
      set_callables (update_last (set_body_depth (Some (depth g + 1)%nat)) (callables g)) g
    else g in
  let after_parts :=
    statement_start
    || matches (fun t => match t with Colon => true | _ => false end) (previous g)
       && statement_colon g
    || matches (fun t => match t with KwStatic => true | _ => false end) (previous g)
       && member_head
    || matches (fun t => match t with RParen | KwTry | KwFinally | KwDo => true | _ => false end)
         (previous g) in
  let (statement, g) :=
    match function_body g with
    | Some expression => (negb expression, set_function_body None g)
    | None =>
        match pending_class g with
        | Some (d, expression) =>
            if (d =? depth g)%nat then (negb expression, set_pending_class None g)
            else (after_parts, g)
        | None => (after_parts, g)
        end
    end in
  let g := set_delimiters ((LBrace, statement) :: delimiters g) g in
  if class_body || negb statement && negb callable_body then
    set_members
      ({| member_depth := depth g; head := true; async_names := 0; generator := false;
          class := class_body |} :: members g) g
  else g.

Definition observe_rbrace (g : LexicalGoal) : LexicalGoal :=
  let d := depth g in
  let g := set_callables
             (pop_while (fun c => field c && (callable_depth c =? d)%nat) (callables g)) g in
  let g :=
    match members g with
    | m :: ms => if (member_depth m =? d)%nat then set_members ms g else g
    | [] => g
    end in
  let g :=
    match callables g with
    | c :: cs =>
        if bool_decide (body_depth c = Some d) then
          set_members (update_last new_head (members g)) (set_callables cs g)
        else g
    | [] => g
    end in
  let g :=
    match delimiters g with
    | (LBrace, statement) :: ds => set_closed_statement statement (set_delimiters ds g)
    | _ :: ds => set_delimiters ds g
    | [] => g
    end in
  finish_concise_arrows g.

(** The arms of the match on the token; the arms of closing delimiters leave
    [closed_statement] as they set it. *)
Definition observe_token (g : LexicalGoal) (token : Token) : outcome LexError LexicalGoal :=
  let statement_start := statement_start g in
  let g := observe_boundary g token in
  let member_head :=
    last_is (fun m => (member_depth m =? depth g)%nat && head m) (members g) in
  let g := observe_separator g token in
  let g := observe_member g token in
  let after_dot := matches is_dot (previous g) in
  let closed g := Ok (set_closed_statement false g) in
  match token with
  | Equal =>
      if member_head && last_is class (members g) then
        closed (push_callable
          {| callable_depth := depth g; body_depth := None; expression := true;
             is_async := false; is_generator := false; arrow := false; field := true |} g)
      else closed g
  | Question => closed (set_conditional_depths (depth g :: conditional_depths g) g)
  | Colon => closed (observe_colon g)
  | KwAsync =>
      let g := set_async_statement_start statement_start g in
      closed (if after_dot then g else set_async_arrow_depth (Some (depth g)) g)
  | KwFunction =>
      closed (if negb member_head && negb after_dot then observe_function g statement_start
              else g)
  | KwClass =>
      closed (if negb member_head && negb after_dot
              then set_pending_class (Some (depth g, negb statement_start)) g else g)
  | Star =>
      closed (if matches (fun t => match t with KwFunction => true | _ => false end) (previous g)
              then set_callables (update_last (set_is_generator true) (callables g)) g else g)
  | Arrow => closed (observe_arrow g)
  | LParen => let* g := observe_lparen g member_head in closed g
  | RParen => Ok (observe_rparen g)
  | LBracket => closed (set_delimiters ((LBracket, false) :: delimiters g) g)
  | RBracket => closed (finish_concise_arrows (set_delimiters (tail (delimiters g)) g))
  | LBrace => closed (observe_lbrace g statement_start member_head)
  | RBrace => Ok (observe_rbrace g)
  | _ => closed g
  end.

Definition record_token (g : LexicalGoal) (token : Token) (line end_line : nat)
  : outcome LexError LexicalGoal :=
  let line_break := (last_token_end_line g <? line)%nat in
  let g := set_current_line_break line_break g in
  let g := set_async_line_break (matches is_kw_async (previous g) && line_break) g in
  let g :=
    if async_line_break g then
      set_members (update_last (fun m => set_async_names (async_names m - 1) m) (members g))
        (set_async_statement_start false (set_async_arrow_depth None g))
    else g in
  let* g := observe_token g token in
  let g := set_last_token_end_line end_line g in
  Ok (set_previous (Some token) (set_before_previous (previous g) g)).

(** Whether a token ends a value, so that a slash after it divides. *)
Definition ends_value (t : Token) : bool :=
  match t with
  | Identifier _ | EscapedIdentifier _ | PrivateIdentifier _ | Number _ | BigInt _
  | LegacyNumber _ | TString _ | EscapedString _ | LegacyString _ | Regex _ _ | Backtick
  | RParen | RBracket | RBrace | PlusPlus | MinusMinus | KwAs | KwAsync | KwConstructor
  | KwFrom | KwGet | KwLet | KwOf | KwSet | KwStatic | KwUndefined | KwThis | KwSuper
  | KwNull | KwTrue | KwFalse => true
  | _ => false
  end.

Definition regex_allowed (L : Source) (g : LexicalGoal) : bool :=
  let after_dot := matches is_dot (before_previous g) in
  if after_dot && matches is_name (previous g) then false
  else
    match previous g with
    | Some ((KwAwait | KwYield) as token) =>
        if after_dot then false
        else
          let (await_allowed, yield_allowed) :=
            match callables g with
            | c :: _ => (is_async c, is_generator c)
            | [] => (module_goal L, false)
            end in
          match token with KwAwait => await_allowed | _ => yield_allowed end
    | Some ((RParen | RBrace) as token) =>
        if closed_statement g then true else negb (ends_value token)
    | Some token => negb (ends_value token)
    | None => true
    end.


(** ** Computations *)

Definition M (A : Type) : Type := Lexer -> outcome LexError (A * Lexer).
Definition ret {A} (x : A) : M A := fun s => Ok (x, s).
Definition bind {A B} (m : M A) (k : A -> M B) : M B :=
  fun s => match m s with
           | Ok (x, s) => k x s
           | Err e => Err e
           | Panic => Panic
           end.
Definition get : M Lexer := fun s => Ok (s, s).
Definition modify (f : Lexer -> Lexer) : M unit := fun s => Ok (tt, f s).
Definition lift {A} (o : outcome LexError A) : M A :=
  fun s => match o with Ok x => Ok (x, s) | Err e => Err e | Panic => Panic end.
Definition no_fuel {A} : M A := fun _ => Err LexFuel.

Declare Scope lex_scope.
Delimit Scope lex_scope with lex.
Notation "'let?' x ':=' m 'in' k" := (bind m (fun x => k))
  (at level 10, x name, m at level 100, k at level 200) : lex_scope.
Notation "m ';?' k" := (bind m (fun _ => k)) (at level 100, right associativity) : lex_scope.
Local Open Scope lex_scope.

(** [self.pos += n; self.col += n] *)
Definition advance (n : nat) : M unit :=
  modify (fun s => set_col (col s + n) (set_pos (pos s + n) s)).
(** [self.pos += 1] *)
Definition skip : M unit := modify (fun s => set_pos (pos s + 1) s).
(** [self.line += 1; self.col = 1] *)
Definition newline : M unit := modify (fun s => set_col 1 (set_line (line s + 1) s)).

Definition is_line_terminator (c : Z) : bool :=
  (c =? 10) || (c =? 13) || (c =? 0x2028) || (c =? 0x2029).

(** [i32] addition, [u32::checked_mul] and [u32::checked_add] *)
Definition i32_add (a b : Z) : outcome LexError Z :=
  if in_range (- 2 ^ 31) (2 ^ 31 - 1) (a + b) then Ok (a + b) else Panic.
Definition checked_u32 (n : Z) : option Z := if n <? 2 ^ 32 then Some n else None.
Definition push_hex (value n : Z) : option Z := v ← checked_u32 (value * 16); checked_u32 (v + n).

(** [slice[a..b]] *)
Definition slice {A} (l : list A) (a b : nat) : outcome LexError (list A) :=
  if (a <=? b)%nat && (b <=? length l)%nat then Ok (take (b - a) (drop a l)) else Panic.

Class IdentifierTables := {
  is_id_start : Z -> bool;
  is_id_continue : Z -> bool;
}.

Section Reading.
Context `{IdentifierTables} (L : Source).

Definition is_identifier_start (c : Z) : bool :=
  (c =? chr "$") || (c =? chr "_") || is_id_start c.
Definition is_identifier_continue (c : Z) : bool :=
  (c =? chr "$") || (c =? chr "_") || (c =? 0x200C) || (c =? 0x200D) || is_id_continue c.

(** [self.src.get(self.pos + n)], also where the source indexes after a test of the
    length. *)
Definition look (n : nat) : M (option Z) := fun s => Ok (src L !! (pos s + n)%nat, s).
Definition peek : M (option Z) := look 0.
Definition at_char (o : option Z) (c : Z) : bool := match o with Some x => x =? c | None => false end.
Definition holds (p : Z -> bool) (o : option Z) : bool :=
  match o with Some x => p x | None => false end.

(** Fuel for a loop that moves at each turn. *)
Definition LOOP : nat := S (length (src L)).

(** [while self.pos < self.src.len() && p(self.src[self.pos])] with a step of one
    column. *)
Fixpoint advance_while (p : Z -> bool) (fuel : nat) : M unit :=
  match fuel with
  | O => no_fuel
  | S fuel =>
      let? c := peek in
      if holds p c then advance 1 ;? advance_while p fuel else ret tt
  end.

Definition source_span (line col start end_ : nat) : M Span :=
  let? from := lift (index_or_panic (source_offsets L) start) in
  let? to := lift (index_or_panic (source_offsets L) end_) in
  ret (with_source_range (span_new line col) from to).

Definition source_unit_string (c : Z) : M JsString :=
  if encoded_source L && (c =? JsString.marker) then
    let? s := get in
    let? next := peek in
    if at_char next JsString.marker then
      advance 1 ;? ret (JsString.from_string [JsString.marker])
    else if at_char next (chr "s") && (pos s + 5 <=? length (src L))%nat then
      let? hex := lift (slice (src L) (pos s + 1) (pos s + 5)) in
      match JsString.u16_from_str_radix hex 16 with
      | Some u => advance 5 ;? ret (JsString.from_units [u])
      | None => ret (JsString.from_string [c])
      end
    else ret (JsString.from_string [c])
  else ret (JsString.from_string [c]).

(** ** Space and comments *)

Definition is_space (c : Z) : bool :=
  (c =? 9) || (c =? 11) || (c =? 12) || (c =? 32) || (c =? 0xA0) || (c =? 0x1680)
  || in_range 0x2000 0x200A c || (c =? 0x202F) || (c =? 0x205F) || (c =? 0x3000)
  || (c =? 0xFEFF).

Definition starts_with (p l : list Z) : bool := bool_decide (take (length p) l = p).

Definition skip_line : M unit := advance_while (fun c => negb (is_line_terminator c)) LOOP.

Definition clear_line : M unit := modify (set_line_has_token false).

(** The characters of a block comment; whether it is closed. *)
Fixpoint block_comment (fuel : nat) : M bool :=
  match fuel with
  | O => no_fuel
  | S fuel =>
      let? c := peek in
      let? d := look 1 in
      match c with
      | None => ret false
      | Some c =>
          if (c =? chr "*") && at_char d (chr "/") then advance 2 ;? ret true
          else
            skip ;?
            (if is_line_terminator c then
               (if (c =? 13) && at_char d 10 then skip else ret tt) ;?
               newline ;? clear_line
             else modify (fun s => set_col (col s + 1) s)) ;?
            block_comment fuel
      end
  end.

Definition skip_block_comment : M unit :=
  let? s := get in
  advance 2 ;?
  let? closed := block_comment LOOP in
  if closed : bool then ret tt
  else modify (fun s' => set_lexical_errors
                (lexical_errors s' ++ [(Unknown (chr "/"), span_new (line s) (col s))]) s').

Fixpoint skip_ws_loop (fuel : nat) : M unit :=
  match fuel with
  | O => no_fuel
  | S fuel =>
      let? s := get in
      let? c := peek in
      let? d := look 1 in
      match c with
      | None => ret tt
      | Some c =>
          let rest := drop (pos s) (src L) in
          let html_open := starts_with (chars "<!--") rest in
          let html_close := negb (line_has_token s) && starts_with (chars "-->") rest in
          if (pos s =? 0)%nat && starts_with (chars "#!") (src L) then
            skip_line ;? skip_ws_loop fuel
          else if negb (module_goal L) && (html_open || html_close) then
            skip_line ;? skip_ws_loop fuel
          else if (c =? 10) || (c =? 0x2028) || (c =? 0x2029) then
            skip ;? newline ;? clear_line ;? skip_ws_loop fuel
          else if c =? 13 then
            skip ;? newline ;? clear_line ;?
            (if at_char d 10 then skip else ret tt) ;? skip_ws_loop fuel
          else if is_space c then advance 1 ;? skip_ws_loop fuel
          else if c =? chr "/" then
            if at_char d (chr "/") then advance 2 ;? skip_line ;? skip_ws_loop fuel
            else if at_char d (chr "*") then skip_block_comment ;? skip_ws_loop fuel
            else ret tt
          else ret tt
      end
  end.

Definition skip_ws : M unit := skip_ws_loop LOOP.

(** ** Literals *)

(** *** Escapes of strings and templates; [None] is the error *)

Fixpoint octal_digits (extra : nat) (value : Z) : M Z :=
  match extra with
  | O => ret value
  | S extra =>
      let? c := peek in
      match c ≫= to_digit 8 with
      | None => ret value
      | Some digit => advance 1 ;? octal_digits extra (value * 8 + digit)
      end
  end.

Fixpoint escape_digits (fuel : nat) (braced : bool) (count value digits : Z)
  : M (option (Z * Z)) :=
  match fuel with
  | O => no_fuel
  | S fuel =>
      let? c := peek in
      match c with
      | None => ret (Some (value, digits))
      | Some c =>
          if negb (braced || (digits <? count)) then ret (Some (value, digits))
          else if braced && (c =? chr "}") then ret (Some (value, digits))
          else
            match n ← to_digit 16 c; push_hex value n with
            | None => ret None
            | Some value =>
                advance 1 ;?
                let? digits := lift (i32_add digits 1) in
                escape_digits fuel braced count value digits
            end
      end
  end.

Definition escape_code (e : Z) : M (option JsString) :=
  let? c := peek in
  let braced := (e =? chr "u") && at_char c (chr "{") in
  (if braced then advance 1 else ret tt) ;?
  let count := if e =? chr "x" then 2 else 4 in
  let? r := escape_digits LOOP braced count 0 0 in
  match r with
  | None => ret None
  | Some (value, digits) =>
      let? c := peek in
      if braced && ((digits =? 0) || negb (at_char c (chr "}")) || (0x10FFFF <? value))
      then ret None
      else if negb braced && negb (digits =? count) then ret None
      else
        (if braced then advance 1 else ret tt) ;?
        ret (Some (JsString.from_units
          (if value <=? 0xFFFF then [value]
           else [u16 (0xD800 + Z.shiftr (value - 0x10000) 10);
                 u16 (0xDC00 + Z.land (value - 0x10000) 1023)])))
  end.

Definition simple_escape (e : Z) : option Z :=
  if e =? chr "n" then Some 10
  else if e =? chr "t" then Some 9
  else if e =? chr "r" then Some 13
  else if e =? chr "b" then Some 8
  else if e =? chr "f" then Some 12
  else if e =? chr "v" then Some 11
  else None.

Definition read_escape (legacy_allowed : bool) : M (option JsString) :=
  let? e := peek in
  match e with
  | None => ret None
  | Some e =>
      advance 1 ;?
      let? c := peek in
      match simple_escape e with
      | Some text => ret (Some (JsString.from_string [text]))
      | None =>
          if (e =? chr "0") && negb (holds is_ascii_digit c) then
            ret (Some (JsString.from_string [0]))
          else if in_range 48 55 e then
            if negb legacy_allowed then ret None
            else
              let? value := octal_digits (if e <=? chr "3" then 2 else 1) (e - 48) in
              ret (Some (JsString.from_units [u16 value]))
          else if (e =? chr "8") || (e =? chr "9") then
            if negb legacy_allowed then ret None
            else let? text := source_unit_string e in ret (Some text)
          else if (e =? 10) || (e =? 0x2028) || (e =? 0x2029) then
            newline ;? ret (Some JsString.default)
          else if e =? 13 then
            (if at_char c 10 then skip else ret tt) ;? newline ;? ret (Some JsString.default)
          else if (e =? chr "u") || (e =? chr "x") then escape_code e
          else let? text := source_unit_string e in ret (Some text)
      end
  end.

(** *** Strings *)

Fixpoint read_str_loop (fuel : nat) (q : Z) (text : JsString) (escaped legacy : bool)
  : M Token :=
  match fuel with
  | O => no_fuel
  | S fuel =>
      let? c := peek in
      match c with
      | None => ret (Unknown q)
      | Some c =>
          advance 1 ;?
          if c =? q then
            ret (if legacy then LegacyString text
                 else if escaped then EscapedString text else TString text)
          else if (c =? 10) || (c =? 13) then ret (Unknown c)
          else if c =? chr "\" then
            let? d := peek in
            let? d2 := look 1 in
            let legacy :=
              legacy || holds (in_range 49 57) d
              || at_char d (chr "0") && holds is_ascii_digit d2 in
            let? r := read_escape true in
            match r with
            | Some s => read_str_loop fuel q (JsString.push_str text s) true legacy
            | None => ret (Unknown (chr "\"))
            end
          else
            let? chunk := source_unit_string c in
            read_str_loop fuel q (JsString.push_str text chunk) escaped legacy
      end
  end.

Definition read_str (q : Z) : M Token :=
  advance 1 ;? read_str_loop LOOP q JsString.default false false.

(** *** Numbers *)

Definition is_digit (radix c : Z) : bool :=
  match to_digit radix c with Some _ => true | None => false end.

(** [fold(0.0, |value, digit| value * radix + digit)] *)
Definition fold_radix (radix : Z) (digits : list Z) : spec_float :=
  foldl (fun value c => f64_add (f64_mul value (f64_from radix))
                          (f64_from (default 0 (to_digit radix c))))
    (f64_from 0) digits.

(** An underscore of [text] without a digit on both sides; [before] and [after]
    look a character up by its index in [text]. *)
Definition misplaced (p : Z -> bool) (text : list Z) (before after : nat -> option Z) : bool :=
  existsb (fun i =>
    at_char (text !! i) (chr "_")
    && ((i =? 0)%nat || negb (holds p (before (i - 1)%nat)) || negb (holds p (after (i + 1)%nat))))
    (seq 0 (length text)).

Definition no_separators (text : list Z) : list Z := filter (fun c => c <> chr "_") text.

Definition read_radix (s : nat) (radix : Z) : M Token :=
  advance 2 ;?
  let? st := get in
  let digits_start := pos st in
  advance_while (fun c => is_digit radix c || (c =? chr "_")) LOOP ;?
  let? st := get in
  let? raw := lift (slice (src L) digits_start (pos st)) in
  if match raw with [] => true | _ => false end
     || misplaced (is_digit radix) raw (fun i => raw !! i) (fun i => raw !! i)
  then ret (Unknown (chr "_"))
  else
    let? c := peek in
    if at_char c (chr "n") then
      advance 1 ;?
      let? st := get in
      let? literal := lift (slice (src L) s (pos st - 1)) in
      ret (BigInt literal)
    else ret (Number (fold_radix radix (no_separators raw))).

Definition decimal_part (c : Z) : bool := is_ascii_digit c || (c =? chr "_").

(** The exponent of a decimal literal: the cursor jumps over the letter and the
    sign. *)
Definition read_exponent : M unit :=
  let? e := peek in
  if at_char e (chr "e") || at_char e (chr "E") then
    let? st := get in
    let? sign := look 1 in
    let la := (if at_char sign (chr "+") || at_char sign (chr "-") then 2 else 1)%nat in
    let? d := look la in
    if holds is_ascii_digit d then
      modify (set_pos (pos st + la)) ;? advance_while decimal_part LOOP
    else ret tt
  else ret tt.

Definition decimal_token (s : nat) : M Token :=
  let? st := get in
  let? text := lift (slice (src L) s (pos st)) in
  let? first := lift (index_or_panic (src L) s) in
  let second := src L !! (s + 1)%nat in
  let legacy := (first =? chr "0") && holds is_ascii_digit second in
  let legacy_octal := legacy && forallb (fun c => c <=? chr "7") (filter is_ascii_digit text) in
  if (first =? chr "0") && at_char second (chr "_")
     || legacy && existsb (Z.eqb (chr "_")) text
     || legacy_octal && existsb (among ".eE") text
  then ret (Unknown (chr "0"))
  else if misplaced is_ascii_digit text
            (fun i => src L !! (s + i)%nat) (fun i => src L !! (s + i)%nat)
  then ret (Unknown (chr "_"))
  else
    let digits := no_separators text in
    let? c := peek in
    if at_char c (chr "n") then
      advance 1 ;?
      ret (if existsb (among ".eE") digits || legacy then Unknown (chr "n") else BigInt digits)
    else
      let value :=
        if legacy_octal then fold_radix 8 digits
        else default (f64_from 0) (parse_f64 digits) in
      ret (if legacy then LegacyNumber value else Number value).

Definition radix_of (prefix : Z) : option Z :=
  if among "xX" prefix then Some 16
  else if among "bB" prefix then Some 2
  else if among "oO" prefix then Some 8
  else None.

Definition read_num : M Token :=
  let? st := get in
  let s := pos st in
  let? first := lift (index_or_panic (src L) s) in
  let? prefix := look 1 in
  match (if first =? chr "0" then prefix ≫= radix_of else None) with
  | Some radix => read_radix s radix
  | None =>
      advance_while decimal_part LOOP ;?
      let? dot := peek in
      (if at_char dot (chr ".") then advance 1 ;? advance_while decimal_part LOOP else ret tt) ;?
      read_exponent ;?
      decimal_token s
  end.

(** *** Identifiers and keywords *)

Fixpoint identifier_digits (fuel : nat) (braced : bool) (value digits : Z)
  : M (option (Z * Z)) :=
  match fuel with
  | O => no_fuel
  | S fuel =>
      let? c := peek in
      match c with
      | None => ret (Some (value, digits))
      | Some c =>
          if braced && (c =? chr "}") || negb braced && (digits =? 4)
          then ret (Some (value, digits))
          else
            match n ← to_digit 16 c; push_hex value n with
            | None => ret None
            | Some value =>
                advance 1 ;?
                let? digits := lift (i32_add digits 1) in
                identifier_digits fuel braced value digits
            end
      end
  end.

Definition identifier_escape : M (option Z) :=
  advance 1 ;?
  let? u := peek in
  if negb (at_char u (chr "u")) then ret None
  else
    advance 1 ;?
    let? c := peek in
    let braced := at_char c (chr "{") in
    (if braced then advance 1 else ret tt) ;?
    let? r := identifier_digits LOOP braced 0 0 in
    match r with
    | None => ret None
    | Some (value, digits) =>
        if (digits =? 0) || negb braced && negb (digits =? 4) then ret None
        else
          let? c := peek in
          if braced && negb (at_char c (chr "}")) then ret None
          else
            (if braced then advance 1 else ret tt) ;?
            ret (if JsString.is_char value then Some value else None)
    end.

Definition fits (i : Text) (c : Z) : bool :=
  match i with [] => is_identifier_start c | _ => is_identifier_continue c end.

Fixpoint lookup_keyword (table : list (Text * Token)) (i : Text) : option Token :=
  match table with
  | [] => None
  | (word, token) :: table => if bool_decide (i = word) then Some token else lookup_keyword table i
  end.

Definition identifier_token (i : Text) (escaped : bool) : Token :=
  if escaped then EscapedIdentifier i
  else default (Identifier i) (lookup_keyword keywords i).

Fixpoint read_ident_loop (fuel : nat) (i : Text) (escaped : bool) : M Token :=
  match fuel with
  | O => no_fuel
  | S fuel =>
      let? c := peek in
      match c with
      | None => ret (identifier_token i escaped)
      | Some c =>
          if c =? chr "\" then
            let? r := identifier_escape in
            match r with
            | None => ret (Unknown (chr "\"))
            | Some character =>
                if fits i character then read_ident_loop fuel (i ++ [character]) true
                else ret (Unknown (chr "\"))
            end
          else if fits i c then advance 1 ;? read_ident_loop fuel (i ++ [c]) escaped
          else ret (identifier_token i escaped)
      end
  end.

Definition read_ident : M Token := read_ident_loop LOOP [] false.

(** *** Regular expressions *)

Definition read_slash : M Token :=
  let? c := look 1 in
  if at_char c (chr "=") then advance 2 ;? ret SlashEqual else advance 1 ;? ret Slash.

(** The text between the slashes; [None] leaves the cursor where the scan ends. *)
Fixpoint regex_body (fuel : nat) (pattern : Text) (in_class : bool) : M (option Text) :=
  match fuel with
  | O => no_fuel
  | S fuel =>
      let? c := peek in
      match c with
      | None => ret None
      | Some c =>
          advance 1 ;?
          if c =? chr "\" then
            let? escaped := peek in
            match escaped with
            | None => regex_body fuel (pattern ++ [c]) in_class
            | Some escaped =>
                if is_line_terminator escaped then ret None
                else advance 1 ;? regex_body fuel (pattern ++ [c; escaped]) in_class
            end
          else if c =? chr "[" then regex_body fuel (pattern ++ [c]) true
          else if c =? chr "]" then regex_body fuel (pattern ++ [c]) false
          else if (c =? chr "/") && negb in_class then ret (Some pattern)
          else if is_line_terminator c then ret None
          else regex_body fuel (pattern ++ [c]) in_class
      end
  end.

(** A failure moves the cursor back, and not the column. *)
Definition read_regex : M (option Token) :=
  let? st := get in
  let start := pos st in
  advance 1 ;?
  let? body := regex_body LOOP [] false in
  match body with
  | None => modify (set_pos start) ;? ret None
  | Some pattern =>
      let? st := get in
      let flags_start := pos st in
      advance_while is_ascii_alphabetic LOOP ;?
      let? st := get in
      let? flags := lift (slice (src L) flags_start (pos st)) in
      ret (Some (Regex (if encoded_source L then JsString.from_key pattern
                        else JsString.from_string pattern) flags))
  end.

(** ** The next token *)

(** The longest operator that the characters begin: its length and token. *)
Definition operator (c : Z) (a b d : option Z) : option (nat * Token) :=
  let is_digit := holds is_ascii_digit in
  if c =? chr "(" then Some (1%nat, LParen)
  else if c =? chr ")" then Some (1%nat, RParen)
  else if c =? chr "{" then Some (1%nat, LBrace)
  else if c =? chr "}" then Some (1%nat, RBrace)
  else if c =? chr "[" then Some (1%nat, LBracket)
  else if c =? chr "]" then Some (1%nat, RBracket)
  else if c =? chr ";" then Some (1%nat, Semicolon)
  else if c =? chr "," then Some (1%nat, Comma)
  else if c =? chr ":" then Some (1%nat, Colon)
  else if c =? chr "?" then
    if at_char a (chr "?") then
      if at_char b (chr "=") then Some (3%nat, NullishEqual) else Some (2%nat, QuestionQuestion)
    else if at_char a (chr ".") && negb (is_digit b) then Some (2%nat, QuestionDot)
    else Some (1%nat, Question)
  else if c =? chr "." then
    if at_char a (chr ".") && at_char b (chr ".") then Some (3%nat, DotDotDot)
    else Some (1%nat, Dot)
  else if c =? chr "+" then
    if at_char a (chr "+") then Some (2%nat, PlusPlus)
    else if at_char a (chr "=") then Some (2%nat, PlusEqual) else Some (1%nat, Plus)
  else if c =? chr "-" then
    if at_char a (chr "-") then Some (2%nat, MinusMinus)
    else if at_char a (chr "=") then Some (2%nat, MinusEqual) else Some (1%nat, Minus)
  else if c =? chr "*" then
    if at_char a (chr "*") then
      if at_char b (chr "=") then Some (3%nat, StarStarEqual) else Some (2%nat, StarStar)
    else if at_char a (chr "=") then Some (2%nat, StarEqual) else Some (1%nat, Star)
  else if c =? chr "%" then
    if at_char a (chr "=") then Some (2%nat, PercentEqual) else Some (1%nat, Percent)
  else if c =? chr "=" then
    if at_char a (chr "=") then
      if at_char b (chr "=") then Some (3%nat, EqualEqualEqual) else Some (2%nat, EqualEqual)
    else if at_char a (chr ">") then Some (2%nat, Arrow) else Some (1%nat, Equal)
  else if c =? chr "!" then
    if at_char a (chr "=") then
      if at_char b (chr "=") then Some (3%nat, NotEqualEqual) else Some (2%nat, NotEqual)
    else Some (1%nat, Not)
  else if c =? chr "<" then
    if at_char a (chr "<") then
      if at_char b (chr "=") then Some (3%nat, ShlEqual) else Some (2%nat, Shl)
    else if at_char a (chr "=") then Some (2%nat, LessEqual) else Some (1%nat, Less)
  else if c =? chr ">" then
    if at_char a (chr ">") then
      if at_char b (chr ">") then
        if at_char d (chr "=") then Some (4%nat, UShrEqual) else Some (3%nat, UShr)
      else if at_char b (chr "=") then Some (3%nat, ShrEqual) else Some (2%nat, Shr)
    else if at_char a (chr "=") then Some (2%nat, GreaterEqual) else Some (1%nat, Greater)
  else if c =? chr "&" then
    if at_char a (chr "&") then
      if at_char b (chr "=") then Some (3%nat, AndEqual) else Some (2%nat, And)
    else if at_char a (chr "=") then Some (2%nat, AmpEqual) else Some (1%nat, BitAnd)
  else if c =? chr "|" then
    if at_char a (chr "|") then
      if at_char b (chr "=") then Some (3%nat, OrEqual) else Some (2%nat, Or)
    else if at_char a (chr "=") then Some (2%nat, PipeEqual) else Some (1%nat, BitOr)
  else if c =? chr "^" then
    if at_char a (chr "=") then Some (2%nat, CaretEqual) else Some (1%nat, BitXor)
  else if c =? chr "~" then Some (1%nat, Tilde)
  else None.

Section Nested.
(** The reader of a template that begins at the cursor. *)
Context (template : M (list SpannedToken)).

(** The arm of the opening backtick: the tokens after the first wait. *)
Definition next_template : M Token :=
  let? toks := template in
  match toks with
  | [] => ret Backtick
  | (first, _) :: rest =>
      modify (fun s => set_pending (map fst rest ++ pending s)
                (set_pending_spans (map snd rest ++ pending_spans s) s)) ;?
      ret first
  end.

Definition private_name : M Token :=
  advance 1 ;?
  let? c := peek in
  if holds (fun c => is_identifier_start c || (c =? chr "\")) c then
    let? token := read_ident in
    ret (match identifier_name token with
         | Some name => PrivateIdentifier name
         | None => token
         end)
  else ret (Unknown (chr "#")).

Definition slash_token : M Token :=
  let? s := get in
  if regex_allowed L (goal s) then
    let? regex := read_regex in
    match regex with Some regex => ret regex | None => read_slash end
  else read_slash.

(** The arms of operators come after the characters that begin something else. *)
Definition next : M (option Token) :=
  let? c := peek in
  let? a := look 1 in
  let? b := look 2 in
  let? d := look 3 in
  match c with
  | None => ret None
  | Some c =>
      let? t :=
        (if c =? chr "`" then next_template
         else if c =? chr "$" then
           if at_char a (chr "{") then advance 2 ;? ret DollarLBrace else read_ident
         else if (c =? chr ".") && holds is_ascii_digit a then read_num
         else if c =? chr "/" then slash_token
         else if c =? chr "#" then private_name
         else if (c =? 34) || (c =? 39) then read_str c
         else
           match operator c a b d with
           | Some (n, t) => advance n ;? ret t
           | None =>
               if is_ascii_digit c then read_num
               else if is_identifier_start c || (c =? chr "\") then read_ident
               else advance 1 ;? ret (Unknown c)
           end) in
      ret (Some t)
  end.

Definition is_numeric (t : Token) : bool :=
  match t with Number _ | LegacyNumber _ | BigInt _ => true | _ => false end.
Definition is_backtick (t : Token) : bool := match t with Backtick => true | _ => false end.

Definition next_with_span : M (option SpannedToken) :=
  let? s := get in
  let start := pos s in
  let span := span_new (line s) (col s) in
  let? t := next in
  match t with
  | None => ret None
  | Some t =>
      let? s := get in
      let? following := peek in
      let t :=
        match following with
        | Some c =>
            if is_numeric t && (is_identifier_start c || is_ascii_digit c || (c =? chr "\"))
            then Unknown c else t
        | None => t
        end in
      let end_line := if is_backtick t then span_line span else line s in
      let end_ := if is_backtick t then (start + 1)%nat else pos s in
      let? from := lift (index_or_panic (source_offsets L) start) in
      let? to := lift (index_or_panic (source_offsets L) end_) in
      ret (Some (t, {| span_line := span_line span; span_col := span_col span;
                       end_line := end_line; source_range := Some (from, to) |}))
  end.

Definition record (t : Token) (line end_line : nat) : M unit :=
  let? s := get in
  let? g := lift (record_token (goal s) t line end_line) in
  modify (set_goal g).

(** *** Interpolations *)

Fixpoint interp_loop (fuel : nat) (depth : Z) (toks : list SpannedToken)
  : M (list SpannedToken) :=
  match fuel with
  | O => no_fuel
  | S fuel =>
      let? c := peek in
      if match c with None => true | Some _ => depth <=? 0 end then ret toks
      else
        skip_ws ;?
        let? c := peek in
        match c with
        | None => ret toks
        | Some c =>
            if c =? chr "`" then
              let? s := get in
              let start_line := line s in
              let? nested := template in
              let? s := get in
              record Backtick start_line (line s) ;?
              interp_loop fuel depth (toks ++ nested)
            else
              let? r := next_with_span in
              match r with
              | None => interp_loop fuel depth toks
              | Some (token, span) =>
                  let? depth :=
                    lift (match token with
                          | LBrace => i32_add depth 1
                          | RBrace => i32_add depth (-1)
                          | _ => Ok depth
                          end) in
                  (if 0 <? depth then record token (span_line span) (end_line span)
                   else ret tt) ;?
                  interp_loop fuel depth (toks ++ [(token, span)])
              end
        end
  end.

(** [Vec::truncate] of a stack *)
Definition truncate {A} (n : nat) (l : list A) : list A := drop (length l - n) l.

Definition interp_goal (g : LexicalGoal) : LexicalGoal :=
  set_previous None (set_before_previous None (set_closed_statement false
    (set_conditional_depths [] (set_statement_colon false
      (set_pending_class None (set_function_body None g)))))).

Definition lex_interp (toks : list SpannedToken) : M (list SpannedToken) :=
  let? s := get in
  let saved := goal s in
  modify (set_goal (interp_goal saved)) ;?
  let? toks := interp_loop LOOP 1 toks in
  modify (fun s => set_goal
    (set_delimiters (truncate (length (delimiters saved)) (delimiters (goal s))) saved) s) ;?
  ret toks.

End Nested.

(** *** Templates *)

Fixpoint replace_crlf (l : list Z) : list Z :=
  match l with
  | 13 :: 10 :: l => 10 :: replace_crlf l
  | c :: l => c :: replace_crlf l
  | [] => []
  end.
Definition normalize_lines (l : list Z) : list Z :=
  map (fun c => if c =? 13 then 10 else c) (replace_crlf l).

Definition empty_chunk : TemplateChunk :=
  {| invalid_escape := false; cooked := JsString.default; raw := JsString.default |}.
Definition push_cooked (q : TemplateChunk) (text : JsString) : TemplateChunk :=
  {| invalid_escape := invalid_escape q; cooked := JsString.push_str (cooked q) text;
     raw := raw q |}.
Definition push_raw (q : TemplateChunk) (text : JsString) : TemplateChunk :=
  {| invalid_escape := invalid_escape q; cooked := cooked q;
     raw := JsString.push_str (raw q) text |}.
Definition set_invalid (q : TemplateChunk) : TemplateChunk :=
  {| invalid_escape := true; cooked := cooked q; raw := raw q |}.

(** An escape of a template: the cursor is at the backslash. *)
Definition template_escape (quasi : TemplateChunk) : M TemplateChunk :=
  let? s := get in
  let start := pos s in
  advance 1 ;?
  let? r := read_escape false in
  let? s := get in
  let? text := lift (slice (src L) start (pos s)) in
  ret (push_raw (match r with Some text => push_cooked quasi text | None => set_invalid quasi end)
         (JsString.from_string (normalize_lines text))).

(** One character of a template. *)
Definition template_char (quasi : TemplateChunk) (c : Z) : M TemplateChunk :=
  skip ;?
  let? text :=
    (if c =? 13 then
       let? d := peek in
       (if at_char d 10 then skip else ret tt) ;? ret (JsString.from_string [10])
     else source_unit_string c) in
  (if is_line_terminator c then newline else modify (fun s => set_col (col s + 1) s)) ;?
  ret (push_raw (push_cooked quasi text) text).

Section Template.
Context (interp : list SpannedToken -> M (list SpannedToken)).

Fixpoint template_loop (fuel : nat) (toks : list SpannedToken) (quasi : TemplateChunk)
  (quasi_start : nat) : M (list SpannedToken) :=
  match fuel with
  | O => no_fuel
  | S fuel =>
      let? c := peek in
      let? d := look 1 in
      match c with
      | None =>
          let? s := get in
          let? span := source_span (line s) (col s) quasi_start (pos s) in
          ret (toks ++ [(TemplateQuasi quasi, span); (Unknown (chr "`"), span)])
      | Some c =>
          if c =? chr "`" then
            let? s := get in
            let closing := pos s in
            advance 1 ;?
            let? s := get in
            let? span := source_span (line s) (col s - 1) closing (pos s) in
            let? quasi_span := source_span (line s) (col s - 1) quasi_start closing in
            ret (toks ++ [(TemplateQuasi quasi, quasi_span); (Backtick, span)])
          else if (c =? chr "$") && at_char d (chr "{") then
            advance 2 ;?
            let? s := get in
            let? span := source_span (line s) (col s - 2) (pos s - 2) (pos s) in
            let? quasi_span := source_span (line s) (col s - 2) quasi_start (pos s - 2) in
            let? toks := interp (toks ++ [(TemplateQuasi quasi, quasi_span); (DollarLBrace, span)]) in
            let? s := get in
            template_loop fuel toks empty_chunk (pos s)
          else if (c =? chr "\") && match d with Some _ => true | None => false end then
            let? quasi := template_escape quasi in
            template_loop fuel toks quasi quasi_start
          else
            let? quasi := template_char quasi c in
            template_loop fuel toks quasi quasi_start
      end
  end.

Definition read_template_with : M (list SpannedToken) :=
  let? s := get in
  let opening := pos s in
  advance 1 ;?
  let? s := get in
  let? span := source_span (line s) (col s - 1) opening (pos s) in
  template_loop LOOP [(Backtick, span)] empty_chunk (pos s).

End Template.

(** The fuel bounds how deep templates nest in interpolations. *)
Fixpoint read_template (fuel : nat) : M (list SpannedToken) :=
  match fuel with
  | O => no_fuel
  | S fuel => read_template_with (lex_interp (read_template fuel))
  end.

(** ** The whole text *)

Fixpoint tokenize_loop (fuel : nat) (toks : list SpannedToken) : M (list SpannedToken) :=
  match fuel with
  | O => no_fuel
  | S fuel =>
      let? s := get in
      match pending s with
      | t :: rest =>
          let span := match pending_spans s with span :: _ => span | [] => span_unknown end in
          modify (fun s => set_pending rest (set_pending_spans (tail (pending_spans s)) s)) ;?
          modify (set_line_has_token true) ;?
          tokenize_loop fuel (toks ++ [(t, span)])
      | [] =>
          skip_ws ;?
          let? c := peek in
          match c with
          | None => ret toks
          | Some _ =>
              let? r := next_with_span (read_template LOOP) in
              match r with
              | None => tokenize_loop fuel toks
              | Some (t, span) =>
                  record t (span_line span) (end_line span) ;?
                  modify (set_line_has_token true) ;?
                  tokenize_loop fuel (toks ++ [(t, span)])
              end
          end
      end
  end.

(** A template queues at most three tokens for each of its characters. *)
Definition tokenize_with_spans : M (list SpannedToken) :=
  let? toks := tokenize_loop (S (3 * length (src L))) [] in
  let? s := get in
  modify (set_lexical_errors []) ;?
  let? eof_span := source_span (line s) (col s) (pos s) (pos s) in
  ret (toks ++ lexical_errors s ++ [(EOF, eof_span)]).

Definition tokenize : outcome LexError (list Token) :=
  match tokenize_with_spans start with
  | Ok (toks, _) => Ok (map fst toks)
  | Err e => Err e
  | Panic => Panic
  end.

End Reading.

Definition is_eof (t : Token) : bool := match t with EOF => true | _ => false end.

Definition is_binding_identifier `{IdentifierTables} (name : Text) : outcome LexError bool :=
  match name with
  | [] => Ok false
  | _ =>
      let* toks := tokenize (new name) in
      if negb (length toks =? 2)%nat then Ok false
      else
        let* second := index_or_panic toks 1 in
        if negb (is_eof second) then Ok false
        else
          let* first := index_or_panic toks 0 in
          Ok (match first with
              | Identifier ident => bool_decide (ident = name)
              | KwAs | KwAsync | KwConstructor | KwFrom | KwGet | KwOf | KwSet => true
              | _ => false
              end)
  end.

End Lexer.
