(* ===== verification/LexerSpec.v ===== *)
(** What the readers of the lexer do to the cursor: they end, they stay in the
    text, and they leave the rest of the state alone. *)
From stdpp Require Import prelude list strings.
From Stdlib Require Import ZArith Lia SpecFloat Ascii.
From S2P Require Import Prelude JsString Token Lexer.
Import Token Lexer.
Local Open Scope Z_scope.
Local Open Scope lex_scope.

(** ** Computations that return *)

(** A computation returns, and its result and the state after it satisfy [Q]. *)
Definition lexes {A} (m : M A) (Q : A -> Lexer -> Prop) (s : Lexer) : Prop :=
  match m s with Ok (x, s') => Q x s' | _ => False end.

Lemma lexes_mono {A} (m : M A) (Q Q' : A -> Lexer -> Prop) s :
  lexes m Q s -> (forall x s', Q x s' -> Q' x s') -> lexes m Q' s.
Proof. unfold lexes. destruct (m s) as [[]| |]; eauto. Qed.

Lemma lexes_bind {A B} (m : M A) (k : A -> M B) Q s :
  lexes m (fun x s' => lexes (k x) Q s') s -> lexes (bind m k) Q s.
Proof. unfold lexes, bind. by destruct (m s) as [[]| |]. Qed.

Lemma lexes_then {A B} (m : M A) (k : A -> M B) (Q : A -> Lexer -> Prop) Q' s :
  lexes m Q s -> (forall x s', Q x s' -> lexes (k x) Q' s') -> lexes (bind m k) Q' s.
Proof. intros Hm Hk. apply lexes_bind. by eapply lexes_mono. Qed.

Lemma lexes_ret {A} (x : A) (Q : A -> Lexer -> Prop) s : Q x s -> lexes (ret x) Q s.
Proof. done. Qed.
Lemma lexes_get (Q : Lexer -> Lexer -> Prop) s : Q s s -> lexes get Q s.
Proof. done. Qed.
Lemma lexes_modify f (Q : unit -> Lexer -> Prop) s : Q tt (f s) -> lexes (modify f) Q s.
Proof. done. Qed.
Lemma lexes_lift {A} (o : outcome LexError A) x (Q : A -> Lexer -> Prop) s :
  o = Ok x -> Q x s -> lexes (lift o) Q s.
Proof. by intros ->. Qed.
Lemma lexes_advance n (Q : unit -> Lexer -> Prop) s :
  Q tt (set_col (col s + n) (set_pos (pos s + n) s)) -> lexes (advance n) Q s.
Proof. done. Qed.
Lemma lexes_skip (Q : unit -> Lexer -> Prop) s :
  Q tt (set_pos (pos s + 1) s) -> lexes skip Q s.
Proof. done. Qed.
Lemma lexes_newline (Q : unit -> Lexer -> Prop) s :
  Q tt (set_col 1 (set_line (line s + 1) s)) -> lexes newline Q s.
Proof. done. Qed.

(** ** The cursor *)

Section Reading.
Context (L : Source).

Lemma lexes_look n (Q : option Z -> Lexer -> Prop) s :
  Q (src L !! (pos s + n)%nat) s -> lexes (look L n) Q s.
Proof. done. Qed.
Lemma lexes_peek (Q : option Z -> Lexer -> Prop) s :
  Q (src L !! pos s) s -> lexes (peek L) Q s.
Proof. unfold peek, look, lexes. by rewrite Nat.add_0_r. Qed.

(** What a comment that does not end adds to the errors. *)
Definition unclosed (e : SpannedToken) : Prop :=
  e.1 = Unknown (chr "/") /\ source_range e.2 = None.
Definition more_errors (l l' : list SpannedToken) : Prop :=
  exists es, l' = l ++ es /\ Forall unclosed es.

Lemma more_errors_refl l : more_errors l l.
Proof. exists []. by rewrite app_nil_r. Qed.
Lemma more_errors_trans a b c : more_errors a b -> more_errors b c -> more_errors a c.
Proof.
  intros (x & -> & Hx) (y & -> & Hy). exists (x ++ y).
  rewrite app_assoc. split; [done|]. by apply Forall_app.
Qed.

(** The cursor moves forward inside the text, with at most a line for each
    character; the queues and the goal stay. *)
Record reads (s s' : Lexer) : Prop := {
  reads_pos : (pos s <= pos s' <= length (src L))%nat;
  reads_line : (line s <= line s')%nat;
  reads_lines : (line s' + pos s <= line s + pos s')%nat;
  reads_pending : pending s' = pending s;
  reads_spans : pending_spans s' = pending_spans s;
  reads_goal : goal s' = goal s;
  reads_errors : more_errors (lexical_errors s) (lexical_errors s');
}.

Definition moves (s s' : Lexer) : Prop := reads s s' /\ (pos s < pos s')%nat.

Abbreviation inside s := (pos s <= length (src L))%nat (only parsing).

Lemma reads_refl s : inside s -> reads s s.
Proof. split; auto using more_errors_refl; lia. Qed.
Lemma reads_trans a b c : reads a b -> reads b c -> reads a c.
Proof.
  intros [] []. split; try lia; try congruence. by eapply more_errors_trans.
Qed.
Lemma reads_inside a b : reads a b -> inside b.
Proof. intros []. lia. Qed.
Lemma moves_reads a b : moves a b -> reads a b.
Proof. by intros []. Qed.
Lemma moves_then a b c : moves a b -> reads b c -> moves a c.
Proof. intros [H1 H2] H3. split; [by eapply reads_trans|]. destruct H3. lia. Qed.
Lemma moves_after a b c : reads a b -> moves b c -> moves a c.
Proof. intros H1 [H2 H3]. split; [by eapply reads_trans|]. destruct H1. lia. Qed.

Lemma look_inside s n c : src L !! (pos s + n)%nat = Some c -> (pos s + n < length (src L))%nat.
Proof. apply lookup_lt_Some. Qed.

End Reading.

(** ** What may be skipped between tokens *)

Section Trivia.
Context (L : Source).

Definition no_terminator (a b : nat) : Prop :=
  forall i c, (a <= i < b)%nat -> src L !! i = Some c -> is_line_terminator c = false.
Definition ends_line (b : nat) : bool :=
  match src L !! b with Some c => is_line_terminator c | None => true end.
(** The rest of a line. *)
Definition rest_of_line (a b : nat) : Prop :=
  (a < b <= length (src L))%nat /\ no_terminator a b /\ ends_line b = true.

(** A character of space, a comment, or the first line of a script that names its
    program. *)
Inductive piece : nat -> nat -> Prop :=
| piece_space a c : src L !! a = Some c -> is_space c || is_line_terminator c = true ->
    piece a (a + 1)
| piece_line a b : starts_with (chars "//") (drop a (src L)) = true -> rest_of_line a b ->
    piece a b
| piece_block a b : starts_with (chars "/*") (drop a (src L)) = true -> (a + 4 <= b)%nat ->
    starts_with (chars "*/") (drop (b - 2) (src L)) = true -> piece a b
| piece_unclosed a : starts_with (chars "/*") (drop a (src L)) = true ->
    piece a (length (src L))
| piece_html a b : module_goal L = false ->
    starts_with (chars "<!--") (drop a (src L)) || starts_with (chars "-->") (drop a (src L)) = true ->
    rest_of_line a b -> piece a b
| piece_hashbang b : starts_with (chars "#!") (src L) = true -> rest_of_line 0 b -> piece 0 b.

Definition trivia : nat -> nat -> Prop := rtc piece.

End Trivia.

Lemma starts_with_length p l : starts_with p l = true -> (length p <= length l)%nat.
Proof.
  unfold starts_with. intros H%bool_decide_eq_true. rewrite <- H at 1.
  rewrite length_take. lia.
Qed.

Lemma starts_with_head x p l n : starts_with (x :: p) (drop n l) = true -> l !! n = Some x.
Proof.
  unfold starts_with. intros H%bool_decide_eq_true. destruct (l !! n) as [y|] eqn:E.
  - rewrite (drop_S _ _ _ E) in H. cbn in H. by simplify_eq.
  - apply lookup_ge_None in E. by rewrite drop_ge in H.
Qed.

Lemma starts_with_2 l n a b : l !! n = Some a -> l !! S n = Some b ->
  starts_with [a; b] (drop n l) = true.
Proof.
  intros H1 H2. unfold starts_with. apply bool_decide_eq_true. cbn.
  rewrite (drop_S _ _ _ H1). cbn. by rewrite (drop_S _ _ _ H2).
Qed.

Create HintDb lexer.
#[export] Hint Resolve reads_refl reads_trans reads_inside moves_reads moves_then
  moves_after : lexer.

(** One rule of the computation in front. *)
Ltac lrule :=
  match goal with
  | |- lexes (bind _ _) _ _ => apply lexes_bind
  | |- lexes (ret _) _ _ => apply lexes_ret
  | |- lexes get _ _ => apply lexes_get
  | |- lexes (peek _) _ _ => apply lexes_peek
  | |- lexes (look _ _) _ _ => apply lexes_look
  | |- lexes (advance _) _ _ => apply lexes_advance
  | |- lexes skip _ _ => apply lexes_skip
  | |- lexes newline _ _ => apply lexes_newline
  | |- lexes clear_line _ _ => apply lexes_modify
  | |- lexes (modify _) _ _ => apply lexes_modify
  end.
Ltac lrules := repeat (lrule; cbv beta).

(** A call by its specification; what it needs of the state is left to prove. *)
Ltac lthen :=
  cbv beta;
  match goal with
  | |- lexes (bind _ _) _ _ => eapply lexes_then
  | |- _ => eapply lexes_mono
  end.
Ltac lthen_with Q0 :=
  cbv beta;
  match goal with
  | |- lexes (bind _ _) _ _ => apply lexes_then with (Q := Q0)
  | |- _ => apply lexes_mono with (Q := Q0)
  end.
Tactic Notation "lcall" tactic3(T) := lthen; [T|]; cbv beta.

(** A character that is there is inside the text. *)
Ltac inside :=
  repeat match goal with
  | E : src ?L !! ?n = Some _ |- _ =>
      lazymatch goal with
      | _ : (n < length (src L))%nat |- _ => fail
      | _ => let Hin := fresh "Hin" in pose proof (lookup_lt_Some _ _ _ E) as Hin
      end
  end.

(** A step that writes the cursor only. *)
Ltac step := inside; split; cbn in *; try lia; try done; try apply more_errors_refl.

Section Loops.
Context (L : Source).
Abbreviation inside s := (pos s <= length (src L))%nat (only parsing).
Abbreviation reads := (reads L).
Abbreviation moves := (moves L).

Lemma cursor_fuel s : (length (src L) - pos s < LOOP L)%nat.
Proof. unfold LOOP. lia. Qed.

(** The characters passed all satisfy [p], and the next one does not. *)
Lemma advance_while_reads p : forall fuel s, inside s -> (length (src L) - pos s < fuel)%nat ->
  lexes (advance_while L p fuel) (fun _ s' => reads s s'
    /\ (forall i c, (pos s <= i < pos s')%nat -> src L !! i = Some c -> p c = true)
    /\ holds p (src L !! pos s') = false /\ line s' = line s) s.
Proof.
  induction fuel as [|fuel IH]; intros s Hs Hf; [lia|]. cbn [advance_while]. lrules.
  destruct (src L !! pos s) as [c|] eqn:E; cbn [holds].
  2: { lrules. rewrite E. split_and!; auto with lexer. intros; lia. }
  destruct (p c) eqn:Ep; lrules.
  2: { rewrite E. split_and!; auto with lexer. intros; lia. }
  inside. lcall (apply IH; cbn; lia). intros _ s' (Hr & Hp & Hn & Hl).
  assert (reads s (set_col (col s + 1) (set_pos (pos s + 1) s))) as H1 by step.
  split_and!; [by eapply reads_trans| |done|by rewrite Hl].
  intros i c' Hi E'. destruct (decide (i = pos s)) as [->|]; [by simplify_eq|].
  apply (Hp i); [|done]. cbn. lia.
Qed.


Lemma skip_line_reads s : inside s ->
  lexes (skip_line L) (fun _ s' => reads s s' /\ line s' = line s
    /\ no_terminator L (pos s) (pos s') /\ ends_line L (pos s') = true) s.
Proof.
  intros Hs. unfold skip_line. lcall (by apply advance_while_reads, cursor_fuel).
  intros _ s' (Hr & Hp & Hn & Hl). split_and!; [done|done| |].
  - intros i c Hi E. specialize (Hp i c Hi E). by apply negb_true_iff in Hp.
  - unfold ends_line. destruct (src L !! pos s'); [|done]. cbn in Hn. by apply negb_false_iff in Hn.
Qed.

Lemma block_comment_reads : forall fuel s, inside s -> (length (src L) - pos s < fuel)%nat ->
  lexes (block_comment L fuel) (fun closed s' => reads s s'
    /\ if closed : bool
       then (pos s + 2 <= pos s')%nat /\ starts_with (chars "*/") (drop (pos s' - 2) (src L)) = true
       else pos s' = length (src L)) s.
Proof.
  induction fuel as [|fuel IH]; intros s Hs Hf; [lia|]. cbn [block_comment]. lrules.
  destruct (src L !! pos s) as [c|] eqn:E.
  2: { lrules. split; auto with lexer. apply lookup_ge_None in E. lia. }
  destruct ((c =? chr "*") && at_char (src L !! (pos s + 1)%nat) (chr "/")) eqn:Ec.
  - apply andb_true_iff in Ec as [Ec Ed]. apply Z.eqb_eq in Ec as ->.
    destruct (src L !! (pos s + 1)%nat) as [d|] eqn:E1; [|done].
    apply Z.eqb_eq in Ed as ->. lrules. split; [step|]. cbn. split; [lia|].
    replace (pos s + 2 - 2)%nat with (pos s) by lia. apply starts_with_2; [done|].
    by rewrite <- Nat.add_1_r.
  - clear Ec. lrules.
    lthen_with (fun (_ : unit) s' => reads s s' /\ (pos s < pos s')%nat).
    { destruct (is_line_terminator c); lrules; [|split; [step|cbn; lia]].
      destruct ((c =? 13) && at_char (src L !! (pos s + 1)%nat) 10) eqn:Ec; lrules;
        [|split; [step|cbn; lia]].
      destruct (src L !! (pos s + 1)%nat) eqn:E1; [|by rewrite andb_false_r in Ec].
      split; [step|cbn; lia]. }
    intros _ s1 [H1 H2]. pose proof (reads_inside _ _ _ H1).
    lcall (apply IH; [done|lia]). intros closed s' [H3 H4].
    split; [by eapply reads_trans|]. destruct closed; [|done]. destruct H4. split; [lia|done].
Qed.

Lemma skip_block_comment_reads s c : src L !! pos s = Some c ->
  starts_with (chars "/*") (drop (pos s) (src L)) = true ->
  lexes (skip_block_comment L) (fun _ s' => moves s s' /\ piece L (pos s) (pos s')) s.
Proof.
  intros E Es. unfold skip_block_comment. lrules.
  pose proof (starts_with_length _ _ Es) as Hl. rewrite length_drop in Hl.
  change (length (chars "/*")) with 2%nat in Hl.
  assert (reads s (set_col (col s + 2) (set_pos (pos s + 2) s))) as H1 by step.
  lcall (apply block_comment_reads; [cbn; lia|apply cursor_fuel]).
  intros closed s' [H2 H3]. pose proof (reads_trans _ _ _ _ H1 H2) as H4.
  destruct closed; lrules; (split; [split|]).
  - done.
  - cbn in H3. lia.
  - apply piece_block; [done| |apply H3]. cbn in H3. lia.
  - destruct H4. split; cbn; try done. destruct reads_errors0 as (es & -> & He).
    eexists (es ++ [_]). rewrite app_assoc. split; [done|]. apply Forall_app. split; [done|].
    by apply Forall_singleton.
  - cbn. lia.
  - cbn. rewrite H3. by apply piece_unclosed.
Qed.

Definition skips (s s' : Lexer) : Prop := reads s s' /\ trivia L (pos s) (pos s').

Lemma skips_refl s : inside s -> skips s s.
Proof. split; [by apply reads_refl|done]. Qed.
Lemma skips_piece s s' s'' : reads s s' -> piece L (pos s) (pos s') -> skips s' s'' -> skips s s''.
Proof. intros H1 H2 [H3 H4]. split; [by eapply reads_trans|]. by eapply rtc_l. Qed.

(** The rest of a line that begins with a character of its own. *)
Lemma skip_rest s c s1 : src L !! pos s = Some c -> is_line_terminator c = false ->
  reads s s1 -> no_terminator L (pos s) (pos s1) ->
  lexes (skip_line L) (fun _ s' => moves s s' /\ rest_of_line L (pos s) (pos s')) s1.
Proof.
  intros E Ec H1 Hn. inside. lcall (apply skip_line_reads; by eapply reads_inside).
  intros _ s' (H2 & _ & Hn' & He). pose proof (reads_trans _ _ _ _ H1 H2) as H3.
  assert (no_terminator L (pos s) (pos s')) as Hn2.
  { intros i d Hi Ed. destruct (decide (i < pos s1)%nat); [apply (Hn i d); [lia|done]|].
    apply (Hn' i d); [lia|done]. }
  assert (pos s < pos s')%nat.
  { destruct (decide (pos s < pos s')%nat); [done|]. exfalso. destruct H3.
    replace (pos s') with (pos s) in He by lia. unfold ends_line in He. rewrite E in He. congruence. }
  split; [done|]. split; [destruct H3; lia|done].
Qed.

Lemma no_terminator_refl a : no_terminator L a a.
Proof. intros i c Hi. lia. Qed.

Lemma skip_line_moves s c : src L !! pos s = Some c -> is_line_terminator c = false ->
  lexes (skip_line L) (fun _ s' => moves s s' /\ rest_of_line L (pos s) (pos s')) s.
Proof.
  intros E Ec. inside. eapply skip_rest; eauto using no_terminator_refl with lexer.
  apply reads_refl. lia.
Qed.

Lemma skip_ws_loop_reads : forall fuel s, inside s -> (length (src L) - pos s < fuel)%nat ->
  lexes (skip_ws_loop L fuel) (fun _ s' => skips s s') s.
Proof.
  induction fuel as [|fuel IH]; intros s Hs Hf; [lia|].
  assert (forall s1, moves s s1 -> piece L (pos s) (pos s1) ->
    lexes (skip_ws_loop L fuel) (fun _ s' => skips s s') s1) as Hk.
  { intros s1 [H1 H2] Hp. lcall (apply IH; [by eapply reads_inside|]).
    { destruct H1. lia. }
    intros _ s'. by apply skips_piece. }
  cbn [skip_ws_loop]. lrules.
  destruct (src L !! pos s) as [c|] eqn:E; [|lrules; by apply skips_refl].
  destruct ((pos s =? 0)%nat && starts_with (chars "#!") (src L)) eqn:E1.
  { apply andb_true_iff in E1 as [E0 E1]. apply Nat.eqb_eq in E0.
    pose proof E1 as Eh. change (src L) with (drop 0 (src L)) in Eh. apply starts_with_head in Eh.
    rewrite E0 in E. rewrite E in Eh. injection Eh as ->.
    lcall (eapply skip_line_moves; [by rewrite E0|done]).
    intros _ s1 [Hm Hr]. rewrite E0 in Hr. apply Hk; [done|]. rewrite E0. by apply piece_hashbang. }
  clear E1. destruct (negb (module_goal L) && _) eqn:E1.
  { apply andb_true_iff in E1 as [E0 E1]. apply negb_true_iff in E0.
    assert (starts_with (chars "<!--") (drop (pos s) (src L))
            || starts_with (chars "-->") (drop (pos s) (src L)) = true) as E2.
    { apply orb_true_iff in E1 as [->|E1]; [done|]. apply andb_true_iff in E1 as [_ ->]. apply orb_true_r. }
    assert (is_line_terminator c = false) as Ec.
    { apply orb_true_iff in E2 as [E2|E2]; apply starts_with_head in E2; rewrite E in E2; by simplify_eq. }
    lcall (by eapply skip_line_moves). intros _ s1 [Hm Hr]. apply Hk; [done|]. by apply piece_html. }
  clear E1. inside.
  destruct ((c =? 10) || (c =? 0x2028) || (c =? 0x2029)) eqn:E1; lrules.
  { apply Hk; [split; [step|cbn; lia]|]. cbn. apply (piece_space _ _ c); [done|].
    unfold is_line_terminator. apply orb_true_iff. right.
    rewrite !orb_true_iff in E1. rewrite !orb_true_iff. tauto. }
  clear E1. destruct (c =? 13) eqn:E1; lrules.
  { apply Z.eqb_eq in E1 as ->. destruct (at_char (src L !! (pos s + 1)%nat) 10) eqn:E2; lrules.
    - destruct (src L !! (pos s + 1)%nat) as [d|] eqn:E3; [|done]. apply Z.eqb_eq in E2 as ->.
      set (s1 := set_pos _ _). pose proof (lookup_lt_Some _ _ _ E3).
      lcall (apply IH; subst s1; cbn; lia). intros _ s' Hs'.
      apply (skips_piece s (set_pos (pos s + 1) s)); [step|by apply (piece_space _ _ 13)|].
      apply (skips_piece _ s1); [subst s1; step|by apply (piece_space _ _ 10)|done].
    - apply Hk; [split; [step|cbn; lia]|]. cbn. by apply (piece_space _ _ 13). }
  destruct (is_space c) eqn:E2; lrules.
  { apply Hk; [split; [step|cbn; lia]|]. cbn. apply (piece_space _ _ c); [done|]. by rewrite E2. }
  destruct (c =? chr "/") eqn:E3; [|lrules; by apply skips_refl]. apply Z.eqb_eq in E3 as ->.
  destruct (src L !! (pos s + 1)%nat) as [d|] eqn:Ed; cbn [at_char];
    [|lrules; by apply skips_refl].
  rewrite Nat.add_1_r in Ed.
  destruct (d =? chr "/") eqn:E4; lrules.
  { apply Z.eqb_eq in E4 as ->. pose proof (starts_with_2 _ _ _ _ E Ed) as Ew. inside.
    lcall (eapply (skip_rest s); [done|done|step|]).
    { intros i x Hi Ex. cbn in Hi. assert (i = pos s \/ i = S (pos s)) as [->| ->] by lia;
        by simplify_eq. }
    intros _ s1 [Hm Hr]. apply Hk; [done|]. by apply piece_line. }
  destruct (d =? chr "*") eqn:E5; [|lrules; by apply skips_refl].
  apply Z.eqb_eq in E5 as ->. pose proof (starts_with_2 _ _ _ _ E Ed) as Ew.
  lcall (by eapply skip_block_comment_reads). intros _ s1 [Hm Hp]. by apply Hk.
Qed.

Lemma skip_ws_reads s : inside s -> lexes (skip_ws L) (fun _ s' => skips s s') s.
Proof. intros Hs. apply skip_ws_loop_reads; [done|apply cursor_fuel]. Qed.

End Loops.
