(* ===== verification/LexerReads.v ===== *)
(** The readers of literals, names and regular expressions end and move the cursor
    inside the text. *)
From stdpp Require Import prelude list strings.
From Stdlib Require Import ZArith Lia SpecFloat Ascii.
From S2P Require Import Prelude JsString Token Lexer LexerSpec.
Import Token Lexer.
Local Open Scope Z_scope.
Local Open Scope lex_scope.

(** A counter in range does not overflow. *)
Lemma i32_add_ok a b : - 2 ^ 31 <= a + b < 2 ^ 31 -> i32_add a b = Ok (a + b).
Proof.
  intros. unfold i32_add, in_range. rewrite !(proj2 (Z.leb_le _ _)) by lia. done.
Qed.

Section Readers.
Context `{IdentifierTables} (L : Source).
Context (short : Z.of_nat (length (src L)) < 2 ^ 31).
Abbreviation inside s := (pos s <= length (src L))%nat (only parsing).
Abbreviation reads := (reads L).
Abbreviation moves := (moves L).

(** The characters from [a] to [b]. *)
Definition text (a b : nat) : Text := take (b - a) (drop a (src L)).

Lemma slice_text a b : (a <= b <= length (src L))%nat -> slice (src L) a b = Ok (text a b).
Proof. intros []. unfold slice. rewrite !(proj2 (Nat.leb_le _ _)) by done. done. Qed.

Lemma text_nil a : text a a = [].
Proof. unfold text. by rewrite Nat.sub_diag. Qed.

Lemma text_snoc a b c : (a <= b)%nat -> src L !! b = Some c -> text a (b + 1) = text a b ++ [c].
Proof.
  intros Hl E. unfold text. replace (b + 1 - a)%nat with (S (b - a)) by lia.
  apply take_S_r. rewrite lookup_drop. by replace (a + (b - a))%nat with b by lia.
Qed.

Lemma text_cons a b c : (a + 1 <= b)%nat -> src L !! a = Some c -> text a b = [c] ++ text (a + 1) b.
Proof.
  intros Hl E. unfold text. rewrite (drop_S _ _ _ E).
  replace (b - a)%nat with (S (b - (a + 1))) by lia. cbn. by rewrite Nat.add_1_r.
Qed.

Lemma reads_advance s n : (pos s + n <= length (src L))%nat ->
  reads s (set_col (col s + n) (set_pos (pos s + n) s)).
Proof. intros. step. Qed.
Lemma reads_skip s : (pos s + 1 <= length (src L))%nat -> reads s (set_pos (pos s + 1) s).
Proof. intros. step. Qed.

(** The spelling of a token that has only one. *)
Definition spelling (t : Token) : option Text :=
  match t with
  | EscapedIdentifier _ => None
  | Plus => Some (chars "+") | Minus => Some (chars "-") | Star => Some (chars "*")
  | Slash => Some (chars "/") | Percent => Some (chars "%")
  | PlusPlus => Some (chars "++") | MinusMinus => Some (chars "--")
  | Equal => Some (chars "=") | PlusEqual => Some (chars "+=") | MinusEqual => Some (chars "-=")
  | StarEqual => Some (chars "*=") | SlashEqual => Some (chars "/=")
  | EqualEqual => Some (chars "==") | NotEqual => Some (chars "!=")
  | EqualEqualEqual => Some (chars "===") | NotEqualEqual => Some (chars "!==")
  | Less => Some (chars "<") | Greater => Some (chars ">")
  | LessEqual => Some (chars "<=") | GreaterEqual => Some (chars ">=")
  | And => Some (chars "&&") | Or => Some (chars "||") | Not => Some (chars "!")
  | LParen => Some (chars "(") | RParen => Some (chars ")")
  | LBrace => Some (chars "{") | RBrace => Some (chars "}")
  | LBracket => Some (chars "[") | RBracket => Some (chars "]")
  | Semicolon => Some (chars ";") | Comma => Some (chars ",") | Dot => Some (chars ".")
  | Colon => Some (chars ":") | Question => Some (chars "?") | Arrow => Some (chars "=>")
  | DotDotDot => Some (chars "...")
  | BitAnd => Some (chars "&") | BitOr => Some (chars "|") | BitXor => Some (chars "^")
  | Tilde => Some (chars "~") | Shl => Some (chars "<<") | Shr => Some (chars ">>")
  | UShr => Some (chars ">>>") | StarStar => Some (chars "**")
  | QuestionQuestion => Some (chars "??") | AndEqual => Some (chars "&&=")
  | OrEqual => Some (chars "||=") | NullishEqual => Some (chars "??=")
  | QuestionDot => Some (chars "?.") | PercentEqual => Some (chars "%=")
  | AmpEqual => Some (chars "&=") | PipeEqual => Some (chars "|=")
  | CaretEqual => Some (chars "^=") | ShlEqual => Some (chars "<<=")
  | ShrEqual => Some (chars ">>=") | UShrEqual => Some (chars ">>>=")
  | StarStarEqual => Some (chars "**=") | Backtick => Some (chars "`")
  | DollarLBrace => Some (chars "${")
  | _ => identifier_name t
  end.

Definition spelled (t : Token) (w : Text) : Prop := forall w', spelling t = Some w' -> w' = w.

Lemma unspelled t w : spelling t = None -> spelled t w.
Proof. intros E w' E'. congruence. Qed.

Lemma source_unit_string_reads s c : inside s ->
  lexes (source_unit_string L c) (fun _ s' => reads s s' /\ line s' = line s) s.
Proof.
  intros Hs. unfold source_unit_string.
  destruct (encoded_source L && _); [|lrules; auto with lexer]. lrules.
  destruct (at_char (src L !! pos s) JsString.marker) eqn:E; lrules.
  { destruct (src L !! pos s) eqn:E1; [|done]. split; [step|done]. }
  destruct (at_char _ _ && _) eqn:E2; lrules; [|by auto with lexer].
  apply andb_true_iff in E2 as [_ E2]. apply Nat.leb_le in E2.
  eapply lexes_lift; [apply slice_text; lia|].
  destruct (JsString.u16_from_str_radix _ _); lrules; (split; [|done]); [step|auto with lexer].
Qed.

Lemma octal_digits_reads : forall n s v, inside s ->
  lexes (octal_digits L n v) (fun _ s' => reads s s') s.
Proof.
  induction n as [|n IH]; intros s v Hs; cbn [octal_digits]; lrules; [auto with lexer|].
  destruct (src L !! pos s) as [c|] eqn:E; cbn; [|lrules; auto with lexer].
  destruct (to_digit 8 c); lrules; [|auto with lexer]. inside.
  lcall (apply IH; cbn; lia). intros x s' Hr. eapply reads_trans; [|done]. step.
Qed.


Definition counted (digits : Z) (p : nat) : Prop :=
  0 <= digits /\ digits + Z.of_nat (length (src L) - p) <= Z.of_nat (length (src L)).

Lemma counted_step digits p : (p < length (src L))%nat -> counted digits p ->
  i32_add digits 1 = Ok (digits + 1) /\ counted (digits + 1) (p + 1).
Proof. unfold counted. intros H1 []. split; [apply i32_add_ok|]; lia. Qed.

Lemma counted_0 p : counted 0 p.
Proof. unfold counted. lia. Qed.

Lemma escape_digits_reads braced count : forall fuel s v n, inside s ->
  (length (src L) - pos s < fuel)%nat -> counted n (pos s) ->
  lexes (escape_digits L fuel braced count v n) (fun _ s' => reads s s') s.
Proof.
  induction fuel as [|fuel IH]; intros s v n Hs Hf Hn; [lia|]. cbn [escape_digits]. lrules.
  destruct (src L !! pos s) as [c|] eqn:E; [|lrules; auto with lexer].
  destruct (negb _); lrules; [auto with lexer|].
  destruct (braced && _); lrules; [auto with lexer|].
  destruct (n' ← to_digit 16 c; push_hex v n') as [v'|]; lrules; [|auto with lexer]. inside.
  destruct (counted_step n (pos s)) as [Ei Hn']; [done|done|].
  eapply lexes_lift; [done|]. lcall (apply IH; [cbn; lia|cbn; lia|done]).
  intros x s' Hr. eapply reads_trans; [|done]. step.
Qed.

(** A test for a character, with a step over it. *)
Lemma eat_reads (b : bool) s : inside s -> (b = true -> exists c, src L !! pos s = Some c) ->
  lexes (if b then advance 1 else ret tt) (fun _ s' => reads s s') s.
Proof.
  intros Hs Hb. destruct b; lrules; [|auto with lexer]. destruct (Hb eq_refl) as [c E]. step.
Qed.

Lemma at_char_some o c : at_char o c = true -> o = Some c.
Proof. destruct o; [|done]. cbn. by intros ->%Z.eqb_eq. Qed.

Lemma escape_code_reads s e : inside s -> lexes (escape_code L e) (fun _ s' => reads s s') s.
Proof.
  intros Hs. unfold escape_code. lrules. cbv zeta.
  lcall (apply eat_reads; [done|]).
  { intros [_ E%at_char_some]%andb_true_iff. eauto. }
  intros _ s1 H1. pose proof (reads_inside _ _ _ H1) as HiH1.
  lcall (apply escape_digits_reads; [done|apply cursor_fuel|apply counted_0]).
  intros [[v n]|] s2 H2; lrules; [|by eauto with lexer].
  pose proof (reads_trans _ _ _ _ H1 H2) as H3. pose proof (reads_inside _ _ _ H3) as HiH3.
  destruct (_ && (_ || _)) eqn:E1; lrules; [done|]. destruct (negb _ && _) eqn:E2; lrules; [done|].
  lcall (apply eat_reads; [done|]).
  { intros Hb. rewrite Hb in E1. cbn in E1. rewrite !orb_false_iff, negb_false_iff in E1.
    destruct E1 as [[_ E1%at_char_some] _]. eauto. }
  intros _ s3 Hr. lrules. by eapply reads_trans.
Qed.

Lemma read_escape_reads s b : inside s ->
  lexes (read_escape L b) (fun _ s' => reads s s' /\
    (pos s < length (src L) -> pos s < pos s')%nat) s.
Proof.
  intros Hs. unfold read_escape. lrules.
  destruct (src L !! pos s) as [e|] eqn:E; lrules.
  2: { apply lookup_ge_None in E. split; [auto with lexer|lia]. }
  inside. set (s1 := set_col _ _). assert (moves s s1) as [H1 H1'].
  { split; [step|cbn; lia]. }
  assert (forall s', reads s1 s' -> reads s s' /\ (pos s < length (src L) -> pos s < pos s')%nat) as Hk.
  { intros s' H2. split; [by eapply reads_trans|]. destruct H2. lia. }
  assert (inside s1) as Hs1 by (cbn; lia).
  pose proof (reads_refl _ _ Hs1) as Hr0.
  destruct (simple_escape e); lrules; [by apply Hk|].
  destruct (_ && _); lrules; [by apply Hk|].
  destruct (in_range 48 55 e); lrules.
  { destruct (negb b); lrules; [by apply Hk|]. lcall (by apply octal_digits_reads).
    intros v s' Hr. lrules. by apply Hk. }
  destruct (_ || _); lrules.
  { destruct (negb b); lrules; [by apply Hk|]. lcall (by apply source_unit_string_reads).
    intros v s' [Hr _]. lrules. by apply Hk. }
  destruct (_ || _); lrules.
  { split; [step|cbn; lia]. }
  destruct (e =? 13); lrules.
  { destruct (at_char _ _) eqn:Ea; lrules; [apply at_char_some in Ea|];
      (split; [step|cbn; lia]). }
  destruct (_ || _).
  { lcall (by apply escape_code_reads). intros x s' Hr. by apply Hk. }
  lcall (by apply source_unit_string_reads). intros v s' [Hr _]. lrules. by apply Hk.
Qed.

Lemma read_str_loop_reads q : forall fuel s t e l, inside s ->
  (length (src L) - pos s < fuel)%nat ->
  lexes (read_str_loop L fuel q t e l) (fun t s' => reads s s' /\ spelling t = None) s.
Proof.
  induction fuel as [|fuel IH]; intros s t e l Hs Hf; [lia|]. cbn [read_str_loop]. lrules.
  destruct (src L !! pos s) as [c|] eqn:E; lrules; [|auto with lexer]. inside.
  set (s1 := set_col _ _). assert (moves s s1) as [H1 H1'].
  { split; [step|cbn; lia]. }
  assert (inside s1) as Hs1 by (cbn; lia).
  assert (forall s2 t e l, reads s1 s2 ->
    lexes (read_str_loop L fuel q t e l) (fun t s' => reads s s' /\ spelling t = None) s2) as Hk.
  { intros s2 t' e' l' H2. pose proof (reads_trans _ _ _ _ H1 H2).
    lcall (apply IH; [by eapply reads_inside|destruct H2; lia]).
    intros x s' []. eauto using reads_trans. }
  destruct (c =? q); lrules; [split; [done|by destruct l, e]|]. destruct (_ || _); lrules; [done|].
  destruct (c =? chr "\"); lrules.
  - lcall (by apply read_escape_reads). intros [x|] s2 [H2 _]; [by apply Hk|].
    lrules. split; [by eapply reads_trans|done].
  - lcall (by apply source_unit_string_reads). intros x s2 [H2 _]. by apply Hk.
Qed.

Lemma read_str_moves s q c : src L !! pos s = Some c -> 
  lexes (read_str L q) (fun t s' => moves s s' /\ spelling t = None) s.
Proof.
  intros E. unfold read_str. lrules. inside.
  lcall (apply read_str_loop_reads; [cbn; lia|apply cursor_fuel]). intros t s' [Hr Ht].
  split; [|done]. eapply moves_then; [|done]. split; [step|cbn; lia].
Qed.

(** *** Numbers *)

Lemma advance_while_loop p s : inside s ->
  lexes (advance_while L p (LOOP L)) (fun _ s' => reads s s'
    /\ holds p (src L !! pos s') = false) s.
Proof.
  intros Hs. lcall (by apply advance_while_reads, cursor_fuel). by intros _ s' (? & _ & ? & _).
Qed.

Lemma read_radix_moves s0 s radix c d : (pos s0 <= pos s)%nat -> src L !! pos s = Some c ->
  src L !! (pos s + 1)%nat = Some d ->
  lexes (read_radix L (pos s0) radix) (fun t s' => moves s s' /\ spelling t = None) s.
Proof.
  intros H0 Ec Ed. unfold read_radix. lrules. inside.
  assert (moves s (set_col (col s + 2) (set_pos (pos s + 2) s))) as H1 by (split; [step|cbn; lia]).
  lcall (apply advance_while_loop; cbn; lia). intros _ s1 [H2 _]. lrules.
  pose proof (moves_then _ _ _ _ H1 H2) as H3. pose proof (reads_inside _ _ _ H2) as HiH2.
  eapply lexes_lift; [apply slice_text; destruct H2; lia|].
  destruct (_ || _); lrules; [done|].
  destruct (at_char _ _) eqn:E; lrules; [|done]. apply at_char_some in E. inside.
  eapply lexes_lift; [apply slice_text; cbn; destruct H3 as [[] ?]; lia|]. lrules.
  split; [|done]. eapply moves_then; [done|]. step.
Qed.

Lemma read_exponent_reads s : inside s -> lexes (read_exponent L) (fun _ s' => reads s s') s.
Proof.
  intros Hs. unfold read_exponent. lrules.
  destruct (_ || _); lrules; [|auto with lexer]. cbv zeta. lrules.
  generalize (if at_char (src L !! (pos s + 1)%nat) (chr "+") || at_char (src L !! (pos s + 1)%nat) (chr "-")
              then 2%nat else 1%nat). intros la. destruct (src L !! (pos s + la)%nat) as [d|] eqn:E;
    cbn [holds]; [|lrules; auto with lexer].
  destruct (is_ascii_digit d); lrules; [|auto with lexer]. inside.
  lcall (apply advance_while_loop; cbn; lia). intros _ s' [Hr _].
  eapply reads_trans; [|done]. step.
Qed.

Lemma decimal_token_reads s0 s c : src L !! s0 = Some c -> (s0 <= pos s)%nat -> inside s ->
  lexes (decimal_token L s0) (fun t s' => reads s s' /\ spelling t = None) s.
Proof.
  intros E0 H0 Hs. unfold decimal_token. lrules. eapply lexes_lift; [apply slice_text; lia|].
  lrules. eapply lexes_lift; [unfold index_or_panic; by rewrite E0|]. cbv zeta.
  destruct (_ || _ || _); lrules; [auto with lexer|].
  destruct (misplaced _ _ _ _); lrules; [auto with lexer|].
  destruct (at_char (src L !! pos s) (chr "n")) eqn:E; lrules.
  - apply at_char_some in E. split; [step|by destruct (_ || _)].
  - split; [auto with lexer|]. by destruct ((c =? chr "0") && holds is_ascii_digit _).
Qed.

Lemma read_num_moves s c : src L !! pos s = Some c -> decimal_part c || (c =? chr ".") = true ->
  lexes (read_num L) (fun t s' => moves s s' /\ spelling t = None) s.
Proof.
  intros E Ec. unfold read_num. lrules. eapply lexes_lift; [unfold index_or_panic; by rewrite E|].
  lrules. inside. destruct (if c =? chr "0" then _ else None) as [radix|] eqn:Er.
  { destruct (c =? chr "0"); [|done].
    destruct (src L !! (pos s + 1)%nat) as [d|] eqn:Ed; [|done]. by eapply (read_radix_moves s s). }
  clear Er. lrules. lcall (apply advance_while_loop; lia). intros _ s1 [H1 Hn]. lrules.
  pose proof (reads_inside _ _ _ H1) as HiH1.
  lthen_with (fun (_ : unit) s' => moves s s').
  { destruct (at_char (src L !! pos s1) (chr ".")) eqn:Ed; lrules.
    - apply at_char_some in Ed. inside. lcall (apply advance_while_loop; cbn; lia).
      intros _ s2 [H2 _]. eapply moves_after; [done|]. eapply moves_then; [|done].
      split; [step|cbn; lia].
    - split; [done|]. destruct (decide (pos s < pos s1)%nat); [done|].
      replace (pos s1) with (pos s) in Hn, Ed by (destruct H1; lia). rewrite E in Hn, Ed.
      cbn in Hn, Ed. rewrite Hn, Ed in Ec. done. }
  intros _ s2 H2. pose proof (moves_reads _ _ _ H2) as H2'. pose proof (reads_inside _ _ _ H2').
  lcall (by apply read_exponent_reads). intros _ s3 H3.
  pose proof (moves_then _ _ _ _ H2 H3) as H4. pose proof (reads_inside _ _ _ H3) as HiH3.
  lcall (eapply decimal_token_reads; [done|destruct H4 as [[] _]; lia|done]).
  intros t s4 [H5 Ht]. split; [by eapply moves_then|done].
Qed.

(** *** Names *)

Lemma identifier_digits_reads braced : forall fuel s v n, inside s ->
  (length (src L) - pos s < fuel)%nat -> counted n (pos s) ->
  lexes (identifier_digits L fuel braced v n) (fun _ s' => reads s s') s.
Proof.
  induction fuel as [|fuel IH]; intros s v n Hs Hf Hn; [lia|]. cbn [identifier_digits]. lrules.
  destruct (src L !! pos s) as [c|] eqn:E; [|lrules; auto with lexer].
  destruct (_ || _); lrules; [auto with lexer|].
  destruct (n' ← to_digit 16 c; push_hex v n') as [v'|]; lrules; [|auto with lexer]. inside.
  destruct (counted_step n (pos s)) as [Ei Hn']; [done|done|].
  eapply lexes_lift; [done|]. lcall (apply IH; [cbn; lia|cbn; lia|done]).
  intros x s' Hr. eapply reads_trans; [|done]. step.
Qed.

Lemma identifier_escape_moves s c : src L !! pos s = Some c ->
  lexes (identifier_escape L) (fun _ s' => moves s s') s.
Proof.
  intros E. unfold identifier_escape. lrules. inside.
  set (s1 := set_col _ _). assert (moves s s1) as H1 by (split; [step|cbn; lia]).
  destruct (negb _) eqn:Eu; lrules; [done|]. apply negb_false_iff, at_char_some in Eu. cbv zeta.
  inside. set (s2 := set_col _ (set_pos (pos s1 + 1) _)).
  assert (reads s1 s2) as H2 by step. pose proof (reads_inside _ _ _ H2) as Hs2.
  lcall (apply eat_reads; [done|]). { intros Eb%at_char_some. eauto. }
  intros _ s3 H3. pose proof (reads_inside _ _ _ H3) as HiH3.
  lcall (apply identifier_digits_reads; [done|apply cursor_fuel|apply counted_0]).
  intros r s4 H4.
  assert (moves s s4) as H5 by eauto using moves_then.
  pose proof (reads_inside _ _ _ H4) as HiH4.
  destruct r as [[v n]|]; lrules; [|done]. destruct (_ || _); lrules; [done|].
  destruct (_ && _) eqn:Eb; lrules; [done|].
  lcall (apply eat_reads; [done|]).
  { intros Hb. rewrite Hb in Eb. cbn in Eb. apply negb_false_iff, at_char_some in Eb. eauto. }
  intros _ s5 H6. lrules. by eapply moves_then.
Qed.

Lemma read_ident_loop_reads : forall fuel s i e, inside s ->
  (length (src L) - pos s < fuel)%nat ->
  lexes (read_ident_loop L fuel i e) (fun t s' => reads s s'
    /\ (t = Unknown (chr "\") \/ (exists i', t = EscapedIdentifier i')
        \/ e = false /\ t = identifier_token (i ++ text (pos s) (pos s')) false)
    /\ (forall c, src L !! pos s = Some c -> fits i c || (c =? chr "\") = true ->
        (pos s < pos s')%nat)) s.
Proof.
  induction fuel as [|fuel IH]; intros s i e Hs Hf; [lia|]. cbn [read_ident_loop]. lrules.
  assert (e = true -> exists i', identifier_token i e = EscapedIdentifier i') as He.
  { intros ->. by eexists. }
  assert (identifier_token i e = Unknown (chr "\") \/ (exists i', identifier_token i e = EscapedIdentifier i')
        \/ e = false /\ identifier_token i e = identifier_token (i ++ text (pos s) (pos s)) false) as Hstop.
  { rewrite text_nil, app_nil_r. destruct e; [auto|]. auto. }
  destruct (src L !! pos s) as [c|] eqn:E; lrules.
  2: { split_and!; [auto with lexer|done|done]. }
  destruct (c =? chr "\") eqn:Ec.
  - lcall (by eapply identifier_escape_moves). intros [c'|] s1 [H1 Hm]; lrules.
    2: { split_and!; [done|by left|by intros]. }
    pose proof (reads_inside _ _ _ H1) as HiH1.
    destruct (fits i c') eqn:Ef; lrules. 2: { split_and!; [done|by left|by intros]. }
    lcall (apply IH; [done|lia]). intros t s2 (H2 & Ht & _).
    split_and!; [by eapply reads_trans| |destruct H2; intros; lia].
    destruct Ht as [?|[?|[? _]]]; [by left|by right; left|done].
  - destruct (fits i c) eqn:Ef; lrules.
    2: { split_and!; [auto with lexer|done|]. intros c' [= <-]. by rewrite Ef, Ec. }
    inside. lcall (apply IH; [cbn; lia|cbn; lia]). intros t s2 (H2 & Ht & _).
    split_and!; [eapply reads_trans; [|done]; step| |destruct H2; cbn in *; intros; lia].
    destruct Ht as [?|[?|[-> ->]]]; [by left|by right; left|]. right; right. split; [done|].
    f_equal. rewrite <- app_assoc. f_equal. cbn [pos set_col set_pos].
    symmetry. destruct H2 as [H2 _ _ _ _ _ _]. cbn in H2. apply text_cons; [lia|done].
Qed.

(** A word is read as the token whose name it is. *)
Lemma keyword_names i t : lookup_keyword keywords i = Some t ->
  identifier_name t = Some i /\ spelling t = Some i.
Proof.
  unfold keywords. cbn [lookup_keyword].
  repeat (case_bool_decide; [intros [= <-]; subst; by split|]). done.
Qed.

Lemma keyword_no_identifier i t : lookup_keyword keywords i = Some t -> forall n, t <> Identifier n.
Proof.
  unfold keywords. cbn [lookup_keyword].
  repeat (case_bool_decide; [by intros [= <-]|]). done.
Qed.

Lemma identifier_token_name i : identifier_name (identifier_token i false) = Some i.
Proof.
  unfold identifier_token. destruct (lookup_keyword keywords i) eqn:E; cbn; [|done]. by apply keyword_names in E as [].
Qed.
Lemma identifier_token_spelled i : spelled (identifier_token i false) i.
Proof.
  unfold identifier_token, spelled.
  destruct (lookup_keyword keywords i) eqn:E; cbn; [|congruence].
  apply keyword_names in E as [_ E]. intros w' E'. congruence.
Qed.

Definition reads_token (s : Lexer) (t : Token) (s' : Lexer) : Prop :=
  moves s s' /\ spelled t (text (pos s) (pos s')).

Lemma read_ident_token s c : src L !! pos s = Some c -> is_identifier_start c || (c =? chr "\") = true ->
  lexes (read_ident L) (fun t s' => reads_token s t s'
    /\ (identifier_name t = None -> spelling t = None)) s.
Proof.
  intros E Ec. unfold read_ident. inside.
  lcall (apply read_ident_loop_reads; [lia|apply cursor_fuel]). intros t s' (H1 & Ht & Hm).
  split; [split; [split; [done|by apply (Hm c)]|]|].
  - destruct Ht as [->|[[i' ->]|[_ ->]]]; [by apply unspelled..|]. apply identifier_token_spelled.
  - destruct Ht as [->|[[i' ->]|[_ ->]]]; [done..|]. by rewrite identifier_token_name.
Qed.

(** *** Slashes *)

Lemma text_1 a c : src L !! a = Some c -> text a (a + 1) = [c].
Proof. intros E. rewrite (text_cons a (a + 1) c) by (done || lia). by rewrite text_nil. Qed.
Lemma text_2 a c d : src L !! a = Some c -> src L !! (a + 1)%nat = Some d -> text a (a + 2) = [c; d].
Proof.
  intros E1 E2. rewrite (text_cons a (a + 2) c) by (done || lia).
  replace (a + 2)%nat with (a + 1 + 1)%nat by lia. by rewrite text_1 with (c := d).
Qed.

Lemma read_slash_token s : src L !! pos s = Some (chr "/") ->
  lexes (read_slash L) (fun t s' => reads_token s t s') s.
Proof.
  intros E. unfold read_slash. lrules. inside.
  destruct (at_char _ _) eqn:Ec; lrules.
  - apply at_char_some in Ec. split; [split; [step|cbn; lia]|].
    cbn [pos set_col set_pos]. rewrite (text_2 _ _ _ E Ec). by intros w' [= <-].
  - split; [split; [step|cbn; lia]|].
    cbn [pos set_col set_pos]. rewrite (text_1 _ _ E). by intros w' [= <-].
Qed.

Lemma regex_body_reads : forall fuel s p b, inside s -> (length (src L) - pos s < fuel)%nat ->
  lexes (regex_body L fuel p b) (fun _ s' => reads s s' /\ line s' = line s) s.
Proof.
  induction fuel as [|fuel IH]; intros s p b Hs Hf; [lia|]. cbn [regex_body]. lrules.
  destruct (src L !! pos s) as [c|] eqn:E; lrules; [|auto with lexer]. inside.
  set (s1 := set_col _ _). assert (reads s s1 /\ line s1 = line s) as [H1 E1] by (split; [step|done]).
  assert (forall p b, lexes (regex_body L fuel p b) (fun _ s' => reads s s' /\ line s' = line s) s1) as Hk.
  { intros p' b'. lcall (apply IH; cbn; lia). intros x s' [H2 ->]. eauto using reads_trans. }
  destruct (c =? chr "\"); lrules.
  { destruct (src L !! pos s1) as [d|] eqn:Ed; lrules; [|apply Hk].
    destruct (is_line_terminator d); lrules; [done|]. inside.
    lcall (apply IH; cbn in *; lia). intros x s' [H2 ->]. split; [|done].
    eapply reads_trans; [done|]. eapply reads_trans; [|done]. step. }
  destruct (c =? chr "["); [apply Hk|]. destruct (c =? chr "]"); [apply Hk|].
  destruct (_ && _); lrules; [done|]. destruct (is_line_terminator c); lrules; [done|]. apply Hk.
Qed.

Lemma read_regex_reads s c : src L !! pos s = Some c ->
  lexes (read_regex L) (fun t s' =>
    match t with
    | Some t => reads_token s t s'
    | None => reads s s' /\ pos s' = pos s
    end) s.
Proof.
  intros E. unfold read_regex. lrules. inside.
  assert (moves s (set_col (col s + 1) (set_pos (pos s + 1) s))) as H1 by (split; [step|cbn; lia]).
  lcall (apply regex_body_reads; [cbn; lia|apply cursor_fuel]). intros [p|] s1 [H2 El]; lrules.
  - pose proof (moves_then _ _ _ _ H1 H2) as H3. pose proof (reads_inside _ _ _ H2) as Hi.
    lcall (by apply advance_while_loop). intros _ s2 [H4 _]. lrules.
    eapply lexes_lift; [apply slice_text; destruct H4; lia|]. lrules.
    split; [by eapply moves_then|]. by apply unspelled.
  - split; [|done]. destruct H2. split; cbn in *; try done; lia.
Qed.

Lemma slash_token_ok s : src L !! pos s = Some (chr "/") ->
  lexes (slash_token L) (fun t s' => reads_token s t s') s.
Proof.
  intros E. unfold slash_token. lrules. destruct (regex_allowed _ _); [|by apply read_slash_token].
  lcall (by eapply read_regex_reads). intros [t|] s1 Hr; lrules; [done|]. destruct Hr as [H1 E1].
  lcall (apply read_slash_token; by rewrite E1). intros t s2 [H2 Ht].
  split; [by eapply moves_after|]. by rewrite <- E1.
Qed.

Lemma private_name_token s : src L !! pos s = Some (chr "#") ->
  lexes (private_name L) (fun t s' => reads_token s t s') s.
Proof.
  intros E. unfold private_name. lrules. inside.
  set (s1 := set_col _ _). assert (moves s s1) as H1 by (split; [step|cbn; lia]).
  destruct (src L !! pos s1) as [c|] eqn:Ec; cbn [holds]; [destruct (_ || _) eqn:Eh|]; lrules.
  - lcall (by eapply read_ident_token). intros t s2 [[[H2 _] _] Hn]. lrules.
    split; [by eapply moves_then|]. destruct (identifier_name t) as [name|] eqn:Et; [by apply unspelled|].
    by apply unspelled, Hn.
  - split; [done|by apply unspelled].
  - split; [done|by apply unspelled].
Qed.

End Readers.
