(* ===== verification/LexerNext.v ===== *)
(** The next token: what it covers, and what a template queues. *)
From stdpp Require Import prelude list strings.
From Stdlib Require Import ZArith Lia SpecFloat Ascii.
From S2P Require Import Prelude JsString Token Lexer LexerSpec LexerReads.
Import Token Lexer.
Local Open Scope Z_scope.
Local Open Scope lex_scope.

Section Operators.
Context (L : Source).
Abbreviation text := (text L).

(** Characters of the text, one after the other. *)
Fixpoint at_text (p : nat) (w : Text) : Prop :=
  match w with
  | [] => True
  | c :: w => src L !! p = Some c /\ at_text (p + 1) w
  end.

Lemma at_text_text : forall w p, at_text p w -> text p (p + length w) = w.
Proof.
  induction w as [|c w IH]; intros p Hw; cbn [length].
  - by rewrite Nat.add_0_r, text_nil.
  - destruct Hw as [Hc Hw]. rewrite (text_cons _ p (p + S (length w)) c) by (done || lia). cbn. f_equal.
    replace (p + S (length w))%nat with (p + 1 + length w)%nat by lia. by apply IH.
Qed.

Lemma at_text_length : forall w p, at_text p w -> (p <= length (src L))%nat ->
  (p + length w <= length (src L))%nat.
Proof.
  induction w as [|c w IH]; intros p Hw Hp; cbn [length]; [lia|]. destruct Hw as [Hc Hw].
  apply lookup_lt_Some in Hc. specialize (IH _ Hw). lia.
Qed.

(** An operator is spelled by the characters it is taken for. *)
Lemma operator_spelling p c n t : src L !! p = Some c ->
  operator c (src L !! (p + 1)%nat) (src L !! (p + 2)%nat) (src L !! (p + 3)%nat) = Some (n, t) ->
  exists w, spelling t = Some w /\ n = length w /\ (0 < n)%nat /\ at_text p w.
Proof.
  intros E. unfold operator. cbv zeta.
  assert (forall q k x, at_char (src L !! (p + k)%nat) x = true -> q = (p + k)%nat -> src L !! q = Some x) as Hx.
  { intros q k x Hk ->. by apply at_char_some. }
  repeat match goal with
  | |- (if c =? ?x then _ else _) = _ -> _ => destruct (Z.eqb_spec c x) as [->|_]
  end; [..|intros [=]];
  repeat match goal with
  | |- (if ?b then _ else _) = _ -> _ => destruct b eqn:?
  end; intros [= <- <-]; eexists; (split; [reflexivity|]); (split; [reflexivity|]); (split; [lia|]);
  repeat match goal with H : _ && _ = true |- _ => apply andb_true_iff in H as [? ?] end;
  repeat split; try done;
  first [apply (Hx _ 1%nat); [assumption|lia] | apply (Hx _ 2%nat); [assumption|lia]
        |apply (Hx _ 3%nat); [assumption|lia]].
Qed.

End Operators.

(** ** The goal *)

Lemma update_last_length {A} (f : A -> A) l : length (update_last f l) = length l.
Proof. by destruct l. Qed.

Lemma observe_member_length g t : length (members (observe_member g t)) = length (members g).
Proof. unfold observe_member. destruct (last_is _ _); [|done]. cbn. apply update_last_length. Qed.

Lemma observe_separator_members g t : members (observe_separator g t) = members g.
Proof. destruct t; try done; cbn; by destruct (bool_decide _). Qed.

Lemma observe_lparen_ok g b : (b = true -> members g <> []) -> exists g', observe_lparen g b = Ok g'.
Proof.
  intros Hb. unfold observe_lparen. destruct (b && _) eqn:E; [|by eexists].
  apply andb_true_iff in E as [E _]. specialize (Hb E).
  destruct (members g) as [|m ms] eqn:Em; [done|]. cbn. rewrite Em. cbn. by eexists.
Qed.

Lemma observe_token_ok g t : exists g', observe_token g t = Ok g'.
Proof.
  unfold observe_token. cbv zeta. destruct t; try by eexists.
  - destruct (_ && _); by eexists.
  - set (g1 := observe_boundary g LParen). edestruct observe_lparen_ok as [g' ->]; [|by eexists].
    intros Hl Hm. apply (f_equal length) in Hm.
    rewrite observe_member_length, observe_separator_members in Hm.
    by destruct (members g1).
Qed.

Lemma record_token_ok g t a b : exists g', record_token g t a b = Ok g'.
Proof.
  unfold record_token. cbv zeta.
  match goal with |- context [observe_token ?x t] => destruct (observe_token_ok x t) as [g' ->] end.
  by eexists.
Qed.

(** ** What the tokens of a text cover *)

Section Cover.
Context (L : Source).
Abbreviation text := (text L).

(** The token covers the characters from [i] to [j]: its span has their offsets and
    at most a line for each character before, and they spell the token. *)
Record covers (i j : nat) (e : SpannedToken) : Prop := {
  covers_range : exists a b, source_offsets L !! i = Some a /\ source_offsets L !! j = Some b
                   /\ source_range e.2 = Some (a, b);
  covers_lines : (1 <= span_line e.2 <= end_line e.2)%nat /\ (end_line e.2 <= S j)%nat;
  covers_spelling : spelled e.1 (text i j);
}.

(** Tokens one after the other from [a] to [b], with nothing but space and comments
    between them.  Only a chunk of a template may cover nothing; a template that does
    not end is marked at its last chunk. *)
Inductive laid : nat -> list SpannedToken -> nat -> Prop :=
| laid_nil a b : trivia L a b -> laid a [] b
| laid_token a i j b e toks : trivia L a i -> (i < j)%nat -> covers i j e -> laid j toks b ->
    laid a (e :: toks) b
| laid_chunk a i j b q sp toks : trivia L a i -> (i <= j)%nat -> covers i j (TemplateQuasi q, sp) ->
    laid j toks b -> laid a ((TemplateQuasi q, sp) :: toks) b
| laid_open a i j b q sp toks : trivia L a i -> (i <= j)%nat -> covers i j (TemplateQuasi q, sp) ->
    laid j toks b -> laid a ((TemplateQuasi q, sp) :: (Unknown (chr "`"), sp) :: toks) b.

Lemma laid_skip a b toks c : trivia L a b -> laid b toks c -> laid a toks c.
Proof.
  intros Ht Hl. assert (forall i, trivia L b i -> trivia L a i) by (intros; by etransitivity).
  destruct Hl; [by apply laid_nil, H|eapply laid_token|eapply laid_chunk|eapply laid_open];
    first [apply H; eassumption|eassumption].
Qed.

Lemma laid_app a t1 b t2 c : laid a t1 b -> laid b t2 c -> laid a (t1 ++ t2) c.
Proof.
  intros H1 H2. induction H1 as [? ? Ht| | |]; cbn; [by eapply laid_skip|..];
    [eapply laid_token|eapply laid_chunk|eapply laid_open]; eauto.
Qed.

Lemma laid_end a toks b c : laid a toks b -> trivia L b c -> laid a toks c.
Proof. intros H1 H2. rewrite <- (app_nil_r toks). eapply laid_app; [done|by constructor]. Qed.

(** ** Computations that may queue tokens *)

(** Like [reads], for computations that write the goal. *)
Record passes (s s' : Lexer) : Prop := {
  passes_pos : (pos s <= pos s' <= length (src L))%nat;
  passes_line : (line s <= line s')%nat;
  passes_lines : (line s' + pos s <= line s + pos s')%nat;
  passes_pending : pending s' = pending s;
  passes_spans : pending_spans s' = pending_spans s;
  passes_errors : more_errors (lexical_errors s) (lexical_errors s');
}.

Lemma reads_passes s s' : reads L s s' -> passes s s'.
Proof. intros []. by split. Qed.
Lemma passes_trans a b c : passes a b -> passes b c -> passes a c.
Proof. intros [] []. split; try lia; try congruence. by eapply more_errors_trans. Qed.
Lemma passes_goal s s' g : passes s s' -> passes s (set_goal g s').
Proof. intros []. by split. Qed.
Lemma passes_goal_l s s' g : passes (set_goal g s) s' -> passes s s'.
Proof. intros []. by split. Qed.

(** At most a line for each character. *)
Definition lined (s : Lexer) : Prop :=
  (pos s <= length (src L))%nat /\ (1 <= line s <= S (pos s))%nat.

Lemma lined_passes s s' : lined s -> passes s s' -> lined s'.
Proof. unfold lined. intros [] []. lia. Qed.
Lemma lined_reads s s' : lined s -> reads L s s' -> lined s'.
Proof. intros. eauto using lined_passes, reads_passes. Qed.

Lemma skip_ws_passes s : lined s ->
  lexes (skip_ws L) (fun _ s' => passes s s' /\ trivia L (pos s) (pos s')) s.
Proof.
  intros [Hs _]. lcall (by apply skip_ws_reads). intros _ s' [H1 H2]. eauto using reads_passes.
Qed.

End Cover.

Section Tokens.
Context `{IdentifierTables} (L : Source).
Context (short : Z.of_nat (length (src L)) < 2 ^ 31).
Context (whole : length (source_offsets L) = S (length (src L))).
Abbreviation text := (text L).

Lemma offset_ok i : (i <= length (src L))%nat -> exists a, source_offsets L !! i = Some a.
Proof. intros Hi. apply lookup_lt_is_Some. lia. Qed.

Lemma source_span_covers s l c i j : (i <= j <= length (src L))%nat -> (1 <= l <= S j)%nat ->
  lexes (source_span L l c i j) (fun sp s' => s' = s
    /\ forall t, spelled t (text i j) -> covers L i j (t, sp)) s.
Proof.
  intros Hij Hl. unfold source_span. lrules.
  destruct (offset_ok i) as [a Ea]; [lia|]. destruct (offset_ok j) as [b Eb]; [lia|].
  eapply lexes_lift; [unfold index_or_panic; by rewrite Ea|]. lrules.
  eapply lexes_lift; [unfold index_or_panic; by rewrite Eb|]. lrules. split; [done|].
  intros t Ht. split; [by exists a, b|cbn; lia|done].
Qed.

Lemma next_token template s c : src L !! pos s = Some c -> c <> chr "`" ->
  lexes (next L template) (fun r s' => exists t, r = Some t /\ reads_token L s t s') s.
Proof.
  intros E Hc. unfold next. lrules. rewrite E.
  apply lexes_then with (Q := fun t s' => reads_token L s t s'); [|intros t s' Ht; lrules; eauto].
  rewrite (proj2 (Z.eqb_neq _ _) Hc). inside.
  destruct (Z.eqb_spec c (chr "$")) as [->|_].
  { destruct (at_char _ _) eqn:Ea; lrules.
    - apply at_char_some in Ea. inside. split; [split; [step|cbn; lia]|].
      cbn [pos set_col set_pos]. rewrite (text_2 _ _ _ _ E Ea). by intros w [= <-].
    - lcall (by eapply read_ident_token). by intros t s' []. }
  destruct (_ && _) eqn:Ed.
  { apply andb_true_iff in Ed as [Ed _]. lcall (eapply read_num_moves; [done|by rewrite Ed, orb_true_r]).
    intros t s' [H1 Ht]. split; [done|by apply unspelled]. }
  destruct (Z.eqb_spec c (chr "/")) as [->|_]; [by apply slash_token_ok|].
  destruct (Z.eqb_spec c (chr "#")) as [->|_]; [by apply private_name_token|].
  destruct (_ || _).
  { lcall (by eapply read_str_moves). intros t s' [H1 Ht]. split; [done|by apply unspelled]. }
  destruct (operator _ _ _ _) as [[n t]|] eqn:Eo; lrules.
  { destruct (operator_spelling _ _ _ _ _ E Eo) as (w & Ew & -> & Hn & Hw).
    pose proof (at_text_length _ _ _ Hw ltac:(lia)). split; [split; [step|cbn; lia]|].
    cbn [pos set_col set_pos]. rewrite (at_text_text _ _ _ Hw). intros w' Ew'. congruence. }
  destruct (is_ascii_digit c) eqn:Edig.
  { lcall (eapply read_num_moves; [done|by unfold decimal_part; rewrite Edig]).
    intros t s' [H1 Ht]. split; [done|by apply unspelled]. }
  destruct (_ || _) eqn:Ei.
  { lcall (by eapply read_ident_token). by intros t s' []. }
  lrules. split; [split; [step|cbn; lia]|by apply unspelled].
Qed.

Lemma spelled_1 t p c : src L !! p = Some c -> spelling t = Some [c] -> spelled t (text p (p + 1)).
Proof. intros E Et w Ew. rewrite (text_1 _ _ _ E). congruence. Qed.
Lemma spelled_2 t p c d : src L !! p = Some c -> src L !! (p + 1)%nat = Some d ->
  spelling t = Some [c; d] -> spelled t (text p (p + 2)).
Proof. intros E1 E2 Et w Ew. rewrite (text_2 _ _ _ _ E1 E2). congruence. Qed.

(** The span that [next_with_span] builds. *)
Lemma spanned_covers s p l c i j t Q : (i <= j <= length (src L))%nat ->
  (1 <= p <= l)%nat -> (l <= S j)%nat -> spelled t (text i j) ->
  (forall sp, covers L i j (t, sp) -> Q (Some (t, sp)) s) ->
  lexes (lift (index_or_panic (source_offsets L) i)) (fun from => lexes
    (let? to := lift (index_or_panic (source_offsets L) j) in
     ret (Some (t, {| span_line := p; span_col := c; end_line := l;
                      source_range := Some (from, to) |}))) Q) s.
Proof.
  intros Hij Hp Hl Ht HQ.
  destruct (offset_ok i) as [a Ea]; [lia|]. destruct (offset_ok j) as [b Eb]; [lia|].
  eapply lexes_lift; [unfold index_or_panic; by rewrite Ea|]. lrules.
  eapply lexes_lift; [unfold index_or_panic; by rewrite Eb|]. lrules. apply HQ.
  split; [by exists a, b|cbn; lia|done].
Qed.

(** A number before a character that cannot follow it is no number. *)
Lemma replaced_spelled (b : bool) t c w : spelled t w -> spelled (if b then Unknown c else t) w.
Proof. destruct b; [|done]. intros _. by apply unspelled. Qed.

Lemma next_with_span_token template s c : lined L s -> src L !! pos s = Some c -> c <> chr "`" ->
  lexes (next_with_span L template) (fun r s' => exists t sp, r = Some (t, sp)
    /\ moves L s s' /\ covers L (pos s) (pos s') (t, sp)) s.
Proof.
  intros [Hs Hl] E Hc. unfold next_with_span. lrules. cbv zeta.
  lcall (by eapply next_token). intros r s1 (t & -> & Hm & Ht). lrules.
  pose proof (reads_inside _ _ _ (moves_reads _ _ _ Hm)) as Hs1.
  set (t' := match src L !! pos s1 with Some _ => _ | None => t end).
  assert (spelled t' (text (pos s) (pos s1))) as Ht'.
  { subst t'. destruct (src L !! pos s1); [by apply replaced_spelled|done]. }
  assert (is_backtick t' = false) as ->.
  { destruct t'; try done. specialize (Ht' _ eq_refl). exfalso. apply Hc.
    destruct Hm as [Hm Hlt]. rewrite (text_cons _ (pos s) (pos s1) c) in Ht' by (done || lia).
    cbn in Ht'. by simplify_eq. }
  apply spanned_covers; [destruct Hm; lia|cbn; destruct Hm as [[] _]; lia|destruct Hm as [[] _]; lia|done|].
  eauto 10.
Qed.

Lemma record_ok s t a b : lexes (record t a b) (fun _ s' => exists g, s' = set_goal g s) s.
Proof.
  unfold record. lrules. destruct (record_token_ok (goal s) t a b) as [g Eg].
  eapply lexes_lift; [done|]. lrules. by eexists.
Qed.

(** ** Templates *)

(** The tokens [more] from [a] to the cursor, at most three for each character. *)
Definition queues (extra a : nat) (toks more toks' : list SpannedToken) (s s' : Lexer) : Prop :=
  toks' = toks ++ more /\ laid L a more (pos s')
  /\ (length more <= 3 * (pos s' - pos s) + extra)%nat.

(** What a template is read as. *)
Definition template_ok (template : M (list SpannedToken)) (fuel : nat) : Prop :=
  forall s, lined L s -> src L !! pos s = Some (chr "`") -> (length (src L) - pos s < fuel)%nat ->
  lexes template (fun toks s' => passes L s s' /\ (pos s < pos s')%nat /\ exists sp rest,
    toks = (Backtick, sp) :: rest /\ covers L (pos s) (pos s + 1) (Backtick, sp)
    /\ laid L (pos s + 1) rest (pos s') /\ (length toks <= 3 * (pos s' - pos s))%nat) s.

Definition interp_ok (interp : list SpannedToken -> M (list SpannedToken)) (fuel : nat) : Prop :=
  forall s toks, lined L s -> (length (src L) - pos s < fuel)%nat -> (0 < pos s)%nat ->
  lexes (interp toks) (fun toks' s' => passes L s s'
    /\ exists more, queues 0 (pos s) toks more toks' s s') s.

Lemma i32_depth d p p' : 0 < d <= Z.of_nat p -> (p < p' <= length (src L))%nat ->
  i32_add d 1 = Ok (d + 1) /\ i32_add d (-1) = Ok (d + -1) /\ d + 1 <= Z.of_nat p'.
Proof.
  intros. split_and!; [apply i32_add_ok; lia..|lia].
Qed.

Lemma interp_loop_ok template n : template_ok template n -> forall fuel s d toks, lined L s ->
  (length (src L) - pos s < fuel)%nat -> (length (src L) - pos s < n)%nat ->
  d <= Z.of_nat (pos s) ->
  lexes (interp_loop L template fuel d toks) (fun toks' s' => passes L s s'
    /\ exists more, queues 0 (pos s) toks more toks' s s') s.
Proof.
  intros Ht. induction fuel as [|fuel IH]; intros s d toks Hs Hf Hn Hd; [lia|].
  assert (forall s1 more d s2, passes L s s1 -> trivia L (pos s) (pos s1) -> passes L s1 s2 ->
    (pos s1 < pos s2)%nat -> laid L (pos s1) more (pos s2) ->
    (length more <= 3 * (pos s2 - pos s1))%nat -> d <= Z.of_nat (pos s2) ->
    lexes (interp_loop L template fuel d (toks ++ more)) (fun toks' s' => passes L s s'
      /\ exists more, queues 0 (pos s) toks more toks' s s') s2) as Hk.
  { intros s1 more d' s2 H1 Ht1 H2 Hlt Hlaid Hlen Hd'. pose proof (passes_trans _ _ _ _ H1 H2) as H3.
    lcall (apply IH; [by eapply lined_passes|destruct H1, H2; lia..|done]).
    intros toks' s3 (H4 & more' & -> & Hl & Hm). split; [by eapply passes_trans|].
    exists (more ++ more'). split_and!; [by rewrite app_assoc| |].
    - eapply laid_skip; [done|]. by eapply laid_app.
    - rewrite length_app. destruct H1, H2, H4. lia. }
  cbn [interp_loop]. lrules.
  assert (passes L s s) as Hrefl by (apply reads_passes, reads_refl; apply Hs).
  assert (forall s1, passes L s s1 -> trivia L (pos s) (pos s1) -> passes L s s1
    /\ exists more, queues 0 (pos s) toks more toks s s1) as Hstop.
  { intros s1 H1 Ht1. split; [done|]. exists []. split_and!; [by rewrite app_nil_r| |cbn; lia].
    by apply laid_nil. }
  destruct (src L !! pos s) as [c0|] eqn:E0; [|lrules; by apply Hstop].
  destruct (Z.leb_spec d 0); lrules; [by apply Hstop|].
  lcall (by apply skip_ws_passes). intros _ s1 [H1 Ht1]. lrules.
  pose proof (lined_passes _ _ _ Hs H1) as Hs1.
  destruct (src L !! pos s1) as [c|] eqn:E; [|lrules; by apply Hstop].
  destruct (Z.eqb_spec c (chr "`")) as [->|Hc]; lrules.
  - lcall (apply Ht; [done|done|destruct H1; lia]).
    intros nested s2 (H2 & Hlt & sp & rest & -> & Hsp & Hlaid & Hlen). lrules.
    lcall (apply record_ok). intros _ s3 [g ->].
    eapply (Hk s1); [done..|by apply passes_goal|done| |done|cbn; destruct H1, H2; lia].
    eapply laid_token; [done| |done|done]. lia.
  - lcall (by eapply next_with_span_token). intros r s2 (t & sp & -> & [H2 Hlt] & Hsp).
    destruct (i32_depth d (pos s1) (pos s2)) as (Ei & Ed & Hd');
      [destruct H1; lia|destruct H2; lia|].
    apply lexes_then with (Q := fun d' s' => s' = s2 /\ d' <= Z.of_nat (pos s2)).
    { destruct t; first [eapply lexes_lift; [exact Ei|split; [done|lia]]
        |eapply lexes_lift; [exact Ed|split; [done|lia]]
        |eapply lexes_lift; [reflexivity|split; [done|lia]]]. }
    intros d' s3 [-> Hd2].
    apply lexes_then with (Q := fun (_ : unit) s' => passes L s1 s' /\ pos s' = pos s2).
    { destruct (0 <? d'); lrules; [|by auto using reads_passes].
      lcall (apply record_ok). intros _ s3 [g ->]. split; [|done]. by apply passes_goal, reads_passes. }
    intros _ s3 [H3 E3]. eapply (Hk s1); [done..|lia| |cbn; lia|lia].
    eapply (laid_token _ _ _ (pos s2)); [done|done|done|rewrite E3; by apply laid_nil].
Qed.

Lemma lex_interp_ok template n : template_ok template n -> interp_ok (lex_interp L template) n.
Proof.
  intros Ht s toks Hs Hn Hp. unfold lex_interp. lrules.
  lcall (apply (interp_loop_ok template n Ht); [exact Hs|apply cursor_fuel|done|cbn; lia]).
  intros toks' s1 (H1 & more & Hq). lrules. split.
  - apply passes_goal. by eapply passes_goal_l.
  - by exists more.
Qed.

Lemma template_escape_moves s q c : src L !! pos s = Some c ->
  lexes (template_escape L q) (fun _ s' => moves L s s') s.
Proof.
  intros E. unfold template_escape. lrules. inside.
  set (s1 := set_col _ _). assert (moves L s s1) as H1 by (split; [step|cbn; lia]).
  lcall (apply read_escape_reads; cbn; lia). intros r s2 [H2 _]. lrules.
  pose proof (moves_then _ _ _ _ H1 H2) as H3.
  eapply lexes_lift; [apply slice_text; destruct H3 as [[] ?]; lia|]. by lrules.
Qed.

Lemma template_char_moves s q c : src L !! pos s = Some c ->
  lexes (template_char L q c) (fun _ s' => moves L s s') s.
Proof.
  intros E. unfold template_char. lrules. inside.
  set (s1 := set_pos _ _). assert (moves L s s1) as H1 by (split; [step|cbn; lia]).
  lthen_with (fun (_ : JsString) s' => moves L s s' /\ line s' = line s).
  { destruct (c =? 13); lrules.
    - destruct (at_char _ _) eqn:Ed; lrules; [|done]. apply at_char_some in Ed. inside.
      split; [|done]. eapply moves_then; [done|]. step.
    - lcall (apply source_unit_string_reads; cbn; lia). intros x s2 [H2 El].
      split; [by eapply moves_then|done]. }
  intros x s2 [[H2 Hlt] El]. lthen_with (fun (_ : unit) s' => moves L s s').
  { destruct (is_line_terminator c); lrules.
    - split; [|done]. destruct H2. split; cbn; try done; lia.
    - split; [|done]. destruct H2. by split. }
  intros _ s3 H3. by lrules.
Qed.

Lemma template_loop_ok interp n : interp_ok interp n -> forall fuel s toks q start, lined L s ->
  (length (src L) - pos s < fuel)%nat -> (length (src L) - pos s < n)%nat -> (start <= pos s)%nat ->
  lexes (template_loop L interp fuel toks q start) (fun toks' s' => passes L s s'
    /\ exists more, queues 2 start toks more toks' s s') s.
Proof.
  intros Hi. induction fuel as [|fuel IH]; intros s toks q start Hs Hf Hn Hst; [lia|].
  assert (forall q s1, moves L s s1 -> lexes (template_loop L interp fuel toks q start)
    (fun toks' s' => passes L s s' /\ exists more, queues 2 start toks more toks' s s') s1) as Hk.
  { intros q' s1 [H1 Hlt]. pose proof H1 as H1'. destruct H1'.
    lcall (apply IH; [by eapply lined_reads|lia..]).
    intros toks' s2 (H2 & more & -> & Hl & Hm). apply reads_passes in H1.
    split; [by eapply passes_trans|]. exists more. split_and!; [done..|lia]. }
  cbn [template_loop]. lrules. pose proof Hs as [Hin Hline].
  destruct (src L !! pos s) as [c|] eqn:E; lrules.
  2: { lcall (apply source_span_covers; lia). intros sp s1 [-> Hsp]. lrules.
       split; [by apply reads_passes, reads_refl|]. eexists. split_and!; [done| |cbn; lia].
       eapply laid_open; [reflexivity|done|by apply Hsp, unspelled|by apply laid_nil]. }
  pose proof (lookup_lt_Some _ _ _ E) as Hlt.
  destruct (Z.eqb_spec c (chr "`")) as [->|_]; lrules.
  { assert (reads L s (set_col (col s + 1) (set_pos (pos s + 1) s))) as H1 by step.
    lcall (apply source_span_covers; cbn; lia). intros sp s1 [-> Hsp].
    lcall (apply source_span_covers; cbn; lia). intros sp' s1 [-> Hsp']. lrules.
    split; [by apply reads_passes|]. eexists. split_and!; [done| |cbn; lia].
    eapply laid_chunk; [reflexivity| |by apply Hsp', unspelled|]; [done|].
    eapply laid_token; [reflexivity| |by eapply Hsp, spelled_1|by apply laid_nil]. cbn. lia. }
  destruct (_ && _) eqn:Ed; lrules.
  { apply andb_true_iff in Ed as [->%Z.eqb_eq Ed%at_char_some].
    pose proof (lookup_lt_Some _ _ _ Ed) as Hlt'.
    set (s1 := set_col _ _). assert (reads L s s1) as H1 by step.
    replace (pos s1 - 2)%nat with (pos s) by (cbn; lia).
    lcall (apply source_span_covers; cbn; lia). intros sp s2 [-> Hsp].
    lcall (apply source_span_covers; cbn; lia). intros sp' s2 [-> Hsp'].
    pose proof (lined_reads _ _ _ Hs H1) as Hs1.
    lcall (apply Hi; [done|cbn; lia..]). intros toks1 s2 (H2 & more & -> & Hl & Hm). lrules.
    apply reads_passes in H1. pose proof (passes_trans _ _ _ _ H1 H2) as H3.
    lcall (apply IH; [by eapply lined_passes|destruct H2; cbn in *; lia..]).
    intros toks2 s3 (H4 & more2 & -> & Hl2 & Hm2). split; [by eapply passes_trans|].
    eexists. split_and!; [by rewrite <- !app_assoc| |].
    - cbn. eapply laid_chunk; [reflexivity| |by apply Hsp', unspelled|]; [done|].
      eapply (laid_token _ _ _ (pos s1)); [reflexivity|cbn; lia|by eapply Hsp, spelled_2|].
      by eapply laid_app.
    - cbn. rewrite length_app. destruct H2, H4. cbn in *. lia. }
  clear Ed. destruct ((c =? chr "\") && _); lrules.
  - lcall (by eapply template_escape_moves). intros q' s1 H1. by apply Hk.
  - lcall (by eapply template_char_moves). intros q' s1 H1. by apply Hk.
Qed.

Lemma read_template_with_ok interp n : interp_ok interp n ->
  template_ok (read_template_with L interp) (S n).
Proof.
  intros Hi s Hs E Hn. unfold read_template_with. lrules. pose proof (lookup_lt_Some _ _ _ E) as Hlt.
  pose proof Hs as [Hin Hline]. set (s1 := set_col _ _). assert (reads L s s1) as H1 by step.
  lcall (apply source_span_covers; cbn; lia). intros sp s2 [-> Hsp].
  pose proof (lined_reads _ _ _ Hs H1) as Hs1.
  lcall (apply (template_loop_ok interp n Hi); [done|apply cursor_fuel|cbn; lia|lia]).
  intros toks s2 (H2 & more & -> & Hl & Hm). apply reads_passes in H1.
  split; [by eapply passes_trans|]. split; [destruct H2; cbn in *; lia|].
  exists sp, more. split_and!; [done| |by replace (pos s + 1)%nat with (pos s1) by done|].
  - by eapply Hsp, spelled_1.
  - cbn. destruct H2. cbn in *. lia.
Qed.

(** The nesting of templates is bounded by the text. *)
Lemma read_template_ok : forall n, template_ok (read_template L n) n.
Proof.
  induction n as [|n IH]; [intros s Hs E Hn; lia|]. cbn [read_template].
  by apply read_template_with_ok, lex_interp_ok.
Qed.

End Tokens.
