(* ===== verification/LexerTokens.v ===== *)
(** The whole text: tokens, their order, and the offsets of their spans in the units
    of the source. *)
From stdpp Require Import prelude list strings sorting.
From Stdlib Require Import ZArith Lia SpecFloat Ascii.
From S2P Require Import Prelude JsString JsStringTheorems Token Lexer LexerSpec LexerReads LexerNext.
Import Token Lexer.
Local Open Scope Z_scope.
Local Open Scope lex_scope.

Section Tokens.
Context `{IdentifierTables} (L : Source).
Context (short : Z.of_nat (length (src L)) < 2 ^ 31).
Context (whole : length (source_offsets L) = S (length (src L))).

(** A state whose queues wait with the rest of a template. *)
Definition queued (rest : list SpannedToken) (s : Lexer) : Lexer :=
  set_pending (map fst rest ++ pending s) (set_pending_spans (map snd rest ++ pending_spans s) s).

Lemma next_with_span_template template n s : template_ok L template n -> lined L s ->
  src L !! pos s = Some (chr "`") -> (length (src L) - pos s < n)%nat ->
  lexes (next_with_span L template) (fun r s' => exists sp rest s1,
    r = Some (Backtick, sp) /\ covers L (pos s) (pos s + 1) (Backtick, sp) /\ passes L s s1
    /\ s' = queued rest s1 /\ (pos s < pos s1)%nat /\ laid L (pos s + 1) rest (pos s1)
    /\ (S (length rest) <= 3 * (pos s1 - pos s))%nat) s.
Proof.
  intros Ht Hs E Hn. unfold next_with_span. lrules. cbv zeta.
  lthen_with (fun r s' => exists rest s1, r = Some Backtick /\ s' = queued rest s1
    /\ passes L s s1 /\ (pos s < pos s1)%nat /\ laid L (pos s + 1) rest (pos s1)
    /\ (S (length rest) <= 3 * (pos s1 - pos s))%nat).
  { unfold next, next_template. lrules. rewrite E, Z.eqb_refl. lrules. lcall (by apply Ht).
    intros toks s1 (H1 & Hlt & sp & rest & -> & Hsp & Hl & Hlen). lrules. eauto 10. }
  intros r s' (rest & s1 & -> & -> & H1 & Hlt & Hl & Hlen). lrules.
  set (t' := match _ with Some _ => _ | None => Backtick end).
  assert (t' = Backtick) as -> by (unfold t'; by destruct (src L !! pos (queued rest s1))). cbn [is_backtick].
  destruct Hs as [Hin Hline]. pose proof (lookup_lt_Some _ _ _ E).
  apply (spanned_covers L whole); [lia|cbn; lia|cbn; lia|by eapply spelled_1|].
  intros sp Hsp. by exists sp, rest, s1.
Qed.

(** The tokens taken and those that wait cover the text before the cursor. *)
Record scanned (toks : list SpannedToken) (s : Lexer) : Prop := {
  scanned_lined : lined L s;
  scanned_queues : length (pending s) = length (pending_spans s);
  scanned_laid : laid L 0 (toks ++ zip (pending s) (pending_spans s)) (pos s);
  scanned_errors : Forall unclosed (lexical_errors s);
}.

Lemma more_unclosed l l' : more_errors l l' -> Forall unclosed l -> Forall unclosed l'.
Proof. intros (es & -> & H1) H2. by apply Forall_app. Qed.

Lemma zip_fst_snd {A B} (l : list (A * B)) : zip (map fst l) (map snd l) = l.
Proof. induction l as [|[] l IH]; cbn; congruence. Qed.

Lemma scanned_passes toks s s1 more : scanned toks s -> pending s = [] -> passes L s s1 ->
  laid L (pos s) more (pos s1) -> scanned (toks ++ more) s1.
Proof.
  intros [Hs Hq Hl He] Ep H1 Hm. rewrite Ep in Hq, Hl. destruct (pending_spans s) eqn:Es; [|done].
  cbn in Hl. rewrite app_nil_r in Hl. pose proof H1 as [_ _ _ H4 H5 H6]. split.
  - by eapply lined_passes.
  - by rewrite H4, H5, Ep, Es.
  - rewrite H4, Ep, app_nil_r. by eapply laid_app.
  - by eapply more_unclosed.
Qed.

(** Turns of the loop: every token that waits takes one. *)
Lemma tokenize_loop_ok : forall fuel s toks, scanned toks s ->
  (length (pending s) + 3 * (length (src L) - pos s) < fuel)%nat ->
  lexes (tokenize_loop L fuel toks) (fun toks' s' => scanned toks' s' /\ pending s' = []
    /\ pos s' = length (src L)) s.
Proof.
  induction fuel as [|fuel IH]; intros s toks Hs Hf; [lia|]. cbn [tokenize_loop]. lrules.
  destruct (pending s) as [|t rest] eqn:Ep; lrules.
  - pose proof (scanned_lined _ _ Hs) as Hlin.
    lcall (by apply skip_ws_passes). intros _ s1 [H1 Ht1]. lrules.
    pose proof (scanned_passes _ _ _ [] Hs Ep H1 (laid_nil _ _ _ Ht1)) as Hs1.
    rewrite app_nil_r in Hs1. pose proof (lined_passes _ _ _ Hlin H1) as Hlin1.
    assert (pending s1 = []) as Ep1 by (destruct H1; congruence).
    destruct (src L !! pos s1) as [c|] eqn:E; lrules.
    2: { apply lookup_ge_None in E. split_and!; [done..|]. destruct Hlin1. lia. }
    destruct (Z.eqb_spec c (chr "`")) as [->|Hc].
    + lcall (eapply next_with_span_template; [by apply read_template_ok|done|done|apply cursor_fuel]).
      intros r s2' (sp & rest & s2 & -> & Hsp & H2 & -> & Hlt & Hl & Hlen).
      lcall (apply record_ok). intros _ s3 [g ->]. lrules.
      apply IH.
      * assert (pending s2 = []) as Ep2 by (destruct H2; congruence).
        assert (pending_spans s2 = []) as Es2.
        { rewrite (passes_spans _ _ _ H2). pose proof (scanned_queues _ _ Hs1) as Hq.
          rewrite Ep1 in Hq. by destruct (pending_spans s1). }
        destruct Hs1 as [Hs1 Hq Hl1 He]. rewrite Ep1, app_nil_r in Hl1.
        split; cbn; [exact (lined_passes _ _ _ Hs1 H2)| | |destruct H2; by eapply more_unclosed].
        -- by rewrite !length_app, !length_map, Ep2, Es2.
        -- rewrite Ep2, Es2, !app_nil_r, zip_fst_snd, <- app_assoc. eapply laid_app; [done|].
           eapply (laid_token _ _ _ (pos s1 + 1)); [reflexivity|lia|done|done].
      * cbn. assert (pending s2 = []) as -> by (destruct H2; congruence).
        rewrite app_nil_r, length_map. destruct H1, H2. cbn in Hf. lia.
    + lcall (by eapply next_with_span_token). intros r s2 (t & sp & -> & [H2 Hlt] & Hsp).
      apply reads_passes in H2.
      lcall (apply record_ok). intros _ s3 [g ->]. lrules.
      apply IH.
      * eapply scanned_passes; [exact Hs1|done|destruct H2; by split|].
        eapply (laid_token _ _ _ (pos s2)); [reflexivity|done|done|by apply laid_nil].
      * cbn. assert (pending s2 = []) as -> by (destruct H2; congruence).
        destruct H1, H2. cbn in Hf. cbn. lia.
  - destruct Hs as [Hs Hq Hl He]. rewrite Ep in Hq, Hl.
    destruct (pending_spans s) as [|sp sps] eqn:Es; [done|].
    apply IH.
    + split; cbn; [done|by injection Hq|by rewrite <- app_assoc|done].
    + cbn in *. lia.
Qed.

(** What the text is read as. *)
Definition reads_as (toks errors : list SpannedToken) (eof : Span) : Prop :=
  laid L 0 toks (length (src L)) /\ Forall unclosed errors
  /\ exists n, source_offsets L !! length (src L) = Some n /\ source_range eof = Some (n, n).

Lemma tokenize_with_spans_ok : lexes (tokenize_with_spans L) (fun toks _ =>
  exists body errors eof, toks = body ++ errors ++ [(EOF, eof)] /\ reads_as body errors eof) start.
Proof.
  unfold tokenize_with_spans. lcall (apply tokenize_loop_ok; [|cbn; lia]).
  { split; cbn; [unfold lined; cbn; lia|done|by apply laid_nil|done]. }
  intros body s' (Hs & Ep & Epos). lrules. cbn [line col pos set_lexical_errors].
  pose proof (scanned_lined _ _ Hs) as [Hin Hline].
  lcall (apply (source_span_covers L whole); lia). intros sp s2 [-> Hsp]. lrules.
  eexists _, _, _. split; [done|]. destruct Hs as [_ Hq Hl He]. rewrite Ep, app_nil_r, Epos in Hl.
  split_and!; [done|done|]. destruct (Hsp (Unknown 0)) as [(a & b & Ha & Hb & Hr) _ _]; [by apply unspelled|].
  rewrite Ha in Hb. injection Hb as <-. rewrite Epos in Ha. eauto.
Qed.

End Tokens.

(** ** Offsets in order *)

(** One offset for each of [n] characters and for the end, from [a] to [b]. *)
Record ordered_offsets (l : list nat) (n a b : nat) : Prop := {
  offsets_length : length l = S n;
  offsets_sorted : StronglySorted le l;
  offsets_range : Forall (fun x => (a <= x <= b)%nat) l;
  offsets_last : l !! n = Some b;
}.

Lemma ordered_replicate k a l n b : ordered_offsets l n a b ->
  ordered_offsets (replicate k a ++ l) (k + n) a b.
Proof.
  intros [H1 H2 H3 H4]. induction k as [|k IH]; [done|]. destruct IH as [I1 I2 I3 I4]. cbn. split.
  - cbn. by rewrite I1.
  - constructor; [done|]. eapply Forall_impl; [exact I3|]. cbn. lia.
  - constructor; [|done]. apply Forall_lookup_1 with (i := n) (x := b) in H3; [lia|done].
  - done.
Qed.

Lemma ordered_weaken l n a a' b : (a' <= a)%nat -> ordered_offsets l n a b -> ordered_offsets l n a' b.
Proof. intros Ha [? ? H3 ?]. split; try done. eapply Forall_impl; [done|]. cbn. lia. Qed.

Lemma offsets_ordered : forall ws o, ordered_offsets (offsets ws o) (length ws) o (o + sum_list ws).
Proof.
  induction ws as [|w ws IH]; intros o; cbn.
  - rewrite Nat.add_0_r. split; cbn; [done|repeat constructor|by repeat constructor|done].
  - apply (ordered_replicate 1 o). rewrite Nat.add_assoc.
    eapply ordered_weaken; [|apply IH]. lia.
Qed.

(** The widths of decoded scalars: characters of the key and units. *)
Definition key_width (rs : list (Z + Z)) : nat := sum_list (map (fun r => (encoded_width r).1) rs).
Definition unit_width (rs : list (Z + Z)) : nat := sum_list (map (fun r => (encoded_width r).2) rs).

Lemma encoded_offsets_ordered : forall rs o,
  ordered_offsets (encoded_offsets rs o) (key_width rs) o (o + unit_width rs).
Proof.
  induction rs as [|r rs IH]; intros o; cbn.
  - rewrite Nat.add_0_r. split; cbn; [done|repeat constructor|by repeat constructor|done].
  - destruct (encoded_width r) as [k w]. cbn. apply ordered_replicate. rewrite Nat.add_assoc.
    eapply ordered_weaken; [|apply IH]. lia.
Qed.

Lemma key_width_item r : length (JsString.key_item r) = (encoded_width r).1.
Proof. destruct r as [c|u]; [|done]. cbn. by destruct (c =? JsString.marker). Qed.

Lemma key_width_items rs : length (concat (map JsString.key_item rs)) = key_width rs.
Proof. induction rs as [|r rs IH]; [done|]. cbn. by rewrite length_app, IH, key_width_item. Qed.

Lemma unit_width_item r : (encoded_width r).2 = length (reencode r).
Proof.
  destruct r as [c|u]; [|done]. cbn. destruct (Z.eqb_spec c JsString.marker) as [->|]; done.
Qed.

Lemma unit_width_units us : units_ok us -> unit_width (JsString.decode_utf16 us) = length us.
Proof.
  intros Hus. rewrite <- (reencode_decode us Hus) at 2. generalize (JsString.decode_utf16 us).
  induction l as [|r rs IH]; [done|]. cbn. rewrite length_app, <- IH, <- unit_width_item. done.
Qed.

Lemma widths_units t : sum_list (map len_utf16 t) = length (JsString.encode_utf16 t).
Proof. induction t as [|c t IH]; [done|]. cbn. by rewrite length_app, IH. Qed.

(** ** Sources *)

(** The lexers the engine makes, with the units of their text. *)
Inductive lexer_of : Source -> list Z -> Prop :=
| of_text s m : lexer_of (with_module_goal (new s) m) (JsString.encode_utf16 s)
| of_js_string js m : units_ok (JsString.units js) ->
    lexer_of (with_module_goal (from_js_string js) m) (JsString.units js).

Lemma lexer_of_text s us m : lexer_of (with_module_goal (new s) m) us -> us = JsString.encode_utf16 s.
Proof.
  intros H. remember (with_module_goal (new s) m) as L eqn:E. destruct H as [s' m'|js m' ?].
  - apply (f_equal src) in E. cbn in E. by subst.
  - by apply (f_equal encoded_source) in E.
Qed.

Lemma lexer_of_offsets L us : lexer_of L us ->
  ordered_offsets (source_offsets L) (length (src L)) 0 (length us).
Proof.
  intros [s m|js m Hus]; cbn.
  - rewrite <- widths_units, <- (length_map len_utf16 s). apply (offsets_ordered _ 0).
  - unfold JsString.to_key. rewrite key_width_items, <- (unit_width_units _ Hus).
    apply (encoded_offsets_ordered _ 0).
Qed.

Lemma lexer_of_whole L us : lexer_of L us -> length (source_offsets L) = S (length (src L)).
Proof. intros H. by destruct (lexer_of_offsets _ _ H). Qed.

(** ** Ranges of spans *)

(** The second of two tokens marks the first, the last chunk of a template that does
    not end, and repeats its span. *)
Definition marks (x y : SpannedToken) : Prop :=
  (exists q, x.1 = TemplateQuasi q) /\ y = (Unknown (chr "`"), x.2).

(** Of two tokens with ranges the first ends before the second begins, but for such a
    mark. *)
Definition after (x y : SpannedToken) : Prop :=
  marks x y \/ forall r r', source_range x.2 = Some r -> source_range y.2 = Some r' -> (r.2 <= r'.1)%nat.

Definition ranges (toks : list SpannedToken) : list (nat * nat) :=
  omap (fun e => source_range e.2) toks.

Lemma ranges_cons e toks r : source_range e.2 = Some r -> ranges (e :: toks) = r :: ranges toks.
Proof. intros E. unfold ranges. cbn. by rewrite E. Qed.
Lemma ranges_app t1 t2 : ranges (t1 ++ t2) = ranges t1 ++ ranges t2.
Proof. apply omap_app. Qed.

Section Ranges.
Context (L : Source) (n : nat).
Context (Hoff : ordered_offsets (source_offsets L) (length (src L)) 0 n).

Lemma offset_le i j a b : source_offsets L !! i = Some a -> source_offsets L !! j = Some b ->
  (i <= j)%nat -> (a <= b)%nat.
Proof.
  intros Ha Hb Hij. destruct (decide (i = j)) as [->|]; [by simplify_eq|].
  pose proof (offsets_sorted _ _ _ _ Hoff) as Hs. rewrite <- (take_drop (S i) (source_offsets L)) in Hs.
  eapply (StronglySorted_app_1_elem_of le); [done| |].
  - apply list_elem_of_lookup. exists i. rewrite lookup_take. by case_decide; [|lia].
  - apply list_elem_of_lookup. exists (j - S i)%nat. rewrite lookup_drop. by replace (S i + (j - S i))%nat with j by lia.
Qed.

Lemma piece_le a b : piece L a b -> (a < b)%nat /\ (b <= length (src L))%nat \/ (a < b)%nat.
Proof.
  intros Hp. right. destruct Hp as [a c E ?|a b ? [? _]|a b ? ? ?|a E|a b ? ? [? _]|b ? [? _]]; try lia.
  apply starts_with_head in E. by apply lookup_lt_Some in E.
Qed.

Lemma trivia_le a b : trivia L a b -> (a <= b)%nat.
Proof. induction 1 as [|a x b Hp _ IH]; [done|]. apply piece_le in Hp. lia. Qed.

Lemma laid_le a toks b : laid L a toks b -> (a <= b)%nat.
Proof. induction 1; repeat match goal with H : trivia _ _ _ |- _ => apply trivia_le in H end; lia. Qed.

Definition within (a b : nat) (r : nat * nat) : Prop := (a <= r.1 <= r.2)%nat /\ (r.2 <= b)%nat.

Lemma ranges_elem e r toks : e ∈ toks -> source_range e.2 = Some r -> r ∈ ranges toks.
Proof. intros He Hr. apply list_elem_of_omap. eauto. Qed.

Lemma after_ranges e r toks : source_range e.2 = Some r ->
  Forall (fun r' => (r.2 <= r'.1)%nat) (ranges toks) -> Forall (after e) toks.
Proof.
  intros Hr Hf. rewrite Forall_forall in Hf. apply Forall_forall. intros e' He'. right.
  intros x y Hx Hy. simplify_eq. exact (Hf y (ranges_elem _ _ _ He' Hy)).
Qed.

Lemma ranges_token i j e toks a b oa ob : covers L i j e -> (a <= i <= j)%nat -> (j <= b)%nat ->
  source_offsets L !! a = Some oa -> source_offsets L !! b = Some ob ->
  (forall oj, source_offsets L !! j = Some oj ->
    Forall (within oj ob) (ranges toks) /\ StronglySorted after toks) ->
  exists r, source_range e.2 = Some r /\ Forall (within oa ob) (r :: ranges toks)
    /\ Forall (fun r' => (r.2 <= r'.1)%nat) (ranges toks) /\ StronglySorted after toks.
Proof.
  intros [(x & y & Hx & Hy & Hr) _ _] Hai Hj Ha Hb IH. exists (x, y). split; [done|].
  pose proof (offset_le _ _ _ _ Ha Hx ltac:(lia)). pose proof (offset_le _ _ _ _ Hx Hy ltac:(lia)).
  pose proof (offset_le _ _ _ _ Hy Hb ltac:(lia)). destruct (IH y Hy) as [H3 H4]. split_and!; [| |done].
  - constructor; [unfold within; cbn; lia|]. eapply Forall_impl; [exact H3|]. unfold within. lia.
  - eapply Forall_impl; [exact H3|]. unfold within. cbn. lia.
Qed.

(** The spans of consecutive tokens are in order and inside. *)
Lemma laid_ranges a toks b : laid L a toks b -> forall oa ob,
  source_offsets L !! a = Some oa -> source_offsets L !! b = Some ob ->
  Forall (within oa ob) (ranges toks) /\ StronglySorted after toks.
Proof.
  induction 1 as [a b Ht|a i j b e toks Ht Hij Hc Hl IH|a i j b q sp toks Ht Hij Hc Hl IH
    |a i j b q sp toks Ht Hij Hc Hl IH]; intros oa ob Ha Hb; [by split; [apply Forall_nil|apply SSorted_nil]|..];
    apply trivia_le in Ht; pose proof (laid_le _ _ _ Hl) as Hjb;
    destruct (ranges_token i j _ toks a b oa ob Hc ltac:(lia) Hjb Ha Hb) as (r & Er & H1 & H2 & H3);
    try (by intros; apply IH); erewrite ?ranges_cons by exact Er;
    try (by split; [|constructor; [|eapply after_ranges]]).
  split; [constructor; [by inversion H1|done]|].
  constructor; [constructor; [done|by eapply after_ranges]|].
  constructor; [left; split; [by eexists|done]|by eapply after_ranges].
Qed.

End Ranges.

(** The errors behind the tokens have no ranges. *)
Lemma unclosed_ranges errors : Forall unclosed errors -> ranges errors = [].
Proof. induction 1 as [|e es [_ E] _ IH]; [done|]. unfold ranges in *. cbn. by rewrite E. Qed.

Lemma sorted_errors toks errors : StronglySorted after toks -> Forall unclosed errors ->
  StronglySorted after (toks ++ errors).
Proof.
  intros Hs He. assert (forall x y, y ∈ errors -> after x y) as Ha.
  { intros x y Hy. right. intros r r' _ Er. rewrite Forall_forall in He. destruct (He y Hy). congruence. }
  apply StronglySorted_app_2; [by intros x y _; apply Ha|done|]. clear He.
  induction errors as [|e es IH]; constructor.
  - apply IH. intros x y Hy. apply Ha. by right.
  - apply Forall_forall. intros y Hy. apply Ha. by right.
Qed.

(** ** The units a token of a text covers *)

Lemma encode_app a b : JsString.encode_utf16 (a ++ b) = JsString.encode_utf16 a ++ JsString.encode_utf16 b.
Proof. unfold JsString.encode_utf16. by rewrite map_app, concat_app. Qed.

Lemma encode_slice x y z :
  take (length (JsString.encode_utf16 (x ++ y)) - length (JsString.encode_utf16 x))
    (drop (length (JsString.encode_utf16 x)) (JsString.encode_utf16 (x ++ y ++ z)))
  = JsString.encode_utf16 y.
Proof.
  rewrite !encode_app, length_app, drop_app_length. rewrite take_app_length'; [done|lia].
Qed.

Lemma offsets_lookup : forall s i o, (i <= length s)%nat ->
  offsets (map len_utf16 s) o !! i = Some (o + length (JsString.encode_utf16 (take i s)))%nat.
Proof.
  induction s as [|c s IH]; intros [|i] o Hi; cbn in *; try lia; [by rewrite Nat.add_0_r..|].
  rewrite IH by lia. f_equal. rewrite length_app. unfold len_utf16, JsString.encode_utf16. lia.
Qed.

Lemma text_units s i j a b : (i <= j <= length s)%nat ->
  source_offsets (new s) !! i = Some a -> source_offsets (new s) !! j = Some b ->
  take (b - a) (drop a (JsString.encode_utf16 s)) = JsString.encode_utf16 (text (new s) i j).
Proof.
  intros Hij. cbn [new source_offsets]. rewrite !offsets_lookup by lia. intros [= <-] [= <-].
  unfold text. cbn [new src Nat.add].
  assert (s = take i s ++ take (j - i) (drop i s) ++ drop j s) as Es.
  { rewrite <- (take_drop i s) at 1. f_equal. rewrite <- (take_drop (j - i) (drop i s)) at 1.
    f_equal. rewrite drop_drop. by replace (i + (j - i))%nat with j by lia. }
  assert (take j s = take i s ++ take (j - i) (drop i s)) as Ej.
  { rewrite <- (take_drop i (take j s)). rewrite take_take, Nat.min_l by lia. f_equal.
    rewrite skipn_firstn_comm. done. }
  pose proof (encode_slice (take i s) (take (j - i) (drop i s)) (drop j s)) as Hs.
  by rewrite <- Es, <- Ej in Hs.
Qed.

(** Every token covers some characters, a mark of an open template apart. *)
Lemma laid_covers L a toks b : laid L a toks b -> forall c, (b <= c)%nat ->
  Forall (fun e => spelling e.1 = None \/ exists i j, (i <= j <= c)%nat /\ covers L i j e) toks.
Proof.
  induction 1 as [|a i j b e toks Ht Hij Hc Hl IH|a i j b q sp toks Ht Hij Hc Hl IH
    |a i j b q sp toks Ht Hij Hc Hl IH]; intros c Hb; [constructor|..];
    specialize (IH _ Hb); pose proof (laid_le _ _ _ _ Hl).
  - constructor; [|done]. right. exists i, j. split; [lia|done].
  - constructor; [by left|done].
  - constructor; [by left|]. constructor; [by left|done].
Qed.
