(* ===== verification/LexerWords.v ===== *)
(** Texts of one token: string literals and words. *)
From stdpp Require Import prelude list strings.
From Stdlib Require Import ZArith Lia SpecFloat Ascii.
From S2P Require Import Prelude JsString JsStringTheorems Token Lexer LexerSpec LexerReads LexerNext LexerTokens.
Import Token Lexer.
Local Open Scope Z_scope.
Local Open Scope lex_scope.

Section Words.
Context `{IdentifierTables} (L : Source).

(** The queues are as they were. *)
Record kept (s s' : Lexer) : Prop := {
  kept_pending : pending s' = pending s;
  kept_spans : pending_spans s' = pending_spans s;
  kept_errors : lexical_errors s' = lexical_errors s;
}.

Lemma kept_refl s : kept s s.
Proof. by split. Qed.
Lemma kept_trans a b c : kept a b -> kept b c -> kept a c.
Proof. intros [] []. split; congruence. Qed.

Lemma drop_step p x rest : drop p (src L) = x :: rest ->
  src L !! p = Some x /\ drop (p + 1) (src L) = rest.
Proof.
  intros E. split.
  - rewrite <- (Nat.add_0_r p), <- lookup_drop, E. done.
  - by rewrite <- drop_drop, E.
Qed.

(** ** Space *)

(** A character that begins neither space nor a comment. *)
Definition begins_token (c : Z) : bool :=
  negb (is_space c || is_line_terminator c || among "/<-#" c).

Lemma begins_token_starts c x p w : begins_token c = true -> src L !! p = Some c ->
  among "/<-#" x = true -> starts_with (x :: w) (drop p (src L)) = false.
Proof.
  intros Hc E Hx. apply not_true_iff_false. intros Hs. apply starts_with_head in Hs.
  rewrite E in Hs. injection Hs as ->. unfold begins_token in Hc. by rewrite Hx, !orb_true_r in Hc.
Qed.

Lemma skip_ws_stop s : (forall c, src L !! pos s = Some c -> begins_token c = true) ->
  lexes (skip_ws L) (fun _ s' => s' = s) s.
Proof.
  intros Hc. unfold skip_ws, LOOP. cbn [skip_ws_loop]. lrules.
  destruct (src L !! pos s) as [c|] eqn:E; lrules; [|done]. specialize (Hc c eq_refl).
  destruct (_ && starts_with (chars "#!") _) eqn:E1.
  { apply andb_true_iff in E1 as [E0 E1]. apply Nat.eqb_eq in E0.
    change (src L) with (drop 0 (src L)) in E1. rewrite <- E0 in E1.
    change (chars "#!") with (chr "#" :: chars "!") in E1. by rewrite (begins_token_starts c) in E1. }
  change (chars "<!--") with (chr "<" :: chars "!--"). change (chars "-->") with (chr "-" :: chars "->").
  rewrite !(begins_token_starts c) by done. rewrite andb_false_r, andb_false_r.
  unfold begins_token in Hc. rewrite negb_true_iff, !orb_false_iff in Hc. destruct Hc as [[Hsp Ht] Ha].
  unfold is_line_terminator in Ht. rewrite !orb_false_iff in Ht. destruct Ht as [[[-> ->] ->] ->]. cbn [orb].
  rewrite Hsp. unfold among in Ha. cbn in Ha. rewrite !orb_false_iff in Ha.
  destruct (c =? chr "/") eqn:E2; lrules; [|done]. apply Z.eqb_eq in E2 as ->. by destruct Ha.
Qed.

(** ** A text of one token *)

Lemma tokenize_single (whole : length (source_offsets L) = S (length (src L)))
  (P : Token -> Prop) c :
  src L !! 0%nat = Some c -> begins_token c = true ->
  (forall t, P t -> is_numeric t = false /\ is_backtick t = false) ->
  (forall template, lexes (next L template) (fun r s' => exists t, r = Some t /\ P t
    /\ pos s' = length (src L) /\ kept start s') start) ->
  exists t, tokenize L = Ok [t; EOF] /\ P t.
Proof.
  intros E Hc HP Hn.
  assert (lexes (tokenize_with_spans L) (fun toks _ => exists t, map fst toks = [t; EOF] /\ P t) start) as Ht.
  { unfold tokenize_with_spans. 
    assert (exists n, (3 * length (src L) = S n)%nat) as [n ->].
    { apply lookup_lt_Some in E. exists (3 * length (src L) - 1)%nat. lia. }
    lthen_with (fun (toks : list SpannedToken) s' => exists t sp, toks = [(t, sp)] /\ P t /\ pos s' = length (src L)
      /\ kept start s').
    { cbn [tokenize_loop]. lrules. cbn [pending start]. lrules.
      lcall (apply skip_ws_stop). { cbn [pos start]. rewrite E. by intros c' [= <-]. }
      intros _ s1 ->. lrules. cbn [pos start]. rewrite E.
      lthen_with (fun (r : option SpannedToken) s' => exists t sp, r = Some (t, sp) /\ P t /\ pos s' = length (src L) /\ kept start s').
      { unfold next_with_span. lrules. cbv zeta. lcall (apply Hn).
        intros r s1 (t & -> & Hp & Epos & Hk). destruct (HP t Hp) as [H1 H2]. lrules.
        destruct (src L !! pos s1) as [d|] eqn:Ed.
        { apply lookup_lt_Some in Ed. lia. }
        rewrite H2. destruct (source_offsets L !! 0%nat) as [a|] eqn:Ea.
        2: { apply lookup_ge_None in Ea. lia. }
        destruct (source_offsets L !! pos s1) as [b|] eqn:Eb.
        2: { apply lookup_ge_None in Eb. lia. }
        eapply lexes_lift; [unfold index_or_panic; cbn [pos start]; by rewrite Ea|]. lrules.
        eapply lexes_lift; [unfold index_or_panic; by rewrite Eb|]. lrules. eauto 10. }
      intros r s1 (t & sp & -> & Hp & Epos & Hk).
      lcall (apply record_ok). intros _ s2 [g ->]. lrules. cbn [tokenize_loop]. lrules.
      destruct Hk as [Hk1 Hk2 Hk3]. cbn [pending set_line_has_token set_goal]. rewrite Hk1. cbn [pending start].
      lcall (apply skip_ws_stop).
      { intros d Ed%lookup_lt_Some. cbn in Ed. lia. }
      intros _ s3 ->. lrules. cbn [pos set_line_has_token set_goal].
      rewrite (lookup_ge_None_2 (src L)) by lia. lrules. eexists _, _. split_and!; [done..|by split]. }
    intros toks s1 (t & sp & -> & Hp & Epos & [_ _ Hk]). lrules. cbn [line col pos set_lexical_errors].
    destruct (source_offsets L !! pos s1) as [b|] eqn:Eb.
    2: { apply lookup_ge_None in Eb. lia. }
    unfold source_span. lrules. eapply lexes_lift; [unfold index_or_panic; by rewrite Eb|]. lrules.
    eapply lexes_lift; [unfold index_or_panic; by rewrite Eb|]. lrules. rewrite Hk. cbn. eauto. }
  unfold tokenize. unfold lexes in Ht. destruct (tokenize_with_spans L start) as [[toks s']| |]; [|done..].
  destruct Ht as (t & -> & Hp). eauto.
Qed.

(** ** String literals *)

(** A decoded scalar that a string literal may hold as it is. *)
Definition plain_item (q : Z) (r : Z + Z) : Prop :=
  match r with
  | inl c => c <> q /\ c <> chr "\" /\ c <> 10 /\ c <> 13
  | inr u => uint 16 u
  end.

(** The rest of an item after its first character. *)
Definition item_tail (r : Z + Z) : list Z := tail (JsString.key_item r).
Definition item_head (r : Z + Z) : Z :=
  match r with inl c => c | inr _ => JsString.marker end.

Lemma key_item_cons r : JsString.key_item r = item_head r :: item_tail r.
Proof.
  destruct r as [c|u]; [|done]. unfold item_tail. cbn.
  by destruct (Z.eqb_spec c JsString.marker) as [->|].
Qed.

Lemma item_unit r rest s : encoded_source L = true -> (forall u, r = inr u -> uint 16 u) ->
  drop (pos s) (src L) = item_tail r ++ rest ->
  lexes (source_unit_string L (item_head r)) (fun t s' => JsString.units t = reencode r
    /\ drop (pos s') (src L) = rest /\ (pos s <= pos s')%nat /\ kept s s') s.
Proof.
  intros He Hu Ed. unfold source_unit_string. rewrite He. cbn [andb].
  destruct r as [c|u]; unfold item_tail in Ed; cbn [item_head JsString.key_item] in *.
  - destruct (Z.eqb_spec c JsString.marker) as [->|Hm]; cbn [tail app] in Ed; lrules.
    + destruct (drop_step _ _ _ Ed) as [-> Ed']. cbn [at_char]. rewrite Z.eqb_refl. lrules.
      cbn [pos set_col set_pos]. split_and!; [done|done|lia|by split].
    + split_and!; [|done|done|apply kept_refl]. cbn. by rewrite app_nil_r.
  - rewrite Z.eqb_refl. cbn [tail app] in Ed. lrules.
    destruct (drop_step _ _ _ Ed) as [Es Ed']. rewrite Es. cbn [at_char].
    change (115 =? JsString.marker) with false. change (115 =? chr "s") with true. cbn [andb].
    pose proof (f_equal length Ed) as El. rewrite length_drop in El. cbn in El.
    rewrite (proj2 (Nat.leb_le _ _)) by lia. lrules.
    eapply lexes_lift; [apply slice_text; lia|].
    assert (text L (pos s + 1) (pos s + 5) = JsString.format_04X u) as ->.
    { unfold text. rewrite Ed'. by replace (pos s + 5 - (pos s + 1))%nat with 4%nat by lia. }
    rewrite parse_format_04X by by apply Hu. lrules. cbn [pos set_col set_pos].
    split_and!; [done| |lia|by split].
    replace (pos s + 5)%nat with (pos s + 1 + 4)%nat by lia. by rewrite <- drop_drop, Ed'.
Qed.

Lemma read_items q rs : encoded_source L = true -> JsString.marker <> q ->
  Forall (plain_item q) rs -> forall fuel s t,
  drop (pos s) (src L) = concat (map JsString.key_item rs) ++ [q] ->
  (length rs < fuel)%nat ->
  lexes (read_str_loop L fuel q t false false) (fun r s' =>
    (exists t', r = TString t' /\ JsString.units t' = JsString.units t ++ concat (map reencode rs))
    /\ pos s' = length (src L) /\ kept s s') s.
Proof.
  intros He Hq. induction 1 as [|r rs Hr _ IH]; intros [|fuel] s t Ed Hf; cbn in Hf; try lia;
    cbn [read_str_loop]; lrules; cbn [map concat] in *.
  - destruct (drop_step _ _ _ Ed) as [-> Ed']. lrules. rewrite Z.eqb_refl. lrules.
    split_and!; [exists t; by rewrite app_nil_r| |by split].
    apply (f_equal length) in Ed. rewrite length_drop in Ed. cbn in *. lia.
  - rewrite key_item_cons in Ed. cbn [app] in Ed. destruct (drop_step _ _ _ Ed) as [-> Ed']. lrules.
    assert (item_head r <> q /\ item_head r <> chr "\" /\ item_head r <> 10 /\ item_head r <> 13)
      as (H1 & H2 & H3 & H4) by (destruct r; [done|by split_and!]).
    rewrite !(proj2 (Z.eqb_neq _ _)) by done. cbn [orb].
    lcall (eapply (item_unit r); [done| |cbn [pos set_col set_pos]; by rewrite <- app_assoc in Ed']).
    { intros u ->. done. }
    intros x s1 (Hx & Ed1 & Hp & Hk). lcall (apply IH; [done|lia]).
    intros r' s2 ((t' & -> & Ht') & Epos & Hk2). split_and!; [|done|].
    + exists t'. split; [done|]. by rewrite Ht'; cbn; rewrite Hx, app_assoc.
    + eapply kept_trans; [|done]. eapply kept_trans; [|done]. by split.
Qed.

(** ** Words *)

(** A word of identifier characters. *)
Definition identifier_shaped (name : Text) : bool :=
  match name with
  | [] => false
  | c :: rest => is_identifier_start c && forallb is_identifier_continue rest
  end.

Lemma read_word rest : forall fuel s i, drop (pos s) (src L) = rest ->
  (pos s <= length (src L))%nat -> (length rest < fuel)%nat ->
  Forall (fun c => c <> chr "\") rest ->
  match i with [] => identifier_shaped rest = true | _ => Forall (fun c => is_identifier_continue c = true) rest end ->
  lexes (read_ident_loop L fuel i false) (fun t s' => t = identifier_token (i ++ rest) false
    /\ pos s' = length (src L) /\ kept s s') s.
Proof.
  induction rest as [|c rest IH]; intros [|fuel] s i Ed Hp Hf Hb Hi; cbn in Hf; try lia;
    cbn [read_ident_loop]; lrules.
  - rewrite (drop_nil_lookup _ _ Ed). lrules. rewrite app_nil_r. split_and!; [done| |apply kept_refl].
    apply (f_equal length) in Ed. rewrite length_drop in Ed. cbn in Ed. lia.
  - destruct (drop_step _ _ _ Ed) as [-> Ed'].
    apply Forall_cons in Hb as [Hc Hb]. rewrite (proj2 (Z.eqb_neq _ _) Hc).
    assert (fits i c = true /\ Forall (fun c => is_identifier_continue c = true) rest) as [Hfit Hrest].
    { destruct i as [|x i]; cbn [identifier_shaped fits] in *.
      - apply andb_true_iff in Hi as [Hs Hr]. split; [done|]. by apply List.Forall_forall, List.forallb_forall.
      - by apply Forall_cons in Hi. }
    rewrite Hfit. lrules. apply (f_equal length) in Ed. rewrite length_drop in Ed. cbn in Ed.
    lcall (apply IH; [done|cbn; lia|lia|done|]).
    { destruct i; done. }
    intros t s' (-> & Epos & Hk). split_and!; [by rewrite <- app_assoc|done|].
    eapply kept_trans; [|done]. by split.
Qed.

(** *** The next token of such a text *)

Lemma next_string q rs template : encoded_source L = true -> q = 34 \/ q = 39 ->
  Forall (plain_item q) rs -> src L = q :: concat (map JsString.key_item rs) ++ [q] ->
  lexes (next L template) (fun r s' => exists t, r = Some t
    /\ (exists t', t = TString t' /\ JsString.units t' = concat (map reencode rs))
    /\ pos s' = length (src L) /\ kept start s') start.
Proof.
  intros He Hq Hrs Es. unfold next. lrules. cbn [pos start].
  assert (src L !! 0%nat = Some q) as E by by rewrite Es. rewrite E.
  lthen_with (fun (t : Token) s' => (exists t', t = TString t' /\ JsString.units t' = concat (map reencode rs))
    /\ pos s' = length (src L) /\ kept start s').
  { replace (q =? chr "`") with false by by destruct Hq as [-> | ->].
    replace (q =? chr "$") with false by by destruct Hq as [-> | ->].
    replace (q =? chr ".") with false by by destruct Hq as [-> | ->].
    replace (q =? chr "/") with false by by destruct Hq as [-> | ->].
    replace (q =? chr "#") with false by by destruct Hq as [-> | ->].
    replace ((q =? 34) || (q =? 39)) with true by by destruct Hq as [-> | ->].
    cbn [andb]. unfold read_str. lrules.
    lcall (eapply (read_items q rs); [done|by destruct Hq as [-> | ->]|done| |]).
    { cbn [pos set_col set_pos start Nat.add]. by rewrite Es. }
    { unfold LOOP. rewrite Es. cbn. rewrite length_app. pose proof (key_items_length rs). lia. }
    intros t s' (Ht & Epos & Hk). split_and!; [done|done|]. eapply kept_trans; [|done]. by split. }
  intros t s' (Ht & Epos & Hk). lrules. eauto.
Qed.

(** The tables agree with ASCII and put no space among the letters. *)
Record ascii_tables : Prop := {
  start_ascii : forall c, 0 <= c < 128 -> is_id_start c = is_ascii_alphabetic c;
  continue_ascii : forall c, 0 <= c < 128 ->
    is_id_continue c = is_ascii_alphanumeric c || (c =? chr "_");
  start_space : forall c, is_space c || is_line_terminator c = true -> is_id_start c = false;
}.

Lemma start_not (Ht : ascii_tables) c p : is_identifier_start c = true -> 0 <= p < 128 ->
  (p =? chr "$") || (p =? chr "_") || is_ascii_alphabetic p = false -> (c =? p) = false.
Proof.
  intros Hc Hp E. apply not_true_iff_false. intros ->%Z.eqb_eq.
  unfold is_identifier_start in Hc. rewrite (start_ascii Ht) in Hc by done. congruence.
Qed.

Lemma continue_not (Ht : ascii_tables) c p : is_identifier_continue c = true -> 0 <= p < 128 ->
  (p =? chr "$") || is_ascii_alphanumeric p || (p =? chr "_") = false -> c <> p.
Proof.
  intros Hc Hp E ->. unfold is_identifier_continue in Hc. rewrite (continue_ascii Ht) in Hc by done.
  rewrite !orb_false_iff in E. destruct E as [[E1 E2] E3]. rewrite E1, E2, E3 in Hc. cbn in Hc.
  rewrite orb_false_r, orb_true_iff, !Z.eqb_eq in Hc. lia.
Qed.

Lemma word_begins_token (Ht : ascii_tables) c : is_identifier_start c = true -> begins_token c = true.
Proof.
  intros Hc. unfold begins_token, among. cbn [chars existsb String.list_ascii_of_string map].
  rewrite !(start_not Ht c) by done. rewrite orb_false_r. apply negb_true_iff, not_true_iff_false.
  intros Hsp. apply (start_space Ht) in Hsp as Hi. unfold is_identifier_start in Hc. rewrite Hi in Hc.
  rewrite orb_false_r, orb_true_iff, !Z.eqb_eq in Hc. by destruct Hc as [-> | ->].
Qed.

Lemma start_not_digit (Ht : ascii_tables) c : is_identifier_start c = true -> is_ascii_digit c = false.
Proof.
  intros Hc. apply not_true_iff_false. intros Hd. unfold is_ascii_digit, in_range in Hd.
  rewrite andb_true_iff, !Z.leb_le in Hd. unfold is_identifier_start in Hc.
  rewrite (start_ascii Ht) in Hc by lia. unfold is_ascii_alphabetic, in_range in Hc.
  change (chr "$") with 36 in Hc. change (chr "_") with 95 in Hc.
  rewrite !orb_true_iff, !andb_true_iff, !Z.eqb_eq, !Z.leb_le in Hc. lia.
Qed.

Lemma word_no_operator (Ht : ascii_tables) c a b d : is_identifier_start c = true -> operator c a b d = None.
Proof. intros Hc. unfold operator. cbv zeta. by rewrite !(start_not Ht c) by done. Qed.

Lemma next_word (Ht : ascii_tables) template c rest : src L = c :: rest ->
  identifier_shaped (c :: rest) = true ->
  lexes (next L template) (fun r s' => exists t, r = Some t /\ t = identifier_token (c :: rest) false
    /\ pos s' = length (src L) /\ kept start s') start.
Proof.
  intros Es Hi. unfold next. lrules. cbn [pos start].
  assert (src L !! 0%nat = Some c) as E by by rewrite Es. rewrite E.
  pose proof Hi as Hi'. cbn [identifier_shaped] in Hi'. apply andb_true_iff in Hi' as [Hc Hr].
  assert (Forall (fun c => is_identifier_continue c = true) rest) as Hr'
    by by apply List.Forall_forall, List.forallb_forall.
  assert (Forall (fun c => c <> chr "\") (c :: rest)) as Hb.
  { constructor; [apply Z.eqb_neq; by apply start_not|].
    eapply Forall_impl; [exact Hr'|]. intros d Hd. by apply (continue_not Ht). }
  lthen_with (fun (t : Token) s' => t = identifier_token (c :: rest) false
    /\ pos s' = length (src L) /\ kept start s').
  2: { intros t s' (-> & Epos & Hk). lrules. eauto. }
  assert (lexes (read_ident L) (fun t s' => t = identifier_token (c :: rest) false
    /\ pos s' = length (src L) /\ kept start s') start) as Hread.
  { unfold read_ident. apply (read_word (c :: rest)); try done.
    - cbn. lia.
    - unfold LOOP. rewrite Es. cbn. lia. }
  rewrite (start_not Ht c (chr "`")), (start_not Ht c (chr ".")), (start_not Ht c (chr "/")),
    (start_not Ht c (chr "#")), (start_not Ht c 34), (start_not Ht c 39) by done. cbn [andb orb].
  rewrite word_no_operator, start_not_digit, Hc by done. cbn [orb].
  destruct (c =? chr "$"); [|done].
  replace (at_char _ _) with false; [done|]. rewrite Es. destruct rest as [|d rest]; [done|].
  apply Forall_cons in Hr' as [Hd _]. cbn. symmetry. apply Z.eqb_neq. by apply (continue_not Ht).
Qed.

End Words.
