(* ===== verification/LexerTheorems.v ===== *)
(** What the lexer promises: every text is read without a panic, tokens cover the
    text in order, a string literal is the string, a word is an identifier unless it
    is reserved.  Examples at the end show where it departs from the language. *)
From stdpp Require Import prelude list strings sorting.
From Stdlib Require Import ZArith Lia SpecFloat Ascii.
From S2P Require Import Prelude JsString JsStringTheorems Token Lexer LexerSpec LexerReads LexerNext LexerTokens LexerWords.
Import Token Lexer.
Local Open Scope Z_scope.

(** Tables of a small alphabet, for examples. *)
#[local] Instance letters : IdentifierTables := {|
  is_id_start := is_ascii_alphabetic;
  is_id_continue := fun c => is_ascii_alphanumeric c || (c =? chr "_");
|}.

(** C12. The lexer reads every text of fewer than 2^31 characters, given as text or
    as UTF-16 units, for a script or a module: it ends without an index out of range
    and without an overflow.  Its tokens cover the text from the first character to
    the last in order, with nothing but white space and comments between them; a
    token with one spelling covers exactly that spelling; a comment that does not end
    and the end of the text follow them. *)
Theorem tokenize_covers_text `{IdentifierTables} (L : Source) (us : list Z)
  (HL : lexer_of L us) (short : Z.of_nat (length (src L)) < 2 ^ 31) :
  exists toks errors eof s',
    tokenize_with_spans L start = Ok (toks ++ errors ++ [(EOF, eof)], s')
    /\ laid L 0 toks (length (src L)) /\ Forall unclosed errors
    /\ source_range eof = Some (length us, length us).
Proof.
  pose proof (tokenize_with_spans_ok L short (lexer_of_whole _ _ HL)) as Hok. unfold lexes in Hok.
  destruct (tokenize_with_spans L start) as [[toks s']| |]; [|done..].
  destruct Hok as (body & errors & eof & -> & Hl & He & n & Hn & Hr).
  exists body, errors, eof, s'. split_and!; [done..|].
  rewrite (offsets_last _ _ _ _ (lexer_of_offsets _ _ HL)) in Hn. by injection Hn as <-.
Qed.

Definition template_text : Text := chars "x = `a${ {b: `c`} }` /* d".

Lemma tokenize_covers_text_witness :
  let L := with_module_goal (new template_text) true in
  lexer_of L (JsString.encode_utf16 template_text) /\ exists toks errors eof s',
    tokenize_with_spans L start = Ok (toks ++ errors ++ [(EOF, eof)], s')
    /\ laid L 0 toks (length (src L)) /\ Forall unclosed errors
    /\ source_range eof = Some (25%nat, 25%nat).
Proof.
  split; [apply of_text|]. apply tokenize_covers_text with (us := JsString.encode_utf16 template_text).
  - apply of_text.
  - reflexivity.
Defined.

(** C13. The lexer gives the tokens of a source of fewer than 2^31 characters spans
    that are ranges of the units of the source.  Each token with a range ends before
    the next one begins; the only one that repeats a range is the mark of a template
    that does not end, which has that of the last chunk.  The range of a token with
    one spelling is that of characters of the source that spell it, and in a source
    given as text the units of that range are the spelling. *)
Theorem spans_in_bounds `{IdentifierTables} (L : Source) (us : list Z) (toks : list SpannedToken)
  (s' : Lexer) (HL : lexer_of L us) (short : Z.of_nat (length (src L)) < 2 ^ 31)
  (Hrun : tokenize_with_spans L start = Ok (toks, s')) :
  Forall (within 0 (length us)) (ranges toks) /\ StronglySorted after toks
  /\ Forall (fun e => forall w a b, spelling e.1 = Some w -> source_range e.2 = Some (a, b) ->
       (exists i j, source_offsets L !! i = Some a /\ source_offsets L !! j = Some b
          /\ LexerReads.text L i j = w)
       /\ forall s m, L = with_module_goal (new s) m ->
            take (b - a) (drop a us) = JsString.encode_utf16 w) toks.
Proof.
  pose proof (lexer_of_offsets _ _ HL) as Hoff.
  pose proof (tokenize_with_spans_ok L short (lexer_of_whole _ _ HL)) as Hok. unfold lexes in Hok.
  rewrite Hrun in Hok. destruct Hok as (body & errors & eof & -> & Hl & He & n & Hn & Hr).
  rewrite (offsets_last _ _ _ _ Hoff) in Hn. injection Hn as <-.
  destruct (source_offsets L !! 0%nat) as [o|] eqn:E0.
  2: { apply lookup_ge_None in E0. rewrite (offsets_length _ _ _ _ Hoff) in E0. lia. }
  destruct (laid_ranges L _ Hoff _ _ _ Hl _ _ E0 (offsets_last _ _ _ _ Hoff)) as [Hw Hs].
  split_and!.
  - rewrite !ranges_app, (unclosed_ranges _ He), (ranges_cons (EOF, eof) [] _ Hr).
    apply Forall_app. split; [eapply Forall_impl; [exact Hw|]|constructor; [|constructor]];
      unfold within; cbn; lia.
  - rewrite app_assoc. apply StronglySorted_app_2; [|by apply sorted_errors|by repeat constructor].
    intros x y Hx ->%list_elem_of_singleton. right. intros r r' Er Er'. cbn in Er'. simplify_eq.
    apply elem_of_app in Hx as [Hx|Hx].
    + rewrite Forall_forall in Hw. apply (Hw r), (ranges_elem x); done.
    + rewrite Forall_forall in He. destruct (He x Hx) as [_ E]. congruence.
  - apply Forall_app. split; [|apply Forall_app; split].
    + eapply Forall_impl; [by eapply (laid_covers _ _ _ _ Hl)|]. intros e He0 w a b Ew Er.
      destruct He0 as [He0|(i & j & Hij & [(x & y & Hx & Hy & Exy) _ Hsp])]; [congruence|].
      rewrite Exy in Er. injection Er as <- <-. rewrite (Hsp _ Ew). split; [eauto|]. intros s m ->.
      rewrite (lexer_of_text s us m HL). by apply (text_units s i j).
    + eapply Forall_impl; [exact He|]. intros e [_ E] w a b _ Er. congruence.
    + apply Forall_singleton. by intros w a b [=].
Qed.

Definition bounds_text : Text := chars "a => `b${c}` + d/e".

Lemma spans_in_bounds_witness :
  let L := with_module_goal (new bounds_text) false in
  exists toks s', tokenize_with_spans L start = Ok (toks, s')
    /\ Forall (within 0 18) (ranges toks) /\ StronglySorted after toks
    /\ Forall (fun e => forall w a b, spelling e.1 = Some w -> source_range e.2 = Some (a, b) ->
       (exists i j, source_offsets L !! i = Some a /\ source_offsets L !! j = Some b
          /\ LexerReads.text L i j = w)
       /\ forall s m, L = with_module_goal (new s) m ->
            take (b - a) (drop a (JsString.encode_utf16 bounds_text)) = JsString.encode_utf16 w) toks.
Proof.
  eexists _, _. split; [vm_compute; reflexivity|].
  eapply (spans_in_bounds _ (JsString.encode_utf16 bounds_text)).
  - apply of_text.
  - reflexivity.
  - vm_compute. reflexivity.
Defined.

(** ** String literals *)

Lemma decode_snoc us q : JsString.is_surrogate q = false ->
  JsString.decode_utf16 (us ++ [q]) = JsString.decode_utf16 us ++ [inl q].
Proof.
  intros Hq. induction us as [|u rest Hu IH|u rest Hu IH|hi lo rest Hh Hl IH] using utf16_ind; cbn [app].
  - by rewrite decode_unit.
  - by rewrite !decode_unit, IH.
  - rewrite (decode_lone u rest), decode_lone, IH; [done| |done]. destruct Hu as [Hs Hlone]. split; [done|].
    intros Hh. destruct rest as [|lo rest]; [|by apply Hlone]. cbn.
    unfold JsString.is_low, JsString.is_surrogate, in_range in *. lia.
  - by rewrite !decode_pair, IH.
Qed.

(** A unit that a string literal may hold as it is. *)
Definition plain_unit (q u : Z) : Prop := u <> q /\ u <> chr "\" /\ u <> 10 /\ u <> 13.

Lemma plain_items q us : units_ok us -> q < 0x10000 -> Forall (plain_unit q) us ->
  Forall (plain_item q) (JsString.decode_utf16 us).
Proof.
  intros Hok Hq. induction us as [|u rest Hu IH|u rest Hu IH|hi lo rest Hh Hl IH] using utf16_ind;
    intros Hp; [constructor|..].
  - rewrite decode_unit by done. apply units_ok_cons in Hok as [_ Hok]. apply Forall_cons in Hp as [? ?].
    constructor; auto.
  - rewrite decode_lone by done. apply units_ok_cons in Hok as [? Hok]. apply Forall_cons in Hp as [? ?].
    constructor; auto.
  - rewrite decode_pair by done. rewrite !units_ok_cons in Hok. rewrite !Forall_cons in Hp.
    constructor; [|apply IH; tauto]. pose proof (pair_char_range hi lo Hh Hl) as Hr. cbn [plain_item].
    change (chr "\") with 92. lia.
Qed.

(** C14. A string literal of source given as UTF-16 units is the string between its
    quotes, unit by unit, unpaired surrogates and the noncharacter the keys reserve
    included, when that holds no quote, backslash or line end. *)
Theorem string_literal_roundtrip `{IdentifierTables} (q : Z) (us : list Z)
  (Hq : q = 34 \/ q = 39) (Hus : units_ok us) (Hplain : Forall (plain_unit q) us) :
  exists t, tokenize (from_js_string (JsString.from_units (q :: us ++ [q]))) = Ok [TString t; EOF]
    /\ JsString.units t = us.
Proof.
  set (js := JsString.from_units (q :: us ++ [q])) in *. set (L := from_js_string js) in *.
  assert (JsString.is_surrogate q = false /\ uint 16 q /\ q < 0x10000) as (Hs & Hq16 & Hlt)
    by by destruct Hq as [-> | ->].
  assert (units_ok (JsString.units js)) as Hok.
  { cbn. apply units_ok_cons. split; [done|]. apply Forall_app. split; [done|by apply Forall_singleton]. }
  assert (src L = q :: concat (map JsString.key_item (JsString.decode_utf16 us)) ++ [q]) as Es.
  { cbn -[JsString.decode_utf16]. unfold JsString.to_key. cbn [js JsString.from_units JsString.units].
    rewrite decode_unit, decode_snoc by done. cbn [map concat].
    rewrite map_app, concat_app. cbn. by destruct Hq as [-> | ->]. }
  pose proof (lexer_of_whole _ _ (of_js_string js false Hok)) as Hwhole.
  change (with_module_goal (from_js_string js) false) with L in Hwhole.
  assert (encoded_source L = true) as Henc by done. clearbody L.
  destruct (tokenize_single L Hwhole
    (fun t => exists t', t = TString t'
       /\ JsString.units t' = concat (map reencode (JsString.decode_utf16 us))) q) as (t & Et & t' & -> & Ht).
  - by rewrite Es.
  - by destruct Hq as [-> | ->].
  - by intros t (t' & -> & _).
  - intros template. exact (next_string L q _ template Henc Hq (plain_items q us Hus Hlt Hplain) Es).
  - exists t'. by rewrite reencode_decode in Ht.
Qed.

Definition odd_units : list Z := [97; 0xD800; 0xFDD0; 0xD83D; 0xDE00; 0x2028].

Lemma string_literal_roundtrip_witness :
  exists t, tokenize (from_js_string (JsString.from_units (34 :: odd_units ++ [34]))) = Ok [TString t; EOF]
    /\ JsString.units t = odd_units.
Proof.
  apply string_literal_roundtrip.
  - by left.
  - repeat constructor; done.
  - repeat constructor; done.
Defined.

(** ** Words *)

Definition is_contextual (t : Token) : bool :=
  match t with
  | KwAs | KwAsync | KwConstructor | KwFrom | KwGet | KwOf | KwSet => true
  | _ => false
  end.

(** The words that name no binding. *)
Definition reserved (name : Text) : bool :=
  match lookup_keyword keywords name with
  | Some t => negb (is_contextual t)
  | None => false
  end.

(** C15. A text of identifier characters is one token, whose name is the text, and it
    may name a binding exactly when it is not a reserved word: the contextual words
    [as], [async], [constructor], [from], [get], [of] and [set] may. *)
Theorem word_is_binding_unless_reserved `{IdentifierTables} (Ht : ascii_tables) (name : Text)
  (Hname : identifier_shaped name = true) :
  tokenize (new name) = Ok [identifier_token name false; EOF]
  /\ identifier_name (identifier_token name false) = Some name
  /\ is_binding_identifier name = Ok (negb (reserved name)).
Proof.
  destruct name as [|c rest]; [done|]. set (name := c :: rest) in *.
  assert (tokenize (new name) = Ok [identifier_token name false; EOF]) as E.
  { pose proof Hname as Hc. cbn in Hc. apply andb_true_iff in Hc as [Hc _].
    destruct (tokenize_single (new name) (lexer_of_whole _ _ (of_text name false))
      (fun t => t = identifier_token name false) c) as (t & Et & ->); [done|by apply word_begins_token| | |done].
    - intros t ->. unfold identifier_token. destruct (lookup_keyword keywords name) as [t|] eqn:Ek; [|done].
      apply keyword_names in Ek as [Ek _]. by destruct t.
    - intros template. by apply (next_word (new name) Ht template c rest). }
  split_and!; [done|apply identifier_token_name|].
  unfold is_binding_identifier. subst name. rewrite E. cbn [obind length Nat.eqb negb index_or_panic lookup list_lookup is_eof].
  set (name := c :: rest) in *. unfold identifier_token, reserved.
  destruct (lookup_keyword keywords name) as [t|] eqn:Ek; cbn [default from_option].
  - f_equal. rewrite negb_involutive. pose proof (keyword_no_identifier _ _ Ek).
    destruct t; try done. naive_solver.
  - f_equal. by apply bool_decide_eq_true.
Qed.

Lemma letters_ascii : ascii_tables.
Proof.
  split; [done|done|]. intros c Hc. cbn [is_id_start letters].
  unfold is_space, is_line_terminator, in_range in Hc. unfold is_ascii_alphabetic, in_range. lia.
Qed.

Lemma word_is_binding_unless_reserved_witness :
  tokenize (new (chars "async")) = Ok [KwAsync; EOF]
  /\ identifier_name KwAsync = Some (chars "async")
  /\ is_binding_identifier (chars "async") = Ok true.
Proof. apply (word_is_binding_unless_reserved letters_ascii (chars "async")). reflexivity. Defined.

(** ** Departures from the language *)

Definition columns (s : Text) : list (Token * nat) :=
  match tokenize_with_spans (new s) start with
  | Ok (toks, _) => map (fun e => (e.1, span_col e.2)) toks
  | _ => []
  end.

(** The column misses the letter and the sign of an exponent: [x] is the seventh
    character. *)
Example exponent_is_not_counted :
  columns (chars "1e+3 +x") = [(Number (f64_from 1000), 1); (Plus, 4); (Identifier (chars "x"), 5); (EOF, 6)]%nat.
Proof. vm_compute. reflexivity. Qed.

(** The column keeps what was read in vain as a regular expression: [x] is the
    third character. *)
Example failed_regex_is_counted :
  columns (chars "/ x") = [(Slash, 1); (Identifier (chars "x"), 6); (EOF, 7)]%nat.
Proof. vm_compute. reflexivity. Qed.

(** After a line end in an interpolation every [-->] begins a comment, behind other
    tokens of the line too: the comparison and the rest of the line are gone, and the
    template does not end. *)
Example arrow_comment_in_interpolation :
  match tokenize (new (chars "`${" ++ [10] ++ chars "x-->0}`")) with
  | Ok toks => List.filter (fun t => match t with TemplateQuasi _ => false | _ => true end) toks
  | _ => []
  end = [Backtick; DollarLBrace; Identifier (chars "x"); Unknown (chr "`"); EOF].
Proof. vm_compute. reflexivity. Qed.

(** A contextual word with space or comments around it passes for a name. *)
Example binding_identifier_with_comment : is_binding_identifier (chars " as//x") = Ok true.
Proof. vm_compute. reflexivity. Qed.

(** The raw text of an escape in source given as units holds the key of an unpaired
    surrogate instead of the surrogate. *)
Example raw_escape_is_encoded :
  match tokenize (from_js_string (JsString.from_units [96; 92; 0xD800; 96])) with
  | Ok [_; TemplateQuasi q; _; _] => (JsString.units (cooked q), JsString.units (raw q))
  | _ => ([], [])
  end = ([0xD800], [92; 0xFDD0; 115; 68; 56; 48; 48]).
Proof. vm_compute. reflexivity. Qed.
