(* ===== verification/Ast.v ===== *)
(** The syntax tree: the data of [parser/ast.rs] and the walks over it that the
    compiler asks for.

    A constructor of the source's [Expr], [ObjectProp], [Statement],
    [ClassMember], ... carries the first letter of its type.  [Box], [Rc] and
    borrows are transparent; a source-text reference is the identity of its
    shared cell.  A function declaration also carries the identity of its node,
    which the compiler uses as a key (the node's address in the source). *)
From stdpp Require Import prelude list strings gmap.
From Stdlib Require Import ZArith Lia SpecFloat.
From S2P Require Import Prelude JsString.
Local Open Scope Z_scope.

Module Ast.

Abbreviation Text := (list Z) (only parsing).

(** ** Operators *)

Inductive BinOp :=
| Add | Sub | Mul | Div | Mod | Pow | BitAnd | BitOr | BitXor | Shl | Shr | UShr
| Eq | Neq | Seq | Sneq | Lt | Gt | Le | Ge | And | Or | Nullish | Comma | Instanceof | In.

Inductive UnOp := Not | Neg | Pos | BitNot | Typeof | Void | Delete | Inc | Dec.

Inductive AssignOp :=
| ASet | AAdd | ASub | AMul | ADiv | AMod | APow | ABitAnd | ABitOr | ABitXor
| AShl | AShr | AUShr.

Inductive LogicalAssignOp := LAnd | LOr | LNullish.

Definition bin_op (op : AssignOp) : option BinOp :=
  match op with
  | ASet => None
  | AAdd => Some Add
  | ASub => Some Sub
  | AMul => Some Mul
  | ADiv => Some Div
  | AMod => Some Mod
  | APow => Some Pow
  | ABitAnd => Some BitAnd
  | ABitOr => Some BitOr
  | ABitXor => Some BitXor
  | AShl => Some Shl
  | AShr => Some Shr
  | AUShr => Some UShr
  end.

Inductive ImportPhase := Evaluation | Source | Deferred.

Inductive VarKind := VVar | VLet | VConst.

(** ** The tree *)

Inductive Expr :=
| ELegacyLiteral (inner : Expr)
| EParenthesized (inner : Expr)
| ENumber (value : spec_float)
| EBigIntLiteral (digits : Text)
| EString (value : JsString.JsString)
| EEscapedString (value : JsString.JsString)
| ERegex (pattern : JsString.JsString) (flags : Text)
| EBool (b : bool)
| ENull
| EUndefined
| EElision
| EIdentifier (name : Text)
| EArray (items : list Expr) (trailing_comma : bool)
| EObject (props : list ObjectProp) (trailing_comma : bool)
| EBinary (op : BinOp) (lhs rhs : Expr)
| EUnary (op : UnOp) (operand : Expr) (prefix : bool)
| ECall (callee : Expr) (args : list Expr)
| EMember (object property : Expr) (computed : bool)
| ETaggedTemplate (site : Z) (tag : Expr) (cooked : list (option JsString.JsString))
    (raw : list JsString.JsString) (exprs : list Expr)
| EAssignment (target : Expr) (op : AssignOp) (value : Expr)
| ELogicalAssignment (target : Expr) (op : LogicalAssignOp) (value : Expr)
| EConditional (test consequent alternate : Expr)
| EArrowFn (source_text : option nat) (params : list Text) (body : ExprOrBlock) (is_async : bool)
| EClassExpr (decorators : list Expr) (source_text : option nat) (name : option Text)
    (superclass : option Expr) (body : list ClassMember)
| EFnExpr (source_text : option nat) (name : option Text) (params : list Text)
    (body : list Statement) (is_async is_generator : bool)
| ENew (callee : Expr) (args : list Expr)
| ESpread (inner : Expr)
| EThis
| ESuper
| EImportMeta
| ENewTarget
| EDynamicImport (specifier : Expr) (options : option Expr) (phase : ImportPhase)
| ETemplate (quasis : list JsString.JsString) (exprs : list Expr)
| EOptionalChain (object property : Expr) (computed : bool)
| EAwait (value : Expr)
| EYield (value : option Expr)
| EYieldFrom (value : Expr)
with ObjectProp :=
| OCoverInitializedName (name : Text) (initializer : Expr)
| OShorthand (name : Text)
| OKeyValue (key : Text) (value : Expr)
| OComputed (key value : Expr)
| OComputedMethod (source_text : option nat) (key : Expr) (params : list Text)
    (body : list Statement) (is_async is_generator is_getter is_setter : bool)
| OMethod (source_text : option nat) (name : Text) (params : list Text)
    (body : list Statement) (is_async is_generator : bool)
| OGetter (source_text : option nat) (name : Text) (body : list Statement)
| OSetter (source_text : option nat) (name param : Text) (body : list Statement)
| OSpread (value : Expr)
with ExprOrBlock :=
| BExpr (e : Expr)
| BBlock (stmts : list Statement)
with Statement :=
| SResourceForOf (name : Text) (iter : Expr) (body : list Statement) (is_await await_disposal : bool)
| SResourceDeclaration (declarations : list Statement) (is_await : bool)
| SExpr (e : Expr)
| SVarDecl (kind : VarKind) (name : Text) (init : option Expr) (destructuring : option Pattern)
| SFnDecl (address : nat) (source_text : option nat) (name : Text) (params : list Text)
    (body : list Statement) (is_async is_generator annex_b_statement : bool)
| SClassDecl (decorators : list Expr) (source_text : option nat) (name : Text)
    (superclass : option Expr) (body : list ClassMember)
| SReturn (value : option Expr)
| SIf (test : Expr) (then_ : list Statement) (else_ : option (list Statement))
| SWith (object : Expr) (body : list Statement)
| SWhile (test : Expr) (body : list Statement)
| SDoWhile (test : Expr) (body : list Statement)
| SFor (init : option ForInit) (test update : option Expr) (body : list Statement)
| SForIn (binding : ForBinding) (obj : Expr) (body : list Statement)
| SForOf (binding : ForBinding) (iter : Expr) (body : list Statement) (is_await : bool)
| SBlock (stmts : list Statement)
| SDeclarations (stmts : list Statement)
| SClassInitialization (derived : bool) (forward_rest : option Text) (fields : list Statement)
| SParameterInitialization (params : list Text) (initializers fields : list Statement)
| SLabeled (label : Text) (body : Statement)
| SBreak
| SContinue
| SLabeledBreak (label : Text)
| SLabeledContinue (label : Text)
| SThrow (value : Expr)
| STry (body : list Statement) (catch : option (option Pattern * list Statement))
    (finally : option (list Statement))
| SSwitch (disc : Expr) (cases : list SwitchCase)
| SExportDefault (value : Expr)
| SExportNamed (attributes : list (Text * JsString.JsString)) (specifiers : list (Text * Text))
    (source : option JsString.JsString)
| SExportAll (attributes : list (Text * JsString.JsString)) (source : JsString.JsString)
    (alias : option Text)
| SImport (attributes : list (Text * JsString.JsString)) (module : JsString.JsString)
    (phase : ImportPhase) (default : option Text) (named : list (Text * Text))
    (namespace : option Text)
| SEmpty
with ForBinding :=
| FDeclaration (kind : VarKind) (pattern : Pattern) (initializer : option Expr)
| FAssignment (target : Expr)
with ForInit :=
| IVar (kind : VarKind) (decls : list (Text * option Expr))
| IPattern (kind : VarKind) (pattern : Pattern) (init : Expr)
    (trailing : list (Text * option Expr))
| IExpr (e : Expr)
with SwitchCase :=
| Case (test : option Expr) (body : list Statement)
with MemberName :=
| MStatic (name : Text)
| MPrivate (name : Text)
| MComputed (e : Expr)
with ClassMember :=
| CMethod (decorators : list Expr) (source_text : option nat) (name : MemberName)
    (is_static : bool) (params : list Text) (body : list Statement) (is_async is_generator : bool)
| CField (decorators : list Expr) (name : MemberName) (is_static auto_accessor : bool)
    (init : option Expr)
| CStaticBlock (body : list Statement)
| CGetter (decorators : list Expr) (source_text : option nat) (name : MemberName)
    (is_static : bool) (body : list Statement)
| CSetter (decorators : list Expr) (source_text : option nat) (name : MemberName)
    (param : Text) (is_static : bool) (body : list Statement)
with PatternKey :=
| KName (name : Text)
| KComputed (e : Expr)
with Pattern :=
| PElision
| PIdent (name : Text)
| PArray (items : list Pattern)
| PObject (props : list (PatternKey * option Pattern))
| PRest (inner : Pattern)
| PDefault (inner : Pattern) (default : Expr)
| PMember (object property : Expr) (private : bool).

#[export] Instance BinOp_eq_dec : EqDecision BinOp.
Proof. solve_decision. Defined.
#[export] Instance UnOp_eq_dec : EqDecision UnOp.
Proof. solve_decision. Defined.
#[export] Instance VarKind_eq_dec : EqDecision VarKind.
Proof. solve_decision. Defined.
#[export] Instance ImportPhase_eq_dec : EqDecision ImportPhase.
Proof. solve_decision. Defined.

(** ** Parts of a node *)

Fixpoint unparenthesized (e : Expr) : Expr :=
  match e with
  | EParenthesized inner => unparenthesized inner
  | _ => e
  end.

Fixpoint is_string_literal (e : Expr) : bool :=
  match e with
  | EString _ | EEscapedString _ => true
  | ELegacyLiteral inner => is_string_literal inner
  | _ => false
  end.

Definition expr_source_text (e : Expr) : option nat :=
  match unparenthesized e with
  | EFnExpr source_text _ _ _ _ _ | EArrowFn source_text _ _ _
  | EClassExpr _ source_text _ _ _ => source_text
  | _ => None
  end.

Definition stmt_source_text (s : Statement) : option nat :=
  match s with
  | SFnDecl _ source_text _ _ _ _ _ _ | SClassDecl _ source_text _ _ _ => source_text
  | _ => None
  end.

Definition decorators (m : ClassMember) : list Expr :=
  match m with
  | CMethod decorators _ _ _ _ _ _ _ | CField decorators _ _ _ _
  | CGetter decorators _ _ _ _ | CSetter decorators _ _ _ _ _ => decorators
  | CStaticBlock _ => []
  end.

(** [name == other] on strings, and [name.starts_with(prefix)]. *)
Definition text_eq (name other : Text) : bool := bool_decide (name = other).
Fixpoint starts_with (prefix name : Text) : bool :=
  match prefix, name with
  | [], _ => true
  | p :: prefix, c :: name => (p =? c) && starts_with prefix name
  | _ :: _, [] => false
  end.

(** [matches!(property, Expr::String(key) if key.to_key().starts_with('#'))] *)
Definition private_key (property : Expr) : bool :=
  match property with
  | EString key => starts_with (chars "#") (JsString.to_key key)
  | _ => false
  end.

(** ** Synthesized nodes *)

Definition auto_accessor_storage (index : nat) : Text :=
  chars "#" ++ [0] ++ chars "auto-accessor:" ++ show_uint (Z.of_nat index).

Definition auto_accessor_body (storage : Text) (setter : bool) : list Statement :=
  let target := EMember EThis (EString (JsString.from_key storage)) false in
  if setter then [SExpr (EAssignment target ASet (EIdentifier (chars "value")))]
  else [SReturn (Some target)].

Fixpoint class_private_declarations_from (index : nat) (body : list ClassMember) : list Text :=
  match body with
  | [] => []
  | m :: body =>
      let private name := match name with MPrivate name => [name] | _ => [] end in
      match m with
      | CMethod _ _ name _ _ _ _ _ | CGetter _ _ name _ _ | CSetter _ _ name _ _ _ => private name
      | CField _ name _ auto_accessor _ =>
          (if auto_accessor then [auto_accessor_storage index] else []) ++ private name
      | CStaticBlock _ => []
      end ++ class_private_declarations_from (S index) body
  end.
Definition class_private_declarations : list ClassMember -> list Text :=
  class_private_declarations_from 0.

(** ** Declared names *)

Fixpoint pattern_names (p : Pattern) : list Text :=
  match p with
  | PElision | PMember _ _ _ => []
  | PIdent name => [name]
  | PArray items => flat_map pattern_names items
  | PObject props =>
      flat_map (fun '(key, sub) =>
        match sub with
        | Some sub => pattern_names sub
        | None => match key with KName name => [name] | KComputed _ => [] end
        end) props
  | PRest inner => pattern_names inner
  | PDefault inner _ => pattern_names inner
  end.

Definition declared_names (b : ForBinding) : list Text :=
  match b with
  | FDeclaration _ pattern _ => pattern_names pattern
  | FAssignment _ => []
  end.

Fixpoint top_lexical_name (s : Statement) : list Text :=
  match s with
  | SVarDecl VVar _ _ _ => []
  | SVarDecl _ name _ destructuring =>
      match destructuring with
      | Some pattern => pattern_names pattern
      | None => [name]
      end
  | SClassDecl _ _ name _ _ => [name]
  | SDeclarations inner | SResourceDeclaration inner _ => flat_map top_lexical_name inner
  | _ => []
  end.
Definition top_lexical_names (body : list Statement) : list Text := flat_map top_lexical_name body.

(** The names of a [for] head of the given kinds. *)
Definition for_init_names (wanted : VarKind -> bool) (init : ForInit) : list Text :=
  match init with
  | IVar kind decls => if wanted kind then map fst decls else []
  | IPattern kind pattern _ trailing =>
      if wanted kind then pattern_names pattern ++ map fst trailing else []
  | IExpr _ => []
  end.
Definition is_var (kind : VarKind) : bool := bool_decide (kind = VVar).

Fixpoint collect_stmt_var_names (functions : bool) (s : Statement) : list Text :=
  let names := flat_map (collect_stmt_var_names functions) in
  match s with
  | SVarDecl VVar name _ destructuring =>
      match destructuring with
      | Some pattern => pattern_names pattern
      | None => [name]
      end
  | SVarDecl _ _ _ _ | SClassDecl _ _ _ _ _ => []
  | SFnDecl _ _ name _ _ _ _ _ => if functions then [name] else []
  | SBlock body | SDeclarations body | SResourceDeclaration body _ | SWith _ body => names body
  | SIf _ then_ else_ =>
      names then_ ++ match else_ with Some else_ => names else_ | None => [] end
  | SWhile _ body | SDoWhile _ body | SResourceForOf _ _ body _ _ => names body
  | SForIn binding _ body | SForOf binding _ body _ =>
      match binding with
      | FDeclaration VVar pattern _ => pattern_names pattern
      | _ => []
      end ++ names body
  | SFor init _ _ body =>
      match init with Some init => for_init_names is_var init | None => [] end ++ names body
  | SLabeled _ body => collect_stmt_var_names functions body
  | STry body catch finally =>
      names body ++
      match catch with Some (_, catch_body) => names catch_body | None => [] end ++
      match finally with Some finally => names finally | None => [] end
  | SSwitch _ cases => flat_map (fun '(Case _ body) => names body) cases
  | _ => []
  end.
Definition collect_var_names (stmts : list Statement) : list Text :=
  flat_map (collect_stmt_var_names true) stmts.
Definition collect_var_declaration_names (stmts : list Statement) : list Text :=
  flat_map (collect_stmt_var_names false) stmts.

(** ** Statement lists ([interpreter/mod.rs]) *)

Fixpoint produces_completion_value (s : Statement) : bool :=
  match s with
  | SBlock body => existsb produces_completion_value body
  | SEmpty | SVarDecl _ _ _ _ | SDeclarations _ | SResourceDeclaration _ _
  | SFnDecl _ _ _ _ _ _ _ _ | SClassDecl _ _ _ _ _ | SImport _ _ _ _ _ _
  | SExportNamed _ _ _ | SExportAll _ _ _ | SExportDefault _ => false
  | _ => true
  end.

Fixpoint labeled_function (s : Statement) : option Statement :=
  match s with
  | SLabeled _ body => labeled_function body
  | SFnDecl _ _ _ _ _ _ _ _ => Some s
  | _ => None
  end.

Fixpoint needs_lexical_scope (s : Statement) : bool :=
  match s with
  | SVarDecl kind _ _ _ => negb (is_var kind)
  | SParameterInitialization _ _ _ | SClassInitialization _ _ _
  | SFnDecl _ _ _ _ _ _ _ _ | SClassDecl _ _ _ _ _ => true
  | SLabeled _ _ => match labeled_function s with Some _ => true | None => false end
  | SDeclarations inner | SResourceDeclaration inner _ => existsb needs_lexical_scope inner
  | _ => false
  end.
Definition block_needs_lexical_scope (stmts : list Statement) : bool :=
  existsb needs_lexical_scope stmts.

(** The directive prologue ([parser/validate.rs]). *)
Definition directive_literal (s : Statement) : bool :=
  match s with SExpr e => is_string_literal e | _ => false end.
Fixpoint use_strict (body : list Statement) : bool :=
  match body with
  | s :: body =>
      directive_literal s &&
      (match s with
       | SExpr (EString text) => JsString.eq_str text (chars "use strict")
       | _ => false
       end || use_strict body)
  | [] => false
  end.

(** [declaration_display_name] of [parser/mod.rs]. *)
Definition declaration_display_name (binding : Text) : Text :=
  if text_eq binding (chars "*default*") then chars "default" else binding.

(** ** References

    Whether a name is mentioned, in nested functions too. *)

Section References.
Context (name : Text).

Definition some_such {A} (f : A -> bool) (o : option A) : bool :=
  match o with Some x => f x | None => false end.

Fixpoint expr_references (e : Expr) : bool :=
  match e with
  | ELegacyLiteral inner | EParenthesized inner => expr_references inner
  | ERegex _ _ | EBigIntLiteral _ => false
  | EIdentifier n => text_eq n name
  | EArray items _ => existsb expr_references items
  | EObject props _ => existsb prop_references props
  | EBinary _ lhs rhs => expr_references lhs || expr_references rhs
  | EUnary _ operand _ => expr_references operand
  | EClassExpr decorators _ _ superclass body =>
      existsb expr_references decorators || some_such expr_references superclass
      || existsb member_references body
  | ELogicalAssignment target _ value => expr_references target || expr_references value
  | ETaggedTemplate _ tag _ _ exprs => expr_references tag || existsb expr_references exprs
  | ECall callee args => expr_references callee || existsb expr_references args
  | EMember object property _ => expr_references object || expr_references property
  | EOptionalChain object property _ => expr_references object || expr_references property
  | EAssignment target _ value => expr_references target || expr_references value
  | EConditional test consequent alternate =>
      expr_references test || expr_references consequent || expr_references alternate
  | EArrowFn _ _ body _ =>
      match body with
      | BExpr x => expr_references x
      | BBlock s => existsb stmt_references s
      end
  | EFnExpr _ _ _ body _ _ => existsb stmt_references body
  | ENew callee args => expr_references callee || existsb expr_references args
  | ESpread x => expr_references x
  | ETemplate _ exprs => existsb expr_references exprs
  | EAwait x => expr_references x
  | EYieldFrom x => expr_references x
  | EYield x => some_such expr_references x
  | ENumber _ | EString _ | EEscapedString _ | EBool _ | ENull | EUndefined | EElision
  | EThis | ESuper | EImportMeta | ENewTarget => false
  | EDynamicImport specifier options _ =>
      expr_references specifier || some_such expr_references options
  end
with prop_references (p : ObjectProp) : bool :=
  match p with
  | OShorthand n => text_eq n name
  | OCoverInitializedName _ initializer => expr_references initializer
  | OKeyValue _ v => expr_references v
  | OComputed k v => expr_references k || expr_references v
  | OComputedMethod _ key _ body _ _ _ _ => expr_references key || existsb stmt_references body
  | OMethod _ _ _ body _ _ | OGetter _ _ body | OSetter _ _ _ body => existsb stmt_references body
  | OSpread x => expr_references x
  end
(** [member_name_references], and the member's body. *)
with member_references (m : ClassMember) : bool :=
  match m with
  | CMethod decorators _ key _ _ body _ _ =>
      existsb expr_references decorators || name_references key || existsb stmt_references body
  | CField decorators key _ _ init =>
      existsb expr_references decorators || name_references key || some_such expr_references init
  | CGetter decorators _ key _ body =>
      existsb expr_references decorators || name_references key || existsb stmt_references body
  | CSetter decorators _ key _ _ body =>
      existsb expr_references decorators || name_references key || existsb stmt_references body
  | CStaticBlock body => existsb stmt_references body
  end
with name_references (key : MemberName) : bool :=
  match key with MComputed e => expr_references e | _ => false end
with pattern_references (p : Pattern) : bool :=
  match p with
  | PElision | PIdent _ | PRest _ => false
  | PMember object property _ => expr_references object || expr_references property
  | PArray elems => existsb pattern_references elems
  | PObject props =>
      existsb (fun '(key, p) =>
        match key with KComputed e => expr_references e | KName _ => false end
        || some_such pattern_references p) props
  | PDefault inner default => pattern_references inner || expr_references default
  end
with for_binding_references (b : ForBinding) : bool :=
  match b with
  | FAssignment target => expr_references target
  | FDeclaration _ pattern initializer =>
      pattern_references pattern || some_such expr_references initializer
  end
with for_init_references (i : ForInit) : bool :=
  match i with
  | IVar _ decls => existsb (fun '(_, e) => some_such expr_references e) decls
  | IPattern _ pattern init trailing =>
      pattern_references pattern || expr_references init
      || existsb (fun '(_, e) => some_such expr_references e) trailing
  | IExpr e => expr_references e
  end
with stmt_references (s : Statement) : bool :=
  match s with
  | SExpr e => expr_references e
  | SVarDecl _ _ init destructuring =>
      some_such expr_references init || some_such pattern_references destructuring
  | SFnDecl _ _ _ _ body _ _ _ => existsb stmt_references body
  | SClassDecl decorators _ _ superclass body =>
      existsb expr_references decorators || some_such expr_references superclass
      || existsb member_references body
  | SReturn e => some_such expr_references e
  | SIf test then_ else_ =>
      expr_references test || existsb stmt_references then_
      || some_such (existsb stmt_references) else_
  | SWith test body | SWhile test body | SDoWhile test body =>
      expr_references test || existsb stmt_references body
  | SFor init test update body =>
      some_such for_init_references init || some_such expr_references test
      || some_such expr_references update || existsb stmt_references body
  | SForIn binding obj body =>
      for_binding_references binding || expr_references obj || existsb stmt_references body
  | SForOf binding iter body _ =>
      for_binding_references binding || expr_references iter || existsb stmt_references body
  | SResourceForOf _ iter body _ _ => expr_references iter || existsb stmt_references body
  | SClassInitialization _ _ fields => existsb stmt_references fields
  | SParameterInitialization _ initializers fields =>
      existsb stmt_references initializers || existsb stmt_references fields
  | SBlock b | SDeclarations b | SResourceDeclaration b _ => existsb stmt_references b
  | SLabeled _ body => stmt_references body
  | SThrow e => expr_references e
  | STry body catch finally =>
      existsb stmt_references body
      || some_such (fun '(pattern, b) =>
           some_such pattern_references pattern || existsb stmt_references b) catch
      || some_such (existsb stmt_references) finally
  | SSwitch disc cases =>
      expr_references disc
      || existsb (fun '(Case test body) =>
           some_such expr_references test || existsb stmt_references body) cases
  | SExportDefault e => expr_references e
  | SBreak | SContinue | SLabeledBreak _ | SLabeledContinue _ | SExportNamed _ _ _
  | SExportAll _ _ _ | SImport _ _ _ _ _ _ | SEmpty => false
  end.

Definition stmts_reference (stmts : list Statement) : bool := existsb stmt_references stmts.

Definition arrow_body_references (body : ExprOrBlock) : bool :=
  match body with
  | BExpr e => expr_references e
  | BBlock s => stmts_reference s
  end.

(** ** Captures

    Whether a nested function, class or initializer mentions the name. *)

Fixpoint expr_captures_identifier (e : Expr) : bool :=
  match e with
  | ELegacyLiteral inner | EParenthesized inner => expr_captures_identifier inner
  | EArrowFn _ _ body _ => arrow_body_references body
  | EFnExpr _ _ _ body _ _ => stmts_reference body
  | EClassExpr decorators _ _ superclass body =>
      existsb expr_captures_identifier decorators
      || some_such expr_captures_identifier superclass || existsb member_captures body
  | EArray items _ => existsb expr_captures_identifier items
  | EObject props _ => existsb prop_captures props
  | EBinary _ lhs rhs => expr_captures_identifier lhs || expr_captures_identifier rhs
  | EUnary _ operand _ | ESpread operand | EAwait operand => expr_captures_identifier operand
  | ECall callee args | ENew callee args =>
      expr_captures_identifier callee || existsb expr_captures_identifier args
  | EMember object property _ | EOptionalChain object property _ =>
      expr_captures_identifier object || expr_captures_identifier property
  | ETaggedTemplate _ tag _ _ exprs =>
      expr_captures_identifier tag || existsb expr_captures_identifier exprs
  | EAssignment target _ value | ELogicalAssignment target _ value =>
      expr_captures_identifier target || expr_captures_identifier value
  | EConditional test consequent alternate =>
      expr_captures_identifier test || expr_captures_identifier consequent
      || expr_captures_identifier alternate
  | EDynamicImport specifier options _ =>
      expr_captures_identifier specifier || some_such expr_captures_identifier options
  | EYieldFrom specifier => expr_captures_identifier specifier
  | ETemplate _ exprs => existsb expr_captures_identifier exprs
  | EYield e => some_such expr_captures_identifier e
  | ENumber _ | EBigIntLiteral _ | EString _ | EEscapedString _ | ERegex _ _ | EBool _ | ENull
  | EUndefined | EElision | EIdentifier _ | EThis | ESuper | EImportMeta | ENewTarget => false
  end
with prop_captures (p : ObjectProp) : bool :=
  match p with
  | OShorthand _ => false
  | OCoverInitializedName _ value | OKeyValue _ value | OSpread value =>
      expr_captures_identifier value
  | OComputed key value => expr_captures_identifier key || expr_captures_identifier value
  | OComputedMethod _ key _ body _ _ _ _ => expr_captures_identifier key || stmts_reference body
  | OMethod _ _ _ body _ _ | OGetter _ _ body | OSetter _ _ _ body => stmts_reference body
  end
with member_captures (m : ClassMember) : bool :=
  match m with
  | CMethod decorators _ key _ _ body _ _ | CGetter decorators _ key _ body
  | CSetter decorators _ key _ _ body =>
      existsb expr_captures_identifier decorators
      || (match key with MComputed e => expr_captures_identifier e | _ => false end
          || stmts_reference body)
  | CField decorators key _ _ init =>
      existsb expr_captures_identifier decorators
      || (match key with MComputed e => expr_captures_identifier e | _ => false end
          || some_such expr_references init)
  | CStaticBlock body => stmts_reference body
  end.

Definition class_members_capture_identifier (members : list ClassMember) : bool :=
  existsb member_captures members.

Fixpoint pattern_captures_identifier (p : Pattern) : bool :=
  match p with
  | PElision | PIdent _ => false
  | PArray items => existsb pattern_captures_identifier items
  | PObject items =>
      existsb (fun '(key, value) =>
        match key with KComputed e => expr_captures_identifier e | KName _ => false end
        || some_such pattern_captures_identifier value) items
  | PRest inner => pattern_captures_identifier inner
  | PDefault inner default =>
      pattern_captures_identifier inner || expr_captures_identifier default
  | PMember object property _ =>
      expr_captures_identifier object || expr_captures_identifier property
  end.

Definition for_binding_captures (b : ForBinding) : bool :=
  match b with
  | FAssignment target => expr_captures_identifier target
  | FDeclaration _ pattern initializer =>
      pattern_captures_identifier pattern || some_such expr_captures_identifier initializer
  end.

Definition for_init_captures (i : ForInit) : bool :=
  match i with
  | IVar _ decls => existsb (fun '(_, e) => some_such expr_captures_identifier e) decls
  | IPattern _ pattern init trailing =>
      pattern_captures_identifier pattern || expr_captures_identifier init
      || existsb (fun '(_, e) => some_such expr_captures_identifier e) trailing
  | IExpr e => expr_captures_identifier e
  end.

Fixpoint statement_captures (s : Statement) : bool :=
  let statements_capture := existsb statement_captures in
  match s with
  | SExpr e => expr_captures_identifier e
  | SVarDecl _ _ init destructuring =>
      some_such expr_captures_identifier init
      || some_such pattern_captures_identifier destructuring
  | SFnDecl _ _ _ _ body _ _ _ => stmts_reference body
  | SClassDecl decorators _ _ superclass body =>
      existsb expr_captures_identifier decorators
      || some_such expr_captures_identifier superclass || class_members_capture_identifier body
  | SReturn e => some_such expr_captures_identifier e
  | SIf test then_ else_ =>
      expr_captures_identifier test || statements_capture then_
      || some_such statements_capture else_
  | SWith test body | SWhile test body | SDoWhile test body =>
      expr_captures_identifier test || statements_capture body
  | SFor init test update body =>
      some_such for_init_captures init || some_such expr_captures_identifier test
      || some_such expr_captures_identifier update || statements_capture body
  | SForIn binding obj body =>
      for_binding_captures binding || expr_captures_identifier obj || statements_capture body
  | SForOf binding iter body _ =>
      for_binding_captures binding || expr_captures_identifier iter || statements_capture body
  | SResourceForOf _ iter body _ _ => expr_captures_identifier iter || statements_capture body
  | SClassInitialization _ _ fields => statements_capture fields
  | SParameterInitialization _ initializers fields =>
      statements_capture initializers || statements_capture fields
  | SBlock stmts | SDeclarations stmts | SResourceDeclaration stmts _ => statements_capture stmts
  | SLabeled _ body => statement_captures body
  | SThrow e | SExportDefault e => expr_captures_identifier e
  | STry body catch finally =>
      statements_capture body
      || some_such (fun '(pattern, stmts) =>
           some_such pattern_captures_identifier pattern || statements_capture stmts) catch
      || some_such statements_capture finally
  | SSwitch disc cases =>
      expr_captures_identifier disc
      || existsb (fun '(Case test body) =>
           some_such expr_captures_identifier test || statements_capture body) cases
  | SBreak | SContinue | SLabeledBreak _ | SLabeledContinue _ | SExportNamed _ _ _
  | SExportAll _ _ _ | SImport _ _ _ _ _ _ | SEmpty => false
  end.

Definition statements_capture_identifier (stmts : list Statement) : bool :=
  existsb statement_captures stmts.

End References.

(** Direct eval may ask for [arguments] without mentioning it. *)
Definition stmts_need_arguments (stmts : list Statement) : bool :=
  stmts_reference (chars "arguments") stmts || stmts_reference (chars "eval") stmts.

(** [formal_parameter_length]: the parameters before the first default or rest. *)
Definition initializes (name : Text) (initializer : Statement) : bool :=
  match initializer with
  | SIf _ (SExpr (EAssignment (EIdentifier target) _ _) :: _) _ => text_eq target name
  | _ => false
  end.
Fixpoint body_initializers (body : list Statement) : list Statement :=
  match body with
  | SClassInitialization _ _ _ :: body => body_initializers body
  | SParameterInitialization _ initializers _ :: _ => initializers
  | _ => []
  end.
Fixpoint plain_parameters (initializers : list Statement) (params : list Text) : nat :=
  match params with
  | [] => 0
  | name :: params =>
      if negb (starts_with (chars "...") name) && negb (existsb (initializes name) initializers)
      then S (plain_parameters initializers params) else 0%nat
  end.
Definition formal_parameter_length (params : list Text) (body : list Statement) : nat :=
  plain_parameters (body_initializers body) params.

(** ** Annex B functions ([interpreter/annex.rs]) *)

Definition annex_functions (body : list Statement) : list Text :=
  flat_map (fun s => match labeled_function s with
                     | Some (SFnDecl _ _ name _ _ _ _ _) => [name]
                     | _ => []
                     end) body.

Definition not_var (kind : VarKind) : bool := negb (is_var kind).

(** One statement of [collect]; [blocked] and [nested] are what the loop over
    the list computed.  A result is the declaration's node and its name. *)
Fixpoint collect_statement (blocked nested : gset Text) (block : bool) (s : Statement)
  : list (nat * Text) :=
  let collect (body : list Statement) (outer : gset Text) (block : bool) :=
    let blocked := outer ∪ list_to_set (top_lexical_names body) in
    let nested := if block then blocked ∪ list_to_set (annex_functions body) else blocked in
    flat_map (collect_statement blocked nested block) body in
  match s with
  | SFnDecl address _ name _ _ false false annex_b_statement =>
      if (block || annex_b_statement) && negb (bool_decide (name ∈ blocked))
      then [(address, name)] else []
  | SBlock b | SWith _ b | SWhile _ b | SDoWhile _ b | SResourceForOf _ _ b _ _ =>
      collect b nested true
  | SDeclarations b | SResourceDeclaration b _ => collect b blocked block
  | SIf _ then_ else_ =>
      collect then_ nested true ++
      match else_ with Some b => collect b nested true | None => [] end
  | SFor init _ _ body =>
      let names := nested ∪
        match init with Some init => list_to_set (for_init_names not_var init) | None => ∅ end in
      collect body names true
  | SForIn binding _ body | SForOf binding _ body _ =>
      let names := nested ∪
        match binding with
        | FDeclaration kind pattern _ =>
            if not_var kind then list_to_set (pattern_names pattern) else ∅
        | FAssignment _ => ∅
        end in
      collect body names true
  | STry body catch finally =>
      collect body nested true ++
      match catch with
      | Some (parameter, b) =>
          let names := nested ∪
            match parameter with
            | None | Some (PIdent _) => ∅
            | Some p => list_to_set (pattern_names p)
            end in
          collect b names true
      | None => []
      end ++
      match finally with Some b => collect b nested true | None => [] end
  | SSwitch _ cases =>
      let names := nested ∪
        list_to_set (flat_map (fun '(Case _ body) => top_lexical_names body) cases) in
      flat_map (fun '(Case _ body) => collect body names true) cases
  | SLabeled _ body =>
      let names := match labeled_function s with Some _ => blocked | None => nested end in
      (* [collect] of the one-statement list. *)
      let inner := names ∪ list_to_set (top_lexical_names [body]) in
      collect_statement inner
        (if block then inner ∪ list_to_set (annex_functions [body]) else inner) block body
  | _ => []
  end.

Definition annex_collect (body : list Statement) (outer : gset Text) (block : bool)
  : list (nat * Text) :=
  let blocked := outer ∪ list_to_set (top_lexical_names body) in
  let nested := if block then blocked ∪ list_to_set (annex_functions body) else blocked in
  flat_map (collect_statement blocked nested block) body.

(** [name.trim_start_matches("...")] *)
Fixpoint trim_dots (fuel : nat) (name : Text) : Text :=
  match fuel with
  | O => name
  | S fuel => if starts_with (chars "...") name then trim_dots fuel (drop 3 name) else name
  end.

Definition eligible (body : list Statement) (parameters : list Text) : list (nat * Text) :=
  annex_collect body (list_to_set (map (fun p => trim_dots (length p) p) parameters)) false.

(** ** Sizes

    A bound on the recursion of the compiler.  A constructor entry is declined
    as a whole, so its fields do not count. *)

Definition opt_size {A} (f : A -> nat) (o : option A) : nat :=
  match o with Some x => f x | None => 0%nat end.

(** What a class adds to its parts: its accessors and its constructor. *)
Definition class_size (decorators superclass members : nat) : nat :=
  (20 + decorators + superclass + members)%nat.

Fixpoint expr_size (e : Expr) : nat :=
  S match e with
    | ELegacyLiteral e | EParenthesized e | EUnary _ e _ | ESpread e | EAwait e | EYieldFrom e =>
        expr_size e
    | EArray items _ => sum_list_with expr_size items
    | EObject props _ => sum_list_with prop_size props
    | EBinary _ a b | EMember a b _ | EOptionalChain a b _ | EAssignment a _ b
    | ELogicalAssignment a _ b => expr_size a + expr_size b
    | ECall callee args | ENew callee args => expr_size callee + sum_list_with expr_size args
    | ETaggedTemplate _ tag _ _ exprs => expr_size tag + sum_list_with expr_size exprs
    | EConditional a b c => expr_size a + expr_size b + expr_size c
    | EArrowFn _ _ body _ => body_size body
    | EClassExpr decorators _ _ superclass body =>
        class_size (sum_list_with expr_size decorators) (opt_size expr_size superclass)
          (sum_list_with member_size body)
    | EFnExpr _ _ _ body _ _ => S (sum_list_with stmt_size body)
    | EDynamicImport specifier options _ => expr_size specifier + opt_size expr_size options
    | ETemplate _ exprs => sum_list_with expr_size exprs
    | EYield e => opt_size expr_size e
    | _ => 0
    end%nat
with prop_size (p : ObjectProp) : nat :=
  S match p with
    | OCoverInitializedName _ e | OKeyValue _ e | OSpread e => expr_size e
    | OShorthand _ => 0
    | OComputed k v => expr_size k + expr_size v
    | OComputedMethod _ k _ body _ _ _ _ => expr_size k + sum_list_with stmt_size body
    | OMethod _ _ _ body _ _ | OGetter _ _ body | OSetter _ _ _ body =>
        S (sum_list_with stmt_size body)
    end%nat
with body_size (b : ExprOrBlock) : nat :=
  S match b with
    | BExpr e => expr_size e
    | BBlock stmts => sum_list_with stmt_size stmts
    end
with name_size (n : MemberName) : nat := match n with MComputed e => expr_size e | _ => 0%nat end
with member_size (m : ClassMember) : nat :=
  S match m with
    | CMethod decorators _ name _ _ body _ _ =>
        sum_list_with expr_size decorators + name_size name + sum_list_with stmt_size body
    | CField decorators name _ _ init =>
        sum_list_with expr_size decorators + name_size name + opt_size expr_size init
    | CStaticBlock body => sum_list_with stmt_size body
    | CGetter decorators _ name _ body | CSetter decorators _ name _ _ body =>
        sum_list_with expr_size decorators + name_size name + sum_list_with stmt_size body
    end%nat
with pattern_size (p : Pattern) : nat :=
  S match p with
    | PElision | PIdent _ => 0
    | PArray items => sum_list_with pattern_size items
    | PObject props =>
        sum_list_with (fun '(key, sub) =>
          match key with KComputed e => expr_size e | KName _ => 0 end
          + opt_size pattern_size sub) props
    | PRest inner => pattern_size inner
    | PDefault inner default => pattern_size inner + expr_size default
    | PMember object property _ => expr_size object + expr_size property
    end%nat
with stmt_size (s : Statement) : nat :=
  S match s with
    | SExpr e | SThrow e | SExportDefault e => expr_size e
    | SVarDecl _ _ init destructuring =>
        opt_size expr_size init + opt_size pattern_size destructuring
    | SFnDecl _ _ _ _ body _ _ _ => S (sum_list_with stmt_size body)
    | SClassDecl decorators _ _ superclass body =>
        class_size (sum_list_with expr_size decorators) (opt_size expr_size superclass)
          (sum_list_with member_size body)
    | SReturn e => opt_size expr_size e
    | SIf test then_ else_ =>
        expr_size test + sum_list_with stmt_size then_
        + opt_size (sum_list_with stmt_size) else_
    | SWith e body | SWhile e body | SDoWhile e body =>
        expr_size e + sum_list_with stmt_size body
    | SFor init test update body =>
        opt_size for_init_size init + opt_size expr_size test + opt_size expr_size update
        + sum_list_with stmt_size body
    | SForIn binding e body | SForOf binding e body _ =>
        match binding with
        | FDeclaration _ pattern _ => pattern_size pattern
        | FAssignment _ => 0
        end + expr_size e + sum_list_with stmt_size body
    | SResourceForOf _ e body _ _ => expr_size e + sum_list_with stmt_size body
    | SBlock stmts | SDeclarations stmts | SResourceDeclaration stmts _ =>
        sum_list_with stmt_size stmts
    | SLabeled _ body => stmt_size body
    | STry body catch finally =>
        sum_list_with stmt_size body
        + opt_size (fun '(_, catch_body) => S (sum_list_with stmt_size catch_body)) catch
        + opt_size (sum_list_with stmt_size) finally
    | SSwitch disc cases => expr_size disc + sum_list_with case_size cases
    | _ => 0
    end%nat
with for_init_size (i : ForInit) : nat :=
  S match i with
    | IVar _ decls => sum_list_with (fun '(_, e) => opt_size expr_size e) decls
    | IPattern _ pattern e trailing =>
        pattern_size pattern + expr_size e
        + sum_list_with (fun '(_, e) => opt_size expr_size e) trailing
    | IExpr e => expr_size e
    end%nat
with case_size (c : SwitchCase) : nat :=
  match c with
  | Case test body => S (opt_size expr_size test + sum_list_with stmt_size body)
  end.
Definition stmts_size : list Statement -> nat := sum_list_with stmt_size.

End Ast.
