(* ===== verification/Opcode.v ===== *)
(** The instruction set, constant pools and compiled functions: the data of
    [bytecode/opcode.rs], [bytecode/constants.rs], [bytecode/function.rs] and
    [bytecode/module.rs].

    The enumeration [Instr] is one type of the source; here each of its sections
    (data movement, operators, control flow, ...) is a type of its own and
    [Instr] is their sum, with coercions so that an instruction reads as in the
    source.  Register, slot, constant and target operands are natural numbers.
    A compiled pattern is the identity of its shared cell. *)
From stdpp Require Import prelude list strings.
From Stdlib Require Import ZArith Lia SpecFloat.
From S2P Require Import Prelude JsString BigInt Ast.
Local Open Scope Z_scope.

Module Opcode.

Export Ast.

(** ** Operands *)

Abbreviation Reg := nat (only parsing).
Abbreviation Slot := nat (only parsing).
Abbreviation Target := nat (only parsing).

Inductive SlotKind := Var | Catch | Let | Const.

Inductive KeySrc := KConst (index : nat) | KReg (reg : Reg).

(** ** Instructions *)

Inductive DataInstr :=
| LoadConst (dst : Reg) (cst : nat)
| Mov (dst src : Reg)
| LoadLocal (dst : Reg) (slot : Slot)
| StoreLocal (slot : Slot) (src : Reg)
| DeclareLocal (slot : Slot) (kind : SlotKind) (initialized : bool)
| InitLocal (slot : Slot) (src : Reg)
| InitGlobal (name : nat) (src : Reg) (function : bool)
| HoistVarGlobal (name : nat)
| AnnexBInit (name : nat)
| AnnexBUpdate (name : nat) (src : Reg) (slot : option Slot)
| BareVarLocal (slot : Slot)
| BareVarGlobal (name : nat)
| LoadGlobal (dst : Reg) (name : nat)
| CheckClassStaticKey (key : Reg)
| LoadCallBinding (dst receiver : Reg) (name : nat)
| ResolveAssignmentBinding (base property : Reg) (name : nat)
| ReadAssignmentBinding (dst base property : Reg) (name : nat)
| WriteAssignmentBinding (base property : Reg) (name : nat) (src : Reg)
| WriteAssignmentProperty (obj key src : Reg) (private : bool)
| StoreGlobal (name : nat) (src : Reg)
| DefineGlobal (name : nat) (src : Reg) (kind : SlotKind) (initialized : bool)
| LoadThis (dst : Reg)
| LoadGlobalThis (dst : Reg)
| TypeofGlobal (dst : Reg) (name : nat)
| TypeofLocal (dst : Reg) (slot : Slot).

Inductive OperatorInstr :=
| Binary (dst : Reg) (op : BinOp) (lhs rhs : Reg)
| Unary (dst : Reg) (op : UnOp) (src : Reg)
| CompoundLocal (dst : Reg) (slot : Slot) (op : AssignOp) (rhs : Reg)
| CompoundGlobal (dst : Reg) (name : nat) (op : AssignOp) (rhs : Reg)
| CompoundProp (dst obj key : Reg) (op : AssignOp) (rhs : Reg)
| IncLocal (dst : Reg) (slot : Slot) (delta : Z) (prefix : bool)
| IncGlobal (dst : Reg) (name : nat) (delta : Z) (prefix : bool)
| IncProp (dst obj key : Reg) (delta : Z) (prefix : bool)
| DelProp (dst obj key : Reg)
| DelGlobal (dst : Reg) (name : nat).

Inductive ControlInstr :=
| Jump (target : Target)
| JumpIfTrue (src : Reg) (target : Target)
| JumpIfFalse (src : Reg) (target : Target)
| JumpIfNullish (src : Reg) (target : Target)
| JumpIfNotNullish (src : Reg) (target : Target)
| LoopHead
| Return (src : Reg)
| ReturnUndefined
| Throw (src : Reg).

Inductive PropertyInstr :=
| GetProp (private : bool) (cache : nat) (dst obj key : Reg)
| LoadTemplate (dst : Reg) (site : Z)
| FreezeTemplate (site : Z) (cooked raw : Reg)
| SetProp (cache : nat) (obj key val : Reg)
| DirectEval (dst callee : Reg) (this : option Reg) (args : Reg) (argc : nat)
| DirectEvalSpread (dst callee : Reg) (this : option Reg) (tmpl : nat)
| Call (dst callee args : Reg) (argc : nat)
| CallMethod (dst callee this args : Reg) (argc : nat)
| Template (dst : Reg) (quasis : nat) (args : Reg) (argc : nat)
| Construct (dst callee args : Reg) (argc : nat)
| ConstructSpread (dst callee : Reg) (tmpl : nat)
| ExpandSpread (dst src : Reg)
| NewObject (dst : Reg)
| SetOwnProp (obj : Reg) (key : KeySrc) (val : Reg)
| NewArray (dst args : Reg) (argc : nat)
| MakeFunction (dst : Reg) (func : nat)
| MakeAstFunction (dst : Reg) (ast : nat)
| NormalKey (dst src : Reg)
| BuildObject (dst : Reg) (tmpl : nat)
| LoadGlobalSoft (dst : Reg) (name : nat)
| LoadLocalSoft (dst : Reg) (slot : Slot)
| CallSpread (dst callee : Reg) (tmpl : nat)
| MethodSpread (dst callee this : Reg) (tmpl : nat)
| BuildArray (dst : Reg) (tmpl : nat).

Inductive UnwindInstr :=
| ToDestructArray (dst src : Reg)
| RestArray (dst src : Reg) (from : nat)
| CheckDestructObject (dst src : Reg)
| RestObject (dst src taken : Reg)
| EnumKeys (dst src : Reg)
| EnumNext (state dst done : Reg)
| EnumEnd (state : Reg)
| ForOfInit (iter next src : Reg)
| IterNext (done value iter next : Reg)
| CloseIterator (src : Reg) (unwind : bool)
| PushCatch (target : Target) (dst : Reg)
| PushFinally (target : Target) (dst : Reg)
| PopHandler
| PopPending
| Rethrow.

Inductive ClassInstr :=
| SuperMember (dst key : Reg)
| SuperReference (base receiver key src : Reg)
| GetPropertyWithReceiver (dst base receiver key : Reg)
| SetPropertyWithReceiver (base receiver key value : Reg)
| NumericUpdate (previous updated src : Reg) (increment : bool)
| SuperConstructor (dst : Reg)
| SuperCall (dst callee args : Reg) (argc : nat)
| SuperCallSpread (dst callee : Reg) (tmpl : nat)
| Raise (msg : nat)
| BuildClass (dst : Reg) (tmpl : nat)
| PropertyKey (dst src : Reg)
| InferName (dst key : Reg)
| ClassScope (name : option nat)
| ClassPrivateEnvironment (names : nat)
| ClassHeritage (dst superclass : Reg)
| PrivateIn (dst obj : Reg) (name : nat)
| Import (tmpl : nat)
| ExportDefault (src : Reg)
| ExportNamed (tmpl : nat)
| ExportAll (tmpl : nat)
| DynamicImport (dst src : Reg)
| Await (dst src : Reg)
| NewTarget (dst : Reg)
| ImportMeta (dst : Reg)
| PushScope
| PopScope.

Inductive Instr :=
| Data (i : DataInstr)
| Operator (i : OperatorInstr)
| Control (i : ControlInstr)
| Property (i : PropertyInstr)
| Unwind (i : UnwindInstr)
| Class (i : ClassInstr).
Coercion Data : DataInstr >-> Instr.
Coercion Operator : OperatorInstr >-> Instr.
Coercion Control : ControlInstr >-> Instr.
Coercion Property : PropertyInstr >-> Instr.
Coercion Unwind : UnwindInstr >-> Instr.
Coercion Class : ClassInstr >-> Instr.

(** [Instr::cost]: the fuel one execution takes. *)
Definition cost (i : Instr) : Z :=
  match i with
  | Property (DirectEval _ _ _ _ _ | DirectEvalSpread _ _ _ _ | Call _ _ _ _
             | CallMethod _ _ _ _ _ | CallSpread _ _ _ | MethodSpread _ _ _ _) => 5
  | Property (Construct _ _ _ _ | ConstructSpread _ _ _) => 8
  | Property (NewObject _ | NewArray _ _ _ | BuildObject _ _ | BuildArray _ _) => 10
  | Property (GetProp _ _ _ _ _ | SetProp _ _ _ _ | SetOwnProp _ _ _) => 2
  | Data (Mov _ _)
  | Control (Jump _ | JumpIfTrue _ _ | JumpIfFalse _ _ | JumpIfNullish _ _
            | JumpIfNotNullish _ _ | LoopHead) => 0
  | _ => 1
  end.

(** ** Templates *)

Inductive ClassNameTemplate :=
| NStatic (name : Text)
| NPrivate (name : Text)
| NComputed (reg : Reg).

Inductive ClassMemberKind := MMethod | MGetter | MSetter.

Record ClassMemberTemplate := {
  auto_decorator_field : option nat;
  member_decorators : list (Reg * option Reg);
  auto_accessor_storage : option Text;
  member_kind : ClassMemberKind;
  member_is_static : bool;
  member_name : ClassNameTemplate;
  member_func : option nat;
}.

Inductive ClassStaticTemplate :=
| SField (name : ClassNameTemplate) (init : Expr)
| SBlock (index : nat).

Record ClassFieldDecoratorTemplate := {
  field_name : ClassNameTemplate;
  field_is_static : bool;
  field_index : nat;
  field_decorators_list : list (Reg * option Reg);
}.

Record ClassTemplate := {
  field_decorators : list ClassFieldDecoratorTemplate;
  has_method_decorators : bool;
  class_decorators : list (Reg * option Reg);
  class_source_text : option nat;
  private_fields : list Text;
  private_declarations : list Text;
  class_name : Text;
  expr_name : option Text;
  superclass : option Reg;
  super_proto : option Reg;
  ctor_func : nat;
  ctor_length : nat;
  ctor_computed_keys : list Reg;
  members : list ClassMemberTemplate;
  blocks : list ClassStaticTemplate;
}.

Record ImportTemplate := {
  import_module : JsString.JsString;
  import_phase : ImportPhase;
  import_default : option Text;
  import_named : list (Text * Text);
  import_namespace : option Text;
}.

Record ExportNamedTemplate := {
  export_specifiers : list (Text * Text);
  export_source : option JsString.JsString;
}.

Record ExportAllTemplate := {
  all_source : JsString.JsString;
  all_alias : option Text;
}.

Record SpreadEntry := { elision : bool; spread : bool; prepared : bool; spread_reg : Reg }.

Inductive PropKind := PData | PPrototype | PMethod | PGetter | PSetter | PSpread.

Record PropEntry := { prop_key : option KeySrc; prop_val : Reg; prop_kind : PropKind }.

Record AstFunction := {
  ast_source_text : option nat;
  ast_named_expression : bool;
  ast_name : option Text;
  ast_params : list Text;
  ast_body : list Statement;
  ast_is_arrow : bool;
  ast_is_constructor : bool;
  ast_is_async : bool;
  ast_is_generator : bool;
  ast_uses_arguments : bool;
}.

(** ** Functions and constants *)

Record SlotInfo := { slot_name : Text; slot_kind : SlotKind; captured : bool }.

(** A compiled function over a type of constants.  The inline caches and global
    slot hints are cells of the interpreter; the function holds their number. *)
Record FunctionOf (C : Type) := {
  source_text : option nat;
  named_expression : bool;
  strict : bool;
  fn_name : option Text;
  code : list Instr;
  constants : list C;
  register_count : nat;
  local_count : nat;
  parameter_count : nat;
  upvalue_count : nat;
  slots : list SlotInfo;
  is_arrow : bool;
  is_constructor : bool;
  captures_arguments : bool;
  needs_frame_environment : bool;
  caches : nat;
  global_read_slots : nat;
}.
Arguments source_text {C}.
Arguments named_expression {C}.
Arguments strict {C}.
Arguments fn_name {C}.
Arguments code {C}.
Arguments constants {C}.
Arguments register_count {C}.
Arguments local_count {C}.
Arguments parameter_count {C}.
Arguments upvalue_count {C}.
Arguments slots {C}.
Arguments is_arrow {C}.
Arguments is_constructor {C}.
Arguments captures_arguments {C}.
Arguments needs_frame_environment {C}.
Arguments caches {C}.
Arguments global_read_slots {C}.

(** A number is an IEEE 754 double. *)
Inductive Constant :=
| CNumber (n : spec_float)
| CString (s : JsString.JsString)
| CName (name : Text)
| CBool (b : bool)
| CNull
| CUndefined
| CStringList (l : list JsString.JsString)
| CBigInt (v : BigInt.BigInt)
| CRegex (pattern : JsString.JsString) (flags : Text) (compiled : nat)
| CFunction (f : FunctionOf Constant)
| CAstFunction (a : AstFunction)
| CObjectTemplate (entries : list PropEntry)
| CSpreadTemplate (entries : list SpreadEntry)
| CClassTemplate (t : ClassTemplate)
| CImportTemplate (t : ImportTemplate)
| CExportNamedTemplate (t : ExportNamedTemplate)
| CExportAllTemplate (t : ExportAllTemplate).

Definition BytecodeFunction := FunctionOf Constant.

Record BytecodeModule := { main : BytecodeFunction }.

(** [class_key_name]: the scope binding of a computed instance-field key. *)
Definition class_key_name (index : nat) : Text :=
  chars "__class key " ++ show_uint (Z.of_nat index) ++ chars "__".

#[export] Instance SlotKind_eq_dec : EqDecision SlotKind.
Proof. solve_decision. Defined.
#[export] Instance ClassMemberKind_eq_dec : EqDecision ClassMemberKind.
Proof. solve_decision. Defined.

End Opcode.
