(* ===== verification/Verify.v ===== *)
(** The bytecode verifier: the model of [bytecode/verify.rs].

    [check_instr] is one [match] of the source; here each section of the
    instruction set has its own function.  The recursion into nested functions
    goes through the constants that hold them. *)
From stdpp Require Import prelude list strings.
From Stdlib Require Import ZArith Lia.
From S2P Require Import Prelude JsString BigInt Opcode.
Import Opcode.
Local Open Scope Z_scope.
Local Open Scope rust_scope.

Module Verify.

Inductive VerifyError :=
| BadCache (address index : nat)
| CacheTableMismatch
| SlotTableMismatch (slots local_count : nat)
| ParametersExceedLocals (parameters locals : nat)
| UpvaluesUnsupported (count : nat)
| BadRegister (address register : nat)
| BadSlot (address slot : nat)
| BadConstant (address index : nat)
| ConstantTypeMismatch (address : nat) (expected : string)
| BadJumpTarget (address target : nat)
| BadOperandRange (address start count : nat)
| ShortCircuitInBinary (address : nat) (op : BinOp)
| TargetedUnary (address : nat) (op : UnOp)
| PlainAssignInCompound (address : nat)
| BadIncDelta (address : nat) (delta : Z)
| TemplateArityMismatch (address quasis argc : nat)
| NestedFunction (index : Z) (error : VerifyError).

Abbreviation Check := (outcome VerifyError unit).

(** [Iterator::try_for_each]: a [for] loop whose body may leave with [?]. *)
Fixpoint for_each {E A} (l : list A) (body : A -> outcome E unit) : outcome E unit :=
  match l with
  | [] => Ok tt
  | x :: l => body x ;* for_each l body
  end.
Fixpoint for_enumerate {E A} (i : nat) (l : list A) (body : nat -> A -> outcome E unit)
  : outcome E unit :=
  match l with
  | [] => Ok tt
  | x :: l => body i x ;* for_enumerate (S i) l body
  end.

(** ** Operand checks *)

Section Checker.
Context (function : BytecodeFunction) (address : nat).

Definition check_reg (reg : nat) : Check :=
  if (reg <? register_count function)%nat then Ok tt else Err (BadRegister address reg).

Definition check_slot (slot : nat) : Check :=
  if (slot <? local_count function)%nat then Ok tt else Err (BadSlot address slot).

Definition check_const (index : nat) : Check :=
  if (index <? length (constants function))%nat then Ok tt else Err (BadConstant address index).

(** The kinds a constant may be asked for as. *)
Definition const_accepts (c : Constant) (expected : string) : bool :=
  match c with
  | CNumber _ | CBool _ | CNull | CUndefined | CBigInt _ | CRegex _ _ _ =>
      String.eqb expected "scalar"
  | CString _ | CName _ => String.eqb expected "string" || String.eqb expected "scalar"
  | CStringList _ => String.eqb expected "string-list"
  | CFunction _ => String.eqb expected "function"
  | CAstFunction _ => String.eqb expected "ast-function"
  | CObjectTemplate _ => String.eqb expected "object-template"
  | CSpreadTemplate _ => String.eqb expected "spread-template"
  | CClassTemplate _ => String.eqb expected "class-template"
  | CImportTemplate _ => String.eqb expected "import-template"
  | CExportNamedTemplate _ => String.eqb expected "export-named-template"
  | CExportAllTemplate _ => String.eqb expected "export-all-template"
  end.

Definition check_const_is (index : nat) (expected : string) : Check :=
  check_const index ;*
  let* c := index_or_panic (constants function) index in
  if const_accepts c expected then Ok tt else Err (ConstantTypeMismatch address expected).

Definition check_target (target : nat) : Check :=
  if (target <=? length (code function))%nat then Ok tt else Err (BadJumpTarget address target).

Definition check_range (start count : nat) : Check :=
  if (start + count <=? register_count function)%nat then Ok tt
  else Err (BadOperandRange address start count).

Definition check_key (key : KeySrc) : Check :=
  match key with
  | KConst index => check_const_is index "string"
  | KReg reg => check_reg reg
  end.

Definition check_compound_op (op : AssignOp) : Check :=
  match op with
  | ASet => Err (PlainAssignInCompound address)
  | _ => Ok tt
  end.

Definition check_delta (delta : Z) : Check :=
  if (delta =? 1) || (delta =? -1) then Ok tt else Err (BadIncDelta address delta).

Definition check_cache (cache : nat) : Check :=
  if (caches function <=? cache)%nat then Err (BadCache address cache) else Ok tt.

(** [if let Some(x) = o { check(x)?; }] *)
Definition if_some {A} (o : option A) (check : A -> Check) : Check :=
  match o with Some x => check x | None => Ok tt end.

Definition check_func_const (index : nat) : Check :=
  check_const index ;*
  let* c := index_or_panic (constants function) index in
  match c with
  | CFunction _ | CAstFunction _ => Ok tt
  | _ => Err (ConstantTypeMismatch address "function")
  end.

Definition check_spread_template (tmpl : nat) (allow_elision : bool) : Check :=
  check_const_is tmpl "spread-template" ;*
  let* c := index_or_panic (constants function) tmpl in
  match c with
  | CSpreadTemplate entries =>
      for_each entries (fun entry =>
        if elision entry && (negb allow_elision || spread entry || prepared entry)
        then Err (ConstantTypeMismatch address "array elision without spread flags")
        else check_reg (spread_reg entry))
  | _ => Ok tt
  end.

(** [for (value, receiver) in decorators] *)
Definition check_decorators (l : list (Reg * option Reg)) : Check :=
  for_each l (fun d => check_reg d.1 ;* if_some d.2 check_reg).

Definition check_name (n : ClassNameTemplate) : Check :=
  match n with NComputed reg => check_reg reg | _ => Ok tt end.

(** The pairing rule of an auto-accessor: a getter with its storage, followed by
    its setter, both agreeing with the decorated field. *)
Definition auto_accessor_ok (template : ClassTemplate) (index : nat)
    (member : ClassMemberTemplate) (field_index : nat) : bool :=
  let field := field_decorators template !! field_index in
  let setter := members template !! (index + 1)%nat in
  has_method_decorators template
  && bool_decide (member_kind member = MGetter)
  && match auto_accessor_storage member with Some _ => true | None => false end
  && match field with
     | Some field => Bool.eqb (field_is_static field) (member_is_static member)
     | None => false
     end
  && match setter with
     | Some setter =>
         bool_decide (member_kind setter = MSetter)
         && Bool.eqb (member_is_static setter) (member_is_static member)
         && match auto_decorator_field setter with None => true | Some _ => false end
     | None => false
     end.

Definition check_member (template : ClassTemplate) (index : nat)
    (member : ClassMemberTemplate) : Check :=
  if_some (auto_decorator_field member) (fun field_index =>
    if auto_accessor_ok template index member field_index then Ok tt
    else Err (ConstantTypeMismatch address "valid auto-accessor decorator pair")) ;*
  check_decorators (member_decorators member) ;*
  check_name (member_name member) ;*
  if_some (member_func member) check_func_const.

Definition check_block (block : ClassStaticTemplate) : Check :=
  match block with
  | SBlock index => check_const_is index "ast-function"
  | SField (NComputed reg) _ => check_reg reg
  | SField _ _ => Ok tt
  end.

Definition check_class_template (tmpl : nat) : Check :=
  check_const_is tmpl "class-template" ;*
  let* c := index_or_panic (constants function) tmpl in
  match c with
  | CClassTemplate template =>
      check_decorators (class_decorators template) ;*
      if_some (superclass template) check_reg ;*
      if_some (super_proto template) check_reg ;*
      for_each (ctor_computed_keys template) check_reg ;*
      check_func_const (ctor_func template) ;*
      for_each (field_decorators template) (fun field =>
        check_name (field_name field) ;* check_decorators (field_decorators_list field)) ;*
      for_enumerate 0 (members template) (check_member template) ;*
      for_each (blocks template) check_block
  | _ => Ok tt
  end.

(** ** Instructions *)

Definition check_data (i : DataInstr) : Check :=
  match i with
  | LoadConst dst cst => check_reg dst ;* check_const_is cst "scalar"
  | Mov dst src => check_reg dst ;* check_reg src
  | LoadLocal dst slot | TypeofLocal dst slot => check_reg dst ;* check_slot slot
  | StoreLocal slot src => check_slot slot ;* check_reg src
  | DeclareLocal slot _ _ | BareVarLocal slot => check_slot slot
  | InitLocal slot src => check_slot slot ;* check_reg src
  | AnnexBUpdate name src slot =>
      check_const_is name "string" ;* check_reg src ;* if_some slot check_slot
  | InitGlobal name src _ => check_const_is name "string" ;* check_reg src
  | AnnexBInit name | HoistVarGlobal name | BareVarGlobal name => check_const_is name "string"
  | LoadGlobal dst name | TypeofGlobal dst name =>
      check_reg dst ;* check_const_is name "string"
  | CheckClassStaticKey key => check_reg key
  | LoadCallBinding dst receiver name =>
      check_reg dst ;* check_reg receiver ;* check_const_is name "string"
  | ResolveAssignmentBinding base property name =>
      check_reg base ;* check_reg property ;* check_const_is name "string"
  | ReadAssignmentBinding dst base property name =>
      for_each [dst; base; property] check_reg ;* check_const_is name "string"
  | WriteAssignmentBinding base property name src =>
      for_each [base; property; src] check_reg ;* check_const_is name "string"
  | WriteAssignmentProperty obj key src _ => for_each [obj; key; src] check_reg
  | StoreGlobal name src => check_const_is name "string" ;* check_reg src
  | DefineGlobal name src _ _ => check_const_is name "string" ;* check_reg src
  | LoadThis dst | LoadGlobalThis dst => check_reg dst
  end.

Definition check_operator (i : OperatorInstr) : Check :=
  match i with
  | Binary dst op lhs rhs =>
      check_reg dst ;* check_reg lhs ;* check_reg rhs ;*
      match op with
      | And | Or | Nullish | Comma => Err (ShortCircuitInBinary address op)
      | _ => Ok tt
      end
  | Unary dst op src =>
      check_reg dst ;* check_reg src ;*
      match op with
      | Delete => Err (TargetedUnary address op)
      | _ => Ok tt
      end
  | CompoundLocal dst slot op rhs =>
      check_reg dst ;* check_slot slot ;* check_reg rhs ;* check_compound_op op
  | CompoundGlobal dst name op rhs =>
      check_reg dst ;* check_const_is name "string" ;* check_reg rhs ;* check_compound_op op
  | CompoundProp dst obj key op rhs =>
      check_reg dst ;* check_reg obj ;* check_reg key ;* check_reg rhs ;* check_compound_op op
  | IncLocal dst slot delta _ => check_reg dst ;* check_slot slot ;* check_delta delta
  | IncGlobal dst name delta _ =>
      check_reg dst ;* check_const_is name "string" ;* check_delta delta
  | IncProp dst obj key delta _ =>
      check_reg dst ;* check_reg obj ;* check_reg key ;* check_delta delta
  | DelProp dst obj key => check_reg dst ;* check_reg obj ;* check_reg key
  | DelGlobal dst name => check_reg dst ;* check_const_is name "string"
  end.

Definition check_control (i : ControlInstr) : Check :=
  match i with
  | Jump target => check_target target
  | JumpIfTrue src target | JumpIfFalse src target | JumpIfNullish src target
  | JumpIfNotNullish src target => check_reg src ;* check_target target
  | LoopHead | ReturnUndefined => Ok tt
  | Return src | Throw src => check_reg src
  end.

(** [Template]: one more quasi than there are holes. *)
Definition check_template_arity (quasis argc : nat) : Check :=
  let* c := index_or_panic (constants function) quasis in
  match c with
  | CStringList chunks =>
      if (length chunks =? argc + 1)%nat then Ok tt
      else Err (TemplateArityMismatch address (length chunks) argc)
  | _ => Ok tt
  end.

Definition check_object_template (tmpl : nat) : Check :=
  let* c := index_or_panic (constants function) tmpl in
  match c with
  | CObjectTemplate entries =>
      for_each entries (fun entry =>
        if_some (prop_key entry) check_key ;* check_reg (prop_val entry))
  | _ => Ok tt
  end.

Definition check_property (i : PropertyInstr) : Check :=
  match i with
  | GetProp _ cache dst obj key =>
      check_cache cache ;* check_reg dst ;* check_reg obj ;* check_reg key
  | LoadTemplate dst _ => check_reg dst
  | FreezeTemplate _ cooked raw => check_reg cooked ;* check_reg raw
  | SetProp cache obj key val =>
      check_cache cache ;* check_reg obj ;* check_reg key ;* check_reg val
  | DirectEval dst callee this args argc =>
      check_reg dst ;* check_reg callee ;* if_some this check_reg ;* check_range args argc
  | Call dst callee args argc | Construct dst callee args argc =>
      check_reg dst ;* check_reg callee ;* check_range args argc
  | CallMethod dst callee this args argc =>
      check_reg dst ;* check_reg callee ;* check_reg this ;* check_range args argc
  | Template dst quasis args argc =>
      check_reg dst ;* check_const_is quasis "string-list" ;* check_range args argc ;*
      check_template_arity quasis argc
  | NewObject dst => check_reg dst
  | SetOwnProp obj key val => check_reg obj ;* check_key key ;* check_reg val
  | NewArray dst args argc => check_reg dst ;* check_range args argc
  | MakeFunction dst func => check_reg dst ;* check_const_is func "function"
  | MakeAstFunction dst ast => check_reg dst ;* check_const_is ast "ast-function"
  | ExpandSpread dst src | NormalKey dst src => check_reg dst ;* check_reg src
  | BuildObject dst tmpl =>
      check_reg dst ;* check_const_is tmpl "object-template" ;* check_object_template tmpl
  | LoadGlobalSoft dst name => check_reg dst ;* check_const_is name "string"
  | LoadLocalSoft dst slot => check_reg dst ;* check_slot slot
  | DirectEvalSpread dst callee this tmpl =>
      check_reg dst ;* check_reg callee ;* if_some this check_reg ;*
      check_spread_template tmpl false
  | ConstructSpread dst callee tmpl | CallSpread dst callee tmpl =>
      check_reg dst ;* check_reg callee ;* check_spread_template tmpl false
  | MethodSpread dst callee this tmpl =>
      check_reg dst ;* check_reg callee ;* check_reg this ;* check_spread_template tmpl false
  | BuildArray dst tmpl => check_reg dst ;* check_spread_template tmpl true
  end.

Definition check_unwind (i : UnwindInstr) : Check :=
  match i with
  | ToDestructArray dst src | CheckDestructObject dst src => check_reg dst ;* check_reg src
  | RestArray dst src _ => check_reg dst ;* check_reg src
  | RestObject dst src taken => check_reg dst ;* check_reg src ;* check_reg taken
  | EnumKeys dst src => check_reg dst ;* check_reg src
  | EnumNext state dst done => check_reg state ;* check_reg dst ;* check_reg done
  | EnumEnd state => check_reg state
  | ForOfInit iter next src => check_reg iter ;* check_reg next ;* check_reg src
  | IterNext done value iter next =>
      check_reg done ;* check_reg value ;* check_reg iter ;* check_reg next
  | CloseIterator src _ => check_reg src
  | PushCatch target dst | PushFinally target dst => check_target target ;* check_reg dst
  | PopHandler | PopPending | Rethrow => Ok tt
  end.

Definition check_class (i : ClassInstr) : Check :=
  match i with
  | SuperMember dst key => check_reg dst ;* check_reg key
  | SuperReference base receiver key src => for_each [base; receiver; key; src] check_reg
  | GetPropertyWithReceiver dst base receiver key =>
      for_each [dst; base; receiver; key] check_reg
  | SetPropertyWithReceiver base receiver key value =>
      for_each [base; receiver; key; value] check_reg
  | NumericUpdate previous updated src _ => for_each [previous; updated; src] check_reg
  | SuperConstructor dst => check_reg dst
  | SuperCall dst callee args argc => check_reg callee ;* check_reg dst ;* check_range args argc
  | SuperCallSpread dst callee tmpl =>
      check_reg callee ;* check_reg dst ;* check_spread_template tmpl false
  | Raise msg => check_const_is msg "string"
  | BuildClass dst tmpl => check_reg dst ;* check_class_template tmpl
  | PropertyKey dst src => check_reg dst ;* check_reg src
  | InferName dst key => check_reg dst ;* check_reg key
  | ClassScope name => if_some name (fun name => check_const_is name "string")
  | ClassPrivateEnvironment names => check_const_is names "string-list"
  | ClassHeritage dst superclass => check_reg dst ;* check_reg superclass
  | PrivateIn dst obj name => check_reg dst ;* check_reg obj ;* check_const_is name "string"
  | Import tmpl => check_const_is tmpl "import-template"
  | ExportDefault src => check_reg src
  | ExportNamed tmpl => check_const_is tmpl "export-named-template"
  | ExportAll tmpl => check_const_is tmpl "export-all-template"
  | DynamicImport dst src | Await dst src => check_reg dst ;* check_reg src
  | NewTarget dst | ImportMeta dst => check_reg dst
  | PushScope | PopScope => Ok tt
  end.

Definition check_instr (i : Instr) : Check :=
  match i with
  | Data i => check_data i
  | Operator i => check_operator i
  | Control i => check_control i
  | Property i => check_property i
  | Unwind i => check_unwind i
  | Class i => check_class i
  end.

End Checker.

(** ** Functions *)

Definition is_site (i : Instr) : bool :=
  match i with
  | Property (GetProp _ _ _ _ _ | SetProp _ _ _ _) => true
  | _ => false
  end.

(** The checks of [verify_function] that do not recurse. *)
Definition verify_header (function : BytecodeFunction) : Check :=
  if negb (length (filter (fun i => is_site i = true) (code function)) =? caches function)%nat
  then Err CacheTableMismatch
  else if negb (length (slots function) =? local_count function)%nat
  then Err (SlotTableMismatch (length (slots function)) (local_count function))
  else if (local_count function <? parameter_count function)%nat
  then Err (ParametersExceedLocals (parameter_count function) (local_count function))
  else if negb (upvalue_count function =? 0)%nat
  then Err (UpvaluesUnsupported (upvalue_count function))
  else for_enumerate 0 (code function) (check_instr function).

Definition map_err {E F A} (f : E -> F) (m : outcome E A) : outcome F A :=
  match m with
  | Ok a => Ok a
  | Err e => Err (f e)
  | Panic => Panic
  end.

(** The loop over the constants; only a nested function is verified. *)
Fixpoint verify_constant (c : Constant) : Check :=
  match c with
  | CFunction nested =>
      verify_header nested ;*
      (fix go (index : nat) (l : list Constant) : Check :=
         match l with
         | [] => Ok tt
         | c :: l =>
             map_err (NestedFunction (u16 (Z.of_nat index))) (verify_constant c) ;* go (S index) l
         end) 0%nat (constants nested)
  | _ => Ok tt
  end.

Definition verify_function (function : BytecodeFunction) : Check :=
  verify_constant (CFunction function).

Definition verify_module (m : BytecodeModule) : Check := verify_function (main m).

End Verify.
