(* ===== verification/VerifySpec.v ===== *)
(** What a well-formed compiled function is, stated without the verifier: the
    operands of every instruction, the tables they index, and the bounds they
    must respect.  The lemmas relate each check of [Verify] to its bound. *)
From stdpp Require Import prelude list strings.
From Stdlib Require Import ZArith Lia.
From S2P Require Import Prelude JsString BigInt Opcode Verify.
Import Opcode Verify.
Local Open Scope Z_scope.
Local Open Scope rust_scope.

(** ** The operands of an instruction *)

Definition opt_list {A} (o : option A) : list A := match o with Some x => [x] | None => [] end.

Definition key_regs (k : KeySrc) : list nat := match k with KReg r => [r] | KConst _ => [] end.
Definition key_consts (k : KeySrc) : list nat := match k with KConst c => [c] | KReg _ => [] end.

(** Single registers, read or written. *)
Definition regs (i : Instr) : list nat :=
  match i with
  | Data i =>
      match i with
      | LoadConst d _ | LoadGlobal d _ | LoadThis d | LoadGlobalThis d | TypeofGlobal d _
      | LoadLocal d _ | TypeofLocal d _ | StoreLocal _ d | InitLocal _ d | InitGlobal _ d _
      | StoreGlobal _ d | DefineGlobal _ d _ _ | AnnexBUpdate _ d _ | CheckClassStaticKey d => [d]
      | Mov a b | LoadCallBinding a b _ | ResolveAssignmentBinding a b _ => [a; b]
      | ReadAssignmentBinding a b c _ | WriteAssignmentBinding a b _ c
      | WriteAssignmentProperty a b c _ => [a; b; c]
      | _ => []
      end
  | Operator i =>
      match i with
      | Binary a _ b c | DelProp a b c | IncProp a b c _ _ => [a; b; c]
      | Unary a _ b | CompoundLocal a _ _ b | CompoundGlobal a _ _ b => [a; b]
      | CompoundProp a b c _ d => [a; b; c; d]
      | IncLocal a _ _ _ | IncGlobal a _ _ _ | DelGlobal a _ => [a]
      end
  | Control i =>
      match i with
      | JumpIfTrue r _ | JumpIfFalse r _ | JumpIfNullish r _ | JumpIfNotNullish r _
      | Return r | Throw r => [r]
      | _ => []
      end
  | Property i =>
      match i with
      | GetProp _ _ a b c | SetProp _ a b c | MethodSpread a b c _ | CallMethod a b c _ _ =>
          [a; b; c]
      | LoadTemplate a _ | Template a _ _ _ | NewObject a | NewArray a _ _ | MakeFunction a _
      | MakeAstFunction a _ | BuildObject a _ | LoadGlobalSoft a _ | LoadLocalSoft a _
      | BuildArray a _ => [a]
      | FreezeTemplate _ a b | ExpandSpread a b | NormalKey a b | Call a b _ _
      | Construct a b _ _ | ConstructSpread a b _ | CallSpread a b _ => [a; b]
      | DirectEval a b t _ _ | DirectEvalSpread a b t _ => a :: b :: opt_list t
      | SetOwnProp a k b => a :: b :: key_regs k
      end
  | Unwind i =>
      match i with
      | ToDestructArray a b | RestArray a b _ | CheckDestructObject a b | EnumKeys a b => [a; b]
      | RestObject a b c | EnumNext a b c | ForOfInit a b c => [a; b; c]
      | IterNext a b c d => [a; b; c; d]
      | EnumEnd a | CloseIterator a _ | PushCatch _ a | PushFinally _ a => [a]
      | PopHandler | PopPending | Rethrow => []
      end
  | Class i =>
      match i with
      | SuperMember a b | SuperCall a b _ _ | SuperCallSpread a b _ | PropertyKey a b
      | InferName a b | ClassHeritage a b | PrivateIn a b _ | DynamicImport a b | Await a b =>
          [a; b]
      | SuperReference a b c d | GetPropertyWithReceiver a b c d
      | SetPropertyWithReceiver a b c d => [a; b; c; d]
      | NumericUpdate a b c _ => [a; b; c]
      | SuperConstructor a | BuildClass a _ | ExportDefault a | NewTarget a | ImportMeta a => [a]
      | _ => []
      end
  end.

(** Register windows, by start and length. *)
Definition windows (i : Instr) : list (nat * nat) :=
  match i with
  | Property (DirectEval _ _ _ s n | Call _ _ s n | CallMethod _ _ _ s n | Template _ _ s n
             | Construct _ _ s n | NewArray _ s n)
  | Class (SuperCall _ _ s n) => [(s, n)]
  | _ => []
  end.

Definition slot_operands (i : Instr) : list nat :=
  match i with
  | Data (LoadLocal _ s | StoreLocal s _ | DeclareLocal s _ _ | InitLocal s _ | BareVarLocal s
         | TypeofLocal _ s) => [s]
  | Data (AnnexBUpdate _ _ s) => opt_list s
  | Operator (CompoundLocal _ s _ _ | IncLocal _ s _ _) => [s]
  | Property (LoadLocalSoft _ s) => [s]
  | _ => []
  end.

Definition targets (i : Instr) : list nat :=
  match i with
  | Control (Jump t | JumpIfTrue _ t | JumpIfFalse _ t | JumpIfNullish _ t
            | JumpIfNotNullish _ t) => [t]
  | Unwind (PushCatch t _ | PushFinally t _) => [t]
  | _ => []
  end.

Definition cache_operands (i : Instr) : list nat :=
  match i with
  | Property (GetProp _ c _ _ _ | SetProp c _ _ _) => [c]
  | _ => []
  end.

(** The operator operand is one the instruction can execute. *)
Definition operator_ok (i : Instr) : Prop :=
  match i with
  | Operator (Binary _ op _ _) => op <> And /\ op <> Or /\ op <> Nullish /\ op <> Comma
  | Operator (Unary _ op _) => op <> Delete
  | Operator (CompoundLocal _ _ op _ | CompoundGlobal _ _ op _ | CompoundProp _ _ _ op _) =>
      op <> ASet
  | Operator (IncLocal _ _ d _ | IncGlobal _ _ d _ | IncProp _ _ _ d _) => d = 1 \/ d = -1
  | _ => True
  end.

(** ** Constants *)

Definition is_string (c : Constant) : Prop :=
  match c with CString _ | CName _ => True | _ => False end.
Definition is_scalar (c : Constant) : Prop :=
  match c with
  | CNumber _ | CString _ | CName _ | CBool _ | CNull | CUndefined | CBigInt _ | CRegex _ _ _ => True
  | _ => False
  end.
Definition is_func (c : Constant) : Prop :=
  match c with CFunction _ | CAstFunction _ => True | _ => False end.

Section WellFormed.
Context (f : BytecodeFunction).

Definition reg_ok (r : nat) : Prop := (r < register_count f)%nat.
Definition const_is (P : Constant -> Prop) (k : nat) : Prop :=
  exists c, constants f !! k = Some c /\ P c.

Definition decorators_ok (l : list (nat * option nat)) : Prop :=
  Forall (fun d => reg_ok d.1 /\ Forall reg_ok (opt_list d.2)) l.
Definition name_ok (n : ClassNameTemplate) : Prop :=
  match n with NComputed r => reg_ok r | _ => True end.

Definition spread_ok (allow_elision : bool) (e : SpreadEntry) : Prop :=
  reg_ok (spread_reg e) /\
  (elision e = true -> allow_elision = true /\ spread e = false /\ prepared e = false).

Definition entry_ok (e : PropEntry) : Prop :=
  reg_ok (prop_val e) /\
  match prop_key e with
  | Some (KReg r) => reg_ok r
  | Some (KConst k) => const_is is_string k
  | None => True
  end.

Definition member_ok (t : ClassTemplate) (index : nat) (m : ClassMemberTemplate) : Prop :=
  (forall field, auto_decorator_field m = Some field -> auto_accessor_ok t index m field = true) /\
  decorators_ok (member_decorators m) /\ name_ok (member_name m) /\
  Forall (const_is is_func) (opt_list (member_func m)).

Definition block_ok (b : ClassStaticTemplate) : Prop :=
  match b with
  | SBlock k => const_is (fun c => exists a, c = CAstFunction a) k
  | SField n _ => name_ok n
  end.

Definition class_ok (t : ClassTemplate) : Prop :=
  decorators_ok (class_decorators t) /\
  Forall reg_ok (opt_list (superclass t)) /\ Forall reg_ok (opt_list (super_proto t)) /\
  Forall reg_ok (ctor_computed_keys t) /\ const_is is_func (ctor_func t) /\
  Forall (fun d => name_ok (field_name d) /\ decorators_ok (field_decorators_list d))
    (field_decorators t) /\
  (forall k m, members t !! k = Some m -> member_ok t k m) /\
  Forall block_ok (blocks t).

(** What each constant operand must be. *)
Definition const_operands_ok (i : Instr) : Prop :=
  match i with
  | Data i =>
      match i with
      | LoadConst _ k => const_is is_scalar k
      | InitGlobal k _ _ | HoistVarGlobal k | AnnexBInit k | AnnexBUpdate k _ _ | BareVarGlobal k
      | LoadGlobal _ k | LoadCallBinding _ _ k | ResolveAssignmentBinding _ _ k
      | ReadAssignmentBinding _ _ _ k | WriteAssignmentBinding _ _ k _ | StoreGlobal k _
      | DefineGlobal k _ _ _ | TypeofGlobal _ k => const_is is_string k
      | _ => True
      end
  | Operator (CompoundGlobal _ k _ _ | IncGlobal _ k _ _ | DelGlobal _ k) => const_is is_string k
  | Property i =>
      match i with
      | LoadGlobalSoft _ k | SetOwnProp _ (KConst k) _ => const_is is_string k
      | Template _ k _ n => const_is (fun c => exists l, c = CStringList l /\ length l = (n + 1)%nat) k
      | MakeFunction _ k => const_is (fun c => exists g, c = CFunction g) k
      | MakeAstFunction _ k => const_is (fun c => exists a, c = CAstFunction a) k
      | BuildObject _ k =>
          const_is (fun c => exists l, c = CObjectTemplate l /\ Forall entry_ok l) k
      | DirectEvalSpread _ _ _ k | ConstructSpread _ _ k | CallSpread _ _ k | MethodSpread _ _ _ k =>
          const_is (fun c => exists l, c = CSpreadTemplate l /\ Forall (spread_ok false) l) k
      | BuildArray _ k =>
          const_is (fun c => exists l, c = CSpreadTemplate l /\ Forall (spread_ok true) l) k
      | _ => True
      end
  | Class i =>
      match i with
      | Raise k | PrivateIn _ _ k => const_is is_string k
      | ClassScope k => Forall (const_is is_string) (opt_list k)
      | ClassPrivateEnvironment k => const_is (fun c => exists l, c = CStringList l) k
      | SuperCallSpread _ _ k =>
          const_is (fun c => exists l, c = CSpreadTemplate l /\ Forall (spread_ok false) l) k
      | BuildClass _ k => const_is (fun c => exists t, c = CClassTemplate t /\ class_ok t) k
      | Import k => const_is (fun c => exists t, c = CImportTemplate t) k
      | ExportNamed k => const_is (fun c => exists t, c = CExportNamedTemplate t) k
      | ExportAll k => const_is (fun c => exists t, c = CExportAllTemplate t) k
      | _ => True
      end
  | _ => True
  end.

(** An instruction whose every operand is in bounds and executable. *)
Definition instr_ok (i : Instr) : Prop :=
  Forall reg_ok (regs i) /\
  Forall (fun w => (w.1 + w.2 <= register_count f)%nat) (windows i) /\
  Forall (fun s => (s < local_count f)%nat) (slot_operands i) /\
  Forall (fun t => (t <= length (code f))%nat) (targets i) /\
  Forall (fun c => (c < caches f)%nat) (cache_operands i) /\
  operator_ok i /\ const_operands_ok i.

Definition header_ok : Prop :=
  length (filter (fun i => is_site i = true) (code f)) = caches f /\
  length (slots f) = local_count f /\ (parameter_count f <= local_count f)%nat /\
  upvalue_count f = 0%nat.

End WellFormed.

(** A function is well formed when its tables agree, its instructions are, and
    so are the functions nested in its constants. *)
Inductive well_formed : BytecodeFunction -> Prop :=
| well_formed_intro (f : BytecodeFunction) :
    header_ok f ->
    (forall a i, code f !! a = Some i -> instr_ok f i) ->
    (forall k g, constants f !! k = Some (CFunction g) -> well_formed g) ->
    well_formed f.

(** ** The checks and their bounds *)

Lemma bind_Ok {E A B} (m : outcome E A) (k : A -> outcome E B) b :
  obind m k = Ok b <-> exists a, m = Ok a /\ k a = Ok b.
Proof. destruct m; simpl; naive_solver. Qed.

Lemma seq_Ok {E} (m k : outcome E unit) : (m ;* k) = Ok tt <-> m = Ok tt /\ k = Ok tt.
Proof. rewrite bind_Ok. split; [intros ([] & ?)|intros ?; exists tt]; done. Qed.

Lemma for_each_Ok {E A} (l : list A) (body : A -> outcome E unit) (P : A -> Prop) :
  (forall x, body x = Ok tt <-> P x) -> for_each l body = Ok tt <-> Forall P l.
Proof.
  intros H. induction l as [|x l IH]; cbn [for_each]; [by rewrite Forall_nil|].
  by rewrite seq_Ok, IH, H, Forall_cons.
Qed.

Lemma for_enumerate_Ok {E A} (l : list A) (body : nat -> A -> outcome E unit)
    (P : nat -> A -> Prop) : forall n,
  (forall i x, body i x = Ok tt <-> P i x) ->
  for_enumerate n l body = Ok tt <-> forall k x, l !! k = Some x -> P (n + k)%nat x.
Proof.
  induction l as [|x l IH]; intros n H; cbn [for_enumerate]; [done|].
  rewrite seq_Ok, IH, H by done. split.
  - intros [H1 H2] [|k] y Hy; simplify_eq/=; [by rewrite Nat.add_0_r|].
    rewrite <- Nat.add_succ_comm. by apply H2.
  - intros HP. split; [rewrite <- (Nat.add_0_r n); by apply HP|].
    intros k y Hy. rewrite Nat.add_succ_comm. by apply HP.
Qed.

Lemma if_some_Ok {A} (o : option A) (check : A -> Check) (P : A -> Prop) :
  (forall x, check x = Ok tt <-> P x) -> if_some o check = Ok tt <-> Forall P (opt_list o).
Proof.
  intros H. destruct o as [x|]; simpl; [|by rewrite Forall_nil].
  by rewrite Forall_singleton.
Qed.

Lemma test_Ok {E} (b : bool) (e : E) : (if b then Ok tt else Err e) = Ok tt <-> b = true.
Proof. by destruct b. Qed.

Section Checks.
Context (f : BytecodeFunction) (a : nat).

Lemma check_reg_Ok r : check_reg f a r = Ok tt <-> reg_ok f r.
Proof. unfold check_reg. by rewrite test_Ok, Nat.ltb_lt. Qed.

Lemma check_slot_Ok s : check_slot f a s = Ok tt <-> (s < local_count f)%nat.
Proof. unfold check_slot. by rewrite test_Ok, Nat.ltb_lt. Qed.

Lemma check_target_Ok t : check_target f a t = Ok tt <-> (t <= length (code f))%nat.
Proof. unfold check_target. by rewrite test_Ok, Nat.leb_le. Qed.

Lemma check_range_Ok s n : check_range f a s n = Ok tt <-> (s + n <= register_count f)%nat.
Proof. unfold check_range. by rewrite test_Ok, Nat.leb_le. Qed.

Lemma check_cache_Ok c : check_cache f a c = Ok tt <-> (c < caches f)%nat.
Proof. unfold check_cache. case Nat.leb_spec; intros; split; (done || lia). Qed.

Lemma check_compound_op_Ok op : check_compound_op a op = Ok tt <-> op <> ASet.
Proof. by destruct op. Qed.

Lemma check_delta_Ok d : check_delta a d = Ok tt <-> d = 1 \/ d = -1.
Proof. unfold check_delta. by rewrite test_Ok, orb_true_iff, !Z.eqb_eq. Qed.

Lemma check_const_Ok k : check_const f a k = Ok tt <-> is_Some (constants f !! k).
Proof. unfold check_const. by rewrite test_Ok, Nat.ltb_lt, lookup_lt_is_Some. Qed.

Lemma index_bind_Ok {B} k (body : Constant -> outcome VerifyError B) b :
  (let* c := index_or_panic (constants f) k in body c) = Ok b <->
  exists c, constants f !! k = Some c /\ body c = Ok b.
Proof. unfold index_or_panic. destruct (constants f !! k); naive_solver. Qed.

Lemma check_const_is_Ok k expected :
  check_const_is f a k expected = Ok tt <->
  const_is f (fun c => const_accepts c expected = true) k.
Proof.
  unfold check_const_is, const_is. rewrite seq_Ok, check_const_Ok, index_bind_Ok.
  setoid_rewrite test_Ok. unfold is_Some. naive_solver.
Qed.

Lemma const_is_iff P Q k : (forall c, P c <-> Q c) -> const_is f P k <-> const_is f Q k.
Proof. intros H. unfold const_is. by setoid_rewrite H. Qed.

Lemma check_string_Ok k : check_const_is f a k "string" = Ok tt <-> const_is f is_string k.
Proof. rewrite check_const_is_Ok. apply const_is_iff. by intros []. Qed.

Lemma check_scalar_Ok k : check_const_is f a k "scalar" = Ok tt <-> const_is f is_scalar k.
Proof. rewrite check_const_is_Ok. apply const_is_iff. by intros []. Qed.

Lemma check_key_Ok k :
  check_key f a k = Ok tt <->
  match k with KReg r => reg_ok f r | KConst c => const_is f is_string c end.
Proof. destruct k; [apply check_string_Ok|apply check_reg_Ok]. Qed.

Lemma check_func_const_Ok k : check_func_const f a k = Ok tt <-> const_is f is_func k.
Proof.
  unfold check_func_const. rewrite seq_Ok, check_const_Ok, index_bind_Ok. unfold const_is, is_Some.
  split.
  - intros (_ & c & Hc & H). exists c. split; [done|]. by destruct c.
  - intros (c & Hc & H). split; [eauto|]. exists c. split; [done|]. by destruct c.
Qed.

(** A check that a constant has one variant, followed by a check of what that
    variant holds. *)
Lemma variant_Ok k expected (body : Constant -> Check) (P : Constant -> Prop) :
  (forall c, const_accepts c expected = true -> body c = Ok tt <-> P c) ->
  (forall c, P c -> const_accepts c expected = true) ->
  (check_const_is f a k expected ;*
   (let* c := index_or_panic (constants f) k in body c)) = Ok tt <-> const_is f P k.
Proof.
  intros H1 H2. rewrite seq_Ok, check_const_is_Ok, index_bind_Ok. unfold const_is. split.
  - intros [(c & Hc & Ha) (c' & Hc' & Hb)]. simplify_eq. exists c. split; [done|]. by apply H1.
  - intros (c & Hc & HP). split; exists c; (split; [done|]); [auto|]. apply H1; auto.
Qed.

Lemma check_spread_Ok k b :
  check_spread_template f a k b = Ok tt <->
  const_is f (fun c => exists l, c = CSpreadTemplate l /\ Forall (spread_ok f b) l) k.
Proof.
  apply variant_Ok; [|by intros c (l & -> & _)]. intros c Hc.
  destruct c; try discriminate Hc. rewrite (for_each_Ok _ _ (spread_ok f b)).
  - naive_solver.
  - intros e. unfold spread_ok. rewrite <- check_reg_Ok.
    destruct (elision e), b, (spread e), (prepared e); simpl; naive_solver.
Qed.

Lemma check_decorators_Ok l : check_decorators f a l = Ok tt <-> decorators_ok f l.
Proof.
  apply for_each_Ok. intros d. rewrite seq_Ok, check_reg_Ok.
  by rewrite (if_some_Ok _ _ (reg_ok f)) by apply check_reg_Ok.
Qed.

Lemma check_name_Ok n : check_name f a n = Ok tt <-> name_ok f n.
Proof. destruct n; [done|done|apply check_reg_Ok]. Qed.

Lemma check_member_Ok t k m : check_member f a t k m = Ok tt <-> member_ok f t k m.
Proof.
  unfold check_member, member_ok.
  rewrite !seq_Ok, check_decorators_Ok, check_name_Ok.
  rewrite (if_some_Ok (member_func m) _ (const_is f is_func)) by apply check_func_const_Ok.
  rewrite (if_some_Ok _ _ (fun i => auto_accessor_ok t k m i = true)) by (intros; apply test_Ok).
  destruct (auto_decorator_field m) as [i|]; simpl; rewrite ?Forall_singleton, ?Forall_nil;
    naive_solver.
Qed.

Lemma check_block_Ok b : check_block f a b = Ok tt <-> block_ok f b.
Proof.
  destruct b as [[]|]; try done; [apply check_reg_Ok|]. cbn [check_block block_ok].
  rewrite check_const_is_Ok. apply const_is_iff. intros []; simpl; naive_solver.
Qed.

Lemma check_class_template_Ok k :
  check_class_template f a k = Ok tt <->
  const_is f (fun c => exists t, c = CClassTemplate t /\ class_ok f t) k.
Proof.
  apply variant_Ok; [|by intros c (t & -> & _)]. intros c Hc.
  destruct c; try discriminate Hc. rewrite !seq_Ok.
  rewrite check_decorators_Ok, check_func_const_Ok.
  rewrite !(if_some_Ok _ _ (reg_ok f)) by apply check_reg_Ok.
  rewrite (for_each_Ok _ _ (reg_ok f)) by apply check_reg_Ok.
  rewrite (for_each_Ok (field_decorators t) _
    (fun d => name_ok f (field_name d) /\ decorators_ok f (field_decorators_list d)))
    by (intros d; by rewrite seq_Ok, check_name_Ok, check_decorators_Ok).
  rewrite (for_enumerate_Ok _ _ (member_ok f t) 0) by (intros; apply check_member_Ok).
  rewrite (for_each_Ok (blocks t) _ (block_ok f)) by apply check_block_Ok.
  unfold class_ok. naive_solver.
Qed.

Lemma check_variant_Ok (Q : Constant -> Prop) expected k :
  (forall c, const_accepts c expected = true <-> Q c) ->
  check_const_is f a k expected = Ok tt <-> const_is f Q k.
Proof. intros H. rewrite check_const_is_Ok. by apply const_is_iff. Qed.

End Checks.
