(* ===== verification/VerifyTheorems.v ===== *)
(** The theorems of the verifier: it accepts exactly the well-formed functions,
    never indexes out of range itself, and reports the first defect. *)
From stdpp Require Import prelude list strings.
From Stdlib Require Import ZArith Lia.
From S2P Require Import Prelude JsString BigInt Opcode Verify VerifySpec.
Import Opcode Verify.
Local Open Scope Z_scope.
Local Open Scope rust_scope.

(** ** Instructions *)

Section Instr.
Context (f : BytecodeFunction) (a : nat).

Lemma string_list_arity_Ok k n :
  (check_const_is f a k "string-list" ;* check_template_arity f a k n) = Ok tt <->
  const_is f (fun c => exists l, c = CStringList l /\ length l = (n + 1)%nat) k.
Proof.
  apply variant_Ok; [|by intros c (l & -> & _)]. intros c Hc. destruct c; try discriminate Hc.
  rewrite test_Ok, Nat.eqb_eq. naive_solver.
Qed.

Lemma object_template_Ok k :
  (check_const_is f a k "object-template" ;* check_object_template f a k) = Ok tt <->
  const_is f (fun c => exists l, c = CObjectTemplate l /\ Forall (entry_ok f) l) k.
Proof.
  apply variant_Ok; [|by intros c (l & -> & _)]. intros c Hc. destruct c; try discriminate Hc.
  rewrite (for_each_Ok _ _ (entry_ok f)); [naive_solver|]. intros e. unfold entry_ok.
  rewrite seq_Ok, check_reg_Ok. destruct (prop_key e) as [k'|]; simpl; [|naive_solver].
  rewrite check_key_Ok. destruct k'; naive_solver.
Qed.

Ltac variants :=
  match goal with
  | |- context [check_const_is f a ?k "string-list" = Ok tt] =>
      rewrite (check_variant_Ok f a (fun c => exists l, c = CStringList l) "string-list" k)
        by (intros []; simpl; naive_solver)
  | |- context [check_const_is f a ?k "function" = Ok tt] =>
      rewrite (check_variant_Ok f a (fun c => exists g, c = CFunction g) "function" k)
        by (intros []; simpl; naive_solver)
  | |- context [check_const_is f a ?k "ast-function" = Ok tt] =>
      rewrite (check_variant_Ok f a (fun c => exists g, c = CAstFunction g) "ast-function" k)
        by (intros []; simpl; naive_solver)
  | |- context [check_const_is f a ?k "import-template" = Ok tt] =>
      rewrite (check_variant_Ok f a (fun c => exists g, c = CImportTemplate g) "import-template" k)
        by (intros []; simpl; naive_solver)
  | |- context [check_const_is f a ?k "export-named-template" = Ok tt] =>
      rewrite (check_variant_Ok f a (fun c => exists g, c = CExportNamedTemplate g)
        "export-named-template" k) by (intros []; simpl; naive_solver)
  | |- context [check_const_is f a ?k "export-all-template" = Ok tt] =>
      rewrite (check_variant_Ok f a (fun c => exists g, c = CExportAllTemplate g)
        "export-all-template" k) by (intros []; simpl; naive_solver)
  end.

Ltac bounds :=
  rewrite ?seq_Ok, ?check_reg_Ok, ?check_slot_Ok, ?check_target_Ok, ?check_range_Ok,
    ?check_cache_Ok, ?check_string_Ok, ?check_scalar_Ok, ?check_compound_op_Ok, ?check_delta_Ok,
    ?check_spread_Ok, ?check_class_template_Ok, ?check_key_Ok;
  repeat variants;
  rewrite ?(for_each_Ok _ _ (reg_ok f)) by apply check_reg_Ok;
  rewrite ?(if_some_Ok _ (check_reg f a) (reg_ok f)) by apply check_reg_Ok;
  rewrite ?(if_some_Ok _ (check_slot f a) (fun s => (s < local_count f)%nat))
    by apply check_slot_Ok;
  rewrite ?(if_some_Ok _ _ (const_is f is_string)) by (intros; apply check_string_Ok);
  unfold instr_ok; cbn [regs windows slot_operands targets cache_operands operator_ok
    const_operands_ok key_regs fst snd];
  rewrite ?Forall_cons, ?Forall_nil; cbn [fst snd]; try tauto.

Lemma check_data_Ok i : check_data f a i = Ok tt <-> instr_ok f i.
Proof. destruct i; cbn [check_data]; bounds. Qed.

Lemma check_operator_Ok i : check_operator f a i = Ok tt <-> instr_ok f i.
Proof.
  destruct i; cbn [check_operator]; bounds.
  - destruct op; naive_solver.
  - destruct op; naive_solver.
Qed.

Lemma check_control_Ok i : check_control f a i = Ok tt <-> instr_ok f i.
Proof. destruct i; cbn [check_control]; bounds. Qed.

Lemma check_property_Ok i : check_property f a i = Ok tt <-> instr_ok f i.
Proof.
  destruct i; cbn [check_property].
  9:{ pose proof (string_list_arity_Ok quasis argc) as H. rewrite seq_Ok in H.
      rewrite !seq_Ok, check_reg_Ok, check_range_Ok. unfold instr_ok.
      cbn [regs windows slot_operands targets cache_operands operator_ok const_operands_ok].
      rewrite ?Forall_cons, ?Forall_nil, <- H. cbn [fst snd]. tauto. }
  18:{ rewrite (seq_Ok (check_reg f a dst)), object_template_Ok. bounds. }
  all: bounds.
  destruct key; cbn [key_regs]; rewrite ?Forall_cons, ?Forall_nil; tauto.
Qed.

Lemma check_unwind_Ok i : check_unwind f a i = Ok tt <-> instr_ok f i.
Proof. destruct i; cbn [check_unwind]; bounds. Qed.

Lemma check_class_Ok i : check_class f a i = Ok tt <-> instr_ok f i.
Proof. destruct i; cbn [check_class]; bounds. Qed.

Lemma check_instr_Ok i : check_instr f a i = Ok tt <-> instr_ok f i.
Proof.
  destruct i; [apply check_data_Ok|apply check_operator_Ok|apply check_control_Ok
    |apply check_property_Ok|apply check_unwind_Ok|apply check_class_Ok].
Qed.

End Instr.

(** ** Functions *)

Lemma function_ind (P : BytecodeFunction -> Prop) :
  (forall f : BytecodeFunction,
     (forall k g, constants f !! k = Some (CFunction g) -> P g) -> P f) ->
  forall f, P f.
Proof.
  intros H.
  enough (forall c, match c with CFunction g => P g | _ => True end) as E
    by (intros f; exact (E (CFunction f))).
  fix IH 1. intros c. destruct c as [| | | | | | | | |f| | | | | | |]; try exact I.
  apply H. destruct f as [? ? ? ? ? l]; cbn [constants]. clear - IH.
  induction l as [|c l IHl]; intros [|k] g E; try discriminate E.
  - specialize (IH c). injection E as ->. exact IH.
  - exact (IHl k g E).
Qed.

Lemma verify_function_eq f :
  verify_function f =
  (verify_header f ;*
   for_enumerate 0 (constants f)
     (fun k c => map_err (NestedFunction (u16 (Z.of_nat k))) (verify_constant c))).
Proof.
  unfold verify_function. cbn [verify_constant]. destruct (verify_header f) as [[]| |]; try done.
  cbn [obind]. generalize 0%nat. induction (constants f) as [|c l IH]; intros n; [done|].
  cbn [for_enumerate]. destruct (map_err _ _) as [[]| |]; try done. apply IH.
Qed.

Lemma verify_header_Ok f :
  verify_header f = Ok tt <->
  header_ok f /\ forall k i, code f !! k = Some i -> instr_ok f i.
Proof.
  unfold verify_header, header_ok.
  repeat case Nat.eqb_spec; try case Nat.ltb_spec; simpl; intros; try naive_solver lia.
  rewrite (for_enumerate_Ok _ _ (fun _ i => instr_ok f i) 0)
    by (intros; apply check_instr_Ok). naive_solver lia.
Qed.

Lemma map_err_Ok {E F A} (g : E -> F) (m : outcome E A) x : map_err g m = Ok x <-> m = Ok x.
Proof. destruct m; simpl; naive_solver. Qed.

Lemma well_formed_inv f :
  well_formed f <->
  header_ok f /\ (forall k i, code f !! k = Some i -> instr_ok f i) /\
  (forall k g, constants f !! k = Some (CFunction g) -> well_formed g).
Proof. split; [by intros []|]. intros (? & ? & ?). by constructor. Qed.

Lemma verify_function_Ok f : verify_function f = Ok tt <-> well_formed f.
Proof.
  induction f as [f IH] using function_ind. rewrite verify_function_eq, seq_Ok, verify_header_Ok.
  rewrite well_formed_inv, Logic.and_assoc.
  rewrite (for_enumerate_Ok _ _ (fun _ c => verify_constant c = Ok tt) 0)
    by (intros; apply map_err_Ok).
  do 2 apply and_iff_compat_l. split.
  - intros H k g Hg. apply (IH k g Hg). apply (H k _ Hg).
  - intros H k c Hc. destruct c; try done. apply (IH k _ Hc). eauto.
Qed.

(** ** The verifier does not panic, and locates its errors *)

(** The instruction an error is about. *)
Definition address_of (e : VerifyError) : option nat :=
  match e with
  | BadCache a _ | BadRegister a _ | BadSlot a _ | BadConstant a _ | ConstantTypeMismatch a _
  | BadJumpTarget a _ | BadOperandRange a _ _ | ShortCircuitInBinary a _ | TargetedUnary a _
  | PlainAssignInCompound a | BadIncDelta a _ | TemplateArityMismatch a _ _ => Some a
  | CacheTableMismatch | SlotTableMismatch _ _ | ParametersExceedLocals _ _
  | UpvaluesUnsupported _ | NestedFunction _ _ => None
  end.

(** A check of the instruction at [a] returns, and any error it returns is
    about [a]. *)
Definition located {A} (a : nat) (m : outcome VerifyError A) : Prop :=
  match m with
  | Ok _ => True
  | Err e => address_of e = Some a
  | Panic => False
  end.

Lemma bind_located {A B} a (m : outcome VerifyError A) (k : A -> outcome VerifyError B) :
  located a m -> (forall x, m = Ok x -> located a (k x)) -> located a (obind m k).
Proof. destruct m; simpl; naive_solver. Qed.

Lemma seq_located a (m k : Check) : located a m -> located a k -> located a (m ;* k).
Proof. intros. by apply bind_located. Qed.

Lemma for_each_located {A} a (l : list A) (body : A -> Check) :
  (forall x, located a (body x)) -> located a (for_each l body).
Proof. intros H. induction l; cbn [for_each]; [done|]. by apply seq_located. Qed.

Lemma for_enumerate_located {A} a (l : list A) (body : nat -> A -> Check) : forall n,
  (forall i x, located a (body i x)) -> located a (for_enumerate n l body).
Proof. induction l; intros n H; cbn [for_enumerate]; [done|]. by apply seq_located; auto. Qed.

Lemma if_some_located {A} a (o : option A) (check : A -> Check) :
  (forall x, located a (check x)) -> located a (if_some o check).
Proof. by destruct o; simpl. Qed.

Section Located.
Context (f : BytecodeFunction) (a : nat).

Lemma check_reg_located r : located a (check_reg f a r).
Proof. unfold check_reg. by case_match. Qed.
Lemma check_slot_located r : located a (check_slot f a r).
Proof. unfold check_slot. by case_match. Qed.
Lemma check_target_located r : located a (check_target f a r).
Proof. unfold check_target. by case_match. Qed.
Lemma check_range_located r n : located a (check_range f a r n).
Proof. unfold check_range. by case_match. Qed.
Lemma check_cache_located r : located a (check_cache f a r).
Proof. unfold check_cache. by case_match. Qed.
Lemma check_compound_op_located op : located a (check_compound_op a op).
Proof. by destruct op. Qed.
Lemma check_delta_located d : located a (check_delta a d).
Proof. unfold check_delta. by case_match. Qed.
Lemma check_const_located k : located a (check_const f a k).
Proof. unfold check_const. by case_match. Qed.

Lemma index_located k (body : Constant -> Check) :
  is_Some (constants f !! k) -> (forall c, constants f !! k = Some c -> located a (body c)) ->
  located a (let* c := index_or_panic (constants f) k in body c).
Proof. intros [c Hc] H. unfold index_or_panic. rewrite Hc. by apply H. Qed.

Lemma check_const_is_located k e : located a (check_const_is f a k e).
Proof.
  apply bind_located; [apply check_const_located|]. intros [] H%check_const_Ok.
  apply index_located; [done|]. intros c _. by case_match.
Qed.

(** After a constant check its index is in range. *)
Lemma const_then_located k e (body : Constant -> Check) :
  (forall c, located a (body c)) ->
  located a (check_const_is f a k e ;* (let* c := index_or_panic (constants f) k in body c)).
Proof.
  intros H. apply bind_located; [apply check_const_is_located|].
  intros [] (c & Hc & _)%check_const_is_Ok. apply index_located; [eauto|]. intros ? _. apply H.
Qed.

Lemma check_key_located k : located a (check_key f a k).
Proof. destruct k; [apply check_const_is_located|apply check_reg_located]. Qed.

Lemma check_func_const_located k : located a (check_func_const f a k).
Proof.
  apply bind_located; [apply check_const_located|]. intros [] H%check_const_Ok.
  apply index_located; [done|]. intros c _. by destruct c.
Qed.
End Located.

#[local] Hint Resolve seq_located for_each_located if_some_located check_reg_located
  check_slot_located check_target_located check_range_located check_cache_located
  check_compound_op_located check_delta_located check_const_is_located check_key_located
  check_func_const_located : rust.

Section Located2.
Context (f : BytecodeFunction) (a : nat).

Lemma check_spread_located k b : located a (check_spread_template f a k b).
Proof.
  apply const_then_located. intros c. destruct c; try done.
  apply for_each_located. intros e. case_match; [done|auto with rust].
Qed.

Lemma check_decorators_located l : located a (check_decorators f a l).
Proof. apply for_each_located. intros d. auto with rust. Qed.

Lemma check_name_located n : located a (check_name f a n).
Proof. destruct n; try done; simpl; auto with rust. Qed.

Lemma check_class_located k : located a (check_class_template f a k).
Proof.
  apply const_then_located. intros c. destruct c; try done.
  pose proof check_decorators_located. pose proof check_name_located.
  repeat (apply seq_located; [solve [auto 6 with rust]|]). apply seq_located.
  - apply for_enumerate_located. intros i m. unfold check_member.
    apply seq_located; [|auto with rust].
    apply if_some_located. intros x. by case_match.
  - apply for_each_located. intros b. destruct b as [[]|]; try done; simpl; auto with rust.
Qed.

Lemma check_instr_located i : located a (check_instr f a i).
Proof.
  pose proof check_spread_located. pose proof check_class_located.
  destruct i as [i|i|i|i|i|i]; destruct i; cbn [check_instr check_data check_operator
    check_control check_property check_unwind check_class]; try done; try (solve [auto 8 with rust]).
  - repeat apply seq_located; auto with rust. by destruct op.
  - repeat apply seq_located; auto with rust. by destruct op.
  - apply seq_located; [auto with rust|].
    apply bind_located; [auto with rust|]. intros [] (c & Hc & _)%check_const_is_Ok.
    apply seq_located; [auto with rust|]. apply index_located; [eauto|].
    intros c' _. destruct c'; try done. by case_match.
  - apply seq_located; [auto with rust|]. apply const_then_located.
    intros c. destruct c; try done. auto with rust.
Qed.
End Located2.

Lemma for_enumerate_no_panic {E A} (l : list A) (body : nat -> A -> outcome E unit) : forall n,
  (forall i x, (n <= i)%nat -> l !! (i - n)%nat = Some x -> body i x <> Panic) ->
  for_enumerate n l body <> Panic.
Proof.
  induction l as [|x l IH]; intros n H; cbn [for_enumerate]; [done|].
  assert (body n x <> Panic) by (apply H; [lia|by rewrite Nat.sub_diag]).
  destruct (body n x); try done. apply IH. intros i y Hi Hy. apply H; [lia|].
  by replace (i - n)%nat with (S (i - S n)) by lia.
Qed.

Lemma verify_header_no_panic f : verify_header f <> Panic.
Proof.
  unfold verify_header. repeat case_match; try done.
  apply for_enumerate_no_panic. intros k i _ _. by destruct (check_instr f k i) eqn:E;
    pose proof (check_instr_located f k i) as H'; rewrite E in H'.
Qed.

Lemma verify_function_no_panic f : verify_function f <> Panic.
Proof.
  induction f as [f IH] using function_ind. rewrite verify_function_eq.
  pose proof (verify_header_no_panic f). destruct (verify_header f) as [[]| |]; try done.
  apply for_enumerate_no_panic. intros k c _ Hc. destruct c; try done.
  specialize (IH _ _ Hc). unfold verify_function in IH.
  destruct (verify_constant (CFunction f0)); done.
Qed.

Lemma for_enumerate_Err {E A} (l : list A) (body : nat -> A -> outcome E unit) e : forall n,
  for_enumerate n l body = Err e ->
  exists k x, l !! k = Some x /\ body (n + k)%nat x = Err e /\
    forall j y, (j < k)%nat -> l !! j = Some y -> body (n + j)%nat y = Ok tt.
Proof.
  induction l as [|x l IH]; intros n H; cbn [for_enumerate] in H; [done|].
  destruct (body n x) as [[]|e'|] eqn:Hb; simplify_eq/=.
  - destruct (IH _ H) as (k & y & Hk & He & Hall). exists (S k), y.
    rewrite <- Nat.add_succ_comm. split_and!; [done..|].
    intros [|j] z Hj Hz; simplify_eq/=; [by rewrite Nat.add_0_r|].
    rewrite <- Nat.add_succ_comm. apply (Hall j); [lia|done].
  - exists 0%nat, x. rewrite Nat.add_0_r. split_and!; [done..|]. intros; lia.
Qed.

Lemma verify_header_Err f e :
  verify_header f = Err e ->
  ~ header_ok f \/ for_enumerate 0 (code f) (check_instr f) = Err e.
Proof.
  unfold verify_header, header_ok.
  case Nat.eqb_spec; intros H1; [|intros _; left; by intros []]. cbn [negb].
  case Nat.eqb_spec; intros H2; [|intros _; left; by intros (_ & ? & _)]. cbn [negb].
  case Nat.ltb_spec; intros H3; [intros _; left; intros (_ & _ & ? & _); lia|].
  case Nat.eqb_spec; intros H4; [|intros _; left; by intros (_ & _ & _ & ?)]. cbn [negb]. auto.
Qed.

(** ** Theorems *)

(** C2. The verifier accepts exactly the well-formed functions: every register,
    register window, slot, jump target, inline-cache and constant operand of
    every instruction is within its table, every constant has the variant its
    instruction needs, the registers inside object, spread and class templates
    are in range, and the same holds of every nested function. *)
Theorem verify_accepts_well_formed m : verify_module m = Ok tt <-> well_formed (main m).
Proof. apply verify_function_Ok. Qed.

(** C3. The verifier is total: on any compiled function, well formed or not, it
    returns, and none of its own table lookups is out of range. *)
Theorem verify_never_panics m : verify_module m <> Panic.
Proof. apply verify_function_no_panic. Qed.

(** C4. A rejection names the first defect: either the tables of the function
    disagree, or the error is the one of the first ill-formed instruction and
    carries its address, or it wraps the error of the first constant that holds
    an ill-formed function, with its index truncated to 16 bits. *)
Theorem verify_reports_first_defect f e :
  verify_function f = Err e ->
  ~ header_ok f \/
  (exists k i, code f !! k = Some i /\ check_instr f k i = Err e /\ address_of e = Some k /\
     ~ instr_ok f i /\ forall j i', (j < k)%nat -> code f !! j = Some i' -> instr_ok f i') \/
  (exists k g e', constants f !! k = Some (CFunction g) /\
     e = NestedFunction (u16 (Z.of_nat k)) e' /\ verify_function g = Err e' /\
     (forall j i, code f !! j = Some i -> instr_ok f i) /\
     forall j g', (j < k)%nat -> constants f !! j = Some (CFunction g') -> well_formed g').
Proof.
  rewrite verify_function_eq. destruct (verify_header f) as [[]|e'|] eqn:Hh; try done; cbn [obind].
  - apply verify_header_Ok in Hh as [_ Hcode].
    intros (k & c & Hk & He & Hall)%for_enumerate_Err. right; right. cbn [Nat.add] in *.
    destruct c as [| | | | | | | | |g| | | | | | |]; try done.
    destruct (verify_constant (CFunction g)) as [|e'|] eqn:Hg; cbn [map_err] in He;
      [discriminate|injection He as <-|discriminate].
    exists k, g, e'. split; [exact Hk|]. split; [reflexivity|]. split; [exact Hg|].
    split; [exact Hcode|]. intros j g' Hj Hg'.
    apply verify_function_Ok. specialize (Hall _ _ Hj Hg'). by apply map_err_Ok in Hall.
  - intros [= ->]. apply verify_header_Err in Hh as [Hh|Hh]; [by left|].
    right; left. apply for_enumerate_Err in Hh as (k & i & Hk & He & Hall). cbn [Nat.add] in *.
    exists k, i. pose proof (check_instr_located f k i) as Hl. rewrite He in Hl.
    split; [exact Hk|]. split; [exact He|]. split; [exact Hl|]. split.
    + intros Hok%(check_instr_Ok f k). congruence.
    + intros j i' Hj Hi'. apply (check_instr_Ok f j). by apply Hall.
Qed.

(** A function with the given code, constants, registers and slots, for
    examples. *)
Definition sample (c : list Instr) (k : list Constant) (regs : nat) (sl : list SlotInfo)
  : BytecodeFunction :=
  {| source_text := None; named_expression := false; strict := false; fn_name := None;
     code := c; constants := k; register_count := regs; local_count := length sl;
     parameter_count := 0; upvalue_count := 0; slots := sl; is_arrow := false;
     is_constructor := false; captures_arguments := false; needs_frame_environment := false;
     caches := length (filter (fun i => is_site i = true) c); global_read_slots := 0 |}.

(** The second instruction jumps past the end of the code. *)
Definition bad_jump : BytecodeFunction :=
  sample [LoadConst 0 0 : Instr; Jump 4 : Instr; Return 0 : Instr] [CUndefined] 1 [].

Lemma verify_reports_first_defect_witness :
  ~ header_ok bad_jump \/
  (exists k i, code bad_jump !! k = Some i /\
     check_instr bad_jump k i = Err (BadJumpTarget 1 4) /\
     address_of (BadJumpTarget 1 4) = Some k /\
     ~ instr_ok bad_jump i /\
     forall j i', (j < k)%nat -> code bad_jump !! j = Some i' -> instr_ok bad_jump i') \/
  (exists k g e', constants bad_jump !! k = Some (CFunction g) /\
     BadJumpTarget 1 4 = NestedFunction (u16 (Z.of_nat k)) e' /\ verify_function g = Err e' /\
     (forall j i, code bad_jump !! j = Some i -> instr_ok bad_jump i) /\
     forall j g', (j < k)%nat -> constants bad_jump !! j = Some (CFunction g') -> well_formed g').
Proof. apply verify_reports_first_defect. reflexivity. Defined.

(** The error [TargetedUnary] is documented for increment, decrement and
    [delete]; the check refuses only [delete], and increments pass. *)
Example unary_increment_verifies :
  verify_function (sample [Unary 0 Inc 0 : Instr] [] 1 []) = Ok tt /\
  verify_function (sample [Unary 0 Delete 0 : Instr] [] 1 []) = Err (TargetedUnary 0 Delete).
Proof. split; reflexivity. Qed.
