(* ===== verification/Machine.v ===== *)
(** What the virtual machine works on: guest values, completions, activation
    frames, and the operations it asks of the interpreter.

    [vm.rs] owns no semantics of its own: operators, property access, calls and
    scopes are methods of the interpreter.  Those methods are the interface
    below, one constructor per method, under the method's name: a [Request] may
    fail, a [Query] may not.  The machine is defined and its theorems are proved
    for every [Interpreter], that is, for every behaviour of those methods.

    Heap objects, environments and for-in enumerators are the identities of
    their shared cells.  The inline caches are reached through [get_prop_cached]
    and [set_prop_cached]. *)
From stdpp Require Import prelude list strings.
From Stdlib Require Import ZArith Lia SpecFloat.
From S2P Require Import Prelude JsString BigInt Opcode.
Import Opcode.
Local Open Scope Z_scope.

Module Machine.

(** ** Values and completions *)

(** [Value] of [value.rs]; a payload behind [Rc] is its identity. *)
Inductive Value :=
| Uninitialized
| Undefined
| Null
| Bool (b : bool)
| Number (n : spec_float)
| String (s : JsString.JsString)
| Object (props : nat)
| Array (cell : nat)
| Function (data : nat)
| NativeFunction (name : Text) (callable : nat)
| HostFunction (name : Text) (properties : nat)
| GlobalObject
| RealmGlobal (env : nat)
| ClassValue (data : nat)
| Promise (inner : nat)
| Generator (inner : nat)
| StringIterator (inner : nat)
| HostPending (id : nat)
| Symbol (data : nat)
| Date (data : nat)
| Proxy (data : nat)
| ArrayBuffer (buffer : nat)
| SharedArrayBuffer (buffer : nat)
| TypedArray (data : nat)
| DataView (data : nat)
| BigIntValue (v : BigInt.BigInt)
| RegExp (data : nat)
| AsyncTask (task : nat)
| Binding (cell : nat)
| ErrorValue (data : nat).

(** [VmErr] of [error.rs]. *)
Inductive VmErr :=
| Ret (v : Value)
| TailCall (data : nat)
| ThrowErr (v : Value)
| Msg (text : Text)
| RuntimeError (data : nat)
| BreakErr (label : option Text) (value : option Value)
| ContinueErr (label : option Text) (value : option Value)
| Abandon.

Definition is_abandon (e : VmErr) : bool := match e with Abandon => true | _ => false end.

Inductive Lookup := LookupValue (v : Value) | LookupUninitialized | LookupMissing.

Inductive ObjectAccessorKind := AccessorGetter | AccessorSetter.

Abbreviation Env := nat (only parsing).

(** ** Frames *)

Record RunSlot := { slot_value : Value; initialized : bool; run_kind : SlotKind }.

Record HandlerEntry := {
  target : nat;
  dst : nat;
  catch_returns : bool;
  scope_depth : nat;
  pending_depth : nat;
  enumerator_depth : nat;
}.

(** The borrowed function of the source's frame is an argument of the
    operations below. *)
Record CallFrame := {
  ip : nat;
  registers : list Value;
  run_slots : list RunSlot;
  this_value : Value;
  handlers : list HandlerEntry;
  pending : list VmErr;
  enumerators : list (nat * nat);
  scopes : list Env;
}.

(** Stacks grow at the end of their vectors. *)
Definition last_of {A} (l : list A) : option A := last l.
Definition pop_of {A} (l : list A) : option (A * list A) :=
  x ← last l; Some (x, take (length l - 1) l).

(** ** The parts of a class under construction ([interpreter]) *)

Inductive PrivateElement :=
| PrivateMethod (v : Value)
| PrivateAccessor (get set : option Value).

Record PropAttrs := { writable : bool; enumerable : bool; configurable : bool }.

Record ClassMethodDefinition := {
  md_auto_decorator_field : option nat;
  md_kind : ClassMemberKind;
  md_key : Value;
  md_private : bool;
  md_is_static : bool;
  md_value : Value;
  md_decorators : list (Value * Value);
}.

Record ClassFieldDefinition := {
  fd_key : Value;
  fd_private : bool;
  fd_is_static : bool;
  fd_index : nat;
  fd_decorators : list (Value * Value);
}.

Inductive ClassStaticElement :=
| StaticBlock (body : list Statement)
| StaticField (name : Value) (private : bool) (init : Expr).

Record ClassAssembly := {
  ca_field_definitions : list ClassFieldDefinition;
  ca_method_definitions : list ClassMethodDefinition;
  ca_decorators : list (Value * Value);
  ca_source_text : option nat;
  ca_name : Text;
  ca_super_cls : option Value;
  ca_super_proto : option Value;
  ca_constructor : Value;
  ca_constructor_length : nat;
  ca_proto_props : list (Text * Value);
  ca_proto_keys : list Value;
  ca_static_keys : list Value;
  ca_statics : list (Text * Value);
  ca_static_attrs : list (Text * PropAttrs);
  ca_static_has_accessors : bool;
  ca_static_elements : list ClassStaticElement;
  ca_private_scope : Env;
  ca_instance_home : Env;
  ca_static_home : Env;
  ca_constructor_home : Env;
  ca_private_statics : list (Text * PrivateElement);
}.

(** ** The interpreter's methods *)

Inductive Request : Type -> Type :=
(* metering *)
| consume_fuel (cost : Z) : Request unit
| consume_loop : Request unit
(* constants *)
| compile_regex (pattern : JsString.JsString) (flags : Text) : Request Value
(* bindings *)
| check_static_method_key (key : Value) : Request unit
| read_call_binding (scope : Env) (name : Text) : Request (Value * Value)
| resolve_assignment_binding (scope : Env) (name : Text) : Request (Value * bool)
| read_assignment_binding (scope : Env) (name : Text) : Request (Value * bool * Value)
| write_assignment_binding (base : Value) (is_property : bool) (name : Text) (v : Value)
  : Request unit
| lookup_binding_cached (scope : Env) (name : Text) (hint : nat) : Request Lookup
| lookup_binding_in (scope : Env) (name : Text) : Request Lookup
| assign_or_set_binding_cached (scope : Env) (name : Text) (v : Value) (hint : nat) : Request unit
| assign_or_set_binding_in (scope : Env) (name : Text) (v : Value) : Request unit
| assign_or_set_binding (name : Text) (v : Value) : Request unit
| declare_binding_in (scope : Env) (name : Text) (v : Value) (kind : SlotKind) (init : bool)
  : Request unit
| declare_function_binding_in (scope : Env) (name : Text) (v : Value) : Request unit
| set_binding_in (scope : Env) (name : Text) (v : Value) : Request unit
| init_compiled_annex (scope : Env) (name : Text) : Request unit
| update_compiled_annex (scope : Env) (name : Text) (v : Value) : Request bool
| hoist_var_binding_in (scope : Env) (name : Text) : Request unit
| resolve_this (scope : Env) : Request Value
| delete_binding_in (scope : Env) (name : Text) : Request Value
(* operators *)
| un_op (op : UnOp) (v : Value) : Request Value
| concat_strings (a b : JsString.JsString) : Request Value
| apply_binary (op : BinOp) (l r : Value) : Request Value
| compound_assign_global_in (scope : Env) (name : Text) (op : AssignOp) (rhs : Value) : Request Value
| compound_assign_prop (obj key : Value) (op : BinOp) (rhs : Value) : Request Value
| numeric_update (v : Value) (increment : bool) : Request (Value * Value)
| inc_global_binding_in (scope : Env) (name : Text) (increment prefix : bool) : Request Value
| inc_prop_value (obj key : Value) (increment prefix strict : bool) : Request Value
| delete_member_or_throw (obj key : Value) (strict : bool) : Request Value
| prepare_return_value (v : Value) : Request Value
(* properties and calls *)
| property_key (v : Value) : Request Text
| property_function_name (v : Value) : Request Text
| get_private_member_in (scope : Env) (obj : Value) (name : Text) : Request Value
| set_private_member_in (scope : Env) (obj : Value) (name : Text) (v : Value) : Request unit
| has_private_member_in (scope : Env) (obj : Value) (name : Text) : Request Value
| get_prop_cached (site : nat) (obj key : Value) : Request Value
| set_prop_cached (site : nat) (obj key v : Value) (strict : bool) : Request unit
| assign_property_with_receiver (obj key v receiver : Value) (strict : bool) : Request unit
| get_prop_value_with_receiver (base key receiver : Value) : Request Value
| eval_direct (argv : list Value) : Request Value
| request_tail_call (callee this : Value) (argv : list Value) : Request unit
| call_this (callee this : Value) (argv : list Value) : Request Value
| call_this_borrowed (callee this : Value) (argv : list Value) : Request Value
| ctor (callee : Value) (argv : list Value) : Request Value
| invoke_ctor (callee this : Value) (argv : list Value) : Request Value
| member (obj : Value) (name : Text) : Request Value
| render_template (quasis : list JsString.JsString) (values : list Value) : Request Value
(* arrays, objects and iteration *)
| checked_array (items : list Value) : Request Value
| checked_array_with_presence (items : list Value) (present : list bool) : Request Value
| drain_iterable (source : Value) : Request (list Value)
| append_iterable (items : list Value) (source : Value) (message : Text) : Request (list Value)
| spread_entries (builder : nat) (source : Value) : Request unit
| checked_object (builder : nat) : Request Value
| initialize_literal_prototype (obj prototype : Value) : Request unit
| copy_data_properties (source : Value) (taken : list Value) : Request Value
| for_in_new (source : Value) : Request nat
| for_in_next (enumerator : nat) : Request (option Text)
| iterator_for (source : Value) : Request Value
| iterator_result_fields (result : Value) : Request (bool * Value)
| close_guest_iterator (iterator : Value) (is_async : bool) : Request unit
| close_guest_iterator_for_abrupt (iterator : Value) (is_async : bool) (completion : VmErr)
  : Request unit
(* classes and modules *)
| super_reference (scope : Env) (key : Value) : Request (Value * Value * Value)
| super_constructor (scope : Env) : Request Value
| super_proto_for (superclass : option Value) : Request (option Value)
| ecmascript_to_property_key (v : Value) : Request Value
| apply_inferred_name (v key : Value) : Request Value
| define_class_private_element (scope : Env) (privates : list (Text * PrivateElement)) (key : Text)
    (is_static : bool) (element : PrivateElement) : Request (list (Text * PrivateElement))
| assemble_class (assembly : ClassAssembly) : Request Value
| stmt_import (template : ImportTemplate) : Request unit
| stmt_export_default (v : Value) : Request unit
| stmt_export_named (specifiers : list (Text * Text)) (source : option JsString.JsString)
  : Request unit
| stmt_export_all (source : JsString.JsString) (alias : option Text) : Request unit
| eval_dynamic_import (specifier : Value) : Request Value
| perform_await (v : Value) : Request Value
| eval_import_meta : Request Value.

Inductive Query : Type -> Type :=
| global : Query Env
| env_strict (scope : Env) : Query bool
| env_get (scope : Env) (name : Text) : Query (option Value)
| env_child (parent : Env) : Query Env
| env_replace_strict (scope : Env) (strict : option bool) : Query unit
| env_declare (scope : Env) (name : Text) (v : Value) (kind : SlotKind) (init : bool) : Query unit
| env_set (scope : Env) (name : Text) (v : Value) : Query unit
| insert_class_method (props : list (Text * Value)) (key : Text) (v : Value)
  : Query (list (Text * Value))
| insert_class_accessor (props : list (Text * Value)) (key : Text) (v : Value)
  : Query (list (Text * Value))
| env_new_target (scope : Env) : Query (option Value)
| declare_private_declarations (scope : Env) (names : list Text) : Query unit
| class_environment (parent : Env) (name : Text) : Query Env
| member_closure_env (scope : Env) : Query Env
| is_truthy (v : Value) : Query bool
| truthy (v : Value) : Query bool
| number_binary (op : BinOp) (a b : spec_float) : Query (option Value)
| note_loop_iter : Query unit
| tail_call_context : Query bool
| is_intrinsic_eval (callee : Value) : Query bool
| regex_compiled (cell : nat) : Query (option nat)
| regex_from_compiled (regex : nat) : Query Value
| regex_set_compiled (cell data : nat) : Query unit
| new_function (f : BytecodeFunction) (params : list Text) (closure : Env) (name : option Text)
  : Query Value
| new_ast_function (f : AstFunction) (closure : Env) (name : option Text) : Query Value
| array_items (cell : nat) : Query (list Value)
| new_array (items : list Value) : Query Value
| symbol_slot_key (symbol : nat) : Query Text
| number_to_string (n : spec_float) : Query Text
| ecmascript_number_string (n : spec_float) : Query Text
| cached_template_object (site : Z) : Query (option Value)
| cache_template_object (site : Z) (v raw : Value) : Query Value
| object_builder : Query nat
| builder_symbol_key (builder : nat) (key : Text) (symbol : nat) : Query unit
| insert_object_property (builder : nat) (key : Text) (v : Value)
    (kind : option ObjectAccessorKind) : Query unit
| builder_positions (builder : nat) : Query nat
| builder_finish (builder : nat) (obj : Value) : Query unit
| object_method_with_home (v : Value) (home : Env) : Query Value
| initialize_object_home (home : Env) (obj : Value) : Query unit
| error_value_with_stack (message : Text) : Query Value
| guest_value (data : nat) : Query Value.

Class Interpreter := {
  State : Type;
  on_request : forall {A}, Request A -> State -> (VmErr + A) * State;
  on_query : forall {A}, Query A -> State -> A * State;
}.

(** ** Computations of the machine *)

(** A computation runs on the interpreter state and the frame.  It ends in a
    value or a completion, with the state and frame it leaves, or panics on an
    index out of range. *)
Section Monad.
Context `{Interpreter}.

Definition M (A : Type) : Type := State -> CallFrame -> outcome VmErr A * State * CallFrame.

Definition ret {A} (x : A) : M A := fun st fr => (Ok x, st, fr).
Definition throw {A} (e : VmErr) : M A := fun st fr => (Err e, st, fr).
Definition panic {A} : M A := fun st fr => (Panic, st, fr).
Definition bind {A B} (m : M A) (k : A -> M B) : M B :=
  fun st fr =>
    match m st fr with
    | (Ok x, st, fr) => k x st fr
    | (Err e, st, fr) => (Err e, st, fr)
    | (Panic, st, fr) => (Panic, st, fr)
    end.

Definition ask {A} (r : Request A) : M A :=
  fun st fr =>
    match on_request r st with
    | (inr x, st) => (Ok x, st, fr)
    | (inl e, st) => (Err e, st, fr)
    end.
Definition query {A} (q : Query A) : M A :=
  fun st fr => let (x, st) := on_query q st in (Ok x, st, fr).

Definition frame : M CallFrame := fun st fr => (Ok fr, st, fr).
Definition put (fr : CallFrame) : M unit := fun st _ => (Ok tt, st, fr).

(** A value that may be missing: an error of the machine, or a panic. *)
Definition some_or {A} (o : option A) (e : VmErr) : M A :=
  match o with Some x => ret x | None => throw e end.
Definition some_or_panic {A} (o : option A) : M A :=
  match o with Some x => ret x | None => panic end.

End Monad.

Declare Scope vm_scope.
Delimit Scope vm_scope with vm.
Notation "'let!' x ':=' m 'in' k" := (bind m (fun x => k))
  (at level 10, x name, m at level 100, k at level 200) : vm_scope.
Notation "m ';!' k" := (bind m (fun _ => k)) (at level 100, right associativity) : vm_scope.

End Machine.
