(* ===== verification/Vm.v ===== *)
(** The virtual machine: the model of [bytecode/vm.rs].

    [execute_instruction] is one [match] of the source; here each section of the
    instruction set has its own function.  The borrowed [frame.function] is the
    argument [function]. *)
From stdpp Require Import prelude list strings.
From Stdlib Require Import ZArith Lia SpecFloat.
From S2P Require Import Prelude JsString BigInt Opcode Machine.
Import Opcode Machine.
Local Open Scope Z_scope.
Local Open Scope vm_scope.

Module Vm.

Definition MAX_ARRAY_LEN : Z := 262144.
Definition MAX_OBJECT_PROPS : Z := 262144.

(** [limit_err] *)
Definition limit_err (msg : string) : VmErr := Msg (chars "RangeError: " ++ chars msg).

Definition internal (what : string) : VmErr := Msg (chars "internal error: " ++ chars what).

Definition dead_zone (name : Text) : VmErr :=
  Msg (chars "ReferenceError: Cannot access '" ++ name ++ chars "' before initialization").

(** [n + if delta > 0 { 1.0 } else { -1.0 }] *)
Definition one : spec_float := S754_finite false 4503599627370496 (-52).
Definition minus_one : spec_float := S754_finite true 4503599627370496 (-52).
Definition step_number (n : spec_float) (delta : Z) : spec_float :=
  SFadd 53 1024 n (if 0 <? delta then one else minus_one).

(** ** Activations *)

Record ActivationBuffers := {
  buf_registers : list Value;
  buf_slots : list RunSlot;
  buf_handlers : list HandlerEntry;
  buf_pending : list VmErr;
  buf_enumerators : list (nat * nat);
  buf_scopes : list Env;
}.

Definition default_buffers : ActivationBuffers := Build_ActivationBuffers [] [] [] [] [] [].

(** [Vec::resize] *)
Definition resize {A} (l : list A) (n : nat) (x : A) : list A :=
  take n l ++ replicate (n - length l) x.

Definition setup_slot (function : BytecodeFunction) (args : list Value) (index : nat)
    (info : SlotInfo) : RunSlot :=
  if captured info then
    {| slot_value := Undefined; initialized := false; run_kind := slot_kind info |}
  else if (index <? parameter_count function)%nat && bool_decide (slot_kind info = Var) then
    {| slot_value := default Undefined (args !! index); initialized := true;
       run_kind := slot_kind info |}
  else if bool_decide (slot_kind info = Var) then
    {| slot_value := Undefined; initialized := true; run_kind := slot_kind info |}
  else
    {| slot_value := Undefined; initialized := false; run_kind := slot_kind info |}.

(** [CallFrame::setup]: takes the innermost pooled activation, if any. *)
Definition setup (pool : list ActivationBuffers) (function : BytecodeFunction) (this : Value)
    (args : list Value) : list ActivationBuffers * CallFrame :=
  let '(buffers, pool) :=
    match pop_of pool with Some p => p | None => (default_buffers, pool) end in
  (pool,
   {| ip := 0;
      registers := resize (buf_registers buffers) (register_count function) Undefined;
      run_slots := buf_slots buffers ++ imap (setup_slot function args) (slots function);
      this_value := this;
      handlers := buf_handlers buffers;
      pending := buf_pending buffers;
      enumerators := buf_enumerators buffers;
      scopes := buf_scopes buffers |}).

(** [recycle_activation]; [fits] is the test of the vectors' capacities. *)
Definition recycle_activation (pool : list ActivationBuffers) (fits : bool) (fr : CallFrame)
  : list ActivationBuffers :=
  if (length pool <? 16)%nat && fits then
    pool ++ [{| buf_registers := map (fun _ => Undefined) (registers fr);
                buf_slots := []; buf_handlers := []; buf_pending := [];
                buf_enumerators := []; buf_scopes := [] |}]
  else pool.

Section Vm.
Context `{Interpreter} (function : BytecodeFunction).

(** ** Frame access *)

Definition reg (r : nat) : M Value :=
  let! fr := frame in some_or_panic (registers fr !! r).

Definition set_registers (fr : CallFrame) (l : list Value) : CallFrame :=
  {| ip := ip fr; registers := l; run_slots := run_slots fr; this_value := this_value fr;
     handlers := handlers fr; pending := pending fr; enumerators := enumerators fr;
     scopes := scopes fr |}.
Definition set_slots (fr : CallFrame) (l : list RunSlot) : CallFrame :=
  {| ip := ip fr; registers := registers fr; run_slots := l; this_value := this_value fr;
     handlers := handlers fr; pending := pending fr; enumerators := enumerators fr;
     scopes := scopes fr |}.
Definition set_ip (fr : CallFrame) (n : nat) : CallFrame :=
  {| ip := n; registers := registers fr; run_slots := run_slots fr; this_value := this_value fr;
     handlers := handlers fr; pending := pending fr; enumerators := enumerators fr;
     scopes := scopes fr |}.
Definition set_handlers (fr : CallFrame) (l : list HandlerEntry) : CallFrame :=
  {| ip := ip fr; registers := registers fr; run_slots := run_slots fr;
     this_value := this_value fr; handlers := l; pending := pending fr;
     enumerators := enumerators fr; scopes := scopes fr |}.
Definition set_pending (fr : CallFrame) (l : list VmErr) : CallFrame :=
  {| ip := ip fr; registers := registers fr; run_slots := run_slots fr;
     this_value := this_value fr; handlers := handlers fr; pending := l;
     enumerators := enumerators fr; scopes := scopes fr |}.
Definition set_enumerators (fr : CallFrame) (l : list (nat * nat)) : CallFrame :=
  {| ip := ip fr; registers := registers fr; run_slots := run_slots fr;
     this_value := this_value fr; handlers := handlers fr; pending := pending fr;
     enumerators := l; scopes := scopes fr |}.
Definition set_scopes (fr : CallFrame) (l : list Env) : CallFrame :=
  {| ip := ip fr; registers := registers fr; run_slots := run_slots fr;
     this_value := this_value fr; handlers := handlers fr; pending := pending fr;
     enumerators := enumerators fr; scopes := l |}.

Definition set_reg (r : nat) (v : Value) : M unit :=
  let! fr := frame in
  if (r <? length (registers fr))%nat then put (set_registers fr (<[r := v]> (registers fr)))
  else panic.

Definition slot (s : nat) : M RunSlot :=
  let! fr := frame in some_or_panic (run_slots fr !! s).
Definition set_slot (s : nat) (x : RunSlot) : M unit :=
  let! fr := frame in
  if (s <? length (run_slots fr))%nat then put (set_slots fr (<[s := x]> (run_slots fr)))
  else panic.
(** [slot.value = value; slot.initialized = true] *)
Definition init_slot (s : nat) (v : Value) : M unit :=
  let! x := slot s in
  set_slot s {| slot_value := v; initialized := true; run_kind := run_kind x |}.

(** [frame.function.slots[slot].name] *)
Definition slot_info_name (s : nat) : M Text :=
  let! info := some_or_panic (slots function !! s) in ret (slot_name info).

Definition jump (t : nat) : M unit := let! fr := frame in put (set_ip fr t).

(** [frame.function.constants[k]] *)
Definition constant (k : nat) : M Constant := some_or_panic (constants function !! k).

Definition const_string (index : nat) : M Text :=
  match constants function !! index with
  | Some (CName name) => ret name
  | _ => throw (internal "bad string constant")
  end.

Definition current_scope : M Env :=
  let! fr := frame in
  match last_of (scopes fr) with
  | Some env => ret env
  | None => query global
  end.

Definition scope_strict : M bool := let! scope := current_scope in query (env_strict scope).

(** ** Helpers *)

Definition check_slot_writable (s : nat) : M unit :=
  let! info := slot s in
  let! name := slot_info_name s in
  if bool_decide (run_kind info = Const) && initialized info then
    throw (Msg (chars "TypeError: Assignment to constant variable '" ++ name ++ chars "'"))
  else if negb (initialized info) then throw (dead_zone name)
  else ret tt.

Definition compound_slot (s : nat) (op : AssignOp) (rhs : nat) : M Value :=
  match bin_op op with
  | None => throw (internal "plain `=` in compound slot")
  | Some bin =>
      let! info := slot s in
      (if negb (initialized info) then check_slot_writable s else ret tt) ;!
      let! info := slot s in
      let current := slot_value info in
      let! rhs := reg rhs in
      let! combined := ask (apply_binary bin current rhs) in
      check_slot_writable s ;!
      init_slot s combined ;!
      ret combined
  end.

(** [registers.get(start..end)] *)
Definition get_range {A} (l : list A) (start count : nat) : option (list A) :=
  if (start + count <=? length l)%nat then Some (take count (drop start l)) else None.

Definition borrow_range (start count : nat) : M (list Value) :=
  let! fr := frame in
  some_or (get_range (registers fr) start count) (internal "bad argument range").

Definition take_range (start count : nat) : M (list Value) :=
  let! fr := frame in
  some_or (get_range (registers fr) start count) (internal "operand range out of bounds").

(** A call is in tail position when only moves of its result and unconditional
    jumps separate it from a return. *)
Fixpoint returns_call_loop (fuel ip result : nat) : bool :=
  match fuel with
  | O => false
  | S fuel =>
      match code function !! ip with
      | Some (Control (Return src)) => (src =? result)%nat
      | Some (Data (Mov dst src)) =>
          if (src =? result)%nat then returns_call_loop fuel (ip + 1) dst
          else if (dst =? result)%nat then false
          else returns_call_loop fuel (ip + 1) result
      | Some (Control (Jump target)) => returns_call_loop fuel target result
      | _ => false
      end
  end.
Definition returns_call_result (fr : CallFrame) (result : nat) : bool :=
  match handlers fr with
  | _ :: _ => false
  | [] => returns_call_loop (length (code function)) (ip fr) result
  end.

Definition spread_template (tmpl : nat) : M (list SpreadEntry) :=
  match constants function !! tmpl with
  | Some (CSpreadTemplate entries) => ret entries
  | _ => throw (internal "bad spread template")
  end.

Definition too_many (l : list Value) : bool := MAX_ARRAY_LEN <=? Z.of_nat (length l).

Definition push_call_arg (args : list Value) (v : Value) : M (list Value) :=
  if too_many args then throw (limit_err "Maximum argument count exceeded")
  else ret (args ++ [v]).

Fixpoint push_call_args (args values : list Value) : M (list Value) :=
  match values with
  | [] => ret args
  | v :: values => let! args := push_call_arg args v in push_call_args args values
  end.

Fixpoint spread_argv (template : list SpreadEntry) (argv : list Value) : M (list Value) :=
  match template with
  | [] => ret argv
  | entry :: template =>
      let! value := reg (spread_reg entry) in
      let! argv :=
        (if prepared entry then
           match value with
           | Array cell => let! values := query (array_items cell) in push_call_args argv values
           | _ => throw (internal "spread snapshot is not an array")
           end
         else if spread entry then
           ask (append_iterable argv value (chars "Maximum argument count exceeded"))
         else push_call_arg argv value) in
      spread_argv template argv
  end.

Fixpoint spread_items (template : list SpreadEntry) (items : list Value) (present : list bool)
  : M (list Value * list bool) :=
  match template with
  | [] => ret (items, present)
  | entry :: template =>
      let! value := reg (spread_reg entry) in
      let! pair :=
        (if elision entry then ret (items ++ [Undefined], present ++ [false])
         else if prepared entry then
           match value with
           | Array cell =>
               let! values := query (array_items cell) in
               if MAX_ARRAY_LEN <? Z.of_nat (length items) + Z.of_nat (length values)
               then throw (limit_err "Maximum array length exceeded")
               else ret (items ++ values, present)
           | _ => throw (internal "spread snapshot is not an array")
           end
         else if spread entry then
           let! items := ask (append_iterable items value (chars "Maximum array length exceeded")) in
           ret (items, present)
         else ret (items ++ [value], present)) in
      let '(items, present) := pair in
      let present := resize present (length items) true in
      if MAX_ARRAY_LEN <? Z.of_nat (length items)
      then throw (limit_err "Maximum array length exceeded")
      else spread_items template items present
  end.
Definition spread_array (template : list SpreadEntry) : M Value :=
  let! pair := spread_items template [] [] in
  let '(items, present) := pair in
  ask (checked_array_with_presence items present).

(** The code points of a string as values; the slices cannot fail. *)
Fixpoint string_values (l : list (outcome unit JsString.JsString)) : M (list Value) :=
  match l with
  | [] => ret []
  | Ok s :: l => let! vs := string_values l in ret (String s :: vs)
  | _ :: _ => panic
  end.

Definition to_destruct_array (value : Value) : M Value :=
  match value with
  | Array cell => let! items := query (array_items cell) in query (new_array items)
  | Object _ => query (new_array [])
  | String s =>
      if MAX_ARRAY_LEN <? Z.of_nat (length (JsString.code_points s))
      then throw (limit_err "Maximum array length exceeded")
      else let! items := string_values (JsString.code_points s) in query (new_array items)
  | _ => query (new_array [])
  end.

Definition check_destruct_object (value : Value) : M Value :=
  match value with
  | Null => throw (Msg (chars "TypeError: Cannot destructure properties of null"))
  | Undefined => throw (Msg (chars "TypeError: Cannot destructure properties of undefined"))
  | _ => ret value
  end.

Definition rest_object (source taken : Value) : M Value :=
  match taken with
  | Array cell =>
      let! taken := query (array_items cell) in ask (copy_data_properties source taken)
  | _ => throw (internal "rest key list of non-array")
  end.

(** The parameter names are the leading slots of the function. *)
Definition make_function (f : BytecodeFunction) (closure : Env) (name_override : option Text)
  : M Value :=
  if (parameter_count f <=? length (slots f))%nat
  then query (new_function f (map slot_name (take (parameter_count f) (slots f))) closure
                name_override)
  else panic.

Definition make_ast_function (f : AstFunction) (closure : Env) (name_override : option Text)
  : M Value :=
  query (new_ast_function f closure name_override).

(** ** Object literals *)

Definition object_key (builder : nat) (key : KeySrc) : M Text :=
  match key with
  | KConst index => const_string index
  | KReg r =>
      let! v := reg r in
      match v with
      | String s => ret (JsString.to_key s)
      | Number n => query (ecmascript_number_string n)
      | Symbol s =>
          let! key := query (symbol_slot_key s) in
          query (builder_symbol_key builder key s) ;!
          ret key
      | _ => throw (internal "object template key was not normalized")
      end
  end.

Definition object_entry (home builder : nat) (prototype : option Value) (entry : PropEntry)
  : M (option Value) :=
  let! prototype :=
    match prop_kind entry with
    | PPrototype => let! v := reg (prop_val entry) in ret (Some v)
    | PSpread =>
        let! src := reg (prop_val entry) in
        ask (spread_entries builder src) ;!
        ret prototype
    | _ =>
        let! key_src := some_or (prop_key entry) (internal "spread-shaped data entry") in
        let! key := object_key builder key_src in
        let! value := reg (prop_val entry) in
        let! value :=
          match prop_kind entry with
          | PMethod | PGetter | PSetter => query (object_method_with_home value home)
          | _ => ret value
          end in
        let! kind :=
          match prop_kind entry with
          | PData | PMethod => ret None
          | PGetter => ret (Some AccessorGetter)
          | PSetter => ret (Some AccessorSetter)
          | PSpread | PPrototype => throw (internal "misrouted object template entry")
          end in
        query (insert_object_property builder key value kind) ;!
        ret prototype
    end in
  let! positions := query (builder_positions builder) in
  if MAX_OBJECT_PROPS <? Z.of_nat positions
  then throw (limit_err "Maximum object property count exceeded")
  else ret prototype.

Fixpoint object_entries (home builder : nat) (prototype : option Value) (l : list PropEntry)
  : M (option Value) :=
  match l with
  | [] => ret prototype
  | entry :: l =>
      let! prototype := object_entry home builder prototype entry in
      object_entries home builder prototype l
  end.

Definition build_object (template : list PropEntry) : M Value :=
  let! scope := current_scope in
  let! home := query (member_closure_env scope) in
  let! builder := query object_builder in
  let! prototype := object_entries home builder None template in
  let! result := ask (checked_object builder) in
  query (builder_finish builder result) ;!
  match prototype with
  | Some prototype => ask (initialize_literal_prototype result prototype)
  | None => ret tt
  end ;!
  query (initialize_object_home home result) ;!
  ret result.

(** ** Classes *)

Definition class_function (index : nat) (closure : Env) (name_override : option Text) : M Value :=
  let! closure := query (env_child closure) in
  query (env_replace_strict closure (Some true)) ;!
  match constants function !! index with
  | Some (CFunction f) => make_function f closure name_override
  | Some (CAstFunction f) => make_ast_function f closure name_override
  | _ => throw (internal "bad class function constant")
  end.

(** [ClassNameTemplate] as a key value. *)
Definition name_value (n : ClassNameTemplate) : M Value :=
  match n with
  | NStatic name | NPrivate name => ret (String (JsString.from_key name))
  | NComputed r => reg r
  end.
Definition is_private (n : ClassNameTemplate) : bool :=
  match n with NPrivate _ => true | _ => false end.

Fixpoint decorator_values (l : list (nat * option nat)) : M (list (Value * Value)) :=
  match l with
  | [] => ret []
  | (value, receiver) :: l =>
      let! value := reg value in
      let! receiver := match receiver with Some r => reg r | None => ret Undefined end in
      let! rest := decorator_values l in
      ret ((value, receiver) :: rest)
  end.

(** The local variables of the member walk. *)
Record ClassParts := {
  cp_private_statics : list (Text * PrivateElement);
  cp_proto_props : list (Text * Value);
  cp_proto_keys : list Value;
  cp_static_keys : list Value;
  cp_statics : list (Text * Value);
  cp_static_attrs : list (Text * PropAttrs);
  cp_static_has_accessors : bool;
  cp_method_definitions : list ClassMethodDefinition;
}.

Definition attrs (w e c : bool) : PropAttrs := {| writable := w; enumerable := e; configurable := c |}.

Definition initial_parts (template : ClassTemplate) : ClassParts := {|
  cp_private_statics := []; cp_proto_props := []; cp_proto_keys := []; cp_static_keys := [];
  cp_statics := [(chars "name", String (JsString.from_string (class_name template)))];
  cp_static_attrs := [(chars "name", attrs false false true)];
  cp_static_has_accessors := false; cp_method_definitions := [] |}.

(** The key list a public member's property goes to. *)
Definition add_key (p : ClassParts) (m : ClassMemberTemplate) (property : Value) : ClassParts :=
  if is_private (member_name m) then p
  else {| cp_private_statics := cp_private_statics p; cp_proto_props := cp_proto_props p;
          cp_proto_keys :=
            if member_is_static m then cp_proto_keys p else cp_proto_keys p ++ [property];
          cp_static_keys :=
            if member_is_static m then cp_static_keys p ++ [property] else cp_static_keys p;
          cp_statics := cp_statics p; cp_static_attrs := cp_static_attrs p;
          cp_static_has_accessors := cp_static_has_accessors p;
          cp_method_definitions := cp_method_definitions p |}.

Definition add_definition (p : ClassParts) (template : ClassTemplate) (m : ClassMemberTemplate)
    (property value : Value) : M ClassParts :=
  if has_method_decorators template then
    let! decorators := decorator_values (member_decorators m) in
    ret {| cp_private_statics := cp_private_statics p; cp_proto_props := cp_proto_props p;
           cp_proto_keys := cp_proto_keys p; cp_static_keys := cp_static_keys p;
           cp_statics := cp_statics p; cp_static_attrs := cp_static_attrs p;
           cp_static_has_accessors := cp_static_has_accessors p;
           cp_method_definitions := cp_method_definitions p ++
             [{| md_auto_decorator_field := auto_decorator_field m; md_kind := member_kind m;
                 md_key := property; md_private := is_private (member_name m);
                 md_is_static := member_is_static m; md_value := value;
                 md_decorators := decorators |}] |}
  else ret p.

Definition set_private (p : ClassParts) (l : list (Text * PrivateElement)) : ClassParts :=
  {| cp_private_statics := l; cp_proto_props := cp_proto_props p;
     cp_proto_keys := cp_proto_keys p; cp_static_keys := cp_static_keys p;
     cp_statics := cp_statics p; cp_static_attrs := cp_static_attrs p;
     cp_static_has_accessors := cp_static_has_accessors p;
     cp_method_definitions := cp_method_definitions p |}.
Definition set_statics (p : ClassParts) (l : list (Text * Value)) (attr : Text * PropAttrs)
    (accessors : bool) : ClassParts :=
  {| cp_private_statics := cp_private_statics p; cp_proto_props := cp_proto_props p;
     cp_proto_keys := cp_proto_keys p; cp_static_keys := cp_static_keys p;
     cp_statics := l; cp_static_attrs := cp_static_attrs p ++ [attr];
     cp_static_has_accessors := accessors; cp_method_definitions := cp_method_definitions p |}.
Definition set_proto (p : ClassParts) (l : list (Text * Value)) : ClassParts :=
  {| cp_private_statics := cp_private_statics p; cp_proto_props := l;
     cp_proto_keys := cp_proto_keys p; cp_static_keys := cp_static_keys p;
     cp_statics := cp_statics p; cp_static_attrs := cp_static_attrs p;
     cp_static_has_accessors := cp_static_has_accessors p;
     cp_method_definitions := cp_method_definitions p |}.

(** Where the function of a member goes: the private elements, the statics or
    the prototype. *)
Definition place_member (member_scope : Env) (p : ClassParts) (m : ClassMemberTemplate)
    (key : Text) (fn_val : Value) : M ClassParts :=
  let element :=
    match member_kind m with
    | MMethod => PrivateMethod fn_val
    | MGetter => PrivateAccessor (Some fn_val) None
    | MSetter => PrivateAccessor None (Some fn_val)
    end in
  let is_method := bool_decide (member_kind m = MMethod) in
  if is_private (member_name m) then
    let! l := ask (define_class_private_element member_scope (cp_private_statics p) key
                     (member_is_static m) element) in
    ret (set_private p l)
  else if member_is_static m then
    let! l := query (if is_method then insert_class_method (cp_statics p) key fn_val
                     else insert_class_accessor (cp_statics p) key fn_val) in
    ret (set_statics p l (key, attrs is_method false true)
           (if is_method then cp_static_has_accessors p else true))
  else
    let! l := query (if is_method then insert_class_method (cp_proto_props p) key fn_val
                     else insert_class_accessor (cp_proto_props p) key fn_val) in
    ret (set_proto p l).

Definition class_member (template : ClassTemplate) (member_scope member_closure static_closure : Env)
    (p : ClassParts) (m : ClassMemberTemplate) : M ClassParts :=
  let! property := name_value (member_name m) in
  match auto_accessor_storage m with
  | Some storage => query (env_declare member_scope storage property Const true)
  | None => ret tt
  end ;!
  (if member_is_static m && negb (is_private (member_name m))
   then ask (check_static_method_key property) else ret tt) ;!
  let! key := ask (property_key property) in
  let! display_name := ask (property_function_name property) in
  let p := add_key p m property in
  let prefix :=
    match member_kind m with MMethod => "" | MGetter => "get " | MSetter => "set " end%string in
  let display :=
    match member_name m with NComputed _ => Some (chars prefix ++ display_name) | _ => None end in
  let closure := if member_is_static m then static_closure else member_closure in
  let! func := some_or (member_func m)
    (internal (if bool_decide (member_kind m = MMethod) then "method without function"
               else "accessor without function")) in
  let! fn_val := class_function func closure display in
  let! p := add_definition p template m property fn_val in
  place_member member_scope p m key fn_val.

Fixpoint class_members (template : ClassTemplate) (member_scope member_closure static_closure : Env)
    (p : ClassParts) (l : list ClassMemberTemplate) : M ClassParts :=
  match l with
  | [] => ret p
  | m :: l =>
      let! p := class_member template member_scope member_closure static_closure p m in
      class_members template member_scope member_closure static_closure p l
  end.

Fixpoint bind_computed_keys (ctor_closure : Env) (index : nat) (l : list nat) : M unit :=
  match l with
  | [] => ret tt
  | r :: l =>
      let! key := reg r in
      query (env_set ctor_closure (class_key_name index) key) ;!
      bind_computed_keys ctor_closure (S index) l
  end.

Fixpoint static_elements (l : list ClassStaticTemplate) : M (list ClassStaticElement) :=
  match l with
  | [] => ret []
  | b :: l =>
      let! e :=
        match b with
        | SBlock index =>
            match constants function !! index with
            | Some (CAstFunction ast) => ret (StaticBlock (ast_body ast))
            | _ => throw (internal "bad class static block")
            end
        | SField name init =>
            let! key := name_value name in ret (StaticField key (is_private name) init)
        end in
      let! rest := static_elements l in
      ret (e :: rest)
  end.

Fixpoint field_definitions (l : list ClassFieldDecoratorTemplate) : M (list ClassFieldDefinition) :=
  match l with
  | [] => ret []
  | d :: l =>
      let! key := name_value (field_name d) in
      let! decorators := decorator_values (field_decorators_list d) in
      let! rest := field_definitions l in
      ret ({| fd_key := key; fd_private := is_private (field_name d);
              fd_is_static := field_is_static d; fd_index := field_index d;
              fd_decorators := decorators |} :: rest)
  end.

(** [member_closure_env] with the strict flag set. *)
Definition strict_closure (scope : Env) : M Env :=
  let! env := query (member_closure_env scope) in
  query (env_replace_strict env (Some true)) ;!
  ret env.

Definition build_class_from_template (template : ClassTemplate) : M Value :=
  let! member_scope := current_scope in
  let! super_cls :=
    match superclass template with
    | Some r => let! v := reg r in ret (Some v)
    | None => ret None
    end in
  let! super_proto :=
    match super_proto template with
    | Some r =>
        let! v := reg r in
        ret (match v with Undefined => None | _ => Some v end)
    | None => ret None
    end in
  let! member_closure := strict_closure member_scope in
  let! static_closure := strict_closure member_scope in
  let! p := class_members template member_scope member_closure static_closure
              (initial_parts template) (members template) in
  let! ctor_closure := query (env_child member_closure) in
  bind_computed_keys ctor_closure 0 (ctor_computed_keys template) ;!
  let! constructor := class_function (ctor_func template) ctor_closure None in
  let! elements := static_elements (blocks template) in
  let! fields := field_definitions (field_decorators template) in
  let! decorators := decorator_values (class_decorators template) in
  ask (assemble_class {|
    ca_field_definitions := fields;
    ca_method_definitions := cp_method_definitions p;
    ca_decorators := decorators;
    ca_source_text := class_source_text template;
    ca_name := class_name template;
    ca_super_cls := super_cls;
    ca_super_proto := super_proto;
    ca_constructor := constructor;
    ca_constructor_length := ctor_length template;
    ca_proto_props := cp_proto_props p;
    ca_proto_keys := cp_proto_keys p;
    ca_static_keys := cp_static_keys p;
    ca_statics := cp_statics p;
    ca_static_attrs := cp_static_attrs p;
    ca_static_has_accessors := cp_static_has_accessors p;
    ca_static_elements := elements;
    ca_private_scope := member_scope;
    ca_instance_home := member_closure;
    ca_static_home := static_closure;
    ca_constructor_home := ctor_closure;
    ca_private_statics := cp_private_statics p |}).

(** ** Instructions *)

Definition load_const (c : Constant) : M Value :=
  match c with
  | CNumber n => ret (Number n)
  | CString s => ret (String s)
  | CName s => ret (String (JsString.from_key s))
  | CBool b => ret (Bool b)
  | CNull => ret Null
  | CUndefined => ret Undefined
  | CBigInt v => ret (BigIntValue v)
  | CRegex pattern flags compiled =>
      let! cell := query (regex_compiled compiled) in
      match cell with
      | Some regex => query (regex_from_compiled regex)
      | None =>
          let! value := ask (compile_regex pattern flags) in
          match value with
          | RegExp data => query (regex_set_compiled compiled data)
          | _ => ret tt
          end ;!
          ret value
      end
  | _ => throw (internal "invalid load_const")
  end.

Definition exec_data (i : DataInstr) : M unit :=
  match i with
  | LoadConst dst cst =>
      let! c := constant cst in
      let! value := load_const c in
      set_reg dst value
  | Mov dst src => let! value := reg src in set_reg dst value
  | LoadLocal dst s =>
      let! x := slot s in
      if negb (initialized x)
      then let! name := slot_info_name s in throw (dead_zone name)
      else set_reg dst (slot_value x)
  | StoreLocal s src =>
      check_slot_writable s ;!
      let! value := reg src in
      init_slot s value
  | DeclareLocal s kind init =>
      set_slot s {| slot_value := Undefined; initialized := init; run_kind := kind |}
  | InitLocal s src => let! value := reg src in init_slot s value
  | CheckClassStaticKey key => let! v := reg key in ask (check_static_method_key v)
  | LoadCallBinding dst receiver name =>
      let! name := const_string name in
      let! scope := current_scope in
      let! r := ask (read_call_binding scope name) in
      set_reg dst r.1 ;! set_reg receiver r.2
  | ResolveAssignmentBinding base property name =>
      let! name := const_string name in
      let! scope := current_scope in
      let! r := ask (resolve_assignment_binding scope name) in
      set_reg base r.1 ;! set_reg property (Bool r.2)
  | ReadAssignmentBinding dst base property name =>
      let! name := const_string name in
      let! scope := current_scope in
      let! r := ask (read_assignment_binding scope name) in
      set_reg base r.1.1 ;! set_reg property (Bool r.1.2) ;! set_reg dst r.2
  | WriteAssignmentBinding base property name src =>
      let! base := reg base in
      let! property := reg property in
      let! is_property := query (is_truthy property) in
      let! name := const_string name in
      let! value := reg src in
      ask (write_assignment_binding base is_property name value)
  | WriteAssignmentProperty obj key src private =>
      if private then
        let! key := reg key in
        let! name := ask (property_key key) in
        let! scope := current_scope in
        let! obj := reg obj in
        let! value := reg src in
        ask (set_private_member_in scope obj name value)
      else
        let! strict := scope_strict in
        let! obj := reg obj in
        let! key := reg key in
        let! value := reg src in
        ask (assign_property_with_receiver obj key value obj strict)
  | LoadGlobal dst name_index =>
      let! name := const_string name_index in
      let! scope := current_scope in
      let! lookup :=
        (if (name_index <? global_read_slots function)%nat
         then ask (lookup_binding_cached scope name name_index)
         else ask (lookup_binding_in scope name)) in
      match lookup with
      | LookupValue v => set_reg dst v
      | LookupUninitialized => throw (dead_zone name)
      | LookupMissing =>
          if bool_decide (name = chars "undefined") then set_reg dst Undefined
          else throw (Msg (chars "ReferenceError: " ++ name ++ chars " is not defined"))
      end
  | StoreGlobal name_index src =>
      let! name := const_string name_index in
      let! value := reg src in
      let! scope := current_scope in
      if (name_index <? global_read_slots function)%nat
      then ask (assign_or_set_binding_cached scope name value name_index)
      else ask (assign_or_set_binding_in scope name value)
  | DefineGlobal name src kind init =>
      let! name := const_string name in
      let! value := reg src in
      let! scope := current_scope in
      ask (declare_binding_in scope name value kind init)
  | InitGlobal name src is_function =>
      let! name := const_string name in
      let! value := reg src in
      let! scope := current_scope in
      if is_function then ask (declare_function_binding_in scope name value)
      else ask (set_binding_in scope name value)
  | AnnexBInit name =>
      let! name := const_string name in
      let! scope := current_scope in
      ask (init_compiled_annex scope name)
  | AnnexBUpdate name src s =>
      let! name := const_string name in
      let! scope := current_scope in
      let! value := reg src in
      let! updated := ask (update_compiled_annex scope name value) in
      match s with
      | Some s => if updated then init_slot s value else ret tt
      | None => ret tt
      end
  | HoistVarGlobal name =>
      let! name := const_string name in
      let! scope := current_scope in
      ask (hoist_var_binding_in scope name)
  | BareVarLocal s =>
      let! x := slot s in
      if negb (initialized x)
      then let! name := slot_info_name s in throw (dead_zone name)
      else ret tt
  | BareVarGlobal name =>
      let! name := const_string name in
      let! scope := query global in
      let! found := query (env_get scope name) in
      match found with
      | None => ask (assign_or_set_binding name Undefined)
      | Some _ => ret tt
      end
  | LoadThis dst => let! fr := frame in set_reg dst (this_value fr)
  | LoadGlobalThis dst =>
      let! scope := current_scope in
      let! v := ask (resolve_this scope) in
      set_reg dst v
  | TypeofGlobal dst name =>
      let! name := const_string name in
      let! scope := current_scope in
      let! lookup := ask (lookup_binding_in scope name) in
      let! value :=
        match lookup with
        | LookupValue value => ret value
        | LookupMissing => ret Undefined
        | LookupUninitialized => throw (dead_zone name)
        end in
      let! r := ask (un_op Typeof value) in
      set_reg dst r
  | TypeofLocal dst s =>
      let! x := slot s in
      if negb (initialized x)
      then let! name := slot_info_name s in throw (dead_zone name)
      else let! r := ask (un_op Typeof (slot_value x)) in set_reg dst r
  end.

(** The fast paths of [Binary]: two strings under addition, and two numbers. *)
Definition exec_binary (op : BinOp) (l r : Value) : M Value :=
  match op, l, r with
  | Add, String a, String b => ask (concat_strings a b)
  | _, Number a, Number b =>
      let! fast := query (number_binary op a b) in
      match fast with
      | Some value => ret value
      | None => ask (apply_binary op l r)
      end
  | _, _, _ => ask (apply_binary op l r)
  end.

Definition exec_operator (i : OperatorInstr) : M unit :=
  match i with
  | Binary dst op lhs rhs =>
      let! l := reg lhs in
      let! r := reg rhs in
      let! value := exec_binary op l r in
      set_reg dst value
  | Unary dst op src =>
      let! v := reg src in
      let! r := ask (un_op op v) in
      set_reg dst r
  | CompoundLocal dst s op rhs => let! value := compound_slot s op rhs in set_reg dst value
  | CompoundGlobal dst name op rhs =>
      let! name := const_string name in
      let! rhs := reg rhs in
      let! scope := current_scope in
      let! value := ask (compound_assign_global_in scope name op rhs) in
      set_reg dst value
  | CompoundProp dst obj key op rhs =>
      match bin_op op with
      | None => throw (internal "plain `=` in compound prop")
      | Some bin =>
          let! obj := reg obj in
          let! key := reg key in
          let! rhs := reg rhs in
          let! value := ask (compound_assign_prop obj key bin rhs) in
          set_reg dst value
      end
  | IncLocal dst s delta prefix =>
      check_slot_writable s ;!
      let! x := slot s in
      let current := slot_value x in
      let! pair :=
        match current with
        | Number n => ret (current, Number (step_number n delta))
        | _ => ask (numeric_update current (0 <? delta))
        end in
      init_slot s pair.2 ;!
      set_reg dst (if prefix then pair.2 else pair.1)
  | IncGlobal dst name delta prefix =>
      let! name := const_string name in
      let! scope := current_scope in
      let! value := ask (inc_global_binding_in scope name (0 <? delta) prefix) in
      set_reg dst value
  | IncProp dst obj key delta prefix =>
      let! strict := scope_strict in
      let! obj := reg obj in
      let! key := reg key in
      let! value := ask (inc_prop_value obj key (0 <? delta) prefix strict) in
      set_reg dst value
  | DelProp dst obj key =>
      let! obj := reg obj in
      let! key := reg key in
      let! strict := scope_strict in
      let! r := ask (delete_member_or_throw obj key strict) in
      set_reg dst r
  | DelGlobal dst name =>
      let! name := const_string name in
      let! scope := current_scope in
      let! r := ask (delete_binding_in scope name) in
      set_reg dst r
  end.

Definition is_nullish (v : Value) : bool :=
  match v with Null | Undefined => true | _ => false end.

Definition exec_control (i : ControlInstr) : M unit :=
  match i with
  | Jump target => jump target
  | JumpIfTrue src target =>
      let! v := reg src in
      let! t := query (truthy v) in
      if t then jump target else ret tt
  | JumpIfFalse src target =>
      let! v := reg src in
      let! t := query (truthy v) in
      if negb t then jump target else ret tt
  | JumpIfNullish src target =>
      let! v := reg src in if is_nullish v then jump target else ret tt
  | JumpIfNotNullish src target =>
      let! v := reg src in if negb (is_nullish v) then jump target else ret tt
  | LoopHead => ask consume_loop ;! query note_loop_iter
  | Return src =>
      let! value := reg src in
      let! value := ask (prepare_return_value value) in
      throw (Ret value)
  | ReturnUndefined => throw (Ret Undefined)
  | Throw src => let! v := reg src in throw (ThrowErr v)
  end.

(** [interp.tail_call_context && returns_call_result(frame, dst)] *)
Definition in_tail_position (dst : nat) : M bool :=
  let! context := query tail_call_context in
  let! fr := frame in
  ret (context && returns_call_result fr dst).

(** The shared end of [DirectEval] and [DirectEvalSpread]. *)
Definition direct_eval (dst callee : nat) (this : option nat) (argv : list Value) : M unit :=
  let! callee := reg callee in
  let! this := match this with Some r => reg r | None => ret Undefined end in
  let! intrinsic := query (is_intrinsic_eval callee) in
  if intrinsic then let! v := ask (eval_direct argv) in set_reg dst v
  else
    let! tail := in_tail_position dst in
    if tail then ask (request_tail_call callee this argv)
    else let! v := ask (call_this callee this argv) in set_reg dst v.

Definition exec_property (i : PropertyInstr) : M unit :=
  match i with
  | GetProp private cache dst obj key =>
      if private then
        let! key := reg key in
        let! name := ask (property_key key) in
        let! scope := current_scope in
        let! obj := reg obj in
        let! v := ask (get_private_member_in scope obj name) in
        set_reg dst v
      else
        let! obj := reg obj in
        let! key := reg key in
        if (cache <? caches function)%nat
        then let! v := ask (get_prop_cached cache obj key) in set_reg dst v
        else panic
  | SetProp cache obj key val =>
      let! val := reg val in
      let! strict := scope_strict in
      let! obj := reg obj in
      let! key := reg key in
      if (cache <? caches function)%nat
      then ask (set_prop_cached cache obj key val strict)
      else panic
  | DirectEval dst callee this args argc =>
      let! argv := take_range args argc in
      direct_eval dst callee this argv
  | DirectEvalSpread dst callee this tmpl =>
      let! template := spread_template tmpl in
      let! argv := spread_argv template [] in
      direct_eval dst callee this argv
  | Call dst callee args argc =>
      let! argv := borrow_range args argc in
      let! tail := in_tail_position dst in
      let! callee := reg callee in
      if tail then ask (request_tail_call callee Undefined argv)
      else let! v := ask (call_this_borrowed callee Undefined argv) in set_reg dst v
  | CallMethod dst callee this args argc =>
      let! argv := borrow_range args argc in
      let! this := reg this in
      let! tail := in_tail_position dst in
      let! callee := reg callee in
      if tail then ask (request_tail_call callee this argv)
      else let! v := ask (call_this_borrowed callee this argv) in set_reg dst v
  | Construct dst callee args argc =>
      let! argv := take_range args argc in
      let! callee := reg callee in
      let! v := ask (ctor callee argv) in
      set_reg dst v
  | ExpandSpread dst src =>
      let! source := reg src in
      let! values := ask (drain_iterable source) in
      let! v := ask (checked_array values) in
      set_reg dst v
  | ConstructSpread dst callee tmpl =>
      let! template := spread_template tmpl in
      let! argv := spread_argv template [] in
      let! callee := reg callee in
      let! v := ask (ctor callee argv) in
      set_reg dst v
  | CallSpread dst callee tmpl =>
      let! template := spread_template tmpl in
      let! argv := spread_argv template [] in
      let! callee := reg callee in
      let! tail := in_tail_position dst in
      if tail then ask (request_tail_call callee Undefined argv)
      else let! v := ask (call_this callee Undefined argv) in set_reg dst v
  | MethodSpread dst callee this tmpl =>
      let! template := spread_template tmpl in
      let! argv := spread_argv template [] in
      let! callee := reg callee in
      let! this := reg this in
      let! tail := in_tail_position dst in
      if tail then ask (request_tail_call callee this argv)
      else let! v := ask (call_this callee this argv) in set_reg dst v
  | BuildArray dst tmpl =>
      let! template := spread_template tmpl in
      let! v := spread_array template in
      set_reg dst v
  | NewObject _ | SetOwnProp _ _ _ =>
      throw (internal "incremental object construction is retired")
  | NormalKey dst src =>
      let! v := reg src in
      let! key :=
        match v with
        | String s => ret (String s)
        | Number n =>
            let! t := query (number_to_string n) in ret (String (JsString.from_string t))
        | Symbol s =>
            let! t := query (symbol_slot_key s) in ret (String (JsString.from_string t))
        | _ => ret Undefined
        end in
      set_reg dst key
  | LoadGlobalSoft dst name =>
      let! name := const_string name in
      let! scope := current_scope in
      let! found := query (env_get scope name) in
      set_reg dst (default Undefined found)
  | LoadLocalSoft dst s =>
      let! x := slot s in
      set_reg dst (if initialized x then slot_value x else Undefined)
  | BuildObject dst tmpl =>
      let! c := constant tmpl in
      match c with
      | CObjectTemplate entries => let! v := build_object entries in set_reg dst v
      | _ => throw (internal "bad object template")
      end
  | LoadTemplate dst site =>
      let! v := query (cached_template_object site) in
      set_reg dst (default Undefined v)
  | FreezeTemplate site cooked raw =>
      let! raw := reg raw in
      let! value := reg cooked in
      match value with
      | Array _ => let! v := query (cache_template_object site value raw) in set_reg cooked v
      | _ => throw (internal "template object is not an array")
      end
  | NewArray dst args argc =>
      let! items := take_range args argc in
      let! v := ask (checked_array items) in
      set_reg dst v
  | MakeFunction dst func =>
      let! c := constant func in
      match c with
      | CFunction f =>
          let! scope := current_scope in
          let! v := make_function f scope None in
          set_reg dst v
      | _ => throw (internal "bad function constant")
      end
  | MakeAstFunction dst ast =>
      let! c := constant ast in
      match c with
      | CAstFunction f =>
          let! scope := current_scope in
          let! v := make_ast_function f scope None in
          set_reg dst v
      | _ => throw (internal "bad ast-function constant")
      end
  | Template dst quasis args argc =>
      let! c := constant quasis in
      match c with
      | CStringList quasis =>
          let! values := take_range args argc in
          let! v := ask (render_template quasis values) in
          set_reg dst v
      | _ => throw (internal "bad template constant")
      end
  end.

Definition push_handler (target dst : nat) (catch_returns : bool) : M unit :=
  let! fr := frame in
  put (set_handlers fr (handlers fr ++
    [{| target := target; dst := dst; catch_returns := catch_returns;
        scope_depth := length (scopes fr); pending_depth := length (pending fr);
        enumerator_depth := length (enumerators fr) |}])).

Definition exec_unwind (i : UnwindInstr) : M unit :=
  match i with
  | ToDestructArray dst src =>
      let! v := reg src in
      let! r := to_destruct_array v in
      set_reg dst r
  | RestArray dst src from =>
      let! v := reg src in
      match v with
      | Array cell =>
          let! items := query (array_items cell) in
          let! r := query (new_array (drop from items)) in
          set_reg dst r
      | _ => throw (internal "rest of non-array")
      end
  | CheckDestructObject dst src =>
      let! v := reg src in
      let! r := check_destruct_object v in
      set_reg dst r
  | RestObject dst src taken =>
      let! source := reg src in
      let! taken := reg taken in
      let! r := rest_object source taken in
      set_reg dst r
  | EnumKeys dst src =>
      let! source := reg src in
      let! e := ask (for_in_new source) in
      let! fr := frame in
      put (set_enumerators fr (enumerators fr ++ [(dst, e)]))
  | EnumNext state dst done =>
      let! fr := frame in
      let! entry := some_or (last_of (enumerators fr)) (internal "missing for-in enumerator") in
      if negb (entry.1 =? state)%nat then throw (internal "for-in enumerator mismatch")
      else
        let! key := ask (for_in_next entry.2) in
        set_reg done (Bool (match key with None => true | Some _ => false end)) ;!
        set_reg dst (match key with
                     | None => Undefined
                     | Some key => String (JsString.from_key key)
                     end)
  | EnumEnd state =>
      let! fr := frame in
      match pop_of (enumerators fr) with
      | None => throw (internal "missing for-in enumerator")
      | Some (entry, rest) =>
          put (set_enumerators fr rest) ;!
          if negb (entry.1 =? state)%nat then throw (internal "for-in enumerator mismatch")
          else ret tt
      end
  | ForOfInit iter next src =>
      let! source := reg src in
      let! iterator := ask (iterator_for source) in
      let! next_fn := ask (member iterator (chars "next")) in
      match next_fn with
      | Undefined => throw (Msg (chars "TypeError: iterator has no next() method"))
      | _ => set_reg iter iterator ;! set_reg next next_fn
      end
  | IterNext done value iter next =>
      let! iterator := reg iter in
      let! next_fn := reg next in
      let! result := ask (call_this next_fn iterator []) in
      let! fields := ask (iterator_result_fields result) in
      set_reg done (Bool fields.1) ;! set_reg value fields.2
  | CloseIterator src unwind =>
      let! iterator := reg src in
      if unwind then
        let! fr := frame in
        let! completion := some_or (last_of (pending fr))
          (internal "iterator unwind without a pending completion") in
        ask (close_guest_iterator_for_abrupt iterator false completion)
      else ask (close_guest_iterator iterator false)
  | PushCatch target dst => push_handler target dst false
  | PushFinally target dst => push_handler target dst true
  | PopHandler =>
      let! fr := frame in
      match pop_of (handlers fr) with
      | None => throw (internal "handler stack underflow")
      | Some (_, rest) => put (set_handlers fr rest)
      end
  | PopPending =>
      let! fr := frame in
      match pop_of (pending fr) with
      | None => throw (internal "pending completion stack underflow")
      | Some (_, rest) => put (set_pending fr rest)
      end
  | Rethrow =>
      let! fr := frame in
      match pop_of (pending fr) with
      | None => throw (internal "rethrow without a pending error")
      | Some (error, rest) => put (set_pending fr rest) ;! throw error
      end
  end.

Definition push_scope (env : Env) : M unit :=
  let! fr := frame in put (set_scopes fr (scopes fr ++ [env])).

Definition exec_class (i : ClassInstr) : M unit :=
  match i with
  | SuperMember dst key =>
      let! scope := current_scope in
      let! key := reg key in
      let! r := ask (super_reference scope key) in
      let! v := ask (get_prop_value_with_receiver r.1.1 r.2 r.1.2) in
      set_reg dst v
  | SuperReference base receiver key src =>
      let! source := reg src in
      let! scope := current_scope in
      let! r := ask (super_reference scope source) in
      set_reg base r.1.1 ;! set_reg receiver r.1.2 ;! set_reg key r.2
  | GetPropertyWithReceiver dst base receiver key =>
      let! base := reg base in
      let! key := reg key in
      let! receiver := reg receiver in
      let! v := ask (get_prop_value_with_receiver base key receiver) in
      set_reg dst v
  | SetPropertyWithReceiver base receiver key value =>
      let! base := reg base in
      let! key := reg key in
      let! value := reg value in
      let! receiver := reg receiver in
      let! strict := scope_strict in
      ask (assign_property_with_receiver base key value receiver strict)
  | NumericUpdate previous updated src increment =>
      let! v := reg src in
      let! r := ask (numeric_update v increment) in
      set_reg previous r.1 ;! set_reg updated r.2
  | SuperConstructor dst =>
      let! scope := current_scope in
      let! v := ask (super_constructor scope) in
      set_reg dst v
  | SuperCall dst callee args argc =>
      let! callee := reg callee in
      let! argv := take_range args argc in
      let! v := ask (invoke_ctor callee Undefined argv) in
      set_reg dst v
  | SuperCallSpread dst callee tmpl =>
      let! callee := reg callee in
      let! template := spread_template tmpl in
      let! argv := spread_argv template [] in
      let! v := ask (invoke_ctor callee Undefined argv) in
      set_reg dst v
  | Raise msg => let! message := const_string msg in throw (Msg message)
  | BuildClass dst tmpl =>
      let! c := constant tmpl in
      match c with
      | CClassTemplate template =>
          let! v := build_class_from_template template in set_reg dst v
      | _ => throw (internal "bad class template")
      end
  | PropertyKey dst src =>
      let! v := reg src in
      let! r := ask (ecmascript_to_property_key v) in
      set_reg dst r
  | InferName dst key =>
      let! key := reg key in
      let! v := reg dst in
      let! r := ask (apply_inferred_name v key) in
      set_reg dst r
  | ClassScope name =>
      let! name := match name with Some k => const_string k | None => ret [] end in
      let! scope := current_scope in
      let! env := query (class_environment scope name) in
      push_scope env
  | ClassPrivateEnvironment names =>
      let! c := constant names in
      match c with
      | CStringList names =>
          let! scope := current_scope in
          query (declare_private_declarations scope (map (fun n => (JsString.as_str n).1) names))
      | _ => throw (internal "bad private declaration list")
      end
  | ClassHeritage dst superclass =>
      let! superclass := reg superclass in
      let! proto := ask (super_proto_for (Some superclass)) in
      set_reg dst (default Undefined proto)
  | PrivateIn dst obj name =>
      let! name := const_string name in
      let! scope := current_scope in
      let! obj := reg obj in
      let! v := ask (has_private_member_in scope obj name) in
      set_reg dst v
  | Import tmpl =>
      let! c := constant tmpl in
      match c with
      | CImportTemplate template => ask (stmt_import template)
      | _ => throw (internal "bad import template")
      end
  | ExportDefault src => let! v := reg src in ask (stmt_export_default v)
  | ExportNamed tmpl =>
      let! c := constant tmpl in
      match c with
      | CExportNamedTemplate template =>
          ask (stmt_export_named (export_specifiers template) (export_source template))
      | _ => throw (internal "bad export template")
      end
  | ExportAll tmpl =>
      let! c := constant tmpl in
      match c with
      | CExportAllTemplate template =>
          ask (stmt_export_all (all_source template) (all_alias template))
      | _ => throw (internal "bad export template")
      end
  | DynamicImport dst src =>
      let! specifier := reg src in
      let! v := ask (eval_dynamic_import specifier) in
      set_reg dst v
  | Await dst src =>
      let! value := reg src in
      let! v := ask (perform_await value) in
      set_reg dst v
  | NewTarget dst =>
      let! scope := query global in
      let! t := query (env_new_target scope) in
      let! v := some_or t (Msg (chars "SyntaxError: new.target outside a function")) in
      set_reg dst v
  | ImportMeta dst => let! v := ask eval_import_meta in set_reg dst v
  | PushScope =>
      let! parent := current_scope in
      let! env := query (env_child parent) in
      push_scope env
  | PopScope =>
      let! fr := frame in
      match pop_of (scopes fr) with
      | None => throw (internal "scope stack underflow")
      | Some (_, rest) => put (set_scopes fr rest)
      end
  end.

(** The [match] of [execute_instruction]. *)
Definition dispatch (instr : Instr) : M unit :=
  match instr with
  | Data i => exec_data i
  | Operator i => exec_operator i
  | Control i => exec_control i
  | Property i => exec_property i
  | Unwind i => exec_unwind i
  | Class i => exec_class i
  end.

Definition execute_instruction (instr : Instr) : M unit :=
  ask (consume_fuel (cost instr)) ;!
  (let! fr := frame in put (set_ip fr (ip fr + 1))) ;!
  dispatch instr.

(** ** Handlers and the dispatch loop *)

(** The handlers an unwinding [return] passes: it stops at a finally handler. *)
Fixpoint skip_catches (rev_handlers : list HandlerEntry) : option (HandlerEntry * list HandlerEntry) :=
  match rev_handlers with
  | [] => None
  | h :: rest => if catch_returns h then Some (h, rest) else skip_catches rest
  end.

Definition is_ret (e : VmErr) : bool := match e with Ret _ => true | _ => false end.

Definition catchable (e : VmErr) : bool :=
  match e with
  | ThrowErr _ | Msg _ | RuntimeError _ | Ret _ => true
  | _ => false
  end.

(** The handler that takes the error, popped with those above it. *)
Definition take_handler (l : list HandlerEntry) (error : VmErr)
  : option (HandlerEntry * list HandlerEntry) :=
  let found :=
    if is_ret error then skip_catches (rev l)
    else match rev l with [] => None | h :: rest => Some (h, rest) end in
  match found with
  | Some (h, rest) => Some (h, rev rest)
  | None => None
  end.

Definition landing_value (error : VmErr) : M Value :=
  match error with
  | ThrowErr value => ret value
  | Msg message => query (error_value_with_stack message)
  | RuntimeError data => query (guest_value data)
  | Ret _ => ret Undefined
  | _ => panic
  end.

Definition land_handler (error : VmErr) : M unit :=
  if is_abandon error then throw error
  else if negb (catchable error) then throw error
  else
    let! fr := frame in
    match take_handler (handlers fr) error with
    | None => put (set_handlers fr []) ;! throw error
    | Some (entry, rest) =>
        put (set_handlers fr rest) ;!
        let! value := landing_value error in
        set_reg (dst entry) value ;!
        let! fr := frame in
        let fr := set_pending fr (take (pending_depth entry) (pending fr)) in
        let fr := set_enumerators fr (take (enumerator_depth entry) (enumerators fr)) in
        let fr := if catch_returns entry then set_pending fr (pending fr ++ [error]) else fr in
        let fr := set_scopes fr (take (scope_depth entry) (scopes fr)) in
        put (set_ip fr (target entry))
    end.

(** One turn of [run_loop]: [Some v] when the loop returns a value. *)
Definition run_step (top_level : bool) : M (option Value) :=
  let! fr := frame in
  match code function !! ip fr with
  | None =>
      if (ip fr =? length (code function))%nat then
        ret (Some (if top_level then default Undefined (registers fr !! 0%nat) else Undefined))
      else throw (internal "instruction pointer out of bounds")
  | Some instr =>
      fun st fr =>
        match execute_instruction instr st fr with
        | (Err error, st, fr) => (let! _ := land_handler error in ret None) st fr
        | (Ok _, st, fr) => (Ok None, st, fr)
        | (Panic, st, fr) => (Panic, st, fr)
        end
  end.

(** [run_loop] for at most [n] turns; [None] when they are used up. *)
Fixpoint run_loop (n : nat) (top_level : bool) : M (option Value) :=
  match n with
  | O => ret None
  | S n =>
      let! r := run_step top_level in
      match r with
      | Some v => ret (Some v)
      | None => run_loop n top_level
      end
  end.

End Vm.
End Vm.
