(* ===== verification/VmSafety.v ===== *)
(** Verified code cannot drive the machine out of its tables: for every
    behaviour of the interpreter's methods, a well-formed function run from a
    well-formed frame never panics and keeps the frame well formed. *)
From stdpp Require Import prelude list strings.
From Stdlib Require Import ZArith Lia SpecFloat.
From S2P Require Import Prelude JsString BigInt Opcode Verify VerifySpec VerifyTheorems Machine Vm.
Import Opcode Verify Machine Vm.
Local Open Scope Z_scope.
Local Open Scope vm_scope.

(** ** Frames *)

(** The tables of a frame have the sizes its function declares, its handlers
    name registers and addresses of that function, and the instruction pointer
    is in the code or at its end. *)
Record frame_ok (f : BytecodeFunction) (fr : CallFrame) : Prop := {
  ok_registers : length (registers fr) = register_count f;
  ok_slots : length (run_slots fr) = local_count f;
  ok_handlers : Forall (fun h => (dst h < register_count f)%nat /\
                                 (target h <= length (code f))%nat) (handlers fr);
  ok_ip : (ip fr <= length (code f))%nat;
}.

Section Safety.
Context `{Interpreter} (f : BytecodeFunction).

(** A computation is safe when it does not panic and leaves a well-formed frame
    behind, whatever it returns; [P] is what its result satisfies. *)
Definition safe {A} (m : M A) (P : A -> Prop) : Prop :=
  forall st fr, frame_ok f fr ->
    match m st fr with
    | (Ok x, _, fr) => frame_ok f fr /\ P x
    | (Err _, _, fr) => frame_ok f fr
    | (Panic, _, _) => False
    end.

Abbreviation anything := (fun _ => True) (only parsing).

Lemma safe_weaken {A} (m : M A) (P Q : A -> Prop) :
  safe m P -> (forall x, P x -> Q x) -> safe m Q.
Proof.
  intros Hm HPQ st fr Hfr. specialize (Hm st fr Hfr).
  destruct (m st fr) as [[[x|e|] st'] fr']; naive_solver.
Qed.

Lemma safe_ret {A} (x : A) (P : A -> Prop) : P x -> safe (ret x) P.
Proof. by intros HP st fr Hfr. Qed.

Lemma safe_throw {A} e (P : A -> Prop) : safe (throw e) P.
Proof. by intros st fr Hfr. Qed.

Lemma safe_bind {A B} (m : M A) (k : A -> M B) (P : A -> Prop) (Q : B -> Prop) :
  safe m P -> (forall x, P x -> safe (k x) Q) -> safe (bind m k) Q.
Proof.
  intros Hm Hk st fr Hfr. specialize (Hm st fr Hfr). unfold bind.
  destruct (m st fr) as [[[x|e|] st'] fr']; try done. destruct Hm as [Hfr' HP].
  by apply Hk.
Qed.

(** The result does not matter to the rest. *)
Lemma safe_seq {A B} (m : M A) (k : A -> M B) (Q : B -> Prop) :
  safe m anything -> (forall x, safe (k x) Q) -> safe (bind m k) Q.
Proof. intros Hm Hk. by apply (safe_bind m k anything). Qed.

Lemma safe_bind_ret {A B} (x : A) (k : A -> M B) (Q : B -> Prop) :
  safe (k x) Q -> safe (bind (ret x) k) Q.
Proof. by intros Hk. Qed.

Lemma safe_bind_throw {A B} e (k : A -> M B) (Q : B -> Prop) : safe (bind (throw e) k) Q.
Proof. apply safe_throw. Qed.

Lemma safe_ask {A} (r : Request A) : safe (ask r) anything.
Proof.
  intros st fr Hfr. unfold ask. by destruct (on_request r st) as [[e|x] st'].
Qed.

Lemma safe_query {A} (q : Query A) : safe (query q) anything.
Proof. intros st fr Hfr. unfold query. by destruct (on_query q st). Qed.

Lemma safe_frame {B} (k : CallFrame -> M B) (Q : B -> Prop) :
  (forall fr, frame_ok f fr -> safe (k fr) Q) -> safe (bind frame k) Q.
Proof. intros Hk. apply (safe_bind _ _ (frame_ok f)); [by intros st fr Hfr|done]. Qed.

Lemma safe_put fr : frame_ok f fr -> safe (put fr) anything.
Proof. by intros Hfr st fr' _. Qed.

Lemma safe_some_or {A} (o : option A) e : safe (some_or o e) anything.
Proof. destruct o; [by apply safe_ret|apply safe_throw]. Qed.

Lemma safe_some_or_panic {A} (o : option A) (P : A -> Prop) :
  is_Some o -> (forall x, o = Some x -> P x) -> safe (some_or_panic o) P.
Proof. intros [x ->] HP. apply safe_ret. by apply HP. Qed.

(** ** Frame access *)

Lemma safe_reg r : reg_ok f r -> safe (reg r) anything.
Proof.
  intros Hr. apply safe_frame. intros fr Hfr. apply safe_some_or_panic; [|done].
  apply lookup_lt_is_Some. by rewrite (ok_registers _ _ Hfr).
Qed.

Lemma safe_set_reg r v : reg_ok f r -> safe (set_reg r v) anything.
Proof.
  intros Hr. apply safe_frame. intros fr [H1 H2 H3 H4]. rewrite H1.
  apply Nat.ltb_lt in Hr. rewrite Hr. apply safe_put. split; [|done..].
  simpl. by rewrite length_insert.
Qed.

Lemma safe_slot s : (s < local_count f)%nat -> safe (slot s) anything.
Proof.
  intros Hs. apply safe_frame. intros fr Hfr. apply safe_some_or_panic; [|done].
  apply lookup_lt_is_Some. by rewrite (ok_slots _ _ Hfr).
Qed.

Lemma safe_set_slot s x : (s < local_count f)%nat -> safe (set_slot s x) anything.
Proof.
  intros Hs. apply safe_frame. intros fr [H1 H2 H3 H4]. rewrite H2.
  apply Nat.ltb_lt in Hs. rewrite Hs. apply safe_put. split; [done| |done..].
  simpl. by rewrite length_insert.
Qed.

Lemma safe_init_slot s v : (s < local_count f)%nat -> safe (init_slot s v) anything.
Proof.
  intros Hs. apply safe_seq; [by apply safe_slot|]. intros x. by apply safe_set_slot.
Qed.

Lemma safe_jump t : (t <= length (code f))%nat -> safe (jump t) anything.
Proof.
  intros Ht. apply safe_frame. intros fr [H1 H2 H3 H4]. apply safe_put. by split.
Qed.

Lemma safe_const_string k : safe (const_string f k) anything.
Proof. unfold const_string. repeat case_match; first [apply safe_throw|by apply safe_ret]. Qed.

Lemma safe_constant k P : const_is f P k -> safe (constant f k) P.
Proof.
  intros (c & Hc & HP). apply safe_some_or_panic; [eauto|]. intros x Hx. congruence.
Qed.

Lemma safe_current_scope : safe current_scope anything.
Proof.
  apply safe_frame. intros fr _. case_match; [by apply safe_ret|apply safe_query].
Qed.

Lemma safe_borrow_range s n : safe (borrow_range s n) anything.
Proof. apply safe_frame. intros. apply safe_some_or. Qed.

Lemma safe_take_range s n : safe (take_range s n) anything.
Proof. apply safe_frame. intros. apply safe_some_or. Qed.

End Safety.

#[export] Hint Resolve safe_ret safe_throw safe_ask safe_query safe_some_or safe_reg safe_set_reg
  safe_slot safe_set_slot safe_init_slot safe_jump safe_const_string safe_current_scope
  safe_borrow_range safe_take_range : rust.

(** Walks a computation: every bind, every frame read and every case. *)
Ltac vm_step :=
  match goal with
  | |- safe _ (bind frame _) _ => apply safe_frame; intros
  | |- safe _ (bind (ret _) _) _ => apply safe_bind_ret
  | |- safe _ (bind (throw _) _) _ => apply safe_bind_throw
  | |- safe _ (bind _ _) _ => apply safe_seq; [|intros]
  | |- safe _ (if ?b then _ else _) _ => destruct b eqn:?
  | |- safe _ (match ?x with _ => _ end) _ => destruct x eqn:?
  | |- safe _ _ _ => solve [auto with rust]
  end.
Ltac vm_safe := repeat vm_step.

Section Helpers.
Context `{Interpreter} (f : BytecodeFunction) (Hh : header_ok f).
Abbreviation anything := (fun _ => True) (only parsing).

Lemma safe_slot_info_name s : (s < local_count f)%nat -> safe f (slot_info_name f s) anything.
Proof.
  intros Hs. apply safe_seq; [|by auto with rust]. apply safe_some_or_panic; [|done].
  apply lookup_lt_is_Some. destruct Hh as (_ & -> & _). done.
Qed.
#[local] Hint Resolve safe_slot_info_name : rust.

Lemma safe_check_slot_writable s :
  (s < local_count f)%nat -> safe f (check_slot_writable f s) anything.
Proof. intros Hs. unfold check_slot_writable. vm_safe. Qed.
#[local] Hint Resolve safe_check_slot_writable : rust.

Lemma safe_compound_slot s op r :
  (s < local_count f)%nat -> reg_ok f r -> safe f (compound_slot f s op r) anything.
Proof. intros Hs Hr. unfold compound_slot. vm_safe. Qed.

Lemma safe_scope_strict : safe f scope_strict anything.
Proof. unfold scope_strict. vm_safe. Qed.

Lemma safe_push_call_args l : forall argv, safe f (push_call_args argv l) anything.
Proof.
  induction l as [|v l IH]; intros argv; cbn [push_call_args]; [auto with rust|].
  unfold push_call_arg. vm_safe.
Qed.
#[local] Hint Resolve safe_push_call_args : rust.

Lemma safe_spread_argv b l : forall argv,
  Forall (spread_ok f b) l -> safe f (spread_argv l argv) anything.
Proof.
  induction l as [|e l IH]; intros argv Hl; cbn [spread_argv]; [auto with rust|].
  apply Forall_cons in Hl as [[He _] Hl]. unfold push_call_arg. vm_safe; by apply IH.
Qed.

Lemma safe_spread_items b l : forall items present,
  Forall (spread_ok f b) l -> safe f (spread_items l items present) anything.
Proof.
  induction l as [|e l IH]; intros items present Hl; cbn [spread_items]; [auto with rust|].
  apply Forall_cons in Hl as [[He _] Hl]. vm_safe; by apply IH.
Qed.

Lemma safe_spread_array b l : Forall (spread_ok f b) l -> safe f (spread_array l) anything.
Proof.
  intros Hl. unfold spread_array. apply safe_seq; [by eapply safe_spread_items|]. intros []. vm_safe.
Qed.

Lemma slice_in_range s a b :
  (a <= b)%nat -> (b <= JsString.len s)%nat -> exists r, JsString.slice s a b = Ok r.
Proof.
  intros H1 H2. unfold JsString.slice. apply Nat.leb_le in H1, H2. rewrite H1, H2. eauto.
Qed.

Lemma code_points_Ok s : Forall (fun r => exists x, r = Ok x) (JsString.code_points s).
Proof.
  unfold JsString.code_points. generalize 0%nat. generalize (S (JsString.len s)).
  intros n. induction n as [|n IH]; intros o; cbn [JsString.code_points_loop]; [constructor|].
  unfold JsString.code_points_next. destruct (JsString.units s !! o) as [u|] eqn:Hu; [|constructor].
  apply lookup_lt_Some in Hu. cbn [mbind option_bind]. constructor; [|apply IH].
  apply slice_in_range; [by case_match; lia|]. unfold JsString.len.
  destruct (JsString.is_high u); cbn [andb]; [|lia].
  destruct (JsString.units s !! S o) eqn:Hl; [|lia]. apply lookup_lt_Some in Hl. case_match; lia.
Qed.

Lemma safe_string_values l :
  Forall (fun r => exists x, r = Ok x) l -> safe f (string_values l) anything.
Proof.
  induction 1 as [|r l [x ->] Hl IH]; cbn [string_values]; [auto with rust|].
  apply safe_seq; [done|]. auto with rust.
Qed.

Lemma safe_to_destruct_array v : safe f (to_destruct_array v) anything.
Proof.
  pose proof (fun s => safe_string_values _ (code_points_Ok s)).
  unfold to_destruct_array. vm_safe.
Qed.

Lemma safe_check_destruct_object v : safe f (check_destruct_object v) anything.
Proof. unfold check_destruct_object. vm_safe. Qed.

Lemma safe_rest_object s t : safe f (rest_object s t) anything.
Proof. unfold rest_object. vm_safe. Qed.

Lemma safe_load_const c : is_scalar c -> safe f (load_const c) anything.
Proof. intros Hc. destruct c; try done; cbn [load_const]; vm_safe. Qed.

Lemma safe_make_function g c n : well_formed g -> safe f (make_function g c n) anything.
Proof.
  intros [(_ & H1 & H2 & _) _]%well_formed_inv. unfold make_function. rewrite H1.
  apply Nat.leb_le in H2. rewrite H2. auto with rust.
Qed.

Lemma safe_spread_template k b :
  const_is f (fun c => exists l, c = CSpreadTemplate l /\ Forall (spread_ok f b) l) k ->
  safe f (spread_template f k) (Forall (spread_ok f b)).
Proof.
  intros (c & Hc & l & -> & Hl). unfold spread_template. rewrite Hc. by apply safe_ret.
Qed.

End Helpers.

(** ** Object and class templates *)

Section Templates.
Context `{Interpreter} (f : BytecodeFunction) (Hwf : well_formed f).
Abbreviation anything := (fun _ => True) (only parsing).

Lemma safe_object_key b k :
  match k with KReg r => reg_ok f r | KConst c => True end -> safe f (object_key f b k) anything.
Proof. intros Hk. unfold object_key. vm_safe. Qed.
#[local] Hint Resolve safe_object_key : rust.

Lemma safe_object_entry h b p e : entry_ok f e -> safe f (object_entry f h b p e) anything.
Proof.
  intros [Hv Hk]. unfold object_entry.
  apply safe_seq; [|intros; vm_safe].
  assert (forall k, prop_key e = Some k ->
    match k with KReg r => reg_ok f r | KConst c => True end) as Hkey
    by (intros k E; rewrite E in Hk; by destruct k).
  destruct (prop_key e) as [k|]; cbn [some_or]; [specialize (Hkey k eq_refl)|]; vm_safe.
Qed.

Lemma safe_object_entries h b l : forall p,
  Forall (entry_ok f) l -> safe f (object_entries f h b p l) anything.
Proof.
  induction l as [|e l IH]; intros p Hl; cbn [object_entries]; [auto with rust|].
  apply Forall_cons in Hl as [He Hl]. apply safe_seq; [by apply safe_object_entry|]. auto.
Qed.
#[local] Hint Resolve safe_object_entries : rust.

Lemma safe_build_object l : Forall (entry_ok f) l -> safe f (build_object f l) anything.
Proof. intros Hl. unfold build_object. vm_safe. Qed.

Lemma safe_class_function k c n : safe f (class_function f k c n) anything.
Proof.
  unfold class_function, make_ast_function. vm_safe.
  apply safe_make_function. apply well_formed_inv in Hwf as (_ & _ & Hn). eauto.
Qed.
#[local] Hint Resolve safe_class_function : rust.

Lemma safe_name_value n : name_ok f n -> safe f (name_value n) anything.
Proof. intros Hn. destruct n; cbn [name_value]; vm_safe. Qed.
#[local] Hint Resolve safe_name_value : rust.

Lemma safe_decorator_values l : decorators_ok f l -> safe f (decorator_values l) anything.
Proof.
  induction 1 as [|[v [r|]] l [Hv Hr] Hl IH]; cbn [decorator_values]; [auto with rust|..];
    simpl in Hr; rewrite ?Forall_singleton in Hr; vm_safe.
Qed.
#[local] Hint Resolve safe_decorator_values : rust.

Lemma safe_class_member t s c1 c2 p k m :
  member_ok f t k m -> safe f (class_member f t s c1 c2 p m) anything.
Proof.
  intros (_ & Hd & Hn & _). unfold class_member, add_definition, place_member. vm_safe.
Qed.

Lemma safe_class_members t s c1 c2 l : forall p,
  Forall (fun m => exists k, member_ok f t k m) l ->
  safe f (class_members f t s c1 c2 p l) anything.
Proof.
  induction l as [|m l IH]; intros p Hl; cbn [class_members]; [auto with rust|].
  apply Forall_cons in Hl as [[k Hm] Hl].
  apply safe_seq; [by eapply safe_class_member|]. auto.
Qed.

Lemma safe_bind_computed_keys c l : forall i,
  Forall (reg_ok f) l -> safe f (bind_computed_keys c i l) anything.
Proof.
  induction l as [|r l IH]; intros i Hl; cbn [bind_computed_keys]; [auto with rust|].
  apply Forall_cons in Hl as [Hr Hl]. vm_safe.
Qed.

Lemma safe_static_elements l : Forall (block_ok f) l -> safe f (static_elements f l) anything.
Proof.
  induction 1 as [|b l Hb Hl IH]; cbn [static_elements]; [auto with rust|].
  destruct b as [n i|k]; vm_safe.
Qed.

Lemma safe_field_definitions l :
  Forall (fun d => name_ok f (field_name d) /\ decorators_ok f (field_decorators_list d)) l ->
  safe f (field_definitions l) anything.
Proof.
  induction 1 as [|d l [Hn Hd] Hl IH]; cbn [field_definitions]; vm_safe.
Qed.

Lemma safe_build_class t : class_ok f t -> safe f (build_class_from_template f t) anything.
Proof.
  intros (Hd & Hs & Hp & Hk & _ & Hf & Hm & Hb).
  assert (forall s c1 c2 p, safe f (class_members f t s c1 c2 p (members t)) anything).
  { intros. apply safe_class_members. apply Forall_lookup. eauto. }
  pose proof (safe_static_elements _ Hb). pose proof (safe_field_definitions _ Hf).
  pose proof (fun c => safe_bind_computed_keys c _ 0%nat Hk).
  unfold build_class_from_template, strict_closure.
  destruct (superclass t), (super_proto t); simpl in Hs, Hp; rewrite ?Forall_singleton in *; vm_safe.
Qed.

End Templates.

(** ** Instructions *)

Section Instructions.
Context `{Interpreter} (f : BytecodeFunction) (Hwf : well_formed f).
Abbreviation anything := (fun _ => True) (only parsing).

Lemma wf_header : header_ok f.
Proof. by apply well_formed_inv in Hwf as (? & _). Qed.
Lemma wf_nested k g : constants f !! k = Some (CFunction g) -> well_formed g.
Proof. apply well_formed_inv in Hwf as (_ & _ & Hn). apply Hn. Qed.

(** Reading a constant the verifier has seen. *)
Lemma safe_bind_constant {B} P k (body : Constant -> M B) (Q : B -> Prop) :
  const_is f P k ->
  (forall c, constants f !! k = Some c -> P c -> safe f (body c) Q) ->
  safe f (bind (constant f k) body) Q.
Proof.
  intros (c & Hc & HP) Hb. unfold constant. rewrite Hc. cbn [some_or_panic].
  apply safe_bind_ret. by apply Hb.
Qed.

Lemma safe_slot_info_name' s : (s < local_count f)%nat -> safe f (slot_info_name f s) anything.
Proof. apply safe_slot_info_name, wf_header. Qed.
Lemma safe_check_slot_writable' s :
  (s < local_count f)%nat -> safe f (check_slot_writable f s) anything.
Proof. apply safe_check_slot_writable, wf_header. Qed.
Lemma safe_compound_slot' s op r :
  (s < local_count f)%nat -> reg_ok f r -> safe f (compound_slot f s op r) anything.
Proof. apply safe_compound_slot, wf_header. Qed.
Lemma safe_push_handler t d b :
  (t <= length (code f))%nat -> reg_ok f d -> safe f (push_handler t d b) anything.
Proof.
  intros Ht Hd. apply safe_frame. intros fr [H1 H2 H3 H4]. apply safe_put. split; try done.
  apply Forall_app. split; [done|]. by apply Forall_singleton.
Qed.
Lemma safe_push_scope e : safe f (push_scope e) anything.
Proof. apply safe_frame. intros fr [H1 H2 H3 H4]. apply safe_put. by split. Qed.
Lemma safe_in_tail_position d : safe f (in_tail_position f d) anything.
Proof. unfold in_tail_position. vm_safe. Qed.
Lemma safe_exec_binary op l r : safe f (exec_binary op l r) anything.
Proof. unfold exec_binary. vm_safe. Qed.

#[local] Hint Resolve safe_slot_info_name' safe_check_slot_writable' safe_compound_slot'
  safe_scope_strict safe_to_destruct_array safe_check_destruct_object safe_rest_object
  safe_push_handler safe_push_scope safe_in_tail_position safe_exec_binary : rust.

(** The bounds of an instruction's operands, as separate hypotheses. *)
Ltac operands :=
  unfold instr_ok in *;
  cbn [regs windows slot_operands targets cache_operands operator_ok const_operands_ok opt_list
       key_regs] in *;
  rewrite ?Forall_cons, ?Forall_nil in *; destruct_and?.

Lemma safe_exec_data (i : DataInstr) : instr_ok f i -> safe f (exec_data f i) anything.
Proof.
  intros Hi. destruct i; operands; cbn [exec_data];
    try match goal with
        | x : option nat |- _ => destruct x; cbn [opt_list] in *; rewrite ?Forall_cons in *; destruct_and?
        end;
    try (solve [vm_safe]).
  eapply safe_bind_constant; [done|]. intros c _ Hc.
  apply safe_seq; [by apply safe_load_const|]. auto with rust.
Qed.

Lemma safe_exec_operator (i : OperatorInstr) : instr_ok f i -> safe f (exec_operator f i) anything.
Proof. intros Hi. destruct i; operands; cbn [exec_operator]; vm_safe. Qed.

Lemma safe_exec_control (i : ControlInstr) : instr_ok f i -> safe f (exec_control i) anything.
Proof. intros Hi. destruct i; operands; cbn [exec_control]; vm_safe. Qed.

Lemma safe_direct_eval d c t argv :
  reg_ok f d -> reg_ok f c -> Forall (reg_ok f) (opt_list t) ->
  safe f (direct_eval f d c t argv) anything.
Proof.
  intros Hd Hc Ht. unfold direct_eval.
  destruct t; cbn [opt_list] in Ht; rewrite ?Forall_cons in Ht; destruct_and?; vm_safe.
Qed.

(** A spread template, expanded, then used. *)
Lemma safe_spread_call {B} b k (body : list Value -> M B) (Q : B -> Prop) :
  const_is f (fun c => exists l, c = CSpreadTemplate l /\ Forall (spread_ok f b) l) k ->
  (forall argv, safe f (body argv) Q) ->
  safe f (let! template := spread_template f k in
          let! argv := spread_argv template [] in body argv) Q.
Proof.
  intros Hk Hb. eapply safe_bind; [by apply safe_spread_template|]. intros l Hl.
  apply safe_seq; [by eapply safe_spread_argv|done].
Qed.

Lemma safe_exec_property (i : PropertyInstr) : instr_ok f i -> safe f (exec_property f i) anything.
Proof.
  intros Hi. destruct i; operands; cbn [exec_property];
    try (eapply safe_spread_call; [done|]; intros);
    try (eapply safe_bind_constant; [done|]; intros c Hc HP);
    try (match goal with Hlt : (?c < caches f)%nat |- _ => apply Nat.ltb_lt in Hlt; rewrite Hlt end);
    try (solve [vm_safe]).
  - apply safe_seq; [auto with rust|]. intros argv. by apply safe_direct_eval.
  - by apply safe_direct_eval.
  - destruct HP as (g & ->). pose proof (wf_nested _ _ Hc).
    pose proof (fun s n => safe_make_function f g s n). vm_safe.
  - destruct HP as (a & ->). unfold make_ast_function. vm_safe.
  - destruct HP as (l & -> & Hl). pose proof (safe_build_object f l Hl). vm_safe.
  - eapply safe_bind; [by apply safe_spread_template|]. intros l Hl.
    apply safe_seq; [by eapply safe_spread_array|]. auto with rust.
Qed.

Lemma pop_of_Forall {A} (P : A -> Prop) l x rest :
  pop_of l = Some (x, rest) -> Forall P l -> Forall P rest.
Proof.
  unfold pop_of. destruct (last l); [|done]. intros [= _ <-] Hl. by apply Forall_take.
Qed.

Lemma safe_exec_unwind (i : UnwindInstr) : instr_ok f i -> safe f (exec_unwind i) anything.
Proof.
  intros Hi. destruct i; operands; cbn [exec_unwind]; vm_safe;
    match goal with Hfr : frame_ok f ?fr |- _ => destruct Hfr as [? ? ? ?] end;
    apply safe_put; split; try done.
  by eapply pop_of_Forall.
Qed.

Lemma safe_exec_class (i : ClassInstr) : instr_ok f i -> safe f (exec_class f i) anything.
Proof.
  intros Hi. destruct i; operands; cbn [exec_class];
    try (eapply safe_bind_constant; [done|]; intros c Hc HP);
    try (solve [vm_safe]).
  - apply safe_seq; [auto with rust|]. intros v. eapply safe_spread_call; [done|]. intros. vm_safe.
  - destruct HP as (t & -> & Ht). pose proof (safe_build_class f Hwf t Ht). vm_safe.
  - vm_safe. match goal with Hfr : frame_ok f ?fr |- _ => destruct Hfr as [? ? ? ?] end.
    apply safe_put. by split.
Qed.

(** The instruction pointer after the fetch is still in the code. *)
Lemma safe_execute i st fr :
  frame_ok f fr -> code f !! ip fr = Some i ->
  match execute_instruction f i st fr with
  | (Panic, _, _) => False
  | (_, _, fr) => frame_ok f fr
  end.
Proof.
  intros Hfr Hi. pose proof Hfr as [H1 H2 H3 H4].
  assert (instr_ok f i) as Hok by (apply well_formed_inv in Hwf as (_ & Hc & _); eauto).
  apply lookup_lt_Some in Hi.
  assert (safe f (dispatch f i) anything) as Hs.
  { destruct i; [by apply safe_exec_data|by apply safe_exec_operator|by apply safe_exec_control
      |by apply safe_exec_property|by apply safe_exec_unwind|by apply safe_exec_class]. }
  unfold execute_instruction, bind, ask, put, frame.
  destruct (on_request (consume_fuel (cost i)) st) as [[e|[]] st']; [done|].
  assert (frame_ok f (set_ip fr (ip fr + 1))) as Hfr' by (split; try done; simpl; lia).
  specialize (Hs st' _ Hfr'). revert Hs.
  destruct (dispatch f i st' _) as [[[x|e|] st2] fr2]; naive_solver.
Qed.
End Instructions.

(** ** The dispatch loop *)

Section Loop.
Context `{Interpreter} (f : BytecodeFunction) (Hwf : well_formed f).
Abbreviation anything := (fun _ => True) (only parsing).

Lemma skip_catches_spec l h rest :
  skip_catches l = Some (h, rest) ->
  exists skipped, l = skipped ++ h :: rest /\ catch_returns h = true /\
    Forall (fun c => catch_returns c = false) skipped.
Proof.
  induction l as [|c l IH]; cbn [skip_catches]; [done|].
  destruct (catch_returns c) eqn:Hc.
  - intros [= <- <-]. exists []. by repeat constructor.
  - intros (sk & -> & Hh & Hall)%IH. exists (c :: sk). split_and!; [done..|]. by constructor.
Qed.

(** The handler that takes an error: those above it are popped, and for an
    unwinding return they are all catch handlers. *)
Lemma take_handler_spec l e h rest :
  take_handler l e = Some (h, rest) ->
  exists skipped, l = rest ++ h :: skipped /\
    (is_ret e = true -> catch_returns h = true /\ Forall (fun c => catch_returns c = false) skipped) /\
    (is_ret e = false -> skipped = []).
Proof.
  unfold take_handler. destruct (is_ret e) eqn:He.
  - destruct (skip_catches (rev l)) as [[h' rest']|] eqn:Hs; [|done]. intros [= <- <-].
    apply skip_catches_spec in Hs as (sk & Hl & Hh & Hall). exists (rev sk).
    split_and!; [|split; [done|]|done].
    + rewrite <- (rev_involutive l), Hl. rewrite rev_app_distr. simpl. by rewrite <- app_assoc.
    + rewrite rev_reverse. by apply Forall_reverse.
  - destruct (rev l) as [|h' rest'] eqn:Hl; [done|]. intros [= <- <-]. exists [].
    split_and!; [|done..]. rewrite <- (rev_involutive l), Hl. simpl. done.
Qed.

Lemma safe_land_handler e : safe f (land_handler e) anything.
Proof.
  unfold land_handler. destruct (is_abandon e); [apply safe_throw|].
  destruct (catchable e) eqn:Hc; [|apply safe_throw]. cbn [negb].
  apply safe_frame. intros fr Hfr. pose proof Hfr as [H1 H2 H3 H4].
  destruct (take_handler (handlers fr) e) as [[h rest]|] eqn:Ht.
  2:{ apply safe_seq; [|auto with rust]. apply safe_put. by split. }
  apply take_handler_spec in Ht as (sk & Hl & _). rewrite Hl in H3.
  apply Forall_app in H3 as [Hrest [[Hd Ht] _]%Forall_cons].
  apply safe_seq; [apply safe_put; by split|]. intros _.
  apply safe_seq; [destruct e; try done; cbn [landing_value]; auto with rust|]. intros v.
  apply safe_seq; [auto with rust|]. intros _. apply safe_frame. intros fr' [G1 G2 G3 G4].
  apply safe_put. destruct (catch_returns h); by split.
Qed.

Lemma safe_run_step b : safe f (run_step f b) anything.
Proof.
  intros st fr Hfr. unfold run_step, bind at 1, frame.
  destruct (code f !! ip fr) as [i|] eqn:Hi.
  - pose proof (safe_execute f Hwf i st fr Hfr Hi) as He.
    destruct (execute_instruction f i st fr) as [[[[]|e|] st'] fr']; try done.
    apply (safe_seq f (land_handler e) (fun _ => ret None) anything); [apply safe_land_handler| |done].
    auto with rust.
  - destruct (_ =? _)%nat; simpl; [by split|done].
Qed.

Lemma safe_run_loop n b : safe f (run_loop f n b) anything.
Proof.
  induction n as [|n IH]; cbn [run_loop]; [auto with rust|].
  apply safe_seq; [apply safe_run_step|]. intros r. destruct r; auto with rust.
Qed.

End Loop.
