(* ===== verification/VmTheorems.v ===== *)
(** The theorems of the virtual machine. *)
From stdpp Require Import prelude list strings relations.
From Stdlib Require Import ZArith Lia SpecFloat.
From S2P Require Import Prelude JsString BigInt Opcode Verify VerifySpec VerifyTheorems Machine Vm VmSafety.
Import Opcode Verify Machine Vm.
Local Open Scope Z_scope.
Local Open Scope vm_scope.

(** ** A small interpreter, for examples *)

(** Requests it does not know fail with a type error; metering always succeeds. *)
Definition toy_request {A} (r : Request A) : VmErr + A :=
  match r with
  | consume_fuel _ => inr tt
  | consume_loop => inr tt
  | prepare_return_value v => inr v
  | numeric_update v _ => inr (v, v)
  | call_this_borrowed callee _ _ => inr callee
  | _ => inl (Msg (chars "TypeError: unsupported"))
  end.

Definition toy_query {A} (q : Query A) : A :=
  match q with
  | global => 0%nat
  | env_child e | member_closure_env e | class_environment e _ => S e
  | env_strict _ | is_truthy _ | truthy _ | tail_call_context | is_intrinsic_eval _ => true
  | env_get _ _ | env_new_target _ | cached_template_object _ | number_binary _ _ _ => None
  | regex_compiled _ => None
  | env_replace_strict _ _ | env_declare _ _ _ _ _ | env_set _ _ _
  | declare_private_declarations _ _ | note_loop_iter | regex_set_compiled _ _
  | builder_symbol_key _ _ _ | insert_object_property _ _ _ _ | builder_finish _ _
  | initialize_object_home _ _ => tt
  | insert_class_method l k v | insert_class_accessor l k v => l ++ [(k, v)]
  | regex_from_compiled r => RegExp r
  | new_function _ _ _ _ => Function 0
  | new_ast_function _ _ _ => Function 1
  | array_items _ => []
  | new_array _ => Array 0
  | symbol_slot_key _ | number_to_string _ | ecmascript_number_string _ => []
  | cache_template_object _ v _ | object_method_with_home v _ => v
  | object_builder => 0%nat
  | builder_positions _ => 0%nat
  | error_value_with_stack m => String (JsString.from_string m)
  | guest_value _ => Null
  end.

#[local] Instance toy : Interpreter := {|
  State := unit;
  on_request A r st := (toy_request r, st);
  on_query A q st := (toy_query q, st);
|}.

(** ** Activations *)

(** A pooled activation holds only undefined registers. *)
Definition clean (b : ActivationBuffers) : Prop :=
  Forall (fun v => v = Undefined) (buf_registers b) /\ buf_slots b = [] /\ buf_handlers b = [] /\
  buf_pending b = [] /\ buf_enumerators b = [] /\ buf_scopes b = [].

Lemma resize_undefined l n :
  Forall (fun v => v = Undefined) l -> resize l n Undefined = replicate n Undefined.
Proof.
  intros Hl. unfold resize. revert n. induction Hl as [|v l -> Hl IH]; intros n.
  - by rewrite take_nil, Nat.sub_0_r.
  - destruct n; [done|]. simpl. by rewrite IH.
Qed.

Lemma pop_of_Some {A} (l : list A) x rest : pop_of l = Some (x, rest) -> l = rest ++ [x].
Proof.
  unfold pop_of. destruct (last l) as [y|] eqn:Hl; [|done]. intros [= -> <-].
  apply last_Some in Hl as [l' ->]. rewrite length_app. simpl.
  by rewrite Nat.add_sub, take_app_length.
Qed.

Lemma setup_clean pool f this args :
  Forall clean pool ->
  Forall clean (setup pool f this args).1 /\
  (setup pool f this args).2 = (setup [] f this args).2.
Proof.
  intros Hp. unfold setup. destruct (pop_of pool) as [[b rest]|] eqn:Hpop; [|done].
  apply pop_of_Some in Hpop as ->. apply Forall_app in Hp as [Hr [(H1&H2&H3&H4&H5&H6) _]%Forall_cons].
  split; [done|]. simpl. rewrite H2, H3, H4, H5, H6.
  rewrite (resize_undefined _ _ H1). by rewrite (resize_undefined [] _ (Forall_nil_2 _)).
Qed.

Lemma setup_frame_ok pool f this args :
  Forall clean pool -> header_ok f -> frame_ok f (setup pool f this args).2.
Proof.
  intros Hp (_ & Hs & _). destruct (setup_clean pool f this args Hp) as [_ ->].
  unfold setup; simpl. split; simpl; [|by rewrite length_imap|constructor|lia].
  rewrite resize_undefined by constructor. apply length_replicate.
Qed.

(** C1. Memory safety of verified code: for every behaviour of the
    interpreter's methods, running a module that the verifier accepts, from a
    frame set up out of the activation pool and for any number of turns of the
    dispatch loop, never indexes a register, slot, constant or cache table out
    of range, and leaves a well-formed frame whatever completion it ends in. *)
Theorem verified_code_never_panics {I : Interpreter} m pool this args n top st :
  verify_module m = Ok tt -> Forall clean pool ->
  match run_loop (main m) n top st (setup pool (main m) this args).2 with
  | (Panic, _, _) => False
  | (_, _, fr) => frame_ok (main m) fr
  end.
Proof.
  intros Hv%verify_function_Ok Hp.
  assert (header_ok (main m)) as Hh by by apply well_formed_inv in Hv as (? & _).
  pose proof (safe_run_loop (main m) Hv n top st _ (setup_frame_ok pool _ this args Hp Hh)) as Hs.
  destruct (run_loop _ _ _ _ _) as [[[x|e|] st'] fr']; naive_solver.
Qed.

(** [try { v++; throw v } catch (e) { v = e } return v] *)
Definition sample_module : BytecodeModule := {| main :=
  sample [PushCatch 4 1 : Instr; LoadConst 0 0 : Instr; IncLocal 0 0 1 true : Instr;
          Throw 0 : Instr; StoreLocal 0 1 : Instr; LoadLocal 0 0 : Instr; Return 0 : Instr]
    [CName (chars "x")] 2 [{| slot_name := chars "v"; slot_kind := Var; captured := false |}] |}.

Lemma verified_code_never_panics_witness :
  match run_loop (main sample_module) 20 true tt
          (setup [] (main sample_module) Undefined []).2 with
  | (Panic, _, _) => False
  | (_, _, fr) => frame_ok (main sample_module) fr
  end.
Proof.
  apply (@verified_code_never_panics toy sample_module [] Undefined [] 20 true tt);
    [reflexivity|constructor].
Defined.

(** C7. A frame built on recycled storage is the frame a fresh allocation
    gives: no register, slot, handler, pending completion, enumerator or scope
    of an earlier activation is visible in it, recycling any frame keeps the
    pool clean, and the pool holds at most sixteen activations. *)
Theorem activation_pool_is_invisible pool f this args fr fits :
  Forall clean pool -> (length pool <= 16)%nat ->
  (setup pool f this args).2 = (setup [] f this args).2 /\
  Forall clean (setup pool f this args).1 /\
  Forall clean (recycle_activation pool fits fr) /\
  (length (setup pool f this args).1 <= 16)%nat /\
  (length (recycle_activation pool fits fr) <= 16)%nat.
Proof.
  intros Hp Hn. destruct (setup_clean pool f this args Hp) as [H1 H2].
  split; [exact H2|]. split; [exact H1|]. split; [|split].
  - unfold recycle_activation. destruct (_ && fits); [|done]. apply Forall_app. split; [done|].
    apply Forall_singleton. split; [|done]. by apply Forall_map, Forall_true.
  - unfold setup. destruct (pop_of pool) as [[b rest]|] eqn:Hpop; simpl; [|lia].
    apply pop_of_Some in Hpop as ->. rewrite length_app in Hn. lia.
  - unfold recycle_activation. case Nat.ltb_spec; intros Hlt; destruct fits; simpl;
      rewrite ?length_app; simpl; lia.
Qed.

Lemma activation_pool_is_invisible_witness :
  let fr := set_registers (setup [] (main sample_module) Null [Null]).2 [Null; Bool true] in
  let pool := recycle_activation [] true fr in
  (setup pool (main sample_module) Undefined []).2 =
  (setup [] (main sample_module) Undefined []).2 /\
  Forall clean (setup pool (main sample_module) Undefined []).1 /\
  Forall clean (recycle_activation pool true fr) /\
  (length (setup pool (main sample_module) Undefined []).1 <= 16)%nat /\
  (length (recycle_activation pool true fr) <= 16)%nat.
Proof.
  intros fr pool. apply activation_pool_is_invisible; [|simpl; lia].
  apply Forall_singleton. split; [|done]. repeat constructor.
Defined.

(** ** Handlers *)

(** What a landing leaves in the frame. *)
Definition landed (fr : CallFrame) (h : HandlerEntry) (rest : list HandlerEntry) (e : VmErr)
    (v : Value) : CallFrame :=
  {| ip := target h;
     registers := <[dst h := v]> (registers fr);
     run_slots := run_slots fr;
     this_value := this_value fr;
     handlers := rest;
     pending := take (pending_depth h) (pending fr) ++ (if catch_returns h then [e] else []);
     enumerators := take (enumerator_depth h) (enumerators fr);
     scopes := take (scope_depth h) (scopes fr) |}.

(** The value a handler receives, with the state it leaves. *)
Definition landing {I : Interpreter} (e : VmErr) (st : State) : Value * State :=
  match e with
  | ThrowErr v => (v, st)
  | Msg m => on_query (error_value_with_stack m) st
  | RuntimeError d => on_query (guest_value d) st
  | _ => (Undefined, st)
  end.

Lemma land_handler_lands {I : Interpreter} e st fr h rest :
  catchable e = true -> take_handler (handlers fr) e = Some (h, rest) ->
  (dst h < length (registers fr))%nat ->
  land_handler e st fr = (Ok tt, (landing e st).2, landed fr h rest e (landing e st).1).
Proof.
  intros Hc Ht Hd. apply Nat.ltb_lt in Hd. unfold land_handler.
  destruct e; try discriminate Hc; cbn [is_abandon catchable negb];
    unfold bind, frame, put, set_reg, ret, landing_value, query, landing; cbn [is_ret];
    unfold bind, frame, put; rewrite Ht; cbn -[Nat.ltb];
    try destruct (on_query _ st) as [v st'];
    cbn -[Nat.ltb]; rewrite Hd; cbn; unfold landed; destruct (catch_returns h); cbn; rewrite ?app_nil_r; done.
Qed.

(** C5. Where an abrupt completion lands.  A thrown value or runtime error goes
    to the innermost handler; a return passes the catch handlers and goes to the
    innermost finally handler; everything else, abandonment included, leaves the
    frame untouched and escapes.  A landing resumes at the handler's address
    with the handlers above it popped, the pending, enumerator and scope stacks
    cut to the depths recorded when it was pushed, the value in its register,
    and the completion saved when it is a finally handler. *)
Theorem land_handler_correct {I : Interpreter} f e st fr :
  frame_ok f fr ->
  (catchable e = false -> land_handler e st fr = (Err e, st, fr)) /\
  (catchable e = true -> take_handler (handlers fr) e = None ->
     land_handler e st fr = (Err e, st, set_handlers fr []) /\
     (is_ret e = false -> handlers fr = []) /\
     (is_ret e = true -> Forall (fun h => catch_returns h = false) (handlers fr))) /\
  (catchable e = true -> forall h rest, take_handler (handlers fr) e = Some (h, rest) ->
     land_handler e st fr = (Ok tt, (landing e st).2, landed fr h rest e (landing e st).1) /\
     exists skipped, handlers fr = rest ++ h :: skipped /\
       (is_ret e = true -> catch_returns h = true /\
          Forall (fun c => catch_returns c = false) skipped) /\
       (is_ret e = false -> skipped = [])).
Proof.
  intros Hfr. split; [|split].
  - intros Hc. unfold land_handler. destruct (is_abandon e); [done|]. by rewrite Hc.
  - intros Hc Ht. split.
    + unfold land_handler. destruct e; try discriminate Hc; cbn;
        unfold bind, frame; rewrite Ht; done.
    + unfold take_handler in Ht. split; intros He; rewrite He in Ht.
      * destruct (rev (handlers fr)) eqn:Hr; [|done].
        rewrite <- (rev_involutive (handlers fr)), Hr. done.
      * rewrite <- (rev_involutive (handlers fr)), rev_reverse. apply Forall_reverse.
        induction (rev (handlers fr)) as [|h l IH]; [constructor|]. simpl in Ht.
        destruct (catch_returns h) eqn:Hh; [done|]. constructor; auto.
  - intros Hc h rest Ht. pose proof (take_handler_spec _ _ _ _ Ht) as Hsk. split; [|done].
    apply land_handler_lands; [done..|]. destruct Hsk as (sk & Hl & _).
    pose proof (ok_handlers _ _ Hfr) as Hh. rewrite Hl in Hh.
    apply Forall_app in Hh as [_ [[Hd _] _]%Forall_cons]. by rewrite (ok_registers _ _ Hfr).
Qed.

(** A frame inside a finally region nested in a catch region. *)
Definition two_handlers : CallFrame :=
  let fr := (setup [] (main sample_module) Undefined []).2 in
  set_scopes (set_handlers fr
    [{| target := 4; dst := 1; catch_returns := true; scope_depth := 1; pending_depth := 0;
        enumerator_depth := 0 |};
     {| target := 2; dst := 0; catch_returns := false; scope_depth := 2; pending_depth := 0;
        enumerator_depth := 0 |}]) [7; 8; 9]%nat.

Lemma land_handler_correct_witness :
  frame_ok (main sample_module) two_handlers /\
  @land_handler toy (Ret Null) tt two_handlers =
    (Ok tt, tt, landed two_handlers
       {| target := 4; dst := 1; catch_returns := true; scope_depth := 1; pending_depth := 0;
          enumerator_depth := 0 |} [] (Ret Null) Undefined).
Proof.
  assert (frame_ok (main sample_module) two_handlers) as Hfr
    by (split; [done|done|repeat constructor; simpl; lia|simpl; lia]).
  split; [exact Hfr|].
  apply (proj2 (proj2 (@land_handler_correct toy (main sample_module) (Ret Null) tt two_handlers Hfr)));
    reflexivity.
Defined.

(** ** Tail position *)

(** A step that only moves a register or jumps. *)
Definition silent_step {I : Interpreter} (f : BytecodeFunction) (fr fr' : CallFrame) : Prop :=
  exists i : Instr,
    code f !! ip fr = Some i /\
    (exists d s, i = Mov d s \/ exists t, i = Jump t) /\
    forall st, dispatch f i st (set_ip fr (ip fr + 1)) = (Ok tt, st, fr').

Lemma silent_mov {I : Interpreter} f fr d s v :
  code f !! ip fr = Some (Mov d s : Instr) -> registers fr !! s = Some v ->
  (d < length (registers fr))%nat ->
  silent_step f fr (set_registers (set_ip fr (ip fr + 1)) (<[d := v]> (registers fr))).
Proof.
  intros Hi Hv Hd. exists (Mov d s). split; [done|]. split; [eauto|]. intros st.
  cbn [dispatch exec_data]. unfold reg, set_reg, bind, frame. cbn -[Nat.ltb].
  rewrite Hv. cbn -[Nat.ltb]. apply Nat.ltb_lt in Hd. by rewrite Hd.
Qed.

Lemma silent_jump {I : Interpreter} f fr t :
  code f !! ip fr = Some (Jump t : Instr) -> silent_step f fr (set_ip fr t).
Proof.
  intros Hi. exists (Jump t). split; [done|]. split; [exists 0%nat, 0%nat; eauto|]. done.
Qed.

Lemma returns_call_loop_spec {I : Interpreter} f n : forall fr r v,
  well_formed f -> frame_ok f fr -> registers fr !! r = Some v ->
  returns_call_loop f n (ip fr) r = true ->
  exists fr' src, rtc (silent_step f) fr fr' /\
    code f !! ip fr' = Some (Return src : Instr) /\ registers fr' !! src = Some v /\
    handlers fr' = handlers fr.
Proof.
  induction n as [|n IH]; intros fr r v Hwf Hfr Hv Hl; cbn [returns_call_loop] in Hl; [done|].
  pose proof Hfr as [H1 H2 H3 H4].
  destruct (code f !! ip fr) as [i|] eqn:Hi; [|done].
  assert (instr_ok f i) as Hok by (apply well_formed_inv in Hwf as (_ & Hc & _); eauto).
  pose proof (lookup_lt_Some _ _ _ Hi) as Hip.
  destruct i as [[]| |[]| | |]; try discriminate Hl.
  - rename dst0 into d. destruct Hok as (Hregs & _). cbn [regs] in Hregs. rewrite !Forall_cons in Hregs.
    destruct Hregs as (Hd & Hs & _). unfold reg_ok in Hd, Hs.
    destruct (lookup_lt_is_Some_2 (registers fr) src) as [w Hw]; [lia|].
    pose proof (silent_mov f fr d src w Hi Hw ltac:(lia)) as Hstep.
    set (fr1 := set_registers (set_ip fr (ip fr + 1)) (<[d := w]> (registers fr))) in *.
    assert (frame_ok f fr1) as Hfr1 by (split; simpl; rewrite ?length_insert; (done || lia)).
    assert (exists r', registers fr1 !! r' = Some v /\
              returns_call_loop f n (ip fr1) r' = true) as (r' & Hr' & Hl').
    { revert Hl. case Nat.eqb_spec; intros He.
      - subst. intros Hl. exists d. split; [|done]. simpl.
        rewrite list_lookup_insert_eq by lia. congruence.
      - case Nat.eqb_spec; intros He'; [done|]. intros Hl. exists r. split; [|done]. simpl.
        by rewrite list_lookup_insert_ne. }
    destruct (IH fr1 r' v Hwf Hfr1 Hr' Hl') as (fr' & s' & Hrtc & Hret & Hval & Hh).
    exists fr', s'. split; [by eapply rtc_l|]. done.
  - rename target0 into t. destruct Hok as (_ & _ & _ & Ht & _). cbn [targets] in Ht. apply Forall_cons in Ht as [Ht _].
    cbn beta in Ht. assert (frame_ok f (set_ip fr t)) as Hfr1 by (split; simpl; done).
    destruct (IH (set_ip fr t) r v Hwf Hfr1 Hv Hl) as (fr' & s' & Hrtc & Hret & Hval & Hh).
    exists fr', s'. split; [eapply rtc_l; [by apply silent_jump|done]|]. done.
  - apply Nat.eqb_eq in Hl as ->. exists fr, r. split; [done|]. done.
Qed.

(** The tail-call test is sound: when it holds of a call's destination, then
    once the call has written its result there, only register moves and jumps
    run before a return of exactly that value, with no handler in the frame, so
    replacing the frame by the callee's returns the same value. *)
Theorem tail_position_returns_result {I : Interpreter} f fr r v :
  verify_function f = Ok tt -> frame_ok f fr -> (r < register_count f)%nat ->
  returns_call_result f fr r = true ->
  exists fr' src,
    rtc (silent_step f) (set_registers fr (<[r := v]> (registers fr))) fr' /\
    code f !! ip fr' = Some (Return src : Instr) /\ registers fr' !! src = Some v /\
    handlers fr' = [].
Proof.
  intros Hwf%verify_function_Ok [H1 H2 H3 H4] Hr. unfold returns_call_result.
  destruct (handlers fr) eqn:Hh; [|done]. intros Hl.
  destruct (returns_call_loop_spec f (length (code f))
    (set_registers fr (<[r := v]> (registers fr))) r v) as (fr' & s & Hs).
  - done.
  - split; simpl; rewrite ?length_insert, ?Hh; done.
  - simpl. apply list_lookup_insert_eq. by rewrite H1.
  - done.
  - exists fr', s. simpl in Hs. by rewrite Hh in Hs.
Qed.

(** [return cond ? f() : g()], as compiled: the call's result is moved and
    joins the other branch before the return. *)
Definition tail_call : BytecodeFunction :=
  sample [Call 0 1 2 0 : Instr; Mov 2 0 : Instr; Jump 5 : Instr; Call 1 1 2 0 : Instr;
          Mov 2 1 : Instr; Return 2 : Instr] [] 3 [].

Lemma tail_position_returns_result_witness :
  exists fr' src,
    rtc (@silent_step toy tail_call)
      (set_registers (set_ip (setup [] tail_call Undefined []).2 1)
         [Bool true; Undefined; Undefined]) fr' /\
    code tail_call !! ip fr' = Some (Return src : Instr) /\
    registers fr' !! src = Some (Bool true) /\ handlers fr' = [].
Proof.
  apply (@tail_position_returns_result toy tail_call
    (set_ip (setup [] tail_call Undefined []).2 1) 0 (Bool true)).
  - reflexivity.
  - split; [done|done|constructor|simpl; lia].
  - simpl. lia.
  - reflexivity.
Defined.

(** ** Local bindings *)

(** Local slots follow the rules of lexical bindings: reading or writing a
    slot in its dead zone is a ReferenceError that names it, writing an
    initialized constant is a TypeError that names it, in both cases with the
    frame unchanged; otherwise a read copies the value to its register and a
    write replaces the value, marks the slot initialized and keeps its kind. *)
Theorem local_slot_rules {I : Interpreter} f fr s r x info v st :
  run_slots fr !! s = Some x -> slots f !! s = Some info -> registers fr !! r = Some v ->
  exec_data f (LoadLocal r s) st fr =
    (if initialized x then (Ok tt, st, set_registers fr (<[r := slot_value x]> (registers fr)))
     else (Err (dead_zone (slot_name info)), st, fr)) /\
  exec_data f (StoreLocal s r) st fr =
    (if negb (initialized x) then (Err (dead_zone (slot_name info)), st, fr)
     else if bool_decide (run_kind x = Const) then
       (Err (Msg (chars "TypeError: Assignment to constant variable '" ++ slot_name info ++
                  chars "'")), st, fr)
     else (Ok tt, st, set_slots fr (<[s := {| slot_value := v; initialized := true;
                                              run_kind := run_kind x |}]> (run_slots fr)))).
Proof.
  intros Hx Hinfo Hv. pose proof (lookup_lt_Some _ _ _ Hx) as Hs. pose proof (lookup_lt_Some _ _ _ Hv) as Hr.
  apply Nat.ltb_lt in Hs, Hr.
  cbn [exec_data]. unfold check_slot_writable, slot, slot_info_name, init_slot, set_slot, slot,
    set_reg, reg, bind, frame. rewrite Hx. cbn [some_or_panic ret].
  rewrite Hinfo. cbn -[Nat.ltb chars dead_zone]. destruct (initialized x); cbn -[Nat.ltb chars dead_zone].
  - rewrite Hr. split; [done|]. rewrite andb_true_r. destruct (bool_decide _); [done|].
    cbn -[Nat.ltb]. rewrite Hv. cbn -[Nat.ltb]. rewrite Hx. cbn -[Nat.ltb]. by rewrite Hs.
  - by rewrite andb_false_r.
Qed.

Lemma local_slot_rules_witness :
  let f := sample [] [] 1 [{| slot_name := chars "k"; slot_kind := Const; captured := false |}] in
  let fr := set_slots (setup [] f Undefined []).2
              [{| slot_value := Null; initialized := true; run_kind := Const |}] in
  @exec_data toy f (LoadLocal 0 0) tt fr = (Ok tt, tt, set_registers fr [Null]) /\
  @exec_data toy f (StoreLocal 0 0) tt fr =
    (Err (Msg (chars "TypeError: Assignment to constant variable 'k'")), tt, fr).
Proof.
  intros f fr.
  apply (@local_slot_rules toy f fr 0 0
    {| slot_value := Null; initialized := true; run_kind := Const |}
    {| slot_name := chars "k"; slot_kind := Const; captured := false |} Undefined tt); reflexivity.
Defined.

(** ** The end of the code *)

(** The instruction pointer of verified code never leaves the code: where
    there is no instruction to fetch the body has ended, so the loop returns its
    completion (register zero at top level, undefined in a function) and the
    out-of-bounds error is unreachable. *)
Theorem ip_stays_in_code {I : Interpreter} m pool this args n top st v st' fr :
  verify_module m = Ok tt -> Forall clean pool ->
  run_loop (main m) n top st (setup pool (main m) this args).2 = (Ok v, st', fr) ->
  code (main m) !! ip fr = None ->
  run_step (main m) top st' fr =
    (Ok (Some (if top then default Undefined (registers fr !! 0%nat) else Undefined)), st', fr).
Proof.
  intros Hv%verify_function_Ok Hp Hrun Hnone.
  assert (header_ok (main m)) as Hh by by apply well_formed_inv in Hv as (? & _).
  pose proof (safe_run_loop (main m) Hv n top st _ (setup_frame_ok pool _ this args Hp Hh)) as Hs.
  rewrite Hrun in Hs. destruct Hs as [[_ _ _ Hip] _].
  unfold run_step, bind, frame. rewrite Hnone. apply lookup_ge_None in Hnone.
  replace (ip fr) with (length (code (main m))) by lia. by rewrite Nat.eqb_refl.
Qed.

(** Two jumps to the end of the code. *)
Definition jump_to_end : BytecodeModule := {| main :=
  sample [LoadConst 0 0 : Instr; Jump 2 : Instr] [CNull] 1 [] |}.

Lemma ip_stays_in_code_witness :
  let fr := set_ip (set_registers (setup [] (main jump_to_end) Undefined []).2 [Null]) 2 in
  @run_step toy (main jump_to_end) true tt fr =
    (Ok (Some (default Undefined (registers fr !! 0%nat))), tt, fr).
Proof.
  intros fr.
  apply (@ip_stays_in_code toy jump_to_end [] Undefined [] 2 true tt None tt fr);
    [reflexivity|constructor|reflexivity|reflexivity].
Defined.

(** A name operand may be a string constant for the verifier, but the machine
    reads names only from name constants: such code verifies and then fails with
    an internal error. *)
Example string_name_operand_verifies_but_fails :
  let f := sample [LoadGlobal 0 0 : Instr] [CString (JsString.from_string (chars "x"))] 1 [] in
  verify_function f = Ok tt /\
  (@run_loop toy f 1 true tt (setup [] f Undefined []).2).1.1 =
    Err (Msg (chars "internal error: bad string constant")).
Proof. split; reflexivity. Qed.
