(* ===== verification/VmSlots.v ===== *)
(** Which instructions can change a local slot: an initialized constant keeps
    its value under every instruction but the declarations that target it. *)
From stdpp Require Import prelude list strings.
From Stdlib Require Import ZArith Lia SpecFloat.
From S2P Require Import Prelude JsString BigInt Opcode Verify VerifySpec VerifyTheorems Machine Vm VmTheorems.
Import Opcode Machine Vm.
Local Open Scope Z_scope.
Local Open Scope vm_scope.

Section Keeps.
Context `{Interpreter} (s : nat) (x : RunSlot).

(** A computation keeps slot [s] when it still holds [x] afterwards, however the
    computation ends. *)
Definition holds (fr : CallFrame) : Prop := run_slots fr !! s = Some x.
Definition keeps {A} (m : M A) : Prop := forall st fr, holds fr -> holds (m st fr).2.

Lemma keeps_ret {A} (a : A) : keeps (ret a).
Proof. by intros st fr. Qed.
Lemma keeps_throw {A} e : keeps (throw (A := A) e).
Proof. by intros st fr. Qed.
Lemma keeps_panic {A} : keeps (panic (A := A)).
Proof. by intros st fr. Qed.
Lemma keeps_ask {A} (r : Request A) : keeps (ask r).
Proof. intros st fr Hfr. unfold ask. by destruct (on_request r st) as [[] ?]. Qed.
Lemma keeps_query {A} (q : Query A) : keeps (query q).
Proof. intros st fr Hfr. unfold query. by destruct (on_query q st). Qed.
Lemma keeps_bind {A B} (m : M A) (k : A -> M B) :
  keeps m -> (forall a, keeps (k a)) -> keeps (bind m k).
Proof.
  intros Hm Hk st fr Hfr. specialize (Hm st fr Hfr). unfold bind.
  destruct (m st fr) as [[[a|e|] st'] fr']; simpl in *; [by apply Hk|done..].
Qed.
Lemma keeps_frame {B} (k : CallFrame -> M B) :
  (forall fr, holds fr -> keeps (k fr)) -> keeps (bind frame k).
Proof. intros Hk st fr Hfr. by apply Hk. Qed.
Lemma keeps_put fr : holds fr -> keeps (put fr).
Proof. by intros Hfr st fr' _. Qed.
Lemma keeps_some_or {A} (o : option A) e : keeps (some_or o e).
Proof. destruct o; [apply keeps_ret|apply keeps_throw]. Qed.
Lemma keeps_some_or_panic {A} (o : option A) : keeps (some_or_panic o).
Proof. destruct o; [apply keeps_ret|apply keeps_panic]. Qed.

Lemma keeps_set_slot s' y : s' <> s -> keeps (set_slot s' y).
Proof.
  intros Hs. apply keeps_frame. intros fr Hfr. case_match; [|apply keeps_panic].
  apply keeps_put. unfold holds. simpl. by rewrite list_lookup_insert_ne.
Qed.

End Keeps.

#[export] Hint Resolve keeps_ret keeps_throw keeps_panic keeps_ask keeps_query keeps_some_or
  keeps_some_or_panic keeps_set_slot : rust.

Ltac keep_step :=
  match goal with
  | |- keeps _ _ (bind frame _) => apply keeps_frame; intros
  | |- keeps _ _ (bind _ _) => apply keeps_bind; [|intros]
  | |- keeps _ _ (if ?b then _ else _) => destruct b eqn:?
  | |- keeps _ _ (match ?y with _ => _ end) => destruct y eqn:?
  | |- keeps _ _ (put _) => apply keeps_put; done
  | |- keeps _ _ _ => solve [auto with rust]
  end.
Ltac keep := repeat keep_step.

Section Instructions.
Context `{Interpreter} (f : BytecodeFunction) (s : nat) (x : RunSlot).

Lemma keeps_reg r : keeps s x (reg r).
Proof. unfold reg. keep. Qed.
Lemma keeps_set_reg r v : keeps s x (set_reg r v).
Proof. unfold set_reg. keep. Qed.
Lemma keeps_slot s' : keeps s x (slot s').
Proof. unfold slot. keep. Qed.
Lemma keeps_slot_info_name s' : keeps s x (slot_info_name f s').
Proof. unfold slot_info_name. keep. Qed.
Lemma keeps_jump t : keeps s x (jump t).
Proof. unfold jump. keep. Qed.
Lemma keeps_const_string k : keeps s x (const_string f k).
Proof. unfold const_string. keep. Qed.
Lemma keeps_current_scope : keeps s x current_scope.
Proof. unfold current_scope. keep. Qed.
#[local] Hint Resolve keeps_reg keeps_set_reg keeps_slot keeps_slot_info_name keeps_jump
  keeps_const_string keeps_current_scope : rust.
Lemma keeps_scope_strict : keeps s x scope_strict.
Proof. unfold scope_strict. keep. Qed.
Lemma keeps_init_slot s' v : s' <> s -> keeps s x (init_slot s' v).
Proof. intros. unfold init_slot. keep. Qed.
Lemma keeps_check_slot_writable s' : keeps s x (check_slot_writable f s').
Proof. unfold check_slot_writable. keep. Qed.
#[local] Hint Resolve keeps_scope_strict keeps_init_slot keeps_check_slot_writable : rust.

Context (Hconst : run_kind x = Const) (Hinit : initialized x = true).

(** A constant refuses the write, so what would follow does not run. *)
Lemma keeps_refused {B} s' (k : unit -> M B) :
  (s' <> s -> keeps s x (k tt)) -> keeps s x (bind (check_slot_writable f s') k).
Proof.
  intros Hk st fr Hfr. destruct (decide (s' = s)) as [->|Hne].
  - unfold check_slot_writable, slot, bind, frame. unfold holds in *. rewrite Hfr.
    cbn [some_or_panic ret]. unfold slot_info_name.
    destruct (slots f !! s); cbn; [|done]. by rewrite Hconst, Hinit.
  - apply keeps_bind; [auto with rust| |done]. intros []. by apply Hk.
Qed.

Lemma keeps_compound_slot s' op r : keeps s x (compound_slot f s' op r).
Proof.
  unfold compound_slot. destruct (bin_op op); [|auto with rust].
  do 5 (apply keeps_bind; [solve [keep]|intros]). apply keeps_refused. intros Hne. keep.
Qed.

Lemma keeps_push_call_args l : forall argv, keeps s x (push_call_args argv l).
Proof. unfold push_call_args, push_call_arg. induction l; intros; keep. Qed.
#[local] Hint Resolve keeps_push_call_args keeps_compound_slot : rust.
Lemma keeps_spread_template k : keeps s x (spread_template f k).
Proof. unfold spread_template. keep. Qed.
Lemma keeps_spread_argv l : forall argv, keeps s x (spread_argv l argv).
Proof. induction l; intros; cbn [spread_argv]; unfold push_call_arg; keep. Qed.
Lemma keeps_spread_items l : forall i p, keeps s x (spread_items l i p).
Proof. induction l; intros; cbn [spread_items]; keep. Qed.
#[local] Hint Resolve keeps_spread_template keeps_spread_argv keeps_spread_items : rust.
Lemma keeps_spread_array l : keeps s x (spread_array l).
Proof. unfold spread_array. keep. Qed.
Lemma keeps_string_values l : keeps s x (string_values l).
Proof. induction l; cbn [string_values]; keep. Qed.
#[local] Hint Resolve keeps_spread_array keeps_string_values : rust.
Lemma keeps_to_destruct_array v : keeps s x (to_destruct_array v).
Proof. unfold to_destruct_array. keep. Qed.
Lemma keeps_rest_object a b : keeps s x (rest_object a b).
Proof. unfold rest_object. keep. Qed.
Lemma keeps_make_function g c n : keeps s x (make_function g c n).
Proof. unfold make_function. keep. Qed.
Lemma keeps_object_key b k : keeps s x (object_key f b k).
Proof. unfold object_key. keep. Qed.
#[local] Hint Resolve keeps_to_destruct_array keeps_rest_object keeps_make_function
  keeps_object_key : rust.
Lemma keeps_object_entries h b l : forall p, keeps s x (object_entries f h b p l).
Proof. induction l; intros; cbn [object_entries]; unfold object_entry; keep. Qed.
#[local] Hint Resolve keeps_object_entries : rust.
Lemma keeps_build_object l : keeps s x (build_object f l).
Proof. unfold build_object. keep. Qed.
Lemma keeps_class_function k c n : keeps s x (class_function f k c n).
Proof. unfold class_function, make_ast_function. keep. Qed.
Lemma keeps_name_value n : keeps s x (name_value n).
Proof. unfold name_value. keep. Qed.
Lemma keeps_decorator_values l : keeps s x (decorator_values l).
Proof. induction l as [|[? []] ?]; cbn [decorator_values]; keep. Qed.
#[local] Hint Resolve keeps_build_object keeps_class_function keeps_name_value
  keeps_decorator_values : rust.
Lemma keeps_class_members t e1 e2 e3 l : forall p, keeps s x (class_members f t e1 e2 e3 p l).
Proof.
  induction l; intros; cbn [class_members]; [keep|].
  unfold class_member, add_definition, place_member. keep.
Qed.
Lemma keeps_bind_computed_keys c l : forall i, keeps s x (bind_computed_keys c i l).
Proof. induction l; intros; cbn [bind_computed_keys]; keep. Qed.
Lemma keeps_static_elements l : keeps s x (static_elements f l).
Proof. induction l; cbn [static_elements]; keep. Qed.
Lemma keeps_field_definitions l : keeps s x (field_definitions l).
Proof. induction l; cbn [field_definitions]; keep. Qed.
#[local] Hint Resolve keeps_class_members keeps_bind_computed_keys keeps_static_elements
  keeps_field_definitions : rust.
Lemma keeps_build_class t : keeps s x (build_class_from_template f t).
Proof. unfold build_class_from_template, strict_closure. keep. Qed.
Lemma keeps_load_const c : keeps s x (load_const c).
Proof. unfold load_const. keep. Qed.
Lemma keeps_in_tail_position d : keeps s x (in_tail_position f d).
Proof. unfold in_tail_position. keep. Qed.
#[local] Hint Resolve keeps_build_class keeps_load_const keeps_in_tail_position : rust.

(** The declarations that give slot [s] a new value. *)
Definition redeclares (i : Instr) : bool :=
  match i with
  | Data (DeclareLocal s' _ _ | InitLocal s' _ | AnnexBUpdate _ _ (Some s')) => (s' =? s)%nat
  | _ => false
  end.

Lemma keeps_dispatch i : redeclares i = false -> keeps s x (dispatch f i).
Proof.
  intros Hr. destruct i as [i|i|i|i|i|i]; destruct i; cbn [dispatch exec_data exec_operator
    exec_control exec_property exec_unwind exec_class redeclares] in *;
    unfold constant, borrow_range, take_range, exec_binary, direct_eval, make_ast_function,
      check_destruct_object, push_handler, push_scope;
    try match goal with y : option nat |- _ => destruct y end;
    try (apply Nat.eqb_neq in Hr);
    try (solve [keep]);
    apply keeps_refused; intros; keep.
Qed.

End Instructions.

(** C6. An initialized constant is immutable: for every behaviour of the
    interpreter and whatever the completion, executing an instruction leaves an
    initialized constant slot as it is, unless the instruction is a declaration
    of that very slot. *)
Theorem const_slot_is_immutable {I : Interpreter} f i s x st fr :
  run_slots fr !! s = Some x -> run_kind x = Const -> initialized x = true ->
  redeclares s i = false ->
  run_slots (execute_instruction f i st fr).2 !! s = Some x.
Proof.
  intros Hx Hc Hi Hr. apply (keeps_bind s x (ask _)); [auto with rust| |exact Hx]. intros _.
  apply keeps_bind; [|intros; by apply keeps_dispatch].
  apply keeps_frame. intros fr' Hfr'. by apply keeps_put.
Qed.

Lemma const_slot_is_immutable_witness :
  let f := sample [] [] 1 [{| slot_name := chars "k"; slot_kind := Const; captured := false |}] in
  let x := {| slot_value := Null; initialized := true; run_kind := Const |} in
  let fr := set_slots (setup [] f Undefined []).2 [x] in
  run_slots (@execute_instruction toy f (CompoundLocal 0 0 AAdd 0) tt fr).2 !! 0%nat = Some x.
Proof.
  intros f x fr.
  apply (@const_slot_is_immutable toy f (CompoundLocal 0 0 AAdd 0) 0 x tt fr); reflexivity.
Defined.
