(* ===== verification/Compiler.v ===== *)
(** The compiler's state and primitive operations: the first part of
    [bytecode/compiler.rs].

    [Compiler] is the source's structure, a computation [M] threads it and may
    decline.  A decline abandons the structure, so [M] returns no state with it.
    A registers, slots and constants counter is a natural number whose 16-bit
    bound each allocation checks, as [checked_add] and [try_from] do.  Recursion
    that is not on the shape of the tree takes fuel, and [OutOfFuel] is the
    outcome of too little of it.  Hash maps and sets are [gmap] and [gset]; no
    operation below depends on their order. *)
From stdpp Require Import prelude list strings gmap sorting.
From Stdlib Require Import ZArith Lia SpecFloat.
From S2P Require Import Prelude JsString BigInt BigIntText Ast Opcode.
Import Opcode.
Local Open Scope Z_scope.

Declare Scope compile_scope.
Delimit Scope compile_scope with compile.

Module Compiler.

(** The bits of a double are its key in the table of numbers. *)
#[export] Instance spec_float_eq_dec : EqDecision spec_float.
Proof. solve_decision. Defined.
#[export] Instance spec_float_countable : Countable spec_float.
Proof.
  refine (inj_countable'
    (fun f => match f with
              | S754_zero s => (0%nat, s, 1%positive, 0)
              | S754_infinity s => (1%nat, s, 1%positive, 0)
              | S754_nan => (2%nat, false, 1%positive, 0)
              | S754_finite s m e => (3%nat, s, m, e)
              end)
    (fun '(k, s, m, e) => match k with
              | 0%nat => S754_zero s
              | 1%nat => S754_infinity s
              | 2%nat => S754_nan
              | _ => S754_finite s m e
              end) _).
  by intros [].
Defined.

(** ** State *)

(** [Decline]: abandon the program, or keep the enclosing function as a tree. *)
Inductive Decline := DeclineUnit (reason : string) | DeclineFunc (reason : string).

Definition decline_reason (d : Decline) : string :=
  match d with DeclineUnit reason | DeclineFunc reason => reason end.

Inductive ThisMode := Frame | Global.

(** Where the constant index of a deferred function lands. *)
Inductive PatchTarget :=
| PatchFunction (addr : nat)
| PatchCtor (tmpl : nat)
| PatchMember (tmpl index : nat).

Inductive FuncBody := FStmts (stmts : list Statement) | FExpr (e : Expr).

Record FuncDef := {
  def_source_text : option nat;
  def_named_expression : bool;
  def_name : option Text;
  def_params : list Text;
  def_body : FuncBody;
  def_is_arrow : bool;
  def_is_async : bool;
  def_is_generator : bool;
  def_is_constructor : bool;
}.

Record DeferredFn := { patch : PatchTarget; def : FuncDef; snapshot : gset Text }.

Inductive FuncOutcome := OutBytecode (f : BytecodeFunction) | OutAst (a : AstFunction).

(** An instance field's key: its name, or the index of its computed key. *)
Inductive FieldKey := FieldStatic (name : Text) | FieldPrivate (name : Text) | FieldComputed (index : nat).

Record Scope := {
  bindings : gmap Text Slot;
  global : bool;
  boxed : gset Text;
  runtime : bool;
}.

Record CompletionRegs := { value : Reg; present : option Reg }.

Inductive CtxKind := KLoop | KSwitch | KLabelBlock.

Record LoopCtx := {
  breaks : list nat;
  continues : list nat;
  labels : list Text;
  kind : CtxKind;
  cleanup_depth : nat;
  completion_depth : nat;
}.

(** One cleanup an abrupt exit must run. *)
Inductive UnwindCtx :=
| UHandler (finally : option (list Statement)) (close_iter : option Reg)
| UScope
| UPending
| UEnumerator (state : Reg).

Inductive Binding := BSlot (slot : Slot) | BGlobal.

Inductive CallArgs := ArgRange (start : Reg) (argc : nat) | ArgSpread (tmpl : nat).

#[export] Instance CtxKind_eq_dec : EqDecision CtxKind.
Proof. solve_decision. Defined.

Record Compiler := mkCompiler {
  c_code : list Instr;
  c_constants : list Constant;
  c_strings : gmap Text nat;
  c_numbers : gmap spec_float nat;
  c_cached_true : option nat;
  c_cached_false : option nat;
  c_cached_null : option nat;
  c_cached_undefined : option nat;
  c_slots : list SlotInfo;
  c_scopes : list Scope;
  c_loops : list LoopCtx;
  c_completions : list CompletionRegs;
  c_completion_presence : gmap Reg Reg;
  c_pending_labels : list Text;
  c_unwind : list UnwindCtx;
  c_deferred : list DeferredFn;
  c_next_reg : nat;
  c_max_reg : nat;
  c_outer_block : gset Text;
  c_captured : gset Text;
  c_top_level : bool;
  c_this_mode : ThisMode;
  c_is_arrow : bool;
  c_captures_arguments : bool;
  c_annex_updates : gmap nat (Text * Binding);
}.

Definition set_code (x : list Instr) (s : Compiler) : Compiler :=
  mkCompiler x s.(c_constants) s.(c_strings) s.(c_numbers) s.(c_cached_true) s.(c_cached_false)
    s.(c_cached_null) s.(c_cached_undefined) s.(c_slots) s.(c_scopes) s.(c_loops)
    s.(c_completions) s.(c_completion_presence) s.(c_pending_labels) s.(c_unwind) s.(c_deferred)
    s.(c_next_reg) s.(c_max_reg) s.(c_outer_block) s.(c_captured) s.(c_top_level) s.(c_this_mode)
    s.(c_is_arrow) s.(c_captures_arguments) s.(c_annex_updates).
Definition set_constants (x : list Constant) (s : Compiler) : Compiler :=
  mkCompiler s.(c_code) x s.(c_strings) s.(c_numbers) s.(c_cached_true) s.(c_cached_false)
    s.(c_cached_null) s.(c_cached_undefined) s.(c_slots) s.(c_scopes) s.(c_loops)
    s.(c_completions) s.(c_completion_presence) s.(c_pending_labels) s.(c_unwind) s.(c_deferred)
    s.(c_next_reg) s.(c_max_reg) s.(c_outer_block) s.(c_captured) s.(c_top_level) s.(c_this_mode)
    s.(c_is_arrow) s.(c_captures_arguments) s.(c_annex_updates).
Definition set_strings (x : gmap Text nat) (s : Compiler) : Compiler :=
  mkCompiler s.(c_code) s.(c_constants) x s.(c_numbers) s.(c_cached_true) s.(c_cached_false)
    s.(c_cached_null) s.(c_cached_undefined) s.(c_slots) s.(c_scopes) s.(c_loops)
    s.(c_completions) s.(c_completion_presence) s.(c_pending_labels) s.(c_unwind) s.(c_deferred)
    s.(c_next_reg) s.(c_max_reg) s.(c_outer_block) s.(c_captured) s.(c_top_level) s.(c_this_mode)
    s.(c_is_arrow) s.(c_captures_arguments) s.(c_annex_updates).
Definition set_numbers (x : gmap spec_float nat) (s : Compiler) : Compiler :=
  mkCompiler s.(c_code) s.(c_constants) s.(c_strings) x s.(c_cached_true) s.(c_cached_false)
    s.(c_cached_null) s.(c_cached_undefined) s.(c_slots) s.(c_scopes) s.(c_loops)
    s.(c_completions) s.(c_completion_presence) s.(c_pending_labels) s.(c_unwind) s.(c_deferred)
    s.(c_next_reg) s.(c_max_reg) s.(c_outer_block) s.(c_captured) s.(c_top_level) s.(c_this_mode)
    s.(c_is_arrow) s.(c_captures_arguments) s.(c_annex_updates).
Definition set_cached_true (x : option nat) (s : Compiler) : Compiler :=
  mkCompiler s.(c_code) s.(c_constants) s.(c_strings) s.(c_numbers) x s.(c_cached_false)
    s.(c_cached_null) s.(c_cached_undefined) s.(c_slots) s.(c_scopes) s.(c_loops)
    s.(c_completions) s.(c_completion_presence) s.(c_pending_labels) s.(c_unwind) s.(c_deferred)
    s.(c_next_reg) s.(c_max_reg) s.(c_outer_block) s.(c_captured) s.(c_top_level) s.(c_this_mode)
    s.(c_is_arrow) s.(c_captures_arguments) s.(c_annex_updates).
Definition set_cached_false (x : option nat) (s : Compiler) : Compiler :=
  mkCompiler s.(c_code) s.(c_constants) s.(c_strings) s.(c_numbers) s.(c_cached_true) x
    s.(c_cached_null) s.(c_cached_undefined) s.(c_slots) s.(c_scopes) s.(c_loops)
    s.(c_completions) s.(c_completion_presence) s.(c_pending_labels) s.(c_unwind) s.(c_deferred)
    s.(c_next_reg) s.(c_max_reg) s.(c_outer_block) s.(c_captured) s.(c_top_level) s.(c_this_mode)
    s.(c_is_arrow) s.(c_captures_arguments) s.(c_annex_updates).
Definition set_cached_null (x : option nat) (s : Compiler) : Compiler :=
  mkCompiler s.(c_code) s.(c_constants) s.(c_strings) s.(c_numbers) s.(c_cached_true)
    s.(c_cached_false) x s.(c_cached_undefined) s.(c_slots) s.(c_scopes) s.(c_loops)
    s.(c_completions) s.(c_completion_presence) s.(c_pending_labels) s.(c_unwind) s.(c_deferred)
    s.(c_next_reg) s.(c_max_reg) s.(c_outer_block) s.(c_captured) s.(c_top_level) s.(c_this_mode)
    s.(c_is_arrow) s.(c_captures_arguments) s.(c_annex_updates).
Definition set_cached_undefined (x : option nat) (s : Compiler) : Compiler :=
  mkCompiler s.(c_code) s.(c_constants) s.(c_strings) s.(c_numbers) s.(c_cached_true)
    s.(c_cached_false) s.(c_cached_null) x s.(c_slots) s.(c_scopes) s.(c_loops) s.(c_completions)
    s.(c_completion_presence) s.(c_pending_labels) s.(c_unwind) s.(c_deferred) s.(c_next_reg)
    s.(c_max_reg) s.(c_outer_block) s.(c_captured) s.(c_top_level) s.(c_this_mode) s.(c_is_arrow)
    s.(c_captures_arguments) s.(c_annex_updates).
Definition set_slots (x : list SlotInfo) (s : Compiler) : Compiler :=
  mkCompiler s.(c_code) s.(c_constants) s.(c_strings) s.(c_numbers) s.(c_cached_true)
    s.(c_cached_false) s.(c_cached_null) s.(c_cached_undefined) x s.(c_scopes) s.(c_loops)
    s.(c_completions) s.(c_completion_presence) s.(c_pending_labels) s.(c_unwind) s.(c_deferred)
    s.(c_next_reg) s.(c_max_reg) s.(c_outer_block) s.(c_captured) s.(c_top_level) s.(c_this_mode)
    s.(c_is_arrow) s.(c_captures_arguments) s.(c_annex_updates).
Definition set_scopes (x : list Scope) (s : Compiler) : Compiler :=
  mkCompiler s.(c_code) s.(c_constants) s.(c_strings) s.(c_numbers) s.(c_cached_true)
    s.(c_cached_false) s.(c_cached_null) s.(c_cached_undefined) s.(c_slots) x s.(c_loops)
    s.(c_completions) s.(c_completion_presence) s.(c_pending_labels) s.(c_unwind) s.(c_deferred)
    s.(c_next_reg) s.(c_max_reg) s.(c_outer_block) s.(c_captured) s.(c_top_level) s.(c_this_mode)
    s.(c_is_arrow) s.(c_captures_arguments) s.(c_annex_updates).
Definition set_loops (x : list LoopCtx) (s : Compiler) : Compiler :=
  mkCompiler s.(c_code) s.(c_constants) s.(c_strings) s.(c_numbers) s.(c_cached_true)
    s.(c_cached_false) s.(c_cached_null) s.(c_cached_undefined) s.(c_slots) s.(c_scopes) x
    s.(c_completions) s.(c_completion_presence) s.(c_pending_labels) s.(c_unwind) s.(c_deferred)
    s.(c_next_reg) s.(c_max_reg) s.(c_outer_block) s.(c_captured) s.(c_top_level) s.(c_this_mode)
    s.(c_is_arrow) s.(c_captures_arguments) s.(c_annex_updates).
Definition set_completions (x : list CompletionRegs) (s : Compiler) : Compiler :=
  mkCompiler s.(c_code) s.(c_constants) s.(c_strings) s.(c_numbers) s.(c_cached_true)
    s.(c_cached_false) s.(c_cached_null) s.(c_cached_undefined) s.(c_slots) s.(c_scopes)
    s.(c_loops) x s.(c_completion_presence) s.(c_pending_labels) s.(c_unwind) s.(c_deferred)
    s.(c_next_reg) s.(c_max_reg) s.(c_outer_block) s.(c_captured) s.(c_top_level) s.(c_this_mode)
    s.(c_is_arrow) s.(c_captures_arguments) s.(c_annex_updates).
Definition set_completion_presence (x : gmap Reg Reg) (s : Compiler) : Compiler :=
  mkCompiler s.(c_code) s.(c_constants) s.(c_strings) s.(c_numbers) s.(c_cached_true)
    s.(c_cached_false) s.(c_cached_null) s.(c_cached_undefined) s.(c_slots) s.(c_scopes)
    s.(c_loops) s.(c_completions) x s.(c_pending_labels) s.(c_unwind) s.(c_deferred)
    s.(c_next_reg) s.(c_max_reg) s.(c_outer_block) s.(c_captured) s.(c_top_level) s.(c_this_mode)
    s.(c_is_arrow) s.(c_captures_arguments) s.(c_annex_updates).
Definition set_pending_labels (x : list Text) (s : Compiler) : Compiler :=
  mkCompiler s.(c_code) s.(c_constants) s.(c_strings) s.(c_numbers) s.(c_cached_true)
    s.(c_cached_false) s.(c_cached_null) s.(c_cached_undefined) s.(c_slots) s.(c_scopes)
    s.(c_loops) s.(c_completions) s.(c_completion_presence) x s.(c_unwind) s.(c_deferred)
    s.(c_next_reg) s.(c_max_reg) s.(c_outer_block) s.(c_captured) s.(c_top_level) s.(c_this_mode)
    s.(c_is_arrow) s.(c_captures_arguments) s.(c_annex_updates).
Definition set_unwind (x : list UnwindCtx) (s : Compiler) : Compiler :=
  mkCompiler s.(c_code) s.(c_constants) s.(c_strings) s.(c_numbers) s.(c_cached_true)
    s.(c_cached_false) s.(c_cached_null) s.(c_cached_undefined) s.(c_slots) s.(c_scopes)
    s.(c_loops) s.(c_completions) s.(c_completion_presence) s.(c_pending_labels) x s.(c_deferred)
    s.(c_next_reg) s.(c_max_reg) s.(c_outer_block) s.(c_captured) s.(c_top_level) s.(c_this_mode)
    s.(c_is_arrow) s.(c_captures_arguments) s.(c_annex_updates).
Definition set_deferred (x : list DeferredFn) (s : Compiler) : Compiler :=
  mkCompiler s.(c_code) s.(c_constants) s.(c_strings) s.(c_numbers) s.(c_cached_true)
    s.(c_cached_false) s.(c_cached_null) s.(c_cached_undefined) s.(c_slots) s.(c_scopes)
    s.(c_loops) s.(c_completions) s.(c_completion_presence) s.(c_pending_labels) s.(c_unwind) x
    s.(c_next_reg) s.(c_max_reg) s.(c_outer_block) s.(c_captured) s.(c_top_level) s.(c_this_mode)
    s.(c_is_arrow) s.(c_captures_arguments) s.(c_annex_updates).
Definition set_next_reg (x : nat) (s : Compiler) : Compiler :=
  mkCompiler s.(c_code) s.(c_constants) s.(c_strings) s.(c_numbers) s.(c_cached_true)
    s.(c_cached_false) s.(c_cached_null) s.(c_cached_undefined) s.(c_slots) s.(c_scopes)
    s.(c_loops) s.(c_completions) s.(c_completion_presence) s.(c_pending_labels) s.(c_unwind)
    s.(c_deferred) x s.(c_max_reg) s.(c_outer_block) s.(c_captured) s.(c_top_level)
    s.(c_this_mode) s.(c_is_arrow) s.(c_captures_arguments) s.(c_annex_updates).
Definition set_max_reg (x : nat) (s : Compiler) : Compiler :=
  mkCompiler s.(c_code) s.(c_constants) s.(c_strings) s.(c_numbers) s.(c_cached_true)
    s.(c_cached_false) s.(c_cached_null) s.(c_cached_undefined) s.(c_slots) s.(c_scopes)
    s.(c_loops) s.(c_completions) s.(c_completion_presence) s.(c_pending_labels) s.(c_unwind)
    s.(c_deferred) s.(c_next_reg) x s.(c_outer_block) s.(c_captured) s.(c_top_level)
    s.(c_this_mode) s.(c_is_arrow) s.(c_captures_arguments) s.(c_annex_updates).
Definition set_captured (x : gset Text) (s : Compiler) : Compiler :=
  mkCompiler s.(c_code) s.(c_constants) s.(c_strings) s.(c_numbers) s.(c_cached_true)
    s.(c_cached_false) s.(c_cached_null) s.(c_cached_undefined) s.(c_slots) s.(c_scopes)
    s.(c_loops) s.(c_completions) s.(c_completion_presence) s.(c_pending_labels) s.(c_unwind)
    s.(c_deferred) s.(c_next_reg) s.(c_max_reg) s.(c_outer_block) x s.(c_top_level)
    s.(c_this_mode) s.(c_is_arrow) s.(c_captures_arguments) s.(c_annex_updates).
Definition set_captures_arguments (x : bool) (s : Compiler) : Compiler :=
  mkCompiler s.(c_code) s.(c_constants) s.(c_strings) s.(c_numbers) s.(c_cached_true)
    s.(c_cached_false) s.(c_cached_null) s.(c_cached_undefined) s.(c_slots) s.(c_scopes)
    s.(c_loops) s.(c_completions) s.(c_completion_presence) s.(c_pending_labels) s.(c_unwind)
    s.(c_deferred) s.(c_next_reg) s.(c_max_reg) s.(c_outer_block) s.(c_captured) s.(c_top_level)
    s.(c_this_mode) s.(c_is_arrow) x s.(c_annex_updates).
Definition set_annex_updates (x : gmap nat (Text * Binding)) (s : Compiler) : Compiler :=
  mkCompiler s.(c_code) s.(c_constants) s.(c_strings) s.(c_numbers) s.(c_cached_true)
    s.(c_cached_false) s.(c_cached_null) s.(c_cached_undefined) s.(c_slots) s.(c_scopes)
    s.(c_loops) s.(c_completions) s.(c_completion_presence) s.(c_pending_labels) s.(c_unwind)
    s.(c_deferred) s.(c_next_reg) s.(c_max_reg) s.(c_outer_block) s.(c_captured) s.(c_top_level)
    s.(c_this_mode) s.(c_is_arrow) s.(c_captures_arguments) x.

Definition root_scope (is_global : bool) : Scope :=
  {| bindings := ∅; global := is_global; boxed := ∅; runtime := false |}.

(** [Compiler::top_level] and [Compiler::for_function]. *)
Definition top_level : Compiler :=
  mkCompiler [] [] ∅ ∅ None None None None [] [root_scope true] [] [] ∅ [] [] [] 0 0 ∅ ∅ true
    Global false false ∅.
Definition for_function (outer_block : gset Text) (this_mode : ThisMode) (is_arrow : bool)
  : Compiler :=
  mkCompiler [] [] ∅ ∅ None None None None [] [root_scope false] [] [] ∅ [] [] [] 0 0 outer_block ∅
    false this_mode is_arrow false ∅.

(** ** Computations *)

Inductive Stop := Declined (d : Decline) | OutOfFuel.

Definition M (A : Type) : Type := Compiler -> outcome Stop (A * Compiler).

Definition ret {A} (x : A) : M A := fun s => Ok (x, s).
Definition bind {A B} (m : M A) (k : A -> M B) : M B :=
  fun s => match m s with
           | Ok (x, s') => k x s'
           | Err e => Err e
           | Panic => Panic
           end.
Definition decline {A} (d : Decline) : M A := fun _ => Err (Declined d).
Definition out_of_fuel {A} : M A := fun _ => Err OutOfFuel.
Definition panic {A} : M A := fun _ => Panic.
Definition gets {A} (f : Compiler -> A) : M A := fun s => Ok (f s, s).
Definition modify (f : Compiler -> Compiler) : M unit := fun s => Ok (tt, f s).

End Compiler.

Notation "'let!' x ':=' m 'in' k" := (Compiler.bind m (fun x => k))
  (at level 10, x name, m at level 100, k at level 200) : compile_scope.
Notation "'let!' ''' p ':=' m 'in' k" :=
  (Compiler.bind m (fun x => match x with p => k end))
  (at level 10, p pattern, m at level 100, k at level 200) : compile_scope.
Notation "m ';!' k" := (Compiler.bind m (fun _ => k)) (at level 100, right associativity)
  : compile_scope.

Module Primitives.
Import Compiler.
Local Open Scope compile_scope.

(** [ok_or(Decline::Func(reason))?] *)
Definition some_or {A} (o : option A) (reason : string) : M A :=
  match o with Some x => ret x | None => decline (DeclineFunc reason) end.
Definition some_or_panic {A} (o : option A) : M A :=
  match o with Some x => ret x | None => panic end.

(** [for x in l { .. }], and the loop that collects a result per element. *)
Fixpoint for_each {A} (l : list A) (body : A -> M unit) : M unit :=
  match l with
  | [] => ret tt
  | x :: l => body x ;! for_each l body
  end.
Fixpoint for_enumerate {A} (i : nat) (l : list A) (body : nat -> A -> M unit) : M unit :=
  match l with
  | [] => ret tt
  | x :: l => body i x ;! for_enumerate (S i) l body
  end.
Fixpoint for_map {A B} (l : list A) (body : A -> M B) : M (list B) :=
  match l with
  | [] => ret []
  | x :: l => let! y := body x in let! ys := for_map l body in ret (y :: ys)
  end.
Fixpoint for_fold {A B} (l : list A) (acc : B) (body : B -> A -> M B) : M B :=
  match l with
  | [] => ret acc
  | x :: l => let! acc := body acc x in for_fold l acc body
  end.

(** ** Allocation *)

Definition u16_max : nat := Z.to_nat 65535.
Definition fits_u16 (n : nat) : bool := Z.of_nat n <=? 65535.
Definition fits_u32 (n : nat) : bool := Z.of_nat n <=? 4294967295.

(** [u16::try_from(n).map_err(|_| Decline::Func(reason))?] *)
Definition try_u16 (n : nat) (reason : string) : M nat :=
  if fits_u16 n then ret n else decline (DeclineFunc reason).

(** Reserve [count] consecutive registers. *)
Definition alloc_regs (count : nat) : M Reg :=
  let! start := gets c_next_reg in
  let! count := try_u16 count "too many registers" in
  let! next := try_u16 (start + count) "too many registers" in
  modify (set_next_reg next) ;!
  modify (fun s => set_max_reg (max (c_max_reg s) next) s) ;!
  ret start.
Definition alloc_reg : M Reg := alloc_regs 1.

Definition checkpoint : M nat := gets c_next_reg.
Definition restore (checkpoint : nat) : M unit :=
  modify (set_next_reg checkpoint) ;!
  modify (fun s => set_completion_presence
    (filter (fun '(reg, _) => (reg < checkpoint)%nat) (c_completion_presence s)) s).

Definition alloc_slot (name : Text) (kind : SlotKind) : M Slot :=
  let! slots := gets c_slots in
  let! slot := try_u16 (length slots) "too many locals" in
  let! scopes := gets c_scopes in
  let! captured := gets c_captured in
  let captured := (length scopes =? 1)%nat && bool_decide (name ∈ captured) in
  modify (fun s => set_slots
    (c_slots s ++ [{| slot_name := name; slot_kind := kind; captured := captured |}]) s) ;!
  ret slot.

Definition push_const (constant : Constant) : M nat :=
  let! constants := gets c_constants in
  let! index := try_u16 (length constants) "pool exhausted" in
  modify (fun s => set_constants (c_constants s ++ [constant]) s) ;!
  ret index.

Definition intern_string (value : Text) : M nat :=
  let! strings := gets c_strings in
  match strings !! value with
  | Some index => ret index
  | None =>
      let! index := push_const (CName value) in
      modify (fun s => set_strings (<[value := index]> (c_strings s)) s) ;!
      ret index
  end.

Definition intern_number (value : spec_float) : M nat :=
  let! numbers := gets c_numbers in
  match numbers !! value with
  | Some index => ret index
  | None =>
      let! index := push_const (CNumber value) in
      modify (fun s => set_numbers (<[value := index]> (c_numbers s)) s) ;!
      ret index
  end.

(** A constant pushed once. *)
Definition cached_const (cached : Compiler -> option nat) (c : Constant)
    (remember : option nat -> Compiler -> Compiler) : M nat :=
  let! known := gets cached in
  match known with
  | Some index => ret index
  | None =>
      let! index := push_const c in
      modify (remember (Some index)) ;!
      ret index
  end.
Definition const_true : M nat := cached_const c_cached_true (CBool true) set_cached_true.
Definition const_false : M nat := cached_const c_cached_false (CBool false) set_cached_false.
Definition const_null : M nat := cached_const c_cached_null CNull set_cached_null.
Definition const_undefined : M nat :=
  cached_const c_cached_undefined CUndefined set_cached_undefined.

Definition emit (i : Instr) : M unit := modify (fun s => set_code (c_code s ++ [i]) s).

Definition load_const (index : nat) : M Reg :=
  let! dst := alloc_reg in emit (LoadConst dst index) ;! ret dst.
Definition load_undefined : M Reg := let! index := const_undefined in load_const index.

Definition here : M nat := gets (fun s => length (c_code s)).

(** The dummy target is overwritten before compilation finishes. *)
Definition emit_jump (make : Target -> Instr) : M nat :=
  let! addr := here in emit (make 0%nat) ;! ret addr.

(** The instruction with its target replaced, when it has one. *)
Definition with_target (i : Instr) (target : nat) : option Instr :=
  match i with
  | Control (Jump _) => Some (Jump target : Instr)
  | Control (JumpIfTrue r _) => Some (JumpIfTrue r target : Instr)
  | Control (JumpIfFalse r _) => Some (JumpIfFalse r target : Instr)
  | Control (JumpIfNullish r _) => Some (JumpIfNullish r target : Instr)
  | Control (JumpIfNotNullish r _) => Some (JumpIfNotNullish r target : Instr)
  | Unwind (PushCatch _ d) => Some (PushCatch target d : Instr)
  | Unwind (PushFinally _ d) => Some (PushFinally target d : Instr)
  | _ => None
  end.

Definition patch_jump (addr target : nat) : M unit :=
  if fits_u32 target then
    let! code := gets c_code in
    match code !! addr ≫= (fun i => with_target i target) with
    | Some i => modify (fun s => set_code (<[addr := i]> (c_code s)) s)
    | None => decline (DeclineFunc "bad jump patch")
    end
  else decline (DeclineFunc "code too large").

(** [self.patch_jump(addr, self.here())?] *)
Definition patch_here (addr : nat) : M unit := let! target := here in patch_jump addr target.
Definition patch_all_here (addrs : list nat) : M unit := for_each addrs patch_here.
Definition patch_all (addrs : list nat) (target : nat) : M unit :=
  for_each addrs (fun addr => patch_jump addr target).

(** [addr_target]: the checked cast of an address. *)
Definition addr_target (addr : nat) : M Target :=
  if fits_u32 addr then ret addr else decline (DeclineFunc "code too large").

(** ** Scopes and resolution *)

Definition last_scope (s : Compiler) : option Scope := last (c_scopes s).

(** [Vec::pop] *)
Definition pop_vec {A} (get : Compiler -> list A) (set : list A -> Compiler -> Compiler)
  : M (option A) :=
  let! l := gets get in
  match last l with
  | Some x => modify (set (take (length l - 1) l)) ;! ret (Some x)
  | None => ret None
  end.
Definition push_vec {A} (get : Compiler -> list A) (set : list A -> Compiler -> Compiler) (x : A)
  : M unit := modify (fun s => set (get s ++ [x]) s).

Definition push_unwind : UnwindCtx -> M unit := push_vec c_unwind set_unwind.
Definition pop_unwind : M (option UnwindCtx) := pop_vec c_unwind set_unwind.
Definition push_completion : CompletionRegs -> M unit := push_vec c_completions set_completions.
Definition pop_completion : M (option CompletionRegs) := pop_vec c_completions set_completions.

Definition push_scope_with_runtime (boxed : gset Text) (force_runtime : bool) : M unit :=
  let tracked := force_runtime || negb (bool_decide (boxed = ∅)) in
  push_vec c_scopes set_scopes
    {| bindings := ∅; global := false; boxed := boxed; runtime := tracked |} ;!
  if tracked then emit PushScope ;! push_unwind UScope else ret tt.
Definition push_scope (boxed : gset Text) : M unit := push_scope_with_runtime boxed false.

Definition pop_scope : M unit :=
  let! popped := pop_vec c_scopes set_scopes in
  let! scope := some_or popped "scope stack underflow" in
  if negb (runtime scope) then ret tt
  else
    emit PopScope ;!
    let! top := pop_unwind in
    match top with
    | Some UScope => ret tt
    | _ => decline (DeclineFunc "unwind stack underflow")
    end.

Definition is_boxed_here (name : Text) : M bool :=
  gets (fun s => match last_scope s with
                 | Some scope => negb (global scope) && bool_decide (name ∈ boxed scope)
                 | None => false
                 end).

(** The binding of a name in the innermost scope. *)
Definition bound_here (name : Text) (s : Compiler) : option Slot :=
  scope ← last_scope s; bindings scope !! name.

Definition with_binding (name : Text) (slot : Slot) (scope : Scope) : Scope :=
  {| bindings := <[name := slot]> (bindings scope); global := global scope;
     boxed := boxed scope; runtime := runtime scope |}.
Definition with_kind (kind : SlotKind) (info : SlotInfo) : SlotInfo :=
  {| slot_name := slot_name info; slot_kind := kind; captured := captured info |}.

Definition declare_slot (name : Text) (kind : SlotKind) : M Slot :=
  let! known := gets (bound_here name) in
  match known with
  | Some slot =>
      let! slots := gets c_slots in
      let! info := some_or_panic (slots !! slot) in
      modify (fun s => set_slots (<[slot := with_kind kind info]> (c_slots s)) s) ;!
      ret slot
  | None =>
      let! slot := alloc_slot name kind in
      let! scopes := gets c_scopes in
      match last scopes with
      | Some scope =>
          modify (set_scopes (take (length scopes - 1) scopes ++ [with_binding name slot scope])) ;!
          ret slot
      | None => ret slot
      end
  end.

Definition declare_slot_if_absent (name : Text) (kind : SlotKind) : M Slot :=
  let! known := gets (bound_here name) in
  match known with
  | Some slot => ret slot
  | None => declare_slot name kind
  end.

(** The loop of [resolve] over the scopes, innermost first: [None] when it runs
    off the end. *)
Fixpoint resolve_in (captured : gset Text) (name : Text) (scopes : list (nat * Scope))
  : option Binding :=
  match scopes with
  | [] => None
  | (index, scope) :: scopes =>
      if negb (global scope) && bool_decide (name ∈ boxed scope) then Some BGlobal
      else match bindings scope !! name with
           | Some slot =>
               if (index =? 0)%nat && bool_decide (name ∈ captured) then Some BGlobal
               else Some (BSlot slot)
           | None => if global scope then Some BGlobal else resolve_in captured name scopes
           end
  end.

Definition resolve (name : Text) : M Binding :=
  let! captured := gets c_captured in
  let! scopes := gets c_scopes in
  match resolve_in captured name (reverse (imap pair scopes)) with
  | Some binding => ret binding
  | None =>
      let! outer_block := gets c_outer_block in
      if bool_decide (name ∈ outer_block)
      then decline (DeclineUnit "block-scope capture needs Phase G")
      else ret BGlobal
  end.

Definition live_block_names (s : Compiler) : gset Text :=
  let blocks := if c_top_level s then 0%nat else 1%nat in
  ⋃ map (fun scope => if global scope then ∅ else dom (bindings scope)) (drop blocks (c_scopes s)).

(** ** Deferred functions *)

Definition defer_function (def : FuncDef) : M Reg :=
  let! dst := alloc_reg in
  let! addr := here in
  emit (MakeFunction dst u16_max) ;!
  modify (fun s => set_deferred
    (c_deferred s ++ [{| patch := PatchFunction addr; def := def; snapshot := live_block_names s |}])
    s) ;!
  ret dst.

(** ** Completion values *)

Definition new_completion (empty : bool) : M CompletionRegs :=
  let! top := gets c_top_level in
  let! value := if negb top then alloc_reg else load_undefined in
  if empty then
    let! flag :=
      if negb top then alloc_reg
      else let! constant := const_false in load_const constant in
    modify (fun s => set_completion_presence (<[value := flag]> (c_completion_presence s)) s) ;!
    ret {| value := value; present := Some flag |}
  else ret {| value := value; present := None |}.

Definition completion_regs (value : Reg) (s : Compiler) : CompletionRegs :=
  {| value := value; present := c_completion_presence s !! value |}.

(** UpdateEmpty. *)
Definition copy_completion (destination source : CompletionRegs) : M unit :=
  let! top := gets c_top_level in
  if negb top then ret tt
  else
    let! skip :=
      match present source with
      | Some src => let! addr := emit_jump (JumpIfFalse src) in ret (Some addr)
      | None => ret None
      end in
    emit (Mov (value destination) (value source)) ;!
    match present destination with
    | Some flag => let! constant := const_true in emit (LoadConst flag constant)
    | None => ret tt
    end ;!
    match skip with Some skip => patch_here skip | None => ret tt end.

Definition copy_statement_completion (destination : CompletionRegs) (statement : Statement)
    (value : Reg) : M unit :=
  if produces_completion_value statement then
    let! source := gets (completion_regs value) in copy_completion destination source
  else ret tt.

(** [copy_completion] of a register into a completion without a flag. *)
Definition copy_completion_value (destination : Reg) (source : Reg) : M unit :=
  let! source := gets (completion_regs source) in
  copy_completion {| value := destination; present := None |} source.

(** Merge the enclosing statement lists into the target of an abrupt exit. *)
Definition record_abrupt_completion (target : nat) : M unit :=
  let! top := gets c_top_level in
  if negb top then ret tt
  else
    let! loops := gets c_loops in
    let! ctx := some_or_panic (loops !! target) in
    let! completions := gets c_completions in
    let! frames := if (completion_depth ctx <=? length completions)%nat
                   then ret (drop (completion_depth ctx) completions) else panic in
    let! merged := new_completion true in
    for_each frames (fun frame => copy_completion merged frame) ;!
    let! destination := some_or_panic (head frames) in
    emit (Mov (value destination) (value merged)) ;!
    match present destination with
    | Some flag =>
        let! merged_flag := some_or_panic (present merged) in
        emit (Mov flag merged_flag)
    | None => ret tt
    end.

(** ** Loop contexts *)

Definition push_loop (labels : list Text) (kind : CtxKind) : M unit :=
  let! cleanup_depth := gets (fun s => length (c_unwind s)) in
  let! completion_depth := gets (fun s => length (c_completions s)) in
  push_vec c_loops set_loops
    {| breaks := []; continues := []; labels := labels; kind := kind;
       cleanup_depth := cleanup_depth; completion_depth := completion_depth |}.
(** [std::mem::take(&mut self.pending_labels)] *)
Definition take_pending_labels : M (list Text) :=
  let! labels := gets c_pending_labels in
  modify (set_pending_labels []) ;!
  ret labels.
Definition pop_loop : M LoopCtx :=
  let! popped := pop_vec c_loops set_loops in
  some_or popped "loop stack underflow".

Definition add_break (addr : nat) (ctx : LoopCtx) : LoopCtx :=
  {| breaks := breaks ctx ++ [addr]; continues := continues ctx; labels := labels ctx;
     kind := kind ctx; cleanup_depth := cleanup_depth ctx;
     completion_depth := completion_depth ctx |}.
Definition add_continue (addr : nat) (ctx : LoopCtx) : LoopCtx :=
  {| breaks := breaks ctx; continues := continues ctx ++ [addr]; labels := labels ctx;
     kind := kind ctx; cleanup_depth := cleanup_depth ctx;
     completion_depth := completion_depth ctx |}.
(** [self.loops[target].breaks.push(addr)] *)
Definition update_loop (target : nat) (f : LoopCtx -> LoopCtx) : M unit :=
  let! loops := gets c_loops in
  let! ctx := some_or_panic (loops !! target) in
  modify (fun s => set_loops (<[target := f ctx]> (c_loops s)) s).

(** [rposition]: the innermost context that satisfies the test. *)
Fixpoint rposition (accepts : LoopCtx -> bool) (loops : list (nat * LoopCtx)) : option nat :=
  match loops with
  | [] => None
  | (index, ctx) :: loops => if accepts ctx then Some index else rposition accepts loops
  end.
Definition find_loop (accepts : LoopCtx -> bool) (s : Compiler) : option nat :=
  rposition accepts (reverse (imap pair (c_loops s))).

Definition finish_loop (ctx : LoopCtx) (continue_target end_ : nat) : M unit :=
  patch_all (continues ctx) continue_target ;!
  patch_all (breaks ctx) end_.

End Primitives.

(** ** What a statement list declares *)

Module Names.
Import Compiler.

Definition lexical_kind (kind : VarKind) : SlotKind :=
  match kind with VConst => Const | _ => Let end.

(** One statement of [block_lexicals]. *)
Fixpoint lexicals (s : Statement) : list (Text * SlotKind) :=
  match s with
  | SVarDecl VVar _ _ _ => []
  | SVarDecl kind name _ None => [(name, lexical_kind kind)]
  | SVarDecl kind _ _ (Some pattern) =>
      map (fun bound => (bound, lexical_kind kind)) (pattern_names pattern)
  | SClassDecl _ _ name _ _ => [(name, Let)]
  | SDeclarations inner => flat_map lexicals inner
  | _ => []
  end.
Definition block_lexicals (stmts : list Statement) : list (Text * SlotKind) :=
  flat_map lexicals stmts.

Record FnDeclRef := {
  decl_source_text : option nat;
  decl_name : Text;
  decl_params : list Text;
  decl_body : list Statement;
  decl_is_async : bool;
  decl_is_generator : bool;
}.

Definition fn_decl (s : Statement) : list FnDeclRef :=
  match s with
  | SFnDecl _ source_text name params body is_async is_generator _ =>
      [{| decl_source_text := source_text; decl_name := name; decl_params := params;
          decl_body := body; decl_is_async := is_async; decl_is_generator := is_generator |}]
  | _ => []
  end.
Fixpoint fn_decls (s : Statement) : list FnDeclRef :=
  match s with
  | SFnDecl _ _ _ _ _ _ _ _ => fn_decl s
  | SDeclarations inner => flat_map fn_decls inner
  | SLabeled _ _ => match labeled_function s with Some f => fn_decl f | None => [] end
  | _ => []
  end.
Definition block_fn_decls (stmts : list Statement) : list FnDeclRef := flat_map fn_decls stmts.

Fixpoint loop_heads (s : Statement) : list Text :=
  match s with
  | SForIn binding _ _ | SForOf binding _ _ _ => declared_names binding
  | SDeclarations inner => flat_map loop_heads inner
  | _ => []
  end.
Definition block_loop_heads (stmts : list Statement) : list Text := flat_map loop_heads stmts.

(** The names a nested closure captures, out of the block's own. *)
Definition boxed_block_names (stmts : list Statement) : gset Text :=
  let candidates := map fst (block_lexicals stmts) ++ map decl_name (block_fn_decls stmts)
                    ++ block_loop_heads stmts in
  let has_eval := stmts_need_arguments stmts in
  list_to_set (List.filter (fun name => has_eval || statements_capture_identifier name stmts)
    candidates).

Definition boxed_for_head_names (init : option ForInit) (test update : option Expr)
    (body : list Statement) : gset Text :=
  let decl_inits decls := flat_map (fun '(_, init) => option_list init) decls in
  let '(candidates, inits) :=
    match init with
    | Some (IVar (VLet | VConst) decls) => (map fst decls, decl_inits decls)
    | Some (IPattern (VLet | VConst) pattern init trailing) =>
        (pattern_names pattern ++ map fst trailing, init :: decl_inits trailing)
    | _ => ([], [])
    end in
  let exprs := inits ++ option_list test ++ option_list update in
  list_to_set (List.filter (fun name =>
    existsb (expr_captures_identifier name) exprs || statements_capture_identifier name body)
    candidates).

Definition has_rest_param (params : list Text) : bool := existsb (starts_with (chars "...")) params.

Fixpoint has_dup_params (params : list Text) : bool :=
  match params with
  | [] => false
  | p :: params => existsb (text_eq p) params || has_dup_params params
  end.

(** The function-level names a nested callable may observe. *)
Definition find_captured (params : list Text) (body : FuncBody) : gset Text :=
  match body with
  | FStmts stmts =>
      let names := params ++ collect_var_names stmts ++ map fst (block_lexicals stmts)
                   ++ map decl_name (block_fn_decls stmts) ++ block_loop_heads stmts in
      let has_eval := stmts_need_arguments stmts in
      list_to_set (List.filter (fun name => has_eval || statements_capture_identifier name stmts)
        names)
  | FExpr e => list_to_set (List.filter (fun param => expr_captures_identifier param e) params)
  end.

(** The function kept as a tree. *)
Definition build_ast_function (def : FuncDef) : AstFunction :=
  let body := match def_body def with
              | FStmts stmts => stmts
              | FExpr e => [SReturn (Some e)]
              end in
  {| ast_source_text := def_source_text def;
     ast_named_expression := def_named_expression def;
     ast_name := def_name def;
     ast_params := def_params def;
     ast_body := body;
     ast_is_arrow := def_is_arrow def;
     ast_is_constructor := def_is_constructor def;
     ast_is_async := def_is_async def;
     ast_is_generator := def_is_generator def;
     ast_uses_arguments :=
       if def_is_arrow def then arrow_body_references (chars "arguments") (BBlock body)
       else stmts_need_arguments body |}.

(** [names.sort()]: by code points, as UTF-8 bytes order. *)
Fixpoint text_le (a b : Text) : bool :=
  match a, b with
  | [], _ => true
  | _ :: _, [] => false
  | x :: a, y :: b => (x <? y) || (x =? y) && text_le a b
  end.
Definition text_order (a b : Text) : Prop := text_le a b = true.
#[export] Instance text_order_dec : RelDecision text_order.
Proof. intros a b. unfold text_order. apply _. Defined.
Definition sorted_names (names : gset Text) : list Text := merge_sort text_order (elements names).

End Names.
