(* ===== verification/CompileClass.v ===== *)
(** Class definitions: [compile_class] and its parts in [bytecode/compiler.rs].

    The definitions are over the two recursive functions they call,
    [compile_expr] and [compile_call_reference], which [CompileExpr] ties. *)
From stdpp Require Import prelude list strings gmap.
From Stdlib Require Import ZArith Lia SpecFloat.
From S2P Require Import Prelude JsString BigInt Ast Opcode Compiler.
Import Opcode Compiler Primitives Names.
Local Open Scope Z_scope.
Local Open Scope compile_scope.

Module CompileClass.

(** The parts that the walk over the members fills.  A deferred part names the
    class template once the template has an index. *)
Record ClassBuild := {
  cb_field_decorators : list ClassFieldDecoratorTemplate;
  cb_members : list ClassMemberTemplate;
  cb_blocks : list ClassStaticTemplate;
  cb_keys : list Reg;
  cb_deferred : list (PatchTarget * FuncDef);
  cb_fields : list (FieldKey * option Expr);
  cb_private_fields : list Text;
  cb_ctor : option (list Text * list Statement);
}.

Definition empty_build : ClassBuild :=
  {| cb_field_decorators := []; cb_members := []; cb_blocks := []; cb_keys := [];
     cb_deferred := []; cb_fields := []; cb_private_fields := []; cb_ctor := None |}.

(** A member with its deferred function: [members.push] and [deferred.push]. *)
Definition push_member (b : ClassBuild) (member : ClassMemberTemplate) (def : FuncDef)
  : ClassBuild :=
  {| cb_field_decorators := cb_field_decorators b;
     cb_members := cb_members b ++ [member];
     cb_blocks := cb_blocks b;
     cb_keys := cb_keys b;
     cb_deferred := cb_deferred b ++ [(PatchMember u16_max (length (cb_members b)), def)];
     cb_fields := cb_fields b;
     cb_private_fields := cb_private_fields b;
     cb_ctor := cb_ctor b |}.

Definition push_block (b : ClassBuild) (block : ClassStaticTemplate) : ClassBuild :=
  {| cb_field_decorators := cb_field_decorators b; cb_members := cb_members b;
     cb_blocks := cb_blocks b ++ [block]; cb_keys := cb_keys b; cb_deferred := cb_deferred b;
     cb_fields := cb_fields b; cb_private_fields := cb_private_fields b; cb_ctor := cb_ctor b |}.

(** An instance field: its key, the computed and private names it adds. *)
Definition push_field (b : ClassBuild) (key : FieldKey) (init : option Expr) (keys : list Reg)
    (private : list Text) : ClassBuild :=
  {| cb_field_decorators := cb_field_decorators b; cb_members := cb_members b;
     cb_blocks := cb_blocks b; cb_keys := cb_keys b ++ keys; cb_deferred := cb_deferred b;
     cb_fields := cb_fields b ++ [(key, init)];
     cb_private_fields := cb_private_fields b ++ private; cb_ctor := cb_ctor b |}.

Definition push_field_decorator (b : ClassBuild) (d : ClassFieldDecoratorTemplate) : ClassBuild :=
  {| cb_field_decorators := cb_field_decorators b ++ [d]; cb_members := cb_members b;
     cb_blocks := cb_blocks b; cb_keys := cb_keys b; cb_deferred := cb_deferred b;
     cb_fields := cb_fields b; cb_private_fields := cb_private_fields b; cb_ctor := cb_ctor b |}.

Definition set_ctor (b : ClassBuild) (params : list Text) (body : list Statement) : ClassBuild :=
  {| cb_field_decorators := cb_field_decorators b; cb_members := cb_members b;
     cb_blocks := cb_blocks b; cb_keys := cb_keys b; cb_deferred := cb_deferred b;
     cb_fields := cb_fields b; cb_private_fields := cb_private_fields b;
     cb_ctor := Some (params, body) |}.

(** The display name of a member: a computed one is named once its key is known. *)
Definition display_name (prefix : Text) (name : ClassNameTemplate) : option Text :=
  match name with
  | NStatic key | NPrivate key => Some (prefix ++ key)
  | NComputed _ => None
  end.

(** A method, getter or setter of a class. *)
Definition member_def (source_text : option nat) (name : option Text) (params : list Text)
    (body : list Statement) (is_async is_generator : bool) : FuncDef :=
  {| def_source_text := source_text; def_named_expression := false; def_name := name;
     def_params := params; def_body := FStmts body; def_is_arrow := false;
     def_is_async := is_async; def_is_generator := is_generator; def_is_constructor := false |}.

Definition member_template (auto_decorator_field : option nat) (decorators : list (Reg * option Reg))
    (storage : option Text) (kind : ClassMemberKind) (is_static : bool) (name : ClassNameTemplate)
  : ClassMemberTemplate :=
  {| auto_decorator_field := auto_decorator_field; member_decorators := decorators;
     auto_accessor_storage := storage; member_kind := kind; member_is_static := is_static;
     member_name := name; member_func := Some u16_max |}.

(** ** The constructor's body *)

(** One instance field as an assignment to [this]. *)
Definition field_assignment (key : FieldKey) (init : option Expr) : Statement :=
  let '(property, computed) :=
    match key with
    | FieldStatic field => (EString (JsString.from_key field), true)
    | FieldPrivate field => (EString (JsString.from_key field), false)
    | FieldComputed index => (EIdentifier (class_key_name index), true)
    end in
  SExpr (EAssignment (EMember EThis property computed) ASet (default EUndefined init)).

Definition class_ctor_body (is_derived : bool) (ctor : option (list Text * list Statement))
    (instance_fields : list (FieldKey * option Expr)) (has_private_instance_elements : bool)
  : list Text * list Statement :=
  let implicit_derived := is_derived && match ctor with None => true | Some _ => false end in
  let '(params, body) :=
    match ctor with
    | Some own => own
    | None => if is_derived then ([chars "...args"], []) else ([], [])
    end in
  let fields := map (fun '(key, init) => field_assignment key init) instance_fields in
  let initialization :=
    if is_derived || negb (bool_decide (length fields = 0%nat)) || has_private_instance_elements
    then [SClassInitialization is_derived
            (if implicit_derived then Some (chars "args") else None) fields]
    else [] in
  (params, initialization ++ body).

Definition private_instance_element (m : ClassMember) : bool :=
  match m with
  | CMethod _ _ (MPrivate _) false _ _ _ _ | CGetter _ _ (MPrivate _) false _
  | CSetter _ _ (MPrivate _) _ false _ => true
  | _ => false
  end.

(** ** Members *)

Section WithExpr.
Context (compile_expr : Expr -> M Reg).
Context (compile_call_reference : Expr -> list nat -> M (Reg * option Reg * list nat)).

Definition check_static_method_key (key : ClassNameTemplate) (is_static : bool) : M unit :=
  if negb is_static then ret tt
  else
    match key with
    | NPrivate _ => ret tt
    | NComputed reg => emit (CheckClassStaticKey reg)
    | NStatic name =>
        if text_eq name (chars "prototype") then
          let! index := intern_string name in
          let! key := load_const index in
          emit (CheckClassStaticKey key)
        else ret tt
    end.

Definition compile_member_name (name : MemberName) : M ClassNameTemplate :=
  match name with
  | MPrivate key => ret (NPrivate key)
  | MStatic key => ret (NStatic key)
  | MComputed e =>
      let! src := compile_expr e in
      let! dst := alloc_reg in
      emit (PropertyKey dst src) ;!
      ret (NComputed dst)
  end.

(** A decorator is a call reference whose chain ends here. *)
Definition compile_decorator (decorator : Expr) : M (Reg * option Reg) :=
  let! '(value, receiver, ends) := compile_call_reference decorator [] in
  patch_all_here ends ;!
  ret (value, receiver).

Definition compile_method (b : ClassBuild) (decorators : list (Reg * option Reg))
    (source_text : option nat) (name : MemberName) (is_static : bool) (params : list Text)
    (body : list Statement) (is_async is_generator : bool) : M ClassBuild :=
  let! template := compile_member_name name in
  check_static_method_key template is_static ;!
  let is_ctor := negb is_static &&
    match name with MStatic n => text_eq n (chars "constructor") | _ => false end in
  if is_ctor then ret (set_ctor b params body)
  else
    ret (push_member b (member_template None decorators None MMethod is_static template)
           (member_def source_text (display_name [] template) params body is_async is_generator)).

Definition accessor_def (storage : Text) (template : ClassNameTemplate) (setter : bool) : FuncDef :=
  member_def None (display_name (if setter then chars "set " else chars "get ") template)
    (if setter then [chars "value"] else []) (auto_accessor_body storage setter) false false.

(** The getter and setter of an auto-accessor, then its storage field. *)
Definition push_auto_accessor (b : ClassBuild) (template : ClassNameTemplate) (is_static : bool)
    (storage : Text) (auto_decorator_field : option nat) (init : option Expr) : ClassBuild :=
  let getter :=
    member_template auto_decorator_field [] (Some storage) MGetter is_static template in
  let setter := member_template None [] None MSetter is_static template in
  let b := push_member b getter (accessor_def storage template false) in
  let b := push_member b setter (accessor_def storage template true) in
  if is_static then push_block b (SField (NPrivate storage) (default EUndefined init))
  else push_field b (FieldPrivate storage) init [] [storage].

Definition push_plain_field (b : ClassBuild) (template : ClassNameTemplate) (is_static : bool)
    (init : option Expr) : ClassBuild :=
  if is_static then push_block b (SField template (default EUndefined init))
  else
    match template with
    | NPrivate key => push_field b (FieldPrivate key) init [] [key]
    | NStatic key => push_field b (FieldStatic key) init [] []
    | NComputed reg => push_field b (FieldComputed (length (cb_keys b))) init [reg] []
    end.

Definition compile_field (member_index : nat) (b : ClassBuild)
    (decorators : list (Reg * option Reg)) (name : MemberName) (is_static auto_accessor : bool)
    (init : option Expr) : M ClassBuild :=
  let! template := compile_member_name name in
  let decorated := negb (bool_decide (length decorators = 0%nat)) in
  let auto_decorator_field :=
    if decorated && auto_accessor then Some (length (cb_field_decorators b)) else None in
  let b :=
    if decorated then
      push_field_decorator b
        {| field_name := template; field_is_static := is_static;
           field_index := if is_static then length (cb_blocks b) else length (cb_fields b);
           field_decorators_list := decorators |}
    else b in
  if auto_accessor then
    check_static_method_key template is_static ;!
    ret (push_auto_accessor b template is_static (Ast.auto_accessor_storage member_index)
           auto_decorator_field init)
  else ret (push_plain_field b template is_static init).

Definition compile_getter (b : ClassBuild) (decorators : list (Reg * option Reg))
    (source_text : option nat) (name : MemberName) (is_static : bool) (body : list Statement)
  : M ClassBuild :=
  let! template := compile_member_name name in
  check_static_method_key template is_static ;!
  ret (push_member b (member_template None decorators None MGetter is_static template)
         (member_def source_text (display_name (chars "get ") template) [] body false false)).

Definition compile_setter (b : ClassBuild) (decorators : list (Reg * option Reg))
    (source_text : option nat) (name : MemberName) (param : Text) (is_static : bool)
    (body : list Statement) : M ClassBuild :=
  let! template := compile_member_name name in
  check_static_method_key template is_static ;!
  ret (push_member b (member_template None decorators None MSetter is_static template)
         (member_def source_text (display_name (chars "set ") template) [param] body false false)).

(** A static block stays a tree and reads this scope's [arguments]. *)
Definition compile_static_block (b : ClassBuild) (body : list Statement) : M ClassBuild :=
  (if stmts_need_arguments body then modify (set_captures_arguments true) else ret tt) ;!
  let! index := push_const (CAstFunction (build_ast_function
    (member_def None None [] body false false))) in
  ret (push_block b (SBlock index)).

Definition compile_member (member_index : nat) (b : ClassBuild) (member : ClassMember)
  : M ClassBuild :=
  let! regs := for_map (decorators member) compile_decorator in
  match member with
  | CMethod _ source_text name is_static params body is_async is_generator =>
      compile_method b regs source_text name is_static params body is_async is_generator
  | CField _ name is_static auto_accessor init =>
      compile_field member_index b regs name is_static auto_accessor init
  | CGetter _ source_text name is_static body =>
      compile_getter b regs source_text name is_static body
  | CSetter _ source_text name param is_static body =>
      compile_setter b regs source_text name param is_static body
  | CStaticBlock body => compile_static_block b body
  end.

(** [for (member_index, member) in body.iter().enumerate()] *)
Fixpoint compile_members (member_index : nat) (b : ClassBuild) (body : list ClassMember)
  : M ClassBuild :=
  match body with
  | [] => ret b
  | member :: body =>
      let! b := compile_member member_index b member in
      compile_members (S member_index) b body
  end.

(** ** Classes *)

(** The class scope replaces the scope instruction just emitted. *)
Definition open_class_scope (name : Text) : M unit :=
  push_scope_with_runtime (if bool_decide (name = []) then ∅ else {[name]}) true ;!
  let! name_constant :=
    if bool_decide (name = []) then ret None
    else let! index := intern_string name in ret (Some index) in
  let! code := gets c_code in
  match code with
  | [] => panic
  | _ => modify (set_code (take (length code - 1) code ++ [ClassScope name_constant : Instr]))
  end.

Definition class_template (b : ClassBuild) (has_method_decorators : bool)
    (decorators : list (Reg * option Reg)) (source_text : option nat)
    (private_declarations : list Text) (name : Text) (expr_name : option Text)
    (superclass super_proto : option Reg) (ctor_length : nat) : ClassTemplate :=
  {| field_decorators := cb_field_decorators b;
     has_method_decorators := has_method_decorators;
     class_decorators := decorators;
     class_source_text := source_text;
     private_fields := cb_private_fields b;
     private_declarations := private_declarations;
     class_name := declaration_display_name name;
     expr_name := expr_name;
     superclass := superclass;
     super_proto := super_proto;
     ctor_func := u16_max;
     ctor_length := ctor_length;
     ctor_computed_keys := cb_keys b;
     members := cb_members b;
     blocks := cb_blocks b |}.

(** The class patch of a deferred part, once the template has its index. *)
Definition with_template (tmpl : nat) (p : PatchTarget) : M PatchTarget :=
  match p with
  | PatchCtor _ => ret (PatchCtor tmpl)
  | PatchMember _ index => ret (PatchMember tmpl index)
  | PatchFunction _ => panic
  end.

Definition ctor_def (name : Text) (params : list Text) (body : list Statement) : FuncDef :=
  {| def_source_text := None; def_named_expression := false;
     def_name := Some (declaration_display_name name); def_params := params;
     def_body := FStmts body; def_is_arrow := false; def_is_async := false;
     def_is_generator := false; def_is_constructor := false |}.

Definition compile_class (name : Text) (expr_name : option Text) (superclass : option Expr)
    (body : list ClassMember) (class_decorators : list Expr) (source_text : option nat) : M Reg :=
  let! decorator_registers := for_map class_decorators compile_decorator in
  let has_method_decorators :=
    existsb (fun m => negb (bool_decide (length (decorators m) = 0%nat))) body in
  open_class_scope name ;!
  let! snapshot := gets live_block_names in
  let! superclass :=
    match superclass with
    | Some e => let! r := compile_expr e in ret (Some r)
    | None => ret None
    end in
  let! super_proto :=
    match superclass with
    | Some superclass =>
        let! dst := alloc_reg in
        emit (ClassHeritage dst superclass) ;!
        ret (Some dst)
    | None => ret None
    end in
  let private_declarations := class_private_declarations body in
  let! names := push_const (CStringList (map JsString.from_string private_declarations)) in
  emit (ClassPrivateEnvironment names) ;!
  let! b := compile_members 0 empty_build body in
  let '(ctor_params, ctor_body) :=
    class_ctor_body (match superclass with Some _ => true | None => false end) (cb_ctor b)
      (cb_fields b) (has_method_decorators || existsb private_instance_element body) in
  let ctor_length := formal_parameter_length ctor_params ctor_body in
  let deferred := cb_deferred b ++ [(PatchCtor u16_max, ctor_def name ctor_params ctor_body)] in
  let! tmpl := push_const (CClassTemplate
    (class_template b has_method_decorators decorator_registers source_text private_declarations
       name expr_name superclass super_proto ctor_length)) in
  let! dst := alloc_reg in
  emit (BuildClass dst tmpl) ;!
  pop_scope ;!
  for_each deferred (fun '(p, def) =>
    let! p := with_template tmpl p in
    modify (fun s => set_deferred
      (c_deferred s ++ [{| patch := p; def := def; snapshot := snapshot |}]) s)) ;!
  ret dst.

End WithExpr.

End CompileClass.
