(* ===== verification/CompileExpr.v ===== *)
(** Expressions: the expression half of [bytecode/compiler.rs].

    [compile_expr] and [compile_call_reference] call each other on expressions
    that are not always smaller, so they take fuel; everything between them is
    over the two functions.  A list of chain exits ([ends] in the source, passed
    by mutable reference) is an argument and a result. *)
From stdpp Require Import prelude list strings gmap.
From Stdlib Require Import ZArith Lia SpecFloat.
From S2P Require Import Prelude JsString BigInt Ast Opcode Compiler CompileClass.
Import Opcode Compiler Primitives Names CompileClass.
Local Open Scope Z_scope.
Local Open Scope compile_scope.

Module CompileExpr.

(** A function in an object literal or a named position. *)
Definition function_def (source_text : option nat) (named_expression : bool) (name : option Text)
    (params : list Text) (body : list Statement) (is_async is_generator is_constructor : bool)
  : FuncDef :=
  {| def_source_text := source_text; def_named_expression := named_expression; def_name := name;
     def_params := params; def_body := FStmts body; def_is_arrow := false;
     def_is_async := is_async; def_is_generator := is_generator;
     def_is_constructor := is_constructor |}.

Definition arrow_def (source_text : option nat) (name : option Text) (params : list Text)
    (body : ExprOrBlock) (is_async : bool) : FuncDef :=
  {| def_source_text := source_text; def_named_expression := false; def_name := name;
     def_params := params;
     def_body := match body with BBlock stmts => FStmts stmts | BExpr e => FExpr e end;
     def_is_arrow := true; def_is_async := is_async; def_is_generator := false;
     def_is_constructor := false |}.

Fixpoint continues_optional_chain (e : Expr) : bool :=
  match e with
  | EOptionalChain _ _ _ => true
  | EMember object _ _ => continues_optional_chain object
  | ECall callee _ => continues_optional_chain callee
  | _ => false
  end.

Definition is_super (e : Expr) : bool := match e with ESuper => true | _ => false end.
Definition is_spread (e : Expr) : bool := match e with ESpread _ => true | _ => false end.
Definition is_elision (e : Expr) : bool := match e with EElision => true | _ => false end.

(** An anonymous function or class, which takes the name of its position. *)
Definition anonymous (e : Expr) : bool :=
  match unparenthesized e with
  | EFnExpr _ None _ _ _ _ | EArrowFn _ _ _ _ | EClassExpr _ _ None _ _ => true
  | _ => false
  end.

(** The assignment targets that the compiler leaves to the evaluator. *)
Definition private_write (e : Expr) : bool :=
  let target :=
    match e with
    | EAssignment target _ _ | ELogicalAssignment target _ _ => Some target
    | EUnary (Inc | Dec) operand _ => Some operand
    | _ => None
    end in
  match target with
  | Some (EMember _ property false) => private_key property
  | _ => false
  end.

Definition plain_entry (reg : Reg) : SpreadEntry :=
  {| elision := false; spread := false; prepared := false; spread_reg := reg |}.

(** A lone load whose destination is the temporary [src], loading [dst] instead. *)
Definition retarget (i : Instr) (src dst : Reg) : option Instr :=
  match i with
  | Data (LoadLocal d s) => if (d =? src)%nat then Some (LoadLocal dst s : Instr) else None
  | Data (LoadConst d c) => if (d =? src)%nat then Some (LoadConst dst c : Instr) else None
  | Data (LoadGlobal d n) => if (d =? src)%nat then Some (LoadGlobal dst n : Instr) else None
  | _ => None
  end.

(** The template of the last [BuildClass] into a register. *)
Fixpoint built_class (dst : Reg) (code : list Instr) : option nat :=
  match code with
  | [] => None
  | Class (BuildClass result tmpl) :: code =>
      if (result =? dst)%nat then Some tmpl else built_class dst code
  | _ :: code => built_class dst code
  end.

Definition with_class_name (name : Text) (t : ClassTemplate) : ClassTemplate :=
  {| field_decorators := field_decorators t; has_method_decorators := has_method_decorators t;
     class_decorators := class_decorators t; class_source_text := class_source_text t;
     private_fields := private_fields t; private_declarations := private_declarations t;
     class_name := name; expr_name := expr_name t; superclass := superclass t;
     super_proto := super_proto t; ctor_func := ctor_func t; ctor_length := ctor_length t;
     ctor_computed_keys := ctor_computed_keys t; members := members t; blocks := blocks t |}.

Section WithExpr.
Context (ecmascript_number_string : spec_float -> Text).
Context (compile_expr : Expr -> M Reg).
Context (compile_call_reference : Expr -> list nat -> M (Reg * option Reg * list nat)).

(** ** Names and references *)

(** A read of a resolved binding into a register. *)
Definition load_binding (dst : Reg) (name : Text) : M unit :=
  let! binding := resolve name in
  match binding with
  | BSlot slot => emit (LoadLocal dst slot)
  | BGlobal => let! index := intern_string name in emit (LoadGlobal dst index)
  end.

Definition compile_identifier (name : Text) : M Reg :=
  let! top := gets c_top_level in
  (if text_eq name (chars "arguments") && negb top
   then modify (set_captures_arguments true) else ret tt) ;!
  let! dst := alloc_reg in
  load_binding dst name ;!
  ret dst.

Definition compile_this : M Reg :=
  let! mode := gets c_this_mode in
  let! dst := alloc_reg in
  emit (match mode with
        | Frame => LoadThis dst : Instr
        | Global => LoadGlobalThis dst : Instr
        end) ;!
  ret dst.

Definition raise_bare_super : M Reg :=
  let! msg := intern_string (chars "'super' must be called as a function") in
  emit (Raise msg) ;!
  alloc_reg.

Definition compile_super_property_key (property : Expr) : M Reg :=
  let! receiver := alloc_reg in
  emit (LoadGlobalThis receiver) ;!
  compile_expr property.

Definition compile_super_reference (property : Expr) : M (Reg * Reg * Reg) :=
  let! src := compile_super_property_key property in
  let! base := alloc_reg in
  let! receiver := alloc_reg in
  let! key := alloc_reg in
  emit (SuperReference base receiver key src) ;!
  ret (base, receiver, key).

(** ** Calls *)

(** One argument of a call without spreads, into its place in the range. *)
Definition compile_argument (start end_ : Reg) (index : nat) (arg : Expr) : M unit :=
  let dst := (start + index)%nat in
  let! before := here in
  let! src := compile_expr arg in
  let! code := gets c_code in
  let lone := (end_ <=? src)%nat && (length code =? before + 1)%nat in
  match (if lone then last code ≫= (fun i => retarget i src dst) else None) with
  | Some i => modify (set_code (take (length code - 1) code ++ [i]))
  | None => emit (Mov dst src)
  end.

Definition compile_spread_argument (arg : Expr) : M SpreadEntry :=
  match arg with
  | ESpread inner =>
      let! src := compile_expr inner in
      let! dst := alloc_reg in
      emit (ExpandSpread dst src) ;!
      ret {| elision := false; spread := true; prepared := true; spread_reg := dst |}
  | _ => let! reg := compile_expr arg in ret (plain_entry reg)
  end.

Definition compile_call_arguments (args : list Expr) : M CallArgs :=
  if existsb is_spread args then
    let! template := for_map args compile_spread_argument in
    let! tmpl := push_const (CSpreadTemplate template) in
    ret (ArgSpread tmpl)
  else
    let! start := alloc_regs (length args) in
    let end_ := (start + length args)%nat in
    for_enumerate 0 args (compile_argument start end_) ;!
    ret (ArgRange start (length args)).

Definition call_instruction (is_super direct_eval : bool) (dst function : Reg)
    (receiver : option Reg) (arguments : CallArgs) : Instr :=
  match arguments, receiver with
  | ArgRange start argc, receiver =>
      if is_super then SuperCall dst function start argc
      else if direct_eval then DirectEval dst function receiver start argc
      else match receiver with
           | Some this => CallMethod dst function this start argc
           | None => Call dst function start argc
           end
  | ArgSpread tmpl, receiver =>
      if is_super then SuperCallSpread dst function tmpl
      else if direct_eval then DirectEvalSpread dst function receiver tmpl
      else match receiver with
           | Some this => MethodSpread dst function this tmpl
           | None => CallSpread dst function tmpl
           end
  end.

Definition compile_call_in_chain (callee : Expr) (args : list Expr) (ends : list nat)
  : M (Reg * list nat) :=
  let direct_eval :=
    match unparenthesized callee with
    | EIdentifier name => text_eq name (chars "eval")
    | _ => false
    end in
  let! top := gets c_top_level in
  let! scopes := gets c_scopes in
  if direct_eval && (negb top || negb (length scopes =? 1)%nat)
  then decline (DeclineFunc "direct eval requires a lexical environment")
  else
    let! dst := alloc_reg in
    let super := is_super (unparenthesized callee) in
    let! '(function, receiver, ends) :=
      if super then
        let! function := alloc_reg in
        emit (SuperConstructor function) ;!
        ret (function, None, ends)
      else compile_call_reference callee ends in
    let! arguments := compile_call_arguments args in
    emit (call_instruction super direct_eval dst function receiver arguments) ;!
    ret (dst, ends).

Definition compile_call (callee : Expr) (args : list Expr) : M Reg :=
  let! '(result, ends) := compile_call_in_chain callee args [] in
  patch_all_here ends ;!
  ret result.

Definition compile_chain_value (e : Expr) (ends : list nat) : M (Reg * list nat) :=
  match e with
  | EMember _ _ _ | EOptionalChain _ _ _ =>
      let! '(value, _, ends) := compile_call_reference e ends in ret (value, ends)
  | ECall callee args => compile_call_in_chain callee args ends
  | _ => let! value := compile_expr e in ret (value, ends)
  end.

Definition compile_chain_expression (e : Expr) : M Reg :=
  let! result := load_undefined in
  let! '(value, ends) := compile_chain_value e [] in
  emit (Mov result value) ;!
  patch_all_here ends ;!
  ret result.

(** The property read that ends a member reference. *)
Definition read_member (receiver : Reg) (property : Expr) (computed : bool) : M Reg :=
  let! key := compile_expr property in
  let! dst := alloc_reg in
  emit (GetProp (negb computed && private_key property) 0 dst receiver key) ;!
  ret dst.

(** One step of [compile_call_reference]: the callee, its receiver, the exits. *)
Definition call_reference_step (callee : Expr) (ends : list nat)
  : M (Reg * option Reg * list nat) :=
  match callee with
  | EMember object property computed =>
      if is_super object then
        let! key := compile_super_property_key property in
        let! function := alloc_reg in
        emit (SuperMember function key) ;!
        let! this := compile_this in
        ret (function, Some this, ends)
      else
        let! '(receiver, ends) := compile_chain_value object ends in
        let! function := read_member receiver property computed in
        ret (function, Some receiver, ends)
  | EOptionalChain object property computed =>
      if negb computed && match property with EUndefined => true | _ => false end then
        let! '(function, receiver, ends) := compile_call_reference object ends in
        let! exit := emit_jump (JumpIfNullish function) in
        ret (function, receiver, ends ++ [exit])
      else
        let! '(receiver, ends) := compile_chain_value object ends in
        let! exit := emit_jump (JumpIfNullish receiver) in
        let! function := read_member receiver property computed in
        ret (function, Some receiver, ends ++ [exit])
  | EParenthesized inner =>
      if negb (continues_optional_chain inner) then compile_call_reference inner ends
      else
        let! function := load_undefined in
        let! receiver := load_undefined in
        let! '(value, this, local_ends) := compile_call_reference inner [] in
        emit (Mov function value) ;!
        match this with Some this => emit (Mov receiver this) | None => ret tt end ;!
        patch_all_here local_ends ;!
        ret (function, match this with Some _ => Some receiver | None => None end, ends)
  | ECall callee args =>
      let! '(result, ends) := compile_call_in_chain callee args ends in
      ret (result, None, ends)
  | EIdentifier name =>
      let! binding := resolve name in
      match binding with
      | BGlobal =>
          let! dst := alloc_reg in
          let! receiver := alloc_reg in
          let! index := intern_string name in
          emit (LoadCallBinding dst receiver index) ;!
          ret (dst, Some receiver, ends)
      | BSlot _ => let! result := compile_expr callee in ret (result, None, ends)
      end
  | _ => let! result := compile_expr callee in ret (result, None, ends)
  end.

(** ** Named positions *)

Definition compile_named_assignment_value (value : Expr) (name : Text) : M Reg :=
  match unparenthesized value with
  | EFnExpr _ None params body is_async is_generator =>
      defer_function (function_def (expr_source_text value) false (Some name) params body is_async
        is_generator (negb is_async && negb is_generator))
  | EArrowFn _ params body is_async =>
      defer_function (arrow_def (expr_source_text value) (Some name) params body is_async)
  | EClassExpr decorators _ None superclass body =>
      let! dst := compile_class compile_expr compile_call_reference [] None superclass body
                    decorators (expr_source_text value) in
      let! code := gets c_code in
      let! template := some_or_panic (built_class dst (reverse code)) in
      let! constants := gets c_constants in
      let! c := some_or_panic (constants !! template) in
      match c with
      | CClassTemplate t =>
          modify (fun s => set_constants
            (<[template := CClassTemplate (with_class_name name t)]> (c_constants s)) s)
      | _ => ret tt
      end ;!
      ret dst
  | _ => compile_expr value
  end.

(** ** Objects and arrays *)

Definition static_entry (key : nat) (val : Reg) (kind : PropKind) : PropEntry :=
  {| prop_key := Some (KConst key); prop_val := val; prop_kind := kind |}.

(** A property whose key is known: the value under its display name. *)
Definition compile_known_prop (display : Text) (value : Expr) : M PropEntry :=
  let! val := compile_named_assignment_value value display in
  let! key := intern_string display in
  ret (static_entry key val PData).

(** A method or accessor of a literal. *)
Definition compile_method_prop (name : Text) (def : FuncDef) (kind : PropKind) : M PropEntry :=
  let! val := defer_function def in
  let! key := intern_string name in
  ret (static_entry key val kind).

Definition compile_prop (prop : ObjectProp) : M PropEntry :=
  match prop with
  | OCoverInitializedName _ _ => decline (DeclineFunc "object assignment default")
  | OShorthand name =>
      let! val := alloc_reg in
      load_binding val name ;!
      let! key := intern_string name in
      ret (static_entry key val PData)
  | OKeyValue key value =>
      let proto := text_eq key (chars "__proto__") in
      let! val := if proto then compile_expr value
                  else compile_named_assignment_value value key in
      let! index := intern_string key in
      ret (static_entry index val (if proto then PPrototype else PData))
  | OComputedMethod _ _ _ _ _ _ _ _ => decline (DeclineFunc "computed object method")
  | OComputed (EString key | EEscapedString key) value =>
      compile_known_prop (JsString.to_key key) value
  | OComputed (ENumber key) value => compile_known_prop (ecmascript_number_string key) value
  | OComputed key value =>
      let! key := compile_expr key in
      let! normalized := alloc_reg in
      emit (PropertyKey normalized key) ;!
      let! val := compile_expr value in
      (if anonymous value then emit (InferName val normalized) else ret tt) ;!
      ret {| prop_key := Some (KReg normalized); prop_val := val; prop_kind := PData |}
  | OMethod source_text name params body is_async is_generator =>
      compile_method_prop name
        (function_def source_text false (Some name) params body is_async is_generator false) PMethod
  | OGetter source_text name body =>
      compile_method_prop name
        (function_def source_text false (Some (chars "get " ++ name)) [] body false false false)
        PGetter
  | OSetter source_text name param body =>
      compile_method_prop name
        (function_def source_text false (Some (chars "set " ++ name)) [param] body false false false)
        PSetter
  | OSpread e =>
      let! src := compile_expr e in
      let! tmpl := push_const (CObjectTemplate
        [{| prop_key := None; prop_val := src; prop_kind := PSpread |}]) in
      let! snapshot := alloc_reg in
      emit (BuildObject snapshot tmpl) ;!
      ret {| prop_key := None; prop_val := snapshot; prop_kind := PSpread |}
  end.

Definition compile_object (props : list ObjectProp) : M Reg :=
  let! template := for_map props compile_prop in
  let! tmpl := push_const (CObjectTemplate template) in
  let! dst := alloc_reg in
  emit (BuildObject dst tmpl) ;!
  ret dst.

Definition compile_element (item : Expr) : M SpreadEntry :=
  match item with
  | ESpread inner =>
      let! src := compile_expr inner in
      let! reg := alloc_reg in
      emit (ExpandSpread reg src) ;!
      ret {| elision := false; spread := true; prepared := true; spread_reg := reg |}
  | _ =>
      let! reg := compile_expr item in
      ret {| elision := is_elision item; spread := false; prepared := false; spread_reg := reg |}
  end.

Definition compile_array (items : list Expr) : M Reg :=
  if existsb (fun item => is_spread item || is_elision item) items then
    let! template := for_map items compile_element in
    let! tmpl := push_const (CSpreadTemplate template) in
    let! dst := alloc_reg in
    emit (BuildArray dst tmpl) ;!
    ret dst
  else
    let! start := alloc_regs (length items) in
    for_enumerate 0 items (fun i item =>
      let! reg := compile_expr item in emit (Mov (start + i)%nat reg)) ;!
    let! dst := alloc_reg in
    emit (NewArray dst start (length items)) ;!
    ret dst.

(** ** Operators *)

Definition compile_binary (op : BinOp) (lhs_expr rhs_expr : Expr) : M Reg :=
  let private_in :=
    match op, lhs_expr with
    | In, EIdentifier name => if starts_with (chars "#") name then Some name else None
    | _, _ => None
    end in
  match private_in with
  | Some name =>
      let! obj := compile_expr rhs_expr in
      let! index := intern_string name in
      let! dst := alloc_reg in
      emit (PrivateIn dst obj index) ;!
      ret dst
  | None =>
      let short_circuit (make : Reg -> Target -> Instr) :=
        let! lhs := compile_expr lhs_expr in
        let! join := alloc_reg in
        emit (Mov join lhs) ;!
        let! end_jump := emit_jump (make lhs) in
        let! rhs := compile_expr rhs_expr in
        emit (Mov join rhs) ;!
        patch_here end_jump ;!
        ret join in
      match op with
      | And => short_circuit JumpIfFalse
      | Or => short_circuit JumpIfTrue
      | Nullish => short_circuit JumpIfNotNullish
      | Comma => compile_expr lhs_expr ;! compile_expr rhs_expr
      | _ =>
          let! lhs := compile_expr lhs_expr in
          let! rhs := compile_expr rhs_expr in
          let! dst := alloc_reg in
          emit (Binary dst op lhs rhs) ;!
          ret dst
      end
  end.

Definition compile_inc_dec (op : UnOp) (operand : Expr) (prefix : bool) : M Reg :=
  let increment := bool_decide (op = Inc) in
  let delta := if increment then 1 else -1 in
  match unparenthesized operand with
  | EMember ESuper property _ =>
      let! '(base, receiver, key) := compile_super_reference property in
      let! src := alloc_reg in
      emit (GetPropertyWithReceiver src base receiver key) ;!
      let! previous := alloc_reg in
      let! updated := alloc_reg in
      emit (NumericUpdate previous updated src increment) ;!
      emit (SetPropertyWithReceiver base receiver key updated) ;!
      ret (if prefix then updated else previous)
  | EIdentifier name =>
      let! dst := alloc_reg in
      let! binding := resolve name in
      match binding with
      | BSlot slot => emit (IncLocal dst slot delta prefix)
      | BGlobal => let! index := intern_string name in emit (IncGlobal dst index delta prefix)
      end ;!
      ret dst
  | EMember object property _ =>
      let! obj := compile_expr object in
      let! key := compile_expr property in
      let! dst := alloc_reg in
      emit (IncProp dst obj key delta prefix) ;!
      ret dst
  | _ =>
      compile_expr operand ;!
      let! msg := intern_string (chars "ReferenceError: invalid assignment target") in
      emit (Raise msg) ;!
      load_undefined
  end.

(** [delete] of a member that continues an optional chain. *)
Definition compile_delete_chain (object property : Expr) (optional : bool) : M Reg :=
  let! index := const_true in
  let! dst := load_const index in
  let! '(obj, ends) := compile_chain_value object [] in
  let! exit :=
    if optional then let! exit := emit_jump (JumpIfNullish obj) in ret [exit] else ret [] in
  let! key := compile_expr property in
  emit (DelProp dst obj key) ;!
  patch_all_here (ends ++ exit) ;!
  ret dst.

(** An optional chain continues itself, so its own arm of [compile_delete] is
    the one above. *)
Definition compile_delete (operand : Expr) : M Reg :=
  match operand with
  | EMember object property _ =>
      if continues_optional_chain operand then compile_delete_chain object property false
      else if is_super object then
        let! this_value := alloc_reg in
        emit (LoadGlobalThis this_value) ;!
        compile_expr property ;!
        let! msg := intern_string (chars "ReferenceError: Cannot delete a super property") in
        emit (Raise msg) ;!
        load_undefined
      else
        let! obj := compile_expr object in
        let! key := compile_expr property in
        let! dst := alloc_reg in
        emit (DelProp dst obj key) ;!
        ret dst
  | EOptionalChain object property _ => compile_delete_chain object property true
  | EIdentifier name =>
      let! dst := alloc_reg in
      let! binding := resolve name in
      match binding with
      | BSlot _ => let! index := const_false in emit (LoadConst dst index)
      | BGlobal => let! index := intern_string name in emit (DelGlobal dst index)
      end ;!
      ret dst
  | _ =>
      compile_expr operand ;!
      let! index := const_true in
      load_const index
  end.

Definition compile_typeof (operand : Expr) : M Reg :=
  match unparenthesized operand with
  | EIdentifier name =>
      let! dst := alloc_reg in
      let! binding := resolve name in
      match binding with
      | BSlot slot => emit (TypeofLocal dst slot)
      | BGlobal => let! index := intern_string name in emit (TypeofGlobal dst index)
      end ;!
      ret dst
  | _ =>
      let! src := compile_expr operand in
      let! dst := alloc_reg in
      emit (Unary dst Typeof src) ;!
      ret dst
  end.

Definition compile_unary (op : UnOp) (operand : Expr) (prefix : bool) : M Reg :=
  let operand := unparenthesized operand in
  match op with
  | Inc | Dec => compile_inc_dec op operand prefix
  | Delete => compile_delete operand
  | Typeof => compile_typeof operand
  | _ =>
      let! src := compile_expr operand in
      let! dst := alloc_reg in
      emit (Unary dst op src) ;!
      ret dst
  end.

(** ** Templates *)

Definition compile_template (quasis : list JsString.JsString) (exprs : list Expr) : M Reg :=
  let! start := alloc_regs (length exprs) in
  let! empty_quasis :=
    match exprs with
    | [] => ret None
    | _ => let! index := push_const (CStringList [JsString.default; JsString.default]) in
           ret (Some index)
    end in
  for_enumerate 0 exprs (fun i e =>
    let! reg := compile_expr e in
    let! empty_quasis := some_or_panic empty_quasis in
    emit (Template (start + i)%nat empty_quasis reg 1)) ;!
  let! quasis := push_const (CStringList quasis) in
  let! dst := alloc_reg in
  emit (Template dst quasis start (length exprs)) ;!
  ret dst.

(** The string constants of a tagged template, each in a register. *)
Definition load_part (part : option JsString.JsString) : M SpreadEntry :=
  let! index := push_const (match part with Some part => CString part | None => CUndefined end) in
  let! reg := load_const index in
  ret (plain_entry reg).

Definition compile_tagged (site : Z) (tag : Expr) (cooked : list (option JsString.JsString))
    (raw : list JsString.JsString) (exprs : list Expr) : M Reg :=
  let! callee := load_undefined in
  let! this := load_undefined in
  let! '(function, receiver, ends) := compile_call_reference tag [] in
  emit (Mov callee function) ;!
  match receiver with Some receiver => emit (Mov this receiver) | None => ret tt end ;!
  patch_all_here ends ;!
  let! parts := alloc_reg in
  emit (LoadTemplate parts site) ;!
  let! cached := emit_jump (JumpIfNotNullish parts) in
  let! template := for_map cooked load_part in
  let! tmpl := push_const (CSpreadTemplate template) in
  emit (BuildArray parts tmpl) ;!
  let! raw_template := for_map raw (fun part => load_part (Some part)) in
  let! tmpl := push_const (CSpreadTemplate raw_template) in
  let! raw_parts := alloc_reg in
  emit (BuildArray raw_parts tmpl) ;!
  emit (FreezeTemplate site parts raw_parts) ;!
  patch_here cached ;!
  let! values := for_map exprs compile_expr in
  let! start := alloc_regs (1 + length values) in
  emit (Mov start parts) ;!
  for_enumerate 0 values (fun i value => emit (Mov (start + 1 + i)%nat value)) ;!
  let! dst := alloc_reg in
  emit (CallMethod dst callee this start (1 + length values)%nat) ;!
  ret dst.

(** ** Assignment *)

(** The reference of an assignment to a name: its slot, or the registers and
    name of the resolved binding. *)
Inductive AssignTarget := TSlot (slot : Slot) | TBinding (base property : Reg) (name : nat).

Definition write_target (target : AssignTarget) (src : Reg) : M unit :=
  match target with
  | TSlot slot => emit (StoreLocal slot src)
  | TBinding base property name => emit (WriteAssignmentBinding base property name src)
  end.

(** Read the current value of a name, keeping its reference. *)
Definition read_name (name : Text) (binding : Binding) (current : Reg) : M AssignTarget :=
  match binding with
  | BSlot slot => emit (LoadLocal current slot) ;! ret (TSlot slot)
  | BGlobal =>
      let! base := alloc_reg in
      let! property := alloc_reg in
      let! index := intern_string name in
      emit (ReadAssignmentBinding current base property index) ;!
      ret (TBinding base property index)
  end.

(** The key and current value of a member that is read before it is written. *)
Definition read_property (object property : Expr) (computed : bool)
  : M (Reg * Reg * Reg * bool) :=
  let! obj := compile_expr object in
  let! raw_key := compile_expr property in
  emit (CheckDestructObject obj obj) ;!
  let private := negb computed && private_key property in
  let! key :=
    if private then ret raw_key
    else
      let! key := alloc_reg in
      emit (PropertyKey key raw_key) ;!
      ret key in
  let! current := alloc_reg in
  emit (GetProp private 0 current obj key) ;!
  ret (obj, key, current, private).

(** [super.x = value] and [super.x op= value]. *)
Definition compile_super_assignment (property : Expr) (op : AssignOp) (value : Expr) : M Reg :=
  let! '(base, receiver, key) :=
    match op with
    | ASet =>
        let! raw_key := compile_super_property_key property in
        let! undefined := const_undefined in
        let! src := load_const undefined in
        let! base := alloc_reg in
        let! receiver := alloc_reg in
        let! key := alloc_reg in
        emit (SuperReference base receiver key src) ;!
        ret (base, receiver, raw_key)
    | _ => compile_super_reference property
    end in
  let! current :=
    match bin_op op with
    | Some _ =>
        let! dst := alloc_reg in
        emit (GetPropertyWithReceiver dst base receiver key) ;!
        ret (Some dst)
    | None => ret None
    end in
  let! rhs := compile_expr value in
  let! value :=
    match bin_op op with
    | Some op =>
        let! dst := alloc_reg in
        let! current := some_or_panic current in
        emit (Binary dst op current rhs) ;!
        ret dst
    | None => ret rhs
    end in
  let! key :=
    match op with
    | ASet =>
        let! normalized := alloc_reg in
        emit (PropertyKey normalized key) ;!
        ret normalized
    | _ => ret key
    end in
  emit (SetPropertyWithReceiver base receiver key value) ;!
  ret value.

(** A compound assignment whose operator is [bin]. *)
Definition compile_compound_assignment (target : Expr) (bin : BinOp) (value : Expr) : M Reg :=
  match target with
  | EIdentifier name =>
      let! current := alloc_reg in
      let! binding := resolve name in
      let! reference := read_name name binding current in
      let! rhs := compile_expr value in
      let! dst := alloc_reg in
      emit (Binary dst bin current rhs) ;!
      write_target reference dst ;!
      ret dst
  | EMember object property computed =>
      let! '(obj, key, current, private) := read_property object property computed in
      let! rhs := compile_expr value in
      let! dst := alloc_reg in
      emit (Binary dst bin current rhs) ;!
      emit (WriteAssignmentProperty obj key dst private) ;!
      ret dst
  | _ => decline (DeclineFunc "invalid compound assignment target")
  end.

(** The last part of [compile_assignment]: any other target, after the value. *)
Definition compile_other_assignment (target : Expr) (op : AssignOp) (value : Expr) : M Reg :=
  let! rhs := compile_expr value in
  let plain := match op with ASet => true | _ => false end in
  match target with
  | EIdentifier name =>
      let! dst := alloc_reg in
      let! binding := resolve name in
      match binding, plain with
      | BSlot slot, true => emit (StoreLocal slot rhs) ;! ret rhs
      | BGlobal, true =>
          let! index := intern_string name in emit (StoreGlobal index rhs) ;! ret rhs
      | BSlot slot, false => emit (CompoundLocal dst slot op rhs) ;! ret dst
      | BGlobal, false =>
          let! index := intern_string name in emit (CompoundGlobal dst index op rhs) ;! ret dst
      end
  | EMember object property _ =>
      if is_super object then raise_bare_super
      else
        let! obj := compile_expr object in
        let! key := compile_expr property in
        if plain then emit (SetProp 0 obj key rhs) ;! ret rhs
        else
          let! dst := alloc_reg in
          emit (CompoundProp dst obj key op rhs) ;!
          ret dst
  | EArray _ _ | EObject _ _ => decline (DeclineFunc "destructuring assignment ordering")
  | _ => decline (DeclineFunc "invalid assignment target")
  end.

Definition compile_assignment (written : Expr) (op : AssignOp) (value : Expr) : M Reg :=
  let identifier_target := match written with EIdentifier _ => true | _ => false end in
  let target := unparenthesized written in
  match target with
  | EMember ESuper property _ => compile_super_assignment property op value
  | _ =>
      match bin_op op, target with
      | Some bin, _ => compile_compound_assignment target bin value
      | None, EIdentifier name =>
          let! binding := resolve name in
          let! reference :=
            match binding with
            | BGlobal =>
                let! base := alloc_reg in
                let! property := alloc_reg in
                let! index := intern_string name in
                emit (ResolveAssignmentBinding base property index) ;!
                ret (TBinding base property index)
            | BSlot slot => ret (TSlot slot)
            end in
          let! rhs := if identifier_target then compile_named_assignment_value value name
                      else compile_expr value in
          write_target reference rhs ;!
          ret rhs
      | None, EMember object property computed =>
          let! obj := compile_expr object in
          let! raw_key := compile_expr property in
          let private := negb computed && private_key property in
          let! rhs := compile_expr value in
          emit (WriteAssignmentProperty obj raw_key rhs private) ;!
          ret rhs
      | None, _ => compile_other_assignment target op value
      end
  end.

(** Jump over the write of a logical assignment when the value decides. *)
Definition logical_skip_jump (op : LogicalAssignOp) (current : Reg) : M nat :=
  match op with
  | LAnd => emit_jump (JumpIfFalse current)
  | LOr => emit_jump (JumpIfTrue current)
  | LNullish => emit_jump (JumpIfNotNullish current)
  end.

Definition compile_logical_assignment (written : Expr) (op : LogicalAssignOp) (value : Expr)
  : M Reg :=
  let infer_name := match written with EIdentifier _ => true | _ => false end in
  let! join := alloc_reg in
  match unparenthesized written with
  | EMember ESuper property _ =>
      let! '(base, receiver, key) := compile_super_reference property in
      let! current := alloc_reg in
      emit (GetPropertyWithReceiver current base receiver key) ;!
      emit (Mov join current) ;!
      let! exit := logical_skip_jump op current in
      let! value := compile_expr value in
      emit (SetPropertyWithReceiver base receiver key value) ;!
      emit (Mov join value) ;!
      patch_here exit ;!
      ret join
  | EIdentifier name =>
      let! binding := resolve name in
      let! current := alloc_reg in
      let! reference := read_name name binding current in
      emit (Mov join current) ;!
      let! jump := logical_skip_jump op current in
      let! rhs := if infer_name then compile_named_assignment_value value name
                  else compile_expr value in
      write_target reference rhs ;!
      emit (Mov join rhs) ;!
      patch_here jump ;!
      ret join
  | EMember object property computed =>
      let! '(obj, key, current, private) := read_property object property computed in
      emit (Mov join current) ;!
      let! jump := logical_skip_jump op current in
      let! rhs := compile_expr value in
      emit (WriteAssignmentProperty obj key rhs private) ;!
      emit (Mov join rhs) ;!
      patch_here jump ;!
      ret join
  | _ => decline (DeclineFunc "invalid assignment target")
  end.

(** ** Expressions *)

Definition compile_conditional (test consequent alternate : Expr) : M Reg :=
  let! cond := compile_expr test in
  let! join := alloc_reg in
  let! else_jump := emit_jump (JumpIfFalse cond) in
  let! then_value := compile_expr consequent in
  emit (Mov join then_value) ;!
  let! end_jump := emit_jump Jump in
  patch_here else_jump ;!
  let! else_value := compile_expr alternate in
  emit (Mov join else_value) ;!
  patch_here end_jump ;!
  ret join.

Definition compile_new (callee : Expr) (args : list Expr) : M Reg :=
  let! callee := compile_expr callee in
  let! arguments := compile_call_arguments args in
  let! dst := alloc_reg in
  emit (match arguments with
        | ArgRange start argc => Construct dst callee start argc : Instr
        | ArgSpread tmpl => ConstructSpread dst callee tmpl : Instr
        end) ;!
  ret dst.

(** The constant of a literal, loaded. *)
Definition load_new_const (c : Constant) : M Reg :=
  let! index := push_const c in load_const index.

Definition compile_member (e object property : Expr) (computed : bool) : M Reg :=
  if continues_optional_chain e then compile_chain_expression e
  else if is_super object then
    let! key := compile_super_property_key property in
    let! dst := alloc_reg in
    emit (SuperMember dst key) ;!
    ret dst
  else
    let! obj := compile_expr object in
    read_member obj property computed.

(** An instruction that only writes a fresh register. *)
Definition emit_into (make : Reg -> Instr) : M Reg :=
  let! dst := alloc_reg in
  emit (make dst) ;!
  ret dst.

Definition expr_step (e : Expr) : M Reg :=
  if private_write e then decline (DeclineFunc "private field writes")
  else
  match e with
  | ELegacyLiteral inner | EParenthesized inner => compile_expr inner
  | ENumber value => let! index := intern_number value in load_const index
  | EString value | EEscapedString value => load_new_const (CString value)
  | EBool true => let! index := const_true in load_const index
  | EBool false => let! index := const_false in load_const index
  | ENull => let! index := const_null in load_const index
  | EUndefined | EElision => load_undefined
  | EIdentifier name => compile_identifier name
  | EArray items _ => compile_array items
  | EBinary op lhs rhs => compile_binary op lhs rhs
  | EUnary op operand prefix => compile_unary op operand prefix
  | ECall callee args =>
      if continues_optional_chain e then compile_chain_expression e else compile_call callee args
  | EMember object property computed => compile_member e object property computed
  | EAssignment target op value => compile_assignment target op value
  | ELogicalAssignment target op value => compile_logical_assignment target op value
  | EConditional test consequent alternate => compile_conditional test consequent alternate
  | EArrowFn _ params body is_async =>
      defer_function (arrow_def (expr_source_text e) None params body is_async)
  | EFnExpr _ name params body is_async is_generator =>
      defer_function (function_def (expr_source_text e)
        (match name with Some _ => true | None => false end) name params body is_async is_generator
        (negb is_async && negb is_generator))
  | ENew callee args => compile_new callee args
  | ETemplate quasis exprs => compile_template quasis exprs
  | EThis => compile_this
  | EObject props _ => compile_object props
  | EClassExpr decorators _ name superclass body =>
      compile_class compile_expr compile_call_reference (default [] name) name superclass body
        decorators (expr_source_text e)
  | ETaggedTemplate site tag cooked raw exprs => compile_tagged site tag cooked raw exprs
  | ESuper => raise_bare_super
  | ESpread inner => compile_expr inner
  | EDynamicImport specifier options phase =>
      match options with
      | Some _ => decline (DeclineFunc "dynamic import options")
      | None =>
          if negb (bool_decide (phase = Evaluation))
          then decline (DeclineFunc "non-evaluation import phases")
          else
            let! src := compile_expr specifier in
            emit_into (fun dst => DynamicImport dst src : Instr)
      end
  | ENewTarget => emit_into (fun dst => NewTarget dst : Instr)
  | EImportMeta => emit_into (fun dst => ImportMeta dst : Instr)
  | EAwait value =>
      let! src := compile_expr value in
      emit_into (fun dst => Await dst src : Instr)
  | EYield _ | EYieldFrom _ => decline (DeclineFunc "generators need Phase G")
  | EBigIntLiteral digits =>
      match BigInt.parse digits with
      | Ok value => load_new_const (CBigInt value)
      | Err _ => decline (DeclineFunc "invalid bigint literal")
      | Panic => panic
      end
  | ERegex pattern flags =>
      (* The fresh cell of the compiled pattern is known by its place. *)
      let! cell := gets (fun s => length (c_constants s)) in
      load_new_const (CRegex pattern flags cell)
  | EOptionalChain _ _ _ => compile_chain_expression e
  end.

End WithExpr.

(** ** The knot *)

Section Knot.
Context (ecmascript_number_string : spec_float -> Text).

Fixpoint compile_expr (fuel : nat) (e : Expr) : M Reg :=
  match fuel with
  | O => out_of_fuel
  | S fuel =>
      expr_step ecmascript_number_string (compile_expr fuel) (compile_call_reference fuel) e
  end
with compile_call_reference (fuel : nat) (callee : Expr) (ends : list nat)
  : M (Reg * option Reg * list nat) :=
  match fuel with
  | O => out_of_fuel
  | S fuel => call_reference_step (compile_expr fuel) (compile_call_reference fuel) callee ends
  end.

End Knot.

End CompileExpr.
