(* ===== verification/CompileStmt.v ===== *)
(** Statements: hoisting, binding patterns and the statement half of
    [bytecode/compiler.rs].

    A [break] or [continue] compiles the [finally] bodies it crosses, which are
    not parts of the statement, so [compile_stmt] takes fuel.  A [PatternView]
    borrows the parts of a [Pattern] and has its shape; it is the pattern. *)
From stdpp Require Import prelude list strings gmap.
From Stdlib Require Import ZArith Lia SpecFloat.
From S2P Require Import Prelude JsString BigInt Ast Opcode Compiler CompileClass CompileExpr.
Import Opcode Compiler Primitives Names CompileClass CompileExpr.
Local Open Scope Z_scope.
Local Open Scope compile_scope.

Module CompileStmt.

(** ** Hoisting *)

Definition decl_def (d : FnDeclRef) : FuncDef :=
  function_def (decl_source_text d) false (Some (declaration_display_name (decl_name d)))
    (decl_params d) (decl_body d) (decl_is_async d) (decl_is_generator d)
    (negb (decl_is_async d) && negb (decl_is_generator d)).

(** The first occurrence of each name: [seen.insert(name.clone())]. *)
Fixpoint first_seen {A : Type} (seen : gset Text) (l : list (Text * A)) : list (Text * A) :=
  match l with
  | [] => []
  | (name, x) :: l =>
      if bool_decide (name ∈ seen) then first_seen seen l
      else (name, x) :: first_seen ({[name]} ∪ seen) l
  end.

Definition var_names (stmts : list Statement) : list Text :=
  collect_var_declaration_names stmts ++ map decl_name (block_fn_decls stmts).

Definition emit_global (make : nat -> Instr) (name : Text) : M unit :=
  let! index := intern_string name in emit (make index).

(** A name in its dead zone. *)
Definition define_dead (name : Text) (kind : SlotKind) : M unit :=
  let! index := intern_string name in
  let! undef := load_undefined in
  emit (DefineGlobal index undef kind false).

Definition note_annex (address : nat) (name : Text) (binding : Binding) : M unit :=
  modify (fun s => set_annex_updates (<[address := (name, binding)]> (c_annex_updates s)) s).

Definition hoist_top (stmts : list Statement) : M unit :=
  for_each (eligible stmts []) (fun '(address, name) =>
    note_annex address name BGlobal ;!
    emit_global (fun name => AnnexBInit name : Instr) name) ;!
  let lexical_names := top_lexical_names stmts in
  let vars := List.filter (fun name => negb (existsb (text_eq name) lexical_names))
                (var_names stmts) in
  for_each (first_seen ∅ (map (fun name => (name, tt)) vars)) (fun '(name, _) =>
    emit_global (fun name => HoistVarGlobal name : Instr) name) ;!
  for_each (first_seen ∅ (block_lexicals stmts)) (fun '(name, kind) => define_dead name kind) ;!
  for_each (block_fn_decls stmts) (fun d =>
    let! value := defer_function (decl_def d) in
    emit_global (fun name => InitGlobal name value true : Instr) (decl_name d)).

Definition declare_params (params : list Text) : M unit :=
  for_each params (fun param => declare_slot param Var ;! ret tt).

(** What follows the parameters in [hoist_function]. *)
Definition hoist_body (params : list Text) (body : list Statement) : M unit :=
  for_each (first_seen ∅ (map (fun name => (name, tt)) (var_names body))) (fun '(name, _) =>
    declare_slot_if_absent name Var ;! ret tt) ;!
  for_each (eligible body params) (fun '(address, name) =>
    let! binding := resolve name in
    note_annex address name binding ;!
    emit_global (fun name => AnnexBInit name : Instr) name) ;!
  for_each (block_lexicals body) (fun '(name, kind) => declare_slot name kind ;! ret tt) ;!
  for_each (block_fn_decls body) (fun d =>
    let! slot := declare_slot_if_absent (decl_name d) Var in
    let! value := defer_function (decl_def d) in
    let! captured := gets c_captured in
    if bool_decide (decl_name d ∈ captured)
    then emit_global (fun name => InitGlobal name value true : Instr) (decl_name d)
    else emit (InitLocal slot value)).

Definition hoist_function (params : list Text) (body : list Statement) (is_arrow : bool) : M unit :=
  declare_params params ;! hoist_body params body.

(** A lexical of a block: boxed in the runtime scope, or a slot in its dead zone. *)
Definition declare_lexical (name : Text) (kind : SlotKind) : M unit :=
  let! boxed := is_boxed_here name in
  if boxed then define_dead name kind
  else
    let! slot := declare_slot name kind in
    emit (DeclareLocal slot kind false).

Definition hoist_block (stmts : list Statement) : M unit :=
  for_each (first_seen ∅ (block_lexicals stmts)) (fun '(name, kind) =>
    declare_lexical name kind) ;!
  for_each (block_fn_decls stmts) (fun d =>
    let! value := defer_function (decl_def d) in
    let! boxed := is_boxed_here (decl_name d) in
    if boxed then emit_global (fun name => InitGlobal name value true : Instr) (decl_name d)
    else
      let! slot := declare_slot_if_absent (decl_name d) Var in
      emit (InitLocal slot value)).

(** ** Patterns *)

Fixpoint pattern_requires_evaluator (p : Pattern) : bool :=
  match p with
  | PArray _ => true
  | PObject props => existsb (fun '(_, sub) => some_such pattern_requires_evaluator sub) props
  | PRest inner => pattern_requires_evaluator inner
  | PDefault inner default => pattern_requires_evaluator inner || anonymous default
  | PElision | PIdent _ | PMember _ _ _ => false
  end.

(** [index as f64] *)
Definition number_of_nat (n : nat) : spec_float := binary_normalize 53 1024 (Z.of_nat n) 0 false.

Definition compile_pattern_ident (name : Text) (src : Reg) (is_var : bool) : M unit :=
  let! binding := resolve name in
  match is_var, binding with
  | true, BSlot slot => emit (StoreLocal slot src)
  | true, BGlobal => emit_global (fun name => StoreGlobal name src : Instr) name
  | false, BSlot slot => emit (InitLocal slot src)
  | false, BGlobal => emit_global (fun name => InitGlobal name src false : Instr) name
  end.

Section WithExpr.
Context (compile_expr : Expr -> M Reg).
Context (compile_call_reference : Expr -> list nat -> M (Reg * option Reg * list nat)).

(** The value a default pattern binds: [val], or the default when it is
    undefined. *)
Definition compile_default (val : Reg) (default : Expr) : M Reg :=
  let! value := alloc_reg in
  emit (Mov value val) ;!
  let! undefined := load_undefined in
  let! needs_default := alloc_reg in
  emit (Binary needs_default Seq val undefined) ;!
  let! has := emit_jump (JumpIfFalse needs_default) in
  let! fallback := compile_expr default in
  emit (Mov value fallback) ;!
  patch_here has ;!
  ret value.

(** The key of an object-pattern property, in a register. *)
Definition compile_pattern_key (key : PatternKey) : M Reg :=
  match key with
  | KName name => let! index := intern_string name in load_const index
  | KComputed e =>
      let! value := compile_expr e in
      let! key := alloc_reg in
      emit (PropertyKey key value) ;!
      ret key
  end.

(** The rest object of the keys not taken. *)
Definition compile_rest_object (checked : Reg) (taken : list Reg) : M Reg :=
  let! tmpl := push_const (CSpreadTemplate (map plain_entry taken)) in
  let! taken_array := alloc_reg in
  emit (BuildArray taken_array tmpl) ;!
  let! rest := alloc_reg in
  emit (RestObject rest checked taken_array) ;!
  ret rest.

Definition compile_pattern_member (object property : Expr) (private : bool) (val : Reg) : M unit :=
  if private then decline (DeclineFunc "private destructuring writes")
  else if is_super object then
    let! '(base, receiver, key) := compile_super_reference compile_expr property in
    emit (SetPropertyWithReceiver base receiver key val)
  else
    let! obj := compile_expr object in
    let! key := compile_expr property in
    emit (SetProp 0 obj key val).

Definition read_key (checked key : Reg) : M Reg :=
  let! found := alloc_reg in
  emit (GetProp false 0 found checked key) ;!
  ret found.

Section Loops.
Context (compile_pattern_view : Pattern -> Reg -> M unit) (is_var : bool).

(** The elements of an array pattern from [index]; a rest element ends it. *)
Fixpoint compile_pattern_elements (arr : Reg) (index : nat) (elements : list Pattern) : M unit :=
  match elements with
  | [] => ret tt
  | PRest inner :: _ =>
      let! from := try_u16 index "code too large" in
      let! rest := alloc_reg in
      emit (RestArray rest arr from) ;!
      compile_pattern_view inner rest
  | elem :: elements =>
      let! position := intern_number (number_of_nat index) in
      let! key := load_const position in
      let! found := read_key arr key in
      compile_pattern_view elem found ;!
      compile_pattern_elements arr (S index) elements
  end.

(** One property of an object pattern: the register of its key. *)
Definition compile_pattern_property (checked : Reg) (key : PatternKey) (sub : option Pattern)
  : M Reg :=
  let! key_reg := compile_pattern_key key in
  let! found := read_key checked key_reg in
  match sub with
  | Some next => compile_pattern_view next found
  | None =>
      match key with
      | KName name => compile_pattern_ident name found is_var
      | KComputed _ => decline (DeclineFunc "invalid destructuring target")
      end
  end ;!
  ret key_reg.

(** The properties of an object pattern, with the keys taken so far. *)
Fixpoint compile_pattern_properties (checked : Reg) (taken : list Reg)
    (props : list (PatternKey * option Pattern)) : M unit :=
  match props with
  | [] => ret tt
  | (key, sub) :: props =>
      let ordinary :=
        let! key_reg := compile_pattern_property checked key sub in
        compile_pattern_properties checked (taken ++ [key_reg]) props in
      match key, sub with
      | KName name, Some (PRest target) =>
          if text_eq name (chars "...") then
            let! rest := compile_rest_object checked taken in
            compile_pattern_view target rest ;!
            compile_pattern_properties checked taken props
          else ordinary
      | _, _ => ordinary
      end
  end.
End Loops.

Fixpoint compile_pattern_view (pat : Pattern) (val : Reg) (is_var : bool) : M unit :=
  match pat with
  | PIdent name => compile_pattern_ident name val is_var
  | PMember object property private => compile_pattern_member object property private val
  | PArray elements =>
      let! arr := alloc_reg in
      emit (ToDestructArray arr val) ;!
      compile_pattern_elements (fun p val => compile_pattern_view p val is_var) arr 0 elements
  | PObject props =>
      let! checked := alloc_reg in
      emit (CheckDestructObject checked val) ;!
      compile_pattern_properties (fun p val => compile_pattern_view p val is_var) is_var checked []
        props
  | PElision | PRest _ => ret tt
  | PDefault inner default =>
      let! value := compile_default val default in
      compile_pattern_view inner value is_var
  end.

Definition compile_destructure (pat : Pattern) (val : Reg) (is_var : bool) : M unit :=
  if pattern_requires_evaluator pat
  then decline (DeclineFunc "destructuring iterator or name inference semantics")
  else compile_pattern_view pat val is_var.

(** ** Declarations *)

(** A named value, or undefined when there is none. *)
Definition compile_initializer (init : option Expr) (name : Text) : M Reg :=
  match init with
  | Some value =>
      compile_named_assignment_value compile_expr compile_call_reference value name
  | None => load_undefined
  end.

Definition compile_var_decl (kind : VarKind) (name : Text) (init : option Expr)
    (destructuring : option Pattern) : M Reg :=
  match destructuring with
  | Some pattern =>
      let! src := match init with Some value => compile_expr value | None => load_undefined end in
      compile_destructure pattern src (is_var kind) ;!
      load_undefined
  | None =>
      let! binding := resolve name in
      match is_var kind, binding with
      | true, BSlot slot =>
          match init with
          | Some _ =>
              let! src := compile_initializer init name in
              emit (StoreLocal slot src)
          | None => emit (BareVarLocal slot)
          end
      | true, BGlobal =>
          match init with
          | Some _ =>
              let! src := compile_initializer init name in
              emit_global (fun name => StoreGlobal name src : Instr) name
          | None => emit_global (fun name => BareVarGlobal name : Instr) name
          end
      | false, BSlot slot =>
          let! src := compile_initializer init name in
          emit (InitLocal slot src)
      | false, BGlobal =>
          let! src := compile_initializer init name in
          emit_global (fun name => InitGlobal name src false : Instr) name
      end ;!
      load_undefined
  end.

Definition require_env_module_binding (names : list Text) : M unit :=
  let! scopes := gets c_scopes in
  if negb (length scopes =? 1)%nat then decline (DeclineFunc "scoped modules need Phase G")
  else
    for_each names (fun name =>
      let! binding := resolve name in
      match binding with
      | BGlobal => ret tt
      | BSlot _ => decline (DeclineFunc "scoped modules need Phase G")
      end).

(** ** Iteration heads *)

Definition define_iteration_head (names : list Text) (kind : VarKind) : M unit :=
  for_each names (fun name => define_dead name (lexical_kind kind)).

Definition reset_iteration_head (names : list Text) (kind : VarKind) : M unit :=
  if is_var kind then ret tt
  else
    emit PopScope ;!
    emit PushScope ;!
    define_iteration_head names kind.

Inductive ForHead := HSlot (slot : Slot) | HGlobal (name : nat).

Definition prepare_for_head (name : Text) : M ForHead :=
  let! binding := resolve name in
  match binding with
  | BSlot slot => ret (HSlot slot)
  | BGlobal => let! index := intern_string name in ret (HGlobal index)
  end.

Definition bind_for_head (head : ForHead) (src : Reg) (kind : VarKind) : M unit :=
  match head with
  | HSlot slot => emit (if is_var kind then StoreLocal slot src : Instr else InitLocal slot src)
  | HGlobal name =>
      emit (if is_var kind then StoreGlobal name src : Instr else InitGlobal name src false)
  end.

(** The head scope of a lexical [for-in] or [for-of]. *)
Definition open_head (names : list Text) (kind : VarKind) : M unit :=
  if is_var kind then ret tt
  else
    push_scope_with_runtime (list_to_set names) true ;!
    define_iteration_head names kind.
Definition close_head (kind : VarKind) : M unit := if is_var kind then ret tt else pop_scope.

(** Replace a boxed [for] scope, keeping its values. *)
Definition rotate_head_scope (boxed : gset Text) : M unit :=
  let names := sorted_names boxed in
  let! temps := for_map names (fun name =>
    let! tmp := alloc_reg in
    let! index := intern_string name in
    emit (LoadGlobal tmp index) ;!
    ret tmp) in
  emit PopScope ;!
  emit PushScope ;!
  for_each (zip names temps) (fun '(name, tmp) =>
    emit_global (fun index => DefineGlobal index tmp Let true : Instr) name).

Definition compile_for_decl (kind : VarKind) (name : Text) (init : option Expr) : M unit :=
  if is_var kind && match init with None => true | Some _ => false end then ret tt
  else if is_var kind then
    let! src := compile_initializer init name in
    let! binding := resolve name in
    match binding with
    | BSlot slot => emit (StoreLocal slot src)
    | BGlobal => emit_global (fun name => StoreGlobal name src : Instr) name
    end
  else
    let slot_kind := lexical_kind kind in
    let! boxed := is_boxed_here name in
    if boxed then
      let! index := intern_string name in
      let! undef := load_undefined in
      emit (DefineGlobal index undef slot_kind false) ;!
      let! src := compile_initializer init name in
      emit (InitGlobal index src false)
    else
      let! slot := declare_slot name slot_kind in
      emit (DeclareLocal slot slot_kind false) ;!
      let! src := compile_initializer init name in
      emit (InitLocal slot src).

Definition compile_for_decls (kind : VarKind) (decls : list (Text * option Expr)) : M unit :=
  for_each decls (fun '(name, init) => compile_for_decl kind name init).

Definition prepare_for_lexicals (init : ForInit) : M unit :=
  let '(kind, names) :=
    match init with
    | IVar kind decls => (kind, map fst decls)
    | IPattern kind pattern _ trailing => (kind, pattern_names pattern ++ map fst trailing)
    | IExpr _ => (VVar, [])
    end in
  if is_var kind then ret tt
  else for_each names (fun name => declare_lexical name (lexical_kind kind)).

Definition compile_for_init (init : ForInit) : M unit :=
  match init with
  | IVar kind decls => compile_for_decls kind decls
  | IPattern kind pattern init trailing =>
      let! src := compile_expr init in
      (if is_var kind then ret tt
       else for_each (pattern_names pattern) (fun bound =>
              declare_lexical bound (lexical_kind kind))) ;!
      compile_destructure pattern src (is_var kind) ;!
      compile_for_decls kind trailing
  | IExpr e => compile_expr e ;! ret tt
  end.

End WithExpr.

(** ** Statements *)

Section WithStmt.
Context (compile_expr : Expr -> M Reg).
Context (compile_call_reference : Expr -> list nat -> M (Reg * option Reg * list nat)).
Context (compile_stmt : Statement -> M Reg).

Definition compile_block (stmts : list Statement) : M Reg :=
  let! completion := new_completion true in
  push_completion completion ;!
  let! checkpoint := checkpoint in
  for_each stmts (fun stmt =>
    let! value := compile_stmt stmt in
    copy_statement_completion completion stmt value ;!
    restore checkpoint) ;!
  pop_completion ;!
  ret (value completion).

Definition compile_scoped_block (stmts : list Statement) : M Reg :=
  if negb (block_needs_lexical_scope stmts) then compile_block stmts
  else
    push_scope (boxed_block_names stmts) ;!
    hoist_block stmts ;!
    let! value := compile_block stmts in
    pop_scope ;!
    ret value.

Definition compile_if (test : Expr) (then_ : list Statement) (else_ : option (list Statement))
  : M Reg :=
  let! cond := compile_expr test in
  let! join := load_undefined in
  push_completion {| value := join; present := None |} ;!
  let! else_jump := emit_jump (JumpIfFalse cond) in
  let! then_value := compile_scoped_block then_ in
  emit (Mov join then_value) ;!
  let! end_jump := emit_jump Jump in
  patch_here else_jump ;!
  let! else_value :=
    match else_ with
    | Some stmts => compile_scoped_block stmts
    | None => load_undefined
    end in
  emit (Mov join else_value) ;!
  patch_here end_jump ;!
  pop_completion ;!
  ret join.

(** ** Abrupt exits *)

Definition compile_finally_body (body : list Statement) : M unit :=
  let! completion := new_completion false in
  push_completion completion ;!
  compile_scoped_block body ;!
  pop_completion ;!
  ret tt.

(** One crossed cleanup, at [index] of the unwind stack.  A [finally] body is
    compiled with the crossed regions taken off the stack. *)
Definition unwind_one (index : nat) (ctx : UnwindCtx) : M unit :=
  match ctx with
  | UScope => emit PopScope
  | UEnumerator state => emit (EnumEnd state)
  | UPending => emit PopPending
  | UHandler finally close_iter =>
      emit PopHandler ;!
      match close_iter with Some iter => emit (CloseIterator iter false) | None => ret tt end ;!
      match finally with
      | Some body =>
          let! unwind := gets c_unwind in
          let crossed := drop index unwind in
          modify (set_unwind (take index unwind)) ;!
          compile_finally_body body ;!
          modify (fun s => set_unwind (c_unwind s ++ crossed) s)
      | None => ret tt
      end
  end.

(** The loop of [duplicate_unwind], from [index] down to [depth]. *)
Fixpoint unwind_from (index depth : nat) : M unit :=
  match index with
  | O => ret tt
  | S index =>
      if (depth <=? index)%nat then
        let! unwind := gets c_unwind in
        let! ctx := some_or_panic (unwind !! index) in
        unwind_one index ctx ;!
        unwind_from index depth
      else ret tt
  end.

Definition duplicate_unwind (depth : nat) : M unit :=
  let! index := gets (fun s => length (c_unwind s)) in
  unwind_from index depth.

(** Leave for the context at [target]. *)
Definition compile_exit (target : nat) (note : nat -> LoopCtx -> LoopCtx) : M Reg :=
  let! loops := gets c_loops in
  let! ctx := some_or_panic (loops !! target) in
  record_abrupt_completion target ;!
  duplicate_unwind (cleanup_depth ctx) ;!
  let! address := emit_jump Jump in
  update_loop target (note address) ;!
  load_undefined.

Definition compile_break : M Reg :=
  let! found := gets (find_loop (fun ctx => negb (bool_decide (kind ctx = KLabelBlock)))) in
  let! target := some_or found "break outside loop" in
  compile_exit target add_break.

Definition compile_continue : M Reg :=
  let! found := gets (find_loop (fun ctx => bool_decide (kind ctx = KLoop))) in
  let! target := some_or found "continue outside loop" in
  compile_exit target add_continue.

Definition compile_labeled_exit (label : Text) (is_continue : bool) : M Reg :=
  let! found := gets (find_loop (fun ctx => existsb (text_eq label) (labels ctx))) in
  let! target := some_or found "unresolved control-flow label" in
  let! loops := gets c_loops in
  let! ctx := some_or_panic (loops !! target) in
  if is_continue && negb (bool_decide (kind ctx = KLoop))
  then decline (DeclineFunc "unresolved continue label")
  else compile_exit target (if is_continue then add_continue else add_break).

(** ** Protected regions *)

Definition catch_parameter (param : option Pattern) : option Text :=
  match param with Some (PIdent name) => Some name | _ => None end.

(** The catch clause: its parameter, its scope and its body. *)
Definition compile_catch (value err : Reg) (param : option Text) (catch_body : list Statement)
  : M unit :=
  let boxed := boxed_block_names catch_body ∪
    match param with
    | Some param =>
        if statements_capture_identifier param catch_body then {[param]} else ∅
    | None => ∅
    end in
  push_scope boxed ;!
  match param with
  | Some param =>
      let! boxed := is_boxed_here param in
      if boxed then emit_global (fun name => DefineGlobal name err Catch true : Instr) param
      else
        let! slot := declare_slot param Catch in
        emit (InitLocal slot err)
  | None => ret tt
  end ;!
  hoist_block catch_body ;!
  let! catch_value := compile_block catch_body in
  emit (Mov value catch_value) ;!
  pop_scope.

Definition pop_handler : M unit :=
  let! popped := pop_unwind in
  let! _ctx := some_or popped "unwind stack underflow" in
  ret tt.

(** Enter a region: the jump of its handler and its entry on the unwind stack. *)
Definition enter_region (make : Target -> Instr) (finally : option (list Statement)) : M nat :=
  let! addr := emit_jump make in
  push_unwind (UHandler finally None) ;!
  ret addr.
Definition option_map_m {A B} (f : A -> M B) (o : option A) : M (option B) :=
  match o with Some x => let! y := f x in ret (Some y) | None => ret None end.

Definition compile_try (body : list Statement) (catch : option (option Pattern * list Statement))
    (finally : option (list Statement)) : M Reg :=
  if match catch with
     | Some (Some pattern, _) => match pattern with PIdent _ => false | _ => true end
     | _ => false
     end
  then decline (DeclineFunc "catch binding pattern")
  else
    let! value := alloc_reg in
    let! undef := load_undefined in
    emit (Mov value undef) ;!
    match catch, finally with
    | None, None =>
        let! body_value := compile_scoped_block body in
        emit (Mov value body_value) ;!
        ret value
    | _, _ =>
        push_completion {| value := value; present := None |} ;!
        let! err := alloc_reg in
        let! finally_addr := option_map_m (fun body =>
          enter_region (fun target => PushFinally target err : Instr) (Some body)) finally in
        let! catch_addr := option_map_m (fun _ =>
          enter_region (fun target => PushCatch target err : Instr) None) catch in
        let! body_value := compile_scoped_block body in
        emit (Mov value body_value) ;!
        match catch with Some _ => emit PopHandler ;! pop_handler | None => ret tt end ;!
        let! normal := emit_jump Jump in
        let! catch_pad := here in
        match catch with
        | Some (param, catch_body) => compile_catch value err (catch_parameter param) catch_body
        | None => ret tt
        end ;!
        let! finally_run := here in
        match finally with
        | Some body => emit PopHandler ;! pop_handler ;! compile_finally_body body
        | None => ret tt
        end ;!
        let! end_ := emit_jump Jump in
        let! finally_pad := here in
        match finally with
        | Some body =>
            push_unwind UPending ;!
            compile_finally_body body ;!
            pop_unwind ;!
            emit Rethrow
        | None => ret tt
        end ;!
        let! after := here in
        match catch_addr with Some addr => patch_jump addr catch_pad | None => ret tt end ;!
        match finally_addr with Some addr => patch_jump addr finally_pad | None => ret tt end ;!
        patch_jump normal finally_run ;!
        patch_jump end_ after ;!
        pop_completion ;!
        ret value
    end.

(** ** Labels and loops *)

Definition is_loop (s : Statement) : bool :=
  match s with
  | SWhile _ _ | SDoWhile _ _ | SFor _ _ _ _ | SForIn _ _ _ | SForOf _ _ _ _ => true
  | _ => false
  end.

Definition compile_labeled (label : Text) (body : Statement) : M Reg :=
  if is_loop body then
    modify (fun s => set_pending_labels (c_pending_labels s ++ [label]) s) ;!
    compile_stmt body
  else
    let! completion := new_completion true in
    push_loop [label] KLabelBlock ;!
    push_completion completion ;!
    let! result := compile_stmt body in
    copy_statement_completion completion body result ;!
    pop_completion ;!
    let! ctx := pop_loop in
    let! end_ := here in
    patch_all (breaks ctx) end_ ;!
    ret (value completion).

(** The context of a loop and the completion its body updates. *)
Definition enter_loop (loop_value : Reg) : M unit :=
  let! labels := take_pending_labels in
  push_loop labels KLoop ;!
  push_completion {| value := loop_value; present := None |}.

(** A loop's result register, undefined until the body gives a value. *)
Definition new_loop_value : M Reg :=
  let! loop_value := alloc_reg in
  let! undef := load_undefined in
  emit (Mov loop_value undef) ;!
  ret loop_value.

Definition compile_loop_body (loop_value : Reg) (body : list Statement) : M unit :=
  let! body_value := compile_scoped_block body in
  copy_completion_value loop_value body_value.

Definition jump_back (top : nat) : M unit := let! target := addr_target top in emit (Jump target).

Definition compile_while (test : Expr) (body : list Statement) : M Reg :=
  let! loop_value := new_loop_value in
  let! test_addr := here in
  emit LoopHead ;!
  let! cond := compile_expr test in
  let! end_jump := emit_jump (JumpIfFalse cond) in
  enter_loop loop_value ;!
  compile_loop_body loop_value body ;!
  jump_back test_addr ;!
  pop_completion ;!
  let! ctx := pop_loop in
  let! end_ := here in
  patch_jump end_jump end_ ;!
  finish_loop ctx test_addr end_ ;!
  ret loop_value.

Definition compile_do_while (test : Expr) (body : list Statement) : M Reg :=
  let! loop_value := new_loop_value in
  let! body_addr := here in
  emit LoopHead ;!
  enter_loop loop_value ;!
  compile_loop_body loop_value body ;!
  let! test_addr := here in
  let! cond := compile_expr test in
  let! target := addr_target body_addr in
  emit (JumpIfTrue cond target) ;!
  pop_completion ;!
  let! ctx := pop_loop in
  let! end_ := here in
  finish_loop ctx test_addr end_ ;!
  ret loop_value.

(** The boxed names that each iteration copies: those of a [let] head. *)
Definition rotating_names (init : option ForInit) (boxed : gset Text) : gset Text :=
  match init with
  | Some (IVar VLet _ | IPattern VLet _ _ _) => boxed
  | _ => ∅
  end.
Definition rotate (names : gset Text) : M unit :=
  if bool_decide (names = ∅) then ret tt else rotate_head_scope names.

Definition compile_for (init : option ForInit) (test update : option Expr) (body : list Statement)
  : M Reg :=
  let boxed := boxed_for_head_names init test update body in
  push_scope boxed ;!
  match init with
  | Some init =>
      prepare_for_lexicals init ;!
      compile_for_init compile_expr compile_call_reference init
  | None => ret tt
  end ;!
  let rotating := rotating_names init boxed in
  rotate rotating ;!
  let! loop_value := new_loop_value in
  let! test_addr := here in
  emit LoopHead ;!
  let! end_jump := option_map_m (fun test =>
    let! cond := compile_expr test in emit_jump (JumpIfFalse cond)) test in
  enter_loop loop_value ;!
  compile_loop_body loop_value body ;!
  let! continue_addr := here in
  rotate rotating ;!
  match update with Some update => compile_expr update ;! ret tt | None => ret tt end ;!
  jump_back test_addr ;!
  pop_completion ;!
  let! ctx := pop_loop in
  let! pad := here in
  pop_scope ;!
  match end_jump with Some addr => patch_jump addr pad | None => ret tt end ;!
  finish_loop ctx continue_addr pad ;!
  ret loop_value.

Definition compile_for_in (name : Text) (kind : VarKind) (obj : Expr) (body : list Statement)
  : M Reg :=
  open_head [name] kind ;!
  let! head := prepare_for_head name in
  let! source := compile_expr obj in
  let! keys := alloc_reg in
  emit (EnumKeys keys source) ;!
  push_unwind (UEnumerator keys) ;!
  let! loop_value := new_loop_value in
  let! top := here in
  emit LoopHead ;!
  let! key := alloc_reg in
  let! finished := alloc_reg in
  emit (EnumNext keys key finished) ;!
  let! end_jump := emit_jump (JumpIfTrue finished) in
  enter_loop loop_value ;!
  reset_iteration_head [name] kind ;!
  bind_for_head head key kind ;!
  compile_loop_body loop_value body ;!
  let! increment := here in
  jump_back top ;!
  pop_completion ;!
  let! ctx := pop_loop in
  let! end_ := here in
  patch_jump end_jump end_ ;!
  finish_loop ctx increment end_ ;!
  emit (EnumEnd keys) ;!
  pop_unwind ;!
  close_head kind ;!
  ret loop_value.

(** Bind one yielded value: a name's head, or a pattern. *)
Definition bind_for_of (pattern : Pattern) (head : option ForHead) (yielded : Reg)
    (kind : VarKind) : M unit :=
  match head with
  | Some head => bind_for_head head yielded kind
  | None => compile_destructure compile_expr pattern yielded (is_var kind)
  end.

(** [pattern] is the head: a name when it is [PIdent]. *)
Definition compile_for_of (pattern : Pattern) (kind : VarKind) (iter : Expr)
    (body : list Statement) (is_await : bool) : M Reg :=
  if is_await then decline (DeclineFunc "async needs Phase G")
  else
    let names := pattern_names pattern in
    open_head names kind ;!
    let! head :=
      match pattern with
      | PIdent name => let! head := prepare_for_head name in ret (Some head)
      | _ => for_each names (fun bound => prepare_for_head bound ;! ret tt) ;! ret None
      end in
    let! source := compile_expr iter in
    let! iterator := alloc_reg in
    let! next := alloc_reg in
    emit (ForOfInit iterator next source) ;!
    let! loop_value := new_loop_value in
    let! scratch := alloc_reg in
    push_unwind (UHandler None (Some iterator)) ;!
    enter_loop loop_value ;!
    let! top := here in
    emit LoopHead ;!
    let! finished := alloc_reg in
    let! yielded := alloc_reg in
    emit (IterNext finished yielded iterator next) ;!
    let! exhausted := emit_jump (JumpIfTrue finished) in
    let! unwind_pad := emit_jump (fun target => PushFinally target scratch : Instr) in
    reset_iteration_head names kind ;!
    bind_for_of pattern head yielded kind ;!
    compile_loop_body loop_value body ;!
    let! continue_pad := here in
    emit PopHandler ;!
    jump_back top ;!
    pop_completion ;!
    let! ctx := pop_loop in
    pop_handler ;!
    let! drained := here in
    let! end_jump := emit_jump Jump in
    let! close_pad := here in
    emit PopHandler ;!
    emit (CloseIterator iterator false) ;!
    let! over_pad := emit_jump Jump in
    patch_here unwind_pad ;!
    emit (CloseIterator iterator true) ;!
    emit Rethrow ;!
    let! end_ := here in
    patch_jump exhausted drained ;!
    patch_jump end_jump end_ ;!
    patch_jump over_pad end_ ;!
    finish_loop ctx continue_pad close_pad ;!
    close_head kind ;!
    ret loop_value.

(** ** Switch *)

Definition case_test (c : SwitchCase) : option Expr := match c with Case test _ => test end.
Definition case_body (c : SwitchCase) : list Statement := match c with Case _ body => body end.

(** The strict-equality tests: a jump for each tested case, with its index. *)
Fixpoint compile_tests (scrutinee : Reg) (index : nat) (cases : list SwitchCase)
  : M (list (nat * nat)) :=
  match cases with
  | [] => ret []
  | c :: cases =>
      match case_test c with
      | Some test =>
          let! test_value := compile_expr test in
          let! matched := alloc_reg in
          emit (Binary matched Seq scrutinee test_value) ;!
          let! addr := emit_jump (JumpIfTrue matched) in
          let! tests := compile_tests scrutinee (S index) cases in
          ret ((addr, index) :: tests)
      | None => compile_tests scrutinee (S index) cases
      end
  end.

(** The first case without a test. *)
Fixpoint default_case (index : nat) (cases : list SwitchCase) : option nat :=
  match cases with
  | [] => None
  | c :: cases =>
      match case_test c with None => Some index | Some _ => default_case (S index) cases end
  end.

Definition compile_switch (disc : Expr) (cases : list SwitchCase) : M Reg :=
  let! scrutinee := compile_expr disc in
  push_scope (⋃ map (fun c => boxed_block_names (case_body c)) cases) ;!
  for_each cases (fun c => hoist_block (case_body c)) ;!
  let! result := new_loop_value in
  let! tests := compile_tests scrutinee 0 cases in
  let! no_match := emit_jump Jump in
  push_loop [] KSwitch ;!
  push_completion {| value := result; present := None |} ;!
  let! bodies := for_map cases (fun c =>
    let! body := here in
    let! case_value := compile_block (case_body c) in
    copy_completion_value result case_value ;!
    ret body) in
  pop_completion ;!
  let! ctx := pop_loop in
  let! end_ := here in
  patch_all (breaks ctx) end_ ;!
  for_each tests (fun '(addr, index) =>
    let! body := some_or_panic (bodies !! index) in patch_jump addr body) ;!
  match default_case 0 cases with
  | Some index => let! body := some_or_panic (bodies !! index) in patch_jump no_match body
  | None => patch_jump no_match end_
  end ;!
  pop_scope ;!
  ret result.

(** ** The statement *)

(** A hoisted function's declaration: its Annex B update, when it has one. *)
Definition compile_fn_decl (address : nat) (name : Text) : M Reg :=
  let! updates := gets c_annex_updates in
  match updates !! address with
  | Some (_, target) =>
      let! src := alloc_reg in
      load_binding src name ;!
      let! index := intern_string name in
      emit (AnnexBUpdate index src
        (match target with BSlot slot => Some slot | BGlobal => None end))
  | None => ret tt
  end ;!
  load_undefined.

Definition compile_class_decl (decorators : list Expr) (source_text : option nat) (name : Text)
    (superclass : option Expr) (body : list ClassMember) : M Reg :=
  let! class := compile_class compile_expr compile_call_reference name None superclass body
                  decorators source_text in
  let! binding := resolve name in
  match binding with
  | BSlot slot => emit (InitLocal slot class)
  | BGlobal => emit_global (fun name => InitGlobal name class false : Instr) name
  end ;!
  load_undefined.

(** A module statement: its template, and the names that must be in scope cells. *)
Definition compile_module_stmt (attributes : list (Text * JsString.JsString)) (reason : string)
    (names : option (list Text)) (template : Constant) (make : nat -> Instr) : M Reg :=
  if negb (bool_decide (length attributes = 0%nat)) then decline (DeclineFunc reason)
  else
    match names with Some names => require_env_module_binding names | None => ret tt end ;!
    let! tmpl := push_const template in
    emit (make tmpl) ;!
    load_undefined.

Definition stmt_step (stmt : Statement) : M Reg :=
  match stmt with
  | SExpr e => compile_expr e
  | SVarDecl kind name init destructuring =>
      compile_var_decl compile_expr compile_call_reference kind name init destructuring
  | SFnDecl address _ name _ _ _ _ _ => compile_fn_decl address name
  | SParameterInitialization _ _ _ => decline (DeclineFunc "separate parameter environment")
  | SClassInitialization _ _ _ =>
      decline (DeclineFunc "constructor initialization environment")
  | SDeclarations inner =>
      for_each inner (fun stmt => compile_stmt stmt ;! ret tt) ;!
      load_undefined
  | Ast.SBlock stmts => compile_scoped_block stmts
  | SIf test then_ else_ => compile_if test then_ else_
  | SResourceForOf _ _ _ _ _ | SResourceDeclaration _ _ =>
      decline (DeclineFunc "resource disposal execution")
  | SWith _ _ => decline (DeclineFunc "with object environment")
  | SWhile test body => compile_while test body
  | SDoWhile test body => compile_do_while test body
  | SFor init test update body => compile_for init test update body
  | SBreak => compile_break
  | SContinue => compile_continue
  | SReturn value =>
      match value with
      | Some value => let! src := compile_expr value in emit (Return src)
      | None => emit ReturnUndefined
      end ;!
      load_undefined
  | SThrow value =>
      let! src := compile_expr value in
      emit (Throw src) ;!
      load_undefined
  | SEmpty => load_undefined
  | STry body catch finally => compile_try body catch finally
  | SSwitch disc cases => compile_switch disc cases
  | SClassDecl decorators _ name superclass body =>
      compile_class_decl decorators (stmt_source_text stmt) name superclass body
  | SForIn (FDeclaration kind (PIdent name) None) obj body => compile_for_in name kind obj body
  | SForIn _ _ _ => decline (DeclineFunc "for-in binding form")
  | SForOf (FDeclaration kind pattern None) iter body is_await =>
      compile_for_of pattern kind iter body is_await
  | SForOf _ _ _ _ => decline (DeclineFunc "for-of assignment head")
  | SLabeled label body => compile_labeled label body
  | SLabeledBreak label => compile_labeled_exit label false
  | SLabeledContinue label => compile_labeled_exit label true
  | SImport attributes module phase default named namespace =>
      compile_module_stmt attributes "import attributes"
        (Some (option_list default ++ map snd named ++ option_list namespace))
        (CImportTemplate {| import_module := module; import_phase := phase;
           import_default := default; import_named := named; import_namespace := namespace |})
        (fun tmpl => Import tmpl : Instr)
  | SExportDefault e =>
      let! src := compile_named_assignment_value compile_expr compile_call_reference e
                    (chars "default") in
      emit (ExportDefault src) ;!
      load_undefined
  | SExportNamed attributes specifiers source =>
      compile_module_stmt attributes "export attributes"
        (match source with None => Some (map fst specifiers) | Some _ => None end)
        (CExportNamedTemplate {| export_specifiers := specifiers; export_source := source |})
        (fun tmpl => ExportNamed tmpl : Instr)
  | SExportAll attributes source alias =>
      compile_module_stmt attributes "export attributes" None
        (CExportAllTemplate {| all_source := source; all_alias := alias |})
        (fun tmpl => ExportAll tmpl : Instr)
  end.

End WithStmt.

Section Knot.
Context (ecmascript_number_string : spec_float -> Text).

Fixpoint compile_stmt (fuel : nat) (stmt : Statement) : M Reg :=
  match fuel with
  | O => out_of_fuel
  | S fuel =>
      stmt_step (compile_expr ecmascript_number_string fuel)
        (compile_call_reference ecmascript_number_string fuel) (compile_stmt fuel) stmt
  end.

End Knot.

End CompileStmt.
