(* ===== verification/CompileUnit.v ===== *)
(** Compilation units: the last part of [bytecode/compiler.rs].

    A nested function is compiled after its parent's own body, by a compiler of
    its own; what the subset does not cover stays a tree.  [compile_program] is
    the entry point. *)
From stdpp Require Import prelude list strings gmap.
From Stdlib Require Import ZArith Lia SpecFloat.
From S2P Require Import Prelude JsString BigInt Ast Opcode Compiler CompileClass CompileExpr CompileStmt.
Import Opcode Compiler Primitives Names CompileClass CompileExpr CompileStmt.
Local Open Scope Z_scope.
Local Open Scope compile_scope.

Module CompileUnit.

(** ** The finished function *)

(** Number the property sites: the loop over the code in [build_function]. *)
Fixpoint number_sites (site_count : nat) (code : list Instr) : M (list Instr * nat) :=
  match code with
  | [] => ret ([], site_count)
  | i :: code =>
      let next (i : Instr) :=
        if fits_u32 (site_count + 1) then
          let! '(code, count) := number_sites (site_count + 1) code in ret (i :: code, count)
        else decline (DeclineFunc "too many property sites") in
      match i with
      | Property (GetProp private _ dst obj key) =>
          next (GetProp private site_count dst obj key)
      | Property (SetProp _ obj key val) => next (SetProp site_count obj key val)
      | _ => let! '(code, count) := number_sites site_count code in ret (i :: code, count)
      end
  end.

Definition needs_environment (c : Constant) : bool :=
  match c with CFunction _ | CAstFunction _ | CClassTemplate _ => true | _ => false end.

Definition build_function (name : option Text) (parameter_count : nat)
    (is_arrow is_constructor : bool) : M BytecodeFunction :=
  let! parameter_count := try_u16 parameter_count "too many parameters" in
  let! slots := gets c_slots in
  let! local_count := try_u16 (length slots) "too many locals" in
  let! code := gets c_code in
  let! '(code, site_count) := number_sites 0 code in
  let! s := gets id in
  modify (fun s => set_slots [] (set_constants [] (set_code [] s))) ;!
  ret {| source_text := None;
         named_expression := false;
         strict := false;
         fn_name := name;
         code := code;
         constants := c_constants s;
         register_count := c_max_reg s;
         local_count := local_count;
         parameter_count := parameter_count;
         upvalue_count := 0;
         slots := slots;
         Opcode.is_arrow := is_arrow;
         Opcode.is_constructor := is_constructor;
         captures_arguments := c_captures_arguments s;
         needs_frame_environment :=
           c_captures_arguments s || existsb captured slots
           || existsb needs_environment (c_constants s);
         caches := site_count;
         global_read_slots := length (c_constants s) |}.

(** [code.named_expression = ..; code.source_text = ..; code.strict = ..] *)
Definition with_header (source_text : option nat) (named_expression strict : bool)
    (f : BytecodeFunction) : BytecodeFunction :=
  {| source_text := source_text; named_expression := named_expression; strict := strict;
     fn_name := fn_name f; code := code f; constants := constants f;
     register_count := register_count f; local_count := local_count f;
     parameter_count := parameter_count f; upvalue_count := upvalue_count f; slots := slots f;
     Opcode.is_arrow := Opcode.is_arrow f; Opcode.is_constructor := Opcode.is_constructor f;
     captures_arguments := captures_arguments f;
     needs_frame_environment := needs_frame_environment f; caches := caches f;
     global_read_slots := global_read_slots f |}.

(** ** Deferred functions *)

Definition with_ctor (index : nat) (t : ClassTemplate) : ClassTemplate :=
  {| field_decorators := field_decorators t; has_method_decorators := has_method_decorators t;
     class_decorators := class_decorators t; class_source_text := class_source_text t;
     private_fields := private_fields t; private_declarations := private_declarations t;
     class_name := class_name t; expr_name := expr_name t; superclass := superclass t;
     super_proto := super_proto t; ctor_func := index; ctor_length := ctor_length t;
     ctor_computed_keys := ctor_computed_keys t; members := members t; blocks := blocks t |}.

Definition with_members (l : list ClassMemberTemplate) (t : ClassTemplate) : ClassTemplate :=
  {| field_decorators := field_decorators t; has_method_decorators := has_method_decorators t;
     class_decorators := class_decorators t; class_source_text := class_source_text t;
     private_fields := private_fields t; private_declarations := private_declarations t;
     class_name := class_name t; expr_name := expr_name t; superclass := superclass t;
     super_proto := super_proto t; ctor_func := ctor_func t; ctor_length := ctor_length t;
     ctor_computed_keys := ctor_computed_keys t; members := l; blocks := blocks t |}.

Definition with_func (index : nat) (m : ClassMemberTemplate) : ClassMemberTemplate :=
  {| auto_decorator_field := auto_decorator_field m; member_decorators := member_decorators m;
     auto_accessor_storage := Opcode.auto_accessor_storage m; member_kind := member_kind m;
     member_is_static := member_is_static m; member_name := member_name m;
     member_func := Some index |}.

(** Write the index of a compiled function where its placeholder is. *)
Definition patch_function (p : PatchTarget) (index : nat) (is_bytecode : bool) : M unit :=
  match p with
  | PatchFunction addr =>
      let! code := gets c_code in
      match code !! addr with
      | Some (Property (MakeFunction dst _)) =>
          let i : Instr := if is_bytecode then MakeFunction dst index : Instr
                           else MakeAstFunction dst index in
          modify (fun s => set_code (<[addr := i]> (c_code s)) s)
      | _ => decline (DeclineFunc "bad function patch")
      end
  | PatchCtor tmpl =>
      let! constants := gets c_constants in
      match constants !! tmpl with
      | Some (CClassTemplate t) =>
          modify (fun s =>
            set_constants (<[tmpl := CClassTemplate (with_ctor index t)]> (c_constants s)) s)
      | _ => decline (DeclineFunc "bad class patch")
      end
  | PatchMember tmpl member =>
      let! constants := gets c_constants in
      match constants !! tmpl with
      | Some (CClassTemplate t) =>
          match members t !! member with
          | Some entry =>
              let l := <[member := with_func index entry]> (members t) in
              modify (fun s =>
                set_constants (<[tmpl := CClassTemplate (with_members l t)]> (c_constants s)) s)
          | None => decline (DeclineFunc "bad class patch")
          end
      | _ => decline (DeclineFunc "bad class patch")
      end
  end.

Section WithFunction.
Context (compile_function : FuncDef -> gset Text -> outcome Stop FuncOutcome).

(** The outcome of another compiler. *)
Definition run_function (def : FuncDef) (outer : gset Text) : M FuncOutcome :=
  fun s => match compile_function def outer with
           | Ok x => Ok (x, s)
           | Err e => Err e
           | Panic => Panic
           end.

Definition finish_function (item : DeferredFn) : M unit :=
  let! outer_block := gets c_outer_block in
  let! outcome := run_function (def item) (outer_block ∪ snapshot item) in
  let child_captures :=
    match outcome with
    | OutBytecode code => captures_arguments code
    | OutAst ast => ast_uses_arguments ast
    end in
  (if def_is_arrow (def item) && child_captures
   then modify (set_captures_arguments true) else ret tt) ;!
  match outcome with
  | OutBytecode code =>
      let! index := push_const (CFunction code) in patch_function (patch item) index true
  | OutAst ast =>
      let! index := push_const (CAstFunction ast) in patch_function (patch item) index false
  end.

Definition finish_functions : M unit :=
  let! deferred := gets c_deferred in
  modify (set_deferred []) ;!
  for_each deferred finish_function.

End WithFunction.

(** ** Units *)

Section WithParts.
Context (compile_expr : Expr -> M Reg).
Context (compile_stmt : Statement -> M Reg).
Context (compile_function : FuncDef -> gset Text -> outcome Stop FuncOutcome).

Definition compile_top (stmts : list Statement) (linked : bool) : M BytecodeFunction :=
  let! completion := new_completion false in
  push_completion completion ;!
  (if linked then ret tt else hoist_top stmts) ;!
  let! checkpoint := checkpoint in
  restore checkpoint ;!
  for_each stmts (fun stmt =>
    let! value := compile_stmt stmt in
    copy_statement_completion completion stmt value ;!
    restore checkpoint) ;!
  pop_completion ;!
  finish_functions compile_function ;!
  build_function None 0 false false.

Definition compile_unit_function (def : FuncDef) : M BytecodeFunction :=
  let params := def_params def in
  modify (set_captured (find_captured params (def_body def))) ;!
  let reads_arguments :=
    negb (def_is_arrow def) &&
    match def_body def with FStmts stmts => stmts_need_arguments stmts | FExpr _ => false end in
  (if reads_arguments then
     modify (fun s => set_captured
       (c_captured s ∪ list_to_set params ∪ {[chars "arguments"]}) s) ;!
     modify (set_captures_arguments true)
   else ret tt) ;!
  match def_body def with
  | FStmts stmts =>
      let! is_arrow := gets c_is_arrow in
      hoist_function params stmts is_arrow ;!
      let! checkpoint := checkpoint in
      for_each stmts (fun stmt => compile_stmt stmt ;! restore checkpoint)
  | FExpr e =>
      declare_params params ;!
      let! value := compile_expr e in
      emit (Return value)
  end ;!
  finish_functions compile_function ;!
  let! code := build_function (def_name def) (length params) (def_is_arrow def)
                 (def_is_constructor def) in
  ret (with_header (def_source_text def) (def_named_expression def)
         (match def_body def with FStmts stmts => use_strict stmts | FExpr _ => false end) code).

End WithParts.

Section Knot.
Context (ecmascript_number_string : spec_float -> Text).
Let compile_expr := compile_expr ecmascript_number_string.
Let compile_stmt := compile_stmt ecmascript_number_string.

Fixpoint compile_function (fuel : nat) (def : FuncDef) (outer_block : gset Text)
  : outcome Stop FuncOutcome :=
  match fuel with
  | O => Err OutOfFuel
  | S fuel =>
      if def_is_async def || def_is_generator def || has_rest_param (def_params def)
         || has_dup_params (def_params def)
      then Ok (OutAst (build_ast_function def))
      else
        let this_mode := if def_is_arrow def then Global else Frame in
        let compiler := for_function outer_block this_mode (def_is_arrow def) in
        match compile_unit_function (compile_expr fuel) (compile_stmt fuel)
                (compile_function fuel) def compiler with
        | Ok (bytecode, _) => Ok (OutBytecode bytecode)
        | Err (Declined (DeclineFunc _)) => Ok (OutAst (build_ast_function def))
        | Err e => Err e
        | Panic => Panic
        end
  end.

(** Enough for every recursion over the statements. *)
Definition program_fuel (stmts : list Statement) : nat := (3 * stmts_size stmts + 3)%nat.

(** [Unsupported] names the reason of the decline. *)
Inductive Unsupported := unsupported (reason : string) | unsupported_fuel.

Definition compile_unit (stmts : list Statement) (linked : bool)
  : outcome Unsupported BytecodeFunction :=
  let fuel := program_fuel stmts in
  match compile_top (compile_stmt fuel) (compile_function fuel) stmts linked top_level with
  | Ok (main, _) => Ok main
  | Err (Declined d) => Err (unsupported (decline_reason d))
  | Err OutOfFuel => Err unsupported_fuel
  | Panic => Panic
  end.

Definition compile_program (stmts : list Statement) : outcome Unsupported BytecodeModule :=
  match compile_unit stmts false with
  | Ok f => Ok {| main := with_header (source_text f) (named_expression f) (use_strict stmts) f |}
  | Err e => Err e
  | Panic => Panic
  end.

Definition compile_linked_program (stmts : list Statement)
  : outcome Unsupported BytecodeModule :=
  match compile_unit stmts true with
  | Ok f => Ok {| main := f |}
  | Err e => Err e
  | Panic => Panic
  end.

End Knot.

End CompileUnit.
