(* ===== verification/CompileSpec.v ===== *)
(** What the compiler keeps true of its state, and how its computations are
    specified.

    [ok] is the invariant: every instruction so far is one the verifier accepts,
    but for the function constants still pending; every table index the compiler
    holds is in range; the contexts of loops and cleanups are consistent.
    [grow] relates a state to a later one of the same unit, [shape] is the part
    of the state that follows the nesting of the source.  [wp] is the weakest
    precondition of a computation that must not panic, run out of fuel, or
    decline for an inconsistency of its own. *)
From stdpp Require Import prelude list strings gmap.
From Stdlib Require Import ZArith Lia SpecFloat.
From S2P Require Import Prelude JsString BigInt Ast Opcode Verify VerifySpec Compiler CompileExpr.
Import Opcode Compiler Primitives Names CompileExpr.
Local Open Scope nat_scope.

(** ** Templates

    The one thing the compiler takes from the parser: a template literal has
    one more chunk than it has holes. *)

Definition opt_all {A} (f : A -> bool) (o : option A) : bool :=
  match o with Some x => f x | None => true end.

Fixpoint expr_ok (e : Expr) : bool :=
  match e with
  | ELegacyLiteral e | EParenthesized e | EUnary _ e _ | ESpread e | EAwait e | EYieldFrom e =>
      expr_ok e
  | EArray items _ => forallb expr_ok items
  | EObject props _ => forallb prop_ok props
  | EBinary _ a b | EMember a b _ | EOptionalChain a b _ | EAssignment a _ b
  | ELogicalAssignment a _ b => expr_ok a && expr_ok b
  | ECall callee args | ENew callee args => expr_ok callee && forallb expr_ok args
  | ETaggedTemplate _ tag _ _ exprs => expr_ok tag && forallb expr_ok exprs
  | EConditional a b c => expr_ok a && expr_ok b && expr_ok c
  | EArrowFn _ _ body _ =>
      match body with BExpr e => expr_ok e | BBlock stmts => forallb stmt_ok stmts end
  | EClassExpr decorators _ _ superclass body =>
      forallb expr_ok decorators && opt_all expr_ok superclass && forallb member_ok body
  | EFnExpr _ _ _ body _ _ => forallb stmt_ok body
  | EDynamicImport specifier options _ => expr_ok specifier && opt_all expr_ok options
  | ETemplate quasis exprs => (length quasis =? length exprs + 1) && forallb expr_ok exprs
  | EYield e => opt_all expr_ok e
  | _ => true
  end
with prop_ok (p : ObjectProp) : bool :=
  match p with
  | OCoverInitializedName _ e | OKeyValue _ e | OSpread e => expr_ok e
  | OShorthand _ => true
  | OComputed k v => expr_ok k && expr_ok v
  | OComputedMethod _ k _ body _ _ _ _ => expr_ok k && forallb stmt_ok body
  | OMethod _ _ _ body _ _ | OGetter _ _ body | OSetter _ _ _ body => forallb stmt_ok body
  end
with member_ok (m : ClassMember) : bool :=
  match m with
  | CMethod decorators _ name _ _ body _ _ | CGetter decorators _ name _ body
  | CSetter decorators _ name _ _ body =>
      forallb expr_ok decorators && match name with MComputed e => expr_ok e | _ => true end
      && forallb stmt_ok body
  | CField decorators name _ _ init =>
      forallb expr_ok decorators && match name with MComputed e => expr_ok e | _ => true end
      && opt_all expr_ok init
  | CStaticBlock body => forallb stmt_ok body
  end
with pattern_ok (p : Pattern) : bool :=
  match p with
  | PElision | PIdent _ => true
  | PArray items => forallb pattern_ok items
  | PObject props =>
      forallb (fun '(key, sub) =>
        match key with KComputed e => expr_ok e | KName _ => true end && opt_all pattern_ok sub)
        props
  | PRest inner => pattern_ok inner
  | PDefault inner default => pattern_ok inner && expr_ok default
  | PMember object property _ => expr_ok object && expr_ok property
  end
with stmt_ok (s : Statement) : bool :=
  match s with
  | SExpr e | SThrow e | SExportDefault e => expr_ok e
  | SVarDecl _ _ init destructuring => opt_all expr_ok init && opt_all pattern_ok destructuring
  | SFnDecl _ _ _ _ body _ _ _ => forallb stmt_ok body
  | SClassDecl decorators _ _ superclass body =>
      forallb expr_ok decorators && opt_all expr_ok superclass && forallb member_ok body
  | SReturn e => opt_all expr_ok e
  | SIf test then_ else_ =>
      expr_ok test && forallb stmt_ok then_ && opt_all (forallb stmt_ok) else_
  | SWith e body | SWhile e body | SDoWhile e body => expr_ok e && forallb stmt_ok body
  | SFor init test update body =>
      opt_all for_init_ok init && opt_all expr_ok test && opt_all expr_ok update
      && forallb stmt_ok body
  | SForIn binding e body | SForOf binding e body _ =>
      match binding with
      | FDeclaration _ pattern _ => pattern_ok pattern
      | FAssignment _ => true
      end && expr_ok e && forallb stmt_ok body
  | SResourceForOf _ e body _ _ => expr_ok e && forallb stmt_ok body
  | Ast.SBlock stmts | SDeclarations stmts | SResourceDeclaration stmts _ =>
      forallb stmt_ok stmts
  | SLabeled _ body => stmt_ok body
  | STry body catch finally =>
      forallb stmt_ok body
      && opt_all (fun '(_, catch_body) => forallb stmt_ok catch_body) catch
      && opt_all (forallb stmt_ok) finally
  | SSwitch disc cases =>
      expr_ok disc
      && forallb (fun '(Case test body) => opt_all expr_ok test && forallb stmt_ok body) cases
  | _ => true
  end
with for_init_ok (i : ForInit) : bool :=
  match i with
  | IVar _ decls => forallb (fun '(_, e) => opt_all expr_ok e) decls
  | IPattern _ pattern e trailing =>
      pattern_ok pattern && expr_ok e && forallb (fun '(_, e) => opt_all expr_ok e) trailing
  | IExpr e => expr_ok e
  end.
Definition templates_ok : list Statement -> bool := forallb stmt_ok.

Definition def_size (d : FuncDef) : nat :=
  S match def_body d with FStmts stmts => stmts_size stmts | FExpr e => expr_size e end.
Definition def_ok (d : FuncDef) : bool :=
  match def_body d with FStmts stmts => templates_ok stmts | FExpr e => expr_ok e end.

(** ** Indices in range *)

Definition reg_in (s : Compiler) (r : Reg) : Prop := r < c_max_reg s.
Definition win_in (s : Compiler) (w : nat * nat) : Prop := w.1 + w.2 <= c_max_reg s.
Definition slot_in (s : Compiler) (x : Slot) : Prop := x < length (c_slots s).
Definition target_in (s : Compiler) (t : nat) : Prop := t <= length (c_code s).
Definition opt_in (s : Compiler) (o : option Reg) : Prop := Forall (reg_in s) (option_list o).

Definition jump_at (s : Compiler) (a : nat) : Prop :=
  exists i, c_code s !! a = Some i /\ is_Some (with_target i 0).
Definition make_at (s : Compiler) (a : nat) : Prop :=
  exists dst func, c_code s !! a = Some (MakeFunction dst func : Instr).

Definition built (s : Compiler) (r : Reg) : Prop :=
  exists a k, c_code s !! a = Some (BuildClass r k : Instr).

(** Two versions of a constant: a class may be named after it is compiled, and
    gets the indices of its functions at the end. *)
Definition same_const (c c' : Constant) : Prop :=
  c = c' \/ exists t t', c = CClassTemplate t /\ c' = CClassTemplate t' /\
    length (members t') = length (members t).

Definition kst (s : Compiler) (P : Constant -> Prop) (k : nat) : Prop :=
  exists c, c_constants s !! k = Some c /\ P c.
Definition is_class (c : Constant) : Prop := exists t, c = CClassTemplate t.
Definition class_with (n : nat) (c : Constant) : Prop :=
  exists t, c = CClassTemplate t /\ n < length (members t).
Definition is_ast (c : Constant) : Prop := exists a, c = CAstFunction a.
Definition is_cfunction (c : Constant) : Prop := exists f, c = CFunction f.
Definition is_list (c : Constant) : Prop := exists l, c = CStringList l.

Class Stable (P : Constant -> Prop) : Prop :=
  stable : forall c c', same_const c c' -> P c -> P c'.

Definition binding_in (s : Compiler) (b : Binding) : Prop :=
  match b with BSlot x => slot_in s x | BGlobal => True end.
Definition comp_in (s : Compiler) (c : CompletionRegs) : Prop :=
  reg_in s (value c) /\ opt_in s (present c).

(** ** Later states *)

Record grow0 (s s' : Compiler) : Prop := {
  g_reg : c_max_reg s <= c_max_reg s';
  g_slots : length (c_slots s) <= length (c_slots s');
  g_code : length (c_code s) <= length (c_code s');
  g_jump : forall a, jump_at s a -> jump_at s' a;
  g_built : forall r, built s r -> built s' r;
  g_const : forall k c, c_constants s !! k = Some c ->
    exists c', c_constants s' !! k = Some c' /\ same_const c c';
}.

Record grow (s s' : Compiler) : Prop := {
  g_grow : grow0 s s';
  g_make : forall a, make_at s a -> make_at s' a;
  g_deferred : c_deferred s `prefix_of` c_deferred s';
}.

(** ** Shapes

    What the code nested in a construct leaves alone: every enclosing scope with
    all of its names, the cleanups, the completion registers, and the loops but for
    the jumps still to be patched.  The innermost scope may get names of its own. *)

Definition loop_key (ctx : LoopCtx) : list Text * CtxKind * nat * nat :=
  (labels ctx, kind ctx, cleanup_depth ctx, completion_depth ctx).

(** The scopes around the innermost one, and the innermost one without its names:
    whether it is the global one, its boxed names, whether it exists at run time. *)
Definition Sealed : Type := option (list Scope * (bool * gset Text * bool)).
Definition seal (l : list Scope) : Sealed :=
  match last l with
  | Some sc => Some (take (length l - 1) l, (global sc, boxed sc, runtime sc))
  | None => None
  end.

(** The scopes again, the innermost one with the names [m]. *)
Definition unseal (m : gmap Text Slot) (o : Sealed) : list Scope :=
  match o with
  | Some (outer, (g, b, t)) =>
      outer ++ [{| bindings := m; global := g; boxed := b; runtime := t |}]
  | None => []
  end.
Definition innermost (s : Compiler) : gmap Text Slot :=
  match last_scope s with Some sc => bindings sc | None => ∅ end.

Lemma seal_snoc l sc : seal (l ++ [sc]) = Some (l, (global sc, boxed sc, runtime sc)).
Proof. unfold seal. by rewrite last_snoc, length_app, Nat.add_sub, take_app_length. Qed.

Lemma seal_unseal m o : seal (unseal m o) = o.
Proof. destruct o as [[l [[g b] t]]|]; [apply seal_snoc|done]. Qed.

Lemma unseal_seal s : unseal (innermost s) (seal (c_scopes s)) = c_scopes s.
Proof.
  unfold innermost, last_scope. destruct (c_scopes s) as [|sc l _] using rev_ind; [done|].
  rewrite seal_snoc, last_snoc. by destruct sc.
Qed.

Record Shape := mkShape {
  sh_scopes : Sealed;
  sh_unwind : list UnwindCtx;
  sh_completions : list CompletionRegs;
  sh_loops : list (list Text * CtxKind * nat * nat);
}.
Definition shape (s : Compiler) : Shape :=
  mkShape (seal (c_scopes s)) (c_unwind s) (c_completions s) (map loop_key (c_loops s)).

(** The shape inside one more scope, cleanup, completion or loop; the scope that was
    the innermost one had the names [m]. *)
Definition in_unwind (u : UnwindCtx) (sh : Shape) : Shape :=
  mkShape (sh_scopes sh) (sh_unwind sh ++ [u]) (sh_completions sh) (sh_loops sh).
Definition in_scope (tracked : bool) (boxed : gset Text) (m : gmap Text Slot) (sh : Shape) : Shape :=
  let sh' := mkShape (Some (unseal m (sh_scopes sh), (false, boxed, tracked)))
    (sh_unwind sh) (sh_completions sh) (sh_loops sh) in
  if tracked then in_unwind UScope sh' else sh'.
Definition in_completion (c : CompletionRegs) (sh : Shape) : Shape :=
  mkShape (sh_scopes sh) (sh_unwind sh) (sh_completions sh ++ [c]) (sh_loops sh).
Definition in_loop (ls : list Text) (kind : CtxKind) (sh : Shape) : Shape :=
  mkShape (sh_scopes sh) (sh_unwind sh) (sh_completions sh)
    (sh_loops sh ++ [(ls, kind, length (sh_unwind sh), length (sh_completions sh))]).

(** An abrupt exit finds the completions of the context it leaves for. *)
Definition depths_ok (sh : Shape) : Prop :=
  Forall (fun key : list Text * CtxKind * nat * nat => key.2 < length (sh_completions sh)) (sh_loops sh).

Definition ctx_size (u : UnwindCtx) : nat :=
  match u with UHandler (Some body) _ => stmts_size body | _ => 0 end.
Definition unwind_size : list UnwindCtx -> nat := sum_list_with ctx_size.

(** ** Instructions *)

Definition entry_in (s : Compiler) (allow_elision : bool) (e : SpreadEntry) : Prop :=
  reg_in s (spread_reg e) /\
  (elision e = true -> allow_elision = true /\ spread e = false /\ prepared e = false).
Definition prop_in (s : Compiler) (e : PropEntry) : Prop :=
  reg_in s (prop_val e) /\
  match prop_key e with
  | Some (KReg r) => reg_in s r
  | Some (KConst k) => kst s is_string k
  | None => True
  end.

(** What the constant operand of an instruction must be; a pending function
    constant and the parts of a class are conditions of their own. *)
Definition constant_in (s : Compiler) (i : Instr) : Prop :=
  match i with
  | Data i =>
      match i with
      | LoadConst _ k => kst s is_scalar k
      | InitGlobal k _ _ | HoistVarGlobal k | AnnexBInit k | AnnexBUpdate k _ _ | BareVarGlobal k
      | LoadGlobal _ k | LoadCallBinding _ _ k | ResolveAssignmentBinding _ _ k
      | ReadAssignmentBinding _ _ _ k | WriteAssignmentBinding _ _ k _ | StoreGlobal k _
      | DefineGlobal k _ _ _ | TypeofGlobal _ k => kst s is_string k
      | _ => True
      end
  | Operator (CompoundGlobal _ k _ _ | IncGlobal _ k _ _ | DelGlobal _ k) => kst s is_string k
  | Property i =>
      match i with
      | LoadGlobalSoft _ k | SetOwnProp _ (KConst k) _ => kst s is_string k
      | Template _ k _ n => exists l, kst s (eq (CStringList l)) k /\ length l = n + 1
      | MakeAstFunction _ k => kst s is_ast k
      | BuildObject _ k => exists l, kst s (eq (CObjectTemplate l)) k /\ Forall (prop_in s) l
      | DirectEvalSpread _ _ _ k | ConstructSpread _ _ k | CallSpread _ _ k
      | MethodSpread _ _ _ k =>
          exists l, kst s (eq (CSpreadTemplate l)) k /\ Forall (entry_in s false) l
      | BuildArray _ k =>
          exists l, kst s (eq (CSpreadTemplate l)) k /\ Forall (entry_in s true) l
      | _ => True
      end
  | Class i =>
      match i with
      | Raise k | PrivateIn _ _ k => kst s is_string k
      | ClassScope k => Forall (kst s is_string) (option_list k)
      | ClassPrivateEnvironment k => kst s is_list k
      | SuperCallSpread _ _ k =>
          exists l, kst s (eq (CSpreadTemplate l)) k /\ Forall (entry_in s false) l
      | BuildClass _ k => kst s is_class k
      | Import k => kst s (fun c => exists t, c = CImportTemplate t) k
      | ExportNamed k => kst s (fun c => exists t, c = CExportNamedTemplate t) k
      | ExportAll k => kst s (fun c => exists t, c = CExportAllTemplate t) k
      | _ => True
      end
  | _ => True
  end.

Definition instr_in (s : Compiler) (i : Instr) : Prop :=
  Forall (reg_in s) (regs i) /\ Forall (win_in s) (windows i) /\
  Forall (slot_in s) (slot_operands i) /\ Forall (target_in s) (targets i) /\
  operator_ok i /\ constant_in s i.

(** ** Classes *)

Definition decorators_in (s : Compiler) (l : list (Reg * option Reg)) : Prop :=
  Forall (fun d => reg_in s d.1 /\ opt_in s d.2) l.
Definition name_in (s : Compiler) (n : ClassNameTemplate) : Prop :=
  match n with NComputed r => reg_in s r | _ => True end.
Definition block_in (s : Compiler) (b : ClassStaticTemplate) : Prop :=
  match b with SBlock k => kst s is_ast k | SField n _ => name_in s n end.
Definition field_decorator_in (s : Compiler) (d : ClassFieldDecoratorTemplate) : Prop :=
  name_in s (field_name d) /\ decorators_in s (field_decorators_list d).

(** The parts of a class template that do not wait for a function. *)
Record class_in (s : Compiler) (t : ClassTemplate) : Prop := {
  ci_decorators : decorators_in s (class_decorators t);
  ci_superclass : opt_in s (superclass t);
  ci_proto : opt_in s (super_proto t);
  ci_keys : Forall (reg_in s) (ctor_computed_keys t);
  ci_fields : Forall (field_decorator_in s) (field_decorators t);
  ci_blocks : Forall (block_in s) (blocks t);
  ci_members : Forall (fun m => decorators_in s (member_decorators m) /\ name_in s (member_name m))
                 (members t);
  ci_auto : forall k m field, members t !! k = Some m -> auto_decorator_field m = Some field ->
    Verify.auto_accessor_ok t k m field = true;
}.

(** ** The invariant *)

Section Invariant.
(** [X] holds the patches a caller has promised, [B] bounds the functions that
    may be deferred. *)
Context (X : list PatchTarget) (B : nat).

Definition pend (s : Compiler) : list PatchTarget := map patch (c_deferred s) ++ X.

(** What a patch finds. *)
Definition patch_in (s : Compiler) (p : PatchTarget) : Prop :=
  match p with
  | PatchFunction a => make_at s a
  | PatchCtor k => kst s is_class k
  | PatchMember k i => kst s (class_with i) k
  end.

(** A function constant that is there, or pending under the patch [p]. *)
Definition awaited (g : Compiler) (pending : list PatchTarget) (P : Constant -> Prop) (k : nat)
    (p : PatchTarget) : Prop :=
  kst g P k \/ p ∈ pending.

Definition ctx_in (s : Compiler) (u : UnwindCtx) : Prop :=
  match u with
  | UHandler finally close_iter =>
      Forall (fun body => templates_ok body = true) (option_list finally) /\ opt_in s close_iter
  | UEnumerator r => reg_in s r
  | UScope | UPending => True
  end.

(** The tables of [s] hold indices that are in range in [g]. *)
Record ok_at (g s : Compiler) : Prop := {
  ok_code : forall a i, c_code s !! a = Some i -> instr_in g i;
  ok_make : forall a dst k, c_code s !! a = Some (MakeFunction dst k : Instr) ->
    awaited g (pend s) is_cfunction k (PatchFunction a);
  ok_class : forall k t, c_constants s !! k = Some (CClassTemplate t) ->
    class_in g t /\ awaited g (pend s) is_func (ctor_func t) (PatchCtor k) /\
    forall i m f, members t !! i = Some m -> member_func m = Some f ->
      awaited g (pend s) is_func f (PatchMember k i);
  ok_functions : forall k f, c_constants s !! k = Some (CFunction f) -> well_formed f;
  ok_strings : map_Forall (fun _ => kst g is_string) (c_strings s);
  ok_numbers : map_Forall (fun _ => kst g is_scalar) (c_numbers s);
  ok_cached : Forall (kst g is_scalar)
    (option_list (c_cached_true s) ++ option_list (c_cached_false s)
     ++ option_list (c_cached_null s) ++ option_list (c_cached_undefined s));
  ok_scopes : Forall (fun scope => map_Forall (fun _ => slot_in g) (bindings scope)) (c_scopes s);
  ok_loops : Forall (fun ctx => Forall (jump_at g) (breaks ctx) /\ Forall (jump_at g) (continues ctx))
    (c_loops s);
  ok_completions : Forall (comp_in g) (c_completions s);
  ok_presence : map_Forall (fun _ => reg_in g) (c_completion_presence s);
  ok_unwind : Forall (ctx_in g) (c_unwind s);
  ok_annex : map_Forall (fun _ (x : Text * Binding) => binding_in g x.2) (c_annex_updates s);
  ok_deferred : Forall (fun d => def_ok (def d) = true /\ def_size (def d) <= B) (c_deferred s);
  ok_pend : NoDup (pend s) /\ Forall (patch_in g) (pend s);
  ok_regs : c_next_reg s <= c_max_reg s /\ (Z.of_nat (c_max_reg s) <= 65535)%Z;
}.
Definition ok (s : Compiler) : Prop := ok_at s s.

End Invariant.

(** ** Weakest preconditions *)

(** The declines that only an inconsistent state can cause. *)
Definition internal_reasons : list string :=
  ["bad jump patch"; "bad function patch"; "bad class patch"; "scope stack underflow";
   "unwind stack underflow"; "loop stack underflow"]%string.
Definition internal (d : Decline) : bool := bool_decide (decline_reason d ∈ internal_reasons).

Definition wp {A} (m : M A) (s : Compiler) (Q : A -> Compiler -> Prop) : Prop :=
  match m s with
  | Ok (x, s') => Q x s'
  | Err (Declined d) => internal d = false
  | Err OutOfFuel => False
  | Panic => False
  end.

(** The state after a computation that leaves the shape [sh], and after one that
    keeps the shape. *)
Definition post_at {A} (X : list PatchTarget) (B : nat) (sh : Shape) (s : Compiler)
    (P : A -> Compiler -> Prop) : A -> Compiler -> Prop :=
  fun x s' => ok X B s' /\ grow s s' /\ shape s' = sh /\ P x s'.
Definition post {A} (X : list PatchTarget) (B : nat) (s : Compiler) (P : A -> Compiler -> Prop)
    : A -> Compiler -> Prop := post_at X B (shape s) s P.

#[global] Arguments wp : simpl never.
#[global] Arguments post_at : simpl never.

Lemma wp_mono {A} (m : M A) s (P Q : A -> Compiler -> Prop) :
  wp m s P -> (forall x s', P x s' -> Q x s') -> wp m s Q.
Proof. unfold wp. destruct (m s) as [[x s']|[[]|]|]; naive_solver. Qed.

Lemma wp_ret {A} (x : A) s (Q : A -> Compiler -> Prop) : Q x s -> wp (ret x) s Q.
Proof. done. Qed.

Lemma wp_bind {A C} (m : M A) (k : A -> M C) s Q :
  wp m s (fun x s' => wp (k x) s' Q) -> wp (bind m k) s Q.
Proof. unfold wp, bind. by destruct (m s) as [[x s']|[[]|]|]. Qed.

Lemma wp_decline {A} d s (Q : A -> Compiler -> Prop) : internal d = false -> wp (decline d) s Q.
Proof. done. Qed.

Lemma wp_gets {A} (f : Compiler -> A) s (Q : A -> Compiler -> Prop) :
  Q (f s) s -> wp (gets f) s Q.
Proof. done. Qed.

Lemma wp_modify f s (Q : unit -> Compiler -> Prop) : Q tt (f s) -> wp (modify f) s Q.
Proof. done. Qed.

Lemma wp_some_or {A} (o : option A) reason s (Q : A -> Compiler -> Prop) :
  internal (DeclineFunc reason) = false -> (forall x, o = Some x -> Q x s) ->
  wp (some_or o reason) s Q.
Proof. destruct o; [intros _ H; by apply H|done]. Qed.

Lemma wp_some_or_panic {A} (x : A) (o : option A) s (Q : A -> Compiler -> Prop) :
  o = Some x -> Q x s -> wp (some_or_panic o) s Q.
Proof. by intros ->. Qed.

Lemma wp_then {A C} X B (m : M A) (k : A -> M C) s P (Q : C -> Compiler -> Prop) :
  wp m s (post X B s P) ->
  (forall x s1, ok X B s1 -> grow s s1 -> shape s1 = shape s -> P x s1 -> wp (k x) s1 Q) ->
  wp (bind m k) s Q.
Proof.
  intros Hm Hk. apply wp_bind. eapply wp_mono; [exact Hm|].
  intros x s1 (H1 & H2 & H3 & H4). by apply Hk.
Qed.
