(* ===== verification/CompileGrow.v ===== *)
(** Later states keep what earlier ones had: every index in range stays in
    range, so the invariant is carried to a grown state and only what an
    operation changes has to be shown again. *)
From stdpp Require Import prelude list strings gmap.
From Stdlib Require Import ZArith Lia SpecFloat.
From S2P Require Import Prelude JsString BigInt Ast Opcode Verify VerifySpec Compiler CompileExpr CompileSpec.
Import Opcode Compiler Primitives Names CompileExpr.
Local Open Scope nat_scope.

(** ** Constants *)

Lemma same_const_refl c : same_const c c.
Proof. by left. Qed.

Lemma same_const_trans c1 c2 c3 : same_const c1 c2 -> same_const c2 c3 -> same_const c1 c3.
Proof.
  intros [->|(t & t1 & -> & -> & E1)] [<-|(t' & t2 & E & -> & E2)]; unfold same_const; simplify_eq;
    [by left|right..]; eexists _, _; split_and!; (done || congruence).
Qed.

Lemma stable_unnamed (P : Constant -> Prop) :
  (forall t, ~ P (CClassTemplate t)) -> Stable P.
Proof. intros H c c' [->|(t & t' & -> & -> & E)] HP; [done|]. by destruct (H t). Qed.

#[export] Instance stable_string : Stable is_string.
Proof. apply stable_unnamed. by intros t ?. Qed.
#[export] Instance stable_scalar : Stable is_scalar.
Proof. apply stable_unnamed. by intros t ?. Qed.
#[export] Instance stable_func : Stable is_func.
Proof. apply stable_unnamed. by intros t ?. Qed.
#[export] Instance stable_ast : Stable is_ast.
Proof. apply stable_unnamed. by intros t (a & ?). Qed.
#[export] Instance stable_cfunction : Stable is_cfunction.
Proof. apply stable_unnamed. by intros t (a & ?). Qed.
#[export] Instance stable_list : Stable is_list.
Proof. apply stable_unnamed. by intros t (a & ?). Qed.
#[export] Instance stable_list_eq l : Stable (eq (CStringList l)).
Proof. apply stable_unnamed. by intros t ?. Qed.
#[export] Instance stable_object_eq l : Stable (eq (CObjectTemplate l)).
Proof. apply stable_unnamed. by intros t ?. Qed.
#[export] Instance stable_spread_eq l : Stable (eq (CSpreadTemplate l)).
Proof. apply stable_unnamed. by intros t ?. Qed.
#[export] Instance stable_import : Stable (fun c => exists t, c = CImportTemplate t).
Proof. apply stable_unnamed. by intros t (a & ?). Qed.
#[export] Instance stable_export : Stable (fun c => exists t, c = CExportNamedTemplate t).
Proof. apply stable_unnamed. by intros t (a & ?). Qed.
#[export] Instance stable_export_all : Stable (fun c => exists t, c = CExportAllTemplate t).
Proof. apply stable_unnamed. by intros t (a & ?). Qed.
#[export] Instance stable_class : Stable is_class.
Proof. intros c c' [->|(t & t' & -> & -> & _)] (t1 & E); simplify_eq; eexists; eauto. Qed.
#[export] Instance stable_class_with i : Stable (class_with i).
Proof.
  intros c c' [->|(t & t' & -> & -> & El)] (t1 & E & Hi); simplify_eq; [by exists t1|].
  exists t'. split; [done|]. by rewrite El.
Qed.

Lemma kst_weaken (P Q : Constant -> Prop) s k : (forall c, P c -> Q c) -> kst s P k -> kst s Q k.
Proof. intros H (c & Hc & HP). exists c. eauto. Qed.

Lemma string_scalar c : is_string c -> is_scalar c.
Proof. by destruct c. Qed.

(** ** Growth *)

Lemma grow0_refl s : grow0 s s.
Proof. split; try done. intros k c Hc. exists c. split; [done|apply same_const_refl]. Qed.

Lemma later_refl s : grow s s.
Proof. split; [apply grow0_refl|done|done]. Qed.

Lemma grow0_trans s1 s2 s3 : grow0 s1 s2 -> grow0 s2 s3 -> grow0 s1 s3.
Proof.
  intros [A1 A2 A3 A4 A6 A5] [B1 B2 B3 B4 B6 B5]. split; try lia; [auto|auto|].
  intros k c Hc. destruct (A5 k c Hc) as (c' & Hc' & E). destruct (B5 k c' Hc') as (c'' & ? & ?).
  exists c''. split; [done|]. by eapply same_const_trans.
Qed.

Lemma later_trans s1 s2 s3 : grow s1 s2 -> grow s2 s3 -> grow s1 s3.
Proof.
  intros [A1 A2 A3] [B1 B2 B3]. split; [by eapply grow0_trans|auto|by etrans].
Qed.

Section Grow.
Context (s s' : Compiler) (G : grow0 s s').

Lemma grow_reg r : reg_in s r -> reg_in s' r.
Proof. destruct G. unfold reg_in. lia. Qed.
Lemma grow_win w : win_in s w -> win_in s' w.
Proof. destruct G. unfold win_in. lia. Qed.
Lemma grow_slot x : slot_in s x -> slot_in s' x.
Proof. destruct G. unfold slot_in. lia. Qed.
Lemma grow_target t : target_in s t -> target_in s' t.
Proof. destruct G. unfold target_in. lia. Qed.
Lemma grow_opt o : opt_in s o -> opt_in s' o.
Proof. intros H. eapply Forall_impl; [exact H|apply grow_reg]. Qed.
Lemma grow_regs l : Forall (reg_in s) l -> Forall (reg_in s') l.
Proof. intros H. eapply Forall_impl; [exact H|]. apply grow_reg. Qed.

Lemma grow_kst P `{!Stable P} k : kst s P k -> kst s' P k.
Proof.
  intros (c & Hc & HP). destruct (g_const _ _ G k c Hc) as (c' & Hc' & E).
  exists c'. split; [done|]. by eapply stable.
Qed.

Lemma grow_binding b : binding_in s b -> binding_in s' b.
Proof. destruct b; [apply grow_slot|done]. Qed.
Lemma grow_comp c : comp_in s c -> comp_in s' c.
Proof. intros [H1 H2]. split; [by apply grow_reg|by apply grow_opt]. Qed.
Lemma grow_jump a : jump_at s a -> jump_at s' a.
Proof. apply (g_jump _ _ G). Qed.

Lemma grow_entry b e : entry_in s b e -> entry_in s' b e.
Proof. intros [H1 H2]. split; [by apply grow_reg|done]. Qed.
Lemma grow_prop e : prop_in s e -> prop_in s' e.
Proof.
  intros [H1 H2]. split; [by apply grow_reg|].
  destruct (prop_key e) as [[]|]; [by apply grow_kst; [apply _|]|by apply grow_reg|done].
Qed.

Lemma grow_instr i : instr_in s i -> instr_in s' i.
Proof.
  intros (H1 & H2 & H3 & H4 & H5 & H6). split_and!.
  - by apply grow_regs.
  - eapply Forall_impl; [exact H2|apply grow_win].
  - eapply Forall_impl; [exact H3|apply grow_slot].
  - eapply Forall_impl; [exact H4|apply grow_target].
  - done.
  - destruct i as [[]|[]|[]|[]|[]|[]]; cbn in H6 |- *; try done; try (by apply grow_kst; [apply _|]).
    all: try (destruct H6 as (l & Hk & Hl); exists l; split; [by apply grow_kst; [apply _|]|]).
    all: try done; try (by eapply Forall_impl; [exact Hl|apply grow_entry]).
    + by destruct key; [apply grow_kst; [apply _|]|].
    + by eapply Forall_impl; [exact Hl|apply grow_prop].
    + eapply Forall_impl; [exact H6|]. intros k. apply grow_kst, _.
Qed.

Lemma grow_decorators l : decorators_in s l -> decorators_in s' l.
Proof.
  intros H. eapply Forall_impl; [exact H|]. intros d [H1 H2].
  split; [by apply grow_reg|by apply grow_opt].
Qed.
Lemma grow_name n : name_in s n -> name_in s' n.
Proof. destruct n; [done|done|apply grow_reg]. Qed.
Lemma grow_block b : block_in s b -> block_in s' b.
Proof. destruct b; [apply grow_name|apply grow_kst, _]. Qed.

Lemma grow_class t : class_in s t -> class_in s' t.
Proof.
  intros []. split; try done.
  - by apply grow_decorators.
  - by apply grow_opt.
  - by apply grow_opt.
  - by apply grow_regs.
  - eapply Forall_impl; [done|]. intros d [H1 H2].
    split; [by apply grow_name|by apply grow_decorators].
  - eapply Forall_impl; [done|]. apply grow_block.
  - eapply Forall_impl; [done|]. intros d [H1 H2].
    split; [by apply grow_decorators|by apply grow_name].
Qed.

Lemma grow_awaited pending P `{!Stable P} k p :
  awaited s pending P k p -> awaited s' pending P k p.
Proof. intros [H|H]; [left; by apply grow_kst|by right]. Qed.

Lemma grow_ctx u : ctx_in s u -> ctx_in s' u.
Proof.
  destruct u; cbn; [|done|done|apply grow_reg].
  intros [H1 H2]. split; [done|by apply grow_opt].
Qed.

(** The tables but the code and the constants are carried over. *)
Lemma ok_at_tables X X' B t t' :
  ok_at X B s t -> t' = set_constants (c_constants t') (set_code (c_code t') t) ->
  (forall a i, c_code t' !! a = Some i -> instr_in s' i) ->
  (forall a dst k, c_code t' !! a = Some (MakeFunction dst k : Instr) ->
     awaited s' (pend X' t') is_cfunction k (PatchFunction a)) ->
  (forall k c, c_constants t' !! k = Some (CClassTemplate c) ->
     class_in s' c /\ awaited s' (pend X' t') is_func (ctor_func c) (PatchCtor k) /\
     forall i m f, members c !! i = Some m -> member_func m = Some f ->
       awaited s' (pend X' t') is_func f (PatchMember k i)) ->
  (forall k f, c_constants t' !! k = Some (CFunction f) -> well_formed f) ->
  NoDup (pend X' t') /\ Forall (patch_in s') (pend X' t') -> ok_at X' B s' t'.
Proof.
  intros [_ _ _ _ H5 H6 H7 H8 H9 H10 H11 H12 H13 H14 _ H16] -> Hcode Hmake Hclass Hfuns Hpend.
  split; try done.
  - eapply map_Forall_impl; [exact H5|]. intros n k. apply grow_kst, _.
  - eapply map_Forall_impl; [exact H6|]. intros n k. apply grow_kst, _.
  - eapply Forall_impl; [exact H7|]. intros k. apply grow_kst, _.
  - eapply Forall_impl; [exact H8|]. intros sc Hsc. eapply map_Forall_impl; [exact Hsc|]. intros n x. apply grow_slot.
  - eapply Forall_impl; [exact H9|]. intros c (A1 & A2).
    split; (eapply Forall_impl; [eassumption|apply grow_jump]).
  - eapply Forall_impl; [exact H10|]. apply grow_comp.
  - eapply map_Forall_impl; [exact H11|]. intros n r. apply grow_reg.
  - eapply Forall_impl; [exact H12|]. apply grow_ctx.
  - eapply map_Forall_impl; [exact H13|]. intros n x. apply grow_binding.
Qed.

(** The invariant of [t], whose patches are still to be found. *)
Lemma ok_at_grow0 X B t :
  ok_at X B s t -> Forall (patch_in s') (pend X t) -> ok_at X B s' t.
Proof.
  intros Hok Hp. pose proof Hok as [H1 H2 H3 H4 _ _ _ _ _ _ _ _ _ _ [H15 _] _].
  eapply ok_at_tables; [exact Hok|by destruct t| | | |exact H4|by split].
  - intros a i Ha. apply grow_instr. eauto.
  - intros a dst k Ha. eapply grow_awaited; [apply _|]. eauto.
  - intros k c Hc. destruct (H3 k c Hc) as (A1 & A2 & A3). split_and!.
    + by apply grow_class.
    + eapply grow_awaited; [apply _|done].
    + intros i m f Hi Hf. eapply grow_awaited; [apply _|eauto].
Qed.
End Grow.

Lemma grow_patch s s' p : grow s s' -> patch_in s p -> patch_in s' p.
Proof.
  intros G. destruct p; cbn; [apply (g_make _ _ G)|apply grow_kst; [apply G|apply _]..].
Qed.

Lemma ok_at_grow X B s s' t : ok_at X B s t -> grow s s' -> ok_at X B s' t.
Proof.
  intros H G. eapply ok_at_grow0; [apply G|done|]. eapply Forall_impl; [apply H|].
  intros p. by apply grow_patch.
Qed.

(** The same for [grow]. *)
Lemma up_kst s s' P `{!Stable P} k : grow s s' -> kst s P k -> kst s' P k.
Proof. intros G. apply grow_kst; [apply G|done]. Qed.
Lemma up_instr s s' i : grow s s' -> instr_in s i -> instr_in s' i.
Proof. intros G. apply grow_instr, G. Qed.

(** ** Sequences

    A computation is specified from its own starting state, so what is known at
    the start has to be moved to the states it goes through: [step] runs the
    next primitive by its specification in the hint database [compile] and moves
    every known fact along. *)

Section Sequence.
Context (X : list PatchTarget) (B : nat).

(** The first part may have other patches promised. *)
Lemma wp_seq_from {A C} X1 sh1 sh2 (m : M A) (k : A -> M C) s P Q :
  wp m s (post_at X1 B sh1 s P) ->
  (forall x s1, ok X1 B s1 -> grow s s1 -> shape s1 = sh1 -> P x s1 ->
     wp (k x) s1 (post_at X B sh2 s1 Q)) ->
  wp (bind m k) s (post_at X B sh2 s Q).
Proof.
  intros Hm Hk. apply wp_bind. eapply wp_mono; [exact Hm|].
  intros x s1 (H1 & H2 & H3 & H4). eapply wp_mono; [by apply Hk|].
  intros y s2 (H5 & H6 & H7 & H8). split_and!; [done| |done|done]. by eapply later_trans.
Qed.

Lemma wp_seq {A C} sh1 sh2 (m : M A) (k : A -> M C) s P Q :
  wp m s (post_at X B sh1 s P) ->
  (forall x s1, ok X B s1 -> grow s s1 -> shape s1 = sh1 -> P x s1 ->
     wp (k x) s1 (post_at X B sh2 s1 Q)) ->
  wp (bind m k) s (post_at X B sh2 s Q).
Proof. apply wp_seq_from. Qed.

Lemma wp_tail {A} sh1 sh2 (m : M A) s (P Q : A -> Compiler -> Prop) :
  wp m s (post_at X B sh1 s P) -> sh1 = sh2 ->
  (forall x s', ok X B s' -> P x s' -> Q x s') -> wp m s (post_at X B sh2 s Q).
Proof.
  intros Hm <- HQ. eapply wp_mono; [exact Hm|]. intros x s1 (H1 & H2 & H3 & H4).
  split_and!; eauto.
Qed.

(** A computation specified from an earlier state. *)
Lemma wp_from {A} sh (m : M A) s s1 t (Q : A -> Compiler -> Prop) :
  grow s s1 -> wp m t (post_at X B sh s1 Q) -> wp m t (post_at X B sh s Q).
Proof.
  intros G H. eapply wp_mono; [exact H|]. intros x s2 (A1 & A2 & A3 & A4).
  split_and!; [exact A1|by eapply later_trans|exact A3|exact A4].
Qed.

Lemma wp_ret_at {A} sh (x : A) s (Q : A -> Compiler -> Prop) :
  ok X B s -> shape s = sh -> Q x s -> wp (ret x) s (post_at X B sh s Q).
Proof. intros Hok Hsh HQ. split_and!; [done|apply later_refl|done|done]. Qed.

Lemma wp_assoc {A C D} (m : M A) (n : A -> M C) (k : C -> M D) s Q :
  wp (bind m (fun x => bind (n x) k)) s Q -> wp (bind (bind m n) k) s Q.
Proof. unfold wp, bind. by destruct (m s) as [[x s1]|e|]. Qed.
End Sequence.
