(* ===== verification/CompilePrims.v ===== *)
(** The primitive operations of the compiler keep the invariant. *)
From stdpp Require Import prelude list strings gmap.
From Stdlib Require Import ZArith Lia SpecFloat.
From S2P Require Import Prelude JsString BigInt Ast Opcode Verify VerifySpec Compiler CompileExpr CompileSpec CompileGrow.
Import Opcode Compiler Primitives Names CompileExpr.
Local Open Scope nat_scope.

Definition no_make (i : Instr) : Prop :=
  match i with Property (MakeFunction _ _) => False | _ => True end.
(** A constant that may be pushed on its own. *)
Definition pushable (c : Constant) : Prop :=
  match c with CClassTemplate _ => False | CFunction f => well_formed f | _ => True end.

Abbreviation keep := (fun _ _ => True) (only parsing).

(** The invariant of a state whose tables are those of a smaller one: what has
    not changed is carried over. *)
Ltac carry H :=
  let Hcode := fresh "Hcode" in let Hmake := fresh "Hmake" in let Hclass := fresh "Hclass" in
  let Hfuns := fresh "Hfuns" in let Hstrings := fresh "Hstrings" in
  let Hnumbers := fresh "Hnumbers" in let Hcached := fresh "Hcached" in
  let Hscopes := fresh "Hscopes" in let Hloops := fresh "Hloops" in
  let Hcomps := fresh "Hcomps" in let Hpresence := fresh "Hpresence" in
  let Hunwind := fresh "Hunwind" in let Hannex := fresh "Hannex" in
  let Hdeferred := fresh "Hdeferred" in let Hpend := fresh "Hpend" in
  let Hregs := fresh "Hregs" in
  pose proof H as [Hcode Hmake Hclass Hfuns Hstrings Hnumbers Hcached Hscopes Hloops Hcomps
                   Hpresence Hunwind Hannex Hdeferred Hpend Hregs];
  split;
  [try exact Hcode|try exact Hmake|try exact Hclass|try exact Hfuns|try exact Hstrings
  |try exact Hnumbers|try exact Hcached|try exact Hscopes|try exact Hloops|try exact Hcomps
  |try exact Hpresence|try exact Hunwind|try exact Hannex|try exact Hdeferred|try exact Hpend
  |try exact Hregs]; cbn.

#[local] Opaque instr_in kst awaited patch_in ctx_in comp_in.

Section Prims.
Context (X : list PatchTarget) (B : nat).
Abbreviation ok := (ok X B).
Abbreviation post := (post X B).

(** Only counters and contexts change. *)
Lemma grow_same s s' :
  c_code s' = c_code s -> c_constants s' = c_constants s -> c_max_reg s <= c_max_reg s' ->
  length (c_slots s) <= length (c_slots s') -> c_deferred s `prefix_of` c_deferred s' ->
  grow s s'.
Proof.
  intros E1 E2 H1 H2 H3. split; [split|..]; try done.
  - by rewrite E1.
  - intros a (i & ? & ?). exists i. by rewrite E1.
  - intros r (a & k & ?). exists a, k. by rewrite E1.
  - intros k c Hc. exists c. rewrite E2. split; [done|apply same_const_refl].
  - intros a (d & f & ?). exists d, f. by rewrite E1.
Qed.

(** Nothing changes. *)
Lemma post_same {A} s (x : A) (P : A -> Compiler -> Prop) : ok s -> P x s -> post s P x s.
Proof. intros Hok HP. split_and!; [done|apply later_refl|done|done]. Qed.

Lemma wp_same {A} (x : A) s (P : A -> Compiler -> Prop) : ok s -> P x s -> wp (ret x) s (post s P).
Proof. intros Hok HP. by apply wp_ret, post_same. Qed.

(** A later state of the same shape. *)
Lemma post_later {A} s s' (x : A) (P : A -> Compiler -> Prop) :
  ok s' -> grow s s' -> shape s' = shape s -> P x s' -> post s P x s'.
Proof. done. Qed.

Lemma post_weaken {A} s (m : M A) (P Q : A -> Compiler -> Prop) :
  wp m s (post s P) -> (forall x s', P x s' -> Q x s') -> wp m s (post s Q).
Proof. intros H HPQ. eapply wp_mono; [exact H|]. intros x s' (?&?&?&?). split_and!; eauto. Qed.

Lemma post_trans {A} s s1 (P : A -> Compiler -> Prop) x s2 :
  grow s s1 -> shape s1 = shape s -> post s1 P x s2 -> post s P x s2.
Proof.
  intros G E (H1 & H2 & H3 & H4). split_and!; [done|by eapply later_trans|congruence|done].
Qed.

(** ** Loops *)

Lemma for_each_spec {A} (l : list A) (body : A -> M unit) s :
  (forall x s1, x ∈ l -> ok s1 -> grow s s1 -> shape s1 = shape s ->
     wp (body x) s1 (post s1 keep)) ->
  ok s -> wp (for_each l body) s (post s keep).
Proof.
  revert s. induction l as [|x l IH]; intros s Hb Hok; [by apply wp_same|].
  eapply wp_then; [apply Hb; [left|done|apply later_refl|done]|].
  intros [] s1 H1 H2 H3 _. eapply wp_mono; [apply IH; [|done]|].
  - intros y s2 Hy ? ? ?. apply Hb; [by right|done|by eapply later_trans|congruence].
  - intros. by eapply post_trans.
Qed.

Lemma for_enumerate_spec {A} (l : list A) (body : nat -> A -> M unit) s : forall i,
  (forall j x s1, l !! j = Some x -> ok s1 -> grow s s1 -> shape s1 = shape s ->
     wp (body (i + j) x) s1 (post s1 keep)) ->
  ok s -> wp (for_enumerate i l body) s (post s keep).
Proof.
  revert s. induction l as [|x l IH]; intros s i Hb Hok; [by apply wp_same|].
  eapply wp_then; [rewrite <- (Nat.add_0_r i); apply Hb; [done|done|apply later_refl|done]|].
  intros [] s1 H1 H2 H3 _. eapply wp_mono; [apply IH; [|done]|].
  - intros j y s2 Hy ? ? ?. rewrite Nat.add_succ_comm.
    apply Hb; [done|done|by eapply later_trans|congruence].
  - intros. by eapply post_trans.
Qed.

(** A result per element; [P] is kept by later states. *)
Lemma for_map_spec {A C} (l : list A) (body : A -> M C) (P : C -> Compiler -> Prop) s :
  (forall y s1 s2, grow s1 s2 -> P y s1 -> P y s2) ->
  (forall x s1, x ∈ l -> ok s1 -> grow s s1 -> shape s1 = shape s ->
     wp (body x) s1 (post s1 P)) ->
  ok s ->
  wp (for_map l body) s (post s (fun ys s' => Forall (fun y => P y s') ys /\ length ys = length l)).
Proof.
  intros HP. revert s. induction l as [|x l IH]; intros s Hb Hok; [by apply wp_same|].
  eapply wp_then; [apply Hb; [left|done|apply later_refl|done]|].
  intros y s1 H1 H2 H3 Hy. eapply wp_then; [apply IH; [|done]|].
  - intros z s2 Hz ? ? ?. apply Hb; [by right|done|by eapply later_trans|congruence].
  - intros ys s2 H4 H5 H6 [Hys Hlen]. apply wp_ret.
    split_and!; [done|by eapply later_trans|congruence| |by simpl; rewrite Hlen].
    constructor; [by eapply HP|done].
Qed.

(** ** Registers *)

Lemma alloc_regs_spec n s :
  ok s -> wp (alloc_regs n) s (post s (fun r s' => win_in s' (r, n))).
Proof.
  intros Hok. unfold alloc_regs, try_u16. apply wp_bind, wp_gets, wp_bind.
  destruct (fits_u16 n); [|done]. apply wp_ret, wp_bind.
  destruct (fits_u16 (c_next_reg s + n)) eqn:Hn; [|done].
  apply wp_ret, wp_bind, wp_modify, wp_bind, wp_modify, wp_ret.
  set (next := c_next_reg s + n) in *. apply Z.leb_le in Hn.
  assert (grow s (set_max_reg (c_max_reg (set_next_reg next s) `max` next) (set_next_reg next s)))
    as G.
  { apply grow_same; cbn; (done || lia). }
  split_and!; [|done|done|unfold win_in; cbn; lia].
  carry (ok_at_grow X B s _ s Hok G). lia.
Qed.

Lemma alloc_reg_spec s : ok s -> wp alloc_reg s (post s (fun r s' => reg_in s' r)).
Proof.
  intros Hok. eapply post_weaken; [by apply alloc_regs_spec|].
  intros r s' H. unfold win_in in H. cbn in H. unfold reg_in. lia.
Qed.

Lemma checkpoint_spec s : ok s -> wp checkpoint s (post s (fun r s' => win_in s' (r, 0))).
Proof.
  intros Hok. apply wp_gets, post_same; [done|]. unfold win_in. cbn.
  destruct (ok_regs _ _ _ _ Hok). lia.
Qed.

Lemma restore_spec r s : ok s -> win_in s (r, 0) -> wp (restore r) s (post s keep).
Proof.
  intros Hok Hr. unfold restore. apply wp_bind, wp_modify, wp_modify.
  match goal with |- post _ _ _ ?s' => set (s1 := s') end.
  assert (grow s s1) as G.
  { apply grow_same; cbn; (done || lia). }
  split_and!; [|done|done|done]. carry (ok_at_grow X B s _ s Hok G).
  - intros x y Hx. apply map_lookup_filter_Some in Hx as [Hx _].
    eapply Hpresence, Hx.
  - destruct Hregs as [H1 H2]. unfold win_in in Hr. cbn in Hr. split; [lia|done].
Qed.

(** ** Constants *)

Lemma grow_push_const c s : grow s (set_constants (c_constants s ++ [c]) s).
Proof.
  split; [split|..]; cbn; try done; try lia.
  intros k c' Hc. exists c'. split; [|apply same_const_refl].
    rewrite lookup_app_l; [done|]. by eapply lookup_lt_Some.
Qed.

Lemma kst_pushed c s : kst (set_constants (c_constants s ++ [c]) s) (eq c) (length (c_constants s)).
Proof. exists c. split; [|done]. cbn. by rewrite lookup_app_r, Nat.sub_diag by lia. Qed.

Lemma lookup_snoc {A} (l : list A) x k y :
  (l ++ [x]) !! k = Some y -> l !! k = Some y \/ k = length l /\ y = x.
Proof.
  intros H. destruct (decide (k < length l)).
  - left. by rewrite lookup_app_l in H by lia.
  - right. rewrite lookup_app_r in H by lia. destruct (k - length l) as [|m] eqn:E; [|done].
    simplify_eq/=. split; [lia|done].
Qed.

Lemma push_const_spec c s :
  ok s -> pushable c -> wp (push_const c) s (post s (fun k s' => kst s' (eq c) k)).
Proof.
  intros Hok Hc. unfold push_const, try_u16. apply wp_bind, wp_gets, wp_bind.
  destruct (fits_u16 _); [|done]. apply wp_ret, wp_bind, wp_modify, wp_ret.
  split_and!; [|apply grow_push_const|done|apply kst_pushed].
  carry (ok_at_grow X B s _ s Hok (grow_push_const c s)).
  - intros k t Hk. apply lookup_snoc in Hk as [Hk|[-> <-]]; [by apply Hclass|done].
  - intros k f Hk. apply lookup_snoc in Hk as [Hk|[-> <-]]; [by eapply Hfuns|done].
Qed.
Lemma intern_string_spec v s :
  ok s -> wp (intern_string v) s (post s (fun k s' => kst s' is_string k)).
Proof.
  intros Hok. unfold intern_string. apply wp_bind, wp_gets. destruct (c_strings s !! v) eqn:E.
  { apply wp_same; [done|]. by eapply (ok_strings _ _ _ _ Hok), E. }
  eapply wp_then; [by apply push_const_spec|]. intros k s1 H1 H2 H3 H4.
  assert (kst s1 is_string k) as Hk by (eapply kst_weaken; [|exact H4]; by intros c <-).
  apply wp_bind, wp_modify, wp_ret.
  assert (grow s1 (set_strings (<[v:=k]> (c_strings s1)) s1)) as G by (by apply grow_same).
  eapply post_trans; [exact H2|exact H3|]. split_and!; [|exact G|done|by apply (up_kst _ _ _ _ G Hk)].
  carry (ok_at_grow X B s1 _ s1 H1 G). intros n x [[<- <-]|[_ Hx]]%lookup_insert_Some.
  - by apply (up_kst _ _ _ _ G Hk).
  - by eapply Hstrings.
Qed.

Lemma intern_number_spec v s :
  ok s -> wp (intern_number v) s (post s (fun k s' => kst s' is_scalar k)).
Proof.
  intros Hok. unfold intern_number. apply wp_bind, wp_gets. destruct (c_numbers s !! v) eqn:E.
  { apply wp_same; [done|]. by eapply (ok_numbers _ _ _ _ Hok), E. }
  eapply wp_then; [by apply push_const_spec|]. intros k s1 H1 H2 H3 H4.
  assert (kst s1 is_scalar k) as Hk by (eapply kst_weaken; [|exact H4]; by intros c <-).
  apply wp_bind, wp_modify, wp_ret.
  assert (grow s1 (set_numbers (<[v:=k]> (c_numbers s1)) s1)) as G by (by apply grow_same).
  eapply post_trans; [exact H2|exact H3|]. split_and!; [|exact G|done|by apply (up_kst _ _ _ _ G Hk)].
  carry (ok_at_grow X B s1 _ s1 H1 G). intros n x [[<- <-]|[_ Hx]]%lookup_insert_Some.
  - by apply (up_kst _ _ _ _ G Hk).
  - by eapply Hnumbers.
Qed.

(** The four cached constants. *)
Definition remembers (cached : Compiler -> option nat) (remember : option nat -> Compiler -> Compiler)
  : Prop :=
  forall k s, ok s -> kst s is_scalar k ->
    ok (remember (Some k) s) /\ grow s (remember (Some k) s) /\
    shape (remember (Some k) s) = shape s.

Lemma cached_const_spec cached c remember s :
  is_scalar c -> pushable c -> remembers cached remember ->
  (forall k, cached s = Some k -> kst s is_scalar k) -> ok s ->
  wp (cached_const cached c remember) s (post s (fun k s' => kst s' is_scalar k)).
Proof.
  intros Hc Hp Hr Hk Hok. unfold cached_const. apply wp_bind, wp_gets.
  destruct (cached s) as [k|]; [apply wp_same; auto|].
  eapply wp_then; [by apply push_const_spec|]. intros k s1 H1 H2 H3 H4.
  assert (kst s1 is_scalar k) as Hs by (eapply kst_weaken; [|exact H4]; by intros ? <-).
  destruct (Hr k s1 H1 Hs) as (A1 & A2 & A3). apply wp_bind, wp_modify, wp_ret.
  eapply post_trans; [exact H2|exact H3|]. split_and!; [done|done|done|by apply (up_kst _ _ _ _ A2 Hs)].
Qed.

Ltac remembers :=
  let k := fresh "k" in let s1 := fresh "s" in let H1 := fresh "H" in
  let Hk := fresh "Hk" in
  intros k s1 H1 Hk;
  match goal with |- _ /\ grow _ ?s' /\ _ =>
    let G := fresh "G" in
    assert (grow s1 s') as G by (by apply grow_same);
    split_and!; [|exact G|done];
    carry (ok_at_grow X B s1 _ s1 H1 G);
    match goal with H : Forall _ (_ ++ _) |- _ =>
      rewrite !Forall_app in H; destruct H as (?&?&?&?);
      repeat first [apply Forall_nil_2 | apply Forall_cons; split | apply Forall_app; split]; try assumption;
      by apply (up_kst _ _ _ _ G Hk)
    end
  end.

Ltac cached_in Hok :=
  let H := fresh "H" in let k := fresh "k" in let E := fresh "E" in
  pose proof (ok_cached _ _ _ _ Hok) as H; rewrite !Forall_app in H; destruct H as (?&?&?&?);
  intros k E; match goal with H : Forall _ (option_list ?o) |- _ =>
    rewrite E in H; by apply Forall_cons in H as [? _] end.

Lemma const_true_spec s : ok s -> wp const_true s (post s (fun k s' => kst s' is_scalar k)).
Proof. intros Hok. apply cached_const_spec; [done|done|remembers|cached_in Hok|done]. Qed.
Lemma const_false_spec s : ok s -> wp const_false s (post s (fun k s' => kst s' is_scalar k)).
Proof. intros Hok. apply cached_const_spec; [done|done|remembers|cached_in Hok|done]. Qed.
Lemma const_null_spec s : ok s -> wp const_null s (post s (fun k s' => kst s' is_scalar k)).
Proof. intros Hok. apply cached_const_spec; [done|done|remembers|cached_in Hok|done]. Qed.
Lemma const_undefined_spec s :
  ok s -> wp const_undefined s (post s (fun k s' => kst s' is_scalar k)).
Proof. intros Hok. apply cached_const_spec; [done|done|remembers|cached_in Hok|done]. Qed.

(** ** Code *)

Lemma grow_code_app s i : grow s (set_code (c_code s ++ [i]) s).
Proof.
  split; [split|..]; cbn; try done; [by rewrite length_app; lia|..].
  - intros a (j & Hj & ?). exists j. cbn. rewrite lookup_app_l; [done|]. by eapply lookup_lt_Some.
  - intros r (a & k & Hj). exists a, k. cbn. rewrite lookup_app_l; [done|]. by eapply lookup_lt_Some.
  - intros k c Hc. exists c. split; [done|apply same_const_refl].
  - intros a (d & f & Hj). exists d, f. cbn. rewrite lookup_app_l; [done|].
    by eapply lookup_lt_Some.
Qed.

Lemma emit_post i s :
  ok s -> instr_in s i -> no_make i -> post s keep tt (set_code (c_code s ++ [i]) s).
Proof.
  intros Hok Hi Hm. pose proof (grow_code_app s i) as G. split_and!; [|exact G|done|done].
  carry (ok_at_grow X B s _ s Hok G).
  - intros a j [Hj|[-> ->]]%lookup_snoc; [by eapply Hcode|].
    by apply (up_instr _ _ _ G Hi).
  - intros a d k [Hj|[-> <-]]%lookup_snoc; [by eapply Hmake|done].
Qed.

Lemma emit_spec i s : ok s -> instr_in s i -> no_make i -> wp (emit i) s (post s keep).
Proof. intros. by apply wp_modify, emit_post. Qed.

(** The last instruction, of no interest to anything else, is replaced. *)
Lemma replace_last_spec i j s :
  ok s -> last (c_code s) = Some j -> with_target j 0 = None -> no_make j ->
  (forall r k, j <> BuildClass r k) -> instr_in s i -> no_make i ->
  wp (modify (set_code (take (length (c_code s) - 1) (c_code s) ++ [i]))) s (post s keep).
Proof.
  intros Hok Hj Ht Hm Hb Hi Hmi. apply wp_modify.
  set (code := take _ _ ++ [i]).
  assert (length code = length (c_code s)) as Hlen.
  { unfold code. rewrite length_app, length_take. cbn.
    destruct (c_code s); [done|cbn; lia]. }
  assert (forall a k, c_code s !! a = Some k -> k <> j -> code !! a = Some k) as Hkeep.
  { intros a k Ha Hne. unfold code. pose proof (lookup_lt_Some _ _ _ Ha).
    rewrite last_lookup in Hj. destruct (decide (a = pred (length (c_code s)))); [congruence|].
    rewrite lookup_app_l by (rewrite length_take; lia). rewrite lookup_take_lt by lia. done. }
  assert (grow s (set_code code s)) as G.
  { split; [split|..]; cbn; try done; [by rewrite Hlen|..].
    - intros a (k & Ha & Hk). exists k. split; [|done]. apply Hkeep; [done|].
      intros ->. rewrite Ht in Hk. by destruct Hk.
    - intros r (a & k & Ha). exists a, k. apply Hkeep; [done|]. intros E. by apply (Hb r k).
    - intros k c Hc. exists c. split; [done|apply same_const_refl].
    - intros a (d & f & Ha). exists d, f. apply Hkeep; [done|]. by intros <-. }
  split_and!; [|exact G|done|done]. carry (ok_at_grow X B s _ s Hok G).
  - intros a k [Ha|[_ ->]]%lookup_snoc; [|by apply (up_instr _ _ _ G)].
    eapply Hcode, lookup_take_Some, Ha.
  - intros a d k [Ha|[_ <-]]%lookup_snoc; [|done].
    eapply Hmake, lookup_take_Some, Ha.
Qed.

Lemma here_spec s : ok s -> wp here s (post s (fun t s' => target_in s' t)).
Proof. intros. apply wp_gets, post_same; [done|]. unfold target_in. lia. Qed.

Lemma emit_jump_spec (make : Target -> Instr) s :
  ok s -> instr_in s (make 0) -> no_make (make 0) -> is_Some (with_target (make 0) 0) ->
  wp (emit_jump make) s (post s (fun a s' => jump_at s' a)).
Proof.
  intros Hok Hi Hm Hj. unfold emit_jump. apply wp_bind, wp_gets, wp_bind, wp_modify, wp_ret.
  destruct (emit_post (make 0) s Hok Hi Hm) as (H1 & H2 & H3 & _). split_and!; try done.
  exists (make 0). split; [|done]. cbn. by rewrite lookup_app_r, Nat.sub_diag by lia.
Qed.

Lemma with_target_in s i t j :
  instr_in s i -> target_in s t -> with_target i t = Some j -> instr_in s j.
Proof.
  Transparent instr_in. unfold instr_in. intros (H1 & H2 & H3 & H4 & H5 & H6) Ht E.
  destruct i as [[]|[]|[]|[]|[]|[]]; simplify_eq/=; repeat split; try done;
    by constructor.
Qed.
Opaque instr_in.

Lemma with_target_jump i t j : with_target i t = Some j -> is_Some (with_target j 0) /\ no_make j.
Proof. intros E. destruct i as [[]|[]|[]|[]|[]|[]]; simplify_eq/=; split; (done || by eexists). Qed.

Lemma patch_jump_spec a t s :
  ok s -> jump_at s a -> target_in s t -> wp (patch_jump a t) s (post s keep).
Proof.
  intros Hok (i & Ha & Hi) Ht. unfold patch_jump. destruct (fits_u32 t); [|done].
  apply wp_bind, wp_gets. rewrite Ha. cbn.
  destruct (with_target i t) as [j|] eqn:E.
  2:{ exfalso. destruct Hi as [j Hj].
      destruct i as [[]|[]|[]|[]|[]|[]]; simplify_eq/=. }
  destruct (with_target_jump _ _ _ E) as [Hj Hm]. apply wp_modify.
  assert (grow s (set_code (<[a:=j]> (c_code s)) s)) as G.
  { split; [split|..]; cbn; try done; [by rewrite length_insert|..].
    - intros b (k & Hb & Hk). destruct (decide (a = b)) as [->|Hne].
      + exists j. split; [|done]. cbn. rewrite list_lookup_insert_eq; [done|].
        by eapply lookup_lt_Some.
      + exists k. split; [|done]. cbn. by rewrite list_lookup_insert_ne.
    - intros r (b & k & Hb). exists b, k. cbn. destruct (decide (a = b)) as [->|Hne].
      + rewrite Ha in Hb. by injection Hb as ->.
      + by rewrite list_lookup_insert_ne.
    - intros k c Hc. exists c. split; [done|apply same_const_refl].
    - intros b (d & f & Hb). exists d, f. cbn. destruct (decide (a = b)) as [->|Hne].
      + rewrite Ha in Hb. by injection Hb as ->.
      + by rewrite list_lookup_insert_ne. }
  split_and!; [|exact G|done|done]. carry (ok_at_grow X B s _ s Hok G).
  - intros b k [(<- & <- & _)|[_ Hb]]%list_lookup_insert_Some; [|by eapply Hcode].
    eapply grow_instr; [apply G|]. eapply with_target_in; [|done|done].
    by eapply (ok_code _ _ _ _ Hok).
  - intros b d k [(<- & -> & _)|[_ Hb]]%list_lookup_insert_Some; [done|by eapply Hmake].
Qed.

Lemma patch_here_spec a s : ok s -> jump_at s a -> wp (patch_here a) s (post s keep).
Proof.
  intros Hok Ha. apply wp_bind, wp_gets, patch_jump_spec; [done|done|]. unfold target_in. lia.
Qed.

Lemma patch_all_here_spec l s :
  ok s -> Forall (jump_at s) l -> wp (patch_all_here l) s (post s keep).
Proof.
  intros Hok Hl. apply for_each_spec; [|done]. intros a s1 Ha H1 G _.
  apply patch_here_spec; [done|]. rewrite Forall_forall in Hl. by eapply grow_jump, Hl; [apply G|].
Qed.

Lemma patch_all_spec l t s :
  ok s -> Forall (jump_at s) l -> target_in s t -> wp (patch_all l t) s (post s keep).
Proof.
  intros Hok Hl Ht. apply for_each_spec; [|done]. intros a s1 Ha H1 G _.
  rewrite Forall_forall in Hl. apply patch_jump_spec; [done|..].
  - by eapply grow_jump, Hl; [apply G|].
  - eapply grow_target, Ht. apply G.
Qed.

Lemma addr_target_spec t s :
  ok s -> target_in s t -> wp (addr_target t) s (post s (fun t' s' => target_in s' t')).
Proof. intros Hok Ht. unfold addr_target. destruct (fits_u32 t); [by apply wp_same|done]. Qed.

End Prims.
