(* ===== verification/CompileTactics.v ===== *)
(** Tactics for specifications of the compiler's computations.

    [start] names the shape at the start; [step] runs the next computation of a
    sequence by its specification in the hint database [compile], moves every
    known fact to the new state and drops the old one; [ret] ends a sequence. *)
From stdpp Require Import prelude list strings gmap.
From Stdlib Require Import ZArith Lia SpecFloat.
From S2P Require Import Prelude JsString BigInt Ast Opcode Verify VerifySpec Compiler CompileExpr CompileSpec CompileGrow CompilePrims.
Import Opcode Compiler Primitives Names CompileExpr.
Local Open Scope nat_scope.

Create HintDb compile.

Lemma instr_intro s (i : Instr) :
  Forall (reg_in s) (regs i) -> Forall (win_in s) (windows i) ->
  Forall (slot_in s) (slot_operands i) -> Forall (target_in s) (targets i) ->
  operator_ok i -> constant_in s i -> instr_in s i.
Proof. by intros. Qed.

Lemma target_zero s : target_in s 0.
Proof. unfold target_in. lia. Qed.

Lemma win_reg s start n i : win_in s (start, n) -> i < n -> reg_in s (start + i).
Proof. unfold win_in, reg_in. cbn. lia. Qed.

Lemma win_range s start n r : win_in s (start, n) -> start <= r < start + n -> reg_in s r.
Proof. unfold win_in, reg_in. cbn. lia. Qed.
Lemma reg_win s r : reg_in s r -> win_in s (r, 1).
Proof. unfold win_in, reg_in. cbn. lia. Qed.

Lemma win_first s start n : win_in s (start, S n) -> reg_in s start.
Proof. unfold win_in, reg_in. cbn. lia. Qed.

Lemma string_is_scalar s k : kst s is_string k -> kst s is_scalar k.
Proof. intros H. eapply kst_weaken; [|exact H]. apply string_scalar. Qed.

Lemma opt_some s r : opt_in s (Some r) <-> reg_in s r.
Proof. apply Forall_singleton. Qed.
Lemma opt_none s : opt_in s None.
Proof. apply Forall_nil_2. Qed.

Lemma wp_start {A} X B (m : M A) s P :
  (forall sh, shape s = sh -> wp m s (post_at X B sh s P)) -> wp m s (post X B s P).
Proof. intros H. by apply H. Qed.

(** Facts about a state, moved to a later one. *)
Lemma up_entries s s' b l : grow s s' -> Forall (entry_in s b) l -> Forall (entry_in s' b) l.
Proof. intros G H. eapply Forall_impl; [exact H|]. intros e. by apply grow_entry, G. Qed.
Lemma up_props s s' l : grow s s' -> Forall (prop_in s) l -> Forall (prop_in s') l.
Proof. intros G H. eapply Forall_impl; [exact H|]. intros e. by apply grow_prop, G. Qed.
Lemma up_jumps s s' l : grow s s' -> Forall (jump_at s) l -> Forall (jump_at s') l.
Proof. intros G H. eapply Forall_impl; [exact H|]. intros e. by apply grow_jump, G. Qed.
Lemma up_strings s s' l :
  grow s s' -> Forall (kst s is_string) l -> Forall (kst s' is_string) l.
Proof. intros G H. eapply Forall_impl; [exact H|]. intros e. by apply up_kst; [apply _|]. Qed.
Lemma up_decorators s s' l :
  grow s s' -> Forall (decorators_in s) l -> Forall (decorators_in s') l.
Proof. intros G H. eapply Forall_impl; [exact H|]. intros e. by apply grow_decorators, G. Qed.

(** Other predicates that later states keep. *)
Class Upward (P : Compiler -> Prop) : Prop :=
  upward : forall s s', grow s s' -> P s -> P s'.

Ltac up G :=
  lazymatch type of G with
  | grow ?s ?s' =>
      repeat match goal with
      | H : reg_in s _ |- _ => apply (grow_reg _ _ (g_grow _ _ G)) in H
      | H : win_in s _ |- _ => apply (grow_win _ _ (g_grow _ _ G)) in H
      | H : slot_in s _ |- _ => apply (grow_slot _ _ (g_grow _ _ G)) in H
      | H : target_in s _ |- _ => apply (grow_target _ _ (g_grow _ _ G)) in H
      | H : opt_in s _ |- _ => apply (grow_opt _ _ (g_grow _ _ G)) in H
      | H : jump_at s _ |- _ => apply (grow_jump _ _ (g_grow _ _ G)) in H
      | H : binding_in s _ |- _ => apply (grow_binding _ _ (g_grow _ _ G)) in H
      | H : comp_in s _ |- _ => apply (grow_comp _ _ (g_grow _ _ G)) in H
      | H : ctx_in s _ |- _ => apply (grow_ctx _ _ (g_grow _ _ G)) in H
      | H : name_in s _ |- _ => apply (grow_name _ _ (g_grow _ _ G)) in H
      | H : prop_in s _ |- _ => apply (grow_prop _ _ (g_grow _ _ G)) in H
      | H : entry_in s _ _ |- _ => apply (grow_entry _ _ (g_grow _ _ G)) in H
      | H : decorators_in s _ |- _ => apply (grow_decorators _ _ (g_grow _ _ G)) in H
      | H : kst s ?P _ |- _ => apply (up_kst s s' P _ G) in H
      | H : Forall (reg_in s) _ |- _ => apply (grow_regs _ _ (g_grow _ _ G)) in H
      | H : Forall (jump_at s) _ |- _ => apply (up_jumps s s' _ G) in H
      | H : Forall (entry_in s _) _ |- _ => apply (up_entries s s' _ _ G) in H
      | H : Forall (prop_in s) _ |- _ => apply (up_props s s' _ G) in H
      | H : Forall (kst s is_string) _ |- _ => apply (up_strings s s' _ G) in H
      | H : ?P s |- _ => apply (@upward P _ s s' G) in H
      | H : context [s] |- _ =>
          let T := type of H in
          let P := eval pattern s in T in
          lazymatch P with ?F _ => apply (@upward F _ s s' G) in H; cbv beta in H end
      end
  end.

(** An index in range, from the facts at hand. *)
Ltac in_range :=
  first
  [ assumption
  | exact I
  | apply target_zero
  | eapply win_first; eassumption
  | eapply win_range; [eassumption|lia]
  | apply reg_win; assumption
  | apply string_is_scalar; assumption ].

Ltac all_in :=
  repeat first
  [ apply Forall_nil_2
  | assumption
  | apply Forall_app_2
  | apply Forall_cons_2; [in_range|] ].

Ltac instr :=
  apply instr_intro; cbn [regs windows slot_operands targets operator_ok constant_in key_regs];
  [all_in|all_in|all_in|all_in
  |first [exact I|assumption|discriminate|split_and!; discriminate|left; reflexivity|right; reflexivity|idtac]
  |first [in_range|by eauto|idtac]].

(** What a call reference gives: the callee, its receiver, the exits of its chain. *)
Definition ref_in (x : Reg * option Reg * list nat) (s : Compiler) : Prop :=
  reg_in s x.1.1 /\ opt_in s x.1.2 /\ Forall (jump_at s) x.2.

(** What the postcondition of a step says. *)
Ltac facts H :=
  cbv beta in H;
  lazymatch type of H with
  | True => clear H
  | _ /\ _ => let H1 := fresh "H" in let H2 := fresh "H" in
      destruct H as [H1 H2]; facts H1; facts H2
  | ref_in _ _ =>
      let H1 := fresh "H" in let H2 := fresh "H" in let H3 := fresh "H" in
      destruct H as (H1 & H2 & H3); cbn [fst snd] in H1, H2, H3
  | exists _, _ => let x := fresh "x" in let H1 := fresh "H" in destruct H as [x H1]; facts H1
  | _ => idtac
  end.

Ltac split_pair x :=
  lazymatch type of x with
  | prod _ _ =>
      let a := fresh "r" in let b := fresh "r" in destruct x as [a b]; split_pair a; split_pair b
  | unit => destruct x
  | _ => idtac
  end.

(** The specification of the computation at hand. *)
Ltac spec := solve [eauto 1 with compile nocore].

Ltac advance :=
  let x := fresh "r" in let s1 := fresh "s" in let Hok := fresh "Hok" in let G := fresh "G" in
  let Hsh := fresh "Hsh" in let H := fresh "H" in
  intros x s1 Hok G Hsh H;
  lazymatch type of G with
  | grow ?s _ =>
      try match goal with E : shape s = _ |- _ => rewrite E in Hsh; clear E end;
      try match goal with E : ok _ _ s |- _ => clear E end
  end;
  split_pair x; cbn [fst snd] in H;
  up G; facts H;
  lazymatch type of G with grow ?s _ => clear G; try clear s end; cbv beta iota.

(** The next computation, or the only one. *)
Ltac step1 :=
  lazymatch goal with
  | |- wp (bind (bind _ _) _) _ _ => apply wp_assoc; step1
  | |- wp (bind (ret _) _) _ _ => apply wp_bind, wp_ret; cbv beta iota
  | |- wp (bind (gets _) _) _ _ => apply wp_bind, wp_gets; cbv beta iota
  | |- wp (bind (some_or_panic (Some _)) _) _ _ => apply wp_bind, wp_ret; cbv beta iota
  | |- wp (bind (decline _) _) _ _ => exact eq_refl
  | |- wp (decline _) _ _ => exact eq_refl
  | |- wp (bind _ _) _ _ => eapply wp_seq; [spec|advance]
  | |- wp (ret _) _ _ => apply wp_ret_at; [assumption|assumption|cbv beta iota; try exact I; try assumption]
  | |- wp _ _ _ =>
      eapply wp_tail; [spec|first [eassumption|reflexivity]|
        let x := fresh "r" in let s1 := fresh "s" in let Hok := fresh "Hok" in
        let H := fresh "H" in
        intros x s1 Hok H; cbv beta in H |- *; try exact I; try assumption]
  end.
Tactic Notation "step" := step1.
Tactic Notation "steps" := repeat step1.

(** A computation whose postcondition is given. *)
Tactic Notation "step" "to" uconstr(P) :=
  lazymatch goal with
  | E : shape ?s = ?sh |- wp (bind _ _) ?s _ => eapply (wp_seq _ _ sh _ _ _ _ P); [|advance]
  end.

(** A loop: the body from any later state, then the rest. *)
Ltac enter :=
  let x := fresh "x" in let s1 := fresh "s" in let Hx := fresh "Hx" in let Hok := fresh "Hok" in
  let G := fresh "G" in let Hsh := fresh "Hsh" in
  intros x s1 Hx Hok G Hsh;
  lazymatch type of G with
  | grow ?s _ =>
      try match goal with E : shape s = _ |- _ => rewrite E in Hsh; clear E end;
      try match goal with E : ok _ _ s |- _ => clear E end
  end;
  up G; clear G; split_pair x; cbv beta iota;
  lazymatch goal with
  | |- wp _ ?s (post ?X ?B ?s _) => unfold post; rewrite ?Hsh
  end.
(** A loop that collects results [y] with [P y]. *)
Ltac each_map P :=
  lazymatch goal with
  | E : shape ?s = ?sh |- wp (bind (for_map ?l _) _) ?s _ =>
      eapply (wp_seq _ _ sh _ _ _ _
        (fun ys s' => Forall (fun y => P y s') ys /\ length ys = length l));
      [rewrite <- E; apply (for_map_spec _ _ _ _ P);
       [let y := fresh "y" in let s1 := fresh "s" in let s2 := fresh "s" in let G := fresh "G" in
        intros y s1 s2 G; let F := eval cbv beta in (P y) in exact (@upward F _ s1 s2 G)
       |enter|assumption]
      |advance]
  end.
Ltac each :=
  lazymatch goal with
  | |- wp (bind (bind _ _) _) _ _ => apply wp_assoc; each
  | |- wp (bind (for_each _ _) _) _ _ =>
      eapply wp_seq; [eapply for_each_spec; [enter|assumption]|advance]
  | |- wp (bind (for_enumerate _ _ _) _) _ _ =>
      eapply wp_seq; [eapply for_enumerate_spec; [let j := fresh "j" in intros j; enter|assumption]
                     |advance]
  | |- wp (for_enumerate _ _ _) _ _ =>
      eapply wp_tail; [eapply for_enumerate_spec; [let j := fresh "j" in intros j; enter|assumption]
                      |first [eassumption|reflexivity]|intros; exact I]
  | |- wp (for_each _ _) _ _ =>
      eapply wp_tail; [eapply for_each_spec; [enter|assumption]
                      |first [eassumption|reflexivity]|intros; exact I]
  end.

(** Where a sequence starts. *)
Ltac start := apply wp_start; let sh := fresh "sh" in let Hsh := fresh "Hsh" in intros sh Hsh.

#[export] Hint Extern 0 (wp alloc_reg _ _) => eapply alloc_reg_spec; assumption : compile.
#[export] Hint Extern 0 (wp (alloc_regs _) _ _) => eapply alloc_regs_spec; assumption : compile.
#[export] Hint Extern 0 (wp checkpoint _ _) => eapply checkpoint_spec; assumption : compile.
#[export] Hint Extern 0 (wp (restore _) _ _) => eapply restore_spec; [assumption|in_range] : compile.
#[export] Hint Extern 0 (wp (push_const _) _ _) =>
  eapply push_const_spec; [assumption|exact I] : compile.
#[export] Hint Extern 0 (wp (intern_string _) _ _) => eapply intern_string_spec; assumption : compile.
#[export] Hint Extern 0 (wp (intern_number _) _ _) => eapply intern_number_spec; assumption : compile.
#[export] Hint Extern 0 (wp const_true _ _) => eapply const_true_spec; assumption : compile.
#[export] Hint Extern 0 (wp const_false _ _) => eapply const_false_spec; assumption : compile.
#[export] Hint Extern 0 (wp const_null _ _) => eapply const_null_spec; assumption : compile.
#[export] Hint Extern 0 (wp const_undefined _ _) => eapply const_undefined_spec; assumption : compile.
#[export] Hint Extern 0 (wp (emit _) _ _) => eapply emit_spec; [assumption|instr|exact I] : compile.
#[export] Hint Extern 0 (wp here _ _) => eapply here_spec; assumption : compile.
#[export] Hint Extern 0 (wp (emit_jump _) _ _) =>
  eapply emit_jump_spec; [assumption|instr|exact I|by eexists] : compile.
#[export] Hint Extern 0 (wp (patch_jump _ _) _ _) =>
  eapply patch_jump_spec; [assumption|in_range|in_range] : compile.
#[export] Hint Extern 0 (wp (patch_here _) _ _) => eapply patch_here_spec; [assumption|in_range] : compile.
#[export] Hint Extern 0 (wp (patch_all_here _) _ _) =>
  eapply patch_all_here_spec; [assumption|all_in] : compile.
#[export] Hint Extern 0 (wp (patch_all _ _) _ _) =>
  eapply patch_all_spec; [assumption|all_in|in_range] : compile.
#[export] Hint Extern 0 (wp (addr_target _) _ _) => eapply addr_target_spec; [assumption|in_range] : compile.

Section Loads.
Context (X : list PatchTarget) (B : nat).
Abbreviation ok := (ok X B).
Abbreviation post := (post X B).

Lemma load_const_spec k s :
  ok s -> kst s is_scalar k -> wp (load_const k) s (post s (fun r s' => reg_in s' r)).
Proof. intros Hok Hk. start. unfold load_const. steps. Qed.

Lemma load_undefined_spec s : ok s -> wp load_undefined s (post s (fun r s' => reg_in s' r)).
Proof.
  intros Hok. start. unfold load_undefined. step.
  eapply wp_tail; [by apply load_const_spec|done|done].
Qed.
End Loads.

#[export] Hint Extern 0 (wp (load_const _) _ _) => eapply load_const_spec; [assumption|in_range] : compile.
#[export] Hint Extern 0 (wp load_undefined _ _) => eapply load_undefined_spec; assumption : compile.

(** ** The recursive functions *)

Definition expr_spec (compile_expr : Expr -> M Reg) (B : nat) (e : Expr) : Prop :=
  forall X s, ok X B s -> wp (compile_expr e) s (post X B s (fun r s' => reg_in s' r)).

Definition ref_spec (compile_call_reference : Expr -> list nat -> M (Reg * option Reg * list nat))
    (B : nat) (e : Expr) : Prop :=
  forall X ends s, ok X B s -> Forall (jump_at s) ends ->
    wp (compile_call_reference e ends) s (post X B s ref_in).

(** An expression within the bound of the induction. *)
Definition good (N : nat) (e : Expr) : Prop := expr_size e < N /\ expr_ok e = true.
Definition good_stmts (N : nat) (l : list Statement) : Prop :=
  stmts_size l < N /\ templates_ok l = true.

Lemma sum_le {A} (f : A -> nat) l x : x ∈ l -> f x <= sum_list_with f l.
Proof. induction 1; cbn; lia. Qed.

Lemma forallb_in {A} (f : A -> bool) l x : forallb f l = true -> x ∈ l -> f x = true.
Proof. intros H Hx. rewrite forallb_forall in H. apply H. by apply list_elem_of_In. Qed.

(** The parts of a list are within the bound of the list. *)
Lemma good_list N l :
  sum_list_with expr_size l < N -> forallb expr_ok l = true -> Forall (good N) l.
Proof.
  intros Hs Ho. apply Forall_forall. intros e He.
  pose proof (sum_le expr_size l e He). split; [lia|]. by eapply forallb_in.
Qed.

Lemma good_two N a b :
  S (expr_size a + expr_size b) <= N -> expr_ok a && expr_ok b = true -> good N a /\ good N b.
Proof. rewrite andb_true_iff. intros H [? ?]. split; (split; [lia|done]). Qed.

Lemma good_spread N e : good N (ESpread e) -> good N e.
Proof. intros [H1 H2]. cbn in *. split; [lia|done]. Qed.

Lemma good_call_le N callee args :
  expr_size (ECall callee args) <= N -> expr_ok (ECall callee args) = true ->
  good N callee /\ Forall (good N) args.
Proof.
  cbn. intros H1 H2. rewrite andb_true_iff in H2. destruct H2.
  split; [split; [lia|done]|apply good_list; [lia|done]].
Qed.
Lemma good_call N callee args :
  good N (ECall callee args) -> good N callee /\ Forall (good N) args.
Proof. intros [H1 H2]. apply good_call_le; [lia|done]. Qed.

Lemma good_unparenthesized N e : good N e -> good N (unparenthesized e).
Proof.
  induction e; try done. cbn. intros [H1 H2]. apply IHe. unfold good in *. cbn in *. split; [lia|done].
Qed.

#[export] Instance upward_regs l : Upward (fun s => Forall (fun r => reg_in s r) l).
Proof. intros s s' G. apply grow_regs, G. Qed.
#[export] Instance upward_reg r : Upward (fun s => reg_in s r).
Proof. intros s s' G. apply grow_reg, G. Qed.
#[export] Instance upward_target_in t : Upward (fun s => target_in s t).
Proof. intros s s' G. apply grow_target, G. Qed.
#[export] Instance upward_targets l : Upward (fun s => Forall (fun t => target_in s t) l).
Proof. intros s s' G H. eapply Forall_impl; [exact H|]. intros t. apply grow_target, G. Qed.
#[export] Instance upward_entry b e : Upward (fun s => entry_in s b e).
Proof. intros s s' G. apply grow_entry, G. Qed.
#[export] Instance upward_prop e : Upward (fun s => prop_in s e).
Proof. intros s s' G. apply grow_prop, G. Qed.
#[export] Instance upward_built r : Upward (fun s => built s r).
Proof. intros s s' G. apply (g_built _ _ (g_grow _ _ G)). Qed.
#[export] Instance upward_ref x : Upward (ref_in x).
Proof.
  intros s s' G (H1 & H2 & H3). split_and!;
    [by eapply grow_reg; [apply G|]|by eapply grow_opt; [apply G|]|by eapply up_jumps].
Qed.
