(* ===== verification/CompileScopes.v ===== *)
(** Scopes, slots, cleanups, completion values and loop contexts keep the
    invariant. *)
From stdpp Require Import prelude list strings gmap.
From Stdlib Require Import ZArith Lia SpecFloat.
From S2P Require Import Prelude JsString BigInt Ast Opcode Verify VerifySpec Compiler CompileExpr CompileSpec CompileGrow CompilePrims CompileTactics.
Import Opcode Compiler Primitives Names CompileExpr.
Local Open Scope nat_scope.

Lemma take_last {A} (l : list A) x : last l = Some x -> l = take (length l - 1) l ++ [x].
Proof.
  intros H. induction l as [|y l' _] using rev_ind; [done|].
  rewrite last_snoc in H. simplify_eq.
  rewrite length_app, Nat.add_sub. cbn. by rewrite take_app_length.
Qed.

Lemma Forall_take_last {A} (P : A -> Prop) l x :
  Forall P l -> last l = Some x -> Forall P (take (length l - 1) l) /\ P x.
Proof.
  intros H E. rewrite (take_last l x E) in H.
  apply Forall_app in H as [H1 H2]. split; [done|]. by apply Forall_singleton.
Qed.

#[local] Opaque instr_in kst awaited patch_in ctx_in comp_in.

Section Scopes.
Context (X : list PatchTarget) (B : nat).
Abbreviation ok := (ok X B).
Abbreviation post := (post X B).

(** ** Slots *)

Lemma grow_slots x s : length (c_slots s) <= length x -> grow s (set_slots x s).
Proof. intros H. by apply grow_same. Qed.

Lemma alloc_slot_spec n k s : ok s -> wp (alloc_slot n k) s (post s (fun x s' => slot_in s' x)).
Proof.
  intros Hok. unfold alloc_slot, try_u16. apply wp_bind, wp_gets, wp_bind.
  destruct (fits_u16 _); [|done]. apply wp_ret, wp_bind, wp_gets, wp_bind, wp_gets, wp_bind, wp_modify.
  set (info := {| slot_name := n; slot_kind := k; captured := _ |}).
  assert (grow s (set_slots (c_slots s ++ [info]) s)) as G
    by (apply grow_slots; rewrite length_app; lia).
  apply wp_ret. split_and!; [|exact G|done|unfold slot_in; cbn; rewrite length_app; cbn; lia].
  carry (ok_at_grow X B s _ s Hok G).
Qed.

Lemma bound_here_in name s x : ok s -> bound_here name s = Some x -> slot_in s x.
Proof.
  intros Hok H. unfold bound_here in H. destruct (last_scope s) as [sc|] eqn:E; [|done].
  apply last_Some_elem_of in E. cbn in H.
  pose proof (ok_scopes _ _ _ _ Hok) as Hs. rewrite Forall_forall in Hs. by eapply Hs.
Qed.

Lemma declare_slot_spec n k s :
  ok s -> wp (declare_slot n k) s (post s (fun x s' => slot_in s' x)).
Proof.
  intros Hok. unfold declare_slot. apply wp_bind, wp_gets.
  destruct (bound_here n s) as [x|] eqn:E.
  - pose proof (bound_here_in _ _ _ Hok E) as Hx. apply wp_bind, wp_gets, wp_bind.
    destruct (lookup_lt_is_Some_2 (c_slots s) x Hx) as [info ->]. apply wp_ret, wp_bind, wp_modify.
    set (l := <[x:=_]> _).
    assert (grow s (set_slots l s)) as G by (apply grow_slots; unfold l; by rewrite length_insert).
    apply wp_ret. split_and!; [|exact G|done|].
    + carry (ok_at_grow X B s _ s Hok G).
    + eapply grow_slot; [apply G|done].
  - eapply wp_then; [by apply alloc_slot_spec|]. intros x s1 H1 H2 H3 H4.
    apply wp_bind, wp_gets. destruct (last (c_scopes s1)) as [sc|] eqn:El.
    2:{ apply wp_ret. by eapply post_trans; [exact H2|exact H3|apply post_same]. }
    apply wp_bind, wp_modify, wp_ret.
    match goal with |- context [set_scopes ?l s1] => set (l' := l) end.
    assert (grow s1 (set_scopes l' s1)) as G by (by apply grow_same).
    destruct (Forall_take_last _ _ _ (ok_scopes _ _ _ _ H1) El) as [A1 A2].
    assert (seal l' = seal (c_scopes s1)) as Er.
    { unfold l'. rewrite seal_snoc. unfold seal. by rewrite El. }
    eapply post_trans; [exact H2|exact H3|].
    split_and!; [|exact G|unfold shape; cbn; by rewrite Er|by eapply grow_slot; [apply G|]].
    carry (ok_at_grow X B s1 _ s1 H1 G). apply Forall_app_2.
    + eapply Forall_impl; [exact A1|]. intros sc' Hsc'. eapply map_Forall_impl; [exact Hsc'|].
      intros ? ?. apply grow_slot, G.
    + apply Forall_singleton. cbn. apply map_Forall_insert_2; [by eapply grow_slot; [apply G|]|].
      eapply map_Forall_impl; [exact A2|]. intros ? ?. apply grow_slot, G.
Qed.

Lemma declare_slot_if_absent_spec n k s :
  ok s -> wp (declare_slot_if_absent n k) s (post s (fun x s' => slot_in s' x)).
Proof.
  intros Hok. unfold declare_slot_if_absent. apply wp_bind, wp_gets.
  destruct (bound_here n s) as [x|] eqn:E; [|by apply declare_slot_spec].
  apply wp_same; [done|]. by eapply bound_here_in.
Qed.

Lemma resolve_in_spec captured name s l b :
  Forall (fun sc : nat * Scope => map_Forall (fun _ => slot_in s) (bindings sc.2)) l ->
  resolve_in captured name l = Some b -> binding_in s b.
Proof.
  induction l as [|[i sc] l IH]; intros H E; [done|]. apply Forall_cons in H as [H1 H2].
  cbn [resolve_in] in E. destruct (_ && _); [by simplify_eq|].
  destruct (bindings sc !! name) as [x|] eqn:Ex.
  - destruct (_ && _); simplify_eq; [done|]. by eapply H1.
  - destruct (global sc); [by simplify_eq|]. by apply IH.
Qed.

Lemma resolve_spec name s : ok s -> wp (resolve name) s (post s (fun b s' => binding_in s' b)).
Proof.
  intros Hok. unfold resolve. apply wp_bind, wp_gets, wp_bind, wp_gets.
  destruct (resolve_in _ _ _) as [b|] eqn:E.
  - apply wp_same; [done|]. eapply resolve_in_spec; [|exact E].
    apply Forall_reverse. apply Forall_forall. intros [i sc] Hi.
    apply elem_of_lookup_imap in Hi as (j & y & [= -> ->] & Hy). cbn.
    pose proof (ok_scopes _ _ _ _ Hok) as Hs. rewrite Forall_forall in Hs.
    apply Hs. by eapply list_elem_of_lookup_2.
  - apply wp_bind, wp_gets. case_bool_decide; [done|]. by apply wp_same.
Qed.

(** ** Cleanups, completions and loops *)

Lemma push_unwind_spec u s :
  ok s -> ctx_in s u -> wp (push_unwind u) s (post_at X B (in_unwind u (shape s)) s keep).
Proof.
  intros Hok Hu. apply wp_modify.
  match goal with |- post_at _ _ _ _ _ _ ?s' => set (s1 := s') end.
  assert (grow s s1) as G by (by apply grow_same).
  split_and!; [|exact G|done|done]. carry (ok_at_grow X B s _ s Hok G).
  apply Forall_app_2; [done|]. apply Forall_singleton. by apply (grow_ctx _ _ (g_grow _ _ G)).
Qed.

Lemma snoc_inj {A} (l l' : list A) x : l = l' ++ [x] -> last l = Some x /\ take (length l - 1) l = l'.
Proof.
  intros ->. rewrite last_snoc, length_app, Nat.add_sub. cbn. by rewrite take_app_length.
Qed.

Lemma pop_unwind_spec u sh s :
  ok s -> shape s = in_unwind u sh ->
  wp pop_unwind s (post_at X B sh s (fun o _ => o = Some u)).
Proof.
  intros Hok E. injection E as E1 E2 E3 E4. destruct (snoc_inj _ _ _ E2) as [El Et].
  apply wp_bind, wp_gets. rewrite El. apply wp_bind, wp_modify, wp_ret. rewrite Et.
  assert (grow s (set_unwind (sh_unwind sh) s)) as G by (by apply grow_same).
  split_and!; [|exact G|by destruct sh; simplify_eq/=; unfold shape; cbn; f_equal|done].
  carry (ok_at_grow X B s _ s Hok G). rewrite E2 in Hunwind.
  by apply Forall_app in Hunwind as [? _].
Qed.

Lemma push_completion_spec c s :
  ok s -> comp_in s c -> wp (push_completion c) s (post_at X B (in_completion c (shape s)) s keep).
Proof.
  intros Hok Hc. apply wp_modify.
  match goal with |- post_at _ _ _ _ _ _ ?s' => set (s1 := s') end.
  assert (grow s s1) as G by (by apply grow_same).
  split_and!; [|exact G|done|done]. carry (ok_at_grow X B s _ s Hok G).
  apply Forall_app_2; [done|]. apply Forall_singleton. by apply (grow_comp _ _ (g_grow _ _ G)).
Qed.

Lemma pop_completion_spec c sh s :
  ok s -> shape s = in_completion c sh -> wp pop_completion s (post_at X B sh s keep).
Proof.
  intros Hok E. injection E as E1 E2 E3 E4. destruct (snoc_inj _ _ _ E3) as [El Et].
  apply wp_bind, wp_gets. rewrite El. apply wp_bind, wp_modify, wp_ret. rewrite Et.
  assert (grow s (set_completions (sh_completions sh) s)) as G by (by apply grow_same).
  split_and!; [|exact G|by destruct sh; simplify_eq/=; unfold shape; cbn; f_equal|done].
  carry (ok_at_grow X B s _ s Hok G). rewrite E3 in Hcomps.
  by apply Forall_app in Hcomps as [? _].
Qed.

Lemma push_loop_spec ls k s :
  ok s -> wp (push_loop ls k) s (post_at X B (in_loop ls k (shape s)) s keep).
Proof.
  intros Hok. apply wp_bind, wp_gets, wp_bind, wp_gets, wp_modify.
  match goal with |- post_at _ _ _ _ _ _ ?s' => set (s1 := s') end.
  assert (grow s s1) as G by (by apply grow_same).
  split_and!; [|exact G|unfold shape, in_loop; cbn; by rewrite map_app|done].
  carry (ok_at_grow X B s _ s Hok G). apply Forall_app_2; [done|]. apply Forall_singleton. done.
Qed.

Definition loop_in (s : Compiler) (ctx : LoopCtx) : Prop :=
  Forall (jump_at s) (breaks ctx) /\ Forall (jump_at s) (continues ctx).

Lemma pop_loop_spec ls k sh s :
  ok s -> shape s = in_loop ls k sh -> wp pop_loop s (post_at X B sh s (fun ctx s' => loop_in s' ctx)).
Proof.
  intros Hok E. injection E as E1 E2 E3 E4.
  destruct (last (c_loops s)) as [ctx|] eqn:El.
  2:{ apply last_None in El. rewrite El in E4. by destruct (sh_loops sh). }
  assert (map loop_key (take (length (c_loops s) - 1) (c_loops s)) = sh_loops sh) as Em.
  { rewrite (take_last _ _ El), map_app in E4. by apply app_inj_tail in E4 as [? _]. }
  apply wp_assoc, wp_bind, wp_gets. rewrite El. apply wp_assoc, wp_bind, wp_modify, wp_bind, wp_ret, wp_ret.
  match goal with |- post_at _ _ _ _ _ _ ?s' => set (s1 := s') end.
  assert (grow s s1) as G by (by apply grow_same).
  destruct (Forall_take_last _ _ _ (ok_loops _ _ _ _ Hok) El) as [A1 [A2 A3]].
  split_and!; [|exact G| |split; by eapply up_jumps].
  - carry (ok_at_grow X B s _ s Hok G). by apply Forall_take.
  - destruct sh. simplify_eq/=. done.
Qed.

Lemma finish_loop_spec ctx t e s :
  ok s -> loop_in s ctx -> target_in s t -> target_in s e ->
  wp (finish_loop ctx t e) s (post s keep).
Proof. intros Hok [H1 H2] Ht He. start. unfold finish_loop. steps. Qed.

Lemma take_pending_labels_spec s : ok s -> wp take_pending_labels s (post s (fun ls _ => ls = c_pending_labels s)).
Proof.
  intros Hok. apply wp_bind, wp_gets, wp_bind, wp_modify, wp_ret.
  match goal with |- post _ _ _ ?s' => set (s1 := s') end.
  assert (grow s s1) as G by (by apply grow_same).
  split_and!; [|exact G|done|done]. carry (ok_at_grow X B s _ s Hok G).
Qed.

(** ** Scopes *)

Lemma push_vec_scope_spec boxed tracked s :
  ok s ->
  wp (push_vec c_scopes set_scopes
       {| bindings := ∅; global := false; boxed := boxed; runtime := tracked |}) s
    (post_at X B (mkShape (Some (c_scopes s, (false, boxed, tracked))) (c_unwind s)
       (c_completions s) (sh_loops (shape s))) s keep).
Proof.
  intros Hok. apply wp_modify.
  match goal with |- post_at _ _ _ _ _ _ ?s' => set (s1 := s') end.
  assert (grow s s1) as G by (by apply grow_same).
  split_and!; [|exact G|unfold shape; cbn; by rewrite seal_snoc|done].
  carry (ok_at_grow X B s _ s Hok G). apply Forall_app_2; [done|]. apply Forall_singleton.
  apply map_Forall_empty.
Qed.

Lemma push_scope_with_runtime_spec boxed force s :
  ok s ->
  wp (push_scope_with_runtime boxed force) s
    (post_at X B (in_scope (force || negb (bool_decide (boxed = ∅))) boxed (innermost s) (shape s))
       s keep).
Proof.
  intros Hok. unfold push_scope_with_runtime. set (tracked := force || _).
  eapply wp_seq; [by apply push_vec_scope_spec|]. intros [] s1 H1 _ H2 _.
  unfold in_scope. cbn [shape sh_scopes sh_unwind sh_completions sh_loops]. rewrite unseal_seal.
  destruct tracked; cbn.
  - step. eapply wp_tail; [by apply push_unwind_spec|by rewrite Hsh|done].
  - apply wp_ret_at; done.
Qed.

Lemma pop_scope_spec tracked boxed m sh s :
  ok s -> shape s = in_scope tracked boxed m sh -> wp pop_scope s (post_at X B sh s keep).
Proof.
  intros Hok E.
  assert (seal (c_scopes s) = Some (unseal m (sh_scopes sh), (false, boxed, tracked))) as Er.
  { change (seal (c_scopes s)) with (sh_scopes (shape s)). rewrite E. by destruct tracked. }
  unfold seal in Er. destruct (last (c_scopes s)) as [sc|] eqn:El; [|done]. injection Er as Er _ _ <-.
  unfold pop_scope, pop_vec. apply wp_assoc, wp_bind, wp_gets. rewrite El.
  apply wp_assoc, wp_bind, wp_modify, wp_bind, wp_ret, wp_bind, wp_ret.
  set (s1 := set_scopes (take (length (c_scopes s) - 1) (c_scopes s)) s).
  assert (grow s s1) as G by (by apply grow_same).
  assert (ok s1) as H1.
  { carry (ok_at_grow X B s _ s Hok G). by apply Forall_take. }
  assert (shape s1 = if runtime sc then in_unwind UScope sh else sh) as E1.
  { unfold shape, s1. cbn. rewrite Er, seal_unseal. unfold shape, in_scope in E.
    destruct (runtime sc), sh; cbn in E |- *; injection E; unfold in_unwind; cbn; intros; congruence. }
  apply (wp_from _ _ _ _ _ _ _ _ G).
  destruct (runtime sc); cbn [negb]; [|by apply wp_ret_at].
  step. eapply wp_seq; [by apply pop_unwind_spec|]. intros o s3 H3 _ H4 ->. by apply wp_ret_at.
Qed.

(** ** Deferred functions *)

Lemma patch_lt s p :
  patch_in s p ->
  match p with
  | PatchFunction a => a < length (c_code s)
  | PatchCtor k | PatchMember k _ => k < length (c_constants s)
  end.
Proof.
  Transparent patch_in kst. destruct p; cbn.
  - intros (d & f & H). by eapply lookup_lt_Some.
  - intros (c & H & _). by eapply lookup_lt_Some.
  - intros (c & H & _). by eapply lookup_lt_Some.
  Opaque patch_in kst.
Qed.

(** A promised patch becomes a deferred function. *)
Lemma ok_defer p d X' s :
  CompileSpec.ok (p :: X') B s -> patch d = p -> def_ok (def d) = true -> def_size (def d) <= B ->
  CompileSpec.ok X' B (set_deferred (c_deferred s ++ [d]) s) /\
  grow s (set_deferred (c_deferred s ++ [d]) s).
Proof.
  intros Hok <- Hd Hs. set (s1 := set_deferred _ s).
  assert (grow s s1) as G by (apply grow_same; try done; by apply prefix_app_r).
  assert (pend X' s1 = pend (patch d :: X') s) as Ep.
  { unfold pend, s1. cbn. by rewrite map_app, <- app_assoc. }
  split; [|exact G]. pose proof (ok_at_grow _ B s s1 s Hok G) as [].
  split; try done.
  - intros. rewrite Ep. eauto.
  - intros. rewrite Ep. eauto.
  - apply Forall_app_2; [done|]. by apply Forall_singleton.
  - by rewrite Ep.
Qed.

(** New patches may be promised. *)
Lemma ok_promise ps X' g s :
  ok_at X' B g s -> NoDup ps -> (forall p, p ∈ ps -> p ∉ pend X' s) -> Forall (patch_in g) ps ->
  ok_at (ps ++ X') B g s.
Proof.
  intros [Hcode Hmake Hclass Hfuns Hstrings Hnumbers Hcached Hscopes Hloops Hcomps
          Hpresence Hunwind Hannex Hdeferred [Hnd Hpend] Hregs] Hps Hdisj Hin.
  assert (Permutation (pend (ps ++ X') s) (ps ++ pend X' s)) as Hp
    by (unfold pend; by rewrite !app_assoc, (Permutation_app_comm (map _ _) ps)).
  Transparent awaited.
  assert (forall P k p, awaited g (pend X' s) P k p -> awaited g (pend (ps ++ X') s) P k p) as Hw.
  { intros P k p [?|Hq]; [by left|right]. rewrite Hp. apply elem_of_app. by right. }
  Opaque awaited. split; try done; [by eauto| |].
  - intros k t Hk. destruct (Hclass k t Hk) as (A1 & A2 & A3). split_and!; [done|by apply Hw|].
    intros. apply Hw. by eapply A3.
  - rewrite Hp. split; [|by apply Forall_app]. apply NoDup_app. by split_and!.
Qed.

Lemma fresh_patch s p :
  ok s -> match p with
          | PatchFunction a => length (c_code s) <= a
          | PatchCtor k | PatchMember k _ => length (c_constants s) <= k
          end -> p ∉ pend X s.
Proof.
  intros Hok Hp Hin. pose proof (ok_pend _ _ _ _ Hok) as [_ Hfa].
  rewrite Forall_forall in Hfa. apply Hfa, patch_lt in Hin. destruct p; lia.
Qed.

Lemma make_function_ok r s (s1 := set_code (c_code s ++ [MakeFunction r u16_max : Instr]) s) :
  ok s -> reg_in s r -> grow s s1 /\ CompileSpec.ok (PatchFunction (length (c_code s)) :: X) B s1.
Proof.
  intros Hok Hr. pose proof (grow_code_app s (MakeFunction r u16_max)) as G. fold s1 in G.
  split; [exact G|].
  assert (ok_at ([PatchFunction (length (c_code s))] ++ X) B s1 s) as H1.
  { apply ok_promise; [by eapply ok_at_grow|apply NoDup_singleton|..].
    - intros p ->%list_elem_of_singleton. by apply fresh_patch.
    - Transparent patch_in. apply Forall_singleton. exists r, u16_max. cbn.
      by rewrite lookup_app_r, Nat.sub_diag. Opaque patch_in. }
  carry H1.
  - intros a i [Ha|[-> ->]]%lookup_snoc; [by eapply Hcode|]. instr.
  - intros a dst k [Ha|[-> [= -> ->]]]%lookup_snoc; [by eapply Hmake|].
    Transparent awaited. right. apply elem_of_app. right. left.
Qed.

Lemma defer_function_spec d s :
  ok s -> def_ok d = true -> def_size d <= B ->
  wp (defer_function d) s (post s (fun r s' => reg_in s' r)).
Proof.
  intros Hok Hd Hs. start. unfold defer_function. step.
  apply wp_bind, wp_gets, wp_bind, wp_modify, wp_bind, wp_modify, wp_ret.
  destruct (make_function_ok r s0 Hok0 H) as [G H1]. set (s1 := set_code _ s0) in *.
  destruct (ok_defer _ {| patch := PatchFunction (length (c_code s0)); def := d;
    snapshot := live_block_names s1 |} X s1 H1 eq_refl Hd Hs) as [H2 G2].
  split_and!; [exact H2|by eapply later_trans|done|done].
Qed.

(** ** Completion values *)

Lemma note_presence_spec r flag s :
  ok s -> reg_in s flag ->
  wp (modify (fun s => set_completion_presence (<[r := flag]> (c_completion_presence s)) s)) s
    (post s keep).
Proof.
  intros Hok Hr. apply wp_modify.
  match goal with |- post _ _ _ ?s' => set (s1 := s') end.
  assert (grow s s1) as G by (by apply grow_same).
  split_and!; [|exact G|done|done]. carry (ok_at_grow X B s _ s Hok G).
  by apply map_Forall_insert_2.
Qed.

Lemma new_completion_spec empty s :
  ok s ->
  wp (new_completion empty) s
    (post s (fun c s' => comp_in s' c /\ (empty = true -> is_Some (present c)))).
Proof.
  Transparent comp_in. intros Hok. start. unfold new_completion. step.
  step to (fun r s' => reg_in s' r).
  { destruct (c_top_level s); cbn [negb]; [step|step]. }
  destruct empty.
  - step to (fun r s' => reg_in s' r).
    { destruct (c_top_level s); cbn [negb]; [step; step|step]. }
    eapply wp_seq; [by apply note_presence_spec|advance]. step.
    split; [split; [done|]|by eexists]. by apply Forall_singleton.
  - step. split; [split; [done|]|done]. apply Forall_nil_2.
  Opaque comp_in.
Qed.

Lemma completion_regs_in v s : ok s -> reg_in s v -> comp_in s (completion_regs v s).
Proof.
  Transparent comp_in. intros Hok Hv. split; [done|]. cbn. unfold opt_in.
  destruct (c_completion_presence s !! v) as [flag|] eqn:E; [|apply Forall_nil_2].
  apply Forall_singleton. by eapply (ok_presence _ _ _ _ Hok), E. Opaque comp_in.
Qed.

Lemma comp_value s c : comp_in s c -> reg_in s (value c).
Proof. Transparent comp_in. by intros []. Opaque comp_in. Qed.
Lemma comp_present s c flag : comp_in s c -> present c = Some flag -> reg_in s flag.
Proof.
  Transparent comp_in. intros [_ H] E. rewrite E in H. by apply Forall_cons in H as [? _].
  Opaque comp_in.
Qed.

Lemma copy_completion_spec d c s :
  ok s -> comp_in s d -> comp_in s c -> wp (copy_completion d c) s (post s keep).
Proof.
  intros Hok Hd Hc. start. unfold copy_completion. step.
  destruct (c_top_level s); cbn [negb]; [|step].
  step to (fun skip s' => Forall (jump_at s') (option_list skip)).
  { destruct (present c) as [flag|] eqn:E; [|step; apply Forall_nil_2].
    pose proof (comp_present _ _ _ Hc E). step. step. by apply Forall_singleton. }
  pose proof (comp_value _ _ Hd). pose proof (comp_value _ _ Hc). step.
  step to keep.
  { destruct (present d) as [flag|] eqn:E; [|step].
    pose proof (comp_present _ _ _ Hd E). steps. }
  destruct r as [a|]; [|step]. apply Forall_cons in H as [Ha _]. step.
Qed.

Lemma copy_statement_completion_spec d st v s :
  ok s -> comp_in s d -> reg_in s v -> wp (copy_statement_completion d st v) s (post s keep).
Proof.
  intros Hok Hd Hv. unfold copy_statement_completion.
  destruct (produces_completion_value st); [|by apply wp_same].
  apply wp_bind, wp_gets, copy_completion_spec; [done|done|]. by apply completion_regs_in.
Qed.

Lemma plain_completion_in r s : reg_in s r -> comp_in s {| value := r; present := None |}.
Proof. Transparent comp_in. split; [done|]. apply Forall_nil_2. Opaque comp_in. Qed.

Lemma copy_completion_value_spec d c s :
  ok s -> reg_in s d -> reg_in s c -> wp (copy_completion_value d c) s (post s keep).
Proof.
  intros Hok Hd Hc. unfold copy_completion_value. apply wp_bind, wp_gets, copy_completion_spec; [done|..].
  - by apply plain_completion_in.
  - by apply completion_regs_in.
Qed.

Lemma record_abrupt_completion_spec target s :
  ok s -> depths_ok (shape s) -> target < length (c_loops s) ->
  wp (record_abrupt_completion target) s (post s keep).
Proof.
  intros Hok Hd Ht. start. unfold record_abrupt_completion. step.
  destruct (c_top_level s); cbn [negb]; [|step].
  destruct (lookup_lt_is_Some_2 _ _ Ht) as [ctx Ectx].
  assert (completion_depth ctx < length (c_completions s)) as Hlt.
  { unfold depths_ok, shape in Hd. cbn in Hd. rewrite Forall_map in Hd.
    rewrite Forall_lookup in Hd. by apply (Hd target ctx). }
  step. rewrite Ectx. step. step.
  replace (completion_depth ctx <=? length (c_completions s)) with true
    by (symmetry; apply Nat.leb_le; lia).
  step. set (frames := drop _ _).
  assert (Forall (comp_in s) frames) as Hf.
  { apply Forall_drop, (ok_completions _ _ _ _ Hok). }
  destruct frames as [|frame frames'] eqn:Ef.
  { apply (f_equal length) in Ef. unfold frames in Ef. rewrite length_drop in Ef. cbn in Ef. lia. }
  eapply wp_seq; [by apply new_completion_spec|]. intros merged s1 H1 G Hsh1 [Hm Hp].
  rewrite Hsh in Hsh1. assert (Forall (comp_in s1) (frame :: frames')) as Hf1.
  { eapply Forall_impl; [exact Hf|]. intros c. apply grow_comp, G. }
  eapply wp_seq; [eapply for_each_spec; [|done]|].
  { intros c s2 Hc H2 G2 Hsh2. rewrite Forall_forall in Hf1.
    apply copy_completion_spec; [done|by eapply grow_comp; [apply G2|]|].
    eapply grow_comp; [apply G2|]. by apply Hf1. }
  intros [] s2 H2 G2 Hsh2 _. rewrite Hsh1 in Hsh2. cbn [head]. step.
  apply Forall_cons in Hf1 as [Hf1 _].
  pose proof (grow_comp _ _ (g_grow _ _ G2) _ Hm) as Hm2.
  pose proof (grow_comp _ _ (g_grow _ _ G2) _ Hf1) as Hf2.
  pose proof (comp_value _ _ Hm2). pose proof (comp_value _ _ Hf2). step.
  destruct (present frame) as [flag|] eqn:E; [|step].
  destruct (Hp eq_refl) as [mf Emf]. rewrite Emf. step.
  pose proof (comp_present _ _ _ Hm2 Emf). pose proof (comp_present _ _ _ Hf2 E). step.
Qed.

Lemma update_loop_spec target f s :
  ok s -> target < length (c_loops s) ->
  (forall ctx, loop_in s ctx -> loop_in s (f ctx) /\ loop_key (f ctx) = loop_key ctx) ->
  wp (update_loop target f) s (post s keep).
Proof.
  intros Hok Ht Hf. unfold update_loop. apply wp_bind, wp_gets, wp_bind.
  destruct (lookup_lt_is_Some_2 _ _ Ht) as [ctx Ectx]. rewrite Ectx. apply wp_ret, wp_modify.
  match goal with |- post _ _ _ ?s' => set (s1 := s') end.
  assert (loop_in s ctx) as Hc.
  { pose proof (ok_loops _ _ _ _ Hok) as Hl. rewrite Forall_lookup in Hl. by eapply Hl. }
  destruct (Hf ctx Hc) as [[F1 F2] F3].
  assert (grow s s1) as G by (by apply grow_same).
  split_and!; [|exact G| |done].
  - carry (ok_at_grow X B s _ s Hok G). by apply Forall_insert.
  - unfold shape, s1. cbn. f_equal. rewrite list_fmap_insert, F3.
    apply list_insert_id. by rewrite list_lookup_fmap, Ectx.
Qed.

Lemma rposition_lt accepts l n target :
  (forall i ctx, (i, ctx) ∈ l -> i < n) -> rposition accepts l = Some target -> target < n.
Proof.
  induction l as [|[i ctx] l IH]; intros H E; [done|]. cbn [rposition] in E.
  destruct (accepts ctx); [simplify_eq; eapply H; left|].
  apply IH; [|done]. intros. eapply H. by right.
Qed.

Lemma find_loop_lt accepts s target : find_loop accepts s = Some target -> target < length (c_loops s).
Proof.
  apply rposition_lt. intros i ctx Hi. rewrite elem_of_reverse in Hi.
  apply elem_of_lookup_imap in Hi as (j & y & [= -> ->] & Hy). by eapply lookup_lt_Some.
Qed.
End Scopes.

#[export] Hint Extern 0 (wp (declare_slot _ _) _ _) => eapply declare_slot_spec; assumption : compile.
#[export] Hint Extern 0 (wp (declare_slot_if_absent _ _) _ _) =>
  eapply declare_slot_if_absent_spec; assumption : compile.
#[export] Hint Extern 0 (wp (resolve _) _ _) => eapply resolve_spec; assumption : compile.
#[export] Hint Extern 0 (wp (push_unwind _) _ _) => eapply push_unwind_spec; assumption : compile.
#[export] Hint Extern 0 (wp pop_unwind _ _) => eapply pop_unwind_spec; eassumption : compile.
#[export] Hint Extern 0 (wp (push_completion _) _ _) =>
  eapply push_completion_spec;
  [assumption|first [assumption|apply plain_completion_in; assumption]] : compile.
#[export] Hint Extern 0 (wp pop_completion _ _) => eapply pop_completion_spec; eassumption : compile.
#[export] Hint Extern 0 (wp (push_loop _ _) _ _) => eapply push_loop_spec; assumption : compile.
#[export] Hint Extern 0 (wp pop_loop _ _) => eapply pop_loop_spec; eassumption : compile.
#[export] Hint Extern 0 (wp take_pending_labels _ _) => eapply take_pending_labels_spec; assumption : compile.
#[export] Hint Extern 0 (wp (push_scope_with_runtime _ _) _ _) =>
  eapply push_scope_with_runtime_spec; assumption : compile.
#[export] Hint Extern 0 (wp (push_scope _) _ _) =>
  eapply push_scope_with_runtime_spec; assumption : compile.
#[export] Hint Extern 0 (wp pop_scope _ _) => eapply pop_scope_spec; eassumption : compile.
#[export] Hint Extern 0 (wp (new_completion _) _ _) => eapply new_completion_spec; assumption : compile.
#[export] Hint Extern 0 (wp (copy_completion _ _) _ _) =>
  eapply copy_completion_spec; assumption : compile.
#[export] Hint Extern 0 (wp (copy_statement_completion _ _ _) _ _) =>
  eapply copy_statement_completion_spec; assumption : compile.
#[export] Hint Extern 0 (wp (copy_completion_value _ _) _ _) =>
  eapply copy_completion_value_spec; assumption : compile.
