(* ===== verification/CompileClassSpec.v ===== *)
(** Compiling a class keeps the invariant: its template promises a patch for
    each deferred member and for its constructor, and the deferred functions keep
    the promise. *)
From stdpp Require Import prelude list strings gmap.
From Stdlib Require Import ZArith Lia SpecFloat.
From S2P Require Import Prelude JsString BigInt Ast Opcode Verify VerifySpec Compiler CompileClass CompileExpr CompileSpec CompileGrow CompilePrims CompileTactics CompileScopes.
Import Opcode Compiler Primitives Names CompileClass.
Local Open Scope nat_scope.

(** A member within the bound [N] of its class. *)
Definition good_member (N : nat) (m : ClassMember) : Prop :=
  20 + member_size m < N /\ member_ok m = true.

Definition good_class (N : nat) (decorators : list Expr) (superclass : option Expr)
    (body : list ClassMember) : Prop :=
  class_size (sum_list_with expr_size decorators) (opt_size expr_size superclass)
    (sum_list_with member_size body) < N /\
  forallb expr_ok decorators && opt_all expr_ok superclass && forallb member_ok body = true.

(** A deferred function within the bound. *)
Definition good_def (B : nat) (d : FuncDef) : Prop := def_ok d = true /\ def_size d <= B.

(** An automatic accessor: a decorated getter and the setter after it. *)
Definition auto_ok (decorated : bool) (fields : list ClassFieldDecoratorTemplate)
    (l : list ClassMemberTemplate) : Prop :=
  forall k m f, l !! k = Some m -> auto_decorator_field m = Some f ->
    decorated = true /\ member_kind m = MGetter /\ is_Some (auto_accessor_storage m) /\
    (exists d, fields !! f = Some d /\ field_is_static d = member_is_static m) /\
    exists m', l !! S k = Some m' /\ member_kind m' = MSetter /\
      member_is_static m' = member_is_static m /\ auto_decorator_field m' = None.

Lemma auto_ok_fields decorated fields d l :
  auto_ok decorated fields l -> auto_ok decorated (fields ++ [d]) l.
Proof.
  intros H k m f Hk Hf. destruct (H k m f Hk Hf) as (A1 & A2 & A3 & (d' & Hd & A4) & A5).
  split_and!; try done. exists d'. split; [|done]. by apply lookup_app_l_Some.
Qed.

Lemma auto_ok_snoc decorated fields l m :
  auto_ok decorated fields l -> auto_decorator_field m = None ->
  auto_ok decorated fields (l ++ [m]).
Proof.
  intros H Hm k m' f [Hk|[_ ->]]%lookup_snoc Hf; [|congruence].
  destruct (H k m' f Hk Hf) as (A1 & A2 & A3 & A4 & (m'' & A5 & A6)).
  split_and!; try done. exists m''. split; [|done]. by apply lookup_app_l_Some.
Qed.

Lemma auto_ok_pair decorated fields l getter setter :
  auto_ok decorated fields l -> auto_decorator_field setter = None ->
  member_kind getter = MGetter -> is_Some (auto_accessor_storage getter) ->
  member_kind setter = MSetter -> member_is_static setter = member_is_static getter ->
  (forall f, auto_decorator_field getter = Some f -> decorated = true /\
     exists d, fields !! f = Some d /\ field_is_static d = member_is_static getter) ->
  auto_ok decorated fields ((l ++ [getter]) ++ [setter]).
Proof.
  intros H Hs Hg1 Hg2 Hs1 Hs2 Hf k m f [[Hk|[-> ->]]%lookup_snoc|[_ ->]]%lookup_snoc E;
    [| |congruence].
  - destruct (H k m f Hk E) as (A1 & A2 & A3 & A4 & (m' & A5 & A6)).
    split_and!; try done. exists m'. split; [|done]. by do 2 apply lookup_app_l_Some.
  - destruct (Hf f E) as [F1 F2]. split_and!; try done. exists setter. split_and!; try done.
    replace (S (length l)) with (length (l ++ [getter])) by (rewrite length_app; cbn; lia).
    by rewrite lookup_app_r, Nat.sub_diag.
Qed.

(** ** The parts of a class *)

Record build_in (B : nat) (decorated : bool) (b : ClassBuild) (s : Compiler) : Prop := {
  bi_fields : Forall (field_decorator_in s) (cb_field_decorators b);
  bi_blocks : Forall (block_in s) (cb_blocks b);
  bi_keys : Forall (reg_in s) (cb_keys b);
  bi_members : Forall (fun m => decorators_in s (member_decorators m) /\ name_in s (member_name m))
    (cb_members b);
  bi_funcs : Forall (fun m => member_func m = Some u16_max) (cb_members b);
  bi_auto : auto_ok decorated (cb_field_decorators b) (cb_members b);
  bi_patches : (cb_deferred b).*1 = PatchMember u16_max <$> seq 0 (length (cb_members b));
  bi_defs : Forall (fun d => good_def B d.2) (cb_deferred b);
  bi_ctor : forall params body, cb_ctor b = Some (params, body) ->
    templates_ok body = true /\ stmts_size body + 10 <= B;
}.

#[export] Instance upward_build B decorated b : Upward (build_in B decorated b).
Proof.
  intros s s' G [H1 H2 H3 H4 H5 H6 H7 H8 H9]. split; try done.
  - eapply Forall_impl; [exact H1|]. intros d [A1 A2].
    split; [by eapply grow_name; [apply G|]|by eapply grow_decorators; [apply G|]].
  - eapply Forall_impl; [exact H2|]. intros d. apply grow_block, G.
  - by eapply grow_regs; [apply G|].
  - eapply Forall_impl; [exact H4|]. intros d [A1 A2].
    split; [by eapply grow_decorators; [apply G|]|by eapply grow_name; [apply G|]].
Qed.

Lemma empty_build_in B decorated s : build_in B decorated empty_build s.
Proof. split; try done; apply Forall_nil_2. Qed.

Section Build.
Context (B : nat) (decorated : bool) (s : Compiler).
Abbreviation build_in b := (build_in B decorated b s).

Lemma push_member_in b m d :
  build_in b -> decorators_in s (member_decorators m) -> name_in s (member_name m) ->
  member_func m = Some u16_max -> good_def B d ->
  auto_ok decorated (cb_field_decorators b) (cb_members b ++ [m]) ->
  build_in (push_member b m d).
Proof.
  intros [] H1 H2 H3 H4 H5. split; cbn; try done.
  - apply Forall_app_2; [done|]. by apply Forall_singleton.
  - apply Forall_app_2; [done|]. by apply Forall_singleton.
  - rewrite fmap_app, length_app, seq_app, fmap_app. cbn. by f_equal.
  - apply Forall_app_2; [done|]. by apply Forall_singleton.
Qed.

Lemma push_block_in b k : build_in b -> block_in s k -> build_in (push_block b k).
Proof.
  intros [] H1. split; cbn; try done. apply Forall_app_2; [done|]. by apply Forall_singleton.
Qed.

Lemma push_field_in b key init keys private :
  build_in b -> Forall (reg_in s) keys -> build_in (push_field b key init keys private).
Proof. intros [] H1. split; cbn; try done. by apply Forall_app_2. Qed.

Lemma push_field_decorator_in b d :
  build_in b -> field_decorator_in s d -> build_in (push_field_decorator b d).
Proof.
  intros [] H1. split; cbn; try done; [|by apply auto_ok_fields].
  apply Forall_app_2; [done|]. by apply Forall_singleton.
Qed.

Lemma set_ctor_in b params body :
  build_in b -> templates_ok body = true -> stmts_size body + 10 <= B ->
  build_in (set_ctor b params body).
Proof. intros [] H1 H2. split; cbn; try done. by intros ? ? [= <- <-]. Qed.

End Build.

(** ** Members *)

Section Members.
Context (compile_expr : Expr -> M Reg).
Context (compile_call_reference : Expr -> list nat -> M (Reg * option Reg * list nat)).
Context (N B : nat) (HN : N <= S B).
Hypothesis Hexpr : forall e, good N e -> expr_spec compile_expr B e.
Hypothesis Href : forall e, good N e -> ref_spec compile_call_reference B e.
Context (X : list PatchTarget).
Abbreviation ok := (ok X B).
Abbreviation post := (post X B).

Lemma class_expr_at e s :
  good N e -> ok s -> wp (compile_expr e) s (post s (fun r s' => reg_in s' r)).
Proof. intros He. by apply Hexpr. Qed.

Lemma check_static_method_key_spec n b s :
  ok s -> name_in s n -> wp (check_static_method_key n b) s (post s keep).
Proof.
  intros Hok Hn. start. unfold check_static_method_key. destruct b; cbn [negb]; [|step].
  destruct n as [name|name|r]; cbn in Hn; [|steps..].
  destruct (text_eq name _); steps.
Qed.

Definition good_name (n : MemberName) : Prop :=
  match n with MComputed e => good N e | _ => True end.

Lemma compile_member_name_spec n s :
  ok s -> good_name n ->
  wp (compile_member_name compile_expr n) s (post s (fun n' s' => name_in s' n')).
Proof.
  intros Hok Hn. start. unfold compile_member_name. destruct n as [k|k|e]; [by step..|].
  eapply wp_seq; [by apply class_expr_at|advance]. steps.
Qed.

Lemma compile_decorators_spec l s :
  ok s -> Forall (good N) l ->
  wp (for_map l (compile_decorator compile_call_reference)) s
    (post s (fun ds s' => decorators_in s' ds /\ length ds = length l)).
Proof.
  intros Hok Hl. apply (for_map_spec _ _ _ _ (fun d s' => reg_in s' d.1 /\ opt_in s' d.2)); [| |done].
  - intros d s1 s2 G [H1 H2]. split; [by eapply grow_reg; [apply G|]|by eapply grow_opt; [apply G|]].
  - intros e s1 He Hok1 _ _. start. unfold compile_decorator. rewrite Forall_forall in Hl.
    eapply wp_seq; [apply Href; [by apply Hl|done|apply Forall_nil_2]|].
    intros [[f r] ends] s2 Hok2 G Hsh2 (H1 & H2 & H3). cbn [fst snd] in *. rewrite Hsh in Hsh2.
    steps. done.
Qed.

Lemma good_member_def st name params body a g :
  stmts_size body < B -> templates_ok body = true ->
  good_def B (member_def st name params body a g).
Proof. intros H1 H2. split; [exact H2|]. unfold def_size. cbn. lia. Qed.

Lemma accessor_def_good storage n setter :
  20 < N -> good_def B (accessor_def storage n setter).
Proof.
  intros H. apply good_member_def; [|by destruct setter].
  destruct setter; cbn; lia.
Qed.

Section Member.
Context (decorated : bool) (b : ClassBuild).
Abbreviation build_in := (build_in B decorated).

(** A member with a function of its own. *)
Lemma push_function_in ds kind is_static n def s :
  build_in b s -> decorators_in s ds -> name_in s n -> good_def B def ->
  build_in (push_member b (member_template None ds None kind is_static n) def) s.
Proof.
  intros Hb Hds Hn Hd. apply push_member_in; try done.
  apply auto_ok_snoc; [by apply (bi_auto _ _ _ _ Hb)|done].
Qed.

Lemma compile_method_spec ds src n is_static params body a g s :
  ok s -> build_in b s -> decorators_in s ds -> good_name n ->
  stmts_size body + 20 < N -> templates_ok body = true ->
  wp (compile_method compile_expr b ds src n is_static params body a g) s (post s build_in).
Proof.
  intros Hok Hb Hds Hn Hs Ht. start. unfold compile_method.
  eapply wp_seq; [by apply compile_member_name_spec|advance].
  eapply wp_seq; [by apply check_static_method_key_spec|advance].
  destruct (_ && _); step; [apply set_ctor_in; (done || lia)|].
  apply push_function_in; try done. apply good_member_def; (done || lia).
Qed.

Lemma compile_getter_spec ds src n is_static body s :
  ok s -> build_in b s -> decorators_in s ds -> good_name n ->
  stmts_size body + 20 < N -> templates_ok body = true ->
  wp (compile_getter compile_expr b ds src n is_static body) s (post s build_in).
Proof.
  intros Hok Hb Hds Hn Hs Ht. start. unfold compile_getter.
  eapply wp_seq; [by apply compile_member_name_spec|advance].
  eapply wp_seq; [by apply check_static_method_key_spec|advance]. step.
  apply push_function_in; try done. apply good_member_def; (done || lia).
Qed.

Lemma compile_setter_spec ds src n param is_static body s :
  ok s -> build_in b s -> decorators_in s ds -> good_name n ->
  stmts_size body + 20 < N -> templates_ok body = true ->
  wp (compile_setter compile_expr b ds src n param is_static body) s (post s build_in).
Proof.
  intros Hok Hb Hds Hn Hs Ht. start. unfold compile_setter.
  eapply wp_seq; [by apply compile_member_name_spec|advance].
  eapply wp_seq; [by apply check_static_method_key_spec|advance]. step.
  apply push_function_in; try done. apply good_member_def; (done || lia).
Qed.

Lemma note_arguments_spec (x : bool) s :
  ok s -> wp (if x then modify (set_captures_arguments true) else ret tt) s (post s keep).
Proof.
  intros Hok. destruct x; [|by apply wp_same]. apply wp_modify.
  assert (grow s (set_captures_arguments true s)) as G by (by apply grow_same).
  split_and!; [|exact G|done|done]. carry (ok_at_grow X B s _ s Hok G).
Qed.

Lemma compile_static_block_spec body s :
  ok s -> build_in b s -> wp (compile_static_block b body) s (post s build_in).
Proof.
  intros Hok Hb. start. unfold compile_static_block.
  eapply wp_seq; [by apply note_arguments_spec|advance]. step. step.
  apply push_block_in; [done|]. cbn. eapply kst_weaken; [|exact H].
  intros c <-. by eexists.
Qed.

Lemma push_plain_field_in n is_static init s :
  build_in b s -> name_in s n -> build_in (push_plain_field b n is_static init) s.
Proof.
  intros Hb Hn. unfold push_plain_field. destruct is_static; [by apply push_block_in|].
  destruct n; apply push_field_in; try done; try apply Forall_nil_2. by apply Forall_singleton.
Qed.
End Member.

Lemma push_auto_accessor_in decorated b n is_static storage field init s :
  build_in B decorated b s -> name_in s n -> 20 < N ->
  (forall f, field = Some f -> decorated = true /\
     exists d, cb_field_decorators b !! f = Some d /\ field_is_static d = is_static) ->
  build_in B decorated (push_auto_accessor b n is_static storage field init) s.
Proof.
  intros Hb Hn H20 Hf. unfold push_auto_accessor.
  set (getter := member_template field [] _ MGetter _ _).
  set (setter := member_template None [] None MSetter _ _).
  set (b2 := push_member (push_member b getter _) setter _).
  assert (build_in B decorated b2 s) as Hb2.
  { pose proof (accessor_def_good storage n false H20) as D1.
    pose proof (accessor_def_good storage n true H20) as D2.
    pose proof (auto_ok_pair decorated (cb_field_decorators b) (cb_members b) getter setter
      (bi_auto _ _ _ _ Hb) eq_refl eq_refl ltac:(by eexists) eq_refl eq_refl Hf) as Ha.
    destruct Hb as [H1 H2 H3 H4 H5 H6 H7 H8 H9].
    split; cbn; try done.
    - repeat (apply Forall_app_2; [|apply Forall_singleton; split; [apply Forall_nil_2|done]]). done.
    - repeat (apply Forall_app_2; [|by apply Forall_singleton]). done.
    - rewrite !fmap_app, !length_app, !seq_app, !fmap_app. cbn. rewrite H7. by f_equal.
    - repeat (apply Forall_app_2; [|by apply Forall_singleton]). done. }
  destruct is_static; [by apply push_block_in|]. apply push_field_in; [done|]. apply Forall_nil_2.
Qed.

Lemma compile_field_spec decorated i b ds n is_static auto init s :
  ok s -> build_in B decorated b s -> decorators_in s ds -> good_name n -> 20 < N ->
  (length ds <> 0 -> decorated = true) ->
  wp (compile_field compile_expr i b ds n is_static auto init) s (post s (build_in B decorated)).
Proof.
  intros Hok Hb Hds Hn H20 Hdec. start. unfold compile_field.
  eapply wp_seq; [by apply compile_member_name_spec|advance].
  set (b1 := if negb _ then _ else b).
  assert (build_in B decorated b1 s0) as Hb1.
  { unfold b1. case_bool_decide; cbn [negb]; [done|]. by apply push_field_decorator_in. }
  destruct auto.
  - eapply wp_seq; [by apply check_static_method_key_spec|advance]. step.
    apply push_auto_accessor_in; try done. intros f. unfold b1.
    case_bool_decide; cbn [negb andb]; [done|]. intros [= <-]. split; [auto|]. cbn.
    rewrite lookup_app_r, Nat.sub_diag by done. by eexists.
  - step. by apply push_plain_field_in.
Qed.

(** ** The member list *)

Definition has_decorators (m : ClassMember) : bool :=
  negb (bool_decide (length (decorators m) = 0)).

Lemma compile_member_spec decorated i b m s :
  ok s -> build_in B decorated b s -> good_member N m ->
  (has_decorators m = true -> decorated = true) ->
  wp (compile_member compile_expr compile_call_reference i b m) s
    (post s (build_in B decorated)).
Proof.
  intros Hok Hb [Hs Ho] Hdec. start. unfold compile_member.
  assert (Forall (good N) (decorators m)) as Hds.
  { destruct m; cbn in Hs, Ho |- *; rewrite ?andb_true_iff in Ho; try apply Forall_nil_2;
      (apply good_list; [lia|naive_solver]). }
  eapply wp_seq; [by apply compile_decorators_spec|advance].
  assert (length r <> 0 -> decorated = true) as Hdec'.
  { intros Hr. apply Hdec. unfold has_decorators. case_bool_decide; [congruence|done]. }
  destruct m as [? ? [] ? ? ? ? ?|? [] ? ? ?|?|? ? [] ? ?|? ? [] ? ? ?];
    cbn in Hs, Ho; rewrite ?andb_true_iff in Ho;
    (eapply wp_tail;
     [first [eapply compile_method_spec|eapply compile_field_spec|eapply compile_getter_spec
            |eapply compile_setter_spec|eapply compile_static_block_spec];
      first [eassumption|exact I|unfold stmts_size; lia|split; [lia|naive_solver]|naive_solver]
     |done|done]).
Qed.

Lemma compile_members_spec decorated l : forall i b s,
  ok s -> build_in B decorated b s -> Forall (good_member N) l ->
  (existsb has_decorators l = true -> decorated = true) ->
  wp (compile_members compile_expr compile_call_reference i b l) s
    (post s (build_in B decorated)).
Proof.
  induction l as [|m l IH]; intros i b s Hok Hb Hl Hdec; [by apply wp_same|].
  apply Forall_cons in Hl as [Hm Hl]. cbn in Hdec. start. cbn [compile_members].
  eapply wp_seq; [apply (compile_member_spec decorated); [done|done|done|]|advance].
  { intros E. apply Hdec. by rewrite E. }
  eapply wp_tail; [apply IH; [done|done|done|]|done|done].
  intros E. apply Hdec. rewrite E. apply orb_true_r.
Qed.

(** ** The class *)

Lemma class_template_in b ds decorated src privates name en sup proto n s :
  build_in B decorated b s -> decorators_in s ds -> opt_in s sup -> opt_in s proto ->
  class_in s (class_template b decorated ds src privates name en sup proto n).
Proof.
  intros [H1 H2 H3 H4 H5 H6 H7 H8 H9] Hds Hsup Hproto. split; cbn; try done.
  intros k m f Hk Hf. destruct (H6 k m f Hk Hf) as (-> & A2 & [st A3] & (d & A4 & A5) & m' & A6 & A7 & A8 & A9).
  unfold Verify.auto_accessor_ok. cbn. rewrite A2, A3, A4, A5, Nat.add_1_r, A6, A7, A8, A9.
  rewrite !bool_decide_eq_true_2 by done. by rewrite !Bool.eqb_reflx.
Qed.

(** The patches of a class template. *)
Definition class_patches (k : nat) (t : ClassTemplate) : list PatchTarget :=
  (PatchMember k <$> seq 0 (length (members t))) ++ [PatchCtor k].

Lemma class_promise t s (k := length (c_constants s))
    (s1 := set_constants (c_constants s ++ [CClassTemplate t]) s) :
  ok s -> class_in s t -> ctor_func t = u16_max ->
  Forall (fun m => member_func m = Some u16_max) (members t) ->
  CompileSpec.ok (class_patches k t ++ X) B s1 /\ grow s s1.
Proof.
  intros Hok Ht Hc Hm. pose proof (grow_push_const (CClassTemplate t) s) as G. fold s1 in G.
  split; [|exact G].
  assert (Forall (patch_in s1) (class_patches k t)) as Hin.
  { apply Forall_app_2; [|apply Forall_singleton; exists (CClassTemplate t); split; [|by eexists]].
    - apply Forall_fmap, Forall_forall. intros i Hi%elem_of_seq. exists (CClassTemplate t). split.
      + unfold s1. cbn. by rewrite lookup_app_r, Nat.sub_diag.
      + exists t. split; [done|lia].
    - unfold s1. cbn. by rewrite lookup_app_r, Nat.sub_diag. }
  assert (ok_at (class_patches k t ++ X) B s1 s) as H1.
  { apply ok_promise; [by eapply ok_at_grow| | |exact Hin].
    - apply NoDup_app. split_and!; [|by intros p (i & -> & _)%list_elem_of_fmap ?%list_elem_of_singleton|
        apply NoDup_singleton].
      apply NoDup_fmap_2; [by intros ? ? [=]|apply NoDup_seq].
    - intros p Hp. apply (fresh_patch _ B); [done|].
      apply elem_of_app in Hp as [(i & -> & _)%list_elem_of_fmap| ->%list_elem_of_singleton]; done. }
  carry H1.
  - intros k' t' [Hk|[-> [= ->]]]%lookup_snoc; [by apply Hclass|]. split_and!.
    + by eapply grow_class; [apply G|].
    + right. apply elem_of_app. right. apply elem_of_app. left. apply elem_of_app. right. left.
    + intros i m f Hi Hf. right. apply elem_of_app. right. apply elem_of_app. left.
      apply elem_of_app. left. apply list_elem_of_fmap. exists i. split; [done|].
      apply elem_of_seq. apply lookup_lt_Some in Hi. lia.
  - intros k' f [Hk|[-> ?]]%lookup_snoc; [by eapply Hfuns|done].
Qed.

(** The patch a deferred part gets. *)
Definition at_template (k : nat) (p : PatchTarget) : PatchTarget :=
  match p with
  | PatchMember _ i => PatchMember k i
  | PatchCtor _ => PatchCtor k
  | PatchFunction a => PatchFunction a
  end.
Definition of_class (p : PatchTarget) : Prop :=
  match p with PatchFunction _ => False | _ => True end.

Lemma defer_parts_spec k snapshot l : forall s,
  CompileSpec.ok (map (fun d => at_template k d.1) l ++ X) B s ->
  Forall (fun d => of_class d.1 /\ good_def B d.2) l ->
  wp (for_each l (fun '(p, def) =>
    bind (with_template k p) (fun p =>
    modify (fun s => set_deferred
      (c_deferred s ++ [{| patch := p; def := def; snapshot := snapshot |}]) s)))) s (post s keep).
Proof.
  induction l as [|[p d] l IH]; intros s Hok Hl; [by apply wp_same|].
  apply Forall_cons in Hl as [[Hp [Hd1 Hd2]] Hl]. cbn [for_each]. apply wp_assoc.
  destruct (ok_defer B (at_template k p) {| patch := at_template k p; def := d;
    snapshot := snapshot |} (map (fun d => at_template k d.1) l ++ X) s Hok eq_refl Hd1 Hd2)
    as [H1 G].
  destruct p as [a|k'|k' i]; [done|..];
    apply wp_bind, wp_ret, wp_bind, wp_modify;
    (eapply wp_mono; [apply IH; done|]); intros x s2 H2; by eapply post_trans.
Qed.

Definition class_boxed (name : Text) : gset Text := if bool_decide (name = []) then ∅ else {[name]}.

(** The scope of a class: the instruction that opened it is replaced. *)
Lemma intern_string_code name s : wp (intern_string name) s (fun _ s' => c_code s' = c_code s).
Proof.
  unfold intern_string, push_const, try_u16. apply wp_bind, wp_gets.
  destruct (c_strings s !! name); [done|]. apply wp_bind, wp_bind, wp_gets, wp_bind.
  by destruct (fits_u16 _).
Qed.

Lemma wp_and {A} (m : M A) s (P Q : A -> Compiler -> Prop) :
  wp m s P -> wp m s Q -> wp m s (fun x s' => P x s' /\ Q x s').
Proof. unfold wp. by destruct (m s) as [[x s']|[]|]. Qed.

Lemma open_class_scope_spec name s :
  ok s -> wp (open_class_scope name) s (post_at X B (in_scope true (class_boxed name) (innermost s) (shape s)) s keep).
Proof.
  intros Hok. unfold open_class_scope.
  eapply wp_seq.
  { eapply (wp_mono _ _ (fun x s' => post_at X B (in_scope true (class_boxed name) (innermost s) (shape s)) s keep x s' /\
      last (c_code s') = Some (PushScope : Instr))).
    - apply wp_and; [by apply push_scope_with_runtime_spec|].
      unfold push_scope_with_runtime. cbn [orb]. apply wp_bind, wp_modify, wp_bind, wp_modify, wp_modify.
      cbn. by rewrite last_snoc.
    - intros x s1 [(H1 & H2 & H3 & _) H4]. split_and!; [done|done|done|exact H4]. }
  intros [] s1 H1 _ E1 Hl. apply (wp_seq _ _ (in_scope true (class_boxed name) (innermost s) (shape s)) _ _ _ _
    (fun k s' => Forall (kst s' is_string) (option_list k) /\
       last (c_code s') = Some (PushScope : Instr))).
  { destruct (bool_decide _).
    - apply wp_ret_at; [done|done|]. split; [apply Forall_nil_2|done].
    - eapply wp_seq.
      { eapply (wp_mono _ _ (fun k s' =>
          post_at X B (shape s1) s1 (fun k s' => kst s' is_string k) k s' /\
          c_code s' = c_code s1)).
        - apply wp_and; [by apply intern_string_spec|apply intern_string_code].
        - intros k s2 [(A1 & A2 & A3 & A4) A5]. rewrite <- A5 in Hl.
          split_and!; [done|done|done|exact (conj A4 Hl)]. }
      intros k s2 H2 _ E2 [Hk Hl2]. apply wp_ret_at; [done|congruence|].
      split; [by apply Forall_singleton|done]. }
  intros k s2 H2 _ E2 [Hk Hl2]. apply wp_bind, wp_gets.
  destruct (c_code s2) as [|i code] eqn:Ec; [done|]. rewrite <- Ec in *.
  eapply wp_tail; [eapply (replace_last_spec _ _ _ PushScope); [done|done|done|done|done|instr|done]|done|done].
Qed.

Lemma class_ctor_good decorated b d x name params ctor s :
  build_in B decorated b s -> 20 < N ->
  class_ctor_body d (cb_ctor b) (cb_fields b) x = (params, ctor) ->
  good_def B (ctor_def name params ctor).
Proof.
  intros Hb H20 E. unfold class_ctor_body in E.
  assert (forall init own, (init = [] \/ exists d i l, init = [SClassInitialization d i l]) ->
    templates_ok own = true -> stmts_size own + 10 <= B ->
    good_def B (ctor_def name params (init ++ own))) as Hgood.
  { intros init own Hi Ho Hs. unfold good_def, def_ok, def_size, templates_ok, stmts_size in *. cbn.
    destruct Hi as [->|(? & ? & ? & ->)]; cbn; split; (done || lia). }
  destruct (cb_ctor b) as [[own_params own]|] eqn:Ec.
  - destruct (bi_ctor _ _ _ _ Hb _ _ Ec) as [H1 H2]. injection E as <- <-.
    apply Hgood; [|done|done]. destruct (_ || _); eauto.
  - clear Hgood. destruct d; cbn in E; [|destruct (_ || _)]; injection E as <- <-;
      (split; [done|unfold def_size; cbn; lia]).
Qed.

Lemma finish_class_spec t l snapshot boxed m sh s :
  ok s -> class_in s t -> ctor_func t = u16_max ->
  Forall (fun m => member_func m = Some u16_max) (members t) ->
  (forall k, map (fun d => at_template k d.1) l = class_patches k t) ->
  Forall (fun d => of_class d.1 /\ good_def B d.2) l -> shape s = in_scope true boxed m sh ->
  wp (bind (push_const (CClassTemplate t)) (fun tmpl =>
      bind alloc_reg (fun dst =>
      bind (emit (BuildClass dst tmpl)) (fun _ =>
      bind pop_scope (fun _ =>
      bind (for_each l (fun '(p, def) =>
        bind (with_template tmpl p) (fun p =>
        modify (fun s => set_deferred
          (c_deferred s ++ [{| patch := p; def := def; snapshot := snapshot |}]) s)))) (fun _ =>
      ret dst)))))) s
    (post_at X B sh s (fun r s' => reg_in s' r /\ built s' r)).
Proof.
  intros Hok Ht Hc Hm Hl Hd Hsh. unfold push_const, try_u16.
  apply wp_assoc, wp_bind, wp_gets. apply wp_assoc. destruct (fits_u16 _); [|done].
  apply wp_bind, wp_ret, wp_assoc, wp_bind, wp_modify, wp_bind, wp_ret.
  destruct (class_promise t s Hok Ht Hc Hm) as [H1 G].
  set (k := length (c_constants s)) in *.
  set (s1 := set_constants _ s) in *. apply (wp_from _ _ _ _ _ _ _ _ G).
  assert (kst s1 is_class k) as Hk.
  { exists (CClassTemplate t). split; [|by eexists]. unfold s1. cbn.
    by rewrite lookup_app_r, Nat.sub_diag. }
  rewrite <- (Hl k) in H1.
  eapply wp_seq_from; [by apply alloc_reg_spec|]. intros dst s2 H2 G2 E2 Hdst. cbv beta in Hdst.
  pose proof (up_kst _ _ _ _ G2 Hk) as Hk2.
  assert (instr_in s2 (BuildClass dst k)) as Hi by instr.
  apply wp_bind, wp_modify. destruct (emit_post _ _ (BuildClass dst k) s2 H2 Hi I) as (H3 & G3 & E3 & _).
  set (s3 := set_code _ s2) in *. apply (wp_from _ _ _ _ _ _ _ _ G3).
  assert (built s3 dst) as Hb.
  { exists (length (c_code s2)), k. unfold s3. cbn. by rewrite lookup_app_r, Nat.sub_diag. }
  apply (grow_reg _ _ (g_grow _ _ G3)) in Hdst.
  eapply wp_seq_from; [eapply pop_scope_spec; [done|]|].
  { rewrite E3, E2. exact Hsh. }
  intros [] s4 H4 G4 E4 _. eapply wp_seq; [by apply defer_parts_spec|].
  intros [] s5 H5 G5 E5 _. pose proof (later_trans _ _ _ G4 G5) as G6.
  apply wp_ret_at; [done|congruence|]. split.
  - eapply grow_reg; [apply G6|done].
  - by apply (upward_built dst _ _ G6).
Qed.

Lemma compile_class_spec name en superclass body decorators src s :
  ok s -> good_class N decorators superclass body ->
  wp (compile_class compile_expr compile_call_reference name en superclass body decorators src) s
    (post s (fun r s' => reg_in s' r /\ built s' r)).
Proof.
  intros Hok [Hs Ho]. unfold class_size in Hs. rewrite !andb_true_iff in Ho.
  destruct Ho as [[Hod Hos] Hob]. start. unfold compile_class.
  eapply wp_seq; [apply compile_decorators_spec; [done|apply good_list; [lia|done]]|advance].
  change (existsb (fun m => negb _) body) with (existsb has_decorators body).
  eapply wp_seq; [by apply open_class_scope_spec|advance]. step.
  step to (fun r s' => opt_in s' r).
  { destruct superclass as [e|]; [|step; apply opt_none].
    eapply wp_seq; [apply class_expr_at; [split; [cbn in Hs; lia|done]|done]|advance]. step.
    by apply opt_some. }
  step to (fun r s' => opt_in s' r).
  { destruct r0 as [r0|]; [|step; apply opt_none].
    rewrite opt_some in H. step. step. step. by apply opt_some. }
  step. apply (kst_weaken _ is_list) in H3; [|by intros c <-; eexists]. step.
  eapply wp_seq.
  { apply (compile_members_spec (existsb has_decorators body)); [done|apply empty_build_in| |done].
    apply Forall_forall. intros m Hm. pose proof (sum_le member_size body m Hm).
    split; [lia|]. by eapply forallb_in. }
  advance. match goal with Hb : build_in _ _ _ _ |- _ => rename Hb into Hbuild end.
  destruct (class_ctor_body _ _ _ _) as [params ctor] eqn:Ector. cbv zeta.
  pose proof (class_ctor_good _ _ _ _ name _ _ _ Hbuild ltac:(lia) Ector) as Hctor.
  eapply finish_class_spec; try done.
  - by apply class_template_in.
  - by apply (bi_funcs _ _ _ _ Hbuild).
  - intros k. rewrite map_app. unfold class_patches. cbn. f_equal.
    transitivity (at_template k <$> (cb_deferred r3).*1); [by rewrite <- list_fmap_compose|].
    rewrite (bi_patches _ _ _ _ Hbuild). by rewrite <- list_fmap_compose.
  - apply Forall_app_2; [|by apply Forall_singleton].
    pose proof (bi_defs _ _ _ _ Hbuild) as Hdefs. pose proof (bi_patches _ _ _ _ Hbuild) as Hp.
    apply Forall_forall. intros d Hd. split; [|rewrite Forall_forall in Hdefs; by apply Hdefs].
    assert (d.1 ∈ (cb_deferred r3).*1) as Hin by (apply list_elem_of_fmap; eauto).
    rewrite Hp in Hin. by apply list_elem_of_fmap in Hin as (i & -> & _).
Qed.
End Members.
