(* ===== verification/CompileExprSpec.v ===== *)
(** Compiling an expression keeps the invariant: each form, from the
    specifications of its parts. *)
From stdpp Require Import prelude list strings gmap.
From Stdlib Require Import ZArith Lia SpecFloat.
From S2P Require Import Prelude JsString BigInt BigIntText Ast Opcode Verify VerifySpec Compiler CompileClass CompileExpr CompileSpec CompileGrow CompilePrims CompileTactics CompileScopes CompileClassSpec.
Import Opcode Compiler Primitives Names CompileClass CompileExpr.
Local Open Scope nat_scope.

(** Arguments that are there for a call. *)
Definition args_in (a : CallArgs) (s : Compiler) : Prop :=
  match a with
  | ArgRange start n => win_in s (start, n)
  | ArgSpread k => exists l, kst s (eq (CSpreadTemplate l)) k /\ Forall (entry_in s false) l
  end.
#[export] Instance upward_args a : Upward (args_in a).
Proof.
  intros s s' G. destruct a; cbn; [apply grow_win, G|]. intros (l & H1 & H2). exists l.
  split; [by eapply up_kst; [apply _|..]|by eapply up_entries].
Qed.

#[export] Hint Extern 0 (wp (defer_function _) _ _) => eapply defer_function_spec; assumption : compile.

Section Exprs.
Context (number_string : spec_float -> Text).
Context (compile_expr : Expr -> M Reg).
Context (compile_call_reference : Expr -> list nat -> M (Reg * option Reg * list nat)).
Context (N B : nat) (HN : N <= S B).
Hypothesis Hexpr : forall e, good N e -> expr_spec compile_expr B e.
Hypothesis Href : forall e, good N e -> ref_spec compile_call_reference B e.
Context (X : list PatchTarget).
Abbreviation ok := (ok X B).
Abbreviation post := (post X B).
Abbreviation reg := (fun (r : Reg) s' => reg_in s' r).

Lemma expr_at e s : good N e -> ok s -> wp (compile_expr e) s (post s reg).
Proof. intros He. by apply Hexpr. Qed.
Lemma ref_at e ends s :
  good N e -> ok s -> Forall (jump_at s) ends ->
  wp (compile_call_reference e ends) s (post s ref_in).
Proof. intros He. by apply Href. Qed.

Local Hint Extern 0 (wp (compile_expr _) _ _) => eapply expr_at; assumption : compile.
Local Hint Extern 0 (wp (compile_call_reference _ _) _ _) =>
  eapply ref_at; [assumption|assumption|all_in] : compile.

(** ** Names and references *)

Lemma load_binding_spec dst name s :
  ok s -> reg_in s dst -> wp (load_binding dst name) s (post s keep).
Proof.
  intros Hok Hd. start. unfold load_binding. step. destruct r as [x|]; cbn in H; steps.
Qed.
Local Hint Extern 0 (wp (load_binding _ _) _ _) => eapply load_binding_spec; assumption : compile.

Local Hint Extern 0 (wp (if _ then modify (set_captures_arguments true) else ret tt) _ _) =>
  eapply note_arguments_spec; assumption : compile.

Lemma compile_identifier_spec name s : ok s -> wp (compile_identifier name) s (post s reg).
Proof. intros Hok. start. unfold compile_identifier. steps. Qed.

Lemma compile_this_spec s : ok s -> wp compile_this s (post s reg).
Proof.
  intros Hok. start. unfold compile_this. step. step. destruct (c_this_mode s); steps.
Qed.
Local Hint Extern 0 (wp compile_this _ _) => eapply compile_this_spec; assumption : compile.

Lemma raise_bare_super_spec s : ok s -> wp raise_bare_super s (post s reg).
Proof. intros Hok. start. unfold raise_bare_super. steps. Qed.
Local Hint Extern 0 (wp raise_bare_super _ _) => eapply raise_bare_super_spec; assumption : compile.

Lemma compile_super_property_key_spec p s :
  good N p -> ok s -> wp (compile_super_property_key compile_expr p) s (post s reg).
Proof. intros Hp Hok. start. unfold compile_super_property_key. steps. Qed.
Local Hint Extern 0 (wp (compile_super_property_key _ _) _ _) =>
  eapply compile_super_property_key_spec; assumption : compile.

Lemma compile_super_reference_spec p s :
  good N p -> ok s ->
  wp (compile_super_reference compile_expr p) s
    (post s (fun x s' => reg_in s' x.1.1 /\ reg_in s' x.1.2 /\ reg_in s' x.2)).
Proof. intros Hp Hok. start. unfold compile_super_reference. steps. done. Qed.
Local Hint Extern 0 (wp (compile_super_reference _ _) _ _) =>
  eapply compile_super_reference_spec; assumption : compile.

(** ** Calls *)

Lemma retarget_in i src dst j s :
  retarget i src dst = Some j -> instr_in s i -> reg_in s dst ->
  instr_in s j /\ no_make j /\ with_target i 0 = None /\ no_make i /\ (forall r k, i <> BuildClass r k).
Proof.
  intros E Hi Hd. destruct i as [[]|[]|[]|[]|[]|[]]; cbn in E; try done;
    (case_match; [|done]); simplify_eq; (split; [|done]);
    destruct Hi as (_ & H2 & H3 & H4 & H5 & H6);
    apply instr_intro; try done; by apply Forall_singleton.
Qed.

Lemma compile_argument_spec start n i arg s :
  good N arg -> ok s -> win_in s (start, n) -> i < n ->
  wp (compile_argument compile_expr start (start + n) i arg) s (post s keep).
Proof.
  intros Ha Hok Hw Hi. start. unfold compile_argument. step. step. step.
  match goal with |- wp _ ?s _ => rename s into s1 end.
  pose proof (win_reg _ _ _ _ Hw Hi) as Hd.
  destruct (_ && _); [|step].
  destruct (last (c_code s1) ≫= _) as [j|] eqn:E; [|step]. destruct (last (c_code s1)) as [k|] eqn:El; [|done]. cbn in E.
  assert (instr_in s1 k) as Hk.
  { rewrite last_lookup in El. by eapply (ok_code _ _ _ _ Hok). }
  destruct (retarget_in _ _ _ _ _ E Hk Hd) as (A1 & A2 & A3 & A4 & A5).
  eapply wp_tail; [by eapply (replace_last_spec _ _ _ k)|done|done].
Qed.

Lemma plain_entry_in s b r : reg_in s r -> entry_in s b (plain_entry r).
Proof. by split. Qed.
Lemma prepared_entry_in s b r :
  reg_in s r ->
  entry_in s b {| elision := false; spread := true; prepared := true; spread_reg := r |}.
Proof. by split. Qed.

Lemma compile_spread_argument_spec arg s :
  good N arg -> ok s ->
  wp (compile_spread_argument compile_expr arg) s (post s (fun e s' => entry_in s' false e)).
Proof.
  intros Ha Hok. start. unfold compile_spread_argument.
  assert (wp (bind (compile_expr arg) (fun reg => ret (plain_entry reg))) s
    (post_at X B sh s (fun e s' => entry_in s' false e))) as Hplain.
  { step. step. by apply plain_entry_in. }
  destruct arg; try exact Hplain. apply good_spread in Ha. steps. by apply prepared_entry_in.
Qed.

Lemma spread_template_spec (body : Expr -> M SpreadEntry) b l s :
  ok s ->
  (forall e s1, e ∈ l -> ok s1 -> wp (body e) s1 (post s1 (fun x s' => entry_in s' b x))) ->
  wp (for_map l body) s (post s (fun x s' => Forall (entry_in s' b) x)).
Proof.
  intros Hok Hb. eapply post_weaken.
  - apply (for_map_spec _ _ _ _ (fun x s' => entry_in s' b x)); [| |done].
    + intros y s1 s2 G. apply grow_entry, G.
    + intros e s1 He Hok1 _ _. by apply Hb.
  - by intros x s' [H _].
Qed.

Lemma compile_call_arguments_spec args s :
  Forall (good N) args -> ok s ->
  wp (compile_call_arguments compile_expr args) s (post s args_in).
Proof.
  intros Hargs Hok. start. unfold compile_call_arguments. rewrite Forall_forall in Hargs.
  destruct (existsb _ _).
  - eapply wp_seq; [apply (spread_template_spec _ false); [done|]|advance].
    { intros e s1 He Hok1. apply compile_spread_argument_spec; auto. }
    step. step. cbn. eauto.
  - step. eapply wp_seq; [eapply for_enumerate_spec; [|done]|advance].
    { intros j e s1 Hj Hok1 G _. apply compile_argument_spec; [|done|by apply (grow_win _ _ (g_grow _ _ G))|].
      - apply Hargs. by eapply list_elem_of_lookup_2.
      - by eapply lookup_lt_Some. }
    step.
Qed.
Local Hint Extern 0 (wp (compile_call_arguments _ _) _ _) =>
  eapply compile_call_arguments_spec; assumption : compile.

Lemma call_instruction_in sup de dst f this args s :
  reg_in s dst -> reg_in s f -> opt_in s this -> args_in args s ->
  instr_in s (call_instruction sup de dst f this args) /\
  no_make (call_instruction sup de dst f this args).
Proof.
  intros H1 H2 H3 H4. split; [|by destruct args, sup, de, this].
  destruct args as [start n|k]; cbn in H4.
  - destruct sup, de, this as [this|]; cbn [call_instruction]; try (apply opt_some in H3); by instr.
  - destruct H4 as (l & Hk & Hl).
    destruct sup, de, this as [this|]; cbn [call_instruction]; try (apply opt_some in H3);
      apply instr_intro; cbn [regs windows slot_operands targets operator_ok constant_in];
      first [exact I|by exists l|all_in].
Qed.

Lemma emit_call_spec sup de dst f this args s :
  ok s -> reg_in s dst -> reg_in s f -> opt_in s this -> args_in args s ->
  wp (emit (call_instruction sup de dst f this args)) s (post s keep).
Proof.
  intros Hok H1 H2 H3 H4.
  destruct (call_instruction_in sup de dst f this args s H1 H2 H3 H4) as [Hi Hm].
  exact (emit_spec X B _ s Hok Hi Hm).
Qed.
Local Hint Extern 0 (wp (emit (call_instruction _ _ _ _ _ _)) _ _) =>
  eapply emit_call_spec; assumption : compile.

Lemma compile_call_in_chain_spec callee args ends s :
  good N callee -> Forall (good N) args -> ok s -> Forall (jump_at s) ends ->
  wp (compile_call_in_chain compile_expr compile_call_reference callee args ends) s
    (post s (fun x s' => reg_in s' x.1 /\ Forall (jump_at s') x.2)).
Proof.
  intros Hc Ha Hok He. start. unfold compile_call_in_chain. step. step.
  destruct (_ && _); [step|]. step.
  step to ref_in.
  { destruct (is_super _); [|step; done]. step. step. step. split_and!; [done|apply opt_none|done]. }
  steps. done.
Qed.
Local Hint Extern 0 (wp (compile_call_in_chain _ _ _ _ _) _ _) =>
  eapply compile_call_in_chain_spec; [assumption|assumption|assumption|all_in] : compile.

Lemma compile_call_spec callee args s :
  good N callee -> Forall (good N) args -> ok s ->
  wp (compile_call compile_expr compile_call_reference callee args) s (post s reg).
Proof. intros Hc Ha Hok. start. unfold compile_call. steps. Qed.

(** What a link of a chain needs: at the size of the whole only the function that
    takes it apart is called. *)
Definition chain_good (e : Expr) : Prop :=
  match e with
  | EMember _ _ _ | EOptionalChain _ _ _ => ref_spec compile_call_reference B e
  | ECall callee args => good N callee /\ Forall (good N) args
  | _ => expr_spec compile_expr B e
  end.

Lemma good_chain e : good N e -> chain_good e.
Proof.
  intros He. destruct e; try (by apply Hexpr); try (by apply Href). by apply good_call.
Qed.

Lemma compile_chain_value_spec e ends s :
  chain_good e -> ok s -> Forall (jump_at s) ends ->
  wp (compile_chain_value compile_expr compile_call_reference e ends) s
    (post s (fun x s' => reg_in s' x.1 /\ Forall (jump_at s') x.2)).
Proof.
  intros He Hok Hends. start. unfold compile_chain_value.
  destruct e; cbn in He;
    try (eapply wp_seq; [by apply He|]; intros r s1 H1 G E Hr; rewrite Hsh in E; up G; step; done);
    try (eapply wp_seq; [by apply He|]; intros [[f this] ends'] s1 H1 G E (Hf & Ht & He');
         rewrite Hsh in E; step; done).
  destruct He as [Hc Ha]. step.
Qed.
Local Hint Extern 0 (wp (compile_chain_value _ _ _ _) _ _) =>
  eapply compile_chain_value_spec; [first [assumption|by apply good_chain]|assumption|all_in] : compile.

Lemma compile_chain_expression_spec e s :
  chain_good e -> ok s ->
  wp (compile_chain_expression compile_expr compile_call_reference e) s (post s reg).
Proof. intros He Hok. start. unfold compile_chain_expression. steps. Qed.

Lemma read_member_spec obj p computed s :
  good N p -> ok s -> reg_in s obj ->
  wp (read_member compile_expr obj p computed) s (post s reg).
Proof. intros Hp Hok Ho. start. unfold read_member. steps. Qed.
Local Hint Extern 0 (wp (read_member _ _ _ _) _ _) => eapply read_member_spec; assumption : compile.

(** [compile_call_reference] on [e], with [compile_expr] on the same [e] when the
    step falls through. *)
Definition falls_through (e : Expr) : bool :=
  match e with
  | EMember _ _ _ | EOptionalChain _ _ _ | EParenthesized _ | ECall _ _ => false
  | _ => true
  end.

Lemma wp_opt_mov (dst : Reg) this s :
  ok s -> reg_in s dst -> opt_in s this ->
  wp (match this with Some r => emit (Mov dst r) | None => ret tt end) s (post s keep).
Proof.
  intros Hok Hd Ht. start. destruct this as [r|]; [|step]. apply opt_some in Ht. step.
Qed.

Lemma ref_in_intro f this ends s :
  reg_in s f -> opt_in s this -> Forall (jump_at s) ends -> ref_in (f, this, ends) s.
Proof. by intros. Qed.

Lemma call_reference_step_spec e ends s :
  expr_size e <= N -> expr_ok e = true ->
  (falls_through e = true -> expr_spec compile_expr B e) -> ok s -> Forall (jump_at s) ends ->
  wp (call_reference_step compile_expr compile_call_reference e ends) s (post s ref_in).
Proof.
  intros Hs Ho Hf Hok Hends. start.
  destruct e; cbn [falls_through] in Hf;
    try (specialize (Hf eq_refl); cbn [call_reference_step];
         eapply wp_seq; [by apply Hf|advance]; step; split_and!; [done|apply opt_none|done]).
  - (* EParenthesized *)
    assert (good N e) as He by done. cbn [call_reference_step].
    destruct (negb _); [step|]. step. step. step. step.
    eapply wp_seq; [by apply wp_opt_mov|advance]. step. step.
    apply ref_in_intro; [done| |done]. case_match; [by apply opt_some|apply opt_none].
  - (* EIdentifier *)
    cbn [call_reference_step]. step. destruct r as [x|].
    + eapply wp_seq; [by apply Hf|advance]. step. apply ref_in_intro; [done|apply opt_none|done].
    + steps. apply ref_in_intro; [done|by apply opt_some|done].
  - (* ECall *)
    destruct (good_call_le _ _ _ Hs Ho) as [Hc Ha]. cbn [call_reference_step].
    steps. apply ref_in_intro; [done|apply opt_none|done].
  - (* EMember *)
    destruct (good_two _ _ _ Hs Ho) as [He1 He2]. cbn [call_reference_step].
    destruct (is_super e1); steps; (apply ref_in_intro; [done|by apply opt_some|done]).
  - (* EOptionalChain *)
    destruct (good_two _ _ _ Hs Ho) as [He1 He2]. cbn [call_reference_step].
    destruct (_ && _); steps; (apply ref_in_intro; [done| |]);
      first [done|by apply opt_some|by all_in].
Qed.
End Exprs.
