(* ===== verification/CompileOperatorSpec.v ===== *)
(** Literals, operators and assignments keep the invariant, and with them every
    form of expression. *)
From stdpp Require Import prelude list strings gmap.
From Stdlib Require Import ZArith Lia SpecFloat.
From S2P Require Import Prelude JsString BigInt BigIntText Ast Opcode Verify VerifySpec Compiler CompileClass CompileExpr CompileSpec CompileGrow CompilePrims CompileTactics CompileScopes CompileClassSpec CompileExprSpec.
Import Opcode Compiler Primitives Names CompileClass CompileExpr.
Local Open Scope nat_scope.

Definition good_prop (N : nat) (p : ObjectProp) : Prop := prop_size p < N /\ prop_ok p = true.

Section Exprs.
Context (number_string : spec_float -> Text).
Context (compile_expr : Expr -> M Reg).
Context (compile_call_reference : Expr -> list nat -> M (Reg * option Reg * list nat)).
Context (N B : nat) (HN : N <= S B).
Hypothesis Hexpr : forall e, good N e -> expr_spec compile_expr B e.
Hypothesis Href : forall e, good N e -> ref_spec compile_call_reference B e.
Context (X : list PatchTarget).
Abbreviation ok := (ok X B).
Abbreviation post := (post X B).
Abbreviation reg := (fun (r : Reg) s' => reg_in s' r).

Local Hint Extern 0 (wp (compile_expr _) _ _) => eapply expr_at; eassumption : compile.
Local Hint Extern 0 (wp (compile_call_reference _ _) _ _) =>
  eapply ref_at; [eassumption|assumption|assumption|all_in] : compile.
Local Hint Extern 0 (wp (load_binding _ _) _ _) => eapply load_binding_spec; assumption : compile.
Local Hint Extern 0 (wp (compile_super_property_key _ _) _ _) =>
  eapply compile_super_property_key_spec; eassumption : compile.
Local Hint Extern 0 (wp (compile_super_reference _ _) _ _) =>
  eapply compile_super_reference_spec; eassumption : compile.
Local Hint Extern 0 (wp (compile_chain_value _ _ _ _) _ _) =>
  eapply compile_chain_value_spec;
  [eassumption|eassumption|first [eassumption|eapply good_chain; eassumption]|assumption|all_in]
  : compile.

(** ** Named positions *)

Lemma good_function src named name params body a g c :
  S (S (stmts_size body)) <= N -> templates_ok body = true ->
  good_def B (function_def src named name params body a g c).
Proof. intros H1 H2. split; [exact H2|]. unfold def_size. cbn. lia. Qed.

Lemma good_arrow src name params body a b c d :
  expr_size (EArrowFn b c body d) <= N -> expr_ok (EArrowFn b c body d) = true ->
  good_def B (arrow_def src name params body a).
Proof. intros H1 H2. destruct body; (split; [exact H2|unfold def_size, stmts_size; cbn in *; lia]). Qed.

Lemma good_defer d s :
  good_def B d -> ok s -> wp (defer_function d) s (post s reg).
Proof. intros [H1 H2] Hok. by apply defer_function_spec. Qed.

Lemma built_class_some r code a k :
  code !! a = Some (BuildClass r k : Instr) -> is_Some (built_class r code).
Proof.
  revert a. induction code as [|i code IH]; intros a Ha; [done|]. destruct a as [|a]; cbn in Ha.
  - simplify_eq. cbn. rewrite Nat.eqb_refl. by eexists.
  - destruct (IH a Ha) as [k' E]. destruct i as [| | | | |[]]; cbn; rewrite ?E; eauto.
    destruct (_ =? _); eauto.
Qed.

Lemma built_class_elem r code k : built_class r code = Some k -> (BuildClass r k : Instr) ∈ code.
Proof.
  induction code as [|i code IH]; [done|]. intros E.
  destruct i as [| | | | |[]]; cbn in E; try (right; by apply IH).
  destruct (_ =? _) eqn:Er; [|right; by apply IH]. apply Nat.eqb_eq in Er. simplify_eq. left.
Qed.

(** A class takes the name of its position. *)
Lemma rename_class_spec k t name s :
  ok s -> c_constants s !! k = Some (CClassTemplate t) ->
  wp (modify (fun s => set_constants
       (<[k := CClassTemplate (with_class_name name t)]> (c_constants s)) s)) s (post s keep).
Proof.
  intros Hok Hk. apply wp_modify. set (s1 := set_constants _ s).
  assert (grow s s1) as G.
  { split; [split|..]; cbn; try done. intros j c Hj. destruct (decide (k = j)) as [->|Hne].
    - rewrite Hk in Hj. simplify_eq. exists (CClassTemplate (with_class_name name t)).
      split; [apply list_lookup_insert_eq; by eapply lookup_lt_Some|right; eauto].
    - exists c. split; [by rewrite list_lookup_insert_ne|apply same_const_refl]. }
  split_and!; [|exact G|done|done]. carry (ok_at_grow X B s _ s Hok G).
  - intros j c [(<- & [= <-] & _)|[_ Hj]]%list_lookup_insert_Some; [|by eapply Hclass].
    destruct (Hclass k t Hk) as (A1 & A2 & A3). split_and!; [|done|done].
    destruct A1. by split.
  - intros j f [(_ & ? & _)|[_ Hj]]%list_lookup_insert_Some; [done|by eapply Hfuns].
Qed.

Lemma compile_named_assignment_value_spec value name s :
  good N value -> ok s ->
  wp (compile_named_assignment_value compile_expr compile_call_reference value name) s (post s reg).
Proof.
  intros Hv Hok. start. unfold compile_named_assignment_value.
  pose proof (good_unparenthesized _ _ Hv) as Hu.
  assert (wp (compile_expr value) s (post_at X B sh s reg)) as Hplain by step.
  destruct (unparenthesized value) eqn:Eu; try exact Hplain; destruct Hu as [Hu1 Hu2].
  - (* EArrowFn *)
    eapply wp_tail; [apply good_defer; [eapply good_arrow; [|exact Hu2]; lia|done]|done|done].
  - (* EClassExpr *)
    destruct name0; [exact Hplain|]. cbn in Hu1, Hu2.
    eapply wp_seq; [eapply compile_class_spec; [exact HN|done|done|done|]|].
    { split; [unfold class_size in *; lia|done]. }
    intros r s1 Hok1 _ E1 [Hr Hb]. rewrite Hsh in E1. apply wp_bind, wp_gets.
    destruct Hb as (a & k & Hk).
    assert ((BuildClass r k : Instr) ∈ reverse (c_code s1)) as Hin.
    { apply elem_of_reverse. by eapply list_elem_of_lookup_2. }
    apply list_elem_of_lookup in Hin as [i Hi].
    destruct (built_class_some _ _ _ _ Hi) as [tmpl Etmpl]. rewrite Etmpl. step.
    assert (kst s1 is_class tmpl) as (c & Ec & (t & ->)).
    { apply built_class_elem in Etmpl. rewrite elem_of_reverse in Etmpl.
      apply list_elem_of_lookup in Etmpl as [j Hj].
      pose proof (ok_code _ _ _ _ Hok1 _ _ Hj) as (_ & _ & _ & _ & _ & H). exact H. }
    step. rewrite Ec. step. eapply wp_seq; [by apply rename_class_spec|advance]. step.
  - (* EFnExpr *)
    destruct name0; [exact Hplain|].
    eapply wp_tail; [apply good_defer; [apply good_function; [|exact Hu2]; cbn in Hu1 |- *; unfold stmts_size; lia|done]|done|done].
Qed.
Local Hint Extern 0 (wp (compile_named_assignment_value _ _ _ _) _ _) =>
  eapply compile_named_assignment_value_spec; assumption : compile.

(** ** Objects and arrays *)

Lemma static_entry_in s k v kind :
  kst s is_string k -> reg_in s v -> prop_in s (static_entry k v kind).
Proof. by intros. Qed.

Lemma compile_known_prop_spec display value s :
  good N value -> ok s ->
  wp (compile_known_prop compile_expr compile_call_reference display value) s
    (post s (fun e s' => prop_in s' e)).
Proof. intros Hv Hok. start. unfold compile_known_prop. steps. by apply static_entry_in. Qed.

Lemma compile_method_prop_spec name d kind s :
  good_def B d -> ok s ->
  wp (compile_method_prop name d kind) s (post s (fun e s' => prop_in s' e)).
Proof.
  intros Hd Hok. start. unfold compile_method_prop.
  eapply wp_seq; [by apply good_defer|advance]. steps. by apply static_entry_in.
Qed.

Lemma compile_prop_spec p s :
  good_prop N p -> ok s ->
  wp (compile_prop number_string compile_expr compile_call_reference p) s
    (post s (fun e s' => prop_in s' e)).
Proof.
  intros [Hs Ho] Hok. start.
  destruct p as [n e|n|n e|k e|src k ps body a g x y|src n ps body a g|src n body|src n pm body|e];
    cbn [compile_prop]; cbn [prop_size prop_ok] in Hs, Ho;
    try (eapply wp_tail; [apply compile_method_prop_spec;
      [apply good_function; [unfold stmts_size; lia|done]|done]|done|done]).
  - step.
  - steps. by apply static_entry_in.
  - assert (good N e) as He by (split; [lia|done]).
    step to reg; [destruct (text_eq _ _); step|]. step. step. by apply static_entry_in.
  - destruct (good_two N k e) as [Hk Hv]; [lia|done|].
    assert (wp (bind (compile_expr k) (fun key => bind alloc_reg (fun normalized =>
      bind (emit (PropertyKey normalized key)) (fun _ => bind (compile_expr e) (fun val =>
      bind (if anonymous e then emit (InferName val normalized) else ret tt) (fun _ =>
      ret {| prop_key := Some (KReg normalized); prop_val := val; prop_kind := PData |})))))) s
      (post_at X B sh s (fun e s' => prop_in s' e))) as Hcomputed.
    { step. step. step. step. step to keep; [destruct (anonymous e); step|]. step. done. }
    destruct k; try exact Hcomputed;
      (eapply wp_tail; [by apply compile_known_prop_spec|done|done]).
  - step.
  - assert (good N e) as He by (split; [lia|done]). step. step. step.
    assert (Forall (prop_in s0) [{| prop_key := None; prop_val := r; prop_kind := PSpread |}])
      by (by apply Forall_singleton).
    step. step. done.
Qed.

Lemma compile_object_spec props b s :
  expr_size (EObject props b) <= N -> expr_ok (EObject props b) = true -> ok s ->
  wp (compile_object number_string compile_expr compile_call_reference props) s (post s reg).
Proof.
  intros Hs Ho Hok. start. unfold compile_object.
  eapply wp_seq; [eapply (for_map_spec _ _ _ _ (fun e s' => prop_in s' e)); [| |done]|].
  { intros y s1 s2 G. apply grow_prop, G. }
  { intros p s1 Hp Hok1 _ _. apply compile_prop_spec; [|done]. cbn in Hs, Ho. split.
    - pose proof (sum_le prop_size props p Hp). lia.
    - by eapply forallb_in. }
  intros l s1 Hok1 _ E1 [Hl _]. rewrite Hsh in E1. change (Forall (prop_in s1) l) in Hl. steps.
Qed.

Lemma compile_element_spec e s :
  good N e -> ok s ->
  wp (compile_element compile_expr e) s (post s (fun x s' => entry_in s' true x)).
Proof.
  intros He Hok. start. unfold compile_element.
  assert (wp (bind (compile_expr e) (fun reg =>
    ret {| elision := is_elision e; spread := false; prepared := false; spread_reg := reg |})) s
    (post_at X B sh s (fun x s' => entry_in s' true x))) as Hplain.
  { step. step. by split. }
  destruct e; try exact Hplain. apply good_spread in He. steps. by apply prepared_entry_in.
Qed.

Lemma compile_array_spec items b s :
  expr_size (EArray items b) <= N -> expr_ok (EArray items b) = true -> ok s ->
  wp (compile_array compile_expr items) s (post s reg).
Proof.
  intros Hs Ho Hok. start. unfold compile_array. cbn in Hs, Ho.
  assert (Forall (good N) items) as Hi by (apply good_list; [lia|done]).
  rewrite Forall_forall in Hi. destruct (existsb _ _).
  - eapply wp_seq; [apply (spread_template_spec _ _ _ true); [done|]|advance].
    { intros e s1 He Hok1. apply compile_element_spec; auto. }
    steps.
  - step. each.
    { assert (good N x) by (apply Hi; by eapply list_elem_of_lookup_2).
      apply lookup_lt_Some in Hx. steps. }
    steps.
Qed.

(** ** Operators *)

Lemma compile_binary_spec op a b s :
  good N a -> good N b -> ok s -> wp (compile_binary compile_expr op a b) s (post s reg).
Proof.
  intros Ha Hb Hok. start. unfold compile_binary. destruct (match op with In => _ | _ => _ end).
  { steps. }
  destruct op; steps.
Qed.

Lemma compile_inc_dec_spec op e prefix s :
  good N e -> ok s -> wp (compile_inc_dec compile_expr op e prefix) s (post s reg).
Proof.
  intros He Hok. start. unfold compile_inc_dec.
  pose proof (good_unparenthesized _ _ He) as Hu.
  assert (wp (bind (compile_expr e) (fun _ =>
    bind (intern_string (chars "ReferenceError: invalid assignment target")) (fun msg =>
    bind (emit (Raise msg)) (fun _ => load_undefined)))) s (post_at X B sh s reg)) as Hother by steps.
  assert ((if bool_decide (op = Inc) then 1 else -1)%Z = 1%Z \/
          (if bool_decide (op = Inc) then 1 else -1)%Z = (-1)%Z) as Hdelta
    by (destruct (bool_decide _); auto).
  destruct (unparenthesized e); try exact Hother.
  - step. step. destruct r0 as [x|]; cbn in H0; steps.
  - destruct (good_two N e0_1 e0_2) as [H1 H2]; [destruct Hu; cbn in *; lia|by destruct Hu|].
    destruct e0_1; try (step; step; step; step; step; fail).
    do 7 step. destruct prefix; step.
Qed.

Lemma compile_delete_chain_spec a b optional s :
  chain_good compile_expr compile_call_reference N B a -> good N b -> ok s ->
  wp (compile_delete_chain compile_expr compile_call_reference a b optional) s (post s reg).
Proof.
  intros Ha Hb Hok. start. unfold compile_delete_chain. step. step. step.
  step to (fun l s' => Forall (jump_at s') l).
  { destruct optional; [|step; apply Forall_nil_2]. step. step. by apply Forall_singleton. }
  steps.
Qed.

Lemma compile_delete_spec e s :
  good N e -> ok s ->
  wp (compile_delete compile_expr compile_call_reference e) s (post s reg).
Proof.
  intros He Hok. start. unfold compile_delete.
  assert (wp (bind (compile_expr e) (fun _ => bind const_true (fun index => load_const index))) s
    (post_at X B sh s reg)) as Hother by steps.
  destruct e; try exact Hother.
  - step. step. destruct r0 as [x|]; cbn in H0; steps.
  - destruct (good_two N e1 e2) as [H1 H2]; [destruct He; cbn in *; lia|by destruct He|].
    destruct (continues_optional_chain _).
    { eapply wp_tail; [apply compile_delete_chain_spec; [by eapply good_chain|done|done]|done|done]. }
    destruct (is_super e1); steps.
  - destruct (good_two N e1 e2) as [H1 H2]; [destruct He; cbn in *; lia|by destruct He|].
    eapply wp_tail; [apply compile_delete_chain_spec; [by eapply good_chain|done|done]|done|done].
Qed.

Lemma compile_typeof_spec e s : good N e -> ok s -> wp (compile_typeof compile_expr e) s (post s reg).
Proof.
  intros He Hok. start. unfold compile_typeof.
  assert (wp (bind (compile_expr e) (fun src => bind alloc_reg (fun dst =>
    bind (emit (Unary dst Typeof src)) (fun _ => ret dst)))) s (post_at X B sh s reg)) as Hother by steps.
  destruct (unparenthesized e); try exact Hother.
  step. step. destruct r0 as [x|]; cbn in H0; steps.
Qed.

Lemma compile_unary_spec op e prefix s :
  good N e -> ok s ->
  wp (compile_unary compile_expr compile_call_reference op e prefix) s (post s reg).
Proof.
  intros He%good_unparenthesized Hok. start. unfold compile_unary.
  destruct op; try steps;
    (eapply wp_tail; [first [by apply compile_inc_dec_spec|by apply compile_delete_spec
      |by apply compile_typeof_spec]|done|done]).
Qed.

(** ** Templates *)

Lemma compile_template_spec quasis exprs s :
  expr_size (ETemplate quasis exprs) <= N -> expr_ok (ETemplate quasis exprs) = true -> ok s ->
  wp (compile_template compile_expr quasis exprs) s (post s reg).
Proof.
  intros Hs Ho Hok. start. unfold compile_template. cbn in Hs, Ho.
  apply andb_prop in Ho as [Hq%Nat.eqb_eq Ho].
  assert (Forall (good N) exprs) as Hi by (apply good_list; [lia|done]).
  rewrite Forall_forall in Hi. step.
  step to (fun o s' => exprs = [] \/ exists k, o = Some k /\
    kst s' (eq (CStringList [JsString.default; JsString.default])) k).
  { destruct exprs; [step; by left|]. step. step. right. eauto. }
  step to keep.
  { destruct H0 as [->|(k & -> & Hk)]; [cbn [for_enumerate]; step|]. each.
    assert (good N x) by (apply Hi; by eapply list_elem_of_lookup_2).
    apply lookup_lt_Some in Hx. step. step. step. }
  clear H0. step. step. step. step.
Qed.

Lemma load_part_spec part b s :
  ok s -> wp (load_part part) s (post s (fun e s' => entry_in s' b e)).
Proof.
  intros Hok. start. unfold load_part.
  eapply wp_seq; [apply push_const_spec; [done|by destruct part]|advance].
  assert (kst s0 is_scalar r) as Hr.
  { eapply kst_weaken; [|exact H]. intros c <-. by destruct part. }
  clear H. step. step. by apply plain_entry_in.
Qed.

Lemma load_parts_spec {A} (l : list A) (part : A -> option JsString.JsString) b s :
  ok s ->
  wp (for_map l (fun x => load_part (part x))) s
    (post s (fun x s' => Forall (entry_in s' b) x)).
Proof.
  intros Hok. eapply post_weaken.
  - apply (for_map_spec _ _ _ _ (fun x s' => entry_in s' b x)); [| |done].
    + intros y s1 s2 G. apply grow_entry, G.
    + intros e s1 He Hok1 _ _. by apply load_part_spec.
  - by intros x s' [H _].
Qed.

Lemma compile_tagged_spec site tag cooked raw exprs s :
  expr_size (ETaggedTemplate site tag cooked raw exprs) <= N ->
  expr_ok (ETaggedTemplate site tag cooked raw exprs) = true -> ok s ->
  wp (compile_tagged compile_expr compile_call_reference site tag cooked raw exprs) s (post s reg).
Proof.
  intros Hs Ho Hok. start. unfold compile_tagged. cbn in Hs, Ho.
  apply andb_prop in Ho as [Ht Ho].
  assert (good N tag) as Htag by (split; [lia|done]).
  assert (Forall (good N) exprs) as Hi by (apply good_list; [lia|done]).
  step. step. step. step. eapply wp_seq; [by apply wp_opt_mov|advance]. step. step. step. step.
  eapply wp_seq; [apply (load_parts_spec cooked id true); done|advance]. step. step.
  eapply wp_seq; [apply (load_parts_spec raw Some true); done|advance]. step. step. step. step. step.
  rewrite Forall_forall in Hi. each_map (fun r s' => reg_in s' r); [apply Hi in Hx; step|]. step. step.
  each; [|steps]. pose proof (lookup_lt_Some _ _ _ Hx).
  match goal with Hv : Forall _ ?l, Hj : ?l !! _ = Some _ |- _ =>
    pose proof (Forall_lookup_1 _ _ _ _ Hv Hj) end. step.
Qed.

(** ** Assignment *)

Definition target_of (t : AssignTarget) (s : Compiler) : Prop :=
  match t with
  | TSlot x => slot_in s x
  | TBinding base property name => reg_in s base /\ reg_in s property /\ kst s is_string name
  end.
#[export] Instance upward_target t : Upward (target_of t).
Proof.
  intros s s' G. destruct t; cbn; [apply grow_slot, G|]. intros (H1 & H2 & H3).
  split_and!; [by eapply grow_reg; [apply G|]|by eapply grow_reg; [apply G|]|by eapply up_kst; [apply _|..]].
Qed.

Lemma write_target_spec t src s :
  ok s -> target_of t s -> reg_in s src -> wp (write_target t src) s (post s keep).
Proof.
  intros Hok Ht Hs. start. destruct t; cbn in Ht; cbn [write_target]; [step|].
  destruct Ht as (H1 & H2 & H3). step.
Qed.
Local Hint Extern 0 (wp (write_target _ _) _ _) => eapply write_target_spec; assumption : compile.

Lemma read_name_spec name b current s :
  ok s -> binding_in s b -> reg_in s current ->
  wp (read_name name b current) s (post s target_of).
Proof.
  intros Hok Hb Hc. start. destruct b; cbn in Hb; cbn [read_name]; [steps|].
  step. step. step. step. step. done.
Qed.
Local Hint Extern 0 (wp (read_name _ _ _) _ _) => eapply read_name_spec; assumption : compile.

Lemma read_property_spec a b computed s :
  good N a -> good N b -> ok s ->
  wp (read_property compile_expr a b computed) s
    (post s (fun x s' => reg_in s' x.1.1.1 /\ reg_in s' x.1.1.2 /\ reg_in s' x.1.2)).
Proof.
  intros Ha Hb Hok. start. unfold read_property. step. step. step.
  step to reg; [destruct (_ && _); steps|]. steps. done.
Qed.
Local Hint Extern 0 (wp (read_property _ _ _ _) _ _) => eapply read_property_spec; eassumption : compile.

Lemma bin_op_ok op bin : bin_op op = Some bin -> bin <> And /\ bin <> Or /\ bin <> Nullish /\ bin <> Comma.
Proof. destruct op; intros [= <-]; split_and!; discriminate. Qed.

Lemma compile_super_assignment_spec p op value s :
  good N p -> good N value -> ok s ->
  wp (compile_super_assignment compile_expr p op value) s (post s reg).
Proof.
  intros Hp Hv Hok. start. unfold compile_super_assignment.
  step to (fun x s' => reg_in s' x.1.1 /\ reg_in s' x.1.2 /\ reg_in s' x.2).
  { destruct op; try step. do 7 step. done. }
  step to (fun o s' => opt_in s' o /\ (bin_op op = None \/ is_Some o)).
  { destruct (bin_op op); [step; step; step|step].
    - split; [by apply opt_some|right; eauto].
    - split; [apply opt_none|by left]. }
  step. step to reg.
  { destruct (bin_op op) as [bin|] eqn:Eop; [|step].
    match goal with Ho : Some _ = None \/ _, Hi : opt_in _ _ |- _ =>
      destruct Ho as [?|[current ->]]; [done|]; apply opt_some in Hi end.
    apply bin_op_ok in Eop. steps. }
  step to reg; [destruct op; steps|]. steps.
Qed.

Lemma compile_compound_assignment_spec target op bin value s :
  bin_op op = Some bin -> good N target -> good N value -> ok s ->
  wp (compile_compound_assignment compile_expr target bin value) s (post s reg).
Proof.
  intros Hop%bin_op_ok Ht Hv Hok. start. unfold compile_compound_assignment.
  destruct target; try step.
  - steps.
  - destruct (good_two N target1 target2) as [H1 H2]; [destruct Ht; cbn in *; lia|by destruct Ht|].
    steps.
Qed.

Lemma compile_other_assignment_spec target op value s :
  good N target -> good N value -> ok s ->
  wp (compile_other_assignment compile_expr target op value) s (post s reg).
Proof.
  intros Ht Hv Hok. start. unfold compile_other_assignment. step.
  destruct target; try step.
  - step. destruct r1 as [x|]; cbn in H1; destruct op; steps.
  - destruct (good_two N target1 target2) as [H1 H2]; [destruct Ht; cbn in *; lia|by destruct Ht|].
    destruct (is_super _); [eapply wp_tail; [by apply raise_bare_super_spec|done|done]|].
    step. step. destruct op; steps.
Qed.

Lemma compile_assignment_spec written op value s :
  good N written -> good N value -> ok s ->
  wp (compile_assignment compile_expr compile_call_reference written op value) s (post s reg).
Proof.
  intros Hw Hv Hok. start. unfold compile_assignment.
  pose proof (good_unparenthesized _ _ Hw) as Hu. set (ident := match written with EIdentifier _ => true | _ => false end).
  clearbody ident.
  assert (wp (match bin_op op with
    | Some bin => compile_compound_assignment compile_expr (unparenthesized written) bin value
    | None => compile_other_assignment compile_expr (unparenthesized written) op value
    end) s (post_at X B sh s reg)) as Hother.
  { destruct (bin_op op) eqn:Eop; (eapply wp_tail;
      [first [by eapply compile_compound_assignment_spec|by apply compile_other_assignment_spec]|done|done]). }
  destruct (unparenthesized written); try exact Hother.
  - destruct (bin_op op); [exact Hother|]. step.
    step to target_of; [destruct r as [x|]; cbn in H; steps; done|].
    step to reg; [destruct ident; step|]. steps.
  - destruct (good_two N e1 e2) as [H1 H2]; [destruct Hu; cbn in *; lia|by destruct Hu|].
    assert (bin_op op = None -> wp (bind (compile_expr e1) (fun obj =>
      bind (compile_expr e2) (fun raw_key => bind (compile_expr value) (fun rhs =>
      bind (emit (WriteAssignmentProperty obj raw_key rhs (negb computed && private_key e2)))
        (fun _ => ret rhs))))) s (post_at X B sh s reg)) as Hmember by (intros _; steps).
    destruct e1; try (destruct (bin_op op); [exact Hother|exact (Hmember eq_refl)]).
    eapply wp_tail; [by apply compile_super_assignment_spec|done|done].
Qed.

Lemma logical_skip_jump_spec op r s :
  ok s -> reg_in s r -> wp (logical_skip_jump op r) s (post s (fun a s' => jump_at s' a)).
Proof. intros Hok Hr. start. destruct op; cbn [logical_skip_jump]; step. Qed.
Local Hint Extern 0 (wp (logical_skip_jump _ _) _ _) => eapply logical_skip_jump_spec; assumption : compile.

Lemma compile_logical_assignment_spec written op value s :
  good N written -> good N value -> ok s ->
  wp (compile_logical_assignment compile_expr compile_call_reference written op value) s (post s reg).
Proof.
  intros Hw Hv Hok. start. unfold compile_logical_assignment. step.
  set (infer := match written with EIdentifier _ => true | _ => false end). clearbody infer.
  pose proof (good_unparenthesized _ _ Hw) as Hu.
  destruct (unparenthesized written); try step.
  - step. step. step. step. step to reg; [destruct infer; step|]. steps.
  - destruct (good_two N e1 e2) as [H1 H2]; [destruct Hu; cbn in *; lia|by destruct Hu|].
    destruct e1; steps.
Qed.

(** ** Expressions *)

Lemma compile_conditional_spec a b c s :
  good N a -> good N b -> good N c -> ok s ->
  wp (compile_conditional compile_expr a b c) s (post s reg).
Proof. intros Ha Hb Hc Hok. start. unfold compile_conditional. steps. Qed.

Lemma compile_new_spec callee args s :
  good N callee -> Forall (good N) args -> ok s -> wp (compile_new compile_expr callee args) s (post s reg).
Proof.
  intros Hc Ha Hok. start. unfold compile_new. step.
  eapply wp_seq; [by eapply compile_call_arguments_spec|advance]. step.
  step to keep; [|step].
  match goal with H : args_in ?a _ |- _ => destruct a; cbn in H end; [step|].
  match goal with H : exists l, _ |- _ => destruct H as (l & Hk & Hl) end. step.
Qed.

Lemma load_new_const_spec c s :
  is_scalar c -> pushable c -> ok s -> wp (load_new_const c) s (post s reg).
Proof.
  intros Hc Hp Hok. start. unfold load_new_const.
  eapply wp_seq; [by apply push_const_spec|advance].
  assert (kst s0 is_scalar r) by (eapply kst_weaken; [|done]; by intros ? <-). step.
Qed.

(** The size of the whole is enough for a member to take it apart, and for
    anything else to fall through. *)
Definition is_chain (e : Expr) : bool :=
  match e with EMember _ _ _ | EOptionalChain _ _ _ => true | _ => false end.

Lemma chain_expression_spec e s :
  is_chain e = true -> ref_spec compile_call_reference B e -> ok s ->
  wp (compile_chain_expression compile_expr compile_call_reference e) s (post s reg).
Proof. intros He Hr Hok. eapply compile_chain_expression_spec; [done|done|by destruct e|done]. Qed.

Lemma compile_member_expr_spec a b computed s :
  expr_size (EMember a b computed) <= N -> expr_ok (EMember a b computed) = true ->
  ref_spec compile_call_reference B (EMember a b computed) -> ok s ->
  wp (CompileExpr.compile_member compile_expr compile_call_reference (EMember a b computed) a b
    computed) s (post s reg).
Proof.
  intros Hs Ho Hr Hok. start. destruct (good_two _ _ _ Hs Ho) as [Ha Hb].
  unfold CompileExpr.compile_member. destruct (continues_optional_chain _).
  { eapply wp_tail; [by apply chain_expression_spec|done|done]. }
  destruct (is_super a); [steps|]. step. eapply wp_tail; [by eapply read_member_spec|done|done].
Qed.

Local Hint Extern 0 (wp (load_new_const _) _ _) =>
  eapply load_new_const_spec; [exact I|exact I|assumption] : compile.

Ltac form H := eapply wp_tail; [eapply H; try eassumption|eassumption|trivial].

Lemma expr_step_spec e s :
  expr_size e <= N -> expr_ok e = true ->
  (is_chain e = true -> ref_spec compile_call_reference B e) -> ok s ->
  wp (expr_step number_string compile_expr compile_call_reference e) s (post s reg).
Proof.
  intros Hs Ho Hc Hok. start. unfold expr_step. destruct (private_write e); [step|].
  destruct e.
  - assert (good N e) by (split; [cbn in Hs; lia|done]). step.
  - assert (good N e) by (split; [cbn in Hs; lia|done]). step.
  - steps.
  - pose proof (parse_no_panic digits) as Hp. destruct (BigInt.parse digits); [step|step|done].
  - step.
  - step.
  - step. step.
  - destruct b; steps.
  - steps.
  - step.
  - step.
  - form compile_identifier_spec.
  - form compile_array_spec.
  - form compile_object_spec.
  - destruct (good_two _ _ _ Hs Ho) as [Ha Hb]. form compile_binary_spec.
  - assert (good N e) by (split; [cbn in Hs; lia|done]). form compile_unary_spec.
  - destruct (good_call_le _ _ _ Hs Ho) as [Hf Ha]. destruct (continues_optional_chain _).
    + eapply wp_tail; [eapply compile_chain_expression_spec; [done|done|by split|done]|done|done].
    + form compile_call_spec.
  - form compile_member_expr_spec. by apply Hc.
  - form compile_tagged_spec.
  - destruct (good_two _ _ _ Hs Ho) as [Ha Hb]. form compile_assignment_spec.
  - destruct (good_two _ _ _ Hs Ho) as [Ha Hb]. form compile_logical_assignment_spec.
  - cbn in Hs, Ho. rewrite !andb_true_iff in Ho. destruct Ho as [[? ?] ?].
    form compile_conditional_spec; (split; [lia|done]).
  - eapply wp_tail; [apply good_defer; [by eapply good_arrow|done]|done|done].
  - eapply wp_tail; [eapply compile_class_spec; [exact HN|done|done|done|]|done|by intros ? ? ? []].
    cbn in Hs, Ho. split; [unfold class_size in *; lia|done].
  - eapply wp_tail; [apply good_defer; [apply good_function; [cbn in Hs; unfold stmts_size; lia|done]|done]|done|done].
  - destruct (good_call_le N e args Hs Ho) as [Hf Ha]. form compile_new_spec.
  - assert (good N e) by (split; [cbn in Hs; lia|done]). step.
  - form compile_this_spec.
  - form raise_bare_super_spec.
  - unfold emit_into. steps.
  - unfold emit_into. steps.
  - destruct options; [step|]. destruct (negb _); [step|].
    assert (good N e) by (cbn in Hs, Ho; rewrite andb_true_r in Ho; split; [lia|done]).
    unfold emit_into. steps.
  - form compile_template_spec.
  - eapply wp_tail; [by apply chain_expression_spec; [..|apply Hc|]|done|done].
  - assert (good N e) by (split; [cbn in Hs; lia|done]). unfold emit_into. steps.
  - step.
  - step.
Qed.
End Exprs.
