(* ===== verification/CompileHoistSpec.v ===== *)
(** Hoisting, binding patterns, declarations and iteration heads keep the
    invariant. *)
From stdpp Require Import prelude list strings gmap.
From Stdlib Require Import ZArith Lia SpecFloat.
From S2P Require Import Prelude JsString BigInt Ast Opcode Verify VerifySpec Compiler CompileClass CompileExpr CompileStmt CompileSpec CompileGrow CompilePrims CompileTactics CompileScopes CompileClassSpec CompileExprSpec CompileOperatorSpec.
Import Opcode Compiler Primitives Names CompileClass CompileExpr CompileStmt.
Local Open Scope nat_scope.

(** The arms of a conditional. *)
Ltac branch := match goal with |- wp (if ?b then _ else _) _ _ => destruct b end.

(** ** Hoisted functions *)

(** A hoisted declaration is part of the list it comes from. *)
Definition decl_within (n : nat) (d : FnDeclRef) : Prop :=
  templates_ok (decl_body d) = true /\ S (S (stmts_size (decl_body d))) <= n.

Lemma fn_decl_within s d : stmt_ok s = true -> d ∈ fn_decl s -> decl_within (stmt_size s) d.
Proof.
  destruct s; cbn [fn_decl]; try (by intros _ ?%not_elem_of_nil).
  intros Ho ->%list_elem_of_singleton. split; [done|]. unfold stmts_size. cbn. lia.
Qed.

Lemma fn_decls_within n : forall s d,
  stmt_size s <= n -> stmt_ok s = true -> d ∈ fn_decls s -> decl_within (stmt_size s) d.
Proof.
  induction n as [|n IH]; intros s d Hs Ho Hd; [destruct s; cbn in Hs; lia|].
  destruct s; cbn [fn_decls] in Hd; try (by apply not_elem_of_nil in Hd).
  - by apply fn_decl_within.
  - cbn in Hs, Ho. apply list_elem_of_In, in_flat_map in Hd as (s & Hin & Hd).
    apply list_elem_of_In in Hin, Hd. pose proof (sum_le stmt_size _ _ Hin).
    destruct (IH s d) as [H1 H2]; [lia|by eapply forallb_in|done|]. split; [done|cbn; lia].
  - assert (forall s f, labeled_function s = Some f -> stmt_ok s = true ->
      stmt_ok f = true /\ stmt_size f <= stmt_size s) as Hl.
    { fix Hl 1. intros [] f E Hok; cbn in E; try done; [injection E as <-; cbn in *; split; (done || lia)|].
      destruct (Hl _ _ E Hok). cbn in *. split; [done|lia]. }
    destruct (labeled_function _) as [f|] eqn:E; [|by apply not_elem_of_nil in Hd].
    destruct (Hl _ _ E Ho) as [H1 H2]. destruct (fn_decl_within f d H1 Hd). split; [done|lia].
Qed.

Lemma block_fn_decls_good N B stmts d :
  N <= S B -> stmts_size stmts < N -> templates_ok stmts = true -> d ∈ block_fn_decls stmts ->
  good_def B (decl_def d).
Proof.
  intros HN Hs Ho Hd. apply list_elem_of_In, in_flat_map in Hd as (s & Hin & Hd).
  apply list_elem_of_In in Hin, Hd. pose proof (sum_le stmt_size _ _ Hin). unfold stmts_size in Hs.
  destruct (fn_decls_within _ s d (le_n _)) as [H1 H2]; [by eapply forallb_in|done|].
  apply (good_function N B HN); [|done]. cbn. lia.
Qed.

Lemma emit_global_spec X B make name s :
  ok X B s ->
  (forall s' k, grow s s' -> kst s' is_string k -> instr_in s' (make k)) ->
  (forall k, no_make (make k)) -> wp (emit_global make name) s (post X B s keep).
Proof.
  intros Hok Hi Hm. start. unfold emit_global.
  eapply wp_seq; [by apply intern_string_spec|]. intros k s1 Hok1 G E Hk. rewrite Hsh in E.
  eapply wp_tail; [apply emit_spec; [done|by apply Hi|done]|done|done].
Qed.
#[export] Hint Extern 0 (wp (emit_global _ _) _ _) =>
  eapply emit_global_spec;
  [assumption
  |let s1 := fresh "s" in let k := fresh "k" in let G := fresh "G" in
   intros s1 k G ?; up G; instr
  |intros; exact I] : compile.

Section Hoist.
Context (N B : nat) (HN : N <= S B) (X : list PatchTarget).
Abbreviation ok := (ok X B).
Abbreviation post := (post X B).

Lemma define_dead_spec name kind s : ok s -> wp (define_dead name kind) s (post s keep).
Proof. intros Hok. start. unfold define_dead. steps. Qed.

Lemma note_annex_spec a name b s :
  ok s -> binding_in s b -> wp (note_annex a name b) s (post s keep).
Proof.
  intros Hok Hb. apply wp_modify. match goal with |- post _ _ _ ?s' => set (s1 := s') end.
  assert (grow s s1) as G by (by apply grow_same).
  split_and!; [|exact G|done|done]. carry (ok_at_grow X B s _ s Hok G).
  by apply map_Forall_insert_2.
Qed.
End Hoist.
#[export] Hint Extern 0 (wp (define_dead _ _) _ _) => eapply define_dead_spec; assumption : compile.
#[export] Hint Extern 0 (wp (note_annex _ _ _) _ _) =>
  eapply note_annex_spec; [assumption|first [exact I|assumption]] : compile.

Section HoistLists.
Context (N B : nat) (HN : N <= S B) (X : list PatchTarget).
Abbreviation ok := (ok X B).
Abbreviation post := (post X B).

Lemma defer_decl_spec stmts d s :
  stmts_size stmts < N -> templates_ok stmts = true -> d ∈ block_fn_decls stmts -> ok s ->
  wp (defer_function (decl_def d)) s (post s (fun r s' => reg_in s' r)).
Proof. intros Hs Ho Hd Hok. apply good_defer; [|done]. by eapply block_fn_decls_good. Qed.
Local Hint Extern 0 (wp (defer_function (decl_def _)) _ _) => eapply defer_decl_spec; eassumption : compile.

Lemma hoist_top_spec stmts s :
  stmts_size stmts < N -> templates_ok stmts = true -> ok s -> wp (hoist_top stmts) s (post s keep).
Proof.
  intros Hs Ho Hok. start. unfold hoist_top.
  each; [steps|]. each; [steps|]. each; [steps|]. each. steps.
Qed.

Lemma declare_params_spec params s : ok s -> wp (declare_params params) s (post s keep).
Proof. intros Hok. start. unfold declare_params. each. steps. Qed.

Lemma hoist_body_spec params body s :
  stmts_size body < N -> templates_ok body = true -> ok s ->
  wp (hoist_body params body) s (post s keep).
Proof.
  intros Hs Ho Hok. start. unfold hoist_body.
  each; [steps|]. each; [steps|]. each; [steps|]. each.
  step. step. step. destruct (bool_decide _); step.
Qed.

Lemma declare_lexical_spec name kind s : ok s -> wp (declare_lexical name kind) s (post s keep).
Proof.
  intros Hok. start. unfold declare_lexical, is_boxed_here. step. branch; steps.
Qed.
Local Hint Extern 0 (wp (declare_lexical _ _) _ _) => eapply declare_lexical_spec; assumption : compile.

Lemma hoist_block_spec stmts s :
  stmts_size stmts < N -> templates_ok stmts = true -> ok s -> wp (hoist_block stmts) s (post s keep).
Proof.
  intros Hs Ho Hok. start. unfold hoist_block, is_boxed_here. each; [steps|]. each.
  step. step. branch; steps.
Qed.
End HoistLists.

(** ** Patterns *)

Section Patterns.
Context (compile_expr : Expr -> M Reg).
Context (compile_call_reference : Expr -> list nat -> M (Reg * option Reg * list nat)).
Context (N B : nat) (HN : N <= S B).
Hypothesis Hexpr : forall e, good N e -> expr_spec compile_expr B e.
Hypothesis Href : forall e, good N e -> ref_spec compile_call_reference B e.
Context (X : list PatchTarget).
Abbreviation ok := (ok X B).
Abbreviation post := (post X B).
Abbreviation reg := (fun (r : Reg) s' => reg_in s' r).

Local Hint Extern 0 (wp (compile_expr _) _ _) => eapply expr_at; eassumption : compile.
Local Hint Extern 0 (wp (compile_super_reference _ _) _ _) =>
  eapply compile_super_reference_spec; eassumption : compile.
Local Hint Extern 0 (wp (compile_named_assignment_value _ _ _ _) _ _) =>
  eapply compile_named_assignment_value_spec; eassumption : compile.
Local Hint Extern 0 (wp (declare_lexical _ _) _ _) => eapply declare_lexical_spec; assumption : compile.

Lemma compile_pattern_ident_spec name src is_var s :
  ok s -> reg_in s src -> wp (compile_pattern_ident name src is_var) s (post s keep).
Proof.
  intros Hok Hr. start. unfold compile_pattern_ident. step.
  destruct is_var, r as [x|]; cbn in H; step.
Qed.
Local Hint Extern 0 (wp (compile_pattern_ident _ _ _) _ _) =>
  eapply compile_pattern_ident_spec; assumption : compile.

Lemma compile_default_spec val e s :
  good N e -> ok s -> reg_in s val -> wp (compile_default compile_expr val e) s (post s reg).
Proof. intros He Hok Hv. start. unfold compile_default. steps. Qed.

Definition good_key (k : PatternKey) : Prop := match k with KComputed e => good N e | _ => True end.

Lemma compile_pattern_key_spec k s :
  good_key k -> ok s -> wp (compile_pattern_key compile_expr k) s (post s reg).
Proof. intros Hk Hok. start. destruct k; cbn in Hk; cbn [compile_pattern_key]; steps. Qed.
Local Hint Extern 0 (wp (compile_pattern_key _ _) _ _) =>
  eapply compile_pattern_key_spec; assumption : compile.

Lemma read_key_spec a b s : ok s -> reg_in s a -> reg_in s b -> wp (read_key a b) s (post s reg).
Proof. intros Hok Ha Hb. start. unfold read_key. steps. Qed.
Local Hint Extern 0 (wp (read_key _ _) _ _) => eapply read_key_spec; assumption : compile.

Lemma compile_rest_object_spec checked taken s :
  ok s -> reg_in s checked -> Forall (reg_in s) taken ->
  wp (compile_rest_object checked taken) s (post s reg).
Proof.
  intros Hok Hc Ht. start. unfold compile_rest_object.
  assert (Forall (entry_in s true) (map plain_entry taken)).
  { apply Forall_map. eapply Forall_impl; [exact Ht|]. intros r. apply plain_entry_in. }
  steps.
Qed.

Lemma compile_pattern_member_spec a b private val s :
  good N a -> good N b -> ok s -> reg_in s val ->
  wp (compile_pattern_member compile_expr a b private val) s (post s keep).
Proof.
  intros Ha Hb Hok Hv. start. unfold compile_pattern_member. branch; [step|]. branch; steps.
Qed.

Section Properties.
Context (view : Pattern -> Reg -> M unit) (is_var : bool) (fine : Pattern -> Prop).
Hypothesis Hview : forall p val s, fine p -> ok s -> reg_in s val -> wp (view p val) s (post s keep).

Lemma compile_pattern_property_spec checked key sub s :
  good_key key -> (forall p, sub = Some p -> fine p) ->
  ok s -> reg_in s checked ->
  wp (compile_pattern_property compile_expr view is_var checked key sub) s (post s reg).
Proof.
  intros Hk Hp Hok Hc. start. unfold compile_pattern_property. step. step.
  step to keep; [|step]. destruct sub as [p|]; [|destruct key; step].
  eapply wp_tail; [apply Hview; auto|done|done].
Qed.

Lemma compile_pattern_properties_spec checked props : forall taken s,
  Forall (fun x : PatternKey * option Pattern => good_key x.1 /\
    forall p, x.2 = Some p -> fine p /\ forall inner, p = PRest inner -> fine inner) props ->
  ok s -> reg_in s checked -> Forall (reg_in s) taken ->
  wp (compile_pattern_properties compile_expr view is_var checked taken props) s (post s keep).
Proof.
  induction props as [|[key sub] props IH]; intros taken s Hp Hok Hc Ht; start;
    cbn [compile_pattern_properties]; [step|].
  apply Forall_cons in Hp as [[Hk Hsub] Hp]. cbn [fst snd] in *.
  assert (wp (bind (compile_pattern_property compile_expr view is_var checked key sub) (fun key_reg =>
    compile_pattern_properties compile_expr view is_var checked (taken ++ [key_reg]) props)) s
    (post_at X B sh s keep)) as Hordinary.
  { eapply wp_seq; [apply compile_pattern_property_spec; try done|advance].
    { intros p E. by apply Hsub. }
    eapply wp_tail; [apply IH; [done|done|done|]|done|done]. by all_in. }
  destruct key as [name|]; [|exact Hordinary].
  destruct sub as [[]|]; try exact Hordinary. branch; [|exact Hordinary].
  eapply wp_seq; [by apply compile_rest_object_spec|advance].
  eapply wp_seq; [apply Hview; [|done|done]|advance].
  { by eapply Hsub. }
  eapply wp_tail; [by apply IH|done|done].
Qed.
End Properties.

(** A pattern the compiler takes on, within the bound. *)
Definition fine (n : nat) (p : Pattern) : Prop :=
  pattern_size p <= n /\ pattern_size p < N /\ pattern_ok p = true /\
  pattern_requires_evaluator p = false.

Lemma fine_object n props :
  fine (S n) (PObject props) ->
  Forall (fun x : PatternKey * option Pattern => good_key x.1 /\
    forall p, x.2 = Some p -> fine n p /\ forall inner, p = PRest inner -> fine n inner) props.
Proof.
  intros (Hn & Hs & Ho & Hr). cbn in Hn, Hs, Ho, Hr. apply Forall_forall. intros [key sub] Hx.
  pose proof (sum_le (fun '(key, sub) => match key with KComputed e => expr_size e | KName _ => 0 end
    + opt_size pattern_size sub) props _ Hx) as Hle. cbn in Hle.
  pose proof (forallb_in _ _ _ Ho Hx) as Hok. cbn in Hok. apply andb_prop in Hok as [Hk Hsub].
  assert (some_such pattern_requires_evaluator sub = false) as Hsr.
  { destruct (some_such _ sub) eqn:E; [|done]. rewrite <- Hr. symmetry. apply existsb_exists.
    exists (key, sub). split; [by apply list_elem_of_In|done]. }
  cbn [fst snd]. split; [destruct key; [done|split; [lia|done]]|].
  intros p ->. cbn in Hle, Hsub, Hsr. split; [unfold fine; split_and!; (done || lia)|].
  intros inner ->. cbn in Hle, Hsub, Hsr. unfold fine. split_and!; (done || lia).
Qed.

Lemma compile_pattern_view_spec n : forall p val is_var s,
  fine n p -> ok s -> reg_in s val ->
  wp (compile_pattern_view compile_expr p val is_var) s (post s keep).
Proof.
  induction n as [|n IH]; intros p val is_var s Hf Hok Hv; [destruct Hf, p; cbn in *; lia|].
  start. destruct p as [|name|items|props|inner|inner default|a b private];
    cbn [compile_pattern_view].
  - step.
  - step.
  - by destruct Hf as (_ & _ & _ & ?).
  - step. step. eapply wp_tail; [|eassumption|done].
    apply (compile_pattern_properties_spec _ _ (fine n)); [|by apply fine_object|done|done|apply Forall_nil_2].
    intros. by apply IH.
  - step.
  - destruct Hf as (Hn & Hs & Ho & Hr). cbn in Hn, Hs, Ho, Hr.
    apply andb_prop in Ho as [Ho1 Ho2]. apply orb_false_iff in Hr as [Hr1 Hr2].
    eapply wp_seq; [apply compile_default_spec; [split; [lia|done]|done|done]|advance].
    eapply wp_tail; [apply IH; [unfold fine; split_and!; (done || lia)|done|done]|done|done].
  - destruct Hf as (Hn & Hs & Ho & Hr). cbn in Hn, Hs, Ho. apply andb_prop in Ho as [Ho1 Ho2].
    eapply wp_tail; [apply compile_pattern_member_spec; [split; [lia|done]|split; [lia|done]|done|done]|done|done].
Qed.

Definition good_pattern (p : Pattern) : Prop := pattern_size p < N /\ pattern_ok p = true.

Lemma compile_destructure_spec p val is_var s :
  good_pattern p -> ok s -> reg_in s val ->
  wp (compile_destructure compile_expr p val is_var) s (post s keep).
Proof.
  intros [Hs Ho] Hok Hv. unfold compile_destructure.
  destruct (pattern_requires_evaluator p) eqn:E; [done|].
  by apply (compile_pattern_view_spec (pattern_size p)).
Qed.
Local Hint Extern 0 (wp (compile_destructure _ _ _ _) _ _) =>
  eapply compile_destructure_spec; assumption : compile.

(** ** Declarations *)

Definition good_opt (e : option Expr) : Prop := forall x, e = Some x -> good N x.

Lemma compile_initializer_spec e name s :
  good_opt e -> ok s ->
  wp (compile_initializer compile_expr compile_call_reference e name) s (post s reg).
Proof.
  intros He Hok. start. destruct e as [e|]; cbn [compile_initializer]; [|step].
  specialize (He e eq_refl). step.
Qed.
Local Hint Extern 0 (wp (compile_initializer _ _ _ _) _ _) =>
  eapply compile_initializer_spec; assumption : compile.

Lemma compile_var_decl_spec kind name e p s :
  good_opt e -> (forall x, p = Some x -> good_pattern x) -> ok s ->
  wp (compile_var_decl compile_expr compile_call_reference kind name e p) s (post s reg).
Proof.
  intros He Hp Hok. start. unfold compile_var_decl. destruct p as [p|].
  - specialize (Hp p eq_refl).
    step to reg; [destruct e as [e|]; [specialize (He e eq_refl)|]; step|]. steps.
  - step. step to keep; [|step]. destruct (is_var kind), r as [x|]; cbn in H; [..|steps|steps];
      (destruct e; [|steps]); steps.
Qed.

Lemma require_env_module_binding_spec names s :
  ok s -> wp (require_env_module_binding names) s (post s keep).
Proof.
  intros Hok. start. unfold require_env_module_binding. step. branch; [step|]. each.
  step. destruct r; step.
Qed.

(** ** Iteration heads *)

Lemma define_iteration_head_spec names kind s :
  ok s -> wp (define_iteration_head names kind) s (post s keep).
Proof. intros Hok. start. unfold define_iteration_head. each. step. Qed.
Local Hint Extern 0 (wp (define_iteration_head _ _) _ _) =>
  eapply define_iteration_head_spec; assumption : compile.

Lemma reset_iteration_head_spec names kind s :
  ok s -> wp (reset_iteration_head names kind) s (post s keep).
Proof. intros Hok. start. unfold reset_iteration_head. branch; steps. Qed.
End Patterns.
