(* ===== verification/CompileBlockSpec.v ===== *)
(** Blocks, abrupt exits and protected regions keep the invariant.

    A statement is bounded together with the cleanups around it: leaving through
    a [finally] compiles its body again. *)
From stdpp Require Import prelude list strings gmap.
From Stdlib Require Import ZArith Lia SpecFloat.
From S2P Require Import Prelude JsString BigInt Ast Opcode Verify VerifySpec Compiler CompileClass CompileExpr CompileStmt CompileSpec CompileGrow CompilePrims CompileTactics CompileScopes CompileClassSpec CompileExprSpec CompileOperatorSpec CompileHoistSpec.
Import Opcode Compiler Primitives Names CompileClass CompileExpr CompileStmt.
Local Open Scope nat_scope.

(** Something of size [n] inside [sh] is within the bound [N]. *)
Definition fits (N n : nat) (sh : Shape) : Prop :=
  n + unwind_size (sh_unwind sh) < N /\ depths_ok sh.

Lemma fits_le N n n' sh : fits N n sh -> n' <= n -> fits N n' sh.
Proof. intros [H1 H2] H. split; [lia|done]. Qed.
Lemma fits_lt N n sh : fits N n sh -> n < N.
Proof. intros [H1 _]. lia. Qed.
Lemma fits_unwind N n u sh : fits N (n + ctx_size u) sh -> fits N n (in_unwind u sh).
Proof.
  intros [H1 H2]. split; [|exact H2]. unfold unwind_size in *. cbn.
  rewrite sum_list_with_app. cbn. lia.
Qed.
Lemma fits_scope N n t b m sh : fits N n sh -> fits N n (in_scope t b m sh).
Proof.
  intros H. unfold in_scope. destruct t; [apply fits_unwind; by rewrite Nat.add_0_r|exact H].
Qed.
Lemma fits_completion N n c sh : fits N n sh -> fits N n (in_completion c sh).
Proof.
  intros [H1 H2]. split; [exact H1|]. eapply Forall_impl; [exact H2|]. cbn. intros k Hk.
  rewrite length_app. lia.
Qed.
Lemma fits_loop N n ls k c sh : fits N n sh -> fits N n (in_completion c (in_loop ls k sh)).
Proof.
  intros [H1 H2]. split; [exact H1|]. apply Forall_app_2.
  - eapply Forall_impl; [exact H2|]. cbn. intros j Hj. rewrite length_app. lia.
  - apply Forall_singleton. cbn. rewrite length_app. cbn. lia.
Qed.

#[export] Instance upward_ctxs l : Upward (fun s => Forall (ctx_in s) l).
Proof. intros s s' G H. eapply Forall_impl; [exact H|]. intros u. apply grow_ctx, G. Qed.

Ltac fit :=
  lazymatch goal with
  | |- fits _ _ (shape ?s) => try match goal with E : shape s = _ |- _ => rewrite E end
  | _ => idtac
  end;
  repeat first [apply fits_scope|apply fits_loop|apply fits_completion|apply fits_unwind];
  eapply fits_le; [eassumption|cbn [ctx_size]; lia].

Section Blocks.
Context (compile_expr : Expr -> M Reg).
Context (compile_call_reference : Expr -> list nat -> M (Reg * option Reg * list nat)).
Context (compile_stmt : Statement -> M Reg).
Context (N B : nat) (HN : N <= S B).
Hypothesis Hexpr : forall e, good N e -> expr_spec compile_expr B e.
Hypothesis Href : forall e, good N e -> ref_spec compile_call_reference B e.
Definition stmt_spec (st : Statement) : Prop :=
  forall X s, fits N (stmt_size st) (shape s) -> ok X B s ->
    wp (compile_stmt st) s (post X B s (fun r s' => reg_in s' r)).
Hypothesis Hstmt : forall st, stmt_ok st = true -> stmt_spec st.
Context (X : list PatchTarget).
Abbreviation ok := (ok X B).
Abbreviation post := (post X B).
Abbreviation reg := (fun (r : Reg) s' => reg_in s' r).

Local Hint Extern 0 (wp (compile_expr _) _ _) => eapply expr_at; eassumption : compile.

Lemma stmt_at st s :
  fits N (stmt_size st) (shape s) -> stmt_ok st = true -> ok s ->
  wp (compile_stmt st) s (post s reg).
Proof. intros H1 H2 H3. by apply Hstmt. Qed.
Local Hint Extern 0 (wp (compile_stmt _) _ _) => eapply stmt_at; [fit|assumption|assumption] : compile.

Lemma compile_block_spec stmts s :
  fits N (stmts_size stmts) (shape s) -> templates_ok stmts = true -> ok s ->
  wp (compile_block compile_stmt stmts) s (post s reg).
Proof.
  intros Hf Ho Hok. start. rewrite Hsh in Hf. unfold compile_block.
  step. step. step. each.
  { pose proof (sum_le stmt_size stmts x Hx). unfold stmts_size in Hf.
    pose proof (forallb_in _ _ _ Ho Hx). steps. }
  step. step. by apply comp_value.
Qed.
Local Hint Extern 0 (wp (compile_block _ _) _ _) =>
  eapply compile_block_spec; [fit|assumption|assumption] : compile.
Local Hint Extern 0 (wp (hoist_block _) _ _) =>
  eapply hoist_block_spec; [eassumption|eapply fits_lt, fits_le; [eassumption|lia]|assumption|assumption]
  : compile.

Lemma compile_scoped_block_spec stmts s :
  fits N (stmts_size stmts) (shape s) -> templates_ok stmts = true -> ok s ->
  wp (compile_scoped_block compile_stmt stmts) s (post s reg).
Proof.
  intros Hf Ho Hok. start. rewrite Hsh in Hf. unfold compile_scoped_block. branch; [step|].
  step. step. step. step. step.
Qed.
Local Hint Extern 0 (wp (compile_scoped_block _ _) _ _) =>
  eapply compile_scoped_block_spec; [fit|assumption|assumption] : compile.

Lemma compile_if_spec test then_ else_ s :
  good N test -> fits N (stmts_size then_ + opt_size stmts_size else_) (shape s) ->
  templates_ok then_ = true -> opt_all templates_ok else_ = true -> ok s ->
  wp (compile_if compile_expr compile_stmt test then_ else_) s (post s reg).
Proof.
  intros Ht Hf H1 H2 Hok. start. rewrite Hsh in Hf. unfold compile_if. do 8 step.
  step to reg; [destruct else_; cbn in Hf, H2; step|]. steps.
Qed.

(** ** Abrupt exits *)

Lemma compile_finally_body_spec body s :
  fits N (stmts_size body) (shape s) -> templates_ok body = true -> ok s ->
  wp (compile_finally_body compile_stmt body) s (post s keep).
Proof.
  intros Hf Ho Hok. start. rewrite Hsh in Hf. unfold compile_finally_body. steps.
Qed.
Local Hint Extern 0 (wp (compile_finally_body _ _) _ _) =>
  eapply compile_finally_body_spec; [fit|assumption|assumption] : compile.

Definition with_unwind (l : list UnwindCtx) (sh : Shape) : Shape :=
  mkShape (sh_scopes sh) l (sh_completions sh) (sh_loops sh).

Lemma set_unwind_spec f l s :
  ok s -> f s = set_unwind l s -> Forall (ctx_in s) l ->
  wp (modify f) s (post_at X B (with_unwind l (shape s)) s keep).
Proof.
  intros Hok E Hl. apply wp_modify. rewrite E. set (s1 := set_unwind l s).
  assert (grow s s1) as G by (by apply grow_same).
  split_and!; [|exact G|done|done]. carry (ok_at_grow X B s _ s Hok G).
  by apply (upward_ctxs l _ _ G).
Qed.

Lemma unwind_take l i (u : UnwindCtx) :
  l !! i = Some u -> ctx_size u + unwind_size (take i l) <= unwind_size l.
Proof.
  intros H. rewrite <- (take_drop_middle l i u H) at 2. unfold unwind_size.
  rewrite sum_list_with_app. cbn. lia.
Qed.

Lemma unwind_one_spec i u sh s :
  ok s -> shape s = sh -> sh_unwind sh !! i = Some u -> fits N 0 sh ->
  wp (unwind_one compile_stmt i u) s (post_at X B sh s keep).
Proof.
  intros Hok Hsh Hu Hf.
  assert (Forall (ctx_in s) (sh_unwind sh)) as Hall by (rewrite <- Hsh; apply (ok_unwind _ _ _ _ Hok)).
  pose proof (Forall_lookup_1 _ _ _ _ Hall Hu) as Hc.
  destruct u as [finally close| | |r]; cbn [unwind_one]; cbn in Hc; [|step..].
  destruct Hc as [Hfin Hclose]. step.
  step to keep.
  { destruct close as [r|]; [|step]. apply opt_some in Hclose. step. }
  destruct finally as [body|]; [|step]. apply Forall_cons in Hfin as [Hfin _]. step.
  match goal with E : shape ?s = sh |- _ => assert (c_unwind s = sh_unwind sh) as Eu by (by rewrite <- E) end.
  rewrite Eu. set (taken := take i (sh_unwind sh)). set (crossed := drop i (sh_unwind sh)).
  assert (Forall (ctx_in s) taken) as Ht by (by apply Forall_take).
  pose proof (unwind_take _ _ _ Hu) as Hsize. cbn [ctx_size] in Hsize. destruct Hf as [Hf Hd].
  assert (fits N (stmts_size body) (with_unwind taken sh)) as Hfb.
  { split; [|exact Hd]. cbn. unfold taken. lia. }
  eapply wp_seq; [by eapply set_unwind_spec|advance].
  step.
  match goal with E : shape ?s = with_unwind taken _ |- _ =>
    assert (c_unwind s = taken) as Eu2 by (change (sh_unwind (shape s) = taken); by rewrite E) end.
  eapply wp_tail; [eapply (set_unwind_spec _ (sh_unwind sh)); [done| |done]|rewrite Hsh; by destruct sh|done].
  rewrite Eu2. unfold taken, crossed. by rewrite take_drop.
Qed.

Lemma unwind_from_spec i depth sh s :
  ok s -> shape s = sh -> i <= length (sh_unwind sh) -> fits N 0 sh ->
  wp (unwind_from compile_stmt i depth) s (post_at X B sh s keep).
Proof.
  revert s. induction i as [|i IH]; intros s Hok Hsh Hi Hf; cbn [unwind_from]; [step|].
  branch; [|step]. destruct (lookup_lt_is_Some_2 (sh_unwind sh) i Hi) as [u Hu]. step.
  replace (c_unwind s !! i) with (Some u) by (rewrite <- Hu, <- Hsh; done). step.
  eapply wp_seq; [by apply unwind_one_spec|advance].
  eapply wp_tail; [apply IH; (done || lia)|done|done].
Qed.

Lemma duplicate_unwind_spec depth s :
  fits N 0 (shape s) -> ok s -> wp (duplicate_unwind compile_stmt depth) s (post s keep).
Proof.
  intros Hf Hok. start. unfold duplicate_unwind. step. rewrite Hsh in Hf.
  apply unwind_from_spec; [done|done|by rewrite <- Hsh|done].
Qed.
Local Hint Extern 0 (wp (duplicate_unwind _ _) _ _) =>
  eapply duplicate_unwind_spec; [fit|assumption] : compile.

Lemma compile_exit_spec target note s :
  ok s -> target < length (c_loops s) -> fits N 0 (shape s) ->
  (forall a ctx s', jump_at s' a -> loop_in s' ctx ->
     loop_in s' (note a ctx) /\ loop_key (note a ctx) = loop_key ctx) ->
  wp (compile_exit compile_stmt target note) s (post s reg).
Proof.
  intros Hok Ht Hf Hn. start. unfold compile_exit. step.
  assert (forall s', shape s' = sh -> target < length (c_loops s')) as Hlen.
  { intros s' E. rewrite <- (length_map loop_key (c_loops s')).
    change (map loop_key (c_loops s')) with (sh_loops (shape s')). rewrite E, <- Hsh. cbn.
    by rewrite length_map. }
  rewrite Hsh in Hf.
  destruct (lookup_lt_is_Some_2 _ _ Ht) as [ctx ->]. step.
  eapply wp_seq; [apply record_abrupt_completion_spec; [done|rewrite Hsh; apply Hf|done]|advance].
  step. step.
  eapply wp_seq; [apply update_loop_spec; [done|by apply Hlen|intros c Hc; by apply Hn]|advance].
  step.
Qed.

Lemma add_break_in a ctx s :
  jump_at s a -> loop_in s ctx ->
  loop_in s (add_break a ctx) /\ loop_key (add_break a ctx) = loop_key ctx.
Proof.
  intros Ha [H1 H2]. split; [|done]. split; [|done]. apply Forall_app_2; [done|by apply Forall_singleton].
Qed.
Lemma add_continue_in a ctx s :
  jump_at s a -> loop_in s ctx ->
  loop_in s (add_continue a ctx) /\ loop_key (add_continue a ctx) = loop_key ctx.
Proof.
  intros Ha [H1 H2]. split; [|done]. split; [done|]. apply Forall_app_2; [done|by apply Forall_singleton].
Qed.

Lemma found_exit_spec accepts reason note s :
  internal (DeclineFunc reason) = false -> ok s -> fits N 0 (shape s) ->
  (forall a ctx s', jump_at s' a -> loop_in s' ctx ->
     loop_in s' (note a ctx) /\ loop_key (note a ctx) = loop_key ctx) ->
  wp (bind (gets (find_loop accepts)) (fun found =>
      bind (some_or found reason) (fun target => compile_exit compile_stmt target note))) s
    (post s reg).
Proof.
  intros Hr Hok Hf Hn. apply wp_bind, wp_gets, wp_bind, wp_some_or; [done|]. intros target E.
  apply find_loop_lt in E. by apply compile_exit_spec.
Qed.

Lemma compile_break_spec s :
  ok s -> fits N 0 (shape s) -> wp (compile_break compile_stmt) s (post s reg).
Proof. intros Hok Hf. apply found_exit_spec; [done|done|done|]. intros. by apply add_break_in. Qed.
Lemma compile_continue_spec s :
  ok s -> fits N 0 (shape s) -> wp (compile_continue compile_stmt) s (post s reg).
Proof. intros Hok Hf. apply found_exit_spec; [done|done|done|]. intros. by apply add_continue_in. Qed.

Lemma compile_labeled_exit_spec label c s :
  ok s -> fits N 0 (shape s) -> wp (compile_labeled_exit compile_stmt label c) s (post s reg).
Proof.
  intros Hok Hf. unfold compile_labeled_exit.
  apply wp_bind, wp_gets, wp_bind, wp_some_or; [done|]. intros target E. apply find_loop_lt in E.
  apply wp_bind, wp_gets, wp_bind. destruct (lookup_lt_is_Some_2 _ _ E) as [ctx ->]. apply wp_ret.
  branch; [done|]. apply compile_exit_spec; [done|done|done|].
  intros. destruct c; [by apply add_continue_in|by apply add_break_in].
Qed.
End Blocks.
