(* ===== verification/CompileLoopSpec.v ===== *)
(** The heads of [for] loops, protected regions, loops and switches keep the
    invariant. *)
From stdpp Require Import prelude list strings gmap.
From Stdlib Require Import ZArith Lia SpecFloat.
From S2P Require Import Prelude JsString BigInt Ast Opcode Verify VerifySpec Compiler CompileClass CompileExpr CompileStmt CompileSpec CompileGrow CompilePrims CompileTactics CompileScopes CompileClassSpec CompileExprSpec CompileOperatorSpec CompileHoistSpec CompileBlockSpec.
Import Opcode Compiler Primitives Names CompileClass CompileExpr CompileStmt.
Local Open Scope nat_scope.

(** ** The heads of [for] loops *)

Definition head_in (h : ForHead) (s : Compiler) : Prop :=
  match h with HSlot x => slot_in s x | HGlobal k => kst s is_string k end.
#[export] Instance upward_head h : Upward (head_in h).
Proof.
  intros s s' G. destruct h; [by apply grow_slot, G|intros H; by eapply up_kst; [apply _|..]].
Qed.
Definition opt_head_in (h : option ForHead) (s : Compiler) : Prop :=
  match h with Some h => head_in h s | None => True end.
#[export] Instance upward_opt_head h : Upward (opt_head_in h).
Proof. intros s s' G. destruct h; [apply upward_head, G|done]. Qed.

(** The scope of a lexical head. *)
Definition in_head (kind : VarKind) (names : list Text) (m : gmap Text Slot) (sh : Shape) : Shape :=
  if is_var kind then sh else in_scope true (list_to_set names) m sh.

Section Heads.
Context (compile_expr : Expr -> M Reg).
Context (compile_call_reference : Expr -> list nat -> M (Reg * option Reg * list nat)).
Context (N B : nat) (HN : N <= S B).
Hypothesis Hexpr : forall e, good N e -> expr_spec compile_expr B e.
Hypothesis Href : forall e, good N e -> ref_spec compile_call_reference B e.
Context (X : list PatchTarget).
Abbreviation ok := (ok X B).
Abbreviation post := (post X B).
Abbreviation reg := (fun (r : Reg) s' => reg_in s' r).

Local Hint Extern 0 (wp (compile_expr _) _ _) => eapply expr_at; eassumption : compile.
Local Hint Extern 0 (wp (declare_lexical _ _) _ _) => eapply declare_lexical_spec; assumption : compile.
Local Hint Extern 0 (wp (compile_destructure _ _ _ _) _ _) =>
  eapply compile_destructure_spec; eassumption : compile.
Local Hint Extern 0 (wp (compile_initializer _ _ _ _) _ _) =>
  eapply compile_initializer_spec; eassumption : compile.
Local Hint Extern 0 (wp (define_iteration_head _ _) _ _) =>
  eapply define_iteration_head_spec; assumption : compile.

Lemma prepare_for_head_spec name s :
  ok s -> wp (prepare_for_head name) s (post s head_in).
Proof. intros Hok. start. unfold prepare_for_head. step. destruct r as [x|]; cbn in H; steps. Qed.
Local Hint Extern 0 (wp (prepare_for_head _) _ _) => eapply prepare_for_head_spec; assumption : compile.

Lemma bind_for_head_spec h src kind s :
  ok s -> head_in h s -> reg_in s src -> wp (bind_for_head h src kind) s (post s keep).
Proof.
  intros Hok Hh Hr. start. destruct h; cbn in Hh; cbn [bind_for_head]; destruct (is_var kind); step.
Qed.

Lemma open_head_spec names kind s :
  ok s -> wp (open_head names kind) s (post_at X B (in_head kind names (innermost s) (shape s)) s keep).
Proof.
  intros Hok. unfold open_head, in_head. destruct (is_var kind).
  { by apply wp_ret_at. }
  eapply wp_seq; [by apply push_scope_with_runtime_spec|advance].
  eapply wp_tail; [by apply define_iteration_head_spec|done|done].
Qed.

Lemma close_head_spec kind names m sh s :
  ok s -> shape s = in_head kind names m sh -> wp (close_head kind) s (post_at X B sh s keep).
Proof.
  intros Hok E. unfold close_head, in_head in *. destruct (is_var kind); [by apply wp_ret_at|].
  by eapply pop_scope_spec.
Qed.

Lemma rotate_head_scope_spec boxed s : ok s -> wp (rotate_head_scope boxed) s (post s keep).
Proof.
  intros Hok. start. unfold rotate_head_scope. each_map (fun (r : Reg) s' => reg_in s' r); [steps|].
  step. step. each.
  apply elem_of_zip_r in Hx.
  match goal with H : Forall _ r |- _ => rewrite Forall_forall in H; apply H in Hx end. step.
Qed.

Lemma rotate_spec names s : ok s -> wp (rotate names) s (post s keep).
Proof. intros Hok. unfold rotate. case_bool_decide; [by apply wp_same|by apply rotate_head_scope_spec]. Qed.

Definition good_decls (l : list (Text * option Expr)) : Prop := Forall (fun d => good_opt N d.2) l.

Lemma compile_for_decl_spec kind name e s :
  good_opt N e -> ok s ->
  wp (compile_for_decl compile_expr compile_call_reference kind name e) s (post s keep).
Proof.
  intros He Hok. start. unfold compile_for_decl, is_boxed_here. branch; [step|]. branch.
  - step. step. destruct r0 as [x|]; cbn in *; step.
  - step. branch; steps.
Qed.

Lemma compile_for_decls_spec kind l s :
  good_decls l -> ok s ->
  wp (compile_for_decls compile_expr compile_call_reference kind l) s (post s keep).
Proof.
  intros Hl Hok. start. unfold compile_for_decls. each.
  unfold good_decls in Hl. rewrite Forall_forall in Hl. apply Hl in Hx. cbn in Hx.
  eapply wp_tail; [by apply compile_for_decl_spec|done|done].
Qed.

Lemma prepare_for_lexicals_spec i s : ok s -> wp (prepare_for_lexicals i) s (post s keep).
Proof.
  intros Hok. start. unfold prepare_for_lexicals.
  match goal with |- wp (let '(_, _) := ?p in _) _ _ => destruct p as [kind names] end.
  branch; [step|]. each. step.
Qed.

Definition good_init (i : ForInit) : Prop := for_init_size i < N /\ for_init_ok i = true.

Lemma good_decls_intro l n :
  sum_list_with (fun '(_, e) => opt_size expr_size e) l + n < N ->
  forallb (fun '(_, e) => opt_all expr_ok e) l = true -> good_decls l.
Proof.
  intros Hs Ho. apply Forall_forall. intros [name e] Hx x E. cbn in E. subst e.
  pose proof (sum_le (fun '(_, e) => opt_size expr_size e) l _ Hx) as Hle. cbn in Hle.
  split; [lia|]. by apply (forallb_in _ _ _ Ho Hx).
Qed.

Lemma compile_for_init_spec i s :
  good_init i -> ok s ->
  wp (compile_for_init compile_expr compile_call_reference i) s (post s keep).
Proof.
  intros [Hs Ho] Hok. start. destruct i as [kind l|kind p e l|e]; cbn in Hs, Ho; cbn [compile_for_init].
  - eapply wp_tail; [apply compile_for_decls_spec; [|done]|done|done].
    apply (good_decls_intro _ 0); [lia|done].
  - rewrite !andb_true_iff in Ho. destruct Ho as [[Hp He] Hl].
    assert (good N e) by (split; [lia|done]). step. step to keep; [branch; [step|each; step]|].
    assert (good_pattern N p) by (split; [lia|done]). step.
    eapply wp_tail; [apply compile_for_decls_spec; [|done]|done|done].
    apply (good_decls_intro _ 0); [lia|done].
  - assert (good N e) by (split; [lia|done]). steps.
Qed.
End Heads.

(** ** Regions, loops and switches *)

(** A jump that may not have been emitted. *)
Definition opt_jump (o : option nat) (s : Compiler) : Prop := Forall (jump_at s) (option_list o).
#[export] Instance upward_opt_jump o : Upward (opt_jump o).
Proof. intros s s' G. by apply up_jumps. Qed.
#[export] Instance upward_loop_in ctx : Upward (fun s => loop_in s ctx).
Proof. intros s s' G [H1 H2]. split; by eapply up_jumps. Qed.

(** The shape inside an optional region. *)
Definition in_opt {A} (u : A -> UnwindCtx) (o : option A) (sh : Shape) : Shape :=
  match o with Some x => in_unwind (u x) sh | None => sh end.

Section Loops.
Context (compile_expr : Expr -> M Reg).
Context (compile_call_reference : Expr -> list nat -> M (Reg * option Reg * list nat)).
Context (compile_stmt : Statement -> M Reg).
Context (N B : nat) (HN : N <= S B).
Hypothesis Hexpr : forall e, good N e -> expr_spec compile_expr B e.
Hypothesis Href : forall e, good N e -> ref_spec compile_call_reference B e.
Hypothesis Hstmt : forall st, stmt_ok st = true -> stmt_spec compile_stmt N B st.
Context (X : list PatchTarget).
Abbreviation ok := (ok X B).
Abbreviation post := (post X B).
Abbreviation reg := (fun (r : Reg) s' => reg_in s' r).

Local Hint Extern 0 (wp (compile_expr _) _ _) => eapply expr_at; eassumption : compile.
Local Hint Extern 0 (wp (compile_stmt _) _ _) => eapply stmt_at; [eassumption|fit|assumption|assumption] : compile.
Local Hint Extern 0 (wp (compile_block _ _) _ _) =>
  eapply compile_block_spec; [eassumption|eassumption|fit|assumption|assumption] : compile.
Local Hint Extern 0 (wp (hoist_block _) _ _) =>
  eapply hoist_block_spec; [eassumption|eapply fits_lt, fits_le; [eassumption|lia]|assumption|assumption]
  : compile.
Local Hint Extern 0 (wp (compile_scoped_block _ _) _ _) =>
  eapply compile_scoped_block_spec; [eassumption|eassumption|fit|assumption|assumption] : compile.
Local Hint Extern 0 (wp (compile_finally_body _ _) _ _) =>
  eapply compile_finally_body_spec; [eassumption|eassumption|fit|assumption|assumption] : compile.
Local Hint Extern 0 (wp (finish_loop _ _ _) _ _) =>
  eapply finish_loop_spec; [assumption|assumption|in_range|in_range] : compile.

(** ** Protected regions *)

Lemma pop_handler_spec u sh s :
  ok s -> shape s = in_unwind u sh -> wp pop_handler s (post_at X B sh s keep).
Proof.
  intros Hok E. unfold pop_handler. eapply wp_seq; [by eapply pop_unwind_spec|].
  intros o s1 Hok1 _ E1 ->. by apply wp_bind, wp_ret, wp_ret_at.
Qed.
Local Hint Extern 0 (wp pop_handler _ _) => eapply pop_handler_spec; eassumption : compile.

Lemma patch_opt_spec o t s :
  ok s -> opt_jump o s -> target_in s t ->
  wp (match o with Some a => patch_jump a t | None => ret tt end) s (post s keep).
Proof.
  intros Hok Ho Ht. start. destruct o; [|step]. apply Forall_cons in Ho as [Ho _]. step.
Qed.

Lemma enter_region_spec make finally s :
  ok s -> instr_in s (make 0) -> no_make (make 0) -> is_Some (with_target (make 0) 0) ->
  Forall (fun body => templates_ok body = true) (option_list finally) ->
  wp (enter_region make finally) s
    (post_at X B (in_unwind (UHandler finally None) (shape s)) s (fun a s' => jump_at s' a)).
Proof.
  intros Hok Hi Hm Ht Hf. unfold enter_region.
  eapply wp_seq; [by apply emit_jump_spec|advance].
  match goal with |- wp _ ?s1 _ =>
    assert (ctx_in s1 (UHandler finally None)) by (split; [done|apply opt_none]) end.
  step. step.
Qed.

Lemma opt_region_spec {A} (m : A -> M nat) (u : A -> UnwindCtx) (o : option A) s :
  ok s -> (forall x, o = Some x ->
     wp (m x) s (post_at X B (in_unwind (u x) (shape s)) s (fun a s' => jump_at s' a))) ->
  wp (option_map_m m o) s
    (post_at X B (in_opt u o (shape s)) s (fun a s' => opt_jump a s')).
Proof.
  intros Hok H. destruct o as [x|]; cbn [option_map_m in_opt].
  - eapply wp_seq; [by apply H|advance]. step. by apply Forall_singleton.
  - apply wp_ret_at; [done|done|]. apply Forall_nil_2.
Qed.

Lemma fits_opt {A} n (u : A -> UnwindCtx) o sh :
  fits N (n + opt_size (fun x => ctx_size (u x)) o) sh -> fits N n (in_opt u o sh).
Proof.
  destruct o as [x|]; cbn; [apply fits_unwind|]. intros H. eapply fits_le; [exact H|lia].
Qed.

Lemma compile_catch_spec value err param body s :
  reg_in s value -> reg_in s err -> fits N (stmts_size body) (shape s) ->
  templates_ok body = true -> ok s ->
  wp (compile_catch compile_stmt value err param body) s (post s keep).
Proof.
  intros Hv He Hf Ho Hok. start. rewrite Hsh in Hf. unfold compile_catch. step.
  step to keep. { destruct param; [|step]. unfold is_boxed_here. step. branch; steps. }
  step. step. step. step.
Qed.
Local Hint Extern 0 (wp (compile_catch _ _ _ _ _) _ _) =>
  eapply compile_catch_spec; [assumption|assumption|fit|assumption|assumption] : compile.

(** What [compile_try] needs of its parts. *)
Record good_try (body : list Statement) (catch : option (option Pattern * list Statement))
    (finally : option (list Statement)) (sh : Shape) : Prop := {
  gt_fits : fits N (stmts_size body + opt_size (fun c => stmts_size c.2) catch
                    + opt_size stmts_size finally) sh;
  gt_body : templates_ok body = true;
  gt_catch : opt_all (fun c => templates_ok c.2) catch = true;
  gt_finally : opt_all templates_ok finally = true;
}.

Definition in_finally : option (list Statement) -> Shape -> Shape :=
  in_opt (fun body => UHandler (Some body) None).
Definition in_catch : option (option Pattern * list Statement) -> Shape -> Shape :=
  in_opt (fun _ => UHandler None None).

Lemma enter_finally_spec finally err s :
  ok s -> reg_in s err -> opt_all templates_ok finally = true ->
  wp (option_map_m (fun body =>
        enter_region (fun target => PushFinally target err : Instr) (Some body)) finally) s
    (post_at X B (in_finally finally (shape s)) s (fun a s' => opt_jump a s')).
Proof.
  intros Hok He Hf. apply opt_region_spec; [done|]. intros body ->.
  apply enter_region_spec; [done|instr|done|by eexists|]. by apply Forall_singleton.
Qed.

Lemma enter_catch_spec catch err s :
  ok s -> reg_in s err ->
  wp (option_map_m (fun _ : option Pattern * list Statement =>
        enter_region (fun target => PushCatch target err : Instr) None) catch) s
    (post_at X B (in_catch catch (shape s)) s (fun a s' => opt_jump a s')).
Proof.
  intros Hok He. apply opt_region_spec; [done|]. intros c _.
  apply enter_region_spec; [done|instr|done|by eexists|apply Forall_nil_2].
Qed.

Lemma leave_catch_spec (catch : option (option Pattern * list Statement)) sh s :
  ok s -> shape s = in_catch catch sh ->
  wp (match catch with Some _ => emit PopHandler ;! pop_handler | None => ret tt end)%compile s
    (post_at X B sh s keep).
Proof.
  intros Hok Hsh. destruct catch as [c|]; cbn in Hsh; [|by apply wp_ret_at]. step. step.
Qed.

Lemma run_finally_spec finally sh s :
  ok s -> shape s = in_finally finally sh -> fits N (opt_size stmts_size finally) sh ->
  opt_all templates_ok finally = true ->
  wp (match finally with
      | Some body => emit PopHandler ;! pop_handler ;! compile_finally_body compile_stmt body
      | None => ret tt
      end)%compile s (post_at X B sh s keep).
Proof.
  intros Hok Hsh Hf Ho. destruct finally as [body|]; cbn in Hsh, Hf, Ho; [|by apply wp_ret_at].
  steps.
Qed.

Lemma finally_pad_spec finally sh s :
  ok s -> shape s = sh -> fits N (opt_size stmts_size finally) sh ->
  opt_all templates_ok finally = true ->
  wp (match finally with
      | Some body =>
          push_unwind UPending ;! compile_finally_body compile_stmt body ;! pop_unwind ;! emit Rethrow
      | None => ret tt
      end)%compile s (post_at X B sh s keep).
Proof.
  intros Hok Hsh Hf Ho. destruct finally as [body|]; cbn in Hf, Ho; [|by apply wp_ret_at].
  eapply wp_seq; [by apply push_unwind_spec|advance]. steps.
Qed.

Lemma compile_try_spec body catch finally s :
  good_try body catch finally (shape s) -> ok s ->
  wp (compile_try compile_stmt body catch finally) s (post s reg).
Proof.
  intros [Hf Hb Hc Hfin] Hok. start. rewrite Hsh in Hf. unfold compile_try. branch; [step|].
  step. step. step.
  match goal with |- wp (match catch with Some _ => ?k | None => _ end) _ _ => set (rest := k) end.
  assert (wp rest s0 (post_at X B sh s0 reg)) as Hrest.
  2:{ destruct catch, finally; [exact Hrest..|]. cbn in Hf. steps. }
  subst rest. step. step.
  set (sh' := in_completion _ sh) in *.
  assert (fits N (opt_size stmts_size finally) sh') as Hff.
  { apply fits_completion. eapply fits_le; [exact Hf|lia]. }
  eapply wp_seq; [by apply enter_finally_spec|advance].
  eapply wp_seq; [by apply enter_catch_spec|advance].
  assert (fits N (stmts_size body) (in_catch catch (in_finally finally sh'))) as Hfb.
  { apply fits_opt, fits_opt, fits_completion. eapply fits_le; [exact Hf|].
    destruct catch, finally; cbn; lia. }
  step. step. eapply wp_seq; [by apply leave_catch_spec|advance]. step. step.
  step to keep.
  { destruct catch as [[param cbody]|]; [|step]. cbn in Hc, Hf.
    assert (fits N (stmts_size cbody) (in_finally finally sh')) as Hfc.
    { apply fits_opt, fits_completion. eapply fits_le; [exact Hf|]. destruct finally; cbn; lia. }
    step. }
  step. eapply wp_seq; [by apply run_finally_spec|advance]. step. step.
  eapply wp_seq; [by apply finally_pad_spec|advance]. step.
  eapply wp_seq; [by apply patch_opt_spec|advance].
  eapply wp_seq; [by apply patch_opt_spec|advance]. steps.
Qed.

(** ** Labels and loops *)

Lemma push_pending_label_spec label s :
  ok s -> wp (modify (fun s => set_pending_labels (c_pending_labels s ++ [label]) s)) s (post s keep).
Proof.
  intros Hok. apply wp_modify. match goal with |- post _ _ _ ?s' => set (s1 := s') end.
  assert (grow s s1) as G by (by apply grow_same).
  split_and!; [|exact G|done|done]. carry (ok_at_grow X B s _ s Hok G).
Qed.

Lemma patch_breaks_spec ctx t s :
  ok s -> loop_in s ctx -> target_in s t -> wp (patch_all (breaks ctx) t) s (post s keep).
Proof. intros Hok [Hb _] Ht. by apply patch_all_spec. Qed.
Local Hint Extern 0 (wp (patch_all (breaks _) _) _ _) =>
  eapply patch_breaks_spec; [assumption|assumption|in_range] : compile.

Lemma compile_labeled_spec label body s :
  fits N (stmt_size body) (shape s) -> stmt_ok body = true -> ok s ->
  wp (compile_labeled compile_stmt label body) s (post s reg).
Proof.
  intros Hf Ho Hok. start. rewrite Hsh in Hf. unfold compile_labeled. branch.
  - eapply wp_seq; [by apply push_pending_label_spec|advance]. step.
  - do 9 step. step. by apply comp_value.
Qed.

Lemma enter_loop_spec r s :
  ok s -> reg_in s r ->
  wp (enter_loop r) s
    (post_at X B (in_completion {| value := r; present := None |} (in_loop (c_pending_labels s) KLoop (shape s))) s keep).
Proof. intros Hok Hr. unfold enter_loop. step. step. subst r0. eapply wp_tail; [spec|by rewrite Hsh0|done]. Qed.
Local Hint Extern 0 (wp (enter_loop _) _ _) => eapply enter_loop_spec; assumption : compile.

Lemma new_loop_value_spec s : ok s -> wp new_loop_value s (post s reg).
Proof. intros Hok. start. unfold new_loop_value. steps. Qed.
Local Hint Extern 0 (wp new_loop_value _ _) => eapply new_loop_value_spec; assumption : compile.

Lemma compile_loop_body_spec r body s :
  fits N (stmts_size body) (shape s) -> templates_ok body = true -> ok s -> reg_in s r ->
  wp (compile_loop_body compile_stmt r body) s (post s keep).
Proof. intros Hf Ho Hok Hr. start. rewrite Hsh in Hf. unfold compile_loop_body. steps. Qed.
Local Hint Extern 0 (wp (compile_loop_body _ _ _) _ _) =>
  eapply compile_loop_body_spec; [fit|assumption|assumption|assumption] : compile.

Lemma jump_back_spec t s : ok s -> target_in s t -> wp (jump_back t) s (post s keep).
Proof. intros Hok Ht. start. unfold jump_back. steps. Qed.
Local Hint Extern 0 (wp (jump_back _) _ _) => eapply jump_back_spec; assumption : compile.

Lemma compile_while_spec test body s :
  good N test -> fits N (stmts_size body) (shape s) -> templates_ok body = true -> ok s ->
  wp (compile_while compile_expr compile_stmt test body) s (post s reg).
Proof. intros Ht Hf Ho Hok. start. rewrite Hsh in Hf. unfold compile_while. steps. Qed.

Lemma compile_do_while_spec test body s :
  good N test -> fits N (stmts_size body) (shape s) -> templates_ok body = true -> ok s ->
  wp (compile_do_while compile_expr compile_stmt test body) s (post s reg).
Proof. intros Ht Hf Ho Hok. start. rewrite Hsh in Hf. unfold compile_do_while. steps. Qed.

Local Hint Extern 0 (wp (rotate _) _ _) => eapply rotate_spec; assumption : compile.
Local Hint Extern 0 (wp (prepare_for_lexicals _) _ _) =>
  eapply prepare_for_lexicals_spec; assumption : compile.
Local Hint Extern 0 (wp (compile_for_init _ _ _) _ _) =>
  eapply compile_for_init_spec; eassumption : compile.
Local Hint Extern 0 (wp (prepare_for_head _) _ _) => eapply prepare_for_head_spec; assumption : compile.
Local Hint Extern 0 (wp (bind_for_head _ _ _) _ _) => eapply bind_for_head_spec; assumption : compile.
Local Hint Extern 0 (wp (reset_iteration_head _ _) _ _) =>
  eapply reset_iteration_head_spec; assumption : compile.
Local Hint Extern 0 (wp (open_head _ _) _ _) => eapply open_head_spec; assumption : compile.
Local Hint Extern 0 (wp (close_head _) _ _) => eapply close_head_spec; eassumption : compile.

Lemma compile_for_spec init test update body s :
  (forall i, init = Some i -> good_init N i) -> good_opt N test -> good_opt N update ->
  fits N (stmts_size body) (shape s) -> templates_ok body = true -> ok s ->
  wp (compile_for compile_expr compile_call_reference compile_stmt init test update body) s
    (post s reg).
Proof.
  intros Hi Ht Hu Hf Ho Hok. start. rewrite Hsh in Hf. unfold compile_for. step.
  step to keep. { destruct init as [i|]; [specialize (Hi i eq_refl)|]; steps. }
  step. step. step. step.
  step to (fun o s' => opt_jump o s').
  { destruct test as [e|]; cbn [option_map_m]; [|step; apply Forall_nil_2].
    specialize (Ht e eq_refl). step. step. step. by apply Forall_singleton. }
  do 4 step. step to keep. { destruct update as [e|]; [specialize (Hu e eq_refl)|]; steps. }
  do 5 step. eapply wp_seq; [by apply patch_opt_spec|advance]. steps.
Qed.

Lemma fits_head n kind names m sh : fits N n sh -> fits N n (in_head kind names m sh).
Proof. unfold in_head. destruct (is_var kind); [done|apply fits_scope]. Qed.

Lemma compile_for_in_spec name kind e body s :
  good N e -> fits N (stmts_size body) (shape s) -> templates_ok body = true -> ok s ->
  wp (compile_for_in compile_expr compile_stmt name kind e body) s (post s reg).
Proof.
  intros He Hf Ho Hok. start. rewrite Hsh in Hf. unfold compile_for_in.
  apply (fits_head _ kind [name] (innermost s)) in Hf. do 5 step. steps.
Qed.

Lemma bind_for_of_spec p h y kind s :
  good_pattern N p -> opt_head_in h s -> ok s -> reg_in s y ->
  wp (bind_for_of compile_expr p h y kind) s (post s keep).
Proof.
  intros Hp Hh Hok Hy. start. unfold bind_for_of. destruct h as [h|]; cbn in Hh; [step|].
  eapply wp_tail; [by eapply compile_destructure_spec|done|done].
Qed.
Local Hint Extern 0 (wp (bind_for_of _ _ _ _ _) _ _) => eapply bind_for_of_spec; eassumption : compile.

Lemma compile_for_of_spec p kind e body is_await s :
  good_pattern N p -> good N e -> fits N (stmts_size body) (shape s) -> templates_ok body = true ->
  ok s ->
  wp (compile_for_of compile_expr compile_stmt p kind e body is_await) s (post s reg).
Proof.
  intros Hp He Hf Ho Hok. start. rewrite Hsh in Hf. unfold compile_for_of. branch; [step|].
  apply (fits_head _ kind (pattern_names p) (innermost s)) in Hf. step. step to (fun h s' => opt_head_in h s').
  { assert (wp (bind (for_each (pattern_names p) (fun bound =>
      bind (prepare_for_head bound) (fun _ => ret tt))) (fun _ => ret None)) s0
      (post_at X B (in_head kind (pattern_names p) (innermost s) sh) s0 (fun h s' => opt_head_in h s'))) as Hnames.
    { each; [steps|]. by step. }
    destruct p; try exact Hnames. steps. }
  do 6 step.
  match goal with |- wp (bind (push_unwind (UHandler None (Some ?r))) _) ?s _ =>
    assert (ctx_in s (UHandler None (Some r))) by (split; [apply Forall_nil_2|by apply opt_some]) end.
  steps.
Qed.

(** ** Switch *)

Definition good_cases (cases : list SwitchCase) (sh : Shape) : Prop :=
  Forall (fun c => good_opt N (case_test c) /\ fits N (stmts_size (case_body c)) sh /\
    templates_ok (case_body c) = true) cases.

Lemma compile_tests_spec r cases : forall i s,
  Forall (fun c => good_opt N (case_test c)) cases -> ok s -> reg_in s r ->
  wp (compile_tests compile_expr r i cases) s
    (post s (fun l s' => Forall (jump_at s') l.*1 /\
       Forall (fun x : nat * nat => i <= x.2 < i + length cases) l)).
Proof.
  induction cases as [|c cases IH]; intros i s Hc Hok Hr; start; cbn [compile_tests].
  { step. split; apply Forall_nil_2. }
  apply Forall_cons in Hc as [He Hc]. destruct (case_test c) as [e|].
  - specialize (He e eq_refl). step. step. step. step.
    eapply wp_seq; [by apply IH|advance]. step. cbn. split; [by apply Forall_cons|].
    apply Forall_cons. split; [cbn; lia|]. eapply Forall_impl; [eassumption|]. cbn. lia.
  - eapply wp_tail; [by apply IH|done|]. intros l s1 _ [H1 H2]. split; [done|].
    eapply Forall_impl; [eassumption|]. cbn. lia.
Qed.

Lemma default_case_lt cases : forall i k, default_case i cases = Some k -> i <= k < i + length cases.
Proof.
  induction cases as [|c cases IH]; intros i k E; [done|]. cbn in E |- *.
  destruct (case_test c); [apply IH in E; lia|simplify_eq; lia].
Qed.

Lemma patch_body_spec bodies k a s :
  ok s -> Forall (fun t => target_in s t) bodies -> k < length bodies -> jump_at s a ->
  wp (bind (some_or_panic (bodies !! k)) (fun body => patch_jump a body)) s (post s keep).
Proof.
  intros Hok Hb Hk Ha. start. destruct (lookup_lt_is_Some_2 _ _ Hk) as [t Et]. rewrite Et.
  pose proof (Forall_lookup_1 _ _ _ _ Hb Et). step. step.
Qed.

Lemma compile_switch_spec e cases s :
  good N e -> good_cases cases (shape s) -> ok s ->
  wp (compile_switch compile_expr compile_stmt e cases) s (post s reg).
Proof.
  intros He Hc Hok. start. rewrite Hsh in Hc. unfold compile_switch, good_cases in *.
  rewrite Forall_forall in Hc. step. step. each.
  { apply Hc in Hx as (_ & Hf & Ho). step. }
  step. eapply wp_seq; [apply compile_tests_spec; [|done|done]|advance].
  { apply Forall_forall. intros c Hx. by apply Hc. }
  do 3 step. each_map (fun (t : nat) s' => target_in s' t).
  { apply Hc in Hx as (_ & Hf & Ho). steps. }
  do 4 step.
  match goal with Hl : length ?l = length cases, Hb : Forall _ ?l |- _ =>
    rename Hl into Hlen, Hb into Hbodies end.
  match goal with Hl : Forall _ ?l.*1, Hb : Forall _ ?l |- _ =>
    rename Hl into Htests, Hb into Hindices end. each.
  { rewrite Forall_forall in Hindices. pose proof (Hindices _ Hx) as Hi. cbn in Hi.
    eapply wp_tail; [apply patch_body_spec; [done|done|lia|]|done|done].
    rewrite Forall_forall in Htests. apply Htests, list_elem_of_fmap. by exists (r7, r8). }
  step to keep; [|steps].
  destruct (default_case 0 cases) as [k|] eqn:E; [|step]. apply default_case_lt in E.
  eapply wp_tail; [apply patch_body_spec; (done || lia)|done|done].
Qed.
End Loops.
