(* ===== verification/CompileStmtSpec.v ===== *)
(** Every statement keeps the invariant; and the recursion of the compiler ends:
    enough fuel is three times the size of what is compiled. *)
From stdpp Require Import prelude list strings gmap.
From Stdlib Require Import ZArith Lia SpecFloat.
From S2P Require Import Prelude JsString BigInt Ast Opcode Verify VerifySpec Compiler CompileClass CompileExpr CompileStmt CompileSpec CompileGrow CompilePrims CompileTactics CompileScopes CompileClassSpec CompileExprSpec CompileOperatorSpec CompileHoistSpec CompileBlockSpec CompileLoopSpec.
Import Opcode Compiler Primitives Names CompileClass CompileExpr CompileStmt.
Local Open Scope nat_scope.

Section Stmts.
Context (compile_expr : Expr -> M Reg).
Context (compile_call_reference : Expr -> list nat -> M (Reg * option Reg * list nat)).
Context (compile_stmt : Statement -> M Reg).
Context (N B : nat) (HN : N <= S B).
Hypothesis Hexpr : forall e, good N e -> expr_spec compile_expr B e.
Hypothesis Href : forall e, good N e -> ref_spec compile_call_reference B e.
Hypothesis Hstmt : forall st, stmt_ok st = true -> stmt_spec compile_stmt N B st.
Context (X : list PatchTarget).
Abbreviation ok := (ok X B).
Abbreviation post := (post X B).
Abbreviation reg := (fun (r : Reg) s' => reg_in s' r).

Local Hint Extern 0 (wp (compile_expr _) _ _) => eapply expr_at; eassumption : compile.
Local Hint Extern 0 (wp (compile_stmt _) _ _) => eapply stmt_at; [eassumption|fit|assumption|assumption] : compile.
Local Hint Extern 0 (wp (load_binding _ _) _ _) => eapply load_binding_spec; assumption : compile.
Local Hint Extern 0 (wp (compile_named_assignment_value _ _ _ _) _ _) =>
  eapply compile_named_assignment_value_spec; eassumption : compile.

Lemma compile_fn_decl_spec a name s : ok s -> wp (compile_fn_decl a name) s (post s reg).
Proof.
  intros Hok. start. unfold compile_fn_decl. step. step to keep; [|step].
  destruct (c_annex_updates s !! a) as [[n b]|] eqn:E; [|step].
  assert (binding_in s b) as Hb by apply (ok_annex _ _ _ _ Hok _ _ E).
  step. step. step. destruct b; cbn in Hb; step.
Qed.

Lemma compile_class_decl_spec ds src name sup body s :
  good_class N ds sup body -> ok s ->
  wp (compile_class_decl compile_expr compile_call_reference ds src name sup body) s (post s reg).
Proof.
  intros Hc Hok. start. unfold compile_class_decl.
  eapply wp_seq; [by eapply compile_class_spec|advance]. step.
  step to keep; [|step]. match goal with b : Binding |- _ => destruct b end; cbn in *; step.
Qed.

Lemma compile_module_stmt_spec attributes reason names template make P s :
  internal (DeclineFunc reason) = false -> pushable template -> P template -> Stable P ->
  (forall s' k, kst s' P k -> instr_in s' (make k)) -> (forall k, no_make (make k)) -> ok s ->
  wp (compile_module_stmt attributes reason names template make) s (post s reg).
Proof.
  intros Hr Hp HP Hst Hi Hm Hok. start. unfold compile_module_stmt. branch; [done|].
  step to keep.
  { destruct names; [|step]. eapply wp_tail; [by apply require_env_module_binding_spec|done|done]. }
  eapply wp_seq; [by apply push_const_spec|advance].
  eapply wp_seq; [apply emit_spec; [done|apply Hi|done]|advance].
  { eapply kst_weaken; [|eassumption]. by intros c <-. }
  step.
Qed.

Lemma fits_S n sh : fits (S N) (S n) sh -> fits N n sh.
Proof. intros [H1 H2]. split; [lia|done]. Qed.

Lemma good_of_fits e n sh : fits N n sh -> expr_size e <= n -> expr_ok e = true -> good N e.
Proof. intros [H _] Hn Ho. split; [lia|done]. Qed.
Lemma good_opt_of_fits e n sh :
  fits N n sh -> opt_size expr_size e <= n -> opt_all expr_ok e = true -> good_opt N e.
Proof. intros Hf Hn Ho x ->. by eapply good_of_fits. Qed.

Ltac form H := eapply wp_tail; [eapply H; try eassumption|eassumption|trivial].
Ltac part Hf := first
  [ eapply good_of_fits; [exact Hf|lia|done] | eapply good_opt_of_fits; [exact Hf|lia|done]
  | match goal with E : shape ?s = _ |- fits _ _ (shape ?s) => rewrite E end;
    eapply fits_le; [exact Hf|unfold stmts_size; lia] | done ].

Lemma good_cases_of cases n sh :
  fits N (n + sum_list_with case_size cases) sh ->
  forallb (fun '(Case test body) => opt_all expr_ok test && forallb stmt_ok body) cases = true ->
  good_cases N cases sh.
Proof.
  intros Hf Ho. apply Forall_forall. intros [test body] Hx.
  pose proof (sum_le case_size cases _ Hx) as Hle. cbn in Hle.
  pose proof (forallb_in _ _ _ Ho Hx) as Hc. cbn in Hc. apply andb_true_iff in Hc as [Ht Hb]. cbn.
  split_and!; [|eapply fits_le; [exact Hf|unfold stmts_size; lia]|exact Hb].
  eapply good_opt_of_fits; [exact Hf|lia|exact Ht].
Qed.

Lemma good_try_of body catch finally n sh :
  fits N (n + (sum_list_with stmt_size body
    + opt_size (fun '(_, catch_body) => S (sum_list_with stmt_size catch_body)) catch
    + opt_size (sum_list_with stmt_size) finally)) sh ->
  forallb stmt_ok body && opt_all (fun '(_, catch_body) => forallb stmt_ok catch_body) catch
    && opt_all (forallb stmt_ok) finally = true ->
  good_try N body catch finally sh.
Proof.
  rewrite !andb_true_iff. intros Hf [[Hb Hc] Hfin]. split; [|exact Hb| |exact Hfin].
  - eapply fits_le; [exact Hf|]. destruct catch as [[? ?]|]; cbn; unfold stmts_size; lia.
  - by destruct catch as [[? ?]|].
Qed.

Lemma compile_return_spec value s :
  good_opt N value -> ok s ->
  wp (bind match value with
           | Some value => bind (compile_expr value) (fun src => emit (Return src))
           | None => emit ReturnUndefined
           end (fun _ => load_undefined)) s (post s reg).
Proof.
  intros He Hok. start. step to keep; [|step].
  destruct value as [e|]; [specialize (He e eq_refl)|]; steps.
Qed.

Lemma compile_declarations_spec inner s :
  fits N (stmts_size inner) (shape s) -> templates_ok inner = true -> ok s ->
  wp (bind (for_each inner (fun stmt => bind (compile_stmt stmt) (fun _ => ret tt)))
        (fun _ => load_undefined)) s (post s reg).
Proof.
  intros Hf Ho Hok. start. rewrite Hsh in Hf. each; [|step].
  pose proof (sum_le stmt_size inner x Hx). unfold stmts_size in Hf.
  pose proof (forallb_in _ _ _ Ho Hx). steps.
Qed.

Lemma stmt_step_spec st s :
  fits (S N) (stmt_size st) (shape s) -> stmt_ok st = true -> ok s ->
  wp (stmt_step compile_expr compile_call_reference compile_stmt st) s (post s reg).
Proof.
  intros Hf Ho Hok. start. rewrite Hsh in Hf.
  destruct st; cbn [stmt_size] in Hf; apply fits_S in Hf; cbn [stmt_ok] in Ho;
    rewrite ?andb_true_iff in Ho; cbn [stmt_step].
  - step.
  - step.
  - assert (good N e) by part Hf. step.
  - destruct Ho as [He Hp]. form compile_var_decl_spec; [part Hf|].
    intros x ->. cbn in Hp, Hf. split; [destruct Hf; lia|done].
  - form compile_fn_decl_spec.
  - form compile_class_decl_spec. split; [destruct Hf; lia|]. by rewrite !andb_true_iff.
  - form compile_return_spec. part Hf.
  - destruct Ho as [[Ht H1] H2]. form compile_if_spec; part Hf.
  - step.
  - destruct Ho as [Ht H1]. form compile_while_spec; part Hf.
  - destruct Ho as [Ht H1]. form compile_do_while_spec; part Hf.
  - destruct Ho as [[[Hi Ht] Hu] H1]. form compile_for_spec; [|part Hf..].
    intros i ->. cbn in Hi, Hf. split; [destruct Hf; lia|done].
  - destruct Ho as [[Hp He] H1]. destruct binding as [kind p init|]; [|step].
    destruct p, init; try step. form compile_for_in_spec; part Hf.
  - destruct Ho as [[Hp He] H1]. destruct binding as [kind p init|]; [|step].
    destruct init; [step|]. form compile_for_of_spec; [|part Hf..].
    split; [destruct Hf; lia|done].
  - form compile_scoped_block_spec; part Hf.
  - form compile_declarations_spec; part Hf.
  - step.
  - step.
  - form compile_labeled_spec; part Hf.
  - form compile_break_spec; part Hf.
  - form compile_continue_spec; part Hf.
  - form compile_labeled_exit_spec; part Hf.
  - form compile_labeled_exit_spec; part Hf.
  - assert (good N value0) by part Hf. steps.
  - form compile_try_spec. rewrite Hsh. by apply (good_try_of _ _ _ 0); [|rewrite !andb_true_iff].
  - destruct Ho as [He Hc]. form compile_switch_spec; [part Hf|]. rewrite Hsh. by eapply good_cases_of.
  - assert (good N value0) by part Hf. steps.
  - eapply wp_tail; [eapply (compile_module_stmt_spec _ _ _ _ _ (fun c => exists t, c = CExportNamedTemplate t))|done|done];
      [done|done|by eexists|apply _|by intros; instr|done|done].
  - eapply wp_tail; [eapply (compile_module_stmt_spec _ _ _ _ _ (fun c => exists t, c = CExportAllTemplate t))|done|done];
      [done|done|by eexists|apply _|by intros; instr|done|done].
  - eapply wp_tail; [eapply (compile_module_stmt_spec _ _ _ _ _ (fun c => exists t, c = CImportTemplate t))|done|done];
      [done|done|by eexists|apply _|by intros; instr|done|done].
  - step.
Qed.
End Stmts.

(** ** Enough fuel *)

Section Fuel.
Context (number_string : spec_float -> Text) (B : nat).

(** A chain is read through its call reference, so it takes two steps more. *)
Definition expr_fuel (e : Expr) : nat := 3 * expr_size e + if is_chain e then 2 else 0.

Lemma expr_fuel_le e : expr_fuel e <= 3 * expr_size e + 2.
Proof. unfold expr_fuel. destruct (is_chain e); lia. Qed.

Lemma compile_expr_spec fuel : forall e,
  expr_size e <= S B -> expr_ok e = true ->
  (expr_fuel e < fuel -> expr_spec (compile_expr number_string fuel) B e) /\
  (3 * expr_size e + 1 < fuel -> ref_spec (compile_call_reference number_string fuel) B e).
Proof.
  induction fuel as [|fuel IH]; intros e HB Ho; [split; intros Hf; lia|split; intros Hf].
  - intros X s Hok. cbn [compile_expr]. unfold expr_fuel in Hf.
    eapply (expr_step_spec _ _ _ (expr_size e) B HB); [| |done|done| |done].
    + intros e' [Hs' Ho']. apply IH; [lia|done|]. pose proof (expr_fuel_le e'). lia.
    + intros e' [Hs' Ho']. apply IH; [lia|done|lia].
    + intros He. rewrite He in Hf. apply IH; [done|done|lia].
  - intros X ends s Hok Hends. cbn [compile_call_reference].
    eapply (call_reference_step_spec _ _ (expr_size e) B); [| |done|done| |done|done].
    + intros e' [Hs' Ho']. apply IH; [lia|done|]. pose proof (expr_fuel_le e'). lia.
    + intros e' [Hs' Ho']. apply IH; [lia|done|lia].
    + intros He. apply IH; [done|done|]. unfold expr_fuel.
      replace (is_chain e) with false by (by destruct e). lia.
Qed.

Lemma compile_expr_at fuel N e :
  3 * N <= fuel -> N <= S B -> good N e -> expr_spec (compile_expr number_string fuel) B e.
Proof.
  intros Hf HN [Hs Ho]. apply compile_expr_spec; [lia|done|]. pose proof (expr_fuel_le e). lia.
Qed.
Lemma compile_call_reference_at fuel N e :
  3 * N <= fuel -> N <= S B -> good N e ->
  ref_spec (compile_call_reference number_string fuel) B e.
Proof. intros Hf HN [Hs Ho]. apply compile_expr_spec; [lia|done|lia]. Qed.

(** Three steps for each part of a statement and of the cleanups around it. *)
Lemma compile_stmt_spec fuel : forall N st,
  3 * N <= fuel -> N <= S B -> stmt_ok st = true ->
  stmt_spec (compile_stmt number_string fuel) N B st.
Proof.
  induction fuel as [|fuel IH]; intros N st Hf HN Ho X s Hfit Hok.
  { destruct Hfit. lia. }
  destruct N as [|N]; [destruct Hfit; lia|]. cbn [compile_stmt].
  eapply (stmt_step_spec _ _ _ N B); [lia| | | |done|done|done].
  - intros e He. apply (compile_expr_at fuel N); [lia|lia|done].
  - intros e He. apply (compile_call_reference_at fuel N); [lia|lia|done].
  - intros st' Ho'. apply IH; [lia|lia|done].
Qed.
End Fuel.
