(* ===== verification/CompileFinishSpec.v ===== *)
(** The end of a unit: the deferred functions are compiled and their indices
    written where they are awaited, which leaves a well-formed function. *)
From stdpp Require Import prelude list strings gmap.
From Stdlib Require Import ZArith Lia SpecFloat.
From S2P Require Import Prelude JsString BigInt Ast Opcode Verify VerifySpec Compiler CompileClass CompileExpr CompileStmt CompileUnit CompileSpec CompileGrow CompilePrims CompileTactics CompileScopes CompileClassSpec.
Import Opcode Compiler Primitives Names CompileClass CompileExpr CompileStmt CompileUnit.
Local Open Scope nat_scope.

(** ** One patch *)

Section Patch.
Context (X : list PatchTarget) (B : nat).

(** A state with one more promise, and what is left when it is kept. *)
Definition promised (p : PatchTarget) (s : Compiler) : Prop :=
  ok (p :: X) B s /\ c_deferred s = [].
Definition kept (s s' : Compiler) : Prop :=
  ok X B s' /\ c_deferred s' = [] /\ c_slots s' = c_slots s.

Lemma awaited_rest s p g P k q :
  c_deferred s = [] -> q <> p -> awaited g (pend (p :: X) s) P k q -> awaited g (pend X s) P k q.
Proof.
  unfold pend. intros -> Hne [H|H]; [by left|]. cbn in H. apply elem_of_cons in H as [->|H]; [done|].
  by right.
Qed.

(** The other patches are still to be found. *)
Lemma rest_in p s s' :
  promised p s -> (forall q, q <> p -> patch_in s q -> patch_in s' q) ->
  NoDup (pend X s) /\ Forall (patch_in s') (pend X s).
Proof.
  intros [Hok Hd] H. destruct (ok_pend _ _ _ _ Hok) as [Hnd Hin]. unfold pend in *. rewrite Hd in *.
  cbn in *. apply NoDup_cons in Hnd as [Hp Hnd]. split; [done|].
  apply Forall_cons in Hin as [_ Hin]. rewrite Forall_forall in Hin |- *. intros q Hq.
  apply H; [by intros ->|by apply Hin].
Qed.

Lemma pend_same s s' : c_deferred s' = c_deferred s -> pend X s' = pend X s.
Proof. unfold pend. by intros ->. Qed.

(** The function of an instruction: only the instruction changes. *)
Lemma patch_code_spec addr dst k i s :
  promised (PatchFunction addr) s -> c_code s !! addr = Some (MakeFunction dst k : Instr) ->
  (exists k', i = (MakeFunction dst k' : Instr) /\ kst s is_cfunction k' \/
              i = (MakeAstFunction dst k' : Instr) /\ kst s is_ast k') ->
  kept s (set_code (<[addr := i]> (c_code s)) s).
Proof.
  intros Hp Ha Hi. pose proof Hp as [Hok Hd]. set (s' := set_code _ s).
  assert (forall b j, b <> addr -> c_code s !! b = Some j -> c_code s' !! b = Some j) as Hne.
  { intros b j Hb Hj. cbn. by rewrite list_lookup_insert_ne. }
  assert (grow0 s s') as G.
  { split; cbn; try done; [by rewrite length_insert|..].
    - intros b (j & Hb & Hj). exists j. split; [|done]. apply Hne; [|done].
      intros ->. rewrite Ha in Hb. simplify_eq. by destruct Hj.
    - intros r (b & j & Hb). exists b, j. apply Hne; [|done].
      intros ->. rewrite Ha in Hb. simplify_eq.
    - intros j c Hj. exists c. split; [done|apply same_const_refl]. }
  split_and!; [|done|done].
  eapply (ok_at_tables s s' G (PatchFunction addr :: X) X B s s'); [exact Hok|done| | | | |].
  - intros b j [(<- & <- & _)|[_ Hb]]%list_lookup_insert_Some.
    2:{ apply (grow_instr _ _ G). by eapply (ok_code _ _ _ _ Hok). }
    pose proof (ok_code _ _ _ _ Hok _ _ Ha) as (Hr & Hw & Hs & Ht & Ho & Hc).
    destruct Hi as (k' & [[-> Hk]|[-> Hk]]); split_and!; try done.
  - intros b d j [(<- & -> & _)|[Hb Hj]]%list_lookup_insert_Some.
    + destruct Hi as (k' & [[[= <- <-] Hk]|[? _]]); [by left|done].
    + rewrite (pend_same s s') by done. eapply (awaited_rest s (PatchFunction addr)); [done|by intros [= ->]|].
      eapply (grow_awaited _ _ G); [apply _|]. by eapply (ok_make _ _ _ _ Hok).
  - intros j c Hj. destruct (ok_class _ _ _ _ Hok j c Hj) as (A1 & A2 & A3).
    rewrite (pend_same s s') by done. split_and!.
    + by apply (grow_class _ _ G).
    + eapply (awaited_rest s (PatchFunction addr)); [done|done|]. by eapply (grow_awaited _ _ G); [apply _|].
    + intros x m f Hx Hf. eapply (awaited_rest s (PatchFunction addr)); [done|done|].
      eapply (grow_awaited _ _ G); [apply _|by eapply A3].
  - apply (ok_functions _ _ _ _ Hok).
  - rewrite (pend_same s s') by done. apply (rest_in _ _ _ Hp). intros [b|b|b x] Hb; cbn.
    + intros (d & f & Hj). exists d, f. apply Hne; [|done]. by intros ->.
    + apply (grow_kst _ _ G), _.
    + apply (grow_kst _ _ G), _.
Qed.

(** A function of a class: only its template changes. *)
Lemma patch_class_spec p k t t' s :
  promised p s -> of_class p -> c_constants s !! k = Some (CClassTemplate t) ->
  length (members t') = length (members t) ->
  (class_in s t -> class_in s t') ->
  (awaited s (pend (p :: X) s) is_func (ctor_func t) (PatchCtor k) ->
   awaited s (pend X s) is_func (ctor_func t') (PatchCtor k)) ->
  ((forall i m f, members t !! i = Some m -> member_func m = Some f ->
     awaited s (pend (p :: X) s) is_func f (PatchMember k i)) ->
   forall i m f, members t' !! i = Some m -> member_func m = Some f ->
     awaited s (pend X s) is_func f (PatchMember k i)) ->
  (match p with PatchCtor j | PatchMember j _ => j = k | PatchFunction _ => False end) ->
  kept s (set_constants (<[k := CClassTemplate t']> (c_constants s)) s).
Proof.
  intros Hp Hof Hk Hlen Hin Hctor Hmem Hpk. pose proof Hp as [Hok Hd]. set (s' := set_constants _ s).
  assert (grow0 s s') as G.
  { split; cbn; try done. intros j c Hj. destruct (decide (k = j)) as [<-|Hne].
    - rewrite Hk in Hj. simplify_eq. exists (CClassTemplate t').
      split; [apply list_lookup_insert_eq; by eapply lookup_lt_Some|right; by eexists _, _].
    - exists c. split; [by rewrite list_lookup_insert_ne|apply same_const_refl]. }
  split_and!; [|done|done].
  eapply (ok_at_tables s s' G (p :: X) X B s s'); [exact Hok|done| | | | |];
    rewrite ?(pend_same s s') by done.
  - intros b j Hb. apply (grow_instr _ _ G). by eapply (ok_code _ _ _ _ Hok).
  - intros b d j Hb. eapply (awaited_rest s p); [done|by destruct p|].
    eapply (grow_awaited _ _ G); [apply _|]. by eapply (ok_make _ _ _ _ Hok).
  - intros j c [(<- & [= <-] & _)|[Hne Hj]]%list_lookup_insert_Some.
    + destruct (ok_class _ _ _ _ Hok k t Hk) as (A1 & A2 & A3). split_and!.
      * by apply (grow_class _ _ G), Hin.
      * eapply (grow_awaited _ _ G); [apply _|by apply Hctor].
      * intros i m f Hi Hf. eapply (grow_awaited _ _ G); [apply _|by eapply Hmem].
    + destruct (ok_class _ _ _ _ Hok j c Hj) as (A1 & A2 & A3). split_and!.
      * by apply (grow_class _ _ G).
      * eapply (awaited_rest s p); [done|intros <-; by subst|]. by eapply (grow_awaited _ _ G); [apply _|].
      * intros x m f Hx Hf. eapply (awaited_rest s p); [done|intros <-; by subst|].
        eapply (grow_awaited _ _ G); [apply _|by eapply A3].
  - intros j f [(_ & ? & _)|[_ Hj]]%list_lookup_insert_Some; [done|by eapply (ok_functions _ _ _ _ Hok)].
  - apply (rest_in _ _ _ Hp). intros [b|b|b x] Hb; cbn.
    + done.
    + apply (grow_kst _ _ G), _.
    + apply (grow_kst _ _ G), _.
Qed.

(** The pairing of accessors does not look at their functions. *)
Lemma with_func_auto index i entry t k m field :
  members t !! i = Some entry ->
  Verify.auto_accessor_ok (with_members (<[i := with_func index entry]> (members t)) t) k m field
  = Verify.auto_accessor_ok t k m field.
Proof.
  intros Hi. unfold Verify.auto_accessor_ok. cbn. destruct (decide (i = k + 1)) as [->|Hne].
  - by rewrite Hi, list_lookup_insert_eq by (by eapply lookup_lt_Some).
  - by rewrite list_lookup_insert_ne.
Qed.

Lemma with_func_in s index i entry t :
  members t !! i = Some entry -> class_in s t ->
  class_in s (with_members (<[i := with_func index entry]> (members t)) t).
Proof.
  intros Hi [H1 H2 H3 H4 H5 H6 H7 H8]. split; try done.
  - cbn. apply Forall_insert; [done|]. by apply (Forall_lookup_1 _ _ _ _ H7 Hi).
  - cbn. intros k m field [(<- & <- & _)|[_ Hk]]%list_lookup_insert_Some Hm;
      rewrite with_func_auto by done; [|by apply H8].
    apply (H8 i entry field Hi Hm).
Qed.

Lemma patch_function_spec p index is_bytecode s :
  promised p s -> kst s (if is_bytecode : bool then is_cfunction else is_ast) index ->
  wp (patch_function p index is_bytecode) s (fun _ s' => kept s s').
Proof.
  intros Hp Hx. pose proof Hp as [Hok Hd].
  assert (kst s is_func index) as Hf.
  { eapply kst_weaken; [|exact Hx]. intros c Hc. destruct is_bytecode; by destruct Hc as [? ->]. }
  assert (patch_in s p) as Hin.
  { destruct (ok_pend _ _ _ _ Hok) as [_ H]. unfold pend in H. rewrite Hd in H. cbn in H.
    by apply Forall_cons in H as [? _]. }
  destruct p as [addr|k|k i]; cbn [patch_function]; apply wp_bind, wp_gets.
  - destruct Hin as (dst & k & Ha). rewrite Ha. apply wp_modify.
    apply (patch_code_spec addr dst k); [done|done|]. exists index. destruct is_bytecode; auto.
  - destruct Hin as (c & Hk & t & ->). rewrite Hk. apply wp_modify.
    apply (patch_class_spec (PatchCtor k) k t); try done.
    + intros []. by split.
    + intros _. by left.
    + intros H j m f Hj Hm. apply (awaited_rest s (PatchCtor k)); [done|done|by eapply H].
  - destruct Hin as (c & Hk & t & -> & Hi). rewrite Hk.
    destruct (lookup_lt_is_Some_2 _ _ Hi) as [entry He]. rewrite He. apply wp_modify.
    apply (patch_class_spec (PatchMember k i) k t); try done.
    + cbn. by rewrite length_insert.
    + by apply with_func_in.
    + intros H. by apply (awaited_rest s (PatchMember k i)).
    + cbn. intros H j m f [(<- & <- & _)|[Hne Hj]]%list_lookup_insert_Some Hm.
      * injection Hm as <-. by left.
      * apply (awaited_rest s (PatchMember k i)); [done|by intros [= ->]|by eapply H].
Qed.
End Patch.

(** ** The deferred functions *)

(** A compiled function is well formed, and is declined for no internal reason. *)
Definition compiled_ok (o : outcome Stop FuncOutcome) : Prop :=
  match o with
  | Ok (OutBytecode f) => well_formed f
  | Ok (OutAst _) => True
  | Err (Declined d) => internal d = false
  | Err OutOfFuel | Panic => False
  end.
Definition function_spec (compile_function : FuncDef -> gset Text -> outcome Stop FuncOutcome)
    (B : nat) : Prop :=
  forall d outer, good_def B d -> compiled_ok (compile_function d outer).

(** What the last steps of a unit leave alone. *)
Lemma push_const_keeps c s :
  wp (push_const c) s (fun _ s' => c_deferred s' = c_deferred s /\ c_slots s' = c_slots s).
Proof.
  unfold push_const, try_u16. apply wp_bind, wp_gets, wp_bind. destruct (fits_u16 _); [|done].
  by apply wp_ret, wp_bind, wp_modify, wp_ret.
Qed.

Section Finish.
Context (compile_function : FuncDef -> gset Text -> outcome Stop FuncOutcome).
Context (B : nat).
Hypothesis Hfunction : function_spec compile_function B.

Lemma set_captures_arguments_ok X x s : ok X B s -> ok X B (set_captures_arguments x s).
Proof.
  intros Hok. assert (grow s (set_captures_arguments x s)) as G by (by apply grow_same).
  carry (ok_at_grow X B s _ s Hok G).
Qed.

Lemma finish_constant_spec X p (is_bytecode : bool) c s :
  promised X B p s -> pushable c -> (if is_bytecode then is_cfunction else is_ast) c ->
  wp (bind (push_const c) (fun index => patch_function p index is_bytecode)) s
    (fun _ s' => kept X B s s').
Proof.
  intros [Hok Hd] Hc Hp. apply wp_bind.
  eapply wp_mono; [eapply wp_and; [by eapply push_const_spec|apply push_const_keeps]|].
  cbn. intros k s1 [(H1 & G & _ & Hk) [Hd1 Hs1]].
  eapply wp_mono; [apply (patch_function_spec X B p k is_bytecode s1); [by split; [|congruence]|]|].
  - eapply kst_weaken; [|exact Hk]. by intros ? <-.
  - intros [] s2 (A1 & A2 & A3). split_and!; [done|done|congruence].
Qed.

Lemma finish_function_spec X item s :
  promised X B (patch item) s -> good_def B (def item) ->
  wp (finish_function compile_function item) s (fun _ s' => kept X B s s').
Proof.
  intros Hp Hdef. unfold finish_function. apply wp_bind, wp_gets, wp_bind.
  pose proof (Hfunction (def item) (c_outer_block s ∪ snapshot item) Hdef) as Ho.
  unfold wp, run_function. destruct (compile_function _ _) as [o|[d|]|]; [|done..].
  match goal with |- context [bind ?m ?k s] => change (wp (bind m k) s (fun _ s' => kept X B s s')) end.
  set (arguments := _ && _).
  assert (promised X B (patch item) (if arguments then set_captures_arguments true s else s)
    /\ c_slots (if arguments then set_captures_arguments true s else s) = c_slots s) as [Hp1 Es].
  { destruct arguments; [|done]. destruct Hp as [H1 H2].
    split; [|done]. split; [by apply set_captures_arguments_ok|done]. }
  apply wp_bind. destruct arguments; [apply wp_modify|apply wp_ret];
    (destruct o as [f|a];
     [eapply wp_mono; [apply (finish_constant_spec X _ true); [done|done|by eexists]|]
     |eapply wp_mono; [apply (finish_constant_spec X _ false); [done|done|by eexists]|]];
     intros [] s1 (A1 & A2 & A3); by split_and!).
Qed.

Lemma finish_all_spec l : forall s,
  ok (map patch l) B s -> c_deferred s = [] -> Forall (fun d => good_def B (def d)) l ->
  wp (for_each l (finish_function compile_function)) s (fun _ s' => kept [] B s s').
Proof.
  induction l as [|item l IH]; intros s Hok Hd Hl; cbn [for_each]; [by apply wp_ret|].
  apply Forall_cons in Hl as [Hi Hl]. apply wp_bind.
  eapply wp_mono; [by apply (finish_function_spec (map patch l)); [split|]|].
  intros [] s1 (A1 & A2 & A3). eapply wp_mono; [by apply IH|].
  intros [] s2 (B1 & B2 & B3). split_and!; [done|done|congruence].
Qed.

Lemma finish_functions_spec s :
  ok [] B s -> wp (finish_functions compile_function) s (fun _ s' => kept [] B s s').
Proof.
  intros Hok. unfold finish_functions. apply wp_bind, wp_gets, wp_bind, wp_modify.
  set (s1 := set_deferred [] s).
  assert (pend (map patch (c_deferred s)) s1 = pend [] s) as E.
  { unfold pend, s1. cbn. by rewrite app_nil_r. }
  assert (ok (map patch (c_deferred s)) B s1) as H1.
  { assert (grow0 s s1) as G.
    { split; try done. intros k c Hc. exists c. split; [done|apply same_const_refl]. }
    destruct (ok_at_grow0 s s1 G [] B s Hok) as []; [apply (ok_pend _ _ _ _ Hok)|].
    split; try done; rewrite ?E; done. }
  eapply wp_mono; [by apply finish_all_spec; [..|apply (ok_deferred _ _ _ _ Hok)]|done].
Qed.
End Finish.
