(* ===== verification/CompileBuildSpec.v ===== *)
(** [build_function]: when no patch is pending, the tables of the compiler make
    a well-formed function. *)
From stdpp Require Import prelude list strings gmap.
From Stdlib Require Import ZArith Lia SpecFloat.
From S2P Require Import Prelude JsString BigInt Ast Opcode Verify VerifySpec Compiler CompileClass CompileExpr CompileStmt CompileUnit CompileSpec CompileGrow CompilePrims CompileTactics CompileScopes.
Import Opcode Compiler Primitives Names CompileClass CompileExpr CompileStmt CompileUnit.
Local Open Scope nat_scope.

(** ** Sites *)

(** An instruction with the number of its property site. *)
Definition with_site (n : nat) (i : Instr) : Instr :=
  match i with
  | Property (GetProp private _ dst obj key) => GetProp private n dst obj key
  | Property (SetProp _ obj key val) => SetProp n obj key val
  | _ => i
  end.

Definition sites (code : list Instr) : nat := length (filter (fun i => Verify.is_site i = true) code).

Lemma with_site_plain n i : Verify.is_site i = false -> with_site n i = i.
Proof. by destruct i as [| | |[]| |]. Qed.
Lemma with_site_operand n i : Verify.is_site i = true -> cache_operands (with_site n i) = [n].
Proof. by destruct i as [| | |[]| |]. Qed.
Lemma with_site_is_site n i : Verify.is_site (with_site n i) = Verify.is_site i.
Proof. by destruct i as [| | |[]| |]. Qed.
Lemma plain_operands i : Verify.is_site i = false -> cache_operands i = [].
Proof. by destruct i as [| | |[]| |]. Qed.

(** One step of the loop. *)
Lemma number_sites_cons n i code :
  number_sites n (i :: code) =
  if Verify.is_site i then
    if fits_u32 (n + 1) then
      bind (number_sites (n + 1) code) (fun '(code, count) => ret (with_site n i :: code, count))
    else decline (DeclineFunc "too many property sites")
  else bind (number_sites n code) (fun '(code, count) => ret (i :: code, count)).
Proof. by destruct i as [| | |[]| |]. Qed.

(** The numbered code: the same instructions, with their sites below the count. *)
Record numbered (n count : nat) (code code' : list Instr) : Prop := {
  nb_count : n + sites code' = count;
  nb_length : length code' = length code;
  nb_code : forall a j, code' !! a = Some j -> exists i k, code !! a = Some i /\ j = with_site k i;
  nb_sites : forall a j, code' !! a = Some j -> Forall (fun c => c < count) (cache_operands j);
}.

Lemma numbered_cons n count i code code' (site := Verify.is_site i) :
  numbered (if site then n + 1 else n) count code code' ->
  numbered n count (i :: code) ((if site then with_site n i else i) :: code').
Proof.
  intros [H1 H2 H3 H4]. subst site. destruct (Verify.is_site i) eqn:E; split; cbn; try lia.
  - unfold sites in *. rewrite decide_True by (by rewrite with_site_is_site).
    by rewrite <- H1, <- Nat.add_assoc.
  - intros [|a] j Hj; cbn in Hj; [|by apply H3]. injection Hj as <-. by exists i, n.
  - intros [|a] j Hj; cbn in Hj; [|by eapply H4]. injection Hj as <-.
    rewrite with_site_operand by done. apply Forall_singleton. lia.
  - unfold sites in *. by rewrite decide_False by (by rewrite E).
  - intros [|a] j Hj; cbn in Hj; [|by apply H3]. injection Hj as <-.
    exists i, n. by rewrite with_site_plain.
  - intros [|a] j Hj; cbn in Hj; [|by eapply H4]. injection Hj as <-. by rewrite plain_operands.
Qed.

Lemma number_sites_spec code : forall n s,
  wp (number_sites n code) s (fun x s' => s' = s /\ numbered n x.2 code x.1).
Proof.
  induction code as [|i code IH]; intros n s.
  { apply wp_ret. split; [done|]. split; cbn; try done. }
  rewrite number_sites_cons. pose proof (fun count => numbered_cons n count i code) as Hc.
  cbn zeta in Hc. destruct (Verify.is_site i) eqn:E.
  - destruct (fits_u32 _); [|done]. apply wp_bind. eapply wp_mono; [apply IH|].
    intros [code' count] s1 [-> Hn]. apply wp_ret. split; [done|]. by apply Hc.
  - apply wp_bind. eapply wp_mono; [apply IH|].
    intros [code' count] s1 [-> Hn]. apply wp_ret. split; [done|]. by apply Hc.
Qed.

(** ** The finished function *)

Section Build.
Context (B : nat) (s : Compiler) (Hok : ok [] B s) (Hd : c_deferred s = []).
Context (f : BytecodeFunction).
Hypothesis Hconstants : constants f = c_constants s.
Hypothesis Hregisters : register_count f = c_max_reg s.
Hypothesis Hlocals : local_count f = length (c_slots s).
Hypothesis Hcode : length (code f) = length (c_code s).

(** Nothing is pending, so what was awaited is there. *)
Lemma arrived P k p : awaited s (pend [] s) P k p -> kst s P k.
Proof. unfold pend. rewrite Hd. intros [H|H]; [done|by apply elem_of_nil in H]. Qed.

Lemma const_of P Q k : kst s P k -> (forall c, P c -> Q c) -> const_is f Q k.
Proof. intros (c & Hc & HP) H. exists c. rewrite Hconstants. auto. Qed.

Lemma opt_lists {A} (o : option A) : option_list o = opt_list o.
Proof. by destruct o. Qed.

Lemma reg_of r : reg_in s r -> reg_ok f r.
Proof. unfold reg_in, reg_ok. by rewrite Hregisters. Qed.
Lemma regs_of l : Forall (reg_in s) l -> Forall (reg_ok f) l.
Proof. intros H. eapply Forall_impl; [exact H|]. apply reg_of. Qed.
Lemma opt_of o : opt_in s o -> Forall (reg_ok f) (opt_list o).
Proof. unfold opt_in. rewrite opt_lists. apply regs_of. Qed.
Lemma name_of n : name_in s n -> name_ok f n.
Proof. destruct n; [done|done|apply reg_of]. Qed.
Lemma decorators_of l : decorators_in s l -> decorators_ok f l.
Proof.
  intros H. eapply Forall_impl; [exact H|]. intros d [H1 H2]. split; [by apply reg_of|by apply opt_of].
Qed.
Lemma spread_of b e : entry_in s b e -> spread_ok f b e.
Proof. intros [H1 H2]. split; [by apply reg_of|done]. Qed.
Lemma prop_of e : prop_in s e -> entry_ok f e.
Proof.
  intros [H1 H2]. split; [by apply reg_of|]. destruct (prop_key e) as [[]|]; [|by apply reg_of|done].
  by eapply const_of.
Qed.

Lemma class_of k t : c_constants s !! k = Some (CClassTemplate t) -> class_ok f t.
Proof.
  intros Hk. destruct (ok_class _ _ _ _ Hok k t Hk) as ([H1 H2 H3 H4 H5 H6 H7 H8] & Hc & Hm).
  split_and!.
  - by apply decorators_of.
  - by apply opt_of.
  - by apply opt_of.
  - by apply regs_of.
  - by eapply const_of; [eapply arrived|].
  - eapply Forall_impl; [exact H5|]. intros d [A1 A2]. split; [by apply name_of|by apply decorators_of].
  - intros i m Hi. pose proof (Forall_lookup_1 _ _ _ _ H7 Hi) as [A1 A2].
    split_and!; [by intros field; apply H8|by apply decorators_of|by apply name_of|].
    destruct (member_func m) as [g|] eqn:E; cbn; [|apply Forall_nil_2].
    apply Forall_singleton. eapply const_of; [eapply arrived, Hm; [exact Hi|exact E]|done].
  - eapply Forall_impl; [exact H6|]. intros [n|j]; cbn; [apply name_of|].
    intros Hj. by eapply const_of.
Qed.

Lemma spread_const_of b k :
  (exists l, kst s (eq (CSpreadTemplate l)) k /\ Forall (entry_in s b) l) ->
  const_is f (fun c => exists l, c = CSpreadTemplate l /\ Forall (spread_ok f b) l) k.
Proof.
  intros (l & Hk & Hl). eapply const_of; [exact Hk|]. intros c <-. exists l. split; [done|].
  eapply Forall_impl; [exact Hl|]. apply spread_of.
Qed.

Lemma constant_of a i : c_code s !! a = Some i -> const_operands_ok f i.
Proof.
  intros Ha. pose proof (ok_code _ _ _ _ Hok a i Ha) as (_ & _ & _ & _ & _ & Hc).
  destruct i as [[]|[]|[]|[]|[]|[]]; cbn in Hc |- *; try exact I;
    try (by eapply const_of); try (by apply spread_const_of).
  - destruct Hc as (l & Hk & Hl). eapply const_of; [exact Hk|]. intros c <-. by exists l.
  - destruct key; [by eapply const_of|done].
  - eapply const_of; [eapply arrived, (ok_make _ _ _ _ Hok), Ha|done].
  - destruct Hc as (l & Hk & Hl). eapply const_of; [exact Hk|]. intros c <-. exists l.
    split; [done|]. eapply Forall_impl; [exact Hl|]. apply prop_of.
  - destruct Hc as (c & Hk & t & ->). exists (CClassTemplate t). rewrite Hconstants.
    split; [done|]. exists t. split; [done|]. by eapply class_of.
  - rewrite <- opt_lists. eapply Forall_impl; [exact Hc|]. intros k Hk. by eapply const_of.
Qed.

Lemma instr_of a i k :
  c_code s !! a = Some i -> Forall (fun c => c < caches f) (cache_operands (with_site k i)) ->
  instr_ok f (with_site k i).
Proof.
  intros Ha Hs. pose proof (ok_code _ _ _ _ Hok a i Ha) as (H1 & H2 & H3 & H4 & H5 & _).
  pose proof (constant_of a i Ha) as H6.
  unfold instr_ok, reg_ok. rewrite Hregisters, Hlocals, Hcode.
  destruct i as [| | |[]| |]; split_and!; done.
Qed.
End Build.

Lemma build_function_spec B name parameters is_arrow is_constructor s :
  ok [] B s -> c_deferred s = [] -> parameters <= length (c_slots s) ->
  wp (build_function name parameters is_arrow is_constructor) s (fun f _ => well_formed f).
Proof.
  intros Hok Hd Hp. unfold build_function, try_u16. apply wp_bind.
  destruct (fits_u16 parameters); [|done]. apply wp_ret, wp_bind, wp_gets, wp_bind.
  destruct (fits_u16 (length _)); [|done]. apply wp_ret, wp_bind, wp_gets, wp_bind.
  eapply wp_mono; [apply number_sites_spec|]. intros [code count] s1 [-> [H1 H2 H3 H4]].
  apply wp_bind, wp_gets, wp_bind, wp_modify, wp_ret. cbn [fst snd] in *.
  match goal with |- well_formed ?f => set (g := f) end.
  split.
  - by split_and!.
  - intros a j Hj. destruct (H3 a j Hj) as (i & k & Hi & ->).
    by apply (instr_of B s Hok Hd g eq_refl eq_refl eq_refl H2 a i k Hi), (H4 a).
  - apply (ok_functions _ _ _ _ Hok).
Qed.

Lemma with_header_well_formed source named strict f :
  well_formed f -> well_formed (with_header source named strict f).
Proof. intros [g Hh Hc Hn]. by split. Qed.
