(* ===== verification/CompileUnitSpec.v ===== *)
(** A unit compiles to a well-formed function: the states a compiler starts in,
    the parameters, the programs and the functions; and the fuel that is enough. *)
From stdpp Require Import prelude list strings gmap.
From Stdlib Require Import ZArith Lia SpecFloat.
From S2P Require Import Prelude JsString BigInt Ast Opcode Verify VerifySpec Compiler CompileClass CompileExpr CompileStmt CompileUnit CompileSpec CompileGrow CompilePrims CompileTactics CompileScopes CompileClassSpec CompileExprSpec CompileOperatorSpec CompileHoistSpec CompileBlockSpec CompileStmtSpec CompileFinishSpec CompileBuildSpec.
Import Opcode Compiler Primitives Names CompileClass CompileExpr CompileStmt CompileUnit.
Local Open Scope nat_scope.

(** ** The start *)

(** A compiler that has done nothing. *)
Definition fresh (s : Compiler) : Prop :=
  exists outer captured top mode arrow arguments g,
    s = mkCompiler [] [] ∅ ∅ None None None None [] [root_scope g] [] [] ∅ [] [] [] 0 0 outer
          captured top mode arrow arguments ∅.

Lemma fresh_top : fresh top_level.
Proof. by do 7 eexists. Qed.
Lemma fresh_function outer mode arrow : fresh (for_function outer mode arrow).
Proof. by do 7 eexists. Qed.
Lemma fresh_captured x s : fresh s -> fresh (set_captured x s).
Proof. intros (? & ? & ? & ? & ? & ? & ? & ->). by do 7 eexists. Qed.
Lemma fresh_arguments x s : fresh s -> fresh (set_captures_arguments x s).
Proof. intros (? & ? & ? & ? & ? & ? & ? & ->). by do 7 eexists. Qed.

Lemma fresh_state_ok B s : fresh s -> ok [] B s.
Proof.
  intros (outer & captured & top & mode & arrow & arguments & g & ->).
  split; cbn; try done; try apply Forall_nil_2; try (by apply map_Forall_empty).
  - by apply Forall_singleton, map_Forall_empty.
  - split; [apply NoDup_nil_2|apply Forall_nil_2].
Qed.

Lemma fresh_fits n s : fresh s -> fits (S n) n (shape s).
Proof.
  intros (outer & captured & top & mode & arrow & arguments & g & ->). split; [cbn; lia|].
  apply Forall_nil_2.
Qed.

(** ** Parameters *)

Lemma has_dup_params_NoDup params : has_dup_params params = false -> NoDup params.
Proof.
  induction params as [|p params IH]; cbn; [intros _; apply NoDup_nil_2|].
  intros [H1 H2]%orb_false_iff. apply NoDup_cons. split; [|by apply IH].
  intros Hin. apply not_true_iff_false in H1. apply H1, existsb_exists. exists p.
  split; [by apply list_elem_of_In|]. by apply bool_decide_eq_true.
Qed.

(** Each parameter of the function's scope gets a slot of its own. *)
Lemma declare_params_slots params : forall s sc,
  NoDup params -> c_scopes s = [sc] -> (forall p, p ∈ params -> bindings sc !! p = None) ->
  wp (declare_params params) s
    (fun _ s' => length (c_slots s) + length params <= length (c_slots s')).
Proof.
  induction params as [|p params IH]; intros s sc Hnd Hs Hb; [apply wp_ret; cbn; lia|].
  apply NoDup_cons in Hnd as [Hp Hnd]. unfold declare_params. cbn [for_each].
  apply wp_assoc. unfold declare_slot. apply wp_assoc, wp_bind, wp_gets.
  replace (bound_here p s) with (@None Slot)
    by (unfold bound_here, last_scope; rewrite Hs; symmetry; apply Hb; left).
  apply wp_assoc. unfold alloc_slot, try_u16. apply wp_assoc, wp_bind, wp_gets, wp_assoc, wp_bind.
  destruct (fits_u16 _); [|done].
  apply wp_ret, wp_assoc, wp_bind, wp_gets, wp_assoc, wp_bind, wp_gets, wp_assoc, wp_bind, wp_modify.
  apply wp_bind, wp_ret, wp_assoc, wp_bind, wp_gets. cbn [c_scopes set_slots]. rewrite Hs. cbn [last].
  apply wp_assoc, wp_bind, wp_modify, wp_bind, wp_ret, wp_bind, wp_ret.
  eapply wp_mono; [eapply IH; [done|done|]|].
  - intros q Hq. cbn. rewrite lookup_insert_ne by (by intros <-). apply Hb. by right.
  - cbn. intros _ s1. rewrite length_app. cbn. lia.
Qed.

Lemma fresh_params B params s :
  fresh s -> NoDup params ->
  wp (declare_params params) s
    (post [] B s (fun _ s' => length params <= length (c_slots s'))).
Proof.
  intros Hs Hnd. eapply wp_mono; [eapply wp_and|].
  - apply declare_params_spec, fresh_state_ok, Hs.
  - destruct Hs as (outer & captured & top & mode & arrow & arguments & g & ->).
    by eapply declare_params_slots.
  - cbn. intros [] s1 [(H1 & H2 & H3 & _) H4]. split_and!; [done|done|done|].
    destruct Hs as (outer & captured & top & mode & arrow & arguments & g & ->). exact H4.
Qed.

(** Slots are not given up. *)
#[export] Instance upward_slots n : Upward (fun s => n <= length (c_slots s)).
Proof. intros s s' G H. pose proof (g_slots _ _ (g_grow _ _ G)). lia. Qed.

(** A step of a unit, whose end is not a step. *)
Lemma wp_step {A C} X B sh (m : M A) (k : A -> M C) s P (Q : C -> Compiler -> Prop) :
  wp m s (post_at X B sh s P) ->
  (forall x s1, ok X B s1 -> grow s s1 -> shape s1 = sh -> P x s1 -> wp (k x) s1 Q) ->
  wp (bind m k) s Q.
Proof.
  intros Hm Hk. apply wp_bind. eapply wp_mono; [exact Hm|].
  intros x s1 (H1 & H2 & H3 & H4). by apply Hk.
Qed.

(** ** Units *)

Section Unit.
Context (compile_expr : Expr -> M Reg) (compile_stmt : Statement -> M Reg).
Context (compile_function : FuncDef -> gset Text -> outcome Stop FuncOutcome).
Context (B : nat).
Hypothesis Hexpr : forall e, good (S B) e -> expr_spec compile_expr B e.
Hypothesis Hstmt : forall st, stmt_ok st = true -> stmt_spec compile_stmt (S B) B st.
Hypothesis Hfunction : function_spec compile_function B.

Ltac next := eapply (wp_step [] B); [spec|advance].

(** The last two steps. *)
Lemma finish_spec name n is_arrow is_constructor s :
  ok [] B s -> n <= length (c_slots s) ->
  wp (bind (finish_functions compile_function) (fun _ => build_function name n is_arrow is_constructor))
    s (fun f _ => well_formed f).
Proof.
  intros Hok Hn. apply wp_bind. eapply wp_mono; [by eapply finish_functions_spec|].
  intros [] s1 (H1 & H2 & H3). apply (build_function_spec B); [done|done|by rewrite H3].
Qed.

(** A list of statements, whose results [use] takes. *)
Lemma each_stmt_spec stmts (use : Statement -> Reg -> M unit) sh s :
  stmts_size stmts <= B -> templates_ok stmts = true -> fits (S B) B sh -> ok [] B s ->
  shape s = sh ->
  (forall st r s1, ok [] B s1 -> grow s s1 -> reg_in s1 r ->
     wp (use st r) s1 (post [] B s1 (fun _ _ => True))) ->
  wp (for_each stmts (fun st => bind (compile_stmt st) (use st))) s
    (post [] B s (fun _ _ => True)).
Proof.
  intros Hs Ho Hf Hok Hsh Huse. apply for_each_spec; [|done]. intros st s1 Hin Hok1 G Hsh1.
  pose proof (sum_le stmt_size stmts st Hin) as Hle. unfold stmts_size in Hs.
  eapply wp_then; [eapply Hstmt; [by eapply forallb_in| |done]|].
  - rewrite Hsh1, Hsh. eapply fits_le; [exact Hf|lia].
  - intros r s2 Hok2 G2 Hsh2 Hr. eapply wp_mono; [apply Huse; [done|by eapply later_trans|done]|].
    intros x s3 (A1 & A2 & A3 & A4). split_and!; [done|by eapply later_trans|congruence|done].
Qed.

Lemma compile_top_spec stmts linked s :
  fresh s -> stmts_size stmts <= B -> templates_ok stmts = true ->
  wp (compile_top compile_stmt compile_function stmts linked) s (fun f _ => well_formed f).
Proof.
  intros Hs Hsize Ho. pose proof (fresh_state_ok B s Hs) as Hok. pose proof (fresh_fits B s Hs) as Hf.
  unfold compile_top. remember (shape s) as sh eqn:Hsh. symmetry in Hsh.
  next. next. eapply (wp_step [] B).
  { assert (wp (if linked then ret tt else hoist_top stmts) s1 (post [] B s1 (fun _ _ => True)))
      as H; [|exact H].
    destruct linked; [by apply wp_same|]. apply (hoist_top_spec (S B) B); (done || lia). }
  advance. next. next. eapply (wp_step [] B).
  { eapply each_stmt_spec; [exact Hsize|done|by apply fits_completion|done|exact Hsh0|].
    intros st v s5 Hok5 G5 Hv. up G5. start. steps. }
  advance. next. eapply finish_spec; [done|lia].
Qed.

Lemma function_body_spec def s :
  fresh s -> good_def (S B) def -> NoDup (def_params def) ->
  wp (match def_body def with
      | FStmts stmts =>
          bind (gets c_is_arrow) (fun is_arrow =>
          bind (hoist_function (def_params def) stmts is_arrow) (fun _ =>
          bind checkpoint (fun checkpoint =>
          for_each stmts (fun stmt => bind (compile_stmt stmt) (fun _ => restore checkpoint)))))
      | FExpr e =>
          bind (declare_params (def_params def)) (fun _ =>
          bind (compile_expr e) (fun value => emit (Return value)))
      end) s (post [] B s (fun _ s' => length (def_params def) <= length (c_slots s'))).
Proof.
  intros Hs [Ho Hd] Hnd. pose proof (fresh_fits B s Hs) as Hf. pose proof (fresh_state_ok B s Hs) as Hok.
  pose proof (fresh_params B _ s Hs Hnd) as Hparams. start. rewrite Hsh in Hf.
  unfold def_size, def_ok in *. destruct (def_body def) as [stmts|e].
  - step. unfold hoist_function. apply wp_assoc.
    eapply wp_seq; [exact Hparams|advance].
    eapply wp_seq; [apply (hoist_body_spec (S B) B); (done || lia)|advance].
    step. eapply wp_mono; [eapply each_stmt_spec; [|done|exact Hf|done|done|]; [lia|]|].
    + intros st r1 s5 Hok5 G5 Hr. up G5. start. steps.
    + intros [] s5 (H1 & G & H3 & _). split_and!; [done|done|congruence|].
      pose proof (g_slots _ _ (g_grow _ _ G)). lia.
  - eapply wp_seq; [exact Hparams|advance].
    eapply wp_seq; [apply Hexpr; [split; [lia|done]|done]|advance].
    eapply wp_mono; [by apply (emit_spec [] B); [|instr|]|].
    intros [] s5 (H1 & G & H3 & _). split_and!; [done|done|congruence|].
    pose proof (g_slots _ _ (g_grow _ _ G)). lia.
Qed.

Lemma compile_unit_function_spec def s :
  fresh s -> good_def (S B) def -> has_dup_params (def_params def) = false ->
  wp (compile_unit_function compile_expr compile_stmt compile_function def) s
    (fun f _ => well_formed f).
Proof.
  intros Hs Hd Hp. apply has_dup_params_NoDup in Hp. unfold compile_unit_function.
  apply wp_bind, wp_modify, wp_bind. pose proof (fresh_captured (find_captured (def_params def) (def_body def)) s Hs) as Hc.
  clear Hs.
  eapply (wp_mono _ _ (fun _ s1 => fresh s1)).
  { destruct (negb _ && _); [|by apply wp_ret]. apply wp_bind, wp_modify, wp_modify.
    by apply fresh_arguments, fresh_captured. }
  intros [] s1 Hs1. eapply wp_step; [by apply function_body_spec|].
  intros [] s2 Hok2 _ _ Hn.
  apply wp_bind. eapply wp_mono; [by eapply finish_functions_spec|].
  intros [] s3 (H1 & H2 & H3). apply wp_bind. eapply wp_mono.
  { apply (build_function_spec B); [done|done|by rewrite H3]. }
  intros f s4 Hf. by apply wp_ret, with_header_well_formed.
Qed.
End Unit.

(** ** Enough fuel *)

Section Fuel.
Context (number_string : spec_float -> Text).

(** A nested function is smaller than what it is nested in. *)
Lemma compile_function_spec fuel : forall B,
  3 * B + 1 <= fuel -> function_spec (compile_function number_string fuel) B.
Proof.
  induction fuel as [|fuel IH]; intros B Hf d outer [Ho Hd]; [lia|].
  destruct B as [|B]; [unfold def_size in Hd; lia|]. cbn [compile_function].
  destruct (_ || has_dup_params (def_params d)) eqn:E; [done|].
  apply orb_false_iff in E as [_ E].
  assert (wp (compile_unit_function (compile_expr number_string fuel)
                (compile_stmt number_string fuel) (compile_function number_string fuel) d)
             (for_function outer (if def_is_arrow d then Global else Frame) (def_is_arrow d))
             (fun f _ => well_formed f)) as H.
  { apply (compile_unit_function_spec _ _ _ B); [..|apply fresh_function|by split|done].
    - intros e. apply compile_expr_at; lia.
    - intros st. apply compile_stmt_spec; lia.
    - apply IH. lia. }
  unfold wp in H. destruct (compile_unit_function _ _ _ d _) as [[f s]|[[]|]|]; done.
Qed.

(** What a compilation gives: a well-formed function or an honest decline. *)
Definition unit_ok {A} (P : A -> Prop) (o : outcome Unsupported A) : Prop :=
  match o with
  | Ok f => P f
  | Err (unsupported reason) => reason ∉ internal_reasons
  | Err unsupported_fuel | Panic => False
  end.

Lemma compile_unit_spec stmts linked :
  templates_ok stmts = true -> unit_ok well_formed (compile_unit number_string stmts linked).
Proof.
  intros Ho. unfold compile_unit. set (fuel := program_fuel stmts).
  assert (wp (compile_top (compile_stmt number_string fuel) (compile_function number_string fuel)
                stmts linked) top_level (fun f _ => well_formed f)) as H.
  { apply (compile_top_spec _ _ (stmts_size stmts)); [..|apply fresh_top|done|done];
      unfold fuel, program_fuel.
    - intros st. apply compile_stmt_spec; lia.
    - apply compile_function_spec. lia. }
  unfold wp in H. destruct (compile_top _ _ _ _ _) as [[f s]|[d|]|]; try done.
  by apply bool_decide_eq_false in H.
Qed.
End Fuel.
