(* ===== verification/CompileTheorems.v ===== *)
(** What the bytecode compiler guarantees: it ends on every program with a
    result or an honest decline, its result is accepted by the verifier, and so
    the machine runs it safely; and where an inlined [finally] body goes wrong. *)
From stdpp Require Import prelude list strings gmap.
From Stdlib Require Import ZArith Lia SpecFloat.
From S2P Require Import Prelude JsString BigInt Ast Opcode Verify VerifySpec VerifyTheorems Machine Vm VmSafety VmTheorems Compiler CompileClass CompileExpr CompileStmt CompileUnit CompileSpec CompileGrow CompileTactics CompileBlockSpec CompileStmtSpec CompileUnitSpec.
Import Opcode Verify Machine Vm Compiler CompileStmt CompileUnit.
Local Open Scope Z_scope.

(** A number is printed as nothing: the samples have no numeric keys. *)
Definition no_numbers : SpecFloat.spec_float -> Text := fun _ => [].

Definition ident (name : string) : Expr := EIdentifier (chars name).

(** [function f(x) { if (x) { return x; } } f] *)
Definition sample_program : list Statement :=
  [SFnDecl 0 None (chars "f") [chars "x"] [SIf (ident "x") [SReturn (Some (ident "x"))] None]
     false false false;
   SExpr (ident "f")].

Definition compiled_sample : BytecodeModule :=
  match compile_program no_numbers sample_program with
  | Ok m => m
  | _ => {| main := VerifyTheorems.sample [] [] 0 [] |}
  end.

(** C8. Compilation always ends, and what it gives is verified: a program whose
    template literals have the shape the parser gives them either compiles to a
    module that the bytecode verifier accepts, with every nested function, or is
    declined for one of the reasons of the subset.  No recursion of the compiler
    runs out, no table is indexed out of range, and none of the declines that
    would betray an inconsistent compiler (a jump, function or class patch that
    is not there, an empty scope, unwind or loop stack) is ever the reason. *)
Theorem compile_program_verifies number_string stmts :
  templates_ok stmts = true ->
  unit_ok (fun m => verify_module m = Ok tt) (compile_program number_string stmts).
Proof.
  intros Ho. pose proof (compile_unit_spec number_string stmts false Ho) as H.
  unfold compile_program. destruct (compile_unit _ _ _) as [f|[]|]; try done.
  by apply verify_function_Ok, CompileBuildSpec.with_header_well_formed.
Qed.

Lemma compile_program_verifies_witness :
  unit_ok (fun m => verify_module m = Ok tt) (compile_program no_numbers sample_program).
Proof. apply compile_program_verifies. reflexivity. Defined.

(** The witness compiles: it is not declined. *)
Example sample_program_compiles : compile_program no_numbers sample_program = Ok compiled_sample.
Proof. vm_compute. reflexivity. Qed.

(** C11. A module of the module linker, whose declarations are hoisted by the
    linker, is compiled under the same guarantee. *)
Theorem compile_linked_program_verifies number_string stmts :
  templates_ok stmts = true ->
  unit_ok (fun m => verify_module m = Ok tt) (compile_linked_program number_string stmts).
Proof.
  intros Ho. pose proof (compile_unit_spec number_string stmts true Ho) as H.
  unfold compile_linked_program. destruct (compile_unit _ _ _) as [f|[]|]; try done.
  by apply verify_function_Ok.
Qed.

Lemma compile_linked_program_verifies_witness :
  unit_ok (fun m => verify_module m = Ok tt)
    (compile_linked_program no_numbers
      [SImport [] (JsString.from_string (chars "m")) Evaluation None [(chars "a", chars "a")] None]).
Proof. apply compile_linked_program_verifies. reflexivity. Defined.

(** C9. From source to execution: whatever a program compiles to runs safely.
    For every behaviour of the interpreter's methods, every recycled activation
    and any number of turns of the dispatch loop, the compiled module never
    indexes a register, slot, constant or cache table out of range. *)
Theorem compiled_code_never_panics {I : Interpreter} number_string stmts m pool this args n top st :
  templates_ok stmts = true -> compile_program number_string stmts = Ok m -> Forall clean pool ->
  match run_loop (main m) n top st (setup pool (main m) this args).2 with
  | (Panic, _, _) => False
  | (_, _, fr) => frame_ok (main m) fr
  end.
Proof.
  intros Ho Hm Hp. pose proof (compile_unit_spec number_string stmts false Ho) as H.
  unfold compile_program in Hm. destruct (compile_unit _ _ _) as [f|e|]; [|done..].
  injection Hm as <-. cbn [main]. apply CompileBuildSpec.with_header_well_formed with
    (source := source_text f) (named := named_expression f) (strict := use_strict stmts) in H.
  assert (header_ok (with_header (source_text f) (named_expression f) (use_strict stmts) f)) as Hh
    by (by apply well_formed_inv in H as (? & _)).
  pose proof (safe_run_loop _ H n top st _ (setup_frame_ok pool _ this args Hp Hh)) as Hs.
  destruct (run_loop _ _ _ _ _) as [[[x|e|] st'] fr']; naive_solver.
Qed.

Lemma compiled_code_never_panics_witness :
  match @run_loop toy (main compiled_sample) 20 true tt
          (setup [] (main compiled_sample) Undefined []).2 with
  | (Panic, _, _) => False
  | (_, _, fr) => frame_ok (main compiled_sample) fr
  end.
Proof.
  apply (@compiled_code_never_panics toy no_numbers sample_program compiled_sample [] Undefined [] 20
    true tt); [reflexivity|vm_compute; reflexivity|constructor].
Defined.

(** C10. Every statement keeps the compiler's invariant and its stacks.  From any
    consistent state, with fuel for three steps per part of the statement and of
    the cleanups around it, compiling a statement whose template literals have a
    chunk more than holes is declined for a reason of the subset, or it leaves a
    consistent state, an allocated register, and the stacks as they were: the
    scopes around the innermost one with all of their names, the innermost one but
    for its own names, the cleanups, the completion
    registers, and the loops with their labels, kinds and depths, but for the
    jumps still to be patched, which an exit adds to.  Every index that was in
    range, every emitted jump and every promised function patch is still there. *)
Theorem statement_keeps_stacks number_string fuel N B X st s :
  (3 * N <= fuel)%nat -> (N <= S B)%nat -> stmt_ok st = true -> ok X B s ->
  fits N (Ast.stmt_size st) (shape s) ->
  wp (compile_stmt number_string fuel st) s
    (fun r s' => ok X B s' /\ grow s s' /\ shape s' = shape s /\ reg_in s' r).
Proof. intros Hf HN Ho Hok Hs. by eapply (compile_stmt_spec number_string B fuel N). Qed.

(** [try { x } finally { x }] *)
Definition sample_statement : Statement :=
  STry [SExpr (ident "x")] None (Some [SExpr (ident "x")]).

Lemma statement_keeps_stacks_witness :
  wp (compile_stmt no_numbers 30 sample_statement) top_level
    (fun r s' => ok [] 9 s' /\ grow top_level s' /\ shape s' = shape top_level /\ reg_in s' r).
Proof.
  apply (statement_keeps_stacks no_numbers 30 10 9);
    [lia|lia|reflexivity|apply fresh_state_ok, fresh_top|].
  apply (fits_le 10 9); [apply (fresh_fits 9), fresh_top|vm_compute; lia].
Defined.

(** ** Cleanups on the way out

    A [break] or [continue] that crosses a [finally] compiles its body again, in
    place.  The copy is compiled with the crossed entries off the unwind stack,
    but with the loops and the scopes of the exit. *)

Definition only_function (o : outcome Unsupported BytecodeModule) : option BytecodeFunction :=
  match o with
  | Ok m =>
      match List.filter (fun c => match c with CFunction _ => true | _ => false end)
              (constants (main m)) with
      | [CFunction f] => Some f
      | _ => None
      end
  | _ => None
  end.
Definition code_at (o : outcome Unsupported BytecodeModule) (a : nat) : option Instr :=
  f ← only_function o; code f !! a.

(** [function f() { outer: while (a) { try { while (b) { break outer; } } finally { continue; } } }] *)
Definition continue_in_finally : list Statement :=
  [SFnDecl 0 None (chars "f") []
    [SLabeled (chars "outer") (SWhile (ident "a")
      [STry [SWhile (ident "b") [SLabeledBreak (chars "outer")]] None (Some [SContinue])])]
    false false false].

(** The [continue] of the copy at 13 goes on with the loop over [b], at 10, which
    the [break] leaves; those of the region itself go on with the loop over [a]. *)
Example copied_finally_continues_the_loop_it_leaves :
  let o := compile_program no_numbers continue_in_finally in
  code_at o 2 = Some (LoopHead : Instr) /\ code_at o 10 = Some (LoopHead : Instr) /\
  code_at o 13 = Some (PopHandler : Instr) /\ code_at o 14 = Some (Jump 10 : Instr) /\
  code_at o 21 = Some (PopHandler : Instr) /\ code_at o 22 = Some (Jump 2 : Instr).
Proof. vm_compute. split_and!; reflexivity. Qed.

(** [function f(x) { while (x) { try { let x = null; break; } finally { x } } }] *)
Definition shadowed_in_try : list Statement :=
  [SFnDecl 0 None (chars "f") [chars "x"]
    [SWhile (ident "x")
      [STry [SVarDecl VLet (chars "x") (Some ENull) None; SBreak] None (Some [SExpr (ident "x")])]]
    false false false].

(** The copy reads the [x] of the block it leaves, slot 1; the region's own
    body reads the parameter, slot 0. *)
Example copied_finally_reads_the_scope_it_leaves :
  let o := compile_program no_numbers shadowed_in_try in
  code_at o 12 = Some (PopHandler : Instr) /\ code_at o 13 = Some (LoadLocal 13 1 : Instr) /\
  code_at o 18 = Some (PopHandler : Instr) /\ code_at o 19 = Some (LoadLocal 13 0 : Instr).
Proof. vm_compute. split_and!; reflexivity. Qed.
