(* ===== verification/Shape.v ===== *)
(** Hidden object layouts and property inline caches: the model of [shape.rs].

    The transition tree is a store of nodes by address; an [Rc<Shape>] is an
    address.  [Rc::get_mut] succeeds when the reference is the only one, which
    is the argument [unique] of [append].  Detached owners have trees and
    counters of their own; the theorems are about the tree of one owner. *)
From stdpp Require Import prelude list gmap.
From Stdlib Require Import ZArith Lia.
From S2P Require Import Prelude.
Local Open Scope Z_scope.

Module Shape.

Abbreviation Key := (list Z) (only parsing).

Record Shape := {
  id : Z;
  keys : list Key;
  index : gmap (list Z) nat;
  transitions : gmap (list Z) nat;
}.

(** The thread-local tree: its nodes, the canonical empty layout and the next
    identifier; [fresh_addr] is where the next node is allocated. *)
Record Tree := {
  nodes : gmap nat Shape;
  fresh_addr : nat;
  SHAPE_ROOT : nat;
  NEXT_SHAPE_ID : Z;
}.

(** [id.wrapping_add(1).max(1)] *)
Definition next_id (id : Z) : Z := Z.max (u32 (id + 1)) 1.

(** [index.entry(key).or_insert(slot)] *)
Definition or_insert (m : gmap (list Z) nat) (key : Key) (slot : nat) : gmap (list Z) nat :=
  match m !! key with Some _ => m | None => <[key := slot]> m end.

Fixpoint index_from (slot : nat) (ks : list Key) (m : gmap (list Z) nat) : gmap (list Z) nat :=
  match ks with
  | [] => m
  | k :: ks => index_from (S slot) ks (or_insert m k slot)
  end.

Definition alloc (t : Tree) (s : Shape) : Tree * nat :=
  ({| nodes := <[fresh_addr t := s]> (nodes t); fresh_addr := S (fresh_addr t);
      SHAPE_ROOT := SHAPE_ROOT t; NEXT_SHAPE_ID := next_id (NEXT_SHAPE_ID t) |}, fresh_addr t).

Definition fresh (t : Tree) (ks : list Key) : Tree * nat :=
  alloc t {| id := NEXT_SHAPE_ID t; keys := ks; index := index_from 0 ks ∅; transitions := ∅ |}.

Definition root (t : Tree) : nat := SHAPE_ROOT t.

Definition slot_of (s : Shape) (key : Key) : option nat := index s !! key.

Definition set_node (t : Tree) (a : nat) (s : Shape) : Tree :=
  {| nodes := <[a := s]> (nodes t); fresh_addr := fresh_addr t; SHAPE_ROOT := SHAPE_ROOT t;
     NEXT_SHAPE_ID := NEXT_SHAPE_ID t |}.

Definition add_transition (s : Shape) (key : Key) (child : nat) : Shape :=
  {| id := id s; keys := keys s; index := index s;
     transitions := <[key := child]> (transitions s) |}.

(** [add] on the node at [a]; [None] when there is no such node. *)
Definition add (t : Tree) (a : nat) (key : Key) : option (Tree * nat) :=
  s ← nodes t !! a;
  match transitions s !! key with
  | Some child => Some (t, child)
  | None =>
      let '(t, child) := fresh t (keys s ++ [key]) in
      if (length (keys s) <? 128)%nat
      then Some (set_node t a (add_transition s key child), child)
      else Some (t, child)
  end.

Definition append (t : Tree) (a : nat) (unique : bool) (key : Key) : option (Tree * nat) :=
  s ← nodes t !! a;
  if (128 <=? length (keys s))%nat && unique then
    let s' := {| id := NEXT_SHAPE_ID t; keys := keys s ++ [key];
                 index := or_insert (index s) key (length (keys s));
                 transitions := transitions s |} in
    Some ({| nodes := <[a := s']> (nodes t); fresh_addr := fresh_addr t;
             SHAPE_ROOT := SHAPE_ROOT t; NEXT_SHAPE_ID := next_id (NEXT_SHAPE_ID t) |}, a)
  else add t a key.

(** The loop of [rebuild]: keys already present are skipped. *)
Fixpoint replay (t : Tree) (a : nat) (ks : list Key) : option (Tree * nat) :=
  match ks with
  | [] => Some (t, a)
  | k :: ks =>
      s ← nodes t !! a;
      match index s !! k with
      | Some _ => replay t a ks
      | None => '(t, a) ← add t a k; replay t a ks
      end
  end.

Definition rebuild (t : Tree) (ks : list Key) : option (Tree * nat) :=
  if (128 <? length ks)%nat then Some (fresh t ks) else replay t (root t) ks.

(** [saturating_sub(1)] *)
Definition created_count (t : Tree) : Z := Z.max 0 (NEXT_SHAPE_ID t - 1).

(** A tree of its own, as [SHAPE_ROOT] and [NEXT_SHAPE_ID] are initialized. *)
Definition initial : Tree :=
  (fresh {| nodes := ∅; fresh_addr := 1; SHAPE_ROOT := 1; NEXT_SHAPE_ID := 1 |} []).1.

(** ** Detached owners *)

Record ShapeContext := { ctx_root : nat; ctx_next : Z }.

(** [Default for ShapeContext]: a root of its own, whose identifier is not taken
    from the active counter. *)
Definition detached (t : Tree) : ShapeContext * Tree :=
  ({| ctx_root := fresh_addr t; ctx_next := 2 |},
   {| nodes := <[fresh_addr t := {| id := 1; keys := []; index := ∅; transitions := ∅ |}]> (nodes t);
      fresh_addr := S (fresh_addr t); SHAPE_ROOT := SHAPE_ROOT t;
      NEXT_SHAPE_ID := NEXT_SHAPE_ID t |}).

(** [swap_active]: the node store is shared memory. *)
Definition swap_active (c : ShapeContext) (t : Tree) : ShapeContext * Tree :=
  ({| ctx_root := SHAPE_ROOT t; ctx_next := NEXT_SHAPE_ID t |},
   {| nodes := nodes t; fresh_addr := fresh_addr t; SHAPE_ROOT := ctx_root c;
      NEXT_SHAPE_ID := ctx_next c |}).

(** ** Property caches *)

Inductive CacheState := CACHE_EMPTY | CACHE_MONO | CACHE_MEGA.

Record PropCache := {
  state : CacheState;
  shape : Z;
  slot : Z;
  fills : Z;
  hits : Z;
  misses : Z;
}.

Definition MEGA_AT_FILLS : Z := 8.

Definition empty : PropCache :=
  {| state := CACHE_EMPTY; shape := 0; slot := 0; fills := 0; hits := 0; misses := 0 |}.

Definition probe (c : PropCache) (shape_id : option Z) : option nat * PropCache :=
  let hit :=
    match shape_id, state c with
    | Some i, CACHE_MONO => shape c =? i
    | _, _ => false
    end in
  if hit then
    (Some (Z.to_nat (slot c)),
     {| state := state c; shape := shape c; slot := slot c; fills := fills c;
        hits := u32 (hits c + 1); misses := misses c |})
  else
    (None,
     {| state := state c; shape := shape c; slot := slot c; fills := fills c;
        hits := hits c; misses := u32 (misses c + 1) |}).

Definition fill (c : PropCache) (shape_id : Z) (s : nat) : PropCache :=
  match state c with
  | CACHE_MEGA => c
  | st =>
      if match st with CACHE_MONO => shape c =? shape_id | _ => false end then
        {| state := state c; shape := shape c; slot := u32 (Z.of_nat s); fills := fills c;
           hits := hits c; misses := misses c |}
      else
        let n := Z.min (fills c + 1) 255 in
        if MEGA_AT_FILLS <? n then
          {| state := CACHE_MEGA; shape := shape c; slot := slot c; fills := n;
             hits := hits c; misses := misses c |}
        else
          {| state := CACHE_MONO; shape := shape_id; slot := u32 (Z.of_nat s); fills := n;
             hits := hits c; misses := misses c |}
  end.

Definition is_megamorphic (c : PropCache) : bool :=
  match state c with CACHE_MEGA => true | _ => false end.

Definition stats (c : PropCache) : Z * Z := (hits c, misses c).

End Shape.
