(* ===== verification/ObjectCell.v ===== *)
(** Property storage of ordinary objects: the model of the slot vector of
    [ObjectCell] in [value.rs] with its two caches, the dictionary of large
    objects and the shape of repeatedly read ones. *)
From stdpp Require Import prelude list gmap.
From Stdlib Require Import ZArith Lia.
From S2P Require Import Prelude Shape.
Import Shape.
Local Open Scope Z_scope.

Module ObjectCell.

(** ** Attributes *)

Record PropAttrs := { writable : bool; enumerable : bool; configurable : bool }.

Definition default_attrs : PropAttrs :=
  {| writable := true; enumerable := true; configurable := true |}.

#[export] Instance PropAttrs_eq_dec : EqDecision PropAttrs.
Proof. solve_decision. Defined.

(** The part of [ObjectMeta] that property writes consult. *)
Record ObjectMeta := {
  attrs : list (list Z * PropAttrs);
  non_extensible : bool;
  is_arguments : bool;
}.

Definition attrs_of (m : ObjectMeta) (key : list Z) : PropAttrs :=
  match attrs m with
  | [] => default_attrs
  | l => match find (fun e => bool_decide (e.1 = key)) (rev l) with
         | Some (_, a) => a
         | None => default_attrs
         end
  end.

(** Overwrite the first entry of the key, if there is one. *)
Fixpoint update_first (key : list Z) (a : PropAttrs) (l : list (list Z * PropAttrs))
  : option (list (list Z * PropAttrs)) :=
  match l with
  | [] => None
  | (k, b) :: l =>
      if bool_decide (k = key) then Some ((k, a) :: l)
      else ((fun l => (k, b) :: l) <$> update_first key a l)
  end.

Definition with_attrs (m : ObjectMeta) (l : list (list Z * PropAttrs)) : ObjectMeta :=
  {| attrs := l; non_extensible := non_extensible m; is_arguments := is_arguments m |}.

Definition set_attrs (m : ObjectMeta) (key : list Z) (a : PropAttrs) : ObjectMeta :=
  match update_first key a (attrs m) with
  | Some l => with_attrs m l
  | None => if bool_decide (a <> default_attrs) then with_attrs m (attrs m ++ [(key, a)]) else m
  end.

(** ** Slots *)

Section ObjectCell.
Context {V : Type}.

(** [shape] is the address of the cached layout. *)
Record Cell := {
  slots : list (list Z * V);
  dictionary : option (gmap (list Z) nat);
  index_disabled : bool;
  cell_shape : option nat;
  read_once : bool;
}.

Definition MAX_OBJECT_PROPS : Z := 262144.

Definition names (c : Cell) : list (list Z) := map fst (slots c).

Definition with_shape (c : Cell) (a : option nat) : Cell :=
  {| slots := slots c; dictionary := dictionary c; index_disabled := index_disabled c;
     cell_shape := a; read_once := read_once c |}.
Definition with_dictionary (c : Cell) (d : option (gmap (list Z) nat)) : Cell :=
  {| slots := slots c; dictionary := d; index_disabled := index_disabled c;
     cell_shape := cell_shape c; read_once := read_once c |}.
Definition with_read_once (c : Cell) : Cell :=
  {| slots := slots c; dictionary := dictionary c; index_disabled := index_disabled c;
     cell_shape := cell_shape c; read_once := true |}.
Definition with_slots (c : Cell) (l : list (list Z * V)) : Cell :=
  {| slots := l; dictionary := dictionary c; index_disabled := index_disabled c;
     cell_shape := cell_shape c; read_once := read_once c |}.

Definition new (props : list (list Z * V)) : Cell :=
  {| slots := props; dictionary := None; index_disabled := false; cell_shape := None;
     read_once := false |}.

(** [borrow_mut]: the caller's change of the slots is the argument. *)
Definition borrow_mut (c : Cell) (f : list (list Z * V) -> list (list Z * V)) : Cell :=
  with_slots (with_dictionary c None) (f (slots c)).

(** [Deref::deref]: raw storage escapes. *)
Definition deref (c : Cell) : Cell :=
  {| slots := slots c; dictionary := None; index_disabled := true;
     cell_shape := cell_shape c; read_once := read_once c |}.

Definition has_shape (c : Cell) : bool :=
  match cell_shape c with Some _ => true | None => false end.

Definition shape_id (t : Tree) (c : Cell) : option Z :=
  a ← cell_shape c; s ← nodes t !! a; Some (id s).

(** [slots.iter().position(|(k, _)| k == key)] *)
Fixpoint position (key : list Z) (ks : list (list Z)) : option nat :=
  match ks with
  | [] => None
  | k :: ks => if bool_decide (k = key) then Some 0%nat else S <$> position key ks
  end.

(** [slots.get(index).is_some_and(|(k, _)| k == key)] *)
Definition key_at (c : Cell) (index : nat) (key : list Z) : bool :=
  match slots c !! index with
  | Some (k, _) => bool_decide (k = key)
  | None => false
  end.

(** What the cached layout says of a key. *)
Definition shape_slot (t : Tree) (c : Cell) (key : list Z) : option nat :=
  a ← cell_shape c; s ← nodes t !! a; slot_of s key.

(** [Shape::rebuild] over the slot names. *)
Definition rebuild_shape (t : Tree) (c : Cell) : Tree * Cell :=
  match rebuild t (names c) with
  | Some (t, a) => (t, with_shape c (Some a))
  | None => (t, c)
  end.

Definition own_index (t : Tree) (c : Cell) (key : list Z) : Tree * Cell * option nat :=
  if (64 <=? length (slots c))%nat && negb (index_disabled c) then
    let d := match dictionary c with Some d => d | None => index_from 0 (names c) ∅ end in
    (t, with_dictionary c (Some d), d !! key)
  else
    let hint := shape_slot t c key in
    match (match hint with Some i => if key_at c i key then Some i else None | None => None end) with
    | Some i => (t, c, Some i)
    | None =>
        let found := position key (names c) in
        match cell_shape c with
        | None =>
            let second := read_once c in
            let c := with_read_once c in
            if second && match found with Some _ => true | None => false end
            then (rebuild_shape t c, found)
            else (t, c, found)
        | Some _ =>
            let agree := match hint, found with None, None => true | _, _ => false end in
            if agree then (t, c, found) else (rebuild_shape t c, found)
        end
    end.

Definition slot_verified (c : Cell) (index : nat) (key : list Z) : option V :=
  '(k, v) ← slots c !! index;
  if bool_decide (k = key) then Some v else None.

Definition own_value (t : Tree) (c : Cell) (key : list Z) : Tree * Cell * option V :=
  let '(t, c, found) := own_index t c key in
  (t, c, index ← found; slot_verified c index key).

(** [cached_own_value]: the hint is tried first; the second result is the hint
    left behind. *)
Definition cached_own_value (t : Tree) (c : Cell) (key : list Z) (hint : option nat)
  : Tree * Cell * option nat * option V :=
  if index_disabled c then (t, c, hint, None)
  else match (i ← hint; slot_verified c i key) with
       | Some v => (t, c, hint, Some v)
       | None =>
           let '(t, c, found) := own_index t c key in
           match found with
           | None => (t, c, hint, None)
           | Some i =>
               match slot_verified c i key with
               | None => (t, c, hint, None)
               | Some v => (t, c, Some i, Some v)
               end
           end
       end.

(** [cached_own_index]: a verified hint, or a lookup that becomes the hint. *)
Definition cached_own_index (t : Tree) (c : Cell) (key : list Z) (hint : option nat)
  : Tree * Cell * option nat * option nat :=
  if index_disabled c then (t, c, hint, None)
  else match hint with
       | Some i =>
           if key_at c i key then (t, c, hint, Some i)
           else let '(t, c, found) := own_index t c key in
                (t, c, match found with Some i => Some i | None => hint end, found)
       | None =>
           let '(t, c, found) := own_index t c key in
           (t, c, match found with Some i => Some i | None => hint end, found)
       end.

Definition note_key_added (t : Tree) (c : Cell) (unique : bool) (key : list Z) : Tree * Cell :=
  match cell_shape c with
  | None => (t, c)
  | Some a =>
      match shape_slot t c key with
      | Some _ => rebuild_shape t c
      | None =>
          match append t a unique key with
          | Some (t, a) => (t, with_shape c (Some a))
          | None => (t, c)
          end
      end
  end.

(** [None] when the object is full. *)
Definition append_new_slot (t : Tree) (c : Cell) (unique : bool) (key : list Z) (v : V)
  : option (Tree * Cell) :=
  if MAX_OBJECT_PROPS <=? Z.of_nat (length (slots c)) then None
  else
    let at_ := length (slots c) in
    let c := with_slots c (slots c ++ [(key, v)]) in
    let c := match dictionary c with
             | Some d => with_dictionary c (Some (<[key := at_]> d))
             | None => c
             end in
    Some (note_key_added t c unique key).

(** A slot holding a [Value::Binding] is written through in an arguments
    object: [binding] gives the cell of such a value, [store] the contents of the
    cells. *)
Section Writes.
Context (binding : V -> option nat).

Definition write_slot (m : ObjectMeta) (c : Cell) (store : gmap nat V) (i : nat) (old v : V)
    (key : list Z) : Cell * gmap nat V :=
  match binding old, is_arguments m with
  | Some b, true => (c, <[b := v]> store)
  | _, _ => (with_slots c (<[i := (key, v)]> (slots c)), store)
  end.

(** [inr] gives the value back. *)
Definition set_slot_verified (m : ObjectMeta) (c : Cell) (store : gmap nat V) (i : nat)
    (key : list Z) (v : V) : (Cell * gmap nat V) + V :=
  match slots c !! i with
  | None => inr v
  | Some (k, old) =>
      if negb (bool_decide (k = key)) then inr v else inl (write_slot m c store i old v k)
  end.

(** [None] when the object is full; an index out of range does not occur
    ([set_cell_prop_spec]) and would be a panic, [Some None]. *)
Definition set_cell_prop (t : Tree) (m : ObjectMeta) (c : Cell) (store : gmap nat V)
    (unique : bool) (key : list Z) (v : V) : option (option (Tree * Cell * gmap nat V)) :=
  let '(t, c, index) :=
    if has_shape c || (64 <=? length (slots c))%nat then own_index t c key
    else (t, c, position key (names c)) in
  match index with
  | Some i =>
      if writable (attrs_of m key) then
        match slots c !! i with
        | None => Some None
        | Some (k, old) =>
            let '(c, store) := write_slot m c store i old v k in Some (Some (t, c, store))
        end
      else Some (Some (t, c, store))
  | None =>
      if non_extensible m then Some (Some (t, c, store))
      else if MAX_OBJECT_PROPS <=? Z.of_nat (length (slots c)) then None
      else
        let at_ := length (slots c) in
        let c := with_slots c (slots c ++ [(key, v)]) in
        let c := match dictionary c with
                 | Some d => with_dictionary c (Some (<[key := at_]> d))
                 | None => c
                 end in
        let '(t, c) := if has_shape c then note_key_added t c unique key else (t, c) in
        Some (Some (t, c, store))
  end.

End Writes.

Definition note_mutated (c : Cell) : Cell := with_dictionary (with_shape c None) None.

End ObjectCell.
Arguments Cell : clear implicits.
End ObjectCell.
