(* ===== verification/ShapeTheorems.v ===== *)
(** The theorems of layouts, property storage and inline caches. *)
From stdpp Require Import prelude list gmap relations strings.
From Stdlib Require Import ZArith Lia.
From S2P Require Import Prelude Shape ObjectCell.
Import Shape.
Local Open Scope Z_scope.

(** ** Indices *)

Abbreviation position := ObjectCell.position.

Lemma position_app key l1 l2 :
  position key (l1 ++ l2) =
  match position key l1 with
  | Some i => Some i
  | None => (fun i => (length l1 + i)%nat) <$> position key l2
  end.
Proof.
  induction l1 as [|k l1 IH]; simpl; [by destruct (position key l2)|].
  case_bool_decide; [done|]. rewrite IH. destruct (position key l1); [done|].
  simpl. by destruct (position key l2).
Qed.

Lemma position_lookup key ks i :
  position key ks = Some i ->
  ks !! i = Some key /\ forall j, (j < i)%nat -> ks !! j <> Some key.
Proof.
  revert i. induction ks as [|k ks IH]; intros i; simpl; [done|].
  case_bool_decide as E; [intros [= <-]; by split; [subst|lia]|].
  destruct (position key ks) as [j|]; [|done]. intros [= <-].
  destruct (IH j eq_refl) as [H1 H2]. split; [done|]. intros [|j'] Hj; simpl; [congruence|].
  apply H2. lia.
Qed.

Lemma position_None key ks : position key ks = None <-> key ∉ ks.
Proof.
  induction ks as [|k ks IH]; simpl; [split; [intros _; apply not_elem_of_nil|done]|].
  rewrite not_elem_of_cons, <- IH. case_bool_decide as E; [naive_solver|].
  destruct (position key ks); naive_solver.
Qed.

(** In a list without repeats every occurrence is the first. *)
Lemma position_NoDup key ks i : NoDup ks -> ks !! i = Some key -> position key ks = Some i.
Proof.
  intros Hd Hi. destruct (position key ks) as [j|] eqn:E.
  - apply position_lookup in E as [Hj _]. f_equal. by eapply NoDup_lookup.
  - apply position_None in E. destruct E. by eapply list_elem_of_lookup_2.
Qed.

Lemma index_from_spec ks : forall n m key,
  index_from n ks m !! key =
  match m !! key with
  | Some i => Some i
  | None => (fun i => (n + i)%nat) <$> position key ks
  end.
Proof.
  induction ks as [|k ks IH]; intros n m key; simpl; [by destruct (m !! key)|].
  rewrite IH. unfold or_insert.
  destruct (m !! k) as [i|] eqn:Hk.
  - case_bool_decide as E; [by subst; rewrite Hk|]. destruct (m !! key); [done|].
    destruct (position key ks); simpl; [|done]. f_equal. lia.
  - destruct (decide (k = key)) as [->|Hne].
    + rewrite lookup_insert_eq, Hk. rewrite bool_decide_eq_true_2 by done. simpl. f_equal. lia.
    + rewrite lookup_insert_ne by done. rewrite bool_decide_eq_false_2 by done.
      destruct (m !! key); [done|]. destruct (position key ks); simpl; [|done]. f_equal. lia.
Qed.

Lemma index_first ks key : index_from 0 ks ∅ !! key = position key ks.
Proof. rewrite index_from_spec, lookup_empty. by destruct (position key ks). Qed.

Lemma index_snoc ks key :
  or_insert (index_from 0 ks ∅) key (length ks) = index_from 0 (ks ++ [key]) ∅.
Proof.
  apply map_eq. intros k. unfold or_insert. rewrite !index_first, position_app. simpl.
  destruct (position key ks) as [i|] eqn:E.
  - rewrite index_first. destruct (position k ks) eqn:E'; [done|]. case_bool_decide; [|done].
    subst. congruence.
  - destruct (decide (key = k)) as [->|Hne].
    + rewrite lookup_insert_eq, E, bool_decide_eq_true_2 by done. simpl. by rewrite Nat.add_0_r.
    + rewrite lookup_insert_ne, index_first, bool_decide_eq_false_2 by done.
      by destruct (position k ks).
Qed.

(** ** The tree *)

Definition shape_ok (t : Tree) (a : nat) (s : Shape) : Prop :=
  (a < fresh_addr t)%nat /\ index s = index_from 0 (keys s) ∅ /\
  1 <= id s < NEXT_SHAPE_ID t /\
  forall k c, transitions s !! k = Some c ->
    (length (keys s) < 128)%nat /\ exists s', nodes t !! c = Some s' /\ keys s' = keys s ++ [k].

Record tree_ok (t : Tree) : Prop := {
  ok_nodes : forall a s, nodes t !! a = Some s -> shape_ok t a s;
  ok_ids : forall a b s s', nodes t !! a = Some s -> nodes t !! b = Some s' ->
             id s = id s' -> a = b;
  ok_root : exists s, nodes t !! SHAPE_ROOT t = Some s /\ keys s = [];
  ok_next : 1 <= NEXT_SHAPE_ID t < 2 ^ 32;
}.

(** [n] identifiers can be minted before the counter wraps. *)
Definition room (t : Tree) (n : Z) : Prop := NEXT_SHAPE_ID t + n < 2 ^ 32.

Lemma next_id_room t : 1 <= NEXT_SHAPE_ID t -> room t 1 -> next_id (NEXT_SHAPE_ID t) = NEXT_SHAPE_ID t + 1.
Proof. unfold room, next_id. intros. rewrite wrap_id by (unfold uint; lia). lia. Qed.

(** What an operation keeps of the nodes that were there: their identity, their
    keys and their transitions. *)
Definition extends (t t' : Tree) : Prop :=
  SHAPE_ROOT t' = SHAPE_ROOT t /\
  forall a s, nodes t !! a = Some s ->
    exists s', nodes t' !! a = Some s' /\ id s' = id s /\ keys s' = keys s /\
      forall k c, transitions s !! k = Some c -> transitions s' !! k = Some c.

#[export] Instance extends_preorder : PreOrder extends.
Proof.
  split.
  - intros t. split; [done|]. eauto 6.
  - intros t1 t2 t3 [R1 H1] [R2 H2]. split; [congruence|]. intros a s Hs.
    destruct (H1 a s Hs) as (s2 & Hs2 & I2 & K2 & T2).
    destruct (H2 a s2 Hs2) as (s3 & Hs3 & I3 & K3 & T3).
    exists s3. split; [done|]. split; [congruence|]. split; [congruence|]. eauto.
Qed.

Lemma fresh_ok t ks t' a :
  tree_ok t -> room t 1 -> fresh t ks = (t', a) ->
  tree_ok t' /\ extends t t' /\ NEXT_SHAPE_ID t' = NEXT_SHAPE_ID t + 1 /\
  exists s, nodes t' !! a = Some s /\ keys s = ks /\ nodes t !! a = None.
Proof.
  intros [Hn Hi [r [Hr Hk]] Hx] Hroom. unfold fresh, alloc. intros [= <- <-].
  rewrite next_id_room by (done || lia).
  assert (nodes t !! fresh_addr t = None) as Hnone.
  { destruct (nodes t !! fresh_addr t) eqn:E; [|done]. apply Hn in E as [? _]. lia. }
  assert (forall b s, nodes t !! b = Some s -> b <> fresh_addr t) as Hne by (intros; congruence).
  split; [split|split; [|split]]; simpl.
  - intros b s. destruct (decide (b = fresh_addr t)) as [->|Hb].
    + rewrite lookup_insert_eq. intros [= <-]. split; simpl; [lia|]. split; [done|].
      split; [lia|]. intros k c. by rewrite lookup_empty.
    + rewrite lookup_insert_ne by done. intros Hs. destruct (Hn b s Hs) as (? & ? & ? & Ht).
      split; simpl; [lia|]. split; [done|]. split; [lia|]. intros k c Hc.
      destruct (Ht k c Hc) as (? & s' & Hs' & ?). split; [done|]. exists s'.
      rewrite lookup_insert_ne; [done|]. apply not_eq_sym. eauto.
  - assert (forall b s, <[fresh_addr t := {| id := NEXT_SHAPE_ID t; keys := ks;
        index := index_from 0 ks ∅; transitions := ∅ |}]> (nodes t) !! b = Some s ->
      b = fresh_addr t /\ id s = NEXT_SHAPE_ID t \/ nodes t !! b = Some s) as Hcase.
    { intros b s. destruct (decide (b = fresh_addr t)) as [->|Hb].
      - rewrite lookup_insert_eq. intros [= <-]. auto.
      - rewrite lookup_insert_ne by done. auto. }
    intros b1 b2 s1 s2 [[-> E1]|H1]%Hcase [[-> E2]|H2]%Hcase E; [done|..|by eapply Hi].
    + apply Hn in H2 as (_ & _ & ? & _). lia.
    + apply Hn in H1 as (_ & _ & ? & _). lia.
  - exists r. rewrite lookup_insert_ne; [done|]. apply not_eq_sym. eauto.
  - unfold room in Hroom. lia.
  - split; [done|]. intros b s Hs. exists s. simpl. rewrite lookup_insert_ne; [done|].
    apply not_eq_sym. eauto.
  - done.
  - eexists. rewrite lookup_insert_eq. done.
Qed.

(** Memoizing a child keeps the tree well formed. *)
Lemma memoize_ok t a s k c s' :
  tree_ok t -> nodes t !! a = Some s -> (length (keys s) < 128)%nat ->
  nodes t !! c = Some s' -> keys s' = keys s ++ [k] -> transitions s !! k = None ->
  tree_ok (set_node t a (add_transition s k c)) /\
  extends t (set_node t a (add_transition s k c)).
Proof.
  intros [Hn Hi [r [Hr Hk]] Hx] Ha Hlen Hc Hs' Hnone.
  assert (forall b x, nodes t !! b = Some x -> exists x',
    nodes (set_node t a (add_transition s k c)) !! b = Some x' /\ id x' = id x /\
    keys x' = keys x /\ index x' = index x /\
    (x' = x \/ b = a /\ x = s /\ x' = add_transition s k c)) as Hlook.
  { intros b x Hb. simpl. destruct (decide (b = a)) as [->|Hne].
    - rewrite lookup_insert_eq. eexists. split; [done|]. simplify_eq. simpl. auto 12.
    - rewrite lookup_insert_ne by done. exists x. auto 12. }
  split; [split; [| | |done]|].
  - intros b x. simpl. destruct (decide (b = a)) as [->|Hne].
    + rewrite lookup_insert_eq. intros [= <-]. destruct (Hn a s Ha) as (? & ? & ? & Ht).
      do 3 (split; [done|]). simpl. intros k' c'.
      destruct (decide (k' = k)) as [->|Hk'].
      * rewrite lookup_insert_eq. intros [= <-]. split; [done|].
        destruct (Hlook c s' Hc) as (x' & ? & ? & Hkeys & _). exists x'. split; [done|]. congruence.
      * rewrite lookup_insert_ne by done. intros Hc'. destruct (Ht k' c' Hc') as (? & y & Hy & ?).
        split; [done|]. destruct (Hlook c' y Hy) as (x' & ? & ? & Hkeys & _). exists x'.
        split; [done|]. congruence.
    + rewrite lookup_insert_ne by done. intros Hb. destruct (Hn b x Hb) as (? & ? & ? & Ht).
      do 3 (split; [done|]). intros k' c' Hc'. destruct (Ht k' c' Hc') as (? & y & Hy & ?).
      split; [done|]. destruct (Hlook c' y Hy) as (x' & ? & ? & Hkeys & _). exists x'.
      split; [done|]. congruence.
  - intros b1 b2 x1 x2 H1 H2 E.
    assert (forall b x, nodes (set_node t a (add_transition s k c)) !! b = Some x ->
      exists y, nodes t !! b = Some y /\ id y = id x) as Hback.
    { intros b x. simpl. destruct (decide (b = a)) as [->|Hne].
      - rewrite lookup_insert_eq. intros [= <-]. eauto.
      - rewrite lookup_insert_ne by done. eauto. }
    destruct (Hback _ _ H1) as (y1 & Hy1 & E1). destruct (Hback _ _ H2) as (y2 & Hy2 & E2).
    eapply Hi; [done..|]. congruence.
  - destruct (Hlook _ r Hr) as (x' & ? & ? & Hkeys & _). exists x'. split; [done|]. congruence.
  - split; [done|]. intros b x Hb. destruct (Hlook b x Hb) as (x' & ? & ? & ? & ? & Hor).
    exists x'. split; [done|]. split; [done|]. split; [done|].
    destruct Hor as [->|(-> & -> & ->)]; [done|]. intros k' c' Hc'. simpl.
    rewrite lookup_insert_ne; [done|]. intros ->. congruence.
Qed.

Lemma add_ok t a k t' c s :
  tree_ok t -> room t 1 -> nodes t !! a = Some s -> add t a k = Some (t', c) ->
  tree_ok t' /\ extends t t' /\ NEXT_SHAPE_ID t' <= NEXT_SHAPE_ID t + 1 /\
  (exists s', nodes t' !! c = Some s' /\ keys s' = keys s ++ [k]) /\
  ((length (keys s) < 128)%nat ->
   exists s', nodes t' !! a = Some s' /\ transitions s' !! k = Some c).
Proof.
  intros Hok Hroom Ha. unfold add. rewrite Ha. cbn [mbind option_bind].
  destruct (transitions s !! k) as [child|] eqn:Ht.
  - intros [= <- <-]. split; [done|]. split; [done|]. split; [lia|].
    destruct (ok_nodes t Hok a s Ha) as (_ & _ & _ & Hts).
    destruct (Hts _ _ Ht) as (? & s' & ? & ?). eauto 6.
  - destruct (fresh t (keys s ++ [k])) as [t1 child] eqn:Hf.
    destruct (fresh_ok _ _ _ _ Hok Hroom Hf) as (Hok1 & Hext & Hnext & s' & Hs' & Hkeys & Hnew).
    assert (nodes t1 !! a = Some s) as Ha1.
    { unfold fresh, alloc in Hf. injection Hf as <- <-. simpl. rewrite lookup_insert_ne; [done|].
      congruence. }
    case Nat.ltb_spec; intros Hlen; intros [= <- <-].
    + destruct (memoize_ok t1 a s k child s' Hok1 Ha1 Hlen Hs' Hkeys Ht) as [Hok2 Hext2].
      split; [done|]. split; [by etrans|]. split; [simpl; lia|]. split.
      * destruct Hext2 as [_ He]. destruct (He child s' Hs') as (x & ? & _ & ? & _). exists x.
        split; [done|]. congruence.
      * intros _. exists (add_transition s k child). simpl. rewrite !lookup_insert_eq. done.
    + split; [done|]. split; [done|]. split; [lia|]. split; [eauto|]. lia.
Qed.

(** ** Growing a layout *)

(** No other node reaches the node at [a]: with the object's own reference the
    only one, [Rc::get_mut] succeeds. *)
Definition unreferenced (t : Tree) (a : nat) : Prop :=
  forall b s k, nodes t !! b = Some s -> transitions s !! k <> Some a.

(** The layouts of 128 keys or more memoize nothing. *)
Lemma large_no_transitions t a s :
  tree_ok t -> nodes t !! a = Some s -> (128 <= length (keys s))%nat -> transitions s = ∅.
Proof.
  intros Hok Ha Hlen. apply map_eq. intros k. rewrite lookup_empty.
  destruct (transitions s !! k) as [c|] eqn:E; [|done].
  destruct (ok_nodes t Hok a s Ha) as (_ & _ & _ & Ht). destruct (Ht k c E). lia.
Qed.

(** The tree after a layout was extended in place. *)
Definition extended (t : Tree) (a : nat) (s : Shape) (key : list Z) : Tree :=
  {| nodes := <[a := {| id := NEXT_SHAPE_ID t; keys := keys s ++ [key];
                        index := or_insert (index s) key (length (keys s));
                        transitions := transitions s |}]> (nodes t);
     fresh_addr := fresh_addr t; SHAPE_ROOT := SHAPE_ROOT t;
     NEXT_SHAPE_ID := next_id (NEXT_SHAPE_ID t) |}.

Lemma extended_lookup t a s key b x :
  nodes (extended t a s key) !! b = Some x ->
  b = a /\ id x = NEXT_SHAPE_ID t \/ b <> a /\ nodes t !! b = Some x.
Proof.
  simpl. destruct (decide (b = a)) as [->|Hb].
  - rewrite lookup_insert_eq. intros [= <-]. auto.
  - rewrite lookup_insert_ne by done. auto.
Qed.

Lemma extended_ok t a s key :
  tree_ok t -> room t 1 -> nodes t !! a = Some s -> (128 <= length (keys s))%nat ->
  unreferenced t a -> tree_ok (extended t a s key).
Proof.
  intros Hok Hroom Ha Hlen Hun.
  pose proof (large_no_transitions t a s Hok Ha Hlen) as Hempty.
  destruct Hok as [Hn Hi [r [Hr Hk]] Hx].
  assert (NEXT_SHAPE_ID (extended t a s key) = NEXT_SHAPE_ID t + 1) as Hnext
    by (apply next_id_room; [lia|done]).
  split.
  - intros b x. simpl. destruct (decide (b = a)) as [->|Hb].
    + rewrite lookup_insert_eq. intros [= <-]. destruct (Hn a s Ha) as (? & Hidx & ? & _).
      split; [done|]. split; [simpl; rewrite Hidx; apply index_snoc|].
      split; [rewrite Hnext; simpl; lia|]. simpl. rewrite Hempty. intros k c.
      by rewrite lookup_empty.
    + rewrite lookup_insert_ne by done. intros Hs. destruct (Hn b x Hs) as (? & ? & ? & Ht).
      split; [done|]. split; [done|]. split; [lia|]. intros k c Hc.
      destruct (Ht k c Hc) as (? & y & Hy & ?). split; [done|]. exists y.
      simpl. rewrite lookup_insert_ne; [done|]. intros <-. exact (Hun b x k Hs Hc).
  - intros b1 b2 x1 x2 H1 H2 E.
    apply extended_lookup in H1 as [[-> E1]|[? H1]]; apply extended_lookup in H2 as [[-> E2]|[? H2]];
      [done|..|by eapply Hi].
    + apply Hn in H2 as (_ & _ & ? & _). lia.
    + apply Hn in H1 as (_ & _ & ? & _). lia.
  - exists r. simpl. rewrite lookup_insert_ne; [done|]. intros E. rewrite <- E in Hr.
    rewrite Ha in Hr. injection Hr as <-. rewrite Hk in Hlen. simpl in Hlen. lia.
  - rewrite Hnext. unfold room in Hroom. lia.
Qed.

Lemma append_cases t a unique key s :
  nodes t !! a = Some s ->
  append t a unique key =
  if (128 <=? length (keys s))%nat && unique
  then Some (extended t a s key, a) else add t a key.
Proof. intros Ha. unfold append. by rewrite Ha. Qed.

Lemma add_total t a key s : nodes t !! a = Some s -> is_Some (add t a key).
Proof.
  intros Ha. unfold add. rewrite Ha. simpl. destruct (transitions s !! key); [eauto|].
  destruct (fresh t (keys s ++ [key])). destruct (_ <? _)%nat; eauto.
Qed.

(** ** Replaying a key sequence *)

Fixpoint path (t : Tree) (a : nat) (ks : list (list Z)) (b : nat) : Prop :=
  match ks with
  | [] => a = b
  | k :: ks => exists s c, nodes t !! a = Some s /\ transitions s !! k = Some c /\ path t c ks b
  end.

Lemma path_extends t t' ks : forall a b, extends t t' -> path t a ks b -> path t' a ks b.
Proof.
  induction ks as [|k ks IH]; intros a b Hext; simpl; [done|].
  intros (s & c & Hs & Hc & Hp). destruct Hext as [Hroot He].
  destruct (He a s Hs) as (s' & ? & _ & _ & Ht). exists s', c. split; [done|]. split; [eauto|].
  apply IH; [by split|done].
Qed.

Lemma path_extended t a0 s0 key ks : forall a b,
  tree_ok t -> nodes t !! a0 = Some s0 -> (128 <= length (keys s0))%nat ->
  path t a ks b -> path (extended t a0 s0 key) a ks b.
Proof.
  induction ks as [|k ks IH]; intros a b Hok Ha0 Hlen; simpl; [done|].
  intros (s & c & Hs & Hc & Hp). exists s, c. split; [|by split; [|by apply IH]].
  rewrite lookup_insert_ne; [done|]. intros <-. rewrite Ha0 in Hs. injection Hs as <-.
  rewrite (large_no_transitions t a0 s0 Hok Ha0 Hlen), lookup_empty in Hc. done.
Qed.

(** The keys of a sequence without those already seen. *)
Fixpoint new_keys (seen ks : list (list Z)) : list (list Z) :=
  match ks with
  | [] => []
  | k :: ks =>
      if bool_decide (k ∈ seen) then new_keys seen ks else k :: new_keys (seen ++ [k]) ks
  end.

Lemma new_keys_NoDup ks : forall seen, NoDup (seen ++ ks) -> new_keys seen ks = ks.
Proof.
  induction ks as [|k ks IH]; intros seen Hd; simpl; [done|].
  rewrite bool_decide_eq_false_2.
  - f_equal. apply IH. by rewrite <- app_assoc.
  - apply NoDup_app in Hd as (_ & Hd & _). intros Hin. eapply Hd; [done|]. set_solver.
Qed.

Lemma index_elem t a s k :
  tree_ok t -> nodes t !! a = Some s ->
  match index s !! k with Some _ => k ∈ keys s | None => k ∉ keys s end.
Proof.
  intros Hok Ha. destruct (ok_nodes t Hok a s Ha) as (_ & -> & _). rewrite index_first.
  destruct (position k (keys s)) as [i|] eqn:E; [|by apply position_None].
  apply position_lookup in E as [E _]. by eapply list_elem_of_lookup_2.
Qed.

Lemma replay_step t a s k ks :
  tree_ok t -> nodes t !! a = Some s ->
  replay t a (k :: ks) =
  if bool_decide (k ∈ keys s) then replay t a ks else '(t, a) ← add t a k; replay t a ks.
Proof.
  intros Hok Ha. pose proof (index_elem t a s k Hok Ha) as He. simpl. rewrite Ha. simpl.
  destruct (index s !! k); [by rewrite bool_decide_eq_true_2|by rewrite bool_decide_eq_false_2].
Qed.

Lemma replay_ok ks : forall t a s,
  tree_ok t -> nodes t !! a = Some s -> (length (keys s) + length ks <= 128)%nat ->
  room t (Z.of_nat (length ks)) ->
  exists t' b s', replay t a ks = Some (t', b) /\ tree_ok t' /\ extends t t' /\
    nodes t' !! b = Some s' /\ keys s' = keys s ++ new_keys (keys s) ks /\
    path t' a (new_keys (keys s) ks) b /\
    NEXT_SHAPE_ID t' <= NEXT_SHAPE_ID t + Z.of_nat (length ks).
Proof.
  induction ks as [|k ks IH]; intros t a s Hok Ha Hlen Hroom.
  { exists t, a, s. simpl. rewrite app_nil_r. split_and!; done || lia. }
  rewrite (replay_step t a s) by done. cbn [new_keys]. simpl in Hlen. unfold room in Hroom.
  simpl in Hroom. case_bool_decide as Hin.
  - destruct (IH t a s) as (t' & b & s' & ? & ? & ? & ? & ? & ? & ?); [done..|lia|unfold room; lia|].
    exists t', b, s'. simpl. split_and!; done || lia.
  - destruct (add_total t a k s Ha) as [[t1 c] Hadd].
    destruct (add_ok t a k t1 c s Hok) as (Hok1 & Hext1 & Hnext & (sc & Hsc & Hkc) & Hmemo);
      [unfold room; lia|done..|].
    destruct Hmemo as (sa & Hsa & Hta); [lia|]. rewrite Hadd. cbn [mbind option_bind].
    destruct (IH t1 c sc Hok1 Hsc) as (t' & b & s' & Hre & Hok' & Hext & Hs' & Hk' & Hp & Hn').
    { rewrite Hkc, length_app. simpl. lia. }
    { unfold room. lia. }
    exists t', b, s'. split; [done|]. split; [done|]. split; [by etrans|]. split; [done|].
    split; [by rewrite Hk', Hkc, <- app_assoc|]. rewrite Hkc in Hp. split.
    + destruct (proj2 Hext a sa Hsa) as (sa' & ? & _ & _ & Hta'). exists sa', c. eauto.
    + simpl. lia.
Qed.


(** ** The tree over time *)

Inductive step : Tree -> Tree -> Prop :=
| step_append t a unique key t' b :
    room t 1 -> (unique = true -> unreferenced t a) ->
    append t a unique key = Some (t', b) -> step t t'
| step_rebuild t ks t' b :
    room t (Z.of_nat (Nat.max 1 (length ks))) -> rebuild t ks = Some (t', b) -> step t t'.

Lemma rebuild_ok t ks :
  tree_ok t -> room t (Z.of_nat (Nat.max 1 (length ks))) ->
  exists t' b s, rebuild t ks = Some (t', b) /\ tree_ok t' /\ extends t t' /\
    nodes t' !! b = Some s /\
    ((length ks <= 128)%nat -> keys s = new_keys [] ks /\ path t' (SHAPE_ROOT t') (new_keys [] ks) b) /\
    ((128 < length ks)%nat -> keys s = ks) /\
    NEXT_SHAPE_ID t' <= NEXT_SHAPE_ID t + Z.of_nat (Nat.max 1 (length ks)).
Proof.
  intros Hok Hroom. unfold rebuild, room in *. destruct (Nat.ltb_spec 128 (length ks)) as [Hl|Hl].
  - destruct (fresh t ks) as [t' b] eqn:Hf.
    destruct (fresh_ok t ks t' b Hok) as (? & ? & ? & s & ? & ? & _); [unfold room; lia|done|].
    exists t', b, s. split_and!; done || lia.
  - destruct (ok_root t Hok) as (r & Hr & Hk).
    destruct (replay_ok ks t (SHAPE_ROOT t) r Hok Hr) as (t' & b & s & ? & ? & Hext & ? & Hs & Hp & ?).
    { rewrite Hk. simpl. lia. }
    { unfold room. lia. }
    rewrite Hk in Hs, Hp. simpl in Hs. exists t', b, s. split; [done|]. split; [done|].
    split; [done|]. split; [done|]. split; [|split; lia]. intros _. split; [done|].
    by rewrite (proj1 Hext).
Qed.

Lemma append_ok t a unique key s :
  tree_ok t -> room t 1 -> nodes t !! a = Some s -> (unique = true -> unreferenced t a) ->
  exists t' b s', append t a unique key = Some (t', b) /\ tree_ok t' /\
    nodes t' !! b = Some s' /\ keys s' = keys s ++ [key] /\
    (forall r ks c, path t r ks c -> path t' r ks c) /\ SHAPE_ROOT t' = SHAPE_ROOT t /\
    (t' = extended t a s key /\ b = a /\ (128 <= length (keys s))%nat /\ transitions s = ∅ \/
     extends t t').
Proof.
  intros Hok Hroom Ha Hun. rewrite (append_cases _ _ _ _ s Ha).
  destruct (Nat.leb_spec 128 (length (keys s))) as [Hl|Hl]; [destruct unique|]; simpl.
  2,3: destruct (add_total t a key s Ha) as [[t' b] Hadd];
    destruct (add_ok t a key t' b s Hok Hroom Ha Hadd) as (? & Hext & _ & (s' & ? & ?) & _);
    exists t', b, s'; do 4 (split; [done|]);
    split; [intros; by eapply path_extends|split; [apply Hext|by right]].
  exists (extended t a s key), a. eexists. split; [done|].
  split; [by apply extended_ok; auto|]. simpl. rewrite lookup_insert_eq. split; [done|].
  split; [done|]. split; [intros; by apply path_extended|]. split; [done|]. left.
  split; [done|]. split; [done|]. split; [done|]. by apply (large_no_transitions t a).
Qed.

Lemma step_keeps t t' :
  tree_ok t -> step t t' ->
  tree_ok t' /\ SHAPE_ROOT t' = SHAPE_ROOT t /\ (forall r ks c, path t r ks c -> path t' r ks c).
Proof.
  intros Hok Hs. revert Hok. destruct Hs as [t0 a unique key t1 b Hroom Hun Happ|t0 ks t1 b Hroom Hre]; intros Hok.
  - destruct (nodes t0 !! a) as [s|] eqn:Ha; [|unfold append in Happ; by rewrite Ha in Happ].
    destruct (append_ok t0 a unique key s Hok Hroom Ha Hun)
      as (t2 & b2 & s2 & E & ? & _ & _ & ? & ? & _).
    rewrite Happ in E. by injection E as -> ->.
  - destruct (rebuild_ok t0 ks Hok Hroom) as (t2 & b2 & s2 & E & ? & Hext & _).
    rewrite Hre in E. injection E as -> ->. split; [done|]. split; [apply Hext|].
    intros r l c. by apply path_extends.
Qed.

Lemma steps_keep t t' :
  tree_ok t -> rtc step t t' ->
  tree_ok t' /\ SHAPE_ROOT t' = SHAPE_ROOT t /\ (forall r ks c, path t r ks c -> path t' r ks c).
Proof.
  intros Hok Hs. induction Hs as [t|t1 t2 t3 H12 H23 IH]; [done|].
  destruct (step_keeps t1 t2 Hok H12) as (Hok2 & R2 & P2).
  destruct (IH Hok2) as (Hok3 & R3 & P3). split; [done|]. split; [congruence|]. auto.
Qed.


Lemma initial_ok : tree_ok initial.
Proof.
  split.
  - intros a s. unfold initial, fresh, alloc. simpl.
    destruct (decide (a = 1)%nat) as [->|Hne].
    + rewrite lookup_insert_eq. intros [= <-]. split; [simpl; lia|]. split; [done|].
      split; [split; [done|reflexivity]|]. simpl. intros k c. by rewrite lookup_empty.
    + rewrite lookup_insert_ne, lookup_empty by done. done.
  - intros a b s s'. unfold initial, fresh, alloc. simpl. rewrite !lookup_insert.
    do 2 case_decide; subst; rewrite ?lookup_empty; done.
  - eexists. split; [reflexivity|done].
  - split; [done|reflexivity].
Qed.



(** [append] on a layout whose reference is the only one, or on a shared
    layout, yields a layout with the key added at the end, under an identifier
    different from the one the layout had, so that no inline cache filled
    before matches it; the tree stays well formed, the layouts reachable by
    memoized transitions stay where they are, and the assertion of the source
    that a layout extended in place has no transitions holds. *)
Theorem append_extends_layout t a unique key s :
  rtc step initial t -> room t 1 -> nodes t !! a = Some s ->
  (unique = true -> unreferenced t a) ->
  exists t' b s', append t a unique key = Some (t', b) /\ tree_ok t' /\
    nodes t' !! b = Some s' /\ keys s' = keys s ++ [key] /\ id s' <> id s /\
    (b = a -> transitions s = ∅ /\ transitions s' = ∅) /\
    (forall r ks c, path t r ks c -> path t' r ks c).
Proof.
  intros Hinit Hroom Ha Hun. destruct (steps_keep _ _ initial_ok Hinit) as (Hok & _ & _).
  destruct (append_ok t a unique key s Hok Hroom Ha Hun)
    as (t' & b & s' & Happ & Hok' & Hs' & Hk' & Hp & _ & Hcase).
  exists t', b, s'. do 4 (split; [done|]).
  destruct Hcase as [(-> & -> & Hlen & Hempty)|Hext].
  - simpl in Hs'. rewrite lookup_insert_eq in Hs'. injection Hs' as <-. simpl.
    destruct (ok_nodes t Hok a s Ha) as (_ & _ & ? & _). split; [lia|]. done.
  - destruct (proj2 Hext a s Ha) as (sa & Hsa & Hid & Hka & _).
    assert (b <> a) as Hne.
    { intros ->. rewrite Hsa in Hs'. injection Hs' as <-. rewrite Hk' in Hka.
      apply (f_equal length) in Hka. rewrite length_app in Hka. simpl in Hka. lia. }
    split; [|done]. intros E. apply Hne. eapply (ok_ids t' Hok'); [done..|congruence].
Qed.

Lemma append_extends_layout_witness :
  exists t' b s', append initial 1%nat true (chars "k") = Some (t', b) /\ tree_ok t' /\
    nodes t' !! b = Some s' /\ keys s' = [] ++ [chars "k"].
Proof.
  destruct (nodes initial !! 1%nat) as [s|] eqn:Hs; [|done].
  destruct (append_extends_layout initial 1%nat true (chars "k") s)
    as (t' & b & s' & ? & ? & ? & Hk & _);
    [apply rtc_refl|unfold room; vm_compute; done|done| |].
  - intros _ b x k. unfold initial, fresh, alloc. simpl. rewrite lookup_insert.
    case_decide; [|by rewrite lookup_empty]. intros [= <-]. simpl. by rewrite lookup_empty.
  - exists t', b, s'. vm_compute in Hs. injection Hs as <-. done.
Defined.

(** The counter wraps: the identifier after the last one is the first again. *)
Example shape_ids_wrap : next_id (2 ^ 32 - 1) = 1.
Proof. reflexivity. Qed.

(** Skipping a repeated key moves the keys after it: a rebuilt layout and a
    fresh one disagree on them. *)
Example rebuild_skips_repeats :
  let ks := [chars "a"; chars "a"; chars "b"] in
  ('(t, a) ← rebuild initial ks; s ← nodes t !! a; slot_of s (chars "b")) = Some 1%nat /\
  (let '(t, a) := fresh initial ks in s ← nodes t !! a; slot_of s (chars "b")) = Some 2%nat.
Proof. by vm_compute. Qed.
