(* ===== verification/ObjectCellTheorems.v ===== *)
(** The theorems of property storage and inline caches: the caches never change
    what a lookup answers, and a write refines the write to an association
    list. *)
From stdpp Require Import prelude list gmap relations strings.
From Stdlib Require Import ZArith Lia.
From S2P Require Import Prelude Shape ObjectCell ShapeTheorems.
Import Shape ObjectCell.
Local Open Scope Z_scope.

(** ** Association lists *)

Section Reference.
Context {V : Type}.
Implicit Types (l : list (list Z * V)) (c : Cell V).

Fixpoint assoc (key : list Z) l : option V :=
  match l with
  | [] => None
  | (k, v) :: l => if bool_decide (k = key) then Some v else assoc key l
  end.

Fixpoint replace (key : list Z) (v : V) l : list (list Z * V) :=
  match l with
  | [] => []
  | (k, w) :: l => if bool_decide (k = key) then (k, v) :: l else (k, w) :: replace key v l
  end.

Lemma position_assoc key l :
  match position key (map fst l) with
  | Some i => exists v, assoc key l = Some v /\ l !! i = Some (key, v) /\
                forall w, <[i := (key, w)]> l = replace key w l
  | None => assoc key l = None
  end.
Proof.
  induction l as [|[k v] l IH]; simpl; [done|]. case_bool_decide as E; [subst; eauto|].
  destruct (position key (map fst l)) as [i|]; simpl; [|done].
  destruct IH as (w & -> & Hi & Hr). exists w. split; [done|]. split; [done|].
  intros x. by rewrite Hr.
Qed.

Lemma assoc_replace key key' v l :
  assoc key' (replace key v l) =
  if bool_decide (key = key') then (fun _ => v) <$> assoc key l else assoc key' l.
Proof.
  induction l as [|[k w] l IH]; simpl; [by case_bool_decide|].
  destruct (decide (k = key)) as [->|Hk].
  - rewrite (bool_decide_eq_true_2 (key = key)) by done. simpl. by case_bool_decide.
  - rewrite (bool_decide_eq_false_2 (k = key)) by done. simpl. rewrite IH.
    repeat case_bool_decide; congruence.
Qed.

Lemma assoc_snoc key key' v l :
  assoc key l = None ->
  assoc key' (l ++ [(key, v)]) = if bool_decide (key = key') then Some v else assoc key' l.
Proof.
  induction l as [|[k w] l IH]; simpl; [done|].
  destruct (decide (k = key)) as [->|Hk]; [by rewrite bool_decide_eq_true_2|].
  rewrite (bool_decide_eq_false_2 (k = key)) by done. intros H. rewrite (IH H).
  repeat case_bool_decide; congruence.
Qed.

(** ** What a cell keeps *)

(** Property names are unique and the dictionary, when there is one, is that of
    the slots.  Nothing is asked of the cached layout. *)
Definition cell_ok c : Prop :=
  NoDup (names c) /\
  match dictionary c with Some d => d = index_from 0 (names c) ∅ | None => True end.

(** The cached layout is that of the slots. *)
Definition layout_ok (t : Tree) c : Prop :=
  forall a, cell_shape c = Some a -> exists s, nodes t !! a = Some s /\ keys s = names c.

Definition same_slots c c' : Prop :=
  slots c' = slots c /\ index_disabled c' = index_disabled c /\ dictionary c' = dictionary c.

Lemma rebuild_shape_same t c : same_slots c (rebuild_shape t c).2.
Proof. unfold rebuild_shape. by destruct (rebuild t (names c)) as [[??]|]. Qed.

Lemma same_slots_ok c c' : same_slots c c' -> cell_ok c -> cell_ok c'.
Proof. unfold cell_ok, names. by intros (-> & _ & ->). Qed.

Lemma slot_verified_Some c i key v : slot_verified c i key = Some v <-> slots c !! i = Some (key, v).
Proof.
  unfold slot_verified. destruct (slots c !! i) as [[k w]|]; simpl; [|done].
  case_bool_decide; naive_solver.
Qed.

Lemma slot_verified_at c i key v : slots c !! i = Some (key, v) -> slot_verified c i key = Some v.
Proof. apply slot_verified_Some. Qed.

Lemma own_index_cases t c key :
  cell_ok c ->
  (own_index t c key).2 = position key (names c) /\
  slots (own_index t c key).1.2 = slots c /\
  index_disabled (own_index t c key).1.2 = index_disabled c /\
  cell_ok (own_index t c key).1.2.
Proof.
  intros Hok. unfold own_index. destruct (_ && _)%bool eqn:Hlarge.
  - assert ((match dictionary c with Some d => d | None => index_from 0 (names c) ∅ end)
            = index_from 0 (names c) ∅) as ->.
    { destruct Hok as [_ Hd]. by destruct (dictionary c). }
    simpl. rewrite index_first. do 3 (split; [done|]). by split; [apply Hok|].
  - destruct (match shape_slot t c key with
              | Some i => if key_at c i key then Some i else None | None => None end) as [i|] eqn:Eh.
    + simpl. split; [|by auto]. symmetry. apply position_NoDup; [apply Hok|].
      destruct (shape_slot t c key) as [j|]; [|done]. unfold key_at in Eh. unfold names.
      destruct (slots c !! j) as [[k v]|] eqn:Ej; [|done]. case_bool_decide; [|done].
      injection Eh as <-. subst. rewrite (list_lookup_fmap fst). by rewrite Ej.
    + clear Eh. assert (same_slots c (with_read_once c)) as Hr by done.
      pose proof (rebuild_shape_same t c) as H1. pose proof (rebuild_shape_same t (with_read_once c)) as H2.
      assert (forall c', same_slots c c' -> slots c' = slots c /\
                index_disabled c' = index_disabled c /\ cell_ok c') as Hs.
      { intros c' H. split; [apply H|]. split; [apply H|]. by eapply same_slots_ok. }
      destruct (cell_shape c) as [a|];
        match goal with |- context [if ?b then _ else (_, _)] => destruct b end;
        (split; [done|]); by apply Hs.
Qed.

(** A rebuilt layout is that of the slots. *)
Lemma rebuild_shape_layout t c :
  NoDup (names c) -> tree_ok t -> room t (Z.of_nat (Nat.max 1 (length (names c)))) ->
  rtc step t (rebuild_shape t c).1 /\ layout_ok (rebuild_shape t c).1 (rebuild_shape t c).2.
Proof.
  intros Hd Hok Hroom. unfold rebuild_shape.
  destruct (rebuild_ok t (names c) Hok Hroom) as (t' & b & s & E & ? & ? & Hs & Hsmall & Hlarge & _).
  rewrite E. simpl. split; [apply rtc_once; by eapply step_rebuild|].
  intros a. simpl. intros [= <-]. exists s. split; [done|]. unfold names. simpl.
  destruct (Nat.le_gt_cases (length (names c)) 128) as [Hl|Hl]; [|by apply Hlarge].
  destruct (Hsmall Hl) as [-> _]. by apply new_keys_NoDup.
Qed.

Lemma own_index_layout t c key :
  NoDup (names c) -> tree_ok t -> room t (Z.of_nat (Nat.max 1 (length (names c)))) ->
  layout_ok t c ->
  rtc step t (own_index t c key).1.1 /\
  layout_ok (own_index t c key).1.1 (own_index t c key).1.2.
Proof.
  intros Hd Hok Hroom Hlay. unfold own_index.
  destruct (_ && _)%bool; [simpl; by split; [apply rtc_refl|]|].
  destruct (match shape_slot t c key with Some i => if key_at c i key then Some i else None
            | None => None end); [simpl; by split; [apply rtc_refl|]|].
  assert (layout_ok t (with_read_once c)) as Hlay' by done.
  destruct (cell_shape c) as [a|];
    match goal with |- context [if ?b then _ else (_, _)] => destruct b end; simpl;
    (by split; [apply rtc_refl|]) || by apply rebuild_shape_layout.
Qed.

Lemma shape_slot_layout t c key :
  tree_ok t -> layout_ok t c -> cell_shape c <> None ->
  shape_slot t c key = position key (names c).
Proof.
  intros Hok Hlay Hs. unfold shape_slot. destruct (cell_shape c) as [a|] eqn:Ha; [|done].
  destruct (Hlay a Ha) as (s & Hs' & Hk). simpl. rewrite Hs'. simpl. unfold slot_of.
  destruct (ok_nodes t Hok a s Hs') as (_ & -> & _). by rewrite index_first, Hk.
Qed.

(** A miss builds nothing. *)
Lemma own_index_absent t c key :
  tree_ok t -> layout_ok t c -> position key (names c) = None ->
  (own_index t c key).1.1 = t /\ cell_shape (own_index t c key).1.2 = cell_shape c.
Proof.
  intros Hok Hlay Hnone. unfold own_index. destruct (_ && _)%bool; [done|]. rewrite Hnone.
  destruct (cell_shape c) as [a|] eqn:Ha.
  - rewrite shape_slot_layout, Hnone by (done || congruence). done.
  - unfold shape_slot. rewrite Ha. simpl. by rewrite andb_false_r.
Qed.

Lemma note_key_added_layout t c unique ks key :
  tree_ok t -> room t 1 -> names c = ks ++ [key] -> key ∉ ks ->
  (forall a, cell_shape c = Some a ->
     (exists s, nodes t !! a = Some s /\ keys s = ks) /\ (unique = true -> unreferenced t a)) ->
  rtc step t (note_key_added t c unique key).1 /\
  layout_ok (note_key_added t c unique key).1 (note_key_added t c unique key).2 /\
  same_slots c (note_key_added t c unique key).2.
Proof.
  intros Hok Hroom Hn Hnew Hsh. unfold note_key_added.
  destruct (cell_shape c) as [a|] eqn:Ha.
  2:{ split; [apply rtc_refl|]. split; [|done]. intros a E. simpl in E. congruence. }
  destruct (Hsh a eq_refl) as ((s & Hs & Hk) & Hun).
  assert (shape_slot t c key = None) as ->.
  { unfold shape_slot. rewrite Ha. simpl. rewrite Hs. simpl. unfold slot_of.
    destruct (ok_nodes t Hok a s Hs) as (_ & -> & _). rewrite index_first, Hk.
    by apply position_None. }
  destruct (append_ok t a unique key s Hok Hroom Hs Hun) as (t' & b & s' & E & _ & Hs' & Hk' & _).
  rewrite E. simpl. split; [apply rtc_once; by eapply step_append|]. split; [|done].
  intros x [= <-]. exists s'. split; [done|]. unfold names in *. simpl. congruence.
Qed.

Lemma names_snoc c key v : names (with_slots c (slots c ++ [(key, v)])) = names c ++ [key].
Proof. unfold names. simpl. by rewrite map_app. Qed.

(** Pushing a new key and inserting it in the dictionary. *)
Lemma push_ok c key v :
  cell_ok c -> key ∉ names c ->
  let c1 := with_slots c (slots c ++ [(key, v)]) in
  cell_ok (match dictionary c1 with
           | Some d => with_dictionary c1 (Some (<[key := length (slots c)]> d))
           | None => c1
           end).
Proof.
  intros [Hd Hdict] Hnew c1.
  assert (NoDup (names c1)) as Hd1.
  { unfold c1. rewrite names_snoc. apply NoDup_app. split; [done|]. split; [|apply NoDup_singleton].
    intros x Hx ->%list_elem_of_singleton. done. }
  destruct (dictionary c1) as [d|] eqn:E; split; try done; [|by rewrite E].
  simpl. unfold c1 in E. simpl in E. rewrite E in Hdict. subst d.
  change (names (with_dictionary _ _)) with (names c1). unfold c1. rewrite names_snoc.
  rewrite <- index_snoc. unfold or_insert. rewrite index_first.
  rewrite (proj2 (position_None key (names c)) Hnew). unfold names. by rewrite length_map.
Qed.

(** ** Writes *)

(** The write an association list would do: [None] when it is full. *)
Definition write_spec (binding : V -> option nat) (m : ObjectMeta) l (store : gmap nat V)
    (key : list Z) (v : V) : option (list (list Z * V) * gmap nat V) :=
  match assoc key l with
  | Some old =>
      if writable (attrs_of m key) then
        match binding old, is_arguments m with
        | Some b, true => Some (l, <[b := v]> store)
        | _, _ => Some (replace key v l, store)
        end
      else Some (l, store)
  | None =>
      if non_extensible m then Some (l, store)
      else if MAX_OBJECT_PROPS <=? Z.of_nat (length l) then None
      else Some (l ++ [(key, v)], store)
  end.

(** How [set_cell_prop] finds the slot. *)
Definition find_slot (t : Tree) c (key : list Z) : Tree * Cell V * option nat :=
  if has_shape c || (64 <=? length (slots c))%nat then own_index t c key
  else (t, c, position key (names c)).

Lemma find_slot_spec t c key :
  cell_ok c -> tree_ok t -> layout_ok t c -> room t (Z.of_nat (Nat.max 1 (length (names c)))) ->
  exists t' c', find_slot t c key = (t', c', position key (names c)) /\ slots c' = slots c /\
    cell_ok c' /\ rtc step t t' /\ layout_ok t' c' /\
    (position key (names c) = None -> t' = t /\ cell_shape c' = cell_shape c).
Proof.
  intros Hok Ht Hlay Hroom. unfold find_slot. destruct (_ || _)%bool.
  - destruct (own_index_cases t c key Hok) as (E & Hs & _ & Hok').
    destruct (own_index_layout t c key (proj1 Hok) Ht Hroom Hlay) as [Hst Hl'].
    pose proof (own_index_absent t c key Ht Hlay) as Habs.
    destruct (own_index t c key) as [[t' c'] i]. simpl in *. subst i. exists t', c'. auto 8.
  - exists t, c. do 3 (split; [done|]). split; [apply rtc_refl|]. auto.
Qed.

Lemma write_names c i key (v w : V) :
  slots c !! i = Some (key, w) -> names (with_slots c (<[i := (key, v)]> (slots c))) = names c.
Proof.
  intros Hi. unfold names. simpl. rewrite (list_fmap_insert fst). simpl.
  apply list_insert_id. by rewrite (list_lookup_fmap fst), Hi.
Qed.

Lemma with_slots_keeps t c l :
  map fst l = names c -> cell_ok c -> layout_ok t c ->
  cell_ok (with_slots c l) /\ layout_ok t (with_slots c l).
Proof. unfold cell_ok, layout_ok, names. simpl. by intros ->. Qed.

Section Writes.
Context (binding : V -> option nat) (m : ObjectMeta).

Lemma set_cell_prop_find t c store unique key v :
  set_cell_prop binding t m c store unique key v =
  let '(t, c, index) := find_slot t c key in
  match index with
  | Some i =>
      if writable (attrs_of m key) then
        match slots c !! i with
        | None => Some None
        | Some (k, old) => Some (Some (t, (write_slot binding m c store i old v k).1,
                                       (write_slot binding m c store i old v k).2))
        end
      else Some (Some (t, c, store))
  | None =>
      if non_extensible m then Some (Some (t, c, store))
      else match append_new_slot t c unique key v with
           | None => None
           | Some (t, c) => Some (Some (t, c, store))
           end
  end.
Proof.
  unfold set_cell_prop, append_new_slot. fold (find_slot t c key).
  destruct (find_slot t c key) as [[t' c'] [i|]].
  - destruct (writable _); [|done]. destruct (slots c' !! i) as [[k old]|]; [|done].
    by destruct (write_slot _ _ _ _ _ _ _).
  - destruct (non_extensible m); [done|]. destruct (_ <=? _)%Z; [done|].
    unfold has_shape, note_key_added.
    destruct (dictionary _); simpl; destruct (cell_shape c'); try done;
    by destruct (match shape_slot _ _ _ with _ => _ end).
Qed.

Lemma write_slot_spec t c store i key old v :
  cell_ok c -> layout_ok t c -> slots c !! i = Some (key, old) ->
  (forall w, <[i := (key, w)]> (slots c) = replace key w (slots c)) ->
  exists c' store', write_slot binding m c store i old v key = (c', store') /\
    cell_ok c' /\ layout_ok t c' /\
    match binding old, is_arguments m with
    | Some b, true => Some (slots c, <[b := v]> store)
    | _, _ => Some (replace key v (slots c), store)
    end = Some (slots c', store').
Proof.
  intros Hok Hlay Hi Hr.
  destruct (with_slots_keeps t c (<[i := (key, v)]> (slots c))) as [H1 H2];
    [by apply (write_names c i key v old)|done..|].
  unfold write_slot. destruct (binding old) as [b|]; [destruct (is_arguments m)|];
    eexists _, _; (split; [done|]); (split; [done|]); (split; [done|]);
    simpl; rewrite ?Hr; done.
Qed.

Lemma append_new_slot_spec t c unique key v :
  cell_ok c -> tree_ok t -> layout_ok t c -> room t 1 -> key ∉ names c ->
  (unique = true -> forall a, cell_shape c = Some a -> unreferenced t a) ->
  if MAX_OBJECT_PROPS <=? Z.of_nat (length (slots c)) then append_new_slot t c unique key v = None
  else exists t' c', append_new_slot t c unique key v = Some (t', c') /\
    slots c' = slots c ++ [(key, v)] /\ cell_ok c' /\ rtc step t t' /\ layout_ok t' c'.
Proof.
  intros Hok Ht Hlay Hroom Hnew Hun. unfold append_new_slot. destruct (_ <=? _); [done|].
  pose proof (push_ok c key v Hok Hnew) as Hok1. cbv zeta in Hok1 |- *.
  set (c1 := match dictionary _ with Some _ => _ | None => _ end) in *.
  assert (names c1 = names c ++ [key] /\ cell_shape c1 = cell_shape c /\
          slots c1 = slots c ++ [(key, v)]) as (Hn & Hsh & Hsl).
  { unfold c1. rewrite <- (names_snoc c key v). by destruct (dictionary _). }
  destruct (note_key_added_layout t c1 unique (names c) key Ht Hroom Hn Hnew) as (? & ? & Hsame).
  { intros a Ha. rewrite Hsh in Ha. split; [by apply Hlay|]. intros Hu. by apply (Hun Hu). }
  destruct (note_key_added t c1 unique key) as [t' c'] eqn:E. exists t', c'. split; [done|].
  split; [etrans; [apply Hsame|done]|]. split; [by eapply same_slots_ok|done].
Qed.

End Writes.

End Reference.

(** ** Attributes *)

Lemma assoc_None {V} key (l : list (list Z * V)) : assoc key l = None <-> key ∉ map fst l.
Proof.
  rewrite <- position_None. pose proof (position_assoc key l) as Hp.
  destruct (position key (map fst l)); [|done]. destruct Hp as (v & -> & _). done.
Qed.

Lemma find_snoc {A} (f : A -> bool) l x :
  find f (l ++ [x]) = match find f l with Some y => Some y | None => if f x then Some x else None end.
Proof. induction l as [|y l IH]; simpl; [done|]. by destruct (f y). Qed.

(** Where keys are unique, searching from the end finds the same entry. *)
Lemma find_last key (l : list (list Z * PropAttrs)) :
  NoDup (map fst l) ->
  snd <$> find (fun e => bool_decide (e.1 = key)) (rev l) = assoc key l.
Proof.
  induction l as [|[k a] l IH]; simpl; [done|]. intros [Hk Hd]%NoDup_cons.
  rewrite find_snoc. specialize (IH Hd). simpl.
  destruct (find _ (rev l)) as [[k' a']|]; simpl in *.
  - case_bool_decide; [|done]. subst. apply assoc_None in Hk. congruence.
  - by case_bool_decide.
Qed.

Lemma attrs_of_assoc m key :
  NoDup (map fst (attrs m)) -> attrs_of m key = default default_attrs (assoc key (attrs m)).
Proof.
  intros Hd. unfold attrs_of. rewrite <- (find_last key _ Hd).
  destruct (attrs m) as [|e l]; [done|]. by destruct (find _ (rev (e :: l))) as [[k a]|].
Qed.

Lemma update_first_spec key a l :
  update_first key a l =
  match assoc key l with Some _ => Some (replace key a l) | None => None end.
Proof.
  induction l as [|[k b] l IH]; simpl; [done|]. case_bool_decide; [done|]. rewrite IH.
  by destruct (assoc key l).
Qed.

Lemma replace_names {V} key (v : V) l : map fst (replace key v l) = map fst l.
Proof.
  induction l as [|[k w] l IH]; simpl; [done|]. case_bool_decide; simpl; by rewrite ?IH.
Qed.

(** ** The properties *)

(** C33. A property write refines the write to an association list, on every
    branch: an existing writable property gets the value in its place, or its
    binding does in an arguments object; a read-only one and one absent from a
    non-extensible object are left alone; a new one goes to the end, unless the
    object holds 262,144 already, which is the only error.  The slot is found
    by the shape, the dictionary or the scan, whichever the object uses, no
    index is ever out of range, and afterwards the names are still unique, the
    dictionary is still that of the slots and the cached layout still lists
    them. *)
Theorem set_cell_prop_refines {V} (binding : V -> option nat) t m c store unique key v :
  cell_ok c -> tree_ok t -> layout_ok t c -> room t (Z.of_nat (S (length (names c)))) ->
  (unique = true -> forall a, cell_shape c = Some a -> unreferenced t a) ->
  match write_spec binding m (slots c) store key v with
  | None => set_cell_prop binding t m c store unique key v = None
  | Some (l, store') =>
      exists t' c', set_cell_prop binding t m c store unique key v = Some (Some (t', c', store')) /\
        slots c' = l /\ cell_ok c' /\ rtc step t t' /\ layout_ok t' c'
  end.
Proof.
  intros Hok Ht Hlay Hroom Hun. unfold room in Hroom.
  destruct (find_slot_spec t c key Hok Ht Hlay) as (t1 & c1 & E & Hs & Hok1 & Hst & Hl1 & Habs);
    [unfold room; lia|].
  rewrite set_cell_prop_find, E. unfold write_spec.
  pose proof (position_assoc key (slots c)) as Hp. fold (names c) in Hp.
  destruct (position key (names c)) as [i|] eqn:Ei.
  - destruct Hp as (old & -> & Hi & Hr). destruct (writable _); [|eauto 8]. rewrite <- Hs in Hi, Hr |- *.
    destruct (write_slot_spec binding m t1 c1 store i key old v Hok1 Hl1 Hi Hr)
      as (c2 & st2 & Ew & ? & ? & ->).
    rewrite Hi, Ew. simpl. eauto 8.
  - rewrite Hp. destruct (non_extensible m); [eauto 8|]. destruct (Habs eq_refl) as [-> Hsh].
    pose proof (append_new_slot_spec t c1 unique key v Hok1 Ht Hl1) as Happ.
    rewrite Hs, Hsh in Happ. assert (names c1 = names c) as Hn by (unfold names; by rewrite Hs).
    rewrite Hn in Happ. destruct (_ <=? _).
    + rewrite Happ; [done|unfold room; lia|by apply position_None|done].
    + destruct Happ as (t2 & c2 & -> & Hs2 & ? & Hst2 & ?);
        [unfold room; lia|by apply position_None|done|]. exists t2, c2. split; [done|].
      do 2 (split; [done|]). split; [|done]. done.
Qed.

Definition sample_meta : ObjectMeta :=
  {| attrs := [(chars "x", {| writable := false; enumerable := true; configurable := true |})];
     non_extensible := false; is_arguments := false |}.

Lemma set_cell_prop_refines_witness :
  exists t' c', set_cell_prop (fun _ => None) initial sample_meta (new [(chars "x", 1)]) ∅ false
                  (chars "y") 2 = Some (Some (t', c', ∅)) /\
    slots c' = [(chars "x", 1); (chars "y", 2)].
Proof.
  destruct (set_cell_prop_refines (fun _ : Z => None) initial sample_meta (new [(chars "x", 1)]) ∅ false
              (chars "y") 2) as (t' & c' & E & Hs & _).
  - split; [apply NoDup_singleton|done].
  - exact initial_ok.
  - intros a. done.
  - unfold room. vm_compute. done.
  - done.
  - exists t', c'. split; [exact E|exact Hs].
Defined.

(** C34. On a cell whose keys are distinct, reading a property through the index
    answers what the linear scan of the slots does, for any cached layout however
    stale and any tree: the value stored under the key, or none.  A read with a
    site's remembered index answers the same, whatever the index, and leaves behind
    an index that holds the value it answered; once the raw slots have escaped it
    answers nothing, so that the caller takes the ordinary path.  Neither read
    changes the slots, nor the coherence of the dictionary. *)
Theorem own_value_reference {V} t (c : Cell V) key hint :
  cell_ok c ->
  (own_value t c key).2 = assoc key (slots c) /\
  slots (own_value t c key).1.2 = slots c /\ cell_ok (own_value t c key).1.2 /\
  (cached_own_value t c key hint).2 =
    (if index_disabled c then None else assoc key (slots c)) /\
  slots (cached_own_value t c key hint).1.1.2 = slots c /\
  cell_ok (cached_own_value t c key hint).1.1.2 /\
  (forall v, (cached_own_value t c key hint).2 = Some v ->
     exists i, (cached_own_value t c key hint).1.2 = Some i /\ slots c !! i = Some (key, v)).
Proof.
  intros Hok. unfold own_value, cached_own_value.
  destruct (own_index_cases t c key Hok) as (E & Hs & _ & Hok').
  pose proof (position_assoc key (slots c)) as Hp. fold (names c) in Hp.
  destruct (own_index t c key) as [[t' c'] i]. simpl in *. subst i.
  split; [|split; [done|split; [done|]]].
  { destruct (position key (names c)) as [j|] eqn:Ej; simpl; [|done]. destruct Hp as (v & -> & Hi & _).
    by rewrite (slot_verified_at c' j key v) by (by rewrite Hs). }
  destruct (index_disabled c); [done|].
  destruct (hint ≫= fun i => slot_verified c i key) as [v|] eqn:Eh; simpl.
  - destruct hint as [i|]; [|done]. apply slot_verified_Some in Eh.
    assert (position key (names c) = Some i) as Ep.
    { apply position_NoDup; [apply Hok|]. unfold names. by rewrite (list_lookup_fmap fst), Eh. }
    rewrite Ep in Hp. destruct Hp as (u & -> & Hi & _). split_and!; [congruence|done|done|].
    intros w [= <-]. eauto.
  - destruct (position key (names c)) as [j|] eqn:Ej; simpl; [|done]. destruct Hp as (v & -> & Hi & _).
    rewrite (slot_verified_at c' j key v) by (by rewrite Hs). simpl. split_and!; [done..|].
    intros w [= <-]. eauto.
Qed.

Lemma own_value_reference_witness :
  (own_value initial (new [(chars "x", 1); (chars "y", 2)]) (chars "y")).2 = Some 2 /\
  (cached_own_value initial (new [(chars "x", 1); (chars "y", 2)]) (chars "y") (Some 0%nat)).2 = Some 2.
Proof.
  assert (cell_ok (new [(chars "x", 1); (chars "y", 2)])) as Hok
    by (split; [by apply (bool_decide_unpack (NoDup [chars "x"; chars "y"]))|done]).
  destruct (own_value_reference initial (new [(chars "x", 1); (chars "y", 2)]) (chars "y")
              (Some 0%nat) Hok) as (E1 & _ & _ & E2 & _).
  split; [exact E1|exact E2].
Defined.

(** Attributes are a map: after [set_attrs] the key has the attributes
    given, every other key has the ones it had, and the table still holds each
    key once, which is what lets reads search it from the end and writes from
    the start. *)
Theorem set_attrs_get m key a key' :
  NoDup (map fst (attrs m)) ->
  attrs_of (set_attrs m key a) key' = (if bool_decide (key = key') then a else attrs_of m key') /\
  NoDup (map fst (attrs (set_attrs m key a))).
Proof.
  intros Hd. assert (NoDup (map fst (attrs (set_attrs m key a)))) as Hd'.
  { unfold set_attrs. rewrite update_first_spec.
    destruct (assoc key (attrs m)) eqn:E; simpl; [by rewrite replace_names|].
    case_bool_decide; [|done]. simpl. rewrite map_app. apply NoDup_app. split; [done|].
    split; [|apply NoDup_singleton]. apply assoc_None in E.
    intros x Hx ->%list_elem_of_singleton. done. }
  split; [|done]. rewrite !attrs_of_assoc by done. unfold set_attrs. rewrite update_first_spec.
  destruct (assoc key (attrs m)) as [old|] eqn:E; simpl.
  - rewrite assoc_replace, E. by case_bool_decide.
  - case_bool_decide as Ha; simpl.
    + rewrite (assoc_snoc key key' a _ E). by case_bool_decide.
    + case_bool_decide as Hk; [|done]. rewrite <- Hk, E. simpl. done.
Qed.

Lemma set_attrs_get_witness :
  attrs_of (set_attrs sample_meta (chars "x") default_attrs) (chars "x") = default_attrs.
Proof.
  destruct (set_attrs_get sample_meta (chars "x") default_attrs (chars "x")) as [E _];
    [apply NoDup_singleton|exact E].
Defined.

(** ** Inline caches *)

Definition run_fills (c : PropCache) (h : list (Z * nat)) : PropCache :=
  fold_left (fun c '(i, s) => fill c i s) h c.

(** How many times a history of resolutions moves to another layout. *)
Fixpoint changes (previous : option Z) (h : list (Z * nat)) : nat :=
  match h with
  | [] => 0
  | (i, _) :: h => (if bool_decide (previous = Some i) then 0 else 1) + changes (Some i) h
  end.

Definition last_id (previous : option Z) (h : list (Z * nat)) : option Z :=
  match last h with Some (i, _) => Some i | None => previous end.

Lemma changes_snoc h : forall previous i s,
  changes previous (h ++ [(i, s)]) =
  (changes previous h + if bool_decide (last_id previous h = Some i) then 0 else 1)%nat.
Proof.
  induction h as [|[j u] h IH]; intros previous i s; simpl; [by rewrite Nat.add_0_r|].
  rewrite IH. replace (last_id previous ((j, u) :: h)) with (last_id (Some j) h); [lia|].
  unfold last_id. rewrite last_cons. by destruct (last h) as [[??]|].
Qed.

Lemma run_fills_spec h :
  let c := run_fills empty h in
  if (changes None h <=? 8)%nat then
    fills c = Z.of_nat (changes None h) /\
    match last h with
    | None => state c = CACHE_EMPTY
    | Some (i, s) => state c = CACHE_MONO /\ shape c = i /\ slot c = u32 (Z.of_nat s)
    end
  else state c = CACHE_MEGA.
Proof.
  induction h as [|[i s] h IH] using rev_ind; [done|]. cbv zeta in *.
  unfold run_fills in *. rewrite fold_left_app. simpl.
  set (c := fold_left _ h empty) in *. clearbody c.
  rewrite changes_snoc, last_snoc. unfold last_id, fill.
  destruct (Nat.leb_spec (changes None h) 8) as [Hle|Hgt].
  2:{ rewrite IH. case Nat.leb_spec; intros; [lia|done]. }
  destruct IH as [Hf Hlast].
  assert (forall b, (if MEGA_AT_FILLS <? Z.min (fills c + 1) 255 then true else b) =
                    if (changes None h + 1 <=? 8)%nat then b else true) as Hmega.
  { intros b. rewrite Hf. unfold MEGA_AT_FILLS.
    destruct (Z.ltb_spec 8 (Z.min (Z.of_nat (changes None h) + 1) 255)),
      (Nat.leb_spec (changes None h + 1) 8); done || lia. }
  specialize (Hmega false).
  destruct (last h) as [[j u]|].
  - destruct Hlast as (-> & Hj & Hu). rewrite Hj. destruct (Z.eqb_spec j i) as [->|Hne].
    + rewrite bool_decide_eq_true_2 by done. rewrite Nat.add_0_r.
      rewrite (proj2 (Nat.leb_le _ _) Hle). done.
    + rewrite bool_decide_eq_false_2 by congruence.
      destruct (Nat.leb_spec (changes None h + 1) 8), (MEGA_AT_FILLS <? _); try done.
      simpl. split; [lia|done].
  - rewrite Hlast, bool_decide_eq_false_2 by done.
    destruct (Nat.leb_spec (changes None h + 1) 8), (MEGA_AT_FILLS <? _); try done.
    simpl. split; [lia|done].
Qed.

(** What a property site's cache holds after any sequence of resolutions: it
    stops caching for good exactly when the layout changed more than eight
    times; until then it answers for the layout of the last resolution, with the
    slot resolved then, and for no other. *)
Theorem prop_cache_history h id :
  is_megamorphic (run_fills empty h) = (8 <? changes None h)%nat /\
  (probe (run_fills empty h) (Some id)).1 =
    (if (8 <? changes None h)%nat then None
     else match last h with
          | Some (i, s) => if i =? id then Some (Z.to_nat (u32 (Z.of_nat s))) else None
          | None => None
          end).
Proof.
  pose proof (run_fills_spec h) as H. cbv zeta in H. set (c := run_fills empty h) in *. clearbody c.
  rewrite Nat.ltb_antisym. unfold is_megamorphic, probe.
  destruct (changes None h <=? 8)%nat; simpl; [|by rewrite H].
  destruct H as [_ H]. destruct (last h) as [[i s]|]; [|by rewrite H].
  destruct H as (-> & -> & ->). by destruct (i =? id).
Qed.
