(* ===== verification/Timers.v ===== *)
(** The timer queue: the model of [TimerQueue] in [interpreter/jobs.rs].

    A queue of at most 128 timers is a vector sorted by key; a larger one is a
    [BTreeMap] from keys to identifiers and jobs with a hash index from
    identifiers to keys.  The tree is modelled by its list of entries in key
    order.  Storage kept for reuse is always empty of entries; whether the
    capacity of an index allows to keep it is the argument [retain]. *)
From stdpp Require Import prelude list gmap sorting.
From Stdlib Require Import ZArith Lia.
From S2P Require Import Prelude.
Local Open Scope Z_scope.

Module Timers.

(** The bits of the deadline, and the sequence number. *)
Abbreviation TimerKey := (Z * Z)%type (only parsing).

(** The derived order of a pair. *)
Definition key_lt (a b : TimerKey) : bool :=
  (a.1 <? b.1) || ((a.1 =? b.1) && (a.2 <? b.2)).

Section Timers.
Context {Job : Type}.

Record TimerEntry := { key : TimerKey; entry_id : Z; job : Job }.

(** [BTreeMap<TimerKey, (u64, Job)>] *)
Abbreviation Tree := (list (TimerKey * (Z * Job))) (only parsing).

(** [HashMap<u64, TimerKey>] *)
Abbreviation Ids := (gmap Z TimerKey) (only parsing).

Record TreeTimers := { spare_entries : Tree; spare_ids : Ids }.

Inductive TimerQueue :=
| Small (entries : list TimerEntry) (spare : option TreeTimers)
| TreeQueue (entries : Tree) (ids : Ids) (small : list TimerEntry).

Definition default : TimerQueue := Small [] None.

Definition SMALL_LIMIT : nat := 128.

(** [BTreeMap::insert] *)
Fixpoint tree_insert (k : TimerKey) (x : Z * Job) (t : Tree) : Tree :=
  match t with
  | [] => [(k, x)]
  | (k', x') :: t' =>
      if key_lt k k' then (k, x) :: t
      else if key_lt k' k then (k', x') :: tree_insert k x t'
      else (k', x) :: t'
  end.

(** [BTreeMap::remove] *)
Fixpoint tree_remove (k : TimerKey) (t : Tree) : Tree :=
  match t with
  | [] => []
  | (k', x') :: t' =>
      if key_lt k k' || key_lt k' k then (k', x') :: tree_remove k t' else t'
  end.

(** [Vec::partition_point] of a vector partitioned by the predicate. *)
Fixpoint partition_point (p : TimerEntry -> bool) (v : list TimerEntry) : nat :=
  match v with
  | e :: v => if p e then S (partition_point p v) else 0
  | [] => 0
  end.

(** [Vec::insert] and [Vec::remove] at an index within the vector. *)
Definition vec_insert {A} (i : nat) (x : A) (v : list A) : list A := take i v ++ x :: drop i v.
Definition vec_remove {A} (i : nat) (v : list A) : list A := take i v ++ drop (S i) v.

Fixpoint position_id (id : Z) (v : list TimerEntry) : option nat :=
  match v with
  | [] => None
  | e :: v => if entry_id e =? id then Some 0%nat else S <$> position_id id v
  end.

Definition len (q : TimerQueue) : nat :=
  match q with Small v _ => length v | TreeQueue entries _ _ => length entries end.

Definition is_empty (q : TimerQueue) : bool := (len q =? 0)%nat.

Definition contains_id (q : TimerQueue) (id : Z) : bool :=
  match q with
  | Small v _ => existsb (fun e => entry_id e =? id) v
  | TreeQueue _ ids _ => bool_decide (is_Some (ids !! id))
  end.

(** Move the vector into the tree and its index, in order. *)
Definition promote (v : list TimerEntry) (t : TreeTimers) : TreeTimers :=
  fold_left (fun t e => {| spare_entries := tree_insert (key e) (entry_id e, job e) (spare_entries t);
                           spare_ids := <[entry_id e := key e]> (spare_ids t) |}) v t.

Definition insert (q : TimerQueue) (k : TimerKey) (id : Z) (j : Job) : TimerQueue :=
  match q with
  | Small v spare =>
      let index := partition_point (fun e => key_lt (key e) k) v in
      let v := vec_insert index {| key := k; entry_id := id; job := j |} v in
      if (length v <=? SMALL_LIMIT)%nat then Small v spare
      else
        let t := promote v (from_option Datatypes.id {| spare_entries := []; spare_ids := ∅ |} spare) in
        TreeQueue (spare_entries t) (spare_ids t) []
  | TreeQueue entries ids small =>
      TreeQueue (tree_insert k (id, j) entries) (<[id := k]> ids) small
  end.

Definition demote_empty (q : TimerQueue) (retain : bool) : TimerQueue :=
  match q with
  | TreeQueue [] ids small =>
      Small small (if retain then Some {| spare_entries := []; spare_ids := ids |} else None)
  | _ => q
  end.

Definition cancel (q : TimerQueue) (id : Z) (retain : bool) : TimerQueue :=
  demote_empty
    (match q with
     | Small v spare =>
         match position_id id v with
         | Some i => Small (vec_remove i v) spare
         | None => q
         end
     | TreeQueue entries ids small =>
         match ids !! id with
         | Some k => TreeQueue (tree_remove k entries) (delete id ids) small
         | None => q
         end
     end) retain.

Definition first_key (q : TimerQueue) : option TimerKey :=
  match q with
  | Small v _ => key <$> head v
  | TreeQueue entries _ _ => fst <$> head entries
  end.

Definition pop (q : TimerQueue) (retain : bool) : option (Job * TimerQueue) :=
  match q with
  | Small [] _ => None
  | Small (e :: v) spare => Some (job e, demote_empty (Small v spare) retain)
  | TreeQueue [] _ _ => None
  | TreeQueue ((_, (id, j)) :: entries) ids small =>
      Some (j, demote_empty (TreeQueue entries (delete id ids) small) retain)
  end.

End Timers.
Arguments TimerEntry : clear implicits.
Arguments TimerQueue : clear implicits.
Arguments TreeTimers : clear implicits.
End Timers.
