(* ===== verification/TimersTheorems.v ===== *)
(** The timer queue refines a list of entries sorted by deadline and then by
    order of scheduling, in both of its representations and across the moves
    between them. *)
From stdpp Require Import prelude list gmap sorting.
From Stdlib Require Import ZArith Lia.
From S2P Require Import Prelude Timers.
Import Timers.
Local Open Scope Z_scope.

(** ** The order of keys *)

Lemma key_lt_spec a b : key_lt a b = true <-> a.1 < b.1 \/ a.1 = b.1 /\ a.2 < b.2.
Proof. unfold key_lt. rewrite orb_true_iff, andb_true_iff, !Z.ltb_lt, Z.eqb_eq. done. Qed.

Lemma key_lt_false a b : key_lt a b = false <-> b.1 < a.1 \/ a.1 = b.1 /\ b.2 <= a.2.
Proof. rewrite <- not_true_iff_false, key_lt_spec. lia. Qed.

Lemma key_lt_trans a b c : key_lt a b = true -> key_lt b c = true -> key_lt a c = true.
Proof. rewrite !key_lt_spec. lia. Qed.

Lemma key_lt_irrefl a : key_lt a a = false.
Proof. rewrite key_lt_false. lia. Qed.

Lemma key_lt_total a b : key_lt a b = false -> key_lt b a = false -> a = b.
Proof. rewrite !key_lt_false. destruct a, b. simpl. intros. f_equal; lia. Qed.

Section Refinement.
Context {Job : Type}.
Implicit Types (l v : list (TimerEntry Job)) (e : TimerEntry Job) (q : TimerQueue Job)
  (t : list ((Z * Z) * (Z * Job))).

(** ** The reference *)

Definition before e e' : Prop := key_lt (key e) (key e') = true.
Abbreviation sorted := (StronglySorted before).

(** Behind the entries with smaller keys. *)
Fixpoint place e l : list (TimerEntry Job) :=
  match l with
  | [] => [e]
  | e' :: l' => if key_lt (key e') (key e) then e' :: place e l' else e :: l
  end.

Definition without (id : Z) l : list (TimerEntry Job) := filter (fun e => entry_id e <> id) l.

Definition ids l : list Z := map entry_id l.
Definition keys l : list (Z * Z) := map key l.

#[local] Instance before_trans : Transitive before.
Proof. intros a b c. apply key_lt_trans. Qed.

Lemma place_Permutation e l : place e l ≡ₚ e :: l.
Proof.
  induction l as [|e' l IH]; simpl; [done|]. destruct (key_lt _ _); [|done].
  rewrite IH. apply Permutation_swap.
Qed.

Lemma place_sorted e l : sorted l -> key e ∉ keys l -> sorted (place e l).
Proof.
  induction 1 as [|e' l Hs IH Hall]; simpl; intros Hk; [by repeat constructor|].
  apply not_elem_of_cons in Hk as [Hne Hk]. destruct (key_lt (key e') (key e)) eqn:E.
  - constructor; [by apply IH|]. rewrite place_Permutation. by constructor.
  - assert (before e e') as Hb.
    { unfold before. destruct (key_lt (key e) (key e')) eqn:E2; [done|].
      destruct Hne. by apply key_lt_total. }
    constructor; [by constructor|]. constructor; [done|].
    eapply Forall_impl; [done|]. intros x. by apply transitivity.
Qed.

Lemma place_last e l : Forall (fun e' => before e' e) l -> place e l = l ++ [e].
Proof. induction 1 as [|e' l H _ IH]; simpl; [done|]. rewrite H. by f_equal. Qed.

Lemma sorted_app_r l1 l2 : sorted (l1 ++ l2) -> sorted l2.
Proof. induction l1; [done|]. intros H. inversion H; auto. Qed.

Lemma sorted_keys_NoDup l : sorted l -> NoDup (keys l).
Proof.
  induction 1 as [|e l _ IH Hall]; simpl; constructor; [|done].
  intros [e' [E He']]%list_elem_of_fmap. rewrite Forall_forall in Hall.
  specialize (Hall _ He'). unfold before in Hall. rewrite E, key_lt_irrefl in Hall. done.
Qed.

Lemma sorted_without id l : sorted l -> sorted (without id l).
Proof.
  induction 1 as [|e l Hs IH Hall]; unfold without in *; simpl; [constructor|].
  rewrite filter_cons. case_decide; [|done]. constructor; [done|].
  apply Forall_forall. intros x [_ Hx]%list_elem_of_filter. by eapply Forall_forall in Hall.
Qed.

Lemma without_absent id l : id ∉ ids l -> without id l = l.
Proof.
  induction l as [|e l IH]; simpl; [done|]. intros [Hne Hk]%not_elem_of_cons.
  unfold without in *. rewrite filter_cons, decide_True by done. by rewrite IH.
Qed.

Lemma ids_without_NoDup id l : NoDup (ids l) -> NoDup (ids (without id l)).
Proof.
  induction l as [|e l IH]; [done|]. intros [Hn Hd]%NoDup_cons. unfold without in *.
  rewrite filter_cons. case_decide; [|by apply IH]. apply NoDup_cons. split; [|by apply IH].
  intros (x & E & [_ Hx]%list_elem_of_filter)%list_elem_of_fmap. apply Hn. rewrite E.
  by apply list_elem_of_fmap_2.
Qed.

(** Identifiers being unique, removing one removes one entry. *)
Lemma without_split l1 e l2 :
  NoDup (ids (l1 ++ e :: l2)) -> without (entry_id e) (l1 ++ e :: l2) = l1 ++ l2.
Proof.
  unfold ids. rewrite map_app. simpl. intros (_ & H1 & [H2 _]%NoDup_cons)%NoDup_app.
  unfold without. rewrite filter_app, filter_cons, decide_False by auto. f_equal.
  - apply (without_absent (entry_id e) l1). intros Hin. apply (H1 _ Hin). constructor.
  - by apply (without_absent (entry_id e) l2).
Qed.

(** ** The vector *)

Lemma vec_insert_place k id (j : Job) v :
  vec_insert (partition_point (fun e => key_lt (key e) k) v)
    {| key := k; entry_id := id; job := j |} v = place {| key := k; entry_id := id; job := j |} v.
Proof.
  unfold vec_insert. induction v as [|e v IH]; simpl; [done|]. destruct (key_lt _ _); [|done].
  simpl. by rewrite IH.
Qed.

Lemma position_id_spec id v :
  match position_id id v with
  | Some i => exists l1 e l2, v = l1 ++ e :: l2 /\ entry_id e = id /\ vec_remove i v = l1 ++ l2
  | None => id ∉ ids v
  end.
Proof.
  induction v as [|e v IH]; simpl; [apply not_elem_of_nil|].
  destruct (Z.eqb_spec (entry_id e) id) as [E|E].
  - exists [], e, v. done.
  - destruct (position_id id v) as [i|]; simpl; [|by apply not_elem_of_cons; auto].
    destruct IH as (l1 & e' & l2 & -> & He & Hv). exists (e :: l1), e', l2.
    split; [done|]. split; [done|]. unfold vec_remove in *. simpl. by rewrite Hv.
Qed.

Lemma contains_spec id v : existsb (fun e => entry_id e =? id) v = bool_decide (id ∈ ids v).
Proof.
  induction v as [|e v IH]; [symmetry; apply bool_decide_eq_false_2, not_elem_of_nil|].
  cbn [existsb ids map]. rewrite IH. destruct (Z.eqb_spec (entry_id e) id) as [<-|Hne]; simpl.
  - rewrite bool_decide_eq_true_2; [done|constructor].
  - apply bool_decide_ext. rewrite elem_of_cons. intuition congruence.
Qed.

(** ** The tree *)

Definition entry_of (x : (Z * Z) * (Z * Job)) : TimerEntry Job :=
  {| key := x.1; entry_id := x.2.1; job := x.2.2 |}.

Lemma tree_insert_place k id (j : Job) t :
  k ∉ map fst t -> map entry_of (tree_insert k (id, j) t) =
  place {| key := k; entry_id := id; job := j |} (map entry_of t).
Proof.
  induction t as [|[k' x'] t IH]; simpl; [done|]. intros [Hne Hk]%not_elem_of_cons.
  destruct (key_lt k k') eqn:E1, (key_lt k' k) eqn:E2; simpl.
  - pose proof (key_lt_trans _ _ _ E1 E2) as E. by rewrite key_lt_irrefl in E.
  - done.
  - by rewrite IH.
  - destruct Hne. by apply key_lt_total.
Qed.

Lemma tree_remove_split k t1 (x : Z * Job) t2 :
  NoDup (map fst (t1 ++ (k, x) :: t2)) -> tree_remove k (t1 ++ (k, x) :: t2) = t1 ++ t2.
Proof.
  induction t1 as [|[k' x'] t1 IH]; simpl; [by rewrite key_lt_irrefl|].
  intros [Hk Hd]%NoDup_cons. rewrite (IH Hd).
  destruct (key_lt k k') eqn:E1, (key_lt k' k) eqn:E2; simpl; try done.
  rewrite (key_lt_total _ _ E1 E2) in Hk. destruct Hk. rewrite map_app. set_solver.
Qed.

(** The index of the identifiers of a tree. *)
Definition indexed t (m : gmap Z (Z * Z)) : Prop :=
  forall id k, m !! id = Some k <-> exists e, e ∈ map entry_of t /\ entry_id e = id /\ key e = k.

Lemma keys_entries t : keys (map entry_of t) = map fst t.
Proof. unfold keys. rewrite map_map. done. Qed.

Lemma indexed_insert t m k id (j : Job) :
  indexed t m -> k ∉ map fst t -> id ∉ ids (map entry_of t) ->
  indexed (tree_insert k (id, j) t) (<[id := k]> m).
Proof.
  intros Hm Hk Hid id' k'. rewrite (tree_insert_place k id j t Hk).
  setoid_rewrite place_Permutation. setoid_rewrite elem_of_cons.
  destruct (decide (id' = id)) as [->|Hne].
  - rewrite lookup_insert_eq. split.
    + intros [= <-]. eexists. split; [by left|done].
    + intros (e & [->|He] & Ei & <-); [done|]. destruct Hid. rewrite <- Ei. by apply list_elem_of_fmap_2.
  - rewrite lookup_insert_ne by done. rewrite (Hm id' k'). split.
    + intros (e & He & ?). exists e. auto.
    + intros (e & [->|He] & Ei & ?); [by simpl in Ei|]. exists e. auto.
Qed.

Lemma indexed_remove t1 (e : (Z * Z) * (Z * Job)) t2 m :
  indexed (t1 ++ e :: t2) m -> NoDup (ids (map entry_of (t1 ++ e :: t2))) ->
  indexed (t1 ++ t2) (delete (entry_id (entry_of e)) m).
Proof.
  intros Hm Hd id k. rewrite map_app in Hd. simpl in Hd.
  rewrite map_app, <- (without_split _ (entry_of e) _ Hd). unfold without.
  setoid_rewrite list_elem_of_filter. rewrite <- (map_cons entry_of), <- map_app.
  destruct (decide (id = entry_id (entry_of e))) as [->|Hne].
  - rewrite lookup_delete_eq. split; [done|]. intros (x & [Hx _] & E & _). done.
  - rewrite lookup_delete_ne by done. rewrite (Hm id k). split.
    + intros (x & Hx & E & <-). exists x. split; [|done]. split; [congruence|done].
    + intros (x & [_ Hx] & ?). eauto.
Qed.

(** Moving a sorted vector behind a tree. *)
Lemma promote_spec v : forall t m,
  sorted (map entry_of t ++ v) -> NoDup (ids (map entry_of t ++ v)) -> indexed t m ->
  let r := promote v {| spare_entries := t; spare_ids := m |} in
  map entry_of (spare_entries r) = map entry_of t ++ v /\ indexed (spare_entries r) (spare_ids r).
Proof.
  induction v as [|e v IH]; intros t m Hs Hd Hm; [by simpl; rewrite app_nil_r|].
  assert (key e ∉ map fst t) as Hk.
  { apply sorted_keys_NoDup in Hs. unfold keys in Hs. rewrite map_app in Hs.
    apply NoDup_app in Hs as (_ & Hs & _). intros Hin. rewrite <- keys_entries in Hin.
    apply (Hs _ Hin). constructor. }
  assert (entry_id e ∉ ids (map entry_of t)) as Hid.
  { unfold ids in *. rewrite map_app in Hd. apply NoDup_app in Hd as (_ & Hd & _).
    intros Hin. apply (Hd _ Hin). constructor. }
  assert (map entry_of (tree_insert (key e) (entry_id e, job e) t) = map entry_of t ++ [e]) as E.
  { rewrite (tree_insert_place _ _ _ _ Hk). destruct e as [k i j]. simpl. apply place_last.
    clear -Hs. induction (map entry_of t) as [|x l IHl]; [constructor|]. simpl in Hs.
    inversion Hs as [|?? Hs' Hall]; subst. constructor; [|by apply IHl].
    rewrite Forall_app in Hall. destruct Hall as [_ Hall]. by inversion Hall. }
  simpl. destruct (IH (tree_insert (key e) (entry_id e, job e) t) (<[entry_id e := key e]> m))
    as [E' Hm'].
  - by rewrite E, <- app_assoc.
  - by rewrite E, <- app_assoc.
  - by apply indexed_insert.
  - split; [|done]. by rewrite E', E, <- app_assoc.
Qed.

(** ** The queue *)

Definition abs q : list (TimerEntry Job) :=
  match q with Small v _ => v | TreeQueue t _ _ => map entry_of t end.

Definition spare_ok (s : option (TreeTimers Job)) : Prop :=
  match s with Some s => spare_entries s = [] /\ spare_ids s = ∅ | None => True end.

Definition queue_ok q : Prop :=
  sorted (abs q) /\ NoDup (ids (abs q)) /\
  match q with
  | Small v spare => (length v <= SMALL_LIMIT)%nat /\ spare_ok spare
  | TreeQueue t m small => t <> [] /\ indexed t m /\ small = []
  end.

Lemma insert_ok q k id (j : Job) :
  queue_ok q -> k ∉ keys (abs q) -> id ∉ ids (abs q) ->
  queue_ok (insert q k id j) /\
  abs (insert q k id j) = place {| key := k; entry_id := id; job := j |} (abs q).
Proof.
  intros (Hs & Hd & Hq) Hk Hid. set (e := {| key := k; entry_id := id; job := j |}).
  assert (sorted (place e (abs q))) as Hs' by (by apply place_sorted).
  assert (NoDup (ids (place e (abs q)))) as Hd'.
  { unfold ids. rewrite place_Permutation. simpl. by constructor. }
  destruct q as [v spare|t m small]; simpl in *.
  - rewrite vec_insert_place. fold e. case Nat.leb_spec; intros Hlen; simpl.
    + split; [|done]. split; [done|]. split; [done|]. by split; [|apply Hq].
    + destruct (promote_spec (place e v) [] ∅ Hs' Hd') as [E Hm].
      { intros i k'. rewrite lookup_empty. simpl. split; [done|]. intros (x & Hx & _).
        by apply not_elem_of_nil in Hx. }
      replace (from_option Datatypes.id _ spare) with
        {| spare_entries := [] : list ((Z * Z) * (Z * Job)); spare_ids := ∅ |}.
      2:{ destruct spare as [[s m]|]; [|done]. destruct Hq as [_ [??]]. simpl in *. by subst. }
      simpl in E. split; [|done]. unfold queue_ok. cbn [abs]. rewrite E. do 2 (split; [done|]).
      split; [|done]. intros En. rewrite En in E. simpl in E. rewrite <- E in Hlen. simpl in Hlen. lia.
  - destruct Hq as (Hne & Hm & ->). rewrite keys_entries in Hk.
    pose proof (tree_insert_place k id j t Hk) as E. split; [|done]. unfold queue_ok. cbn [abs].
    rewrite E. do 2 (split; [done|]). split; [|by split; [apply indexed_insert|]].
    destruct t as [|[k' x'] t]; [done|]. simpl. by repeat destruct (key_lt _ _).
Qed.

Lemma demote_ok t m retain :
  sorted (map entry_of t) -> NoDup (ids (map entry_of t)) -> indexed t m ->
  queue_ok (demote_empty (TreeQueue t m []) retain) /\
  abs (demote_empty (TreeQueue t m []) retain) = map entry_of t /\
  (t = [] -> m = ∅).
Proof.
  intros Hs Hd Hm.
  assert (t = [] -> m = ∅) as Hempty.
  { intros ->. apply map_eq. intros i. rewrite lookup_empty. destruct (m !! i) as [k|] eqn:E; [|done].
    apply (Hm i k) in E as (x & Hx & _). by apply not_elem_of_nil in Hx. }
  destruct t as [|x t]; simpl; (split; [|by split]); unfold queue_ok; simpl in *.
  - do 2 (split; [done|]). split; [unfold SMALL_LIMIT; lia|].
    destruct retain; simpl; [|done]. split; [done|by apply Hempty].
  - do 2 (split; [done|]). done.
Qed.

Lemma cancel_ok q id retain :
  queue_ok q -> queue_ok (cancel q id retain) /\ abs (cancel q id retain) = without id (abs q).
Proof.
  intros (Hs & Hd & Hq). pose proof (sorted_without id (abs q) Hs) as Hs'.
  assert (NoDup (ids (without id (abs q)))) as Hd'.
  { by apply ids_without_NoDup. }
  unfold cancel. destruct q as [v spare|t m small]; simpl in *.
  - pose proof (position_id_spec id v) as Hp. destruct (position_id id v) as [i|]; simpl.
    + destruct Hp as (l1 & e & l2 & -> & <- & Hv). rewrite Hv. rewrite without_split in * by done.
      split; [|done]. do 2 (split; [done|]). destruct Hq as [Hl ?]. split; [|done].
      rewrite length_app in *. simpl in *. lia.
    + rewrite without_absent in * by done. split; [|done]. by do 2 (split; [done|]).
  - destruct Hq as (Hne & Hm & ->). destruct (m !! id) as [k|] eqn:E.
    + apply (Hm id k) in E as (e & He & <- & <-).
      apply list_elem_of_fmap in He as (x & -> & Hx). apply list_elem_of_split in Hx as (t1 & t2 & ->).
      pose proof (sorted_keys_NoDup _ Hs) as Hk. rewrite keys_entries in Hk.
      destruct x as [k x]. simpl. rewrite (tree_remove_split k t1 x t2 Hk).
      pose proof (indexed_remove t1 (k, x) t2 m Hm Hd) as Hm'. simpl in Hm'.
      rewrite map_app in Hs', Hd', Hd |- *. simpl in Hs', Hd', Hd |- *.
      rewrite (without_split _ (entry_of (k, x)) _ Hd : without x.1 _ = _) in *.
      rewrite <- map_app in *. by destruct (demote_ok _ _ retain Hs' Hd' Hm') as (? & ? & _).
    + assert (id ∉ ids (map entry_of t)) as Hno.
      { intros (e & -> & He)%list_elem_of_fmap. assert (m !! entry_id e = Some (key e)) as E'.
        { apply (Hm (entry_id e) (key e)). eauto. }
        congruence. }
      rewrite without_absent in * by done. by destruct (demote_ok t m retain Hs Hd Hm) as (? & ? & _).
Qed.

Lemma pop_ok q retain :
  queue_ok q ->
  match abs q with
  | [] => pop q retain = None
  | e :: l => exists q', pop q retain = Some (job e, q') /\ queue_ok q' /\ abs q' = l
  end.
Proof.
  intros (Hs & Hd & Hq). destruct q as [[|e v] spare|[|[k [i j]] t] m small]; simpl in *; try done.
  - eexists. split; [done|]. split; [|done]. inversion Hs; subst. inversion Hd; subst.
    do 2 (split; [done|]). split; [lia|apply Hq].
  - eexists. split; [done|]. destruct Hq as (_ & Hm & ->).
    inversion Hs; subst. inversion Hd; subst.
    pose proof (indexed_remove [] (k, (i, j)) t m Hm Hd) as Hm'. simpl in Hm'.
    by destruct (demote_ok t (delete i m) retain) as (? & ? & _).
Qed.

Lemma observe_ok q id :
  queue_ok q ->
  len q = length (abs q) /\ contains_id q id = bool_decide (id ∈ ids (abs q)) /\
  first_key q = key <$> head (abs q).
Proof.
  intros (Hs & Hd & Hq). destruct q as [v spare|t m small]; simpl in *.
  - split; [done|]. split; [apply contains_spec|done].
  - split; [by rewrite length_map|]. split; [|by destruct t]. apply bool_decide_ext.
    destruct Hq as (_ & Hm & _). split.
    + intros [k Hk]. apply (Hm id k) in Hk as (e & He & <- & _). by apply list_elem_of_fmap_2.
    + intros (e & -> & He)%list_elem_of_fmap. exists (key e). apply (Hm (entry_id e) (key e)). eauto.
Qed.

(** ** Sequences of operations *)

Inductive op :=
| Insert (k : Z * Z) (id : Z) (j : Job)
| Cancel (id : Z) (retain : bool)
| Pop (retain : bool).

(** The queue and its answer. *)
Definition run_op q (o : op) : TimerQueue Job * option Job :=
  match o with
  | Insert k id j => (insert q k id j, None)
  | Cancel id retain => (cancel q id retain, None)
  | Pop retain => match pop q retain with Some (j, q) => (q, Some j) | None => (q, None) end
  end.

(** The reference and its answer. *)
Definition spec_op l (o : op) : list (TimerEntry Job) * option Job :=
  match o with
  | Insert k id j => (place {| key := k; entry_id := id; job := j |} l, None)
  | Cancel id _ => (without id l, None)
  | Pop _ => match l with e :: l => (l, Some (job e)) | [] => ([], None) end
  end.

Fixpoint run_ops q (os : list op) : TimerQueue Job * list (option Job) :=
  match os with
  | [] => (q, [])
  | o :: os => let '(q, a) := run_op q o in let '(q, l) := run_ops q os in (q, a :: l)
  end.

Fixpoint spec_ops l (os : list op) : list (TimerEntry Job) * list (option Job) :=
  match os with
  | [] => (l, [])
  | o :: os => let '(l, a) := spec_op l o in let '(l, r) := spec_ops l os in (l, a :: r)
  end.

(** Keys and identifiers are inserted once at a time. *)
Fixpoint fresh_ops l (os : list op) : Prop :=
  match os with
  | [] => True
  | o :: os =>
      match o with
      | Insert k id _ => (k ∉ keys l) /\ (id ∉ ids l)
      | _ => True
      end /\ fresh_ops (spec_op l o).1 os
  end.

Lemma run_op_ok q o :
  queue_ok q -> fresh_ops (abs q) [o] ->
  queue_ok (run_op q o).1 /\ abs (run_op q o).1 = (spec_op (abs q) o).1 /\
  (run_op q o).2 = (spec_op (abs q) o).2.
Proof.
  intros Hok. destruct o as [k id j|id retain|retain]; simpl.
  - intros [[Hk Hid] _]. by destruct (insert_ok q k id j Hok Hk Hid).
  - intros _. by destruct (cancel_ok q id retain Hok).
  - intros _. pose proof (pop_ok q retain Hok) as Hp. destruct (abs q) as [|e l] eqn:E.
    + rewrite Hp. simpl. by rewrite E.
    + destruct Hp as (q' & -> & ? & ?). done.
Qed.

Lemma run_ops_ok os : forall q,
  queue_ok q -> fresh_ops (abs q) os ->
  queue_ok (run_ops q os).1 /\ abs (run_ops q os).1 = (spec_ops (abs q) os).1 /\
  (run_ops q os).2 = (spec_ops (abs q) os).2.
Proof.
  induction os as [|o os IH]; intros q Hok Hf; [done|]. destruct Hf as [Ho Hf].
  destruct (run_op_ok q o Hok) as (Hok' & Ha & Hb); [by split|].
  cbn [run_ops spec_ops]. destruct (run_op q o) as [q1 a1], (spec_op (abs q) o) as [l1 b1].
  simpl in *. subst l1 b1. destruct (IH q1 Hok' Hf) as (? & ? & ?).
  destruct (run_ops q1 os), (spec_ops (abs q1) os). simpl in *. by subst.
Qed.

Lemma default_ok : queue_ok (Timers.default : TimerQueue Job).
Proof. repeat constructor. Qed.

End Refinement.
Arguments op : clear implicits.

(** C29. The hybrid timer queue refines a list sorted by deadline and sequence
    number: over any run of insertions, cancellations and removals from the
    empty queue it answers as the list does, whether the timers are in the
    vector or in the tree, across promotion at 129 timers and demotion when it
    empties, and its length, membership and first-key queries agree.  The
    identifier index is exactly that of the tree and is empty when the tree is
    demoted, and storage kept for reuse holds nothing. *)
Theorem timer_queue_refines {Job} (os : list (op Job)) :
  fresh_ops [] os ->
  let '(q, answers) := run_ops Timers.default os in
  let '(l, expected) := spec_ops [] os in
  answers = expected /\ abs q = l /\ queue_ok q /\ StronglySorted before l /\
  len q = length l /\ first_key q = key <$> head l /\
  (forall id, contains_id q id = bool_decide (id ∈ ids l)).
Proof.
  intros Hf. destruct (run_ops_ok os Timers.default default_ok Hf) as (Hok & Ha & Hb).
  change (abs Timers.default) with (@nil (TimerEntry Job)) in *.
  destruct (run_ops Timers.default os) as [q r], (spec_ops [] os) as [l x]. simpl in *. subst l x.
  split; [done|]. split; [done|]. split; [done|]. split; [apply Hok|].
  split; [by destruct (observe_ok q 0 Hok)|]. split; [by destruct (observe_ok q 0 Hok) as (_ & _ & ?)|].
  intros id. by destruct (observe_ok q id Hok) as (_ & ? & _).
Qed.

Definition sample_ops : list (op nat) :=
  [Insert (5, 1) 1 10%nat; Insert (3, 2) 2 20%nat; Insert (5, 3) 3 30%nat; Cancel 1 true;
   Pop true; Pop true].

Lemma timer_queue_refines_witness :
  (run_ops Timers.default sample_ops).2 = [None; None; None; None; Some 20%nat; Some 30%nat].
Proof.
  assert (fresh_ops [] sample_ops) as Hf.
  { cbn. repeat split; try done; apply (bool_decide_unpack _); vm_compute; done. }
  pose proof (timer_queue_refines sample_ops Hf) as H.
  destruct (run_ops Timers.default sample_ops) as [q r]. destruct H as [-> _]. reflexivity.
Defined.
