(* ===== verification/Jobs.v ===== *)
(** Job queues, timers and promise settlement: the model of
    [interpreter/jobs.rs], with the clocks of [interpreter/scheduler.rs].

    The queue is shared by every interpreter of an owner thread, and promises
    are shared cells: the operations that touch promises take the store of
    promise cells as an argument.  Realms, shared buffers and wait registrations
    are the identities of their cells; [is_notified] reads the signal of a
    registration, which other threads set. *)
From stdpp Require Import prelude list gmap strings.
From Stdlib Require Import ZArith Lia SpecFloat.
From S2P Require Import Prelude JsString Opcode Machine Timers.
Import Opcode Machine.
Local Open Scope Z_scope.

Module Jobs.

(** ** Floating-point deadlines *)

Definition f64_add : spec_float -> spec_float -> spec_float := SFadd 53 1024.

(** [f64::MAX] *)
Definition f64_MAX : spec_float := S754_finite false 9007199254740991 971.

Definition is_finite (x : spec_float) : bool :=
  match x with S754_zero _ | S754_finite _ _ _ => true | _ => false end.

Definition zero_f64 : spec_float := S754_zero false.

(** [f64::min]: a NaN operand gives the other one. *)
Definition f64_min (x y : spec_float) : spec_float :=
  match x, y with
  | S754_nan, _ => y
  | _, S754_nan => x
  | _, _ => if SFleb x y then x else y
  end.

(** [f64::to_bits]: the mantissa of a finite number carries its leading bit, so
    adding it to the exponent field below gives normal numbers and subnormal
    ones alike. *)
Definition to_bits (x : spec_float) : Z :=
  match x with
  | S754_zero s => if s then 2 ^ 63 else 0
  | S754_infinity s => (if s then 2 ^ 63 else 0) + 2047 * 2 ^ 52
  | S754_nan => 2047 * 2 ^ 52 + 2 ^ 51
  | S754_finite s m e => (if s then 2 ^ 63 else 0) + (e + 1074) * 2 ^ 52 + Zpos m
  end.

(** [f64::from_bits] *)
Definition from_bits (b : Z) : spec_float :=
  let s := 2 ^ 63 <=? b in
  let exponent := (b / 2 ^ 52) mod 2048 in
  let fraction := b mod 2 ^ 52 in
  if exponent =? 2047 then (if fraction =? 0 then S754_infinity s else S754_nan)
  else
    let mantissa := if exponent =? 0 then fraction else 2 ^ 52 + fraction in
    match mantissa with
    | Zpos m => S754_finite s m (Z.max exponent 1 - 1075)
    | _ => S754_zero s
    end.

Definition normalize_delay (delay : spec_float) : spec_float :=
  if is_finite delay && SFltb zero_f64 delay then delay else zero_f64.

(** ** Clocks *)

(** A clock carries what it reads now. *)
Inductive ClockMode :=
| Legacy
| Virtual (now : spec_float)
| RealTime (now : spec_float).

Definition now_ms (c : ClockMode) : spec_float :=
  match c with Legacy => zero_f64 | Virtual now | RealTime now => now end.

Definition is_legacy (c : ClockMode) : bool := match c with Legacy => true | _ => false end.
Definition is_real_time (c : ClockMode) : bool := match c with RealTime _ => true | _ => false end.

(** [VirtualClock::advance] *)
Definition advance (now milliseconds : spec_float) : option spec_float :=
  let next := f64_add now milliseconds in
  if negb (is_finite milliseconds) || SFltb milliseconds zero_f64 || negb (is_finite next)
  then None else Some next.

(** ** Promises *)

Inductive PromiseState := Pending | Fulfilled | Rejected.

#[export] Instance PromiseState_eq_dec : EqDecision PromiseState.
Proof. solve_decision. Defined.

Record Reaction := {
  on_fulfilled : Value;
  on_rejected : Value;
  derived : nat;
  adopted : bool;
  capability : option (Value * Value);
}.

(** The object properties of a promise are left out. *)
Record PromiseInner := {
  state : PromiseState;
  resolution_locked : bool;
  external_pending : bool;
  value : Value;
  reactions : list Reaction;
  handled : bool;
}.

(** ** Jobs *)

Inductive ImportPhase := Evaluation | Source | Deferred.
Inductive HostCallbackKind := CallKind | MakeCallback | Construct.

Record HostCallback := {
  hc_callback : Value;
  hc_this_value : Value;
  hc_args : list Value;
  hc_kind : HostCallbackKind;
}.

Inductive Job :=
| ModuleEvaluation (realm : Env) (id : list Z) (target : nat)
| DynamicImport (realm : Env) (target : nat) (specifier : list Z)
    (attributes : list (list Z * JsString.JsString)) (phase : ImportPhase)
    (referrer : option (list Z))
| ReactionJob (st : PromiseState) (v : Value) (reaction : Reaction)
| PromiseResolveThenable (realm : Env) (target : nat) (thenable then_ resolution_guard : Value)
| Callback (callback : Value) (args : list Value)
| IntervalJob (id : Z)
| HostCallbackJob (callback : HostCallback)
| HostPromiseSettled (promise : nat) (st : PromiseState) (v : Value)
| HostUncaughtException (exception : Value)
| AtomicsWaitTimeout (key : Z * Z) (waiter_id : Z).

(** The values a job keeps alive. *)
Definition trace_values (j : Job) : list Value :=
  match j with
  | ModuleEvaluation realm _ target | DynamicImport realm target _ _ _ _ =>
      [Promise target; RealmGlobal realm]
  | ReactionJob _ v r =>
      [v; on_fulfilled r; on_rejected r; Promise (derived r)]
      ++ match capability r with Some (resolve, reject) => [resolve; reject] | None => [] end
  | PromiseResolveThenable realm target thenable then_ guard =>
      [RealmGlobal realm; Promise target; thenable; then_; guard]
  | Callback callback args => callback :: args
  | HostCallbackJob c => [hc_callback c; hc_this_value c] ++ hc_args c
  | HostPromiseSettled promise _ v => [Promise promise; v]
  | HostUncaughtException exception => [exception]
  | AtomicsWaitTimeout _ _ => []
  | IntervalJob _ => []
  end.

Record Interval := {
  delay : spec_float;
  iv_callback : Value;
  iv_args : list Value;
  timer_id : Z;
}.

Record AtomicsWaiter := {
  native : option nat;
  shared : option nat;
  waiter_id : Z;
  waiter_promise : nat;
}.

Record JobQueue := {
  kept_alive : list Value;
  kept_identities : gset nat;
  microtasks : list Job;
  external_events : list Job;
  host_overflow : list Job;
  timers : Timers.TimerQueue Job;
  intervals : gmap Z Interval;
  max_timers : option nat;
  next_timer_id : Z;
  timer_ids_wrapped : bool;
  next_sequence : Z;
  peak_depth : nat;
  clock : ClockMode;
  checkpoint_pending : bool;
  dispatch_depth : nat;
  prefer_timer : bool;
  atomics_waiters : gmap (Z * Z) (list AtomicsWaiter);
  next_atomics_waiter_id : Z;
}.

Definition default : JobQueue :=
  {| kept_alive := []; kept_identities := ∅; microtasks := []; external_events := [];
     host_overflow := []; timers := Timers.default; intervals := ∅; max_timers := None;
     next_timer_id := 0; timer_ids_wrapped := false; next_sequence := 0; peak_depth := 0;
     clock := Legacy; checkpoint_pending := false; dispatch_depth := 0; prefer_timer := false;
     atomics_waiters := ∅; next_atomics_waiter_id := 0 |}.

Definition set_kept (q : JobQueue) (l : list Value) (s : gset nat) : JobQueue :=
  {| kept_alive := l; kept_identities := s; microtasks := microtasks q; external_events :=
     external_events q; host_overflow := host_overflow q; timers := timers q; intervals :=
     intervals q; max_timers := max_timers q; next_timer_id := next_timer_id q;
     timer_ids_wrapped := timer_ids_wrapped q; next_sequence := next_sequence q; peak_depth
     := peak_depth q; clock := clock q; checkpoint_pending := checkpoint_pending q;
     dispatch_depth := dispatch_depth q; prefer_timer := prefer_timer q; atomics_waiters :=
     atomics_waiters q; next_atomics_waiter_id := next_atomics_waiter_id q |}.
Definition set_microtasks (q : JobQueue) (l : list Job) : JobQueue :=
  {| kept_alive := kept_alive q; kept_identities := kept_identities q; microtasks := l;
     external_events := external_events q; host_overflow := host_overflow q; timers :=
     timers q; intervals := intervals q; max_timers := max_timers q; next_timer_id :=
     next_timer_id q; timer_ids_wrapped := timer_ids_wrapped q; next_sequence :=
     next_sequence q; peak_depth := peak_depth q; clock := clock q; checkpoint_pending :=
     checkpoint_pending q; dispatch_depth := dispatch_depth q; prefer_timer := prefer_timer
     q; atomics_waiters := atomics_waiters q; next_atomics_waiter_id :=
     next_atomics_waiter_id q |}.
Definition set_external_events (q : JobQueue) (l : list Job) : JobQueue :=
  {| kept_alive := kept_alive q; kept_identities := kept_identities q; microtasks :=
     microtasks q; external_events := l; host_overflow := host_overflow q; timers := timers
     q; intervals := intervals q; max_timers := max_timers q; next_timer_id := next_timer_id
     q; timer_ids_wrapped := timer_ids_wrapped q; next_sequence := next_sequence q;
     peak_depth := peak_depth q; clock := clock q; checkpoint_pending := checkpoint_pending
     q; dispatch_depth := dispatch_depth q; prefer_timer := prefer_timer q; atomics_waiters
     := atomics_waiters q; next_atomics_waiter_id := next_atomics_waiter_id q |}.
Definition set_host_overflow (q : JobQueue) (l : list Job) : JobQueue :=
  {| kept_alive := kept_alive q; kept_identities := kept_identities q; microtasks :=
     microtasks q; external_events := external_events q; host_overflow := l; timers :=
     timers q; intervals := intervals q; max_timers := max_timers q; next_timer_id :=
     next_timer_id q; timer_ids_wrapped := timer_ids_wrapped q; next_sequence :=
     next_sequence q; peak_depth := peak_depth q; clock := clock q; checkpoint_pending :=
     checkpoint_pending q; dispatch_depth := dispatch_depth q; prefer_timer := prefer_timer
     q; atomics_waiters := atomics_waiters q; next_atomics_waiter_id :=
     next_atomics_waiter_id q |}.
Definition set_timers (q : JobQueue) (t : Timers.TimerQueue Job) : JobQueue :=
  {| kept_alive := kept_alive q; kept_identities := kept_identities q; microtasks :=
     microtasks q; external_events := external_events q; host_overflow := host_overflow q;
     timers := t; intervals := intervals q; max_timers := max_timers q; next_timer_id :=
     next_timer_id q; timer_ids_wrapped := timer_ids_wrapped q; next_sequence :=
     next_sequence q; peak_depth := peak_depth q; clock := clock q; checkpoint_pending :=
     checkpoint_pending q; dispatch_depth := dispatch_depth q; prefer_timer := prefer_timer
     q; atomics_waiters := atomics_waiters q; next_atomics_waiter_id :=
     next_atomics_waiter_id q |}.
Definition set_intervals (q : JobQueue) (m : gmap Z Interval) : JobQueue :=
  {| kept_alive := kept_alive q; kept_identities := kept_identities q; microtasks :=
     microtasks q; external_events := external_events q; host_overflow := host_overflow q;
     timers := timers q; intervals := m; max_timers := max_timers q; next_timer_id :=
     next_timer_id q; timer_ids_wrapped := timer_ids_wrapped q; next_sequence :=
     next_sequence q; peak_depth := peak_depth q; clock := clock q; checkpoint_pending :=
     checkpoint_pending q; dispatch_depth := dispatch_depth q; prefer_timer := prefer_timer
     q; atomics_waiters := atomics_waiters q; next_atomics_waiter_id :=
     next_atomics_waiter_id q |}.
Definition set_next_timer_id (q : JobQueue) (i : Z) (w : bool) : JobQueue :=
  {| kept_alive := kept_alive q; kept_identities := kept_identities q; microtasks :=
     microtasks q; external_events := external_events q; host_overflow := host_overflow q;
     timers := timers q; intervals := intervals q; max_timers := max_timers q; next_timer_id
     := i; timer_ids_wrapped := w; next_sequence := next_sequence q; peak_depth :=
     peak_depth q; clock := clock q; checkpoint_pending := checkpoint_pending q;
     dispatch_depth := dispatch_depth q; prefer_timer := prefer_timer q; atomics_waiters :=
     atomics_waiters q; next_atomics_waiter_id := next_atomics_waiter_id q |}.
Definition set_next_sequence (q : JobQueue) (n : Z) : JobQueue :=
  {| kept_alive := kept_alive q; kept_identities := kept_identities q; microtasks :=
     microtasks q; external_events := external_events q; host_overflow := host_overflow q;
     timers := timers q; intervals := intervals q; max_timers := max_timers q; next_timer_id
     := next_timer_id q; timer_ids_wrapped := timer_ids_wrapped q; next_sequence := n;
     peak_depth := peak_depth q; clock := clock q; checkpoint_pending := checkpoint_pending
     q; dispatch_depth := dispatch_depth q; prefer_timer := prefer_timer q; atomics_waiters
     := atomics_waiters q; next_atomics_waiter_id := next_atomics_waiter_id q |}.
Definition set_peak_depth (q : JobQueue) (n : nat) : JobQueue :=
  {| kept_alive := kept_alive q; kept_identities := kept_identities q; microtasks :=
     microtasks q; external_events := external_events q; host_overflow := host_overflow q;
     timers := timers q; intervals := intervals q; max_timers := max_timers q; next_timer_id
     := next_timer_id q; timer_ids_wrapped := timer_ids_wrapped q; next_sequence :=
     next_sequence q; peak_depth := n; clock := clock q; checkpoint_pending :=
     checkpoint_pending q; dispatch_depth := dispatch_depth q; prefer_timer := prefer_timer
     q; atomics_waiters := atomics_waiters q; next_atomics_waiter_id :=
     next_atomics_waiter_id q |}.
Definition with_clock (q : JobQueue) (c : ClockMode) : JobQueue :=
  {| kept_alive := kept_alive q; kept_identities := kept_identities q; microtasks :=
     microtasks q; external_events := external_events q; host_overflow := host_overflow q;
     timers := timers q; intervals := intervals q; max_timers := max_timers q; next_timer_id
     := next_timer_id q; timer_ids_wrapped := timer_ids_wrapped q; next_sequence :=
     next_sequence q; peak_depth := peak_depth q; clock := c; checkpoint_pending :=
     checkpoint_pending q; dispatch_depth := dispatch_depth q; prefer_timer := prefer_timer
     q; atomics_waiters := atomics_waiters q; next_atomics_waiter_id :=
     next_atomics_waiter_id q |}.
Definition set_atomics_waiters (q : JobQueue) (m : gmap (Z * Z) (list AtomicsWaiter)) (n : Z) : JobQueue :=
  {| kept_alive := kept_alive q; kept_identities := kept_identities q; microtasks :=
     microtasks q; external_events := external_events q; host_overflow := host_overflow q;
     timers := timers q; intervals := intervals q; max_timers := max_timers q; next_timer_id
     := next_timer_id q; timer_ids_wrapped := timer_ids_wrapped q; next_sequence :=
     next_sequence q; peak_depth := peak_depth q; clock := clock q; checkpoint_pending :=
     checkpoint_pending q; dispatch_depth := dispatch_depth q; prefer_timer := prefer_timer
     q; atomics_waiters := m; next_atomics_waiter_id := n |}.

(** ** Queues *)

Definition MAX_ARRAY_LEN : Z := 262144.

(** The weak identity of the value, if it has one, is an argument.  [None] when
    the table is full. *)
Definition keep_alive (q : JobQueue) (v : Value) (identity : option nat) : option JobQueue :=
  match identity with
  | None => Some q
  | Some i =>
      if bool_decide (i ∈ kept_identities q) then Some q
      else if MAX_ARRAY_LEN <=? Z.of_nat (length (kept_alive q)) then None
      else Some (set_kept q (kept_alive q ++ [v]) ({[i]} ∪ kept_identities q))
  end.

Definition clear_kept_alive (q : JobQueue) : JobQueue := set_kept q [] ∅.

Definition len (q : JobQueue) : nat :=
  length (microtasks q) + length (external_events q) + Timers.len (timers q)
  + length (host_overflow q).

Definition observe_depth (q : JobQueue) : JobQueue :=
  set_peak_depth q (Nat.max (peak_depth q) (len q)).

Definition push_microtask (q : JobQueue) (j : Job) : JobQueue :=
  observe_depth (set_microtasks q (microtasks q ++ [j])).

Definition take_microtask (q : JobQueue) : option (Job * JobQueue) :=
  match microtasks q with j :: l => Some (j, set_microtasks q l) | [] => None end.

Definition push_external_event (q : JobQueue) (j : Job) : JobQueue :=
  observe_depth (set_external_events q (external_events q ++ [j])).

Definition take_external_event (q : JobQueue) : option (Job * JobQueue) :=
  match external_events q with j :: l => Some (j, set_external_events q l) | [] => None end.

Definition push_overflow (q : JobQueue) (j : Job) : JobQueue :=
  observe_depth (set_host_overflow q (host_overflow q ++ [j])).

Definition has_microtasks (q : JobQueue) : bool :=
  match microtasks q with [] => false | _ => true end.
Definition has_external_events (q : JobQueue) : bool :=
  match external_events q with [] => false | _ => true end.
Definition external_len (q : JobQueue) : nat := length (external_events q).

(** [inr] gives the job back. *)
Definition try_push_external_event (q : JobQueue) (j : Job) (capacity : nat) : JobQueue + Job :=
  if (capacity <=? external_len q)%nat then inr j else inl (push_external_event q j).

Definition is_empty (q : JobQueue) : bool :=
  match microtasks q, external_events q, host_overflow q with
  | [], [], [] => Timers.is_empty (timers q)
  | _, _, _ => false
  end.

Definition has_outstanding_work (q : JobQueue) : bool :=
  negb (is_empty q) || negb (bool_decide (atomics_waiters q = ∅)).

(** ** Timers *)

(** [false] when the limit is reached. *)
Definition check_timer_capacity (q : JobQueue) : bool :=
  let executing_intervals :=
    length (filter (fun e => Timers.contains_id (timers q) (timer_id e.2) = false)
              (map_to_list (intervals q))) in
  match max_timers q with
  | Some max => negb (max <=? Timers.len (timers q) + executing_intervals)%nat
  | None => true
  end.

Definition MAX_ID : Z := 2 ^ 53 - 1.

Definition occupied (q : JobQueue) (id : Z) : bool :=
  Timers.contains_id (timers q) id || bool_decide (is_Some (intervals q !! id)).

(** The loop that picks an identifier; [None] when the fuel does not reach a
    free one. *)
Fixpoint pick_id (fuel : nat) (q : JobQueue) : option JobQueue :=
  match fuel with
  | O => None
  | S fuel =>
      let q := if MAX_ID <=? next_timer_id q then set_next_timer_id q 1 true
               else set_next_timer_id q (next_timer_id q + 1) (timer_ids_wrapped q) in
      if negb (timer_ids_wrapped q) then Some q
      else if occupied q (next_timer_id q) then pick_id fuel q
      else Some q
  end.

(** One more turn than there are identifiers in use. *)
Definition pick_fuel (q : JobQueue) : nat :=
  S (Timers.len (timers q) + size (intervals q)).

(** The job may carry the identifier it is given: [push_interval] fills the
    shared cell of its job before anything reads it.  [Err] when no identifier
    is free; the sequence counter panics when it is exhausted. *)
Definition push_timer_job (q : JobQueue) (d : spec_float) (j : Z -> Job)
  : outcome unit (Z * JobQueue) :=
  match pick_id (pick_fuel q) q with
  | None => Err tt
  | Some q =>
      let id := next_timer_id q in
      if 2 ^ 128 <=? next_sequence q + 1 then Panic
      else
        let q := set_next_sequence q (next_sequence q + 1) in
        let d := normalize_delay d in
        let deadline := f64_min (f64_add (now_ms (clock q)) d) f64_MAX in
        let key := (to_bits deadline, next_sequence q) in
        Ok (id, observe_depth (set_timers q (Timers.insert (timers q) key id (j id))))
  end.

Definition push_timer (q : JobQueue) (d : spec_float) (callback : Value) (args : list Value)
  : outcome unit (Z * JobQueue) :=
  push_timer_job q d (fun _ => Callback callback args).

Definition push_interval (q : JobQueue) (d : spec_float) (callback : Value) (args : list Value)
  : outcome unit (Z * JobQueue) :=
  (let* r := push_timer_job q d IntervalJob in
   let '(id, q) := r in
   Ok (id, set_intervals q (<[id := {| delay := d; iv_callback := callback; iv_args := args;
                                       timer_id := id |}]> (intervals q))))%rust.

Definition interval_callback (q : JobQueue) (id : Z) : option (Value * list Value) :=
  i ← intervals q !! id; Some (iv_callback i, iv_args i).

Definition reschedule_interval (q : JobQueue) (id : Z) : outcome unit JobQueue :=
  match intervals q !! id with
  | None => Ok q
  | Some i =>
      (let* r := push_timer_job q (delay i) (fun _ => IntervalJob id) in
       let '(new, q) := r in
       match intervals q !! id with
       | Some i =>
           Ok (set_intervals q (<[id := {| delay := delay i; iv_callback := iv_callback i;
                                           iv_args := iv_args i; timer_id := new |}]> (intervals q)))
       | None => Ok q
       end)%rust
  end.

Definition cancel_timer (q : JobQueue) (id : Z) (retain : bool) : JobQueue :=
  let q := match intervals q !! id with
           | Some i => set_timers (set_intervals q (delete id (intervals q)))
                         (Timers.cancel (timers q) (timer_id i) retain)
           | None => q
           end in
  set_timers q (Timers.cancel (timers q) id retain).

Definition next_deadline (q : JobQueue) : option spec_float :=
  k ← Timers.first_key (timers q); Some (from_bits k.1).

Definition has_due_timer (q : JobQueue) : bool :=
  match next_deadline q with
  | Some deadline => is_legacy (clock q) || SFleb deadline (now_ms (clock q))
  | None => false
  end.

Definition take_timer (q : JobQueue) (retain : bool) : option (Job * JobQueue) :=
  if negb (has_due_timer q) then None
  else '(j, t) ← Timers.pop (timers q) retain; Some (j, set_timers q t).

(** [None] when timers are pending. *)
Definition set_clock (q : JobQueue) (c : ClockMode) : option JobQueue :=
  if negb (Timers.is_empty (timers q)) then None else Some (with_clock q c).

Definition is_runnable (q : JobQueue) : bool :=
  has_microtasks q || has_external_events q || has_due_timer q.

(** ** Waiters on shared memory *)

Definition register_atomics_waiter (q : JobQueue) (key : Z * Z) (promise : nat) : Z * JobQueue :=
  let id := Z.max (u64 (next_atomics_waiter_id q + 1)) 1 in
  let w := {| native := None; shared := None; waiter_id := id; waiter_promise := promise |} in
  (id, set_atomics_waiters q
         (<[key := from_option Datatypes.id [] (atomics_waiters q !! key) ++ [w]]> (atomics_waiters q)) id).

Fixpoint waiter_position (id : Z) (l : list AtomicsWaiter) : option nat :=
  match l with
  | [] => None
  | w :: l => if waiter_id w =? id then Some 0%nat else S <$> waiter_position id l
  end.

Definition remove_waiter (q : JobQueue) (key : Z * Z) (id : Z) : option AtomicsWaiter * JobQueue :=
  match atomics_waiters q !! key with
  | None => (None, q)
  | Some l =>
      match waiter_position id l with
      | None => (None, q)
      | Some i =>
          let rest := Timers.vec_remove i l in
          (l !! i,
           set_atomics_waiters q
             (if bool_decide (rest = []) then delete key (atomics_waiters q)
              else <[key := rest]> (atomics_waiters q)) (next_atomics_waiter_id q))
      end
  end.

Definition remove_atomics_waiter (q : JobQueue) (key : Z * Z) (id : Z) : option nat * JobQueue :=
  let '(w, q) := remove_waiter q key id in (waiter_promise <$> w, q).

(** The waiter registered last gets the registration, and the buffer only when
    there is no registration. *)
Definition register_shared_atomics_waiter (q : JobQueue) (key : Z * Z) (promise buffer : nat)
    (registration : option nat) : Z * JobQueue :=
  let '(id, q) := register_atomics_waiter q key promise in
  let mark w := {| native := registration;
                   shared := match registration with None => Some buffer | Some _ => None end;
                   waiter_id := waiter_id w; waiter_promise := waiter_promise w |} in
  (id, set_atomics_waiters q
         (alter (fun l => match last l with
                          | Some w => take (length l - 1) l ++ [mark w]
                          | None => l
                          end) key (atomics_waiters q)) (next_atomics_waiter_id q)).

(** [take_atomics_waiters] over one queue: the selected promises and what
    stays. *)
Fixpoint select_waiters (pending : nat -> bool) (count : nat) (l : list AtomicsWaiter)
  : list nat * list AtomicsWaiter :=
  match l with
  | [] => ([], [])
  | w :: l =>
      if negb (pending (waiter_promise w)) then select_waiters pending count l
      else match native w, count with
           | None, S count =>
               let '(s, r) := select_waiters pending count l in (waiter_promise w :: s, r)
           | _, _ => let '(s, r) := select_waiters pending count l in (s, w :: r)
           end
  end.

Definition take_atomics_waiters (q : JobQueue) (pending : nat -> bool) (key : Z * Z) (count : nat)
  : list nat * JobQueue :=
  match atomics_waiters q !! key with
  | None => ([], q)
  | Some l =>
      let '(selected, retained) := select_waiters pending count l in
      (selected,
       set_atomics_waiters q
         (if bool_decide (retained = []) then delete key (atomics_waiters q)
          else <[key := retained]> (atomics_waiters q)) (next_atomics_waiter_id q))
  end.

Definition notified_waiter (is_notified : nat -> bool) (w : AtomicsWaiter) : bool :=
  match native w with Some n => is_notified n | None => false end.

(** The hash table is visited in the order of its keys. *)
Definition take_notified_atomics_waiters (q : JobQueue) (is_notified : nat -> bool)
  : list nat * JobQueue :=
  let ready l := map waiter_promise (filter (fun w => notified_waiter is_notified w = true) l) in
  let stay l := filter (fun w => notified_waiter is_notified w = false) l in
  (concat (map (fun e => ready e.2) (map_to_list (atomics_waiters q))),
   set_atomics_waiters q
     (omap (fun l => match stay l with [] => None | l => Some l end) (atomics_waiters q))
     (next_atomics_waiter_id q)).

(** ** Settlement *)

(** The cells of the promises. *)
Abbreviation Promises := (gmap nat PromiseInner) (only parsing).

Definition settle (q : JobQueue) (ps : Promises) (promise : nat) (st : PromiseState) (v : Value)
  : JobQueue * Promises :=
  match ps !! promise with
  | None => (q, ps)
  | Some inner =>
      if negb (bool_decide (state inner = Pending)) then (q, ps)
      else
        let inner' := {| state := st; resolution_locked := true; external_pending := false;
                         value := v; reactions := []; handled := handled inner |} in
        (fold_left (fun q r => push_microtask q (ReactionJob st v r)) (reactions inner) q,
         <[promise := inner']> ps)
  end.

Definition settle_atomics_wait_timeout (q : JobQueue) (ps : Promises) (is_notified : nat -> bool)
    (key : Z * Z) (id : Z) : JobQueue * Promises :=
  let '(w, q) := remove_waiter q key id in
  match w with
  | None => (q, ps)
  | Some w =>
      let notified := notified_waiter is_notified w in
      settle q ps (waiter_promise w) Fulfilled
        (String (JsString.from_string (chars (if notified then "ok" else "timed-out"))))
  end.

Definition settle_notified_atomics_waiters (q : JobQueue) (ps : Promises)
    (is_notified : nat -> bool) : JobQueue * Promises :=
  let '(ready, q) := take_notified_atomics_waiters q is_notified in
  fold_left (fun '(q, ps) promise =>
    settle q ps promise Fulfilled (String (JsString.from_string (chars "ok")))) ready (q, ps).

(** ** Roots *)

(** [trace_roots]; the tables are visited in the order of their keys. *)
Definition trace_timers (t : Timers.TimerQueue Job) : list Value :=
  match t with
  | Timers.Small v _ => concat (map (fun e => trace_values (Timers.job e)) v)
  | Timers.TreeQueue entries _ _ => concat (map (fun e => trace_values e.2.2) entries)
  end.

Definition trace_roots (q : JobQueue) : list Value :=
  kept_alive q
  ++ concat (map trace_values (microtasks q ++ external_events q ++ host_overflow q))
  ++ trace_timers (timers q)
  ++ concat (map (fun e => iv_callback e.2 :: iv_args e.2) (map_to_list (intervals q)))
  ++ concat (map (fun e => concat (map (fun w =>
        Promise (waiter_promise w)
        :: match shared w with Some b => [SharedArrayBuffer b] | None => [] end) e.2))
       (map_to_list (atomics_waiters q))).

End Jobs.
