(* ===== verification/Deadlines.v ===== *)
(** Deadlines as floating-point numbers: the bits of nonnegative finite numbers
    are in the order of the numbers, and the deadline computed for any delay is
    one. *)
From stdpp Require Import prelude list gmap sorting strings.
From Stdlib Require Import ZArith Lia SpecFloat.
From S2P Require Import Prelude JsString Opcode Machine Timers TimersTheorems Jobs.
Import Jobs.
Local Open Scope Z_scope.

(** ** Deadlines *)

Lemma digits_log2 m : Zpos (digits2_pos m) = Z.log2 (Zpos m) + 1.
Proof.
  induction m as [m IH|m IH|]; cbn [digits2_pos]; [..|done]; rewrite Pos2Z.inj_succ, IH.
  - rewrite Pos2Z.inj_xI. rewrite Z.log2_succ_double by lia. lia.
  - rewrite Pos2Z.inj_xO. rewrite Z.log2_double by lia. lia.
Qed.

(** The numbers a deadline can be: nonnegative, finite, in canonical form. *)
Definition deadline (x : spec_float) : Prop :=
  match x with
  | S754_zero false => True
  | S754_finite false m e => valid_binary 53 1024 x = true
  | _ => False
  end.

Lemma deadline_range m e :
  deadline (S754_finite false m e) ->
  -1074 <= e <= 971 /\ Zpos m < 2 ^ 53 /\ (-1074 < e -> 2 ^ 52 <= Zpos m).
Proof.
  unfold deadline, valid_binary, bounded, canonical_mantissa, fexp, emin.
  intros [Hc%Z.eqb_eq He%Z.leb_le]%andb_prop. rewrite digits_log2 in Hc.
  destruct (Z.log2_spec (Zpos m)) as [Hlo Hhi]; [lia|].
  assert (Z.log2 (Zpos m) <= 52) as Hlog by lia. split; [lia|]. split.
  - eapply Z.lt_le_trans; [exact Hhi|]. apply Z.pow_le_mono_r; lia.
  - intros Hgt. replace 52 with (Z.log2 (Zpos m)) by lia. done.
Qed.

Lemma bits_order x y :
  deadline x -> deadline y -> SFleb x y = (to_bits x <=? to_bits y).
Proof.
  intros Hx Hy.
  destruct x as [[]|[]| |[] m e], y as [[]|[]| |[] m' e']; try done.
  - apply deadline_range in Hy. cbn. symmetry. apply Z.leb_le. lia.
  - apply deadline_range in Hx. cbn. symmetry. apply Z.leb_gt. lia.
  - apply deadline_range in Hx, Hy. unfold SFleb, to_bits. cbn [SFcompare].
    destruct (Z.compare_spec e e') as [->|Hlt|Hgt].
    + rewrite Pos.compare_cont_spec. change (Pos.compare_cont Eq m m') with (Pos.compare m m').
      destruct (Pos.compare_spec m m') as [->|H|H]; simpl; symmetry; rewrite ?Z.leb_le, ?Z.leb_gt; lia.
    + symmetry. apply Z.leb_le. nia.
    + symmetry. apply Z.leb_gt. nia.
Qed.

(** Splitting a number into its exponent field and its fraction. *)
Lemma field_split f r : 0 <= f < 2047 -> 0 <= r < 2 ^ 52 ->
  let b := f * 2 ^ 52 + r in (b / 2 ^ 52) mod 2048 = f /\ b mod 2 ^ 52 = r /\ (2 ^ 63 <=? b) = false.
Proof.
  intros Hf Hr b. assert (b / 2 ^ 52 = f /\ b mod 2 ^ 52 = r) as [-> ->].
  { unfold b. split; [symmetry; by apply Z.div_unique with r; [left|lia]|].
    symmetry. by apply Z.mod_unique with f; [left|lia]. }
  rewrite Z.mod_small by lia. split; [done|]. split; [done|]. apply Z.leb_gt. unfold b. nia.
Qed.

Lemma bits_inverse x : deadline x -> from_bits (to_bits x) = x.
Proof.
  destruct x as [[]|[]| |[] m e]; try done. intros Hd.
  apply deadline_range in Hd as (He & Hm & Hn). unfold from_bits, to_bits.
  destruct (Z.lt_ge_cases (Zpos m) (2 ^ 52)) as [Hs|Hs].
  - assert (e = -1074) as -> by lia. destruct (field_split 0 (Zpos m)) as (E1 & E2 & E3); [lia..|].
    cbn [Z.add Z.mul] in *. change (0 + (-1074 + 1074) * 2 ^ 52 + Zpos m) with (0 * 2 ^ 52 + Zpos m).
    rewrite E1, E2, E3. done.
  - destruct (field_split (e + 1075) (Zpos m - 2 ^ 52)) as (E1 & E2 & E3); [lia..|].
    replace (0 + (e + 1074) * 2 ^ 52 + Zpos m) with ((e + 1075) * 2 ^ 52 + (Zpos m - 2 ^ 52)) by lia.
    rewrite E1, E2, E3. rewrite (proj2 (Z.eqb_neq (e + 1075) 2047)) by lia.
    rewrite (proj2 (Z.eqb_neq (e + 1075) 0)) by lia.
    replace (2 ^ 52 + (Zpos m - 2 ^ 52)) with (Zpos m) by lia. f_equal. lia.
Qed.

(** ** Rounding keeps numbers canonical *)

Lemma Zdigits_log2 m : 0 < m -> Zdigits2 m = Z.log2 m + 1.
Proof. destruct m as [|m|m]; [lia| |lia]. intros _. apply digits_log2. Qed.

Lemma shr_1_m r : 0 <= shr_m r -> shr_m (shr_1 r) = shr_m r / 2.
Proof.
  destruct r as [m r s]. simpl. intros Hm. rewrite <- Z.div2_div.
  destruct m as [|[]|]; simpl; done || lia.
Qed.

Lemma shr_m_iter p : forall r, 0 <= shr_m r -> shr_m (iter_pos shr_1 p r) = shr_m r / 2 ^ Zpos p.
Proof.
  assert (forall q x, 0 <= x -> 0 <= x / 2 ^ Zpos q) as Hpos by (intros; apply Z.div_pos; lia).
  induction p as [p IH|p IH|]; intros r Hr; cbn [iter_pos]; [..|by apply shr_1_m].
  - assert (0 <= shr_m (shr_1 r)) as H1 by (rewrite shr_1_m by done; apply Z.div_pos; lia).
    rewrite !IH, shr_1_m by (rewrite ?IH; auto). rewrite !Z.div_div by lia. f_equal.
    replace (Zpos p~1) with (1 + Zpos p + Zpos p) by lia. rewrite !Z.pow_add_r by lia. lia.
  - rewrite !IH by (rewrite ?IH; auto). rewrite !Z.div_div by lia. f_equal.
    replace (Zpos p~0) with (Zpos p + Zpos p) by lia. by rewrite Z.pow_add_r by lia.
Qed.

(** The exponent a number of this magnitude has. *)
Abbreviation target m e := (Z.max (Z.log2 m + 1 + e - 53) (-1074)).

Lemma shr_fexp_spec m e l :
  0 < m -> e <= target m e ->
  exists r, shr_fexp 53 1024 m e l = (r, target m e) /\ shr_m r = m / 2 ^ (target m e - e).
Proof.
  intros Hm He. unfold shr_fexp, fexp, emin. rewrite Zdigits_log2 by done.
  change (3 - 1024 - 53) with (-1074). assert (shr_m (shr_record_of_loc m l) = m) as Hr
    by (by destruct l as [|[]]).
  destruct (target m e - e) as [|p|p] eqn:E; cbn [shr].
  - exists (shr_record_of_loc m l). split; [f_equal; lia|]. by rewrite Hr, Z.div_1_r.
  - eexists. split; [f_equal; lia|]. rewrite shr_m_iter by lia. by rewrite Hr.
  - lia.
Qed.

Lemma shr_fexp_zero e :
  -1074 <= e -> shr_fexp 53 1024 0 e loc_Exact = ({| shr_m := 0; shr_r := false; shr_s := false |}, e).
Proof.
  intros He. unfold shr_fexp, fexp, emin. simpl Zdigits2. change (3 - 1024 - 53) with (-1074).
  destruct (Z.max (0 + e - 53) (-1074) - e) eqn:E; [done|lia|done].
Qed.

Lemma round_nearest_cases m l : round_nearest_even m l = m \/ round_nearest_even m l = m + 1.
Proof. destruct l as [|[]]; simpl; auto. destruct (Z.even m); auto. Qed.

(** After one shift the number has 53 digits or the least exponent. *)
Lemma shifted_target m e m' :
  0 < m -> e <= target m e -> m / 2 ^ (target m e - e) <= m' -> 0 < m' ->
  target m e <= target m' (target m e).
Proof.
  intros Hm He Hle Hm'. set (t := target m e) in *.
  destruct (Z.eq_dec t (-1074)) as [->|Hne]; [lia|].
  assert (Z.log2 m + 1 + e - 53 = t) as Ht by lia.
  assert (Z.log2 (m / 2 ^ (t - e)) = 52) as Hlog.
  { rewrite <- Z.shiftr_div_pow2 by lia. rewrite Z.log2_shiftr by done. lia. }
  pose proof (Z.log2_le_mono _ _ Hle). lia.
Qed.

(** After the second, where rounding carried into a new digit, it is canonical. *)
Lemma canonical_target m e :
  0 < m -> e <= target m e ->
  let m' := m / 2 ^ (target m e - e) in 0 < m' -> target m' (target m e) = target m e.
Proof.
  intros Hm He m' Hm'. set (t := target m e) in *.
  assert (Z.log2 m' = Z.log2 m - (t - e) \/ t = -1074 /\ t - e > Z.log2 m) as [Hlog|[]].
  { unfold m'. destruct (Z.le_gt_cases (t - e) (Z.log2 m)).
    - left. rewrite <- Z.shiftr_div_pow2 by lia. rewrite Z.log2_shiftr by done. lia.
    - right. split; [lia|lia]. }
  - lia.
  - exfalso. unfold m' in Hm'. rewrite Z.div_small in Hm'; [lia|]. split; [lia|].
    destruct (Z.log2_spec m Hm) as [_ Hlt]. eapply Z.lt_le_trans; [done|]. apply Z.pow_le_mono_r; lia.
Qed.

Lemma round_aux_deadline m e :
  0 < m -> e <= target m e ->
  deadline (binary_round_aux 53 1024 false m e loc_Exact) \/
  binary_round_aux 53 1024 false m e loc_Exact = S754_infinity false.
Proof.
  intros Hm He. unfold binary_round_aux.
  destruct (shr_fexp_spec m e loc_Exact Hm He) as (r & -> & Hr).
  set (m1 := round_nearest_even (shr_m r) (loc_of_shr_record r)).
  assert (0 <= shr_m r) as Hr0 by (rewrite Hr; apply Z.div_pos; lia).
  assert (shr_m r <= m1) as Hm1 by (unfold m1; destruct (round_nearest_cases (shr_m r) (loc_of_shr_record r)); lia).
  destruct (Z.eq_dec m1 0) as [E|Hne].
  { left. rewrite E, shr_fexp_zero by lia. done. }
  pose proof (shifted_target m e m1 Hm He) as Hst. rewrite <- Hr in Hst.
  specialize (Hst Hm1 ltac:(lia)).
  destruct (shr_fexp_spec m1 (target m e) loc_Exact ltac:(lia) Hst) as (r2 & -> & Hr2).
  destruct (shr_m r2) as [|m2|m2] eqn:E2; [left; done| |].
  2:{ assert (0 <= Zneg m2) by (rewrite Hr2; apply Z.div_pos; lia). lia. }
  case Z.leb_spec; intros Hle; [left|by right]. unfold deadline, valid_binary, bounded, canonical_mantissa.
  apply andb_true_intro. split; [|apply Z.leb_le; lia]. apply Z.eqb_eq. unfold fexp, emin.
  rewrite digits_log2. pose proof (canonical_target m1 (target m e) ltac:(lia) Hst) as Hc.
  cbv zeta in Hc. rewrite <- Hr2 in Hc. specialize (Hc ltac:(lia)).
  change (3 - 1024 - 53) with (-1074). exact Hc.
Qed.

Lemma iter_xO p m : Zpos (Pos.iter xO m p) = Zpos m * 2 ^ Zpos p.
Proof.
  revert p. apply (Pos.peano_ind (fun p => Zpos (Pos.iter xO m p) = Zpos m * 2 ^ Zpos p)); [simpl; lia|].
  intros p IH. rewrite Pos.iter_succ, Pos2Z.inj_xO, IH, Pos2Z.inj_succ, Z.pow_succ_r by lia. lia.
Qed.

(** Aligning leaves no digit above the place of the exponent. *)
Lemma aligned_target m e :
  let '(m', e') := shl_align m e (target (Zpos m) e) in e' <= target (Zpos m') e'.
Proof.
  unfold shl_align. destruct (target (Zpos m) e - e) as [|p|p] eqn:E; [lia..|].
  rewrite iter_xO. rewrite Z.log2_mul_pow2 by lia. lia.
Qed.

Lemma normalize_deadline m e :
  0 < m ->
  deadline (binary_normalize 53 1024 m e false) \/
  binary_normalize 53 1024 m e false = S754_infinity false.
Proof.
  destruct m as [|m|m]; [lia| |lia]. intros _. cbn [binary_normalize]. unfold binary_round, fexp, emin.
  rewrite digits_log2. change (3 - 1024 - 53) with (-1074). pose proof (aligned_target m e) as Ha.
  destruct (shl_align m e (target (Zpos m) e)) as [m' e']. by apply round_aux_deadline.
Qed.

Lemma add_deadline x y :
  deadline x -> deadline y -> deadline (f64_add x y) \/ f64_add x y = S754_infinity false.
Proof.
  intros Hx Hy. unfold f64_add.
  destruct x as [[]|[]| |[] m e], y as [[]|[]| |[] m' e']; try done; try (by left).
  cbn [SFadd cond_Zopp]. by apply normalize_deadline.
Qed.

Lemma max_deadline : deadline f64_MAX.
Proof. reflexivity. Qed.

Lemma min_deadline x : deadline x \/ x = S754_infinity false -> deadline (f64_min x f64_MAX).
Proof.
  intros [Hx| ->]; [|exact max_deadline]. unfold f64_min.
  destruct x as [| | |]; simpl in Hx; [|done..|].
  - destruct s; [done|]. by vm_compute.
  - destruct (SFleb _ _); [done|exact max_deadline].
Qed.

Lemma normalize_delay_deadline d : valid_binary 53 1024 d = true -> deadline (normalize_delay d).
Proof.
  intros Hv. unfold normalize_delay.
  destruct d as [[]|[]| |[] m e]; try done.
Qed.

(** The deadline of a timer: now plus its delay, whatever the delay is. *)
Definition due_time (now d : spec_float) : spec_float :=
  f64_min (f64_add now (normalize_delay d)) f64_MAX.

Lemma due_time_deadline now d :
  deadline now -> valid_binary 53 1024 d = true -> deadline (due_time now d).
Proof. intros. by apply min_deadline, add_deadline, normalize_delay_deadline. Qed.
