(* ===== verification/JobsTheorems.v ===== *)
(** The theorems of the job queue: timer identifiers never collide, timers
    fire in order, cancellation is exact, promises settle once. *)
From stdpp Require Import prelude list gmap sorting strings relations.
From Stdlib Require Import ZArith Lia SpecFloat.
From S2P Require Import Prelude JsString Opcode Machine Timers TimersTheorems Jobs Deadlines.
Import Opcode Machine Jobs.
Local Open Scope Z_scope.

(** The timers of a queue in the order they fire. *)
Definition timer_list (q : JobQueue) : list (Timers.TimerEntry Job) := abs (timers q).

(** ** The invariant *)

Record jobs_ok (q : JobQueue) : Prop := {
  jk_queue : queue_ok (timers q);
  jk_sequence : forall e, e ∈ timer_list q -> (Timers.key e).2 <= next_sequence q;
  jk_deadline : forall e, e ∈ timer_list q ->
    exists x, deadline x /\ (Timers.key e).1 = to_bits x;
  jk_next : 0 <= next_timer_id q <= MAX_ID;
  jk_minted : timer_ids_wrapped q = false ->
    (forall e, e ∈ timer_list q -> Timers.entry_id e <= next_timer_id q) /\
    (forall i, is_Some (intervals q !! i) -> i <= next_timer_id q);
  jk_interval : timer_ids_wrapped q = false -> forall i iv, intervals q !! i = Some iv ->
    timer_id iv <= next_timer_id q /\
    (forall e, e ∈ timer_list q -> Timers.entry_id e = timer_id iv -> Timers.job e = IntervalJob i);
  jk_clock : deadline (now_ms (clock q));
}.

(** ** Picking an identifier *)

Definition used (q : JobQueue) (id : Z) : Prop :=
  id ∈ ids (timer_list q) \/ is_Some (intervals q !! id).

Lemma occupied_used q id : queue_ok (timers q) -> occupied q id = true <-> used q id.
Proof.
  intros Hq. unfold occupied, used. destruct (observe_ok (timers q) id Hq) as (_ & -> & _).
  by rewrite orb_true_iff, !bool_decide_eq_true.
Qed.

(** The identifier after [n], and the one [k] further on. *)
Lemma next_mod n : 0 <= n <= MAX_ID -> (if MAX_ID <=? n then 1 else n + 1) = n mod MAX_ID + 1.
Proof.
  intros Hn. case Z.leb_spec; intros.
  - assert (n = MAX_ID) as -> by lia. rewrite Z.mod_same; [done|]. unfold MAX_ID. lia.
  - rewrite Z.mod_small; lia.
Qed.

Definition nth_id (n : Z) (k : nat) : Z := (n + Z.of_nat k) mod MAX_ID + 1.

Lemma max_id_pos : 0 < MAX_ID.
Proof. unfold MAX_ID. lia. Qed.

Lemma nth_id_next n k : 0 <= n -> nth_id (n mod MAX_ID + 1) k = nth_id n (S k).
Proof.
  intros Hn. unfold nth_id. pose proof max_id_pos.
  replace (n mod MAX_ID + 1 + Z.of_nat k) with (n mod MAX_ID + (1 + Z.of_nat k)) by lia.
  rewrite Zplus_mod_idemp_l. do 2 f_equal. lia.
Qed.

Lemma nth_id_inj n k k' :
  0 <= n -> (k < k')%nat -> Z.of_nat k' - Z.of_nat k < MAX_ID -> nth_id n k <> nth_id n k'.
Proof.
  intros Hn Hk Hlt E. unfold nth_id in E. pose proof max_id_pos.
  assert ((n + Z.of_nat k' - (n + Z.of_nat k)) mod MAX_ID = 0) as Hz.
  { rewrite Zminus_mod. replace ((n + Z.of_nat k') mod MAX_ID) with ((n + Z.of_nat k) mod MAX_ID) by lia.
    by rewrite Z.sub_diag, Z.mod_0_l by lia. }
  rewrite Z.mod_small in Hz by lia. lia.
Qed.

Definition bump (q : JobQueue) : JobQueue :=
  if MAX_ID <=? next_timer_id q then set_next_timer_id q 1 true
  else set_next_timer_id q (next_timer_id q + 1) (timer_ids_wrapped q).

Lemma pick_id_S fuel q :
  pick_id (S fuel) q =
  if negb (timer_ids_wrapped (bump q)) then Some (bump q)
  else if occupied (bump q) (next_timer_id (bump q)) then pick_id fuel (bump q) else Some (bump q).
Proof. done. Qed.

Lemma bump_id q : 0 <= next_timer_id q <= MAX_ID -> next_timer_id (bump q) = nth_id (next_timer_id q) 0.
Proof.
  intros Hn. unfold nth_id. rewrite Z.add_0_r, <- next_mod by done. unfold bump.
  by destruct (MAX_ID <=? next_timer_id q).
Qed.

Lemma bump_wrapped q :
  timer_ids_wrapped (bump q) = timer_ids_wrapped q || (MAX_ID <=? next_timer_id q).
Proof.
  unfold bump. destruct (MAX_ID <=? next_timer_id q); simpl; [by rewrite orb_true_r|by rewrite orb_false_r].
Qed.

(** What picking leaves alone. *)
Definition only_ids (q q' : JobQueue) : Prop :=
  q' = set_next_timer_id q (next_timer_id q') (timer_ids_wrapped q').

Lemma bump_only_ids q : only_ids q (bump q).
Proof. unfold only_ids, bump. by destruct (MAX_ID <=? next_timer_id q). Qed.

Lemma only_ids_trans q1 q2 q3 : only_ids q1 q2 -> only_ids q2 q3 -> only_ids q1 q3.
Proof. unfold only_ids. intros -> ->. done. Qed.

Lemma nth_id_range n k : 1 <= nth_id n k <= MAX_ID.
Proof. unfold nth_id. pose proof max_id_pos. pose proof (Z.mod_pos_bound (n + Z.of_nat k) MAX_ID). lia. Qed.

(** The search stops at a free identifier, or has seen only used ones. *)
Lemma pick_id_spec fuel : forall q,
  queue_ok (timers q) -> 0 <= next_timer_id q <= MAX_ID ->
  match pick_id fuel q with
  | Some q' => only_ids q q' /\ 1 <= next_timer_id q' <= MAX_ID /\
      (timer_ids_wrapped q' = true -> ~ used q (next_timer_id q')) /\
      (timer_ids_wrapped q' = false -> timer_ids_wrapped q = false /\
         next_timer_id q' = next_timer_id q + 1)
  | None => forall k, (k < fuel)%nat -> used q (nth_id (next_timer_id q) k)
  end.
Proof.
  induction fuel as [|fuel IH]; intros q Hq Hn; [intros k; lia|].
  rewrite pick_id_S. pose proof (bump_only_ids q) as Hb. pose proof (bump_id q Hn) as Hid.
  assert (timers (bump q) = timers q /\ intervals (bump q) = intervals q) as [Ht Hi]
    by (rewrite Hb; done).
  assert (forall id, used (bump q) id <-> used q id) as Hused
    by (intros; unfold used, timer_list; by rewrite Ht, Hi).
  pose proof (nth_id_range (next_timer_id q) 0) as Hr.
  destruct (timer_ids_wrapped (bump q)) eqn:Ew; simpl.
  2:{ pose proof Ew as Hf. rewrite bump_wrapped in Hf. apply orb_false_iff in Hf as [Hf Hlt].
      split; [done|]. split; [lia|]. split; [congruence|]. intros _. split; [done|].
      unfold bump. by rewrite Hlt. }
  destruct (occupied (bump q) (next_timer_id (bump q))) eqn:Eo.
  - assert (used q (nth_id (next_timer_id q) 0)) as Hu.
    { rewrite <- Hid. apply Hused, occupied_used; [by rewrite Ht|done]. }
    specialize (IH (bump q)). rewrite Ht in IH. specialize (IH Hq ltac:(lia)).
    destruct (pick_id fuel (bump q)) as [q'|].
    + destruct IH as (H1 & H2 & H3 & H4). split; [by eapply only_ids_trans|]. split; [done|].
      split; [intros; rewrite <- Hused; auto|]. intros H. destruct (H4 H). congruence.
    + intros [|k] Hk; [done|]. rewrite <- Hused. rewrite <- nth_id_next by lia.
      replace (next_timer_id q mod MAX_ID + 1) with (next_timer_id (bump q)).
      * apply IH. lia.
      * rewrite Hid. unfold nth_id. by rewrite Z.add_0_r.
  - split; [done|]. split; [lia|]. split; [|congruence]. intros _ Hu.
    apply Hused, (occupied_used (bump q)) in Hu; [congruence|by rewrite Ht].
Qed.

Definition used_ids (q : JobQueue) : gset Z :=
  list_to_set (ids (timer_list q)) ∪ dom (intervals q).

Lemma used_ids_size q : queue_ok (timers q) -> (size (used_ids q) < pick_fuel q)%nat.
Proof.
  intros Hq. unfold used_ids, pick_fuel. destruct (observe_ok (timers q) 0 Hq) as (-> & _).
  rewrite size_union_alt, size_list_to_set by apply Hq. unfold ids, timer_list. rewrite length_map.
  assert (size (dom (intervals q) ∖ list_to_set (map Timers.entry_id (abs (timers q))))
          <= size (dom (intervals q)))%nat as Hle by (apply subseteq_size; set_solver).
  rewrite size_dom in Hle. lia.
Qed.

Lemma nth_ids_NoDup n fuel :
  0 <= n -> Z.of_nat fuel <= MAX_ID -> NoDup (map (nth_id n) (seq 0 fuel)).
Proof.
  intros Hn Hf. apply NoDup_alt. intros i j x Hi Hj. rewrite !(list_lookup_fmap (nth_id n)) in Hi, Hj.
  apply fmap_Some in Hi as (a & Ha & ->). apply fmap_Some in Hj as (b & Hb & E).
  apply lookup_seq in Ha as [-> Hi], Hb as [-> Hj]. simpl in E.
  destruct (Nat.lt_trichotomy i j) as [Hlt|[->|Hgt]]; [exfalso|done|exfalso].
  - eapply (nth_id_inj n i j); [done|done|lia|done].
  - eapply (nth_id_inj n j i); [done|done|lia|done].
Qed.

(** With fewer identifiers in use than there are, the search ends. *)
Lemma pick_id_total q :
  queue_ok (timers q) -> 0 <= next_timer_id q <= MAX_ID -> Z.of_nat (pick_fuel q) <= MAX_ID ->
  is_Some (pick_id (pick_fuel q) q).
Proof.
  intros Hq Hn Hf. pose proof (pick_id_spec (pick_fuel q) q Hq Hn) as Hp.
  destruct (pick_id (pick_fuel q) q); [by eexists|]. exfalso.
  set (l := map (nth_id (next_timer_id q)) (seq 0 (pick_fuel q))) in *.
  assert (NoDup l) as Hd by (apply nth_ids_NoDup; [lia|done]).
  assert ((list_to_set l : gset Z) ⊆ used_ids q) as Hsub.
  { intros x. unfold used_ids. rewrite elem_of_list_to_set, elem_of_union, elem_of_list_to_set, elem_of_dom.
    intros (k & -> & Hk)%list_elem_of_fmap. apply Hp. apply elem_of_seq in Hk. lia. }
  apply subseteq_size in Hsub. rewrite size_list_to_set in Hsub by done.
  unfold l in Hsub. rewrite length_map, length_seq in Hsub. pose proof (used_ids_size q Hq). lia.
Qed.

(** ** Timers *)

(** An operation that keeps the timers, their counters and the clock. *)
Definition same_timers (q q' : JobQueue) : Prop :=
  timers q' = timers q /\ intervals q' = intervals q /\ next_timer_id q' = next_timer_id q /\
  timer_ids_wrapped q' = timer_ids_wrapped q /\ next_sequence q' = next_sequence q /\
  clock q' = clock q.

Lemma same_timers_ok q q' : same_timers q q' -> jobs_ok q -> jobs_ok q'.
Proof.
  intros (E1 & E2 & E3 & E4 & E5 & E6) [H1 H2 H3 H4 H5 HI H6].
  split; unfold timer_list in *; rewrite ?E1, ?E2, ?E3, ?E4, ?E5, ?E6; done.
Qed.

(** There is room for one more timer. *)
Definition timer_room (q : JobQueue) : Prop :=
  Z.of_nat (pick_fuel q) <= MAX_ID /\ next_sequence q + 1 < 2 ^ 128.

Definition pushed (q : JobQueue) (k : Z * Z) (id : Z) (j : Job) : JobQueue :=
  observe_depth (set_timers (set_next_sequence q k.2) (Timers.insert (timers q) k id j)).

Lemma push_timer_job_pushed q d j :
  push_timer_job q d j =
  match pick_id (pick_fuel q) q with
  | None => Err tt
  | Some q =>
      if 2 ^ 128 <=? next_sequence q + 1 then Panic
      else Ok (next_timer_id q,
               pushed q (to_bits (due_time (now_ms (clock q)) d), next_sequence q + 1)
                 (next_timer_id q) (j (next_timer_id q)))
  end.
Proof. done. Qed.

Lemma pushed_ok q k id j :
  jobs_ok q -> next_sequence q < k.2 -> (exists x, deadline x /\ k.1 = to_bits x) ->
  id ∉ ids (timer_list q) -> (timer_ids_wrapped q = false -> id <= next_timer_id q) ->
  (timer_ids_wrapped q = false -> forall i iv, intervals q !! i = Some iv -> timer_id iv <> id) ->
  jobs_ok (pushed q k id j) /\
  timer_list (pushed q k id j) =
    place {| Timers.key := k; Timers.entry_id := id; Timers.job := j |} (timer_list q).
Proof.
  intros [H1 H2 H3 H4 H5 HI H6] Hk Hx Hid Hnew Hiv.
  destruct (insert_ok (timers q) k id j H1) as [Hok Habs]; [|done|].
  { intros (x & Ex & Hin)%list_elem_of_fmap. specialize (H2 x Hin). rewrite <- Ex in H2. lia. }
  split; [|exact Habs].
  assert (forall e, e ∈ timer_list (pushed q k id j) ->
    e = {| Timers.key := k; Timers.entry_id := id; Timers.job := j |} \/ e ∈ timer_list q) as Hcase.
  { intros e. unfold timer_list, pushed. simpl. rewrite Habs, place_Permutation, elem_of_cons. done. }
  split; simpl.
  - exact Hok.
  - intros e [->|He]%Hcase; simpl; [lia|]. specialize (H2 e He). lia.
  - intros e [->|He]%Hcase; [done|auto].
  - done.
  - intros Hw. destruct (H5 Hw) as [Ha Hb]. split; [|done].
    intros e [->|He]%Hcase; simpl; [auto|]. by apply Ha.
  - intros Hw i iv Hi. destruct (HI Hw i iv Hi) as [Hle Hj]. split; [done|].
    intros e [->|He]%Hcase; simpl; [|by apply Hj]. intros E. by destruct (Hiv Hw i iv Hi).
  - done.
Qed.

Lemma push_timer_job_ok q d j :
  jobs_ok q -> timer_room q -> valid_binary 53 1024 d = true ->
  exists id q', push_timer_job q d j = Ok (id, q') /\ ~ used q id /\ 1 <= id <= MAX_ID /\
    jobs_ok q' /\ intervals q' = intervals q /\
    (timer_ids_wrapped q' = false -> id <= next_timer_id q') /\
    timer_list q' = place {| Timers.key := (to_bits (due_time (now_ms (clock q)) d), next_sequence q + 1);
                             Timers.entry_id := id; Timers.job := j id |} (timer_list q).
Proof.
  intros Hok [Hroom Hseq] Hd. pose proof Hok as [H1 H2 H3 H4 H5 HI H6].
  rewrite push_timer_job_pushed. pose proof (pick_id_spec (pick_fuel q) q H1 H4) as Hp.
  destruct (pick_id_total q H1 H4 Hroom) as [q1 E]. rewrite E in *. clear E.
  destruct Hp as (Honly & Hrange & Hfree & Hnew).
  assert (timers q1 = timers q /\ intervals q1 = intervals q /\ next_sequence q1 = next_sequence q /\
          clock q1 = clock q) as (E1 & E2 & E3 & E4) by (rewrite Honly; done).
  assert (~ used q (next_timer_id q1)) as Hun.
  { destruct (timer_ids_wrapped q1) eqn:Ew; [by apply Hfree|]. destruct (Hnew eq_refl) as [Ew0 En].
    destruct (H5 Ew0) as [Ha Hb]. intros [(e & Ee & He)%list_elem_of_fmap|Hi].
    - specialize (Ha e He). lia.
    - specialize (Hb _ Hi). lia. }
  assert (jobs_ok q1) as Hok1.
  { split; unfold timer_list in *; rewrite ?E1, ?E2, ?E3, ?E4; try done; [lia|..].
    - intros Hw. destruct (Hnew Hw) as [Ew En]. destruct (H5 Ew) as [Ha Hb].
      split; intros x Hx; [specialize (Ha x Hx)|specialize (Hb x Hx)]; lia.
    - intros Hw i iv Hi. destruct (Hnew Hw) as [Ew En]. destruct (HI Ew i iv Hi). split; [lia|done]. }
  rewrite (proj2 (Z.leb_gt _ _)) by lia.
  destruct (pushed_ok q1 (to_bits (due_time (now_ms (clock q1)) d), next_sequence q1 + 1)
              (next_timer_id q1) (j (next_timer_id q1)) Hok1) as [Hok' Hl]; [simpl; lia|..].
  { eexists. split; [|done]. apply due_time_deadline; [by rewrite E4|done]. }
  { intros Hin. apply Hun. left. unfold timer_list in *. by rewrite <- E1. }
  { lia. }
  { intros Hw i iv Hi. destruct (Hnew Hw) as [Ew En]. rewrite E2 in Hi.
    destruct (HI Ew i iv Hi). lia. }
  eexists _, _. split; [done|]. split; [done|]. split; [done|]. split; [done|].
  split; [exact E2|]. split; [simpl; lia|]. rewrite Hl, E3, E4. unfold timer_list. by rewrite E1.
Qed.

Lemma set_intervals_ok q m :
  jobs_ok q ->
  (timer_ids_wrapped q = false -> forall i iv, m !! i = Some iv ->
     i <= next_timer_id q /\ timer_id iv <= next_timer_id q /\
     forall e, e ∈ timer_list q -> Timers.entry_id e = timer_id iv -> Timers.job e = IntervalJob i) ->
  jobs_ok (set_intervals q m).
Proof.
  intros [H1 H2 H3 H4 H5 HI H6] Hm. split; try done; intros Hw.
  - split; [by apply H5|]. intros i [iv Hi]. by destruct (Hm Hw i iv Hi).
  - intros i iv Hi. by destruct (Hm Hw i iv Hi).
Qed.

Lemma old_interval q i iv :
  jobs_ok q -> timer_ids_wrapped q = false -> intervals q !! i = Some iv ->
  i <= next_timer_id q /\ timer_id iv <= next_timer_id q /\
  forall e, e ∈ timer_list q -> Timers.entry_id e = timer_id iv -> Timers.job e = IntervalJob i.
Proof.
  intros Hok Hw Hi. destruct (jk_minted q Hok Hw) as [_ Hb].
  destruct (jk_interval q Hok Hw i iv Hi). eauto.
Qed.

Lemma set_timers_ok q t :
  jobs_ok q -> queue_ok t -> (forall e, e ∈ abs t -> e ∈ timer_list q) -> jobs_ok (set_timers q t).
Proof.
  intros [H1 H2 H3 H4 H5 HI H6] Ht Hsub. split; unfold timer_list; simpl; auto; intros Hw.
  - destruct (H5 Hw) as [Ha Hb]. auto.
  - intros i iv Hi. destruct (HI Hw i iv Hi). auto.
Qed.

Lemma cancel_timers_ok q id retain :
  jobs_ok q -> jobs_ok (set_timers q (Timers.cancel (timers q) id retain)) /\
  timer_list (set_timers q (Timers.cancel (timers q) id retain)) = without id (timer_list q).
Proof.
  intros Hok. destruct (cancel_ok (timers q) id retain (jk_queue q Hok)) as [Hq Ha].
  split; [|exact Ha]. apply set_timers_ok; [done|done|]. rewrite Ha.
  intros e [_ He]%list_elem_of_filter. done.
Qed.

Lemma cancel_timer_ok q id retain :
  jobs_ok q ->
  jobs_ok (cancel_timer q id retain) /\
  timer_list (cancel_timer q id retain) =
    without id (match intervals q !! id with
                | Some i => without (timer_id i) (timer_list q)
                | None => timer_list q
                end) /\
  intervals (cancel_timer q id retain) = delete id (intervals q).
Proof.
  intros Hok. unfold cancel_timer. destruct (intervals q !! id) as [i|] eqn:E.
  - assert (jobs_ok (set_intervals q (delete id (intervals q)))) as Hok1.
    { apply set_intervals_ok; [done|]. intros Hw x y [_ Hy]%lookup_delete_Some.
      by apply old_interval. }
    destruct (cancel_timers_ok _ (timer_id i) retain Hok1) as [Hok2 Hl2].
    destruct (cancel_timers_ok _ id retain Hok2) as [Hok3 Hl3].
    split; [exact Hok3|]. split; [|done]. etrans; [exact Hl3|]. f_equal. exact Hl2.
  - destruct (cancel_timers_ok q id retain Hok) as [Hok1 Hl1]. split; [done|]. split; [done|].
    simpl. by rewrite delete_id.
Qed.

Lemma take_timer_ok q retain :
  jobs_ok q ->
  match timer_list q with
  | e :: l =>
      if has_due_timer q then
        exists q', take_timer q retain = Some (Timers.job e, q') /\ jobs_ok q' /\
          timer_list q' = l /\ intervals q' = intervals q
      else take_timer q retain = None
  | [] => take_timer q retain = None
  end.
Proof.
  intros Hok. unfold take_timer. pose proof (jk_queue q Hok) as Hq.
  pose proof (pop_ok (timers q) retain Hq) as Hp. unfold timer_list.
  destruct (abs (timers q)) as [|e l] eqn:E.
  { rewrite Hp. by destruct (has_due_timer q). }
  destruct (has_due_timer q); simpl; [|done]. destruct Hp as (t & -> & Ht & Hl). simpl.
  eexists. split; [done|]. split; [|done]. apply set_timers_ok; [done|done|].
  intros x Hx. unfold timer_list. rewrite E, <- Hl. by constructor.
Qed.

Lemma push_interval_ok q d callback args :
  jobs_ok q -> timer_room q -> valid_binary 53 1024 d = true ->
  exists id q', push_interval q d callback args = Ok (id, q') /\ ~ used q id /\ jobs_ok q'.
Proof.
  intros Hok Hroom Hd.
  destruct (push_timer_job_ok q d IntervalJob Hok Hroom Hd)
    as (id & q1 & E & Hun & Hr & Hok1 & Hi & Hnew & Hl).
  unfold push_interval. rewrite E. simpl. eexists _, _. split; [done|]. split; [done|].
  apply set_intervals_ok; [done|]. intros Hw i iv. rewrite Hi.
  destruct (decide (i = id)) as [->|Hne].
  - rewrite lookup_insert_eq. intros [= <-]. simpl. split; [auto|]. split; [auto|].
    intros e. rewrite Hl, place_Permutation, elem_of_cons. intros [->|He]; [done|]. intros <-.
    destruct Hun. left. by apply list_elem_of_fmap_2.
  - rewrite lookup_insert_ne by done. intros Hiv. apply old_interval; [done..|by rewrite Hi].
Qed.

Lemma reschedule_interval_ok q id :
  jobs_ok q -> timer_room q ->
  (forall iv, intervals q !! id = Some iv -> valid_binary 53 1024 (delay iv) = true) ->
  exists q', reschedule_interval q id = Ok q' /\ jobs_ok q'.
Proof.
  intros Hok Hroom Hd. unfold reschedule_interval.
  destruct (intervals q !! id) as [iv|] eqn:Eiv; [|eauto].
  destruct (push_timer_job_ok q (delay iv) (fun _ => IntervalJob id) Hok Hroom (Hd iv eq_refl))
    as (new & q1 & E & Hun & Hr & Hok1 & Hi & Hnew & Hl).
  rewrite E. simpl. rewrite Hi, Eiv. eexists. split; [done|].
  apply set_intervals_ok; [done|]. intros Hw i iv'.
  destruct (decide (i = id)) as [->|Hne].
  - rewrite lookup_insert_eq. intros [= <-]. simpl. rewrite <- Hi in Eiv.
    destruct (old_interval q1 id iv Hok1 Hw Eiv) as [? _]. split; [done|]. split; [auto|].
    intros e. rewrite Hl, place_Permutation, elem_of_cons. intros [->|He]; [done|]. intros <-.
    destruct Hun. left. by apply list_elem_of_fmap_2.
  - rewrite lookup_insert_ne by done. intros Hiv. apply old_interval; [done..|by rewrite Hi].
Qed.

(** ** The queue over time *)

(** The operations on timers, the passing of time, and everything else, which
    keeps the timers.  Delays are numbers of the host, hence canonical, and
    clocks read nonnegative finite milliseconds. *)
Inductive step : JobQueue -> JobQueue -> Prop :=
| step_push q d j id q' :
    timer_room q -> valid_binary 53 1024 d = true ->
    push_timer_job q d (fun _ => j) = Ok (id, q') -> step q q'
| step_interval q d callback args id q' :
    timer_room q -> valid_binary 53 1024 d = true ->
    push_interval q d callback args = Ok (id, q') -> step q q'
| step_reschedule q id q' :
    timer_room q ->
    (forall iv, intervals q !! id = Some iv -> valid_binary 53 1024 (delay iv) = true) ->
    reschedule_interval q id = Ok q' -> step q q'
| step_cancel q id retain : step q (cancel_timer q id retain)
| step_take q retain j q' : take_timer q retain = Some (j, q') -> step q q'
| step_clock q c : deadline (now_ms c) -> step q (with_clock q c)
| step_other q q' : same_timers q q' -> step q q'.

Lemma push_microtask_same q j : same_timers q (push_microtask q j).
Proof. done. Qed.

Lemma settle_same q ps p st v : same_timers q (settle q ps p st v).1.
Proof.
  unfold settle. destruct (ps !! p) as [inner|]; [|done]. destruct (negb _); [done|]. simpl.
  clear ps. induction (reactions inner) as [|r l IH] in q |- *; [done|]. simpl.
  destruct (IH (push_microtask q (ReactionJob st v r))) as (? & ? & ? & ? & ? & ?). done.
Qed.

Lemma with_clock_ok q c : jobs_ok q -> deadline (now_ms c) -> jobs_ok (with_clock q c).
Proof. intros [H1 H2 H3 H4 H5 HI H6] Hc. by split. Qed.

Lemma step_ok q q' : step q q' -> jobs_ok q -> jobs_ok q'.
Proof.
  intros Hs. destruct Hs as [q d j id q' Hr Hv E|q d cb args id q' Hr Hv E|q id q' Hr Hv E|q id retain
    |q retain j q' E|q c Hc|q q' Hsame]; intros Hok.
  - destruct (push_timer_job_ok q d (fun _ => j) Hok Hr Hv) as (? & ? & E' & _ & _ & Hok' & _).
    rewrite E in E'. by injection E' as -> ->.
  - destruct (push_interval_ok q d cb args Hok Hr Hv) as (? & ? & E' & _ & Hok').
    rewrite E in E'. by injection E' as -> ->.
  - destruct (reschedule_interval_ok q id Hok Hr Hv) as (? & E' & Hok').
    rewrite E in E'. by injection E' as ->.
  - by destruct (cancel_timer_ok q id retain Hok).
  - pose proof (take_timer_ok q retain Hok) as Ht. destruct (timer_list q); [congruence|].
    destruct (has_due_timer q); [|congruence]. destruct Ht as (q2 & E' & Hok' & _).
    rewrite E in E'. by injection E' as -> ->.
  - by apply with_clock_ok.
  - by eapply same_timers_ok.
Qed.

Lemma default_jobs_ok : jobs_ok Jobs.default.
Proof.
  split; simpl; try done.
  - apply default_ok.
  - intros e He. by apply not_elem_of_nil in He.
  - intros e He. by apply not_elem_of_nil in He.
  - split; [intros e He; by apply not_elem_of_nil in He|]. intros i [iv Hi]. by rewrite lookup_empty in Hi.
Qed.

Lemma reachable_ok q : rtc step Jobs.default q -> jobs_ok q.
Proof.
  intros Hs. assert (forall a b, rtc step a b -> jobs_ok a -> jobs_ok b) as H.
  { induction 1; eauto using step_ok. }
  eapply H; [exact Hs|exact default_jobs_ok].
Qed.

(** ** The properties *)

(** C30. Scheduling a timer always ends and never reuses a live identifier: in
    every reachable queue that does not hold all 2^53-1 identifiers, the search
    for an identifier stops, at one that no pending timer and no interval has,
    before the identifiers wrap around and after; the timer goes behind those
    due earlier or at the same time and before those due later. *)
Theorem timer_ids_never_alias q d j :
  rtc step Jobs.default q -> timer_room q -> valid_binary 53 1024 d = true ->
  exists id q', push_timer_job q d j = Ok (id, q') /\
    1 <= id <= MAX_ID /\ ~ used q id /\ NoDup (ids (timer_list q')) /\
    timer_list q' =
      place {| Timers.key := (to_bits (due_time (now_ms (clock q)) d), next_sequence q + 1);
               Timers.entry_id := id; Timers.job := j id |} (timer_list q).
Proof.
  intros Hr Hroom Hd. pose proof (reachable_ok q Hr) as Hok.
  destruct (push_timer_job_ok q d j Hok Hroom Hd) as (id & q' & E & Hu & Hrange & Hok' & _ & _ & Hl).
  exists id, q'. split; [done|]. split; [done|]. split; [done|].
  split; [apply (jk_queue q' Hok')|done].
Qed.

Lemma timer_ids_never_alias_witness :
  exists q', push_timer_job Jobs.default zero_f64 (fun _ => IntervalJob 7) = Ok (1, q').
Proof.
  destruct (timer_ids_never_alias Jobs.default zero_f64 (fun _ => IntervalJob 7))
    as (id & q' & E & _ & _ & _ & _); [apply rtc_refl|split; vm_compute; done|reflexivity|].
  exists q'. rewrite E. f_equal. f_equal. vm_compute in E. congruence.
Defined.

(** When a timer is due, in milliseconds. *)
Definition time (e : Timers.TimerEntry Job) : spec_float := from_bits (Timers.key e).1.

Lemma time_order q e e' :
  jobs_ok q -> e ∈ timer_list q -> e' ∈ timer_list q -> before e e' ->
  SFleb (time e) (time e') = true /\
  (SFleb (time e') (time e) = true -> (Timers.key e).2 < (Timers.key e').2).
Proof.
  intros Hok He He' Hb. unfold time.
  destruct (jk_deadline q Hok e He) as (x & Hx & Ex). destruct (jk_deadline q Hok e' He') as (y & Hy & Ey).
  unfold before in Hb. apply key_lt_spec in Hb. rewrite Ex, Ey in *. rewrite !bits_inverse by done.
  rewrite !bits_order by done. rewrite !Z.leb_le. lia.
Qed.

(** C31. Timers fire in order: a timer is taken only when it is due (always, on
    the legacy clock), it is due no later than every other pending timer and was
    scheduled before those due at the same time, and the others stay in order;
    none is taken exactly when none is pending or the earliest is not due. *)
Theorem timers_fire_in_order q retain :
  rtc step Jobs.default q ->
  match take_timer q retain with
  | Some (j, q') =>
      exists e l, timer_list q = e :: l /\ j = Timers.job e /\ timer_list q' = l /\
        (is_legacy (clock q) = true \/ SFleb (time e) (now_ms (clock q)) = true) /\
        forall e', e' ∈ l -> SFleb (time e) (time e') = true /\
          (SFleb (time e') (time e) = true -> (Timers.key e).2 < (Timers.key e').2)
  | None =>
      timer_list q = [] \/
      exists e l, timer_list q = e :: l /\ is_legacy (clock q) = false /\
        SFleb (time e) (now_ms (clock q)) = false
  end.
Proof.
  intros Hr. pose proof (reachable_ok q Hr) as Hok. pose proof (take_timer_ok q retain Hok) as Ht.
  destruct (observe_ok (timers q) 0 (jk_queue q Hok)) as (_ & _ & Hfirst).
  fold (timer_list q) in Hfirst. destruct (timer_list q) as [|e l] eqn:El; [rewrite Ht; by left|].
  assert (has_due_timer q = is_legacy (clock q) || SFleb (time e) (now_ms (clock q))) as Hdue
    by (unfold has_due_timer, next_deadline; by rewrite Hfirst).
  rewrite Hdue in Ht. destruct (is_legacy (clock q) || _) eqn:Ed.
  - destruct Ht as (q' & -> & _ & Hl & _). exists e, l. split; [done|]. split; [done|].
    split; [done|]. split; [by apply orb_true_iff|]. intros e' He'.
    assert (StronglySorted before (e :: l)) as Hs by (rewrite <- El; apply (jk_queue q Hok)).
    apply StronglySorted_inv in Hs as [_ Hall]. rewrite Forall_forall in Hall.
    apply (time_order q); [done|rewrite El; set_solver|rewrite El; set_solver|by apply Hall].
  - rewrite Ht. right. exists e, l. apply orb_false_iff in Ed as [? ?]. done.
Qed.

Lemma timers_fire_in_order_witness :
  match push_timer_job Jobs.default zero_f64 (fun _ => IntervalJob 7) with
  | Ok (_, q) => match take_timer q true with Some (j, _) => j = IntervalJob 7 | None => False end
  | _ => False
  end.
Proof.
  destruct (push_timer_job Jobs.default zero_f64 (fun _ => IntervalJob 7)) as [[id q]| |] eqn:E;
    [|discriminate E..].
  assert (rtc step Jobs.default q) as Hr.
  { apply rtc_once. apply (step_push Jobs.default zero_f64 (IntervalJob 7) id q); [|reflexivity|exact E].
    split; vm_compute; done. }
  pose proof (timers_fire_in_order q true Hr) as H.
  assert (exists e, timer_list q = [e] /\ Timers.job e = IntervalJob 7 /\ clock q = Legacy) as (e & El & Ej & Ec).
  { vm_compute in E. injection E as <- <-. eexists. split; [reflexivity|]. split; reflexivity. }
  destruct (take_timer q true) as [[j q']|].
  - destruct H as (e' & l & El' & -> & _). rewrite El in El'. injection El' as <- <-. exact Ej.
  - destruct H as [H|(e' & l & _ & H & _)]; [rewrite El in H; discriminate H|].
    rewrite Ec in H. discriminate H.
Defined.

(** Cancellation is exact: afterwards no timer has the identifier, nor the
    identifier of the current timer of the interval it names; every other timer
    is still there, in order; the interval is gone and the other intervals are
    kept.  As long as identifiers have not wrapped around, a timer that was
    dropped had the identifier or was a turn of that interval. *)
Theorem cancel_timer_exact q id retain :
  rtc step Jobs.default q ->
  let q' := cancel_timer q id retain in
  intervals q' = delete id (intervals q) /\
  (forall e, e ∈ timer_list q' <-> e ∈ timer_list q /\ Timers.entry_id e <> id /\
     (forall iv, intervals q !! id = Some iv -> Timers.entry_id e <> timer_id iv)) /\
  StronglySorted before (timer_list q') /\
  (timer_ids_wrapped q = false -> forall e, e ∈ timer_list q -> e ∉ timer_list q' ->
     Timers.entry_id e = id \/ Timers.job e = IntervalJob id).
Proof.
  intros Hr q'. pose proof (reachable_ok q Hr) as Hok.
  destruct (cancel_timer_ok q id retain Hok) as (Hok' & Hl & Hi).
  assert (forall e, e ∈ timer_list q' <-> e ∈ timer_list q /\ Timers.entry_id e <> id /\
     (forall iv, intervals q !! id = Some iv -> Timers.entry_id e <> timer_id iv)) as Hin.
  { intros e. unfold q'. rewrite Hl. unfold without. rewrite list_elem_of_filter.
    destruct (intervals q !! id) as [iv|]; [rewrite list_elem_of_filter|]; naive_solver. }
  split; [exact Hi|]. split; [exact Hin|]. split; [apply (jk_queue _ Hok')|].
  intros Hw e He Hno. destruct (decide (Timers.entry_id e = id)) as [|Hne]; [by left|]. right.
  destruct (intervals q !! id) as [iv|] eqn:Eiv.
  - destruct (jk_interval q Hok Hw id iv Eiv) as [_ Hj]. apply Hj; [done|].
    apply dec_stable. intros Hne2. apply Hno, Hin. naive_solver.
  - destruct Hno. apply Hin. naive_solver.
Qed.

Lemma cancel_timer_exact_witness : timer_list (cancel_timer Jobs.default 3 true) = [].
Proof.
  destruct (cancel_timer_exact Jobs.default 3 true (rtc_refl step Jobs.default)) as (_ & H & _).
  destruct (timer_list (cancel_timer Jobs.default 3 true)) as [|e l]; [reflexivity|].
  destruct (proj1 (H e) ltac:(constructor)) as [He _]. by apply not_elem_of_nil in He.
Defined.

(** Once identifiers wrap, an interval whose turn is running can cancel a
    stranger: its last identifier is free again, a new timer gets it, and
    clearing the interval drops that timer. *)
Example wrapped_interval_cancels_stranger :
  match push_interval Jobs.default zero_f64 Undefined [] with
  | Ok (iv, q) =>
      match take_timer q true with
      | Some (_, q) =>
          match reschedule_interval q iv with
          | Ok q =>
              match take_timer q true with
              | Some (_, q) =>
                  (match push_timer (set_next_timer_id q 1 true) zero_f64 Null [] with
                   | Ok (id, q) =>
                       (id, iv, length (timer_list q), length (timer_list (cancel_timer q iv true)))
                   | _ => (0, 0, 0%nat, 0%nat)
                   end)
              | None => (0, 0, 0%nat, 0%nat)
              end
          | _ => (0, 0, 0%nat, 0%nat)
          end
      | None => (0, 0, 0%nat, 0%nat)
      end
  | _ => (0, 0, 0%nat, 0%nat)
  end = (2, 1, 1%nat, 0%nat).
Proof. vm_compute. reflexivity. Qed.

(** Deadlines are ordered by their bits: for the nonnegative finite numbers
    the keys are made of, comparing bits is comparing numbers and no bit is
    lost; and whatever the delay is (negative, infinite, not a number, or huge),
    the deadline computed for it on a clock that reads such a number is one. *)
Theorem deadline_bits_order now d y :
  deadline now -> valid_binary 53 1024 d = true -> deadline y ->
  let x := f64_min (f64_add now (normalize_delay d)) f64_MAX in
  deadline x /\ SFleb x y = (to_bits x <=? to_bits y) /\ from_bits (to_bits x) = x.
Proof.
  intros Hn Hd Hy x. assert (deadline x) as Hx by (by apply due_time_deadline).
  split; [done|]. split; [by apply bits_order|by apply bits_inverse].
Qed.

Lemma deadline_bits_order_witness :
  from_bits (to_bits (f64_min (f64_add zero_f64 (normalize_delay S754_nan)) f64_MAX)) = zero_f64.
Proof.
  destruct (deadline_bits_order zero_f64 S754_nan zero_f64) as (_ & _ & E);
    [exact I|reflexivity|exact I|exact E].
Defined.

(** ** Settlement *)

Lemma push_reactions_spec st v rs : forall q,
  microtasks (fold_left (fun q r => push_microtask q (ReactionJob st v r)) rs q)
  = microtasks q ++ map (ReactionJob st v) rs.
Proof.
  induction rs as [|r rs IH]; intros q; simpl; [by rewrite app_nil_r|].
  rewrite IH. simpl. by rewrite <- app_assoc.
Qed.

(** C32. A promise settles once: settling a pending promise records the state and
    value, locks it, and moves its reactions to the end of the microtask queue
    in the order of their registration; whoever settles it again, to whatever
    state, changes neither the promises nor the queue.  Other promises, timers
    and events are untouched. *)
Theorem settle_once q ps p inner st v st' v' :
  ps !! p = Some inner -> state inner = Pending -> st <> Pending ->
  let '(q1, ps1) := settle q ps p st v in
  microtasks q1 = microtasks q ++ map (ReactionJob st v) (reactions inner) /\
  (exists i, ps1 !! p = Some i /\ state i = st /\ value i = v /\ reactions i = [] /\
     resolution_locked i = true /\ handled i = handled inner) /\
  (forall p', p' <> p -> ps1 !! p' = ps !! p') /\ same_timers q q1 /\
  settle q1 ps1 p st' v' = (q1, ps1).
Proof.
  intros Hp Hs Hst. pose proof (settle_same q ps p st v) as Hsame. unfold settle in *. rewrite Hp in *.
  rewrite Hs in *. simpl in *. split; [apply push_reactions_spec|].
  rewrite lookup_insert_eq. split; [eauto 10|]. split; [intros; by rewrite lookup_insert_ne|].
  split; [done|]. simpl. by rewrite bool_decide_eq_false_2.
Qed.

Definition pending_promise : PromiseInner :=
  {| state := Pending; resolution_locked := false; external_pending := false; value := Undefined;
     reactions := [{| on_fulfilled := Null; on_rejected := Null; derived := 2; adopted := false;
                      capability := None |}]; handled := false |}.

Lemma settle_once_witness :
  let '(q1, ps1) := settle Jobs.default {[1%nat := pending_promise]} 1 Fulfilled Null in
  settle q1 ps1 1 Rejected Undefined = (q1, ps1).
Proof.
  pose proof (settle_once Jobs.default {[1%nat := pending_promise]} 1 pending_promise Fulfilled Null
                Rejected Undefined) as H.
  destruct (settle Jobs.default {[1%nat := pending_promise]} 1 Fulfilled Null) as [q1 ps1].
  apply H; [reflexivity|reflexivity|discriminate].
Defined.
