(* ===== verification/Regex.v ===== *)
(** Regular expressions: the syntax tree of [regex/parse.rs] and the
    backtracking matcher of [regex/mod.rs].

    Positions index UTF-16 units.  The cells of the matcher and the captures are
    the state of a computation that ends in a value, an error of the matcher or a
    panic.  A continuation of the source returns a boolean and hands an error out
    through a variable of its caller, which then returns that error; here the
    continuation's error is the error of the computation.  Growing the native
    stack ([stacker::maybe_grow]) has no counterpart.  Unicode tables are
    arguments: [simple_fold] and [to_uppercase] of a character, and the classes of
    characters with the same folding. *)
From stdpp Require Import prelude list gmap.
From Stdlib Require Import ZArith Lia.
From S2P Require Import Prelude JsString.
Local Open Scope Z_scope.

Module Regex.

(** ** Syntax *)

Inductive Shorthand := Digit | Word | Space.

Record StringAlts := {
  alts : list (list Z);
  by_single : gmap Z (list nat);
  by_pair : gmap (Z * Z) (list nat);
  alts_has_empty : bool;
}.

Inductive ClassItem :=
| Char (c : Z)
| Range (low high : Z)
| ShorthandItem (kind : Shorthand) (negated : bool)
| UnicodeProperty (surrogates : bool) (ranges folded folded_complement : list (Z * Z))
    (negated : bool)
| Nested (negated : bool) (items : list ClassItem)
| Strings (strings : StringAlts)
| Conjoin (unions : list (list ClassItem))
| Except (left right : list ClassItem).

Inductive Anchor := Start | End | WordBoundary | NotWordBoundary.

Inductive Node :=
| Empty
| NChar (c : Z)
| AnyChar
| Class (negated : bool) (items : list ClassItem)
| Concat (items : list Node)
| Alt (branches : list Node)
| Repeat (node : Node) (min : nat) (max : option nat) (greedy : bool)
| Group (index : option nat) (node : Node)
| Modifiers (add remove : Z) (node : Node)
| Backref (index : nat)
| NamedBackref (name : list Z)
| NAnchor (anchor : Anchor)
| Look (ahead negative : bool) (node : Node).

(** *** String alternatives *)

(** [entry(k).or_default().push(index)] *)
Definition push_at {K} `{Countable K} (m : gmap K (list nat)) (k : K) (index : nat)
  : gmap K (list nat) :=
  <[k := from_option id [] (m !! k) ++ [index]]> m.

Definition index_alternative (s : StringAlts) (index : nat) (alternative : list Z) : StringAlts :=
  match alternative with
  | [] => {| alts := alts s; by_single := by_single s; by_pair := by_pair s;
             alts_has_empty := true |}
  | [only] => {| alts := alts s; by_single := push_at (by_single s) only index;
                 by_pair := by_pair s; alts_has_empty := alts_has_empty s |}
  | first :: second :: _ =>
      {| alts := alts s; by_single := by_single s;
         by_pair := push_at (by_pair s) (first, second) index;
         alts_has_empty := alts_has_empty s |}
  end.

Fixpoint index_alternatives (s : StringAlts) (index : nat) (l : list (list Z)) : StringAlts :=
  match l with
  | [] => s
  | a :: l => index_alternatives (index_alternative s index a) (S index) l
  end.

Definition string_alts (l : list (list Z)) : StringAlts :=
  index_alternatives {| alts := l; by_single := ∅; by_pair := ∅; alts_has_empty := false |} 0 l.

Definition has_single (s : StringAlts) (unit : Z) : bool :=
  match by_single s !! unit with Some _ => true | None => false end.
Definition singles (s : StringAlts) (unit : Z) : list nat :=
  from_option id [] (by_single s !! unit).
Definition candidates (s : StringAlts) (first second : Z) : option (list nat) :=
  by_pair s !! (first, second).

(** Whether a union holds string alternatives at any depth. *)
Fixpoint contains_strings (item : ClassItem) : bool :=
  match item with
  | Strings _ => true
  | Nested _ items => existsb contains_strings items
  | Conjoin unions => existsb (existsb contains_strings) unions
  | Except l r => existsb contains_strings l || existsb contains_strings r
  | _ => false
  end.
Definition set_contains_strings (items : list ClassItem) : bool := existsb contains_strings items.

(** *** Patterns *)

Record Regex := {
  root : Node;
  group_count : nat;
  names : gmap (list Z) (list nat);
  source : JsString.JsString;
  flags : list Z;
  global : bool;
  ignore_case : bool;
  multiline : bool;
  dot_all : bool;
  sticky : bool;
  unicode : bool;
}.

(** [flags.contains('v')] *)
Definition vsets (r : Regex) : bool := existsb (Z.eqb 118) (flags r).

Abbreviation Captures := (list (option (nat * nat))) (only parsing).

(** The groups of a node lose their captures; [None] is an index out of range. *)
Fixpoint clear_captures (node : Node) (caps : Captures) : option Captures :=
  match node with
  | Group index node =>
      match index with
      | Some i => if (i <? length caps)%nat then clear_captures node (<[i := None]> caps) else None
      | None => clear_captures node caps
      end
  | Concat nodes | Alt nodes =>
      (fix go (l : list Node) (caps : Captures) : option Captures :=
         match l with
         | [] => Some caps
         | n :: l => caps ← clear_captures n caps; go l caps
         end) nodes caps
  | Repeat node _ _ _ | Look _ _ node | Modifiers _ _ node => clear_captures node caps
  | _ => Some caps
  end.

(** ** Characters *)

Definition high_surrogate (u : Z) : bool := in_range 55296 56319 u.
Definition low_surrogate (u : Z) : bool := in_range 56320 57343 u.
Definition is_line_terminator (c : Z) : bool :=
  (c =? 10) || (c =? 13) || (c =? 8232) || (c =? 8233).

Definition bit (n : Z) (modifiers : Z) : bool := negb (Z.land modifiers n =? 0).
Definition folding (modifiers : Z) : bool := bit 1 modifiers.

(** The tables of the Unicode libraries: simple case folding, full upper-case
    mapping, and the classes of characters with the same folding, each headed by
    the folded character. *)
Class UnicodeTables := {
  simple_fold : Z -> Z;
  to_uppercase : Z -> list Z;
  fold_classes : list (list Z);
}.

Section Unicode.
Context `{UnicodeTables}.

Definition canonical (c : Z) (unicode : bool) : Z :=
  if negb (JsString.is_char c) then c
  else if unicode then simple_fold c
  else match to_uppercase c with
       | [first] => if (128 <=? c) && (first <? 128) then c else first
       | _ => c
       end.

(** The legacy classes hold the characters of the basic plane that another one
    is the canonical form of. *)
Definition range_matches (c low high : Z) (unicode : bool) : bool :=
  let key := canonical c unicode in
  if in_range low high key then true
  else if unicode then
    existsb (fun g => match g with
                      | k :: _ => (k =? key) && existsb (in_range low high) g
                      | [] => false
                      end) fold_classes
  else
    existsb (fun c' => in_range low high c' && negb (canonical c' false =? c')
                       && (canonical c' false =? key)) (seqZ 0 65536).

(** ** The matcher *)

Context (regex : Regex) (input : list Z).

Definition scalar (pos : nat) : option Z :=
  hi ← input !! pos;
  if unicode regex && high_surrogate hi then
    match input !! (pos + 1)%nat with
    | Some lo => if low_surrogate lo
                 then Some (65536 + Z.shiftl (hi - 55296) 10 + (lo - 56320)) else Some hi
    | None => Some hi
    end
  else Some hi.

Definition width (c : Z) : nat := if 65535 <? c then 2 else 1.

Definition advance (pos : nat) : nat :=
  match scalar pos with Some c => pos + width c | None => pos + 1 end.

(** The next character in the direction of the match, and the boundary after
    it. *)
Definition character (forward : bool) (pos : nat) : option (Z * nat) :=
  if forward then c ← scalar pos; Some (c, (pos + width c)%nat)
  else
    match pos with
    | O => None
    | S start =>
        u ← input !! start;
        let start :=
          match start with
          | S before =>
              if unicode regex && low_surrogate u
                 && match input !! before with Some h => high_surrogate h | None => false end
              then before else start
          | O => start
          end in
        c ← scalar start; Some (c, start)
    end.

Definition same_char (modifiers a b : Z) : bool :=
  (a =? b)
  || (folding modifiers && (canonical a (unicode regex) =? canonical b (unicode regex))).

Definition word_character (modifiers c : Z) : bool :=
  in_range 48 57 c || in_range 65 90 c || in_range 97 122 c || (c =? 95)
  || (unicode regex && folding modifiers && ((c =? 383) || (c =? 8490))).

Definition is_word (modifiers : Z) (index : nat) : bool :=
  match scalar index with Some c => word_character modifiers c | None => false end.

Definition is_space (c : Z) : bool :=
  in_range 9 13 c || (c =? 32) || (c =? 160) || (c =? 5760) || in_range 8192 8202 c
  || (c =? 8232) || (c =? 8233) || (c =? 8239) || (c =? 8287) || (c =? 12288) || (c =? 65279).

(** [ranges.partition_point(|(_, high)| high < c)] *)
Fixpoint range_index (c : Z) (ranges : list (Z * Z)) : nat :=
  match ranges with
  | (_, high) :: ranges => if high <? c then S (range_index c ranges) else 0
  | [] => 0
  end.

(** One scalar against an item of a class. *)
Fixpoint item_matches (modifiers c : Z) (item : ClassItem) : bool :=
  match item with
  | Strings strings =>
      if negb (folding modifiers) && (c <=? 65535) then has_single strings c
      else existsb (fun a => match a with [u] => same_char modifiers c u | _ => false end)
             (alts strings)
  | Nested negated items => negb (Bool.eqb (existsb (item_matches modifiers c) items) negated)
  | Conjoin unions => forallb (existsb (item_matches modifiers c)) unions
  | Except l r =>
      existsb (item_matches modifiers c) l && negb (existsb (item_matches modifiers c) r)
  | Char want => same_char modifiers c want
  | Range low high =>
      if in_range low high c then true
      else if folding modifiers then range_matches c low high (unicode regex) else false
  | ShorthandItem kind negated =>
      let base := match kind with
                  | Digit => in_range 48 57 c
                  | Word => word_character modifiers c
                  | Space => is_space c
                  end in
      negb (Bool.eqb base negated)
  | UnicodeProperty surrogates ranges folded folded_complement negated =>
      let complement_first := folding modifiers && negated && negb (vsets regex) in
      let ranges := if complement_first then folded_complement
                    else if folding modifiers then folded else ranges in
      let hit :=
        if in_range 55296 57343 c then (if complement_first then negb surrogates else surrogates)
        else match ranges !! range_index c ranges with
             | Some (low, high) => in_range low high c
             | None => false
             end in
      if complement_first then hit else negb (Bool.eqb hit negated)
  end.

Definition union_matches (modifiers : Z) (items : list ClassItem) (c : Z) : bool :=
  existsb (item_matches modifiers c) items.

Definition class_matches (modifiers : Z) (negated : bool) (items : list ClassItem) (c : Z) : bool :=
  negb (Bool.eqb (union_matches modifiers items c) negated).

(** [string_at]: no index is out of range. *)
Definition string_at (modifiers : Z) (alternative : list Z) (pos : nat) : bool :=
  match alternative with
  | [] => true
  | _ =>
      if (length input <? pos + length alternative)%nat then false
      else forallb (fun p => same_char modifiers p.1 p.2) (zip (drop pos input) alternative)
  end.

(** The merge of two lists of ends with the indices of their alternatives. *)
Fixpoint merge_ends (singles : list (nat * nat)) : list (nat * nat) -> list nat :=
  fix go (longer : list (nat * nat)) : list nat :=
    match longer with
    | [] => map snd singles
    | (li, le) :: longer' =>
        match singles with
        | (si, se) :: singles' =>
            if (si <=? li)%nat then se :: merge_ends singles' longer else le :: go longer'
        | [] => le :: go longer'
        end
    end.

Definition string_table_ends (modifiers : Z) (strings : StringAlts) (pos : nat) (unit : Z) : list nat :=
  let longer :=
    match input !! (pos + 1)%nat with
    | Some next =>
        match candidates strings unit next with
        | Some indices =>
            omap (fun index =>
              alternative ← alts strings !! index;
              if string_at modifiers alternative pos
              then Some (index, (pos + length alternative)%nat) else None) indices
        | None => []
        end
    | None => []
    end in
  merge_ends (map (fun index => (index, (pos + 1)%nat)) (singles strings unit)) longer.

(** The ends of the string alternatives of one table. *)
Definition strings_ends (modifiers : Z) (forward : bool) (strings : StringAlts) (pos : nat) : list nat :=
  match input !! pos with
  | Some unit =>
      if forward && negb (folding modifiers) then
        string_table_ends modifiers strings pos unit
        ++ (if alts_has_empty strings then [pos] else [])
      else
        omap (fun a =>
          if forward then
            if string_at modifiers a pos then Some (pos + length a)%nat else None
          else if (pos <? length a)%nat then None
          else if string_at modifiers a (pos - length a) then Some (pos - length a)%nat else None)
          (alts strings)
  | None =>
      omap (fun a =>
        if forward then
          if string_at modifiers a pos then Some (pos + length a)%nat else None
        else if (pos <? length a)%nat then None
        else if string_at modifiers a (pos - length a) then Some (pos - length a)%nat else None)
        (alts strings)
  end.

(** One scalar advance when the scalar predicate of the union holds. *)
Definition scalar_end (modifiers : Z) (forward : bool) (items : list ClassItem) (pos : nat) : list nat :=
  match character forward pos with
  | Some (c, end_) => if union_matches modifiers items c then [end_] else []
  | None => []
  end.

Definition mem_nat (x : nat) (l : list nat) : bool := existsb (Nat.eqb x) l.

Fixpoint item_ends (modifiers : Z) (forward : bool) (pos : nat) (item : ClassItem) : list nat :=
  match item with
  | Strings strings => strings_ends modifiers forward strings pos
  | Nested negated items =>
      let sub := flat_map (item_ends modifiers forward pos) items
                 ++ scalar_end modifiers forward items pos in
      if negated then
        match sub, character forward pos with
        | [], Some (_, end_) => [end_]
        | _, _ => []
        end
      else sub
  | Conjoin unions =>
      match map (fun u => flat_map (item_ends modifiers forward pos) u
                          ++ scalar_end modifiers forward u pos) unions with
      | [] => []
      | first :: rest => fold_left (fun kept ends => List.filter (fun e => mem_nat e ends) kept) rest first
      end
  | Except l r =>
      let excluded := flat_map (item_ends modifiers forward pos) r
                      ++ scalar_end modifiers forward r pos in
      List.filter (fun e => negb (mem_nat e excluded))
        (flat_map (item_ends modifiers forward pos) l ++ scalar_end modifiers forward l pos)
  | _ => []
  end.

Definition union_ends (modifiers : Z) (forward : bool) (items : list ClassItem) (pos : nat) : list nat :=
  flat_map (item_ends modifiers forward pos) items ++ scalar_end modifiers forward items pos.

(** Keep the first of equal ends. *)
Definition dedup (l : list nat) : list nat :=
  fold_left (fun kept e => if mem_nat e kept then kept else kept ++ [e]) l [].

Definition abs_diff (a b : nat) : nat := (a - b) + (b - a).

Fixpoint insert_far (pos e : nat) (l : list nat) : list nat :=
  match l with
  | [] => [e]
  | x :: l' => if (abs_diff pos x <? abs_diff pos e)%nat then e :: l else x :: insert_far pos e l'
  end.

(** [sort_unstable_by_key(Reverse(pos.abs_diff(end)))] of distinct ends. *)
Definition sort_far (pos : nat) (l : list nat) : list nat := fold_right (insert_far pos) [] l.

Definition class_ends (modifiers : Z) (forward negated : bool) (items : list ClassItem) (pos : nat)
  : list nat :=
  if negated then
    match character forward pos with
    | Some (c, end_) => if union_matches modifiers items c then [] else [end_]
    | None => []
    end
  else sort_far pos (dedup (union_ends modifiers forward items pos)).

End Unicode.
End Regex.
