(* ===== verification/RegexMatch.v ===== *)
(** The backtracking search of [regex/mod.rs]: nodes, sequences, repetitions and
    the search for a match.  The recursion of the source goes through its
    continuations; [fuel] bounds its depth. *)
From stdpp Require Import prelude list gmap.
From Stdlib Require Import ZArith Lia.
From S2P Require Import Prelude Regex.
Import Regex.
Local Open Scope Z_scope.

Module RegexMatch.

Definition MAX_STEPS : Z := 1000000.
Definition STEPS_PER_INPUT_UNIT : Z := 64.
Definition MAX_DEPTH : Z := 512.

(** The errors of a match; [Fuel] is the model's own. *)
Inductive MatchError := NestingBudget | BacktrackingBudget | Fuel.

(** The cells of [Matcher], the captures its methods pass around, and the end
    that the last continuation of [find_at] writes. *)
Record Cells := {
  steps : Z;
  depth : Z;
  forward : bool;
  modifiers : Z;
  caps : list (option (nat * nat));
  found : option nat;
}.

Definition set_steps (s : Cells) (x : Z) : Cells :=
  {| steps := x; depth := depth s; forward := forward s; modifiers := modifiers s; caps := caps s;
     found := found s |}.
Definition set_depth (s : Cells) (x : Z) : Cells :=
  {| steps := steps s; depth := x; forward := forward s; modifiers := modifiers s; caps := caps s;
     found := found s |}.
Definition set_forward (s : Cells) (x : bool) : Cells :=
  {| steps := steps s; depth := depth s; forward := x; modifiers := modifiers s; caps := caps s;
     found := found s |}.
Definition set_modifiers (s : Cells) (x : Z) : Cells :=
  {| steps := steps s; depth := depth s; forward := forward s; modifiers := x; caps := caps s;
     found := found s |}.
Definition set_caps (s : Cells) (x : list (option (nat * nat))) : Cells :=
  {| steps := steps s; depth := depth s; forward := forward s; modifiers := modifiers s; caps := x;
     found := found s |}.
Definition set_found (s : Cells) (x : option nat) : Cells :=
  {| steps := steps s; depth := depth s; forward := forward s; modifiers := modifiers s;
     caps := caps s; found := x |}.

Definition M (A : Type) : Type := Cells -> outcome MatchError A * Cells.
Definition ret {A} (x : A) : M A := fun s => (Ok x, s).
Definition bind {A B} (m : M A) (k : A -> M B) : M B :=
  fun s => match m s with
           | (Ok x, s) => k x s
           | (Err e, s) => (Err e, s)
           | (Panic, s) => (Panic, s)
           end.
Definition fail {A} (e : MatchError) : M A := fun s => (Err e, s).
Definition panic {A} : M A := fun s => (Panic, s).
Definition get : M Cells := fun s => (Ok s, s).
Definition update (f : Cells -> Cells) : M unit := fun s => (Ok tt, f s).

Declare Scope regex_scope.
Delimit Scope regex_scope with regex.
Notation "'let!' x ':=' m 'in' k" := (bind m (fun x => k))
  (at level 10, x name, m at level 100, k at level 200) : regex_scope.
Notation "m ';!' k" := (bind m (fun _ => k)) (at level 100, right associativity) : regex_scope.
Local Open Scope regex_scope.

(** Run the first, and the second whatever it ends in. *)
Definition finally {A} (m : M A) (f : Cells -> Cells) : M A :=
  fun s => let (r, s) := m s in (r, f s).

(** "The rest of the pattern starts here." *)
Abbreviation Cont := (nat -> M bool) (only parsing).

Section Matcher.
Context `{UnicodeTables} (regex : Regex) (input : list Z) (budget : Z).

Definition enter : M unit :=
  let! s := get in
  if MAX_DEPTH <=? depth s then fail NestingBudget
  else update (fun s => set_depth s (depth s + 1)).

Definition leave (s : Cells) : Cells := set_depth s (depth s - 1).

Definition step : M unit :=
  update (fun s => set_steps s (steps s + 1)) ;!
  let! s := get in
  if budget <? steps s then fail BacktrackingBudget else ret tt.

(** The first of the ends the continuation accepts. *)
Fixpoint try_ends (ends : list nat) (k : Cont) : M bool :=
  match ends with
  | [] => ret false
  | e :: ends => let! b := k e in if b then ret true else try_ends ends k
  end.

(** [*caps = saved] *)
Definition assign (saved : list (option (nat * nat))) : M unit :=
  update (fun s => set_caps s saved).

(** [caps.copy_from_slice(&saved)] *)
Definition restore (saved : list (option (nat * nat))) : M unit :=
  let! s := get in
  if (length saved =? length (caps s))%nat then assign saved else panic.

(** [clear_captures(node, caps)] *)
Definition clear (node : Node) : M unit :=
  let! s := get in
  match clear_captures node (caps s) with
  | Some cleared => assign cleared
  | None => panic
  end.

(** *** Repeated characters *)

Definition atom_matches (atom : Node) (modifiers c : Z) : bool :=
  match atom with
  | NChar want => same_char regex modifiers c want
  | AnyChar => bit 4 modifiers || negb (is_line_terminator c)
  | _ => false
  end.

(** The loop of [repeat_atom]: [Some true] when the continuation accepted. *)
Fixpoint atom_loop (fuel : nat) (atom : Node) (min : nat) (max : option nat) (greedy : bool)
    (saved : list (option (nat * nat))) (k : Cont) (pos count : nat) (positions : list nat)
  : M (option (nat * list nat)) :=
  match fuel with
  | O => fail Fuel
  | S fuel =>
      step ;!
      let! accepted :=
        (if negb greedy && (min <=? count)%nat then
           let! b := k pos in if b then ret true else (restore saved ;! ret false)
         else ret false) in
      if accepted : bool then ret None
      else if match max with Some m => (m <=? count)%nat | None => false end
      then ret (Some (count, positions))
      else
        let! s := get in
        match character regex input (forward s) pos with
        | None => ret (Some (count, positions))
        | Some (c, end_) =>
            if atom_matches atom (modifiers s) c then
              atom_loop fuel atom min max greedy saved k end_ (S count)
                (if greedy then positions ++ [end_] else positions)
            else ret (Some (count, positions))
        end
  end.

(** The greedy tail of [repeat_atom]: each position costs a step. *)
Fixpoint try_positions (saved : list (option (nat * nat))) (positions : list nat) (k : Cont) : M bool :=
  match positions with
  | [] => ret false
  | p :: positions =>
      step ;!
      let! b := k p in
      if b then ret true else (restore saved ;! try_positions saved positions k)
  end.

Definition repeat_atom (atom : Node) (min : nat) (max : option nat) (greedy : bool) (pos : nat)
    (k : Cont) : M bool :=
  let! s := get in
  let saved := caps s in
  let! r := atom_loop (S (S (length input))) atom min max greedy saved k pos 0 [pos] in
  match r with
  | None => ret true
  | Some (count, positions) =>
      if greedy && (min <=? count)%nat then try_positions saved (rev (drop min positions)) k
      else ret false
  end.

(** *** Repeated classes *)

Definition scalar_item (item : ClassItem) : bool :=
  match item with
  | Char _ | Range _ _ | ShorthandItem _ _ | UnicodeProperty _ _ _ _ _ => true
  | _ => false
  end.

Definition scalar_only (items : list ClassItem) : bool :=
  negb (set_contains_strings items) && forallb scalar_item items.

(** The longest run of characters of the class, as boundaries. *)
Fixpoint scalar_run (fuel : nat) (modifiers : Z) (fwd negated : bool) (items : list ClassItem)
    (max : option nat) (current : nat) (ends : list nat) : list nat :=
  match fuel with
  | O => ends
  | S fuel =>
      if match max with Some limit => (limit <? length ends)%nat | None => false end then ends
      else match character regex input fwd current with
           | None => ends
           | Some (c, end_) =>
               if class_matches regex modifiers negated items c
               then scalar_run fuel modifiers fwd negated items max end_ (ends ++ [end_])
               else ends
           end
  end.

Record Frame := {
  fpos : nat;
  fcount : nat;
  fends : list nat;
  tried_stop : bool;
}.

(** The ends a frame has left to try; the source keeps all of them and the index
    of the next. *)
Definition make_frame (modifiers : Z) (fwd negated : bool) (items : list ClassItem)
    (max : option nat) (pos count : nat) : Frame :=
  {| fpos := pos; fcount := count;
     fends := if match max with Some limit => (count <? limit)%nat | None => true end
              then class_ends regex input modifiers fwd negated items pos else [];
     tried_stop := false |}.

Definition tried (f : Frame) : Frame :=
  {| fpos := fpos f; fcount := fcount f; fends := fends f; tried_stop := true |}.

(** The continuation at the end of a frame, once its minimum is met. *)
Definition try_stop (saved : list (option (nat * nat))) (k : Cont) (min : nat) (now : bool) (f : Frame)
  : M (option Frame) :=
  if now && (min <=? fcount f)%nat && negb (tried_stop f) then
    let! b := k (fpos f) in
    if b then ret None else (restore saved ;! ret (Some (tried f)))
  else ret (Some f).

(** The depth-first loop of [repeat_class]; the stack has its top first. *)
Fixpoint class_loop (fuel : nat) (negated : bool) (items : list ClassItem) (min : nat)
    (max : option nat) (greedy : bool) (saved : list (option (nat * nat))) (k : Cont)
    (failed : gset (nat * nat)) (stack : list Frame) : M bool :=
  match stack with
  | [] => ret false
  | frame :: rest =>
      match fuel with
      | O => fail Fuel
      | S fuel =>
          step ;!
          let! r := try_stop saved k min (negb greedy) frame in
          match r with
          | None => ret true
          | Some frame =>
              match fends frame with
              | next :: ends =>
                  let frame := {| fpos := fpos frame; fcount := fcount frame; fends := ends;
                                  tried_stop := tried_stop frame |} in
                  if (next =? fpos frame)%nat && (min <=? fcount frame)%nat then
                    class_loop fuel negated items min max greedy saved k failed (frame :: rest)
                  else
                    let count := match max with
                                 | None => if (min <=? fcount frame)%nat then min else S (fcount frame)
                                 | Some _ => S (fcount frame)
                                 end in
                    if bool_decide ((next, count) ∈ failed) then
                      class_loop fuel negated items min max greedy saved k failed (frame :: rest)
                    else
                      let! s := get in
                      class_loop fuel negated items min max greedy saved k failed
                        (make_frame (modifiers s) (forward s) negated items max next count
                         :: frame :: rest)
              | [] =>
                  let! r := try_stop saved k min greedy frame in
                  match r with
                  | None => ret true
                  | Some frame =>
                      class_loop fuel negated items min max greedy saved k
                        ({[(fpos frame, fcount frame)]} ∪ failed) rest
                  end
              end
          end
      end
  end.

Definition repeat_class (negated : bool) (items : list ClassItem) (min : nat) (max : option nat)
    (greedy : bool) (pos : nat) (k : Cont) : M bool :=
  let! s := get in
  if scalar_only items then
    let ends := drop min (scalar_run (S (length input)) (modifiers s) (forward s) negated items max
                            pos [pos]) in
    try_ends (if greedy then rev ends else ends) k
  else
    class_loop (S (Z.to_nat (budget - steps s))) negated items min max greedy (caps s) k ∅
      [make_frame (modifiers s) (forward s) negated items max pos 0].

(** *** Back-references *)

(** Compare [len] units from [begin] and from [start], character by character;
    [None] is a panic of the source's [expect]. *)
Fixpoint same_text (fuel : nat) (modifiers : Z) (begin start len offset : nat) : option bool :=
  match fuel with
  | O => Some true
  | S fuel =>
      if (offset <? len)%nat then
        match scalar regex input (begin + offset), scalar regex input (start + offset) with
        | Some actual, Some captured =>
            if same_char regex modifiers actual captured
            then same_text fuel modifiers begin start len (offset + width captured)
            else Some false
        | _, _ => None
        end
      else Some true
  end.

Definition backreference (index : nat) (pos : nat) (k : Cont) : M bool :=
  let! s := get in
  match caps s !! index with
  | Some (Some (start, end_)) =>
      if (end_ <? start)%nat then panic
      else
        let len := (end_ - start)%nat in
        if negb (forward s) && (pos <? len)%nat then ret false
        else
          let begin := if forward s then pos else (pos - len)%nat in
          if (length input <? begin + len)%nat then ret false
          else if unicode regex
                  && match begin with
                     | S before =>
                         match input !! begin, input !! before with
                         | Some u, Some h => low_surrogate u && high_surrogate h
                         | _, _ => false
                         end
                     | O => false
                     end
          then ret false
          else match same_text len (modifiers s) begin start len 0 with
               | None => panic
               | Some false => ret false
               | Some true => k (if forward s then (pos + len)%nat else begin)
               end
  | _ => k pos
  end.

(** [atom] of the source: the body without its non-capturing groups. *)
Fixpoint strip_groups (node : Node) : Node :=
  match node with Group None node => strip_groups node | _ => node end.

Definition split_sequence (fwd : bool) (nodes : list Node) : option (Node * list Node) :=
  if fwd then match nodes with [] => None | n :: l => Some (n, l) end
  else match last nodes with None => None | Some n => Some (n, take (length nodes - 1) nodes) end.

Definition anchor_holds (modifiers : Z) (anchor : Anchor) (pos : nat) : outcome MatchError bool :=
  match anchor with
  | Start =>
      match pos with
      | O => Ok true
      | S before =>
          if bit 2 modifiers then
            match input !! before with Some u => Ok (is_line_terminator u) | None => Panic end
          else Ok false
      end
  | End =>
      if (pos =? length input)%nat then Ok true
      else if bit 2 modifiers then
        match input !! pos with Some u => Ok (is_line_terminator u) | None => Panic end
      else Ok false
  | WordBoundary | NotWordBoundary =>
      let before := match pos with S p => is_word regex input modifiers p | O => false end in
      let at_ := is_word regex input modifiers pos in
      Ok (if anchor is WordBoundary then negb (Bool.eqb before at_) else Bool.eqb before at_)
  end.

(** The indices of a name: the first group that has matched. *)
Definition set_group (indices : list nat) (caps : list (option (nat * nat))) : option nat :=
  find (fun index => match caps !! index with Some (Some _) => true | _ => false end) indices.

(** [caps[index] = x] *)
Definition put (index : nat) (x : option (nat * nat)) : M unit :=
  let! s := get in
  if (index <? length (caps s))%nat then assign (<[index := x]> (caps s)) else panic.

(** The loop over the branches of an alternation. *)
Fixpoint alternatives (run : Node -> M bool) (branches : list Node) : M bool :=
  match branches with
  | [] => ret false
  | branch :: branches =>
      let! s := get in
      let! b := run branch in
      if b then ret true else (assign (caps s) ;! alternatives run branches)
  end.

(** The continuation of a capturing group. *)
Definition group_end (index start : nat) (k : Cont) (end_ : nat) : M bool :=
  let! s := get in
  match caps s !! index with
  | None => panic
  | Some before =>
      put index (Some (Nat.min start end_, Nat.max start end_)) ;!
      let! b := k end_ in
      if b then ret true else (put index before ;! ret false)
  end.

(** What follows the body of a capturing group. *)
Definition group_exit (index : nat) (previous : option (nat * nat)) (matched : bool) : M bool :=
  let! s := get in
  (if negb matched && (index <? length (caps s))%nat then put index previous else ret tt) ;!
  ret matched.

Definition modified (outer add remove : Z) : Z := Z.land (Z.lor outer add) (Z.lnot remove).

Definition with_modifiers (x : Z) : M unit := update (fun s => set_modifiers s x).
Definition with_forward (x : bool) : M unit := update (fun s => set_forward s x).

(** The cases of [node_inner] that call nothing recursive. *)
Definition leaf (n : Node) (pos : nat) (k : Cont) : M bool :=
  let! s := get in
  match n with
  | NChar want =>
      match character regex input (forward s) pos with
      | Some (c, end_) => if same_char regex (modifiers s) c want then k end_ else ret false
      | None => ret false
      end
  | AnyChar =>
      match character regex input (forward s) pos with
      | Some (c, end_) =>
          if bit 4 (modifiers s) || negb (is_line_terminator c) then k end_ else ret false
      | None => ret false
      end
  | Class negated items =>
      try_ends (class_ends regex input (modifiers s) (forward s) negated items pos) k
  | Backref index => backreference index pos k
  | NamedBackref name =>
      match indices ← names regex !! name; set_group indices (caps s) with
      | Some index => backreference index pos k
      | None => k pos
      end
  | NAnchor anchor =>
      match anchor_holds (modifiers s) anchor pos with
      | Ok true => k pos
      | Ok false => ret false
      | Err e => fail e
      | Panic => panic
      end
  | _ => k pos
  end.

(** After the body of a lookaround: [hit] is what it ended in. *)
Definition look_exit (negative hit : bool) (saved : list (option (nat * nat))) (pos : nat) (k : Cont)
  : M bool :=
  if Bool.eqb hit negative then assign saved ;! ret false
  else (if negative then assign saved else ret tt) ;! k pos.

(** [repeat] after its special cases: [body] matches the repeated node, [again]
    is the next repetition. *)
Definition repeat_general (body : Cont -> M bool) (again : Cont) (n : Node) (min : nat)
    (max : option nat) (greedy : bool) (count pos : nat) (k : Cont) : M bool :=
  step ;!
  if (count <? min)%nat then clear n ;! body again
  else
    let! stopped := (if greedy then ret false else k pos) in
    if stopped : bool then ret true
    else
      let! matched :=
        (if match max with Some max => (count <? max)%nat | None => true end then
           let! s := get in
           clear n ;!
           let! matched := body (fun next =>
             if (next =? pos)%nat then ret false else again next) in
           if matched then ret true else (assign (caps s) ;! ret false)
         else ret false) in
      if matched : bool then ret true
      else if greedy then k pos else ret false.

(** The body of [node_inner]; the recursive calls are arguments. *)
Definition node_body (node : Node -> nat -> Cont -> M bool) (sequence : list Node -> nat -> Cont -> M bool)
    (repeat : Node -> nat -> option nat -> bool -> nat -> nat -> Cont -> M bool)
    (n : Node) (pos : nat) (k : Cont) : M bool :=
  step ;!
  let! s := get in
  match n with
  | Modifiers add remove n =>
      let outer := modifiers s in
      let inner := modified outer add remove in
      with_modifiers inner ;!
      finally
        (node n pos (fun pos =>
           with_modifiers outer ;! finally (k pos) (fun s => set_modifiers s inner)))
        (fun s => set_modifiers s outer)
  | Concat items => sequence items pos k
  | Alt branches => alternatives (fun branch => node branch pos k) branches
  | Repeat n min max greedy => repeat n min max greedy 0%nat pos k
  | Group None n => node n pos k
  | Group (Some index) n =>
      let previous := mjoin (caps s !! index) in
      let! matched := node n pos (group_end index pos k) in
      group_exit index previous matched
  | Look ahead negative n =>
      let outer := forward s in
      with_forward ahead ;!
      let! hit := finally (node n pos (fun _ => ret true)) (fun s => set_forward s outer) in
      look_exit negative hit (caps s) pos k
  | _ => leaf n pos k
  end.

(** [node], [sequence] and [repeat]. *)
Fixpoint node (fuel : nat) (n : Node) (pos : nat) (k : Cont) {struct fuel} : M bool :=
  match fuel with
  | O => fail Fuel
  | S fuel =>
      enter ;! finally (node_body (node fuel) (sequence fuel) (repeat fuel) n pos k) leave
  end
with sequence (fuel : nat) (nodes : list Node) (pos : nat) (k : Cont) {struct fuel} : M bool :=
  match fuel with
  | O => fail Fuel
  | S fuel =>
      let! s := get in
      match split_sequence (forward s) nodes with
      | None => k pos
      | Some (head, rest) => node fuel head pos (fun pos => sequence fuel rest pos k)
      end
  end
with repeat (fuel : nat) (n : Node) (min : nat) (max : option nat) (greedy : bool) (count pos : nat)
    (k : Cont) {struct fuel} : M bool :=
  match fuel with
  | O => fail Fuel
  | S fuel =>
      match count, strip_groups n with
      | O, Class negated items => repeat_class negated items min max greedy pos k
      | O, NChar _ | O, AnyChar => repeat_atom (strip_groups n) min max greedy pos k
      | _, _ =>
          repeat_general (node fuel n pos)
            (fun next => repeat fuel n min max greedy (S count) next k)
            n min max greedy count pos k
      end
  end.

Lemma node_S fuel n pos k : node (S fuel) n pos k =
  (enter ;! finally (node_body (node fuel) (sequence fuel) (repeat fuel) n pos k) leave).
Proof. reflexivity. Qed.

End Matcher.

(** ** The search *)

Section Search.
Context `{UnicodeTables} (regex : Regex) (input : list Z).

Definition USIZE_MAX : Z := 2 ^ 64 - 1.
Definition budget_for (len : nat) : Z :=
  Z.min USIZE_MAX (MAX_STEPS + Z.min USIZE_MAX (Z.of_nat len * STEPS_PER_INPUT_UNIT)).

Definition flag_modifiers : Z :=
  Z.lor (Z.lor (Z.b2z (ignore_case regex)) (Z.shiftl (Z.b2z (multiline regex)) 1))
    (Z.shiftl (Z.b2z (dot_all regex)) 2).

(** Unicode matching starts at a code-point boundary. *)
Definition first_start (start : nat) : nat :=
  if unicode regex
     && match start with
        | S before =>
            match input !! before, input !! start with
            | Some h, Some l => high_surrogate h && low_surrogate l
            | _, _ => false
            end
        | O => false
        end
  then (start - 1)%nat else start.

(** Calls of [node], [sequence] and [repeat] nest at most this deep: see
    [RegexSafety.matcher_safe]. *)
Definition NODE_FUEL : nat := 1025.

Definition initial : Cells :=
  {| steps := 0; depth := 0; forward := true; modifiers := flag_modifiers; caps := [];
     found := None |}.

(** The continuation that ends a match. *)
Definition accept (pos : nat) : M bool :=
  update (fun s => set_found s (Some pos)) ;! ret true.

(** One turn of the loop of [find_at]. *)
Definition attempt (at_ : nat) : M bool :=
  update (fun s => set_found (set_caps s (List.repeat None (S (group_count regex)))) None) ;!
  node regex input (budget_for (length input)) NODE_FUEL (root regex) at_ accept.

Fixpoint find_loop (fuel : nat) (at_ : nat) : M (option (list (option (nat * nat)))) :=
  match fuel with
  | O => fail Fuel
  | S fuel =>
      let! matched := attempt at_ in
      if matched then
        let! s := get in
        put 0 (Some (at_, from_option id at_ (found s))) ;!
        let! s := get in ret (Some (caps s))
      else if sticky regex || (length input <=? at_)%nat then ret None
      else find_loop fuel (advance regex input at_)
  end.

Definition find_at (start : nat) : outcome MatchError (option (list (option (nat * nat)))) :=
  if (length input <? start)%nat then Ok None
  else (find_loop (S (S (length input))) (first_start start) initial).1.

End Search.
End RegexMatch.
