(* ===== verification/RegexSafety.v ===== *)
(** Every match of a well-formed pattern ends, without a panic, and stays inside
    its input: rules for the computations of the matcher, and what each loop and
    each node keeps. *)
From stdpp Require Import prelude list gmap.
From Stdlib Require Import ZArith Lia.
From S2P Require Import Prelude Regex RegexMatch.
Import Regex RegexMatch.
Local Open Scope Z_scope.
Local Open Scope regex_scope.

Module RegexSafety.

(** ** Rules for computations *)

(** What holds of a computation that ends in a value.  A strict computation
    neither panics nor runs out of fuel; the errors of the budgets are always
    allowed. *)
Definition runs (strict : bool) {A} (m : M A) (Q : A -> Cells -> Prop) (s : Cells) : Prop :=
  match m s with
  | (Ok x, s') => Q x s'
  | (Err Fuel, _) | (Panic, _) => strict = false
  | (Err _, _) => True
  end.

Section Rules.
Context (strict : bool).

Lemma runs_mono {A} (m : M A) (Q Q' : A -> Cells -> Prop) s :
  runs strict m Q s -> (forall x s', Q x s' -> Q' x s') -> runs strict m Q' s.
Proof. unfold runs. destruct (m s) as [[?|[]|] ?]; eauto. Qed.

Lemma runs_bind {A B} (m : M A) (k : A -> M B) Q s :
  runs strict m (fun x s' => runs strict (k x) Q s') s -> runs strict (bind m k) Q s.
Proof. unfold runs, bind. destruct (m s) as [[?|[]|] ?]; eauto. Qed.

Lemma runs_ret {A} (x : A) (Q : A -> Cells -> Prop) s : Q x s -> runs strict (ret x) Q s.
Proof. done. Qed.

Lemma runs_get (Q : Cells -> Cells -> Prop) s : Q s s -> runs strict get Q s.
Proof. done. Qed.

Lemma runs_update f (Q : unit -> Cells -> Prop) s : Q tt (f s) -> runs strict (update f) Q s.
Proof. done. Qed.

Lemma runs_finally {A} (m : M A) f Q s :
  runs strict m (fun x s' => Q x (f s')) s -> runs strict (finally m f) Q s.
Proof. unfold runs, finally. destruct (m s) as [[?|[]|] ?]; eauto. Qed.

Lemma runs_step budget (Q : unit -> Cells -> Prop) s :
  (steps s + 1 <= budget -> Q tt (set_steps s (steps s + 1))) -> runs strict (step budget) Q s.
Proof.
  intros HQ. unfold runs, step, bind, update, get, fail, ret. simpl.
  destruct (budget <? steps s + 1) eqn:E; [done|]. apply HQ. apply Z.ltb_ge in E. lia.
Qed.

Lemma runs_enter (Q : unit -> Cells -> Prop) s :
  (depth s < MAX_DEPTH -> Q tt (set_depth s (depth s + 1))) -> runs strict enter Q s.
Proof.
  intros HQ. unfold runs, enter, bind, update, get, fail. 
  destruct (MAX_DEPTH <=? depth s) eqn:E; [done|]. apply HQ. apply Z.leb_gt in E. lia.
Qed.

Lemma runs_assign l (Q : unit -> Cells -> Prop) s : Q tt (set_caps s l) -> runs strict (assign l) Q s.
Proof. done. Qed.

Lemma runs_restore l (Q : unit -> Cells -> Prop) s :
  length l = length (caps s) -> Q tt (set_caps s l) -> runs strict (restore l) Q s.
Proof. intros E HQ. unfold restore, runs, bind, get. by rewrite E, Nat.eqb_refl. Qed.

Lemma runs_put i x (Q : unit -> Cells -> Prop) s :
  (i < length (caps s))%nat -> Q tt (set_caps s (<[i := x]> (caps s))) -> runs strict (put i x) Q s.
Proof.
  intros Hi HQ. unfold put, runs, bind, get. by apply Nat.ltb_lt in Hi as ->.
Qed.

Lemma runs_clear n l (Q : unit -> Cells -> Prop) s :
  clear_captures n (caps s) = Some l -> Q tt (set_caps s l) -> runs strict (clear n) Q s.
Proof. intros E HQ. unfold clear, runs, bind, get. by rewrite E. Qed.

End Rules.

(** One rule of the computation in front. *)
Ltac rule :=
  match goal with
  | |- runs _ (bind _ _) _ _ => apply runs_bind
  | |- runs _ (ret _) _ _ => apply runs_ret
  | |- runs _ get _ _ => apply runs_get
  | |- runs _ (update _) _ _ => apply runs_update
  | |- runs _ (assign _) _ _ => apply runs_assign
  | |- runs _ (finally _ _) _ _ => apply runs_finally
  end.
Ltac rules := repeat (rule; cbv beta).

(** Induction on patterns, through their lists. *)
Lemma node_induction (P : Node -> Prop) :
  P Empty -> (forall c, P (NChar c)) -> P AnyChar -> (forall b l, P (Class b l)) ->
  (forall l, Forall P l -> P (Concat l)) -> (forall l, Forall P l -> P (Alt l)) ->
  (forall n a b g, P n -> P (Repeat n a b g)) -> (forall i n, P n -> P (Group i n)) ->
  (forall a r n, P n -> P (Modifiers a r n)) -> (forall i, P (Backref i)) ->
  (forall x, P (NamedBackref x)) -> (forall a, P (NAnchor a)) ->
  (forall a b n, P n -> P (Look a b n)) -> forall n, P n.
Proof.
  intros H1 H2 H3 H4 H5 H6 H7 H8 H9 H10 H11 H12 H13. fix IH 1. intros n.
  assert (forall l : list Node, Forall P l) as HL
    by (fix go 1; intros [|x l]; constructor; [apply IH|apply go]).
  destruct n; [apply H1|apply H2|apply H3|apply H4|apply H5, HL|apply H6, HL|apply H7, IH
    |apply H8, IH|apply H9, IH|apply H10|apply H11|apply H12|apply H13, IH].
Qed.

(** ** Well-formed patterns *)

(** The groups of a pattern have their slot in the captures. *)
Fixpoint groups_below (g : nat) (n : Node) : bool :=
  match n with
  | Group index n =>
      match index with Some i => (i <? g)%nat | None => true end && groups_below g n
  | Concat l | Alt l => forallb (groups_below g) l
  | Repeat n _ _ _ | Look _ _ n | Modifiers _ _ n => groups_below g n
  | _ => true
  end.

Definition cap_in (len : nat) (c : option (nat * nat)) : Prop :=
  match c with Some (a, b) => (a <= b <= len)%nat | None => True end.

Lemma clear_captures_ok len n : forall l, groups_below (length l) n = true -> Forall (cap_in len) l ->
  exists l', clear_captures n l = Some l' /\ length l' = length l /\ Forall (cap_in len) l'.
Proof.
  assert (forall l : list Node,
    Forall (fun n => forall c, groups_below (length c) n = true -> Forall (cap_in len) c ->
      exists c', clear_captures n c = Some c' /\ length c' = length c /\ Forall (cap_in len) c') l ->
    forall c, forallb (groups_below (length c)) l = true -> Forall (cap_in len) c ->
      exists c', (fix go (l : list Node) (caps : list (option (nat * nat))) :=
         match l with [] => Some caps | n :: l => caps ← clear_captures n caps; go l caps end) l c
         = Some c' /\ length c' = length c /\ Forall (cap_in len) c') as HL.
  { induction 1 as [|x l Hx _ IH]; intros c Hg Hc; [eauto|].
    simpl in Hg. apply andb_prop in Hg as [Hg1 Hg2].
    destruct (Hx c Hg1 Hc) as (c1 & -> & L1 & F1). simpl.
    rewrite <- L1 in Hg2. destruct (IH c1 Hg2 F1) as (c2 & -> & L2 & F2). eauto with congruence. }
  induction n using node_induction; intros cs Hg Hc; simpl in *; eauto.
  destruct i as [i|]; [|eauto].
  apply andb_prop in Hg as [Hi Hg]. rewrite Hi.
  destruct (IHn (<[i := None]> cs)) as (c' & -> & L & F).
  { by rewrite length_insert. } { by apply Forall_insert. }
  rewrite length_insert in L. eauto.
Qed.

(** ** Positions *)

(** A UTF-16 unit. *)
Definition is_unit : Z -> Prop := uint 16.

Section Positions.
Context `{UnicodeTables} (regex : Regex) (input : list Z) (Hunits : Forall is_unit input).

Lemma scalar_some pos : (pos < length input)%nat -> is_Some (scalar regex input pos).
Proof.
  intros Hp. apply lookup_lt_is_Some in Hp as [u E]. unfold scalar. rewrite E. simpl.
  destruct (_ && _); [|eauto].
  destruct (input !! (pos + 1)%nat) as [l|]; [destruct (low_surrogate l)|]; eauto.
Qed.

Lemma scalar_width pos c : scalar regex input pos = Some c ->
  (pos < pos + width c <= length input)%nat.
Proof.
  unfold scalar. destruct (input !! pos) as [u|] eqn:E; [|done]. simpl.
  pose proof (Forall_lookup_1 _ _ _ _ Hunits E) as Hu. unfold is_unit, uint in Hu.
  change (2 ^ 16) with 65536 in Hu.
  pose proof (lookup_lt_Some _ _ _ E) as Hl.
  assert (forall v, Some u = Some v -> (pos < pos + width v <= length input)%nat) as Hone.
  { intros v [= <-]. unfold width. destruct (65535 <? u) eqn:F; [apply Z.ltb_lt in F|]; lia. }
  destruct (_ && _); [|apply Hone]. destruct (input !! (pos + 1)%nat) as [l|] eqn:E2; [|apply Hone].
  apply lookup_lt_Some in E2.
  destruct (low_surrogate l); [|apply Hone]. intros _. unfold width. destruct (65535 <? c); lia.
Qed.

Lemma character_bounds fwd pos c e : (pos <= length input)%nat ->
  character regex input fwd pos = Some (c, e) ->
  (if fwd then pos < e <= length input else e < pos)%nat.
Proof.
  intros Hp. unfold character. destruct fwd.
  - destruct (scalar _ _ _) eqn:E; [|done]. simpl. intros [= <- <-]. by eapply scalar_width.
  - destruct pos as [|start]; [done|]. destruct (input !! start); [|done]. cbn [mbind option_bind].
    destruct (match start with S _ => _ | O => _ end) as [|st] eqn:E;
      (destruct (scalar _ _ _); [|done]); intros [= <- <-].
    + lia.
    + destruct start as [|b]; [lia|]. destruct (_ && _) in E; lia.
Qed.

(** Positions inside the input, from another on in the direction of a match. *)
Definition reach (fwd : bool) (lo p : nat) : Prop :=
  (p <= length input /\ if fwd then lo <= p else p <= lo)%nat.

Lemma reach_refl fwd p : (p <= length input)%nat -> reach fwd p p.
Proof. destruct fwd; by split. Qed.

Lemma reach_trans fwd a b c : reach fwd a b -> reach fwd b c -> reach fwd a c.
Proof. unfold reach. destruct fwd; lia. Qed.

Lemma reach_in fwd a b : reach fwd a b -> (b <= length input)%nat.
Proof. by intros []. Qed.

Lemma character_in fwd pos c e : (pos <= length input)%nat ->
  character regex input fwd pos = Some (c, e) -> reach fwd pos e.
Proof. intros Hp E. apply character_bounds in E; [|done]. unfold reach. destruct fwd; lia. Qed.

(** Every list of ends stays inside the input. *)
Definition ends_in (fwd : bool) (pos : nat) (l : list nat) : Prop := Forall (reach fwd pos) l.

Lemma scalar_end_in m fwd items pos : (pos <= length input)%nat ->
  ends_in fwd pos (scalar_end regex input m fwd items pos).
Proof.
  intros Hp. unfold scalar_end. destruct (character _ _ _ _) as [[c e]|] eqn:E; [|constructor].
  destruct (union_matches _ _ _ _); [|constructor]. constructor; [|done]. by eapply character_in.
Qed.

Lemma merge_ends_in fwd pos a : forall b,
  Forall (fun p => reach fwd pos p.2) a -> Forall (fun p => reach fwd pos p.2) b ->
  ends_in fwd pos (merge_ends a b).
Proof.
  assert (forall a : list (nat * nat), Forall (fun p => reach fwd pos p.2) a ->
    ends_in fwd pos (map snd a)) as Hm by (induction 1; by constructor).
  induction a as [|[si se] a IHa]; intros b Ha.
  - induction 1 as [|[li le] b Hb _ IH]; [constructor|]. simpl. by constructor.
  - induction 1 as [|[li le] b Hb Hbs IH]; [by apply (Hm ((si, se) :: a))|].
    inversion_clear Ha. simpl. destruct (si <=? li)%nat; constructor; try done.
    apply IHa; [done|by constructor].
Qed.

Lemma string_at_in m a pos : (pos <= length input)%nat -> string_at regex input m a pos = true ->
  (pos + length a <= length input)%nat.
Proof.
  intros Hp. destruct a; [simpl; lia|]. unfold string_at.
  destruct (_ <? _)%nat eqn:E; [done|]. apply Nat.ltb_ge in E. done.
Qed.

Lemma omap_in {A} fwd pos (f : A -> option nat) l :
  (forall x e, f x = Some e -> reach fwd pos e) -> ends_in fwd pos (omap f l).
Proof.
  intros Hf. induction l as [|x l IH]; [constructor|]. simpl.
  destruct (f x) eqn:E; [constructor; eauto|done].
Qed.

Lemma strings_ends_in m fwd strings pos : (pos <= length input)%nat ->
  ends_in fwd pos (strings_ends regex input m fwd strings pos).
Proof.
  intros Hp.
  assert (ends_in fwd pos (omap (fun a =>
        if fwd then if string_at regex input m a pos then Some (pos + length a)%nat else None
        else if (pos <? length a)%nat then None
        else if string_at regex input m a (pos - length a) then Some (pos - length a)%nat else None)
        (alts strings))) as Hall.
  { apply omap_in. intros a e. destruct fwd.
    - destruct (string_at _ _ _ _ _) eqn:E; [|done]. intros [= <-].
      apply string_at_in in E; [|done]. unfold reach. lia.
    - destruct (_ <? _)%nat; [done|]. destruct (string_at _ _ _ _ _); [|done]. intros [= <-].
      unfold reach. lia. }
  unfold strings_ends. destruct (input !! pos) as [u|] eqn:Eu; [|done].
  destruct fwd; simpl; [|done]. destruct (negb (folding m)); [|done]. apply lookup_lt_Some in Eu.
  apply Forall_app; split; [|destruct (alts_has_empty _); [repeat constructor; lia|constructor]].
  apply merge_ends_in.
  - apply Forall_map, Forall_true. unfold reach. simpl. lia.
  - destruct (input !! (pos + 1)%nat); [|constructor]. destruct (candidates _ _ _) as [l|]; [|constructor].
    induction l as [|i l IH]; [constructor|]. simpl.
    destruct (alts strings !! i) as [a|]; simpl; [|done].
    destruct (string_at _ _ _ _ _) eqn:E; simpl; [|done]. constructor; [|done].
    apply string_at_in in E; [|done]. unfold reach. simpl. lia.
Qed.

Lemma filter_in fwd pos (f : nat -> bool) l : ends_in fwd pos l -> ends_in fwd pos (List.filter f l).
Proof. induction 1; simpl; [constructor|]. destruct (f _); [by constructor|done]. Qed.

Lemma class_item_induction (P : ClassItem -> Prop) :
  (forall c, P (Char c)) -> (forall a b, P (Range a b)) -> (forall k n, P (ShorthandItem k n)) ->
  (forall s r f g n, P (UnicodeProperty s r f g n)) -> (forall n l, Forall P l -> P (Nested n l)) ->
  (forall s, P (Strings s)) -> (forall l, Forall (Forall P) l -> P (Conjoin l)) ->
  (forall l r, Forall P l -> Forall P r -> P (Except l r)) -> forall i, P i.
Proof.
  intros H1 H2 H3 H4 H5 H6 H7 H8. fix IH 1. intros i.
  assert (forall l : list ClassItem, Forall P l) as HL
    by (fix go 1; intros [|x l]; constructor; [apply IH|apply go]).
  assert (forall l : list (list ClassItem), Forall (Forall P) l) as HLL
    by (fix go 1; intros [|x l]; constructor; [apply HL|apply go]).
  destruct i; [apply H1|apply H2|apply H3|apply H4|apply H5, HL|apply H6|apply H7, HLL
    |apply H8; apply HL].
Qed.

Lemma flat_map_in {A} fwd pos (f : A -> list nat) l :
  Forall (fun x => ends_in fwd pos (f x)) l -> ends_in fwd pos (flat_map f l).
Proof. induction 1; simpl; [constructor|]. by apply Forall_app. Qed.

Lemma item_ends_in m fwd pos item : (pos <= length input)%nat ->
  ends_in fwd pos (item_ends regex input m fwd pos item).
Proof.
  intros Hp.
  assert (forall l, Forall (fun i => ends_in fwd pos (item_ends regex input m fwd pos i)) l ->
    ends_in fwd pos (flat_map (item_ends regex input m fwd pos) l ++ scalar_end regex input m fwd l pos)) as HU.
  { intros l Hl. apply Forall_app; split; [by apply flat_map_in|by apply scalar_end_in]. }
  induction item using class_item_induction; try by constructor.
  - simpl. destruct n; [|by apply HU]. destruct (_ ++ _); [|constructor].
    destruct (character _ _ _ _) as [[c e]|] eqn:E; [|constructor]. constructor; [|done].
    by eapply character_in.
  - by apply strings_ends_in.
  - simpl. destruct l as [|u l]; [constructor|]. simpl. inversion_clear H0.
    generalize (HU u H1). generalize (flat_map (item_ends regex input m fwd pos) u
      ++ scalar_end regex input m fwd u pos).
    clear -H2. induction l as [|v l IH]; intros kept Hk; simpl; [done|].
    inversion_clear H2. apply IH; [done|]. by apply filter_in.
  - simpl. apply filter_in. by apply HU.
Qed.

Lemma union_ends_in m fwd items pos : (pos <= length input)%nat ->
  ends_in fwd pos (union_ends regex input m fwd items pos).
Proof.
  intros Hp. apply Forall_app; split; [|by apply scalar_end_in].
  apply flat_map_in, Forall_forall. intros. by apply item_ends_in.
Qed.

Lemma dedup_perm l : forall e, e ∈ dedup l -> e ∈ l.
Proof.
  unfold dedup. intros e He.
  assert (forall kept, e ∈ fold_left (fun kept e => if mem_nat e kept then kept else kept ++ [e]) l kept ->
    e ∈ kept \/ e ∈ l) as Hg.
  { clear He. induction l as [|x l IH]; intros kept; simpl; [by left|]. intros Hin.
    apply IH in Hin as [Hin|Hin]; [|set_solver].
    destruct (mem_nat x kept); set_solver. }
  apply Hg in He as [He|He]; [set_solver|done].
Qed.

Lemma insert_far_perm pos e l : insert_far pos e l ≡ₚ e :: l.
Proof.
  induction l as [|x l IH]; [done|]. simpl. destruct (_ <? _)%nat; [done|].
  rewrite IH. apply Permutation_swap.
Qed.

Lemma sort_far_perm pos l : sort_far pos l ≡ₚ l.
Proof. induction l as [|x l IH]; [done|]. simpl. by rewrite insert_far_perm, IH. Qed.

Lemma class_ends_in m fwd neg items pos : (pos <= length input)%nat ->
  ends_in fwd pos (class_ends regex input m fwd neg items pos).
Proof.
  intros Hp. unfold class_ends. destruct neg.
  - destruct (character _ _ _ _) as [[c e]|] eqn:E; [|constructor].
    destruct (union_matches _ _ _ _); [constructor|]. constructor; [|done]. by eapply character_in.
  - unfold ends_in. rewrite sort_far_perm. apply Forall_forall. intros e He. apply dedup_perm in He.
    pose proof (union_ends_in m fwd items pos Hp) as HF. unfold ends_in in HF.
    rewrite Forall_forall in HF. by apply HF.
Qed.

End Positions.

(** ** What a match keeps *)

Section Safety.
Context `{UnicodeTables} (regex : Regex) (input : list Z) (budget : Z).
Context (Hunits : Forall is_unit input).
(** What the last continuation promises of the end it writes. *)
Context (P : nat -> Prop).

(** The captures have a slot for each group and lie in the input. *)
Definition good (s : Cells) : Prop :=
  length (caps s) = S (group_count regex) /\ Forall (cap_in (length input)) (caps s)
  /\ depth s <= MAX_DEPTH /\ (forall e, found s = Some e -> P e).

(** What a call keeps of the cells. *)
Definition keeps (s s' : Cells) : Prop :=
  good s' /\ depth s' = depth s /\ steps s <= steps s' /\ forward s' = forward s
  /\ modifiers s' = modifiers s.

Definition keeping {A} (m : M A) (s : Cells) : Prop := runs true m (fun _ s' => keeps s s') s.

(** A continuation is safe when it is called at least as deep as [d], from [lo] on. *)
Definition safe (d : Z) (fwd : bool) (m : Z) (lo : nat) (k : nat -> M bool) : Prop :=
  forall p s, reach input fwd lo p -> good s -> d <= depth s -> forward s = fwd ->
    modifiers s = m -> keeping (k p) s.

(** Safe in a state: for calls from there on, [by_] frames deeper. *)
Definition safe_from (s : Cells) (by_ : Z) (lo : nat) (k : nat -> M bool) : Prop :=
  safe (depth s + by_) (forward s) (modifiers s) lo k.

Lemma keeps_refl s : good s -> keeps s s.
Proof. unfold keeps. intuition lia. Qed.

Lemma keeps_trans a b c : keeps a b -> keeps b c -> keeps a c.
Proof. unfold keeps. intuition (congruence || lia). Qed.

Lemma safe_at s s' by_ lo k p : safe_from s by_ lo k -> keeps s s' -> by_ <= 0 ->
  reach input (forward s) lo p -> keeping (k p) s'.
Proof.
  intros Hk (Hg & Hd & _ & Hf & Hm) Hby Hp. apply Hk; try done. lia.
Qed.

Lemma keeps_caps s s' l : keeps s s' -> length l = S (group_count regex) ->
  Forall (cap_in (length input)) l -> keeps s (set_caps s' l).
Proof. unfold keeps, good. simpl. intuition. Qed.

Lemma keeps_steps s s' : keeps s s' -> keeps s (set_steps s' (steps s' + 1)).
Proof. unfold keeps, good. simpl. intuition lia. Qed.

Lemma keeps_good s s' : keeps s s' -> good s'.
Proof. by intros []. Qed.

Lemma good_len s : good s -> length (caps s) = S (group_count regex).
Proof. by intros []. Qed.
Lemma good_caps s : good s -> Forall (cap_in (length input)) (caps s).
Proof. by intros (_ & ? & _). Qed.

Create HintDb matcher.
Hint Resolve keeps_refl keeps_caps keeps_steps good_len good_caps keeps_good keeps_trans : matcher.

(** A call of the continuation, and then the rest. *)
Lemma keep_call {A} (m : M A) s s' (Q : A -> Cells -> Prop) :
  keeps s s' -> keeping m s' -> (forall x s2, keeps s s2 -> keeps s' s2 -> Q x s2) -> runs true m Q s'.
Proof.
  intros H1 H2 HQ. eapply runs_mono; [exact H2|]. intros x s2 H3. apply HQ; [|done].
  by eapply keeps_trans.
Qed.

Lemma keep_restore s s' l (Q : unit -> Cells -> Prop) : keeps s s' -> length l = S (group_count regex) ->
  Forall (cap_in (length input)) l -> (forall s2, keeps s s2 -> steps s' <= steps s2 -> Q tt s2) ->
  runs true (restore l) Q s'.
Proof.
  intros H1 Hl Hc HQ. apply runs_restore.
  - apply keeps_good, good_len in H1. congruence.
  - apply HQ; [by apply keeps_caps|done].
Qed.

Lemma try_ends_safe s ends lo k : good s -> safe_from s 0 lo k -> ends_in input (forward s) lo ends ->
  keeping (try_ends ends k) s.
Proof.
  intros Hg Hk He. unfold keeping. pose proof (keeps_refl _ Hg) as H0. revert H0.
  generalize s at 2 4 as s'. unfold ends_in in He. induction He as [|e l He _ IH]; intros s' H0; simpl; rules; [done|].
  eapply keep_call; [done| by eapply safe_at |]. intros [] s2 H2 _; rules; [done|]. by apply IH.
Qed.

Lemma try_positions_safe s saved ps lo k : safe_from s 0 lo k ->
  length saved = S (group_count regex) -> Forall (cap_in (length input)) saved ->
  ends_in input (forward s) lo ps -> forall s', keeps s s' ->
  runs true (try_positions budget saved ps k) (fun _ s2 => keeps s s2) s'.
Proof.
  intros Hk Hl Hc. induction 1 as [|e l He _ IH]; intros s' H0; simpl; rules; [done|].
  apply runs_step. intros _. rules. eapply keep_call; [by apply keeps_steps|eapply safe_at; eauto with matcher lia|].
  intros [] s2 H2 _; rules; [done|]. eapply keep_restore; try done. intros s3 H3 _. by apply IH.
Qed.

(** Units left in the direction of the match. *)
Definition room (fwd : bool) (pos : nat) : nat := if fwd then length input - pos else pos.

Lemma atom_loop_safe s atom min max greedy saved lo k : safe_from s 0 lo k ->
  length saved = S (group_count regex) -> Forall (cap_in (length input)) saved ->
  forall fuel pos count positions s', keeps s s' -> reach input (forward s) lo pos ->
    ends_in input (forward s) lo positions -> (room (forward s) pos < fuel)%nat ->
    runs true (atom_loop regex input budget fuel atom min max greedy saved k pos count positions)
      (fun r s2 => keeps s s2
        /\ match r with Some (_, ps) => ends_in input (forward s) lo ps | None => True end) s'.
Proof.
  intros Hk Hl Hc. induction fuel as [|fuel IH]; intros pos count ps s' H0 Hp Hps Hf; [lia|].
  simpl. rules. apply runs_step. intros _. rules.
  apply runs_mono with (Q := fun _ s2 => keeps s s2).
  { destruct (negb greedy && _); rules; [|by apply keeps_steps].
    eapply keep_call; [by apply keeps_steps|eapply safe_at; eauto with matcher lia|].
    intros [] s2 H2 _; rules; [done|]. eapply keep_restore; eauto. }
  intros [] s2 H2; rules; [done|]. destruct (match max with Some _ => _ | None => _ end); rules; [done|].
  destruct H2 as (Hg & Hd & Hs & Hfw & Hm). rewrite Hfw.
  destruct (character regex input (forward s) pos) as [[c e]|] eqn:E; [|by rules].
  destruct (atom_matches _ _ _ _); [|by rules].
  pose proof (character_bounds _ _ Hunits _ _ _ _ (reach_in _ _ _ _ Hp) E) as Hb.
  pose proof (reach_trans _ _ _ _ _ Hp (character_in _ _ Hunits _ _ _ _ (reach_in _ _ _ _ Hp) E)) as He.
  apply IH; [done..| |unfold room in *; destruct (forward s); lia].
  destruct greedy; [|done]. apply Forall_app; split; [done|]. by constructor.
Qed.

Lemma repeat_atom_safe s atom min max greedy pos k : good s -> safe_from s 0 pos k ->
  (pos <= length input)%nat -> keeping (repeat_atom regex input budget atom min max greedy pos k) s.
Proof.
  intros Hg Hk Hp. unfold keeping, repeat_atom. rules. eapply runs_mono.
  - pose proof (reach_refl _ (forward s) _ Hp).
    apply (atom_loop_safe s) with (lo := pos); eauto with matcher; [by constructor|].
    unfold room. destruct (forward s); lia.
  - intros [[count ps]|] s2 [H2 Hps]; [|by rules]. destruct (greedy && _); [|by rules].
    apply try_positions_safe with (lo := pos); eauto with matcher. by apply Forall_rev, Forall_drop.
Qed.

(** *** Classes *)

Lemma scalar_run_in m fwd neg items max lo : forall fuel current ends, reach input fwd lo current ->
  ends_in input fwd lo ends -> ends_in input fwd lo (scalar_run regex input fuel m fwd neg items max current ends).
Proof.
  induction fuel as [|fuel IH]; intros current ends Hc He; simpl; [done|].
  destruct (match max with Some _ => _ | None => _ end); [done|].
  destruct (character _ _ _ _) as [[c e]|] eqn:E; [|done]. destruct (class_matches _ _ _ _ _); [|done].
  apply character_in in E; [|done|by eapply reach_in]. pose proof (reach_trans _ _ _ _ _ Hc E).
  apply IH; [done|]. apply Forall_app; split; [done|]. by constructor.
Qed.

(** A frame's position and the ends it has left. *)
Definition frame_in (fwd : bool) (lo : nat) (f : Frame) : Prop :=
  reach input fwd lo (fpos f) /\ ends_in input fwd lo (fends f).

Lemma make_frame_in m fwd neg items max lo pos count : reach input fwd lo pos ->
  frame_in fwd lo (make_frame regex input m fwd neg items max pos count).
Proof.
  intros Hp. split; [done|]. simpl. destruct (match max with Some _ => _ | None => _ end); [|constructor].
  eapply Forall_impl; [by eapply class_ends_in, reach_in|]. intros. by eapply reach_trans.
Qed.

Lemma try_stop_safe s saved lo k min now f : safe_from s 0 lo k ->
  length saved = S (group_count regex) -> Forall (cap_in (length input)) saved ->
  frame_in (forward s) lo f ->
  forall s', keeps s s' ->
  runs true (try_stop saved k min now f)
    (fun r s2 => keeps s s2 /\ steps s' <= steps s2
      /\ match r with Some f => frame_in (forward s) lo f | None => True end) s'.
Proof.
  intros Hk Hl Hc Hf s' H0. unfold try_stop. destruct (_ && _); rules; [|by split_and!].
  eapply keep_call; [done|eapply safe_at; eauto; [lia|apply Hf]|].
  intros [] s2 H2 (_ & _ & ? & _); rules; [by split_and!|].
  eapply keep_restore; eauto. intros s3 H3 ?. rules. split_and!; [done|lia|done].
Qed.

Lemma class_loop_safe s neg items min max greedy saved lo k : safe_from s 0 lo k ->
  length saved = S (group_count regex) -> Forall (cap_in (length input)) saved ->
  forall fuel failed stack s', keeps s s' -> Forall (frame_in (forward s) lo) stack -> (0 < fuel)%nat ->
    budget - steps s' + 1 <= Z.of_nat fuel ->
    runs true (class_loop regex input budget fuel neg items min max greedy saved k failed stack)
      (fun _ s2 => keeps s s2) s'.
Proof.
  intros Hk Hl Hc. induction fuel as [|fuel IH]; intros failed stack s' H0 Hst Hpos Hfuel; [lia|].
  destruct stack as [|f rest]; simpl; rules; [done|]. apply runs_step. intros Hb. rules.
  inversion_clear Hst as [|?? Hf Hrest].
  eapply runs_mono; [apply (try_stop_safe s); eauto with matcher|].
  intros [f1|] s2 (H2 & Hs2 & Hf1); [|by rules]. simpl in Hs2. destruct Hf1 as [Hp He].
  destruct (fends f1) as [|next ends] eqn:E.
  - rules. eapply runs_mono; [apply (try_stop_safe s); eauto with matcher; split; [done|by rewrite E]|].
    intros [f2|] s3 (H3 & Hs3 & Hf2); [|by rules]. apply IH; [done..|lia|lia].
  - inversion_clear He as [|?? Hn He'].
    assert (frame_in (forward s) lo {| fpos := fpos f1; fcount := fcount f1; fends := ends; tried_stop := tried_stop f1 |})
      by done.
    destruct (_ && _); [apply IH; [done|by constructor|lia..]|]. case_bool_decide;
      [apply IH; [done|by constructor|lia..]|]. rules.
    apply IH; [done| |lia..]. destruct H2 as (_ & _ & _ & -> & _).
    constructor; [by apply make_frame_in|by constructor].
Qed.

Lemma repeat_class_safe s neg items min max greedy pos k : good s -> safe_from s 0 pos k ->
  (pos <= length input)%nat -> keeping (repeat_class regex input budget neg items min max greedy pos k) s.
Proof.
  intros Hg Hk Hp. unfold keeping, repeat_class. rules. pose proof (reach_refl _ (forward s) _ Hp).
  destruct (scalar_only items).
  - apply try_ends_safe with (lo := pos); [done..|].
    assert (ends_in input (forward s) pos (drop min (scalar_run regex input (S (length input)) (modifiers s) (forward s)
      neg items max pos [pos]))) by (apply Forall_drop, scalar_run_in; [done|by constructor]).
    destruct greedy; [by apply Forall_rev|done].
  - eapply class_loop_safe; eauto with matcher; [|lia..].
    constructor; [by apply make_frame_in|done].
Qed.

(** *** Leaves *)

Lemma same_text_some m begin start len : (begin + len <= length input)%nat ->
  (start + len <= length input)%nat ->
  forall fuel offset, is_Some (same_text regex input fuel m begin start len offset).
Proof.
  intros Hb Hs. induction fuel as [|fuel IH]; intros offset; simpl; [eauto|].
  destruct (offset <? len)%nat eqn:E; [|eauto]. apply Nat.ltb_lt in E.
  destruct (scalar_some regex input (begin + offset)) as [a ->]; [lia|].
  destruct (scalar_some regex input (start + offset)) as [b ->]; [lia|].
  destruct (same_char _ _ _ _); eauto.
Qed.

Lemma backreference_safe s index pos k : good s -> safe_from s 0 pos k -> (pos <= length input)%nat ->
  keeping (backreference regex input index pos k) s.
Proof.
  intros Hg Hk Hp. unfold keeping, backreference. rules.
  assert (forall p, reach input (forward s) pos p -> keeping (k p) s) as Hcall
    by (intros; eapply safe_at; eauto with matcher lia).
  pose proof (reach_refl _ (forward s) _ Hp).
  destruct (caps s !! index) as [[[a b]|]|] eqn:E; [|by apply Hcall..].
  pose proof (Forall_lookup_1 _ _ _ _ (good_caps _ Hg) E) as [Hab Hbl].
  destruct (b <? a)%nat eqn:F; [apply Nat.ltb_lt in F; lia|].
  destruct (negb (forward s) && _); [by apply runs_ret, keeps_refl|].
  destruct (length input <? _)%nat eqn:G; [by apply runs_ret, keeps_refl|]. apply Nat.ltb_ge in G.
  destruct (unicode regex && _); [by apply runs_ret, keeps_refl|].
  destruct (same_text_some (modifiers s) (if forward s then pos else (pos - (b - a))%nat) a (b - a)%nat
    G ltac:(lia) (b - a)%nat 0) as [[] ->]; [|by apply runs_ret, keeps_refl].
  apply Hcall. unfold reach. destruct (forward s); lia.
Qed.

Lemma anchor_holds_ok m anchor pos : (pos <= length input)%nat ->
  exists b, anchor_holds regex input m anchor pos = Ok b.
Proof.
  intros Hp. destruct anchor; simpl; [destruct pos as [|p]| | |]; eauto.
  - destruct (bit 2 m); [|eauto]. destruct (lookup_lt_is_Some_2 input p) as [u ->]; [lia|eauto].
  - destruct (pos =? length input)%nat eqn:E; [eauto|]. apply Nat.eqb_neq in E.
    destruct (bit 2 m); [|eauto]. destruct (lookup_lt_is_Some_2 input pos) as [u ->]; [lia|eauto].
Qed.

Lemma leaf_safe s n pos k : good s -> safe_from s 0 pos k -> (pos <= length input)%nat ->
  keeping (leaf regex input n pos k) s.
Proof.
  intros Hg Hk Hp. unfold keeping, leaf. rules.
  assert (forall p, reach input (forward s) pos p -> keeping (k p) s) as Hcall
    by (intros; eapply safe_at; eauto with matcher lia).
  pose proof (reach_refl _ (forward s) _ Hp).
  destruct n; try by apply Hcall.
  - destruct (character _ _ _ _) as [[c' e]|] eqn:E; [|by apply runs_ret, keeps_refl].
    destruct (same_char _ _ _ _); [|by apply runs_ret, keeps_refl]. by eapply Hcall, character_in.
  - destruct (character _ _ _ _) as [[c' e]|] eqn:E; [|by apply runs_ret, keeps_refl].
    destruct (_ || _); [|by apply runs_ret, keeps_refl]. by eapply Hcall, character_in.
  - apply try_ends_safe with (lo := pos); [done..|]. by apply class_ends_in.
  - by apply backreference_safe.
  - destruct (names regex !! name ≫= _); [by apply backreference_safe|by apply Hcall].
  - destruct (anchor_holds_ok (modifiers s) anchor pos Hp) as [[] ->];
      [by apply Hcall|by apply runs_ret, keeps_refl].
Qed.

(** *** Nodes *)

Lemma safe_deeper d d' fwd m lo lo' k : safe d fwd m lo k -> d <= d' -> reach input fwd lo lo' ->
  safe d' fwd m lo' k.
Proof. intros Hk Hd Hlo p s Hp Hg Hs. apply Hk; [by eapply reach_trans|done|lia]. Qed.

(** A group's continuation writes its slot and takes it back on failure. *)
Lemma group_end_safe d fwd m lo index start k : safe d fwd m lo k ->
  (index < S (group_count regex))%nat -> (start <= length input)%nat ->
  safe d fwd m lo (group_end index start k).
Proof.
  intros Hk Hi Hst p s Hp Hg Hd Hf Hm. unfold keeping, group_end. rules.
  pose proof (good_len _ Hg) as HL.
  destruct (lookup_lt_is_Some_2 (caps s) index) as [before Hb]; [lia|]. rewrite Hb. rules.
  apply runs_put; [lia|].
  assert (keeps s (set_caps s (<[index := Some (Nat.min start p, Nat.max start p)]> (caps s)))) as H1.
  { apply keeps_caps; [by apply keeps_refl|by rewrite length_insert|].
    apply Forall_insert; [by apply good_caps|]. apply reach_in in Hp. simpl. lia. }
  rules. eapply keep_call; [exact H1|apply Hk; [done|apply H1|simpl; try done; lia..]|].
  intros [] s2 H2 _; rules; [done|].
  apply runs_put; [rewrite (good_len s2); [lia|apply H2]|]. rules.
  pose proof (keeps_good _ _ H2) as G2.
  apply keeps_caps; [done|rewrite length_insert; by apply good_len|].
  apply Forall_insert; [by apply good_caps|].
  by eapply Forall_lookup_1; [apply (good_caps _ Hg)|].
Qed.

Lemma group_exit_safe s index previous matched : cap_in (length input) previous ->
  forall s', keeps s s' -> runs true (group_exit index previous matched) (fun _ s2 => keeps s s2) s'.
Proof.
  intros Hp s' H1. unfold group_exit. rules. destruct (negb matched && _) eqn:E; rules; [|done].
  apply andb_prop in E as [_ E]. apply Nat.ltb_lt in E. apply runs_put; [done|]. rules.
  pose proof (keeps_good _ _ H1) as G1.
  apply keeps_caps; [done|rewrite length_insert; by apply good_len|].
  apply Forall_insert; [by apply good_caps|done].
Qed.

Lemma previous_in s index : good s -> cap_in (length input) (mjoin (caps s !! index)).
Proof.
  intros Hg. destruct (caps s !! index) as [x|] eqn:E; [|done].
  pose proof (Forall_lookup_1 _ _ _ _ (good_caps _ Hg) E) as Hx. by destruct x.
Qed.

Lemma alternatives_safe s run branches : good s ->
  Forall (fun b => forall s', keeps s s' -> keeping (run b) s') branches ->
  keeping (alternatives run branches) s.
Proof.
  intros Hg HF. unfold keeping. pose proof (keeps_refl _ Hg) as H0. revert H0.
  generalize s at 2 4 as s'. induction HF as [|b l Hb _ IH]; intros s' H0; simpl; rules; [done|].
  eapply keep_call; [done|by apply Hb|]. intros [] s2 H2 _; rules; [done|].
  apply IH. pose proof (keeps_good _ _ H0). eauto with matcher.
Qed.

Lemma clear_safe s n (Q : unit -> Cells -> Prop) : groups_below (S (group_count regex)) n = true ->
  forall s', keeps s s' -> (forall s2, keeps s s2 -> Q tt s2) -> runs true (clear n) Q s'.
Proof.
  intros Hn s' H1 HQ. pose proof (keeps_good _ _ H1) as G1.
  destruct (clear_captures_ok (length input) n (caps s')) as (l & E & HL & HF);
    [by rewrite (good_len _ G1)|by apply good_caps|].
  eapply runs_clear; [done|]. apply HQ. apply keeps_caps; [done| |done].
  rewrite HL. by apply good_len.
Qed.

Abbreviation wf := (groups_below (S (group_count regex))).

(** Enough fuel for a node, a sequence or a repetition at the depth of a state. *)
Definition fuel_for (s : Cells) (extra : Z) (fuel : nat) : Prop :=
  2 * (MAX_DEPTH - depth s) + extra <= Z.of_nat fuel.

Definition node_ok (fuel : nat) : Prop := forall n pos k s, wf n = true -> (pos <= length input)%nat ->
  good s -> fuel_for s 1 fuel -> safe_from s 1 pos k -> keeping (node regex input budget fuel n pos k) s.
Definition sequence_ok (fuel : nat) : Prop := forall l pos k s, forallb wf l = true ->
  (pos <= length input)%nat -> good s -> fuel_for s 2 fuel -> safe_from s 0 pos k ->
  keeping (sequence regex input budget fuel l pos k) s.
Definition repeat_ok (fuel : nat) : Prop := forall n min max greedy count pos k s, wf n = true ->
  (pos <= length input)%nat -> good s -> fuel_for s 2 fuel -> safe_from s 0 pos k ->
  keeping (repeat regex input budget fuel n min max greedy count pos k) s.

Lemma split_sequence_wf fwd l head rest : split_sequence fwd l = Some (head, rest) ->
  forallb wf l = true -> wf head = true /\ forallb wf rest = true.
Proof.
  intros E Hl. destruct fwd; simpl in E.
  - destruct l; [done|]. injection E as -> ->. by apply andb_prop in Hl.
  - destruct (last l) eqn:F; [|done]. injection E as -> <-.
    apply last_Some in F as [l' ->]. rewrite forallb_app in Hl. apply andb_prop in Hl as [H1 H2].
    simpl in H2. rewrite andb_true_r in H2. rewrite length_app. simpl.
    rewrite Nat.add_sub, take_app_length. done.
Qed.

Lemma safe_sequence_step fuel : node_ok fuel -> sequence_ok fuel -> sequence_ok (S fuel).
Proof.
  intros Hn Hseq l pos k s Hl Hp Hg Hf Hk. unfold keeping. simpl. rules.
  pose proof (reach_refl _ (forward s) _ Hp).
  destruct (split_sequence (forward s) l) as [[head rest]|] eqn:E;
    [|eapply safe_at; eauto with matcher lia].
  destruct (split_sequence_wf _ _ _ _ E Hl) as [Hh Hr]. unfold fuel_for in *.
  apply Hn; [done..|unfold fuel_for; lia|].
  intros p s' Hp' Hg' Hd Hfw Hm. pose proof (reach_in _ _ _ _ Hp').
  apply Hseq; [done..|unfold fuel_for; lia|].
  unfold safe_from in *. rewrite Hfw, Hm. eapply safe_deeper; [done|lia|done].
Qed.

Lemma repeat_again fuel s n min max greedy count lo k : repeat_ok fuel -> wf n = true ->
  fuel_for s 2 (S fuel) -> safe_from s 0 lo k ->
  safe_from s 1 lo (fun next => repeat regex input budget fuel n min max greedy count next k).
Proof.
  intros Hrep Hn Hf Hk p s' Hp' Hg' Hd Hfw Hm. unfold fuel_for in *.
  pose proof (reach_in _ _ _ _ Hp'). apply Hrep; [done..|unfold fuel_for; lia|].
  unfold safe_from in *. rewrite Hfw, Hm. eapply safe_deeper; [done|lia|done].
Qed.

Lemma fuel_keeps s s' extra fuel : keeps s s' -> fuel_for s extra fuel -> fuel_for s' extra fuel.
Proof. unfold fuel_for. by intros (_ & -> & _). Qed.
Lemma safe_keeps s s' by_ lo k : keeps s s' -> safe_from s by_ lo k -> safe_from s' by_ lo k.
Proof. unfold safe_from. by intros (_ & -> & _ & -> & ->). Qed.
Lemma fuel_less s fuel : fuel_for s 2 (S fuel) -> fuel_for s 1 fuel.
Proof. unfold fuel_for. lia. Qed.

Hint Resolve fuel_keeps safe_keeps fuel_less : matcher.

Lemma safe_repeat_step fuel : node_ok fuel -> repeat_ok fuel -> repeat_ok (S fuel).
Proof.
  intros Hn Hrep n min max greedy count pos k s Hw Hp Hg Hf Hk.
  pose proof (repeat_again fuel s n min max greedy (S count) _ k Hrep Hw Hf Hk) as Hagain.
  pose proof (reach_refl _ (forward s) _ Hp) as Hrefl.
  assert (keeping (repeat_general budget (node regex input budget fuel n pos)
    (fun next => repeat regex input budget fuel n min max greedy (S count) next k)
    n min max greedy count pos k) s) as Hgen.
  { unfold keeping, repeat_general. rules. apply runs_step. intros _.
    pose proof (keeps_steps _ _ (keeps_refl _ Hg)) as H1. revert H1.
    generalize (set_steps s (steps s + 1)) as s1. intros s1 H1.
    destruct (count <? min)%nat; rules.
    - eapply clear_safe; [done..|]. intros s2 H2.
      eapply keep_call; [exact H2|apply Hn; eauto with matcher|done].
    - apply runs_mono with (Q := fun _ s2 => keeps s s2).
      { destruct greedy; [by rules|]. eapply keep_call; [done|eapply safe_at; eauto with matcher lia|done]. }
      intros [] s2 H2; rules; [done|]. apply runs_mono with (Q := fun _ s3 => keeps s s3).
      { destruct (match max with Some _ => _ | None => _ end); rules; [|done].
        eapply clear_safe; [done..|]. intros s3 H3. rules.
        eapply keep_call; [exact H3|apply Hn; eauto with matcher|].
        - intros p s' Hp' Hg' Hd Hfw Hm. unfold keeping.
          destruct (p =? pos)%nat; [by apply runs_ret, keeps_refl|].
          by apply (safe_keeps _ _ _ _ _ H3 Hagain).
        - intros [] s4 H4 _; rules; [done|]. pose proof (keeps_good _ _ H2). eauto with matcher. }
      intros [] s3 H3; rules; [done|]. destruct greedy; [|by rules].
      eapply keep_call; [done|eapply safe_at; eauto with matcher lia|done]. }
  cbn [repeat]. destruct count; [|exact Hgen].
  destruct (strip_groups n); try exact Hgen; [by apply repeat_atom_safe..|by apply repeat_class_safe].
Qed.

(** The continuation of a modifier group runs under the outer modifiers. *)
Lemma modifiers_safe d fwd outer inner lo k : safe d fwd outer lo k ->
  safe d fwd inner lo (fun pos =>
    with_modifiers outer ;! finally (k pos) (fun s => set_modifiers s inner)).
Proof.
  intros Hk p s Hp Hg Hd Hf Hm. unfold keeping, with_modifiers. rules.
  eapply runs_mono; [apply (Hk p (set_modifiers s outer)); done|].
  intros b s2. unfold keeps, good. simpl. intuition.
Qed.

(** The body of a lookaround cannot be told from one that ends the match. *)
Lemma accept_safe d fwd m lo : safe d fwd m lo (fun _ => ret true).
Proof. intros p s Hp Hg _ _ _. by apply runs_ret, keeps_refl. Qed.

Lemma look_exit_safe s negative hit pos k : good s -> safe_from s 0 pos k -> (pos <= length input)%nat ->
  forall s', keeps s s' ->
  runs true (look_exit negative hit (caps s) pos k) (fun _ s2 => keeps s s2) s'.
Proof.
  intros Hg Hk Hp s' H1. pose proof (reach_refl _ (forward s) _ Hp). unfold look_exit. destruct (Bool.eqb hit negative); rules; [eauto with matcher|].
  apply runs_mono with (Q := fun _ s2 => keeps s s2); [destruct negative; rules; eauto with matcher|].
  intros _ s2 H2. eapply keep_call; [done|eapply safe_at; eauto with matcher lia|done].
Qed.

Lemma keeps_leave s s' : good s -> depth s < MAX_DEPTH -> keeps (set_depth s (depth s + 1)) s' ->
  keeps s (leave s').
Proof. unfold keeps, good. simpl. intuition lia. Qed.

(** The body of [node_inner], one frame deeper. *)
Lemma safe_node_step fuel : node_ok fuel -> sequence_ok fuel -> repeat_ok fuel -> node_ok (S fuel).
Proof.
  intros Hnode Hseq Hrep n pos k s Hn Hp Hg Hf Hk. unfold keeping. rewrite node_S. apply runs_bind.
  apply runs_enter. intros Hd. apply runs_finally.
  set (s1 := set_depth s (depth s + 1)).
  apply runs_mono with (Q := fun _ s' => keeps s1 s'); [|intros b s'; by apply keeps_leave].
  assert (good s1) as G1 by (unfold good in *; simpl; intuition lia).
  assert (fuel_for s1 2 fuel) as F1 by (unfold fuel_for in *; simpl; lia).
  pose proof (reach_refl _ (forward s) _ Hp) as Hrefl.
  assert (safe_from s1 0 pos k) as K1 by (eapply safe_deeper; [exact Hk|simpl; lia|done]).
  assert (safe_from s1 1 pos k) as K1' by (eapply safe_deeper; [exact Hk|simpl; lia|done]).
  unfold node_body. apply runs_bind, runs_step. intros _.
  pose proof (keeps_steps _ _ (keeps_refl _ G1)) as H1. revert H1.
  generalize (set_steps s1 (steps s1 + 1)) as s2. intros s2 H2. rules.
  pose proof (keeps_good _ _ H2) as G2.
  assert (forall m : M bool, keeping m s2 -> runs true m (fun _ s' => keeps s1 s') s2) as Hone.
  { intros m Hm. eapply keep_call; eauto. }
  assert (fuel_for s2 1 fuel) as F2 by (eapply fuel_keeps; [exact H2|unfold fuel_for in *; lia]).
  assert (safe_from s2 0 pos k) as K2 by eauto with matcher.
  assert (safe_from s2 1 pos k) as K2' by eauto with matcher.
  destruct n as [| | | |items|branches|body min max greedy|index body|add remove body| | | |ahead negative body];
    try (by apply Hone, leaf_safe; eauto with matcher).
  - apply Hone, Hseq; eauto with matcher.
  - apply Hone, alternatives_safe; [done|]. apply Forall_forall. intros b Hb s' H'.
    simpl in Hn. rewrite forallb_forall in Hn. apply list_elem_of_In in Hb.
    apply Hnode; eauto 6 with matcher.
  - apply Hone, Hrep; eauto with matcher.
  - simpl in Hn. apply andb_prop in Hn as [Hi Hb]. destruct index as [index|]; [|apply Hone, Hnode; eauto with matcher].
    apply Nat.ltb_lt in Hi. rules. eapply keep_call; [exact H2|apply Hnode; eauto with matcher|].
    + apply group_end_safe; [by eapply safe_keeps|done..].
    + intros b s3 H3 H3'. apply group_exit_safe; [by apply previous_in|done].
  - simpl in Hn. rules. unfold with_modifiers. rules.
    eapply runs_mono; [apply Hnode; [done..| |]|].
    + done.
    + apply modifiers_safe. exact K2'.
    + intros b s3 H3. destruct H2 as (? & ? & ? & ? & ?). unfold keeps, good in *. simpl in *.
      intuition (congruence || lia).
  - simpl in Hn. unfold with_forward. rules. eapply runs_mono; [apply Hnode; [done..| |]|].
    + done.
    + apply accept_safe.
    + intros b s3 H3. cbv beta.
      assert (keeps s2 (set_forward s3 (forward s2))) as H4.
      { unfold keeps, good in *. simpl in *. intuition (congruence || lia). }
      eapply runs_mono; [apply look_exit_safe; eauto with matcher|]. eauto with matcher.
Qed.

Theorem matcher_safe : forall fuel, node_ok fuel /\ sequence_ok fuel /\ repeat_ok fuel.
Proof.
  induction fuel as [|fuel (IH1 & IH2 & IH3)].
  - split_and!.
    + intros n pos k s _ _ (_ & _ & Hd) Hf. unfold fuel_for in Hf. lia.
    + intros l pos k s _ _ (_ & _ & Hd) Hf. unfold fuel_for in Hf. lia.
    + intros n min max greedy count pos k s _ _ (_ & _ & Hd) Hf. unfold fuel_for in Hf. lia.
  - split_and!; [by apply safe_node_step|by apply safe_sequence_step|by apply safe_repeat_step].
Qed.

End Safety.
End RegexSafety.
