(* ===== verification/RegexSpec.v ===== *)
(** What a pattern means: the matches of a node from a position, in the order of
    ECMAScript's alternatives, with the captures of each.  The definition has no
    continuations, no budgets and no shared captures. *)
From stdpp Require Import prelude list gmap.
From Stdlib Require Import ZArith Lia.
From S2P Require Import Prelude Regex RegexMatch RegexSafety.
Import Regex RegexMatch RegexSafety.
Local Open Scope Z_scope.

Module RegexSpec.

(** A position and the captures so far. *)
Abbreviation Place := (nat * list (option (nat * nat)))%type (only parsing).

(** ** Repetition *)

Section Repetition.
Context (body : Place -> list Place).

(** The iterations a minimum asks for. *)
Fixpoint mandatory (count : nat) (x : Place) : list Place :=
  match count with
  | O => [x]
  | S count => flat_map (mandatory count) (body x)
  end.

(** Further iterations, none of which may be empty; [fuel] bounds their number. *)
Fixpoint optional (fuel : nat) (max : option nat) (greedy : bool) (x : Place) : list Place :=
  match fuel with
  | O => [x]
  | S fuel =>
      let more :=
        match max with
        | Some O => []
        | _ => flat_map (fun y => if (y.1 =? x.1)%nat then []
                                  else optional fuel (pred <$> max) greedy y) (body x)
        end in
      if greedy then more ++ [x] else x :: more
  end.

Definition repetition (fuel min : nat) (max : option nat) (greedy : bool) (x : Place) : list Place :=
  flat_map (optional fuel ((fun max => (max - min)%nat) <$> max) greedy) (mandatory min x).
End Repetition.

(** The groups of a node. *)
Fixpoint groups (n : Node) : list nat :=
  match n with
  | Group index n => match index with Some i => [i] | None => [] end ++ groups n
  | Concat l | Alt l => flat_map groups l
  | Repeat n _ _ _ | Look _ _ n | Modifiers _ _ n => groups n
  | _ => []
  end.

(** The captures without those of a node. *)
Definition cleared (n : Node) (c : list (option (nat * nat))) : list (option (nat * nat)) :=
  fold_left (fun c i => <[i := None]> c) (groups n) c.

(** ** Patterns *)

Section Meaning.
Context `{UnicodeTables} (regex : Regex) (input : list Z).

(** The matches of a back-reference. *)
Definition backreference_matches (index : nat) (fwd : bool) (m : Z) (x : Place) : list Place :=
  let (pos, c) := x in
  match c !! index with
  | Some (Some (start, end_)) =>
      let len := (end_ - start)%nat in
      let begin := if fwd then pos else (pos - len)%nat in
      if negb fwd && (pos <? len)%nat || (length input <? begin + len)%nat then []
      else if unicode regex
              && match begin with
                 | S before =>
                     match input !! begin, input !! before with
                     | Some u, Some h => low_surrogate u && high_surrogate h
                     | _, _ => false
                     end
                 | O => false
                 end
      then []
      else match same_text regex input len m begin start len 0 with
           | Some true => [(if fwd then (pos + len)%nat else begin, c)]
           | _ => []
           end
  | _ => [x]
  end.

Fixpoint matches (n : Node) (fwd : bool) (m : Z) (x : Place) : list Place :=
  let (pos, c) := x in
  match n with
  | Empty => [x]
  | NChar want =>
      match character regex input fwd pos with
      | Some (ch, end_) => if same_char regex m ch want then [(end_, c)] else []
      | None => []
      end
  | AnyChar =>
      match character regex input fwd pos with
      | Some (ch, end_) => if bit 4 m || negb (is_line_terminator ch) then [(end_, c)] else []
      | None => []
      end
  | Class negated items => map (fun e => (e, c)) (class_ends regex input m fwd negated items pos)
  | Concat nodes =>
      if fwd then
        (fix go (l : list Node) (x : Place) : list Place :=
           match l with [] => [x] | n :: l => flat_map (go l) (matches n fwd m x) end) nodes x
      else
        (fix back (l : list Node) (x : Place) : list Place :=
           match l with [] => [x] | n :: l => flat_map (matches n fwd m) (back l x) end) nodes x
  | Alt branches => flat_map (fun n => matches n fwd m x) branches
  | Repeat n min max greedy =>
      repetition (fun y => matches n fwd m (y.1, cleared n y.2)) (S (length input)) min max greedy x
  | Group None n => matches n fwd m x
  | Group (Some index) n =>
      map (fun y => (y.1, <[index := Some (Nat.min pos y.1, Nat.max pos y.1)]> y.2)) (matches n fwd m x)
  | Modifiers add remove n => matches n fwd (modified m add remove) x
  | Backref index => backreference_matches index fwd m x
  | NamedBackref name =>
      match indices ← names regex !! name; set_group indices c with
      | Some index => backreference_matches index fwd m x
      | None => [x]
      end
  | NAnchor anchor =>
      match anchor_holds regex input m anchor pos with Ok true => [x] | _ => [] end
  | Look ahead negative n =>
      match matches n ahead m x with
      | [] => if negative then [x] else []
      | y :: _ => if negative then [] else [(pos, y.2)]
      end
  end.

(** The search: the first start with a match, and its first match. *)
Fixpoint search (fuel : nat) (at_ : nat) : option (nat * nat * list (option (nat * nat))) :=
  match fuel with
  | O => None
  | S fuel =>
      match matches (root regex) true (flag_modifiers regex) (at_, List.repeat None (S (group_count regex))) with
      | (e, c) :: _ => Some (at_, e, c)
      | [] => if sticky regex || (length input <=? at_)%nat then None
              else search fuel (advance regex input at_)
      end
  end.

End Meaning.

(** ** The patterns the results are about *)

Definition no_groups (n : Node) : bool := match groups n with [] => true | _ => false end.

(** Quantifiers have ordered bounds.  [exact] patterns take back their captures
    on failure: a group under a quantifier has a minimum of at most one, and
    none is in a positive lookaround.  The others have no back-reference. *)
Fixpoint supported (exact : bool) (n : Node) : bool :=
  match n with
  | Group _ n | Modifiers _ _ n => supported exact n
  | Concat l | Alt l => forallb (supported exact) l
  | Repeat n min max _ =>
      supported exact n
      && match max with Some max => (min <=? max)%nat | None => true end
      && (negb exact || (min <=? 1)%nat || no_groups n)
  | Look _ negative n => supported exact n && (negb exact || negative || no_groups n)
  | Backref _ | NamedBackref _ => exact
  | _ => true
  end.

End RegexSpec.
