(* ===== verification/RegexRuns.v ===== *)
(** The matches of a pattern: where they lie, which captures they change, and the
    shape of repetitions of one character. *)
From stdpp Require Import prelude list gmap.
From Stdlib Require Import ZArith Lia.
From S2P Require Import Prelude Regex RegexMatch RegexSafety RegexSpec.
Import Regex RegexMatch RegexSafety RegexSpec.
Local Open Scope Z_scope.

Module RegexRuns.

(** ** The first success *)

Fixpoint first {A B} (K : A -> option B) (l : list A) : option B :=
  match l with
  | [] => None
  | x :: l => match K x with Some y => Some y | None => first K l end
  end.

Definition orelse {A} (a b : option A) : option A := match a with Some _ => a | None => b end.

Lemma first_app {A B} (K : A -> option B) l1 l2 : first K (l1 ++ l2) = orelse (first K l1) (first K l2).
Proof. induction l1 as [|x l1 IH]; simpl; [done|]. destruct (K x); [done|]. apply IH. Qed.

Lemma first_flat_map {A B C} (K : B -> option C) (f : A -> list B) l :
  first K (flat_map f l) = first (fun x => first K (f x)) l.
Proof.
  induction l as [|x l IH]; simpl; [done|]. rewrite first_app, IH. by destruct (first K (f x)).
Qed.

Lemma first_map {A B C} (K : B -> option C) (f : A -> B) l : first K (map f l) = first (fun x => K (f x)) l.
Proof. induction l as [|x l IH]; simpl; [done|]. by rewrite IH. Qed.

Lemma first_ext {A B} (K K' : A -> option B) l : (forall x, x ∈ l -> K x = K' x) -> first K l = first K' l.
Proof.
  induction l as [|x l IH]; intros Hx; simpl; [done|]. rewrite (Hx x) by set_solver.
  rewrite IH by set_solver. done.
Qed.

Lemma first_some {A} (l : list A) : first Some l = head l.
Proof. by destruct l. Qed.

(** ** Captures *)

Section Frame.

Definition same_but (U : list nat) (c c' : list (option (nat * nat))) : Prop :=
  length c' = length c /\ forall i, i ∉ U -> c' !! i = c !! i.

(** The groups of [U] have not matched. *)
Definition unset (U : list nat) (c : list (option (nat * nat))) : Prop :=
  forall i x, i ∈ U -> c !! i = Some x -> x = None.

Lemma same_but_refl U c : same_but U c c.
Proof. done. Qed.

Lemma same_but_trans U a b c : same_but U a b -> same_but U b c -> same_but U a c.
Proof. intros [L1 H1] [L2 H2]. split; [congruence|]. intros i Hi. rewrite H2, H1; done. Qed.

Lemma same_but_mono U V a b : U ⊆ V -> same_but U a b -> same_but V a b.
Proof. intros HUV [L1 H1]. split; [done|]. intros i Hi. apply H1. set_solver. Qed.

Lemma same_but_nil a b : same_but [] a b -> b = a.
Proof. intros [_ HE]. apply list_eq. intros i. apply HE. set_solver. Qed.

Lemma same_but_insert U i x c : i ∈ U -> same_but U c (<[i := x]> c).
Proof.
  intros Hi. split; [by rewrite length_insert|]. intros j Hj. apply list_lookup_insert_ne. set_solver.
Qed.

Lemma unset_mono U V c : U ⊆ V -> unset V c -> unset U c.
Proof. unfold unset. set_solver. Qed.

Lemma unset_same_but U V c c' : same_but V c c' -> V ## U -> unset U c -> unset U c'.
Proof. intros [_ HE] HD Hu i x Hi. rewrite HE by set_solver. by apply Hu. Qed.

Lemma unset_app U V c : unset (U ++ V) c <-> unset U c /\ unset V c.
Proof.
  split.
  - intros Hu. split; intros i x Hi; apply Hu; set_solver.
  - intros [H1 H2] i x [Hi|Hi]%elem_of_app; eauto.
Qed.

Lemma unset_insert U i x c : i ∉ U -> unset U c -> unset U (<[i := x]> c).
Proof.
  intros Hi Hu j y Hj Hl. rewrite list_lookup_insert_ne in Hl by set_solver. eauto.
Qed.

(** Clearing a node's groups. *)
Definition clear_all (l : list nat) (c : list (option (nat * nat))) : list (option (nat * nat)) :=
  fold_left (fun c i => <[i := None]> c) l c.

Lemma clear_captures_spec n : forall c c', clear_captures n c = Some c' -> c' = cleared n c.
Proof.
  assert (forall l, Forall (fun n => forall c c', clear_captures n c = Some c' -> c' = cleared n c) l ->
    forall c c', (fix go (l : list Node) (caps : list (option (nat * nat))) :=
         match l with [] => Some caps | n :: l => caps ← clear_captures n caps; go l caps end) l c = Some c' ->
      c' = clear_all (flat_map groups l) c) as HL.
  { clear n. induction 1 as [|n l Hn _ IH]; intros c c' E; simpl in *; [by injection E as <-|].
    destruct (clear_captures n c) as [c1|] eqn:E1; [|done]. simpl in E.
    apply Hn in E1 as ->. apply IH in E as ->. unfold clear_all. by rewrite fold_left_app. }
  induction n using node_induction; intros cs c' E; simpl in *; try (by injection E as <-);
    try (by apply HL); try (by apply IHn).
  destruct i as [i|]; simpl in *; [|by apply IHn]. destruct (i <? length cs)%nat; [|done].
  by apply IHn in E as ->.
Qed.

Lemma clear_all_same l : forall c U, l ⊆ U -> same_but U c (clear_all l c).
Proof.
  induction l as [|i l IH]; intros c U HU; simpl; [done|].
  eapply same_but_trans; [apply (same_but_insert U i None); set_solver|]. apply IH. set_solver.
Qed.

Lemma clear_all_unset l : forall c U, unset U c -> unset (l ++ U) (clear_all l c).
Proof.
  induction l as [|i l IH]; intros c U Hu; simpl; [done|].
  assert (unset (i :: U) (<[i := None]> c)) as Hi.
  { intros j x Hj Hl. apply list_lookup_insert_Some in Hl as [(-> & <- & _)|(Hne & Hl)]; [done|].
    eapply Hu; [|exact Hl]. set_solver. }
  eapply unset_mono; [|exact (IH _ _ Hi)]. set_solver.
Qed.

Lemma clear_all_id l : forall c, unset l c -> clear_all l c = c.
Proof.
  induction l as [|i l IH]; intros c Hu; simpl; [done|].
  assert (<[i := None]> c = c) as ->.
  { destruct (c !! i) as [x|] eqn:E; [|by rewrite list_insert_ge by by apply lookup_ge_None].
    apply list_insert_id. rewrite E. f_equal. eapply Hu; [|done]. set_solver. }
  apply IH. eapply unset_mono; [|exact Hu]. set_solver.
Qed.

Lemma cleared_same n c : same_but (groups n) c (cleared n c).
Proof. by apply clear_all_same. Qed.

Lemma cleared_unset n c : unset (groups n) c -> cleared n c = c.
Proof. apply clear_all_id. Qed.

Lemma cleared_sets n U c : unset U c -> unset (groups n ++ U) (cleared n c).
Proof. apply clear_all_unset. Qed.

End Frame.

(** ** Where matches lie *)

Section Places.
Context `{UnicodeTables} (regex : Regex) (input : list Z) (Hunits : Forall is_unit input).

(** A match from a place: further in the direction, other captures only in the
    groups of the node. *)
Definition leads (U : list nat) (fwd : bool) (x y : nat * list (option (nat * nat))) : Prop :=
  reach input fwd x.1 y.1 /\ same_but U x.2 y.2.

Lemma leads_trans U fwd x y z : leads U fwd x y -> leads U fwd y z -> leads U fwd x z.
Proof. intros [] []. split; [by eapply reach_trans|by eapply same_but_trans]. Qed.

Lemma leads_mono U V fwd x y : U ⊆ V -> leads U fwd x y -> leads V fwd x y.
Proof. intros HUV []. split; [done|by eapply same_but_mono]. Qed.

Lemma leads_refl U fwd x : (x.1 <= length input)%nat -> leads U fwd x x.
Proof. intros. split; [by apply reach_refl|done]. Qed.

Definition inside (x : nat * list (option (nat * nat))) : Prop := (x.1 <= length input)%nat.

Definition all_lead (U : list nat) (fwd : bool) (f : (nat * list (option (nat * nat))) ->
    list (nat * list (option (nat * nat)))) : Prop :=
  forall x y, inside x -> y ∈ f x -> leads U fwd x y.

Lemma leads_inside U fwd x y : leads U fwd x y -> inside y.
Proof. intros [HR _]. by eapply reach_in. Qed.

Lemma elem_of_flat_map {A B} (f : A -> list B) l y : y ∈ flat_map f l <-> exists x, x ∈ l /\ y ∈ f x.
Proof. rewrite list_elem_of_In, in_flat_map. setoid_rewrite <- list_elem_of_In. done. Qed.

Lemma all_lead_then U fwd f g : all_lead U fwd f -> all_lead U fwd g ->
  all_lead U fwd (fun x => flat_map g (f x)).
Proof.
  intros Hf Hg x y Hx (z & Hz & Hy)%elem_of_flat_map.
  pose proof (Hf x z Hx Hz) as H1. eapply leads_trans; [exact H1|]. apply Hg; [|done].
  by eapply leads_inside.
Qed.

Lemma mandatory_leads U fwd body count : all_lead U fwd body -> all_lead U fwd (mandatory body count).
Proof.
  intros Hb. induction count as [|count IH]; simpl.
  - intros x y Hx Hy. apply list_elem_of_singleton in Hy as ->. by apply leads_refl.
  - by apply (all_lead_then U fwd body).
Qed.

Lemma optional_leads U fwd body greedy : all_lead U fwd body ->
  forall fuel max, all_lead U fwd (optional body fuel max greedy).
Proof.
  intros Hb. induction fuel as [|fuel IH]; intros max x y Hx; simpl.
  - intros ->%list_elem_of_singleton. by apply leads_refl.
  - set (more := match max with Some O => [] | _ => _ end).
    assert (forall y, y ∈ more -> leads U fwd x y) as Hmore.
    { subst more. clear y. intros y Hy.
      assert (y ∈ flat_map (fun y => if (y.1 =? x.1)%nat then []
        else optional body fuel (pred <$> max) greedy y) (body x)) as Hy'
        by (destruct max as [[|]|]; [set_solver|done..]). clear Hy.
      apply elem_of_flat_map in Hy' as (z & Hz & Hy). pose proof (Hb x z Hx Hz) as H1.
      destruct (z.1 =? x.1)%nat; [set_solver|]. eapply leads_trans; [exact H1|].
      eapply IH; [|exact Hy]. by eapply leads_inside. }
    intros Hy. assert (y ∈ more \/ y = x) as [Hm| ->] by (destruct greedy; set_solver);
      [by apply Hmore|by apply leads_refl].
Qed.

Lemma repetition_leads U fwd body fuel min max greedy : all_lead U fwd body ->
  all_lead U fwd (repetition body fuel min max greedy).
Proof.
  intros Hb. apply all_lead_then; [by apply mandatory_leads|by apply optional_leads].
Qed.

Lemma backreference_leads U i fwd m : all_lead U fwd (backreference_matches regex input i fwd m).
Proof.
  intros [p c] y Hx. unfold inside in Hx. simpl in Hx. unfold backreference_matches.
  destruct (c !! i) as [[[a b]|]|]; [|intros ->%list_elem_of_singleton; by apply leads_refl..].
  destruct (negb fwd && _) eqn:E1; simpl; [set_solver|].
  destruct (length input <? _)%nat eqn:E2; [set_solver|].
  destruct (unicode regex && _); [set_solver|].
  destruct (same_text _ _ _ _ _ _ _ _) as [[]|]; [|set_solver..].
  intros ->%list_elem_of_singleton. split; [|done]. apply Nat.ltb_ge in E2. unfold reach.
  destruct fwd; simpl in *; [|apply Nat.ltb_ge in E1]; lia.
Qed.

Lemma matches_lead n : forall fwd m, all_lead (groups n) fwd (matches regex input n fwd m).
Proof.
  induction n as [|c| |b l|l HF|l HF|n min max greedy IH|i n IH|a r n IH|i|x|a|ahead neg n IH]
    using node_induction; intros fwd m [p cs] y Hx; pose proof Hx as Hp; unfold inside in Hp; simpl in Hp; simpl.
  - intros ->%list_elem_of_singleton. by apply leads_refl.
  - destruct (character _ _ _ _) as [[ch e]|] eqn:E; [|set_solver]. destruct (same_char _ _ _ _); [|set_solver].
    intros ->%list_elem_of_singleton. split; [by eapply character_in|done].
  - destruct (character _ _ _ _) as [[ch e]|] eqn:E; [|set_solver]. destruct (_ || _); [|set_solver].
    intros ->%list_elem_of_singleton. split; [by eapply character_in|done].
  - intros (e & -> & He)%list_elem_of_fmap. split; [|done]. simpl.
    pose proof (class_ends_in regex input Hunits m fwd b l p Hp) as HF. unfold ends_in in HF.
    rewrite Forall_forall in HF. by apply HF.
  - assert (forall n, n ∈ l -> forall x y, inside x -> y ∈ matches regex input n fwd m x ->
      leads (flat_map groups l) fwd x y) as Hall.
    { intros n Hn x z Hxz Hz. rewrite Forall_forall in HF. eapply leads_mono; [|by eapply (HF n Hn fwd m)].
      intros i Hi. apply elem_of_flat_map. eauto. }
    clear HF. revert p cs y Hx Hp. generalize (flat_map groups l) as U, Hall. clear Hall.
    destruct fwd.
    + induction l as [|n l IHl]; intros U Hall p cs y Hx Hp.
      * intros ->%list_elem_of_singleton. by apply leads_refl.
      * intros ([p1 c1] & Hz & Hy)%elem_of_flat_map.
        pose proof (Hall n ltac:(set_solver) _ _ Hx Hz) as H1. eapply leads_trans; [exact H1|].
        pose proof (leads_inside _ _ _ _ H1) as Hp1. apply (IHl U); [set_solver|done..].
    + induction l as [|n l IHl]; intros U Hall p cs y Hx Hp.
      * intros ->%list_elem_of_singleton. by apply leads_refl.
      * intros ([p1 c1] & Hz & Hy)%elem_of_flat_map.
        pose proof (IHl U ltac:(set_solver) _ _ _ Hx Hp Hz) as H1. eapply leads_trans; [exact H1|].
        eapply (Hall n); [set_solver|by eapply leads_inside|done].
  - intros (n & Hn & Hy)%elem_of_flat_map. rewrite Forall_forall in HF.
    eapply leads_mono; [|by eapply (HF n Hn fwd m)]. intros i Hi. apply elem_of_flat_map. eauto.
  - apply repetition_leads; [|done]. intros z w Hz Hw.
    pose proof (IH fwd m (z.1, cleared n z.2) w Hz Hw) as [HR HS].
    split; [done|]. eapply same_but_trans; [apply cleared_same|done].
  - destruct i as [i|]; [|simpl; by apply IH].
    intros (z & -> & Hz)%list_elem_of_fmap. pose proof (IH fwd m _ z Hx Hz) as [HR HS].
    split; [done|]. simpl in *. eapply same_but_trans; [eapply same_but_mono; [|exact HS]; set_solver|].
    apply same_but_insert. set_solver.
  - by apply IH.
  - exact (backreference_leads _ i fwd m (p, cs) y Hx).
  - destruct (_ ≫= _) as [i|]; [exact (backreference_leads _ i fwd m (p, cs) y Hx)|].
    intros ->%list_elem_of_singleton. by apply leads_refl.
  - destruct (anchor_holds _ _ _ _ _) as [[]| |]; [|set_solver..].
    intros ->%list_elem_of_singleton. by apply leads_refl.
  - destruct (matches regex input n ahead m (p, cs)) as [|z l] eqn:E.
    + destruct neg; [|set_solver]. intros ->%list_elem_of_singleton. by apply leads_refl.
    + destruct neg; [set_solver|]. intros ->%list_elem_of_singleton.
      pose proof (IH ahead m (p, cs) z Hx ltac:(rewrite E; set_solver)) as [_ HS].
      split; [by apply reach_refl|done].
Qed.

End Places.

(** ** Repetitions *)

Lemma mandatory_ext body body' : (forall x, body x = body' x) ->
  forall count x, mandatory body count x = mandatory body' count x.
Proof.
  intros Hb. induction count as [|count IH]; intros x; simpl; [done|]. rewrite Hb.
  apply flat_map_ext, IH.
Qed.

Lemma optional_ext body body' greedy : (forall x, body x = body' x) ->
  forall fuel max x, optional body fuel max greedy x = optional body' fuel max greedy x.
Proof.
  intros Hb. induction fuel as [|fuel IH]; intros max x; simpl; [done|]. rewrite Hb.
  assert (flat_map (fun y => if (y.1 =? x.1)%nat then [] else optional body fuel (pred <$> max) greedy y)
      (body' x)
    = flat_map (fun y => if (y.1 =? x.1)%nat then [] else optional body' fuel (pred <$> max) greedy y)
      (body' x)) as -> by (apply flat_map_ext; intros y; by rewrite IH).
  done.
Qed.

Lemma repetition_ext body body' fuel min max greedy x : (forall x, body x = body' x) ->
  repetition body fuel min max greedy x = repetition body' fuel min max greedy x.
Proof.
  intros Hb. unfold repetition. rewrite (mandatory_ext body body') by done.
  apply flat_map_ext. intros y. by apply optional_ext.
Qed.

(** Iterations that move leave the fuel unused. *)
Lemma optional_fuel input U fwd body greedy : all_lead input U fwd body ->
  forall fuel fuel' max x, inside input x -> (room input fwd x.1 < fuel)%nat ->
    (room input fwd x.1 < fuel')%nat ->
    optional body fuel max greedy x = optional body fuel' max greedy x.
Proof.
  intros Hb. induction fuel as [|fuel IH]; intros fuel' max x Hx H1 H2; [lia|].
  destruct fuel' as [|fuel']; [lia|]. simpl.
  assert (forall l, (forall y, y ∈ l -> leads input U fwd x y) ->
    flat_map (fun y => if (y.1 =? x.1)%nat then [] else optional body fuel (pred <$> max) greedy y) l
    = flat_map (fun y => if (y.1 =? x.1)%nat then [] else optional body fuel' (pred <$> max) greedy y) l) as E.
  { induction l as [|y l IHl]; intros Hl; simpl; [done|]. rewrite IHl by set_solver. f_equal.
    destruct (y.1 =? x.1)%nat eqn:Ey; [done|]. apply Nat.eqb_neq in Ey.
    destruct (Hl y ltac:(set_solver)) as [[Hy1 Hy2] _]. unfold inside in Hx.
    assert (room input fwd y.1 < room input fwd x.1)%nat
      by (unfold room; unfold reach in *; destruct fwd; lia).
    apply IH; [done|lia..]. }
  rewrite E by (intros y; by apply Hb). done.
Qed.

(** One character at a time: the boundaries of a run. *)
Section Deterministic.
Context (input : list Z) (fwd : bool) (next : nat -> option nat).
Context (Hnext : forall p e, (p <= length input)%nat -> next p = Some e ->
  (e <= length input)%nat /\ (room input fwd e < room input fwd p)%nat).

Definition single (y : nat * list (option (nat * nat))) : list (nat * list (option (nat * nat))) :=
  match next y.1 with Some e => [(e, y.2)] | None => [] end.

Fixpoint run (fuel : nat) (max : option nat) (p : nat) : list nat :=
  p :: match fuel with
       | O => []
       | S fuel =>
           match max with
           | Some O => []
           | _ => match next p with Some e => run fuel (pred <$> max) e | None => [] end
           end
       end.

Fixpoint iterate (count p : nat) : option nat :=
  match count with O => Some p | S count => e ← next p; iterate count e end.

Lemma optional_run c greedy : forall fuel max p, (p <= length input)%nat ->
  optional single fuel max greedy (p, c)
  = map (fun e => (e, c)) (if greedy then rev (run fuel max p) else run fuel max p).
Proof.
  induction fuel as [|fuel IH]; intros max p Hp; [by destruct greedy|].
  set (tail := match max with Some O => [] | _ => match next p with
     | Some e => run fuel (pred <$> max) e | None => [] end end).
  assert (match max with
        | Some O => []
        | _ => flat_map (fun y => if (y.1 =? p)%nat then []
             else optional single fuel (pred <$> max) greedy y) (single (p, c))
        end = map (fun e => (e, c)) (if greedy then rev tail else tail)) as E.
  { subst tail. unfold single. simpl. destruct (next p) as [e|] eqn:En.
    - destruct (Hnext p e Hp En) as [He Hr]. simpl.
      destruct (e =? p)%nat eqn:Eq; [apply Nat.eqb_eq in Eq; subst e; lia|].
      rewrite !app_nil_r, IH by done. destruct max as [[|]|]; [by destruct greedy|done..].
    - destruct max as [[|]|]; by destruct greedy. }
  cbn [optional]. simpl (p, c).1. rewrite E. change (run (S fuel) max p) with (p :: tail).
  destruct greedy; [|done]. simpl. by rewrite map_app.
Qed.

Lemma run_fuel : forall fuel fuel' max p, (p <= length input)%nat ->
  (room input fwd p < fuel)%nat -> (room input fwd p < fuel')%nat -> run fuel max p = run fuel' max p.
Proof.
  induction fuel as [|fuel IH]; intros fuel' max p Hp H1 H2; [lia|].
  destruct fuel' as [|fuel']; [lia|]. simpl. f_equal. destruct (next p) as [e|] eqn:E; [|done].
  destruct (Hnext p e Hp E). rewrite (IH fuel') by lia. done.
Qed.

Lemma mandatory_run c : forall count p,
  mandatory single count (p, c) = match iterate count p with Some q => [(q, c)] | None => [] end.
Proof.
  induction count as [|count IH]; intros p; [done|]. cbn [mandatory iterate].
  assert (single (p, c) = match next p with Some e => [(e, c)] | None => [] end) as -> by done.
  destruct (next p); simpl; [|done]. by rewrite IH, app_nil_r.
Qed.

Lemma iterate_in : forall count p q, (p <= length input)%nat -> iterate count p = Some q ->
  (q <= length input)%nat /\ (room input fwd q <= room input fwd p)%nat.
Proof.
  induction count as [|count IH]; intros p q Hp; simpl; [intros [= <-]; lia|].
  destruct (next p) as [e|] eqn:E; [|done]. simpl. destruct (Hnext p e Hp E) as [He Hr].
  intros Hq. destruct (IH e q He Hq). lia.
Qed.

Lemma drop_run : forall count fuel max p, (p <= length input)%nat -> (room input fwd p < fuel)%nat ->
  match max with Some max => (count <= max)%nat | None => True end ->
  drop count (run fuel max p)
  = match iterate count p with
    | Some q => run fuel ((fun max => (max - count)%nat) <$> max) q
    | None => []
    end.
Proof.
  induction count as [|count IH]; intros fuel max p Hp Hf Hm.
  - rewrite drop_0. simpl. destruct max; simpl; [by rewrite Nat.sub_0_r|done].
  - destruct fuel as [|fuel]; [lia|]. cbn [run]. rewrite skipn_cons. cbn [iterate].
    destruct (next p) as [e|] eqn:E; [|destruct max as [[|]|]; by rewrite drop_nil].
    destruct (Hnext p e Hp E) as [He Hr]. cbn [mbind option_bind].
    assert (drop count (run fuel (pred <$> max) e) = match iterate count e with
      | Some q => run (S fuel) ((fun max => (max - S count)%nat) <$> max) q | None => [] end) as E1.
    { rewrite IH; [|done|lia|destruct max; simpl in *; lia].
      destruct (iterate count e) as [q|] eqn:Eq; [|done]. destruct (iterate_in _ _ _ He Eq).
      rewrite (run_fuel fuel (S fuel)) by lia.
      destruct max as [[|max]|]; [simpl in *; lia|done..]. }
    destruct max as [[|max]|]; [simpl in *; lia|done..].
Qed.

Lemma repetition_run c fuel min max greedy p : (p <= length input)%nat -> (room input fwd p < fuel)%nat ->
  match max with Some max => (min <= max)%nat | None => True end ->
  repetition single fuel min max greedy (p, c)
  = map (fun e => (e, c))
      (if greedy then rev (drop min (run fuel max p)) else drop min (run fuel max p)).
Proof.
  intros Hp Hf Hm. unfold repetition. rewrite mandatory_run, drop_run by done.
  destruct (iterate min p) as [q|] eqn:E; simpl; [|by destruct greedy].
  rewrite app_nil_r. apply optional_run. by eapply iterate_in.
Qed.

End Deterministic.
End RegexRuns.
