(* ===== verification/RegexCorrect.v ===== *)
(** The matcher finds the first match of a pattern that its continuation
    accepts: each loop and each node against the matches of [RegexSpec]. *)
From stdpp Require Import prelude list gmap.
From Stdlib Require Import ZArith Lia.
From S2P Require Import Prelude Regex RegexMatch RegexSafety RegexSpec RegexRuns.
Import Regex RegexMatch RegexSafety RegexSpec RegexRuns.
Local Open Scope Z_scope.
Local Open Scope regex_scope.

Module RegexCorrect.

Section Correct.
Context `{UnicodeTables} (regex : Regex) (input : list Z) (budget : Z).
Context (Hunits : Forall is_unit input).
(** [exact] matches have the captures of the specification; otherwise they are
    not looked at. *)
Context (exact : bool).

Abbreviation Place := (nat * list (option (nat * nat)))%type (only parsing).

Definition agree (c c' : list (option (nat * nat))) : Prop := exact = true -> c' = c.

(** What a computation returns for an answer of the specification: the answer's
    captures and, at the end of a match, its position; the captures it started
    with when there is none. *)
Definition answers (ends : bool) (r : option Place) (c : list (option (nat * nat))) (b : bool)
    (s : Cells) : Prop :=
  match r with
  | Some y => b = true /\ agree y.2 (caps s) /\ (ends = true -> found s = Some y.1)
  | None => b = false /\ agree c (caps s)
  end.

Definition frame (fwd : bool) (m : Z) (s : Cells) : Prop := forward s = fwd /\ modifiers s = m.

Definition yields (ends fwd : bool) (m : Z) (q : M bool) (r : option Place)
    (c : list (option (nat * nat))) (s : Cells) : Prop :=
  runs false q (fun b s' => frame fwd m s' /\ answers ends r c b s') s.

(** A continuation computes [K] from [lo] on, where the groups of [U] have not
    matched. *)
Definition meets (ends fwd : bool) (m : Z) (lo : nat) (U : list nat) (k : nat -> M bool)
    (K : Place -> option Place) : Prop :=
  forall p s c, reach input fwd lo p -> frame fwd m s -> agree c (caps s) -> unset U c ->
    yields ends fwd m (k p) (K (p, c)) c s.

Lemma agree_refl c : agree c c.
Proof. done. Qed.

Lemma meets_weaken ends fwd m lo lo' U U' k K : meets ends fwd m lo U k K -> reach input fwd lo lo' ->
  U ⊆ U' -> meets ends fwd m lo' U' k K.
Proof.
  intros Hk Hlo HU p s c Hp Hs Hc Hu. apply Hk; [by eapply reach_trans|done|done|by eapply unset_mono].
Qed.

Lemma meets_unset ends fwd m lo U U' k K : meets ends fwd m lo U k K -> U ⊆ U' ->
  meets ends fwd m lo U' k K.
Proof. intros Hk HU p s c Hp Hs Hc Hu. apply Hk; [done..|by eapply unset_mono]. Qed.

(** A failed call leaves the captures it was given. *)
Lemma yields_call ends fwd m q r c s (Q : bool -> Cells -> Prop) :
  yields ends fwd m q r c s ->
  (forall s', frame fwd m s' -> match r with
    | Some y => agree y.2 (caps s') /\ (ends = true -> found s' = Some y.1) -> Q true s'
    | None => agree c (caps s') -> Q false s'
    end) -> runs false q Q s.
Proof.
  intros Hq HQ. eapply runs_mono; [exact Hq|]. intros b s' [Hf Ha]. specialize (HQ s' Hf).
  destruct r as [y|]; [destruct Ha as (-> & Ha)|destruct Ha as [-> Ha]]; auto.
Qed.

Lemma yields_none ends fwd m c s : frame fwd m s -> agree c (caps s) ->
  yields ends fwd m (ret false) None c s.
Proof. by intros ??. Qed.

(** Restoring the captures never fails in the rules: where it does, the code
    panics. *)
Lemma runs_restore' l (Q : unit -> Cells -> Prop) s : Q tt (set_caps s l) -> runs false (restore l) Q s.
Proof. intros HQ. unfold runs, restore, bind, get. destruct (_ =? _)%nat; done. Qed.

Lemma runs_put' i x (Q : unit -> Cells -> Prop) s :
  ((i < length (caps s))%nat -> Q tt (set_caps s (<[i := x]> (caps s)))) -> runs false (put i x) Q s.
Proof.
  intros HQ. unfold runs, put, bind, get. destruct (_ <? _)%nat eqn:E; [|done]. apply HQ.
  by apply Nat.ltb_lt.
Qed.

Lemma runs_clear' n (Q : unit -> Cells -> Prop) s :
  Q tt (set_caps s (cleared n (caps s))) -> runs false (clear n) Q s.
Proof.
  intros HQ. unfold runs, clear, bind, get. destruct (clear_captures n (caps s)) eqn:E; [|done].
  by apply clear_captures_spec in E as ->.
Qed.

Lemma try_ends_meets ends fwd m lo U k K : meets ends fwd m lo U k K -> forall l, ends_in input fwd lo l ->
  forall s c, frame fwd m s -> agree c (caps s) -> unset U c ->
  yields ends fwd m (try_ends l k) (first (fun e => K (e, c)) l) c s.
Proof.
  intros Hk l. induction 1 as [|e l He _ IH]; intros s c Hf Hc Hu; simpl; [by apply yields_none|].
  unfold yields. rules. eapply yields_call; [by apply Hk|]. intros s' Hf'.
  destruct (K (e, c)); intros Ha; rules; [by split|]. by apply IH.
Qed.

Lemma try_positions_meets ends fwd m lo U k K saved : meets ends fwd m lo U k K ->
  forall l, ends_in input fwd lo l -> forall s c, frame fwd m s -> agree c (caps s) -> unset U c ->
  agree c saved ->
  yields ends fwd m (try_positions budget saved l k) (first (fun e => K (e, c)) l) c s.
Proof.
  intros Hk l. induction 1 as [|e l He _ IH]; intros s c Hf Hc Hu Hs; simpl; [by apply yields_none|].
  unfold yields. rules. apply runs_step. intros _. rules. eapply yields_call; [by apply Hk|]. intros s' Hf'.
  destruct (K (e, c)); intros Ha; rules; [by split|]. apply runs_restore'. by apply IH.
Qed.

(** *** Runs of one character *)

(** The boundary after a character the atom accepts. *)
Definition atom_next (atom : Node) (fwd : bool) (m : Z) (p : nat) : option nat :=
  match character regex input fwd p with
  | Some (c, e) => if atom_matches regex atom m c then Some e else None
  | None => None
  end.

Definition class_next (negated : bool) (items : list ClassItem) (fwd : bool) (m : Z) (p : nat) : option nat :=
  match character regex input fwd p with
  | Some (c, e) => if class_matches regex m negated items c then Some e else None
  | None => None
  end.

Lemma character_progress fwd p c e : (p <= length input)%nat ->
  character regex input fwd p = Some (c, e) ->
  (e <= length input)%nat /\ (room input fwd e < room input fwd p)%nat.
Proof.
  intros Hp E. apply character_bounds in E; [|done..]. unfold room. destruct fwd; lia.
Qed.

Lemma atom_progress atom fwd m p e : (p <= length input)%nat -> atom_next atom fwd m p = Some e ->
  (e <= length input)%nat /\ (room input fwd e < room input fwd p)%nat.
Proof.
  intros Hp. unfold atom_next. destruct (character _ _ _ _) as [[c e']|] eqn:E; [|done].
  destruct (atom_matches _ _ _ _); [|done]. intros [= <-]. by eapply character_progress.
Qed.

Lemma class_progress neg items fwd m p e : (p <= length input)%nat ->
  class_next neg items fwd m p = Some e ->
  (e <= length input)%nat /\ (room input fwd e < room input fwd p)%nat.
Proof.
  intros Hp. unfold class_next. destruct (character _ _ _ _) as [[c e']|] eqn:E; [|done].
  destruct (class_matches _ _ _ _ _); [|done]. intros [= <-]. by eapply character_progress.
Qed.

Lemma progress_reach fwd p e : (p <= length input)%nat -> (e <= length input)%nat ->
  (room input fwd e < room input fwd p)%nat -> reach input fwd p e.
Proof. unfold room, reach. destruct fwd; lia. Qed.

Lemma run_in fwd lo next : (forall p e, (p <= length input)%nat -> next p = Some e ->
    (e <= length input)%nat /\ (room input fwd e < room input fwd p)%nat) ->
  forall fuel max p, reach input fwd lo p -> ends_in input fwd lo (run next fuel max p).
Proof.
  intros Hn. induction fuel as [|fuel IH]; intros max p Hp; simpl; (constructor; [done|]); [constructor|].
  assert (ends_in input fwd lo match next p with Some e => run next fuel (pred <$> max) e | None => [] end).
  { destruct (next p) as [e|] eqn:E; [|constructor]. pose proof (reach_in _ _ _ _ Hp) as Hp'.
    destruct (Hn p e Hp' E). apply IH. eapply reach_trans; [exact Hp|]. by apply progress_reach. }
  destruct max as [[|]|]; [constructor|done..].
Qed.

Lemma scalar_run_run m fwd neg items max : forall fuel p pre,
  scalar_run regex input fuel m fwd neg items max p (pre ++ [p])
  = pre ++ run (class_next neg items fwd m) fuel ((fun max => (max - length pre)%nat) <$> max) p.
Proof.
  induction fuel as [|fuel IH]; intros p pre; simpl; [done|].
  assert (match max with Some limit => (limit <? length (pre ++ [p]))%nat | None => false end
    = match (fun max => (max - length pre)%nat) <$> max with Some O => true | _ => false end) as ->.
  { destruct max as [max|]; simpl; [|done]. rewrite length_app. simpl.
    destruct (max - length pre)%nat eqn:E; [apply Nat.ltb_lt|apply Nat.ltb_ge]; lia. }
  assert (match character regex input fwd p with
     | Some (c, end_) => if class_matches regex m neg items c
         then scalar_run regex input fuel m fwd neg items max end_ ((pre ++ [p]) ++ [end_])
         else pre ++ [p]
     | None => pre ++ [p] end
     = pre ++ p :: match class_next neg items fwd m p with
        | Some e => run (class_next neg items fwd m) fuel
            (pred <$> ((fun max => (max - length pre)%nat) <$> max)) e
        | None => [] end) as E.
  { unfold class_next at 1. destruct (character _ _ _ _) as [[c e]|]; [|done].
    destruct (class_matches _ _ _ _ _); [|done]. rewrite IH, length_app, <- app_assoc. simpl.
    do 3 f_equal. destruct max as [max|]; simpl; [|done]. f_equal. lia. }
  destruct ((fun max => (max - length pre)%nat) <$> max) as [[|x]|]; [done|exact E..].
Qed.

(** The rest of a run, and how far its bound is. *)
Abbreviation left_of bound n := ((fun limit => (limit - n)%nat) <$> bound) (only parsing).

Lemma bound_reached (max : option nat) (count : nat) :
  match max with Some m => (m <=? count)%nat | None => false end
  = match left_of max count with Some O => true | _ => false end.
Proof.
  destruct max as [m|]; simpl; [|done].
  destruct (m - count)%nat eqn:E; [apply Nat.leb_le|apply Nat.leb_gt]; lia.
Qed.

Lemma bound_next (max : option nat) (count : nat) : pred <$> left_of max count = left_of max (S count).
Proof. destruct max; simpl; [|done]. f_equal. lia. Qed.

Lemma run_unfold next fuel (max : option nat) (count : nat) p : run next (S fuel) (left_of max count) p
  = p :: (if match max with Some m => (m <=? count)%nat | None => false end then []
          else match next p with Some e => run next fuel (left_of max (S count)) e | None => [] end).
Proof.
  rewrite bound_reached, <- bound_next. simpl. f_equal.
  by destruct (left_of max count) as [[|]|].
Qed.

Lemma atom_loop_greedy fwd m atom min max saved k : forall fuel F p count pre s,
  frame fwd m s -> (p <= length input)%nat -> (room input fwd p < F)%nat -> count = length pre ->
  runs false (atom_loop regex input budget fuel atom min max true saved k p count (pre ++ [p]))
    (fun r s' => frame fwd m s' /\ caps s' = caps s /\ exists count',
       r = Some (count', pre ++ run (atom_next atom fwd m) F (left_of max count) p)
       /\ S count' = length (pre ++ run (atom_next atom fwd m) F (left_of max count) p)) s.
Proof.
  induction fuel as [|fuel IH]; intros F p count pre s [Hf Hm] Hp HF Hc; [done|].
  destruct F as [|F]; [lia|]. rewrite run_unfold. cbn [atom_loop negb andb]. rules.
  apply runs_step. intros _. rules.
  destruct (match max with Some _ => _ | None => _ end); rules.
  { split_and!; [done..|]. eexists. split; [done|]. rewrite length_app. simpl. lia. }
  simpl. rewrite Hf, Hm. unfold atom_next at 1 3.
  destruct (character regex input fwd p) as [[c e]|] eqn:E; rules.
  2: { split_and!; [done..|]. eexists. split; [done|]. rewrite length_app. simpl. lia. }
  destruct (atom_matches regex atom m c) eqn:Ea; rules.
  2: { split_and!; [done..|]. eexists. split; [done|]. rewrite length_app. simpl. lia. }
  destruct (character_progress _ _ _ _ Hp E) as [He Hr].
  eapply runs_mono.
  - apply (IH F e (S count) (pre ++ [p])); [done..|lia|]. rewrite length_app. simpl. lia.
  - intros r s' (Hf' & Hcs & count' & -> & Hl). rewrite <- app_assoc in *. simpl in *.
    split_and!; [done..|eauto].
Qed.

Lemma atom_loop_lazy ends fwd m lo U K atom min max saved k c : meets ends fwd m lo U k K ->
  unset U c -> agree c saved -> forall fuel F p count ps s,
  frame fwd m s -> agree c (caps s) -> reach input fwd lo p -> (room input fwd p < F)%nat ->
  runs false (atom_loop regex input budget fuel atom min max false saved k p count ps)
    (fun r s' => frame fwd m s' /\
       match first (fun e => K (e, c)) (drop (min - count) (run (atom_next atom fwd m) F (left_of max count) p)) with
       | Some y => r = None /\ agree y.2 (caps s') /\ (ends = true -> found s' = Some y.1)
       | None => is_Some r /\ agree c (caps s')
       end) s.
Proof.
  intros Hk Hu Hsv. induction fuel as [|fuel IH]; intros F p count ps s Hf Hc Hp HF; [done|].
  destruct F as [|F]; [lia|]. rewrite run_unfold. cbn [atom_loop negb andb]. rules.
  apply runs_step. intros _. rules.
  set (tail := if match max with Some m => (m <=? count)%nat | None => false end then [] else _).
  apply runs_mono with (Q := fun b s' => frame fwd m s' /\
    match (if (min <=? count)%nat then K (p, c) else None) with
    | Some y => b = true /\ agree y.2 (caps s') /\ (ends = true -> found s' = Some y.1)
    | None => b = false /\ agree c (caps s')
    end).
  { destruct (min <=? count)%nat; rules; [|done]. eapply yields_call; [by apply Hk|]. intros s' Hf'.
    destruct (K (p, c)); intros Ha; rules; [by split|]. apply runs_restore'. by rules. }
  intros b s1 [Hf1 H1].
  assert (first (fun e => K (e, c)) (drop (min - count) (p :: tail))
    = orelse (if (min <=? count)%nat then K (p, c) else None)
        (first (fun e => K (e, c)) (drop (min - S count) tail))) as ->.
  { destruct (min <=? count)%nat eqn:E; [apply Nat.leb_le in E|apply Nat.leb_gt in E].
    - replace (min - count)%nat with 0%nat by lia. replace (min - S count)%nat with 0%nat by lia. simpl. by destruct (K (p, c)).
    - replace (min - count)%nat with (S (min - S count)) by lia. done. }
  destruct (if (min <=? count)%nat then K (p, c) else None) as [y|]; destruct H1 as [-> H1]; rules; [by split|].
  simpl orelse. subst tail. destruct (match max with Some _ => _ | None => _ end); rules.
  { rewrite drop_nil. simpl. split_and!; eauto. }
  pose proof Hf1 as [Hfw Hmd]. rewrite Hfw, Hmd. unfold atom_next at 1.
  destruct (character regex input fwd p) as [[ch e]|] eqn:E; rules; [|rewrite drop_nil; simpl; split_and!; eauto].
  destruct (atom_matches regex atom m ch) eqn:Ea; rules; [|rewrite drop_nil; simpl; split_and!; eauto].
  pose proof (reach_in _ _ _ _ Hp) as Hp'. destruct (character_progress _ _ _ _ Hp' E) as [He Hr].
  apply IH; [done..| |lia]. eapply reach_trans; [exact Hp|]. by apply progress_reach.
Qed.

Lemma repeat_atom_meets ends fwd m lo U K atom min max greedy k : meets ends fwd m lo U k K ->
  match max with Some max => (min <= max)%nat | None => True end ->
  meets ends fwd m lo U (fun p => repeat_atom regex input budget atom min max greedy p k)
    (fun x => first K (repetition (single (atom_next atom fwd m)) (S (length input)) min max greedy x)).
Proof.
  intros Hk Hm p s c Hp Hf Hc Hu. pose proof (reach_in _ _ _ _ Hp) as Hp'.
  assert (room input fwd p < S (length input))%nat as Hroom by (unfold room; destruct fwd; lia).
  rewrite (repetition_run input fwd) by (done || apply atom_progress).
  rewrite first_map. unfold yields, repeat_atom. rules.
  assert (left_of max 0 = max) as E0 by (destruct max; simpl; [by rewrite Nat.sub_0_r|done]).
  destruct greedy.
  - eapply runs_mono; [apply (atom_loop_greedy fwd m atom min max (caps s) k _ (S (length input)) p 0 []); try done|].
    intros r s1 (Hf1 & Hc1 & count & -> & Hl). rewrite E0 in Hl |- *. cbn [app andb] in *.
    destruct (min <=? count)%nat eqn:Ec.
    + eapply try_positions_meets; eauto; [|by rewrite Hc1].
      apply Forall_rev, Forall_drop, run_in; [apply atom_progress|done].
    + apply Nat.leb_gt in Ec. rewrite drop_ge by (rewrite <- Hl; lia). apply yields_none; [done|by rewrite Hc1].
  - eapply runs_mono; [eapply (atom_loop_lazy ends fwd m lo U K atom min max (caps s) k c Hk Hu Hc _ (S (length input))); eauto|].
    intros r s1 [Hf1 H1]. rewrite E0, Nat.sub_0_r in H1.
    destruct (first _ _) as [y|]; [destruct H1 as (-> & ? & ?); by rules|].
    destruct H1 as [[[count ps] ->] H1]. simpl. by rules.
Qed.

(** *** Repeated classes with strings *)

Section ClassLoop.
Context (ends fwd : bool) (m : Z) (lo : nat) (U : list nat) (k : nat -> M bool) (K : Place -> option Place).
Context (Hk : meets ends fwd m lo U k K).
Context (c saved : list (option (nat * nat))) (Hu : unset U c) (Hsaved : agree c saved).
Context (negated : bool) (items : list ClassItem) (min : nat) (max : option nat) (greedy : bool).
Context (Hmax : match max with Some max => (min <= max)%nat | None => True end).

Abbreviation ends_of p := (class_ends regex input m fwd negated items p).

Definition class_body (y : Place) : list Place := map (fun e => (e, y.2)) (ends_of y.1).

(** The answer from a position after so many iterations. *)
Definition value (p count : nat) : option Place :=
  first K (flat_map (optional class_body (S (length input)) (left_of max (Nat.max min count)) greedy)
    (mandatory class_body (min - count) (p, c))).

Lemma class_body_leads : all_lead input [] fwd class_body.
Proof.
  intros x y Hx (e & -> & He)%list_elem_of_fmap. split; [|done]. simpl.
  pose proof (class_ends_in regex input Hunits m fwd negated items x.1 Hx) as HF. unfold ends_in in HF.
  rewrite Forall_forall in HF. by apply HF.
Qed.

Lemma room_bound p : (p <= length input)%nat -> (room input fwd p <= length input)%nat.
Proof. unfold room. destruct fwd; lia. Qed.

Lemma value_below p count : (count < min)%nat ->
  value p count = first (fun e => value e (S count)) (ends_of p).
Proof.
  intros Hc. unfold value. replace (min - count)%nat with (S (min - S count)) by lia.
  cbn [mandatory]. unfold class_body at 3. cbn [fst snd].
  rewrite !first_flat_map, first_map. apply first_ext. intros e _.
  rewrite first_flat_map. replace (Nat.max min (S count)) with (Nat.max min count) by lia. done.
Qed.

Lemma value_above p count : (p <= length input)%nat -> (min <= count)%nat ->
  value p count =
  let more := if match max with Some m => (m <=? count)%nat | None => false end then None
              else first (fun e => if (e =? p)%nat then None else value e (S count)) (ends_of p) in
  if greedy then orelse more (K (p, c)) else orelse (K (p, c)) more.
Proof.
  intros Hp Hc. unfold value at 1. replace (min - count)%nat with 0%nat by lia.
  replace (Nat.max min count) with count by lia. cbn [mandatory flat_map]. rewrite app_nil_r.
  cbn [optional]. rewrite bound_reached. cbn [fst].
  assert (first K (flat_map (fun y => if (y.1 =? p)%nat then []
      else optional class_body (length input) (pred <$> left_of max count) greedy y) (class_body (p, c)))
    = first (fun e => if (e =? p)%nat then None else value e (S count)) (ends_of p)) as E.
  { rewrite first_flat_map. unfold class_body at 2. cbn [fst snd]. rewrite first_map. apply first_ext.
    intros e He. cbn [fst]. destruct (e =? p)%nat eqn:Ee; [done|]. apply Nat.eqb_neq in Ee.
    assert (leads input [] fwd (p, c) (e, c)) as [[Hi Hd] _].
    { apply class_body_leads; [done|]. apply list_elem_of_fmap. eauto. }
    simpl in Hi, Hd. unfold value. replace (min - S count)%nat with 0%nat by lia.
    replace (Nat.max min (S count)) with (S count) by lia. cbn [mandatory flat_map]. rewrite app_nil_r.
    rewrite bound_next. f_equal. apply (optional_fuel input [] fwd); [apply class_body_leads|done|..];
      simpl; unfold room; destruct fwd; lia. }
  set (more := match left_of max count with Some O => [] | _ => _ end).
  assert (first K more = if match left_of max count with Some O => true | _ => false end then None
    else first (fun e => if (e =? p)%nat then None else value e (S count)) (ends_of p)) as <-.
  { subst more. destruct (left_of max count) as [[|n]|]; [done|exact E..]. }
  destruct greedy.
  - rewrite first_app. simpl. by destruct (K (p, c)).
  - simpl. by destruct (K (p, c)).
Qed.

(** Past the minimum of an unbounded repetition the count no longer matters. *)
Definition next_count (count : nat) : nat :=
  match max with
  | None => if (min <=? count)%nat then min else S count
  | Some _ => S count
  end.

Lemma value_next p count : value p (next_count count) = value p (S count).
Proof.
  unfold next_count, value. destruct max; [done|]. destruct (min <=? count)%nat eqn:E; [|done].
  apply Nat.leb_le in E. simpl. replace (min - min)%nat with (min - S count)%nat by lia. done.
Qed.

(** What a frame has left to try. *)
Definition ends_value (f : Frame) : option Place :=
  first (fun e => if (e =? fpos f)%nat && (min <=? fcount f)%nat then None else value e (S (fcount f)))
    (fends f).
Definition stop_value (f : Frame) : option Place :=
  if (min <=? fcount f)%nat && negb (tried_stop f) then K (fpos f, c) else None.
Definition rest_value (f : Frame) : option Place :=
  if greedy then orelse (ends_value f) (stop_value f) else orelse (stop_value f) (ends_value f).

Lemma orelse_none {A} (a : option A) : orelse a None = a.
Proof. by destruct a. Qed.
Lemma orelse_assoc {A} (x y z : option A) : orelse (orelse x y) z = orelse x (orelse y z).
Proof. by destruct x. Qed.

Lemma make_frame_value p count : (p <= length input)%nat ->
  rest_value (make_frame regex input m fwd negated items max p count) = value p count.
Proof.
  intros Hp. unfold rest_value, ends_value, stop_value. simpl. rewrite andb_true_r.
  destruct (min <=? count)%nat eqn:E; [apply Nat.leb_le in E|apply Nat.leb_gt in E].
  - rewrite value_above by done.
    assert (match max with Some limit => (count <? limit)%nat | None => true end
      = negb match max with Some m => (m <=? count)%nat | None => false end) as ->
      by (destruct max; [|done]; by rewrite Nat.leb_antisym, negb_involutive).
    destruct (match max with Some _ => _ | None => false end); simpl; [done|].
    rewrite (first_ext _ (fun e => if (e =? p)%nat then None else value e (S count))); [done|].
    intros e _. by rewrite andb_true_r.
  - rewrite value_below by done.
    assert (match max with Some limit => (count <? limit)%nat | None => true end = true) as ->
      by (destruct max; [apply Nat.ltb_lt; lia|done]).
    rewrite (first_ext _ (fun e => value e (S count))) by (intros e _; by rewrite andb_false_r).
    rewrite orelse_none. by destruct greedy.
Qed.

(** The frames below one of value [v] end in the answer of the whole loop. *)
Fixpoint chain (goal v : option Place) (rest : list Frame) : Prop :=
  match rest with
  | [] => v = goal
  | f :: rest => value (fpos f) (fcount f) = orelse v (rest_value f)
                 /\ chain goal (value (fpos f) (fcount f)) rest
  end.

Lemma chain_some goal y : forall rest v, chain goal v rest -> v = Some y -> goal = Some y.
Proof.
  induction rest as [|f rest IH]; intros v; simpl; [congruence|]. intros [E Hc] ->. by eapply IH.
Qed.

Lemma try_stop_meets now f s : frame_in input fwd lo f -> frame fwd m s -> agree c (caps s) ->
  runs false (try_stop saved k min now f) (fun r s' => frame fwd m s' /\
    match (if now then stop_value f else None) with
    | Some y => r = None /\ agree y.2 (caps s') /\ (ends = true -> found s' = Some y.1)
    | None => agree c (caps s') /\ r = Some (if now && (min <=? fcount f)%nat && negb (tried_stop f)
                                            then tried f else f)
    end) s.
Proof.
  intros Hf Hs Hc. unfold try_stop, stop_value. destruct now; simpl; [|by rules].
  destruct (_ && _); rules; [|done]. eapply yields_call; [apply Hk; [apply Hf|done..]|]. intros s' Hs'.
  destruct (K _); intros Ha; rules; [by split|]. apply runs_restore'. by rules.
Qed.

Definition set_ends (f : Frame) (l : list nat) : Frame :=
  {| fpos := fpos f; fcount := fcount f; fends := l; tried_stop := tried_stop f |}.

(** After its first stop a lazy frame has only its ends left. *)
Lemma first_stop f : (if negb greedy then stop_value f else None) = None ->
  let f1 := if negb greedy && (min <=? fcount f)%nat && negb (tried_stop f) then tried f else f in
  rest_value f1 = rest_value f /\ (greedy = false -> stop_value f1 = None)
  /\ fpos f1 = fpos f /\ fcount f1 = fcount f /\ fends f1 = fends f.
Proof.
  unfold rest_value, stop_value, ends_value. destruct greedy; simpl; [done|].
  destruct ((min <=? fcount f)%nat && negb (tried_stop f)) eqn:E; simpl; intros E1; rewrite ?E1, ?E.
  - rewrite andb_false_r. done.
  - done.
Qed.

Lemma rest_value_cons f next l : fends f = next :: l -> (greedy = false -> stop_value f = None) ->
  rest_value f = orelse (if (next =? fpos f)%nat && (min <=? fcount f)%nat then None
                         else value next (S (fcount f))) (rest_value (set_ends f l)).
Proof.
  intros E Hs. unfold rest_value, ends_value, stop_value in *. rewrite E. simpl.
  destruct greedy.
  - destruct ((next =? fpos f)%nat && (min <=? fcount f)%nat); [done|]. by destruct (value next _).
  - rewrite Hs by done. simpl. destruct ((next =? fpos f)%nat && (min <=? fcount f)%nat); [done|]. by destruct (value next _).
Qed.

(** The answer from a stack of frames. *)
Definition stack_value (goal : option Place) (stack : list Frame) : Prop :=
  match stack with
  | [] => goal = None
  | f :: rest => value (fpos f) (fcount f) = rest_value f
                 /\ chain goal (value (fpos f) (fcount f)) rest
  end.

Lemma chain_pop goal rest : chain goal None rest -> stack_value goal rest.
Proof. destruct rest as [|f rest]; simpl; [done|]. done. Qed.

Lemma class_loop_meets goal : forall fuel failed stack s, frame fwd m s -> agree c (caps s) ->
  Forall (frame_in input fwd lo) stack -> (forall x, x ∈ failed -> value x.1 x.2 = None) ->
  stack_value goal stack ->
  yields ends fwd m
    (class_loop regex input budget fuel negated items min max greedy saved k failed stack) goal c s.
Proof.
  induction fuel as [|fuel IH]; intros failed stack s Hs Hc Hst Hfail Hv;
    (destruct stack as [|f rest]; [simpl in Hv; rewrite Hv; by apply yields_none|]); [done|].
  inversion_clear Hst as [|?? Hf Hrest]. destruct Hv as [Hv Hch].
  unfold yields. cbn [class_loop]. rules. apply runs_step. intros _. rules.
  eapply runs_mono; [by apply (try_stop_meets (negb greedy) f)|]. intros r s1 [Hs1 H1].
  destruct (if negb greedy then stop_value f else None) as [y|] eqn:Estop.
  { destruct H1 as [-> H1]. rules. split; [done|].
    assert (goal = Some y) as ->; [|done]. eapply chain_some; [exact Hch|]. rewrite Hv.
    unfold rest_value. destruct greedy; simpl in Estop; [done|]. by rewrite Estop. }
  destruct H1 as [Hc1 ->]. destruct (first_stop f Estop) as (Er & Es & Ep & Ec & Ee).
  set (f1 := if negb greedy && _ && _ then tried f else f) in *. rewrite <- Er in Hv.
  rewrite <- Ep, <- Ec in Hv, Hch. destruct Hf as [Hfp Hfe]. rewrite <- Ep in Hfp. rewrite <- Ee in Hfe.
  clearbody f1. clear Er Ep Ec Ee f Estop.
  destruct (fends f1) as [|next l] eqn:El.
  - rules. eapply runs_mono; [apply (try_stop_meets greedy f1); [split; [done|by rewrite El]|done..]|].
    intros r s2 [Hs2 H2].
    assert (rest_value f1 = if greedy then stop_value f1 else None) as Er.
    { unfold rest_value, ends_value. rewrite El. simpl. destruct greedy; [done|]. by rewrite Es. }
    rewrite <- Er, <- Hv in H2. destruct (value (fpos f1) (fcount f1)) as [y|] eqn:Ev.
    { destruct H2 as [-> H2]. rules. split; [done|]. by rewrite (chain_some _ _ _ _ Hch eq_refl). }
    destruct H2 as [Hc2 ->]. apply IH; [done..| |by apply chain_pop].
    intros x [Hx|Hx]%elem_of_union; [|by apply Hfail]. apply elem_of_singleton in Hx as ->.
    simpl. destruct (_ && _); done.
  - inversion_clear Hfe as [|?? Hn Hl]. change (fpos (set_ends f1 l)) with (fpos f1) in *.
    rewrite (rest_value_cons f1 next l El Es) in Hv. fold (set_ends f1 l).
    assert (frame_in input fwd lo (set_ends f1 l)) as Hf2 by done.
    cbn [fpos fcount set_ends].
    destruct ((next =? fpos f1)%nat && (min <=? fcount f1)%nat) eqn:Eskip.
    { apply IH; [done..|by constructor|done|by split]. }
    change (match max with None => if (min <=? fcount f1)%nat then min else S (fcount f1)
                        | Some _ => S (fcount f1) end) with (next_count (fcount f1)).
    rewrite <- (value_next next (fcount f1)) in Hv.
    case_bool_decide as Hin.
    { apply Hfail in Hin. simpl in Hin. rewrite Hin in Hv. apply IH; [done..|by constructor|done|by split]. }
    rules. destruct Hs1 as [Hfw Hmd]. rewrite Hfw, Hmd. pose proof (reach_in _ _ _ _ Hn) as Hnl.
    apply IH; [done|done| |done|].
    + constructor; [by apply make_frame_in|by constructor].
    + split; [by rewrite make_frame_value|]. by split.
Qed.

Lemma class_repetition p s : reach input fwd lo p -> frame fwd m s -> agree c (caps s) ->
  forall fuel, yields ends fwd m
    (class_loop regex input budget fuel negated items min max greedy saved k ∅
      [make_frame regex input m fwd negated items max p 0])
    (first K (repetition class_body (S (length input)) min max greedy (p, c))) c s.
Proof.
  intros Hp Hs Hc fuel. pose proof (reach_in _ _ _ _ Hp).
  assert (first K (repetition class_body (S (length input)) min max greedy (p, c)) = value p 0) as ->.
  { unfold value, repetition. by rewrite Nat.sub_0_r, Nat.max_0_r. }
  apply class_loop_meets; [done..| |set_solver|].
  - constructor; [by apply make_frame_in|done].
  - split; [by rewrite make_frame_value|done].
Qed.

End ClassLoop.

(** A class of single characters moves by one of them. *)
Lemma scalar_class_ends items : scalar_only items = true -> forall m fwd neg p,
  class_ends regex input m fwd neg items p
  = match class_next neg items fwd m p with Some e => [e] | None => [] end.
Proof.
  intros Hs m fwd neg p. apply andb_prop in Hs as [_ Hs]. unfold class_ends, class_next, class_matches.
  destruct neg.
  - destruct (character _ _ _ _) as [[ch e]|]; [|done]. by destruct (union_matches _ _ _ _).
  - assert (flat_map (item_ends regex input m fwd p) items = []) as E.
    { clear -Hs. induction items as [|i items IH]; [done|]. simpl in *. apply andb_prop in Hs as [Hi Hs].
      rewrite IH by done. by destruct i. }
    unfold union_ends. rewrite E. unfold scalar_end. simpl.
    destruct (character _ _ _ _) as [[ch e]|]; [|done]. by destruct (union_matches _ _ _ _).
Qed.

Lemma repeat_class_meets ends fwd m lo U K negated items min max greedy k : meets ends fwd m lo U k K ->
  match max with Some max => (min <= max)%nat | None => True end ->
  meets ends fwd m lo U (fun p => repeat_class regex input budget negated items min max greedy p k)
    (fun x => first K (repetition (class_body fwd m negated items) (S (length input)) min max greedy x)).
Proof.
  intros Hk Hm p s c Hp Hf Hc Hu. pose proof (reach_in _ _ _ _ Hp) as Hp'.
  unfold yields, repeat_class. rules. destruct Hf as [Hfw Hmd]. rewrite Hfw, Hmd.
  destruct (scalar_only items) eqn:Es; [|by eapply class_repetition].
  assert (room input fwd p < S (length input))%nat as Hroom by (unfold room; destruct fwd; lia).
  rewrite (repetition_ext _ (single (class_next negated items fwd m))).
  2: { intros x. unfold class_body, single. rewrite scalar_class_ends by done. by destruct (class_next _ _ _ _ _). }
  rewrite (repetition_run input fwd) by (done || apply class_progress). rewrite first_map.
  pose proof (scalar_run_run m fwd negated items max (S (length input)) p []) as E. cbn [app] in E.
  rewrite E. assert ((fun max => (max - length (@nil nat))%nat) <$> max = max) as ->
    by (destruct max; simpl; [by rewrite Nat.sub_0_r|done]).
  eapply try_ends_meets; eauto; [|done].
  assert (ends_in input fwd lo (drop min (run (class_next negated items fwd m) (S (length input)) max p)))
    by (apply Forall_drop, run_in; [apply class_progress|done]).
  destruct greedy; [by apply Forall_rev|done].
Qed.

(** *** Leaves *)

Lemma backreference_meets ends fwd m lo U K k index p s c : exact = true -> meets ends fwd m lo U k K ->
  reach input fwd lo p -> frame fwd m s -> agree c (caps s) -> unset U c ->
  yields ends fwd m (backreference regex input index p k)
    (first K (backreference_matches regex input index fwd m (p, c))) c s.
Proof.
  intros Hex Hk Hp [Hfw Hmd] Hc Hu. unfold yields, backreference. rules.
  rewrite (Hc Hex). rewrite Hfw, Hmd. unfold backreference_matches.
  assert (forall e, reach input fwd lo e -> yields ends fwd m (k e) (first K [(e, c)]) c s) as Hcall.
  { intros e He. simpl. assert (match K (e, c) with Some y => Some y | None => None end = K (e, c)) as ->
      by (by destruct (K (e, c))). by apply Hk. }
  destruct (c !! index) as [[[a b]|]|]; [|by apply Hcall..].
  destruct (b <? a)%nat eqn:Eab; [done|]. apply Nat.ltb_ge in Eab.
  destruct (negb fwd && _) eqn:E1; simpl; [by apply (yields_none ends)|].
  destruct (length input <? _)%nat eqn:E2; [by apply (yields_none ends)|].
  destruct (unicode regex && _); [by apply (yields_none ends)|].
  destruct (same_text _ _ _ _ _ _ _ _) as [[]|]; [|by apply (yields_none ends)|done].
  apply Hcall. apply Nat.ltb_ge in E2. unfold reach in *. destruct fwd; simpl in *; lia.
Qed.

Lemma leaf_meets n ends fwd m lo U k K : meets ends fwd m lo U k K -> supported exact n = true ->
  match n with
  | Empty | NChar _ | AnyChar | Class _ _ | Backref _ | NamedBackref _ | NAnchor _ => True
  | _ => False
  end ->
  meets ends fwd m lo U (fun p => leaf regex input n p k)
    (fun x => first K (matches regex input n fwd m x)).
Proof.
  intros Hk Hn Hleaf p s c Hp Hf Hc Hu. pose proof (reach_in _ _ _ _ Hp) as Hp'.
  assert (forall e, reach input fwd lo e -> yields ends fwd m (k e) (first K [(e, c)]) c s) as Hcall.
  { intros e He. simpl. assert (match K (e, c) with Some y => Some y | None => None end = K (e, c)) as ->
      by (by destruct (K (e, c))). by apply Hk. }
  unfold yields, leaf. rules. pose proof Hf as [Hfw Hmd]. rewrite Hfw, Hmd.
  destruct n; try done; cbn [matches].
  - by apply Hcall.
  - destruct (character _ _ _ _) as [[ch e]|] eqn:E; [|by apply (yields_none ends)].
    destruct (same_char _ _ _ _); [|by apply (yields_none ends)]. apply Hcall.
    eapply reach_trans; [exact Hp|by eapply character_in].
  - destruct (character _ _ _ _) as [[ch e]|] eqn:E; [|by apply (yields_none ends)].
    destruct (_ || _); [|by apply (yields_none ends)]. apply Hcall.
    eapply reach_trans; [exact Hp|by eapply character_in].
  - rewrite first_map. eapply try_ends_meets; eauto.
    eapply Forall_impl; [by apply class_ends_in|]. intros e He. by eapply reach_trans.
  - by eapply backreference_meets.
  - simpl in Hn. rewrite (Hc Hn). destruct (_ ≫= _); [by eapply backreference_meets|by apply Hcall].
  - destruct (anchor_holds _ _ _ _ _) as [[]|e|] eqn:E; [by apply Hcall|by apply (yields_none ends)| |done].
    destruct (anchor_holds_ok regex input m anchor p Hp') as [b Eb]. congruence.
Qed.

(** *** Nodes *)

Definition node_meets (fuel : nat) : Prop := forall n ends fwd m lo U k K,
  supported exact n = true -> NoDup (groups n) -> groups n ## U -> meets ends fwd m lo U k K ->
  meets ends fwd m lo (groups n ++ U) (fun p => node regex input budget fuel n p k)
    (fun x => first K (matches regex input n fwd m x)).

Definition sequence_meets (fuel : nat) : Prop := forall l ends fwd m lo U k K,
  forallb (supported exact) l = true -> NoDup (flat_map groups l) -> flat_map groups l ## U ->
  meets ends fwd m lo U k K ->
  meets ends fwd m lo (flat_map groups l ++ U) (fun p => sequence regex input budget fuel l p k)
    (fun x => first K (matches regex input (Concat l) fwd m x)).

(** An iteration of a repeated node. *)
Definition iteration (n : Node) (fwd : bool) (m : Z) (y : Place) : list Place :=
  matches regex input n fwd m (y.1, cleared n y.2).

(** The matches of a repetition after [count] iterations. *)
Definition repeated (n : Node) (fwd : bool) (m : Z) (min : nat) (max : option nat) (greedy : bool)
    (fuel count : nat) (x : Place) : list Place :=
  flat_map (optional (iteration n fwd m) fuel (left_of max (Nat.max min count)) greedy)
    (mandatory (iteration n fwd m) (min - count) x).

Definition repeat_meets (fuel : nat) : Prop := forall n min max greedy count ends fwd m lo U k K,
  supported exact (Repeat n min max greedy) = true -> NoDup (groups n) -> groups n ## U ->
  meets ends fwd m lo U k K -> forall F p s c, reach input fwd lo p -> (room input fwd p < F)%nat ->
  frame fwd m s -> agree c (caps s) -> unset U c -> (count = 0%nat -> unset (groups n) c) ->
  yields ends fwd m (repeat regex input budget fuel n min max greedy count p k)
    (first K (repeated n fwd m min max greedy F count (p, c))) c s.

Lemma alternatives_meets ends fwd m fuel lo p k K U : forall l,
  (forall n, n ∈ l -> forall s c, frame fwd m s -> agree c (caps s) -> unset (groups n ++ U) c ->
     yields ends fwd m (node regex input budget fuel n p k)
       (first K (matches regex input n fwd m (p, c))) c s) ->
  reach input fwd lo p -> forall s c, frame fwd m s -> agree c (caps s) ->
  unset (flat_map groups l ++ U) c ->
  yields ends fwd m (alternatives (fun b => node regex input budget fuel b p k) l)
    (first K (flat_map (fun n => matches regex input n fwd m (p, c)) l)) c s.
Proof.
  induction l as [|n l IH]; intros Hall Hp s c Hf Hc Hu; simpl; [by apply yields_none|].
  rewrite first_app. unfold yields. rules. eapply yields_call; [apply Hall; [set_solver|done..|]|].
  { eapply unset_mono; [|exact Hu]. simpl. set_solver. }
  intros s' Hf'. destruct (first K (matches _ _ n _ _ _)) as [y|]; intros Ha; rules; [by split|].
  apply IH; [set_solver|done..|]. eapply unset_mono; [|exact Hu]. simpl. set_solver.
Qed.

(** Groups put their match for the continuation and take it back. *)
Lemma group_end_meets ends fwd m lo U k K index start : meets ends fwd m lo U k K -> index ∉ U ->
  meets ends fwd m lo U (group_end index start k)
    (fun x => K (x.1, <[index := Some (Nat.min start x.1, Nat.max start x.1)]> x.2)).
Proof.
  intros Hk Hi p s c Hp Hf Hc Hu. unfold yields, group_end. rules.
  destruct (caps s !! index) as [before|] eqn:Eb; [|done]. rules. apply runs_put'. intros Hlt. rules.
  set (x := Some (Nat.min start p, Nat.max start p)).
  eapply yields_call; [apply (Hk p _ (<[index := x]> c)); [done..| |by apply unset_insert]|].
  { intros Hex. simpl. by rewrite (Hc Hex). }
  intros s' Hf'. cbn [fst snd]. subst x.
  destruct (K _) as [y|]; intros Ha; rules; [by split|]. apply runs_put'. intros Hlt'. rules.
  split; [done|]. split; [done|]. intros Hex. simpl. rewrite (Ha Hex), list_insert_insert_eq.
  specialize (Hc Hex). rewrite Hc in Eb. by apply list_insert_id.
Qed.

Lemma group_exit_meets ends fwd m index previous r c b s : frame fwd m s -> answers ends r c b s ->
  (exact = true -> previous = mjoin (c !! index)) ->
  yields ends fwd m (group_exit index previous b) r c s.
Proof.
  intros Hf Ha Hprev. unfold yields, group_exit. rules. destruct r as [y|].
  - destruct Ha as [-> Ha]. simpl. by rules.
  - destruct Ha as [-> Ha]. simpl. destruct (_ <? _)%nat; rules; [|done]. apply runs_put'. intros Hlt. rules.
    split; [done|]. split; [done|]. intros Hex. simpl. rewrite (Hprev Hex), (Ha Hex) in *.
    apply lookup_lt_is_Some in Hlt as [x Ex]. rewrite Ex. simpl.
    destruct x; by apply list_insert_id.
Qed.

Lemma modifiers_meets ends fwd outer inner lo U k K : meets ends fwd outer lo U k K ->
  meets ends fwd inner lo U (fun pos =>
    with_modifiers outer ;! finally (k pos) (fun s => set_modifiers s inner)) K.
Proof.
  intros Hk p s c Hp [Hfw Hmd] Hc Hu. unfold yields, with_modifiers. rules.
  eapply runs_mono; [by apply Hk|]. intros b s' [[Hf' _] Ha]. by split.
Qed.

Lemma accept_meets fwd m lo U : meets false fwd m lo U (fun _ => ret true) Some.
Proof. intros p s c Hp Hf Hc Hu. by split. Qed.

Lemma no_groups_matches n fwd m x y : no_groups n = true -> inside input x ->
  y ∈ matches regex input n fwd m x -> y.2 = x.2.
Proof.
  intros Hn Hx Hy. pose proof (matches_lead regex input Hunits n fwd m x y Hx Hy) as [_ HS].
  unfold no_groups in Hn. destruct (groups n); [|done]. by apply same_but_nil.
Qed.

(** After the body of a lookaround. *)
Lemma look_exit_meets ends fwd m lo U k K ahead negative n p saved : meets ends fwd m lo U k K ->
  groups n ## U -> (negb exact || negative || no_groups n) = true ->
  forall s c, reach input fwd lo p -> unset U c -> agree c saved -> frame fwd m s ->
  forall hit, answers false (head (matches regex input n ahead m (p, c))) c hit s ->
  yields ends fwd m (look_exit negative hit saved p k)
    (first K (matches regex input (Look ahead negative n) fwd m (p, c))) c s.
Proof.
  intros Hk HD Hex s c Hp Hu Hsv Hf hit Ha. pose proof (reach_in _ _ _ _ Hp) as Hp'.
  cbn [matches]. unfold yields, look_exit.
  assert (forall c' s', unset U c' -> agree c' (caps s') -> frame fwd m s' -> (exact = true -> c' = c) ->
    yields ends fwd m (k p) (first K [(p, c')]) c s') as Hcall.
  { intros c' s' Hu' Hc' Hf' Hcc. simpl.
    assert (match K (p, c') with Some y => Some y | None => None end = K (p, c')) as -> by (by destruct (K (p, c'))).
    eapply runs_mono; [by apply Hk|]. intros b s2 [Hf2 Ha2]. split; [done|].
    destruct (K (p, c')); [done|]. destruct Ha2 as [-> Ha2]. split; [done|]. intros E.
    rewrite (Ha2 E). by apply Hcc. }
  destruct (matches regex input n ahead m (p, c)) as [|y l] eqn:E; destruct Ha as [-> Ha].
  - destruct negative; simpl; rules; [|by split]. by apply Hcall.
  - assert (y ∈ matches regex input n ahead m (p, c)) as Hy by (rewrite E; set_solver).
    destruct negative; simpl; rules; [by split|]. apply Hcall; [|by apply Ha|done|].
    + pose proof (matches_lead regex input Hunits n ahead m (p, c) y Hp' Hy) as [_ HS].
      by eapply unset_same_but.
    + intros Hx. rewrite Hx in Hex. simpl in Hex. by eapply (no_groups_matches n ahead m (p, c)).
Qed.

(** *** Sequences *)

Lemma matches_cons n l m x : matches regex input (Concat (n :: l)) true m x
  = flat_map (matches regex input (Concat l) true m) (matches regex input n true m x).
Proof. destruct x as [p c]. simpl. apply flat_map_ext. by intros []. Qed.

Lemma matches_snoc n l m x : matches regex input (Concat (l ++ [n])) false m x
  = flat_map (matches regex input (Concat l) false m) (matches regex input n false m x).
Proof.
  induction l as [|a l IH].
  - destruct x as [p c]. simpl. rewrite app_nil_r.
    induction (matches regex input n false m (p, c)) as [|[q d] r IHr]; [done|]. simpl. by f_equal.
  - assert (forall l' x, matches regex input (Concat (a :: l')) false m x
      = flat_map (matches regex input a false m) (matches regex input (Concat l') false m x)) as Hc
      by (intros l' [p c]; done).
    rewrite <- app_comm_cons, Hc, IH.
    generalize (matches regex input n false m x) as r. induction r as [|y r IHr]; [done|].
    cbn [flat_map]. rewrite flat_map_app. by rewrite IHr, Hc.
Qed.

Lemma split_sequence_matches fwd l head rest m x : split_sequence fwd l = Some (head, rest) ->
  matches regex input (Concat l) fwd m x
  = flat_map (matches regex input (Concat rest) fwd m) (matches regex input head fwd m x)
  /\ flat_map groups l ≡ₚ groups head ++ flat_map groups rest
  /\ (forallb (supported exact) l = true ->
      supported exact head = true /\ forallb (supported exact) rest = true).
Proof.
  intros E. destruct fwd; simpl in E.
  - destruct l; [done|]. injection E as -> ->. split_and!; [apply matches_cons|done|].
    by intros ?%andb_prop.
  - destruct (last l) eqn:F; [|done]. injection E as -> <-. apply last_Some in F as [l' ->].
    rewrite length_app. simpl. rewrite Nat.add_sub, take_app_length. split_and!; [apply matches_snoc| |].
    + rewrite flat_map_app. simpl. rewrite app_nil_r. apply Permutation_app_comm.
    + rewrite forallb_app. simpl. rewrite andb_true_r. by intros [??]%andb_prop.
Qed.

Lemma meets_sequence_step fuel : node_meets fuel -> sequence_meets fuel -> sequence_meets (S fuel).
Proof.
  intros Hn Hseq l ends fwd m lo U k K Hl Hnd HD Hk p s c Hp Hf Hc Hu.
  unfold yields. cbn [sequence]. rules. pose proof Hf as [Hfw _]. rewrite Hfw.
  destruct (split_sequence fwd l) as [[hd rest]|] eqn:E.
  - destruct (split_sequence_matches fwd l hd rest m (p, c) E) as (-> & HP & Hs).
    destruct (Hs Hl) as [Hh Hr]. rewrite HP in Hnd. apply NoDup_app in Hnd as (N1 & N2 & N3).
    assert (forall i, i ∈ flat_map groups l <-> i ∈ groups hd ++ flat_map groups rest) as Hin
      by (intros i; by rewrite HP).
    rewrite first_flat_map. apply (Hn hd) with (lo := lo) (U := flat_map groups rest ++ U); [done|done|set_solver| |done|done|done|].
    + intros q s' c' Hq Hf' Hc' Hu'. apply (Hseq rest) with (lo := lo) (U := U); try done. set_solver.
    + eapply unset_mono; [|exact Hu]. set_solver.
  - assert (l = []) as ->.
    { destruct fwd; simpl in E; [by destruct l|]. destruct (last l) eqn:F; [done|]. by apply last_None in F. }
    assert (first K (matches regex input (Concat []) fwd m (p, c)) = K (p, c)) as ->
      by (destruct fwd; simpl; by destruct (K (p, c))). by apply Hk.
Qed.

(** *** Repetitions *)

Lemma iteration_leads n fwd m : all_lead input (groups n) fwd (iteration n fwd m).
Proof.
  intros x y Hx Hy. pose proof (matches_lead regex input Hunits n fwd m (x.1, cleared n x.2) y Hx Hy) as [HR HS].
  split; [done|]. eapply same_but_trans; [apply cleared_same|done].
Qed.

Lemma repeated_fuel n fwd m min max greedy F F' count x : inside input x ->
  (room input fwd x.1 < F)%nat -> (room input fwd x.1 < F')%nat ->
  forall K : Place -> option Place, first K (repeated n fwd m min max greedy F count x)
  = first K (repeated n fwd m min max greedy F' count x).
Proof.
  intros Hx H1 H2 K. unfold repeated. rewrite !first_flat_map. apply first_ext. intros y Hy.
  pose proof (mandatory_leads input (groups n) fwd _ (min - count) (iteration_leads n fwd m) x y Hx Hy) as HL.
  pose proof (leads_inside _ _ _ _ _ HL) as Hy'. destruct HL as [[Hr1 Hr2] _].
  assert (room input fwd y.1 <= room input fwd x.1)%nat by (unfold room; destruct fwd; lia).
  f_equal. apply (optional_fuel input (groups n) fwd); [apply iteration_leads|done|lia..].
Qed.

Lemma repeated_start n fwd m min max greedy F x :
  repeated n fwd m min max greedy F 0 x = repetition (iteration n fwd m) F min max greedy x.
Proof. unfold repeated, repetition. by rewrite Nat.sub_0_r, Nat.max_0_r. Qed.

Lemma strip_groups_matches n : forall fwd m x,
  matches regex input n fwd m x = matches regex input (strip_groups n) fwd m x.
Proof. induction n as [| | | | | | |[i|] n IH| | | | |] using node_induction; try done. intros fwd m [p c]. apply IH. Qed.

Lemma strip_groups_groups n : groups n = groups (strip_groups n).
Proof. by induction n as [| | | | | | |[i|] n IH| | | | |] using node_induction. Qed.

Lemma atom_iteration n fwd m : match strip_groups n with NChar _ | AnyChar => True | _ => False end ->
  forall x, iteration n fwd m x = single (atom_next (strip_groups n) fwd m) x.
Proof.
  intros Hn [p c]. unfold iteration. rewrite strip_groups_matches. simpl.
  rewrite cleared_unset by (rewrite strip_groups_groups; destruct (strip_groups n); try done; intros ???; set_solver).
  unfold single, atom_next. destruct (strip_groups n); try done; simpl;
    (destruct (character _ _ _ _) as [[ch e]|]; [|done]).
  - by destruct (same_char _ _ _ _).
  - by destruct (_ || _).
Qed.

Lemma class_iteration n fwd m neg items : strip_groups n = Class neg items ->
  forall x, iteration n fwd m x = class_body fwd m neg items x.
Proof.
  intros Hn [p c]. unfold iteration. rewrite strip_groups_matches, Hn. simpl.
  rewrite cleared_unset by (rewrite strip_groups_groups, Hn; intros ???; set_solver). done.
Qed.

(** The continuation of an iteration below the minimum, and of a further one. *)
Lemma repeated_below n fwd m min max greedy F count x (K : Place -> option Place) : (count < min)%nat ->
  first K (repeated n fwd m min max greedy F count x)
  = first (fun y => first K (repeated n fwd m min max greedy F (S count) y)) (iteration n fwd m x).
Proof.
  intros Hc. unfold repeated. replace (min - count)%nat with (S (min - S count)) by lia.
  cbn [mandatory]. rewrite !first_flat_map. apply first_ext. intros y _.
  rewrite first_flat_map. by replace (Nat.max min (S count)) with (Nat.max min count) by lia.
Qed.

Lemma repeated_above n fwd m min max greedy F count x (K : Place -> option Place) : (min <= count)%nat ->
  first K (repeated n fwd m min max greedy (S F) count x)
  = let more := if match max with Some max => (count <? max)%nat | None => true end
      then first (fun y => if (y.1 =? x.1)%nat then None
             else first K (repeated n fwd m min max greedy F (S count) y)) (iteration n fwd m x)
      else None in
    if greedy then orelse more (K x) else orelse (K x) more.
Proof.
  intros Hc. unfold repeated at 1. replace (min - count)%nat with 0%nat by lia.
  replace (Nat.max min count) with count by lia. cbn [mandatory flat_map]. rewrite app_nil_r. cbn [optional].
  set (more := match left_of max count with Some O => [] | _ => _ end).
  assert (first K more = if match max with Some max => (count <? max)%nat | None => true end
      then first (fun y => if (y.1 =? x.1)%nat then None
             else first K (repeated n fwd m min max greedy F (S count) y)) (iteration n fwd m x)
      else None) as <-.
  { assert (first K (flat_map (fun y => if (y.1 =? x.1)%nat then []
        else optional (iteration n fwd m) F (pred <$> left_of max count) greedy y) (iteration n fwd m x))
      = first (fun y => if (y.1 =? x.1)%nat then None
             else first K (repeated n fwd m min max greedy F (S count) y)) (iteration n fwd m x)) as E.
    { rewrite first_flat_map. apply first_ext. intros y _. destruct (y.1 =? x.1)%nat; [done|].
      unfold repeated. replace (min - S count)%nat with 0%nat by lia.
      replace (Nat.max min (S count)) with (S count) by lia. cbn [mandatory flat_map].
      by rewrite app_nil_r, bound_next. }
    subst more. destruct max as [max|]; simpl in *; [|exact E].
    destruct (max - count)%nat eqn:Em; [|].
    - assert ((count <? max)%nat = false) as -> by (apply Nat.ltb_ge; lia). done.
    - assert ((count <? max)%nat = true) as -> by (apply Nat.ltb_lt; lia). exact E. }
  destruct greedy.
  - rewrite first_app. simpl. by destruct (K x).
  - simpl. by destruct (K x).
Qed.

Lemma again_meets fuel n min max greedy count ends fwd m lo U k K F : repeat_meets fuel ->
  supported exact (Repeat n min max greedy) = true -> NoDup (groups n) -> groups n ## U ->
  meets ends fwd m lo U k K -> (forall p, reach input fwd lo p -> (room input fwd p < F)%nat) ->
  meets ends fwd m lo U (fun p => repeat regex input budget fuel n min max greedy (S count) p k)
    (fun x => first K (repeated n fwd m min max greedy F (S count) x)).
Proof. intros Hrep Hs Hn HD Hk HF p s c Hp Hf Hc Hu. apply (Hrep n) with (lo := lo) (U := U); auto. done. Qed.

Lemma again_further fuel n min max greedy count ends fwd m p U k K F : repeat_meets fuel ->
  supported exact (Repeat n min max greedy) = true -> NoDup (groups n) -> groups n ## U ->
  meets ends fwd m p U k K -> (p <= length input)%nat -> (room input fwd p < S F)%nat ->
  meets ends fwd m p U (fun next => if (next =? p)%nat then ret false
      else repeat regex input budget fuel n min max greedy (S count) next k)
    (fun y => if (y.1 =? p)%nat then None
              else first K (repeated n fwd m min max greedy F (S count) y)).
Proof.
  intros Hrep Hs Hn HD Hk Hp' HF q s c Hq Hf Hc Hu. cbn [fst].
  destruct (q =? p)%nat eqn:E; [by apply yields_none|]. apply Nat.eqb_neq in E.
  apply (Hrep n) with (lo := p) (U := U); try done.
  unfold reach, room in *. destruct fwd; lia.
Qed.

(** Captures that a failed iteration leaves cleared were not set. *)
Lemma cleared_agree n min max greedy count c : supported exact (Repeat n min max greedy) = true ->
  (count < min)%nat -> (count = 0%nat -> unset (groups n) c) -> exact = true -> cleared n c = c.
Proof.
  intros Hs Hc Hu Hex. apply cleared_unset. simpl in Hs.
  apply andb_prop in Hs as [_ Hs]. rewrite Hex in Hs. simpl in Hs. apply orb_prop in Hs as [Hs|Hs].
  - apply Nat.leb_le in Hs. apply Hu. lia.
  - unfold no_groups in Hs. destruct (groups n); [|done]. intros ???; set_solver.
Qed.

Lemma repeat_general_meets fuel n min max greedy count ends fwd m p U k K F : node_meets fuel ->
  repeat_meets fuel -> supported exact (Repeat n min max greedy) = true -> NoDup (groups n) ->
  groups n ## U -> meets ends fwd m p U k K -> (p <= length input)%nat ->
  (room input fwd p < F)%nat -> forall s c, frame fwd m s -> agree c (caps s) -> unset U c ->
  (count = 0%nat -> unset (groups n) c) ->
  yields ends fwd m
    (repeat_general budget (node regex input budget fuel n p)
       (fun next => repeat regex input budget fuel n min max greedy (S count) next k)
       n min max greedy count p k)
    (first K (repeated n fwd m min max greedy F count (p, c))) c s.
Proof.
  intros Hnode Hrep Hs Hn HD Hk Hp HF s c Hf Hc Hu Hu0.
  pose proof (reach_refl input fwd p Hp) as Hrefl.
  assert (supported exact n = true) as Hs' by (simpl in Hs; by apply andb_prop in Hs as [[? _]%andb_prop _]).
  assert (forall s', agree c (caps s') -> agree (cleared n c) (cleared n (caps s'))) as Hcl
    by (intros s' Hc' Hex; by rewrite (Hc' Hex)).
  pose proof (cleared_sets n U c Hu) as Hcu.
  unfold yields, repeat_general. rules. apply runs_step. intros _.
  destruct (count <? min)%nat eqn:Ecm; rules.
  - apply Nat.ltb_lt in Ecm. apply runs_clear'. rewrite repeated_below by done.
    assert (meets ends fwd m p U (fun p => repeat regex input budget fuel n min max greedy (S count) p k)
      (fun x => first K (repeated n fwd m min max greedy F (S count) x))) as Hag.
    { apply again_meets; try done. intros q Hq. unfold reach, room in *. destruct fwd; lia. }
    eapply runs_mono; [apply (Hnode n ends fwd m p U _ _ Hs' Hn HD Hag p _ (cleared n c)); try done; by apply Hcl|].
    intros b s' [Hf' Ha]. split; [done|]. unfold iteration. cbn [fst snd].
    destruct (first _ _) as [y|]; [done|]. destruct Ha as [-> Ha]. split; [done|]. intros Hex.
    rewrite (Ha Hex). by eapply cleared_agree.
  - apply Nat.ltb_ge in Ecm. destruct F as [|F]; [lia|]. rewrite repeated_above by done. cbv zeta.
    set (more := if match max with Some _ => _ | None => true end then _ else None).
    apply runs_mono with (Q := fun b s' => frame fwd m s' /\
      answers ends (if greedy then None else K (p, c)) c b s').
    { destruct greedy; [by rules|]. by apply Hk. }
    intros b s1 [Hf1 Ha1]. destruct (if greedy then None else K (p, c)) as [y|] eqn:EK.
    { destruct Ha1 as [-> Ha1]. destruct greedy; [done|]. rules. rewrite EK. by split. }
    destruct Ha1 as [-> Hc1]. rules.
    apply runs_mono with (Q := fun b s' => frame fwd m s' /\ answers ends more c b s').
    { subst more. destruct (match max with Some _ => _ | None => true end); rules; [|done].
      apply runs_clear'. rules.
      pose proof (again_further fuel n min max greedy count ends fwd m p U k K F Hrep Hs Hn HD Hk Hp HF) as Hag.
      eapply runs_mono; [apply (Hnode n ends fwd m p U _ _ Hs' Hn HD Hag p _ (cleared n c)); try done; by apply Hcl|].
      intros b s2 [Hf2 Ha2]. unfold iteration. cbn [fst snd].
      destruct (first _ _) as [y|]; destruct Ha2 as [-> Ha2]; rules; [by split|]. by split. }
    intros b s2 [Hf2 Ha2]. destruct more as [y|]; destruct Ha2 as [-> Ha2]; rules.
    + destruct greedy; simpl; [by split|]. rewrite EK. by split.
    + destruct greedy; simpl; rules; [by apply Hk|]. rewrite EK. by split.
Qed.

Lemma meets_repeat_step fuel : node_meets fuel -> repeat_meets fuel -> repeat_meets (S fuel).
Proof.
  intros Hnode Hrep n min max greedy count ends fwd m lo U k K Hs Hn HD Hk F p s c Hp HF Hf Hc Hu Hu0.
  pose proof (reach_in _ _ _ _ Hp) as Hp'.
  assert (match max with Some max => (min <= max)%nat | None => True end) as Hm.
  { simpl in Hs. apply andb_prop in Hs as [[_ Hs]%andb_prop _]. destruct max; [by apply Nat.leb_le|done]. }
  pose proof (repeat_general_meets fuel n min max greedy count ends fwd m p U k K F Hnode Hrep Hs Hn HD
    (meets_weaken _ _ _ _ _ _ _ _ _ Hk Hp (reflexivity U)) Hp' HF s c Hf Hc Hu Hu0) as Hgen.
  assert (count = 0%nat -> first K (repeated n fwd m min max greedy F count (p, c))
    = first K (repetition (iteration n fwd m) (S (length input)) min max greedy (p, c))) as E0.
  { intros ->. rewrite <- repeated_start. apply repeated_fuel; [done..|].
    unfold room. destruct fwd; simpl; lia. }
  cbn [repeat]. destruct count; [|exact Hgen].
  destruct (strip_groups n) eqn:Es; try exact Hgen; rewrite (E0 eq_refl).
  - rewrite (repetition_ext _ (single (atom_next (strip_groups n) fwd m))) by (apply atom_iteration; by rewrite Es).
    rewrite Es. by apply (repeat_atom_meets ends fwd m lo U).
  - rewrite (repetition_ext _ (single (atom_next (strip_groups n) fwd m))) by (apply atom_iteration; by rewrite Es).
    rewrite Es. by apply (repeat_atom_meets ends fwd m lo U).
  - rewrite (repetition_ext _ (class_body fwd m negated items)) by (by apply class_iteration).
    by apply (repeat_class_meets ends fwd m lo U).
Qed.

Lemma meets_node_step fuel : node_meets fuel -> sequence_meets fuel -> repeat_meets fuel -> node_meets (S fuel).
Proof.
  intros Hnode Hseq Hrep n ends fwd m lo U k K Hs Hn HD Hk p s0 c Hp Hf0 Hc0 Hu.
  pose proof (reach_in _ _ _ _ Hp) as Hp'.
  unfold yields. rewrite node_S. apply runs_bind, runs_enter. intros _. apply runs_finally.
  apply runs_mono with (Q := fun b s' => frame fwd m s' /\
    answers ends (first K (matches regex input n fwd m (p, c))) c b s'); [|done].
  unfold node_body. apply runs_bind, runs_step. intros _.
  set (s := set_steps _ _). assert (frame fwd m s) as Hf by done. assert (agree c (caps s)) as Hc by done.
  clearbody s. clear Hf0 Hc0 s0. rules.
  assert (unset U c) as HuU by (eapply unset_mono; [|exact Hu]; set_solver).
  destruct n as [| | | |items|branches|body min max greedy|[index|] body|add remove body| | | |ahead negative body];
    try (by apply (leaf_meets _ ends fwd m lo U k K Hk Hs)).
  - by apply (Hseq items ends fwd m lo U).
  - assert (forall l, l ⊆ branches -> yields ends fwd m
      (alternatives (fun b => node regex input budget fuel b p k) l)
      (first K (flat_map (fun n => matches regex input n fwd m (p, c)) l)) c s) as Hl; [|by apply Hl].
    intros l Hl. apply alternatives_meets with (lo := lo) (U := U); [|done..|].
    + intros b Hb s' c' Hf' Hc' Hu'. simpl in *. rewrite forallb_forall in Hs.
      apply (Hnode b ends fwd m lo U); try done.
      * apply Hs, list_elem_of_In. set_solver.
      * apply Hl in Hb. apply list_elem_of_split in Hb as (l1 & l2 & ->).
        rewrite flat_map_app in Hn. simpl in Hn. apply NoDup_app in Hn as (_ & _ & Hn).
        by apply NoDup_app in Hn as (? & _ & _).
      * intros i Hi. apply HD. apply elem_of_flat_map. set_solver.
    + eapply unset_mono; [|exact Hu]. simpl. intros i [Hi|Hi]%elem_of_app; apply elem_of_app; [|by right].
      left. apply elem_of_flat_map in Hi as (b & Hb & Hi). apply elem_of_flat_map. set_solver.
  - assert (first K (matches regex input (Repeat body min max greedy) fwd m (p, c))
      = first K (repeated body fwd m min max greedy (S (length input)) 0 (p, c))) as ->
      by (by rewrite repeated_start).
    apply (Hrep body) with (lo := lo) (U := U); try done.
    + unfold room. destruct fwd; lia.
    + intros _. eapply unset_mono; [|exact Hu]. simpl. set_solver.
  - simpl in Hn, HD, Hu. apply NoDup_cons in Hn as [Hi Hn]. rules.
    eapply runs_mono.
    + apply (Hnode body ends fwd m lo (index :: U) (group_end index p k)
        (fun x => K (x.1, <[index := Some (Nat.min p x.1, Nat.max p x.1)]> x.2))); try done.
      * set_solver.
      * apply meets_unset with (U := U); [apply group_end_meets; [done|set_solver]|set_solver].
      * eapply unset_mono; [|exact Hu]. set_solver.
    + intros b s' [Hf' Ha]. cbn [matches]. rewrite first_map. apply group_exit_meets; [done..|].
      intros Hex. by rewrite (Hc Hex).
  - by apply (Hnode body ends fwd m lo U).
  - unfold with_modifiers. rules. destruct Hf as [Hfw Hmd]. rewrite Hmd.
    eapply runs_mono; [apply (Hnode body ends fwd (modified m add remove) lo U); try done;
      by apply modifiers_meets|].
    intros b s' [[Hf' _] Ha]. by split.
  - simpl in Hs. apply andb_prop in Hs as [Hs Hex]. unfold with_forward. rules.
    destruct Hf as [Hfw Hmd]. rewrite Hfw.
    eapply runs_mono; [apply (Hnode body false ahead m p U (fun _ => ret true) Some); try done;
      by apply reach_refl|].
    intros hit s' [[_ Hmd'] Ha]. rewrite first_some in Ha.
    by apply (look_exit_meets ends fwd m lo U k K ahead negative body p (caps s)).
Qed.

Theorem matcher_meets : forall fuel, node_meets fuel /\ sequence_meets fuel /\ repeat_meets fuel.
Proof.
  induction fuel as [|fuel (IH1 & IH2 & IH3)].
  - split_and!; by repeat intro.
  - split_and!; [by apply meets_node_step|by apply meets_sequence_step|by apply meets_repeat_step].
Qed.

End Correct.
End RegexCorrect.
