(* ===== verification/RegexStrings.v ===== *)
(** The index of string alternatives against a scan of them in source order. *)
From stdpp Require Import prelude list gmap.
From Stdlib Require Import ZArith Lia.
From S2P Require Import Prelude JsString Regex.
Import Regex.
Local Open Scope Z_scope.


(** ** What the index holds *)

Fixpoint single_indices (i : nat) (l : list (list Z)) (u : Z) : list nat :=
  match l with
  | [] => []
  | a :: l => (match a with [x] => if x =? u then [i] else [] | _ => [] end) ++ single_indices (S i) l u
  end.

Fixpoint pair_indices (i : nat) (l : list (list Z)) (u v : Z) : list nat :=
  match l with
  | [] => []
  | a :: l =>
      (match a with x :: y :: _ => if (x =? u) && (y =? v) then [i] else [] | _ => [] end)
      ++ pair_indices (S i) l u v
  end.

Lemma push_at_lookup {K} `{Countable K} (m : gmap K (list nat)) k k' i :
  from_option id [] (push_at m k i !! k')
  = from_option id [] (m !! k') ++ (if decide (k = k') then [i] else []).
Proof.
  unfold push_at. destruct (decide (k = k')) as [<-|Hne].
  - by rewrite lookup_insert_eq.
  - by rewrite lookup_insert_ne, app_nil_r.
Qed.

Lemma index_alternatives_spec l : forall i s u v,
  let t := index_alternatives s i l in
  singles t u = singles s u ++ single_indices i l u
  /\ from_option id [] (candidates t u v) = from_option id [] (candidates s u v) ++ pair_indices i l u v
  /\ alts t = alts s.
Proof.
  induction l as [|a l IH]; intros i s u v; simpl; [by rewrite !app_nil_r|].
  destruct (IH (S i) (index_alternative s i a) u v) as (-> & -> & ->).
  destruct a as [|x [|y a]]; simpl.
  - done.
  - split_and!; [|done..]. unfold singles. simpl. rewrite push_at_lookup, <- app_assoc. f_equal. f_equal.
    destruct (decide (x = u)) as [->|Hne]; [by rewrite Z.eqb_refl|].
    by apply Z.eqb_neq in Hne as ->.
  - split_and!; [done| |done]. unfold candidates. simpl. rewrite push_at_lookup, <- app_assoc. f_equal. f_equal.
    destruct (decide ((x, y) = (u, v))) as [[= -> ->]|Hne]; [by rewrite !Z.eqb_refl|].
    destruct (x =? u) eqn:E1; [|done]. destruct (y =? v) eqn:E2; [|done].
    apply Z.eqb_eq in E1 as ->. by apply Z.eqb_eq in E2 as ->.
Qed.

Lemma string_alts_spec l u v :
  singles (string_alts l) u = single_indices 0 l u
  /\ from_option id [] (candidates (string_alts l) u v) = pair_indices 0 l u v
  /\ alts (string_alts l) = l.
Proof. apply (index_alternatives_spec l 0). Qed.

Lemma single_indices_ge l u : forall i j, j ∈ single_indices i l u -> (i <= j)%nat.
Proof.
  induction l as [|a l IH]; intros i j; simpl; [set_solver|].
  intros [Hj|Hj]%elem_of_app; [|apply IH in Hj; lia].
  destruct a as [|x [|]]; [set_solver| |set_solver]. destruct (x =? u); set_solver.
Qed.

Lemma pair_indices_ge l u v : forall i j, j ∈ pair_indices i l u v -> (i <= j)%nat.
Proof.
  induction l as [|a l IH]; intros i j; simpl; [set_solver|].
  intros [Hj|Hj]%elem_of_app; [|apply IH in Hj; lia].
  destruct a as [|x [|y a]]; [set_solver..|]. destruct (_ && _); set_solver.
Qed.

(** ** The merge *)

Section Merge.
Context `{UnicodeTables} (regex : Regex) (input : list Z) (m : Z) (pos : nat) (u : Z).
Context (Hfold : folding m = false) (Hu : input !! pos = Some u).

Lemma same_char_exact a b : same_char regex m a b = (a =? b).
Proof. unfold same_char. by rewrite Hfold, orb_false_r. Qed.

(** A scan of the alternatives that are not empty. *)
Definition scan (l : list (list Z)) : list nat :=
  omap (fun a => match a with
                 | [] => None
                 | _ => if string_at regex input m a pos then Some (pos + length a)%nat else None
                 end) l.

Lemma drop_pos : drop pos input = u :: drop (S pos) input.
Proof. by rewrite (drop_S _ _ _ Hu). Qed.

Lemma string_at_single x : string_at regex input m [x] pos = (x =? u).
Proof.
  unfold string_at. pose proof (lookup_lt_Some _ _ _ Hu) as Hl.
  assert ((length input <? pos + length [x])%nat = false) as -> by (apply Nat.ltb_ge; simpl; lia).
  rewrite drop_pos. cbn [zip zip_with]. rewrite zip_with_nil_r. cbn [forallb fst snd].
  rewrite same_char_exact, andb_true_r. apply Z.eqb_sym.
Qed.

(** A longer alternative only matches behind its pair. *)
Lemma string_at_pair x y a : string_at regex input m (x :: y :: a) pos = true ->
  x = u /\ input !! (pos + 1)%nat = Some y.
Proof.
  unfold string_at. destruct (_ <? _)%nat eqn:E; [done|]. apply Nat.ltb_ge in E. simpl in E.
  destruct (lookup_lt_is_Some_2 input (pos + 1)%nat) as [v Ev]; [lia|].
  rewrite Nat.add_1_r in *. rewrite drop_pos, (drop_S _ _ _ Ev). cbn [zip zip_with forallb fst snd].
  rewrite !same_char_exact. intros [E1 [E2 _]%andb_prop]%andb_prop.
  apply Z.eqb_eq in E1 as ->. apply Z.eqb_eq in E2 as ->. done.
Qed.

(** The verified longer matches of some indices. *)
Definition longer (all : list (list Z)) (indices : list nat) : list (nat * nat) :=
  omap (fun index =>
    alternative ← all !! index;
    if string_at regex input m alternative pos
    then Some (index, (pos + length alternative)%nat) else None) indices.

Lemma longer_ge all indices i : (forall j, j ∈ indices -> (i <= j)%nat) ->
  forall x, x ∈ longer all indices -> (i <= x.1)%nat.
Proof.
  intros Hi [j e] Hx. apply list_elem_of_omap in Hx as (j' & Hj & E).
  destruct (all !! j') as [a|]; [|done]. simpl in E. destruct (string_at _ _ _ _ _); [|done].
  injection E as <- <-. by apply Hi.
Qed.

(** Both lists ascend: an entry below all others comes first. *)
Lemma merge_single i e A B : (forall x, x ∈ B -> (i <= x.1)%nat) ->
  merge_ends ((i, e) :: A) B = e :: merge_ends A B.
Proof.
  destruct B as [|[j f] B]; intros HB; simpl; [by destruct A|].
  specialize (HB (j, f) ltac:(set_solver)). simpl in HB. by apply Nat.leb_le in HB as ->.
Qed.

Lemma merge_longer i e A B : (forall x, x ∈ A -> (i < x.1)%nat) ->
  merge_ends A ((i, e) :: B) = e :: merge_ends A B.
Proof.
  destruct A as [|[j f] A]; intros HA; simpl; [done|].
  specialize (HA (j, f) ltac:(set_solver)). simpl in HA.
  destruct (j <=? i)%nat eqn:E; [apply Nat.leb_le in E; lia|done].
Qed.

Lemma merge_scan all v : input !! (pos + 1)%nat = Some v ->
  forall l i, (forall j, all !! (i + j)%nat = l !! j) ->
  merge_ends (map (fun j => (j, (pos + 1)%nat)) (single_indices i l u)) (longer all (pair_indices i l u v))
  = scan l.
Proof.
  intros Hv. induction l as [|a l IH]; intros i Hall; [done|].
  assert (forall j, all !! (S i + j)%nat = l !! j) as Hall'
    by (intros j; by rewrite Nat.add_succ_comm, Hall).
  specialize (IH (S i) Hall'). pose proof (Hall 0%nat) as H0. rewrite Nat.add_0_r in H0. simpl in H0.
  set (A := map (fun j => (j, (pos + 1)%nat)) (single_indices (S i) l u)) in *.
  set (B := longer all (pair_indices (S i) l u v)) in *.
  assert (forall x, x ∈ A -> (i < x.1)%nat) as HA.
  { intros x (j & -> & Hj)%list_elem_of_fmap. apply single_indices_ge in Hj. simpl. lia. }
  assert (forall x, x ∈ B -> (S i <= x.1)%nat) as HB
    by (apply longer_ge; intros j Hj; by eapply pair_indices_ge).
  destruct a as [|x [|y a]].
  - exact IH.
  - assert (scan ([x] :: l) = (if x =? u then [(pos + 1)%nat] else []) ++ scan l) as ->.
    { unfold scan. cbn [omap list_omap]. rewrite string_at_single. by destruct (x =? u). }
    cbn [single_indices pair_indices app]. destruct (x =? u); [|exact IH].
    cbn [app map]. fold A B. rewrite merge_single; [by rewrite IH|]. intros z Hz. apply HB in Hz. lia.
  - assert (scan ((x :: y :: a) :: l)
      = (if string_at regex input m (x :: y :: a) pos then [(pos + length (x :: y :: a))%nat] else []) ++ scan l) as ->.
    { unfold scan. cbn [omap list_omap]. by destruct (string_at _ _ _ _ _). }
    cbn [single_indices pair_indices app]. fold A.
    destruct (string_at regex input m (x :: y :: a) pos) eqn:E.
    + pose proof (string_at_pair x y a E) as [-> Ey]. rewrite Hv in Ey. injection Ey as ->.
      rewrite !Z.eqb_refl. cbn [andb app]. unfold longer. cbn [omap list_omap]. rewrite H0. cbn [mbind option_bind].
      rewrite E. fold (longer all (pair_indices (S i) l u y)). fold B. rewrite merge_longer by done. by rewrite IH.
    + destruct ((x =? u) && (y =? v)); [|exact IH]. cbn [app]. unfold longer. cbn [omap list_omap].
      rewrite H0. cbn [mbind option_bind]. rewrite E. exact IH.
Qed.

Lemma single_scan : input !! (pos + 1)%nat = None -> forall l i,
  merge_ends (map (fun j => (j, (pos + 1)%nat)) (single_indices i l u)) [] = scan l.
Proof.
  intros Hv. assert (forall A, merge_ends A [] = map snd A) as Hm by (by intros []).
  induction l as [|a l IH]; intros i; [done|]. specialize (IH (S i)). rewrite Hm in IH |- *.
  destruct a as [|x [|y a]]; unfold scan; cbn [single_indices omap list_omap app].
  - exact IH.
  - rewrite string_at_single. destruct (x =? u); [|exact IH]. cbn [app map snd]. by rewrite IH.
  - destruct (string_at _ _ _ (x :: y :: a) _) eqn:E; [|exact IH].
    apply string_at_pair in E as [_ E]. congruence.
Qed.

End Merge.

(** C28. Looking up string alternatives by their first one or two units finds the
    same ends, in the same order, as testing every alternative in source order. *)
Theorem string_table_scan `{UnicodeTables} (regex : Regex) (input : list Z) (m : Z) (l : list (list Z))
    (pos : nat) (u : Z) (Hfold : folding m = false) (Hu : input !! pos = Some u) :
  string_table_ends regex input m (string_alts l) pos u
  = omap (fun a => match a with
                   | [] => None
                   | _ => if string_at regex input m a pos then Some (pos + length a)%nat else None
                   end) l.
Proof.
  unfold string_table_ends. destruct (input !! (pos + 1)%nat) as [v|] eqn:Hv.
  - destruct (string_alts_spec l u v) as (-> & Hp & ->). fold (scan regex input m pos l).
    rewrite <- (merge_scan regex input m pos u Hfold Hu l v Hv l 0) by done. rewrite <- Hp.
    by destruct (candidates (string_alts l) u v).
  - destruct (string_alts_spec l u 0) as (-> & _ & _). by apply single_scan.
Qed.
Definition plain_tables : UnicodeTables :=
  {| simple_fold c := c; to_uppercase c := [c]; fold_classes := [] |}.

Definition plain_regex (n : Node) (count : nat) : Regex :=
  {| root := n; group_count := count; names := ∅; source := JsString.default; flags := [];
     global := false; ignore_case := false; multiline := false; dot_all := false; sticky := false;
     unicode := false |}.

(** [\\q{ab|a|abc|c}] at the start of [abc]. *)
Lemma string_table_scan_witness :
  string_table_ends (H := plain_tables) (plain_regex Empty 0) [97; 98; 99] 0
    (string_alts [[97; 98]; [97]; [97; 98; 99]; [99]]) 0 97 = [2; 1; 3]%nat.
Proof.
  rewrite (string_table_scan (H := plain_tables)); [vm_compute; reflexivity|vm_compute; reflexivity|reflexivity].
Defined.

