(* ===== verification/RegexTheorems.v ===== *)
(** Results on regular expressions: every search ends without a panic, it finds
    the first match of the leftmost start, and the index of string alternatives
    keeps their order. *)
From stdpp Require Import prelude list gmap.
From Stdlib Require Import ZArith Lia.
From S2P Require Import Prelude Regex RegexMatch RegexSafety RegexSpec RegexRuns RegexCorrect RegexStrings.
Import Regex RegexMatch RegexSafety RegexSpec RegexRuns RegexCorrect.
Local Open Scope Z_scope.
Local Open Scope regex_scope.


Local Strategy opaque [node].

(** ** The search *)

Section Search.
Context `{UnicodeTables} (regex : Regex) (input : list Z).
Context (Hunits : Forall is_unit input).

Lemma advance_bounds at_ : (at_ < length input)%nat ->
  (at_ < advance regex input at_ <= length input)%nat.
Proof.
  intros Ha. unfold advance. destruct (scalar_some regex input at_ Ha) as [c E]. rewrite E.
  pose proof (scalar_width regex input Hunits at_ c E). lia.
Qed.

Lemma first_start_in start : (start <= length input)%nat -> (first_start regex input start <= length input)%nat.
Proof. unfold first_start. destruct (_ && _); lia. Qed.

(** The start of an attempt. *)
Definition attempt_start (s : Cells) : Cells :=
  set_found (set_caps s (List.repeat None (S (group_count regex)))) None.

Lemma none_caps n len : Forall (cap_in len) (List.repeat None n).
Proof. induction n; by constructor. Qed.

(** Between two attempts. *)
Definition ready (s : Cells) : Prop :=
  depth s = 0 /\ forward s = true /\ modifiers s = flag_modifiers regex.

Lemma accept_keeps at_ d m : safe regex input (reach input true at_) d true m at_ accept.
Proof.
  intros p s Hp (Hl & Hc & Hd & _) _ _ _. unfold keeping, accept. rules.
  split_and!; try done. split_and!; try done. by intros e [= <-].
Qed.

Lemma start_good P s : ready s -> good regex input P (attempt_start s).
Proof.
  intros (Hd & _). split_and!; simpl; [by rewrite repeat_length|apply (none_caps (S _))|by rewrite Hd|done].
Qed.

Lemma start_node_safe fuel at_ s : groups_below (S (group_count regex)) (root regex) = true ->
  (at_ <= length input)%nat -> ready s -> 1025 <= Z.of_nat fuel ->
  runs true (node regex input (budget_for (length input)) fuel (root regex) at_ accept)
    (fun _ s' => ready s' /\ good regex input (reach input true at_) s') (attempt_start s).
Proof.
  intros Hw Ha Hr Hfuel.
  pose proof (start_good (reach input true at_) s Hr) as Hg. destruct Hr as (Hd & Hf & Hm).
  pose proof (matcher_safe regex input (budget_for (length input)) Hunits (reach input true at_) fuel) as [Hn _].
  eapply runs_mono; [apply Hn; [done..| |]|].
  - unfold fuel_for, MAX_DEPTH. simpl. lia.
  - unfold safe_from. simpl. rewrite Hf. apply accept_keeps.
  - intros b s' (Hg' & Hd' & _ & Hf' & Hm'). simpl in *. split; [|done].
    unfold ready. rewrite Hd', Hf', Hm'. done.
Qed.

Lemma attempt_safe at_ s : groups_below (S (group_count regex)) (root regex) = true ->
  (at_ <= length input)%nat -> ready s ->
  runs true (attempt regex input at_)
    (fun _ s' => ready s' /\ good regex input (reach input true at_) s') s.
Proof.
  intros Hw Ha Hr. unfold attempt. apply runs_bind, runs_update.
  by apply (start_node_safe NODE_FUEL).
Qed.

(** What a search returns. *)
Definition sound_result (start : nat) (r : option (list (option (nat * nat)))) : Prop :=
  match r with
  | None => True
  | Some c =>
      length c = S (group_count regex) /\ Forall (cap_in (length input)) c
      /\ exists a e, c !! 0%nat = Some (Some (a, e)) /\ (start <= a <= e)%nat
  end.

Lemma find_loop_safe : groups_below (S (group_count regex)) (root regex) = true ->
  forall fuel at_ s, (at_ <= length input)%nat -> (length input - at_ < fuel)%nat -> ready s ->
  runs true (find_loop regex input fuel at_) (fun r _ => sound_result at_ r) s.
Proof.
  intros Hw. induction fuel as [|fuel IH]; intros at_ s Ha Hf Hr; [lia|].
  cbn [find_loop]. rules. eapply runs_mono; [by apply attempt_safe|]. intros [] s1 [Hr1 Hg1].
  - rules. pose proof Hg1 as (Hl & Hc & _ & HP).
    apply runs_put; [rewrite Hl; lia|]. rules. simpl. split_and!.
    + by rewrite length_insert.
    + apply Forall_insert; [done|]. simpl. destruct (found s1) as [e|]; [|simpl; lia].
      destruct (HP e eq_refl). simpl. lia.
    + exists at_, (from_option id at_ (found s1)).
      rewrite list_lookup_insert_eq by (rewrite Hl; lia). split; [done|].
      destruct (found s1) as [e|]; [|simpl; lia]. destruct (HP e eq_refl). simpl. lia.
  - destruct (sticky regex || _) eqn:E; [by rules|]. apply orb_false_elim in E as [_ E].
    apply Nat.leb_gt in E. pose proof (advance_bounds at_ E) as Hadv.
    eapply runs_mono; [apply IH; [lia|lia|done]|]. intros [c|] s2; [|done]. simpl.
    intros (? & ? & a & e & ? & ?). split_and!; [done..|]. exists a, e. split; [done|lia].
Qed.

(** *** What the search finds *)

Section Meaning.
Context (exact : bool).
Context (Hsupp : supported exact (root regex) = true) (Hnodup : NoDup (groups (root regex))).

Abbreviation no_captures := (List.repeat None (S (group_count regex))) (only parsing).

Definition in_frame (s : Cells) : Prop := forward s = true /\ modifiers s = flag_modifiers regex.

Lemma accept_answers m lo : meets input exact true true m lo [] accept Some.
Proof.
  intros p s c Hp [Hf Hm] Hc _. unfold yields, accept. rules. split; [done|]. split_and!; [done|done|done].
Qed.

Lemma none_unset U : unset U no_captures.
Proof. intros i x _ Hx. apply list_elem_of_lookup_2, list_elem_of_In, repeat_spec in Hx. done. Qed.

Lemma start_node_meets fuel at_ s : (at_ <= length input)%nat -> in_frame s ->
  yields exact true true (flag_modifiers regex)
    (node regex input (budget_for (length input)) fuel (root regex) at_ accept)
    (head (matches regex input (root regex) true (flag_modifiers regex) (at_, no_captures)))
    no_captures (attempt_start s).
Proof.
  intros Ha Hf. rewrite <- first_some.
  pose proof (matcher_meets regex input (budget_for (length input)) Hunits exact fuel) as [Hn _].
  eapply (Hn (root regex) true true (flag_modifiers regex) at_ []); [done|done| |apply accept_answers|..].
  - set_solver.
  - by apply reach_refl.
  - done.
  - done.
  - apply none_unset.
Qed.

Lemma attempt_meets at_ s : (at_ <= length input)%nat -> in_frame s ->
  yields exact true true (flag_modifiers regex) (attempt regex input at_)
    (head (matches regex input (root regex) true (flag_modifiers regex) (at_, no_captures)))
    no_captures s.
Proof.
  intros Ha Hf. unfold attempt, yields. apply runs_bind, runs_update.
  by apply (start_node_meets NODE_FUEL).
Qed.

(** The result of a search against the result of the specification. *)
Definition same_result (r : option (list (option (nat * nat))))
    (r' : option (nat * nat * list (option (nat * nat)))) : Prop :=
  match r, r' with
  | None, None => True
  | Some c, Some (a, e, c') =>
      c !! 0%nat = Some (Some (a, e)) /\ (exact = true -> c = <[0%nat := Some (a, e)]> c')
  | _, _ => False
  end.

Lemma find_loop_meets : forall fuel at_ s, (at_ <= length input)%nat -> in_frame s ->
  runs false (find_loop regex input fuel at_) (fun r _ => same_result r (search regex input fuel at_)) s.
Proof.
  induction fuel as [|fuel IH]; intros at_ s Ha Hf; [done|].
  cbn [find_loop search]. rules. eapply runs_mono; [by apply attempt_meets|]. intros b s1 [Hf1 Ha1].
  destruct (matches _ _ _ _ _ _) as [|[e c] l]; simpl in Ha1.
  - destruct Ha1 as [-> _]. destruct (sticky regex || _) eqn:E; [by rules|].
    apply orb_false_elim in E as [_ E]. apply Nat.leb_gt in E. pose proof (advance_bounds at_ E).
    apply IH; [lia|done].
  - destruct Ha1 as (-> & Hc & Hfd). rules. apply runs_put'. intros Hlt. rules. simpl.
    rewrite Hfd by done. simpl. split; [by apply list_lookup_insert_eq|].
    intros Hex. by rewrite (Hc Hex).
Qed.

End Meaning.

Lemma initial_ready : ready (initial regex).
Proof. done. Qed.

End Search.
Lemma find_at_sound `{UnicodeTables} (regex : Regex) (input : list Z) (start : nat)
    (Hunits : Forall is_unit input)
    (Hw : groups_below (S (group_count regex)) (root regex) = true) :
  match find_at regex input start with
  | Ok r => sound_result regex input (first_start regex input start) r
  | Err e => e <> Fuel
  | Panic => False
  end.
Proof.
  unfold find_at. destruct (_ <? _)%nat eqn:E; [done|]. apply Nat.ltb_ge in E.
  pose proof (first_start_in regex input start E) as Hs.
  pose proof (find_loop_safe regex input Hunits Hw (S (S (length input))) _ (initial regex)
    Hs ltac:(lia) (initial_ready regex)) as HR.
  unfold runs in HR. destruct (find_loop _ _ _ _ _) as [[r|[]|] s]; simpl; done.
Qed.

(** C23. A search ends: it never runs out of the depth the model bounds its calls
    by and never panics, on any input of UTF-16 units and any pattern whose
    groups have a slot.  It returns no match, a match whose captures all lie in
    the input with the whole match at or after the start, or one of the two
    budget errors. *)
Theorem find_at_safe `{UnicodeTables} (regex : Regex) (input : list Z) (start : nat)
    (Hunits : Forall is_unit input)
    (Hw : groups_below (S (group_count regex)) (root regex) = true) :
  match find_at regex input start with
  | Ok r => sound_result regex input (first_start regex input start) r
  | Err e => e <> Fuel
  | Panic => False
  end.
Proof. by apply find_at_sound. Qed.

(** The result of [find_at] under the specification. *)
Definition specified `{UnicodeTables} (regex : Regex) (input : list Z) (start : nat)
  : option (nat * nat * list (option (nat * nat))) :=
  if (length input <? start)%nat then None
  else search regex input (S (S (length input))) (first_start regex input start).

Lemma find_at_meets `{UnicodeTables} regex input start exact r : Forall is_unit input ->
  supported exact (root regex) = true -> NoDup (groups (root regex)) ->
  find_at regex input start = Ok r -> same_result exact r (specified regex input start).
Proof.
  intros Hun Hs Hn. unfold find_at, specified. destruct (_ <? _)%nat eqn:E; [by intros [= <-]|].
  apply Nat.ltb_ge in E. pose proof (first_start_in regex input start E) as Hst.
  pose proof (find_loop_meets regex input Hun exact Hs Hn (S (S (length input))) _ (initial regex)
    Hst ltac:(done)) as HR.
  unfold runs in HR. destruct (find_loop _ _ _ _ _) as [[x|[]|] s]; try done. by intros [= <-].
Qed.

(** C24. On patterns that take their captures back (at most one mandatory
    iteration around groups, no group in a positive lookaround; back-references
    allowed), a search that returns finds exactly what the pattern means: the
    first match in the order of its alternatives, with all of its captures, at
    the first start that has one, and none when no start has one. *)
Theorem find_at_exact `{UnicodeTables} (regex : Regex) (input : list Z) (start : nat)
    (r : option (list (option (nat * nat)))) (Hunits : Forall is_unit input)
    (Hs : supported true (root regex) = true) (Hn : NoDup (groups (root regex)))
    (Hr : find_at regex input start = Ok r) :
  r = (fun x => <[0%nat := Some x.1]> x.2) <$> specified regex input start.
Proof.
  pose proof (find_at_meets regex input start true r Hunits Hs Hn Hr) as HR.
  destruct r as [c|], (specified regex input start) as [[[a e] c']|]; try done.
  simpl in *. destruct HR as [_ ->]; done.
Qed.

(** C25. On patterns without back-references, whatever their groups, a search
    that returns decides whether there is a match and finds its start and its
    end: those of the first match of the first start that has one. *)
Theorem find_at_span `{UnicodeTables} (regex : Regex) (input : list Z) (start : nat)
    (r : option (list (option (nat * nat)))) (Hunits : Forall is_unit input)
    (Hs : supported false (root regex) = true) (Hn : NoDup (groups (root regex)))
    (Hr : find_at regex input start = Ok r) :
  (fun c : list (option (nat * nat)) => c !! 0%nat) <$> r
  = (fun x => Some (Some x.1)) <$> specified regex input start.
Proof.
  pose proof (find_at_meets regex input start false r Hunits Hs Hn Hr) as HR.
  destruct r as [c|], (specified regex input start) as [[[a e] c']|]; try done.
  simpl in *. by destruct HR as [-> _].
Qed.

(** ** Leftmost *)

(** The starts a search tries: characters apart, and only the first when sticky. *)
Inductive tried_start `{UnicodeTables} (regex : Regex) (input : list Z) (from : nat) : nat -> Prop :=
| tried_first : tried_start regex input from from
| tried_next b : tried_start regex input from b -> sticky regex = false -> (b < length input)%nat ->
    tried_start regex input from (advance regex input b).

Section Leftmost.
Context `{UnicodeTables} (regex : Regex) (input : list Z) (Hunits : Forall is_unit input).

(** The matches of the whole pattern from a start. *)
Definition matches_from (b : nat) : list (nat * list (option (nat * nat))) :=
  matches regex input (root regex) true (flag_modifiers regex)
    (b, List.repeat None (S (group_count regex))).

Lemma tried_cons at_ b : tried_start regex input at_ b ->
  b = at_ \/ (sticky regex = false /\ (at_ < length input)%nat
    /\ tried_start regex input (advance regex input at_) b).
Proof.
  induction 1 as [|b _ IH Hst Hb]; [by left|]. right.
  destruct IH as [-> |(? & ? & IH)]; split_and!; try done; by constructor.
Qed.

Lemma tried_ge at_ b : tried_start regex input at_ b -> (at_ <= b)%nat.
Proof.
  induction 1 as [|b _ IH Hst Hb]; [lia|]. pose proof (advance_bounds regex input Hunits b Hb). lia.
Qed.

Lemma tried_trans at_ b : tried_start regex input (advance regex input at_) b ->
  sticky regex = false -> (at_ < length input)%nat -> tried_start regex input at_ b.
Proof.
  intros Hb Hst Ha. induction Hb as [|b _ IH ? ?]; [|by constructor]. constructor; [constructor|done..].
Qed.

Lemma search_leftmost : forall fuel at_, (at_ <= length input)%nat -> (length input - at_ < fuel)%nat ->
  match search regex input fuel at_ with
  | Some (a, e, c) => tried_start regex input at_ a /\ head (matches_from a) = Some (e, c)
      /\ forall b, tried_start regex input at_ b -> (b < a)%nat -> matches_from b = []
  | None => forall b, tried_start regex input at_ b -> matches_from b = []
  end.
Proof.
  induction fuel as [|fuel IH]; intros at_ Ha Hf; [lia|]. cbn [search]. fold (matches_from at_).
  destruct (matches_from at_) as [|[e c] l] eqn:E.
  - destruct (sticky regex || _) eqn:Es.
    + intros b [-> |(Hst & Hlt & _)]%tried_cons; [done|]. rewrite Hst in Es. simpl in Es.
      apply Nat.leb_le in Es. lia.
    + apply orb_false_elim in Es as [Hst Es]. apply Nat.leb_gt in Es.
      pose proof (advance_bounds regex input Hunits at_ Es) as Hadv.
      specialize (IH (advance regex input at_) ltac:(lia) ltac:(lia)).
      destruct (search _ _ _ _) as [[[a e] c]|].
      * destruct IH as (H1 & H2 & H3). split_and!; [by apply tried_trans|done|].
        intros b [-> |(_ & _ & Hb)]%tried_cons; [done|]. by apply H3.
      * intros b [-> |(_ & _ & Hb)]%tried_cons; [done|]. by apply IH.
  - split_and!; [constructor|by rewrite E|]. intros b Hb Hlt. apply tried_ge in Hb. lia.
Qed.

End Leftmost.

(** A match found is leftmost: its end is the end of the first match from its
    start, and no earlier start the search tries has a match; when no match is
    found, no start has one. *)
Theorem find_at_leftmost `{UnicodeTables} (regex : Regex) (input : list Z) (start : nat) (exact : bool)
    (r : option (list (option (nat * nat)))) (Hunits : Forall is_unit input)
    (Hs : supported exact (root regex) = true) (Hn : NoDup (groups (root regex)))
    (Hst : (start <= length input)%nat) (Hr : find_at regex input start = Ok r) :
  match r with
  | Some c => exists a e c', c !! 0%nat = Some (Some (a, e))
      /\ head (matches_from regex input a) = Some (e, c')
      /\ forall b, tried_start regex input (first_start regex input start) b -> (b < a)%nat ->
           matches_from regex input b = []
  | None => forall b, tried_start regex input (first_start regex input start) b ->
      matches_from regex input b = []
  end.
Proof.
  pose proof (find_at_meets regex input start exact r Hunits Hs Hn Hr) as HR. unfold specified in HR.
  apply Nat.ltb_ge in Hst as E. rewrite E in HR.
  pose proof (search_leftmost regex input Hunits (S (S (length input))) _
    (first_start_in regex input start Hst) ltac:(lia)) as HL.
  destruct r as [c|], (search _ _ _ _) as [[[a e] c']|]; try done.
  destruct HR as [H0 _], HL as (_ & H1 & H2). eauto 10.
Qed.

(** ** Instances *)

#[local] Existing Instance plain_tables.

Lemma units_of (l : list Z) : forallb (fun u => (0 <=? u) && (u <? 65536)) l = true -> Forall is_unit l.
Proof.
  intros Hl. apply Forall_forall. intros u Hu. rewrite forallb_forall in Hl.
  apply list_elem_of_In, Hl in Hu. apply andb_prop in Hu as [?%Z.leb_le ?%Z.ltb_lt]. by split.
Qed.

(** [(a+)+b] *)
Definition plus_plus : Regex :=
  plain_regex (Concat [Repeat (Group (Some 1%nat) (Repeat (NChar 97) 1 None true)) 1 None true; NChar 98]) 1.

(** [(.+)\\1] *)
Definition doubled : Regex :=
  plain_regex (Concat [Group (Some 1%nat) (Repeat AnyChar 1 None true); Backref 1]) 1.

(** [(?:(a)|b){2}c] *)
Definition pairs : Regex :=
  plain_regex (Concat [Repeat (Group None (Alt [Group (Some 1%nat) (NChar 97); NChar 98])) 2 (Some 2%nat) true;
                       NChar 99]) 1.

Lemma find_at_safe_witness :
  find_at plus_plus [99; 97; 97; 98] 0 = Ok (Some [Some (1, 4); Some (1, 3)]%nat)
  /\ sound_result plus_plus [99; 97; 97; 98] 0 (Some [Some (1, 4); Some (1, 3)]%nat).
Proof.
  assert (find_at plus_plus [99; 97; 97; 98] 0 = Ok (Some [Some (1, 4); Some (1, 3)]%nat)) as E
    by (vm_compute; reflexivity).
  split; [exact E|].
  pose proof (find_at_safe plus_plus [99; 97; 97; 98] 0 ltac:(apply units_of; reflexivity) eq_refl) as HR.
  rewrite E in HR. exact HR.
Defined.

Lemma find_at_exact_witness :
  Some [Some (0, 4); Some (0, 2)]%nat
  = (fun x => <[0%nat := Some x.1]> x.2) <$> specified doubled [120; 121; 120; 121; 122] 0.
Proof.
  apply (find_at_exact doubled [120; 121; 120; 121; 122] 0).
  - apply units_of; reflexivity.
  - reflexivity.
  - apply (bool_decide_unpack _). vm_compute. exact I.
  - vm_compute; reflexivity.
Defined.

Lemma find_at_span_witness :
  Some (Some (Some (1, 4)%nat))
  = (fun x => Some (Some x.1)) <$> specified pairs [97; 97; 98; 99] 0.
Proof.
  apply (find_at_span pairs [97; 97; 98; 99] 0 (Some [Some (1, 4); None]%nat)).
  - apply units_of; reflexivity.
  - reflexivity.
  - apply (bool_decide_unpack _). vm_compute. exact I.
  - vm_compute; reflexivity.
Defined.

Lemma find_at_leftmost_witness :
  exists a e c', [Some (1, 4); None]%nat !! 0%nat = Some (Some (a, e))
    /\ head (matches_from pairs [97; 97; 98; 99] a) = Some (e, c')
    /\ forall b, tried_start pairs [97; 97; 98; 99] 0 b -> (b < a)%nat ->
         matches_from pairs [97; 97; 98; 99] b = [].
Proof.
  apply (find_at_leftmost pairs [97; 97; 98; 99] 0 false (Some [Some (1, 4); None]%nat)).
  - apply units_of; reflexivity.
  - reflexivity.
  - apply (bool_decide_unpack _). vm_compute. exact I.
  - simpl; lia.
  - vm_compute; reflexivity.
Defined.

(** ** Where the matcher leaves the specification *)

(** [(?:ab)??(?=(a)|c)c] on [abc]: the first attempt of the lookahead sets the
    group, the rest fails, and the lazy retry keeps it. *)
Lemma stale_lookahead_capture :
  let r := plain_regex (Concat [Repeat (Group None (Concat [NChar 97; NChar 98])) 0 (Some 1%nat) false;
             Look true false (Alt [Group (Some 1%nat) (NChar 97); NChar 99]); NChar 99]) 1 in
  find_at r [97; 98; 99] 0 = Ok (Some [Some (0, 3); Some (0, 1)]%nat)
  /\ specified r [97; 98; 99] 0 = Some (0, 3, [None; None])%nat.
Proof. split; vm_compute; reflexivity. Qed.

(** [(?:(x)[a-x]*\\1){2}$] on [xxx]: the second iteration clears the group, the
    first one goes on without it and the back-reference matches the empty string. *)
Lemma stale_minimum_match :
  let r := plain_regex (Concat [Repeat (Group None (Concat [Group (Some 1%nat) (NChar 120);
               Repeat (Class false [Range 97 120]) 0 None true; Backref 1])) 2 (Some 2%nat) true;
             NAnchor End]) 1 in
  find_at r [120; 120; 120] 0 = Ok (Some [Some (0, 3); Some (1, 2)]%nat)
  /\ specified r [120; 120; 120] 0 = None.
Proof. split; vm_compute; reflexivity. Qed.

(** A sequence of 512 characters exceeds the nesting budget. *)
Lemma long_sequence_nesting :
  find_at (plain_regex (Concat (List.repeat (NChar 97) 511)) 0) (List.repeat 97 512) 0
  = Ok (Some [Some (0, 511)]%nat)
  /\ find_at (plain_regex (Concat (List.repeat (NChar 97) 512)) 0) (List.repeat 97 512) 0 = Err NestingBudget.
Proof. split; vm_compute; reflexivity. Qed.

