(* ===== verification/RegexParse.v ===== *)
(** The pattern parser of [regex/parse.rs] and the construction of a pattern in
    [regex/mod.rs].

    The parser is a computation over its position, the groups it has numbered,
    their names and the Unicode flag (which [group_name] switches on for an
    escape); the text, the number of groups of the first scan and the other flags
    do not change.  Recursion and loops take [fuel]; the results bound it by the
    length of the text.  The tables of the Unicode libraries, the generated emoji
    tables and the syntax validator of the [oxc] crate are arguments. *)
From stdpp Require Import prelude list gmap strings.
From Stdlib Require Import ZArith Lia Ascii.
From S2P Require Import Prelude JsString Regex.
Import Regex.
Local Open Scope Z_scope.

Module RegexParse.

(** ** Characters *)

Definition is_octal (c : Z) : bool := in_range 48 55 c.

Definition U32_MAX : Z := 2 ^ 32 - 1.
Definition sat_mul (a b : Z) : Z := Z.min U32_MAX (a * b).
Definition sat_add (a b : Z) : Z := Z.min U32_MAX (a + b).

(** ** Errors, state and computations *)

Inductive ParseError :=
| UnmatchedParenthesis (pos : nat)
| NumbersOutOfOrder
| NothingToRepeat
| DuplicateModifier
| EmptyModifier
| InvalidGroup
| Expected (c : Z)
| InvalidGroupName
| UnterminatedClass
| NegatedStrings
| RangeOutOfOrder
| InvalidSetOperation
| InvalidClassCharacter
| TrailingBackslash
| InvalidQ
| InvalidStringEscape
| InvalidProperty
| InvalidNamedReference
| InvalidDecimalEscape
| InvalidUnicodeEscape
| InvalidEscape
| InvalidControlEscape
| InvalidIdentityEscape (c : Z)
| ParseFuel.

Record PState := {
  ppos : nat;
  pgroups : nat;
  pnames : gmap (list Z) (list nat);
  punicode : bool;
}.

Definition set_pos (s : PState) (p : nat) : PState :=
  {| ppos := p; pgroups := pgroups s; pnames := pnames s; punicode := punicode s |}.
Definition set_unicode (s : PState) (u : bool) : PState :=
  {| ppos := ppos s; pgroups := pgroups s; pnames := pnames s; punicode := u |}.

Definition P (A : Type) : Type := PState -> outcome ParseError A * PState.
Definition ret {A} (x : A) : P A := fun s => (Ok x, s).
Definition bind {A B} (m : P A) (k : A -> P B) : P B :=
  fun s => match m s with
           | (Ok x, s) => k x s
           | (Err e, s) => (Err e, s)
           | (Panic, s) => (Panic, s)
           end.
Definition fail {A} (e : ParseError) : P A := fun s => (Err e, s).
Definition get : P PState := fun s => (Ok s, s).
Definition put_pos (p : nat) : P unit := fun s => (Ok tt, set_pos s p).

Declare Scope parse_scope.
Delimit Scope parse_scope with parse.
Notation "'let?' x ':=' m 'in' k" := (bind m (fun x => k))
  (at level 10, x name, m at level 100, k at level 200) : parse_scope.
Notation "m ';?' k" := (bind m (fun _ => k)) (at level 100, right associativity) : parse_scope.
Local Open Scope parse_scope.

(** The outcome of a computation as a value: [Err(_) => …]. *)
Definition attempt {A} (m : P A) : P (option A) :=
  fun s => match m s with
           | (Ok x, s) => (Ok (Some x), s)
           | (Err ParseFuel, s) => (Err ParseFuel, s)
           | (Err _, s) => (Ok None, s)
           | (Panic, s) => (Panic, s)
           end.

(** ** The first scan *)

(** [Parser::new]: how many groups the text opens, and whether one has a name. *)
Fixpoint prescan (fuel : nat) (chars : list Z) (at_ : nat) (class named : bool) (total : nat)
  : nat * bool :=
  match fuel with
  | O => (total, named)
  | S fuel =>
      match chars !! at_ with
      | None => (total, named)
      | Some c =>
          if c =? chr "\" then prescan fuel chars (at_ + 2) class named total
          else if c =? chr "[" then prescan fuel chars (at_ + 1) true named total
          else if c =? chr "]" then prescan fuel chars (at_ + 1) false named total
          else if (c =? chr "(") && negb class
                  && bool_decide (chars !! (at_ + 1)%nat = Some (chr "?"))
                  && bool_decide (chars !! (at_ + 2)%nat = Some (chr "<"))
                  && negb match chars !! (at_ + 3)%nat with
                          | Some d => (d =? chr "=") || (d =? chr "!")
                          | None => false
                          end
          then prescan fuel chars (at_ + 1) class true (S total)
          else if (c =? chr "(") && negb class
                  && negb (bool_decide (chars !! (at_ + 1)%nat = Some (chr "?")))
          then prescan fuel chars (at_ + 1) class named (S total)
          else prescan fuel chars (at_ + 1) class named total
      end
  end.

(** The tables of the Unicode libraries and of [emoji_tables.rs].  [to_class] is
    [ClassUnicode::new], [negate_class] its complement. *)
Class PropertyTables := {
  property_ranges : list Z -> option (list (Z * Z));
  to_class : list (Z * Z) -> list (Z * Z);
  negate_class : list (Z * Z) -> list (Z * Z);
  to_lowercase : Z -> list Z;
  flag_sequences : list (list Z);
  tag_sequences : list (list Z);
  modifier_sequences : list (list Z);
  zwj_sequences : list (list Z);
  emoji_singles : list Z;
  emoji_pairs : list (list Z);
}.

Section Parser.
Context `{UnicodeTables} `{PropertyTables}.
Context (chars : list Z) (total_groups : nat) (vsets has_named_captures : bool).

Definition peek : P (option Z) := fun s => (Ok (chars !! ppos s), s).
Definition bump : P unit := fun s => (Ok tt, set_pos s (S (ppos s))).
Definition look (ahead : nat) : P (option Z) := fun s => (Ok (chars !! (ppos s + ahead)%nat), s).

Definition eat (c : Z) : P bool :=
  let? p := peek in
  if bool_decide (p = Some c) then bump ;? ret true else ret false.

Definition expect (c : Z) : P unit :=
  let? b := eat c in if b then ret tt else fail (Expected c).

(** Fuel for a loop that moves at each turn. *)
Definition LOOP : nat := S (length chars).

(** *** Numbers *)

Fixpoint digits_loop (fuel : nat) (value : Z) : P Z :=
  match fuel with
  | O => fail ParseFuel
  | S fuel =>
      let? p := peek in
      match p with
      | Some c =>
          if is_ascii_digit c then bump ;? digits_loop fuel (sat_add (sat_mul value 10) (c - 48))
          else ret value
      | None => ret value
      end
  end.

Definition digits : P (option Z) :=
  let? s := get in
  let? value := digits_loop LOOP 0 in
  let? s' := get in
  ret (if (ppos s <? ppos s')%nat then Some value else None).

(** [{n}], [{n,}] and [{n,m}]; nothing is consumed when the braces are none of
    them. *)
Definition try_bounds : P (option (Z * option Z)) :=
  let? s := get in
  bump ;?
  let? min := digits in
  match min with
  | None => put_pos (ppos s) ;? ret None
  | Some min =>
      let? comma := eat (chr ",") in
      let? max := (if comma : bool then digits else ret (Some min)) in
      let? closed := eat (chr "}") in
      if closed then ret (Some (min, max)) else (put_pos (ppos s) ;? ret None)
  end.

Definition is_anchor (n : Node) : bool := match n with NAnchor _ => true | _ => false end.

Definition finish_quantifier (n : Node) (min : Z) (max : option Z) : P Node :=
  if match max with Some max => max <? min | None => false end then fail NumbersOutOfOrder
  else if is_anchor n then fail NothingToRepeat
  else
    let? lazy := eat (chr "?") in
    ret (Repeat n (Z.to_nat min) (Z.to_nat <$> max) (negb lazy)).

Definition quantifier (n : Node) : P Node :=
  let? p := peek in
  match p with
  | Some c =>
      if c =? chr "*" then bump ;? finish_quantifier n 0 None
      else if c =? chr "+" then bump ;? finish_quantifier n 1 None
      else if c =? chr "?" then bump ;? finish_quantifier n 0 (Some 1)
      else if c =? chr "{" then
        let? bounds := try_bounds in
        match bounds with
        | Some b => finish_quantifier n b.1 b.2
        | None => ret n
        end
      else ret n
  | None => ret n
  end.

(** *** Escapes *)

Fixpoint code_point_loop (digits : nat) (value : Z) : P Z :=
  match digits with
  | O => ret value
  | S digits =>
      let? p := peek in
      match p with
      | None => fail InvalidEscape
      | Some c =>
          match to_digit 16 c with
          | None => fail InvalidEscape
          | Some d => bump ;? code_point_loop digits (sat_add (sat_mul value 16) d)
          end
      end
  end.
Definition code_point (digits : nat) : P Z := code_point_loop digits 0.

Definition hex_escape_or_identity (escaped : Z) (digits : nat) : P Z :=
  let? s := get in
  if punicode s then code_point digits
  else
    let? value := attempt (code_point digits) in
    match value with
    | Some value => ret value
    | None => put_pos (ppos s) ;? ret escaped
    end.

Fixpoint octal_loop (extra : nat) (value : Z) : P Z :=
  match extra with
  | O => ret value
  | S extra =>
      let? p := peek in
      match p with
      | Some c => if is_octal c then bump ;? octal_loop extra (value * 8 + c - 48) else ret value
      | None => ret value
      end
  end.
Definition legacy_octal (first : Z) : P Z := octal_loop (if first <=? chr "3" then 2 else 1) (first - 48).

(** The digits of [\u{…}]. *)
Fixpoint braced_hex (fuel : nat) (value : Z) : P Z :=
  match fuel with
  | O => fail ParseFuel
  | S fuel =>
      let? p := peek in
      match p with
      | Some c =>
          if c =? chr "}" then ret value
          else match to_digit 16 c with
               | None => fail InvalidUnicodeEscape
               | Some d => bump ;? braced_hex fuel (sat_add (sat_mul value 16) d)
               end
      | None => ret value
      end
  end.

Definition unicode_escape : P Z :=
  let? s := get in
  let? braced := (if punicode s then eat (chr "{") else ret false) in
  if braced : bool then
    let? value := braced_hex LOOP 0 in
    expect (chr "}") ;?
    if 1114111 <? value then fail InvalidUnicodeEscape else ret value
  else
    let? high := hex_escape_or_identity (chr "u") 4 in
    let? a := look 0 in
    let? b := look 1 in
    if punicode s && high_surrogate high && bool_decide (a = Some (chr "\")) && bool_decide (b = Some (chr "u"))
    then
      let? saved := get in
      put_pos (ppos saved + 2) ;?
      let? low := attempt (code_point 4) in
      match low with
      | Some low =>
          if low_surrogate low then ret (65536 + Z.shiftl (high - 55296) 10 + low - 56320)
          else put_pos (ppos saved) ;? ret high
      | None => put_pos (ppos saved) ;? ret high
      end
    else ret high.

Definition escaped_char (e : Z) : P Z :=
  let? s := get in
  if e =? chr "n" then ret 10
  else if e =? chr "t" then ret 9
  else if e =? chr "r" then ret 13
  else if e =? chr "f" then ret 12
  else if e =? chr "v" then ret 11
  else if e =? chr "0" then
    let? p := peek in
    if punicode s && match p with Some c => is_ascii_digit c | None => false end
    then fail InvalidDecimalEscape else ret 0
  else if e =? chr "x" then hex_escape_or_identity (chr "x") 2
  else if e =? chr "u" then unicode_escape
  else if e =? chr "c" then
    let? p := peek in
    match p with
    | Some letter =>
        if is_ascii_alphabetic letter then bump ;? ret (letter mod 32) else fail InvalidControlEscape
    | None => fail InvalidControlEscape
    end
  else if punicode s && is_ascii_alphanumeric e then fail (InvalidIdentityEscape e)
  else ret e.

(** *** Group names *)

(** The UTF-16 units of a code point. *)
Definition code_units (code : Z) : list Z :=
  if 65535 <? code
  then [55296 + Z.shiftr (code - 65536) 10; 56320 + Z.land (code - 65536) 1023]
  else [code].

(** [escaped_char('u')] with the Unicode flag on. *)
Definition name_escape : P Z :=
  fun s => let (r, s') := escaped_char (chr "u") (set_unicode s true) in (r, set_unicode s' (punicode s)).

Fixpoint group_name_loop (fuel : nat) (units : list Z) : P (list Z) :=
  match fuel with
  | O => fail ParseFuel
  | S fuel =>
      let? p := peek in
      match p with
      | None => fail InvalidGroupName
      | Some c =>
          bump ;?
          if c =? chr ">" then
            match units with
            | [] => fail InvalidGroupName
            | _ => match JsString.from_utf16 units with
                   | Some name => ret name
                   | None => fail InvalidGroupName
                   end
            end
          else if c =? chr "\" then
            expect (chr "u") ;?
            let? code := name_escape in
            group_name_loop fuel (units ++ code_units code)
          else group_name_loop fuel (units ++ JsString.encode_char c)
      end
  end.
Definition group_name : P (list Z) := group_name_loop LOOP [].

(** *** Properties *)

(** [property] of [unicode.rs]: the class and whether it holds the surrogates. *)
Definition scalar_ranges (r : Z * Z) : list (Z * Z) :=
  List.filter (fun r => r.1 <=? r.2) [(r.1, Z.min r.2 55295); (Z.max r.1 57344, r.2)].

Definition property (name : list Z) : option (list (Z * Z) * bool) :=
  ranges ← property_ranges name;
  Some (to_class (flat_map scalar_ranges ranges), existsb (fun r => in_range r.1 r.2 55296) ranges).

Definition in_class (ranges : list (Z * Z)) (c : Z) : bool :=
  match ranges !! range_index c ranges with Some r => r.1 <=? c | None => false end.

(** The class with every character that folds with one of its own. *)
Definition case_closure (class : list (Z * Z)) : list (Z * Z) :=
  to_class (fold_left (fun ranges group =>
    if existsb (in_class class) group then ranges ++ map (fun c => (c, c)) group else ranges)
    fold_classes class).

Definition keycap_sequences : list (list Z) :=
  map (fun base => [base; 65039; 8419]) (Prelude.chars "0123456789#*").

(** The fully-qualified single emoji. *)
Definition singles_units : option (list (list Z)) :=
  mapM (fun cp => if JsString.is_char cp then Some (JsString.encode_char cp) else None) emoji_singles.

Definition string_property (name : list Z) : option (list (list Z)) :=
  let is_name s := bool_decide (name = Prelude.chars s) in
  if is_name "emojikeycapsequence"%string then Some keycap_sequences
  else if is_name "rgiemojiflagsequence"%string then Some flag_sequences
  else if is_name "rgiemojitagsequence"%string then Some tag_sequences
  else if is_name "rgiemojimodifiersequence"%string then Some modifier_sequences
  else if is_name "rgiemojizwjsequence"%string then Some zwj_sequences
  else if is_name "basicemoji"%string then singles ← singles_units; Some (singles ++ emoji_pairs)
  else if is_name "rgiemoji"%string then
    singles ← singles_units;
    Some (singles ++ keycap_sequences ++ flag_sequences ++ tag_sequences ++ modifier_sequences
          ++ zwj_sequences ++ emoji_pairs)
  else None.

Definition loose_name (name : list Z) : list Z :=
  flat_map to_lowercase (List.filter (fun c => negb (among "_- " c)) name).

Fixpoint skip_to_brace (fuel : nat) : P unit :=
  match fuel with
  | O => fail ParseFuel
  | S fuel =>
      let? p := peek in
      match p with
      | Some c => if c =? chr "}" then ret tt else bump ;? skip_to_brace fuel
      | None => ret tt
      end
  end.

Definition unicode_property (negated : bool) : P ClassItem :=
  let? opened := eat (chr "{") in
  if negb opened then fail InvalidProperty
  else
    let? s := get in
    skip_to_brace LOOP ;?
    let? closed := eat (chr "}") in
    let? s' := get in
    if negb closed || (ppos s' - ppos s <=? 1)%nat then fail InvalidProperty
    else
      let name := take (ppos s' - 1 - ppos s) (drop (ppos s) chars) in
      match (if vsets then string_property (loose_name name) else None) with
      | Some strings => if negated then fail NegatedStrings else ret (Strings (string_alts strings))
      | None =>
          match property name with
          | None => fail InvalidProperty
          | Some (class, surrogates) =>
              ret (UnicodeProperty surrogates class (case_closure class)
                     (case_closure (negate_class class)) negated)
          end
      end.

(** *** Class escapes *)

(** The shorthand classes. *)
Definition shorthand (e : Z) : option ClassItem :=
  if e =? chr "d" then Some (ShorthandItem Digit false)
  else if e =? chr "D" then Some (ShorthandItem Digit true)
  else if e =? chr "w" then Some (ShorthandItem Word false)
  else if e =? chr "W" then Some (ShorthandItem Word true)
  else if e =? chr "s" then Some (ShorthandItem Space false)
  else if e =? chr "S" then Some (ShorthandItem Space true)
  else None.

Definition class_atom_tail (e : Z) : P ClassItem :=
  let? s := get in
  if punicode s && ((e =? chr "p") || (e =? chr "P")) then unicode_property (e =? chr "P")
  else match shorthand e with
       | Some item => ret item
       | None =>
           let? p := peek in
           if e =? chr "b" then ret (Char 8)
           else
             let digit := match p with Some c => is_ascii_digit c || (c =? chr "_") | None => false end in
             if (e =? chr "c") && negb (punicode s) && digit
             then match p with Some c => bump ;? ret (Char (c mod 32)) | None => ret (Char 0) end
             else if is_octal e && negb (punicode s)
             then let? v := legacy_octal e in ret (Char v)
             else let? v := escaped_char e in ret (Char v)
       end.

Definition class_atom : P ClassItem :=
  let? p := peek in
  match p with
  | None => fail UnterminatedClass
  | Some c =>
      if negb (c =? chr "\") then bump ;? ret (Char c)
      else
        bump ;?
        let? q := peek in
        match q with
        | None => fail TrailingBackslash
        | Some e =>
            let? s := get in
            let? next := look 1 in
            if (e =? chr "c") && negb (punicode s)
               && negb match next with
                       | Some c => is_ascii_alphanumeric c || (c =? chr "_")
                       | None => false
                       end
            then ret (Char (chr "\"))
            else bump ;? class_atom_tail e
        end
  end.

(** The body of a class outside [v] mode. *)
Fixpoint class_items (fuel : nat) (items : list ClassItem) : P (list ClassItem) :=
  match fuel with
  | O => fail ParseFuel
  | S fuel =>
      let? p := peek in
      match p with
      | None => fail UnterminatedClass
      | Some c =>
          if c =? chr "]" then bump ;? ret items
          else
            let? low := class_atom in
            let? p := peek in
            let? next := look 1 in
            if bool_decide (p = Some (chr "-")) && negb (bool_decide (next = Some (chr "]"))) then
              bump ;?
              let? high := class_atom in
              match low, high with
              | Char a, Char b =>
                  if b <? a then fail RangeOutOfOrder else class_items fuel (items ++ [Range a b])
              | _, _ => class_items fuel (items ++ [low; Char (chr "-"); high])
              end
            else class_items fuel (items ++ [low])
      end
  end.

(** *** Set expressions *)

Inductive SetOperator := Intersect | Difference.
Inductive SetOperand := Unit (item : ClassItem) | RangeOperand (low high : Z).

Definition same_operator (a b : SetOperator) : bool :=
  match a, b with Intersect, Intersect | Difference, Difference => true | _, _ => false end.

Fixpoint q_loop (fuel : nat) (alternatives : list (list Z)) (current : list Z) : P (list (list Z)) :=
  match fuel with
  | O => fail ParseFuel
  | S fuel =>
      let? p := peek in
      match p with
      | None => fail UnterminatedClass
      | Some c =>
          bump ;?
          if c =? chr "}" then ret (alternatives ++ [current])
          else if c =? chr "|" then q_loop fuel (alternatives ++ [current]) []
          else if c =? chr "\" then
            let? q := peek in
            match q with
            | None => fail TrailingBackslash
            | Some e =>
                bump ;?
                let? item := class_atom_tail e in
                match item with
                | Char unit =>
                    if unit <=? 65535 then q_loop fuel alternatives (current ++ [unit])
                    else fail InvalidStringEscape
                | _ => fail InvalidStringEscape
                end
            end
          else q_loop fuel alternatives (current ++ JsString.encode_char c)
      end
  end.

Definition q_string : P (list (list Z)) :=
  let? opened := eat (chr "{") in
  if opened then q_loop LOOP [] [] else fail InvalidQ.

Definition class_set_escape : P ClassItem :=
  bump ;?
  let? p := peek in
  match p with
  | None => fail TrailingBackslash
  | Some e =>
      bump ;?
      if e =? chr "q" then let? l := q_string in ret (Strings (string_alts l)) else class_atom_tail e
  end.

(** The [-Y] of a range; the operands are given without their last. *)
Definition class_set_range (operands : list SetOperand) : P (list SetOperand) :=
  match last operands with
  | Some (Unit (Char low)) =>
      bump ;?
      let? p := peek in
      let? end_ :=
        (match p with
         | Some c =>
             if c =? chr "\" then class_set_escape
             else if negb (among "(){}-/|]^" c) then bump ;? ret (Char c)
             else fail InvalidClassCharacter
         | None => fail InvalidClassCharacter
         end) in
      match end_ with
      | Char high =>
          if high <? low then fail RangeOutOfOrder
          else ret (take (length operands - 1) operands ++ [RangeOperand low high])
      | _ => fail InvalidClassCharacter
      end
  | _ => fail InvalidClassCharacter
  end.

Definition operand_item (o : SetOperand) : ClassItem :=
  match o with Unit item => item | RangeOperand low high => Range low high end.
Definition is_range_operand (o : SetOperand) : bool :=
  match o with RangeOperand _ _ => true | _ => false end.

(** The operands under their operators. *)
Definition combine_operands (operands : list SetOperand) (operators : list SetOperator) (juxtaposed : bool)
  : P (list ClassItem) :=
  match operators with
  | [] => ret (map operand_item operands)
  | first :: _ =>
      if juxtaposed || negb (length operands =? length operators + 1)%nat
         || existsb is_range_operand operands || existsb (fun o => negb (same_operator o first)) operators
      then fail InvalidSetOperation
      else
        let units := map operand_item operands in
        match first with
        | Intersect => ret [Conjoin (map (fun i => [i]) units)]
        | Difference =>
            match units with
            | [] => ret []
            | left_item :: rest => ret [Except [left_item] rest]
            end
        end
  end.

(** The operator after an operand, if there is one. *)
Definition set_operator : P (option SetOperator) :=
  let? a := look 0 in
  let? b := look 1 in
  let? s := get in
  if bool_decide (a = Some (chr "&")) && bool_decide (b = Some (chr "&"))
  then put_pos (ppos s + 2) ;? ret (Some Intersect)
  else if bool_decide (a = Some (chr "-")) && bool_decide (b = Some (chr "-"))
  then put_pos (ppos s + 2) ;? ret (Some Difference)
  else ret None.

(** [class_set_expression] (its loop, with what it has collected) and
    [class_set_operand]. *)
Fixpoint class_set_loop (fuel : nat) (operands : list SetOperand) (operators : list SetOperator)
    (juxtaposed after_operator : bool) : P (list ClassItem) :=
  match fuel with
  | O => fail ParseFuel
  | S fuel =>
      let? p := peek in
      match p with
      | None => fail UnterminatedClass
      | Some c =>
          if c =? chr "]" then bump ;? combine_operands operands operators juxtaposed
          else
            let juxtaposed :=
              juxtaposed || (match operands with [] => false | _ => true end && negb after_operator) in
            let? operand := class_set_operand fuel in
            let operands := operands ++ [operand] in
            let? operator := set_operator in
            match operator with
            | Some o => class_set_loop fuel operands (operators ++ [o]) juxtaposed true
            | None =>
                let? p := peek in
                if bool_decide (p = Some (chr "-")) then
                  let? operands := class_set_range operands in
                  class_set_loop fuel operands operators juxtaposed false
                else class_set_loop fuel operands operators juxtaposed false
            end
      end
  end
with class_set_operand (fuel : nat) : P SetOperand :=
  match fuel with
  | O => fail ParseFuel
  | S fuel =>
      let? p := peek in
      match p with
      | None => fail UnterminatedClass
      | Some c =>
          if c =? chr "[" then
            bump ;?
            let? negated := eat (chr "^") in
            let? items := class_set_loop fuel [] [] false false in
            if negated && set_contains_strings items then fail NegatedStrings
            else ret (Unit (Nested negated items))
          else if c =? chr "\" then let? item := class_set_escape in ret (Unit item)
          else if among "(){}-/|" c then fail InvalidClassCharacter
          else if (c =? chr "-") || (c =? chr "&") then fail InvalidSetOperation
          else bump ;? ret (Unit (Char c))
      end
  end.

Definition SET_FUEL : nat := 2 * length chars + 2.

Definition class : P Node :=
  bump ;?
  let? negated := eat (chr "^") in
  if vsets then
    let? items := class_set_loop SET_FUEL [] [] false false in
    if negated && set_contains_strings items then fail NegatedStrings else ret (Class negated items)
  else
    let? items := class_items LOOP [] in ret (Class negated items).

(** *** Escapes outside classes *)

(** A decimal escape: a back-reference when there are that many groups. *)
Definition decimal_escape (c : Z) : P Node :=
  let? s := get in
  let start := (ppos s - 1)%nat in
  put_pos start ;?
  let? index := digits in
  if from_option id U32_MAX index <=? Z.of_nat total_groups
  then ret (Backref (Z.to_nat (from_option id U32_MAX index)))
  else if punicode s then fail InvalidDecimalEscape
  else
    put_pos (start + 1) ;?
    if c <=? chr "7" then let? v := legacy_octal c in ret (NChar v) else ret (NChar c).

Definition escape : P Node :=
  bump ;?
  let? p := peek in
  match p with
  | None => fail TrailingBackslash
  | Some e =>
      bump ;?
      let? s := get in
      if ((e =? chr "p") || (e =? chr "P")) && punicode s then
        let? item := unicode_property (e =? chr "P") in ret (Class false [item])
      else match shorthand e with
      | Some item => ret (Class false [item])
      | None =>
          let? next := peek in
          if e =? chr "b" then ret (NAnchor WordBoundary)
          else if e =? chr "B" then ret (NAnchor NotWordBoundary)
          else if (e =? chr "k") && negb (punicode s) && negb has_named_captures then ret (NChar (chr "k"))
          else if e =? chr "k" then
            let? opened := eat (chr "<") in
            if opened then let? name := group_name in ret (NamedBackref name)
            else fail InvalidNamedReference
          else if is_ascii_digit e && negb (e =? chr "0") then decimal_escape e
          else if (e =? chr "c") && negb (punicode s)
                  && negb match next with Some c => is_ascii_alphabetic c | None => false end
          then put_pos (ppos s - 1) ;? ret (NChar (chr "\"))
          else if (e =? chr "0") && negb (punicode s)
          then let? v := legacy_octal (chr "0") in ret (NChar v)
          else let? v := escaped_char e in ret (NChar v)
      end
  end.

(** *** Groups *)

Definition modifier_bit (c : Z) : option Z :=
  if c =? chr "i" then Some 1 else if c =? chr "m" then Some 2 else if c =? chr "s" then Some 4 else None.

Fixpoint modifiers_loop (fuel : nat) (add remove : Z) (subtract : bool) : P (Z * Z) :=
  match fuel with
  | O => fail ParseFuel
  | S fuel =>
      let? p := peek in
      match p with
      | None => ret (add, remove)
      | Some c =>
          if (c =? chr "-") && negb subtract then bump ;? modifiers_loop fuel add remove true
          else match modifier_bit c with
               | None => ret (add, remove)
               | Some b =>
                   if negb (Z.land (Z.lor add remove) b =? 0) then fail DuplicateModifier
                   else bump ;?
                        if subtract then modifiers_loop fuel add (Z.lor remove b) subtract
                        else modifiers_loop fuel (Z.lor add b) remove subtract
               end
      end
  end.

(** A new group, under a name or without. *)
Definition open_group (name : option (list Z)) : P nat :=
  fun s =>
    let index := S (pgroups s) in
    (Ok index,
     {| ppos := ppos s; pgroups := index;
        pnames := match name with Some name => push_at (pnames s) name index | None => pnames s end;
        punicode := punicode s |}).

(** [branches] as one node, and the items of a sequence as one. *)
Definition close_branches (branches : list Node) : Node :=
  match branches with [n] => n | _ => Alt branches end.
Definition close_items (items : list Node) : Node :=
  match items with [] => Empty | [n] => n | _ => Concat items end.

(** [group] after its opening, for a way to parse an alternation. *)
Definition group_body (alternation : P Node) (wrap : Node -> Node) : P Node :=
  let? n := alternation in
  expect (chr ")") ;? ret (wrap n).

Definition group (alternation : P Node) : P Node :=
  bump ;?
  let? question := eat (chr "?") in
  if question : bool then
    let? plain := eat (chr ":") in
    if plain : bool then group_body alternation (Group None)
    else
      let? ahead := eat (chr "=") in
      if ahead : bool then group_body alternation (Look true false)
      else
        let? not_ahead := eat (chr "!") in
        if not_ahead : bool then group_body alternation (Look true true)
        else
          let? angle := eat (chr "<") in
          if angle : bool then
            let? behind := eat (chr "=") in
            if behind : bool then group_body alternation (Look false false)
            else
              let? not_behind := eat (chr "!") in
              if not_behind : bool then group_body alternation (Look false true)
              else
                let? name := group_name in
                let? index := open_group (Some name) in
                group_body alternation (Group (Some index))
          else
            let? p := peek in
            if match p with Some c => among "ims-" c | None => false end then
              let? mods := modifiers_loop LOOP 0 0 false in
              if Z.lor mods.1 mods.2 =? 0 then fail EmptyModifier
              else expect (chr ":") ;? group_body alternation (Modifiers mods.1 mods.2)
            else fail InvalidGroup
  else
    let? index := open_group None in
    group_body alternation (Group (Some index)).

Definition atom (alternation : P Node) : P Node :=
  let? p := peek in
  match p with
  | None => ret Empty
  | Some c =>
      if c =? chr "^" then bump ;? ret (NAnchor Start)
      else if c =? chr "$" then bump ;? ret (NAnchor End)
      else if c =? chr "." then bump ;? ret AnyChar
      else if c =? chr "(" then group alternation
      else if c =? chr "[" then class
      else if c =? chr "\" then escape
      else if among "*+?" c then fail NothingToRepeat
      else bump ;? ret (NChar c)
  end.

(** The loops of [alternation] and [sequence], with what they have collected. *)
Fixpoint alternation (fuel : nat) (branches : list Node) : P Node :=
  match fuel with
  | O => fail ParseFuel
  | S fuel =>
      let? n := sequence fuel [] in
      let branches := branches ++ [n] in
      let? bar := eat (chr "|") in
      if bar then alternation fuel branches else ret (close_branches branches)
  end
with sequence (fuel : nat) (items : list Node) : P Node :=
  match fuel with
  | O => fail ParseFuel
  | S fuel =>
      let? p := peek in
      match p with
      | None => ret (close_items items)
      | Some c =>
          if (c =? chr "|") || (c =? chr ")") then ret (close_items items)
          else
            let? a := atom (alternation fuel []) in
            let? n := quantifier a in
            sequence fuel (items ++ [n])
      end
  end.

(** Calls of [alternation] and [sequence] nest at most this deep: see
    [parse_no_fuel]. *)
Definition PARSE_FUEL : nat := 2 * length chars + 2.

Definition parse : P (Node * nat * gmap (list Z) (list nat)) :=
  let? root := alternation PARSE_FUEL [] in
  let? s := get in
  if (ppos s <? length chars)%nat then fail (UnmatchedParenthesis (ppos s))
  else ret (root, pgroups s, pnames s).

End Parser.

(** ** The construction of a pattern *)

Definition initial (unicode : bool) : PState :=
  {| ppos := 0; pgroups := 0; pnames := ∅; punicode := unicode |}.

(** [Parser::new(pattern, unicode, vsets).parse()] *)
Definition parse_pattern `{UnicodeTables} `{PropertyTables} (pattern : list Z) (unicode vsets : bool)
  : outcome ParseError (Node * nat * gmap (list Z) (list nat)) :=
  let (total, named) := prescan (S (length pattern)) pattern 0 false false 0 in
  (parse pattern total vsets named (initial unicode)).1.

End RegexParse.
