(* ===== verification/RegexNew.v ===== *)
(** The construction of a pattern: [validate_syntax] and [Regex::new] of
    [regex/mod.rs], with the syntax validator of the [oxc] crate and the
    identifier tables as arguments. *)
From stdpp Require Import prelude list gmap strings.
From Stdlib Require Import ZArith Lia Ascii.
From S2P Require Import Prelude JsString Regex RegexParse.
Import Regex RegexParse.
Local Open Scope Z_scope.
Local Open Scope rust_scope.

Module RegexNew.

Inductive NewError :=
| InvalidFlag (flag : Z)
| DuplicateFlag (flag : Z)
| NestingExceeded
| BadGroupName
| SyntaxRejected
| ParseRejected (e : ParseError).

Definition contains (flag : ascii) (flags : list Z) : bool := existsb (Z.eqb (chr flag)) flags.
Arguments contains flag%_char_scope flags.

(** *** Flags *)

Fixpoint check_flags (flags seen : list Z) : outcome NewError unit :=
  match flags with
  | [] => Ok tt
  | flag :: flags =>
      if negb (among "dgimsuvy" flag) then Err (InvalidFlag flag)
      else if existsb (Z.eqb flag) seen then Err (DuplicateFlag flag)
      else check_flags flags (seen ++ [flag])
  end.

(** *** The text of a pattern *)

Definition hex (n : Z) : list Z := show_digits 16 8 n [].
Definition hex4 (n : Z) : list Z := pad_left 4 48 (hex n).

(** One code point of the source, escaped where a [char] cannot hold it. *)
Definition pattern_piece (unicode : bool) (cp : outcome unit JsString.JsString) : outcome NewError (list Z) :=
  match cp with
  | Ok cp =>
      match JsString.code_point_at cp 0 with
      | None => Panic
      | Some n =>
          if in_range 55296 57343 n then
            Ok (if unicode then chars "\u{" ++ hex n ++ chars "}" else chars "\u" ++ hex4 n)
          else if negb unicode && (65535 <? n)
          then Ok (flat_map (fun u => chars "\u" ++ hex4 u) (JsString.units cp))
          else if JsString.is_char n then Ok [n] else Panic
      end
  | _ => Panic
  end.

Fixpoint pattern_text (unicode : bool) (cps : list (outcome unit JsString.JsString)) : outcome NewError (list Z) :=
  match cps with
  | [] => Ok []
  | cp :: cps =>
      let* piece := pattern_piece unicode cp in
      let* rest := pattern_text unicode cps in
      Ok (piece ++ rest)
  end.

(** *** Nesting *)

Definition MAX_NESTING : nat := 256.

Fixpoint nesting (vsets : bool) (text : list Z) (groups classes : nat) (escaped : bool) : bool :=
  match text with
  | [] => true
  | c :: text =>
      if escaped then nesting vsets text groups classes false
      else if c =? chr "\" then nesting vsets text groups classes true
      else
        let gc :=
          if (c =? chr "[") && ((classes =? 0)%nat || vsets) then (groups, S classes)
          else if c =? chr "]" then (groups, classes - 1)%nat
          else if (c =? chr "(") && (classes =? 0)%nat then (S groups, classes)
          else if (c =? chr ")") && (classes =? 0)%nat then (groups - 1, classes)%nat
          else (groups, classes) in
        if (MAX_NESTING <? gc.1 + gc.2)%nat then false else nesting vsets text gc.1 gc.2 false
  end.

(** *** Group names *)

Section New.
Context `{UnicodeTables} `{PropertyTables}.
(** [unicode_id_start], and whether [oxc] accepts a pattern under its flags. *)
Context (is_id_start is_id_continue : Z -> bool) (oxc_accepts : list Z -> list Z -> bool).

Definition is_identifier_start (c : Z) : bool := among "$_" c || is_id_start c.
Definition is_identifier_continue (c : Z) : bool :=
  among "$_" c || (c =? 8204) || (c =? 8205) || is_id_continue c.

Definition is_identifier (name : list Z) : bool :=
  match name with
  | [] => false
  | c :: rest => is_identifier_start c && forallb is_identifier_continue rest
  end.

(** [Parser::new(&raw, true, false).group_name()] *)
Definition parse_name (raw : list Z) : outcome ParseError (list Z) := (group_name raw (RegexParse.initial true)).1.

Fixpoint position (c : Z) (l : list Z) : option nat :=
  match l with
  | [] => None
  | x :: l => if x =? c then Some 0%nat else S <$> position c l
  end.

Fixpoint normalize_loop (fuel : nat) (references : bool) (text : list Z) (class : bool) (output : list Z)
  : outcome NewError (list Z) :=
  match fuel with
  | O => Ok output
  | S fuel =>
      match text with
      | [] => Ok output
      | c :: rest =>
          let capture :=
            negb class && bool_decide (take 3 text = chars "(?<")
            && negb match text !! 3%nat with Some d => (d =? chr "=") || (d =? chr "!") | None => false end in
          let reference := negb class && references && bool_decide (take 3 text = chars "\k<") in
          if capture || reference then
            let body := drop 3 text in
            match position (chr ">") body with
            | None => Err BadGroupName
            | Some n =>
                match parse_name (take (S n) body) with
                | Ok name =>
                    if is_identifier name
                    then normalize_loop fuel references (drop (S n) body) class
                           (output ++ take 3 text ++ name ++ [chr ">"])
                    else Err BadGroupName
                | Err e => Err (ParseRejected e)
                | Panic => Panic
                end
            end
          else if c =? chr "\" then
            match rest with
            | e :: rest => normalize_loop fuel references rest class (output ++ [c; e])
            | [] => normalize_loop fuel references rest class (output ++ [c])
            end
          else
            normalize_loop fuel references rest
              (if c =? chr "[" then true else if c =? chr "]" then false else class) (output ++ [c])
      end
  end.

(** A substring of a text. *)
Fixpoint occurs (needle text : list Z) : bool :=
  match strip_prefix needle text with
  | Some _ => true
  | None => match text with [] => false | _ :: text => occurs needle text end
  end.

Definition normalize_group_names (pattern : list Z) (unicode : bool) : outcome NewError (option (list Z)) :=
  if negb (existsb (Z.eqb (chr "\")) pattern)
     || negb (occurs (chars "(?<") pattern || occurs (chars "\k<") pattern)
  then Ok None
  else
    let named := (prescan (S (length pattern)) pattern 0 false false 0).2 in
    let* output := normalize_loop (S (length pattern)) (unicode || named) pattern false [] in
    Ok (Some output).

(** *** [validate_syntax] and [Regex::new] *)

Definition is_unicode (flags : list Z) : bool := contains "u" flags || contains "v" flags.

Definition validate_syntax (source : JsString.JsString) (flags : list Z) : outcome NewError (list Z) :=
  check_flags flags [] ;*
  let unicode := is_unicode flags in
  let* pattern := pattern_text unicode (JsString.code_points source) in
  if negb (nesting (contains "v" flags) pattern 0 0 false) then Err NestingExceeded
  else
    let* normalized := normalize_group_names pattern unicode in
    if oxc_accepts (from_option id pattern normalized) flags then Ok pattern else Err SyntaxRejected.

Definition regex_new (source : JsString.JsString) (flags : list Z) : outcome NewError Regex :=
  let* pattern := validate_syntax source flags in
  let unicode := is_unicode flags in
  match parse_pattern pattern unicode (contains "v" flags) with
  | Ok (root, group_count, names) =>
      Ok {| root := root; group_count := group_count; names := names;
            source := if JsString.is_empty source then JsString.from_string (chars "(?:)") else source;
            flags := flags; global := contains "g" flags; ignore_case := contains "i" flags;
            multiline := contains "m" flags; dot_all := contains "s" flags;
            sticky := contains "y" flags; unicode := unicode |}
  | Err e => Err (ParseRejected e)
  | Panic => Panic
  end.

End New.
End RegexNew.
