(* ===== verification/RegexParseSafety.v ===== *)
(** The parser ends on every text, and the patterns it builds number their groups
    in order and have ordered bounds. *)
From stdpp Require Import prelude list gmap strings.
From Stdlib Require Import ZArith Lia Ascii.
From S2P Require Import Prelude JsString Regex RegexParse RegexSafety RegexSpec.
Import Regex RegexParse.
Local Open Scope Z_scope.
Local Open Scope parse_scope.


(** What holds of a computation that ends in a value; it never runs out of fuel
    and never panics. *)
Definition parses {A} (m : P A) (Q : A -> PState -> Prop) (s : PState) : Prop :=
  match m s with
  | (Ok x, s') => Q x s'
  | (Err ParseFuel, _) | (Panic, _) => False
  | (Err _, _) => True
  end.

Lemma parses_mono {A} (m : P A) (Q Q' : A -> PState -> Prop) s :
  parses m Q s -> (forall x s', Q x s' -> Q' x s') -> parses m Q' s.
Proof. unfold parses. destruct (m s) as [[?|[]|] ?]; eauto. Qed.

Lemma parses_bind {A B} (m : P A) (k : A -> P B) Q s :
  parses m (fun x s' => parses (k x) Q s') s -> parses (bind m k) Q s.
Proof. unfold parses, bind. destruct (m s) as [[?|[]|] ?]; eauto. Qed.

Lemma parses_then {A B} (m : P A) (k : A -> P B) (Q : A -> PState -> Prop) Q' s :
  parses m Q s -> (forall x s', Q x s' -> parses (k x) Q' s') -> parses (bind m k) Q' s.
Proof. intros Hm Hk. apply parses_bind. by eapply parses_mono. Qed.

Lemma parses_ret {A} (x : A) (Q : A -> PState -> Prop) s : Q x s -> parses (ret x) Q s.
Proof. done. Qed.

Lemma parses_get (Q : PState -> PState -> Prop) s : Q s s -> parses get Q s.
Proof. done. Qed.

Lemma parses_put_pos p (Q : unit -> PState -> Prop) s : Q tt (set_pos s p) -> parses (put_pos p) Q s.
Proof. done. Qed.

Section Parser.
Context `{UnicodeTables} `{PropertyTables}.
Context (chars : list Z) (total_groups : nat) (vsets has_named_captures : bool).

Lemma parses_peek (Q : option Z -> PState -> Prop) s : Q (chars !! ppos s) s -> parses (peek chars) Q s.
Proof. done. Qed.
Lemma parses_look n (Q : option Z -> PState -> Prop) s :
  Q (chars !! (ppos s + n)%nat) s -> parses (look chars n) Q s.
Proof. done. Qed.
Lemma parses_bump (Q : unit -> PState -> Prop) s : Q tt (set_pos s (S (ppos s))) -> parses bump Q s.
Proof. done. Qed.

Lemma parses_eat c (Q : bool -> PState -> Prop) s :
  (chars !! ppos s = Some c -> Q true (set_pos s (S (ppos s)))) -> Q false s -> parses (eat chars c) Q s.
Proof.
  intros H1 H2. unfold eat. apply parses_bind, parses_peek. case_bool_decide; [|done].
  apply parses_bind, parses_bump, parses_ret. auto.
Qed.

(** A parser inside the text, with the groups it had. *)
Definition moves (s s' : PState) : Prop :=
  (ppos s <= ppos s' <= length chars)%nat /\ pgroups s' = pgroups s /\ pnames s' = pnames s
  /\ punicode s' = punicode s.

Definition advances (s s' : PState) : Prop := moves s s' /\ (ppos s < ppos s')%nat.

Abbreviation inside s := (ppos s <= length chars)%nat (only parsing).

Lemma moves_refl s : inside s -> moves s s.
Proof. unfold moves. intuition lia. Qed.
Lemma moves_trans a b c : moves a b -> moves b c -> moves a c.
Proof. unfold moves. intuition (congruence || lia). Qed.
Lemma moves_inside a b : moves a b -> inside b.
Proof. by intros ([] & _). Qed.
Lemma moves_bump a b c : moves a b -> chars !! ppos b = Some c -> moves a (set_pos b (S (ppos b))).
Proof. intros Hm E. apply lookup_lt_Some in E. unfold moves in *. simpl. intuition lia. Qed.
Lemma moves_back a b p : moves a b -> (ppos a <= p <= length chars)%nat -> moves a (set_pos b p).
Proof. unfold moves. simpl. intuition. Qed.
Lemma advances_bump a b c : moves a b -> chars !! ppos b = Some c -> advances a (set_pos b (S (ppos b))).
Proof. intros Hm E. split; [by eapply moves_bump|]. unfold moves in Hm. simpl. lia. Qed.
Lemma advances_moves a b : advances a b -> moves a b.
Proof. by intros []. Qed.
Lemma advances_trans a b c : advances a b -> moves b c -> advances a c.
Proof. intros [H1 H2] H3. split; [by eapply moves_trans|]. unfold moves in *. lia. Qed.

Create HintDb parser.
Hint Resolve moves_refl moves_trans moves_inside moves_bump advances_bump advances_moves advances_trans : parser.

(** One rule of the computation in front. *)
Ltac prule :=
  match goal with
  | |- parses (bind _ _) _ _ => apply parses_bind
  | |- parses (ret _) _ _ => apply parses_ret
  | |- parses get _ _ => apply parses_get
  | |- parses (peek _) _ _ => apply parses_peek
  | |- parses (look _ _) _ _ => apply parses_look
  | |- parses (put_pos _) _ _ => apply parses_put_pos
  | |- parses (fail _) _ _ => exact I
  end.
Ltac prules := repeat (prule; cbv beta).

Ltac pthen :=
  cbv beta;
  match goal with
  | |- parses (bind _ _) _ _ => eapply parses_then
  | |- _ => eapply parses_mono
  end.
Tactic Notation "pcall" tactic3(L) := pthen; [L|]; cbv beta.
Ltac pthen_with Q0 :=
  cbv beta;
  match goal with
  | |- parses (bind _ _) _ _ => apply parses_then with (Q := Q0)
  | |- _ => apply parses_mono with (Q := Q0)
  end.

Lemma eat_moves s c : inside s -> parses (eat chars c) (fun _ s' => moves s s') s.
Proof. intros Hs. apply parses_eat; eauto with parser. Qed.

Lemma expect_moves s c : inside s -> parses (expect chars c) (fun _ s' => moves s s') s.
Proof. intros Hs. unfold expect. pcall (by apply eat_moves). intros [] s' Hm; by prules. Qed.

(** *** Loops over characters *)

Lemma digits_loop_moves : forall fuel s v, inside s -> (length chars - ppos s < fuel)%nat ->
  parses (digits_loop chars fuel v) (fun _ s' => moves s s'
    /\ (forall c, chars !! ppos s = Some c -> is_ascii_digit c = true -> (ppos s < ppos s')%nat)) s.
Proof.
  induction fuel as [|fuel IH]; intros s v Hs Hf; [lia|]. cbn [digits_loop]. prules.
  destruct (chars !! ppos s) as [c|] eqn:E; [|by prules; split; [apply moves_refl|]].
  destruct (is_ascii_digit c) eqn:Ed; prules.
  - apply parses_bump. pose proof (lookup_lt_Some _ _ _ E) as Hl.
    pcall (apply IH; simpl; lia). intros x s' [Hm _].
    pose proof (advances_bump s s c (moves_refl s Hs) E) as Ha.
    pose proof (advances_trans _ _ _ Ha Hm) as [? ?]. split; [done|]. by intros.
  - split; [by apply moves_refl|]. intros c' [= <-]. congruence.
Qed.

Lemma loop_fuel s : (length chars - ppos s < LOOP chars)%nat.
Proof. unfold LOOP. lia. Qed.

Lemma digits_moves s : inside s -> parses (digits chars) (fun r s' => moves s s'
  /\ (forall c, chars !! ppos s = Some c -> is_ascii_digit c = true -> (ppos s < ppos s')%nat)) s.
Proof.
  intros Hs. unfold digits. prules. pcall (by apply digits_loop_moves, loop_fuel).
  intros v s' Hm. by prules.
Qed.

Lemma try_bounds_moves s c : inside s -> chars !! ppos s = Some c ->
  parses (try_bounds chars) (fun _ s' => moves s s') s.
Proof.
  intros Hs E. unfold try_bounds. prules. apply parses_bump.
  pose proof (moves_bump s s c (moves_refl s Hs) E) as H1.
  pcall (apply digits_moves; eauto with parser). intros [min|] s2 [H2 _].
  2: { prules. apply moves_back; [by eapply moves_trans|lia]. }
  pose proof (moves_trans _ _ _ H1 H2) as H3.
  pcall (apply eat_moves; eauto with parser). intros b s4 H4.
  pose proof (moves_trans _ _ _ H3 H4) as H5.
  pthen_with (fun (_ : option Z) s' => moves s s').
  { destruct b; [|prules; done]. pcall (apply digits_moves; eauto with parser).
    intros x s' [Hm _]. eauto with parser. }
  intros max s6 H6. pcall (apply eat_moves; eauto with parser).
  intros [] s7 H7; prules; [eauto with parser|]. apply moves_back; [eauto with parser|lia].
Qed.

(** Bounds in order, in every quantifier. *)
Fixpoint ordered (n : Node) : bool :=
  match n with
  | Group _ n | Look _ _ n | Modifiers _ _ n => ordered n
  | Concat l | Alt l => forallb ordered l
  | Repeat n min max _ => ordered n && match max with Some max => (min <=? max)%nat | None => true end
  | _ => true
  end.

Lemma finish_quantifier_ok s n min max : inside s -> ordered n = true ->
  parses (finish_quantifier chars n min max)
    (fun n' s' => moves s s' /\ RegexSpec.groups n' = RegexSpec.groups n /\ ordered n' = true) s.
Proof.
  intros Hs Hn. unfold finish_quantifier. destruct (match max with Some _ => _ | None => _ end) eqn:E; [by prules|].
  destruct (is_anchor n); [by prules|]. pcall (by apply eat_moves). intros b s' Hm. prules.
  split_and!; [done..|]. simpl. rewrite Hn. simpl. destruct max as [max|]; [|done]. simpl.
  apply Z.ltb_ge in E. apply Nat.leb_le. lia.
Qed.

Lemma quantifier_ok s n : inside s -> ordered n = true ->
  parses (quantifier chars n)
    (fun n' s' => moves s s' /\ RegexSpec.groups n' = RegexSpec.groups n /\ ordered n' = true) s.
Proof.
  intros Hs Hn. unfold quantifier. prules.
  destruct (chars !! ppos s) as [c|] eqn:E; [|prules; eauto with parser].
  assert (forall min max, parses (bump ;? finish_quantifier chars n min max)
    (fun n' s' => moves s s' /\ RegexSpec.groups n' = RegexSpec.groups n /\ ordered n' = true) s) as Hq.
  { intros min max. prules. apply parses_bump. pose proof (moves_bump s s c (moves_refl s Hs) E) as H1.
    pcall (apply finish_quantifier_ok; eauto with parser).
    intros n' s' (H2 & H3 & H4). split_and!; eauto with parser. }
  destruct (c =? chr "*"); [apply Hq|]. destruct (c =? chr "+"); [apply Hq|].
  destruct (c =? chr "?"); [apply Hq|]. destruct (c =? chr "{"); [|prules; eauto with parser].
  pcall (by eapply try_bounds_moves). intros [[min max]|] s1 H1; [|by prules].
  pcall (apply finish_quantifier_ok; eauto with parser).
  intros n' s' (H2 & H3 & H4). split_and!; eauto with parser.
Qed.

(** *** Escapes *)

(** A failed number leaves the parser further on, but with its groups. *)
Lemma code_point_cases : forall n s v, inside s -> exists s', moves s s'
  /\ ((exists x, code_point_loop chars n v s = (Ok x, s'))
      \/ code_point_loop chars n v s = (Err InvalidEscape, s')).
Proof.
  induction n as [|n IH]; intros s v Hs; [exists s; split; [by apply moves_refl|left; eauto]|].
  cbn [code_point_loop]. unfold bind, peek, bump.
  destruct (chars !! ppos s) as [c|] eqn:E; [|exists s; split; [by apply moves_refl|by right]].
  destruct (to_digit 16 c) as [d|]; [|exists s; split; [by apply moves_refl|by right]].
  pose proof (moves_bump s s c (moves_refl s Hs) E) as H1.
  destruct (IH _ (sat_add (sat_mul v 16) d) (moves_inside _ _ H1)) as (s' & H2 & H3).
  exists s'. split; [by eapply moves_trans|done].
Qed.

Lemma code_point_moves s n : inside s -> parses (code_point chars n) (fun _ s' => moves s s') s.
Proof.
  intros Hs. unfold parses, code_point.
  destruct (code_point_cases n s 0 Hs) as (s' & Hm & [[x ->]| ->]); done.
Qed.

Lemma attempt_moves s n : inside s -> parses (attempt (code_point chars n)) (fun _ s' => moves s s') s.
Proof.
  intros Hs. unfold parses, attempt, code_point.
  destruct (code_point_cases n s 0 Hs) as (s' & Hm & [[x ->]| ->]); done.
Qed.

Lemma hex_escape_moves s c n : inside s ->
  parses (hex_escape_or_identity chars c n) (fun _ s' => moves s s') s.
Proof.
  intros Hs. unfold hex_escape_or_identity. prules. destruct (punicode s); [by apply code_point_moves|].
  pcall (by apply attempt_moves). intros [v|] s' Hm; prules; [done|].
  apply moves_back; [done|lia].
Qed.

Lemma octal_loop_moves : forall n s v, inside s -> parses (octal_loop chars n v) (fun _ s' => moves s s') s.
Proof.
  induction n as [|n IH]; intros s v Hs; [by apply parses_ret, moves_refl|]. cbn [octal_loop]. prules.
  destruct (chars !! ppos s) as [c|] eqn:E; [|by prules; apply moves_refl].
  destruct (is_octal c); [|by prules; apply moves_refl]. prules. apply parses_bump.
  pose proof (moves_bump s s c (moves_refl s Hs) E) as H1.
  pcall (by eapply IH, moves_inside). eauto with parser.
Qed.

Lemma legacy_octal_moves s c : inside s -> parses (legacy_octal chars c) (fun _ s' => moves s s') s.
Proof. apply octal_loop_moves. Qed.

Lemma braced_hex_moves : forall fuel s v, inside s -> (length chars - ppos s < fuel)%nat ->
  parses (braced_hex chars fuel v) (fun _ s' => moves s s') s.
Proof.
  induction fuel as [|fuel IH]; intros s v Hs Hf; [lia|]. cbn [braced_hex]. prules.
  destruct (chars !! ppos s) as [c|] eqn:E; [|by prules; apply moves_refl].
  destruct (c =? chr "}"); [by prules; apply moves_refl|]. destruct (to_digit 16 c); [|by prules].
  prules. apply parses_bump. pose proof (moves_bump s s c (moves_refl s Hs) E) as H1.
  pose proof (lookup_lt_Some _ _ _ E). pcall (apply IH; simpl; lia). eauto with parser.
Qed.

Lemma unicode_escape_moves s : inside s -> parses (unicode_escape chars) (fun _ s' => moves s s') s.
Proof.
  intros Hs. unfold unicode_escape. prules.
  pthen_with (fun (_ : bool) s' => moves s s').
  { destruct (punicode s); [by apply eat_moves|by prules; apply moves_refl]. }
  intros [] s1 H1.
  - pcall (apply braced_hex_moves; [by eapply moves_inside|apply loop_fuel]).
    intros v s2 H2. pose proof (moves_trans _ _ _ H1 H2) as H3.
    pcall (apply expect_moves; by eapply moves_inside). intros ? s4 H4.
    destruct (1114111 <? v); prules. by eapply moves_trans.
  - pcall (apply hex_escape_moves; by eapply moves_inside). intros high s2 H2.
    pose proof (moves_trans _ _ _ H1 H2) as H3. prules.
    destruct (_ && bool_decide _) eqn:E; [|by prules]. apply andb_prop in E as [E Eb].
    apply andb_prop in E as [E Ea]. apply bool_decide_eq_true in Ea, Eb.
    apply lookup_lt_Some in Eb. prules.
    assert (moves s (set_pos s2 (ppos s2 + 2))) as H4 by (apply moves_back; [done|unfold moves in H3; lia]).
    pcall (apply attempt_moves; by eapply moves_inside). intros low s5 H5.
    pose proof (moves_trans _ _ _ H4 H5) as H6.
    assert (moves s (set_pos s5 (ppos s2))) as H7 by (apply moves_back; [done|unfold moves in H3; lia]).
    destruct low as [low|]; [destruct (low_surrogate low)|]; by prules.
Qed.

Lemma escaped_char_moves s e : inside s -> parses (escaped_char chars e) (fun _ s' => moves s s') s.
Proof.
  intros Hs. unfold escaped_char. prules. pose proof (moves_refl s Hs) as H1.
  do 5 (destruct (e =? _); [by prules|]).
  destruct (e =? _); [prules; destruct (_ && _); by prules|].
  destruct (e =? _); [by apply hex_escape_moves|]. destruct (e =? _); [by apply unicode_escape_moves|].
  destruct (e =? _).
  { prules. destruct (chars !! ppos s) as [c|] eqn:E; [|by prules]. destruct (is_ascii_alphabetic c); [|by prules].
    prules. apply parses_bump. prules. eauto with parser. }
  destruct (_ && _); by prules.
Qed.

Lemma name_escape_moves s : inside s -> parses (name_escape chars) (fun _ s' => moves s s') s.
Proof.
  intros Hs. pose proof (escaped_char_moves (set_unicode s true) (chr "u") Hs) as HP.
  unfold parses, name_escape in *.
  destruct (escaped_char chars (chr "u") (set_unicode s true)) as [[x|[]|] s']; try done.
  unfold moves in *. simpl in *. intuition.
Qed.

Lemma group_name_loop_moves : forall fuel s units, inside s -> (length chars - ppos s < fuel)%nat ->
  parses (group_name_loop chars fuel units) (fun _ s' => moves s s') s.
Proof.
  induction fuel as [|fuel IH]; intros s units Hs Hf; [lia|]. cbn [group_name_loop]. prules.
  destruct (chars !! ppos s) as [c|] eqn:E; [|by prules]. prules. apply parses_bump.
  pose proof (advances_bump s s c (moves_refl s Hs) E) as [H1 H1'].
  pose proof (lookup_lt_Some _ _ _ E) as Hl. simpl in H1'.
  destruct (c =? chr ">").
  { destruct units; [by prules|]. destruct (JsString.from_utf16 _); by prules. }
  destruct (c =? chr "\").
  - pcall (apply expect_moves; by eapply moves_inside). intros ? s2 H2.
    pcall (apply name_escape_moves; by eapply moves_inside). intros code s3 H3.
    pose proof (moves_trans _ _ _ H2 H3) as H4. pose proof (moves_trans _ _ _ H1 H4) as H5.
    pcall (apply IH; [by eapply moves_inside|unfold moves in H4; simpl in H4; lia]).
    intros y s' Hm. by eapply moves_trans.
  - pcall (apply IH; simpl; lia). intros y s' Hm. by eapply moves_trans.
Qed.

Lemma group_name_moves s : inside s -> parses (group_name chars) (fun _ s' => moves s s') s.
Proof. intros Hs. apply group_name_loop_moves; [done|apply loop_fuel]. Qed.

(** *** Classes *)

Lemma skip_to_brace_moves : forall fuel s, inside s -> (length chars - ppos s < fuel)%nat ->
  parses (skip_to_brace chars fuel) (fun _ s' => moves s s') s.
Proof.
  induction fuel as [|fuel IH]; intros s Hs Hf; [lia|]. cbn [skip_to_brace]. prules.
  destruct (chars !! ppos s) as [c|] eqn:E; [|by prules; apply moves_refl].
  destruct (c =? chr "}"); [by prules; apply moves_refl|]. prules. apply parses_bump.
  pose proof (moves_bump s s c (moves_refl s Hs) E) as H1. pose proof (lookup_lt_Some _ _ _ E).
  pcall (apply IH; simpl; lia). eauto with parser.
Qed.

Lemma unicode_property_moves s neg : inside s ->
  parses (unicode_property chars vsets neg) (fun _ s' => moves s s') s.
Proof.
  intros Hs. unfold unicode_property. pcall (by apply eat_moves). intros [] s1 H1; [|by prules].
  cbn [negb]. prules. pcall (apply skip_to_brace_moves; [by eapply moves_inside|apply loop_fuel]).
  intros ? s2 H2. pcall (apply eat_moves; by eapply moves_inside). intros b s3 H3. prules.
  pose proof (moves_trans _ _ _ (moves_trans _ _ _ H1 H2) H3) as H4.
  destruct (_ || _); [by prules|]. destruct (if vsets then _ else None); [destruct neg; by prules|].
  destruct (property _) as [[class surrogates]|]; by prules.
Qed.

Lemma class_atom_tail_moves s e : inside s ->
  parses (class_atom_tail chars vsets e) (fun _ s' => moves s s') s.
Proof.
  intros Hs. unfold class_atom_tail. prules. pose proof (moves_refl s Hs) as H1.
  destruct (_ && _); [by apply unicode_property_moves|]. destruct (shorthand e); [by prules|]. prules.
  destruct (e =? chr "b"); [by prules|]. cbv zeta.
  destruct (_ && _ && _).
  { destruct (chars !! ppos s) as [c|] eqn:E; prules; [|done]. apply parses_bump. prules. eauto with parser. }
  destruct (is_octal e && _).
  - pcall (by apply legacy_octal_moves). intros v s' Hm. by prules.
  - pcall (by apply escaped_char_moves). intros v s' Hm. by prules.
Qed.

Lemma class_atom_moves s : inside s -> parses (class_atom chars vsets) (fun _ s' => advances s s') s.
Proof.
  intros Hs. unfold class_atom. prules. destruct (chars !! ppos s) as [c|] eqn:E; [|by prules].
  pose proof (advances_bump s s c (moves_refl s Hs) E) as Ha.
  destruct (negb _); prules; apply parses_bump; prules; [done|].
  destruct (chars !! ppos (set_pos s (S (ppos s)))) as [e|] eqn:E2; [|by prules]. prules.
  destruct (_ && _ && _); prules; [done|]. apply parses_bump.
  pose proof (moves_bump s _ e (advances_moves _ _ Ha) E2) as H2.
  pcall (apply class_atom_tail_moves; by eapply moves_inside). intros x s' Hm.
  split; [by eapply moves_trans|]. unfold moves in Hm. simpl in *. lia.
Qed.

Lemma class_items_moves : forall fuel s items, inside s -> (length chars - ppos s < fuel)%nat ->
  parses (class_items chars vsets fuel items) (fun _ s' => moves s s') s.
Proof.
  induction fuel as [|fuel IH]; intros s items Hs Hf; [lia|]. cbn [class_items]. prules.
  destruct (chars !! ppos s) as [c|] eqn:E; [|by prules].
  destruct (c =? chr "]"); [prules; apply parses_bump; prules; eauto with parser|].
  pcall (by apply class_atom_moves). intros low s1 [H1 H1']. prules.
  pose proof (moves_inside _ _ H1) as Hi1.
  assert (forall s2 l, moves s1 s2 -> parses (class_items chars vsets fuel l) (fun _ s' => moves s s') s2) as Hrec.
  { intros s2 l H2. pcall (apply IH; [by eapply moves_inside|unfold moves in *; lia]).
    eauto with parser. }
  destruct (bool_decide (chars !! ppos s1 = Some (chr "-")) && _) eqn:Ed; [|by apply Hrec, moves_refl].
  apply andb_prop in Ed as [Ed _]. apply bool_decide_eq_true in Ed. prules. apply parses_bump.
  pose proof (moves_bump s1 s1 _ (moves_refl s1 Hi1) Ed) as H2.
  pcall (apply class_atom_moves; by eapply moves_inside). intros high s3 [H3 _].
  pose proof (moves_trans _ _ _ H2 H3) as H4.
  destruct low, high; try (by apply Hrec). destruct (_ <? _); [by prules|by apply Hrec].
Qed.

(** *** Set expressions *)

Lemma q_loop_moves : forall fuel s l cur, inside s -> (length chars - ppos s < fuel)%nat ->
  parses (q_loop chars vsets fuel l cur) (fun _ s' => moves s s') s.
Proof.
  induction fuel as [|fuel IH]; intros s l cur Hs Hf; [lia|]. cbn [q_loop]. prules.
  destruct (chars !! ppos s) as [c|] eqn:E; [|by prules]. prules. apply parses_bump.
  pose proof (moves_bump s s c (moves_refl s Hs) E) as H1. pose proof (lookup_lt_Some _ _ _ E) as Hl.
  set (s1 := set_pos s (S (ppos s))) in *.
  assert (forall s2 l cur, moves s1 s2 -> parses (q_loop chars vsets fuel l cur) (fun _ s' => moves s s') s2) as Hrec.
  { intros s2 l' cur' H2. pcall (apply IH; [by eapply moves_inside|unfold moves in H2; simpl in H2; lia]).
    eauto with parser. }
  pose proof (moves_refl s1 (moves_inside _ _ H1)) as H1r.
  destruct (c =? chr "}"); [by prules|]. destruct (c =? chr "|"); [by apply Hrec|].
  destruct (c =? chr "\"); [|by apply Hrec]. prules.
  destruct (chars !! ppos s1) as [e|] eqn:E2; [|by prules]. prules. apply parses_bump.
  pose proof (moves_bump s1 s1 e H1r E2) as H2.
  pcall (apply class_atom_tail_moves; by eapply moves_inside). intros item s3 H3.
  destruct item; try (by prules). destruct (_ <=? _); [|by prules]. apply Hrec. by eapply moves_trans.
Qed.

Lemma q_string_moves s : inside s -> parses (q_string chars vsets) (fun _ s' => moves s s') s.
Proof.
  intros Hs. unfold q_string. pcall (by apply eat_moves). intros [] s1 H1; [|by prules].
  pcall (apply q_loop_moves; [by eapply moves_inside|apply loop_fuel]). eauto with parser.
Qed.

Lemma class_set_escape_moves s c : inside s -> chars !! ppos s = Some c ->
  parses (class_set_escape chars vsets) (fun _ s' => advances s s') s.
Proof.
  intros Hs E. unfold class_set_escape. prules. apply parses_bump.
  pose proof (advances_bump s s c (moves_refl s Hs) E) as Ha. prules.
  destruct (chars !! ppos (set_pos s (S (ppos s)))) as [e|] eqn:E2; [|by prules]. prules. apply parses_bump.
  pose proof (moves_bump s _ e (advances_moves _ _ Ha) E2) as H2. pose proof (moves_inside _ _ H2) as Hi.
  destruct (e =? chr "q").
  - pcall (by apply q_string_moves). intros l s3 H3. prules.
    split; [by eapply moves_trans|]. unfold moves in H3. simpl in *. lia.
  - pcall (by apply class_atom_tail_moves). intros l s3 H3.
    split; [by eapply moves_trans|]. unfold moves in H3. simpl in *. lia.
Qed.

Lemma class_set_range_moves s l c : inside s -> chars !! ppos s = Some c ->
  parses (class_set_range chars vsets l) (fun _ s' => moves s s') s.
Proof.
  intros Hs E. unfold class_set_range. destruct (last l) as [[[]|]|]; try (by prules). prules. apply parses_bump.
  pose proof (moves_bump s s c (moves_refl s Hs) E) as H1. set (s1 := set_pos s (S (ppos s))) in *. prules.
  pthen_with (fun (_ : ClassItem) s' => moves s s').
  { destruct (chars !! ppos s1) as [d|] eqn:E2; [|by prules]. destruct (d =? chr "\").
    - pose proof (class_set_escape_moves s1 d (moves_inside _ _ H1) E2) as HE.
      eapply parses_mono; [exact HE|]. intros x s2 [H2 _]. by eapply moves_trans.
    - destruct (negb _); prules. apply parses_bump. prules. by eapply moves_bump. }
  intros [] s2 H2; try (by prules). destruct (_ <? _); by prules.
Qed.

Lemma combine_operands_moves s l ops j : inside s ->
  parses (combine_operands l ops j) (fun _ s' => moves s s') s.
Proof.
  intros Hs. pose proof (moves_refl s Hs) as H1. unfold combine_operands. destruct ops as [|first ops]; [by prules|].
  destruct (_ || _); [by prules|]. destruct first; [by prules|]. cbv zeta. destruct (map _ l); by prules.
Qed.

Lemma set_operator_moves s : inside s -> parses (set_operator chars) (fun _ s' => moves s s') s.
Proof.
  intros Hs. unfold set_operator. prules.
  assert (forall a b, bool_decide (chars !! (ppos s + 0)%nat = Some a)
      && bool_decide (chars !! (ppos s + 1)%nat = Some b) = true -> moves s (set_pos s (ppos s + 2))) as H2.
  { intros a b [_ E]%andb_prop. apply bool_decide_eq_true, lookup_lt_Some in E.
    apply moves_back; [by apply moves_refl|lia]. }
  destruct (_ && _) eqn:E; [prules; by eapply H2|]. clear E.
  destruct (_ && _) eqn:E; prules; [by eapply H2|by apply moves_refl].
Qed.

Definition set_loop_ok (fuel : nat) : Prop := forall s l ops j a, inside s ->
  (2 * (length chars - ppos s) + 2 <= fuel)%nat ->
  parses (class_set_loop chars vsets fuel l ops j a) (fun _ s' => moves s s') s.
Definition set_operand_ok (fuel : nat) : Prop := forall s, inside s ->
  (2 * (length chars - ppos s) + 1 <= fuel)%nat ->
  parses (class_set_operand chars vsets fuel) (fun _ s' => advances s s') s.

Lemma set_loop_step fuel : set_loop_ok fuel -> set_operand_ok fuel -> set_loop_ok (S fuel).
Proof.
  intros IH1 IH2 s l ops j a Hs Hf. cbn [class_set_loop]. prules.
  destruct (chars !! ppos s) as [c|] eqn:E; [|by prules].
  destruct (c =? chr "]").
  { prules. apply parses_bump. pose proof (moves_bump s s c (moves_refl s Hs) E) as H1.
    pcall (apply combine_operands_moves; by eapply moves_inside). eauto with parser. }
  cbv zeta. pcall (apply IH2; [done|lia]). intros operand s1 [H1 H1'].
  pcall (apply set_operator_moves; by eapply moves_inside). intros o s2 H2.
  pose proof (moves_trans _ _ _ H1 H2) as H3.
  assert (forall s4 l ops j a, moves s2 s4 ->
    parses (class_set_loop chars vsets fuel l ops j a) (fun _ s' => moves s s') s4) as Hrec.
  { intros s4 l' ops' j' a' H4. pcall (apply IH1; [by eapply moves_inside|unfold moves in *; lia]).
    intros x s' Hm. eauto with parser. }
  pose proof (moves_refl s2 (moves_inside _ _ H2)) as H2r.
  destruct o as [o|]; [by apply Hrec|]. prules.
  destruct (bool_decide _) eqn:Ed; [|by apply Hrec]. apply bool_decide_eq_true in Ed.
  pcall (eapply class_set_range_moves; [by eapply moves_inside|done]). intros l' s4 H4. by apply Hrec.
Qed.

Lemma set_operand_step fuel : set_loop_ok fuel -> set_operand_ok (S fuel).
Proof.
  intros IH s Hs Hf. cbn [class_set_operand]. prules.
  destruct (chars !! ppos s) as [c|] eqn:E; [|by prules].
  pose proof (advances_bump s s c (moves_refl s Hs) E) as Ha. pose proof (lookup_lt_Some _ _ _ E) as Hl.
  destruct (c =? chr "[").
  { prules. apply parses_bump. pcall (apply eat_moves; exact (moves_inside _ _ (advances_moves _ _ Ha))).
    intros b s2 H2. pcall (apply IH; [by eapply moves_inside|unfold moves in H2; simpl in H2; lia]).
    intros items s3 H3. destruct (_ && _); prules. eauto with parser. }
  destruct (c =? chr "\").
  { pcall (by eapply class_set_escape_moves). intros i s2 H2. by prules. }
  destruct (among _ _); [by prules|]. destruct (_ || _); [by prules|]. prules. apply parses_bump. by prules.
Qed.

Lemma set_ok fuel : set_loop_ok fuel /\ set_operand_ok fuel.
Proof.
  induction fuel as [|fuel [IH1 IH2]].
  - split; [intros s l ops j a Hs Hf|intros s Hs Hf]; lia.
  - split; [by apply set_loop_step|by apply set_operand_step].
Qed.

(** A node without groups or quantifiers. *)
Definition simple (n : Node) : Prop := RegexSpec.groups n = [] /\ ordered n = true.

Lemma class_ok s c : inside s -> chars !! ppos s = Some c ->
  parses (class chars vsets) (fun n s' => advances s s' /\ simple n) s.
Proof.
  intros Hs E. unfold class. prules. apply parses_bump.
  pose proof (advances_bump s s c (moves_refl s Hs) E) as Ha.
  pcall (apply eat_moves; exact (moves_inside _ _ (advances_moves _ _ Ha))). intros neg s2 H2.
  pose proof (moves_inside _ _ H2) as Hi.
  pose proof (proj1 (set_ok (SET_FUEL chars)) s2 [] [] false false Hi ltac:(unfold SET_FUEL; lia)) as HL.
  pose proof (class_items_moves (LOOP chars) s2 [] Hi (loop_fuel _)) as HI.
  revert HL HI. destruct vsets; intros HL HI.
  - pcall (exact HL). intros items s3 H3. destruct (_ && _); prules. split; [eauto with parser|done].
  - pcall (exact HI). intros items s3 H3. prules. split; [eauto with parser|done].
Qed.

(** *** Escapes outside classes *)

Lemma escape_ok s c : inside s -> chars !! ppos s = Some c ->
  parses (escape chars total_groups vsets has_named_captures) (fun n s' => advances s s' /\ simple n) s.
Proof.
  intros Hs E. unfold escape. prules. apply parses_bump.
  pose proof (advances_bump s s c (moves_refl s Hs) E) as Ha. prules.
  destruct (chars !! ppos (set_pos s (S (ppos s)))) as [e|] eqn:E2; [|by prules]. prules. apply parses_bump.
  pose proof (moves_bump s _ e (advances_moves _ _ Ha) E2) as H2.
  cbn [ppos set_pos] in *. set (s2 := set_pos _ (S (S (ppos s)))) in *.
  assert (forall s3 (n : Node), moves s2 s3 -> simple n -> advances s s3 /\ simple n) as Hdone.
  { intros s3 n H3 Hn. split; [|done]. split; [by eapply moves_trans|]. unfold moves in H3. simpl in H3. lia. }
  pose proof (moves_inside _ _ H2) as Hi. pose proof (moves_refl s2 Hi) as H2r. prules.
  destruct (_ && punicode s2).
  { pcall (by apply unicode_property_moves). intros item s3 H3. prules. by apply Hdone. }
  destruct (shorthand e); [prules; by apply Hdone|]. prules.
  destruct (e =? chr "b"); [prules; by apply Hdone|]. destruct (e =? chr "B"); [prules; by apply Hdone|].
  destruct (_ && negb has_named_captures); [prules; by apply Hdone|].
  destruct (e =? chr "k").
  { pcall (by apply eat_moves). intros [] s3 H3; [|by prules].
    pcall (apply group_name_moves; by eapply moves_inside). intros name s4 H4. prules. apply Hdone; [by eapply moves_trans|done]. }
  destruct (is_ascii_digit e && _) eqn:Ed.
  { apply andb_prop in Ed as [Ed _]. unfold decimal_escape. prules.
    set (s3 := set_pos s2 (ppos s2 - 1)). assert (ppos s3 = S (ppos s)) as Hp3 by (simpl; lia).
    assert (moves s s3) as H3 by (apply moves_back; [done|unfold moves in H2; simpl in *; lia]).
    pcall (apply digits_moves; by eapply moves_inside). intros index s4 [H4 H4'].
    assert (ppos s3 < ppos s4)%nat as Hd by (apply (H4' e); [by rewrite Hp3|done]).
    assert (moves s s4) as H5 by (by eapply moves_trans).
    destruct (_ <=? Z.of_nat total_groups); [prules; by split; [split; [done|lia]|]|].
    destruct (punicode s2); [by prules|]. prules.
    assert (advances s (set_pos s4 (ppos s2 - 1 + 1))) as [H6 H6'].
    { split; [apply moves_back; [done|]|]; unfold moves in H2; simpl in *; lia. }
    destruct (e <=? chr "7"); [|by prules].
    pcall (apply legacy_octal_moves; by eapply moves_inside). intros v s7 H7. prules.
    split; [|done]. split; [by eapply moves_trans|]. unfold moves in H7. simpl in *. lia. }
  clear Ed. destruct (_ && _ && _).
  { prules. split; [|done]. split; [apply moves_back; [done|]|]; unfold moves in H2; simpl in *; lia. }
  destruct (_ && _).
  - pcall (by apply legacy_octal_moves). intros v s3 H3. prules. by apply Hdone.
  - pcall (by apply escaped_char_moves). intros v s3 H3. prules. by apply Hdone.
Qed.

Lemma modifiers_loop_moves : forall fuel s a r sub, inside s -> (length chars - ppos s < fuel)%nat ->
  parses (modifiers_loop chars fuel a r sub) (fun _ s' => moves s s') s.
Proof.
  induction fuel as [|fuel IH]; intros s a r sub Hs Hf; [lia|]. cbn [modifiers_loop]. prules.
  destruct (chars !! ppos s) as [c|] eqn:E; [|by prules; apply moves_refl].
  pose proof (moves_bump s s c (moves_refl s Hs) E) as H1. pose proof (lookup_lt_Some _ _ _ E) as Hl.
  assert (forall a r sub, parses (modifiers_loop chars fuel a r sub) (fun _ s' => moves s s')
    (set_pos s (S (ppos s)))) as Hrec.
  { intros. pcall (apply IH; simpl; lia). eauto with parser. }
  destruct (_ && _); [prules; apply parses_bump; apply Hrec|].
  destruct (modifier_bit c); [|by prules; apply moves_refl]. destruct (negb _); [by prules|].
  prules. apply parses_bump. destruct sub; apply Hrec.
Qed.

(** *** Groups and alternatives *)

(** The names refer to groups that were numbered. *)
Definition names_ok (s : PState) : Prop :=
  map_Forall (fun _ l => Forall (fun i => 1 <= i <= pgroups s)%nat l) (pnames s).

Definition extends (s s' : PState) : Prop :=
  (ppos s <= ppos s' <= length chars)%nat /\ (pgroups s <= pgroups s')%nat
  /\ punicode s' = punicode s /\ (names_ok s -> names_ok s').

(** The groups of some nodes are the numbers from [g] to [g'], in order. *)
Definition numbered (g g' : nat) (l : list Node) : Prop :=
  flat_map RegexSpec.groups l = seq (S g) (g' - g) /\ (g <= g')%nat /\ forallb ordered l = true.

Lemma moves_extends a b : moves a b -> extends a b.
Proof.
  intros (Hp & Hg & Hn & Hu). split_and!; try done; try lia. unfold names_ok. by rewrite Hg, Hn.
Qed.
Lemma extends_trans a b c : extends a b -> extends b c -> extends a c.
Proof. unfold extends. intuition (congruence || lia). Qed.
Lemma extends_inside a b : extends a b -> inside b.
Proof. by intros ([] & _). Qed.

Lemma simple_numbered s s' n : moves s s' -> simple n -> numbered (pgroups s) (pgroups s') [n].
Proof.
  intros (_ & -> & _) [Hg Ho]. unfold numbered. simpl. rewrite Hg, Ho, Nat.sub_diag. by split_and!.
Qed.

Lemma numbered_app g g1 g2 l1 l2 : numbered g g1 l1 -> numbered g1 g2 l2 -> numbered g g2 (l1 ++ l2).
Proof.
  intros (E1 & L1 & O1) (E2 & L2 & O2). unfold numbered.
  rewrite flat_map_app, E1, E2, forallb_app, O1, O2. split_and!; [|lia|done].
  replace (g2 - g)%nat with ((g1 - g) + (g2 - g1))%nat by lia. rewrite seq_app. f_equal. f_equal. lia.
Qed.

Lemma numbered_nil g : numbered g g [].
Proof. unfold numbered. by rewrite Nat.sub_diag. Qed.

Lemma close_branches_numbered g g' l : numbered g g' l -> numbered g g' [close_branches l].
Proof.
  intros (E & L & O). unfold numbered. destruct l as [|a [|b l]]; simpl in *; [done..|].
  rewrite app_nil_r, andb_true_r. done.
Qed.

Lemma close_items_numbered g g' l : numbered g g' l -> numbered g g' [close_items l].
Proof.
  intros (E & L & O). unfold numbered. destruct l as [|a [|b l]]; simpl in *; [done..|].
  rewrite app_nil_r, andb_true_r. done.
Qed.

(** A parser of alternatives inside a group. *)
Definition alternation_ok (s : PState) (m : P Node) : Prop := forall s1, extends s s1 ->
  (ppos s < ppos s1)%nat ->
  parses m (fun n s' => extends s1 s' /\ numbered (pgroups s1) (pgroups s') [n]) s1.

Lemma group_body_ok s m wrap s1 g : alternation_ok s m -> extends s s1 -> (ppos s < ppos s1)%nat ->
  (forall n g', numbered (pgroups s1) g' [n] -> numbered g g' [wrap n]) ->
  parses (group_body chars m wrap)
    (fun n s' => extends s s' /\ (ppos s < ppos s')%nat /\ numbered g (pgroups s') [n]) s1.
Proof.
  intros Hm H1 Hp Hw. unfold group_body. pcall (by apply Hm). intros n s2 [H2 Hn].
  pcall (apply expect_moves; by eapply extends_inside). intros ? s3 H3. prules.
  pose proof (moves_extends _ _ H3) as H3'.
  split_and!; [eapply extends_trans; [exact H1|by eapply extends_trans]|unfold extends, moves in *; lia|].
  assert (pgroups s3 = pgroups s2) as -> by apply H3. by apply Hw.
Qed.

Lemma open_group_ok s name Q : (forall s', extends s s' -> ppos s' = ppos s ->
    pgroups s' = S (pgroups s) -> Q (S (pgroups s)) s') -> inside s -> parses (open_group name) Q s.
Proof.
  intros HQ Hs. unfold parses, open_group. apply HQ; [|done|done]. split_and!; simpl; try done; try lia.
  unfold names_ok. simpl. intros Hn k l Hk.
  assert (forall k l, pnames s !! k = Some l -> Forall (fun i => 1 <= i <= S (pgroups s))%nat l) as Hold.
  { intros k' l' Hk'. eapply Forall_impl; [exact (Hn k' l' Hk')|]. simpl. lia. }
  destruct name as [name|]; [|by eapply Hold]. unfold push_at in Hk.
  apply lookup_insert_Some in Hk as [[<- <-]|[_ Hk]]; [|by eapply Hold].
  apply Forall_app; split; [|constructor; [lia|constructor]].
  destruct (pnames s !! name) eqn:En; simpl; [by eapply Hold|by apply Forall_nil].
Qed.

Lemma capture_numbered g g' n : numbered (S g) g' [n] -> numbered g g' [Group (Some (S g)) n].
Proof.
  intros (E & L & O). unfold numbered. simpl in *. rewrite app_nil_r in *. split_and!; [|lia|done].
  replace (g' - g)%nat with (S (g' - S g)) by lia. simpl. by rewrite E.
Qed.

Lemma group_ok s m c : inside s -> chars !! ppos s = Some c -> alternation_ok s m ->
  parses (group chars m)
    (fun n s' => extends s s' /\ (ppos s < ppos s')%nat /\ numbered (pgroups s) (pgroups s') [n]) s.
Proof.
  intros Hs E Hm. unfold group. prules. apply parses_bump.
  pose proof (advances_bump s s c (moves_refl s Hs) E) as Ha.
  assert (forall wrap s1, advances s s1 -> (forall n g g', numbered g g' [n] -> numbered g g' [wrap n]) ->
    parses (group_body chars m wrap)
      (fun n s' => extends s s' /\ (ppos s < ppos s')%nat /\ numbered (pgroups s) (pgroups s') [n]) s1) as Hbody.
  { intros wrap s1 [H1 H1'] Hw. apply group_body_ok; [done|by apply moves_extends|done|].
    intros n g' Hn. apply Hw. by destruct H1 as (_ & <- & _). }
  assert (forall name s1, advances s s1 -> parses
      (let? index := open_group name in group_body chars m (Group (Some index)))
      (fun n s' => extends s s' /\ (ppos s < ppos s')%nat /\ numbered (pgroups s) (pgroups s') [n]) s1) as Hcap.
  { intros name s1 [H1 H1']. apply parses_bind, open_group_ok; [|by eapply moves_inside].
    intros s2 H2 Hp2 Hg2. pose proof (moves_extends _ _ H1) as H1e.
    apply group_body_ok; [done|by eapply extends_trans|lia|]. intros n g' Hn.
    assert (pgroups s1 = pgroups s) as Eg by apply H1. rewrite Hg2, Eg in Hn. rewrite Eg.
    by apply capture_numbered. }
  assert (forall b s1 (k : bool -> P Node) Q, advances s s1 ->
    (forall x s2, advances s s2 -> parses (k x) Q s2) -> parses (bind (eat chars b) k) Q s1) as Heat.
  { intros b s1 k Q H1 Hk. pcall (apply eat_moves; by eapply moves_inside, advances_moves).
    intros x s2 H2. apply Hk. by eapply advances_trans. }
  apply Heat; [done|]. intros [] s1 H1; [|by apply Hcap].
  apply Heat; [done|]. intros [] s2 H2; [by apply Hbody|].
  apply Heat; [done|]. intros [] s3 H3; [by apply Hbody|].
  apply Heat; [done|]. intros [] s4 H4; [by apply Hbody|].
  apply Heat; [done|]. intros [] s5 H5.
  - apply Heat; [done|]. intros [] s6 H6; [by apply Hbody|].
    apply Heat; [done|]. intros [] s7 H7; [by apply Hbody|].
    pcall (apply group_name_moves; by eapply moves_inside, advances_moves). intros name s8 H8.
    apply Hcap. by eapply advances_trans.
  - prules. destruct (match chars !! ppos s5 with Some _ => _ | None => _ end); [|by prules].
    pcall (apply modifiers_loop_moves; [by eapply moves_inside, advances_moves|apply loop_fuel]).
    intros mods s6 H6. destruct (_ =? 0); [by prules|].
    pcall (apply expect_moves; by eapply moves_inside). intros ? s7 H7.
    apply Hbody; [|done]. eapply advances_trans; [exact H5|by eapply moves_trans].
Qed.

(** *** Atoms, sequences, alternatives *)

Lemma atom_ok s m c : inside s -> chars !! ppos s = Some c -> alternation_ok s m ->
  parses (atom chars total_groups vsets has_named_captures m)
    (fun n s' => extends s s' /\ (ppos s < ppos s')%nat /\ numbered (pgroups s) (pgroups s') [n]) s.
Proof.
  intros Hs E Hm. unfold atom. prules. rewrite E.
  assert (forall n s', advances s s' -> simple n ->
    extends s s' /\ (ppos s < ppos s')%nat /\ numbered (pgroups s) (pgroups s') [n]) as Hdone.
  { intros n s' [H1 H2] Hn. split_and!; [by apply moves_extends|done|by apply simple_numbered]. }
  pose proof (advances_bump s s c (moves_refl s Hs) E) as Ha.
  destruct (c =? chr "^"); [prules; apply parses_bump; prules; by apply Hdone|].
  destruct (c =? chr "$"); [prules; apply parses_bump; prules; by apply Hdone|].
  destruct (c =? chr "."); [prules; apply parses_bump; prules; by apply Hdone|].
  destruct (c =? chr "("); [by eapply group_ok|].
  destruct (c =? chr "["). { pcall (by eapply class_ok). intros n s' [H1 H2]. by apply Hdone. }
  destruct (c =? chr "\"). { pcall (by eapply escape_ok). intros n s' [H1 H2]. by apply Hdone. }
  destruct (among _ _); [by prules|]. prules. apply parses_bump. prules. by apply Hdone.
Qed.

Abbreviation alternation_ := (alternation chars total_groups vsets has_named_captures).
Abbreviation sequence_ := (sequence chars total_groups vsets has_named_captures).

Definition alternatives_ok (fuel : nat) : Prop := forall s g l, inside s ->
  (2 * (length chars - ppos s) + 2 <= fuel)%nat -> numbered g (pgroups s) l ->
  parses (alternation_ fuel l) (fun n s' => extends s s' /\ numbered g (pgroups s') [n]) s.
Definition sequences_ok (fuel : nat) : Prop := forall s g l, inside s ->
  (2 * (length chars - ppos s) + 1 <= fuel)%nat -> numbered g (pgroups s) l ->
  parses (sequence_ fuel l) (fun n s' => extends s s' /\ numbered g (pgroups s') [n]) s.

Lemma extends_refl s : inside s -> extends s s.
Proof. intros Hs. by apply moves_extends, moves_refl. Qed.

Lemma alternation_step fuel : alternatives_ok fuel -> sequences_ok fuel -> alternatives_ok (S fuel).
Proof.
  intros IH1 IH2 s g l Hs Hf Hl. cbn [alternation].
  pcall (apply (IH2 s (pgroups s) []); [done|lia|apply numbered_nil]). intros n s1 [H1 Hn]. cbv zeta.
  pose proof (numbered_app _ _ _ _ _ Hl Hn) as Hln. pose proof (extends_inside _ _ H1) as Hi1.
  prules. apply parses_eat.
  - intros E. pose proof (advances_bump s1 s1 _ (moves_refl s1 Hi1) E) as [H2 H2'].
    pcall (apply (IH1 _ g (l ++ [n])); [by eapply moves_inside|unfold extends, moves in *; simpl in *; lia|done]).
    intros n' s3 [H3 Hn']. split; [|done].
    eapply extends_trans; [exact H1|]. eapply extends_trans; [by apply moves_extends|done].
  - prules. split; [done|]. by apply close_branches_numbered.
Qed.

Lemma parse_sequence_step fuel : alternatives_ok fuel -> sequences_ok fuel -> sequences_ok (S fuel).
Proof.
  intros IH1 IH2 s g l Hs Hf Hl. cbn [sequence]. prules.
  destruct (chars !! ppos s) as [c|] eqn:E; prules.
  2: { split; [by apply extends_refl|by apply close_items_numbered]. }
  destruct (_ || _); prules. { split; [by apply extends_refl|by apply close_items_numbered]. }
  pose proof (lookup_lt_Some _ _ _ E) as Hlt.
  pcall (eapply atom_ok; [done|done|]).
  { intros s1 H1 Hp1. apply (IH1 s1 (pgroups s1) []); [by eapply extends_inside|lia|apply numbered_nil]. }
  intros a s1 (H1 & Hp1 & Ha).
  pcall (apply quantifier_ok; [by eapply extends_inside|destruct Ha as (_ & _ & Ha); simpl in Ha; by rewrite andb_true_r in Ha]).
  intros n s2 (H2 & Hg & Ho). pose proof (moves_extends _ _ H2) as H2e.
  assert (numbered (pgroups s) (pgroups s2) [n]) as Hn.
  { destruct H2 as (_ & -> & _). destruct Ha as (E1 & E2 & _). unfold numbered. simpl in *. by rewrite Hg, Ho. }
  pcall (apply (IH2 s2 g (l ++ [n])); [by eapply moves_inside|unfold extends, moves in *; lia|by eapply numbered_app]).
  intros n' s3 [H3 Hn']. split; [|done]. eapply extends_trans; [exact H1|by eapply extends_trans].
Qed.

Lemma parser_ok fuel : alternatives_ok fuel /\ sequences_ok fuel.
Proof.
  induction fuel as [|fuel [IH1 IH2]].
  - split; intros s g l Hs Hf; lia.
  - split; [by apply alternation_step|by apply parse_sequence_step].
Qed.

Lemma parse_ok u : parses (parse chars total_groups vsets has_named_captures)
  (fun r _ => RegexSpec.groups r.1.1 = seq 1 r.1.2 /\ ordered r.1.1 = true
     /\ map_Forall (fun _ l => Forall (fun i => 1 <= i <= r.1.2)%nat l) r.2) (initial u).
Proof.
  unfold parse. pcall (apply (proj1 (parser_ok (PARSE_FUEL chars)) (initial u) 0%nat []);
    [simpl; lia|unfold PARSE_FUEL; simpl; lia|apply numbered_nil]).
  intros n s [(_ & _ & _ & Hnames) (Hg & _ & Ho)]. prules. destruct (_ <? _)%nat; prules. simpl in *.
  rewrite app_nil_r in Hg. rewrite andb_true_r in Ho. rewrite Hg, Nat.sub_0_r. split_and!; [done..|].
  apply Hnames. unfold names_ok. simpl. apply map_Forall_empty.
Qed.

End Parser.

(** ** Results *)

Lemma parse_pattern_sound `{UnicodeTables} `{PropertyTables} (pattern : list Z) (unicode vsets : bool) :
  match parse_pattern pattern unicode vsets with
  | Ok (root, count, names) =>
      RegexSpec.groups root = seq 1 count /\ ordered root = true
      /\ map_Forall (fun _ l => Forall (fun i => 1 <= i <= count)%nat l) names
  | Err e => e <> ParseFuel
  | Panic => False
  end.
Proof.
  unfold parse_pattern. destruct (prescan _ _ _ _ _ _) as [total named].
  pose proof (parse_ok pattern total vsets named unicode) as HP. unfold parses in HP.
  destruct (parse pattern total vsets named (initial unicode)) as [[[[root count] names]|[]|] s]; simpl; done.
Qed.

(** C26. The parser ends on every text: it never runs out of the depth the model
    bounds its calls by, and never panics.  The pattern it builds numbers its
    capturing groups from one, in the order of their opening parentheses, all
    quantifiers have ordered bounds, and every name refers to numbered groups. *)
Theorem parse_pattern_ok `{UnicodeTables} `{PropertyTables} (pattern : list Z) (unicode vsets : bool) :
  match parse_pattern pattern unicode vsets with
  | Ok (root, count, names) =>
      RegexSpec.groups root = seq 1 count /\ ordered root = true
      /\ map_Forall (fun _ l => Forall (fun i => 1 <= i <= count)%nat l) names
  | Err e => e <> ParseFuel
  | Panic => False
  end.
Proof. apply parse_pattern_sound. Qed.

