(* ===== verification/RegexNewTheorems.v ===== *)
(** Results on the construction of patterns, composed with those on the search. *)
From stdpp Require Import prelude list gmap strings.
From Stdlib Require Import ZArith Lia Ascii.
From S2P Require Import Prelude JsString JsStringTheorems Regex RegexParse RegexNew RegexMatch RegexSafety RegexSpec RegexStrings RegexTheorems RegexParseSafety.
Import Regex RegexParse RegexNew.
Local Open Scope Z_scope.


Lemma groups_below_spec g n : (forall i, i ∈ RegexSpec.groups n -> (i < g)%nat) ->
  RegexSafety.groups_below g n = true.
Proof.
  assert (forall l, Forall (fun n => (forall i, i ∈ RegexSpec.groups n -> (i < g)%nat) ->
      RegexSafety.groups_below g n = true) l ->
    (forall i, i ∈ flat_map RegexSpec.groups l -> (i < g)%nat) ->
    forallb (RegexSafety.groups_below g) l = true) as HL.
  { clear n. induction 1 as [|n l Hn _ IH]; intros Hi; simpl in *; [done|].
    rewrite Hn, IH; [done|..]; intros i Hin; apply Hi; set_solver. }
  induction n using RegexSafety.node_induction; intros Hi; simpl in *; auto.
  destruct i as [i|]; simpl in *; [|auto]. apply andb_true_intro. split; [|apply IHn; set_solver].
  apply Nat.ltb_lt, Hi. set_solver.
Qed.

Section New.
Context `{UnicodeTables} `{PropertyTables}.
Context (is_id_start is_id_continue : Z -> bool) (oxc_accepts : list Z -> list Z -> bool).

Abbreviation regex_new := (regex_new is_id_start is_id_continue oxc_accepts).

(** A pattern that was built numbers its groups. *)
Lemma regex_new_numbered src fl r : regex_new src fl = Ok r ->
  RegexSpec.groups (root r) = seq 1 (group_count r) /\ ordered (root r) = true
  /\ map_Forall (fun _ l => Forall (fun i => 1 <= i <= group_count r)%nat l) (names r).
Proof.
  unfold RegexNew.regex_new. destruct (validate_syntax _ _ _ _ _) as [text| |]; simpl; [|done..].
  pose proof (parse_pattern_sound text (is_unicode fl) (contains "v" fl)) as HP.
  destruct (parse_pattern _ _ _) as [[[root count] names]|e|]; [|done..]. by intros [= <-].
Qed.

Lemma numbered_below n count : RegexSpec.groups n = seq 1 count ->
  RegexSafety.groups_below (S count) n = true /\ NoDup (RegexSpec.groups n).
Proof.
  intros E. split; [|rewrite E; apply NoDup_seq]. apply groups_below_spec. intros i Hi. rewrite E in Hi.
  apply elem_of_seq in Hi. lia.
Qed.

(** *** Building never panics *)

Lemma pattern_piece_ok u r : JsStringTheorems.item_ok r ->
  exists l, pattern_piece u (Ok (JsString.from_units (JsStringTheorems.reencode r))) = Ok l.
Proof.
  intros Hr. unfold pattern_piece. rewrite JsStringTheorems.code_point_at_spec, drop_0.
  destruct r as [c|c]; cbn [JsStringTheorems.item_ok JsStringTheorems.reencode JsString.units JsString.from_units] in *.
  - rewrite <- (app_nil_r (JsString.encode_char c)), JsStringTheorems.decode_encode_char by done.
    rewrite Hr. destruct (in_range _ _ c); [eauto|]. destruct (_ && _); eauto.
  - destruct Hr as [_ Hr]. rewrite JsStringTheorems.decode_lone by (by split).
    unfold JsString.is_surrogate in Hr. rewrite Hr. eauto.
Qed.

Lemma pattern_text_ok u src : JsStringTheorems.units_ok (JsString.units src) ->
  exists l, pattern_text u (JsString.code_points src) = Ok l.
Proof.
  intros Hok. unfold JsString.code_points.
  rewrite (JsStringTheorems.code_points_loop_spec src (JsString.units src)) by (done || unfold JsString.len; lia).
  pose proof (JsStringTheorems.decode_items_ok _ Hok) as HF.
  induction HF as [|r l Hr _ [l' IH]]; [by exists []|]. cbn [map pattern_text].
  destruct (pattern_piece_ok u r Hr) as [piece ->]. cbn [obind]. rewrite IH. cbn [obind]. eauto.
Qed.

(** A name escape neither panics nor runs out of fuel. *)
Lemma parse_name_ok raw : match parse_name raw with Err e => e <> ParseFuel | Panic => False | Ok _ => True end.
Proof.
  pose proof (group_name_moves raw (initial true) ltac:(simpl; lia)) as HP.
  unfold parses, parse_name in *. destruct (group_name raw (initial true)) as [[x|[]|] s]; simpl; done.
Qed.

(** An outcome that is neither a panic nor the model's own error. *)
Definition fine {A} (r : outcome NewError A) : Prop :=
  match r with Ok _ => True | Err e => e <> ParseRejected ParseFuel | Panic => False end.

Lemma normalize_loop_fine refs : forall fuel text class out,
  fine (normalize_loop is_id_start is_id_continue fuel refs text class out).
Proof.
  induction fuel as [|fuel IH]; intros text class out; [done|]. cbn [normalize_loop].
  destruct text as [|c rest]; [done|]. cbv zeta. destruct (_ || _).
  - destruct (position _ _) as [n|]; [|done]. pose proof (parse_name_ok (take (S n) (drop 3 (c :: rest)))) as HN.
    destruct (parse_name _) as [name|e|]; [|simpl; congruence|done].
    destruct (is_identifier _ _ _); [apply IH|done].
  - destruct (c =? chr "\"); [destruct rest; apply IH|apply IH].
Qed.

Lemma regex_new_fine src fl : JsStringTheorems.units_ok (JsString.units src) -> fine (regex_new src fl).
Proof.
  intros Hok. unfold RegexNew.regex_new, validate_syntax.
  assert (forall seen, match check_flags fl seen with Panic => False | Err e => e <> ParseRejected ParseFuel | _ => True end) as HF.
  { induction fl as [|f fl IH]; intros seen; simpl; [done|]. destruct (negb _); [done|].
    destruct (existsb _ _); [done|]. apply IH. }
  specialize (HF []). destruct (check_flags fl []) as [[]| |]; [|done..]. cbn [obind]. cbv zeta.
  destruct (pattern_text_ok (is_unicode fl) src Hok) as [text ->]. cbn [obind].
  destruct (negb _); [done|]. unfold normalize_group_names.
  assert (forall r, fine r -> fine (obind (obind r (fun normalized =>
      if oxc_accepts (from_option id text normalized) fl then Ok text else Err SyntaxRejected))
      (fun pattern => match parse_pattern pattern (is_unicode fl) (contains "v" fl) with
        | Ok (root, count, names) => Ok {| root := root; group_count := count; names := names;
            source := if JsString.is_empty src then JsString.from_string (chars "(?:)") else src;
            flags := fl; global := contains "g" fl; ignore_case := contains "i" fl;
            multiline := contains "m" fl; dot_all := contains "s" fl; sticky := contains "y" fl;
            unicode := is_unicode fl |}
        | Err e => Err (ParseRejected e)
        | Panic => Panic end))) as Hrest.
  { intros [x|e|] Hr; [|done..]. cbn [obind]. destruct (oxc_accepts _ _); [|done]. cbn [obind].
    pose proof (parse_pattern_sound text (is_unicode fl) (contains "v" fl)) as HP.
    destruct (parse_pattern _ _ _) as [[[root count] names]|e|]; [done|simpl; congruence|done]. }
  apply Hrest. destruct (_ || _); [done|].
  pose proof (normalize_loop_fine (is_unicode fl || (prescan (S (length text)) text 0 false false 0).2)
    (S (length text)) text false []) as HN.
  by destruct (normalize_loop _ _ _ _ _ _ _).
Qed.

End New.

(** C27. Building a pattern from any string and any flags ends without a panic:
    it gives a pattern or an error.  And a pattern that was built can be searched
    for in any input: the search ends without a panic, with captures inside the
    input or a budget error. *)
Theorem regex_new_search `{UnicodeTables} `{PropertyTables} (is_id_start is_id_continue : Z -> bool)
    (oxc_accepts : list Z -> list Z -> bool) (src : JsString.JsString) (fl : list Z)
    (Hsrc : JsStringTheorems.units_ok (JsString.units src)) :
  match regex_new is_id_start is_id_continue oxc_accepts src fl with
  | Ok r => forall input start, JsStringTheorems.units_ok input ->
      match RegexMatch.find_at r input start with
      | Ok found => RegexTheorems.sound_result r input (RegexMatch.first_start r input start) found
      | Err e => e <> RegexMatch.Fuel
      | Panic => False
      end
  | Err e => e <> ParseRejected ParseFuel
  | Panic => False
  end.
Proof.
  pose proof (regex_new_fine is_id_start is_id_continue oxc_accepts src fl Hsrc) as HF.
  destruct (regex_new _ _ _ src fl) as [r|e|] eqn:E; [|done..]. intros input start Hin.
  apply regex_new_numbered in E as [Hg _]. apply RegexTheorems.find_at_sound; [done|].
  by apply numbered_below.
Qed.

(** ** Instances *)

#[local] Existing Instance RegexStrings.plain_tables.

(** Tables with the ASCII letters and no emoji. *)
Definition plain_properties : PropertyTables :=
  {| property_ranges name := if bool_decide (name = chars "L") then Some [(65, 90); (97, 122)] else None;
     to_class r := r; negate_class r := r; to_lowercase c := [c];
     flag_sequences := []; tag_sequences := []; modifier_sequences := []; zwj_sequences := [];
     emoji_singles := []; emoji_pairs := [] |}.
#[local] Existing Instance plain_properties.

(** [(a|b)+\\1] under [g], built and searched for. *)
Lemma regex_new_search_witness :
  match regex_new (in_range 97 122) (in_range 97 122) (fun _ _ => true)
          (JsString.from_string (chars "(a|b)+\1")) (chars "g") with
  | Ok r => RegexMatch.find_at r (chars "cabb") 0 = Ok (Some [Some (1, 4); Some (2, 3)]%nat)
      /\ RegexTheorems.sound_result r (chars "cabb") 0 (Some [Some (1, 4); Some (2, 3)]%nat)
  | _ => False
  end.
Proof.
  pose proof (regex_new_search (in_range 97 122) (in_range 97 122) (fun _ _ => true)
    (JsString.from_string (chars "(a|b)+\1")) (chars "g")
    ltac:(repeat constructor; vm_compute; congruence)) as HR.
  destruct (regex_new _ _ _ _ _) as [r|e|] eqn:E; [|vm_compute in E; discriminate..].
  assert (RegexMatch.find_at r (chars "cabb") 0 = Ok (Some [Some (1, 4); Some (2, 3)]%nat)) as EF.
  { vm_compute in E. injection E as <-. vm_compute. reflexivity. }
  specialize (HR (chars "cabb") 0%nat ltac:(repeat constructor; vm_compute; congruence)).
  split; [exact EF|]. rewrite EF in HR.
  assert (RegexMatch.first_start r (chars "cabb") 0 = 0%nat) as E0.
  { unfold RegexMatch.first_start. destruct (_ && _); reflexivity. }
  rewrite E0 in HR. exact HR.
Defined.

(** A single ampersand is refused in a [v]-mode class, and so is the escape of a
    character beyond the basic plane in a string literal. *)
Lemma single_ampersand_refused : parse_pattern (chars "[&]") true true = Err InvalidSetOperation.
Proof. vm_compute. reflexivity. Qed.

Lemma astral_string_escape_refused :
  parse_pattern (chars "[\q{\u{1F600}}]") true true = Err InvalidStringEscape.
Proof. vm_compute. reflexivity. Qed.

