(* ===== verification/Heap.v ===== *)
(** * The managed heap: data, registry, reference counts

    The allocations of [heap.rs] and of the types it walks ([value.rs],
    [value/weak.rs], [interpreter/env.rs]): cells in a store, addressed by
    identity, with the references each holds; the allocation registry; the
    borrow state of the cells the collector inspects; and the reference counting
    of the language, as the removal of cells nothing refers to.

    A field of the source appears here when the collector reads or clears it.
    Values without identity (numbers, strings, ...) are one constructor. *)
From stdpp Require Import prelude list strings gmap sets.
From Stdlib Require Import ZArith Lia.
From S2P Require Import Prelude.
Import ListNotations.
Local Open Scope rust_scope.

Module Heap.

(** ** Values *)

(** [HeapId]: the address of an [Rc] block. *)
Abbreviation Id := positive (only parsing).

(** The state of a [RefCell]. *)
Inductive Borrow := Free | Shared | Mutable.
Definition try_borrow (b : Borrow) : bool := match b with Mutable => false | _ => true end.
Definition try_borrow_mut (b : Borrow) : bool := match b with Free => true | _ => false end.

Inductive Value :=
| Plain
| Object (props : Id)
| Array (cell : Id)
| Function (data : Id)
| NativeFunction (name : Id)
| HostFunction (properties : Id)
| RealmGlobal (global : Id)
| Class (constructor prototype : Value) (statics : Id)
| Promise (inner : Id)
| Generator (inner : Id)
| StringIterator (inner : Id)
| HostPending (id : Z)
| Symbol (data : Id)
| Date (data : Id)
| Proxy (data : Id)
| ArrayBuffer (storage : Id)
| SharedArrayBuffer (storage : Id)
| TypedArray (view : Id)
| DataView (view : Id)
| RegExp (data : Id)
| AsyncTask (inner : Id)
| Binding (cell : Id)
| Error (identity properties : Id).

(** A strong reference: an identity and the type of its cell. *)
Inductive Tag :=
| TObject | TArray | TEnv | TFunction | TPromise | TGenerator | TProxy | TBinding | TAsyncTask
| TStringIterator | TDate | TRegExp | TView | TBuffer | TOpaque | TModules | TGraph | TCommonJs | TJobs.
#[global] Instance Tag_eq_dec : EqDecision Tag.
Proof. solve_decision. Defined.
Abbreviation Ref := (Id * Tag)%type (only parsing).

(** ** Cells *)

Inductive PrivateElement :=
| Field (value : Value)
| Method (value : Value)
| Accessor (get set : option Value).

Definition element_values (e : PrivateElement) : list Value :=
  match e with
  | Field value | Method value => [value]
  | Accessor get set => option_list get ++ option_list set
  end.

(** A slot structure of the library ([disposable_stack], [iterator_helper], ...)
    is the list its [values] method returns. *)
Record ObjectMeta := {
  private_elements : list (Z * PrivateElement);
  intl_bound_compare : option Value;
  intl_bound_format : option Value;
  revocable_proxy : option Id;
  disposable_stack : option (list Value);
  collection_entries : option Id;
  collection_iterator : option (list Value);
  iterator_helper : option (list Value);
  regexp_iterator : option (list Value);
  async_from_sync : option (list Value);
  proto : option Value;
  realm_global : option Id;
  shadow_realm_global : option Id;
  shadow_realm_wrapped : option (Value * Id * Id);
  boxed_symbol : option Id;
  symbol_keys : list Id;
}.

Record FinalizationRecord := { target : Id; held : Value; token : option Id }.

(** A [WeakTarget] is the identity it was made from; [jobs] is weak too. *)
Inductive WeakStorage :=
| WNone
| WMap (entries : list (Id * Value))
| WRef (target : option Id)
| WRegistry (callback : Value) (records : list FinalizationRecord) (jobs : Id).

Record ObjectCell := {
  weak : WeakStorage;
  slots : list (string * Value);
  meta : ObjectMeta;
  index : bool;       (* a dictionary is cached *)
  shape : bool;       (* a layout is cached *)
  read_once : bool;
  b_slots : Borrow;
  b_meta : Borrow;
  b_weak : Borrow;
  b_index : Borrow;
  b_shape : Borrow;
}.

Record ArrayCell := {
  elements : list Value;
  named : list (string * Value);
  array_meta : ObjectMeta;
  array_symbol_keys : list Id;
  b_elements : Borrow;
  b_named : Borrow;
  b_array_meta : Borrow;
  b_symbol_keys : Borrow;
}.

Record ModuleRealm := { modules : Id; graph : Id; commonjs_cache : Id }.

Record Environment := {
  vars : list Value;
  global_environment : option Id;
  with_object : option Value;
  resources : list (list Value);
  new_target : option Value;
  constructor_this : option (option Value);
  intrinsics : list Value;
  template_objects : list Value;
  private_instance_elements : option (list (Z * PrivateElement));
  parent : option Id;
  module_realm : option ModuleRealm;
  allocation_prototypes : list (Value * Value);
  b_env : Borrow;
}.

Record FunctionData := {
  fn_properties : Id;
  closure : option Id;
  bound : option (Value * Value * list Value);
}.

Record Reaction := {
  on_fulfilled : Value;
  on_rejected : Value;
  derived : Id;
  capability : option (Value * Value);
}.

Record PromiseInner := {
  pr_properties : Id;
  pr_value : Value;
  reactions : list Reaction;
  b_promise : Borrow;
}.

Inductive GenResume := Next (value : option Value) | Throw (value : Value) | Return (value : Value) | Abandon.
Record Request := { completion : GenResume; req_promise : Id; req_realm : Id }.

(** A suspended coroutine is the references its stack holds. *)
Record GeneratorInner := {
  g_realm : ModuleRealm;
  g_jobs : Id;
  async_state : option (list Request);
  g_properties : Id;
  g_closure : option Id;
  args : list Value;
  g_coroutine : option (list Ref);
  return_value : option Value;
  b_generator : Borrow;
}.

Record TaskCell := {
  owner : option Id;
  t_coroutine : option (list Ref);
  result : Id;
  b_task : Borrow;
}.

Record ProxyData := {
  proxy_slots : option (Value * Value);
  private_storage : option Id;
  b_proxy_slots : Borrow;
  b_private_storage : Borrow;
}.

Record DateData := {
  date_properties : option Id;
  date_realm : option Id;           (* weak *)
  date_prototype : option Value;
}.

Record Module_ := {
  source_object : option Value;
  import_meta : option Value;
  namespace : option Value;
  b_namespace : Borrow;
  deferred_namespace : option Value;
  exports : list Value;
  default_ : option Value;
  scope : option Id;
}.

(** A record of the module graph: the error of a failed module, and the promise
    of its evaluation. *)
Record LinkedModule := { failed : option Value; evaluation : option Id }.

(** A queued job is the list its [trace_values] returns; [others] are the kept
    values, external events, timers, intervals and waiters. *)
Record JobQueue := {
  microtasks : list (list Value);
  others : list (list Value);
  dispatch_depth : nat;
  b_jobs : Borrow;
}.

Inductive Cell :=
| CObject (o : ObjectCell)
| CArray (a : ArrayCell)
| CEnv (e : Environment)
| CFunction (f : FunctionData)
| CPromise (p : PromiseInner)
| CGenerator (g : GeneratorInner)
| CProxy (p : ProxyData)
| CBinding (value : Value) (b : Borrow)
| CAsyncTask (t : TaskCell)
| CStringIterator (properties : Id) (b : Borrow)
| CDate (d : DateData)
| CRegExp (properties : Id)
| CView (properties : Id) (buffer : Id) (shared : bool)
| CBuffer (properties : Id)
| COpaque                                    (* symbols, names, error identities *)
| CModules (m : list Module_) (b : Borrow)
| CGraph (g : list LinkedModule) (b : Borrow)
| CCommonJs (entries : list (Value * option Value)) (b : Borrow)
| CJobs (q : JobQueue).

Abbreviation Store := (gmap Id Cell) (only parsing).

(** ** The values of a cell, as the tracer lists them *)

Definition meta_values (m : ObjectMeta) : list Value :=
  concat (map (fun e => element_values e.2) (private_elements m))
  ++ option_list (intl_bound_compare m) ++ option_list (intl_bound_format m)
  ++ map Proxy (option_list (revocable_proxy m))
  ++ default [] (disposable_stack m)
  ++ map Array (option_list (collection_entries m))
  ++ default [] (collection_iterator m) ++ default [] (iterator_helper m)
  ++ default [] (regexp_iterator m) ++ default [] (async_from_sync m)
  ++ option_list (proto m)
  ++ map RealmGlobal (option_list (realm_global m))
  ++ map RealmGlobal (option_list (shadow_realm_global m))
  ++ match shadow_realm_wrapped m with
     | Some (target, target_realm, caller_realm) =>
         [target; RealmGlobal target_realm; RealmGlobal caller_realm]
     | None => []
     end.

(** [WeakStorage::strong_values] *)
Definition strong_values (w : WeakStorage) : list Value :=
  match w with
  | WRegistry callback records _ => callback :: map held records
  | _ => []
  end.

(** [ObjectCell::trace_children], every part of the cell borrowable. *)
Definition object_children (o : ObjectCell) : list Value :=
  map snd (slots o) ++ meta_values (meta o)
  ++ map Symbol (option_list (boxed_symbol (meta o)))
  ++ map Symbol (symbol_keys (meta o))
  ++ strong_values (weak o).

(** [ArrayCell::trace_children] *)
Definition array_children (a : ArrayCell) : list Value :=
  elements a ++ map snd (named a) ++ meta_values (array_meta a)
  ++ map Symbol (symbol_keys (array_meta a)) ++ map Symbol (array_symbol_keys a).

(** [Environment::trace_values] *)
Definition env_values (e : Environment) : list Value :=
  vars e ++ map Object (option_list (global_environment e)) ++ option_list (with_object e)
  ++ concat (resources e) ++ option_list (new_target e)
  ++ option_list (mjoin (constructor_this e))
  ++ intrinsics e ++ template_objects e
  ++ concat (map (fun x => element_values x.2) (default [] (private_instance_elements e))).

Definition proxy_values (p : ProxyData) : list Value :=
  match proxy_slots p with Some (target, handler) => [target; handler] | None => [] end
  ++ map Object (option_list (private_storage p)).

(** [ProxyData::trace_children]; [None] on a borrow conflict. *)
Definition proxy_children (p : ProxyData) : option (list Value) :=
  if try_borrow (b_proxy_slots p) && try_borrow (b_private_storage p) then
    Some (proxy_values p)
  else None.

Definition resume_values (r : GenResume) : list Value :=
  match r with
  | Next value => option_list value
  | Throw value | Return value => [value]
  | Abandon => []
  end.

(** [AsyncGeneratorState::trace_values] *)
Definition state_values (requests : list Request) : list Value :=
  concat (map (fun r => [Promise (req_promise r); RealmGlobal (req_realm r)]
                        ++ resume_values (completion r)) requests).

(** [JobQueue::trace_roots] *)
Definition queue_values (q : JobQueue) : list Value := concat (microtasks q) ++ concat (others q).

Definition buffer_value (buffer : Id) (shared : bool) : Value :=
  if shared then SharedArrayBuffer buffer else ArrayBuffer buffer.

(** [Value::weak_identity] *)
Definition weak_identity (v : Value) : option Id :=
  match v with
  | RealmGlobal id | Object id | Array id | Function id | HostFunction id | NativeFunction id
  | Promise id | Generator id | StringIterator id | Proxy id | Symbol id | Date id | RegExp id
  | TypedArray id | DataView id | ArrayBuffer id | SharedArrayBuffer id => Some id
  | Class _ _ statics => Some statics
  | Error identity _ => Some identity
  | Plain | HostPending _ | AsyncTask _ | Binding _ => None
  end.

(** ** The references a cell owns *)

Fixpoint value_refs (v : Value) : list Ref :=
  match v with
  | Plain | HostPending _ => []
  | Class constructor prototype statics =>
      value_refs constructor ++ value_refs prototype ++ [(statics, TObject)]
  | Error identity properties => [(identity, TOpaque); (properties, TObject)]
  | Object id | HostFunction id => [(id, TObject)]
  | Array id => [(id, TArray)]
  | Function id => [(id, TFunction)]
  | NativeFunction id | Symbol id => [(id, TOpaque)]
  | RealmGlobal id => [(id, TEnv)]
  | Promise id => [(id, TPromise)]
  | Generator id => [(id, TGenerator)]
  | StringIterator id => [(id, TStringIterator)]
  | Date id => [(id, TDate)]
  | Proxy id => [(id, TProxy)]
  | ArrayBuffer id | SharedArrayBuffer id => [(id, TBuffer)]
  | TypedArray id | DataView id => [(id, TView)]
  | RegExp id => [(id, TRegExp)]
  | AsyncTask id => [(id, TAsyncTask)]
  | Binding id => [(id, TBinding)]
  end.

Definition values_refs (l : list Value) : list Ref := concat (map value_refs l).
Definition refs (t : Tag) (l : list Id) : list Ref := map (fun id => (id, t)) l.

(** The values a weak container owns: those of a map's entries too. *)
Definition weak_refs (w : WeakStorage) : list Ref :=
  match w with
  | WMap entries => values_refs (map snd entries)
  | _ => values_refs (strong_values w)
  end.

Definition realm_refs (r : ModuleRealm) : list Ref :=
  [(modules r, TModules); (graph r, TGraph); (commonjs_cache r, TCommonJs)].

(** The values of a module record that [mark_modules] lists. *)
Definition module_values (m : Module_) : list Value :=
  option_list (namespace m) ++ exports m ++ option_list (default_ m)
  ++ option_list (import_meta m) ++ option_list (source_object m).

Definition reaction_values (r : Reaction) : list Value :=
  match capability r with Some (resolve, reject) => [resolve; reject] | None => [] end
  ++ [on_fulfilled r; on_rejected r].

(** [ModuleGraph::trace_values], and the values of the CommonJS cache. *)
Definition graph_values (l : list LinkedModule) : list Value :=
  concat (map (fun r => option_list (failed r) ++ map Promise (option_list (evaluation r))) l).

Definition cache_values (l : list (Value * option Value)) : list Value :=
  concat (map (fun x => x.1 :: option_list x.2) l).

Definition bound_values (b : option (Value * Value * list Value)) : list Value :=
  match b with
  | Some (target, this_value, arguments) => target :: this_value :: arguments
  | None => []
  end.

Definition cell_refs (c : Cell) : list Ref :=
  match c with
  | CObject o =>
      values_refs (map snd (slots o) ++ meta_values (meta o)
                   ++ map Symbol (option_list (boxed_symbol (meta o)))
                   ++ map Symbol (symbol_keys (meta o)))
      ++ weak_refs (weak o)
  | CArray a => values_refs (array_children a)
  | CEnv e =>
      values_refs (env_values e) ++ refs TEnv (option_list (parent e))
      ++ from_option realm_refs [] (module_realm e)
      ++ concat (map (fun x => value_refs x.1 ++ value_refs x.2) (allocation_prototypes e))
  | CFunction f =>
      (fn_properties f, TObject) :: refs TEnv (option_list (closure f))
      ++ values_refs (bound_values (bound f))
  | CPromise p =>
      (pr_properties p, TObject) :: value_refs (pr_value p)
      ++ concat (map (fun r => (derived r, TPromise) :: values_refs (reaction_values r)) (reactions p))
  | CGenerator g =>
      (g_properties g, TObject) :: (g_jobs g, TJobs) :: realm_refs (g_realm g)
      ++ values_refs (from_option state_values [] (async_state g))
      ++ refs TEnv (option_list (g_closure g))
      ++ values_refs (args g ++ option_list (return_value g))
      ++ default [] (g_coroutine g)
  | CProxy p => values_refs (proxy_values p)
  | CBinding value _ => value_refs value
  | CAsyncTask t =>
      (result t, TPromise) :: refs TEnv (option_list (owner t)) ++ default [] (t_coroutine t)
  | CStringIterator properties _ | CRegExp properties | CBuffer properties => [(properties, TObject)]
  | CDate d =>
      refs TObject (option_list (date_properties d)) ++ values_refs (option_list (date_prototype d))
  | CView properties buffer _ => [(properties, TObject); (buffer, TBuffer)]
  | COpaque => []
  | CModules l _ =>
      concat (map (fun m => values_refs (module_values m)
                            ++ values_refs (option_list (deferred_namespace m))
                            ++ refs TEnv (option_list (scope m))) l)
  | CGraph l _ => values_refs (graph_values l)
  | CCommonJs l _ => values_refs (cache_values l)
  | CJobs q => values_refs (queue_values q)
  end.

Definition tag_of (c : Cell) : Tag :=
  match c with
  | CObject _ => TObject
  | CArray _ => TArray
  | CEnv _ => TEnv
  | CFunction _ => TFunction
  | CPromise _ => TPromise
  | CGenerator _ => TGenerator
  | CProxy _ => TProxy
  | CBinding _ _ => TBinding
  | CAsyncTask _ => TAsyncTask
  | CStringIterator _ _ => TStringIterator
  | CDate _ => TDate
  | CRegExp _ => TRegExp
  | CView _ _ _ => TView
  | CBuffer _ => TBuffer
  | COpaque => TOpaque
  | CModules _ _ => TModules
  | CGraph _ _ => TGraph
  | CCommonJs _ _ => TCommonJs
  | CJobs _ => TJobs
  end.

(** ** The registry *)

Record GcRoots := {
  envs_ : list Id;
  values_ : list Value;
  jobs_ : list Id;
  modules_ : list Id;
}.

(** [HeapInner]; a weak registration is an identity. *)
Record HeapInner := {
  objects : list Id;
  arrays : list Id;
  envs : list Id;
  functions : list Id;
  promises : list Id;
  generators : list Id;
  proxies : list Id;
  bindings : list Id;
  async_tasks : list Id;
  interps : gmap Z (GcRoots * nat);
  next_interp : Z;
  pins : gmap Z Value;
  next_pin : Z;
  total_collected : Z;
  allocation_debt : Z;
  registry_debt : Z;
  registry_prune_at : Z;
}.

Definition USIZE_MAX : Z := 2 ^ 64 - 1.
Definition saturating_add (x y : Z) : Z := Z.min USIZE_MAX (x + y).

Definition new_inner : HeapInner :=
  {| objects := []; arrays := []; envs := []; functions := []; promises := []; generators := [];
     proxies := []; bindings := []; async_tasks := []; interps := ∅; next_interp := 1; pins := ∅;
     next_pin := 1; total_collected := 0; allocation_debt := 0; registry_debt := 0;
     registry_prune_at := 4096 |}%Z.

Definition tracked_count (h : HeapInner) : nat :=
  length (objects h) + length (arrays h) + length (envs h) + length (functions h)
  + length (promises h) + length (generators h) + length (proxies h) + length (bindings h)
  + length (async_tasks h).

(** Every registration list, in the order of the sweep. *)
Inductive Kind :=
| KObjects | KArrays | KEnvs | KFunctions | KPromises | KGenerators | KProxies | KBindings | KTasks.
#[global] Instance Kind_eq_dec : EqDecision Kind.
Proof. solve_decision. Defined.

Definition entries (k : Kind) (h : HeapInner) : list Id :=
  match k with
  | KObjects => objects h
  | KArrays => arrays h
  | KEnvs => envs h
  | KFunctions => functions h
  | KPromises => promises h
  | KGenerators => generators h
  | KProxies => proxies h
  | KBindings => bindings h
  | KTasks => async_tasks h
  end.

Definition with_entries (k : Kind) (l : list Id) (h : HeapInner) : HeapInner :=
  let pick k' old := match k, k' with
    | KObjects, KObjects | KArrays, KArrays | KEnvs, KEnvs | KFunctions, KFunctions
    | KPromises, KPromises | KGenerators, KGenerators | KProxies, KProxies
    | KBindings, KBindings | KTasks, KTasks => l
    | _, _ => old
    end in
  {| objects := pick KObjects (objects h); arrays := pick KArrays (arrays h);
     envs := pick KEnvs (envs h); functions := pick KFunctions (functions h);
     promises := pick KPromises (promises h); generators := pick KGenerators (generators h);
     proxies := pick KProxies (proxies h); bindings := pick KBindings (bindings h);
     async_tasks := pick KTasks (async_tasks h); interps := interps h;
     next_interp := next_interp h; pins := pins h; next_pin := next_pin h;
     total_collected := total_collected h; allocation_debt := allocation_debt h;
     registry_debt := registry_debt h; registry_prune_at := registry_prune_at h |}.

Definition with_debts (alloc reg at_ : Z) (h : HeapInner) : HeapInner :=
  {| objects := objects h; arrays := arrays h; envs := envs h; functions := functions h;
     promises := promises h; generators := generators h; proxies := proxies h;
     bindings := bindings h; async_tasks := async_tasks h; interps := interps h;
     next_interp := next_interp h; pins := pins h; next_pin := next_pin h;
     total_collected := total_collected h; allocation_debt := alloc; registry_debt := reg;
     registry_prune_at := at_ |}.

Definition with_owners (i : gmap Z (GcRoots * nat)) (ni : Z) (p : gmap Z Value) (np : Z)
    (h : HeapInner) : HeapInner :=
  {| objects := objects h; arrays := arrays h; envs := envs h; functions := functions h;
     promises := promises h; generators := generators h; proxies := proxies h;
     bindings := bindings h; async_tasks := async_tasks h; interps := i; next_interp := ni;
     pins := p; next_pin := np; total_collected := total_collected h;
     allocation_debt := allocation_debt h; registry_debt := registry_debt h;
     registry_prune_at := registry_prune_at h |}.

Definition with_total (t : Z) (h : HeapInner) : HeapInner :=
  {| objects := objects h; arrays := arrays h; envs := envs h; functions := functions h;
     promises := promises h; generators := generators h; proxies := proxies h;
     bindings := bindings h; async_tasks := async_tasks h; interps := interps h;
     next_interp := next_interp h; pins := pins h; next_pin := next_pin h; total_collected := t;
     allocation_debt := allocation_debt h; registry_debt := registry_debt h;
     registry_prune_at := registry_prune_at h |}.

Definition kinds : list Kind :=
  [KObjects; KArrays; KEnvs; KFunctions; KPromises; KGenerators; KProxies; KBindings; KTasks].

(** ** The heap as a whole *)

(** [external] are the references held outside every cell and outside the
    registry: by the host, by interpreters, by native frames.  [locked] is a borrow of the
    thread's [HEAP] in progress.  [next_address] is where the next allocation goes. *)
Record Heap := {
  store : gmap Id Cell;
  inner : HeapInner;
  external : list Ref;
  next_address : Id;
  locked : bool;
}.

Definition set_store (s : gmap Id Cell) (h : Heap) : Heap :=
  {| store := s; inner := inner h; external := external h; next_address := next_address h;
     locked := locked h |}.
Definition set_inner (i : HeapInner) (h : Heap) : Heap :=
  {| store := store h; inner := i; external := external h; next_address := next_address h;
     locked := locked h |}.
Definition set_locked (b : bool) (h : Heap) : Heap :=
  {| store := store h; inner := inner h; external := external h; next_address := next_address h;
     locked := b |}.

Definition roots_refs (r : GcRoots) : list Ref :=
  refs TEnv (envs_ r) ++ values_refs (values_ r) ++ refs TJobs (jobs_ r) ++ refs TModules (modules_ r).

(** References held by the registry: published roots and pins. *)
Definition registry_refs (i : HeapInner) : list Ref :=
  concat (map (fun x => roots_refs x.2.1) (map_to_list (interps i)))
  ++ concat (map (fun x => value_refs x.2) (map_to_list (pins i))).

Definition store_refs (s : gmap Id Cell) : gset Id :=
  ⋃ (map (fun x => list_to_set (map fst (cell_refs x.2))) (map_to_list s)).

Definition owner_refs (h : Heap) : gset Id :=
  list_to_set (map fst (external h)) ∪ list_to_set (map fst (registry_refs (inner h))).

(** What dropping the last reference does: a cell nothing refers to is freed, and
    with it the references it held. *)
Fixpoint release_loop (fuel : nat) (owners : gset Id) (s : gmap Id Cell) : gmap Id Cell :=
  match fuel with
  | O => s
  | S fuel =>
      let alive := owners ∪ store_refs s in
      let s' := filter (fun x => x.1 ∈ alive) s in
      if (size s' =? size s)%nat then s else release_loop fuel owners s'
  end.

Definition release (h : Heap) : Heap :=
  set_store (release_loop (size (store h)) (owner_refs h) (store h)) h.

(** [Weak::upgrade] succeeds. *)
Definition alive (h : Heap) (id : Id) : bool := bool_decide (is_Some (store h !! id)).

(** ** Registration *)

Definition retain_live (h : Heap) (i : HeapInner) : HeapInner :=
  foldr (fun k i => with_entries k (base.filter (fun id => is_Some (store h !! id)) (entries k i)) i)
    i kinds.

Definition record_allocation (h : Heap) : Heap :=
  let i := inner h in
  let i := with_debts (saturating_add (allocation_debt i) 1) (saturating_add (registry_debt i) 1)
             (registry_prune_at i) i in
  if (registry_debt i <? registry_prune_at i)%Z then set_inner i h
  else
    let i := retain_live h i in
    set_inner (with_debts (allocation_debt i) 0 (Z.max (Z.of_nat (tracked_count i)) 4096) i) h.

(** [Track::track_rc]: borrows the thread's heap mutably. *)
Definition track (k : Kind) (id : Id) (h : Heap) : option Heap :=
  if locked h then None
  else Some (record_allocation (set_inner (with_entries k (entries k (inner h) ++ [id]) (inner h)) h)).

(** A fresh cell, registered ([tracked(Rc::new(..))]). *)
Definition tracked (k : Kind) (c : Cell) (h : Heap) : option (Id * Heap) :=
  let id := next_address h in
  let h := {| store := <[id := c]> (store h); inner := inner h; external := external h;
              next_address := Pos.succ id; locked := locked h |} in
  match track k id h with Some h => Some (id, h) | None => None end.

Definition capture_env (env : Id) (h : Heap) : option Heap := track KEnvs env h.

Definition register_interp (roots : GcRoots) (executing : nat) (h : Heap) : option (Z * Heap) :=
  if locked h then None
  else
    let i := inner h in
    let id := next_interp i in
    Some (id, set_inner (with_owners (<[id := (roots, executing)]> (interps i)) (id + 1)%Z
                           (pins i) (next_pin i) i) h).

Definition unregister_interp (id : Z) (h : Heap) : Heap :=
  if locked h then h
  else
    let i := inner h in
    release (set_inner (with_owners (delete id (interps i)) (next_interp i) (pins i) (next_pin i) i) h).

Definition republish_roots (id : Z) (roots : GcRoots) (h : Heap) : Heap :=
  if locked h then h
  else
    let i := inner h in
    match interps i !! id with
    | Some (_, executing) =>
        release (set_inner (with_owners (<[id := (roots, executing)]> (interps i)) (next_interp i)
                              (pins i) (next_pin i) i) h)
    | None => h
    end.

Definition add_root (value : Value) (h : Heap) : option (Z * Heap) :=
  if locked h then None
  else
    let i := inner h in
    let id := next_pin i in
    Some (id, set_inner (with_owners (interps i) (next_interp i) (<[id := value]> (pins i))
                           (id + 1)%Z i) h).

Definition remove_root (id : Z) (h : Heap) : option Heap :=
  if locked h then None
  else
    let i := inner h in
    Some (release (set_inner (with_owners (interps i) (next_interp i) (delete id (pins i))
                                (next_pin i) i) h)).

End Heap.
