(* ===== verification/Collect.v ===== *)
(** * The cycle collector

    The marker, the ephemeron loop, the pruning of weak containers, the sweep and
    [collect] of [heap.rs].  Marking may create the property cell of a date, so it
    passes the heap along with the marker; [Panic] is a panic of the source, [Err]
    a loop that ran out of fuel (which it does not: see [CollectMark]). *)
From stdpp Require Import prelude list strings gmap sets.
From Stdlib Require Import ZArith Lia.
From S2P Require Import Prelude Heap.
Import ListNotations Heap.
Local Open Scope rust_scope.

Module Collect.

Inductive SkipReason := Executing | SuspendedTasks | BorrowedCells.

Record HeapStats := {
  tracked_ : nat;
  marked_ : nat;
  collected : nat;
  skipped : option SkipReason;
}.

(** [work] and [newly_marked] are stacks, their top first. *)
Record Marker := {
  marked : gset Id;
  work : list Id;
  host_calls : gset Z;
  opaque : bool;
  borrowed : bool;
  weak_cells : list Id;
  newly_marked : list Id;
}.

Definition new_marker : Marker :=
  {| marked := ∅; work := []; host_calls := ∅; opaque := false; borrowed := false;
     weak_cells := []; newly_marked := [] |}.

(** The heap and the marker. *)
Record St := { heap : Heap; marker : Marker }.
Abbreviation Result := (outcome unit St) (only parsing).

Definition set_heap (h : Heap) (st : St) : St := {| heap := h; marker := marker st |}.
Definition set_marker (m : Marker) (st : St) : St := {| heap := heap st; marker := m |}.

Definition cell_at (st : St) (id : Id) : option Cell := store (heap st) !! id.

(** ** Marking *)

(** [Marker::mark], which is true for a new identity. *)
Definition mark (id : Id) (st : St) : bool * St :=
  let m := marker st in
  if bool_decide (id ∈ marked m) then (false, st)
  else (true, set_marker {| marked := {[id]} ∪ marked m; work := work m;
                            host_calls := host_calls m; opaque := opaque m; borrowed := borrowed m;
                            weak_cells := weak_cells m; newly_marked := id :: newly_marked m |} st).

Definition push_work (id : Id) (st : St) : St :=
  let m := marker st in
  set_marker {| marked := marked m; work := id :: work m; host_calls := host_calls m;
                opaque := opaque m; borrowed := borrowed m; weak_cells := weak_cells m;
                newly_marked := newly_marked m |} st.

(** Mark, and queue what is new: a [MarkItem] is the identity, its tag is the
    kind of the cell there. *)
Definition mark_item (id : Id) (st : St) : St :=
  let (fresh, st) := mark id st in if fresh then push_work id st else st.

Definition set_borrowed (st : St) : St :=
  let m := marker st in
  set_marker {| marked := marked m; work := work m; host_calls := host_calls m; opaque := opaque m;
                borrowed := true; weak_cells := weak_cells m; newly_marked := newly_marked m |} st.

Definition or_opaque (b : bool) (st : St) : St :=
  let m := marker st in
  set_marker {| marked := marked m; work := work m; host_calls := host_calls m;
                opaque := opaque m || b; borrowed := borrowed m; weak_cells := weak_cells m;
                newly_marked := newly_marked m |} st.

Definition push_weak_cell (id : Id) (st : St) : St :=
  let m := marker st in
  set_marker {| marked := marked m; work := work m; host_calls := host_calls m; opaque := opaque m;
                borrowed := borrowed m; weak_cells := weak_cells m ++ [id];
                newly_marked := newly_marked m |} st.

Definition insert_call (id : Z) (st : St) : St :=
  let m := marker st in
  set_marker {| marked := marked m; work := work m; host_calls := {[id]} ∪ host_calls m;
                opaque := opaque m; borrowed := borrowed m; weak_cells := weak_cells m;
                newly_marked := newly_marked m |} st.

(** [ObjectCell::new_exotic_properties], with the links of a date. *)
Definition exotic_meta (realm : option Id) (prototype : option Value) : ObjectMeta :=
  {| private_elements := []; intl_bound_compare := None; intl_bound_format := None;
     revocable_proxy := None; disposable_stack := None; collection_entries := None;
     collection_iterator := None; iterator_helper := None; regexp_iterator := None;
     async_from_sync := None; proto := prototype; realm_global := realm;
     shadow_realm_global := None; shadow_realm_wrapped := None; boxed_symbol := None;
     symbol_keys := [] |}.

Definition exotic_cell (realm : option Id) (prototype : option Value) : ObjectCell :=
  {| weak := WNone; slots := []; meta := exotic_meta realm prototype; index := false;
     shape := false; read_once := false; b_slots := Free; b_meta := Free; b_weak := Free;
     b_index := Free; b_shape := Free |}.

(** [DateData::properties]: the cell, created and registered on first request. *)
Definition materialize (id : Id) (d : DateData) (h : Heap) : option (Id * Heap) :=
  match date_properties d with
  | Some properties => Some (properties, h)
  | None =>
      let realm := match date_realm d with
                   | Some realm => if alive h realm then Some realm else None
                   | None => None
                   end in
      match tracked KObjects (CObject (exotic_cell realm (date_prototype d))) h with
      | Some (properties, h) =>
          Some (properties,
                set_store (<[id := CDate {| date_properties := Some properties;
                                            date_realm := date_realm d;
                                            date_prototype := None |}]> (store h)) h)
      | None => None
      end
  end.

(** [Value::exotic_properties]: [Panic] when a date's cell cannot be registered. *)
Definition exotic_properties (v : Value) (st : St) : outcome unit (option Id * St) :=
  match v with
  | Error _ properties => Ok (Some properties, st)
  | Generator id | StringIterator id | Date id | RegExp id | TypedArray id | DataView id
  | ArrayBuffer id | SharedArrayBuffer id | Promise id =>
      match cell_at st id with
      | Some (CGenerator g) =>
          Ok (if try_borrow (b_generator g) then Some (g_properties g) else None, st)
      | Some (CStringIterator properties b) => Ok (if try_borrow b then Some properties else None, st)
      | Some (CPromise p) => Ok (if try_borrow (b_promise p) then Some (pr_properties p) else None, st)
      | Some (CRegExp properties) | Some (CBuffer properties) | Some (CView properties _ _) =>
          Ok (Some properties, st)
      | Some (CDate d) =>
          match materialize id d (heap st) with
          | Some (properties, h) => Ok (Some properties, set_heap h st)
          | None => Panic
          end
      | _ => Ok (None, st)
      end
  | _ => Ok (None, st)
  end.

Definition mark_properties (v : Value) (st : St) : Result :=
  let* r := exotic_properties v st in
  Ok (match r.1 with Some properties => mark_item properties r.2 | None => r.2 end).

(** The view of a typed array: its own identity, then the buffer as a value. *)
Definition mark_view (view : Id) (st : St) : Result :=
  let st := (mark view st).2 in
  match cell_at st view with
  | Some (CView _ buffer shared) =>
      let* st := mark_properties (buffer_value buffer shared) st in
      Ok (mark buffer st).2
  | _ => Ok st
  end.

Fixpoint mark_value (v : Value) (st : St) : Result :=
  let* st := mark_properties v st in
  match v with
  | RealmGlobal id | Object id | Array id | Function id | HostFunction id | Promise id
  | Generator id | Proxy id | Binding id | AsyncTask id => Ok (mark_item id st)
  | HostPending id => Ok (insert_call id st)
  | Class constructor prototype statics =>
      let* st := mark_value constructor st in
      let* st := mark_value prototype st in
      Ok (mark_item statics st)
  | TypedArray view | DataView view => mark_view view st
  | _ => Ok (match weak_identity v with Some id => (mark id st).2 | None => st end)
  end.

Fixpoint mark_values (l : list Value) (st : St) : Result :=
  match l with
  | [] => Ok st
  | v :: l => let* st := mark_value v st in mark_values l st
  end.

Definition mark_envs (l : list Id) (st : St) : St := foldl (fun st id => mark_item id st) st l.

Definition mark_module (m : Module_) (st : St) : Result :=
  if try_borrow (b_namespace m) then
    let* st := mark_values (module_values m) st in
    Ok (mark_envs (option_list (scope m)) st)
  else Ok (set_borrowed st).

Fixpoint mark_module_list (l : list Module_) (st : St) : Result :=
  match l with
  | [] => Ok st
  | m :: l => let* st := mark_module m st in mark_module_list l st
  end.

Fixpoint mark_modules (maps : list Id) (st : St) : Result :=
  match maps with
  | [] => Ok st
  | map :: maps =>
      let* st := match cell_at st map with
                 | Some (CModules l b) =>
                     if try_borrow b then mark_module_list l st else Ok (set_borrowed st)
                 | _ => Ok st
                 end in
      mark_modules maps st
  end.

(** ** Tracing a cell *)

(** [ModuleRealm::roots]: the values of the module graph and the CommonJS cache,
    [None] on a borrow conflict. *)
Definition realm_roots (st : St) (r : ModuleRealm) : option (list Value) :=
  g ← match cell_at st (graph r) with
      | Some (CGraph g b) => if try_borrow b then Some (graph_values g) else None
      | _ => Some []
      end;
  c ← match cell_at st (commonjs_cache r) with
      | Some (CCommonJs c b) => if try_borrow b then Some (cache_values c) else None
      | _ => Some []
      end;
  Some (g ++ c).

Definition mark_realm (r : ModuleRealm) (st : St) : Result :=
  match realm_roots st r with
  | Some values => let* st := mark_modules [modules r] st in mark_values values st
  | None => Ok (set_borrowed st)
  end.

Definition mark_queue (id : Id) (st : St) : Result :=
  match cell_at st id with
  | Some (CJobs q) =>
      if try_borrow (b_jobs q) then mark_values (queue_values q) st else Ok (set_borrowed st)
  | _ => Ok st
  end.

Fixpoint mark_reactions (l : list Reaction) (st : St) : Result :=
  match l with
  | [] => Ok st
  | r :: l =>
      let* st := mark_values (reaction_values r) st in
      mark_reactions l (mark_item (derived r) st)
  end.

(** One item of the worklist. *)
Definition visit (id : Id) (st : St) : Result :=
  match cell_at st id with
  | Some (CObject o) =>
      if try_borrow (b_slots o) && try_borrow (b_meta o) && try_borrow (b_weak o) then
        let st := match weak o with WNone => st | _ => push_weak_cell id st end in
        mark_values (object_children o) st
      else Ok (set_borrowed st)
  | Some (CArray a) =>
      if try_borrow (b_elements a) && try_borrow (b_array_meta a) && try_borrow (b_named a)
         && try_borrow (b_symbol_keys a)
      then mark_values (array_children a) st
      else Ok (set_borrowed st)
  | Some (CEnv e) =>
      if try_borrow (b_env e) then
        let* st := match module_realm e with Some r => mark_realm r st | None => Ok st end in
        let* st := mark_values (env_values e) st in
        Ok (mark_envs (option_list (parent e)) st)
      else Ok (set_borrowed st)
  | Some (CFunction f) =>
      let st := mark_item (fn_properties f) st in
      let st := mark_envs (option_list (closure f)) st in
      mark_values (bound_values (bound f)) st
  | Some (CPromise p) =>
      if try_borrow (b_promise p) then
        let* st := mark_value (pr_value p) st in mark_reactions (reactions p) st
      else Ok (set_borrowed st)
  | Some (CGenerator g) =>
      if try_borrow (b_generator g) then
        let* st := match realm_roots st (g_realm g) with
                   | Some values =>
                       let* st := mark_modules [modules (g_realm g)] st in
                       let* st := mark_values values st in
                       mark_queue (g_jobs g) st
                   | None => Ok (set_borrowed st)
                   end in
        let* st := mark_values (from_option state_values [] (async_state g)) st in
        let st := mark_envs (option_list (g_closure g)) st in
        let* st := mark_values (args g ++ option_list (return_value g)) st in
        Ok (or_opaque (bool_decide (is_Some (g_coroutine g))) st)
      else Ok (set_borrowed st)
  | Some (CProxy p) =>
      match proxy_children p with
      | Some children => mark_values children st
      | None => Ok (set_borrowed st)
      end
  | Some (CBinding value b) => if try_borrow b then mark_value value st else Ok (set_borrowed st)
  | Some (CAsyncTask t) =>
      if try_borrow (b_task t) then
        let st := or_opaque (bool_decide (is_Some (t_coroutine t))) st in
        let* st := mark_value (Promise (result t)) st in
        Ok (mark_envs (option_list (owner t)) st)
      else Ok (or_opaque true st)
  | _ => Ok st
  end.

Definition pop_work (st : St) : option (Id * St) :=
  let m := marker st in
  match work m with
  | [] => None
  | id :: rest =>
      Some (id, set_marker {| marked := marked m; work := rest; host_calls := host_calls m;
                              opaque := opaque m; borrowed := borrowed m;
                              weak_cells := weak_cells m; newly_marked := newly_marked m |} st)
  end.

Definition pop_new (st : St) : option (Id * St) :=
  let m := marker st in
  match newly_marked m with
  | [] => None
  | id :: rest =>
      Some (id, set_marker {| marked := marked m; work := work m; host_calls := host_calls m;
                              opaque := opaque m; borrowed := borrowed m;
                              weak_cells := weak_cells m; newly_marked := rest |} st)
  end.

Fixpoint drain (fuel : nat) (st : St) : Result :=
  match pop_work st with
  | None => Ok st
  | Some (id, st) =>
      match fuel with
      | O => Err tt
      | S fuel => let* st := visit id st in drain fuel st
      end
  end.

(** ** Ephemerons *)

Definition weak_of (st : St) (id : Id) : WeakStorage :=
  match cell_at st id with Some (CObject o) => weak o | _ => WNone end.

(** [waiting.entry(key).or_default().push(value)] *)
Definition wait (key : Id) (value : Value) (waiting : gmap Id (list Value)) : gmap Id (list Value) :=
  <[key := default [] (waiting !! key) ++ [value]]> waiting.

Fixpoint index_entries (entries : list (Id * Value)) (waiting : gmap Id (list Value)) (st : St)
  : outcome unit (gmap Id (list Value) * St) :=
  match entries with
  | [] => Ok (waiting, st)
  | (key, value) :: entries =>
      if bool_decide (key ∈ marked (marker st)) then
        let* st := mark_value value st in index_entries entries waiting st
      else index_entries entries (wait key value waiting) st
  end.

Fixpoint index_cells (cells : list Id) (waiting : gmap Id (list Value)) (st : St)
  : outcome unit (gmap Id (list Value) * St) :=
  match cells with
  | [] => Ok (waiting, st)
  | cell :: cells =>
      match weak_of st cell with
      | WMap entries =>
          let* r := index_entries entries waiting st in index_cells cells r.1 r.2
      | _ => index_cells cells waiting st
      end
  end.

(** Wake the entries whose keys have been marked. *)
Fixpoint wake (fuel : nat) (waiting : gmap Id (list Value)) (st : St)
  : outcome unit (gmap Id (list Value) * St) :=
  match pop_new st with
  | None => Ok (waiting, st)
  | Some (id, st) =>
      match fuel with
      | O => Err tt
      | S fuel =>
          match waiting !! id with
          | Some values =>
              let* st := mark_values values st in wake fuel (delete id waiting) st
          | None => wake fuel waiting st
          end
      end
  end.

(** Enough turns for any of the loops: a turn takes an item off a stack, and an
    item is pushed only when it is first marked.  A cell is marked once, and
    marking creates at most one cell for each there is. *)
Definition turns (st : St) : nat :=
  S (length (work (marker st)) + length (newly_marked (marker st)) + 2 * size (store (heap st))).

Fixpoint drain_loop (fuel : nat) (waiting : gmap Id (list Value)) (indexed : nat) (st : St) : Result :=
  match fuel with
  | O => Err tt
  | S fuel =>
      let* st := drain (turns st) st in
      let* r := index_cells (drop indexed (weak_cells (marker st))) waiting st in
      let indexed := length (weak_cells (marker st)) in
      let* r := wake (turns r.2) r.1 r.2 in
      match work (marker r.2) with
      | [] => Ok r.2
      | _ => drain_loop fuel r.1 indexed r.2
      end
  end.

Definition drain_ephemerons (st : St) : Result := drain_loop (turns st) ∅ 0 st.

(** ** Weak containers *)

Definition set_weak (w : WeakStorage) (o : ObjectCell) : ObjectCell :=
  {| weak := w; slots := slots o; meta := meta o; index := index o; shape := shape o;
     read_once := read_once o; b_slots := b_slots o; b_meta := b_meta o; b_weak := b_weak o;
     b_index := b_index o; b_shape := b_shape o |}.

Definition push_microtask (job : list Value) (q : JobQueue) : JobQueue :=
  {| microtasks := microtasks q ++ [job]; others := others q; dispatch_depth := dispatch_depth q;
     b_jobs := b_jobs q |}.

(** A job of [callback] for each held value, on the queue if it still exists. *)
Fixpoint push_callbacks (callback : Value) (eligible : list Value) (jobs : Id) (h : Heap)
  : outcome unit Heap :=
  match eligible with
  | [] => Ok h
  | held :: eligible =>
      match store h !! jobs with
      | Some (CJobs q) =>
          if try_borrow_mut (b_jobs q) then
            push_callbacks callback eligible jobs
              (set_store (<[jobs := CJobs (push_microtask [callback; held] q)]> (store h)) h)
          else Panic
      | _ => Ok h
      end
  end.

Definition prune_storage (live : gset Id) (w : WeakStorage) : WeakStorage :=
  match w with
  | WMap entries => WMap (base.filter (fun e => e.1 ∈ live) entries)
  | WRef (Some target) => WRef (if bool_decide (target ∈ live) then Some target else None)
  | WRegistry callback records jobs =>
      WRegistry callback (base.filter (fun r => target r ∈ live) records) jobs
  | w => w
  end.

(** The held values of the records whose target is gone, in order. *)
Definition eligible (live : gset Id) (w : WeakStorage) : list Value :=
  match w with
  | WRegistry _ records _ => map held (base.filter (fun r => target r ∉ live) records)
  | _ => []
  end.

Definition prune_cell (live : gset Id) (id : Id) (h : Heap) : outcome unit Heap :=
  match store h !! id with
  | Some (CObject o) =>
      if try_borrow_mut (b_weak o) then
        let h := set_store (<[id := CObject (set_weak (prune_storage live (weak o)) o)]> (store h)) h in
        let* h := match weak o with
                  | WRegistry callback _ jobs => push_callbacks callback (eligible live (weak o)) jobs h
                  | _ => Ok h
                  end in
        Ok (release h)
      else Panic
  | _ => Ok h
  end.

Fixpoint prune_weak (live : gset Id) (cells : list Id) (h : Heap) : outcome unit Heap :=
  match cells with
  | [] => Ok h
  | cell :: cells => let* h := prune_cell live cell h in prune_weak live cells h
  end.

(** ** The sweep *)

(** [ObjectMeta] without the edges [clear_edges] drops; the identities of its symbols
    are dropped for objects only. *)
Definition clear_meta (keep_symbols : bool) (m : ObjectMeta) : ObjectMeta :=
  {| private_elements := []; intl_bound_compare := None; intl_bound_format := None;
     revocable_proxy := None; disposable_stack := None; collection_entries := None;
     collection_iterator := None; iterator_helper := None; regexp_iterator := None;
     async_from_sync := None; proto := None; realm_global := None; shadow_realm_global := None;
     shadow_realm_wrapped := None; boxed_symbol := boxed_symbol m;
     symbol_keys := if keep_symbols then symbol_keys m else [] |}.

(** [ObjectCell::clear_edges]: [Ok None] on a borrow conflict. *)
Definition clear_object (o : ObjectCell) : outcome unit (option ObjectCell) :=
  if try_borrow_mut (b_slots o) && try_borrow_mut (b_meta o) then
    if try_borrow_mut (b_index o) then
      Ok (Some {| weak := if try_borrow_mut (b_weak o) then WNone else weak o; slots := [];
                  meta := clear_meta false (meta o); index := false;
                  shape := if try_borrow_mut (b_shape o) then false else shape o;
                  read_once := false; b_slots := b_slots o; b_meta := b_meta o;
                  b_weak := b_weak o; b_index := b_index o; b_shape := b_shape o |})
    else Panic
  else Ok None.

(** [ArrayCell::clear_edges] *)
Definition clear_array (a : ArrayCell) : option ArrayCell :=
  if try_borrow_mut (b_elements a) && try_borrow_mut (b_named a) && try_borrow_mut (b_array_meta a)
  then Some {| elements := []; named := []; array_meta := clear_meta true (array_meta a);
               array_symbol_keys := array_symbol_keys a; b_elements := b_elements a;
               b_named := b_named a; b_array_meta := b_array_meta a;
               b_symbol_keys := b_symbol_keys a |}
  else None.

(** [Environment::clear_edges] *)
Definition clear_env (e : Environment) : option Environment :=
  if try_borrow_mut (b_env e) then
    Some {| vars := []; global_environment := None; with_object := None; resources := [];
            new_target := None; constructor_this := None; intrinsics := []; template_objects := [];
            private_instance_elements := None; parent := None; module_realm := None;
            allocation_prototypes := []; b_env := b_env e |}
  else None.

Definition clear_promise (p : PromiseInner) : option PromiseInner :=
  if try_borrow_mut (b_promise p) then
    Some {| pr_properties := pr_properties p; pr_value := Plain; reactions := [];
            b_promise := b_promise p |}
  else None.

Definition clear_generator (g : GeneratorInner) : option GeneratorInner :=
  if try_borrow_mut (b_generator g) then
    Some {| g_realm := g_realm g; g_jobs := g_jobs g; async_state := async_state g;
            g_properties := g_properties g; g_closure := None; args := [];
            g_coroutine := g_coroutine g; return_value := None; b_generator := b_generator g |}
  else None.

(** What the sweep does to an unmarked cell: [Ok None] keeps its entry. *)
Definition clear_cell (c : Cell) : outcome unit (option Cell) :=
  match c with
  | CObject o => let* r := clear_object o in Ok (CObject <$> r)
  | CArray a => Ok (CArray <$> clear_array a)
  | CEnv e => Ok (CEnv <$> clear_env e)
  | CPromise p => Ok (CPromise <$> clear_promise p)
  | CGenerator g => Ok (CGenerator <$> clear_generator g)
  | CBinding value b => Ok (if try_borrow_mut b then Some (CBinding Plain b) else None)
  | c => Ok (Some c)
  end.

(** The loop of [sweep_vec] over the entries of one list: what it keeps, and how
    many it collected. *)
Fixpoint sweep_vec (live : gset Id) (l : list Id) (h : Heap) : outcome unit (list Id * nat * Heap) :=
  match l with
  | [] => Ok ([], 0, h)
  | id :: l =>
      match store h !! id with
      | None => sweep_vec live l h
      | Some c =>
          if bool_decide (id ∈ live) then
            let* r := sweep_vec live l h in Ok (id :: r.1.1, r.1.2, r.2)
          else
            let* c := clear_cell c in
            match c with
            | Some c =>
                let* r := sweep_vec live l (release (set_store (<[id := c]> (store h)) h)) in
                Ok (r.1.1, S r.1.2, r.2)
            | None => let* r := sweep_vec live l h in Ok (id :: r.1.1, r.1.2, r.2)
            end
      end
  end.

Fixpoint sweep (live : gset Id) (ks : list Kind) (h : Heap) : outcome unit (nat * Heap) :=
  match ks with
  | [] => Ok (0, h)
  | k :: ks =>
      let* r := sweep_vec live (entries k (inner h)) h in
      let h := set_inner (with_entries k r.1.1 (inner r.2)) r.2 in
      let* s := sweep live ks h in
      Ok (r.1.2 + s.1, s.2)
  end.

(** ** A collection *)

Definition suspended (h : Heap) : bool :=
  existsb (fun id => match store h !! id with
                     | Some (CGenerator g) =>
                         try_borrow (b_generator g) && bool_decide (is_Some (g_coroutine g))
                     | _ => false
                     end) (generators (inner h))
  || existsb (fun id => match store h !! id with
                        | Some (CAsyncTask t) =>
                            try_borrow (b_task t) && bool_decide (is_Some (t_coroutine t))
                        | _ => false
                        end) (async_tasks (inner h)).

Definition executing (h : Heap) : bool :=
  existsb (fun x =>
    (0 <? x.2.2)%nat
    || existsb (fun q => match store h !! q with
                         | Some (CJobs q) => negb (try_borrow (b_jobs q)) || (0 <? dispatch_depth q)%nat
                         | _ => false
                         end) (jobs_ x.2.1))
    (map_to_list (interps (inner h))).

(** The published roots of the interpreters, marked under the borrow of [HEAP]. *)
Fixpoint mark_interps (l : list (Z * (GcRoots * nat))) (st : St) : Result :=
  match l with
  | [] => Ok st
  | (_, (roots, _)) :: l =>
      let* st := mark_modules (modules_ roots) st in
      let st := mark_envs (envs_ roots) st in
      let* st := mark_values (values_ roots) st in
      mark_interps l st
  end.

(** The queues of all interpreters, each once, and what they hold. *)
Definition root_queues (i : HeapInner) : list Id :=
  remove_dups (concat (map (fun x => jobs_ x.2.1) (map_to_list (interps i)))).

Definition queued_roots (h : Heap) : list Value :=
  concat (map (fun id => match store h !! id with Some (CJobs q) => queue_values q | _ => [] end)
            (root_queues (inner h))).

(** Everything up to the sweep. *)
Definition mark_phase (h : Heap) : Result :=
  let st := {| heap := set_locked true h; marker := new_marker |} in
  let* st := mark_interps (map_to_list (interps (inner h))) st in
  let* st := mark_values (map snd (map_to_list (pins (inner h)))) st in
  let st := set_heap (set_locked false (heap st)) st in
  let* st := mark_values (queued_roots h) st in
  drain_ephemerons st.

Definition skip (reason : SkipReason) : HeapStats :=
  {| tracked_ := 0; marked_ := 0; collected := 0; skipped := Some reason |}.

Definition collect (h : Heap) : outcome unit (HeapStats * Heap) :=
  if suspended h then Ok (skip SuspendedTasks, h)
  else if executing h then Ok (skip Executing, h)
  else
    let* st := mark_phase h in
    if borrowed (marker st) then Ok (skip BorrowedCells, heap st)
    else
      let live := marked (marker st) in
      let* h := prune_weak live (weak_cells (marker st)) (heap st) in
      let tracked := tracked_count (inner h) in
      let* r := sweep live kinds (set_locked true h) in
      let h := set_locked false r.2 in
      let i := inner h in
      Ok ({| tracked_ := tracked; marked_ := size live; collected := r.1; skipped := None |},
          set_inner (with_total (wrap 64 (total_collected i + Z.of_nat r.1))
                       (with_debts 0 (registry_debt i) (registry_prune_at i) i)) h).

(** [Interpreter::collect_cycles] and [maybe_collect_cycles]. *)
Definition collect_cycles (gc_id : Z) (roots : GcRoots) (h : Heap) : outcome unit (HeapStats * Heap) :=
  collect (republish_roots gc_id roots h).

Definition maybe_collect_cycles (threshold : Z) (gc_id : Z) (roots : GcRoots) (h : Heap)
  : outcome unit (option HeapStats * Heap) :=
  if negb (threshold =? 0)%Z && (threshold <=? allocation_debt (inner h))%Z then
    let* r := collect_cycles gc_id roots h in Ok (Some r.1, r.2)
  else Ok (None, h).

End Collect.
