(* ===== verification/CollectSpec.v ===== *)
(** * What a collection must preserve

    Reachability of values and cells, without the marker: what a program can get
    at from the roots by reading values, with the rule of ephemerons (the value of
    a weak map entry is reachable when the map and the key are).  And the typing
    of references that the source has by construction. *)
From stdpp Require Import prelude list strings gmap sets.
From Stdlib Require Import ZArith Lia.
From S2P Require Import Prelude Heap Collect.
Import ListNotations Heap Collect.

Module CollectSpec.

(** ** Reachability *)

(** A value, or a cell a program uses without naming it. *)
Abbreviation Node := (Value + Id)%type (only parsing).
Definition vals (l : list Value) : list Node := map inl l.
Definition cells (l : list Id) : list Node := map inr l.

(** The property cell of an exotic value.  A date without one yet has its
    prototype instead. *)
Definition exotic_next (s : gmap Id Cell) (id : Id) : list Node :=
  match s !! id with
  | Some (CGenerator g) => [inr (g_properties g)]
  | Some (CPromise p) => [inr (pr_properties p)]
  | Some (CStringIterator properties _) | Some (CRegExp properties) | Some (CBuffer properties)
  | Some (CView properties _ _) => [inr properties]
  | Some (CDate d) =>
      match date_properties d with
      | Some properties => [inr properties]
      | None => vals (option_list (date_prototype d))
      end
  | _ => []
  end.

(** What a value gives access to at once. *)
Definition value_next (s : gmap Id Cell) (v : Value) : list Node :=
  match v with
  | Plain | HostPending _ => []
  | Class constructor prototype statics => [inl constructor; inl prototype; inr statics]
  | Error identity properties => [inr identity; inr properties]
  | TypedArray id | DataView id =>
      inr id :: exotic_next s id
      ++ match s !! id with
         | Some (CView _ buffer shared) => [inl (buffer_value buffer shared)]
         | _ => []
         end
  | Promise id | Generator id | StringIterator id | Date id | RegExp id | ArrayBuffer id
  | SharedArrayBuffer id => inr id :: exotic_next s id
  | Object id | Array id | Function id | NativeFunction id | HostFunction id | RealmGlobal id
  | Symbol id | Proxy id | AsyncTask id | Binding id => [inr id]
  end.

(** Modules of a map, with their deferred namespaces. *)
Definition module_next (m : Module_) : list Node :=
  vals (module_values m) ++ vals (option_list (deferred_namespace m)) ++ cells (option_list (scope m)).

Definition modules_next (s : gmap Id Cell) (id : Id) : list Node :=
  match s !! id with Some (CModules l _) => concat (map module_next l) | _ => [] end.

Definition realm_next (s : gmap Id Cell) (r : ModuleRealm) : list Node :=
  modules_next s (modules r)
  ++ match s !! graph r with Some (CGraph g _) => vals (graph_values g) | _ => [] end
  ++ match s !! commonjs_cache r with Some (CCommonJs c _) => vals (cache_values c) | _ => [] end.

Definition queue_next (s : gmap Id Cell) (id : Id) : list Node :=
  match s !! id with Some (CJobs q) => vals (queue_values q) | _ => [] end.

(** What a cell gives access to.  The prototypes an environment caches for
    allocation are those of its intrinsics, and not listed again. *)
Definition cell_next (s : gmap Id Cell) (c : Cell) : list Node :=
  match c with
  | CObject o => vals (object_children o)
  | CArray a => vals (array_children a)
  | CEnv e =>
      from_option (realm_next s) [] (module_realm e) ++ vals (env_values e)
      ++ cells (option_list (parent e))
  | CFunction f =>
      inr (fn_properties f) :: cells (option_list (closure f)) ++ vals (bound_values (bound f))
  | CPromise p =>
      inl (pr_value p)
      :: concat (map (fun r => vals (reaction_values r) ++ [inr (derived r)]) (reactions p))
  | CGenerator g =>
      realm_next s (g_realm g) ++ queue_next s (g_jobs g)
      ++ vals (from_option state_values [] (async_state g))
      ++ cells (option_list (g_closure g)) ++ vals (args g ++ option_list (return_value g))
      ++ cells (map fst (default [] (g_coroutine g)))
  | CProxy p => vals (proxy_values p)
  | CBinding value _ => [inl value]
  | CAsyncTask t =>
      inl (Promise (result t)) :: cells (option_list (owner t))
      ++ cells (map fst (default [] (t_coroutine t)))
  | CStringIterator _ _ | CDate _ | CRegExp _ | CView _ _ _ | CBuffer _ | COpaque
  | CModules _ _ | CGraph _ _ | CCommonJs _ _ | CJobs _ => []
  end.

Inductive reached (s : gmap Id Cell) (roots : list Node) : Node -> Prop :=
| reached_root x : x ∈ roots -> reached s roots x
| reached_value v x : reached s roots (inl v) -> x ∈ value_next s v -> reached s roots x
| reached_cell id c x : reached s roots (inr id) -> s !! id = Some c -> x ∈ cell_next s c ->
    reached s roots x
| reached_entry id o l key v : reached s roots (inr id) -> s !! id = Some (CObject o) ->
    weak o = WMap l -> (key, v) ∈ l -> reached s roots (inr key) -> reached s roots (inl v).

(** The roots: every interpreter's globals, values, modules and queues, and the
    pins of the host. *)
Definition roots_next (s : gmap Id Cell) (r : GcRoots) : list Node :=
  concat (map (modules_next s) (modules_ r)) ++ cells (envs_ r) ++ vals (values_ r).

Definition heap_roots (h : Heap) : list Node :=
  concat (map (fun x => roots_next (store h) x.2.1) (map_to_list (interps (inner h))))
  ++ vals (map snd (map_to_list (pins (inner h))))
  ++ concat (map (queue_next (store h)) (root_queues (inner h))).

(** ** Typing *)

Definition typed (s : gmap Id Cell) (r : Ref) : Prop := tag_of <$> s !! r.1 = Some r.2.
Definition all_typed (s : gmap Id Cell) (l : list Ref) : Prop := forall r, r ∈ l -> typed s r.

(** References a cell holds weakly and may take up. *)
Definition weak_typed (s : gmap Id Cell) (c : Cell) : Prop :=
  match c with
  | CDate d =>
      match date_realm d with
      | Some realm => is_Some (s !! realm) -> typed s (realm, TEnv)
      | None => True
      end
  | _ => True
  end.

Definition store_typed (s : gmap Id Cell) : Prop :=
  forall id c, s !! id = Some c -> all_typed s (cell_refs c) /\ weak_typed s c.

Definition kind_tag (k : Kind) : Tag :=
  match k with
  | KObjects => TObject
  | KArrays => TArray
  | KEnvs => TEnv
  | KFunctions => TFunction
  | KPromises => TPromise
  | KGenerators => TGenerator
  | KProxies => TProxy
  | KBindings => TBinding
  | KTasks => TAsyncTask
  end.

(** Every reference is to an allocated cell of its type, registrations are of
    their list's type, and the next address is past all addresses given out. *)
Record heap_typed (h : Heap) : Prop := {
  ht_store : store_typed (store h);
  ht_external : all_typed (store h) (external h);
  ht_registry : all_typed (store h) (registry_refs (inner h));
  ht_next : forall id, (next_address h <= id)%positive -> store h !! id = None;
  ht_weak : forall id d realm, store h !! id = Some (CDate d) -> date_realm d = Some realm ->
    (realm < next_address h)%positive;
  ht_entries : forall k id, id ∈ entries k (inner h) -> (id < next_address h)%positive
    /\ forall c, store h !! id = Some c -> tag_of c = kind_tag k;
}.

(** ** Quiescence *)

(** What holds between the host's calls and the collector relies on: iterators
    and tasks are not being advanced, and no suspended stack is hidden from the
    registry. *)
Record quiescent (h : Heap) : Prop := {
  q_iterators : forall id properties b, store h !! id = Some (CStringIterator properties b) -> b <> Mutable;
  q_tasks : forall id t, store h !! id = Some (CAsyncTask t) -> b_task t <> Mutable;
  q_registered_generators : forall id g, store h !! id = Some (CGenerator g) ->
    g_coroutine g <> None -> id ∈ generators (inner h);
  q_registered_tasks : forall id t, store h !! id = Some (CAsyncTask t) ->
    t_coroutine t <> None -> id ∈ async_tasks (inner h);
}.

(** No module has a deferred namespace the tracer would have to follow. *)
Definition no_deferred (h : Heap) : Prop :=
  forall id l b m, store h !! id = Some (CModules l b) -> m ∈ l -> deferred_namespace m = None.

End CollectSpec.
