(* ===== verification/CollectMark.v ===== *)
(** * Marking, step by step

    How the heap may change while it is marked ([evolve]: dates get their property
    cells), what a marking step may do to the marker ([adv]), the invariant of the
    marker ([inv]), and the effect of each marking function on them. *)
From stdpp Require Import prelude list strings gmap sets.
From Stdlib Require Import ZArith Lia.
From S2P Require Import Prelude Heap Collect CollectSpec.
Import ListNotations Heap Collect CollectSpec.

Module CollectMark.

Create HintDb collect.

(** ** Membership *)

Lemma elem_of_vals v l : inl v ∈ vals l <-> v ∈ l.
Proof. unfold vals. rewrite list_elem_of_fmap. naive_solver. Qed.
Lemma elem_of_cells id l : inr id ∈ cells l <-> id ∈ l.
Proof. unfold cells. rewrite list_elem_of_fmap. naive_solver. Qed.
Lemma vals_no_cell id l : ~ inr id ∈ vals l.
Proof. unfold vals. rewrite list_elem_of_fmap. naive_solver. Qed.
Lemma cells_no_val v l : ~ inl v ∈ cells l.
Proof. unfold cells. rewrite list_elem_of_fmap. naive_solver. Qed.

Lemma elem_of_concat {A} (x : A) (l : list (list A)) : x ∈ concat l <-> exists k, k ∈ l /\ x ∈ k.
Proof. rewrite list_elem_of_In, in_concat. setoid_rewrite list_elem_of_In. done. Qed.

Lemma elem_of_values_refs r l : r ∈ values_refs l <-> exists v, v ∈ l /\ r ∈ value_refs v.
Proof.
  unfold values_refs. rewrite elem_of_concat. setoid_rewrite list_elem_of_fmap. naive_solver.
Qed.

Lemma all_typed_app s l1 l2 : all_typed s (l1 ++ l2) <-> all_typed s l1 /\ all_typed s l2.
Proof. unfold all_typed. setoid_rewrite elem_of_app. naive_solver. Qed.

Lemma all_typed_values s l : all_typed s (values_refs l) <-> forall v, v ∈ l -> all_typed s (value_refs v).
Proof. unfold all_typed. setoid_rewrite elem_of_values_refs. naive_solver. Qed.

Lemma all_typed_sub s l l' : all_typed s l -> (forall r, r ∈ l' -> r ∈ l) -> all_typed s l'.
Proof. unfold all_typed. naive_solver. Qed.

Lemma typed_some s id t : typed s (id, t) -> exists c, s !! id = Some c /\ tag_of c = t.
Proof. unfold typed. simpl. intros H. destruct (s !! id) as [c|]; [|done]. naive_solver. Qed.

(** ** Dates that get their cell *)

Definition with_cell (d : DateData) (q : Id) : DateData :=
  {| date_properties := Some q; date_realm := date_realm d; date_prototype := None |}.

Record evolve (s s' : gmap Id Cell) : Prop := {
  ev_kept : forall id c, s !! id = Some c -> s' !! id = Some c
    \/ exists d q r, c = CDate d /\ date_properties d = None /\ s' !! id = Some (CDate (with_cell d q))
         /\ s' !! q = Some (CObject (exotic_cell r (date_prototype d)));
  ev_new : forall id c, s' !! id = Some c -> s !! id = Some c
    \/ (exists d, c = CDate d)
    \/ exists r p j d, c = CObject (exotic_cell r p) /\ s' !! j = Some (CDate d) /\ date_properties d = Some id;
  ev_dates : forall id d, s' !! id = Some (CDate d) -> exists d0, s !! id = Some (CDate d0);
}.

Lemma evolve_refl s : evolve s s.
Proof. split; eauto. Qed.
#[export] Hint Resolve evolve_refl : collect.

Lemma evolve_same s s' id c : evolve s s' -> s !! id = Some c -> tag_of c <> TDate -> s' !! id = Some c.
Proof. intros E H N. destruct (ev_kept _ _ E _ _ H) as [?|(d & q & r & -> & _)]; [done|]. by destruct N. Qed.

Lemma evolve_trans s1 s2 s3 : evolve s1 s2 -> evolve s2 s3 -> evolve s1 s3.
Proof.
  intros E1 E2. split.
  - intros id c H. destruct (ev_kept _ _ E1 _ _ H) as [H2|(d & q & r & -> & Hn & H2 & Hq)].
    + apply (ev_kept _ _ E2 _ _ H2).
    + right. exists d, q, r. split_and!; [done|done| |eapply evolve_same; eauto; done].
      destruct (ev_kept _ _ E2 _ _ H2) as [?|(d' & q' & r' & [= <-] & Hn' & _)]; [done|].
      discriminate Hn'.
  - intros id c H. destruct (ev_new _ _ E2 _ _ H) as [H2|H2]; [|by right].
    destruct (ev_new _ _ E1 _ _ H2) as [?|[?|(r & p & j & d & -> & Hj & Hd)]]; [by left|by right; left|].
    right. right. exists r, p, j, d. split_and!; [done| |done].
    destruct (ev_kept _ _ E2 _ _ Hj) as [?|(d' & q' & r' & [= <-] & Hn & _)]; [done|congruence].
  - intros id d H. destruct (ev_dates _ _ E2 _ _ H) as [d0 H0]. by apply (ev_dates _ _ E1 id d0).
Qed.

Lemma evolve_typed s s' r : evolve s s' -> typed s r -> typed s' r.
Proof.
  destruct r as [id t]. intros E H. apply typed_some in H as (c & H & <-). unfold typed. simpl.
  destruct (ev_kept _ _ E _ _ H) as [->|(d & q & r & -> & _ & -> & _)]; done.
Qed.

Lemma evolve_all_typed s s' l : evolve s s' -> all_typed s l -> all_typed s' l.
Proof. intros E H r Hr. eapply evolve_typed; eauto. Qed.

Lemma evolve_some s s' id : evolve s s' -> is_Some (s !! id) -> is_Some (s' !! id).
Proof. intros E [c H]. destruct (ev_kept _ _ E _ _ H) as [->|(d & q & r & -> & _ & -> & _)]; eauto. Qed.

(** Module maps, graphs, caches and queues do not change. *)
Lemma realm_next_evolve s s' r : evolve s s' -> all_typed s (realm_refs r) -> realm_next s' r = realm_next s r.
Proof.
  intros E Ht. unfold realm_next, modules_next.
  destruct (typed_some s (modules r) TModules) as (c1 & H1 & T1); [apply Ht; set_solver|].
  destruct (typed_some s (graph r) TGraph) as (c2 & H2 & T2); [apply Ht; set_solver|].
  destruct (typed_some s (commonjs_cache r) TCommonJs) as (c3 & H3 & T3); [apply Ht; set_solver|].
  rewrite (evolve_same _ _ _ _ E H1), (evolve_same _ _ _ _ E H2), (evolve_same _ _ _ _ E H3), H1, H2, H3;
    congruence.
Qed.

Lemma queue_next_evolve s s' id : evolve s s' -> queue_next s' id = queue_next s id.
Proof.
  intros E. unfold queue_next. destruct (s !! id) as [c|] eqn:H.
  - destruct (ev_kept _ _ E _ _ H) as [->|(d & q & r & -> & _ & -> & _)]; done.
  - destruct (s' !! id) as [c|] eqn:H'; [|done].
    destruct (ev_new _ _ E _ _ H') as [?|[(d & ->)|(r & p & ? & ? & -> & _)]]; congruence.
Qed.

Lemma cell_next_evolve s s' c : evolve s s' -> all_typed s (cell_refs c) -> cell_next s' c = cell_next s c.
Proof.
  intros E Ht. destruct c; simpl in *; try done.
  - destruct (module_realm e) as [r|]; simpl in *; [|done]. f_equal. apply realm_next_evolve; [done|].
    eapply all_typed_sub; [exact Ht|]. set_solver.
  - f_equal; [|f_equal].
    + apply realm_next_evolve; [done|]. eapply all_typed_sub; [exact Ht|]. set_solver.
    + by apply queue_next_evolve.
Qed.

(** A date that has got its cell gives access to its prototype through it. *)
Lemma value_next_evolve s s' v x : evolve s s' -> x ∈ value_next s v ->
  x ∈ value_next s' v \/ exists q r p, inr q ∈ value_next s' v /\ x = inl p
    /\ s' !! q = Some (CObject (exotic_cell r (Some p))).
Proof.
  intros E.
  assert (forall id, x ∈ exotic_next s id -> x ∈ exotic_next s' id \/ exists q r p,
    inr q ∈ exotic_next s' id /\ x = inl p /\ s' !! q = Some (CObject (exotic_cell r (Some p)))) as Hex.
  { intros id. unfold exotic_next. destruct (s !! id) as [c|] eqn:H; [|by set_solver].
    destruct (ev_kept _ _ E _ _ H) as [->|(d & q & r & -> & Hn & -> & Hq)]; [by left|].
    rewrite Hn. simpl. destruct (date_prototype d) as [p|]; simpl; [|by set_solver].
    intros ->%list_elem_of_singleton. right. exists q, r, p. set_solver. }
  assert (forall id, x ∈ inr id :: exotic_next s id -> x ∈ inr id :: exotic_next s' id \/ exists q r p,
    inr q ∈ inr id :: exotic_next s' id /\ x = inl p
    /\ s' !! q = Some (CObject (exotic_cell r (Some p)))) as Hex'.
  { intros id [->|Hx]%elem_of_cons; [left; set_solver|].
    destruct (Hex _ Hx) as [?|(q & r & p & ? & ? & ?)]; [left; set_solver|].
    right. exists q, r, p. split_and!; [set_solver|done..]. }
  assert (forall id, x ∈ inr id :: exotic_next s id
      ++ match s !! id with Some (CView _ b sh) => [inl (buffer_value b sh)] | _ => [] end ->
    x ∈ inr id :: exotic_next s' id
      ++ match s' !! id with Some (CView _ b sh) => [inl (buffer_value b sh)] | _ => [] end
    \/ exists q r p, inr q ∈ inr id :: exotic_next s' id
      ++ match s' !! id with Some (CView _ b sh) => [inl (buffer_value b sh)] | _ => [] end
      /\ x = inl p /\ s' !! q = Some (CObject (exotic_cell r (Some p)))) as Hview.
  { intros id. rewrite !app_comm_cons, !elem_of_app. intros [Hx|Hx].
    - destruct (Hex' _ Hx) as [?|(q & r & p & ? & ? & ?)]; [by auto|].
      right. exists q, r, p. rewrite elem_of_app. auto.
    - left. right. destruct (s !! id) as [c|] eqn:H; [|by set_solver]. destruct c; try by set_solver.
      by rewrite (evolve_same _ _ _ _ E H). }
  destruct v; simpl; auto.
Qed.

Lemma reached_evolve s s' roots x : evolve s s' -> store_typed s -> reached s roots x -> reached s' roots x.
Proof.
  intros E T. induction 1 as [x|v x _ IH Hx|id c x _ IH H Hx|id o l key v _ IH1 H Hw Hl _ IH2].
  - by constructor.
  - destruct (value_next_evolve s s' v x E Hx) as [?|(q & r & p & Hq & -> & Hs)].
    + by eapply reached_value.
    + eapply reached_cell; [by eapply reached_value|exact Hs|]. simpl. set_solver.
  - destruct (ev_kept _ _ E _ _ H) as [H'|(d & q & r & -> & _)]; [|by set_solver].
    eapply reached_cell; [done|exact H'|]. rewrite (cell_next_evolve s s'); [done|done|apply (T _ _ H)].
  - eapply (reached_entry s' roots id o l key v); [done| |done..].
    by apply (evolve_same s s' id (CObject o) E H).
Qed.

(** ** Potential *)

Definition is_pending (c : Cell) : bool :=
  match c with CDate d => bool_decide (date_properties d = None) | _ => false end.

(** Dates that have no property cell yet. *)
Definition pending (s : gmap Id Cell) : gmap Id Cell := filter (fun x => is_pending x.2 = true) s.

(** How many identities can still be marked. *)
Definition pot (st : St) : nat :=
  size (store (heap st)) + size (pending (store (heap st))) - size (marked (marker st)).

Lemma pending_size s : size (pending s) <= size s.
Proof. apply map_size_filter. Qed.

Lemma pending_insert s id c : s !! id = None -> is_pending c = false -> pending (<[id := c]> s) = pending s.
Proof.
  intros H Hc. unfold pending. rewrite map_filter_insert_False; [|simpl; congruence].
  by rewrite delete_id.
Qed.

Lemma pending_settle s id c c' : s !! id = Some c -> is_pending c = true -> is_pending c' = false ->
  size (pending s) = S (size (pending (<[id := c']> s))).
Proof.
  intros H Hc Hc'. unfold pending. rewrite map_filter_insert_False by (simpl; congruence).
  rewrite map_filter_delete.
  assert (filter (fun x => is_pending x.2 = true) s !! id = Some c) as E by by apply map_lookup_filter_Some.
  rewrite <- (insert_delete_id _ _ _ E) at 1. by rewrite map_size_insert_None by apply lookup_delete_eq.
Qed.

(** ** Steps of the marker *)

Definition leaf_tag (t : Tag) : bool :=
  match t with
  | TStringIterator | TDate | TRegExp | TView | TBuffer | TOpaque => true
  | _ => false
  end.

(** A cell that is done when it is marked: it is never queued. *)
Definition leaf (s : gmap Id Cell) (id : Id) : Prop := exists c, s !! id = Some c /\ leaf_tag (tag_of c) = true.

Record adv (st st' : St) : Prop := {
  adv_evolve : evolve (store (heap st)) (store (heap st'));
  adv_marked : marked (marker st) ⊆ marked (marker st');
  adv_work : work (marker st) `suffix_of` work (marker st');
  adv_newly : newly_marked (marker st) `suffix_of` newly_marked (marker st');
  adv_fresh : forall id, id ∈ marked (marker st') -> id ∈ marked (marker st)
    \/ (id ∈ newly_marked (marker st')
        /\ (id ∈ work (marker st') \/ leaf (store (heap st')) id));
  adv_borrowed : borrowed (marker st) = true -> borrowed (marker st') = true;
  adv_weak : weak_cells (marker st) `prefix_of` weak_cells (marker st');
  adv_interps : interps (inner (heap st')) = interps (inner (heap st));
  adv_pins : pins (inner (heap st')) = pins (inner (heap st));
  adv_external : external (heap st') = external (heap st);
  adv_locked : locked (heap st') = locked (heap st);
  adv_pot_work : length (work (marker st')) + pot st' <= length (work (marker st)) + pot st;
  adv_pot_newly : length (newly_marked (marker st')) + pot st' <= length (newly_marked (marker st)) + pot st;
}.

Lemma leaf_evolve s s' id : evolve s s' -> leaf s id -> leaf s' id.
Proof.
  intros E (c & H & L). destruct (ev_kept _ _ E _ _ H) as [?|(d & q & r & -> & _ & ? & _)]; eexists; eauto.
Qed.

Lemma suffix_elem {A} (l1 l2 : list A) x : l1 `suffix_of` l2 -> x ∈ l1 -> x ∈ l2.
Proof. intros [k ->]. set_solver. Qed.

Lemma adv_refl st : adv st st.
Proof. split; auto using evolve_refl. Qed.
#[export] Hint Resolve adv_refl : collect.

Lemma adv_trans st1 st2 st3 : adv st1 st2 -> adv st2 st3 -> adv st1 st3.
Proof.
  intros A B. split; try by (etrans; [eapply adv_marked|eapply adv_marked]; eauto).
  - eapply evolve_trans; eapply adv_evolve; eauto.
  - etrans; eapply adv_work; eauto.
  - etrans; eapply adv_newly; eauto.
  - intros id H. destruct (adv_fresh _ _ B _ H) as [H2|?]; [|by auto].
    destruct (adv_fresh _ _ A _ H2) as [?|[Hn Hw]]; [by auto|]. right.
    split; [eapply suffix_elem; [eapply adv_newly|]; eauto|].
    destruct Hw as [Hw|Hw]; [left; eapply suffix_elem; [eapply adv_work|]; eauto|].
    right. eapply leaf_evolve; [eapply adv_evolve|]; eauto.
  - intros H. by apply (adv_borrowed _ _ B), (adv_borrowed _ _ A).
  - etrans; eapply adv_weak; eauto.
  - rewrite (adv_interps _ _ B). apply (adv_interps _ _ A).
  - rewrite (adv_pins _ _ B). apply (adv_pins _ _ A).
  - rewrite (adv_external _ _ B). apply (adv_external _ _ A).
  - rewrite (adv_locked _ _ B). apply (adv_locked _ _ A).
  - pose proof (adv_pot_work _ _ A). pose proof (adv_pot_work _ _ B). lia.
  - pose proof (adv_pot_newly _ _ A). pose proof (adv_pot_newly _ _ B). lia.
Qed.

Section Marker.
Context (roots : list (Value + Id)).

(** Marked cells exist and are reachable; the worklist and the list of new marks
    hold marked cells. *)
Record inv (st : St) : Prop := {
  inv_typed : heap_typed (heap st);
  inv_some : forall id, id ∈ marked (marker st) -> is_Some (store (heap st) !! id);
  inv_work : forall id, id ∈ work (marker st) -> id ∈ marked (marker st);
  inv_newly : forall id, id ∈ newly_marked (marker st) -> id ∈ marked (marker st);
  inv_sound : forall id, id ∈ marked (marker st) -> reached (store (heap st)) roots (inr id);
  inv_weak : forall id, id ∈ weak_cells (marker st) -> id ∈ marked (marker st);
}.

(** A marking computation from [st]: it ends in a state of [P], or panics because
    the thread's heap is borrowed. *)
Definition goes (st : St) (r : outcome unit St) (P : St -> Prop) : Prop :=
  match r with
  | Ok st' => inv st' /\ adv st st' /\ P st'
  | Err _ => False
  | Panic => locked (heap st) = true
  end.

Lemma goes_mono st r (P Q : St -> Prop) : goes st r P -> (forall st', adv st st' -> P st' -> Q st') -> goes st r Q.
Proof. destruct r; simpl; naive_solver. Qed.

Lemma goes_bind st r k (P Q : St -> Prop) : goes st r P ->
  (forall st', inv st' -> adv st st' -> P st' -> goes st' (k st') Q) -> goes st (obind r k) Q.
Proof.
  destruct r as [st'| |]; simpl; try done. intros (I & A & HP) H. specialize (H st' I A HP).
  destruct (k st') as [st''| |]; simpl in *; [|done|by rewrite <- (adv_locked _ _ A)].
  destruct H as (I' & A' & HQ). split_and!; [done|by eapply adv_trans|done].
Qed.

Lemma goes_ok st (P : St -> Prop) : inv st -> P st -> goes st (Ok st) P.
Proof. intros. simpl. split_and!; [done|apply adv_refl|done]. Qed.

(** A marking computation that starts after [st0] continues it. *)
Lemma goes_adv st0 st r P : adv st0 st -> goes st r P -> goes st0 r P.
Proof.
  intros A. destruct r as [st'| |]; simpl; [|done|by rewrite (adv_locked _ _ A)].
  intros (I & A' & H). split_and!; [done|by eapply adv_trans|done].
Qed.

Lemma marked_size st : inv st -> size (marked (marker st)) <= size (store (heap st)).
Proof.
  intros I. rewrite <- size_dom. apply subseteq_size. intros id H. apply elem_of_dom. by apply (inv_some st).
Qed.

Lemma pot_mark st id : inv st -> id ∉ marked (marker st) -> is_Some (store (heap st) !! id) ->
  size (marked (marker st)) < size (store (heap st)).
Proof.
  intros I Hn Hs. rewrite <- (size_dom (D := gset positive)).
  assert (size ({[id]} ∪ marked (marker st)) <= size (dom (D := gset positive) (store (heap st)))) as H.
  { apply subseteq_size. intros j. rewrite elem_of_union, elem_of_singleton, elem_of_dom.
    intros [->|Hj]; [done|by apply (inv_some st)]. }
  rewrite size_union, size_singleton in H by set_solver. lia.
Qed.

(** [mark] alone: for leaves. *)
Lemma mark_goes st id : inv st -> reached (store (heap st)) roots (inr id) -> leaf (store (heap st)) id ->
  goes st (Ok (mark id st).2) (fun st' => id ∈ marked (marker st')).
Proof.
  intros I Hr Hl. unfold mark. case_bool_decide as Hm; simpl; [by split_and!; auto using adv_refl|].
  pose proof Hl as (c & Hs & _). assert (is_Some (store (heap st) !! id)) as Hs' by eauto.
  pose proof (pot_mark st id I Hm Hs') as Hp. destruct I as [I1 I2 I3 I4 I5 I6].
  split_and!; [split; simpl; try done; set_solver| |set_solver].
  split; simpl; try done; [apply evolve_refl|apply union_subseteq_r|by apply suffix_cons_r|..].
  - intros i [->%elem_of_singleton|?]%elem_of_union; [right; split; [by left|by right]|by left].
  - unfold pot. simpl. rewrite size_union, size_singleton by set_solver. lia.
  - unfold pot. simpl. rewrite size_union, size_singleton by set_solver. lia.
Qed.

Lemma mark_item_goes st id : inv st -> reached (store (heap st)) roots (inr id) ->
  is_Some (store (heap st) !! id) ->
  goes st (Ok (mark_item id st)) (fun st' => id ∈ marked (marker st')).
Proof.
  intros I Hr Hs. unfold mark_item, mark. case_bool_decide as Hm; simpl; [by split_and!; auto using adv_refl|].
  pose proof (pot_mark st id I Hm Hs) as Hp. destruct I as [I1 I2 I3 I4 I5 I6].
  split_and!; [split; simpl; try done; set_solver| |set_solver].
  split; simpl; try done; [apply evolve_refl|apply union_subseteq_r|by apply suffix_cons_r|by apply suffix_cons_r|..].
  - intros i [->%elem_of_singleton|?]%elem_of_union; [right; split; [by left|left; by left]|by left].
  - unfold pot. simpl. rewrite size_union, size_singleton by set_solver. lia.
  - unfold pot. simpl. rewrite size_union, size_singleton by set_solver. lia.
Qed.

(** ** The property cell of a date *)

Lemma entries_with k l i k' : entries k' (with_entries k l i) = if decide (k = k') then l else entries k' i.
Proof. by destruct k, k'. Qed.

Lemma retain_live_entries h i k :
  entries k (retain_live h i) = base.filter (fun id => is_Some (store h !! id)) (entries k i).
Proof. by destruct k. Qed.

Lemma record_allocation_same h : store (record_allocation h) = store h
  /\ external (record_allocation h) = external h /\ next_address (record_allocation h) = next_address h
  /\ locked (record_allocation h) = locked h
  /\ interps (inner (record_allocation h)) = interps (inner h)
  /\ pins (inner (record_allocation h)) = pins (inner h)
  /\ forall k id, id ∈ entries k (inner (record_allocation h)) -> id ∈ entries k (inner h).
Proof.
  unfold record_allocation. case_match; simpl; split_and!; try done; intros k id.
  assert (forall a b c i, entries k (with_debts a b c i) = entries k i) as E by by destruct k.
  rewrite E, retain_live_entries, E. by intros [_ ?]%list_elem_of_filter.
Qed.

Lemma registry_refs_eq i i' : interps i = interps i' -> pins i = pins i' -> registry_refs i = registry_refs i'.
Proof. unfold registry_refs. by intros -> ->. Qed.

(** The state after the date at [id] has got its cell at [q]. *)
Record given (h h' : Heap) (id : Id) (d : DateData) (q : Id) : Prop := {
  gv_old : store h !! id = Some (CDate d);
  gv_none : date_properties d = None;
  gv_q : q = next_address h;
  gv_store : exists r, store h' = <[id := CDate (with_cell d q)]>
    (<[q := CObject (exotic_cell r (date_prototype d))]> (store h))
    /\ (forall realm, r = Some realm -> date_realm d = Some realm /\ is_Some (store h !! realm));
  gv_interps : interps (inner h') = interps (inner h);
  gv_pins : pins (inner h') = pins (inner h);
  gv_external : external h' = external h;
  gv_locked : locked h' = locked h;
  gv_next : next_address h' = Pos.succ q;
  gv_entries : forall k j, j ∈ entries k (inner h') -> j ∈ entries k (inner h) \/ (k = KObjects /\ j = q);
}.

Lemma materialize_given h id d : store h !! id = Some (CDate d) -> date_properties d = None ->
  match materialize id d h with
  | Some (q, h') => given h h' id d q
  | None => locked h = true
  end.
Proof.
  intros Hs Hn. unfold materialize. rewrite Hn. unfold tracked, track. simpl.
  destruct (locked h) eqn:Hl; [done|].
  match goal with |- context [record_allocation ?x] => pose proof (record_allocation_same x) as R end.
  destruct R as (R1 & R2 & R3 & R4 & R5 & R6 & R7). simpl in *.
  split; simpl; try done; try congruence.
  - rewrite R1. eexists. split; [reflexivity|]. intros realm. destruct (date_realm d) as [r|]; [|done].
    unfold alive. case_bool_decide; naive_solver.
  - intros k j Hj%R7. rewrite entries_with in Hj. case_decide as E; [subst k|by left].
    apply elem_of_app in Hj as [?| ->%list_elem_of_singleton]; auto.
Qed.

Section Given.
Context (h h' : Heap) (id : Id) (d : DateData) (q : Id).
Context (T : heap_typed h) (G : given h h' id d q).

Lemma given_fresh : store h !! q = None /\ q <> id.
Proof.
  destruct G as [Ho _ -> _ _ _ _ _ _ _]. assert (store h !! next_address h = None) as E.
  { apply (ht_next h T). lia. }
  split; [done|]. intros E'. congruence.
Qed.

Lemma given_evolve : evolve (store h) (store h').
Proof.
  destruct given_fresh as [Hf Hne]. destruct G as [Ho Hn _ (r & Es & _) _ _ _ _ _ _]. rewrite Es. split.
  - intros j c Hj. destruct (decide (j = id)) as [->|Nj].
    + right. exists d, q, r. replace c with (CDate d) by congruence. split_and!; try done.
      * by rewrite lookup_insert_eq.
      * rewrite lookup_insert_ne by done. by rewrite lookup_insert_eq.
    + left. rewrite !lookup_insert_ne; [done| |done]. congruence.
  - intros j c. destruct (decide (j = id)) as [->|Nj]; [rewrite lookup_insert_eq; naive_solver|].
    rewrite lookup_insert_ne by done.
    destruct (decide (j = q)) as [->|Nq]; [|rewrite lookup_insert_ne by done; auto].
    rewrite lookup_insert_eq. intros [= <-]. right. right. exists r, (date_prototype d), id, (with_cell d q).
    by rewrite lookup_insert_eq.
  - intros j d'. destruct (decide (j = id)) as [->|Nj]; [eauto|]. rewrite lookup_insert_ne by done.
    destruct (decide (j = q)) as [->|Nq]; [by rewrite lookup_insert_eq|]. rewrite lookup_insert_ne by done. eauto.
Qed.

Lemma given_typed : heap_typed h'.
Proof.
  destruct given_fresh as [Hf Hne]. pose proof given_evolve as E.
  destruct G as [Ho Hn Hq (r & Es & Hr) Gi Gp Ge Gl Gx Gk]. destruct T as [T1 T2 T3 T4 T5 T6].
  destruct (T1 _ _ Ho) as [Td Tw]. split.
  - intros j c Hj.
    assert (forall c0, store h !! j = Some c0 -> c = c0 -> all_typed (store h') (cell_refs c)
      /\ weak_typed (store h') c) as Hold.
    { intros c0 H0 ->. destruct (T1 _ _ H0) as [A B]. split; [by eapply evolve_all_typed|].
      destruct c0; simpl in *; try done. destruct (date_realm d0) as [realm|] eqn:Er; [|done].
      intros Hs. eapply evolve_typed; [exact E|]. apply B.
      assert (realm <> q) by (pose proof (T5 _ _ _ H0 Er); subst q; lia).
      rewrite Es in Hs. destruct (decide (realm = id)) as [->|]; [by eexists|].
      by rewrite !lookup_insert_ne in Hs. }
    rewrite Es in Hj. destruct (decide (j = id)) as [->|Nj].
    { rewrite lookup_insert_eq in Hj. injection Hj as <-. simpl. split.
      - intros x. simpl. intros [->|Hx]%elem_of_cons; [|set_solver]. unfold typed. simpl. rewrite Es.
        rewrite lookup_insert_ne by done. by rewrite lookup_insert_eq.
      - simpl in Tw. destruct (date_realm d) as [realm|] eqn:Er; [|done]. intros Hs.
        eapply evolve_typed; [exact E|]. apply Tw.
        assert (realm <> q) by (pose proof (T5 _ _ _ Ho Er); subst q; lia).
        rewrite Es in Hs. destruct (decide (realm = id)) as [->|]; [by eexists|].
        by rewrite !lookup_insert_ne in Hs. }
    rewrite lookup_insert_ne in Hj by done. destruct (decide (j = q)) as [->|Nq].
    { rewrite lookup_insert_eq in Hj. injection Hj as <-. split; [|done].
      intros x. simpl. unfold meta_values. simpl. rewrite !app_nil_r.
      intros Hx. eapply evolve_typed; [exact E|]. simpl in Td.
      apply elem_of_values_refs in Hx as (v & Hv & Hx). apply elem_of_app in Hv as [Hv|Hv].
      - apply Td. apply elem_of_app. right. apply elem_of_values_refs. eauto.
      - destruct r as [realm|]; [|set_solver]. destruct (Hr realm eq_refl) as [Er Hs].
        apply list_elem_of_fmap in Hv as (y & -> & Hy). simpl in Hy, Hx.
        apply list_elem_of_singleton in Hy as ->. apply list_elem_of_singleton in Hx as ->.
        simpl in Tw. rewrite Er in Tw. by apply Tw. }
    rewrite lookup_insert_ne in Hj by done. by eapply Hold.
  - rewrite Ge. by eapply evolve_all_typed.
  - rewrite (registry_refs_eq _ (inner h)) by done. by eapply evolve_all_typed.
  - intros j Hj. rewrite Es, Gx in *. rewrite !lookup_insert_ne; [apply T4; lia|lia|].
    intros ->. pose proof (T4 j ltac:(lia)). congruence.
  - intros j d0 realm Hj Er. rewrite Gx. rewrite Es in Hj. destruct (decide (j = id)) as [->|Nj].
    { rewrite lookup_insert_eq in Hj. injection Hj as <-. simpl in Er. pose proof (T5 _ _ _ Ho Er). lia. }
    rewrite lookup_insert_ne in Hj by done. destruct (decide (j = q)) as [->|Nq].
    { by rewrite lookup_insert_eq in Hj. }
    rewrite lookup_insert_ne in Hj by done. pose proof (T5 _ _ _ Hj Er). lia.
  - intros k j [Hj|[-> ->]]%Gk.
    + destruct (T6 _ _ Hj) as [Hlt Ht]. split; [lia|]. intros c Hc. rewrite Es in Hc.
      destruct (decide (j = id)) as [->|Nj]; [rewrite lookup_insert_eq in Hc; injection Hc as <-; by rewrite <- (Ht _ Ho)|].
      rewrite !lookup_insert_ne in Hc by (done || lia). by apply Ht.
    + split; [lia|]. intros c. rewrite Es. rewrite lookup_insert_ne by done. rewrite lookup_insert_eq.
      by intros [= <-].
Qed.

End Given.

Lemma given_goes st h' id d q : inv st -> given (heap st) h' id d q ->
  inv (set_heap h' st) /\ adv st (set_heap h' st).
Proof.
  intros I G. pose proof (given_typed _ _ _ _ _ (inv_typed _ I) G) as T'.
  pose proof (given_evolve _ _ _ _ _ (inv_typed _ I) G) as E.
  destruct (given_fresh _ _ _ _ _ (inv_typed _ I) G) as [Hf Hne].
  assert (pot (set_heap h' st) = pot st) as Hpot.
  { destruct G as [Ho Hn _ (r & Es & _) _ _ _ _ _ _]. unfold pot. simpl. rewrite Es.
    set (s1 := <[q := CObject _]> (store (heap st))).
    assert (s1 !! id = Some (CDate d)) as H1 by (unfold s1; by rewrite lookup_insert_ne).
    rewrite map_size_insert_Some by (rewrite H1; by eexists).
    assert (size (pending s1) = S (size (pending (<[id := CDate (with_cell d q)]> s1)))) as Hp.
    { eapply pending_settle; [exact H1| |done]. simpl. by rewrite Hn. }
    unfold s1 in Hp at 1. rewrite pending_insert in Hp by done.
    unfold s1 at 1. rewrite map_size_insert_None by done. lia. }
  split.
  - destruct I as [I1 I2 I3 I4 I5 I6]. split; simpl; try done.
    + intros j Hj. eapply evolve_some; eauto.
    + intros j Hj. eapply reached_evolve; [exact E|apply (ht_store _ I1)|by apply I5].
  - destruct G. split; simpl; auto with collect; lia.
Qed.

(** ** Values *)

(** The value whose property cell [exotic_properties] looks up in the store. *)
Definition exotic_id (v : Value) : option Id :=
  match v with
  | Generator id | StringIterator id | Date id | RegExp id | TypedArray id | DataView id
  | ArrayBuffer id | SharedArrayBuffer id | Promise id => Some id
  | _ => None
  end.

Definition exotic_done (s : gmap Id Cell) (m : gset Id) (id : Id) : Prop :=
  match s !! id with
  | Some (CGenerator g) => try_borrow (b_generator g) = true -> g_properties g ∈ m
  | Some (CPromise p) => try_borrow (b_promise p) = true -> pr_properties p ∈ m
  | Some (CStringIterator properties b) => try_borrow b = true -> properties ∈ m
  | Some (CRegExp properties) | Some (CBuffer properties) | Some (CView properties _ _) =>
      properties ∈ m
  | Some (CDate d) => exists properties, date_properties d = Some properties /\ properties ∈ m
  | _ => True
  end.

Definition view_done (s : gmap Id Cell) (m : gset Id) (id : Id) : Prop :=
  match s !! id with
  | Some (CView _ buffer _) => buffer ∈ m /\ exotic_done s m buffer
  | _ => True
  end.

(** Everything a value gives access to has been marked. *)
Fixpoint value_done (s : gmap Id Cell) (m : gset Id) (v : Value) : Prop :=
  match v with
  | Plain | HostPending _ => True
  | Class constructor prototype statics =>
      value_done s m constructor /\ value_done s m prototype /\ statics ∈ m
  | Error identity properties => identity ∈ m /\ properties ∈ m
  | TypedArray id | DataView id => id ∈ m /\ exotic_done s m id /\ view_done s m id
  | Promise id | Generator id | StringIterator id | Date id | RegExp id | ArrayBuffer id
  | SharedArrayBuffer id => id ∈ m /\ exotic_done s m id
  | Object id | Array id | Function id | NativeFunction id | HostFunction id | RealmGlobal id
  | Symbol id | Proxy id | AsyncTask id | Binding id => id ∈ m
  end.

Lemma exotic_done_mono s s' m m' id : evolve s s' -> m ⊆ m' -> is_Some (s !! id) ->
  exotic_done s m id -> exotic_done s' m' id.
Proof.
  intros E Hm [c H]. unfold exotic_done. rewrite H.
  destruct (ev_kept _ _ E _ _ H) as [->|(d & q & r & -> & Hn & _)]; [|by intros (? & ? & _); congruence].
  destruct c; naive_solver.
Qed.

Lemma typed_head s id t l : all_typed s ((id, t) :: l) -> exists c, s !! id = Some c /\ tag_of c = t.
Proof. intros H. apply typed_some, H. by left. Qed.

Lemma view_done_mono s s' m m' id : evolve s s' -> m ⊆ m' -> store_typed s -> typed s (id, TView) ->
  view_done s m id -> view_done s' m' id.
Proof.
  intros E Hm T (c & Hc & Ht)%typed_some. unfold view_done. rewrite Hc, (evolve_same _ _ _ _ E Hc) by congruence.
  destruct c; try done. intros [Hb Hx]. split; [set_solver|]. eapply exotic_done_mono; eauto.
  destruct (T _ _ Hc) as [Tr _]. simpl in Tr. destruct (typed_some s buffer TBuffer) as (cb & ? & _); [|by eexists].
  apply Tr. set_solver.
Qed.

Lemma value_done_mono s s' m m' v : evolve s s' -> m ⊆ m' -> store_typed s -> all_typed s (value_refs v) ->
  value_done s m v -> value_done s' m' v.
Proof.
  intros E Hm T. induction v as [| | | | | | |c IHc p IHp st| | | | | | | | | | | | | | |]; cbn [value_done value_refs]; intros Ht; try done; try (by apply Hm).
  all: try (destruct (typed_head _ _ _ _ Ht) as (x & Hx & _)).
  all: try (intros [Hd He]; split; [by apply Hm|]; eapply exotic_done_mono; eauto; fail).
  all: try (intros (Hd & He & Hv); split_and!; [by apply Hm|eapply exotic_done_mono; eauto|];
    eapply view_done_mono; eauto; apply Ht; by left).
  - rewrite !all_typed_app in Ht. destruct Ht as (? & ? & ?). intros (? & ? & ?). split_and!; auto.
  - intros [? ?]. split; by apply Hm.
Qed.

Lemma exotic_next_value s v id x : exotic_id v = Some id -> x ∈ exotic_next s id -> x ∈ value_next s v.
Proof. destruct v; simpl; intros [= <-] Hx; right; rewrite ?elem_of_app; auto. Qed.

Lemma exotic_typed s v id : exotic_id v = Some id -> all_typed s (value_refs v) -> is_Some (s !! id).
Proof. destruct v; simpl; intros [= <-] Ht; destruct (typed_head _ _ _ _ Ht) as (c & -> & _); eauto. Qed.

Lemma cell_ref_some s id c q t : store_typed s -> s !! id = Some c -> (q, t) ∈ cell_refs c -> is_Some (s !! q).
Proof. intros T H Hq. destruct (T _ _ H) as [Tr _]. apply Tr, typed_some in Hq as (? & -> & _). eauto. Qed.

(** The property cell found for [id] is marked. *)
Lemma exotic_mark_goes st v id c q : inv st -> reached (store (heap st)) roots (inl v) ->
  exotic_id v = Some id -> store (heap st) !! id = Some c -> inr q ∈ exotic_next (store (heap st)) id ->
  (q, TObject) ∈ cell_refs c ->
  (forall m, q ∈ m -> exotic_done (store (heap st)) m id) ->
  goes st (Ok (mark_item q st))
    (fun st' => exotic_done (store (heap st')) (marked (marker st')) id).
Proof.
  intros I Hr Hv Hc Hn Hq Hd. eapply goes_mono; [apply (mark_item_goes st q I)|].
  - eapply reached_value; [exact Hr|]. by eapply exotic_next_value.
  - eapply cell_ref_some; [apply (ht_store _ (inv_typed _ I))|exact Hc|exact Hq].
  - intros st' A Hm. eapply exotic_done_mono; [apply (adv_evolve _ _ A)|reflexivity|by eexists|by apply Hd].
Qed.

Definition properties_done (v : Value) (st : St) : Prop :=
  match v with
  | Error _ properties => properties ∈ marked (marker st)
  | _ => forall id, exotic_id v = Some id -> exotic_done (store (heap st)) (marked (marker st)) id
  end.

Lemma exotic_properties_id v id st : exotic_id v = Some id -> exotic_properties v st =
  match cell_at st id with
  | Some (CGenerator g) =>
      Ok (if try_borrow (b_generator g) then Some (g_properties g) else None, st)
  | Some (CStringIterator properties b) => Ok (if try_borrow b then Some properties else None, st)
  | Some (CPromise p) => Ok (if try_borrow (b_promise p) then Some (pr_properties p) else None, st)
  | Some (CRegExp properties) | Some (CBuffer properties) | Some (CView properties _ _) =>
      Ok (Some properties, st)
  | Some (CDate d) =>
      match materialize id d (heap st) with
      | Some (properties, h) => Ok (Some properties, set_heap h st)
      | None => Panic
      end
  | _ => Ok (None, st)
  end.
Proof. by destruct v; intros [= <-]. Qed.

(** A property cell that is marked if the borrow succeeds. *)
Lemma found_goes st v id c b q : inv st -> reached (store (heap st)) roots (inl v) ->
  exotic_id v = Some id -> store (heap st) !! id = Some c ->
  (forall m, (b = true -> q ∈ m) -> exotic_done (store (heap st)) m id) ->
  inr q ∈ exotic_next (store (heap st)) id -> (q, TObject) ∈ cell_refs c ->
  goes st (Ok (match (if b : bool then Some q else None) with Some p => mark_item p st | None => st end))
    (fun st' => exotic_done (store (heap st')) (marked (marker st')) id).
Proof.
  intros I Hr Hv Hc Hd Hn Hq. destruct b.
  - eapply exotic_mark_goes; eauto.
  - apply goes_ok; [done|]. by apply Hd.
Qed.

(** The property cell of a date, created when it is not there. *)
Lemma date_goes st v id d : inv st -> reached (store (heap st)) roots (inl v) ->
  exotic_id v = Some id -> store (heap st) !! id = Some (CDate d) ->
  goes st (let* r := match materialize id d (heap st) with
                     | Some (properties, h) => Ok (Some properties, set_heap h st)
                     | None => Panic
                     end in
           Ok (match r.1 with Some properties => mark_item properties r.2 | None => r.2 end))%rust
    (fun st' => exotic_done (store (heap st')) (marked (marker st')) id).
Proof.
  intros I Hr Hv Hc. destruct (date_properties d) as [q|] eqn:Eq.
  - unfold materialize. rewrite Eq. cbn [obind fst snd].
    replace (set_heap (heap st) st) with st by by destruct st.
    eapply exotic_mark_goes; eauto.
    + unfold exotic_next. rewrite Hc, Eq. by left.
    + simpl. rewrite Eq. by left.
    + intros m Hm. unfold exotic_done. rewrite Hc. eauto.
  - pose proof (materialize_given (heap st) id d Hc Eq) as G.
    destruct (materialize id d (heap st)) as [[q h']|]; cbn [obind fst snd]; [|exact G].
    destruct (given_goes st h' id d q I G) as [I' A']. apply (goes_adv _ _ _ _ A').
    assert (store h' !! id = Some (CDate (with_cell d q))) as Hc'.
    { destruct (gv_store _ _ _ _ _ G) as (r & -> & _). by rewrite lookup_insert_eq. }
    eapply (exotic_mark_goes _ v id); [exact I'| |exact Hv|exact Hc'| | |].
    + eapply reached_evolve; [apply (adv_evolve _ _ A')|apply (ht_store _ (inv_typed _ I))|done].
    + unfold exotic_next. simpl. rewrite Hc'. by left.
    + by left.
    + intros m Hm. unfold exotic_done. simpl. rewrite Hc'. simpl. eauto.
Qed.

(** What [mark_properties] does for a value with a cell of its own. *)
Lemma exotic_goes st v id : inv st -> reached (store (heap st)) roots (inl v) ->
  exotic_id v = Some id -> all_typed (store (heap st)) (value_refs v) ->
  goes st (mark_properties v st) (fun st' => exotic_done (store (heap st')) (marked (marker st')) id).
Proof.
  intros I Hr Hv Ht. destruct (exotic_typed _ _ _ Hv Ht) as [c Hc].
  unfold mark_properties. rewrite (exotic_properties_id v id st Hv). unfold cell_at. rewrite Hc.
  destruct c; try (by eapply date_goes); cbn [obind fst snd];
    try (apply goes_ok; [done|]; unfold exotic_done; by rewrite Hc).
  4-6: eapply (found_goes st v id _ true).
  1-3: eapply (found_goes st v id).
  all: eauto; try (unfold exotic_next; rewrite Hc; by left); try by left.
  all: intros m Hm; unfold exotic_done; rewrite Hc; auto.
Qed.

Lemma mark_properties_goes st v : inv st -> reached (store (heap st)) roots (inl v) ->
  all_typed (store (heap st)) (value_refs v) -> goes st (mark_properties v st) (properties_done v).
Proof.
  intros I Hr Ht. destruct (exotic_id v) as [id|] eqn:Hv.
  - eapply goes_mono; [by apply (exotic_goes st v id)|]. intros st' A Hd. simpl in Hd. unfold properties_done.
    destruct v; try done; rewrite Hv; by intros ? [= <-].
  - destruct v; try discriminate Hv; try (by apply goes_ok).
    unfold mark_properties. cbn [exotic_properties obind fst snd].
    apply mark_item_goes; [done| |].
    + eapply reached_value; [exact Hr|]. simpl. set_solver.
    + destruct (typed_some (store (heap st)) properties TObject) as (c & ? & _); [apply Ht; set_solver|eauto].
Qed.

(** ** Nodes *)

Definition done_in (st : St) (v : Value) : Prop := value_done (store (heap st)) (marked (marker st)) v.

Lemma done_in_adv st st' v : inv st -> all_typed (store (heap st)) (value_refs v) -> adv st st' ->
  done_in st v -> done_in st' v.
Proof.
  intros I Ht A. apply value_done_mono; [apply (adv_evolve _ _ A)|apply (adv_marked _ _ A)| |done].
  apply (ht_store _ (inv_typed _ I)).
Qed.

Lemma reached_adv st st' x : inv st -> adv st st' -> reached (store (heap st)) roots x ->
  reached (store (heap st')) roots x.
Proof. intros I A. apply reached_evolve; [apply (adv_evolve _ _ A)|apply (ht_store _ (inv_typed _ I))]. Qed.

Lemma typed_adv st st' l : adv st st' -> all_typed (store (heap st)) l -> all_typed (store (heap st')) l.
Proof. intros A. apply evolve_all_typed, (adv_evolve _ _ A). Qed.

(** A reference whose cell is a leaf. *)
Lemma typed_leaf s id t : typed s (id, t) -> leaf_tag t = true -> leaf s id.
Proof. intros (c & H & <-)%typed_some L. by exists c. Qed.

Lemma typed_is_some s id t : typed s (id, t) -> is_Some (s !! id).
Proof. intros (c & H & _)%typed_some. eauto. Qed.

Definition pre (st : St) (v : Value) : Prop :=
  reached (store (heap st)) roots (inl v) /\ all_typed (store (heap st)) (value_refs v).

Lemma pre_adv st st' v : inv st -> adv st st' -> pre st v -> pre st' v.
Proof. intros I A [Hr Ht]. split; [by apply (reached_adv st)|by apply (typed_adv st)]. Qed.

Lemma view_typed st id q b sh : inv st -> store (heap st) !! id = Some (CView q b sh) ->
  typed (store (heap st)) (b, TBuffer).
Proof.
  intros I H. destruct (ht_store _ (inv_typed _ I) _ _ H) as [T _]. apply T. simpl. set_solver.
Qed.

Lemma mark_view_goes st v id : inv st -> v = TypedArray id \/ v = DataView id -> pre st v ->
  goes st (mark_view id st)
    (fun st' => id ∈ marked (marker st') /\ view_done (store (heap st')) (marked (marker st')) id).
Proof.
  intros I Hv [Hr Ht]. assert (typed (store (heap st)) (id, TView)) as Hty.
  { apply Ht. destruct Hv as [-> | ->]; by left. }
  unfold mark_view.
  assert (goes st (Ok (mark id st).2) (fun st' => id ∈ marked (marker st'))) as G.
  { apply mark_goes; [done| |by eapply typed_leaf].
    eapply reached_value; [exact Hr|]. destruct Hv as [-> | ->]; simpl; by left. }
  destruct G as (I1 & A1 & M1). apply (goes_adv _ _ _ _ A1).
  set (st1 := (mark id st).2) in *.
  assert (typed (store (heap st1)) (id, TView)) as Hty1 by (eapply evolve_typed; [apply A1|done]).
  assert (reached (store (heap st1)) roots (inl v)) as Hr1 by exact (reached_adv st st1 _ I A1 Hr).
  apply typed_some in Hty1 as (c & Hc & Htag). unfold cell_at. rewrite Hc. destruct c; try discriminate Htag.
  pose proof (view_typed _ _ _ _ _ I1 Hc) as Hb.
  assert (pre st1 (buffer_value buffer shared)) as [Hr2 Ht2].
  { split.
    - eapply reached_value; [exact Hr1|]. destruct Hv as [-> | ->]; simpl; rewrite Hc; set_solver.
    - intros r Hrf. destruct shared; simpl in Hrf; apply list_elem_of_singleton in Hrf as ->; done. }
  eapply (goes_bind _ _ _ (fun st' => exotic_done (store (heap st')) (marked (marker st')) buffer)).
  { apply exotic_goes; [done|done|by destruct shared|done]. }
  intros st2 I2 A2 E2.
  assert (typed (store (heap st2)) (buffer, TBuffer)) as Hb2 by (eapply evolve_typed; [apply A2|done]).
  eapply goes_mono; [apply (mark_goes st2 buffer I2)|].
  - apply (reached_adv st1 st2 _ I1 A2). eapply reached_value; [exact Hr2|].
    destruct shared; simpl; by left.
  - by eapply typed_leaf.
  - intros st3 A3 M3. split; [by apply (adv_marked _ _ A3), (adv_marked _ _ A2)|].
    unfold view_done. rewrite (evolve_same _ _ id (CView properties buffer shared) (adv_evolve _ _ A3)); [|by apply (evolve_same _ _ _ _ (adv_evolve _ _ A2) Hc)|done].
    split; [done|]. eapply exotic_done_mono; [apply A3|apply A3|by eapply typed_is_some|exact E2].
Qed.

(** Updates of the marker that mark nothing. *)
Lemma same_goes st st' (P : St -> Prop) : inv st -> heap st' = heap st ->
  marked (marker st') = marked (marker st) -> work (marker st') = work (marker st) ->
  newly_marked (marker st') = newly_marked (marker st) ->
  (borrowed (marker st) = true -> borrowed (marker st') = true) ->
  weak_cells (marker st) `prefix_of` weak_cells (marker st') ->
  (forall id, id ∈ weak_cells (marker st') -> id ∈ weak_cells (marker st) \/ id ∈ marked (marker st)) ->
  P st' -> goes st (Ok st') P.
Proof.
  intros [I1 I2 I3 I4 I5 I6] Hh Hm Hw Hn Hb Hc Hk HP. split_and!; [| |done].
  - split; rewrite ?Hh, ?Hm, ?Hw, ?Hn; auto. intros id H%Hk. naive_solver.
  - split; rewrite ?Hh, ?Hm, ?Hw, ?Hn; auto using evolve_refl; unfold pot; rewrite Hh, Hm; lia.
Qed.

(** An exotic value is done once it is marked and its property cell was. *)
Lemma exotic_value_goes st r id : inv st -> is_Some (store (heap st) !! id) ->
  exotic_done (store (heap st)) (marked (marker st)) id ->
  goes st r (fun st' => id ∈ marked (marker st')) ->
  goes st r (fun st' => id ∈ marked (marker st')
    /\ exotic_done (store (heap st')) (marked (marker st')) id).
Proof.
  intros I Hs He G. eapply goes_mono; [exact G|]. intros st' A Hm. split; [done|].
  eapply exotic_done_mono; [apply A|apply A|done|done].
Qed.

Lemma mark_value_goes v : forall st, inv st -> pre st v -> goes st (mark_value v st) (fun st' => done_in st' v).
Proof.
  induction v as [| | | | | | |c IHc p IHp statics| | | | | | | | | |view|view| | | |]; intros st I Hp;
    cbn [mark_value];
    eapply (goes_bind _ _ _ _ _ (mark_properties_goes st _ I (proj1 Hp) (proj2 Hp)));
    intros st1 I1 A1 P1; pose proof (pre_adv _ _ _ I A1 Hp) as [Hr1 Ht1]; cbn [weak_identity];
    unfold done_in; cbn [value_done].
  all: try (apply exotic_value_goes; [done|eapply typed_is_some, Ht1; by left|by apply P1|]).
  all: try (by apply goes_ok).
  all: try (apply mark_item_goes; [done|eapply reached_value; [exact Hr1|by left]|];
            eapply typed_is_some, Ht1; by left).
  all: try (apply mark_goes; [done|eapply reached_value; [exact Hr1|by left]|];
            eapply typed_leaf; [apply Ht1; by left|done]).
  - simpl in Ht1. rewrite !all_typed_app in Ht1. destruct Ht1 as (Htc & Htp & Hts).
    eapply goes_bind; [apply IHc; [done|split; [eapply reached_value; [exact Hr1|set_solver]|done]]|].
    intros st2 I2 A2 D2.
    eapply goes_bind; [apply IHp; [done|]|].
    { apply (pre_adv st1 st2 _ I1 A2). split; [eapply reached_value; [exact Hr1|set_solver]|done]. }
    intros st3 I3 A3 D3. pose proof (adv_trans _ _ _ A2 A3) as A13.
    eapply goes_mono; [apply (mark_item_goes st3 statics I3)|].
    + apply (reached_adv st1 st3 _ I1 A13). eapply reached_value; [exact Hr1|set_solver].
    + eapply typed_is_some, (typed_adv st1 st3 _ A13 Hts). by left.
    + intros st4 A4 M4. split_and!; [| |done].
      * apply (done_in_adv st2 st4 c I2); [by apply (typed_adv st1)|by eapply adv_trans|done].
      * apply (done_in_adv st3 st4 p I3); [by apply (typed_adv st1)|done|done].
  - apply same_goes; auto.
  - eapply goes_mono; [by apply (mark_view_goes st1 (TypedArray view) view); auto; split|].
    intros st2 A2 [M2 V2]. split_and!; [done| |done].
    eapply exotic_done_mono; [apply A2|apply A2|eapply typed_is_some, Ht1; by left|by apply P1].
  - eapply goes_mono; [by apply (mark_view_goes st1 (DataView view) view); auto; split|].
    intros st2 A2 [M2 V2]. split_and!; [done| |done].
    eapply exotic_done_mono; [apply A2|apply A2|eapply typed_is_some, Ht1; by left|by apply P1].
  - eapply goes_mono; [apply (mark_goes st1 identity I1)|].
    + eapply reached_value; [exact Hr1|by left].
    + eapply typed_leaf; [apply Ht1; by left|done].
    + intros st2 A2 M2. split; [done|]. by apply (adv_marked _ _ A2).
Qed.

Lemma mark_values_goes l : forall st, inv st -> (forall v, v ∈ l -> pre st v) ->
  goes st (mark_values l st) (fun st' => forall v, v ∈ l -> done_in st' v).
Proof.
  induction l as [|v l IH]; intros st I Hp; cbn [mark_values].
  { apply goes_ok; [done|]. intros v. by rewrite elem_of_nil. }
  eapply goes_bind; [apply mark_value_goes; [done|apply Hp; by left]|]. intros st1 I1 A1 D1.
  eapply goes_mono; [apply IH; [done|]|].
  - intros w Hw. apply (pre_adv st); [done|done|]. apply Hp. by right.
  - intros st2 A2 D2 w [->|Hw]%elem_of_cons; [|auto]. apply (done_in_adv st1); try done.
    apply (typed_adv st); [done|]. apply Hp. by left.
Qed.

End Marker.
End CollectMark.
