(* ===== verification/CollectVisit.v ===== *)
(** * Tracing cells and draining the worklist

    What the tracer follows from a cell ([t_cell]), that a visit marks all of it or
    notes a borrow conflict, and that draining ends with every marked cell
    visited. *)
From stdpp Require Import prelude list strings gmap sets.
From Stdlib Require Import ZArith Lia.
From S2P Require Import Prelude Heap Collect CollectSpec CollectMark.
Import ListNotations Heap Collect CollectSpec CollectMark.

Module CollectVisit.

(** ** What is traced *)

Definition t_module (m : Module_) : list (Value + Id) := vals (module_values m) ++ cells (option_list (scope m)).

Definition t_modules (s : gmap Id Cell) (id : Id) : list (Value + Id) :=
  match s !! id with Some (CModules l _) => concat (map t_module l) | _ => [] end.

Definition t_realm (s : gmap Id Cell) (r : ModuleRealm) : list (Value + Id) :=
  t_modules s (modules r)
  ++ match s !! graph r with Some (CGraph g _) => vals (graph_values g) | _ => [] end
  ++ match s !! commonjs_cache r with Some (CCommonJs c _) => vals (cache_values c) | _ => [] end.

(** [cell_next] without deferred namespaces, suspended stacks and borrowed tasks. *)
Definition t_cell (s : gmap Id Cell) (c : Cell) : list (Value + Id) :=
  match c with
  | CEnv e =>
      from_option (t_realm s) [] (module_realm e) ++ vals (env_values e)
      ++ cells (option_list (parent e))
  | CGenerator g =>
      t_realm s (g_realm g) ++ queue_next s (g_jobs g)
      ++ vals (from_option state_values [] (async_state g))
      ++ cells (option_list (g_closure g)) ++ vals (args g ++ option_list (return_value g))
  | CAsyncTask t =>
      if try_borrow (b_task t) then inl (Promise (result t)) :: cells (option_list (owner t)) else []
  | c => cell_next s c
  end.

Lemma t_modules_next s id x : x ∈ t_modules s id -> x ∈ modules_next s id.
Proof.
  unfold t_modules, modules_next. destruct (s !! id) as [[]|]; try done.
  rewrite !elem_of_concat. intros (k & (md & -> & Hm)%list_elem_of_fmap & Hx). exists (module_next md).
  split; [apply list_elem_of_fmap; eauto|]. unfold t_module, module_next in *. set_solver.
Qed.

Lemma t_realm_next s r x : x ∈ t_realm s r -> x ∈ realm_next s r.
Proof.
  unfold t_realm, realm_next. rewrite !elem_of_app. intros [H|H]; [left; by apply t_modules_next|by right].
Qed.

Lemma t_cell_next s c x : x ∈ t_cell s c -> x ∈ cell_next s c.
Proof.
  destruct c; simpl; try done.
  - destruct (module_realm e) as [r|]; simpl; [|done]. rewrite !elem_of_app.
    intros [H|H]; [left; by apply t_realm_next|by right].
  - rewrite !elem_of_app. intros [H|H]; [left; by apply t_realm_next|naive_solver].
  - destruct (try_borrow _); set_solver.
Qed.

(** ** Typing of the nodes of a cell *)

Definition node_typed (s : gmap Id Cell) (x : Value + Id) : Prop :=
  match x with inl v => all_typed s (value_refs v) | inr id => is_Some (s !! id) end.
Definition nodes_typed (s : gmap Id Cell) (l : list (Value + Id)) : Prop := forall x, x ∈ l -> node_typed s x.

Lemma nodes_typed_app s l1 l2 : nodes_typed s (l1 ++ l2) <-> nodes_typed s l1 /\ nodes_typed s l2.
Proof. unfold nodes_typed. setoid_rewrite elem_of_app. naive_solver. Qed.

Lemma nodes_typed_vals s l : nodes_typed s (vals l) <-> all_typed s (values_refs l).
Proof.
  rewrite all_typed_values. unfold nodes_typed, vals. setoid_rewrite list_elem_of_fmap. naive_solver.
Qed.

Lemma nodes_typed_cells s t l : all_typed s (refs t l) -> nodes_typed s (cells l).
Proof.
  intros H x (id & -> & Hid)%list_elem_of_fmap. simpl. eapply typed_is_some, H, list_elem_of_fmap. eauto.
Qed.

Lemma nodes_typed_nil s : nodes_typed s [].
Proof. intros x. set_solver. Qed.

Lemma nodes_typed_cons s x l : nodes_typed s (x :: l) <-> node_typed s x /\ nodes_typed s l.
Proof. unfold nodes_typed. setoid_rewrite elem_of_cons. naive_solver. Qed.

Lemma values_refs_app l1 l2 : values_refs (l1 ++ l2) = values_refs l1 ++ values_refs l2.
Proof. unfold values_refs. by rewrite map_app, concat_app. Qed.

Lemma all_typed_concat {A} s (f : A -> list Ref) l :
  all_typed s (concat (map f l)) <-> forall x, x ∈ l -> all_typed s (f x).
Proof.
  unfold all_typed. setoid_rewrite elem_of_concat. setoid_rewrite list_elem_of_fmap. naive_solver.
Qed.

Lemma nodes_typed_concat {A} s (f : A -> list (Value + Id)) l :
  nodes_typed s (concat (map f l)) <-> forall x, x ∈ l -> nodes_typed s (f x).
Proof.
  unfold nodes_typed. setoid_rewrite elem_of_concat. setoid_rewrite list_elem_of_fmap. naive_solver.
Qed.

Section Typing.
Context (s : gmap Id Cell) (T : store_typed s).

Lemma modules_typed id : nodes_typed s (modules_next s id).
Proof.
  unfold modules_next. destruct (s !! id) as [[]|] eqn:H; try apply nodes_typed_nil.
  destruct (T _ _ H) as [Hr _]. simpl in Hr. rewrite all_typed_concat in Hr.
  apply nodes_typed_concat. intros x Hx. specialize (Hr x Hx). rewrite !all_typed_app in Hr.
  destruct Hr as (? & ? & ?). unfold module_next. rewrite !nodes_typed_app, !nodes_typed_vals.
  split_and!; [done|done|by eapply (nodes_typed_cells s TEnv)].
Qed.

Lemma realm_typed r : nodes_typed s (realm_next s r).
Proof.
  unfold realm_next. rewrite !nodes_typed_app. split_and!; [apply modules_typed| |].
  - destruct (s !! graph r) as [[]|] eqn:H; try apply nodes_typed_nil. apply nodes_typed_vals, (T _ _ H).
  - destruct (s !! commonjs_cache r) as [[]|] eqn:H; try apply nodes_typed_nil.
    apply nodes_typed_vals, (T _ _ H).
Qed.

Lemma queue_typed id : nodes_typed s (queue_next s id).
Proof.
  unfold queue_next. destruct (s !! id) as [[]|] eqn:H; try apply nodes_typed_nil.
  apply nodes_typed_vals, (T _ _ H).
Qed.

Lemma strong_values_refs w r : r ∈ values_refs (strong_values w) -> r ∈ weak_refs w.
Proof. destruct w; simpl; auto. by rewrite elem_of_nil. Qed.

Lemma object_typed id o : s !! id = Some (CObject o) -> all_typed s (values_refs (object_children o)).
Proof.
  intros H. destruct (T _ _ H) as [Hr _]. eapply all_typed_sub; [exact Hr|]. intros r. simpl.
  unfold object_children. rewrite !values_refs_app, !elem_of_app. pose proof (strong_values_refs (weak o) r).
  naive_solver.
Qed.

Lemma stack_typed (l : option (list Ref)) : all_typed s (default [] l) -> nodes_typed s (cells (map fst (default [] l))).
Proof.
  intros H x (id & -> & ([j t] & -> & Hj)%list_elem_of_fmap)%list_elem_of_fmap. simpl.
  by eapply typed_is_some, H.
Qed.

Lemma cell_nodes_typed id c : s !! id = Some c -> nodes_typed s (cell_next s c).
Proof.
  intros H. destruct (T _ _ H) as [Hr _].
  destruct c; simpl in *; rewrite ?all_typed_app in Hr; try apply nodes_typed_nil.
  - by eapply nodes_typed_vals, object_typed.
  - by apply nodes_typed_vals.
  - destruct Hr as (? & ? & ? & ?). rewrite !nodes_typed_app, nodes_typed_vals. split_and!; [|done|by eapply (nodes_typed_cells s TEnv)].
    destruct (module_realm e) as [r|]; [apply realm_typed|apply nodes_typed_nil].
  - apply nodes_typed_cons. rewrite nodes_typed_app, nodes_typed_vals. split_and!.
    + eapply typed_is_some, Hr. by left.
    + apply (nodes_typed_cells s TEnv). eapply all_typed_sub; [exact Hr|]. set_solver.
    + eapply all_typed_sub; [exact Hr|]. set_solver.
  - apply nodes_typed_cons. split; [eapply all_typed_sub; [exact Hr|]; simpl; set_solver|].
    apply nodes_typed_concat. intros r Hx.
    assert (all_typed s ((derived r, TPromise) :: values_refs (reaction_values r))) as Hrr.
    { eapply all_typed_sub; [exact Hr|]. intros y Hy. right. apply elem_of_app. right. apply elem_of_concat.
      eexists. split; [apply list_elem_of_fmap; by exists r|done]. }
    rewrite nodes_typed_app, nodes_typed_vals, nodes_typed_cons. split_and!; [|eapply typed_is_some, Hrr; by left|apply nodes_typed_nil].
    eapply all_typed_sub; [exact Hrr|]. set_solver.
  - rewrite !nodes_typed_app, !nodes_typed_vals. split_and!; [apply realm_typed|apply queue_typed|..].
    + eapply all_typed_sub; [exact Hr|]. set_solver.
    + apply (nodes_typed_cells s TEnv). eapply all_typed_sub; [exact Hr|]. set_solver.
    + eapply all_typed_sub; [exact Hr|]. set_solver.
    + apply stack_typed. eapply all_typed_sub; [exact Hr|]. set_solver.
  - by apply nodes_typed_vals.
  - apply nodes_typed_cons. split; [done|apply nodes_typed_nil].
  - apply nodes_typed_cons. rewrite nodes_typed_app. split_and!.
    + intros r. simpl. intros ->%list_elem_of_singleton. apply Hr. by left.
    + apply (nodes_typed_cells s TEnv). eapply all_typed_sub; [exact Hr|]. set_solver.
    + apply stack_typed. eapply all_typed_sub; [exact Hr|]. set_solver.
Qed.

End Typing.

(** ** Walking a list of nodes *)

Section Walk.
Context (roots : list (Value + Id)).

Definition node_done (st : St) (x : Value + Id) : Prop :=
  match x with inl v => done_in st v | inr id => id ∈ marked (marker st) end.

(** All of [l] has been marked, or a borrow conflict was noted. *)
Definition walked (l : list (Value + Id)) (st : St) : Prop :=
  borrowed (marker st) = true \/ forall x, x ∈ l -> node_done st x.

(** The nodes of [l] may be marked. *)
Definition ready (st : St) (l : list (Value + Id)) : Prop :=
  forall x, x ∈ l -> reached (store (heap st)) roots x /\ node_typed (store (heap st)) x.

Lemma ready_app st l1 l2 : ready st (l1 ++ l2) <-> ready st l1 /\ ready st l2.
Proof. unfold ready. setoid_rewrite elem_of_app. naive_solver. Qed.

Lemma ready_cons st x l : ready st (x :: l) <-> ready st [x] /\ ready st l.
Proof. unfold ready. setoid_rewrite elem_of_cons. setoid_rewrite elem_of_nil. naive_solver. Qed.

Lemma node_typed_evolve s s' x : evolve s s' -> node_typed s x -> node_typed s' x.
Proof. intros E. destruct x; simpl; [by apply evolve_all_typed|by apply evolve_some]. Qed.

Lemma ready_adv st st' l : inv roots st -> adv st st' -> ready st l -> ready st' l.
Proof.
  intros I A H x Hx. destruct (H x Hx) as [Hr Ht]. split; [by apply (reached_adv roots st)|].
  eapply node_typed_evolve; [apply A|done].
Qed.

Lemma node_done_adv st st' x : inv roots st -> adv st st' -> node_typed (store (heap st)) x ->
  node_done st x -> node_done st' x.
Proof.
  intros I A. destruct x; simpl; [intros ?; by apply (done_in_adv roots)|]. intros _. apply (adv_marked _ _ A).
Qed.

Lemma walked_adv st st' l : inv roots st -> adv st st' -> nodes_typed (store (heap st)) l ->
  walked l st -> walked l st'.
Proof.
  intros I A Ht [Hb|Hd]; [left; by apply (adv_borrowed _ _ A)|right].
  intros x Hx. eapply (node_done_adv st); auto.
Qed.

Lemma ready_typed st l : ready st l -> nodes_typed (store (heap st)) l.
Proof. intros H x Hx. by apply H. Qed.

Lemma walked_app l1 l2 st : walked l1 st -> walked l2 st -> walked (l1 ++ l2) st.
Proof.
  intros [?|H1] [?|H2]; [by left..|]. right. intros x [?|?]%elem_of_app; auto.
Qed.

Lemma walked_sub l1 l2 st : (forall x, x ∈ l2 -> x ∈ l1) -> walked l1 st -> walked l2 st.
Proof. intros H [?|Hd]; [by left|right; auto]. Qed.

(** One part after another. *)
Lemma walk_bind st r k l1 l2 : inv roots st -> ready st (l1 ++ l2) ->
  goes roots st r (walked l1) ->
  (forall st', inv roots st' -> adv st st' -> ready st' l2 -> goes roots st' (k st') (walked l2)) ->
  goes roots st (obind r k) (walked (l1 ++ l2)).
Proof.
  intros I [R1 R2]%ready_app G K. eapply goes_bind; [exact G|]. intros st1 I1 A1 W1.
  eapply goes_mono; [apply K; [done|done|by apply (ready_adv st)]|]. intros st2 A2 W2.
  apply walked_app; [|done]. apply (walked_adv st1); [done|done| |done].
  by apply ready_typed, (ready_adv st).
Qed.

Lemma walk_nil st : inv roots st -> goes roots st (Ok st) (walked []).
Proof. intros I. apply goes_ok; [done|]. right. intros x. by rewrite elem_of_nil. Qed.

Lemma walk_conflict st l : inv roots st -> goes roots st (Ok (set_borrowed st)) (walked l).
Proof. intros I. apply same_goes; auto. by left. Qed.

Lemma walk_value st v : inv roots st -> ready st [inl v] -> goes roots st (mark_value v st) (walked [inl v]).
Proof.
  intros I R. eapply goes_mono; [apply mark_value_goes; [done|apply R; by left]|].
  intros st' _ D. right. by intros x ->%list_elem_of_singleton.
Qed.

Lemma walk_item st id : inv roots st -> ready st [inr id] -> goes roots st (Ok (mark_item id st)) (walked [inr id]).
Proof.
  intros I R. destruct (R (inr id)) as [Hr Ht]; [by left|].
  eapply goes_mono; [by apply mark_item_goes|].
  intros st' _ D. right. by intros x ->%list_elem_of_singleton.
Qed.

Lemma walk_values l st : inv roots st -> ready st (vals l) -> goes roots st (mark_values l st) (walked (vals l)).
Proof.
  intros I R. eapply goes_mono; [apply mark_values_goes; [done|]|].
  - intros v Hv. apply (R (inl v)). by apply elem_of_vals.
  - intros st' _ D. right. intros x (v & -> & Hv)%list_elem_of_fmap. by apply D.
Qed.

Lemma walk_envs l : forall st, inv roots st -> ready st (cells l) ->
  goes roots st (Ok (mark_envs l st)) (walked (cells l)).
Proof.
  induction l as [|id l IH]; intros st I R; [by apply walk_nil|].
  change (cells (id :: l)) with ([inr id] ++ cells l) in *.
  change (Ok (mark_envs (id :: l) st)) with (obind (E := unit) (Ok (mark_item id st)) (fun st => Ok (mark_envs l st))).
  apply walk_bind; [done|done| |auto]. apply walk_item; [done|]. by apply ready_app in R as [? _].
Qed.

(** As [walk_bind] after a step that cannot fail. *)
Lemma walk_then st f k l1 l2 : inv roots st -> ready st (l1 ++ l2) ->
  goes roots st (Ok (f st)) (walked l1) ->
  (forall st', inv roots st' -> adv st st' -> ready st' l2 -> goes roots st' (k st') (walked l2)) ->
  goes roots st (k (f st)) (walked (l1 ++ l2)).
Proof. apply (walk_bind st (Ok (f st)) k). Qed.

Ltac walk_pure f :=
  match goal with
  | |- goes _ ?st ?r _ => match eval pattern (f st) in r with ?k _ => apply (walk_then st f k) end
  end.

Lemma walk_module st m : inv roots st -> ready st (t_module m) -> goes roots st (mark_module m st) (walked (t_module m)).
Proof.
  intros I R. unfold mark_module. destruct (try_borrow _); [|by apply walk_conflict].
  apply walk_bind; [done|done| |].
  - apply walk_values; [done|]. by apply ready_app in R as [? _].
  - intros st' I' A' R'. by apply walk_envs.
Qed.

Lemma walk_module_list l : forall st, inv roots st -> ready st (concat (map t_module l)) ->
  goes roots st (mark_module_list l st) (walked (concat (map t_module l))).
Proof.
  induction l as [|m l IH]; intros st I R; simpl in *; [by apply walk_nil|].
  apply walk_bind; [done|done| |auto]. apply walk_module; [done|]. by apply ready_app in R as [? _].
Qed.

Lemma walk_map st id : inv roots st -> ready st (t_modules (store (heap st)) id) ->
  goes roots st (match cell_at st id with
                 | Some (CModules l b) =>
                     if try_borrow b then mark_module_list l st else Ok (set_borrowed st)
                 | _ => Ok st
                 end) (walked (t_modules (store (heap st)) id)).
Proof.
  intros I R. unfold cell_at, t_modules in *. destruct (store (heap st) !! id) as [[]|]; try by apply walk_nil.
  destruct (try_borrow b); [by apply walk_module_list|by apply walk_conflict].
Qed.

(** Module maps do not change while the heap is marked. *)
Lemma t_modules_evolve s s' id : evolve s s' -> t_modules s' id = t_modules s id.
Proof.
  intros E. unfold t_modules. destruct (s !! id) as [c|] eqn:H.
  - destruct (ev_kept _ _ E _ _ H) as [->|(d & q & r & -> & _ & -> & _)]; done.
  - destruct (s' !! id) as [c|] eqn:H'; [|done].
    destruct (ev_new _ _ E _ _ H') as [?|[(d & ->)|(r & p & ? & ? & -> & _)]]; congruence.
Qed.

Fixpoint t_maps (s : gmap Id Cell) (maps : list Id) : list (Value + Id) :=
  match maps with [] => [] | map :: maps => t_modules s map ++ t_maps s maps end.

Lemma t_maps_evolve s s' maps : evolve s s' -> t_maps s' maps = t_maps s maps.
Proof. intros E. induction maps; simpl; [done|]. by rewrite (t_modules_evolve s s'), IHmaps. Qed.

Lemma walk_maps maps : forall st, inv roots st -> ready st (t_maps (store (heap st)) maps) ->
  goes roots st (mark_modules maps st) (walked (t_maps (store (heap st)) maps)).
Proof.
  induction maps as [|map maps IH]; intros st I R; simpl in *; [by apply walk_nil|].
  apply walk_bind; [done|done| |].
  - apply walk_map; [done|]. by apply ready_app in R as [? _].
  - intros st' I' A' R'. rewrite <- (t_maps_evolve _ _ maps (adv_evolve _ _ A')) in *. auto.
Qed.

Lemma realm_roots_some st r l : realm_roots st r = Some l ->
  t_realm (store (heap st)) r = t_modules (store (heap st)) (modules r) ++ vals l.
Proof.
  unfold realm_roots, cell_at, t_realm. intros H. f_equal.
  assert (forall a b, vals (a ++ b) = vals a ++ vals b) as Hv by (intros; apply map_app).
  repeat case_match; simplify_eq/=; simplify_option_eq; rewrite ?Hv, ?app_nil_r; done.
Qed.

Lemma walk_realm st r : inv roots st -> ready st (t_realm (store (heap st)) r) ->
  goes roots st (mark_realm r st) (walked (t_realm (store (heap st)) r)).
Proof.
  intros I R. unfold mark_realm. destruct (realm_roots st r) as [l|] eqn:E; [|by apply walk_conflict].
  apply realm_roots_some in E. rewrite E in *. apply walk_bind; [done|done| |].
  - pose proof (walk_maps [modules r] st I) as W. simpl in W. rewrite app_nil_r in W.
    apply W. by apply ready_app in R as [? _].
  - intros st' I' A' R'. by apply walk_values.
Qed.

Lemma walk_queue st id : inv roots st -> ready st (queue_next (store (heap st)) id) ->
  goes roots st (mark_queue id st) (walked (queue_next (store (heap st)) id)).
Proof.
  intros I R. unfold mark_queue, queue_next, cell_at in *.
  destruct (store (heap st) !! id) as [[]|]; try by apply walk_nil.
  destruct (try_borrow _); [by apply walk_values|by apply walk_conflict].
Qed.

Lemma walk_reactions l : forall st, inv roots st ->
  ready st (concat (map (fun r => vals (reaction_values r) ++ [inr (derived r)]) l)) ->
  goes roots st (mark_reactions l st)
    (walked (concat (map (fun r => vals (reaction_values r) ++ [inr (derived r)]) l))).
Proof.
  induction l as [|r l IH]; intros st I R; simpl in *; [by apply walk_nil|].
  rewrite <- !app_assoc in *. apply walk_bind; [done|done| |].
  - apply walk_values; [done|]. by apply ready_app in R as [? _].
  - intros st' I' A' R'. apply walk_then; [done|done| |auto].
    apply walk_item; [done|]. by apply ready_app in R' as [? _].
Qed.

(** ** Visits *)

Definition holds_weak (c : Cell) : bool :=
  match c with CObject o => match weak o with WNone => false | _ => true end | _ => false end.

(** Whose property cell is found through the cell's own borrow. *)
Definition readable (c : Cell) : bool :=
  match c with
  | CPromise p => try_borrow (b_promise p)
  | CGenerator g => try_borrow (b_generator g)
  | _ => true
  end.

(** What a visit to [id] has achieved. *)
Definition visit_done (s : gmap Id Cell) (id : Id) (c : Cell) (st : St) : Prop :=
  walked (t_cell s c) st
  /\ (holds_weak c = true -> borrowed (marker st) = true \/ id ∈ weak_cells (marker st))
  /\ (readable c = true \/ borrowed (marker st) = true).

Lemma ready_cell st id c : inv roots st -> id ∈ marked (marker st) -> store (heap st) !! id = Some c ->
  ready st (t_cell (store (heap st)) c).
Proof.
  intros I Hm Hc x Hx%t_cell_next. split.
  - eapply reached_cell; [by apply (inv_sound roots st I)|exact Hc|done].
  - eapply cell_nodes_typed; [apply (ht_store _ (inv_typed roots st I))|exact Hc|done].
Qed.

Lemma walk_object st id o : inv roots st -> id ∈ marked (marker st) -> ready st (vals (object_children o)) ->
  let st1 := match weak o with WNone => st | _ => push_weak_cell id st end in
  goes roots st (mark_values (object_children o) st1) (fun st' => walked (vals (object_children o)) st'
    /\ (holds_weak (CObject o) = true -> id ∈ weak_cells (marker st'))).
Proof.
  intros I Hm R. assert (goes roots st (Ok (push_weak_cell id st))
    (fun st' => id ∈ weak_cells (marker st'))) as (I1 & A1 & W1).
  { apply same_goes; simpl; auto; [by apply prefix_app_r|set_solver..]. }
  assert (goes roots st (mark_values (object_children o) (push_weak_cell id st))
    (fun st' => walked (vals (object_children o)) st' /\ id ∈ weak_cells (marker st'))) as G.
  { apply (goes_adv roots _ _ _ _ A1). eapply goes_mono; [apply walk_values; [done|by apply (ready_adv st)]|].
    intros st' A W. split; [done|]. destruct (adv_weak _ _ A) as [k ->]. set_solver. }
  unfold holds_weak. destruct (weak o); cbv zeta; [|by eapply goes_mono; [exact G|naive_solver]..].
  eapply goes_mono; [by apply walk_values|]. naive_solver.
Qed.

Lemma walk_generator st g : inv roots st -> ready st (t_cell (store (heap st)) (CGenerator g)) ->
  goes roots st
    (let* st := match realm_roots st (g_realm g) with
                | Some values =>
                    let* st := mark_modules [modules (g_realm g)] st in
                    let* st := mark_values values st in
                    mark_queue (g_jobs g) st
                | None => Ok (set_borrowed st)
                end in
     let* st := mark_values (from_option state_values [] (async_state g)) st in
     let st := mark_envs (option_list (g_closure g)) st in
     let* st := mark_values (args g ++ option_list (return_value g)) st in
     Ok (or_opaque (bool_decide (is_Some (g_coroutine g))) st))%rust
    (walked (t_cell (store (heap st)) (CGenerator g))).
Proof.
  intros I R. cbn [t_cell] in *. rewrite (app_assoc (t_realm _ _)) in *. apply walk_bind; [done|done| |].
  - apply ready_app in R as [R _]. destruct (realm_roots st (g_realm g)) as [l|] eqn:E; [|by apply walk_conflict].
    apply realm_roots_some in E. rewrite E, <- app_assoc in *. apply walk_bind; [done|done| |].
    + pose proof (walk_maps [modules (g_realm g)] st I) as W. simpl in W. rewrite app_nil_r in W.
      apply W. by apply ready_app in R as [? _].
    + intros st1 I1 A1 R1. rewrite <- (queue_next_evolve _ _ _ (adv_evolve _ _ A1)) in *.
      apply walk_bind; [done|done|apply walk_values; [done|by apply ready_app in R1 as [? _]]|].
      intros st2 I2 A2 R2. rewrite <- (queue_next_evolve _ _ _ (adv_evolve _ _ A2)) in *. by apply walk_queue.
  - intros st1 I1 A1 R1. apply walk_bind; [done|done|apply walk_values; [done|by apply ready_app in R1 as [? _]]|].
    intros st2 I2 A2 R2. walk_pure (mark_envs (option_list (g_closure g))); [done|done|apply walk_envs; [done|by apply ready_app in R2 as [? _]]|].
    intros st3 I3 A3 R3. eapply goes_bind; [by apply walk_values|]. intros st4 I4 A4 W4.
    apply same_goes; auto.
Qed.

(** A visit marks everything traced from the cell, and lists weak containers. *)
Lemma visit_goes st id c : inv roots st -> id ∈ marked (marker st) -> store (heap st) !! id = Some c ->
  goes roots st (visit id st) (visit_done (store (heap st)) id c).
Proof.
  intros I Hm Hc. pose proof (ready_cell st id c I Hm Hc) as R. unfold visit, cell_at. rewrite Hc.
  assert (forall r, holds_weak c = false -> readable c = true ->
    goes roots st r (walked (t_cell (store (heap st)) c)) ->
    goes roots st r (visit_done (store (heap st)) id c)) as Hw.
  { intros r Hf Hr G. eapply goes_mono; [exact G|]. intros st' _ W. split_and!; [done|by rewrite Hf|by left]. }
  assert (forall b, holds_weak c = false -> readable c = b -> b = false ->
    goes roots st (Ok (set_borrowed st)) (visit_done (store (heap st)) id c)) as Hn.
  { intros b Hf Hr Hb. apply same_goes; auto. split_and!; [by left|by rewrite Hf|by right]. }
  destruct c as [o|a|e|f|p|g|p|v b|t|pr b|d|pr|pr bu sh|pr| |l b|l b|l b|q];
    try (apply Hw; [done..|]; by apply walk_nil).
  - case_match.
    + eapply goes_mono; [by apply walk_object|]. intros st' _ [? ?]. split_and!; [done|by right; auto|by left].
    + apply same_goes; auto. split_and!; [by left|by left|by right].
  - apply Hw; [done..|]. case_match; [by apply walk_values|by apply walk_conflict].
  - apply Hw; [done..|]. case_match; [|by apply walk_conflict]. cbn [t_cell] in *.
    apply walk_bind; [done|done| |].
    + apply ready_app in R as [R _]. destruct (module_realm e) as [r|]; [by apply walk_realm|by apply walk_nil].
    + intros st1 I1 A1 R1. apply walk_bind; [done|done|apply walk_values; [done|by apply ready_app in R1 as [? _]]|].
      intros st2 I2 A2 R2. by apply walk_envs.
  - apply Hw; [done..|]. cbn [t_cell cell_next] in *.
    change (inr (fn_properties f) :: ?l) with ([inr (fn_properties f)] ++ l) in *.
    walk_pure (mark_item (fn_properties f)); [done|done|apply walk_item; [done|by apply ready_app in R as [? _]]|].
    intros st1 I1 A1 R1. walk_pure (mark_envs (option_list (closure f))); [done|done|apply walk_envs; [done|by apply ready_app in R1 as [? _]]|].
    intros st2 I2 A2 R2. by apply walk_values.
  - destruct (try_borrow _) eqn:Eb; [|by eapply Hn]. apply Hw; [done..|]. cbn [t_cell cell_next] in *.
    change (inl (pr_value p) :: ?l) with ([inl (pr_value p)] ++ l) in *.
    apply walk_bind; [done|done|apply walk_value; [done|by apply ready_app in R as [? _]]|].
    intros st1 I1 A1 R1. by apply walk_reactions.
  - destruct (try_borrow _) eqn:Eb; [|by eapply Hn]. apply Hw; [done..|]. by apply walk_generator.
  - apply Hw; [done..|]. unfold proxy_children.
    destruct (try_borrow _ && _); [by apply walk_values|by apply walk_conflict].
  - apply Hw; [done..|]. case_match; [by apply walk_value|by apply walk_conflict].
  - apply Hw; [done..|]. cbn [t_cell] in *. case_match.
    + assert (goes roots st (Ok (or_opaque (bool_decide (is_Some (t_coroutine t))) st)) (fun _ => True))
        as (I1 & A1 & _) by (apply same_goes; auto).
      apply (goes_adv roots _ _ _ _ A1). apply (ready_adv st _ _ I A1) in R.
      change (inl (Promise (result t)) :: ?l) with ([inl (Promise (result t))] ++ l) in *.
      apply walk_bind; [done|done|apply walk_value; [done|by apply ready_app in R as [? _]]|].
      intros st2 I2 A2 R2. by apply walk_envs.
    + apply same_goes; auto. right. intros x. by rewrite elem_of_nil.
Qed.

(** ** Draining *)

(** What survives any number of steps. *)
Record grow (st st' : St) : Prop := {
  grow_evolve : evolve (store (heap st)) (store (heap st'));
  grow_marked : marked (marker st) ⊆ marked (marker st');
  grow_borrowed : borrowed (marker st) = true -> borrowed (marker st') = true;
  grow_weak : weak_cells (marker st) `prefix_of` weak_cells (marker st');
  grow_interps : interps (inner (heap st')) = interps (inner (heap st));
  grow_pins : pins (inner (heap st')) = pins (inner (heap st));
  grow_external : external (heap st') = external (heap st);
  grow_locked : locked (heap st') = locked (heap st);
  grow_pot : pot st' <= pot st;
}.

Lemma grow_refl st : grow st st.
Proof. split; auto using evolve_refl. Qed.

Lemma grow_trans st1 st2 st3 : grow st1 st2 -> grow st2 st3 -> grow st1 st3.
Proof.
  intros [] []. split; [by eapply evolve_trans|by etrans|by auto|by etrans|congruence..|lia].
Qed.

Lemma adv_pot st st' : adv st st' -> pot st' <= pot st.
Proof.
  intros A. pose proof (adv_pot_work _ _ A). destruct (adv_work _ _ A) as [w E].
  rewrite E, length_app in H. lia.
Qed.

Lemma adv_grow st st' : adv st st' -> grow st st'.
Proof. intros A. pose proof (adv_pot _ _ A). destruct A. by split. Qed.

(** A marked cell that needs no further visit. *)
Definition visited (st : St) (id : Id) : Prop :=
  exists c, store (heap st) !! id = Some c /\ visit_done (store (heap st)) id c st.

Lemma walked_nil st : walked [] st.
Proof. right. intros x. by rewrite elem_of_nil. Qed.

Lemma leaf_visited st id : leaf (store (heap st)) id -> visited st id.
Proof.
  intros (c & Hc & Hl). exists c. destruct c; try discriminate Hl; (split; [done|]; split_and!; [apply walked_nil|done|by left]).
Qed.

Lemma t_realm_evolve s s' r : evolve s s' -> t_realm s' r = t_realm s r.
Proof.
  intros E. unfold t_realm. rewrite (t_modules_evolve s s') by done. f_equal.
  assert (forall A (f : Cell -> list A) id, (forall d, f (CDate d) = []) ->
    (forall o, f (CObject o) = []) -> from_option f [] (s' !! id) = from_option f [] (s !! id)) as Hf.
  { intros A f id Hd Ho. destruct (s !! id) as [c|] eqn:H; simpl.
    - destruct (ev_kept _ _ E _ _ H) as [->|(d & q & x & -> & _ & -> & _)]; simpl; rewrite ?Hd; done.
    - destruct (s' !! id) as [c|] eqn:H'; simpl; [|done].
      destruct (ev_new _ _ E _ _ H') as [?|[(d & ->)|(x & p & ? & ? & -> & _)]]; [congruence|done|done]. }
  f_equal.
  - by apply (Hf _ (fun c => match c with CGraph g _ => vals (graph_values g) | _ => [] end)).
  - by apply (Hf _ (fun c => match c with CCommonJs c _ => vals (cache_values c) | _ => [] end)).
Qed.

Lemma t_cell_evolve s s' c : evolve s s' -> t_cell s' c = t_cell s c.
Proof.
  intros E. destruct c; simpl; try done.
  - destruct (module_realm e); simpl; [|done]. by rewrite (t_realm_evolve s s').
  - by rewrite (t_realm_evolve s s'), (queue_next_evolve s s').
Qed.

Lemma walked_grow st st' l : inv roots st -> grow st st' -> nodes_typed (store (heap st)) l ->
  walked l st -> walked l st'.
Proof.
  intros I G Ht [Hb|Hd]; [left; by apply (grow_borrowed _ _ G)|right].
  intros x Hx. specialize (Hd x Hx). specialize (Ht x Hx). destruct x; simpl in *.
  - eapply value_done_mono; [apply G|apply G|apply (ht_store _ (inv_typed _ _ I))|done|done].
  - by apply (grow_marked _ _ G).
Qed.

Lemma visited_grow st st' id : inv roots st -> grow st st' -> visited st id -> visited st' id.
Proof.
  intros I G (c & Hc & Hw & Hk & Hr).
  destruct (ev_kept _ _ (grow_evolve _ _ G) _ _ Hc) as [Hc'|(d & q & r & -> & _ & Hc' & _)].
  - exists c. split; [done|]. split_and!.
    + rewrite (t_cell_evolve (store (heap st))) by apply G. apply (walked_grow st); [done|done| |done].
      intros x Hx%t_cell_next. eapply cell_nodes_typed; [apply (ht_store _ (inv_typed _ _ I))|exact Hc|done].
    + intros Hh. destruct (Hk Hh) as [?|?]; [left; by apply (grow_borrowed _ _ G)|right].
      destruct (grow_weak _ _ G) as [k ->]. set_solver.
    + destruct Hr as [?|?]; [by left|right; by apply (grow_borrowed _ _ G)].
  - eexists. split; [exact Hc'|]. split_and!; [apply walked_nil|done|by left].
Qed.

Record drain_inv (st : St) : Prop := {
  di_inv : inv roots st;
  di_visited : forall id, id ∈ marked (marker st) -> id ∈ work (marker st) \/ visited st id;
}.

(** Marking keeps [drain_inv]: what it adds is queued or a leaf. *)
Lemma drain_inv_adv st st' : drain_inv st -> inv roots st' -> adv st st' -> drain_inv st'.
Proof.
  intros [I V] I' A. split; [done|]. intros id [H|[_ [H|H]]]%(adv_fresh _ _ A).
  - destruct (V id H) as [Hw|Hv]; [left; eapply suffix_elem; [apply A|done]|right].
    by apply (visited_grow st _ _ I (adv_grow _ _ A)).
  - by left.
  - right. by apply leaf_visited.
Qed.

(** What [drain] and the loop around it add to the list of new marks. *)
Record fresh_marks (st st' : St) : Prop := {
  fm_suffix : newly_marked (marker st) `suffix_of` newly_marked (marker st');
  fm_new : forall id, id ∈ marked (marker st') -> id ∈ marked (marker st) \/ id ∈ newly_marked (marker st');
}.

Lemma adv_fresh_marks st st' : adv st st' -> fresh_marks st st'.
Proof. intros A. split; [apply A|]. intros id H%(adv_fresh _ _ A). naive_solver. Qed.

Lemma fresh_marks_trans st1 st2 st3 : fresh_marks st1 st2 -> fresh_marks st2 st3 -> fresh_marks st1 st3.
Proof.
  intros [S1 N1] [S2 N2]. split; [by etrans|]. intros id [[?|?]%N1|?]%N2; [by left| |by right].
  right. by eapply suffix_elem.
Qed.

Definition drained (st st' : St) : Prop :=
  drain_inv st' /\ grow st st' /\ fresh_marks st st' /\ work (marker st') = [].

Lemma drain_goes fuel : forall st, drain_inv st -> length (work (marker st)) + pot st <= fuel ->
  match drain fuel st with
  | Ok st' => drained st st'
  | Err _ => False
  | Panic => locked (heap st) = true
  end.
Proof.
  induction fuel as [|fuel IH]; intros st D Hf; cbn [drain]; unfold pop_work;
    destruct (work (marker st)) as [|id rest] eqn:Ew.
  1,3: split_and!; auto using grow_refl; split; auto.
  { simpl in Hf. lia. }
  cbn [obind]. set (st1 := set_marker _ st).
  assert (id ∈ marked (marker st)) as Hm by (apply (inv_work _ _ (di_inv _ D)); rewrite Ew; by left).
  assert (inv roots st1) as I1.
  { destruct D as [[I1 I2 I3 I4 I5 I6] _]. split; simpl; auto. intros j Hj. apply I3. rewrite Ew. by right. }
  assert (grow st st1) as G1 by (split; auto using evolve_refl).
  destruct (inv_some _ _ I1 id Hm) as [c Hc].
  pose proof (visit_goes st1 id c I1 Hm Hc) as V. destruct (visit id st1) as [st2| |]; simpl in V; [|done|done].
  destruct V as (I2 & A2 & W2). cbn [obind]. pose proof (adv_grow _ _ A2) as G2.
  assert (drain_inv st2) as D2.
  { split; [done|]. intros j [Hj|[_ [Hj|Hj]]]%(adv_fresh _ _ A2); [|by left|right; by apply leaf_visited].
    destruct (decide (j = id)) as [->|Nj].
    - right. destruct (ev_kept _ _ (grow_evolve _ _ G2) _ _ Hc) as [Hc'|(d & q & r & -> & _ & Hc' & _)].
      + exists c. split; [done|]. unfold visit_done. rewrite (t_cell_evolve (store (heap st1))) by apply A2. done.
      + eexists. split; [exact Hc'|]. split_and!; [apply walked_nil|done|by left].
    - destruct (di_visited _ D j Hj) as [Hw|Hv].
      + rewrite Ew in Hw. apply elem_of_cons in Hw as [?|Hw]; [done|]. left.
        by eapply suffix_elem; [apply (adv_work _ _ A2)|].
      + right. by apply (visited_grow st1 st2 _ I1 G2). }
  pose proof (adv_pot_work _ _ A2) as P2. simpl in P2, Hf. unfold pot at 2 in P2. simpl in P2.
  specialize (IH st2 D2 ltac:(unfold pot in *; lia)). destruct (drain fuel st2) as [st3| |]; [|done|].
  - destruct IH as (D3 & G3 & F3 & W3). split_and!; [done| | |done].
    + eapply grow_trans; [exact G1|]. by eapply grow_trans.
    + eapply fresh_marks_trans; [|exact F3]. apply (adv_fresh_marks st1 st2) in A2. destruct A2. by split.
  - by rewrite (grow_locked _ _ G2) in IH.
Qed.

End Walk.

Ltac walk_pure f :=
  match goal with
  | |- goes _ ?st ?r _ => match eval pattern (f st) in r with ?k _ => apply (walk_then _ st f k) end
  end.

End CollectVisit.
