(* ===== verification/CollectEphemeron.v ===== *)
(** * Ephemerons

    The loop over weak map entries: an entry is indexed once, waits for its key,
    and is woken when the key is marked.  When the loop ends nothing is left to
    mark. *)
From stdpp Require Import prelude list strings gmap sets.
From Stdlib Require Import ZArith Lia.
From S2P Require Import Prelude Heap Collect CollectSpec CollectMark CollectVisit.
Import ListNotations Heap Collect CollectSpec CollectMark CollectVisit.

Module CollectEphemeron.

(** ** Marking values lists no weak containers *)

Definition same_weak (st : St) (r : outcome unit St) : Prop :=
  match r with Ok st' => weak_cells (marker st') = weak_cells (marker st) | _ => True end.

Lemma same_weak_bind st r k : same_weak st r -> (forall st', same_weak st' (k st')) -> same_weak st (obind r k).
Proof.
  destruct r as [st'| |]; simpl; try done. intros E H. specialize (H st'). destruct (k st'); simpl in *; congruence.
Qed.

Lemma mark_weak id st : weak_cells (marker (mark id st).2) = weak_cells (marker st).
Proof. unfold mark. by case_bool_decide. Qed.

Lemma mark_item_weak id st : weak_cells (marker (mark_item id st)) = weak_cells (marker st).
Proof. unfold mark_item, mark. by case_bool_decide. Qed.

Lemma mark_properties_weak v st : same_weak st (mark_properties v st).
Proof.
  unfold mark_properties.
  assert (match exotic_properties v st with
          | Ok r => weak_cells (marker r.2) = weak_cells (marker st) | _ => True end) as H.
  { unfold exotic_properties. repeat (done || case_match); simplify_eq; done. }
  destruct (exotic_properties v st) as [[o st']| |]; simpl in *; try done.
  destruct o; [by rewrite mark_item_weak|done].
Qed.

Lemma mark_view_weak id st : same_weak st (mark_view id st).
Proof.
  unfold mark_view. destruct (cell_at _ id) as [[]|]; try apply mark_weak.
  apply (same_weak_bind _ (mark_properties _ _)).
  - pose proof (mark_properties_weak (buffer_value buffer shared) (mark id st).2) as H.
    destruct (mark_properties _ _); simpl in *; try done. by rewrite H, mark_weak.
  - intros st'. apply mark_weak.
Qed.

Lemma mark_value_weak v : forall st, same_weak st (mark_value v st).
Proof.
  induction v; intros st; cbn [mark_value]; apply same_weak_bind; try apply mark_properties_weak; intros st';
    cbn [weak_identity]; try done; try apply mark_item_weak; try apply mark_weak; try apply mark_view_weak.
  apply same_weak_bind; [done|]. intros st2. apply same_weak_bind; [done|]. intros st3. apply mark_item_weak.
Qed.

Lemma mark_values_weak l : forall st, same_weak st (mark_values l st).
Proof.
  induction l as [|v l IH]; intros st; simpl; [done|]. by apply same_weak_bind; [apply mark_value_weak|].
Qed.

Section Ephemerons.
Context (roots : list (Value + Id)).

(** ** Entries *)

(** An entry is marked, or waits for a key that is not marked or will be woken. *)
Definition entry_ok (waiting : gmap Id (list Value)) (st : St) (e : Id * Value) : Prop :=
  done_in st e.2 \/ exists vs, waiting !! e.1 = Some vs /\ e.2 ∈ vs
    /\ (e.1 ∈ marked (marker st) -> e.1 ∈ newly_marked (marker st)).

Definition map_entry (s : gmap Id Cell) (m : Id) (e : Id * Value) : Prop :=
  exists o l, s !! m = Some (CObject o) /\ weak o = WMap l /\ e ∈ l.

(** The entries of the weak maps in [ms]. *)
Definition entries_ok (ms : list Id) (waiting : gmap Id (list Value)) (st : St) : Prop :=
  forall m e, m ∈ ms -> map_entry (store (heap st)) m e -> entry_ok waiting st e.

(** What waits comes from marked maps. *)
Definition waiting_sound (waiting : gmap Id (list Value)) (st : St) : Prop :=
  forall key vs v, waiting !! key = Some vs -> v ∈ vs ->
    exists m, m ∈ marked (marker st) /\ map_entry (store (heap st)) m (key, v).

Lemma map_entry_evolve s s' m e : evolve s s' -> map_entry s m e -> map_entry s' m e.
Proof. intros E (o & l & H & Hl). exists o, l. split; [by apply (evolve_same s s')|done]. Qed.

(** New cells hold no weak maps. *)
Lemma map_entry_back s s' m e : evolve s s' -> map_entry s' m e -> map_entry s m e.
Proof.
  intros E (o & l & H & Hw & Hl). destruct (ev_new _ _ E _ _ H) as [?|[(d & ?)|(r & p & ? & ? & [= ->] & _)]]; [by exists o, l|done|done].
Qed.

Lemma entry_typed st m e : inv roots st -> map_entry (store (heap st)) m e ->
  all_typed (store (heap st)) (value_refs e.2).
Proof.
  intros I (o & l & H & Hw & Hl). destruct (ht_store _ (inv_typed _ _ I) _ _ H) as [T _].
  eapply all_typed_sub; [exact T|]. intros r Hr. simpl. rewrite Hw. simpl. apply elem_of_app. right.
  apply elem_of_values_refs. exists e.2. split; [|done]. apply list_elem_of_fmap. eauto.
Qed.

Lemma entry_pre st m key v : inv roots st -> m ∈ marked (marker st) -> map_entry (store (heap st)) m (key, v) ->
  key ∈ marked (marker st) -> pre roots st v.
Proof.
  intros I Hm He Hk. split; [|by apply (entry_typed st m (key, v))]. destruct He as (o & l & H & Hw & Hl).
  eapply reached_entry; [by apply (inv_sound _ _ I m)|exact H|exact Hw|exact Hl|by apply (inv_sound _ _ I)].
Qed.

Lemma entry_ok_adv waiting st st' m e : inv roots st -> adv st st' -> map_entry (store (heap st)) m e ->
  entry_ok waiting st e -> entry_ok waiting st' e.
Proof.
  intros I A He [Hd|(vs & Hw & Hv & Hk)].
  - left. apply (done_in_adv roots st); auto. by eapply entry_typed.
  - right. exists vs. split_and!; [done..|]. intros [H|[? _]]%(adv_fresh _ _ A); [|done].
    eapply suffix_elem; [apply A|auto].
Qed.

Lemma entries_ok_adv ms waiting st st' : inv roots st -> adv st st' -> entries_ok ms waiting st ->
  entries_ok ms waiting st'.
Proof.
  intros I A H m e Hm He. apply (map_entry_back _ _ _ _ (adv_evolve _ _ A)) in He.
  apply (entry_ok_adv _ st _ m); [done..|by eapply H].
Qed.

Lemma waiting_sound_grow waiting st st' : grow st st' -> waiting_sound waiting st -> waiting_sound waiting st'.
Proof.
  intros G H key vs v Hw Hv. destruct (H _ _ _ Hw Hv) as (m & Hm & He). exists m.
  split; [by apply (grow_marked _ _ G)|]. eapply map_entry_evolve; [apply G|done].
Qed.

Lemma entry_ok_wait waiting st e key v : entry_ok waiting st e -> entry_ok (wait key v waiting) st e.
Proof.
  intros [?|(vs & Hw & Hv & Hk)]; [by left|right]. unfold wait. destruct (decide (e.1 = key)) as [<-|N].
  - rewrite Hw. eexists. rewrite lookup_insert_eq. split_and!; [done|simpl; set_solver|done].
  - exists vs. by rewrite lookup_insert_ne.
Qed.

(** ** Indexing *)

Definition indexed_from (ms : list Id) (st : St) (r : outcome unit (gmap Id (list Value) * St)) : Prop :=
  match r with
  | Ok (waiting', st') => inv roots st' /\ adv st st' /\ entries_ok ms waiting' st'
      /\ waiting_sound waiting' st' /\ weak_cells (marker st') = weak_cells (marker st)
  | Err _ => False
  | Panic => locked (heap st) = true
  end.

Lemma index_entries_goes m l0 ms o : forall l waiting st, inv roots st -> m ∈ marked (marker st) ->
  store (heap st) !! m = Some (CObject o) -> weak o = WMap l0 -> (forall e, e ∈ l -> e ∈ l0) ->
  entries_ok ms waiting st -> waiting_sound waiting st ->
  (forall e, e ∈ l0 -> e ∈ l \/ entry_ok waiting st e) ->
  indexed_from (m :: ms) st (index_entries l waiting st).
Proof.
  induction l as [|[key v] l IH]; intros waiting st I Hm Hc Hw Hl Hok Hs Hrest; cbn [index_entries].
  { split_and!; auto using adv_refl. intros m' e [->|Hm']%elem_of_cons He; [|by eapply Hok].
    destruct He as (o' & l' & H' & Hw' & He). simplify_eq. rewrite Hw in Hw'. injection Hw' as <-.
    destruct (Hrest e He) as [?|?]; [|done]. set_solver. }
  assert (map_entry (store (heap st)) m (key, v)) as Hme.
  { exists o, l0. split_and!; [done..|]. apply Hl. by left. }
  case_bool_decide as Hk.
  - pose proof (mark_value_goes roots v st I (entry_pre st m key v I Hm Hme Hk)) as G.
    pose proof (mark_value_weak v st) as W. destruct (mark_value v st) as [st1| |]; simpl in G, W |- *; [|done|done].
    destruct G as (I1 & A1 & D1).
    assert (indexed_from (m :: ms) st1 (index_entries l waiting st1)) as R.
    { apply IH; try done; [by apply (adv_marked _ _ A1)|by apply (evolve_same _ _ _ _ (adv_evolve _ _ A1) Hc)|intros; apply Hl; by right| | |].
      - by apply (entries_ok_adv _ _ st).
      - by apply (waiting_sound_grow _ st), Hs; apply adv_grow.
      - intros e He. destruct (Hrest e He) as [[->|?]%elem_of_cons|?]; [right; by left|by left|right].
        apply (entry_ok_adv _ st _ m); try done. by exists o, l0. }
    unfold indexed_from in *. destruct (index_entries l waiting st1) as [[w st2]| |]; [|done|by rewrite <- (adv_locked _ _ A1)].
    destruct R as (? & ? & ? & ? & ->). split_and!; try done. by eapply adv_trans.
  - apply IH; try done; [intros; apply Hl; by right| | |].
    + intros m' e Hm' He. apply entry_ok_wait. by eapply Hok.
    + intros key' vs v' Hvs Hv'. unfold wait in Hvs. destruct (decide (key' = key)) as [->|N].
      * rewrite lookup_insert_eq in Hvs. injection Hvs as <-. apply elem_of_app in Hv' as [Hv'|Hv'].
        -- destruct (waiting !! key) as [vs|] eqn:E; [by eapply Hs|set_solver].
        -- apply list_elem_of_singleton in Hv' as ->. eauto.
      * rewrite lookup_insert_ne in Hvs by done. by eapply Hs.
    + intros e He. destruct (Hrest e He) as [[->|?]%elem_of_cons|?]; [right|by left|right; by apply entry_ok_wait].
      right. simpl. unfold wait. eexists. rewrite lookup_insert_eq. split_and!; [done|set_solver|done].
Qed.

Lemma index_cells_goes : forall l ms waiting st, inv roots st -> (forall m, m ∈ l -> m ∈ marked (marker st)) ->
  entries_ok ms waiting st -> waiting_sound waiting st ->
  indexed_from (rev l ++ ms) st (index_cells l waiting st).
Proof.
  induction l as [|m l IH]; intros ms waiting st I Hl Hok Hs; cbn [index_cells rev].
  { split_and!; auto using adv_refl. }
  rewrite <- app_assoc. simpl.
  assert (forall w, weak_of st m = w -> match w with WMap _ => False | _ => True end ->
    indexed_from (rev l ++ m :: ms) st (index_cells l waiting st)) as Hskip.
  { intros w Ew Hn. apply IH; [done|intros; apply Hl; by right| |done].
    intros m' e [->|?]%elem_of_cons He; [|by eapply Hok]. destruct He as (o & l' & Ho & Hw & _).
    unfold weak_of, cell_at in Ew. rewrite Ho, Hw in Ew. by subst w. }
  destruct (weak_of st m) as [|es|t|c r j] eqn:Ew; try (by apply (Hskip _ eq_refl)).
  unfold weak_of, cell_at in Ew. destruct (store (heap st) !! m) as [[o| | | | | | | | | | | | | | | | | |]|] eqn:Ho; try discriminate Ew.
  pose proof (index_entries_goes m es ms o es waiting st I ltac:(apply Hl; by left) Ho Ew
    ltac:(auto) Hok Hs ltac:(auto)) as R.
  unfold indexed_from in R |- *.
  destruct (index_entries es waiting st) as [[w st1]| |]; cbn [obind fst snd]; [|done|done].
  destruct R as (I1 & A1 & Hok1 & Hs1 & W1).
  specialize (IH (m :: ms) w st1 I1 ltac:(intros; apply (adv_marked _ _ A1), Hl; by right) Hok1 Hs1).
  unfold indexed_from in IH. destruct (index_cells l w st1) as [[w2 st2]| |]; [|done|by rewrite <- (adv_locked _ _ A1)].
  destruct IH as (? & ? & ? & ? & ->). split_and!; try done. by eapply adv_trans.
Qed.

(** ** Waking *)

Record woken (ms : list Id) (st : St) (w' : gmap Id (list Value)) (st' : St) : Prop := {
  wk_drain : drain_inv roots st';
  wk_grow : grow st st';
  wk_entries : entries_ok ms w' st';
  wk_sound : waiting_sound w' st';
  wk_newly : newly_marked (marker st') = [];
  wk_weak : weak_cells (marker st') = weak_cells (marker st);
  wk_pot : length (work (marker st')) + pot st' <= length (work (marker st)) + pot st;
}.

(** The state after an identity is taken off the list of new marks. *)
Lemma pop_drain st m : drain_inv roots st -> newly_marked m `suffix_of` newly_marked (marker st) ->
  marked m = marked (marker st) -> work m = work (marker st) -> borrowed m = borrowed (marker st) ->
  weak_cells m = weak_cells (marker st) ->
  drain_inv roots (set_marker m st) /\ grow st (set_marker m st).
Proof.
  intros [[I1 I2 I3 I4 I5 I6] V] Hn Hm Hw Hb Hc.
  assert (grow st (set_marker m st)) as G.
  { split; simpl; rewrite ?Hm, ?Hb, ?Hc; auto using evolve_refl. unfold pot. simpl. by rewrite Hm. }
  split; [|done]. split.
  - split; simpl; rewrite ?Hm, ?Hw, ?Hc; auto. intros id Hid. apply I4. by eapply suffix_elem.
  - intros id. simpl. rewrite Hm, Hw. intros [?|Hv]%V; [by left|right].
    by apply (visited_grow roots st).
Qed.

(** Marking the values that waited for [id] keeps the entries. *)
Lemma woken_entries ms waiting id st0 st1 st2 vs :
  inv roots st1 -> adv st1 st2 -> heap st1 = heap st0 -> marked (marker st1) = marked (marker st0) ->
  newly_marked (marker st0) = id :: newly_marked (marker st1) ->
  entries_ok ms waiting st0 -> waiting !! id = Some vs -> (forall v, v ∈ vs -> done_in st2 v) ->
  entries_ok ms (delete id waiting) st2.
Proof.
  intros I1 A Hh Hm Hn Hok Hw Hd m e Hms He.
  apply (map_entry_back _ _ _ _ (adv_evolve _ _ A)) in He.
  destruct (Hok m e Hms) as [D|(ws & Hws & Hv & Hk)]; [by rewrite <- Hh| |].
  - left. apply (done_in_adv roots st1); [done|by eapply entry_typed|done|].
    unfold done_in in *. by rewrite Hh, Hm.
  - destruct (decide (e.1 = id)) as [<-|N].
    + left. apply Hd. congruence.
    + right. exists ws. rewrite lookup_delete_ne by done. split_and!; [done..|].
      intros [H|[? _]]%(adv_fresh _ _ A); [|done]. rewrite Hm in H. specialize (Hk H). rewrite Hn in Hk.
      eapply suffix_elem; [apply A|]. set_solver.
Qed.

Lemma wake_goes ms fuel : forall waiting st, drain_inv roots st -> entries_ok ms waiting st ->
  waiting_sound waiting st -> length (newly_marked (marker st)) + pot st <= fuel ->
  match wake fuel waiting st with
  | Ok (w', st') => woken ms st w' st'
  | Err _ => False
  | Panic => locked (heap st) = true
  end.
Proof.
  induction fuel as [|fuel IH]; intros waiting st D Hok Hs Hf; cbn [wake]; unfold pop_new;
    destruct (newly_marked (marker st)) as [|id rest] eqn:En; try by split; auto using grow_refl.
  { simpl in Hf. lia. }
  set (m1 := {| marked := _ |}).
  destruct (pop_drain st m1 D) as [D1 G1]; try done; [rewrite En; by apply suffix_cons_r|].
  set (st1 := set_marker m1 st) in *.
  assert (id ∈ marked (marker st)) as Hid by (apply (inv_newly _ _ (di_inv _ _ D)); rewrite En; by left).
  assert (pot st1 = pot st) as P1 by done.
  destruct (waiting !! id) as [vs|] eqn:Ew.
  - assert (forall v, v ∈ vs -> pre roots st1 v) as R.
    { intros v Hv. destruct (Hs _ _ _ Ew Hv) as (m & Hm & He).
      by apply (entry_pre st1 m id v (di_inv _ _ D1)). }
    pose proof (mark_values_goes roots vs st1 (di_inv _ _ D1) R) as G.
    pose proof (mark_values_weak vs st1) as W.
    destruct (mark_values vs st1) as [st2| |]; simpl in G, W |- *; [|done|done].
    destruct G as (I2 & A2 & Hd). pose proof (adv_grow _ _ A2) as G2.
    pose proof (adv_pot_work _ _ A2) as Pw. pose proof (adv_pot_newly _ _ A2) as Pn.
    assert (entries_ok ms (delete id waiting) st2) as Hok2
      by by apply (woken_entries ms waiting id st st1 st2 vs); [apply (di_inv _ _ D1)|..].
    assert (waiting_sound (delete id waiting) st2) as Hs2.
    { intros key ws v [_ Hws]%lookup_delete_Some Hv.
      apply (waiting_sound_grow waiting st st2) with (vs := ws); [by eapply grow_trans|done..]. }
    specialize (IH (delete id waiting) st2 (drain_inv_adv roots st1 st2 D1 I2 A2) Hok2 Hs2
      ltac:(simpl in Pn, Hf; lia)).
    destruct (wake fuel (delete id waiting) st2) as [[w' st3]| |]; [|done|by rewrite (grow_locked _ _ G2) in IH].
    destruct IH. split; try done; [by eapply grow_trans; [|eapply grow_trans]|congruence|simpl in Pw; lia].
  - assert (entries_ok ms waiting st1) as Hok1.
    { intros m e Hm He. destruct (Hok m e Hm He) as [?|(vs & Hw & Hv & Hk)]; [by left|right].
      exists vs. split_and!; [done..|]. intros H%Hk. rewrite En in H.
      apply elem_of_cons in H as [E|H]; [rewrite E in Hw; congruence|done]. }
    specialize (IH waiting st1 D1 Hok1 ltac:(by apply (waiting_sound_grow _ st)) ltac:(simpl in *; lia)).
    destruct (wake fuel waiting st1) as [[w' st3]| |]; [|done|done].
    destruct IH. split; try done. by eapply grow_trans.
Qed.

(** ** The loop *)

(** Nothing is left to mark. *)
Record complete (st : St) : Prop := {
  co_inv : inv roots st;
  co_visited : forall id, id ∈ marked (marker st) -> visited st id;
  co_entries : forall m e, m ∈ weak_cells (marker st) -> map_entry (store (heap st)) m e ->
    e.1 ∈ marked (marker st) -> done_in st e.2;
}.

Lemma turns_work st : length (work (marker st)) + pot st <= turns st.
Proof. unfold turns, pot. pose proof (pending_size (store (heap st))). lia. Qed.

Lemma turns_newly st : length (newly_marked (marker st)) + pot st <= turns st.
Proof. unfold turns, pot. pose proof (pending_size (store (heap st))). lia. Qed.

Lemma entries_ok_fresh ms waiting st st' : inv roots st -> grow st st' -> fresh_marks st st' ->
  entries_ok ms waiting st -> entries_ok ms waiting st'.
Proof.
  intros I G F H m e Hm He. apply (map_entry_back _ _ _ _ (grow_evolve _ _ G)) in He.
  destruct (H m e Hm He) as [D|(vs & Hw & Hv & Hk)]; [left|right].
  - eapply value_done_mono; [apply G|apply G|apply (ht_store _ (inv_typed _ _ I))|by eapply entry_typed|done].
  - exists vs. split_and!; [done..|]. intros [?|?]%(fm_new _ _ F); [|done].
    eapply suffix_elem; [apply F|auto].
Qed.

Definition finished (st : St) (r : outcome unit St) : Prop :=
  match r with
  | Ok st' => complete st' /\ grow st st'
  | Err _ => False
  | Panic => locked (heap st) = true
  end.

Lemma entries_ok_sub ms ms' waiting st : (forall m, m ∈ ms' -> m ∈ ms) -> entries_ok ms waiting st ->
  entries_ok ms' waiting st.
Proof. intros H Hok m e Hm. by apply Hok, H. Qed.

(** One turn: drain, index the new weak maps, wake. *)
Definition turn (waiting : gmap Id (list Value)) (indexed : nat) (st : St)
  : outcome unit (gmap Id (list Value) * nat * St) :=
  (let* st := drain (turns st) st in
   let* r := index_cells (drop indexed (weak_cells (marker st))) waiting st in
   let indexed := length (weak_cells (marker st)) in
   let* r := wake (turns r.2) r.1 r.2 in
   Ok (r.1, indexed, r.2))%rust.

Lemma drain_loop_S fuel waiting indexed st : drain_loop (S fuel) waiting indexed st =
  (let* r := turn waiting indexed st in
   match work (marker r.2) with [] => Ok r.2 | _ => drain_loop fuel r.1.1 r.1.2 r.2 end)%rust.
Proof.
  cbn [drain_loop]. unfold turn. destruct (drain _ _) as [st1| |]; cbn [obind]; [|done|done].
  destruct (index_cells _ _ _) as [[w st2]| |]; cbn [obind fst snd]; [|done|done].
  destruct (wake _ _ _) as [[w' st3]| |]; done.
Qed.

(** The state between turns: the first [indexed] weak maps have been indexed. *)
Record looping (waiting : gmap Id (list Value)) (indexed : nat) (st : St) : Prop := {
  lp_drain : drain_inv roots st;
  lp_indexed : indexed <= length (weak_cells (marker st));
  lp_entries : entries_ok (take indexed (weak_cells (marker st))) waiting st;
  lp_sound : waiting_sound waiting st;
}.

(** Indexing what is not indexed yet, with nothing on the worklist. *)
Lemma index_goes waiting indexed st : looping waiting indexed st -> work (marker st) = [] ->
  match index_cells (drop indexed (weak_cells (marker st))) waiting st with
  | Ok (w, st') => looping w (length (weak_cells (marker st))) st' /\ grow st st'
      /\ weak_cells (marker st') = weak_cells (marker st)
      /\ length (work (marker st')) + pot st' <= pot st
  | Err _ => False
  | Panic => locked (heap st) = true
  end.
Proof.
  intros [D Hn Hok Hs] W. pose proof (di_inv _ _ D) as I.
  assert (forall m, m ∈ drop indexed (weak_cells (marker st)) -> m ∈ marked (marker st)) as Hm.
  { intros m Hm. apply (inv_weak _ _ I). rewrite <- (take_drop indexed). apply elem_of_app. by right. }
  pose proof (index_cells_goes _ _ waiting st I Hm Hok Hs) as R. unfold indexed_from in R.
  destruct (index_cells _ _ _) as [[w st2]| |]; [|done|done]. destruct R as (I2 & A2 & Hok2 & Hs2 & W2).
  pose proof (adv_pot_work _ _ A2) as P2. rewrite W in P2. simpl in P2.
  split_and!; [|by apply adv_grow|done|done]. split; [by apply (drain_inv_adv roots st)|by rewrite W2| |done].
  eapply entries_ok_sub; [|exact Hok2]. intros m. rewrite W2, firstn_all.
  rewrite <- (take_drop indexed (weak_cells (marker st))) at 1.
  rewrite !elem_of_app, !list_elem_of_In, <- in_rev. tauto.
Qed.

Lemma turn_goes waiting indexed st : looping waiting indexed st ->
  match turn waiting indexed st with
  | Ok (w', n', st') => looping w' n' st' /\ grow st st' /\ n' = length (weak_cells (marker st'))
      /\ newly_marked (marker st') = [] /\ length (work (marker st')) + pot st' <= pot st
  | Err _ => False
  | Panic => locked (heap st) = true
  end.
Proof.
  intros [D Hn Hok Hs]. unfold turn.
  pose proof (drain_goes roots (turns st) st D (turns_work st)) as H1.
  destruct (drain (turns st) st) as [st1| |]; cbn [obind]; [|done|done]. destruct H1 as (D1 & G1 & F1 & W1).
  assert (looping waiting indexed st1) as L1.
  { destruct (grow_weak _ _ G1) as [k E]. split; [done|rewrite E, length_app; lia| |by apply (waiting_sound_grow _ st)].
    rewrite E, take_app_le by done. by apply (entries_ok_fresh _ _ st _ (di_inv _ _ D)). }
  pose proof (index_goes waiting indexed st1 L1 W1) as H2.
  destruct (index_cells _ _ _) as [[w st2]| |]; cbn [obind fst snd]; [|done|by rewrite <- (grow_locked _ _ G1)].
  destruct H2 as (L2 & G2 & E2 & P2). rewrite <- E2 in L2 |- *.
  pose proof (wake_goes _ (turns st2) w st2 (lp_drain _ _ _ L2) (lp_entries _ _ _ L2) (lp_sound _ _ _ L2)
    (turns_newly st2)) as H3.
  pose proof (grow_pot _ _ G1) as P1.
  destruct (wake (turns st2) w st2) as [[w' st3]| |]; cbn [obind fst snd]; [|done|].
  - destruct H3 as [D3 G3 Hok3 Hs3 N3 E3 P3]. split_and!; [|by eapply grow_trans; [|eapply grow_trans]|by rewrite E3|done|lia].
    split; [done|by rewrite E3| |done]. by rewrite E3.
  - by rewrite <- (grow_locked _ _ G1), <- (grow_locked _ _ G2).
Qed.

Lemma drain_loop_goes fuel : forall waiting indexed st, looping waiting indexed st -> pot st < fuel ->
  finished st (drain_loop fuel waiting indexed st).
Proof.
  induction fuel as [|fuel IH]; intros waiting indexed st L Hf; [lia|]. rewrite drain_loop_S.
  pose proof (turn_goes waiting indexed st L) as H.
  destruct (turn waiting indexed st) as [[[w' n'] st']| |]; cbn [obind fst snd]; [|done|done].
  destruct H as (L' & G' & En & Nn & P'). destruct (work (marker st')) as [|x l] eqn:Ew.
  - split; [|done]. destruct L' as [[I V] _ Hok _]. split; [done| |].
    + intros id H. destruct (V id H) as [Hw|?]; [|done]. rewrite Ew in Hw. by apply elem_of_nil in Hw.
    + intros m e Hm He Hk. rewrite En, firstn_all in Hok.
      destruct (Hok m e Hm He) as [?|(vs & _ & _ & Hn)]; [done|]. specialize (Hn Hk). rewrite Nn in Hn.
      by apply elem_of_nil in Hn.
  - simpl in P'. specialize (IH w' n' st' L' ltac:(lia)). unfold finished in *.
    destruct (drain_loop fuel w' n' st') as [st''| |]; [|done|by rewrite <- (grow_locked _ _ G')].
    destruct IH as [C G]. split; [done|by eapply grow_trans].
Qed.

End Ephemerons.
End CollectEphemeron.
