(* ===== verification/CollectPhase.v ===== *)
(** * The mark phase

    From the roots to a complete marking: the phase ends, panics only when a date
    among the published roots would need a cell, and marks what is reachable. *)
From stdpp Require Import prelude list strings gmap sets.
From Stdlib Require Import ZArith Lia.
From S2P Require Import Prelude Heap Collect CollectSpec CollectMark CollectVisit CollectEphemeron.
Import ListNotations Heap Collect CollectSpec CollectMark CollectVisit CollectEphemeron.

Module CollectPhase.

(** ** Dates without a cell *)

(** No date reached through the value itself lacks its property cell. *)
Fixpoint settled (s : gmap Id Cell) (v : Value) : Prop :=
  match v with
  | Date id => match s !! id with Some (CDate d) => date_properties d <> None | _ => True end
  | Class constructor prototype _ => settled s constructor /\ settled s prototype
  | _ => True
  end.

Lemma settled_evolve s s' v : evolve s s' -> all_typed s (value_refs v) -> settled s v -> settled s' v.
Proof.
  intros E. induction v as [| | | | | | |c IHc p IHp st| | | | | |d| | | | | | | | |]; simpl; try done.
  - rewrite !all_typed_app. naive_solver.
  - intros (c & Hc & _)%typed_head. rewrite Hc.
    destruct (ev_kept _ _ E _ _ Hc) as [->|(d' & q & r & -> & _ & -> & _)]; done.
Qed.

Section Panics.
Context (roots : list (Value + Id)).

Lemma mark_properties_settled st v : inv roots st -> all_typed (store (heap st)) (value_refs v) ->
  settled (store (heap st)) v -> mark_properties v st <> Panic.
Proof.
  intros I Ht Hs. unfold mark_properties.
  assert (exotic_properties v st <> Panic) as H.
  { destruct (exotic_id v) as [id|] eqn:Ev; [|by destruct v].
    rewrite (exotic_properties_id v id st Ev). unfold cell_at.
    destruct v; try discriminate Ev; injection Ev as ->; destruct (typed_head _ _ _ _ Ht) as (c & Hc & Htag);
      rewrite Hc; destruct c; try done.
    simpl in Hs. rewrite Hc in Hs. unfold materialize. by destruct (date_properties d). }
  by destruct (exotic_properties v st) as [[]| |].
Qed.

Lemma mark_properties_bind_settled v st (k : St -> outcome unit St) : inv roots st -> pre roots st v ->
  settled (store (heap st)) v -> (forall st1, inv roots st1 -> adv st st1 -> k st1 <> Panic) ->
  obind (mark_properties v st) k <> Panic.
Proof.
  intros I [Hr Ht] Hs Hk. pose proof (mark_properties_settled st v I Ht Hs) as Hn.
  pose proof (mark_properties_goes roots st v I Hr Ht) as G.
  destruct (mark_properties v st) as [st1| |]; simpl in *; [|done|done]. naive_solver.
Qed.

(** A view's buffer is not a date. *)
Lemma mark_view_settled id st st1 : inv roots st1 -> adv st st1 -> typed (store (heap st)) (id, TView) ->
  mark_view id st1 <> Panic.
Proof.
  intros I A (c & Hc & Htag)%(evolve_typed _ _ _ (adv_evolve _ _ A))%typed_some. unfold mark_view, mark_properties.
  assert (store (heap (mark id st1).2) = store (heap st1)) as Es by (unfold mark; by case_bool_decide).
  unfold cell_at at 1. rewrite Es, Hc. destruct c; try done.
  destruct (typed_some _ _ _ (view_typed roots st1 id _ _ _ I Hc)) as (cb & Hcb & Htb).
  rewrite (exotic_properties_id _ buffer) by by destruct shared.
  unfold cell_at. rewrite Es, Hcb. by destruct cb.
Qed.

Lemma mark_value_settled v : forall st, inv roots st -> pre roots st v -> settled (store (heap st)) v ->
  mark_value v st <> Panic.
Proof.
  induction v as [| | | | | | |c IHc p IHp statics| | | | | | | | | |view|view| | | |]; intros st I Hp Hs;
    cbn [mark_value]; apply mark_properties_bind_settled; try done; intros st1 I1 A1; cbn [weak_identity]; try done.
  - pose proof (pre_adv roots _ _ _ I A1 Hp) as [Hr Ht]. destruct Hs as [Hsc Hsp].
    destruct Hp as [_ Ht0]. simpl in Ht, Ht0. rewrite !all_typed_app in Ht, Ht0.
    assert (pre roots st1 c) as Hpc by (split; [eapply reached_value; [exact Hr|set_solver]|naive_solver]).
    assert (pre roots st1 p) as Hpp by (split; [eapply reached_value; [exact Hr|set_solver]|naive_solver]).
    pose proof (IHc st1 I1 Hpc ltac:(eapply settled_evolve; [apply A1|naive_solver|done])) as Hn.
    pose proof (mark_value_goes roots c st1 I1 Hpc) as G.
    destruct (mark_value c st1) as [st2| |]; simpl; [|done|done]. destruct G as (I2 & A2 & _).
    pose proof (IHp st2 I2 (pre_adv roots _ _ _ I1 A2 Hpp)
      ltac:(eapply settled_evolve; [apply (adv_trans _ _ _ A1 A2)|naive_solver|done])) as Hn2.
    by destruct (mark_value p st2).
  - eapply mark_view_settled; [done|exact A1|]. apply Hp. by left.
  - eapply mark_view_settled; [done|exact A1|]. apply Hp. by left.
Qed.

Lemma mark_values_settled l : forall st, inv roots st -> (forall v, v ∈ l -> pre roots st v) ->
  (forall v, v ∈ l -> settled (store (heap st)) v) -> mark_values l st <> Panic.
Proof.
  induction l as [|v l IH]; intros st I Hp Hs; simpl; [done|].
  pose proof (mark_value_settled v st I (Hp v ltac:(by left)) (Hs v ltac:(by left))) as Hn.
  pose proof (mark_value_goes roots v st I (Hp v ltac:(by left))) as G.
  destruct (mark_value v st) as [st1| |]; simpl; [|done|done]. destruct G as (I1 & A1 & _).
  apply IH; [done| |].
  - intros w Hw. apply (pre_adv roots st); [done|done|]. apply Hp. by right.
  - intros w Hw. eapply settled_evolve; [apply A1|apply Hp; by right|apply Hs; by right].
Qed.

Lemma obind_panic (r : outcome unit St) (k : St -> outcome unit St) : r <> Panic -> (forall st, r = Ok st -> k st <> Panic) ->
  obind r k <> Panic.
Proof. destruct r as [st| |]; simpl; auto. Qed.

(** Values that may be marked and need no date cell. *)
Definition calm (st : St) (l : list Value) : Prop :=
  forall v, v ∈ l -> pre roots st v /\ settled (store (heap st)) v.

Lemma calm_adv st st' l : inv roots st -> adv st st' -> calm st l -> calm st' l.
Proof.
  intros I A H v Hv. destruct (H v Hv) as [Hp Hs]. split; [by apply (pre_adv roots st)|].
  eapply settled_evolve; [apply A|apply Hp|done].
Qed.

Lemma ready_pre st l : ready roots st (vals l) -> forall v, v ∈ l -> pre roots st v.
Proof. intros R v Hv. apply (R (inl v)). by apply elem_of_vals. Qed.

Lemma calm_values st l : inv roots st -> calm st l -> mark_values l st <> Panic.
Proof. intros I H. apply mark_values_settled; [done|intros v Hv; by apply H|intros v Hv; by apply H]. Qed.

Lemma mark_module_list_settled l : forall st, inv roots st -> ready roots st (concat (map t_module l)) ->
  (forall m, m ∈ l -> calm st (module_values m)) -> mark_module_list l st <> Panic.
Proof.
  induction l as [|m l IH]; intros st I R H; simpl in *; [done|]. apply ready_app in R as [Rm Rl].
  pose proof (walk_module roots st m I Rm) as W.
  assert (mark_module m st <> Panic) as Hn.
  { unfold mark_module. destruct (try_borrow _); [|done].
    apply obind_panic; [apply calm_values; [done|apply H; by left]|done]. }
  destruct (mark_module m st) as [st1| |]; simpl; [|done|done]. destruct W as (I1 & A1 & _).
  apply IH; [done|by apply (ready_adv roots st)|]. intros m' Hm'. apply (calm_adv st); [done|done|].
  apply H. by right.
Qed.

Definition maps_calm (st : St) (maps : list Id) : Prop :=
  forall id l b m, id ∈ maps -> store (heap st) !! id = Some (CModules l b) -> m ∈ l -> calm st (module_values m).

Lemma maps_calm_adv st st' maps : inv roots st -> adv st st' -> maps_calm st maps -> maps_calm st' maps.
Proof.
  intros I A H id l b m Hid Hs Hm. apply (calm_adv st); [done|done|].
  destruct (ev_new _ _ (adv_evolve _ _ A) _ _ Hs) as [Hs'|[(d & ?)|(r & p & ? & ? & ? & _)]]; [by eapply H|done|done].
Qed.

Lemma mark_modules_settled maps : forall st, inv roots st -> ready roots st (t_maps (store (heap st)) maps) ->
  maps_calm st maps -> mark_modules maps st <> Panic.
Proof.
  induction maps as [|map maps IH]; intros st I R H; [done|]. cbn [mark_modules t_maps] in *.
  apply ready_app in R as [Rm Rl]. pose proof (walk_map roots st map I Rm) as W.
  match type of W with goes _ _ ?r _ => set (step := r) in * end.
  apply obind_panic; [unfold step; clear step W|].
  - unfold cell_at, t_modules in *. destruct (store (heap st) !! map) as [[]|] eqn:Em; try done.
    destruct (try_borrow b); [|done]. apply mark_module_list_settled; [done|done|].
    intros m' Hm'. eapply H; [by left|exact Em|done].
  - intros st1 E1. rewrite E1 in W. destruct W as (I1 & A1 & _). apply IH; [done| |].
    + rewrite (t_maps_evolve _ _ maps (adv_evolve _ _ A1)). by apply (ready_adv roots st).
    + apply (maps_calm_adv st); [done|done|]. intros id l b m Hid. eapply H. by right.
Qed.

(** ** The roots *)

Definition t_roots (s : gmap Id Cell) (r : GcRoots) : list (Value + Id) :=
  t_maps s (modules_ r) ++ cells (envs_ r) ++ vals (values_ r).

Fixpoint t_interps (s : gmap Id Cell) (l : list (Z * (GcRoots * nat))) : list (Value + Id) :=
  match l with [] => [] | x :: l => t_roots s x.2.1 ++ t_interps s l end.

Lemma t_interps_evolve s s' l : evolve s s' -> t_interps s' l = t_interps s l.
Proof.
  intros E. induction l as [|x l IH]; simpl; [done|]. unfold t_roots. by rewrite (t_maps_evolve s s'), IH.
Qed.

Lemma walk_interps l : forall st, inv roots st -> ready roots st (t_interps (store (heap st)) l) ->
  goes roots st (mark_interps l st) (walked (t_interps (store (heap st)) l)).
Proof.
  induction l as [|[z [r n]] l IH]; intros st I R; cbn [mark_interps t_interps fst snd] in *; [by apply walk_nil|].
  unfold t_roots in *. rewrite <- !app_assoc in *. apply walk_bind; [done|done| |].
  { apply walk_maps; [done|]. by apply ready_app in R as [? _]. }
  intros st1 I1 A1 R1. rewrite <- (t_interps_evolve _ _ l (adv_evolve _ _ A1)) in *.
  walk_pure (mark_envs (envs_ r)); [done|done|apply walk_envs; [done|by apply ready_app in R1 as [? _]]|].
  intros st2 I2 A2 R2. apply walk_bind; [done|done|apply walk_values; [done|by apply ready_app in R2 as [? _]]|].
  intros st3 I3 A3 R3. rewrite <- (t_interps_evolve _ _ l (adv_evolve _ _ (adv_trans _ _ _ A2 A3))) in *. auto.
Qed.

Definition interps_calm (st : St) (l : list (Z * (GcRoots * nat))) : Prop :=
  forall x, x ∈ l -> maps_calm st (modules_ x.2.1) /\ calm st (values_ x.2.1).

Lemma mark_interps_settled l : forall st, inv roots st -> ready roots st (t_interps (store (heap st)) l) ->
  interps_calm st l -> mark_interps l st <> Panic.
Proof.
  induction l as [|[z [r n]] l IH]; intros st I R H; cbn [mark_interps t_interps fst snd] in *; [done|].
  apply ready_app in R as [R Rl]. unfold t_roots in R. apply ready_app in R as [Rm [Re Rv]%ready_app].
  destruct (H (z, (r, n))) as [Hm Hv]; [by left|]. simpl in Hm, Hv.
  apply obind_panic; [by apply mark_modules_settled|]. intros st1 E1.
  pose proof (walk_maps roots (modules_ r) st I Rm) as W1. rewrite E1 in W1. destruct W1 as (I1 & A1 & _).
  pose proof (walk_envs roots (envs_ r) st1 I1 (ready_adv roots _ _ _ I A1 Re)) as (I2 & A2 & _).
  pose proof (adv_trans _ _ _ A1 A2) as A12.
  apply obind_panic; [apply calm_values; [done|by apply (calm_adv st)]|]. intros st3 E3.
  pose proof (walk_values roots (values_ r) _ I2 (ready_adv roots _ _ _ I A12 Rv)) as W3. rewrite E3 in W3.
  destruct W3 as (I3 & A3 & _). pose proof (adv_trans _ _ _ A12 A3) as A13.
  apply IH; [done| |].
  - rewrite (t_interps_evolve _ _ l (adv_evolve _ _ A13)). by apply (ready_adv roots st).
  - intros x Hx. destruct (H x) as [? ?]; [by right|].
    split; [by apply (maps_calm_adv st)|by apply (calm_adv st)].
Qed.

End Panics.

(** ** The phase *)

Definition st_of (h : Heap) : St := {| heap := h; marker := new_marker |}.

(** What the phase traces from. *)
Definition t_heap_roots (h : Heap) : list (Value + Id) :=
  t_interps (store h) (map_to_list (interps (inner h)))
  ++ vals (map snd (map_to_list (pins (inner h)))) ++ vals (queued_roots h).

Definition roots_settled (h : Heap) : Prop :=
  interps_calm (heap_roots h) (st_of h) (map_to_list (interps (inner h)))
  /\ calm (heap_roots h) (st_of h) (map snd (map_to_list (pins (inner h)))).

Lemma queued_roots_next h x : x ∈ vals (queued_roots h) <-> x ∈ concat (map (queue_next (store h)) (root_queues (inner h))).
Proof.
  unfold queued_roots. set (l := root_queues (inner h)). clearbody l. induction l as [|id l IH]; simpl.
  { set_solver. }
  unfold vals in *. rewrite map_app, !elem_of_app, IH. unfold queue_next at 2. destruct (store h !! id) as [[]|]; done.
Qed.

Lemma t_maps_next s maps x : x ∈ t_maps s maps -> x ∈ concat (map (modules_next s) maps).
Proof.
  induction maps as [|m maps IH]; simpl; [done|]. rewrite !elem_of_app. intros [H|H]; [left|auto].
  by apply t_modules_next.
Qed.

Lemma t_interps_next s l x : x ∈ t_interps s l -> x ∈ concat (map (fun y => roots_next s y.2.1) l).
Proof.
  induction l as [|y l IH]; simpl; [done|]. unfold t_roots, roots_next.
  rewrite !elem_of_app. intros [[H|H]|H]; [left; left; by apply t_maps_next|naive_solver|auto].
Qed.

Lemma t_heap_roots_next h x : x ∈ t_heap_roots h -> x ∈ heap_roots h.
Proof.
  unfold t_heap_roots, heap_roots. rewrite !elem_of_app, queued_roots_next.
  intros [H|H]; [left; by apply t_interps_next|auto].
Qed.

Lemma heap_roots_typed h : heap_typed h -> nodes_typed (store h) (heap_roots h).
Proof.
  intros T. pose proof (ht_store _ T) as Ts. pose proof (ht_registry _ T) as Tr.
  unfold registry_refs in Tr. rewrite all_typed_app, !all_typed_concat in Tr. destruct Tr as [Ti Tp].
  unfold heap_roots. rewrite !nodes_typed_app. split_and!.
  - apply nodes_typed_concat. intros x Hx. specialize (Ti x Hx). unfold roots_refs in Ti.
    rewrite !all_typed_app in Ti. destruct Ti as (? & ? & ? & ?). unfold roots_next.
    rewrite !nodes_typed_app, nodes_typed_vals. split_and!; [|by eapply (nodes_typed_cells _ TEnv)|done].
    apply nodes_typed_concat. intros m _. by apply modules_typed.
  - apply nodes_typed_vals, all_typed_values. intros v (x & -> & Hx)%list_elem_of_fmap. by apply Tp.
  - apply nodes_typed_concat. intros q _. by apply queue_typed.
Qed.

Lemma t_heap_ready h : heap_typed h -> ready (heap_roots h) (st_of h) (t_heap_roots h).
Proof.
  intros T x Hx%t_heap_roots_next. split; [by constructor|]. by apply (heap_roots_typed h T).
Qed.

Lemma st_of_drain h : heap_typed h -> drain_inv (heap_roots h) (st_of h).
Proof.
  intros T. split; [|intros id; set_solver]. split; simpl; try done; intros id; set_solver.
Qed.

(** Moving a state under or out of the borrow of the heap changes nothing else. *)
Definition relocked (b : bool) (st : St) : St := set_heap (set_locked b (heap st)) st.

Lemma relocked_drain roots b st : drain_inv roots st -> drain_inv roots (relocked b st).
Proof.
  intros [[[] ? ? ? ? ?] V]. split; [split; simpl; try done; by split|]. intros id H.
  destruct (V id H) as [?|(c & Hc & Hw)]; [by left|right]. by exists c.
Qed.

Lemma relocked_heap_typed b h : heap_typed h -> heap_typed (set_locked b h).
Proof. intros []. by split. Qed.

(** The part of the phase that runs under the borrow of the heap. *)
Definition borrowed_phase (h : Heap) : outcome unit St :=
  (let* st := mark_interps (map_to_list (interps (inner h))) (relocked true (st_of h)) in
   mark_values (map snd (map_to_list (pins (inner h)))) st)%rust.

Lemma borrowed_phase_goes h : heap_typed h ->
  goes (heap_roots h) (relocked true (st_of h)) (borrowed_phase h)
    (walked (t_interps (store h) (map_to_list (interps (inner h)))
             ++ vals (map snd (map_to_list (pins (inner h)))))).
Proof.
  intros T. pose proof (di_inv _ _ (relocked_drain _ true _ (st_of_drain h T))) as I0.
  assert (ready (heap_roots h) (relocked true (st_of h)) (t_heap_roots h)) as R0 by apply (t_heap_ready h T).
  unfold t_heap_roots in R0. rewrite app_assoc in R0. apply ready_app in R0 as [R0 _].
  apply walk_bind; [done|done| |].
  - apply walk_interps; [done|]. by apply ready_app in R0 as [? _].
  - intros st1 I1 A1 R1. by apply walk_values.
Qed.

Lemma borrowed_phase_settled h : heap_typed h -> roots_settled h -> borrowed_phase h <> Panic.
Proof.
  intros T [Hi Hp]. pose proof (di_inv _ _ (relocked_drain _ true _ (st_of_drain h T))) as I0.
  assert (ready (heap_roots h) (relocked true (st_of h)) (t_heap_roots h)) as R0 by apply (t_heap_ready h T).
  apply ready_app in R0 as [R0 _]. apply obind_panic; [by apply (mark_interps_settled (heap_roots h))|].
  intros st1 E1. pose proof (walk_interps _ _ _ I0 R0) as W. rewrite E1 in W. destruct W as (I1 & A1 & _).
  apply (calm_values (heap_roots h)); [done|]. by apply (calm_adv _ (relocked true (st_of h))).
Qed.

(** How the phase ends. *)
Record phase_done (h : Heap) (st : St) : Prop := {
  pd_complete : complete (heap_roots h) st;
  pd_evolve : evolve (store h) (store (heap st));
  pd_interps : interps (inner (heap st)) = interps (inner h);
  pd_pins : pins (inner (heap st)) = pins (inner h);
  pd_external : external (heap st) = external h;
  pd_locked : locked (heap st) = false;
  pd_roots : walked (t_heap_roots h) st;
}.

Lemma looping_start roots st : drain_inv roots st -> looping roots ∅ 0 st.
Proof.
  intros D. split; [done|lia| |].
  - intros m e Hm. by apply elem_of_nil in Hm.
  - intros key vs v H. by rewrite lookup_empty in H.
Qed.

Lemma drain_ephemerons_goes roots st : drain_inv roots st -> finished roots st (drain_ephemerons st).
Proof.
  intros D. apply drain_loop_goes; [by apply looping_start|]. pose proof (turns_work st). unfold turns, pot in *.
  pose proof (pending_size (store (heap st))). lia.
Qed.

Lemma mark_phase_goes h : heap_typed h ->
  match mark_phase h with
  | Ok st => phase_done h st
  | Err _ => False
  | Panic => ~ roots_settled h
  end.
Proof.
  intros T. pose proof (relocked_drain _ true _ (st_of_drain h T)) as D0.
  pose proof (borrowed_phase_goes h T) as G. pose proof (borrowed_phase_settled h T) as Hn.
  assert (mark_phase h = (let* st := borrowed_phase h in
    let* st := mark_values (queued_roots h) (relocked false st) in drain_ephemerons st)%rust) as ->.
  { unfold mark_phase, borrowed_phase. change {| heap := _; marker := _ |} with (relocked true (st_of h)).
    by destruct (mark_interps _ _). }
  destruct (borrowed_phase h) as [st2| |]; cbn [obind] in *; [|done|by intros ?%Hn].
  destruct G as (I2 & A2 & W2).
  pose proof (relocked_drain _ false _ (drain_inv_adv _ _ _ D0 I2 A2)) as D3.
  set (st3 := relocked false st2) in *.
  assert (ready (heap_roots h) st3 (vals (queued_roots h))) as R3.
  { pose proof (t_heap_ready h T) as R. unfold t_heap_roots in R. rewrite app_assoc in R.
    apply ready_app in R as [_ R]. by apply (ready_adv _ (relocked true (st_of h)) st2 _ (di_inv _ _ D0) A2) in R. }
  pose proof (walk_values _ _ _ (di_inv _ _ D3) R3) as G3.
  destruct (mark_values (queued_roots h) st3) as [st4| |]; cbn [obind]; [|done|done].
  destruct G3 as (I4 & A4 & W4).
  pose proof (drain_ephemerons_goes _ st4 (drain_inv_adv _ _ _ D3 I4 A4)) as F.
  unfold finished in F. destruct (drain_ephemerons st4) as [st5| |]; [|done|by rewrite (adv_locked _ _ A4) in F].
  destruct F as [C G5]. split; [done|..].
  - eapply evolve_trans; [apply (adv_evolve _ _ A2)|]. eapply evolve_trans; [apply (adv_evolve _ _ A4)|apply G5].
  - rewrite (grow_interps _ _ G5), (adv_interps _ _ A4). exact (adv_interps _ _ A2).
  - rewrite (grow_pins _ _ G5), (adv_pins _ _ A4). exact (adv_pins _ _ A2).
  - rewrite (grow_external _ _ G5), (adv_external _ _ A4). exact (adv_external _ _ A2).
  - by rewrite (grow_locked _ _ G5), (adv_locked _ _ A4).
  - unfold t_heap_roots. rewrite app_assoc. apply walked_app.
    + apply (walked_grow (heap_roots h) st3); [apply D3|by eapply grow_trans; [apply adv_grow|]| |done].
      pose proof (t_heap_ready h T) as R. unfold t_heap_roots in R. rewrite app_assoc in R.
      apply ready_app in R as [R _]. by apply (ready_adv _ (relocked true (st_of h)) st2 _ (di_inv _ _ D0) A2), ready_typed in R.
    + apply (walked_grow (heap_roots h) st4); [done|done| |done].
      by apply (ready_adv _ st3 st4 _ (di_inv _ _ D3) A4), ready_typed in R3.
Qed.

(** ** Marked is reachable *)

Section Exact.
Context (h : Heap) (st : St) (T : heap_typed h) (D : phase_done h st).
Context (Hb : borrowed (marker st) = false).
Context (Q : quiescent h) (Hd : no_deferred h) (Hsus : suspended h = false).

Let s := store (heap st).

Lemma final_cell id c : s !! id = Some c -> store h !! id = Some c \/ (exists d, c = CDate d)
  \/ exists r p j d, c = CObject (exotic_cell r p) /\ s !! j = Some (CDate d) /\ date_properties d = Some id.
Proof. apply (ev_new _ _ (pd_evolve _ _ D)). Qed.

Lemma not_borrowed P : borrowed (marker st) = true \/ P -> P.
Proof. rewrite Hb. naive_solver. Qed.

Lemma marked_visited id : id ∈ marked (marker st) ->
  exists c, s !! id = Some c /\ (forall x, x ∈ t_cell s c -> node_done st x)
    /\ (holds_weak c = true -> id ∈ weak_cells (marker st)) /\ readable c = true.
Proof.
  intros (c & Hc & W & K & R)%(co_visited _ _ (pd_complete _ _ D)). exists c. split_and!; [done| | |].
  - by apply not_borrowed.
  - intros H. by apply not_borrowed, K.
  - apply not_borrowed. destruct R; auto.
Qed.

Lemma no_deferred_next id x : x ∈ modules_next s id -> x ∈ t_modules s id.
Proof.
  unfold modules_next, t_modules. destruct (s !! id) as [c|] eqn:H; [|done]. destruct c; try done.
  destruct (final_cell _ _ H) as [H'|[(d & ?)|(r & p & ? & ? & ? & _)]]; [|done|done].
  rewrite !elem_of_concat. intros (k & (md & -> & Hm)%list_elem_of_fmap & Hx). exists (t_module md).
  split; [apply list_elem_of_fmap; eauto|]. unfold module_next, t_module in *.
  rewrite (Hd _ _ _ _ H' Hm) in Hx. set_solver.
Qed.

Lemma realm_traced r x : x ∈ realm_next s r -> x ∈ t_realm s r.
Proof. unfold realm_next, t_realm. rewrite !elem_of_app. intros [H|H]; [left; by apply no_deferred_next|by right]. Qed.

(** A readable generator is not suspended, a task neither. *)
Lemma generator_idle id g : s !! id = Some (CGenerator g) -> try_borrow (b_generator g) = true -> g_coroutine g = None.
Proof.
  intros H Hr. destruct (final_cell _ _ H) as [H'|[(d & ?)|(r & p & ? & ? & ? & _)]]; [|done|done].
  destruct (g_coroutine g) as [l|] eqn:E; [|done]. exfalso.
  pose proof (q_registered_generators _ Q _ _ H' ltac:(congruence)) as Hin.
  unfold suspended in Hsus. apply orb_false_elim in Hsus as [Hg _]. rewrite <- not_true_iff_false in Hg.
  apply Hg, existsb_exists. exists id. split; [by apply list_elem_of_In|]. rewrite H', Hr, E. by case_bool_decide; [|destruct H0; eauto].
Qed.

Lemma task_idle id t : s !! id = Some (CAsyncTask t) -> try_borrow (b_task t) = true /\ t_coroutine t = None.
Proof.
  intros H. destruct (final_cell _ _ H) as [H'|[(d & ?)|(r & p & ? & ? & ? & _)]]; [|done|done].
  assert (try_borrow (b_task t) = true) as Hr by (pose proof (q_tasks _ Q _ _ H'); by destruct (b_task t)).
  split; [done|]. destruct (t_coroutine t) as [l|] eqn:E; [|done]. exfalso.
  pose proof (q_registered_tasks _ Q _ _ H' ltac:(congruence)) as Hin.
  unfold suspended in Hsus. apply orb_false_elim in Hsus as [_ Hg]. rewrite <- not_true_iff_false in Hg.
  apply Hg, existsb_exists. exists id. split; [by apply list_elem_of_In|]. rewrite H', Hr, E. by case_bool_decide; [|destruct H0; eauto].
Qed.

Lemma cell_traced id c x : s !! id = Some c -> readable c = true -> x ∈ cell_next s c -> x ∈ t_cell s c.
Proof.
  intros H R. destruct c; simpl; try done.
  - destruct (module_realm e) as [r|]; simpl; [|done]. rewrite !elem_of_app.
    intros [Hx|Hx]; [left; by apply realm_traced|by right].
  - rewrite (generator_idle _ _ H R). simpl. rewrite !elem_of_app. intros [Hx|Hx]; [left; by apply realm_traced|].
    set_solver.
  - destruct (task_idle _ _ H) as [-> ->]. simpl. set_solver.
Qed.

(** The property cell of a marked exotic value is marked. *)
Lemma exotic_next_done id : id ∈ marked (marker st) -> exotic_done s (marked (marker st)) id ->
  forall x, x ∈ exotic_next s id -> node_done st x.
Proof.
  intros Hm He x. destruct (marked_visited id Hm) as (c & Hc & _ & _ & R). unfold exotic_next, exotic_done in *.
  rewrite Hc in *. destruct c; try (by intros []%elem_of_nil); simpl in R.
  all: try (intros ->%list_elem_of_singleton; simpl; auto; fail).
  - intros ->%list_elem_of_singleton. simpl. apply He.
    destruct (final_cell _ _ Hc) as [H'|[(d & ?)|(r & p & ? & ? & ? & _)]]; [|done|done].
    pose proof (q_iterators _ Q _ _ _ H'). by destruct b.
  - destruct He as (q & -> & Hq). by intros ->%list_elem_of_singleton.
Qed.

Lemma value_next_done v x : done_in st v -> x ∈ value_next s v -> node_done st x.
Proof.
  unfold done_in. fold s. destruct v; cbn [value_done value_next]; intros Hv Hx;
    repeat (apply elem_of_cons in Hx as [->|Hx]; [simpl; naive_solver|]);
    try (by apply elem_of_nil in Hx).
  all: try (by eapply exotic_next_done; [..|exact Hx]; apply Hv).
  all: destruct Hv as (Hm & He & Hw); apply elem_of_app in Hx as [Hx|Hx]; [by eapply exotic_next_done|].
  all: unfold view_done in Hw; destruct (s !! view) as [[]|]; try (by apply elem_of_nil in Hx).
  all: apply list_elem_of_singleton in Hx as ->; simpl; unfold done_in; by destruct shared.
Qed.

Lemma roots_done x : x ∈ heap_roots h -> node_done st x.
Proof.
  intros H. apply (not_borrowed (forall x, x ∈ t_heap_roots h -> node_done st x) (pd_roots _ _ D)).
  unfold heap_roots, t_heap_roots in *. rewrite !elem_of_app, queued_roots_next in *.
  destruct H as [H|?]; [left|auto].
  induction (map_to_list (interps (inner h))) as [|y l IH]; simpl in *; [done|].
  unfold roots_next, t_roots in *. rewrite !elem_of_app in *. destruct H as [[H|H]|H]; [left; left|naive_solver|auto].
  clear -H Hd. induction (modules_ y.2.1) as [|m ms IHm]; simpl in *; [done|].
  apply elem_of_app. apply elem_of_app in H as [H|H]; [left|auto].
  unfold modules_next, t_modules in *. destruct (store h !! m) as [[]|] eqn:E; try done.
  apply elem_of_concat in H as (k & (md & -> & Hm)%list_elem_of_fmap & Hx). apply elem_of_concat.
  exists (t_module md). split; [apply list_elem_of_fmap; eauto|].
  unfold module_next, t_module in *. rewrite (Hd _ _ _ _ E Hm) in Hx. set_solver.
Qed.

Lemma reached_done x : reached s (heap_roots h) x -> node_done st x.
Proof.
  induction 1 as [x Hx|v x _ IH Hx|id c x _ IH Hc Hx|id o l key v _ IH1 Ho Hw Hl _ IH2].
  - by apply roots_done.
  - by eapply value_next_done.
  - destruct (marked_visited id IH) as (c' & Hc' & Hall & _ & R). rewrite Hc in Hc'. injection Hc' as <-.
    by apply Hall, (cell_traced id).
  - simpl in *. destruct (marked_visited id IH1) as (c' & Hc' & _ & Hk & _). rewrite Ho in Hc'. injection Hc' as <-.
    apply (co_entries _ _ (pd_complete _ _ D) id (key, v)); [|by exists o, l|done].
    apply Hk. unfold holds_weak. by rewrite Hw.
Qed.

Lemma marked_iff_reached id : id ∈ marked (marker st) <-> reached s (heap_roots h) (inr id).
Proof.
  split; [apply (inv_sound _ _ (co_inv _ _ (pd_complete _ _ D)))|]. apply (reached_done (inr id)).
Qed.

End Exact.
End CollectPhase.
