(* ===== verification/CollectSweep.v ===== *)
(** * Reference counts, pruning and the sweep

    What dropping references frees ([release]), what the weak containers keep, and
    what the sweep does to marked and unmarked cells. *)
From stdpp Require Import prelude list strings gmap sets.
From Stdlib Require Import ZArith Lia.
From S2P Require Import Prelude Heap Collect CollectSpec CollectMark CollectVisit.
Import ListNotations Heap Collect CollectSpec CollectMark CollectVisit.

Module CollectSweep.

(** ** Releasing *)

Definition ref_ids (c : Cell) : list Id := map fst (cell_refs c).

Lemma elem_of_store_refs s id : id ∈ store_refs s <-> exists j c, s !! j = Some c /\ id ∈ ref_ids c.
Proof.
  unfold store_refs. rewrite elem_of_union_list. split.
  - intros (X & ([j c] & -> & H)%list_elem_of_fmap & Hid). exists j, c.
    apply elem_of_map_to_list in H. by rewrite elem_of_list_to_set in Hid.
  - intros (j & c & H & Hid). exists (list_to_set (ref_ids c)). rewrite elem_of_list_to_set. split; [|done].
    apply list_elem_of_fmap. exists (j, c). split; [done|by apply elem_of_map_to_list].
Qed.

Definition owned (owners : gset Id) (s : gmap Id Cell) (id : Id) : Prop :=
  id ∈ owners \/ exists j c, s !! j = Some c /\ id ∈ ref_ids c.

Lemma elem_of_owned owners s id : id ∈ owners ∪ store_refs s <-> owned owners s id.
Proof. by rewrite elem_of_union, elem_of_store_refs. Qed.

Definition released (owners : gset Id) (s : gmap Id Cell) : gmap Id Cell :=
  release_loop (size s) owners s.

Lemma release_step_lookup owners s id : filter (fun x => x.1 ∈ owners ∪ store_refs s) s !! id
  = if bool_decide (id ∈ owners ∪ store_refs s) then s !! id else None.
Proof.
  case_bool_decide as H.
  - destruct (s !! id) as [c|] eqn:E; [by apply map_lookup_filter_Some|].
    apply map_lookup_filter_None. by left.
  - apply map_lookup_filter_None. right. by intros c _.
Qed.

Lemma release_sub fuel owners : forall s, release_loop fuel owners s ⊆ s.
Proof.
  induction fuel as [|fuel IH]; intros s; simpl; [done|]. case_match; [done|].
  etrans; [apply IH|]. apply map_filter_subseteq.
Qed.

(** A set of cells that support each other stays. *)
Lemma release_support fuel owners (S : Id -> Prop) : forall s,
  (forall id, S id -> id ∈ owners \/ exists j c, S j /\ s !! j = Some c /\ id ∈ ref_ids c) ->
  forall id, S id -> release_loop fuel owners s !! id = s !! id.
Proof.
  induction fuel as [|fuel IH]; intros s HS id Hid; simpl; [done|]. case_match; [done|].
  set (s' := filter _ s).
  assert (forall id, S id -> s' !! id = s !! id) as Hs'.
  { intros j Hj. unfold s'. rewrite release_step_lookup. case_bool_decide as Hn; [done|].
    destruct Hn. apply elem_of_owned. destruct (HS j Hj) as [?|(k & c & _ & Hk & Hr)]; [by left|right; eauto]. }
  rewrite (IH s'); [by apply Hs'| |done]. intros j Hj. destruct (HS j Hj) as [?|(k & c & Sk & Hk & Hr)]; [by left|].
  right. exists k, c. by rewrite Hs'.
Qed.

(** Whatever remains is owned. *)
Lemma release_owned fuel owners : forall s, size s <= fuel ->
  forall id c, release_loop fuel owners s !! id = Some c -> owned owners (release_loop fuel owners s) id.
Proof.
  induction fuel as [|fuel IH]; intros s Hf id c H; simpl in *.
  { apply Nat.le_0_r, map_size_empty_iff in Hf. subst s. by rewrite lookup_empty in H. }
  set (s' := filter _ s) in *. destruct (size s' =? size s) eqn:E.
  - apply Nat.eqb_eq in E. assert (s' = s) as Es.
    { assert (s' ⊆ s) as Hsub by apply map_filter_subseteq.
      apply map_eq. intros j. destruct (s' !! j) as [x|] eqn:Ej; [symmetry; by eapply lookup_weaken|].
      destruct (s !! j) as [x|] eqn:Ej'; [|done]. exfalso.
      assert (s' ⊆ delete j s) as Hsub2.
      { apply map_subseteq_spec. intros k y Hk. rewrite lookup_delete_ne by congruence. by eapply lookup_weaken. }
      apply map_subseteq_size in Hsub2. rewrite map_size_delete_Some in Hsub2 by eauto.
      assert (size s <> 0); [|lia]. intros ->%map_size_empty_iff. by rewrite lookup_empty in Ej'. }
    rewrite <- Es in H. apply map_lookup_filter_Some in H as [_ H]. by apply elem_of_owned in H.
  - apply Nat.eqb_neq in E.
    assert (size s' <= size s) by apply map_subseteq_size, map_filter_subseteq.
    apply (IH s' ltac:(lia) id c H).
Qed.

(** What an owner or a remaining cell refers to is not freed. *)
Lemma release_owner_kept fuel owners : forall s id, id ∈ owners -> release_loop fuel owners s !! id = s !! id.
Proof. intros s id H. apply (release_support fuel owners (fun id => id ∈ owners)); auto. Qed.

Lemma release_ref_kept fuel owners : forall s j c id, release_loop fuel owners s !! j = Some c ->
  id ∈ ref_ids c -> release_loop fuel owners s !! id = s !! id.
Proof.
  induction fuel as [|fuel IH]; intros s j c id Hj Hid; simpl in *; [done|]. case_match; [done|].
  set (s' := filter _ s) in *. rewrite (IH s' j c id Hj Hid). unfold s'. rewrite release_step_lookup.
  case_bool_decide as Hn; [done|]. destruct Hn. apply elem_of_owned. right. exists j, c.
  split; [|done]. apply (lookup_weaken _ _ _ _ Hj). etrans; [apply release_sub|]. apply map_filter_subseteq.
Qed.

Lemma release_typed h : heap_typed h -> heap_typed (release h).
Proof.
  intros [T1 T2 T3 T4 T5 T6]. unfold release. set (s' := release_loop _ _ _).
  assert (s' ⊆ store h) as Hsub by apply release_sub.
  assert (forall r, typed (store h) r -> s' !! r.1 = store h !! r.1 -> typed s' r) as Hty.
  { intros r Hr E. unfold typed. by rewrite E. }
  split; simpl.
  - intros id c H. pose proof (lookup_weaken _ _ _ _ H Hsub) as H0. destruct (T1 _ _ H0) as [A B]. split.
    + intros r Hr. apply Hty; [by apply A|]. eapply release_ref_kept; [exact H|]. by apply list_elem_of_fmap_2.
    + destruct c; simpl in *; try done. destruct (date_realm d) as [realm|]; [|done].
      intros [x Hx]. pose proof (lookup_weaken _ _ _ _ Hx Hsub) as Hx0. specialize (B ltac:(eauto)).
      unfold typed in *. simpl in *. by rewrite Hx, <- Hx0.
  - intros r Hr. apply Hty; [by apply T2|]. apply release_owner_kept. unfold owner_refs.
    apply elem_of_union. left. apply elem_of_list_to_set. by apply list_elem_of_fmap_2.
  - intros r Hr. apply Hty; [by apply T3|]. apply release_owner_kept. unfold owner_refs.
    apply elem_of_union. right. apply elem_of_list_to_set. by apply list_elem_of_fmap_2.
  - intros id Hid. specialize (T4 id Hid). destruct (s' !! id) as [c|] eqn:E; [|done].
    pose proof (lookup_weaken _ _ _ _ E Hsub). congruence.
  - intros id d realm H. eapply T5. by eapply lookup_weaken.
  - intros k id Hid. destruct (T6 k id Hid) as [? Ht]. split; [done|]. intros c Hc. apply Ht. by eapply lookup_weaken.
Qed.

(** ** Clearing *)

(** The kinds of cell the sweep looks through. *)
Definition sweepable (c : Cell) : bool := existsb (fun k => bool_decide (tag_of c = kind_tag k)) kinds.

Lemma clear_tag c c' : clear_cell c = Ok (Some c') -> tag_of c' = tag_of c.
Proof.
  destruct c; simpl; unfold clear_object, clear_array, clear_env, clear_promise, clear_generator;
    intros H; repeat case_match; simplify_eq/=; done.
Qed.

Lemma clear_object_refs o o' r : clear_object o = Ok (Some o') -> r ∈ cell_refs (CObject o') -> r ∈ cell_refs (CObject o).
Proof.
  unfold clear_object. intros H. repeat case_match; simplify_eq/=; rewrite !values_refs_app, !elem_of_app;
    unfold values_refs at 1 2; simpl; rewrite ?elem_of_nil; naive_solver.
Qed.

Lemma clear_array_refs a a' r : clear_array a = Some a' -> r ∈ cell_refs (CArray a') -> r ∈ cell_refs (CArray a).
Proof.
  unfold clear_array. intros H. case_match; simplify_eq/=. unfold array_children. simpl.
  rewrite !values_refs_app, !elem_of_app. simpl. rewrite ?elem_of_nil. naive_solver.
Qed.

(** Clearing only drops references. *)
Lemma clear_refs c c' r : clear_cell c = Ok (Some c') -> r ∈ cell_refs c' -> r ∈ cell_refs c.
Proof.
  destruct c; simpl; intros H; simplify_eq/=; auto.
  - destruct (clear_object o) as [[o'|]| |] eqn:E; simplify_eq/=. by apply (clear_object_refs o o').
  - destruct (clear_array a) as [a'|] eqn:E; simplify_eq/=. by apply (clear_array_refs a a').
  - unfold clear_env in H. case_match; simplify_eq/=. by rewrite elem_of_nil.
  - unfold clear_promise in H. case_match; simplify_eq/=. set_solver.
  - unfold clear_generator in H. case_match; simplify_eq/=. rewrite !elem_of_cons, !elem_of_app. simpl.
    rewrite ?elem_of_nil. naive_solver.
  - case_match; simplify_eq/=. by rewrite elem_of_nil.
Qed.

(** Clearing again changes nothing. *)
Lemma clear_again c c' : clear_cell c = Ok (Some c') -> clear_cell c' = Ok (Some c').
Proof.
  destruct c; simpl; intros H; simplify_eq/=; auto.
  - unfold clear_object in *.
    destruct (try_borrow_mut (b_slots o)) eqn:E1, (try_borrow_mut (b_meta o)) eqn:E2,
      (try_borrow_mut (b_index o)) eqn:E3; simplify_eq/=. unfold clear_object. simpl. rewrite E1, E2, E3. simpl.
    by destruct (try_borrow_mut (b_weak o)), (try_borrow_mut (b_shape o)).
  - unfold clear_array in *. destruct (try_borrow_mut (b_elements a)) eqn:E1, (try_borrow_mut (b_named a)) eqn:E2,
      (try_borrow_mut (b_array_meta a)) eqn:E3; simplify_eq/=. unfold clear_array. simpl. by rewrite E1, E2, E3.
  - unfold clear_env in H. destruct (try_borrow_mut (b_env e)) eqn:E1; simplify_eq/=. unfold clear_env. simpl. by rewrite E1.
  - unfold clear_promise in H. destruct (try_borrow_mut (b_promise p)) eqn:E1; simplify_eq/=. unfold clear_promise. simpl. by rewrite E1.
  - unfold clear_generator in H. destruct (try_borrow_mut (b_generator g)) eqn:E1; simplify_eq/=. unfold clear_generator. simpl. by rewrite E1.
  - destruct (try_borrow_mut b) eqn:E1; simplify_eq/=. by rewrite E1.
Qed.

(** ** What is kept *)

(** [m] is the marked set and [s1] the heap as marking left it.  References that
    survive the pruning of weak maps: *)
Section Kept.
Context (m : gset Id) (owners : gset Id) (s1 : gmap Id Cell).

Definition live_refs (c : Cell) : list Id :=
  match c with CObject o => ref_ids (CObject (set_weak
      match weak o with WMap l => WMap (base.filter (fun e => e.1 ∈ m) l) | w => w end o))
  | c => ref_ids c
  end.

(** Cells the sweep leaves alone. *)
Definition solid (id : Id) (c : Cell) : Prop := id ∈ m \/ sweepable c = false.

Inductive kept : Id -> Prop :=
| kept_owner id : id ∈ owners -> kept id
| kept_ref j c id : kept j -> s1 !! j = Some c -> solid j c -> id ∈ live_refs c -> kept id.

(** [c'] is [c] with its weak containers pruned or jobs added. *)
Inductive pruned : Cell -> Cell -> Prop :=
| pruned_same c : pruned c c
| pruned_weak o : pruned (CObject o) (CObject (set_weak (prune_storage m (weak o)) o))
| pruned_jobs q jobs : pruned (CJobs q)
    (CJobs {| microtasks := microtasks q ++ jobs; others := others q; dispatch_depth := dispatch_depth q;
              b_jobs := b_jobs q |}).

(** The state of a pass: kept cells are there, solid ones up to pruning; a value
    pruned from a registry is on its queue. *)
Record passing (s : gmap Id Cell) : Prop := {
  ps_kept : forall id c, kept id -> s1 !! id = Some c -> exists c', s !! id = Some c'
    /\ (solid id c -> pruned c c');
  ps_held : forall id o callback records jobs v, kept id -> s1 !! id = Some (CObject o) -> solid id (CObject o) ->
    weak o = WRegistry callback records jobs -> v ∈ eligible m (weak o) ->
    s !! id = Some (CObject o) \/ exists q, kept jobs /\ s !! jobs = Some (CJobs q) /\ v ∈ queue_values q;
}.

Lemma elem_of_values_ids id l : id ∈ map fst (values_refs l) <-> exists v, v ∈ l /\ id ∈ map fst (value_refs v).
Proof.
  rewrite list_elem_of_fmap. setoid_rewrite elem_of_values_refs. split.
  - intros (r & -> & v & Hv & Hr). exists v. split; [done|by apply list_elem_of_fmap_2].
  - intros (v & Hv & (r & -> & Hr)%list_elem_of_fmap). eauto.
Qed.

Lemma elem_of_object_ids id o : id ∈ ref_ids (CObject o) <->
  id ∈ map fst (values_refs (map snd (slots o) ++ meta_values (meta o)
    ++ map Symbol (option_list (boxed_symbol (meta o))) ++ map Symbol (symbol_keys (meta o))))
  \/ id ∈ map fst (weak_refs (weak o)).
Proof. unfold ref_ids. simpl. by rewrite map_app, elem_of_app. Qed.

(** A surviving reference is in the pruned cell, or was a held value. *)
Lemma live_refs_pruned c c' id : pruned c c' -> id ∈ live_refs c ->
  id ∈ ref_ids c' \/ exists o v callback records jobs, c = CObject o /\ c' <> CObject o
    /\ weak o = WRegistry callback records jobs /\ v ∈ eligible m (weak o) /\ id ∈ map fst (value_refs v).
Proof.
  destruct 1 as [c|o|q jobs]; simpl.
  - intros H. left. destruct c; try done. simpl in *. apply elem_of_object_ids in H. apply elem_of_object_ids. simpl in *.
    destruct H as [?|H]; [by left|right]. destruct (weak o); simpl in *; try done.
    apply elem_of_values_ids in H as (v & (e & -> & [_ He]%list_elem_of_filter)%list_elem_of_fmap & Hv).
    apply elem_of_values_ids. exists e.2. split; [by apply list_elem_of_fmap_2|done].
  - rewrite !elem_of_object_ids. simpl. intros [?|H]; [by left; left|].
    destruct (weak o) as [|l|[t|]|callback records jobs] eqn:Ew; simpl in *; auto.
    apply elem_of_values_ids in H as (v & [-> |(r & -> & Hr)%list_elem_of_fmap]%elem_of_cons & Hv).
    + left. right. apply elem_of_values_ids. exists callback. split; [by left|done].
    + destruct (decide (target r ∈ m)) as [Hm|Hm].
      * left. right. apply elem_of_values_ids. exists (held r). split; [|done]. right.
        apply list_elem_of_fmap_2. by apply list_elem_of_filter.
      * right. exists o, (held r), callback, records, jobs. rewrite Ew. split_and!; try done.
        -- intros [= E]. apply (f_equal weak) in E. simpl in E. rewrite Ew in E. injection E as E.
           assert (r ∈ base.filter (fun r => target r ∈ m) records) as Hin by by rewrite E.
           by apply list_elem_of_filter in Hin as [? _].
        -- simpl. apply list_elem_of_fmap_2. by apply list_elem_of_filter.
  - intros H. left. unfold ref_ids in *. simpl in *.
    apply elem_of_values_ids in H as (v & Hv & Hid). apply elem_of_values_ids. exists v. split; [|done].
    unfold queue_values in *. simpl. rewrite concat_app, !elem_of_app in *. naive_solver.
Qed.

(** Kept cells support each other through a pass. *)
Lemma passing_support s : passing s -> forall id, kept id ->
  id ∈ owners \/ exists j c, kept j /\ s !! j = Some c /\ id ∈ ref_ids c.
Proof.
  intros P id [i Hi|j c i Hj Hc Hs Hr]; [by left|right].
  destruct (ps_kept _ P j c Hj Hc) as (c' & Hc' & Hp).
  destruct (live_refs_pruned c c' i (Hp Hs) Hr) as [H|(o & v & cb & rs & q & -> & Hne & Hw & Hv & Hi)]; [eauto|].
  destruct (ps_held _ P j o cb rs q v Hj Hc Hs Hw Hv) as [H|(qc & Hk & Hq & Hqv)]; [congruence|].
  exists q, (CJobs qc). split_and!; [done..|]. apply elem_of_values_ids. eauto.
Qed.

Lemma passing_release fuel s : passing s -> passing (release_loop fuel owners s).
Proof.
  intros P. pose proof (release_support fuel owners kept s (passing_support s P)) as R. split.
  - intros id c Hk Hc. rewrite (R id Hk). by apply (ps_kept _ P).
  - intros id o cb rs q v Hk Hc Hs Hw Hv. rewrite (R id Hk).
    destruct (ps_held _ P id o cb rs q v Hk Hc Hs Hw Hv) as [?|(qc & Hkq & Hq & Hqv)]; [by left|right].
    exists qc. by rewrite (R q Hkq).
Qed.

End Kept.
(** ** Pruning *)

Lemma filter_idem {A} (P : A -> Prop) `{forall x, Decision (P x)} (l : list A) :
  base.filter P (base.filter P l) = base.filter P l.
Proof.
  induction l as [|x l IH]; [done|]. rewrite !filter_cons. case_decide as Hx; [|done].
  rewrite filter_cons, decide_True by done. by rewrite IH.
Qed.

Lemma prune_storage_idem m w : prune_storage m (prune_storage m w) = prune_storage m w.
Proof.
  destruct w as [|l|[t|]|cb rs q]; simpl; try done; rewrite ?filter_idem; try done.
  by destruct (bool_decide (t ∈ m)) eqn:E; simpl; rewrite ?E.
Qed.

Lemma eligible_pruned m w : eligible m (prune_storage m w) = [].
Proof.
  destruct w as [|l|[t|]|cb rs q]; simpl; try done.
  induction rs as [|r rs IH]; [done|]. rewrite filter_cons. case_decide as Hr; [|done].
  rewrite filter_cons, decide_False by naive_solver. done.
Qed.

Definition add_jobs (jobs : list (list Value)) (q : JobQueue) : JobQueue :=
  {| microtasks := microtasks q ++ jobs; others := others q; dispatch_depth := dispatch_depth q;
     b_jobs := b_jobs q |}.

Lemma set_store_id h : set_store (store h) h = h.
Proof. by destruct h. Qed.

(** The jobs queued for the held values. *)
Lemma push_callbacks_ok cb el q : forall h h', push_callbacks cb el q h = Ok h' ->
  h' = set_store (match store h !! q with
                  | Some (CJobs qc) => <[q := CJobs (add_jobs (map (fun v => [cb; v]) el) qc)]> (store h)
                  | _ => store h
                  end) h.
Proof.
  induction el as [|v el IH]; intros h h'; simpl.
  - intros [= <-]. destruct (store h !! q) as [[]|] eqn:E; rewrite ?set_store_id; try done.
    unfold add_jobs. simpl. rewrite app_nil_r. destruct q0. by rewrite insert_id, set_store_id.
  - destruct (store h !! q) as [[]|] eqn:E; try (intros [= <-]; by rewrite set_store_id).
    destruct (try_borrow_mut _); [|done]. intros H%IH. simpl in H. rewrite lookup_insert_eq in H.
    rewrite H, insert_insert_eq. unfold add_jobs, push_microtask. simpl. by rewrite <- app_assoc.
Qed.

Lemma push_callbacks_free cb el q : forall h, (forall qc, store h !! q = Some (CJobs qc) -> b_jobs qc = Free) ->
  exists h', push_callbacks cb el q h = Ok h'.
Proof.
  induction el as [|v el IH]; intros h Hf; simpl; [eauto|].
  destruct (store h !! q) as [[]|] eqn:E; eauto. rewrite (Hf _ eq_refl). simpl. apply IH. simpl.
  intros qc. rewrite lookup_insert_eq. intros [= <-]. simpl. by apply Hf.
Qed.

Section Pruning.
Context (m : gset Id) (owners : gset Id) (s1 : gmap Id Cell).

(** The queue of every registry that is kept exists and is held by an owner. *)
Context (Hreg : forall id o cb rs q, kept m owners s1 id -> s1 !! id = Some (CObject o) ->
  weak o = WRegistry cb rs q -> q ∈ owners /\ exists qc, s1 !! q = Some (CJobs qc)).

Lemma queue_kept id o cb rs q s : passing m owners s1 s -> kept m owners s1 id -> s1 !! id = Some (CObject o) ->
  weak o = WRegistry cb rs q -> kept m owners s1 q /\ (exists qc, s1 !! q = Some (CJobs qc))
    /\ exists qc, s !! q = Some (CJobs qc).
Proof.
  intros P Hk Hc Hw. destruct (Hreg id o cb rs q Hk Hc Hw) as (Hq & qc & Hqc).
  assert (kept m owners s1 q) as Hkq by by constructor. split_and!; [done|eauto|].
  destruct (ps_kept _ _ _ _ P q _ Hkq Hqc) as (c' & Hc' & Hp).
  specialize (Hp ltac:(by right)). inversion Hp; subst; eauto.
Qed.

(** Jobs may be added to a queue that is kept. *)
Lemma passing_jobs s q qc jobs : passing m owners s1 s -> kept m owners s1 q -> s !! q = Some (CJobs qc) ->
  passing m owners s1 (<[q := CJobs (add_jobs jobs qc)]> s).
Proof.
  intros P Hkq Hq. split.
  - intros id c Hk Hc. destruct (decide (id = q)) as [->|N].
    + rewrite lookup_insert_eq. eexists. split; [done|]. intros Hs.
      destruct (ps_kept _ _ _ _ P q c Hk Hc) as (c' & Hc' & Hp). specialize (Hp Hs).
      assert (c' = CJobs qc) as -> by congruence. inversion Hp; subst; [apply pruned_jobs|].
      unfold add_jobs. simpl. rewrite <- app_assoc. apply pruned_jobs.
    + rewrite lookup_insert_ne by done. by apply (ps_kept _ _ _ _ P).
  - intros id o cb rs q' v Hk Hc Hs Hw Hv.
    destruct (ps_held _ _ _ _ P id o cb rs q' v Hk Hc Hs Hw Hv) as [H|(qc' & Hkq' & Hq' & Hqv)].
    + left. rewrite lookup_insert_ne; [done|]. intros ->. congruence.
    + right. destruct (decide (q' = q)) as [->|N].
      * assert (qc' = qc) as -> by congruence. eexists. rewrite lookup_insert_eq. split_and!; [done..|].
        unfold queue_values in *. simpl. rewrite concat_app. set_solver.
      * exists qc'. by rewrite lookup_insert_ne.
Qed.

(** A solid container may be pruned once its held values are queued. *)
Lemma passing_prune s id o0 o : passing m owners s1 s -> s1 !! id = Some (CObject o0) ->
  s !! id = Some (CObject o) -> pruned m (CObject o0) (CObject o) ->
  (forall cb rs q v, weak o0 = WRegistry cb rs q -> v ∈ eligible m (weak o0) ->
     exists qc, kept m owners s1 q /\ s !! q = Some (CJobs qc) /\ v ∈ queue_values qc) ->
  passing m owners s1 (<[id := CObject (set_weak (prune_storage m (weak o)) o)]> s).
Proof.
  intros P Hc0 Hc Hp Hheld. split.
  - intros j c Hk Hj. destruct (decide (j = id)) as [->|N].
    + rewrite lookup_insert_eq. eexists. split; [done|]. intros _. assert (c = CObject o0) as -> by congruence.
      inversion Hp; subst; [apply pruned_weak|]. simpl. rewrite prune_storage_idem.
      exact (pruned_weak m o0).
    + rewrite lookup_insert_ne by done. by apply (ps_kept _ _ _ _ P).
  - intros j o' cb rs q v Hk Hj Hs Hw Hv. destruct (decide (j = id)) as [->|N].
    + assert (o' = o0) as -> by congruence. right. destruct (Hheld cb rs q v Hw Hv) as (qc & ? & Hq & ?).
      exists qc. rewrite lookup_insert_ne; [done|]. intros ->. congruence.
    + destruct (ps_held _ _ _ _ P j o' cb rs q v Hk Hj Hs Hw Hv) as [?|(qc & ? & Hq & ?)].
      * left. by rewrite lookup_insert_ne.
      * right. exists qc. rewrite lookup_insert_ne; [done|]. intros ->. congruence.
Qed.

Lemma pruned_object c o : pruned m c (CObject o) -> exists o0, c = CObject o0
  /\ (o = o0 \/ o = set_weak (prune_storage m (weak o0)) o0).
Proof. inversion 1; subst; eauto. Qed.

(** What a pruning step leaves as it was. *)
Record same_rest (h h' : Heap) : Prop := {
  sr_inner : inner h' = inner h;
  sr_external : external h' = external h;
  sr_next : next_address h' = next_address h;
  sr_locked : locked h' = locked h;
}.

Lemma same_rest_owners h h' : same_rest h h' -> owner_refs h' = owner_refs h.
Proof. intros []. unfold owner_refs. congruence. Qed.

(** Kept, and left alone by the sweep. *)
Definition firm (u : Id) : Prop := kept m owners s1 u /\ forall c, s1 !! u = Some c -> solid m u c.

(** Other cells do not change; they may go. *)
Definition others_same (s s' : gmap Id Cell) : Prop :=
  forall u c, s' !! u = Some c -> s !! u = Some c \/ firm u.

Lemma firm_marked u : kept m owners s1 u -> u ∈ m -> firm u.
Proof. intros Hk Hm. split; [done|]. by left. Qed.

Lemma firm_queue q qc : kept m owners s1 q -> s1 !! q = Some (CJobs qc) -> firm q.
Proof. intros Hk Hq. split; [done|]. intros c Hc. right. by assert (c = CJobs qc) as -> by congruence. Qed.

Definition pruned_cell (o : ObjectCell) : Cell := CObject (set_weak (prune_storage m (weak o)) o).

Definition callbacks (cb : Value) (w : WeakStorage) : list (list Value) := map (fun v => [cb; v]) (eligible m w).

(** The store before the references that were dropped are released. *)
Lemma prune_cell_effect h h' id o : store h !! id = Some (CObject o) -> prune_cell m id h = Ok h' ->
  exists s', h' = release (set_store s' h) /\ match weak o with
    | WRegistry cb rs q =>
        forall qc, store h !! q = Some (CJobs qc) ->
          s' = <[id := pruned_cell o]> (<[q := CJobs (add_jobs (callbacks cb (weak o)) qc)]> (store h))
    | _ => s' = <[id := pruned_cell o]> (store h)
    end.
Proof.
  intros Hc. unfold prune_cell. rewrite Hc. destruct (try_borrow_mut (b_weak o)); [|done].
  fold (pruned_cell o). destruct (weak o) as [|l|t|cb rs q] eqn:Ew; cbn [obind];
    try (intros [= <-]; eexists; split; done).
  destruct (push_callbacks _ _ _ _) as [h2| |] eqn:E; cbn [obind]; [|done|done]. intros [= <-].
  apply push_callbacks_ok in E. simpl in E. eexists. split; [by rewrite E|]. intros qc Hqc.
  assert (id <> q) as Nq by congruence. rewrite lookup_insert_ne, Hqc by done. by apply insert_insert_ne.
Qed.

Lemma callbacks_queued cb w v qc : v ∈ eligible m w -> v ∈ queue_values (add_jobs (callbacks cb w) qc).
Proof.
  intros Hv. unfold queue_values. simpl. rewrite concat_app, !elem_of_app. left. right.
  apply elem_of_concat. exists [cb; v]. split; [by apply (list_elem_of_fmap_2 (fun v => [cb; v]))|set_solver].
Qed.

(** Pruning a cell that is no registry. *)
Lemma passing_plain s id o0 o : passing m owners s1 s -> s1 !! id = Some (CObject o0) ->
  s !! id = Some (CObject o) -> pruned m (CObject o0) (CObject o) ->
  (forall cb rs q, weak o <> WRegistry cb rs q) -> passing m owners s1 (<[id := pruned_cell o]> s).
Proof.
  intros P Hc0 Hc Hp Hn. apply (passing_prune _ _ o0); try done.
  intros cb rs q v Hw _. exfalso. destruct (pruned_object _ _ Hp) as (o1 & [= <-] & [-> | ->]); [by eapply Hn|].
  simpl in Hn. rewrite Hw in Hn. by eapply Hn.
Qed.

(** Pruning a registry, its callbacks queued. *)
Lemma passing_registry s id o0 o cb rs q : passing m owners s1 s -> id ∈ m -> kept m owners s1 id ->
  s1 !! id = Some (CObject o0) -> s !! id = Some (CObject o) -> pruned m (CObject o0) (CObject o) ->
  weak o = WRegistry cb rs q -> exists qc, firm q /\ s !! q = Some (CJobs qc) /\
    passing m owners s1 (<[id := pruned_cell o]> (<[q := CJobs (add_jobs (callbacks cb (weak o)) qc)]> s)).
Proof.
  intros P Hm Hk Hc0 Hc Hp Hw. destruct (pruned_object _ _ Hp) as (o1 & [= <-] & Ho).
  assert (exists rs0, weak o0 = WRegistry cb rs0 q) as [rs0 Hw0].
  { destruct Ho as [-> | ->]; [eauto|]. simpl in Hw. destruct (weak o0) as [| |[]|]; try discriminate Hw.
    injection Hw as <- _ <-. eauto. }
  destruct (queue_kept id o0 cb rs0 q _ P Hk Hc0 Hw0) as (Hkq & (qc0 & Hq0) & qc & Hqc).
  exists qc. split_and!; [by eapply firm_queue|done|]. assert (id <> q) as Nq by congruence.
  apply (passing_prune _ _ o0); [by apply passing_jobs|done|by rewrite lookup_insert_ne|done|].
  intros cb' rs' q' v Hw' Hv. rewrite Hw0 in Hw'. injection Hw' as <- <- <-.
  eexists. split_and!; [done|by rewrite lookup_insert_eq|].
  destruct Ho as [-> | ->]; [by apply callbacks_queued|].
  destruct (ps_held _ _ _ _ P id o0 cb rs0 q v Hk Hc0 ltac:(by left) Hw0 Hv) as [H|(qc' & _ & Hq' & Hqv)].
  - rewrite Hc in H. injection H as H. apply (f_equal weak) in H. simpl in H. rewrite <- H, eligible_pruned in Hv.
    by apply elem_of_nil in Hv.
  - assert (qc' = qc) as -> by congruence. unfold queue_values in *. simpl. rewrite concat_app. set_solver.
Qed.

Lemma others_insert s id c : firm id -> others_same s (<[id := c]> s).
Proof. intros Hk u x. destruct (decide (u = id)) as [->|N]; [by right|]. rewrite lookup_insert_ne by done. by left. Qed.

Lemma others_trans s s' s'' : others_same s s' -> others_same s' s'' -> others_same s s''.
Proof. intros A B u c Hc. destruct (B u c Hc) as [H|?]; [by apply A|by right]. Qed.

Lemma others_sub s s' : s' ⊆ s -> others_same s s'.
Proof. intros Hs u c Hc. left. by apply (lookup_weaken _ _ _ _ Hc). Qed.

(** Pruning an object, before the references it dropped are released. *)
Lemma prune_cell_before h h' id o0 o : passing m owners s1 (store h) -> id ∈ m -> kept m owners s1 id ->
  s1 !! id = Some (CObject o0) -> store h !! id = Some (CObject o) -> pruned m (CObject o0) (CObject o) ->
  prune_cell m id h = Ok h' -> exists s', h' = release (set_store s' h)
  /\ passing m owners s1 s' /\ others_same (store h) s' /\ match weak o with
    | WRegistry cb rs q => exists qc, store h !! q = Some (CJobs qc) /\
        s' = <[id := pruned_cell o]> (<[q := CJobs (add_jobs (callbacks cb (weak o)) qc)]> (store h))
    | _ => s' = <[id := pruned_cell o]> (store h)
    end.
Proof.
  intros P Hm Hk Hc0 Hc Hp H. destruct (prune_cell_effect h h' id o Hc H) as (s' & -> & Hs').
  exists s'. split; [done|].
  destruct (weak o) as [|l|t|cb rs q] eqn:Ew; try (rewrite Hs'; split_and!;
      [apply (passing_plain _ _ o0); try done; by rewrite Ew|by apply others_insert, firm_marked|done]).
  destruct (passing_registry _ id o0 o cb rs q P Hm Hk Hc0 Hc Hp Ew) as (qc & Hkq & Hqc & P').
  rewrite (Hs' qc Hqc). rewrite Ew in P'. split_and!; [done| |by exists qc].
  eapply others_trans; [by apply (others_insert _ q)|by apply others_insert, firm_marked].
Qed.

Lemma prune_cell_passing h h' id c0 : owner_refs h = owners -> passing m owners s1 (store h) ->
  id ∈ m -> kept m owners s1 id -> s1 !! id = Some c0 -> prune_cell m id h = Ok h' ->
  passing m owners s1 (store h') /\ same_rest h h' /\ others_same (store h) (store h').
Proof.
  intros Ho P Hm Hk Hc0 H.
  destruct (ps_kept _ _ _ _ P id c0 Hk Hc0) as (c & Hc & Hp). specialize (Hp ltac:(by left)).
  destruct c as [o| | | | | | | | | | | | | | | | | |];
    try (unfold prune_cell in H; rewrite Hc in H; injection H as <-; split_and!; [done|by split|by left]).
  destruct (pruned_object _ _ Hp) as (o0 & -> & _).
  destruct (prune_cell_before h h' id o0 o P Hm Hk Hc0 Hc Hp H) as (s' & -> & P' & O' & _).
  split_and!; [|by split|eapply others_trans; [exact O'|]; apply others_sub, release_sub].
  unfold release. simpl. change (owner_refs (set_store s' h)) with (owner_refs h). rewrite Ho.
  by apply passing_release.
Qed.

Lemma prune_weak_passing l : forall h h', owner_refs h = owners -> passing m owners s1 (store h) ->
  (forall id, id ∈ l -> id ∈ m /\ kept m owners s1 id /\ is_Some (s1 !! id)) -> prune_weak m l h = Ok h' ->
  passing m owners s1 (store h') /\ same_rest h h' /\ others_same (store h) (store h').
Proof.
  induction l as [|id l IH]; intros h h' Ho P Hl; simpl.
  { intros [= <-]. split_and!; [done|by split|by left]. }
  destruct (prune_cell m id h) as [h1| |] eqn:E; cbn [obind]; [|done|done]. intros H.
  destruct (Hl id) as (Hm & Hk & c0 & Hc0); [by left|].
  destruct (prune_cell_passing h h1 id c0 Ho P Hm Hk Hc0 E) as (P1 & R1 & O1).
  destruct (IH h1 h') as (P2 & R2 & O2); [by rewrite (same_rest_owners _ _ R1)|done|intros; apply Hl; by right|done|].
  split_and!; [done| |by eapply others_trans].
  destruct R1, R2. split; congruence.
Qed.

(** ** Sweeping *)

(** A cell as it was, or cleared. *)
Definition shrunk (c0 c : Cell) : Prop := c = c0 \/ clear_cell c0 = Ok (Some c).

(** The state of the sweep; [seen] are the entries it has been through. *)
Record sweeping (seen : Id -> Prop) (s : gmap Id Cell) : Prop := {
  sw_passing : passing m owners s1 s;
  sw_some : forall u c, s !! u = Some c -> is_Some (s1 !! u);
  sw_other : forall u c c0, s1 !! u = Some c0 -> s !! u = Some c -> shrunk c0 c \/ firm u;
  sw_seen : forall u c c0, seen u -> s1 !! u = Some c0 -> s !! u = Some c ->
    clear_cell c0 = Ok (Some c) \/ clear_cell c0 = Ok None \/ firm u;
  sw_owned : forall u c, s !! u = Some c -> owned owners s u;
}.

Lemma not_firm u c0 : s1 !! u = Some c0 -> u ∉ m -> sweepable c0 = true -> ~ firm u.
Proof. intros Hc Hm Hs [_ H]. destruct (H c0 Hc) as [?|?]; congruence. Qed.

Lemma passing_clear s u c0 c : passing m owners s1 s -> s1 !! u = Some c0 -> ~ firm u ->
  passing m owners s1 (<[u := c]> s).
Proof.
  intros P Hc0 Hn. split.
  - intros id x Hk Hx. destruct (decide (id = u)) as [->|N].
    + rewrite lookup_insert_eq. eexists. split; [done|]. intros Hs. destruct Hn. split; [done|].
      intros y Hy. by assert (y = x) as -> by congruence.
    + rewrite lookup_insert_ne by done. by apply (ps_kept _ _ _ _ P).
  - intros id o cb rs q v Hk Hx Hs Hw Hv. assert (id <> u) as N.
    { intros ->. apply Hn. split; [done|]. intros y Hy. by assert (y = CObject o) as -> by congruence. }
    destruct (queue_kept id o cb rs q s P Hk Hx Hw) as (Hkq & (qc0 & Hq0) & _).
    assert (q <> u) as Nq by (intros ->; by eapply Hn, firm_queue).
    rewrite !lookup_insert_ne by done. by apply (ps_held _ _ _ _ P id o cb rs q v).
Qed.

(** One entry that is cleared. *)
Lemma sweeping_clear (seen : Id -> Prop) s u c0 c c' : sweeping seen s -> s1 !! u = Some c0 -> ~ firm u ->
  s !! u = Some c -> clear_cell c = Ok (Some c') ->
  sweeping (fun i => i = u \/ seen i) (released owners (<[u := c']> s)).
Proof.
  intros [P Hd Ho Hs Hw] Hc0 Hn Hc Hcl.
  assert (clear_cell c0 = Ok (Some c')) as Hcl0.
  { destruct (Ho u c c0 Hc0 Hc) as [[->|H]|?]; [done| |done]. pose proof (clear_again _ _ H). congruence. }
  assert (forall i x, released owners (<[u := c']> s) !! i = Some x -> <[u := c']> s !! i = Some x) as Hsub.
  { intros i x Hi. by apply (lookup_weaken _ _ _ _ Hi), release_sub. }
  split.
  - by apply passing_release, (passing_clear _ _ c0).
  - intros i x Hi%Hsub. destruct (decide (i = u)) as [->|N]; [by eexists|]. rewrite lookup_insert_ne in Hi by done.
    by eapply Hd.
  - intros i x x0 Hx0 Hi%Hsub. destruct (decide (i = u)) as [->|N].
    + rewrite lookup_insert_eq in Hi. left. right. congruence.
    + rewrite lookup_insert_ne in Hi by done. by eapply Ho.
  - intros i x x0 Hseen Hx0 Hi%Hsub. destruct (decide (i = u)) as [->|N].
    + rewrite lookup_insert_eq in Hi. left. congruence.
    + rewrite lookup_insert_ne in Hi by done. destruct Hseen as [?|?]; [done|]. by eapply Hs.
  - intros i x Hi. by eapply release_owned.
Qed.

Lemma sweeping_seen (seen seen' : Id -> Prop) s : sweeping seen s ->
  (forall u c c0, seen' u -> seen u \/ firm u \/ s1 !! u = None \/ s !! u = None
     \/ (s1 !! u = Some c0 -> clear_cell c0 = Ok None \/ (s !! u = Some c -> clear_cell c0 = Ok (Some c)))) ->
  sweeping seen' s.
Proof.
  intros [P Hd Ho Hs Hw] H. split; try done. intros u c c0 Hu Hc0 Hc.
  destruct (H u c c0 Hu) as [?|[?|[?|[?|Hcl]]]]; [by eapply Hs|auto|congruence|congruence|].
  destruct (Hcl Hc0) as [?|Hcl']; [auto|left; auto].
Qed.

(** How the state moves on: nothing that is gone comes back. *)
Record swept (seen : Id -> Prop) (h h' : Heap) : Prop := {
  st_sweeping : sweeping seen (store h');
  st_rest : same_rest h h';
  st_gone : forall u, store h !! u = None -> store h' !! u = None;
  st_firm : forall u, firm u -> store h' !! u = store h !! u;
}.

Lemma swept_refl seen h : sweeping seen (store h) -> swept seen h h.
Proof. intros W. split; [done|by split|done..]. Qed.

Lemma swept_trans seen h1 h2 h3 : same_rest h1 h2 -> (forall u, store h1 !! u = None -> store h2 !! u = None) ->
  (forall u, firm u -> store h2 !! u = store h1 !! u) -> swept seen h2 h3 -> swept seen h1 h3.
Proof. intros [] G F [W [] G' F']. split; [done|split; congruence|auto|]. intros u Hu. by rewrite F', F. Qed.

Lemma swept_seen (seen seen' : Id -> Prop) h h' : swept seen h h' ->
  (forall u c c0, seen' u -> seen u \/ firm u \/ s1 !! u = None \/ store h !! u = None
     \/ (s1 !! u = Some c0 -> clear_cell c0 = Ok None \/ (store h' !! u = Some c -> clear_cell c0 = Ok (Some c)))) ->
  swept seen' h h'.
Proof.
  intros [W R G F] H. split; [|done..]. apply (sweeping_seen seen); [done|]. intros u c c0 Hu.
  destruct (H u c c0 Hu) as [?|[?|[?|[?|?]]]]; auto 10.
Qed.

Lemma released_weaken s u c : released owners s !! u = Some c -> s !! u = Some c.
Proof. intros H. by apply (lookup_weaken _ _ _ _ H), release_sub. Qed.

(** The step of an entry that is cleared. *)
Lemma clear_step h id c c' c0 : owner_refs h = owners -> passing m owners s1 (store h) ->
  s1 !! id = Some c0 -> ~ firm id -> store h !! id = Some c ->
  let h1 := release (set_store (<[id:=c']> (store h)) h) in
  store h1 = released owners (<[id := c']> (store h)) /\ same_rest h h1
  /\ (forall u, store h !! u = None -> store h1 !! u = None) /\ (forall u, firm u -> store h1 !! u = store h !! u).
Proof.
  intros Ho P Hc0 Hn Hc h1.
  assert (store h1 = released owners (<[id := c']> (store h))) as E.
  { unfold h1, release, released. simpl. change (owner_refs (set_store _ h)) with (owner_refs h). by rewrite Ho. }
  rewrite E. split_and!; [done|by split| |].
  - intros u Hu. apply eq_None_not_Some. intros [x Hx%released_weaken].
    destruct (decide (u = id)) as [->|N]; [congruence|]. rewrite lookup_insert_ne in Hx by done. congruence.
  - intros u Hu. assert (u <> id) as N by (intros ->; by apply Hn).
    etrans; [|by apply lookup_insert_ne, not_eq_sym]. apply (release_support _ owners (kept m owners s1)); [|by apply Hu].
    apply passing_support. by apply (passing_clear _ _ c0).
Qed.

Lemma sweep_vec_sweeping l : forall seen h r, owner_refs h = owners -> sweeping seen (store h) ->
  (forall id c0, id ∈ l -> s1 !! id = Some c0 -> sweepable c0 = true) ->
  (forall id, id ∈ l -> id ∈ m -> is_Some (s1 !! id) -> firm id) ->
  sweep_vec m l h = Ok r -> swept (fun i => i ∈ l \/ seen i) h r.2.
Proof.
  induction l as [|id l IH]; intros seen h r Ho W Hl Hm; cbn [sweep_vec].
  { intros [= <-]. eapply swept_seen; [by apply swept_refl|]. intros u ? ? [Hu|?]; [by apply elem_of_nil in Hu|by left]. }
  assert (forall h1 seen r, owner_refs h1 = owners -> sweeping seen (store h1) -> sweep_vec m l h1 = Ok r ->
    swept (fun i => i ∈ l \/ seen i) h1 r.2) as IH'.
  { intros. apply IH; try done; intros; [eapply Hl|eapply Hm]; try done; by right. }
  clear IH. destruct (store h !! id) as [c|] eqn:Hc.
  2:{ intros H. eapply swept_seen; [by apply (IH' h seen)|]. intros u ? ? [[->|?]%elem_of_cons|?]; auto. }
  destruct (sw_some _ _ W _ _ Hc) as [c0 Hc0]. case_bool_decide as Hmi.
  { destruct (sweep_vec m l h) as [r'| |] eqn:E; cbn [obind]; [|done|done]. intros [= <-]. simpl.
    eapply swept_seen; [by apply (IH' h seen)|]. intros u ? ? [[->|?]%elem_of_cons|?]; auto.
    right. left. apply Hm; [by left|done|eauto]. }
  assert (~ firm id) as Hn by (eapply not_firm; [exact Hc0|done|eapply Hl; [by left|done]]).
  destruct (clear_cell c) as [[c'|]| |] eqn:Ecl; cbn [obind]; [| |done|done].
  - destruct (clear_step h id c c' c0 Ho (sw_passing _ _ W) Hc0 Hn Hc) as (E1 & R1 & G1 & F1).
    set (h1 := release _) in *. destruct (sweep_vec m l h1) as [r'| |] eqn:E; cbn [obind]; [|done|done].
    intros [= <-]. simpl. pose proof (sweeping_clear seen (store h) id c0 c c' W Hc0 Hn Hc Ecl) as W1. rewrite <- E1 in W1.
    apply (swept_seen (fun i => i ∈ l \/ i = id \/ seen i)).
    + apply (swept_trans _ h h1); [done..|]. apply IH'; [|done|done]. by rewrite (same_rest_owners _ _ R1).
    + intros u ? ? [[->|?]%elem_of_cons|?]; auto.
  - destruct (sweep_vec m l h) as [r'| |] eqn:E; cbn [obind]; [|done|done]. intros [= <-]. simpl.
    eapply swept_seen; [by apply (IH' h seen)|]. intros u x x0 [[->|?]%elem_of_cons|?]; [|by left; left|by left; right].
    right. right. right. right. intros Hx0. left. assert (x0 = c0) as -> by congruence.
    destruct (sw_other _ _ W id c c0 Hc0 Hc) as [[->|H]|?]; [done| |done]. pose proof (clear_again _ _ H). congruence.
Qed.

(** What the sweep of a list does besides changing cells. *)
Record same_owners (h h' : Heap) : Prop := {
  so_interps : interps (inner h') = interps (inner h);
  so_pins : pins (inner h') = pins (inner h);
  so_external : external h' = external h;
}.

Lemma same_owners_refs h h' : same_owners h h' -> owner_refs h' = owner_refs h.
Proof. intros []. unfold owner_refs, registry_refs. congruence. Qed.

Lemma sweep_sweeping ks : forall seen h r, NoDup ks -> owner_refs h = owners -> sweeping seen (store h) ->
  (forall k id c0, k ∈ ks -> id ∈ entries k (inner h) -> s1 !! id = Some c0 -> sweepable c0 = true) ->
  (forall k id, k ∈ ks -> id ∈ entries k (inner h) -> id ∈ m -> is_Some (s1 !! id) -> firm id) ->
  sweep m ks h = Ok r ->
  sweeping (fun i => (exists k, k ∈ ks /\ i ∈ entries k (inner h)) \/ seen i) (store r.2)
  /\ same_owners h r.2 /\ forall u, firm u -> store r.2 !! u = store h !! u.
Proof.
  induction ks as [|k ks IH]; intros seen h r Hnd Ho W Hl Hm; cbn [sweep].
  { intros [= <-]. simpl. split_and!; [|by split|done]. apply (sweeping_seen seen); [done|].
    intros u ? ? [(k & []%elem_of_nil & _)|?]; auto. }
  apply NoDup_cons in Hnd as [Hk Hnd].
  destruct (sweep_vec m (entries k (inner h)) h) as [r1| |] eqn:E1; cbn [obind]; [|done|done].
  apply (sweep_vec_sweeping _ seen) in E1 as [W1 [R1 R2 R3 R4] _ F1]; try done;
    [|intros; by apply (Hl k id); [left| |]|intros; by apply (Hm k); [left| | |]].
  set (h1 := set_inner _ r1.2). destruct (sweep m ks h1) as [s| |] eqn:E2; cbn [obind]; [|done|done].
  intros [= <-]. simpl.
  assert (same_owners h h1) as O1 by (unfold h1; rewrite R1; split; simpl; [done..|exact R2]).
  assert (forall k', k' ∈ ks -> entries k' (inner h1) = entries k' (inner h)) as He.
  { intros k' Hk'. unfold h1. simpl. rewrite entries_with, R1. by case_decide; subst. }
  apply (IH (fun i => i ∈ entries k (inner h) \/ seen i)) in E2 as (W2 & O2 & F2); try done.
  - split_and!.
    + apply (sweeping_seen _ _ _ W2). intros u ? ? [(k' & [->|Hk']%elem_of_cons & Hu)|?]; auto.
      left. left. exists k'. by rewrite He.
    + destruct O1, O2. split; congruence.
    + intros u Hu. rewrite F2 by done. by apply F1.
  - by rewrite (same_owners_refs _ _ O1).
  - intros k' id c0 Hk' Hid. rewrite He in Hid by done. by apply (Hl k'); [right|].
  - intros k' id Hk' Hid. rewrite He in Hid by done. by apply (Hm k'); [right|].
Qed.

End Pruning.
End CollectSweep.

(** * Weak containers after a collection

    What the loop over the weak containers leaves: every container listed is pruned,
    once, and every queue has got the callbacks of the registries that name it. *)
Import CollectSweep.

Module CollectPrune.

(** The jobs a container puts on queue [q]: one for each record whose target is gone. *)
Definition jobs_for (m : gset Id) (s : gmap Id Cell) (q id : Id) : list (list Value) :=
  match s !! id with
  | Some (CObject o) =>
      match weak o with
      | WRegistry cb _ jobs => if bool_decide (jobs = q) then callbacks m cb (weak o) else []
      | _ => []
      end
  | _ => []
  end.

Section Pruning.
Context (m : gset Id) (owners : gset Id) (s1 : gmap Id Cell).
Context (Hreg : forall id o cb rs q, kept m owners s1 id -> s1 !! id = Some (CObject o) ->
  weak o = WRegistry cb rs q -> q ∈ owners /\ exists qc, s1 !! q = Some (CJobs qc)).

(** A cell, its weak container pruned. *)
Definition trimmed (c : Cell) : Cell := match c with CObject o => pruned_cell m o | c => c end.

(** The containers of [done] are pruned, the others are as they were. *)
Record pruning (done : list Id) (s : gmap Id Cell) : Prop := {
  pr_passing : passing m owners s1 s;
  pr_nodup : NoDup done;
  pr_done : forall id c, id ∈ done -> kept m owners s1 id -> s1 !! id = Some c -> tag_of c <> TJobs ->
    s !! id = Some (trimmed c);
  pr_same : forall id c, id ∉ done -> kept m owners s1 id -> s1 !! id = Some c -> tag_of c <> TJobs ->
    solid m id c -> s !! id = Some c;
  pr_queue : forall q qc, kept m owners s1 q -> s1 !! q = Some (CJobs qc) ->
    s !! q = Some (CJobs (add_jobs (concat (map (jobs_for m s1 q) done)) qc));
}.

Lemma add_jobs_app j1 j2 q : add_jobs j2 (add_jobs j1 q) = add_jobs (j1 ++ j2) q.
Proof. unfold add_jobs. simpl. by rewrite app_assoc. Qed.

Lemma add_jobs_nil q : add_jobs [] q = q.
Proof. unfold add_jobs. rewrite app_nil_r. by destruct q. Qed.

Lemma pruning_release fuel done s : pruning done s -> pruning done (release_loop fuel owners s).
Proof.
  intros [P N D S Q].
  pose proof (release_support fuel owners (kept m owners s1) s (passing_support m owners s1 s P)) as R.
  split; [by apply passing_release|done|..]; intros; rewrite R by done; eauto.
Qed.

(** The state before the first container. *)
Lemma pruning_start : (forall id, kept m owners s1 id -> is_Some (s1 !! id)) -> pruning [] s1.
Proof.
  intros Hs. split; [|constructor|..].
  - split; [|by left]. intros id c _ Hc. exists c. split; [done|]. intros _. constructor.
  - intros id c []%elem_of_nil.
  - done.
  - intros q qc _ Hq. simpl. by rewrite add_jobs_nil.
Qed.

Lemma jobs_for_other q id o cb rs q' : s1 !! id = Some (CObject o) -> weak o = WRegistry cb rs q' ->
  q <> q' -> jobs_for m s1 q id = [].
Proof. intros Hc Hw N. unfold jobs_for. rewrite Hc, Hw. by rewrite bool_decide_eq_false_2. Qed.

Lemma jobs_for_registry q id o cb rs : s1 !! id = Some (CObject o) -> weak o = WRegistry cb rs q ->
  jobs_for m s1 q id = callbacks m cb (weak o).
Proof. intros Hc Hw. unfold jobs_for. rewrite Hc, Hw. by rewrite bool_decide_eq_true_2. Qed.

Lemma snoc_elem (l : list Id) x y : x ∈ l ++ [y] <-> x = y \/ x ∈ l.
Proof. rewrite elem_of_app, list_elem_of_singleton. naive_solver. Qed.

(** A container pruned for the first time: the queue it names gets its jobs. *)
Lemma pruning_more done s s' id c : pruning done s -> passing m owners s1 s' -> id ∉ done -> id ∈ m ->
  s1 !! id = Some c -> 
  (tag_of c <> TJobs -> s' !! id = Some (trimmed c)) ->
  (forall u x, u <> id -> s1 !! u = Some x -> tag_of x <> TJobs -> s' !! u = s !! u) ->
  (forall q qc, kept m owners s1 q -> s !! q = Some (CJobs qc) ->
     s' !! q = Some (CJobs (add_jobs (jobs_for m s1 q id) qc))) ->
  pruning (done ++ [id]) s'.
Proof.
  intros [P N D S Q] P' Hid Hm Hc Hp Hu Hq. split; [done|..].
  - apply NoDup_app. split_and!; [done| |apply NoDup_singleton]. intros x Hx ->%list_elem_of_singleton. done.
  - intros u x [->|Hu']%snoc_elem Hk Hx Ht.
    { assert (x = c) as -> by congruence. by apply Hp. }
    rewrite (Hu u x); [by apply D| |done|done]. by intros ->.
  - intros u x Hx%not_elem_of_app Hk Hux Ht Hsol. destruct Hx as [Hd Hne]. rewrite list_elem_of_singleton in Hne.
    rewrite (Hu u x); [by apply S|done..].
  - intros q qc Hk Hq1. rewrite (Hq q _ Hk (Q q qc Hk Hq1)), add_jobs_app. by rewrite map_app, concat_app; simpl; rewrite app_nil_r.
Qed.

(** Pruning what is pruned already changes nothing. *)
Lemma pruned_cell_again o : pruned_cell m (set_weak (prune_storage m (weak o)) o) = pruned_cell m o.
Proof. unfold pruned_cell. simpl. by rewrite prune_storage_idem. Qed.

Lemma prune_object_pruning h h' done id o0 : owner_refs h = owners -> pruning done (store h) ->
  id ∈ m -> kept m owners s1 id -> s1 !! id = Some (CObject o0) -> prune_cell m id h = Ok h' ->
  exists done', (forall i, i ∈ done' <-> i = id \/ i ∈ done) /\ pruning done' (store h').
Proof.
  intros Ho P Hm Hk Hc0 H. destruct (decide (id ∈ done)) as [Hd|Hd].
  - exists done. split; [naive_solver|]. pose proof (pr_done _ _ P id _ Hd Hk Hc0 ltac:(done)) as Hc. simpl in Hc.
    destruct (prune_cell_before m owners s1 Hreg h h' id o0 _ (pr_passing _ _ P) Hm Hk Hc0 Hc ltac:(constructor) H)
      as (s' & -> & _ & _ & E). unfold release. simpl. change (owner_refs (set_store s' h)) with (owner_refs h).
    rewrite Ho. apply pruning_release. assert (s' = store h) as ->; [|done].
    assert (<[id := pruned_cell m o0]> (store h) = store h) as Es by by apply insert_id.
    rewrite pruned_cell_again in E. simpl in E.
    destruct (weak o0) as [|l|[t|]|cb rs q] eqn:Ew; simpl in E; try (etrans; [exact E|done]).
    destruct E as (qc & Hqc & ->). pose proof (eligible_pruned m (WRegistry cb rs q)) as El. simpl in El.
    unfold callbacks. simpl. rewrite El. simpl. rewrite add_jobs_nil. by rewrite (insert_id _ q) by done.
  - exists (done ++ [id]). split; [intros ?; apply snoc_elem|].
    pose proof (pr_same _ _ P id _ Hd Hk Hc0 ltac:(done) ltac:(by left)) as Hc.
    destruct (prune_cell_before m owners s1 Hreg h h' id o0 o0 (pr_passing _ _ P) Hm Hk Hc0 Hc ltac:(constructor) H)
      as (s' & -> & P' & _ & E). unfold release. simpl. change (owner_refs (set_store s' h)) with (owner_refs h).
    rewrite Ho. apply pruning_release. apply (pruning_more done (store h) s' id (CObject o0)); try done.
    + intros _. destruct (weak o0); [| | |destruct E as (qc & Hqc & E)]; subst s'; by rewrite lookup_insert_eq.
    + intros u x Hu Hx Ht. destruct (weak o0) as [| | |cb rs q] eqn:Ew; [| | |destruct E as (qc & Hqc & E)]; subst s';
        rewrite lookup_insert_ne by done; try done. rewrite lookup_insert_ne; [done|]. intros <-.
      destruct (Hreg _ _ _ _ _ Hk Hc0 Ew) as (_ & qc0 & Hq0). assert (x = CJobs qc0) as -> by congruence. done.
    + intros q qc Hkq Hq. assert (id <> q) as Nq by congruence. unfold jobs_for. rewrite Hc0.
      destruct (weak o0) as [| | |cb rs q'] eqn:Ew; try (subst s'; rewrite lookup_insert_ne, add_jobs_nil by done; done).
      destruct E as (qc' & Hqc & ->). rewrite lookup_insert_ne by done. case_bool_decide as Eq.
      * subst q'. rewrite lookup_insert_eq. congruence.
      * by rewrite lookup_insert_ne, add_jobs_nil.
Qed.

Lemma prune_cell_pruning h h' done id c0 : owner_refs h = owners -> pruning done (store h) ->
  id ∈ m -> kept m owners s1 id -> s1 !! id = Some c0 -> prune_cell m id h = Ok h' ->
  exists done', (forall i, i ∈ done' <-> i = id \/ i ∈ done) /\ pruning done' (store h').
Proof.
  intros Ho P Hm Hk Hc0 H. destruct c0 as [o0| | | | | | | | | | | | | | | | | |] eqn:Ec;
    [by eapply prune_object_pruning|..].
  all: destruct (ps_kept _ _ _ _ (pr_passing _ _ P) id _ Hk Hc0) as (c & Hc & Hp); specialize (Hp ltac:(by left)).
  all: assert (h' = h) as -> by (unfold prune_cell in H; rewrite Hc in H; inversion Hp; subst; congruence).
  all: destruct (decide (id ∈ done)) as [Hd|Hd]; [exists done; split; [naive_solver|done]|].
  all: exists (done ++ [id]); split; [intros ?; apply snoc_elem|]; eapply (pruning_more done (store h) (store h)); try done;
    first [exact (pr_passing _ _ P)|intros q' qc' _ Hq'; unfold jobs_for; by rewrite Hc0, add_jobs_nil|
           intros Ht; clear -Ht Hp Hc; inversion Hp; subst; exact Hc].
Qed.

Lemma prune_weak_pruning l : forall h h' done, owner_refs h = owners -> pruning done (store h) ->
  (forall id, id ∈ l -> id ∈ m /\ kept m owners s1 id /\ is_Some (s1 !! id)) -> prune_weak m l h = Ok h' ->
  exists done', (forall i, i ∈ done' <-> i ∈ l \/ i ∈ done) /\ pruning done' (store h').
Proof.
  induction l as [|id l IH]; intros h h' done Ho P Hl; simpl.
  { intros [= <-]. exists done. split; [|done]. intros i. split; [by right|]. by intros [[]%elem_of_nil|]. }
  destruct (prune_cell m id h) as [h1| |] eqn:E; cbn [obind]; [|done|done]. intros H.
  destruct (Hl id) as (Hm & Hk & c0 & Hc0); [by left|].
  destruct (prune_cell_pruning h h1 done id c0 Ho P Hm Hk Hc0 E) as (d1 & Hd1 & P1).
  destruct (prune_cell_passing m owners s1 Hreg h h1 id c0 Ho (pr_passing _ _ P) Hm Hk Hc0 E) as (_ & R1 & _).
  destruct (IH h1 h' d1) as (d2 & Hd2 & P2); [by rewrite (same_rest_owners _ _ R1)|done|intros; apply Hl; by right|done|].
  exists d2. split; [|done]. intros i. rewrite Hd2, Hd1, elem_of_cons. naive_solver.
Qed.

End Pruning.
End CollectPrune.
