(* ===== verification/CollectDone.v ===== *)
(** * What a collection keeps and what it frees

    Every reachable cell is marked, kept through the releases, and found at the end
    as pruning left it; a cell that nothing kept refers to is freed. *)
From stdpp Require Import prelude list strings gmap sets.
From Stdlib Require Import ZArith Lia.
From S2P Require Import Prelude Heap Collect CollectSpec CollectMark CollectVisit CollectEphemeron CollectPhase CollectSweep.
Import ListNotations Heap Collect CollectSpec CollectMark CollectVisit CollectEphemeron CollectPhase CollectSweep CollectPrune.

Module CollectDone.

(** ** Between the host's calls *)

(** What a collection assumes of the heap: references are typed and counted, nothing
    is being advanced, and the queue of every registry still belongs to an
    interpreter.  [mg_deferred] is no invariant of the program: a module does cache
    a deferred namespace, the tracer does not follow it, and the results below are
    then false (the example [deferred_namespace_cleared] of CollectTheorems). *)
Record managed (h : Heap) : Prop := {
  mg_typed : heap_typed h;
  mg_counted : forall id c, store h !! id = Some c -> owned (owner_refs h) (store h) id;
  mg_quiescent : quiescent h;
  mg_deferred : no_deferred h;
  mg_queues : forall id o cb rs q, store h !! id = Some (CObject o) -> weak o = WRegistry cb rs q ->
    q ∈ owner_refs h /\ exists qc, store h !! q = Some (CJobs qc);
}.

(** On one of the lists of the registry. *)
Definition registered (i : HeapInner) (id : Id) : bool := existsb (fun k => bool_decide (id ∈ entries k i)) kinds.

(** ** References of a node *)

Definition within (P : Id -> Prop) (x : Value + Id) : Prop :=
  match x with inr id => P id | inl v => forall id, id ∈ map fst (value_refs v) -> P id end.

Lemma within_vals P l x : (forall id, id ∈ map fst (values_refs l) -> P id) -> x ∈ vals l -> within P x.
Proof.
  intros H (v & -> & Hv)%list_elem_of_fmap. intros id Hid. apply H, elem_of_values_ids. eauto.
Qed.

Lemma within_cells P l x : (forall id, id ∈ l -> P id) -> x ∈ cells l -> within P x.
Proof. intros H (v & -> & Hv)%list_elem_of_fmap. by apply H. Qed.

Lemma within_concat {A} P (f : A -> list (Value + Id)) l x :
  (forall a, a ∈ l -> x ∈ f a -> within P x) -> x ∈ concat (map f l) -> within P x.
Proof. intros H (k & (a & -> & Ha)%list_elem_of_fmap & Hx)%elem_of_concat. eauto. Qed.

Lemma ids_app (l1 l2 : list Ref) id : id ∈ map fst (l1 ++ l2) <-> id ∈ map fst l1 \/ id ∈ map fst l2.
Proof. by rewrite map_app, elem_of_app. Qed.

Lemma ids_concat {A} (f : A -> list Ref) l a id : a ∈ l -> id ∈ map fst (f a) -> id ∈ map fst (concat (map f l)).
Proof.
  intros Ha (r & -> & Hr)%list_elem_of_fmap. apply list_elem_of_fmap_2, elem_of_concat.
  exists (f a). split; [|done]. by apply list_elem_of_fmap_2.
Qed.

Lemma ids_refs t l id : id ∈ map fst (refs t l) <-> id ∈ l.
Proof. unfold refs. rewrite map_map. simpl. by rewrite map_id. Qed.

Lemma vals_app l1 l2 : vals (l1 ++ l2) = vals l1 ++ vals l2.
Proof. apply map_app. Qed.

Section Within.
Context (m : gset Id) (s : gmap Id Cell) (P : Id -> Prop).

(** [P] goes through the cells no sweep looks at. *)
Context (HP : forall j c id, P j -> s !! j = Some c -> sweepable c = false -> tag_of c <> TDate ->
  id ∈ ref_ids c -> P id).

Lemma modules_within id x : P id -> x ∈ modules_next s id -> within P x.
Proof.
  intros Hid. unfold modules_next. destruct (s !! id) as [c|] eqn:E; [|by intros []%elem_of_nil].
  destruct c; try (by intros []%elem_of_nil). apply within_concat. intros md Hmd.
  assert (forall i, i ∈ map fst (values_refs (module_values md) ++ values_refs (option_list (deferred_namespace md))
    ++ refs TEnv (option_list (scope md))) -> P i) as H.
  { intros i Hi. eapply HP; [exact Hid|exact E|done|done|]. by eapply (ids_concat (fun m => _)). }
  unfold module_next. rewrite !elem_of_app. setoid_rewrite ids_app in H. setoid_rewrite ids_app in H.
  setoid_rewrite ids_refs in H.
  intros [Hx|[Hx|Hx]]; [by eapply within_vals; [|exact Hx]; auto..|by eapply within_cells; [|exact Hx]; auto].
Qed.

Lemma realm_within r x : (forall id, id ∈ map fst (realm_refs r) -> P id) -> x ∈ realm_next s r -> within P x.
Proof.
  intros H. unfold realm_next. rewrite !elem_of_app. intros [Hx|[Hx|Hx]].
  - eapply modules_within; [|exact Hx]. apply H. by left.
  - destruct (s !! graph r) as [[]|] eqn:E; try (by apply elem_of_nil in Hx).
    eapply within_vals; [|exact Hx]. intros id Hid. eapply HP; [|exact E|done|done|exact Hid]. apply H. right. by left.
  - destruct (s !! commonjs_cache r) as [[]|] eqn:E; try (by apply elem_of_nil in Hx).
    eapply within_vals; [|exact Hx]. intros id Hid. eapply HP; [|exact E|done|done|exact Hid]. apply H. right. right. by left.
Qed.

Lemma queue_within id x : P id -> x ∈ queue_next s id -> within P x.
Proof.
  intros Hid. unfold queue_next. destruct (s !! id) as [c|] eqn:E; [|by intros []%elem_of_nil].
  destruct c; try (by intros []%elem_of_nil). apply within_vals. intros i Hi. by eapply HP.
Qed.

Lemma object_within o x : (forall id, id ∈ live_refs m (CObject o) -> P id) -> x ∈ vals (object_children o) -> within P x.
Proof.
  unfold live_refs. setoid_rewrite elem_of_object_ids. simpl. intros H. apply within_vals. intros id Hid. apply H.
  unfold object_children in Hid. rewrite !values_refs_app, !ids_app in *.
  clear H. destruct Hid as [?|[?|[?|[?|Hw]]]]; [tauto..|]. right.
  destruct (weak o); try done; by apply elem_of_nil in Hw.
Qed.

(** The references of a cell in [H], and the nodes it leads to in [Hx], taken apart. *)
Ltac parts H Hx :=
  unfold live_refs, ref_ids in H; simpl in H;
  repeat setoid_rewrite elem_of_cons in H; repeat setoid_rewrite ids_app in H; try setoid_rewrite ids_refs in H;
  rewrite ?elem_of_cons, ?elem_of_app in Hx.

Lemma cell_within c x : (forall id, id ∈ live_refs m c -> P id) -> x ∈ cell_next s c -> within P x.
Proof.
  destruct c as [o|a|e|f|p|g|p|v b|t| | | | | | | | | |]; cbn [cell_next]; intros H Hx;
    try (by apply elem_of_nil in Hx).
  - by apply (object_within o).
  - by eapply within_vals.
  - parts H Hx. destruct Hx as [Hx|[Hx|Hx]].
    + destruct (module_realm e) as [r|]; [|by apply elem_of_nil in Hx]. eapply realm_within; [|exact Hx]. auto 12.
    + eapply within_vals; [|exact Hx]. auto 12.
    + eapply within_cells; [|exact Hx]. auto 12.
  - parts H Hx. destruct Hx as [->|[Hx|Hx]]; [simpl; auto 12|..].
    + eapply within_cells; [|exact Hx]. auto 12.
    + eapply within_vals; [|exact Hx]. auto 12.
  - parts H Hx. destruct Hx as [->|Hx]; [intros id Hid; auto 12|].
    revert Hx. apply within_concat. intros r Hr Hx.
    assert (forall id, id ∈ map fst ((derived r, TPromise) :: values_refs (reaction_values r)) -> P id) as Hr'.
    { intros id Hid. apply H. right. right. by eapply (ids_concat (fun r => (derived r, TPromise) :: _)). }
    parts Hr' Hx. destruct Hx as [Hx|Hx]; [eapply within_vals; [|exact Hx]; auto 12|].
    apply list_elem_of_singleton in Hx as ->. simpl. auto 12.
  - parts H Hx. destruct Hx as [Hx|[Hx|[Hx|[Hx|[Hx|Hx]]]]].
    + eapply realm_within; [|exact Hx]. unfold realm_refs. simpl. intros id Hid; rewrite !elem_of_cons, elem_of_nil in Hid; apply H; tauto.
    + eapply queue_within; [|exact Hx]. auto 12.
    + eapply within_vals; [|exact Hx]. auto 12.
    + eapply within_cells; [|exact Hx]. auto 12.
    + eapply within_vals; [|exact Hx]. auto 12.
    + eapply within_cells; [|exact Hx]. auto 12.
  - by eapply within_vals.
  - apply list_elem_of_singleton in Hx as ->. exact H.
  - parts H Hx. destruct Hx as [->|[Hx|Hx]]; [simpl; set_solver|..];
      (eapply within_cells; [|exact Hx]; auto 12).
Qed.

Lemma exotic_within id x : (forall c i, s !! id = Some c -> i ∈ live_refs m c -> P i) -> x ∈ exotic_next s id -> within P x.
Proof.
  unfold exotic_next. destruct (s !! id) as [c|] eqn:E; [|by intros _ []%elem_of_nil].
  intros H0. assert (forall i, i ∈ live_refs m c -> P i) as H by (intros; by eapply H0). clear H0.
  destruct c; try (by intros []%elem_of_nil); try (intros ->%list_elem_of_singleton; apply H; by left).
  assert (forall i, i ∈ map fst (cell_refs (CDate d)) -> P i) as H' by (intros i Hi; by apply H).
  simpl in H'. setoid_rewrite ids_app in H'. setoid_rewrite ids_refs in H'.
  destruct (date_properties d) as [q|]; [intros ->%list_elem_of_singleton; apply H'; left; by left|].
  intros Hx. eapply within_vals; [|exact Hx]. auto.
Qed.

Lemma value_within v x : within P (inl v) ->
  (forall id c i, id ∈ map fst (value_refs v) -> inr id ∈ value_next s v -> s !! id = Some c ->
     i ∈ live_refs m c -> P i) ->
  x ∈ value_next s v -> within P x.
Proof.
  intros Hv Hc Hx. simpl in Hv.
  assert (forall id, id ∈ map fst (value_refs v) -> inr id ∈ value_next s v -> x ∈ exotic_next s id -> within P x) as He.
  { intros id Hr Hid. apply exotic_within. intros c i. by apply Hc. }
  destruct v; cbn [value_next value_refs] in *; try (by apply elem_of_nil in Hx);
    try (apply list_elem_of_singleton in Hx as ->; apply Hv; by left).
  all: try (apply elem_of_cons in Hx as [->|Hx]; [apply Hv; by left|by apply (He _ ltac:(by left) ltac:(by left))]).
  - setoid_rewrite ids_app in Hv. setoid_rewrite ids_app in Hv. rewrite !elem_of_cons, elem_of_nil in Hx.
    destruct Hx as [->|[->|[->|[]]]]; [intros id ?; auto..|]. apply Hv. right. right. by left.
  - apply elem_of_cons in Hx as [->|Hx]; [apply Hv; by left|]. apply elem_of_app in Hx as [Hx|Hx];
      [by apply (He _ ltac:(by left) ltac:(by left))|]. destruct (s !! view) as [[]|] eqn:E; try (by apply elem_of_nil in Hx).
    apply list_elem_of_singleton in Hx as ->. intros i Hi. eapply Hc; [by left|by left|exact E|].
    right. by destruct shared.
  - apply elem_of_cons in Hx as [->|Hx]; [apply Hv; by left|]. apply elem_of_app in Hx as [Hx|Hx];
      [by apply (He _ ltac:(by left) ltac:(by left))|]. destruct (s !! view) as [[]|] eqn:E; try (by apply elem_of_nil in Hx).
    apply list_elem_of_singleton in Hx as ->. intros i Hi. eapply Hc; [by left|by left|exact E|].
    right. by destruct shared.
  - rewrite !elem_of_cons, elem_of_nil in Hx. destruct Hx as [->|[->|[]]]; apply Hv; [by left|right; by left].
Qed.

End Within.

(** ** The collection *)

Section Collected.
Context (h : Heap) (st : St) (M : managed h) (D : phase_done h st).
Context (Hb : borrowed (marker st) = false) (Hsus : suspended h = false).

Let s1 := store (heap st).
Let m := marked (marker st).
Let owners := owner_refs h.
Let E : evolve (store h) s1 := pd_evolve _ _ D.

Lemma mark_owners : owner_refs (heap st) = owners.
Proof. apply same_owners_refs. split; apply D. Qed.

Lemma mark_typed : heap_typed (heap st).
Proof. apply (inv_typed _ _ (co_inv _ _ (pd_complete _ _ D))). Qed.

(** Marking only moves a reference from a date to its new cell. *)
Lemma owned_evolve id : owned owners (store h) id -> owned owners s1 id.
Proof.
  intros [?|(j & cj & Hj & Hid)]; [by left|right].
  destruct (ev_kept _ _ E _ _ Hj) as [Hj'|(d & q & r & -> & Hn & Hj' & Hq)]; [eauto|].
  unfold ref_ids in Hid. simpl in Hid. rewrite Hn in Hid. simpl in Hid.
  exists q, (CObject (exotic_cell r (date_prototype d))). split; [done|]. apply elem_of_object_ids. left.
  simpl. unfold meta_values. simpl. destruct (date_prototype d) as [p|]; [|by apply elem_of_nil in Hid].
  simpl in *. unfold values_refs in *. simpl in *. rewrite !map_app, app_nil_r, !elem_of_app in *. naive_solver.
Qed.

Lemma mark_counted id c : s1 !! id = Some c -> owned owners s1 id.
Proof.
  intros Hc. destruct (ev_new _ _ E _ _ Hc) as [H|[(d & ->)|(r & p & j & d & -> & Hj & Hd)]].
  - by apply (mg_counted _ M), owned_evolve in H.
  - destruct (ev_dates _ _ E _ _ Hc) as [d0 H]. by apply (mg_counted _ M), owned_evolve in H.
  - right. exists j, (CDate d). split; [done|]. unfold ref_ids. simpl. rewrite Hd. by left.
Qed.

Lemma mark_typed_some id c i : s1 !! id = Some c -> i ∈ ref_ids c -> is_Some (s1 !! i).
Proof.
  intros Hc (r & -> & Hr)%list_elem_of_fmap. destruct (ht_store _ mark_typed _ _ Hc) as [Ht _].
  specialize (Ht r Hr). unfold typed in Ht. fold s1 in Ht. destruct (s1 !! r.1); [eauto|done].
Qed.

Lemma live_refs_sub c i : i ∈ live_refs m c -> i ∈ ref_ids c.
Proof.
  destruct c; try done. unfold live_refs. rewrite !elem_of_object_ids. simpl. intros [?|H]; [by left|right].
  destruct (weak o); try done. simpl in *. apply elem_of_values_ids in H as (v & (e & -> & He)%list_elem_of_fmap & Hi).
  apply list_elem_of_filter in He as [_ He]. apply elem_of_values_ids. exists e.2. split; [by apply list_elem_of_fmap_2|done].
Qed.

Lemma owner_some id : id ∈ owners -> is_Some (s1 !! id).
Proof.
  unfold owners, owner_refs. rewrite elem_of_union, !elem_of_list_to_set.
  assert (forall l i, all_typed (store h) l -> i ∈ map fst l -> is_Some (s1 !! i)) as H.
  { intros l i Hl (r & -> & Hr)%list_elem_of_fmap. specialize (Hl r Hr). eapply evolve_some; [exact E|].
    unfold typed in Hl. destruct (store h !! r.1); [eauto|done]. }
  intros [Hi|Hi]; [by apply (H (external h)); [apply (mg_typed _ M)|]|].
  by apply (H (registry_refs (inner h))); [apply (mg_typed _ M)|].
Qed.

Lemma kept_some id : kept m owners s1 id -> is_Some (s1 !! id).
Proof.
  induction 1 as [id H|j c id _ _ Hc _ Hid]; [by apply owner_some|]. eapply mark_typed_some; [exact Hc|].
  by apply live_refs_sub.
Qed.

Lemma kept_step j c id : kept m owners s1 j -> s1 !! j = Some c -> solid m j c -> id ∈ live_refs m c -> kept m owners s1 id.
Proof. by apply kept_ref. Qed.

Lemma kept_through j c id : kept m owners s1 j -> s1 !! j = Some c -> sweepable c = false -> id ∈ ref_ids c ->
  kept m owners s1 id.
Proof. intros Hj Hc Hs Hid. eapply kept_ref; [exact Hj|exact Hc|by right|]. by destruct c. Qed.

(** ** Roots are kept *)

Lemma registry_owner (l : list Id) id : (forall i, i ∈ l -> i ∈ map fst (registry_refs (inner h))) -> id ∈ l ->
  kept m owners s1 id.
Proof.
  intros H Hid. constructor. unfold owners, owner_refs. apply elem_of_union. right. apply elem_of_list_to_set. auto.
Qed.

Lemma interp_owner x id : x ∈ map_to_list (interps (inner h)) -> id ∈ map fst (roots_refs x.2.1) -> kept m owners s1 id.
Proof.
  intros Hx Hid. apply (registry_owner [id]); [|by left]. intros i ->%list_elem_of_singleton.
  unfold registry_refs. rewrite ids_app. left. by eapply (ids_concat (fun x => roots_refs x.2.1)).
Qed.

Lemma kept_before j c id : kept m owners s1 j -> store h !! j = Some c -> sweepable c = false -> tag_of c <> TDate ->
  id ∈ ref_ids c -> kept m owners s1 id.
Proof. intros Hj Hc Hs Ht. apply (kept_through j c id Hj); [|done]. by apply (evolve_same _ _ _ _ E). Qed.

Lemma root_kept x : x ∈ heap_roots h -> within (kept m owners s1) x.
Proof.
  unfold heap_roots. rewrite !elem_of_app. intros [Hx|[Hx|Hx]].
  - revert Hx. apply within_concat. intros y Hy. assert (forall i, i ∈ map fst (roots_refs y.2.1) -> kept m owners s1 i) as H.
    { intros i. by apply interp_owner. }
    unfold roots_refs in H. setoid_rewrite ids_app in H. setoid_rewrite ids_app in H. setoid_rewrite ids_app in H.
    setoid_rewrite ids_refs in H. unfold roots_next. rewrite !elem_of_app. intros [Hx|[Hx|Hx]].
    + revert Hx. apply within_concat. intros mm Hmm. apply (modules_within _ _ kept_before). auto.
    + eapply within_cells; [|exact Hx]. auto.
    + eapply within_vals; [|exact Hx]. auto.
  - eapply within_vals; [|exact Hx]. intros id Hid. apply (registry_owner [id]); [|by left].
    intros i ->%list_elem_of_singleton. unfold registry_refs. rewrite ids_app. right.
    apply elem_of_values_ids in Hid as (v & (y & -> & Hy)%list_elem_of_fmap & Hid).
    by eapply (ids_concat (fun x => value_refs x.2)).
  - revert Hx. apply within_concat. intros q Hq. apply (queue_within _ _ kept_before).
    unfold root_queues in Hq. apply elem_of_remove_dups, elem_of_concat in Hq as (k & (y & -> & Hy)%list_elem_of_fmap & Hq).
    apply (interp_owner y); [done|]. unfold roots_refs. rewrite !ids_app, !ids_refs. auto.
Qed.

(** ** Reachable is kept *)

Lemma reached_marked id : reached s1 (heap_roots h) (inr id) -> id ∈ m.
Proof.
  intros H. by apply (marked_iff_reached h st (mg_typed _ M) D Hb (mg_quiescent _ M) (mg_deferred _ M) Hsus id).
Qed.

Lemma reached_kept x : reached s1 (heap_roots h) x -> within (kept m owners s1) x.
Proof.
  induction 1 as [x Hx|v x Hv IH Hx|id c x Hid IH Hc Hx|id o l key v H1 IH1 Ho Hw Hl H2 IH2].
  - by apply root_kept.
  - apply (value_within m s1 _ v); try done. intros id c i Hr Hid Hc. apply (kept_step id); [by apply IH|done|].
    left. apply reached_marked. by eapply reached_value.
  - apply (cell_within m s1 _ (fun j c id Hj Hc Hs _ => kept_through j c id Hj Hc Hs) c); [|done].
    intros i. apply (kept_step id); [done..|]. left. by apply reached_marked.
  - intros i Hi. apply (kept_step id _ i IH1 Ho); [left; by apply reached_marked|].
    unfold live_refs. apply elem_of_object_ids. right. simpl. rewrite Hw. simpl. apply elem_of_values_ids.
    exists v. split; [|done]. apply list_elem_of_fmap. exists (key, v). split; [done|]. apply list_elem_of_filter.
    split; [|done]. by apply reached_marked.
Qed.

Lemma marked_kept id : id ∈ m -> kept m owners s1 id.
Proof. intros H. apply (reached_kept (inr id)). by apply (inv_sound _ _ (co_inv _ _ (pd_complete _ _ D))). Qed.

Lemma marked_firm id : id ∈ m -> firm m owners s1 id.
Proof. intros H. split; [by apply marked_kept|]. by left. Qed.

Lemma registry_queue id o cb rs q : kept m owners s1 id -> s1 !! id = Some (CObject o) ->
  weak o = WRegistry cb rs q -> q ∈ owners /\ exists qc, s1 !! q = Some (CJobs qc).
Proof.
  intros _ Ho Hw. destruct (ev_new _ _ E _ _ Ho) as [H|[(d & ?)|(r & p & j & d & [= ->] & _)]]; [|done|done].
  destruct (mg_queues _ M _ _ _ _ _ H Hw) as (Hq & qc & Hqc). split; [done|]. exists qc.
  by apply (evolve_same _ _ _ _ E).
Qed.

(** ** The end of the collection *)

Record finish (h' : Heap) : Prop := {
  fi_sweeping : exists seen, sweeping m owners s1 seen (store h')
    /\ forall k i, i ∈ entries k (inner (heap st)) -> seen i;
  fi_pruning : exists done s2, (forall i, i ∈ done <-> i ∈ weak_cells (marker st))
    /\ pruning m owners s1 done s2 /\ forall u, firm m owners s1 u -> store h' !! u = s2 !! u;
  fi_owners : same_owners h h';
  fi_locked : locked h' = false;
}.

Lemma kind_sweepable k id c : id ∈ entries k (inner (heap st)) -> s1 !! id = Some c -> sweepable c = true.
Proof.
  intros Hid Hc. destruct (ht_entries _ mark_typed k id Hid) as [_ Ht]. specialize (Ht c Hc).
  unfold sweepable. apply existsb_exists. exists k. split; [by destruct k; simpl; auto 12|]. by apply bool_decide_eq_true_2.
Qed.

Lemma prune_weak_owned l : forall h1 h2, owner_refs h1 = owners ->
  (forall id c, store h1 !! id = Some c -> owned owners (store h1) id) -> prune_weak m l h1 = Ok h2 ->
  forall id c, store h2 !! id = Some c -> owned owners (store h2) id.
Proof.
  induction l as [|u l IH]; intros h1 h2 Ho Hc; simpl; [by intros [= <-]|].
  destruct (prune_cell m u h1) as [h3| |] eqn:Ep; cbn [obind]; [|done|done].
  assert (h3 = h1 \/ exists s', h3 = release (set_store s' h1)) as [->|(s' & ->)].
  { destruct (store h1 !! u) as [c|] eqn:Hu; [|unfold prune_cell in Ep; rewrite Hu in Ep; naive_solver].
    destruct c; try (unfold prune_cell in Ep; rewrite Hu in Ep; naive_solver).
    right. destruct (prune_cell_effect m h1 h3 u o Hu Ep) as (s' & -> & _). eauto. }
  - by apply IH.
  - apply IH; [done|]. intros id c. unfold release. simpl. change (owner_refs (set_store s' h1)) with (owner_refs h1).
    rewrite Ho. by apply release_owned.
Qed.

Lemma weak_cells_ready id : id ∈ weak_cells (marker st) -> id ∈ m /\ kept m owners s1 id /\ is_Some (s1 !! id).
Proof.
  intros Hid%(inv_weak _ _ (co_inv _ _ (pd_complete _ _ D))). split_and!; [done|by apply marked_kept|].
  by apply kept_some, marked_kept.
Qed.

(** The state the sweep starts from. *)
Lemma sweep_start h1 : prune_weak m (weak_cells (marker st)) (heap st) = Ok h1 ->
  sweeping m owners s1 (fun _ => False) (store h1) /\ same_rest (heap st) h1.
Proof.
  intros H. destruct (prune_weak_passing m owners s1 registry_queue (weak_cells (marker st)) (heap st) h1) as (P & R & O);
    [apply mark_owners|apply (pruning_start m owners s1 kept_some)|apply weak_cells_ready|done|].
  split; [|done]. split; [done|..].
  - intros u c Hu. destruct (O u c Hu) as [H1|[Hk _]]; [unfold s1; eauto|by apply kept_some].
  - intros u c c0 Hc0 Hc. destruct (O u c Hc) as [H1|?]; [left; left; fold s1 in H1; congruence|by right].
  - done.
  - apply (prune_weak_owned (weak_cells (marker st)) (heap st)); [apply mark_owners| |done]. apply mark_counted.
Qed.

Lemma collect_done h1 r h' : prune_weak m (weak_cells (marker st)) (heap st) = Ok h1 ->
  sweep m kinds (set_locked true h1) = Ok r -> store h' = store r.2 -> same_owners r.2 h' -> locked h' = false ->
  finish h'.
Proof.
  intros H1 H2 Es Os El. destruct (sweep_start h1 H1) as [W R].
  destruct (prune_weak_pruning m owners s1 registry_queue (weak_cells (marker st)) (heap st) h1 []) as (ds & Hds & P);
    [apply mark_owners|apply (pruning_start m owners s1 kept_some)|apply weak_cells_ready|done|].
  apply (sweep_sweeping m owners s1 registry_queue kinds (fun _ => False)) in H2 as (W2 & O2 & F2); [|..].
  - split; [|exists ds, (store h1); split_and!|..].
    + eexists. rewrite Es. split; [exact W2|]. intros k i Hi. left. exists k. split; [destruct k; set_solver|].
      simpl. by rewrite (sr_inner _ _ R).
    + intros i. rewrite Hds. split; [|by left]. by intros [?|[]%elem_of_nil].
    + done.
    + intros u Hu. rewrite Es. by apply F2.
    + destruct O2, Os, D, R. simpl in *. split; congruence.
    + done.
  - unfold kinds. repeat (apply NoDup_cons; split; [set_solver|]). constructor.
  - rewrite <- mark_owners. exact (same_rest_owners _ _ R).
  - done.
  - intros k id c0 _ Hid. simpl in Hid. rewrite (sr_inner _ _ R) in Hid. by apply (kind_sweepable k).
  - intros k id _ _ Hm _. by apply marked_firm.
Qed.

(** ** Reachable cells *)

Lemma weak_listed id o : id ∈ m -> s1 !! id = Some (CObject o) -> weak o <> WNone -> id ∈ weak_cells (marker st).
Proof.
  intros Hm Ho Hw. destruct (marked_visited h st D Hb id Hm) as (c & Hc & _ & Hk & _). fold s1 in Hc.
  rewrite Ho in Hc. injection Hc as <-. apply Hk. unfold holds_weak. by destruct (weak o).
Qed.

Lemma pruned_none o : weak o = WNone -> pruned_cell m o = CObject o.
Proof. intros Hw. unfold pruned_cell. rewrite Hw. simpl. destruct o; simpl in *; by subst. Qed.

Lemma marked_end h' id c : finish h' -> id ∈ m -> s1 !! id = Some c -> tag_of c <> TJobs ->
  store h' !! id = Some (trimmed m c).
Proof.
  intros [_ (ds & s2 & Hds & P & F) _ _] Hm Hc Ht. rewrite F by by apply marked_firm.
  pose proof (marked_kept id Hm) as Hk. destruct (decide (id ∈ ds)) as [Hin|Hin].
  - by apply (pr_done _ _ _ _ _ P).
  - rewrite (pr_same _ _ _ _ _ P id c Hin Hk Hc Ht) by by left. destruct c; try done. simpl. f_equal.
    rewrite pruned_none; [done|]. destruct (weak o) eqn:Ew; [done|..]; destruct Hin; apply Hds;
      apply (weak_listed id o); try done; by rewrite Ew.
Qed.

Lemma queue_end h' q qc : finish h' -> kept m owners s1 q -> s1 !! q = Some (CJobs qc) ->
  exists ds, NoDup ds /\ (forall i, i ∈ ds <-> i ∈ weak_cells (marker st))
  /\ store h' !! q = Some (CJobs (add_jobs (concat (map (jobs_for m s1 q) ds)) qc)).
Proof.
  intros [_ (ds & s2 & Hds & P & F) _ _] Hk Hq. exists ds. split_and!; [apply P|done|].
  rewrite F by by eapply firm_queue. by apply (pr_queue _ _ _ _ _ P).
Qed.

(** ** Cells nothing leads to *)

(** What the references of owners lead to, the entries of the reachable weak maps
    whose keys are not reachable left out. *)
Inductive linked : Id -> Prop :=
| linked_owner id : id ∈ owners -> linked id
| linked_ref j c id : linked j -> s1 !! j = Some c ->
    id ∈ (if bool_decide (j ∈ m) then live_refs m c else ref_ids c) -> linked id.

Lemma kept_linked id : kept m owners s1 id -> linked id.
Proof.
  induction 1 as [id H|j c id _ IH Hc Hs Hid]; [by constructor|]. eapply linked_ref; [exact IH|exact Hc|].
  case_bool_decide; [done|]. by apply live_refs_sub.
Qed.

Lemma linked_live j c id : linked j -> s1 !! j = Some c -> id ∈ live_refs m c -> linked id.
Proof. intros Hj Hc Hid. eapply linked_ref; [exact Hj|exact Hc|]. case_bool_decide; [done|]. by apply live_refs_sub. Qed.

Lemma trimmed_refs o id : id ∈ ref_ids (pruned_cell m o) -> id ∈ live_refs m (CObject o).
Proof.
  unfold live_refs, pruned_cell. rewrite !elem_of_object_ids. simpl. intros [?|H]; [by left|right].
  destruct (weak o) as [|l|[t|]|cb rs q]; try done. simpl in *.
  apply elem_of_values_ids in H as (v & [->|(r & -> & Hr)%list_elem_of_fmap]%elem_of_cons & Hi);
    apply elem_of_values_ids; [exists cb; split; [by left|done]|].
  apply list_elem_of_filter in Hr as [_ Hr]. exists (held r). split; [|done]. right. by apply list_elem_of_fmap_2.
Qed.

Lemma jobs_for_refs q id job v i : id ∈ m -> job ∈ jobs_for m s1 q id -> v ∈ job -> i ∈ map fst (value_refs v) -> linked i.
Proof.
  intros Hm Hjob Hv Hi. unfold jobs_for in Hjob. destruct (s1 !! id) as [c|] eqn:Hc; [|by apply elem_of_nil in Hjob].
  destruct c; try (by apply elem_of_nil in Hjob). destruct (weak o) as [| | |cb rs q'] eqn:Ew; try (by apply elem_of_nil in Hjob).
  case_bool_decide; [|by apply elem_of_nil in Hjob]. unfold callbacks in Hjob.
  apply list_elem_of_fmap in Hjob as (w & -> & Hw).
  apply (linked_live id _ i (kept_linked _ (marked_kept _ Hm)) Hc). unfold live_refs. apply elem_of_object_ids. right.
  simpl. rewrite Ew. simpl. apply elem_of_values_ids. exists v. split; [|done].
  rewrite !elem_of_cons, elem_of_nil in Hv. destruct Hv as [->|[->|[]]]; [by left|right].
  simpl in Hw. apply list_elem_of_fmap in Hw as (r & -> & [_ Hr]%list_elem_of_filter). by apply list_elem_of_fmap_2.
Qed.

Lemma queue_refs_end h' q qc c id : finish h' -> kept m owners s1 q -> s1 !! q = Some (CJobs qc) ->
  store h' !! q = Some c -> id ∈ ref_ids c -> linked id.
Proof.
  intros F Hk Hq Hc Hid. destruct (queue_end h' q qc F Hk Hq) as (ds & _ & Hds & Hq').
  rewrite Hc in Hq'. injection Hq' as ->. unfold ref_ids in Hid. simpl in Hid.
  apply elem_of_values_ids in Hid as (v & Hv & Hi). unfold queue_values in Hv. simpl in Hv.
  rewrite concat_app, !elem_of_app in Hv.
  assert (v ∈ queue_values qc -> linked id) as Hold.
  { intros Hv'. apply (linked_live q (CJobs qc)); [by apply kept_linked|done|]. apply elem_of_values_ids. eauto. }
  unfold queue_values in Hold. rewrite elem_of_app in Hold. destruct Hv as [[Hv|Hv]|Hv]; auto.
  apply elem_of_concat in Hv as (job & Hjob & Hv). apply elem_of_concat in Hjob as (k & (u & -> & Hu)%list_elem_of_fmap & Hjob).
  apply (jobs_for_refs q u job v); try done. by apply weak_cells_ready, Hds.
Qed.

Lemma marked_refs_end h' j c0 c id : finish h' -> j ∈ m -> s1 !! j = Some c0 -> store h' !! j = Some c ->
  id ∈ ref_ids c -> linked id.
Proof.
  intros F Hm Hc0 Hc Hid. pose proof (kept_linked _ (marked_kept _ Hm)) as Hj.
  destruct (decide (tag_of c0 = TJobs)) as [Ht|Ht].
  - destruct c0; try discriminate Ht. by eapply (queue_refs_end h' j); [done|apply marked_kept|..].
  - rewrite (marked_end h' j c0 F Hm Hc0 Ht) in Hc. injection Hc as <-. apply (linked_live j c0 id Hj Hc0).
    destruct c0; try done. by apply trimmed_refs.
Qed.

(** The references of a linked cell that remains are linked. *)
Lemma linked_end h' j c id : finish h' -> linked j -> store h' !! j = Some c -> id ∈ ref_ids c -> linked id.
Proof.
  intros F Hj Hc Hid. destruct (fi_sweeping _ F) as (seen & W & _).
  destruct (sw_some _ _ _ _ _ W _ _ Hc) as [c0 Hc0].
  destruct (decide (j ∈ m)) as [Hm|Hm]; [by eapply marked_refs_end|].
  assert (id ∈ ref_ids c0 -> linked id) as Hold.
  { intros Hi. eapply linked_ref; [exact Hj|exact Hc0|]. by rewrite bool_decide_eq_false_2. }
  destruct (sw_other _ _ _ _ _ W _ _ _ Hc0 Hc) as [[->|Hcl]|[Hk Hsol]]; [auto|..].
  - apply Hold. apply list_elem_of_fmap in Hid as (r & -> & Hr). apply list_elem_of_fmap_2. by eapply clear_refs.
  - destruct (decide (tag_of c0 = TJobs)) as [Ht|Ht].
    { destruct c0; try discriminate Ht. by eapply (queue_refs_end h' j). }
    destruct (fi_pruning _ F) as (ds & s2 & Hds & P & Hf). rewrite Hf in Hc by done.
    assert (j ∉ ds) as Hn by (intros Hin%Hds; by apply Hm, weak_cells_ready).
    rewrite (pr_same _ _ _ _ _ P j c0 Hn Hk Hc0 Ht (Hsol c0 Hc0)) in Hc. injection Hc as <-. auto.
Qed.

(** [c] is what the sweep makes of [c0], a cell without borrows it should free. *)
Definition left_over (j : Id) (c0 c : Cell) : Prop :=
  if registered (inner (heap st)) j then clear_cell c0 = Ok (Some c) else shrunk c0 c.

(** The references that clearing leaves go down in [rank]: they form no cycle. *)
Definition unwound (rank : Id -> nat) : Prop := forall j c0 c id, ~ linked j -> s1 !! j = Some c0 ->
  left_over j c0 c -> id ∈ ref_ids c -> rank id < rank j.

Definition unborrowed : Prop := forall id c, ~ linked id -> s1 !! id = Some c -> clear_cell c <> Ok None.

Lemma unlinked_left h' j c0 c : finish h' -> unborrowed -> ~ linked j -> s1 !! j = Some c0 -> store h' !! j = Some c ->
  left_over j c0 c.
Proof.
  intros F U Hj Hc0 Hc. destruct (fi_sweeping _ F) as (seen & W & Hseen).
  assert (~ firm m owners s1 j) as Hf by (intros [Hk _]; by apply Hj, kept_linked).
  unfold left_over. destruct (registered _ j) eqn:R.
  - apply existsb_exists in R as (k & _ & Hin%bool_decide_eq_true).
    destruct (sw_seen _ _ _ _ _ W j c c0 (Hseen k j Hin) Hc0 Hc) as [?|[?|?]]; [done| |done].
    by destruct (U j c0 Hj Hc0).
  - by destruct (sw_other _ _ _ _ _ W j c c0 Hc0 Hc) as [?|?].
Qed.

Lemma ranks_bounded (rank : Id -> nat) (s : gmap Id Cell) : exists b, forall j c, s !! j = Some c -> rank j <= b.
Proof.
  exists (list_max (map (fun x => rank x.1) (map_to_list s))). intros j c H%elem_of_map_to_list.
  pose proof (proj1 (list_max_le _ _) (le_n (list_max (map (fun x => rank x.1) (map_to_list s))))) as F.
  rewrite Forall_forall in F. apply F. by apply (list_elem_of_fmap_2 (fun x => rank x.1) _ (j, c)).
Qed.

Lemma unlinked_freed h' rank : finish h' -> unborrowed -> unwound rank ->
  forall id, ~ linked id -> store h' !! id = None.
Proof.
  intros F U K. destruct (ranks_bounded rank (store h')) as [b Hb'].
  assert (forall n id c, b - rank id < n -> ~ linked id -> store h' !! id = Some c -> False) as H.
  { induction n as [|n IH]; intros id c Hn Hid Hc; [lia|]. destruct (fi_sweeping _ F) as (seen & W & _).
    destruct (sw_owned _ _ _ _ _ W id c Hc) as [Ho|(j & cj & Hj & Hr)]; [by apply Hid; constructor|].
    assert (~ linked j) as Hl by (intros Hl; by apply Hid, (linked_end h' j cj)).
    destruct (sw_some _ _ _ _ _ W _ _ Hj) as [c0 Hc0].
    pose proof (K j c0 cj id Hl Hc0 (unlinked_left h' j c0 cj F U Hl Hc0 Hj) Hr).
    pose proof (Hb' j cj Hj). apply (IH j cj); [lia|done..]. }
  intros id Hid. apply eq_None_not_Some. intros [c Hc]. by apply (H (S (b - rank id)) id c); [lia|..].
Qed.

End Collected.

(** ** A collection that runs *)

Lemma collect_runs h stats h' : managed h -> collect h = Ok (stats, h') -> skipped stats = None ->
  exists st, mark_phase h = Ok st /\ phase_done h st /\ borrowed (marker st) = false /\ suspended h = false
    /\ finish h st h'.
Proof.
  intros M. unfold collect. destruct (suspended h) eqn:Hs; [by intros [= <- _]|].
  destruct (executing h) eqn:He; [by intros [= <- _]|].
  pose proof (mark_phase_goes h (mg_typed _ M)) as G. destruct (mark_phase h) as [st| |]; cbn [obind]; [|done|done].
  destruct (borrowed (marker st)) eqn:Hb; [by intros [= <- _]|].
  destruct (prune_weak _ _ _) as [h1| |] eqn:Hp; cbn [obind]; [|done|done].
  destruct (sweep _ _ _) as [r| |] eqn:Hw; cbn [obind]; [|done|done].
  intros [= <- <-] _. exists st. split_and!; try done. by apply (collect_done h st M G Hb Hs h1 r).
Qed.

(** What becomes of a reachable cell: its weak container is pruned, a date may have
    got its property cell, a queue may have got jobs. *)
Inductive kept_as (live : gset Id) : Cell -> Cell -> Prop :=
| kept_as_is c : kept_as live c (trimmed live c)
| kept_as_date d q : date_properties d = None -> kept_as live (CDate d) (CDate (with_cell d q))
| kept_as_queue q jobs : kept_as live (CJobs q) (CJobs (add_jobs jobs q)).

Lemma marked_kept_as h st h' id c : managed h -> phase_done h st -> borrowed (marker st) = false ->
  suspended h = false -> finish h st h' -> id ∈ marked (marker st) -> store h !! id = Some c ->
  exists c', store h' !! id = Some c' /\ kept_as (marked (marker st)) c c'.
Proof.
  intros M D Hb Hs F Hm Hc.
  destruct (ev_kept _ _ (pd_evolve _ _ D) _ _ Hc) as [H1|(d & q & r & -> & Hn & H1 & _)].
  - destruct (decide (tag_of c = TJobs)) as [Ht|Ht].
    + destruct c; try discriminate Ht.
      destruct (queue_end h st h' id q F (marked_kept h st M D Hb Hs id Hm) H1) as (ds & _ & _ & Hq).
      eexists. split; [exact Hq|constructor].
    + eexists. split; [by apply (marked_end h st M D Hb Hs)|constructor].
  - eexists. split; [by apply (marked_end h st M D Hb Hs h' id _ F Hm H1)|]. by constructor.
Qed.

(** New cells are no containers. *)
Lemma jobs_for_evolve live s s' q id : evolve s s' -> jobs_for live s' q id = jobs_for live s q id.
Proof.
  intros E. unfold jobs_for. destruct (s !! id) as [c|] eqn:Hc.
  - destruct (ev_kept _ _ E _ _ Hc) as [->|(d & x & r & -> & _ & -> & _)]; done.
  - destruct (s' !! id) as [c|] eqn:Hc'; [|done].
    destruct (ev_new _ _ E _ _ Hc') as [?|[(d & ->)|(r & p & j & d & -> & _)]]; [congruence|done|done].
Qed.

End CollectDone.
