(* ===== verification/CollectIdle.v ===== *)
(** * Collections of an idle heap

    With no cell borrowed, no step of a collection meets a conflict: marking reads
    every cell, and pruning and the sweep return. *)
From stdpp Require Import prelude list strings gmap sets.
From Stdlib Require Import ZArith Lia.
From S2P Require Import Prelude Heap Collect CollectSpec CollectMark CollectVisit CollectPhase CollectSweep.
Import ListNotations Heap Collect CollectSpec CollectMark CollectVisit CollectPhase CollectSweep.

Module CollectIdle.

(** No part of the cell is borrowed. *)
Definition idle_cell (c : Cell) : Prop :=
  match c with
  | CObject o => b_slots o = Free /\ b_meta o = Free /\ b_weak o = Free /\ b_index o = Free /\ b_shape o = Free
  | CArray a => b_elements a = Free /\ b_named a = Free /\ b_array_meta a = Free /\ b_symbol_keys a = Free
  | CEnv e => b_env e = Free
  | CPromise p => b_promise p = Free
  | CGenerator g => b_generator g = Free
  | CProxy p => b_proxy_slots p = Free /\ b_private_storage p = Free
  | CBinding _ b | CStringIterator _ b | CGraph _ b | CCommonJs _ b => b = Free
  | CAsyncTask t => b_task t = Free
  | CModules l b => b = Free /\ Forall (fun m => b_namespace m = Free) l
  | CJobs q => b_jobs q = Free
  | _ => True
  end.

Definition idle (s : gmap Id Cell) : Prop := forall id c, s !! id = Some c -> idle_cell c.

Lemma idle_insert s id c : idle s -> idle_cell c -> idle (<[id := c]> s).
Proof.
  intros I Hc j x. destruct (decide (j = id)) as [->|N].
  - rewrite lookup_insert_eq. by intros [= <-].
  - rewrite lookup_insert_ne by done. apply I.
Qed.

Lemma idle_sub s s' : s' ⊆ s -> idle s -> idle s'.
Proof. intros H I j x Hj. eapply I. by apply (lookup_weaken _ _ _ _ Hj). Qed.

Lemma idle_release h : idle (store h) -> idle (store (release h)).
Proof. apply idle_sub, release_sub. Qed.

(** ** Marking *)

(** From an idle heap, no conflict is recorded and the heap stays idle. *)
Definition clear_state (st : St) : Prop := idle (store (heap st)) /\ borrowed (marker st) = false.

Definition quiet (st : St) (r : outcome unit St) : Prop :=
  clear_state st -> match r with Ok st' => clear_state st' | _ => True end.

Lemma quiet_ok st : quiet st (Ok st).
Proof. by intros C. Qed.

Lemma quiet_bind st r k : quiet st r -> (forall st', quiet st' (k st')) -> quiet st (obind r k).
Proof. intros Hr Hk C. specialize (Hr C). destruct r as [st'| |]; simpl; [by apply Hk|done..]. Qed.

(** Steps that touch neither the heap nor the flag. *)
Lemma quiet_same st st' : heap st' = heap st -> borrowed (marker st') = borrowed (marker st) -> quiet st (Ok st').
Proof. intros Hh Hb [I B]. split; [by rewrite Hh|by rewrite Hb]. Qed.

Lemma quiet_then st st' r : heap st' = heap st -> borrowed (marker st') = borrowed (marker st) -> quiet st' r -> quiet st r.
Proof. intros Hh Hb H C. apply H. by apply (quiet_same st st'). Qed.

Lemma mark_item_same id st : heap (mark_item id st) = heap st /\ borrowed (marker (mark_item id st)) = borrowed (marker st).
Proof. unfold mark_item, mark. by case_bool_decide. Qed.

Lemma mark_same id st : heap (mark id st).2 = heap st /\ borrowed (marker (mark id st).2) = borrowed (marker st).
Proof. unfold mark. by case_bool_decide. Qed.

Lemma mark_envs_same l : forall st, heap (mark_envs l st) = heap st /\ borrowed (marker (mark_envs l st)) = borrowed (marker st).
Proof.
  induction l as [|id l IH]; intros st; [done|]. simpl. destruct (IH (mark_item id st)) as [-> ->]. apply mark_item_same.
Qed.

Lemma quiet_item id st : quiet st (Ok (mark_item id st)).
Proof. apply quiet_same; apply mark_item_same. Qed.

Lemma quiet_mark id st : quiet st (Ok (mark id st).2).
Proof. apply quiet_same; apply mark_same. Qed.

Lemma quiet_envs l st : quiet st (Ok (mark_envs l st)).
Proof. apply quiet_same; apply mark_envs_same. Qed.

Lemma materialize_idle id d h q h' : store h !! id = Some (CDate d) -> idle (store h) ->
  materialize id d h = Some (q, h') -> idle (store h').
Proof.
  intros Hd I. unfold materialize. destruct (date_properties d); [by intros [= <- <-]|].
  unfold tracked, track. destruct (locked _); [done|]. intros [= <- <-]. simpl.
  apply idle_insert; [|done]. rewrite (proj1 (record_allocation_same _)). simpl. by apply idle_insert.
Qed.

Lemma quiet_properties v st : quiet st (mark_properties v st).
Proof.
  intros C. unfold mark_properties.
  assert (match exotic_properties v st with Ok r => clear_state r.2 | _ => True end) as H.
  { destruct v; try done; simpl; unfold cell_at;
      (destruct (store (heap st) !! _) as [c|] eqn:Hc; [|done]); destruct c; try done;
      (destruct (materialize _ _ _) as [[q h']|] eqn:M; [|done]); destruct C as [I B];
      (split; [by eapply materialize_idle|done]). }
  destruct (exotic_properties v st) as [[q st']| |]; simpl in *; [|done|done].
  destruct q; [by apply quiet_item|done].
Qed.

Lemma quiet_view id st : quiet st (mark_view id st).
Proof.
  unfold mark_view. apply (quiet_then _ (mark id st).2); [apply mark_same..|].
  destruct (cell_at _ _) as [[]|]; try apply quiet_ok. apply quiet_bind; [apply quiet_properties|]. intros. apply quiet_mark.
Qed.

Lemma quiet_value v : forall st, quiet st (mark_value v st).
Proof.
  induction v; intros st; cbn [mark_value]; (apply quiet_bind; [apply quiet_properties|]; intros st');
    cbn [weak_identity]; try apply quiet_ok; try apply quiet_item; try apply quiet_mark; try apply quiet_view.
  - apply quiet_bind; [done|]. intros. apply quiet_bind; [done|]. intros. apply quiet_item.
  - by apply quiet_same.
Qed.

Lemma quiet_values l : forall st, quiet st (mark_values l st).
Proof. induction l; intros st; simpl; [apply quiet_ok|]. apply quiet_bind; [apply quiet_value|done]. Qed.

Lemma quiet_module m st : b_namespace m = Free -> quiet st (mark_module m st).
Proof. intros H. unfold mark_module. rewrite H. simpl. apply quiet_bind; [apply quiet_values|]. intros. apply quiet_envs. Qed.

Lemma quiet_module_list l : Forall (fun m => b_namespace m = Free) l -> forall st, quiet st (mark_module_list l st).
Proof. induction 1; intros st; simpl; [apply quiet_ok|]. apply quiet_bind; [by apply quiet_module|done]. Qed.

Lemma quiet_modules maps : forall st, quiet st (mark_modules maps st).
Proof.
  induction maps as [|id maps IH]; intros st; simpl; [apply quiet_ok|]. apply quiet_bind; [|done]. intros C.
  unfold cell_at. destruct (store (heap st) !! id) as [c|] eqn:Hc; [|done]. destruct c; try done.
  destruct (proj1 C _ _ Hc) as [-> Hl]. simpl. by apply quiet_module_list.
Qed.

Lemma realm_roots_idle st r : clear_state st -> realm_roots st r <> None.
Proof.
  intros [I _]. unfold realm_roots, cell_at.
  destruct (store (heap st) !! graph r) as [[]|] eqn:Hg; simpl;
    try (apply I in Hg; simpl in Hg; subst; simpl);
    (destruct (store (heap st) !! commonjs_cache r) as [[]|] eqn:Hc; simpl; try (apply I in Hc; simpl in Hc; subst; simpl); done).
Qed.

Lemma quiet_realm r st : quiet st (mark_realm r st).
Proof.
  intros C. unfold mark_realm. pose proof (realm_roots_idle st r C). destruct (realm_roots st r); [|done].
  revert C. apply quiet_bind; [apply quiet_modules|]. intros. apply quiet_values.
Qed.

Lemma quiet_queue id st : quiet st (mark_queue id st).
Proof.
  intros C. unfold mark_queue, cell_at. destruct (store (heap st) !! id) as [c|] eqn:Hc; [|done]. destruct c; try done.
  pose proof (proj1 C _ _ Hc) as H. simpl in H. rewrite H. simpl. by apply quiet_values.
Qed.

Lemma quiet_reactions l : forall st, quiet st (mark_reactions l st).
Proof.
  induction l as [|r l IH]; intros st; simpl; [apply quiet_ok|]. apply quiet_bind; [apply quiet_values|]. intros st'.
  apply (quiet_then _ (mark_item (derived r) st')); [apply mark_item_same..|]. done.
Qed.

Lemma quiet_visit id st : quiet st (visit id st).
Proof.
  intros C. unfold visit, cell_at. destruct (store (heap st) !! id) as [c|] eqn:Hc; [|done].
  pose proof (proj1 C _ _ Hc) as H. revert C. destruct c as [o|a|e|f|p|g|p|v b|t| | | | | | | | | |]; simpl in H; try apply quiet_ok.
  - destruct H as (-> & -> & -> & _). simpl.
    destruct (weak o); (eapply quiet_then; [| |apply quiet_values]; done).
  - destruct H as (-> & -> & -> & ->). apply quiet_values.
  - rewrite H. simpl. apply quiet_bind; [|intros st'; apply quiet_bind; [apply quiet_values|intros; apply quiet_envs]].
    destruct (module_realm e); [apply quiet_realm|apply quiet_ok].
  - apply (quiet_then _ (mark_item (fn_properties f) st)); [apply mark_item_same..|].
    eapply quiet_then; [apply mark_envs_same..|]. apply quiet_values.
  - rewrite H. simpl. apply quiet_bind; [apply quiet_value|]. intros. apply quiet_reactions.
  - rewrite H. cbn [try_borrow]. apply quiet_bind.
    { intros C. pose proof (realm_roots_idle st (g_realm g) C). destruct (realm_roots st (g_realm g)); [|done].
      revert C. apply quiet_bind; [apply quiet_modules|]. intros. apply quiet_bind; [apply quiet_values|]. intros. apply quiet_queue. }
    intros st1. apply quiet_bind; [apply quiet_values|]. intros st2. eapply quiet_then; [apply mark_envs_same..|].
    apply quiet_bind; [apply quiet_values|]. intros st3. by apply quiet_same.
  - unfold proxy_children. destruct H as [-> ->]. apply quiet_values.
  - rewrite H. apply quiet_value.
  - rewrite H. cbn [try_borrow]. apply (quiet_then _ (or_opaque (bool_decide (is_Some (t_coroutine t))) st)); [done|done|]. apply quiet_bind; [apply quiet_value|]. intros. apply quiet_envs.
Qed.

Lemma quiet_drain fuel : forall st, quiet st (drain fuel st).
Proof.
  induction fuel as [|fuel IH]; intros st; simpl; unfold pop_work; destruct (work (marker st)) as [|id l]; try apply quiet_ok;
    [by intros C|]. eapply quiet_then; [| |apply quiet_bind; [apply quiet_visit|done]]; done.
Qed.

(** ** Ephemerons *)

Definition quiet_pair {A} (st : St) (r : outcome unit (A * St)) : Prop :=
  clear_state st -> match r with Ok x => clear_state x.2 | _ => True end.

Lemma quiet_pair_bind {A} st r (k : St -> outcome unit (A * St)) : quiet st r -> (forall st', quiet_pair st' (k st')) ->
  quiet_pair st (obind r k).
Proof. intros Hr Hk C. specialize (Hr C). destruct r as [st'| |]; simpl; [by apply Hk|done..]. Qed.

Lemma quiet_index_entries l : forall w st, quiet_pair st (index_entries l w st).
Proof.
  induction l as [|[key v] l IH]; intros w st; simpl; [by intros C|]. case_bool_decide; [|done].
  apply quiet_pair_bind; [apply quiet_value|done].
Qed.

Lemma quiet_index_cells l : forall w st, quiet_pair st (index_cells l w st).
Proof.
  induction l as [|id l IH]; intros w st; simpl; [by intros C|]. destruct (weak_of st id) as [|l'| |]; try done. intros C.
  pose proof (quiet_index_entries l' w st C) as H. destruct (index_entries _ _ _) as [[w' st']| |]; simpl; [|done|done].
  by apply IH.
Qed.

Lemma quiet_wake fuel : forall w st, quiet_pair st (wake fuel w st).
Proof.
  induction fuel as [|fuel IH]; intros w st; simpl; unfold pop_new; destruct (newly_marked (marker st)) as [|id l];
    try (by intros C). intros C. destruct (w !! id) as [vs|].
  - assert (clear_state (set_marker {| marked := marked (marker st); work := work (marker st);
      host_calls := host_calls (marker st); opaque := opaque (marker st); borrowed := borrowed (marker st);
      weak_cells := weak_cells (marker st); newly_marked := l |} st)) as C' by done. revert C'.
    apply quiet_pair_bind; [apply quiet_values|done].
  - by apply IH.
Qed.

Lemma quiet_drain_loop fuel : forall w i st, quiet st (drain_loop fuel w i st).
Proof.
  induction fuel as [|fuel IH]; intros w i st; cbn [drain_loop]; [by intros C|].
  apply quiet_bind; [apply quiet_drain|]. intros st1 C.
  pose proof (quiet_index_cells (drop i (weak_cells (marker st1))) w st1 C) as H1.
  destruct (index_cells _ _ _) as [[w1 st2]| |]; cbn [obind fst snd] in *; [|done|done].
  pose proof (quiet_wake (turns st2) w1 st2 H1) as H2.
  destruct (wake _ _ _) as [[w2 st3]| |]; cbn [obind fst snd] in *; [|done|done].
  destruct (work (marker st3)); [done|]. by apply IH.
Qed.

Lemma quiet_interps l : forall st, quiet st (mark_interps l st).
Proof.
  induction l as [|[i [r e]] l IH]; intros st; simpl; [apply quiet_ok|]. apply quiet_bind; [apply quiet_modules|].
  intros st1. eapply quiet_then; [apply mark_envs_same..|]. apply quiet_bind; [apply quiet_values|done].
Qed.

Lemma mark_phase_quiet h : idle (store h) -> match mark_phase h with Ok st => clear_state st | _ => True end.
Proof.
  intros I. unfold mark_phase. assert (clear_state {| heap := set_locked true h; marker := new_marker |}) as C by done.
  revert C. apply quiet_bind; [apply quiet_interps|]. intros st1. apply quiet_bind; [apply quiet_values|]. intros st2 C.
  assert (clear_state (set_heap (set_locked false (heap st2)) st2)) as C' by done. revert C'.
  apply quiet_bind; [apply quiet_values|]. intros. apply quiet_drain_loop.
Qed.

(** ** Pruning and sweeping *)

Lemma push_callbacks_idle cb el q : forall h, idle (store h) ->
  exists h', push_callbacks cb el q h = Ok h' /\ idle (store h').
Proof.
  induction el as [|v el IH]; intros h I; simpl; [eauto|].
  destruct (store h !! q) as [c|] eqn:Hc; [|eauto]. destruct c; eauto.
  pose proof (I _ _ Hc) as H. simpl in H. rewrite H. simpl. apply IH. simpl. by apply idle_insert.
Qed.

Lemma prune_cell_idle live id h : idle (store h) -> exists h', prune_cell live id h = Ok h' /\ idle (store h').
Proof.
  intros I. unfold prune_cell. destruct (store h !! id) as [c|] eqn:Hc; [|eauto]. destruct c; eauto.
  pose proof (I _ _ Hc) as H. simpl in H. destruct H as (H1 & H2 & H3 & H4 & H5). rewrite H3. cbn [try_borrow_mut].
  set (h1 := set_store _ h). assert (idle (store h1)) as I1 by by apply idle_insert.
  destruct (weak o) as [| | |cb rs q]; cbn [obind]; try (eexists; split; [done|by apply idle_release]).
  destruct (push_callbacks_idle cb (eligible live (WRegistry cb rs q)) q h1 I1) as (h2 & -> & I2).
  cbn [obind]. eexists. split; [done|by apply idle_release].
Qed.

Lemma prune_weak_idle live l : forall h, idle (store h) -> exists h', prune_weak live l h = Ok h' /\ idle (store h').
Proof.
  induction l as [|id l IH]; intros h I; simpl; [eauto|].
  destruct (prune_cell_idle live id h I) as (h1 & -> & I1). cbn [obind]. by apply IH.
Qed.

Lemma clear_idle c : idle_cell c -> exists c', clear_cell c = Ok (Some c') /\ idle_cell c'.
Proof.
  destruct c; simpl; intros H; unfold clear_object, clear_array, clear_env, clear_promise, clear_generator;
    try (destruct H as (-> & -> & -> & -> & ->)); try (destruct H as (-> & -> & -> & ?)); try rewrite H;
    eexists; split; try reflexivity; simpl; auto.
Qed.

Lemma sweep_vec_idle live l : forall h, idle (store h) ->
  exists r, sweep_vec live l h = Ok r /\ idle (store r.2).
Proof.
  induction l as [|id l IH]; intros h I; cbn [sweep_vec]; [by eexists|].
  destruct (store h !! id) as [c|] eqn:Hc; [|by apply IH]. case_bool_decide.
  - destruct (IH h I) as (r & -> & Hr). cbn [obind]. by eexists.
  - destruct (clear_idle c (I _ _ Hc)) as (c' & -> & Hc'). cbn [obind].
    destruct (IH (release (set_store (<[id:=c']> (store h)) h))) as (r & -> & Hr); [|cbn [obind]; by eexists].
    apply idle_release. by apply idle_insert.
Qed.

Lemma sweep_idle live ks : forall h, idle (store h) -> exists r, sweep live ks h = Ok r /\ idle (store r.2).
Proof.
  induction ks as [|k ks IH]; intros h I; cbn [sweep]; [by eexists|].
  destruct (sweep_vec_idle live (entries k (inner h)) h I) as (r & -> & Hr). cbn [obind].
  destruct (IH (set_inner (with_entries k r.1.1 (inner r.2)) r.2) Hr) as (s & -> & Hs). cbn [obind]. by eexists.
Qed.

(** ** Dates among the roots *)

(** The values marked while the thread's heap is borrowed: those the interpreters
    publish, those of their modules, and the pins. *)
Definition map_values (s : gmap Id Cell) (id : Id) : list Value :=
  match s !! id with Some (CModules l _) => concat (map module_values l) | _ => [] end.

Definition published (h : Heap) : list Value :=
  concat (map (fun x => concat (map (map_values (store h)) (modules_ x.2.1)) ++ values_ x.2.1)
            (map_to_list (interps (inner h))))
  ++ map snd (map_to_list (pins (inner h))).

(** No date among them waits for its property cell. *)
Definition dates_settled (h : Heap) : Prop := forall v, v ∈ published h -> settled (store h) v.

Lemma root_calm h v : heap_typed h -> inl v ∈ heap_roots h -> settled (store h) v ->
  pre (heap_roots h) (st_of h) v /\ settled (store (heap (st_of h))) v.
Proof.
  intros T Hv Hs. split; [split; [by constructor|]|done]. exact (heap_roots_typed h T _ Hv).
Qed.

Lemma dates_settled_roots h : heap_typed h -> dates_settled h -> roots_settled h.
Proof.
  intros T S. unfold dates_settled, published in S. split.
  - intros x Hx. assert (forall v, v ∈ concat (map (map_values (store h)) (modules_ x.2.1)) ++ values_ x.2.1 ->
      inl v ∈ roots_next (store h) x.2.1 -> pre (heap_roots h) (st_of h) v /\ settled (store (heap (st_of h))) v) as H.
    { intros v Hv Hn. apply root_calm; [done| |].
      - apply elem_of_app. left. apply elem_of_concat. eexists. split; [|exact Hn].
        by apply (list_elem_of_fmap_2 (fun x => roots_next (store h) x.2.1)).
      - apply S, elem_of_app. left. apply elem_of_concat. eexists. split; [|exact Hv].
        by apply (list_elem_of_fmap_2 (fun x => concat (map (map_values (store h)) (modules_ x.2.1)) ++ values_ x.2.1)). }
    unfold roots_next in H. split.
    + intros id l b m Hid Hc Hm v Hv. apply H; apply elem_of_app; left; apply elem_of_concat.
      * exists (map_values (store h) id). split; [by apply list_elem_of_fmap_2|]. unfold map_values. simpl in Hc. rewrite Hc.
        apply elem_of_concat. exists (module_values m). split; [by apply list_elem_of_fmap_2|done].
      * exists (modules_next (store h) id). split; [by apply list_elem_of_fmap_2|]. unfold modules_next. simpl in Hc. rewrite Hc.
        apply elem_of_concat. exists (module_next m). split; [by apply list_elem_of_fmap_2|].
        unfold module_next. apply elem_of_app. left. by apply elem_of_vals.
    + intros v Hv. apply H; [apply elem_of_app; by right|]. rewrite !elem_of_app. right. right. by apply elem_of_vals.
  - intros v Hv. apply root_calm; [done| |apply S, elem_of_app; by right].
    unfold heap_roots. rewrite !elem_of_app. right. left. by apply elem_of_vals.
Qed.

(** A collection that is not refused at the start returns, and leaves the heap idle. *)
Lemma collect_idle h : heap_typed h -> idle (store h) -> dates_settled h ->
  exists stats h', collect h = Ok (stats, h') /\ idle (store h') /\
    skipped stats = if suspended h then Some SuspendedTasks else if executing h then Some Executing else None.
Proof.
  intros T I R%(dates_settled_roots h T). unfold collect. destruct (suspended h); [by repeat eexists|]. destruct (executing h); [by repeat eexists|].
  pose proof (mark_phase_quiet h I) as C. pose proof (mark_phase_goes h T) as G.
  destruct (mark_phase h) as [st| |]; cbn [obind]; [|done|by apply G in R].
  destruct C as [I1 ->]. destruct (prune_weak_idle (marked (marker st)) (weak_cells (marker st)) _ I1) as (h1 & -> & I2).
  cbn [obind]. destruct (sweep_idle (marked (marker st)) kinds (set_locked true h1) I2) as (r & -> & I3).
  cbn [obind]. by repeat eexists.
Qed.

End CollectIdle.
