(* ===== verification/CollectTyped.v ===== *)
(** * Typing through a collection

    Pruning, clearing and releasing keep every reference that remains pointed at a
    cell of its type, and the registry's lists of their kinds. *)
From stdpp Require Import prelude list strings gmap sets.
From Stdlib Require Import ZArith Lia.
From S2P Require Import Prelude Heap Collect CollectSpec CollectMark CollectVisit CollectEphemeron CollectPhase CollectSweep.
Import ListNotations Heap Collect CollectSpec CollectMark CollectVisit CollectEphemeron CollectPhase CollectSweep.

Module CollectTyped.

Lemma typed_insert s id c c' r : s !! id = Some c -> tag_of c' = tag_of c -> typed s r -> typed (<[id := c']> s) r.
Proof.
  intros Hc Ht Hr. unfold typed in *. destruct (decide (r.1 = id)) as [E|N].
  - rewrite E in *. rewrite lookup_insert_eq. rewrite Hc in Hr. simpl in *. congruence.
  - by rewrite lookup_insert_ne.
Qed.

(** A cell may be replaced by one of its kind with references of the right types. *)
Lemma heap_typed_insert h id c c' : heap_typed h -> store h !! id = Some c -> tag_of c' = tag_of c -> tag_of c <> TDate ->
  all_typed (store h) (cell_refs c') -> heap_typed (set_store (<[id := c']> (store h)) h).
Proof.
  intros [T1 T2 T3 T4 T5 T6] Hc Ht Hd Hr.
  assert (forall r, typed (store h) r -> typed (<[id := c']> (store h)) r) as Hty by (intros r; by apply (typed_insert _ _ c)).
  assert (forall i x, <[id := c']> (store h) !! i = Some x -> i = id /\ x = c' \/ i <> id /\ store h !! i = Some x) as Hin.
  { intros i x. destruct (decide (i = id)) as [->|N]; [rewrite lookup_insert_eq|rewrite lookup_insert_ne by done]; naive_solver. }
  split; simpl.
  - intros i x [[-> ->]|[N Hx]]%Hin; [split; [intros r Hin'; by apply Hty, Hr|by destruct c'; simpl in *; try done; congruence]|].
    destruct (T1 _ _ Hx) as [A B]. split; [intros r Hin'; by apply Hty, A|]. destruct x; simpl in *; try done.
    destruct (date_realm d) as [realm|]; [|done]. intros [y Hy]. apply Hty, B.
    destruct (Hin _ _ Hy) as [[-> ->]|[_ ->]]; eauto.
  - intros r Hin'. by apply Hty, T2.
  - intros r Hin'. by apply Hty, T3.
  - intros i Hi. specialize (T4 i Hi). destruct (decide (i = id)) as [->|N]; [congruence|by rewrite lookup_insert_ne].
  - intros i d realm [[-> <-]|[N Hx]]%Hin; [simpl in *; congruence|by eapply T5].
  - intros k i Hi. destruct (T6 k i Hi) as [? Hk]. split; [done|]. intros x [[-> ->]|[N Hx]]%Hin; [|auto].
    rewrite Ht. auto.
Qed.

Lemma release_set_typed h id c c' : heap_typed h -> store h !! id = Some c -> tag_of c' = tag_of c -> tag_of c <> TDate ->
  all_typed (store h) (cell_refs c') -> heap_typed (release (set_store (<[id := c']> (store h)) h)).
Proof. intros. by apply release_typed, (heap_typed_insert h id c). Qed.

(** ** Pruning *)

Lemma prune_storage_refs live w r : r ∈ weak_refs (prune_storage live w) -> r ∈ weak_refs w.
Proof.
  destruct w as [|l|[t|]|cb rs q]; simpl; try done.
  - rewrite !elem_of_values_refs. intros (v & (e & -> & [_ He]%list_elem_of_filter)%list_elem_of_fmap & Hr).
    exists e.2. split; [by apply list_elem_of_fmap_2|done].
  - rewrite !elem_of_values_refs. intros (v & Hv & Hr). exists v. split; [|done].
    apply elem_of_cons in Hv as [->|(x & -> & [_ Hx]%list_elem_of_filter)%list_elem_of_fmap]; [by left|right].
    by apply list_elem_of_fmap_2.
Qed.

Lemma eligible_refs live w cb rs q v : w = WRegistry cb rs q -> v ∈ cb :: eligible live w ->
  forall r, r ∈ value_refs v -> r ∈ weak_refs w.
Proof.
  intros -> Hv r Hr. simpl. apply elem_of_values_refs. exists v. split; [|done].
  apply elem_of_cons in Hv as [->|Hv]; [by left|right]. simpl in Hv.
  apply list_elem_of_fmap in Hv as (x & -> & [_ Hx]%list_elem_of_filter). by apply list_elem_of_fmap_2.
Qed.

Lemma push_callbacks_typed cb el q : forall h h', heap_typed h ->
  (forall v, v ∈ cb :: el -> all_typed (store h) (value_refs v)) -> push_callbacks cb el q h = Ok h' -> heap_typed h'.
Proof.
  intros h h' T Hv E. apply push_callbacks_ok in E as ->. destruct (store h !! q) as [c|] eqn:Hc; [|by rewrite set_store_id].
  destruct c; try (by rewrite set_store_id). apply (heap_typed_insert h q (CJobs q0)); try done.
  intros r Hr. simpl in Hr. apply elem_of_values_refs in Hr as (v & Hin & Hr). unfold queue_values in Hin. simpl in Hin.
  rewrite concat_app, !elem_of_app in Hin.
  assert (v ∈ queue_values q0 -> typed (store h) r) as Hold.
  { intros Hq. apply (ht_store _ T _ _ Hc). simpl. apply elem_of_values_refs. eauto. }
  unfold queue_values in Hold. rewrite elem_of_app in Hold. destruct Hin as [[?|Hin]|?]; auto.
  apply elem_of_concat in Hin as (job & (w & -> & Hw)%list_elem_of_fmap & Hin).
  apply (Hv v); [|done]. rewrite !elem_of_cons, elem_of_nil in Hin. destruct Hin as [->|[->|[]]]; [by left|by right].
Qed.

Lemma prune_cell_typed live id h h' : heap_typed h -> prune_cell live id h = Ok h' -> heap_typed h'.
Proof.
  intros T. unfold prune_cell. destruct (store h !! id) as [c|] eqn:Hc; [|by intros [= <-]].
  destruct c; try (by intros [= <-]). destruct (try_borrow_mut (b_weak o)); [|done].
  pose proof (ht_store _ T _ _ Hc) as [Ho _].
  assert (heap_typed (set_store (<[id := CObject (set_weak (prune_storage live (weak o)) o)]> (store h)) h)) as T1.
  { apply (heap_typed_insert h id (CObject o)); try done. intros r Hr. apply Ho. simpl in *.
    rewrite elem_of_app in *. destruct Hr as [?|Hr]; [by left|right]. by eapply prune_storage_refs. }
  destruct (weak o) as [|l|t|cb rs q] eqn:Ew; cbn [obind]; try (intros [= <-]; by apply release_typed).
  destruct (push_callbacks _ _ _ _) as [h2| |] eqn:E; cbn [obind]; [|done|done]. intros [= <-].
  apply release_typed. eapply push_callbacks_typed; [exact T1| |exact E].
  intros v Hv r Hr. simpl. eapply (typed_insert _ _ (CObject o)); [done|done|]. apply Ho. simpl. apply elem_of_app. right.
  rewrite Ew. by eapply eligible_refs.
Qed.

Lemma prune_weak_typed live l : forall h h', heap_typed h -> prune_weak live l h = Ok h' -> heap_typed h'.
Proof.
  induction l as [|id l IH]; intros h h' T; simpl; [by intros [= <-]|].
  destruct (prune_cell live id h) as [h1| |] eqn:E; cbn [obind]; [|done|done]. apply IH. by eapply prune_cell_typed.
Qed.

(** ** Sweeping *)

Lemma clear_date c c' : clear_cell c = Ok (Some c') -> tag_of c = TDate -> c' = c.
Proof. destruct c; simpl; try done. congruence. Qed.

Lemma sweep_vec_typed live l : forall h r, heap_typed h -> sweep_vec live l h = Ok r ->
  heap_typed r.2 /\ inner r.2 = inner h /\ forall i, i ∈ r.1.1 -> i ∈ l.
Proof.
  induction l as [|id l IH]; intros h r T; cbn [sweep_vec]; [by intros [= <-]|].
  destruct (store h !! id) as [c|] eqn:Hc.
  2:{ intros (? & ? & ?)%IH; [|done]. split_and!; [done..|]. intros; right; auto. }
  case_bool_decide.
  { destruct (sweep_vec live l h) as [r1| |] eqn:E; cbn [obind]; [|done|done]. intros [= <-].
    apply IH in E as (? & ? & ?); [|done]. simpl. split_and!; [done..|]. intros i [->|?]%elem_of_cons; [by left|right; auto]. }
  destruct (clear_cell c) as [[c'|]| |] eqn:Ecl; cbn [obind]; [| |done|done].
  - destruct (sweep_vec live l _) as [r1| |] eqn:E; cbn [obind]; [|done|done]. intros [= <-].
    apply IH in E as (? & ? & ?).
    + simpl. split_and!; [done..|]. intros; right; auto.
    + destruct (decide (tag_of c = TDate)) as [Hd|Hd].
      * rewrite (clear_date _ _ Ecl Hd), insert_id by done. rewrite set_store_id. by apply release_typed.
      * apply (release_set_typed h id c); [done|done|by apply clear_tag|done|].
        intros x Hx. apply (ht_store _ T _ _ Hc). by eapply clear_refs.
  - destruct (sweep_vec live l h) as [r1| |] eqn:E; cbn [obind]; [|done|done]. intros [= <-].
    apply IH in E as (? & ? & ?); [|done]. simpl. split_and!; [done..|]. intros i [->|?]%elem_of_cons; [by left|right; auto].
Qed.

Lemma heap_typed_inner h i : heap_typed h -> interps i = interps (inner h) -> pins i = pins (inner h) ->
  (forall k id, id ∈ entries k i -> id ∈ entries k (inner h)) -> heap_typed (set_inner i h).
Proof.
  intros [T1 T2 T3 T4 T5 T6] Hi Hp He. split; simpl; try done.
  - by rewrite (registry_refs_eq i (inner h)).
  - intros k id Hid. apply T6. by apply He.
Qed.

Lemma sweep_typed live ks : forall h r, heap_typed h -> sweep live ks h = Ok r -> heap_typed r.2.
Proof.
  induction ks as [|k ks IH]; intros h r T; cbn [sweep]; [by intros [= <-]|].
  destruct (sweep_vec live (entries k (inner h)) h) as [r1| |] eqn:E1; cbn [obind]; [|done|done].
  destruct (sweep live ks _) as [s| |] eqn:E2; cbn [obind]; [|done|done]. intros [= <-]. simpl.
  apply sweep_vec_typed in E1 as (T1 & Hi & He); [|done]. eapply IH; [|exact E2].
  apply heap_typed_inner; try done. intros k' id. rewrite entries_with. case_decide as Hk; [subst k'|done].
  rewrite Hi. apply He.
Qed.

Lemma collect_keeps_typed h stats h' : heap_typed h -> collect h = Ok (stats, h') -> heap_typed h'.
Proof.
  intros T. unfold collect. destruct (suspended h); [by intros [= _ <-]|]. destruct (executing h); [by intros [= _ <-]|].
  pose proof (mark_phase_goes h T) as G. destruct (mark_phase h) as [st| |]; cbn [obind]; [|done|done].
  pose proof (inv_typed _ _ (co_inv _ _ (pd_complete _ _ G))) as T1.
  destruct (borrowed (marker st)); [by intros [= _ <-]|].
  destruct (prune_weak _ _ _) as [h1| |] eqn:E1; cbn [obind]; [|done|done].
  destruct (sweep _ _ _) as [r| |] eqn:E2; cbn [obind]; [|done|done]. intros [= _ <-].
  apply prune_weak_typed in E1; [|done]. apply sweep_typed in E2; [|by apply relocked_heap_typed].
  apply heap_typed_inner; [by apply relocked_heap_typed|done..].
Qed.

(** ** The operations of the registry *)

Lemma registry_typed s i : all_typed s (registry_refs i) <->
  (forall id x, interps i !! id = Some x -> all_typed s (roots_refs x.1))
  /\ (forall id v, pins i !! id = Some v -> all_typed s (value_refs v)).
Proof.
  unfold registry_refs. rewrite all_typed_app, !all_typed_concat. split; intros [A B]; split.
  - intros id x H. apply (A (id, x)). by apply elem_of_map_to_list.
  - intros id v H. apply (B (id, v)). by apply elem_of_map_to_list.
  - intros [id x] H%elem_of_map_to_list. by apply (A id x).
  - intros [id v] H%elem_of_map_to_list. by apply (B id v).
Qed.

Lemma with_owners_typed h i ni p np : heap_typed h ->
  (forall id x, i !! id = Some x -> all_typed (store h) (roots_refs x.1)) ->
  (forall id v, p !! id = Some v -> all_typed (store h) (value_refs v)) ->
  heap_typed (set_inner (with_owners i ni p np (inner h)) h).
Proof.
  intros [T1 T2 T3 T4 T5 T6] Hi Hp. split; simpl; try done.
  by apply registry_typed.
Qed.

Lemma owners_typed h : heap_typed h ->
  (forall id x, interps (inner h) !! id = Some x -> all_typed (store h) (roots_refs x.1))
  /\ (forall id v, pins (inner h) !! id = Some v -> all_typed (store h) (value_refs v)).
Proof. intros T. apply registry_typed. apply T. Qed.

(** A fresh cell, all its references of the right types. *)
Lemma fresh_typed h c : heap_typed h -> all_typed (store h) (cell_refs c) -> tag_of c <> TDate ->
  heap_typed {| store := <[next_address h := c]> (store h); inner := inner h; external := external h;
                next_address := Pos.succ (next_address h); locked := locked h |}.
Proof.
  intros [T1 T2 T3 T4 T5 T6] Hc Hd. set (q := next_address h).
  assert (store h !! q = None) as Hq by (apply T4; unfold q; lia).
  assert (forall r, typed (store h) r -> typed (<[q := c]> (store h)) r) as Hty.
  { intros r Hr. unfold typed in *. rewrite lookup_insert_ne; [done|]. intros E. by rewrite <- E, Hq in Hr. }
  assert (forall i x, <[q := c]> (store h) !! i = Some x -> i = q /\ x = c \/ i <> q /\ store h !! i = Some x) as Hin.
  { intros i x. destruct (decide (i = q)) as [->|N]; [rewrite lookup_insert_eq|rewrite lookup_insert_ne by done]; naive_solver. }
  split; simpl.
  - intros i x [[-> ->]|[N Hx]]%Hin; [split; [intros r Hr; by apply Hty, Hc|by destruct c]|].
    destruct (T1 _ _ Hx) as [A B]. split; [intros r Hr; by apply Hty, A|]. destruct x; simpl in *; try done.
    destruct (date_realm d) as [realm|] eqn:Er; [|done]. intros [y Hy]. apply Hty, B.
    destruct (Hin _ _ Hy) as [[E _]|[_ ->]]; [|eauto]. pose proof (T5 _ _ _ Hx Er). unfold q in E. lia.
  - intros r Hr. by apply Hty, T2.
  - intros r Hr. by apply Hty, T3.
  - intros i Hi. rewrite lookup_insert_ne by (unfold q; lia). apply T4. lia.
  - intros i d realm [[-> E]|[N Hx]]%Hin Er; [by rewrite <- E in Hd|]. pose proof (T5 _ _ _ Hx Er). lia.
  - intros k i Hi. destruct (T6 k i Hi) as [Hlt Hk]. split; [lia|]. intros x [[-> _]|[_ Hx]]%Hin; [unfold q in Hlt; lia|auto].
Qed.

Lemma record_allocation_typed h : heap_typed h -> heap_typed (record_allocation h).
Proof.
  intros T. destruct (record_allocation_same h) as (R1 & R2 & R3 & R4 & R5 & R6 & R7).
  assert (record_allocation h = set_inner (inner (record_allocation h)) h) as ->.
  { unfold record_allocation in *. by case_match. }
  by apply heap_typed_inner.
Qed.

(** Registration of a cell of the list's kind. *)
Lemma track_typed k id h h' : heap_typed h -> typed (store h) (id, kind_tag k) -> track k id h = Some h' -> heap_typed h'.
Proof.
  intros T Hid. unfold track. destruct (locked h); [done|]. intros [= <-]. apply record_allocation_typed.
  destruct T as [T1 T2 T3 T4 T5 T6]. split; simpl; try done. intros k' i. rewrite entries_with. case_decide as Hk; [subst k'|auto].
  rewrite elem_of_app, list_elem_of_singleton. intros [Hi| ->]; [auto|]. unfold typed in Hid. simpl in Hid. split.
  - destruct (decide (id < next_address h)%positive); [done|]. by rewrite T4 in Hid by lia.
  - intros c Hc. rewrite Hc in Hid. simpl in Hid. congruence.
Qed.

Lemma tracked_typed k c h id h' : heap_typed h -> all_typed (store h) (cell_refs c) -> tag_of c = kind_tag k ->
  tracked k c h = Some (id, h') -> heap_typed h'.
Proof.
  intros T Hc Ht. unfold tracked. destruct (track _ _ _) as [h1|] eqn:E; [|done]. intros [= <- <-].
  refine (track_typed k _ _ _ _ _ E).
  - apply fresh_typed; [done|done|]. rewrite Ht. by destruct k.
  - unfold typed. simpl. rewrite lookup_insert_eq. simpl. by rewrite Ht.
Qed.

End CollectTyped.
