(* ===== verification/CollectTheorems.v ===== *)
(** Results on the cycle collector: the mark phase ends and marks exactly what is
    reachable, a collection keeps it, prunes the weak containers and queues their
    callbacks, and frees the cycles nothing leads to. *)
From stdpp Require Import prelude list strings gmap sets.
From Stdlib Require Import ZArith Lia.
From S2P Require Import Prelude Heap Collect CollectSpec CollectMark CollectVisit CollectEphemeron CollectPhase CollectSweep CollectDone CollectIdle CollectTyped.
Import ListNotations Heap Collect CollectSpec CollectMark CollectVisit CollectEphemeron CollectPhase CollectSweep CollectPrune CollectDone CollectIdle CollectTyped.

(** ** A heap to try the theorems on *)

(** A scope holds a weak map with a live and a dead key; a registry watches the dead
    one, which refers to itself. *)
Definition sample_object (w : WeakStorage) (l : list (string * Value)) : Cell :=
  CObject {| weak := w; slots := l; meta := exotic_meta None None; index := false; shape := false;
             read_once := false; b_slots := Free; b_meta := Free; b_weak := Free; b_index := Free;
             b_shape := Free |}.

Definition sample_scope (l : list Value) : Cell :=
  CEnv {| vars := l; global_environment := None; with_object := None; resources := [];
          new_target := None; constructor_this := None; intrinsics := []; template_objects := [];
          private_instance_elements := None; parent := None; module_realm := None;
          allocation_prototypes := []; b_env := Free |}.

Definition sample_record : FinalizationRecord := {| target := 5%positive; held := Object 4; token := None |}.
Definition sample_queue : JobQueue :=
  {| microtasks := [[Object 3]]; others := []; dispatch_depth := 0; b_jobs := Free |}.

Definition sample_cells : list (Id * Cell) :=
  [(1, sample_scope [Object 2]);
   (2, sample_object (WMap [(3, Object 4); (5, Object 6)]) [("key"%string, Object 3)]);
   (3, sample_object WNone []); (4, sample_object WNone []);
   (5, sample_object WNone [("self"%string, Object 5)]);
   (6, sample_object WNone []);
   (7, sample_object (WRegistry (Object 3) [sample_record] 8) []);
   (8, CJobs sample_queue)]%positive.

Definition sample_roots : GcRoots :=
  {| envs_ := [1]; values_ := [Object 7]; jobs_ := [8]; modules_ := [] |}%positive.

Definition sample : Heap :=
  {| store := list_to_map sample_cells;
     inner := with_owners {[1%Z := (sample_roots, 0)]} 2 ∅ 1
       (with_entries KEnvs [1%positive] (with_entries KObjects [2; 3; 4; 5; 6; 7]%positive new_inner));
     external := []; next_address := 9; locked := false |}.

Lemma sample_lookup id c : store sample !! id = Some c -> (id, c) ∈ sample_cells.
Proof. apply elem_of_list_to_map_2. Qed.

(** One case for each cell of the sample. *)
Ltac sample_cells_in H :=
  apply sample_lookup in H; unfold sample_cells, sample_scope, sample_object in H;
  repeat (apply elem_of_cons in H as [H|H]; [simplify_eq|]); try (by apply elem_of_nil in H).

Lemma sample_owner_refs : owner_refs sample = {[1; 7; 8]}%positive.
Proof. apply (bool_decide_unpack _). vm_compute. exact I. Qed.

Definition check_refs (s : gmap Id Cell) (l : list Ref) : bool :=
  forallb (fun r => bool_decide (tag_of <$> s !! r.1 = Some r.2)) l.

Lemma check_refs_typed s l : check_refs s l = true -> all_typed s l.
Proof.
  unfold check_refs. rewrite forallb_forall. intros H r Hr%list_elem_of_In. apply H in Hr.
  by apply bool_decide_eq_true in Hr.
Qed.

Lemma sample_typed : heap_typed sample.
Proof.
  split.
  - intros id c H. sample_cells_in H; (split; [by apply check_refs_typed; vm_compute|done]).
  - by intros r []%elem_of_nil.
  - apply check_refs_typed. by vm_compute.
  - intros id Hid. apply not_elem_of_list_to_map_1. simpl. set_unfold. simpl in Hid. lia.
  - intros id d realm H. by sample_cells_in H.
  - intros k id Hid. split.
    + destruct k; simpl in *; set_unfold; lia.
    + intros c H. destruct k; vm_compute in Hid; set_unfold; sample_cells_in H; try done; lia.
Qed.

Lemma sample_managed : managed sample.
Proof.
  split; [exact sample_typed|..].
  - intros id c H. apply elem_of_owned. sample_cells_in H; apply (bool_decide_unpack _); by vm_compute.
  - split; intros; sample_cells_in H; done.
  - intros id l b m H. by sample_cells_in H.
  - intros id o cb rs q H Hw. rewrite sample_owner_refs. sample_cells_in H; simplify_eq/=.
    split; [set_solver|]. by exists sample_queue.
Qed.

(** ** The mark phase *)

(** C16. The mark phase of a collection of a well-typed heap always ends: the loops
    never run out of the turns allotted, and the only panic is a date among the
    published roots that has no property cell yet. *)
Theorem mark_phase_ends h : heap_typed h ->
  (exists st, mark_phase h = Ok st) \/ (mark_phase h = Panic /\ ~ dates_settled h).
Proof.
  intros T. pose proof (mark_phase_goes h T) as G. destruct (mark_phase h); [eauto|done|].
  right. split; [done|]. by intros S%(dates_settled_roots h T).
Qed.

Lemma mark_phase_ends_witness :
  (exists st, mark_phase sample = Ok st) \/ (mark_phase sample = Panic /\ ~ dates_settled sample).
Proof. apply mark_phase_ends. exact sample_typed. Defined.

(** C17. In a managed heap (typed and counted references, nothing being advanced, no
    module with a cached deferred namespace, registries whose queues have an owner)
    with no coroutine suspended, a mark phase that meets no borrowed cell marks
    exactly the reachable identities: those a program can get at from the
    interpreters' roots, the pins and the queues by reading values and cells, the
    value of a weak map's entry through both the map and the key.  With a cached
    deferred namespace it is not so: see [deferred_namespace_cleared]. *)
Theorem marked_exactly_reachable h st id : managed h -> suspended h = false ->
  mark_phase h = Ok st -> borrowed (marker st) = false ->
  id ∈ marked (marker st) <-> reached (store (heap st)) (heap_roots h) (inr id).
Proof.
  intros M Hs E Hb. pose proof (mark_phase_goes h (mg_typed _ M)) as G. rewrite E in G.
  by apply (marked_iff_reached h st (mg_typed _ M) G Hb (mg_quiescent _ M) (mg_deferred _ M) Hs).
Qed.

Definition sample_marked : St := match mark_phase sample with Ok st => st | _ => st_of sample end.

Lemma sample_mark_phase : mark_phase sample = Ok sample_marked.
Proof. vm_compute. reflexivity. Qed.

Lemma marked_exactly_reachable_witness :
  4%positive ∈ marked (marker sample_marked)
  <-> reached (store (heap sample_marked)) (heap_roots sample) (inr 4%positive).
Proof. apply marked_exactly_reachable; [exact sample_managed|reflexivity|exact sample_mark_phase|reflexivity]. Defined.

(** ** What a collection keeps *)

(** C18. A collection of a managed heap, one in which no module caches a deferred
    namespace among the rest, that is not skipped keeps every reachable cell as it
    was, but for the weak entries it prunes, whose keys are not reachable; a date may
    have got its property cell and a queue of jobs may have got jobs.  A namespace
    reachable through such a cache only is lost: [deferred_namespace_cleared]. *)
Theorem collect_keeps_reachable h stats h' : managed h -> collect h = Ok (stats, h') -> skipped stats = None ->
  exists live, (forall id, reached (store h) (heap_roots h) (inr id) -> id ∈ live)
    /\ forall id c, id ∈ live -> store h !! id = Some c -> exists c', store h' !! id = Some c' /\ kept_as live c c'.
Proof.
  intros M H Hk. destruct (collect_runs h stats h' M H Hk) as (st & E & D & Hb & Hs & F).
  exists (marked (marker st)). split.
  - intros id R. apply (marked_iff_reached h st (mg_typed _ M) D Hb (mg_quiescent _ M) (mg_deferred _ M) Hs).
    by apply (reached_evolve (store h)); [apply D|apply (mg_typed _ M)|].
  - intros id c. by apply (marked_kept_as h st).
Qed.

Definition sample_collected : HeapStats * Heap :=
  match collect sample with Ok r => r | _ => (skip Executing, sample) end.

Lemma sample_collect : collect sample = Ok (sample_collected.1, sample_collected.2).
Proof. vm_compute. reflexivity. Qed.

Lemma collect_keeps_reachable_witness :
  exists live, (forall id, reached (store sample) (heap_roots sample) (inr id) -> id ∈ live)
    /\ forall id c, id ∈ live -> store sample !! id = Some c ->
      exists c', store sample_collected.2 !! id = Some c' /\ kept_as live c c'.
Proof. apply (collect_keeps_reachable sample sample_collected.1); [exact sample_managed|exact sample_collect|reflexivity]. Defined.

(** A queue an interpreter owns is a root. *)
Lemma owned_kept m h s q : q ∈ owner_refs h -> kept m (owner_refs h) s q.
Proof. by constructor. Qed.

(** C20. After a collection of a managed heap, one in which no module caches a deferred
    namespace and every registry's queue has an owner among the rest, that is not
    skipped, a reachable weak map, reference or registry holds exactly the
    entries whose key or target is reachable, and every queue an interpreter owns has
    got, behind the jobs it had, one callback for each record pruned from the reachable
    registries that name it, each registry's in their order, none twice. *)
Theorem weak_containers_pruned h stats h' : managed h -> collect h = Ok (stats, h') -> skipped stats = None ->
  exists st ds, mark_phase h = Ok st /\ let live := marked (marker st) in
    (forall id, id ∈ live <-> reached (store (heap st)) (heap_roots h) (inr id))
    /\ (forall id o, id ∈ live -> store h !! id = Some (CObject o) ->
         store h' !! id = Some (CObject (set_weak (prune_storage live (weak o)) o)))
    /\ NoDup ds /\ (forall id, id ∈ ds -> id ∈ live)
    /\ (forall id o, id ∈ live -> store h !! id = Some (CObject o) -> weak o <> WNone -> id ∈ ds)
    /\ forall q qc, q ∈ owner_refs h -> store h !! q = Some (CJobs qc) ->
         store h' !! q = Some (CJobs (add_jobs (concat (map (jobs_for live (store h) q) ds)) qc)).
Proof.
  intros M H Hk. destruct (collect_runs h stats h' M H Hk) as (st & E & D & Hb & Hs & F).
  destruct (fi_pruning _ _ _ F) as (ds & s2 & Hds & P & Hf). exists st, ds. split; [done|]. split_and!.
  - intros id. by apply (marked_iff_reached h st (mg_typed _ M) D Hb (mg_quiescent _ M) (mg_deferred _ M) Hs).
  - intros id o Hm Ho. pose proof (evolve_same _ _ _ _ (pd_evolve _ _ D) Ho ltac:(done)) as H1.
    by apply (marked_end h st M D Hb Hs h' id _ F Hm H1).
  - by apply (pr_nodup _ _ _ _ _ P).
  - intros id Hid%Hds. by apply (weak_cells_ready h st M D Hb Hs).
  - intros id o Hm Ho Hw. apply Hds, (weak_listed h st D Hb id o Hm); [|done].
    by apply (evolve_same _ _ _ _ (pd_evolve _ _ D) Ho).
  - intros q qc Hq Hc. pose proof (evolve_same _ _ _ _ (pd_evolve _ _ D) Hc ltac:(done)) as H1.
    rewrite Hf by by apply (firm_queue _ _ _ _ qc); [apply owned_kept|].
    rewrite (pr_queue _ _ _ _ _ P q qc (owned_kept _ _ _ _ Hq) H1). do 4 f_equal. apply map_ext. intros id.
    apply jobs_for_evolve. apply D.
Qed.

Lemma weak_containers_pruned_witness :
  exists st ds, mark_phase sample = Ok st /\ let live := marked (marker st) in
    (forall id, id ∈ live <-> reached (store (heap st)) (heap_roots sample) (inr id))
    /\ (forall id o, id ∈ live -> store sample !! id = Some (CObject o) ->
         store sample_collected.2 !! id = Some (CObject (set_weak (prune_storage live (weak o)) o)))
    /\ NoDup ds /\ (forall id, id ∈ ds -> id ∈ live)
    /\ (forall id o, id ∈ live -> store sample !! id = Some (CObject o) -> weak o <> WNone -> id ∈ ds)
    /\ forall q qc, q ∈ owner_refs sample -> store sample !! q = Some (CJobs qc) ->
         store sample_collected.2 !! q = Some (CJobs (add_jobs (concat (map (jobs_for live (store sample) q) ds)) qc)).
Proof. apply (weak_containers_pruned sample sample_collected.1); [exact sample_managed|exact sample_collect|reflexivity]. Defined.

(** ** What a collection frees *)

(** C19. A collection of a managed heap that is not skipped frees every cell that no reference from the host, from native frames
    or from the roots leads to, cycles included: the entries of reachable weak maps
    with unreachable keys do not count.  It needs that no such cell is borrowed and
    that the references clearing leaves in them (a function's, a proxy's) form no
    cycle of their own. *)
Theorem collect_frees_unlinked h stats h' st rank : managed h -> collect h = Ok (stats, h') ->
  skipped stats = None -> mark_phase h = Ok st -> unborrowed h st -> unwound h st rank ->
  forall id, ~ linked h st id -> store h' !! id = None.
Proof.
  intros M H Hk E U K. destruct (collect_runs h stats h' M H Hk) as (st' & E' & D & Hb & Hs & F).
  assert (st' = st) as -> by congruence. by apply (unlinked_freed h st M D Hb Hs h' rank).
Qed.

(** In the sample, what leads somewhere leads to the cells that are not 5 or 6. *)
Definition sample_live_refs (x : Id * Cell) : list Id :=
  if bool_decide (x.1 ∈ marked (marker sample_marked)) then live_refs (marked (marker sample_marked)) x.2
  else ref_ids x.2.

Lemma sample_refs : Forall (fun x => x.1 ∈ [5; 6]%positive \/ Forall (fun i => i ∉ [5; 6]%positive) (sample_live_refs x))
  sample_cells.
Proof. apply (bool_decide_unpack _). vm_compute. exact I. Qed.

Lemma sample_store : store (heap sample_marked) = store sample.
Proof. vm_compute. reflexivity. Qed.

Lemma sample_linked id : linked sample sample_marked id -> id ∉ [5; 6]%positive.
Proof.
  induction 1 as [id H|j c id _ IH Hc Hid].
  - rewrite sample_owner_refs in H. set_solver.
  - rewrite sample_store in Hc. apply sample_lookup in Hc. pose proof sample_refs as F.
    rewrite Forall_forall in F. destruct (F _ Hc) as [?|Fr]; [done|]. rewrite Forall_forall in Fr. by apply Fr.
Qed.

Lemma sample_unlinked j c0 : ~ linked sample sample_marked j -> store (heap sample_marked) !! j = Some c0 ->
  registered (inner (heap sample_marked)) j = true /\ exists l, c0 = sample_object WNone l.
Proof.
  rewrite sample_store. intros Hj Hc.
  assert (forall i, i ∈ owner_refs sample -> linked sample sample_marked i) as Hown by (intros; by constructor).
  assert (linked sample sample_marked 2) as H2.
  { apply (linked_ref sample sample_marked 1 (sample_scope [Object 2])); [|by vm_compute|].
    - apply Hown. rewrite sample_owner_refs. set_solver.
    - rewrite bool_decide_eq_true_2 by (apply (bool_decide_unpack _); by vm_compute). by left. }
  sample_cells_in Hc; try done; try (split; [by vm_compute|by eexists]).
  - destruct Hj. apply Hown. rewrite sample_owner_refs. set_solver.
  - destruct Hj. apply Hown. rewrite sample_owner_refs. set_solver.
  - destruct Hj. apply Hown. rewrite sample_owner_refs. set_solver.
Qed.

Lemma sample_unborrowed : unborrowed sample sample_marked.
Proof. intros j c0 Hj Hc. by destruct (sample_unlinked j c0 Hj Hc) as (_ & l & ->). Qed.

(** Cleared, such a cell refers to nothing. *)
Lemma sample_unwound : unwound sample sample_marked (fun _ => 0).
Proof.
  intros j c0 c id Hj Hc L Hid. destruct (sample_unlinked j c0 Hj Hc) as (R & l & ->). exfalso.
  unfold left_over in L. rewrite R in L. injection L as <-. by apply elem_of_nil in Hid.
Qed.

Lemma collect_frees_unlinked_witness : ~ linked sample sample_marked 5 /\ store sample_collected.2 !! 5%positive = None
  /\ store sample_collected.2 !! 6%positive = None.
Proof.
  assert (forall id, ~ linked sample sample_marked id -> store sample_collected.2 !! id = None) as H.
  { apply (collect_frees_unlinked sample sample_collected.1 _ sample_marked (fun _ => 0));
      [exact sample_managed|exact sample_collect|reflexivity|exact sample_mark_phase|exact sample_unborrowed|exact sample_unwound]. }
  split_and!; [|apply H|apply H]; intros N; apply sample_linked in N; set_solver.
Defined.

(** ** Returning *)

Lemma sample_idle : idle (store sample).
Proof. intros id c H. by sample_cells_in H. Qed.

Lemma sample_settled : dates_settled sample.
Proof. intros v Hv. assert (published sample = [Object 7]) as E by (vm_compute; reflexivity). rewrite E in Hv. set_solver. Qed.

(** C21. A collection of a typed, idle heap whose published dates have their cells returns,
    without a panic and with no cell left borrowed, and runs unless a coroutine is
    suspended or an interpreter is executing.  A published date without its cell
    does make it panic: see [pinned_date_panics]. *)
Theorem collect_returns h : heap_typed h -> idle (store h) -> dates_settled h ->
  exists stats h', collect h = Ok (stats, h') /\ idle (store h') /\
    skipped stats = if suspended h then Some SuspendedTasks else if executing h then Some Executing else None.
Proof. apply collect_idle. Qed.

Lemma collect_returns_witness :
  exists stats h', collect sample = Ok (stats, h') /\ idle (store h') /\ skipped stats = None.
Proof. apply (collect_returns sample); [exact sample_typed|exact sample_idle|exact sample_settled]. Defined.

(** C22. Every operation of the heap keeps references typed and the registry's lists of
    their kinds: allocation, the registration of interpreters and pins and their
    removal, and collection. *)
Theorem heap_operations_typed h : heap_typed h ->
  (forall k c id h', all_typed (store h) (cell_refs c) -> tag_of c = kind_tag k -> tracked k c h = Some (id, h') -> heap_typed h')
  /\ (forall roots n id h', all_typed (store h) (roots_refs roots) -> register_interp roots n h = Some (id, h') -> heap_typed h')
  /\ (forall id roots, all_typed (store h) (roots_refs roots) -> heap_typed (republish_roots id roots h))
  /\ (forall id, heap_typed (unregister_interp id h))
  /\ (forall v id h', all_typed (store h) (value_refs v) -> add_root v h = Some (id, h') -> heap_typed h')
  /\ (forall id h', remove_root id h = Some h' -> heap_typed h')
  /\ forall stats h', collect h = Ok (stats, h') -> heap_typed h'.
Proof.
  intros T. destruct (owners_typed h T) as [Ti Tp]. split_and!.
  - intros k c id h'. by apply tracked_typed.
  - intros roots n id h' Hr. unfold register_interp. destruct (locked h); [done|]. intros [= <- <-].
    apply with_owners_typed; [done| |done]. intros i x [[_ <-]|[_ Hx]]%lookup_insert_Some; [done|by eapply Ti].
  - intros id roots Hr. unfold republish_roots. destruct (locked h); [done|].
    destruct (interps (inner h) !! id) as [[old n]|]; [|done]. apply release_typed, with_owners_typed; [done| |done].
    intros i x [[_ <-]|[_ Hx]]%lookup_insert_Some; [done|by eapply Ti].
  - intros id. unfold unregister_interp. destruct (locked h); [done|]. apply release_typed, with_owners_typed; [done| |done].
    intros i x [_ Hx]%lookup_delete_Some. by eapply Ti.
  - intros v id h' Hv. unfold add_root. destruct (locked h); [done|]. intros [= <- <-].
    apply with_owners_typed; [done|done|]. intros i x [[_ <-]|[_ Hx]]%lookup_insert_Some; [done|by eapply Tp].
  - intros id h'. unfold remove_root. destruct (locked h); [done|]. intros [= <-].
    apply release_typed, with_owners_typed; [done|done|]. intros i x [_ Hx]%lookup_delete_Some. by eapply Tp.
  - intros stats h'. by apply collect_keeps_typed.
Qed.

Lemma heap_operations_typed_witness : heap_typed sample_collected.2 /\ heap_typed (unregister_interp 1 sample).
Proof.
  destruct (heap_operations_typed sample sample_typed) as (_ & _ & _ & H4 & _ & _ & H7). split; [|apply H4].
  exact (H7 _ _ sample_collect).
Defined.

(** ** Two heaps the collector does not treat as it means to *)

(** A date the host pins before anything asked for its property cell: marking it
    registers the cell while the heap is borrowed. *)
Definition pinned_date : Heap :=
  {| store := {[1%positive := CDate {| date_properties := None; date_realm := None; date_prototype := None |}]};
     inner := with_owners ∅ 1 {[1%Z := Date 1]} 2 new_inner;
     external := []; next_address := 2; locked := false |}.

Example pinned_date_panics : heap_typed pinned_date /\ collect pinned_date = Panic.
Proof.
  split; [|by vm_compute]. split; simpl.
  - intros id c [<- <-]%lookup_singleton_Some. split; [intros r Hr; by apply elem_of_nil in Hr|done].
  - by intros r []%elem_of_nil.
  - apply check_refs_typed. by vm_compute.
  - intros id Hid. apply lookup_singleton_None. lia.
  - by intros id d realm [_ [= <-]]%lookup_singleton_Some.
  - intros k id Hid. destruct k; by apply elem_of_nil in Hid.
Qed.

(** A module whose deferred namespace is cached. *)
Definition deferring_module : Module_ :=
  {| source_object := None; import_meta := None; namespace := None; b_namespace := Free;
     deferred_namespace := Some (Object 2); exports := []; default_ := None; scope := None |}.

Definition deferring : Heap :=
  {| store := list_to_map [(1, CModules [deferring_module] Free);
                           (2, sample_object WNone [("export"%string, Plain)])]%positive;
     inner := with_owners {[1%Z := ({| envs_ := []; values_ := []; jobs_ := []; modules_ := [1%positive] |}, 0)]} 2 ∅ 1
       (with_entries KObjects [2%positive] new_inner);
     external := []; next_address := 3; locked := false |}.

(** The namespace is reachable, and loses its properties. *)
Example deferred_namespace_cleared :
  reached (store deferring) (heap_roots deferring) (inr 2%positive)
  /\ match collect deferring with
     | Ok (stats, h) => skipped stats = None /\ store h !! 2%positive = Some (sample_object WNone [])
     | _ => False
     end.
Proof.
  split; [|by vm_compute]. apply (reached_value _ _ (Object 2)); [|by left]. constructor. by vm_compute; left.
Qed.
